(* ===== verification/_CoqProject ===== *)
-Q . S2P
Prelude.v
Bytes.v
Tx.v
CoinAge.v
Utxo.v
ScriptNum.v
Hashing.v
Merkle.v
ScriptOps.v
Script.v
ScriptSafe.v
ScriptCache.v
ScriptStd.v
ScriptSpend.v
ScriptMultisig.v
Bech32.v
Float.v
Interval.v
Slice.v
BTree.v
Ledger.v
LedgerSteps.v
LedgerUndo.v
LedgerInv.v
LedgerAudit.v
LedgerRuns.v
LedgerRewards.v
LedgerSnapshot.v
LedgerWire.v
Params.v
Payloads.v
Mass.v
TxValidate.v
TxContext.v
TxScripts.v
TxTheorems.v
TxSpend.v
TxContextTheorems.v
Pipeline.v
ReachStore.v
Reachability.v
ReachTree.v
ReachReindex.v
ReachPropagate.v
ReachReclaim.v
ReachWalk.v
ReachAdd.v
ReachDag.v
ReachDelete.v
Dag.v
ReachTheorems.v
ReachService.v
Math.v
MathArith.v
U3072.v
MuHash.v
UtxoCommit.v
ServiceCommit.v
ServiceState.v
ServiceMirror.v
ServiceRestart.v
ServiceChain.v
ServiceBase.v
ServiceTransfer.v
MathTarget.v
GhostdagStore.v
Difficulty.v
Coinbase.v
UtxoState.v
ServiceEvents.v
ServiceCohort.v
Ghostdag.v
GhostdagSpec.v
GhostdagMergeset.v
GhostdagColor.v
GhostdagTheorems.v
