(* ===== verification/Prelude.v ===== *)
(** * A verification of the Keryx node

    Keryx is a proof-of-work block DAG: blocks name several parents, GHOSTDAG
    colours the blocks that a new block merges, and the order it induces decides
    which transactions a UTXO ledger accepts.  This library models the consensus
    core of the node, from the integers and byte strings up to the validation of
    the transactions of a block, as functions that compute, and proves that they
    do what the rest of the node relies on.

    ** How programs are modelled

    A Rust function is a Rocq function with the same name.  A call that can
    return an error or panic has a result in [outcome] (below): overflow of the
    checked operators, indices out of range, failed assertions and divisions by
    zero are [Panic], as in the release profile of the workspace, whose
    [overflow-checks] are on; [debug_assert!] is not run.  Mutable state is
    passed and returned.  Integers are [Z] and every operator of the source
    whose overflow matters is written at its width.  A 32-byte hash is the
    number that its bytes spell in big-endian order, a [HashMap] is a [gmap], a
    [Vec] is a list, a stack has its top at the end of the list.  Traits of the
    source that one component uses of another are type classes: [UtxoView] and
    [ImmutableUtxoDiff] (Utxo), [ReachabilityStore] (ReachStore),
    [ReachabilityService] (ReachService), [GhostdagStoreReader] and
    [GhostdagStoreLaws] (GhostdagStore).

    Code outside of the repository is a parameter: the hash functions ([Hashers]
    in Hashing), the curve library ([Crypto] in Script) and the insertion-ordered
    map behind the signature cache ([IndexMap] in Script) are classes whose laws
    are documented behaviour of those crates; the schedule of the thread pool is
    an argument of the functions that run in it (TxValidate, TxContext).  Each
    class has an instance on which the theorems are run ([spell_hashers],
    [spell_crypto], [spell_map]).  The power function of floating point has an
    unspecified precision, so that the reward of a month is an argument (Coinbase).

    ** The parts

    Integers (math): Math, MathArith, MathTarget, MathTheorems model the
    word arrays that [construct_uint!] of [math/src/uint.rs] generates and the
    compact targets of [math/src/lib.rs].  Ring operations, shifts, comparison
    and both divisions are arithmetic modulo [2^BITS], and compact targets round
    trip up to the bits they drop.

    Difficulty (consensus/src/processes/difficulty.rs): Difficulty,
    DifficultyTheorems.  The sampled manager computes the retargeting formula in
    exact arithmetic, independently of the order of its window; the work of a
    target is [2^256 / (target + 1)].  Params has the fork activations of
    [config/params.rs].

    Reachability (consensus/src/processes/reachability): Interval, Float and
    Slice model the intervals, the floating point and the slice operations that
    the code uses; ReachStore the store; Reachability the queries, the reindexing
    and the operations; ReachTree to ReachDelete prove its parts; Dag and
    ReachTheorems state what is promised: a store that represents a DAG answers
    ancestry by DAG ancestry, adding a block succeeds within a stated capacity and
    keeps the representation, deleting a block keeps the answers about all other
    blocks.  ReachService and ReachChain are the service and its iterators
    ([model/services/reachability.rs]).

    GHOSTDAG (consensus/src/processes/ghostdag, model/stores/ghostdag.rs):
    GhostdagStore, Ghostdag and its specification GhostdagSpec;
    GhostdagMergeset, GhostdagColor, GhostdagTheorems.  On a DAG that carries
    GHOSTDAG data and against any correct reachability service, the protocol
    returns the colouring of the reference definition and extends the invariant
    to the new block.

    Transactions and coins (consensus/core/src/tx.rs, coin_age.rs, utxo): Tx,
    Bytes, CoinAge, Utxo.  Diffs compose, invert and are transported as the views
    they describe; a transaction added to a diff spends and creates exactly its
    coins; the ages of the outputs are those of a first-in first-out reference.

    Hashing and scripts (consensus/core/src/hashing, crypto/txscript): Hashing,
    HashingTheorems; ScriptNum, ScriptOps, Script, ScriptStd with
    ScriptNumTheorems, ScriptSafe, ScriptCache, ScriptSpend, ScriptMultisig.  Ids
    and signature hashes commit to what they should up to collisions; no script
    makes the engine panic or exceed its limits; the caches are transparent; the
    standard outputs, the escrow output and multi-signatures are spent by exactly
    the inputs they are meant for.

    Validation (consensus/core/src/mass, inference/src/ai_payload.rs,
    consensus/src/processes/transaction_validator, and the entry points of
    consensus/src/pipeline/virtual_processor): Payloads, Mass, TxValidate,
    TxContext with TxScripts, TxTheorems, TxSpend, TxContextTheorems.  Validation in isolation, against
    UTXO entries and of a whole block accepts exactly what the stated conditions
    describe, in any schedule and with any cache, and does not panic; the storage
    mass is the formula of KIP-0009; one theorem shows a panic that the mempool
    runs into.

    Scheduling (consensus/src/pipeline/deps_manager.rs, and [worker] and
    [queue_block] of the header and body processors): Pipeline,
    PipelineTheorems.  The jobs of the pool are a step relation over any
    interleaving; the manager never panics, processes a block after what was
    received about its parents and one task of a block at a time, and completes
    everything it receives within a stated number of steps.

    Addresses and rewards (crypto/addresses, consensus/src/processes/coinbase.rs,
    and the coinbase part of [modify_block_template]): Bech32, Bech32Theorems,
    Coinbase, CoinbaseTheorems.  Addresses round trip, a change within eight
    consecutive characters is always detected, and one theorem shows texts on
    which the decoder panics.  The expected coinbase distributes exactly the
    rewards of the merged blocks and is valid, a template follows a change of the
    miner, payloads round trip, and the subsidy follows the schedule.

    ** Fuel

    Loops that are not structural take a number of steps.  In the reachability
    and GHOSTDAG models it is an argument, and the theorems ask for more steps
    than there are blocks, which is enough because the searches visit a block
    once and the walks go up a tree; the theorems then state that the functions
    return, so that [OutOfFuel] never answers.  The decimal printer takes as many
    steps as the value has bits, and the parser of scripts as many as the script
    has bytes.

    ** Not modelled

    Logging, metrics, locks and the database: stores are maps, and a call reads
    one state. What the pipelines of headers, bodies and pruning do with a block
    beyond its scheduling, the resolution of the virtual chain, block templates
    beyond their coinbase, the service-bond and proof-of-model rules, windows
    and past median time, pruning proofs and synchronisation, the mempool and
    its fee estimator: not yet. The hash functions, MuHash and the proof of work
    are arithmetic on cryptographic permutations, which are parameters here.
    RPC, notification, wallets, command line, peer-to-peer protocol, bridge and
    the WebAssembly bindings are input and output around these parts. Floating
    point is modelled for finite non-negative values, which are those that occur
    in the intervals and in fee rates. The parallel check of scripts interleaves
    whole inputs: the caches it shares are transparent, so that finer
    interleavings read and write the same right answers. *)

From stdpp Require Export base gmap list sorting.
From Stdlib Require Export ZArith Lia.

#[local] Open Scope Z_scope.

(** ** Outcomes

    A Rust call ends in one of four ways.  It returns [Ok a]; it returns
    [Err e]; it panics (an [unwrap] of [None], an index out of range, a failed
    [assert!], an arithmetic overflow: the release profile of the workspace
    sets [overflow-checks = true]); or, for the loops that are modelled with
    fuel, the fuel of the model runs out. *)
Inductive outcome (E A : Type) : Type :=
| Ok (a : A)
| Err (e : E)
| Panic
| OutOfFuel.

Arguments Ok {E A} a.
Arguments Err {E A} e.
Arguments Panic {E A}.
Arguments OutOfFuel {E A}.

Definition outcome_ret {E A} (a : A) : outcome E A := Ok a.

Definition outcome_map {E A B} (f : A -> B) (c : outcome E A) : outcome E B :=
  match c with Ok a => Ok (f a) | Err e => Err e | Panic => Panic | OutOfFuel => OutOfFuel end.

#[export] Instance outcome_mret {E} : MRet (outcome E) := fun A a => Ok a.

#[export] Instance outcome_mbind {E} : MBind (outcome E) := fun A B f c =>
  match c with Ok a => f a | Err e => Err e | Panic => Panic | OutOfFuel => OutOfFuel end.

#[export] Instance outcome_fmap {E} : FMap (outcome E) := fun A B => outcome_map.

(** [unwrap] of an option and of a store read. *)
Definition unwrap {E A} (o : option A) : outcome E A :=
  match o with Some a => Ok a | None => Panic end.

(** [unwrap] (or [expect]) of a [Result]: an error is a panic. *)
Definition unwrap_r {E E' A} (c : outcome E A) : outcome E' A :=
  match c with Ok a => Ok a | OutOfFuel => OutOfFuel | _ => Panic end.

(** [ok_or]: an absent value is the error [e]. *)
Definition ok_or {E A} (e : E) (o : option A) : outcome E A :=
  match o with Some a => Ok a | None => Err e end.

(** [map_err]. *)
Definition map_err {E E' A} (f : E -> E') (c : outcome E A) : outcome E' A :=
  match c with Ok a => Ok a | Err e => Err (f e) | Panic => Panic | OutOfFuel => OutOfFuel end.

(** [assert!]. *)
Definition assert {E} (b : bool) : outcome E () := if b then Ok () else Panic.

Definition is_ok {E A} (c : outcome E A) : bool :=
  match c with Ok _ => true | _ => false end.

Section outcome_lemmas.
Context {E : Type}.

Lemma bind_Ok {A B} (c : outcome E A) (f : A -> outcome E B) (b : B) :
  c ≫= f = Ok b <-> exists a, c = Ok a /\ f a = Ok b.
Proof. destruct c; naive_solver. Qed.

Lemma unwrap_Ok {A} (o : option A) (a : A) : unwrap (E := E) o = Ok a <-> o = Some a.
Proof. destruct o; naive_solver. Qed.

Lemma ok_or_Ok {A} (e : E) (o : option A) (a : A) : ok_or e o = Ok a <-> o = Some a.
Proof. destruct o; naive_solver. Qed.

Lemma assert_Ok (b : bool) u : assert (E := E) b = Ok u <-> b = true.
Proof. destruct b, u; naive_solver. Qed.
End outcome_lemmas.

(** [inv_ok H] decomposes a successful monadic computation [H] into the
    successes of its steps. *)
Ltac inv_ok H :=
  lazymatch type of H with
  | (_ ≫= _) = Ok _ =>
      let a := fresh "a" in let H1 := fresh "Hok" in
      apply bind_Ok in H as (a & H1 & H); inv_ok H1; inv_ok H
  | unwrap _ = Ok _ => apply unwrap_Ok in H
  | ok_or _ _ = Ok _ => apply ok_or_Ok in H
  | assert _ = Ok _ => apply assert_Ok in H
  | Ok _ = Ok _ => injection H as H; subst
  | Err _ = Ok _ => discriminate H
  | Panic = Ok _ => discriminate H
  | OutOfFuel = Ok _ => discriminate H
  | _ => idtac
  end.

(** [run] executes the binds of a computation whose steps are known. *)
Ltac run := cbn [unwrap unwrap_r assert mbind outcome_mbind].

(** ** Monadic loops *)

(** [for x in l { s = f(s, x)? }]. *)
Fixpoint foldM {E S A} (f : S -> A -> outcome E S) (s : S) (l : list A) : outcome E S :=
  match l with
  | [] => Ok s
  | a :: l => s' ← f s a; foldM f s' l
  end.

(** [iter().map(f).collect::<Result<Vec<_>>>()]. *)
Fixpoint mapM' {E A B} (f : A -> outcome E B) (l : list A) : outcome E (list B) :=
  match l with
  | [] => Ok []
  | a :: l => b ← f a; bs ← mapM' f l; Ok (b :: bs)
  end.

Lemma foldM_app {E S A} (f : S -> A -> outcome E S) s l1 l2 :
  foldM f s (l1 ++ l2) = (s' ← foldM f s l1; foldM f s' l2).
Proof.
  revert s; induction l1 as [|a l1 IH]; intros s; cbn; [done|].
  destruct (f s a); cbn; auto.
Qed.

(** [iter().any(f)] and [iter().enumerate().find(f)] with a predicate that may
    panic; the search starts at index [i]. *)
Fixpoint existsM {E A} (f : A -> outcome E bool) (l : list A) : outcome E bool :=
  match l with
  | [] => Ok false
  | a :: l => b ← f a; if (b : bool) then Ok true else existsM f l
  end.

Fixpoint findM {E A} (f : A -> outcome E bool) (i : Z) (l : list A) : outcome E (option (Z * A)) :=
  match l with
  | [] => Ok None
  | a :: l => b ← f a; if (b : bool) then Ok (Some (i, a)) else findM f (i + 1) l
  end.

(** The invariant rule of a [foldM] loop: [I done s] holds of the elements
    already visited and the state. *)
Lemma foldM_invariant {E S A} (f : S -> A -> outcome E S) (I : list A -> S -> Prop) s l s' :
  I [] s ->
  (forall pre a post st st',
      l = pre ++ a :: post -> I pre st -> f st a = Ok st' -> I (pre ++ [a]) st') ->
  foldM f s l = Ok s' -> I l s'.
Proof.
  intros H0 Hstep.
  assert (forall pre rest st, l = pre ++ rest -> I pre st -> foldM f st rest = Ok s' -> I l s') as Hgen.
  { intros pre rest; revert pre; induction rest as [|a rest IH]; intros pre st -> HI HF; cbn in HF.
    - inv_ok HF. by rewrite app_nil_r.
    - inv_ok HF. eapply (IH (pre ++ [a])); [by rewrite <-app_assoc| |done].
      by eapply Hstep. }
  intros HF; by eapply (Hgen [] l).
Qed.

(** The same rule for a loop that always succeeds. *)
Lemma foldM_total {E S A} (f : S -> A -> outcome E S) (I : list A -> S -> Prop) s l :
  I [] s ->
  (forall pre a post st,
      l = pre ++ a :: post -> I pre st -> exists st', f st a = Ok st' /\ I (pre ++ [a]) st') ->
  exists s', foldM f s l = Ok s' /\ I l s'.
Proof.
  intros H0 Hstep.
  assert (forall pre rest st, l = pre ++ rest -> I pre st ->
            exists s', foldM f st rest = Ok s' /\ I l s') as Hgen.
  { intros pre rest; revert pre; induction rest as [|a rest IH]; intros pre st -> HI; cbn.
    - exists st. by rewrite app_nil_r in *.
    - destruct (Hstep pre a rest st) as (st' & -> & HI'); [done..|]; cbn.
      apply (IH (pre ++ [a])); [by rewrite <-app_assoc|done]. }
  by apply (Hgen [] l).
Qed.

(** ** Machine integers

    An unsigned integer of width [w] is a [Z] in [0, 2^w).  The checked
    operators of the release profile panic outside of that range. *)
Definition umax (w : Z) : Z := 2 ^ w - 1.
Definition u64_max : Z := umax 64.
Definition in_u (w x : Z) : Prop := 0 <= x < 2 ^ w.
Definition in_ub (w x : Z) : bool := (0 <=? x) && (x <? 2 ^ w).

Definition checked {E} (w x : Z) : outcome E Z := if in_ub w x then Ok x else Panic.
Definition add_ {E} (w a b : Z) : outcome E Z := checked w (a + b).
Definition sub_ {E} (w a b : Z) : outcome E Z := checked w (a - b).
Definition mul_ {E} (w a b : Z) : outcome E Z := checked w (a * b).
Definition div_ {E} (a b : Z) : outcome E Z := if b =? 0 then Panic else Ok (a / b).

(** [checked_add] and [checked_mul]: the value, or [None] on overflow. *)
Definition checked_add (w a b : Z) : option Z := if in_ub w (a + b) then Some (a + b) else None.
Definition checked_mul (w a b : Z) : option Z := if in_ub w (a * b) then Some (a * b) else None.

Definition sat_sub (a b : Z) : Z := Z.max 0 (a - b).
Definition sat_add (w a b : Z) : Z := Z.min (umax w) (a + b).
Definition sat_mul (w a b : Z) : Z := Z.min (umax w) (a * b).
Definition div_ceil (a b : Z) : Z := (a + b - 1) / b.

Lemma in_ub_spec w x : in_ub w x = true <-> in_u w x.
Proof. unfold in_ub, in_u. lia. Qed.

Lemma checked_Ok {E} w x y : checked (E := E) w x = Ok y <-> y = x /\ in_u w x.
Proof.
  unfold checked. pose proof (in_ub_spec w x).
  destruct (in_ub w x); split; [naive_solver| naive_solver | done |].
  intros [_ Hx]. by apply H in Hx.
Qed.

Lemma checked_in {E} w x : in_u w x -> checked (E := E) w x = Ok x.
Proof. intros Hx. by apply checked_Ok. Qed.

Lemma add_ok {E} w a b : in_u w (a + b) -> add_ (E := E) w a b = Ok (a + b).
Proof. apply checked_in. Qed.
Lemma sub_ok {E} w a b : in_u w (a - b) -> sub_ (E := E) w a b = Ok (a - b).
Proof. apply checked_in. Qed.
Lemma mul_ok {E} w a b : in_u w (a * b) -> mul_ (E := E) w a b = Ok (a * b).
Proof. apply checked_in. Qed.

Lemma div_Ok {E} a b y : div_ (E := E) a b = Ok y <-> b <> 0 /\ y = a / b.
Proof. unfold div_. destruct (Z.eqb_spec b 0); naive_solver. Qed.

Lemma checked_add_Some w a b c : checked_add w a b = Some c <-> c = a + b /\ in_u w (a + b).
Proof.
  unfold checked_add. pose proof (in_ub_spec w (a + b)).
  destruct (in_ub w (a + b)); split; [naive_solver|naive_solver|done|].
  intros [_ Hx]. by apply H in Hx.
Qed.

Lemma checked_mul_Some w a b c : checked_mul w a b = Some c <-> c = a * b /\ in_u w (a * b).
Proof.
  unfold checked_mul. pose proof (in_ub_spec w (a * b)).
  destruct (in_ub w (a * b)); split; [naive_solver|naive_solver|done|].
  intros [_ Hx]. by apply H in Hx.
Qed.

Create HintDb keryx.
#[export] Hint Resolve checked_in : keryx.

(** ** Sums over lists *)
Definition Zsum (l : list Z) : Z := foldr Z.add 0 l.

#[global] Arguments Zsum _ : simpl never.

Lemma Zsum_nil : Zsum [] = 0.
Proof. done. Qed.

Lemma Zsum_cons x l : Zsum (x :: l) = x + Zsum l.
Proof. done. Qed.

Lemma Zsum_app l1 l2 : Zsum (l1 ++ l2) = Zsum l1 + Zsum l2.
Proof.
  induction l1 as [|x l1 IH]; [done|].
  rewrite <-app_comm_cons, !Zsum_cons, IH. lia.
Qed.

#[export] Hint Rewrite Zsum_nil Zsum_cons Zsum_app : keryx.

Ltac zsum := cbn [fmap list_fmap] in *; autorewrite with keryx in *; try lia.

Lemma Zsum_nonneg l : Forall (fun x => 0 <= x) l -> 0 <= Zsum l.
Proof. induction 1; zsum. Qed.

Lemma Zsum_perm l1 l2 : l1 ≡ₚ l2 -> Zsum l1 = Zsum l2.
Proof. induction 1; zsum. Qed.

Lemma Zsum_le l1 l2 : Forall2 Z.le l1 l2 -> Zsum l1 <= Zsum l2.
Proof. induction 1; zsum. Qed.

Lemma Zsum_map_ext {A} (f g : A -> Z) l :
  (forall a, a ∈ l -> f a = g a) -> Zsum (f <$> l) = Zsum (g <$> l).
Proof.
  intros H; induction l as [|a l IH]; [done|]. zsum.
  rewrite (H a) by left. rewrite IH; [done|]. intros; apply H; by right.
Qed.

Lemma Zsum_map_add {A} (f g : A -> Z) l :
  Zsum ((fun a => f a + g a) <$> l) = Zsum (f <$> l) + Zsum (g <$> l).
Proof. induction l as [|a l IH]; zsum. Qed.

Lemma Zsum_map_mul {A} (c : Z) (f : A -> Z) l :
  Zsum ((fun a => c * f a) <$> l) = c * Zsum (f <$> l).
Proof. induction l as [|a l IH]; zsum. Qed.

(** [iter().sum::<u64>()]: no overflow when the total fits. *)
Lemma foldM_add64 {E} l acc :
  0 <= acc -> Forall (fun x => 0 <= x) l -> acc + Zsum l < 2 ^ 64 ->
  foldM (add_ (E := E) 64) acc l = Ok (acc + Zsum l).
Proof.
  intros Hacc Hl. revert acc Hacc.
  induction Hl as [|x l Hx Hl IH]; intros acc Hacc Hb; [cbn; f_equal; zsum|].
  rewrite Zsum_cons in *. pose proof (Zsum_nonneg l Hl).
  cbn. unfold add_. rewrite checked_in by (unfold in_u; lia); cbn.
  rewrite IH by lia. f_equal. lia.
Qed.

(** ** Stable sorting

    The slice sorts of the Rust standard library are stable; [sort_by leb] is
    the stable insertion sort for the (total, transitive) comparison [leb]. *)
Section sort.
Context {A : Type} (leb : A -> A -> bool).

Fixpoint sort_insert (x : A) (l : list A) : list A :=
  match l with
  | [] => [x]
  | y :: l' => if leb x y then x :: l else y :: sort_insert x l'
  end.

Definition sort_by (l : list A) : list A := foldr sort_insert [] l.

Lemma sort_insert_perm x l : sort_insert x l ≡ₚ x :: l.
Proof.
  induction l as [|y l IH]; cbn; [done|].
  destruct (leb x y); [done|]. rewrite IH. apply perm_swap.
Qed.

Lemma sort_by_perm l : sort_by l ≡ₚ l.
Proof. induction l as [|x l IH]; cbn; [done|]. by rewrite sort_insert_perm, IH. Qed.

Lemma length_sort_by l : length (sort_by l) = length l.
Proof. by rewrite sort_by_perm. Qed.

Lemma elem_of_sort_by x l : x ∈ sort_by l <-> x ∈ l.
Proof. by rewrite sort_by_perm. Qed.

Context (leb_total : forall x y, leb x y = true \/ leb y x = true).
Context (leb_trans : forall a b c, leb a b = true -> leb b c = true -> leb a c = true).

Lemma sort_insert_sorted x l :
  StronglySorted (fun a b => leb a b = true) l ->
  StronglySorted (fun a b => leb a b = true) (sort_insert x l).
Proof.
  induction 1 as [|y l Hs IH Hall]; cbn; [repeat constructor|].
  destruct (leb x y) eqn:Exy.
  - constructor; [by constructor|]. constructor; [done|].
    eapply Forall_impl; [done|]. cbn. eauto.
  - constructor; [done|]. rewrite Forall_forall in *. intros z Hz.
    rewrite sort_insert_perm, elem_of_cons in Hz. destruct Hz as [->|Hz]; [|by apply Hall].
    destruct (leb_total x y); congruence.
Qed.

Lemma sort_by_sorted l : StronglySorted (fun a b => leb a b = true) (sort_by l).
Proof. induction l; cbn; [constructor|]. by apply sort_insert_sorted. Qed.
End sort.
