(* ===== verification/Bytes.v ===== *)
(** * Byte strings

    Little-endian encodings of machine integers and the bytes of a hash, which
    the hashers, the scripts and the coinbase payload share. *)
From S2P Require Import Prelude.

#[local] Open Scope Z_scope.

Definition is_byte (b : Z) : Prop := 0 <= b < 256.

(** [to_le_bytes] and [from_le_bytes] of an [n]-byte integer. *)
Fixpoint le_bytes (n : nat) (x : Z) : list Z :=
  match n with O => [] | S n => x mod 256 :: le_bytes n (x / 256) end.
Fixpoint of_le_bytes (l : list Z) : Z :=
  match l with [] => 0 | b :: l => b + 256 * of_le_bytes l end.

(** [Hash::as_bytes]: the 32 bytes of a hash. *)
Definition hash_bytes (h : Z) : list Z := rev (le_bytes 32 h).

Lemma length_le_bytes n x : length (le_bytes n x) = n.
Proof. revert x. induction n; intros x; cbn; [done|]. by rewrite IHn. Qed.

Lemma le_bytes_bytes n x : Forall is_byte (le_bytes n x).
Proof.
  revert x. induction n; intros x; cbn; [constructor|]. constructor; [|done]. apply Z.mod_pos_bound. lia.
Qed.

Lemma length_hash_bytes h : length (hash_bytes h) = 32%nat.
Proof. unfold hash_bytes. by rewrite length_rev, length_le_bytes. Qed.

Lemma of_le_bound l : Forall is_byte l -> 0 <= of_le_bytes l < 256 ^ Z.of_nat (length l).
Proof.
  induction 1 as [|b l Hb _ IH]; [done|]. cbn [of_le_bytes length]. rewrite Nat2Z.inj_succ, Z.pow_succ_r by lia.
  unfold is_byte in Hb. lia.
Qed.

Lemma of_le_le n x : 0 <= x < 256 ^ Z.of_nat n -> of_le_bytes (le_bytes n x) = x.
Proof.
  revert x. induction n as [|n IH]; intros x Hx; cbn [le_bytes of_le_bytes]; [cbn in Hx; lia|].
  rewrite Nat2Z.inj_succ, Z.pow_succ_r in Hx by lia. rewrite IH.
  - pose proof (Z.div_mod x 256). lia.
  - split; [apply Z.div_pos; lia|]. apply Z.div_lt_upper_bound; lia.
Qed.

Lemma le_of_le n l : length l = n -> Forall is_byte l -> le_bytes n (of_le_bytes l) = l.
Proof.
  intros <- Hl. induction Hl as [|b l Hb _ IH]; [done|]. cbn [length le_bytes of_le_bytes]. unfold is_byte in Hb.
  replace ((b + 256 * of_le_bytes l) mod 256) with b; [|rewrite Z.mul_comm, Z.mod_add, Z.mod_small; lia].
  replace ((b + 256 * of_le_bytes l) / 256) with (of_le_bytes l); [by rewrite IH|].
  rewrite Z.mul_comm, Z.div_add, Z.div_small; lia.
Qed.

Lemma of_le_app l1 l2 : of_le_bytes (l1 ++ l2) = of_le_bytes l1 + 256 ^ Z.of_nat (length l1) * of_le_bytes l2.
Proof.
  induction l1 as [|b l1 IH]; cbn [app of_le_bytes length]; [rewrite Z.mul_1_l; lia|].
  rewrite IH, Nat2Z.inj_succ, Z.pow_succ_r by lia. lia.
Qed.

Lemma le_bytes_inj n x y : 0 <= x < 256 ^ Z.of_nat n -> 0 <= y < 256 ^ Z.of_nat n -> le_bytes n x = le_bytes n y -> x = y.
Proof. intros Hx Hy E. rewrite <-(of_le_le n x), <-(of_le_le n y) by done. by rewrite E. Qed.

Lemma hash_bytes_inj x y : 0 <= x < 2 ^ 256 -> 0 <= y < 2 ^ 256 -> hash_bytes x = hash_bytes y -> x = y.
Proof.
  unfold hash_bytes. intros Hx Hy E. apply (f_equal (@rev Z)) in E. rewrite !rev_involutive in E.
  by apply (le_bytes_inj 32) in E.
Qed.

#[export] Hint Resolve le_bytes_bytes : keryx.
