(* ===== verification/Tx.v ===== *)
(** * Transactions

    The data of [consensus/core/src/tx.rs], [tx/script_public_key.rs] and
    [subnets.rs]: outpoints, script public keys, UTXO entries, inputs, outputs,
    transactions and populated transactions.  A 32-byte hash is the number its
    bytes spell in big-endian order, so that the derived (lexicographic) order
    of the Rust type is the order of the numbers. *)

From S2P Require Import Prelude.
From stdpp Require Import base gmap list.
#[local] Open Scope Z_scope.

Notation Hash := Z (only parsing).
Notation TransactionId := Z (only parsing).

(** [blockhash::NONE] and [blockhash::ORIGIN]. *)
Definition hash_of_bytes (bs : list Z) : Hash := foldl (fun acc b => acc * 256 + b) 0 bs.
Definition NONE : Hash := hash_of_bytes (replicate 32 0).
Definition ORIGIN : Hash := hash_of_bytes (replicate 32 254).

(** ** Script public keys *)
Record ScriptPublicKey := mkSpk { spk_version : Z; spk_script : list Z }.

#[export] Instance ScriptPublicKey_eq_dec : EqDecision ScriptPublicKey.
Proof. solve_decision. Defined.

#[export] Instance ScriptPublicKey_countable : Countable ScriptPublicKey.
Proof.
  apply (inj_countable' (fun s => (spk_version s, spk_script s)) (fun p => mkSpk p.1 p.2)).
  by intros [].
Defined.

(** ** Outpoints and UTXO entries *)
Record TransactionOutpoint := mkOutpoint { transaction_id : TransactionId; op_index : Z }.

#[export] Instance TransactionOutpoint_eq_dec : EqDecision TransactionOutpoint.
Proof. solve_decision. Defined.

#[export] Instance TransactionOutpoint_countable : Countable TransactionOutpoint.
Proof.
  apply (inj_countable' (fun o => (transaction_id o, op_index o)) (fun p => mkOutpoint p.1 p.2)).
  by intros [].
Defined.

Record UtxoEntry := mkUtxoEntry {
  amount : Z;
  ue_spk : ScriptPublicKey;
  block_daa_score : Z;
  ue_is_coinbase : bool;
  effective_daa : Z;
}.

#[export] Instance UtxoEntry_eq_dec : EqDecision UtxoEntry.
Proof. solve_decision. Defined.

(** [UtxoEntry::new] anchors the age at the creation score. *)
Definition UtxoEntry_new (amount : Z) (spk : ScriptPublicKey) (daa : Z) (cb : bool) : UtxoEntry :=
  mkUtxoEntry amount spk daa cb daa.

Definition UtxoEntry_new_aged (amount : Z) (spk : ScriptPublicKey) (daa : Z) (cb : bool)
    (effective_daa : Z) : UtxoEntry :=
  mkUtxoEntry amount spk daa cb effective_daa.

(** ** Subnetworks *)
Definition SUBNETWORK_ID_SIZE : Z := 20.
Definition SubnetworkId_from_byte (b : Z) : list Z := b :: replicate 19 0.
Definition SUBNETWORK_ID_NATIVE : list Z := SubnetworkId_from_byte 0.
Definition SUBNETWORK_ID_COINBASE : list Z := SubnetworkId_from_byte 1.
Definition SUBNETWORK_ID_REGISTRY : list Z := SubnetworkId_from_byte 2.
Definition SUBNETWORK_ID_AI_REQUEST : list Z := SubnetworkId_from_byte 3.
Definition SUBNETWORK_ID_AI_RESPONSE : list Z := SubnetworkId_from_byte 4.
Definition SUBNETWORK_ID_AI_CHALLENGE : list Z := SubnetworkId_from_byte 5.

Definition subnet_eqb (a b : list Z) : bool := bool_decide (a = b).

Definition is_builtin (s : list Z) : bool :=
  subnet_eqb s SUBNETWORK_ID_COINBASE || subnet_eqb s SUBNETWORK_ID_REGISTRY ||
  subnet_eqb s SUBNETWORK_ID_AI_REQUEST || subnet_eqb s SUBNETWORK_ID_AI_RESPONSE ||
  subnet_eqb s SUBNETWORK_ID_AI_CHALLENGE.

Definition is_ai (s : list Z) : bool :=
  subnet_eqb s SUBNETWORK_ID_AI_REQUEST || subnet_eqb s SUBNETWORK_ID_AI_RESPONSE ||
  subnet_eqb s SUBNETWORK_ID_AI_CHALLENGE.

Definition is_native (s : list Z) : bool := subnet_eqb s SUBNETWORK_ID_NATIVE.

Definition is_builtin_or_native (s : list Z) : bool := is_native s || is_builtin s.

(** ** Transactions *)
Record TransactionInput := mkInput {
  previous_outpoint : TransactionOutpoint;
  signature_script : list Z;
  sequence : Z;
  sig_op_count : Z;
}.

Record TransactionOutput := mkOutput { out_value : Z; out_spk : ScriptPublicKey }.

#[export] Instance TransactionOutput_eq_dec : EqDecision TransactionOutput.
Proof. solve_decision. Defined.

(** The cached identifier [tx_id] and the storage-mass commitment [tx_mass] are
    fields of the Rust struct as well. *)
Record Transaction := mkTransaction {
  tx_version : Z;
  tx_inputs : list TransactionInput;
  tx_outputs : list TransactionOutput;
  lock_time : Z;
  subnetwork_id : list Z;
  gas : Z;
  payload : list Z;
  tx_mass : Z;
  tx_id : TransactionId;
}.

Definition is_coinbase (tx : Transaction) : bool :=
  subnet_eqb (subnetwork_id tx) SUBNETWORK_ID_COINBASE.

(** A transaction with the UTXO entries its inputs spend
    ([PopulatedTransaction] and [ValidatedTransaction] of the source). *)
Record PopulatedTransaction := mkPopulated { ptx_tx : Transaction; entries : list UtxoEntry }.

(** [PopulatedTransaction::new] asserts one entry per input. *)
Definition PopulatedTransaction_new {E} (tx : Transaction) (entries : list UtxoEntry)
    : outcome E PopulatedTransaction :=
  _ ← assert (Nat.eqb (length (tx_inputs tx)) (length entries));
  Ok (mkPopulated tx entries).

(** [populated_input]: both slices are indexed, so a missing element panics. *)
Definition populated_input {E} (ptx : PopulatedTransaction) (i : nat)
    : outcome E (TransactionInput * UtxoEntry) :=
  input ← unwrap (tx_inputs (ptx_tx ptx) !! i);
  entry ← unwrap (entries ptx !! i);
  Ok (input, entry).

(** [populated_inputs]: the iterator over the indices of the inputs, with the
    loop body [f]. *)
Definition for_populated_inputs {E S} (f : S -> TransactionInput * UtxoEntry -> outcome E S)
    (s : S) (ptx : PopulatedTransaction) : outcome E S :=
  foldM (fun s i => p ← populated_input ptx i; f s p) s (seq 0 (length (tx_inputs (ptx_tx ptx)))).

Definition populated_inputs {E} (ptx : PopulatedTransaction)
    : outcome E (list (TransactionInput * UtxoEntry)) :=
  mapM' (populated_input ptx) (seq 0 (length (tx_inputs (ptx_tx ptx)))).

(** ** Populated inputs as a zip *)

Section populated.
Context {E : Type}.

Lemma populated_input_zip (ptx : PopulatedTransaction) i p :
  populated_input (E := E) ptx i = Ok p <->
  zip (tx_inputs (ptx_tx ptx)) (entries ptx) !! i = Some p.
Proof.
  unfold populated_input. rewrite lookup_zip_with.
  destruct (tx_inputs (ptx_tx ptx) !! i); cbn; [|done].
  destruct (entries ptx !! i); cbn; naive_solver.
Qed.

Lemma foldM_lookup {S A} (f : S -> A -> outcome E S) (g : nat -> outcome E A) (l : list A) s k :
  (forall i, (i < length l)%nat -> exists a, l !! i = Some a /\ g (k + i)%nat = Ok a) ->
  foldM (fun s i => p ← g i; f s p) s (seq k (length l)) = foldM f s l.
Proof.
  revert s k; induction l as [|a l IH]; intros s k H; cbn; [done|].
  destruct (H 0%nat) as (a' & [= <-] & Hg); [cbn; lia|].
  rewrite Nat.add_0_r in Hg. rewrite Hg; cbn.
  destruct (f s a) as [s'| | |]; cbn; try done. apply IH. intros i Hi.
  destruct (H (Datatypes.S i)) as (a'' & Hl & Hg'); [cbn; lia|]. cbn in Hl.
  exists a''. split; [done|]. by rewrite Nat.add_succ_r in Hg'.
Qed.

Lemma mapM_lookup {A} (g : nat -> outcome E A) (l : list A) k :
  (forall i, (i < length l)%nat -> exists a, l !! i = Some a /\ g (k + i)%nat = Ok a) ->
  mapM' g (seq k (length l)) = Ok l.
Proof.
  revert k; induction l as [|a l IH]; intros k H; cbn; [done|].
  destruct (H 0%nat) as (a' & [= <-] & Hg); [cbn; lia|].
  rewrite Nat.add_0_r in Hg. rewrite Hg; cbn. rewrite IH; [done|]. intros i Hi.
  destruct (H (Datatypes.S i)) as (a'' & Hl & Hg'); [cbn; lia|]. cbn in Hl.
  exists a''. split; [done|]. by rewrite Nat.add_succ_r in Hg'.
Qed.

Lemma populated_lookup (ptx : PopulatedTransaction) i :
  length (tx_inputs (ptx_tx ptx)) = length (entries ptx) ->
  (i < length (tx_inputs (ptx_tx ptx)))%nat ->
  exists p, zip (tx_inputs (ptx_tx ptx)) (entries ptx) !! i = Some p /\
            populated_input (E := E) ptx i = Ok p.
Proof.
  intros Hlen Hi.
  destruct (lookup_lt_is_Some_2 (zip (tx_inputs (ptx_tx ptx)) (entries ptx)) i) as [p Hp].
  { rewrite length_zip_with, <-Hlen. lia. }
  exists p. split; [done|]. by apply populated_input_zip.
Qed.

Lemma for_populated_inputs_zip {S} (f : S -> _ -> outcome E S) s (ptx : PopulatedTransaction) :
  length (tx_inputs (ptx_tx ptx)) = length (entries ptx) ->
  for_populated_inputs f s ptx = foldM f s (zip (tx_inputs (ptx_tx ptx)) (entries ptx)).
Proof.
  intros Hlen. unfold for_populated_inputs.
  replace (length (tx_inputs (ptx_tx ptx)))
    with (length (zip (tx_inputs (ptx_tx ptx)) (entries ptx)))
    by (rewrite length_zip_with; lia).
  apply foldM_lookup. intros i Hi. rewrite length_zip_with in Hi.
  apply populated_lookup; [done|lia].
Qed.

Lemma populated_inputs_zip (ptx : PopulatedTransaction) :
  length (tx_inputs (ptx_tx ptx)) = length (entries ptx) ->
  populated_inputs (E := E) ptx = Ok (zip (tx_inputs (ptx_tx ptx)) (entries ptx)).
Proof.
  intros Hlen. unfold populated_inputs.
  replace (length (tx_inputs (ptx_tx ptx)))
    with (length (zip (tx_inputs (ptx_tx ptx)) (entries ptx))) at 1
    by (rewrite length_zip_with; lia).
  apply mapM_lookup. intros i Hi. rewrite length_zip_with in Hi.
  apply populated_lookup; [done|lia].
Qed.
End populated.
