(* ===== verification/CoinAge.v ===== *)
(** * Coin age

    The age arithmetic of [consensus/core/src/coin_age.rs]: the FIFO carry-over
    of age anchors from the spent inputs of a transaction to its outputs, and
    the effective balance computed from the maturity buckets. *)

From S2P Require Import Prelude Tx.
From stdpp Require Import base gmap list sorting.
#[local] Open Scope Z_scope.

Section coin_age.
Context {E : Type}.

(** ** The FIFO survivor anchor of one script public key *)

(** [sort_by_key(|&(_, anchor)| anchor)]. *)
Definition anchor_leb (p q : Z * Z) : bool := p.2 <=? q.2.

(** One iteration of the loop that consumes the spent value from the oldest
    inputs; the state is [(spent_v, survivor_mass)]. *)
Definition fifo_step (st : Z * Z) (c : Z * Z) : outcome E (Z * Z) :=
  let '(spent_v, survivor_mass) := st in
  let '(v, anchor) := c in
  let consumed := Z.min spent_v v in
  spent_v' ← sub_ 64 spent_v consumed;
  surviving ← sub_ 64 v consumed;
  prod ← mul_ 128 surviving anchor;
  mass' ← add_ 128 survivor_mass prod;
  Ok (spent_v', mass').

Definition fifo_survivor_anchor (group : list (Z * Z)) (out_v current_daa : Z) : outcome E Z :=
  in_v ← foldM (add_ 64) 0 group.*1;
  if in_v =? 0 then Ok current_daa
  else
    let sorted := sort_by anchor_leb group in
    let spent_v := sat_sub in_v out_v in
    st ← foldM fifo_step (spent_v, 0) sorted;
    let preserved := Z.min in_v out_v in
    new_v ← sub_ 64 out_v preserved;
    new_mass ← mul_ 128 new_v current_daa;
    total_mass ← add_ 128 st.2 new_mass;
    q ← div_ total_mass out_v;
    Ok (q mod 2 ^ 64).

(** ** Anchors of all the outputs of a transaction *)

(** [by_spk.entry(spk).or_default().push((amount, anchor))]. *)
Definition group_push (m : gmap ScriptPublicKey (list (Z * Z))) (i : ScriptPublicKey * Z * Z)
    : gmap ScriptPublicKey (list (Z * Z)) :=
  let '(spk, amount, anchor) := i in
  <[spk := default [] (m !! spk) ++ [(amount, anchor)]]> m.

(** [*out_v.entry(spk).or_default() += amount]. *)
Definition out_v_add (m : gmap ScriptPublicKey Z) (o : ScriptPublicKey * Z)
    : outcome E (gmap ScriptPublicKey Z) :=
  let '(spk, amount) := o in
  total ← add_ 64 (default 0 (m !! spk)) amount;
  Ok (<[spk := total]> m).

Definition resolve_anchor (by_spk : gmap ScriptPublicKey (list (Z * Z))) (current_daa : Z)
    (m : gmap ScriptPublicKey Z) (o : ScriptPublicKey * Z) : outcome E (gmap ScriptPublicKey Z) :=
  let '(spk, total_out) := o in
  anchor ← match by_spk !! spk with
           | None => Ok current_daa
           | Some group => fifo_survivor_anchor group total_out current_daa
           end;
  Ok (<[spk := anchor]> m).

Definition assign_output_effective_daa (inputs : list (ScriptPublicKey * Z * Z))
    (outputs : list (ScriptPublicKey * Z)) (current_daa : Z) : outcome E (list Z) :=
  let by_spk := foldl group_push ∅ inputs in
  out_v ← foldM out_v_add ∅ outputs;
  anchor_by_spk ← foldM (resolve_anchor by_spk current_daa) ∅ (map_to_list out_v);
  mapM' (fun o => unwrap (anchor_by_spk !! o.1)) outputs.
End coin_age.

(** ** Effective balance *)
Definition eff_balance_from_buckets {E} (b_mat b_imm a_imm current_daa w : Z) : outcome E Z :=
  prod ← mul_ 128 current_daa b_imm;
  let ramp_mass := sat_sub prod a_imm in
  q ← div_ ramp_mass (Z.max w 1);
  let immature := Z.min q b_imm mod 2 ^ 64 in
  Ok (sat_add 64 b_mat immature).

(** ** Reference semantics: unit coins

    A group of inputs is the multiset of its unit coins, each carrying the
    anchor of its input.  Spending [n] units by age is dropping the first [n]
    elements of the sorted multiset. *)
Definition units (l : list (Z * Z)) : list Z :=
  l ≫= fun c => replicate (Z.to_nat c.1) c.2.

Definition sorted_units (l : list (Z * Z)) : list Z := merge_sort Z.le (units l).

(** The anchor rule stated on unit coins: destroy the oldest [in - out] units,
    average what is left together with the units received now. *)
Definition reference_anchor (group : list (Z * Z)) (out_v current_daa : Z) : Z :=
  let in_v := Zsum group.*1 in
  if in_v =? 0 then current_daa
  else
    let survivors := drop (Z.to_nat (in_v - out_v)) (sorted_units group) in
    (Zsum survivors + (out_v - Z.min in_v out_v) * current_daa) / out_v.

(** The inputs that the code can meet: amounts and anchors are [u64]s and the
    amounts of a transaction do not overflow. *)
Definition group_ok (group : list (Z * Z)) : Prop :=
  Forall (fun c => in_u 64 c.1 /\ in_u 64 c.2) group /\ in_u 64 (Zsum group.*1).

Section fifo_lemmas.
Context {E : Type}.

Lemma units_cons v a l : units ((v, a) :: l) = replicate (Z.to_nat v) a ++ units l.
Proof. done. Qed.

Lemma length_units l :
  Forall (fun c => 0 <= c.1) l -> Z.of_nat (length (units l)) = Zsum l.*1.
Proof.
  induction 1 as [|[v a] l Hv _ IH]; [done|].
  rewrite units_cons, length_app, length_replicate, Nat2Z.inj_add, IH. cbn in *.
  rewrite Zsum_cons. lia.
Qed.

Lemma elem_of_units x l : x ∈ units l -> exists v, (v, x) ∈ l.
Proof.
  unfold units. rewrite list_elem_of_bind. intros ([v a] & Hx & Hl). cbn in *.
  apply elem_of_replicate in Hx as [-> _]. eauto.
Qed.

#[export] Instance units_perm : Proper ((≡ₚ) ==> (≡ₚ)) units.
Proof. intros l l' H. unfold units. by rewrite H. Qed.

Lemma Zsum_replicate n a : Zsum (replicate n a) = Z.of_nat n * a.
Proof.
  induction n as [|n IH]; [done|].
  rewrite replicate_S, Zsum_cons, IH. lia.
Qed.

Lemma Zsum_units_bound l M :
  0 <= M -> Forall (fun c => 0 <= c.1 /\ c.2 <= M) l -> Zsum (units l) <= Zsum l.*1 * M.
Proof.
  intros HM. induction 1 as [|[v a] l [Hv Ha] _ IH]; [done|].
  rewrite units_cons, Zsum_app, Zsum_replicate. cbn in *. rewrite Zsum_cons.
  rewrite Z2Nat.id by done. nia.
Qed.

(** Sorting a group by anchor sorts its unit coins. *)
Lemma units_sorted l :
  StronglySorted (fun p q => anchor_leb p q = true) l -> StronglySorted Z.le (units l).
Proof.
  induction 1 as [|[v a] l Hs IH Hall]; [constructor|].
  rewrite units_cons. apply StronglySorted_app_2; [| |done].
  - intros x y Hx Hy. apply elem_of_replicate in Hx as [-> _].
    apply elem_of_units in Hy as [w Hy]. rewrite Forall_forall in Hall.
    apply Hall in Hy. unfold anchor_leb in Hy. cbn in Hy. lia.
  - generalize (Z.to_nat v) as n. induction n as [|n IHn]; cbn; constructor; [done|].
    apply Forall_forall. intros x Hx. apply elem_of_replicate in Hx as [-> _]. done.
Qed.

Lemma units_sort_by l : units (sort_by anchor_leb l) = sorted_units l.
Proof.
  eapply (StronglySorted_unique Z.le).
  - apply units_sorted, sort_by_sorted; unfold anchor_leb; intros; lia.
  - apply StronglySorted_merge_sort; apply _.
  - unfold sorted_units. rewrite merge_sort_Permutation. by rewrite sort_by_perm.
Qed.

Lemma sorted_units_perm l l' : l ≡ₚ l' -> sorted_units l = sorted_units l'.
Proof.
  intros H. eapply (StronglySorted_unique Z.le); [apply StronglySorted_merge_sort; apply _..|].
  unfold sorted_units. rewrite !merge_sort_Permutation. by apply units_perm.
Qed.

Lemma drop_units_cons n v a l :
  0 <= n -> 0 <= v ->
  drop (Z.to_nat n) (units ((v, a) :: l)) =
  replicate (Z.to_nat (v - Z.min n v)) a ++ drop (Z.to_nat (n - Z.min n v)) (units l).
Proof.
  intros Hn Hv. rewrite units_cons, drop_app, drop_replicate, length_replicate.
  f_equal; f_equal; lia.
Qed.

Lemma Zsum_drop_units_nonneg l n :
  Forall (fun c => 0 <= c.2) l -> 0 <= Zsum (drop n (units l)).
Proof.
  intros H. apply Zsum_nonneg, Forall_drop, Forall_forall. intros x Hx.
  apply elem_of_units in Hx as [v Hv]. rewrite Forall_forall in H. by apply (H _ Hv).
Qed.

(** The loop computes the mass of the unit coins that survive. *)
Lemma fifo_loop l spent mass :
  Forall (fun c => in_u 64 c.1 /\ in_u 64 c.2) l -> in_u 64 spent -> 0 <= mass ->
  mass + Zsum l.*1 * u64_max < 2 ^ 128 ->
  foldM (fifo_step (E := E)) (spent, mass) l =
  Ok (spent - Z.min spent (Zsum l.*1), mass + Zsum (drop (Z.to_nat spent) (units l))).
Proof.
  intros Hl. revert spent mass.
  induction Hl as [|[v a] l [Hv Ha] Hl IH]; intros spent mass Hs Hm Hb.
  { cbn. rewrite drop_nil. do 2 f_equal; unfold in_u in *; zsum. }
  cbn [fst snd fmap list_fmap] in *. rewrite Zsum_cons in Hb.
  assert (0 <= Zsum l.*1).
  { apply Zsum_nonneg, Forall_fmap. eapply Forall_impl; [done|].
    intros c [[] _]. done. }
  unfold in_u, u64_max, umax in *.
  cbn [foldM fifo_step]. unfold sub_, mul_, add_.
  rewrite (checked_in 64 (spent - Z.min spent v)) by (unfold in_u; lia); cbn [mbind outcome_mbind].
  rewrite (checked_in 64 (v - Z.min spent v)) by (unfold in_u; lia); cbn [mbind outcome_mbind].
  rewrite (checked_in 128 ((v - Z.min spent v) * a)) by (unfold in_u; nia); cbn [mbind outcome_mbind].
  rewrite (checked_in 128 (mass + (v - Z.min spent v) * a)) by (unfold in_u; nia); cbn [mbind outcome_mbind].
  rewrite IH; [|lia|nia|nia].
  rewrite drop_units_cons, Zsum_app, Zsum_replicate, Zsum_cons by lia.
  do 2 f_equal; lia.
Qed.

Lemma group_ok_nonneg group : group_ok group -> Forall (fun c => 0 <= c.1) group.
Proof. intros [H _]. eapply Forall_impl; [done|]. intros c [[] _]. done. Qed.

Lemma survivors_length group out_v :
  group_ok group -> 0 <= out_v ->
  Z.of_nat (length (drop (Z.to_nat (Zsum group.*1 - out_v)) (sorted_units group))) =
  Z.min (Zsum group.*1) out_v.
Proof.
  intros Hg Hout. pose proof (group_ok_nonneg _ Hg) as Hn.
  unfold sorted_units. rewrite length_drop, merge_sort_Permutation.
  pose proof (length_units _ Hn) as Hlen.
  assert (0 <= Zsum group.*1) by (by apply Zsum_nonneg, Forall_fmap). lia.
Qed.

Lemma Zsum_between lo hi l :
  Forall (fun x => lo <= x <= hi) l ->
  Z.of_nat (length l) * lo <= Zsum l <= Z.of_nat (length l) * hi.
Proof. induction 1; [cbn; zsum|]. rewrite Zsum_cons. cbn [length]. lia. Qed.

(** Surviving units carry anchors of the group. *)
Lemma survivors_between group n lo hi :
  Forall (fun c => lo <= c.2 <= hi) group ->
  Forall (fun x => lo <= x <= hi) (drop n (sorted_units group)).
Proof.
  intros H. apply Forall_drop, Forall_forall. intros x Hx. unfold sorted_units in Hx.
  rewrite merge_sort_Permutation in Hx. apply elem_of_units in Hx as [v Hx].
  rewrite Forall_forall in H. by apply (H _ Hx).
Qed.

(** The weighted average lies between the bounds of the anchors. *)
Lemma reference_anchor_between group out_v cur lo :
  group_ok group -> 0 < out_v -> Forall (fun c => lo <= c.2 <= cur) group -> lo <= cur ->
  lo <= reference_anchor group out_v cur <= cur.
Proof.
  intros Hg Hout Ha Hlo. unfold reference_anchor.
  destruct (Z.eqb_spec (Zsum group.*1) 0); [lia|].
  pose proof (survivors_length group out_v Hg ltac:(lia)) as Hlen.
  pose proof (Zsum_between lo cur _
                (survivors_between group (Z.to_nat (Zsum group.*1 - out_v)) lo cur Ha)) as [H1 H2].
  rewrite Hlen in *. split.
  - apply Z.div_le_lower_bound; nia.
  - apply Z.div_le_upper_bound; nia.
Qed.
End fifo_lemmas.

(** ** Grouping by script public key *)

(** The (amount, anchor) pairs of the inputs locked by [spk], in input order,
    and the value of the outputs locked by it. *)
Definition group_of (spk : ScriptPublicKey) (inputs : list (ScriptPublicKey * Z * Z)) : list (Z * Z) :=
  (fun i => (i.1.2, i.2)) <$> filter (fun i => i.1.1 = spk) inputs.

Definition total_out (spk : ScriptPublicKey) (outputs : list (ScriptPublicKey * Z)) : Z :=
  Zsum (filter (fun o => o.1 = spk) outputs).*2.

(** The values a transaction that passed validation in isolation can hold. *)
Definition aged_inputs_ok (inputs : list (ScriptPublicKey * Z * Z)) : Prop :=
  Forall (fun i => in_u 64 i.1.2 /\ in_u 64 i.2) inputs /\
  Zsum ((fun i : ScriptPublicKey * Z * Z => i.1.2) <$> inputs) < 2 ^ 64.

Definition outputs_ok (outputs : list (ScriptPublicKey * Z)) : Prop :=
  Forall (fun o => 0 < o.2) outputs /\ Zsum outputs.*2 < 2 ^ 64.

Section assign_lemmas.
Context {E : Type}.

Lemma group_of_cons spk i inputs :
  group_of spk (i :: inputs) =
  if decide (i.1.1 = spk) then (i.1.2, i.2) :: group_of spk inputs else group_of spk inputs.
Proof. unfold group_of. rewrite filter_cons. by case_decide. Qed.

Lemma total_out_cons spk o outputs :
  total_out spk (o :: outputs) =
  (if decide (o.1 = spk) then o.2 else 0) + total_out spk outputs.
Proof. unfold total_out. rewrite filter_cons. case_decide; [by rewrite <-Zsum_cons|done]. Qed.

Lemma group_push_lookup inputs m spk :
  foldl group_push m inputs !! spk =
  match group_of spk inputs with
  | [] => m !! spk
  | g => Some (default [] (m !! spk) ++ g)
  end.
Proof.
  revert m; induction inputs as [|[[s v] a] inputs IH]; intros m; cbn [foldl]; [done|].
  rewrite IH, group_of_cons. cbn. case_decide as Hs.
  - subst s. rewrite lookup_insert_eq. cbn.
    destruct (group_of spk inputs); [done|]. by rewrite <-app_assoc.
  - by rewrite lookup_insert_ne.
Qed.

Lemma total_out_bounds spk outputs :
  Forall (fun o => 0 < o.2) outputs -> 0 <= total_out spk outputs <= Zsum outputs.*2.
Proof.
  induction 1 as [|o outputs Ho _ IH]; [done|].
  rewrite total_out_cons, fmap_cons, Zsum_cons. case_decide; lia.
Qed.

Lemma total_out_notin spk outputs : spk ∉ outputs.*1 -> total_out spk outputs = 0.
Proof.
  induction outputs as [|o outputs IH]; [done|]. cbn. intros [Hne Hin]%not_elem_of_cons.
  rewrite total_out_cons, decide_False, IH by done. done.
Qed.

Lemma total_out_pos spk outputs :
  Forall (fun o => 0 < o.2) outputs -> spk ∈ outputs.*1 -> 0 < total_out spk outputs.
Proof.
  induction 1 as [|o outputs Ho Hos IH]; cbn; [by intros ?%elem_of_nil|].
  rewrite total_out_cons. pose proof (total_out_bounds spk outputs Hos).
  intros [->|Hin]%elem_of_cons; [by rewrite decide_True; [lia|]|].
  apply IH in Hin. case_decide; lia.
Qed.

Lemma out_v_spec outputs m :
  Forall (fun o => 0 < o.2) outputs ->
  (forall spk, 0 <= default 0 (m !! spk) /\
               default 0 (m !! spk) + Zsum outputs.*2 < 2 ^ 64) ->
  exists m', foldM (out_v_add (E := E)) m outputs = Ok m' /\
    forall spk, m' !! spk = if decide (spk ∈ outputs.*1)
                            then Some (default 0 (m !! spk) + total_out spk outputs)
                            else m !! spk.
Proof.
  intros Hos. revert m. induction Hos as [|[s v] outputs Hv Hos IH]; intros m Hm.
  { exists m. split; [done|]. intros spk. rewrite decide_False; [done|].
    cbn. by intros ?%elem_of_nil. }
  cbn [foldM out_v_add fst snd] in *. destruct (Hm s) as [Hm0 Hm1].
  rewrite fmap_cons, Zsum_cons in Hm1. cbn in Hm1.
  assert (0 <= Zsum outputs.*2).
  { apply Zsum_nonneg, Forall_fmap. eapply Forall_impl; [done|]. cbn. lia. }
  unfold add_. rewrite checked_in by (unfold in_u; lia). cbn [mbind outcome_mbind].
  destruct (IH (<[s := default 0 (m !! s) + v]> m)) as (m' & -> & Hm').
  { intros spk. destruct (decide (spk = s)) as [->|Hne].
    - rewrite lookup_insert_eq. cbn. lia.
    - rewrite lookup_insert_ne by done. specialize (Hm spk).
      rewrite fmap_cons, Zsum_cons in Hm. cbn in Hm. lia. }
  exists m'. split; [done|]. intros spk. rewrite Hm', total_out_cons. cbn.
  destruct (decide (spk = s)) as [->|Hne].
  - rewrite lookup_insert_eq, (decide_True (P := s = s)) by done.
    rewrite (decide_True (P := s ∈ s :: outputs.*1)) by left. cbn.
    case_decide as Hin; f_equal; [lia|].
    rewrite total_out_notin by done. lia.
  - rewrite lookup_insert_ne by done. rewrite (decide_False (P := s = spk)) by done.
    assert (spk ∈ s :: outputs.*1 <-> spk ∈ outputs.*1) as Hiff
        by (rewrite elem_of_cons; naive_solver).
    case_decide as H1; case_decide as H2; try tauto; f_equal; lia.
Qed.

(** The survivor anchor is the reference anchor. *)
Lemma fifo_survivor_anchor_ok group out_v cur :
  group_ok group -> 0 < out_v < 2 ^ 64 -> in_u 64 cur ->
  fifo_survivor_anchor (E := E) group out_v cur = Ok (reference_anchor group out_v cur).
Proof.
  intros Hg Hout Hcur. pose proof Hg as [Hall Hsum]. unfold in_u in *.
  unfold fifo_survivor_anchor, reference_anchor.
  rewrite foldM_add64; [|done|by apply Forall_fmap, group_ok_nonneg|lia].
  cbn [mbind outcome_mbind]. rewrite Z.add_0_l.
  destruct (Z.eqb_spec (Zsum group.*1) 0) as [|Hne]; [done|].
  pose proof (sort_by_perm anchor_leb group) as Hperm.
  assert (Zsum (sort_by anchor_leb group).*1 = Zsum group.*1) as Hss
      by (apply Zsum_perm; by rewrite Hperm).
  rewrite fifo_loop;
    [|by rewrite Hperm|unfold in_u, sat_sub; lia|done|rewrite Hss; unfold u64_max, umax; nia].
  cbn [mbind outcome_mbind snd]. rewrite units_sort_by.
  replace (Z.to_nat (sat_sub (Zsum group.*1) out_v))
    with (Z.to_nat (Zsum group.*1 - out_v)) by (unfold sat_sub; lia).
  pose proof (survivors_length group out_v Hg ltac:(lia)) as Hlen.
  assert (Forall (fun c => 0 <= c.2 <= u64_max) group) as Hanch.
  { eapply Forall_impl; [exact Hall|]. unfold u64_max, umax. intros c [_ Hc]. lia. }
  pose proof (Zsum_between 0 u64_max _
    (survivors_between group (Z.to_nat (Zsum group.*1 - out_v)) 0 u64_max Hanch)) as Hb.
  rewrite Hlen in Hb. set (S := Zsum (drop _ _)) in *. unfold u64_max, umax in Hb.
  unfold sub_, mul_, add_.
  rewrite (checked_in 64) by (unfold in_u; lia); cbn [mbind outcome_mbind].
  rewrite (checked_in 128) by (unfold in_u; nia); cbn [mbind outcome_mbind].
  rewrite (checked_in 128) by (unfold in_u; nia); cbn [mbind outcome_mbind].
  unfold div_. destruct (Z.eqb_spec out_v 0); [lia|]. cbn [mbind outcome_mbind].
  rewrite Z.mod_small; [done|]. split; [apply Z.div_pos; nia|].
  apply Z.div_lt_upper_bound; nia.
Qed.

Lemma group_of_ok spk inputs : aged_inputs_ok inputs -> group_ok (group_of spk inputs).
Proof.
  intros [Hall Hsum].
  assert (Zsum (group_of spk inputs).*1 <= Zsum ((fun i : ScriptPublicKey * Z * Z => i.1.2) <$> inputs)
          /\ 0 <= Zsum (group_of spk inputs).*1 /\
          Forall (fun c => in_u 64 c.1 /\ in_u 64 c.2) (group_of spk inputs)) as (H1 & H2 & H3).
  { clear Hsum. induction Hall as [|i inputs [Hi Ha] _ (IH1 & IH2 & IH3)]; [done|].
    rewrite group_of_cons, fmap_cons, Zsum_cons. unfold in_u in *.
    case_decide; rewrite ?fmap_cons, ?Zsum_cons; cbn [fst]; repeat split; try lia; eauto. }
  split; [done|]. unfold in_u. lia.
Qed.

Lemma resolve_loop by_spk cur (g : ScriptPublicKey -> Z -> Z) l m :
  (forall spk t, (spk, t) ∈ l ->
     match by_spk !! spk with
     | None => Ok cur
     | Some group => fifo_survivor_anchor (E := E) group t cur
     end = Ok (g spk t)) ->
  NoDup l.*1 ->
  exists m', foldM (resolve_anchor (E := E) by_spk cur) m l = Ok m' /\
    (forall spk t, (spk, t) ∈ l -> m' !! spk = Some (g spk t)) /\
    (forall spk, spk ∉ l.*1 -> m' !! spk = m !! spk).
Proof.
  revert m. induction l as [|[s t] l IH]; intros m Hf Hnd.
  { exists m. split; [done|]. split; [|done]. by intros ?? ?%elem_of_nil. }
  cbn [foldM resolve_anchor]. rewrite (Hf s t) by left. cbn [mbind outcome_mbind].
  cbn in Hnd. apply NoDup_cons in Hnd as [Hs Hnd].
  destruct (IH (<[s := g s t]> m)) as (m' & -> & H1 & H2); [|done|].
  { intros spk t' Hin. apply Hf. by right. }
  exists m'. split; [done|]. split.
  - intros spk t' [[= -> ->]|Hin]%elem_of_cons; [|by apply H1].
    rewrite H2 by done. apply lookup_insert_eq.
  - cbn. intros spk [Hne Hin]%not_elem_of_cons. rewrite H2 by done.
    by apply lookup_insert_ne.
Qed.

(** Every output gets the reference anchor of its script public key. *)
Lemma assign_ok inputs outputs cur :
  aged_inputs_ok inputs -> outputs_ok outputs -> in_u 64 cur ->
  assign_output_effective_daa (E := E) inputs outputs cur =
  Ok ((fun o => reference_anchor (group_of o.1 inputs) (total_out o.1 outputs) cur) <$> outputs).
Proof.
  intros Hin [Hpos Hsum] Hcur. unfold assign_output_effective_daa.
  destruct (out_v_spec outputs ∅ Hpos) as (out_v & -> & Hout).
  { intros spk. rewrite lookup_empty. cbn. lia. }
  cbn [mbind outcome_mbind].
  destruct (resolve_loop (foldl group_push ∅ inputs) cur
              (fun spk t => reference_anchor (group_of spk inputs) t cur)
              (map_to_list out_v) ∅) as (m & -> & Hm & _).
  - intros spk t Ht%elem_of_map_to_list. rewrite Hout in Ht.
    case_decide as Hspk; [|done]. rewrite lookup_empty in Ht. cbn in Ht. injection Ht as <-.
    pose proof (total_out_pos spk outputs Hpos Hspk).
    pose proof (total_out_bounds spk outputs Hpos).
    rewrite group_push_lookup, lookup_empty.
    destruct (group_of spk inputs) as [|c g] eqn:Eg; [done|]. cbn [default app].
    rewrite <-Eg. apply fifo_survivor_anchor_ok; [by apply group_of_ok|lia|done].
  - apply NoDup_fst_map_to_list.
  - cbn [mbind outcome_mbind].
    assert (forall outs, (forall o, o ∈ outs -> o ∈ outputs) ->
      mapM' (fun o => unwrap (m !! o.1)) outs = Ok (E := E)
        ((fun o => reference_anchor (group_of o.1 inputs) (total_out o.1 outputs) cur) <$> outs))
      as Hgen; [|by apply Hgen].
    induction outs as [|o outs IH]; intros Hsub; [done|]. cbn.
    rewrite (Hm o.1 (total_out o.1 outputs)).
    + cbn. rewrite IH; [done|]. intros; apply Hsub; by right.
    + apply elem_of_map_to_list. rewrite Hout, decide_True; [by rewrite lookup_empty|].
      apply list_elem_of_fmap. exists o. split; [done|]. apply Hsub. left.
Qed.
End assign_lemmas.

(** ** Buckets of immature coins *)

(** The aggregates [b_imm] and [a_imm] of a list of coins [(amount, anchor)],
    and the sum of their ages weighted by value. *)
Definition bucket_b (coins : list (Z * Z)) : Z := Zsum coins.*1.
Definition bucket_a (coins : list (Z * Z)) : Z := Zsum ((fun c => c.1 * c.2) <$> coins).
Definition ramp (d : Z) (coins : list (Z * Z)) : Z := Zsum ((fun c => c.1 * (d - c.2)) <$> coins).

(** Coins younger than [w] at score [d]. *)
Definition immature (d w : Z) (coins : list (Z * Z)) : Prop :=
  Forall (fun c => 0 <= c.1 /\ 0 <= c.2 <= d /\ d - c.2 < w) coins.

Lemma ramp_buckets d coins : ramp d coins = d * bucket_b coins - bucket_a coins.
Proof.
  unfold ramp, bucket_a, bucket_b. induction coins as [|c coins IH]; [cbn; zsum|].
  rewrite !fmap_cons, !Zsum_cons, IH. lia.
Qed.

Lemma ramp_bounds d w coins :
  immature d w coins -> 0 <= ramp d coins <= w * bucket_b coins.
Proof.
  unfold ramp, bucket_b. induction 1 as [|c coins (Hv & Ha & Hw) _ IH]; [cbn; zsum|].
  rewrite !fmap_cons, !Zsum_cons. nia.
Qed.

Lemma bucket_a_bounds d w coins : immature d w coins -> 0 <= bucket_a coins.
Proof.
  unfold bucket_a. induction 1 as [|c coins (Hv & Ha & Hw) _ IH]; [cbn; zsum|].
  rewrite fmap_cons, Zsum_cons. nia.
Qed.

Lemma bucket_b_bounds d w coins : immature d w coins -> 0 <= bucket_b coins.
Proof.
  unfold bucket_b. induction 1 as [|c coins (Hv & Ha & Hw) _ IH]; [cbn; zsum|].
  rewrite fmap_cons, Zsum_cons. lia.
Qed.

(** ** Properties *)

(** The anchor that [assign_output_effective_daa] gives to an output is the
    one of the unit-coin reference: the spent value destroys the oldest unit
    coins of the output's script, and the surviving units are averaged with the
    units received now.  The computation never panics on values that fit their
    widths. *)
Theorem assign_output_reference {E} inputs outputs cur :
  aged_inputs_ok inputs -> outputs_ok outputs -> in_u 64 cur ->
  assign_output_effective_daa (E := E) inputs outputs cur =
  Ok ((fun o => reference_anchor (group_of o.1 inputs) (total_out o.1 outputs) cur) <$> outputs).
Proof. apply assign_ok. Qed.

Definition spk_a : ScriptPublicKey := mkSpk 0 [1].
Definition spk_b : ScriptPublicKey := mkSpk 0 [2].

Lemma assign_output_reference_witness :
  assign_output_effective_daa (E := ()) [(spk_a, 100, 10); (spk_a, 50, 2)] [(spk_a, 120); (spk_b, 5)] 20
  = Ok [8; 20].
Proof.
  rewrite (assign_output_reference (E := ())
             [(spk_a, 100, 10); (spk_a, 50, 2)] [(spk_a, 120); (spk_b, 5)] 20).
  - vm_compute. reflexivity.
  - split; [repeat constructor; vm_compute; congruence|vm_compute; reflexivity].
  - split; [repeat constructor; vm_compute; congruence|vm_compute; reflexivity].
  - split; vm_compute; congruence.
Defined.

(** Anchors are never in the future and never older than the oldest spent
    input: when the anchors of the inputs lie between [lo] and the current
    score, so do the anchors of the outputs. *)
Theorem assign_output_anchor_bounds {E} inputs outputs cur lo anchors :
  aged_inputs_ok inputs -> outputs_ok outputs -> in_u 64 cur ->
  Forall (fun i => lo <= i.2 <= cur) inputs -> lo <= cur ->
  assign_output_effective_daa (E := E) inputs outputs cur = Ok anchors ->
  Forall (fun a => lo <= a <= cur) anchors.
Proof.
  intros Hi Ho Hc Hlo Hlc. rewrite assign_ok by done. intros [= <-].
  apply Forall_fmap, Forall_forall. intros o Hin. cbn.
  apply reference_anchor_between; [by apply group_of_ok| |  |done].
  - apply total_out_pos; [apply Ho|]. apply list_elem_of_fmap. eauto.
  - unfold group_of. apply Forall_fmap, Forall_forall. intros i Hi'.
    apply list_elem_of_filter in Hi' as [_ Hi']. rewrite Forall_forall in Hlo. by apply Hlo.
Qed.

Lemma assign_output_anchor_bounds_witness :
  Forall (fun a => 2 <= a <= 20) [8; 20].
Proof.
  apply (assign_output_anchor_bounds (E := ())
           [(spk_a, 100, 10); (spk_a, 50, 2)] [(spk_a, 120); (spk_b, 5)] 20 2).
  - split; [repeat constructor; vm_compute; congruence|vm_compute; reflexivity].
  - split; [repeat constructor; vm_compute; congruence|vm_compute; reflexivity].
  - split; vm_compute; congruence.
  - repeat constructor; vm_compute; congruence.
  - lia.
  - vm_compute. reflexivity.
Defined.

(** The anchors do not depend on the order of the inputs, so the tie-break
    of the FIFO rule can never make two nodes disagree. *)
Theorem assign_output_order_independent {E} inputs inputs' outputs cur :
  aged_inputs_ok inputs -> outputs_ok outputs -> in_u 64 cur -> inputs ≡ₚ inputs' ->
  assign_output_effective_daa (E := E) inputs outputs cur =
  assign_output_effective_daa (E := E) inputs' outputs cur.
Proof.
  intros Hi Ho Hc Hperm.
  assert (aged_inputs_ok inputs') as Hi'.
  { destruct Hi as [H1 H2]. split; [by rewrite <-Hperm|].
    rewrite <-(Zsum_perm ((fun i : ScriptPublicKey * Z * Z => i.1.2) <$> inputs)); [done|].
    by rewrite Hperm. }
  rewrite !assign_ok by done. f_equal. apply list_fmap_ext. intros _ o _.
  assert (group_of o.1 inputs ≡ₚ group_of o.1 inputs') as Hg
      by (unfold group_of; by rewrite Hperm).
  unfold reference_anchor. rewrite (sorted_units_perm _ _ Hg).
  rewrite (Zsum_perm (group_of o.1 inputs).*1 (group_of o.1 inputs').*1); [done|].
  by rewrite Hg.
Qed.

Lemma assign_output_order_independent_witness :
  assign_output_effective_daa (E := ()) [(spk_a, 100, 10); (spk_a, 50, 2)] [(spk_a, 120)] 20 =
  assign_output_effective_daa (E := ()) [(spk_a, 50, 2); (spk_a, 100, 10)] [(spk_a, 120)] 20.
Proof.
  apply (assign_output_order_independent (E := ())).
  - split; [repeat constructor; vm_compute; congruence|vm_compute; reflexivity].
  - split; [repeat constructor; vm_compute; congruence|vm_compute; reflexivity].
  - split; vm_compute; congruence.
  - apply perm_swap.
Defined.

(** On the aggregates of a list of immature coins the effective balance is
    the mature balance plus the floor of the value-weighted ages over [w], it
    never exceeds the raw balance, and nothing overflows. *)
Theorem eff_balance_ramp {E} b_mat coins d w :
  in_u 64 b_mat -> in_u 64 d -> in_u 64 w -> 0 < w -> immature d w coins ->
  b_mat + bucket_b coins < 2 ^ 64 ->
  eff_balance_from_buckets (E := E) b_mat (bucket_b coins) (bucket_a coins) d w =
    Ok (b_mat + ramp d coins / w) /\
  b_mat <= b_mat + ramp d coins / w <= b_mat + bucket_b coins.
Proof.
  unfold in_u. intros Hm Hd Hw Hw0 Himm Hsum.
  pose proof (ramp_bounds d w coins Himm) as Hr.
  pose proof (bucket_a_bounds d w coins Himm) as Ha.
  pose proof (bucket_b_bounds d w coins Himm) as Hb.
  pose proof (ramp_buckets d coins) as Hrb.
  assert (0 <= ramp d coins / w <= bucket_b coins) as Hq.
  { split; [apply Z.div_pos; lia|]. apply Z.div_le_upper_bound; lia. }
  split; [|lia]. unfold eff_balance_from_buckets, mul_, sat_sub, sat_add, umax, div_.
  rewrite checked_in by (unfold in_u; nia). cbn [mbind outcome_mbind].
  rewrite <-Hrb, (Z.max_r 0) by lia. rewrite (Z.max_l w 1) by lia.
  destruct (Z.eqb_spec w 0); [lia|]. cbn [mbind outcome_mbind].
  rewrite (Z.min_l _ (bucket_b coins)) by lia.
  rewrite Z.mod_small, Z.min_r by lia. done.
Qed.

Lemma eff_balance_ramp_witness :
  eff_balance_from_buckets (E := ()) 1000 150 (bucket_a [(100, 10); (50, 2)]) 20 100 = Ok 1019 /\
  1000 <= 1019 <= 1150.
Proof.
  apply (eff_balance_ramp (E := ()) 1000 [(100, 10); (50, 2)] 20 100);
    [split; vm_compute; congruence..|lia| |vm_compute; reflexivity].
  repeat constructor; vm_compute; congruence.
Defined.
