(* ===== verification/Utxo.v ===== *)
(** * UTXO collections, diffs and views

    The UTXO algebra of [consensus/core/src/utxo/]: collections
    ([utxo_collection.rs]), diffs ([utxo_diff.rs]) and composed views
    ([utxo_view.rs]).  A [HashMap] is a [gmap]; a loop over it visits
    [map_to_list], whose order the theorems never use. *)

From S2P Require Import Prelude Tx CoinAge.
From stdpp Require Import base gmap list.
#[local] Open Scope Z_scope.

Notation UtxoCollection := (gmap TransactionOutpoint UtxoEntry) (only parsing).

(** ** Collections *)

Definition contains_with_daa_score (c : UtxoCollection) (o : TransactionOutpoint) (daa : Z) : bool :=
  match c !! o with Some entry => block_daa_score entry =? daa | None => false end.

Definition contains_matching_entry (c : UtxoCollection) (o : TransactionOutpoint) (e : UtxoEntry) : bool :=
  match c !! o with
  | Some existing =>
      (block_daa_score existing =? block_daa_score e) && (effective_daa existing =? effective_daa e)
  | None => false
  end.

(** [for (k, v) in m.iter() { body }]. *)
Definition for_each {S} (m : UtxoCollection) (f : S -> TransactionOutpoint -> UtxoEntry -> S) (s : S) : S :=
  foldl (fun s kv => f s kv.1 kv.2) s (map_to_list m).

Definition add_collection (c other : UtxoCollection) : UtxoCollection :=
  for_each other (fun c k v => <[k := v]> c) c.

Definition remove_collection (c other : UtxoCollection) : UtxoCollection :=
  for_each other (fun c k _ => delete k c) c.

Definition contains_key (c : UtxoCollection) (k : TransactionOutpoint) : bool :=
  match c !! k with Some _ => true | None => false end.

(** [intersects]: the keys of the smaller collection are searched in the other. *)
Definition intersects (c other : UtxoCollection) : bool :=
  let '(keys, other) :=
    if (size c <=? size other)%nat then ((map_to_list c).*1, other) else ((map_to_list other).*1, c) in
  existsb (contains_key other) keys.

Definition intersects_with_rule (c other : UtxoCollection)
    (rule : TransactionOutpoint -> UtxoEntry -> UtxoEntry -> bool) : option TransactionOutpoint :=
  if (size c <=? size other)%nat then
    fst <$> List.find (fun kv => match other !! kv.1 with
                                 | Some v2 => rule kv.1 kv.2 v2
                                 | None => false
                                 end) (map_to_list c)
  else
    fst <$> List.find (fun kv => match c !! kv.1 with
                                 | Some v1 => rule kv.1 v1 kv.2
                                 | None => false
                                 end) (map_to_list other).

(** The in-place set operations; the pair is [(result, remainder)]. *)
Definition intersection_with_remainder_having_daa_score_in_place
    (this other result remainder : UtxoCollection) : UtxoCollection * UtxoCollection :=
  for_each this (fun st outpoint entry =>
    if contains_with_daa_score other outpoint (block_daa_score entry)
    then (<[outpoint := entry]> st.1, st.2)
    else (st.1, <[outpoint := entry]> st.2)) (result, remainder).

Definition intersection_with_remainder_matching_entry_in_place
    (this other result remainder : UtxoCollection) : UtxoCollection * UtxoCollection :=
  for_each this (fun st outpoint entry =>
    if contains_matching_entry other outpoint entry
    then (<[outpoint := entry]> st.1, st.2)
    else (st.1, <[outpoint := entry]> st.2)) (result, remainder).

Definition subtraction_having_daa_score_in_place (this other result : UtxoCollection) : UtxoCollection :=
  for_each this (fun result outpoint entry =>
    if negb (contains_with_daa_score other outpoint (block_daa_score entry))
    then <[outpoint := entry]> result
    else result) result.

Definition subtraction_with_remainder_having_daa_score_in_place
    (this other result remainder : UtxoCollection) : UtxoCollection * UtxoCollection :=
  for_each this (fun st outpoint entry =>
    if negb (contains_with_daa_score other outpoint (block_daa_score entry))
    then (<[outpoint := entry]> st.1, st.2)
    else (st.1, <[outpoint := entry]> st.2)) (result, remainder).

(** ** Diffs *)

(** The trait [ImmutableUtxoDiff]. *)
Class ImmutableUtxoDiff (D : Type) := {
  added : D -> UtxoCollection;
  removed : D -> UtxoCollection;
}.

Record UtxoDiff := mkDiff { add : UtxoCollection; remove : UtxoCollection }.

#[export] Instance UtxoDiff_immutable : ImmutableUtxoDiff UtxoDiff :=
  {| added := add; removed := remove |}.

(** [ReversedUtxoDiff]: a diff read backwards. *)
Record ReversedUtxoDiff := mkReversed { inner : UtxoDiff }.

#[export] Instance ReversedUtxoDiff_immutable : ImmutableUtxoDiff ReversedUtxoDiff :=
  {| added := fun r => remove (inner r); removed := fun r => add (inner r) |}.

Definition UtxoDiff_default : UtxoDiff := mkDiff ∅ ∅.
Definition as_reversed (d : UtxoDiff) : ReversedUtxoDiff := mkReversed d.
Definition to_reversed (d : UtxoDiff) : UtxoDiff := mkDiff (remove d) (add d).

Inductive UtxoAlgebraError :=
| DuplicateRemovePoint (o : TransactionOutpoint)
| DuplicateAddPoint (o : TransactionOutpoint)
| DoubleRemoveCall (o : TransactionOutpoint)
| DoubleAddCall (o : TransactionOutpoint)
| DiffIntersectionPoint (o : TransactionOutpoint)
| General.

Notation UtxoResult := (outcome UtxoAlgebraError).

(** [with_diff_in_place] returns the updated diff; [with_diff] clones first, so
    both are the same function of the model. *)
Definition with_diff_in_place `{ImmutableUtxoDiff D} (self : UtxoDiff) (other : D) : UtxoResult UtxoDiff :=
  match intersects_with_rule (removed other) (remove self) (fun outpoint entry_to_add _ =>
          negb (contains_with_daa_score (add self) outpoint (block_daa_score entry_to_add))) with
  | Some o => Err (DuplicateRemovePoint o)
  | None =>
  match intersects_with_rule (added other) (add self) (fun outpoint _ existing_entry =>
          negb (contains_with_daa_score (removed other) outpoint (block_daa_score existing_entry))) with
  | Some o => Err (DuplicateAddPoint o)
  | None =>
    let '(intersection, remove1) :=
      intersection_with_remainder_having_daa_score_in_place (removed other) (add self) ∅ (remove self) in
    let add1 := remove_collection (add self) intersection in
    let '(intersection, add2) :=
      intersection_with_remainder_matching_entry_in_place (added other) remove1 ∅ add1 in
    let remove2 := remove_collection remove1 intersection in
    Ok (mkDiff add2 remove2)
  end end.

Definition with_diff `{ImmutableUtxoDiff D} (self : UtxoDiff) (other : D) : UtxoResult UtxoDiff :=
  with_diff_in_place self other.

Definition diff_from `{ImmutableUtxoDiff D} (self : UtxoDiff) (other : D) : UtxoResult UtxoDiff :=
  let rule_not_added_output_removed_with_daa_score outpoint this_entry other_entry :=
    negb (negb (block_daa_score other_entry =? block_daa_score this_entry) &&
          (contains_with_daa_score (add self) outpoint (block_daa_score other_entry)
           || contains_with_daa_score (removed other) outpoint (block_daa_score this_entry))) in
  match intersects_with_rule (remove self) (added other) rule_not_added_output_removed_with_daa_score with
  | Some o => Err (DiffIntersectionPoint o)
  | None =>
  let rule_not_removed_output_added_with_daa_score outpoint this_entry other_entry :=
    negb (negb (block_daa_score other_entry =? block_daa_score this_entry) &&
          (contains_with_daa_score (remove self) outpoint (block_daa_score other_entry)
           || contains_with_daa_score (added other) outpoint (block_daa_score this_entry))) in
  match intersects_with_rule (add self) (removed other) rule_not_removed_output_added_with_daa_score with
  | Some o => Err (DiffIntersectionPoint o)
  | None =>
  match intersects_with_rule (remove self) (removed other) (fun _ this_entry other_entry =>
          negb (block_daa_score other_entry =? block_daa_score this_entry)) with
  | Some o => Err (DiffIntersectionPoint o)
  | None =>
    let '(result_remove, in_both_to_add) :=
      subtraction_with_remainder_having_daa_score_in_place (add self) (added other) ∅ ∅ in
    if negb (Bool.eqb (intersects in_both_to_add (remove self)) (intersects in_both_to_add (removed other)))
    then Err General
    else
      let result_remove := subtraction_having_daa_score_in_place (removed other) (remove self) result_remove in
      let result_add := subtraction_having_daa_score_in_place (remove self) (removed other) ∅ in
      let result_add := subtraction_having_daa_score_in_place (added other) (add self) result_add in
      Ok (mkDiff result_add result_remove)
  end end end.

Definition remove_entry (d : UtxoDiff) (outpoint : TransactionOutpoint) (entry : UtxoEntry) : UtxoResult UtxoDiff :=
  if contains_with_daa_score (add d) outpoint (block_daa_score entry)
  then Ok (mkDiff (delete outpoint (add d)) (remove d))
  else match remove d !! outpoint with
       | None => Ok (mkDiff (add d) (<[outpoint := entry]> (remove d)))
       | Some _ => Err (DoubleRemoveCall outpoint)
       end.

Definition add_entry (d : UtxoDiff) (outpoint : TransactionOutpoint) (entry : UtxoEntry) : UtxoResult UtxoDiff :=
  if contains_with_daa_score (remove d) outpoint (block_daa_score entry)
  then Ok (mkDiff (add d) (delete outpoint (remove d)))
  else match add d !! outpoint with
       | None => Ok (mkDiff (<[outpoint := entry]> (add d)) (remove d))
       | Some _ => Err (DoubleAddCall outpoint)
       end.

(** The entry created for output [i]; [i as u32] truncates. *)
Definition output_entry (anchors : option (list Z)) (output : TransactionOutput) (daa : Z) (cb : bool)
    (i : nat) : UtxoResult UtxoEntry :=
  match anchors with
  | Some anchors =>
      anchor ← unwrap (anchors !! i);
      Ok (UtxoEntry_new_aged (out_value output) (out_spk output) daa cb anchor)
  | None => Ok (UtxoEntry_new (out_value output) (out_spk output) daa cb)
  end.

(** The body of the loop over the outputs. *)
Definition add_output (tx : Transaction) (anchors : option (list Z)) (daa : Z) (d : UtxoDiff)
    (io : nat * TransactionOutput) : UtxoResult UtxoDiff :=
  let '(i, output) := io in
  let outpoint := mkOutpoint (tx_id tx) (Z.of_nat i mod 2 ^ 32) in
  entry ← output_entry anchors output daa (is_coinbase tx) i;
  add_entry d outpoint entry.

Definition add_transaction (d : UtxoDiff) (transaction : PopulatedTransaction) (daa : Z)
    (coin_age_active : bool) : UtxoResult UtxoDiff :=
  let tx := ptx_tx transaction in
  anchors ← (if coin_age_active then
               inputs ← populated_inputs transaction;
               anchors ← assign_output_effective_daa
                 ((fun p => (ue_spk p.2, amount p.2, effective_daa p.2)) <$> inputs)
                 ((fun o => (out_spk o, out_value o)) <$> tx_outputs tx) daa;
               Ok (Some anchors)
             else Ok None);
  d ← for_populated_inputs (fun d p => remove_entry d (previous_outpoint p.1) p.2) d transaction;
  foldM (add_output tx anchors daa) d (imap pair (tx_outputs tx)).

(** ** Views *)

(** The trait [UtxoView]. *)
Class UtxoView (V : Type) := get : V -> TransactionOutpoint -> option UtxoEntry.

#[export] Instance UtxoCollection_view : UtxoView UtxoCollection := fun c o => c !! o.

Record ComposedUtxoView (V D : Type) := compose { base : V; diff : D }.
Arguments compose {V D} _ _.
Arguments base {V D} _.
Arguments diff {V D} _.

#[export] Instance ComposedUtxoView_view `{UtxoView V} `{ImmutableUtxoDiff D} : UtxoView (ComposedUtxoView V D) :=
  fun view o =>
    match added (diff view) !! o with
    | Some entry => Some entry
    | None => if contains_key (removed (diff view)) o then None else get (base view) o
    end.

(** ** Collections, pointwise *)

Section collection_lemmas.
Implicit Types (m c other : UtxoCollection) (o : TransactionOutpoint).

Lemma foldl_split (p : TransactionOutpoint -> UtxoEntry -> bool) (l : list (TransactionOutpoint * UtxoEntry))
    (r q : UtxoCollection) o :
  NoDup l.*1 ->
  let f := fun (st : UtxoCollection * UtxoCollection) kv =>
    if p kv.1 kv.2 then (<[kv.1 := kv.2]> st.1, st.2) else (st.1, <[kv.1 := kv.2]> st.2) in
  (foldl f (r, q) l).1 !! o =
    match (list_to_map l : UtxoCollection) !! o with
    | Some e => if p o e then Some e else r !! o | None => r !! o end /\
  (foldl f (r, q) l).2 !! o =
    match (list_to_map l : UtxoCollection) !! o with
    | Some e => if p o e then q !! o else Some e | None => q !! o end.
Proof.
  cbn. revert r q. induction l as [|[k e] l IH]; intros r q Hnd; [done|].
  cbn [fmap list_fmap fst] in Hnd. apply NoDup_cons in Hnd as [Hk Hnd].
  cbn [foldl list_to_map foldr fst snd uncurry]. change (foldr _ ∅ l) with (list_to_map l : UtxoCollection).
  destruct (decide (o = k)) as [->|Hne].
  - assert ((list_to_map l : UtxoCollection) !! k = None) as Hl by (by apply not_elem_of_list_to_map).
    rewrite lookup_insert_eq.
    destruct (p k e) eqn:Ep;
      destruct (IH (<[k := e]> r) q Hnd) as [IH1 IH2]; destruct (IH r (<[k := e]> q) Hnd) as [IH3 IH4];
      rewrite Hl, ?lookup_insert_eq in *; done.
  - rewrite lookup_insert_ne by done.
    destruct (p k e);
      destruct (IH (<[k := e]> r) q Hnd) as [IH1 IH2]; destruct (IH r (<[k := e]> q) Hnd) as [IH3 IH4];
      rewrite lookup_insert_ne in * by done; done.
Qed.

Lemma for_each_split (p : TransactionOutpoint -> UtxoEntry -> bool) m (r q : UtxoCollection) o :
  let st := for_each m (fun st k e =>
    if p k e then (<[k := e]> st.1, st.2) else (st.1, <[k := e]> st.2)) (r, q) in
  st.1 !! o = match m !! o with Some e => if p o e then Some e else r !! o | None => r !! o end /\
  st.2 !! o = match m !! o with Some e => if p o e then q !! o else Some e | None => q !! o end.
Proof.
  pose proof (foldl_split p (map_to_list m) r q o (NoDup_fst_map_to_list m)) as H.
  by rewrite list_to_map_to_list in H.
Qed.

Lemma subtraction_lookup this other (r : UtxoCollection) o :
  subtraction_having_daa_score_in_place this other r !! o =
  match this !! o with
  | Some e => if contains_with_daa_score other o (block_daa_score e) then r !! o else Some e
  | None => r !! o
  end.
Proof.
  destruct (for_each_split (fun o e => negb (contains_with_daa_score other o (block_daa_score e)))
              this r ∅ o) as [H _].
  cbv zeta in H.
  assert (forall l (r q : UtxoCollection),
    (foldl (fun (st : UtxoCollection * UtxoCollection) kv =>
       if negb (contains_with_daa_score other kv.1 (block_daa_score kv.2))
       then (<[kv.1 := kv.2]> st.1, st.2) else (st.1, <[kv.1 := kv.2]> st.2)) (r, q) l).1 =
    foldl (fun r kv => if negb (contains_with_daa_score other kv.1 (block_daa_score kv.2))
                       then <[kv.1 := kv.2]> r else r) r l) as Hf.
  { induction l as [|kv l IH]; intros r' q; [done|]. cbn [foldl].
    destruct (negb _); apply IH. }
  unfold for_each in H. rewrite Hf in H. unfold subtraction_having_daa_score_in_place, for_each.
  rewrite H. destruct (this !! o); [|done]. by destruct (contains_with_daa_score _ _ _).
Qed.

Lemma remove_collection_lookup c other o :
  remove_collection c other !! o = if contains_key other o then None else c !! o.
Proof.
  unfold remove_collection, for_each, contains_key.
  assert (forall l c, (foldl (fun (c : UtxoCollection) (kv : TransactionOutpoint * UtxoEntry) => delete kv.1 c) c l) !! o =
            match (list_to_map l : UtxoCollection) !! o with Some _ => None | None => c !! o end) as Hf.
  { induction l as [|[k e] l IH]; intros c'; [done|]. cbn. rewrite IH.
    destruct (decide (o = k)) as [->|Hne].
    - rewrite lookup_delete_eq, lookup_insert_eq. by case_match.
    - by rewrite lookup_delete_ne, lookup_insert_ne. }
  rewrite Hf, list_to_map_to_list. by destruct (other !! o).
Qed.

Lemma intersects_spec c other :
  intersects c other = true <-> exists o, is_Some (c !! o) /\ is_Some (other !! o).
Proof.
  unfold intersects.
  assert (forall m m', existsb (contains_key m') (map_to_list m).*1 = true <->
            exists o, is_Some (m !! o) /\ is_Some (m' !! o)) as H.
  { intros m m'. rewrite existsb_exists. split.
    - intros (o & Ho & Hc). apply list_elem_of_In, list_elem_of_fmap in Ho as ([k e] & -> & Ho).
      apply elem_of_map_to_list in Ho. exists k. unfold contains_key in Hc. cbn in Hc. split; [eauto|].
      destruct (m' !! k); [eauto|discriminate].
    - intros (o & [e He] & [e' He']). exists o. split.
      + apply list_elem_of_In, list_elem_of_fmap. exists (o, e). split; [done|].
        by apply elem_of_map_to_list.
      + unfold contains_key. by rewrite He'. }
  destruct (_ <=? _)%nat; rewrite H; naive_solver.
Qed.

Lemma find_pairs_None (f : TransactionOutpoint * UtxoEntry -> bool) m :
  List.find f (map_to_list m) = None <-> forall o e, m !! o = Some e -> f (o, e) = false.
Proof.
  split.
  - intros H o e He. eapply find_none; [exact H|].
    apply list_elem_of_In. by apply elem_of_map_to_list.
  - intros H. destruct (List.find f (map_to_list m)) as [[o e]|] eqn:Ef; [|done].
    apply find_some in Ef as [Hin Hf].
    apply list_elem_of_In, elem_of_map_to_list in Hin. rewrite (H _ _ Hin) in Hf. done.
Qed.

Lemma intersects_with_rule_None c other rule :
  intersects_with_rule c other rule = None <->
  forall o v1 v2, c !! o = Some v1 -> other !! o = Some v2 -> rule o v1 v2 = false.
Proof.
  unfold intersects_with_rule. destruct (_ <=? _)%nat; rewrite fmap_None, find_pairs_None; cbn; split.
  - intros H o v1 v2 H1 H2. specialize (H o v1 H1). by rewrite H2 in H.
  - intros H o v1 H1. destruct (other !! o) eqn:H2; [by apply H|done].
  - intros H o v1 v2 H1 H2. specialize (H o v2 H2). by rewrite H1 in H.
  - intros H o v2 H2. destruct (c !! o) eqn:H1; [by apply H|done].
Qed.
End collection_lemmas.

(** ** Valid diffs

    A diff fits a view when it removes entries that the view has, and adds an
    entry only where the view has none or where it removes a different coin
    (the matching rule of [contains_matching_entry]). *)
Definition entry_matches (e1 e2 : UtxoEntry) : Prop :=
  block_daa_score e1 = block_daa_score e2 /\ effective_daa e1 = effective_daa e2.

Definition valid_cell (b a r : option UtxoEntry) : Prop :=
  (forall x, r = Some x -> b = Some x) /\
  (forall x, a = Some x -> match r with Some y => ~ entry_matches y x | None => b = None end).

Definition valid_diff `{UtxoView V} `{ImmutableUtxoDiff D} (view : V) (d : D) : Prop :=
  forall o, valid_cell (get view o) (added d !! o) (removed d !! o).

(** The coin identity the code relies on: at one outpoint, an entry of the view
    and an added entry that agree on their scores are the same entry. *)
Definition coin_identity `{UtxoView V} `{ImmutableUtxoDiff D} (view : V) (d : D) : Prop :=
  forall o e1 e2, get view o = Some e1 -> added d !! o = Some e2 -> entry_matches e1 e2 -> e1 = e2.

(** Identity by the creation score alone, between two diffs of one view. *)
Definition score_identity `{UtxoView V} `{ImmutableUtxoDiff D1, ImmutableUtxoDiff D2}
    (view : V) (d1 : D1) (d2 : D2) : Prop :=
  forall o e1 e2,
    (get view o = Some e1 \/ added d1 !! o = Some e1) ->
    (added d1 !! o = Some e2 \/ added d2 !! o = Some e2) ->
    block_daa_score e1 = block_daa_score e2 -> e1 = e2.

(** What a composed view answers at one outpoint. *)
Definition get_cell (b a r : option UtxoEntry) : option UtxoEntry :=
  match a with Some e => Some e | None => match r with Some _ => None | None => b end end.

Section diff_lemmas.
Context `{UtxoView V} `{ImmutableUtxoDiff D}.

Lemma get_compose (view : V) (d : D) o :
  get (compose view d) o = get_cell (get view o) (added d !! o) (removed d !! o).
Proof.
  unfold get at 1, ComposedUtxoView_view, contains_key, get_cell. cbn.
  destruct (added d !! o), (removed d !! o); done.
Qed.

(** The cell of [with_diff] at one outpoint. *)
Lemma with_diff_cells (self : UtxoDiff) (other : D) d o :
  with_diff self other = Ok d ->
  let a := add self !! o in let r := remove self !! o in
  let a2 := added other !! o in let r2 := removed other !! o in
  let hit := match r2, a with Some x, Some y => block_daa_score y =? block_daa_score x | _, _ => false end in
  let r1 := match r2 with Some x => if hit then r else Some x | None => r end in
  let a1 := if hit then None else a in
  let hit2 := match a2, r1 with
              | Some x, Some y => (block_daa_score y =? block_daa_score x) && (effective_daa y =? effective_daa x)
              | _, _ => false end in
  add d !! o = match a2 with Some x => if hit2 then a1 else Some x | None => a1 end /\
  remove d !! o = if hit2 then None else r1.
Proof.
  unfold with_diff, with_diff_in_place. do 2 (case_match; [done|]).
  case_match eqn:E1. case_match eqn:E2. intros [= <-]. cbn [add remove].
  destruct (for_each_split (fun o e => contains_with_daa_score (add self) o (block_daa_score e))
              (removed other) ∅ (remove self) o) as [HI HR].
  unfold intersection_with_remainder_having_daa_score_in_place in E1. rewrite E1 in HI, HR. cbn in HI, HR.
  unfold intersection_with_remainder_matching_entry_in_place in E2.
  match type of E2 with for_each _ _ (∅, ?a1) = _ =>
    destruct (for_each_split (fun o e => contains_matching_entry g0 o e) (added other) ∅ a1 o) as [HI2 HR2]
  end.
  rewrite E2 in HI2, HR2. cbn in HI2, HR2.
  rewrite HR2, !remove_collection_lookup. unfold contains_key. rewrite HI, HI2.
  unfold contains_matching_entry, contains_with_daa_score in *. rewrite HR. rewrite lookup_empty.
  destruct (removed other !! o), (add self !! o), (added other !! o), (remove self !! o); cbn;
    repeat case_match; done.
Qed.
End diff_lemmas.

(** Case analysis on the scores compared at an outpoint. *)
Ltac score_cases :=
  repeat match goal with
  | |- context [?x =? ?y] => destruct (Z.eqb_spec x y); cbn [andb orb negb]
  | H : context [?x =? ?y] |- _ => destruct (Z.eqb_spec x y); cbn [andb orb negb] in H
  end.

Ltac cell_solver :=
  repeat match goal with
  | H : forall x, Some ?e = Some x -> _ |- _ => specialize (H e eq_refl); cbn in H
  | H : forall x, None = Some x -> _ |- _ => clear H
  end; score_cases; unfold entry_matches in *; simplify_eq; try done; try naive_solver.

(** The composition at one outpoint: [b] is the view, [(a, r)] the first diff
    and [(a2, r2)] the second. *)
Lemma compose_cells b a r a2 r2 a' r' :
  valid_cell b a r -> valid_cell (get_cell b a r) a2 r2 ->
  (forall e1 e2, b = Some e1 -> a2 = Some e2 -> entry_matches e1 e2 -> e1 = e2) ->
  let hit := match r2, a with Some x, Some y => block_daa_score y =? block_daa_score x | _, _ => false end in
  let r1 := match r2 with Some x => if hit then r else Some x | None => r end in
  let a1 := if hit then None else a in
  let hit2 := match a2, r1 with
              | Some x, Some y => (block_daa_score y =? block_daa_score x) && (effective_daa y =? effective_daa x)
              | _, _ => false end in
  a' = match a2 with Some x => if hit2 then a1 else Some x | None => a1 end ->
  r' = (if hit2 then None else r1) ->
  valid_cell b a' r' /\ get_cell b a' r' = get_cell (get_cell b a r) a2 r2.
Proof.
  intros [V1 V2] [W1 W2] Hid. cbn zeta.
  unfold valid_cell, get_cell in *.
  destruct b as [eb|], a as [ea|], r as [er|], a2 as [ea2|], r2 as [er2|]; cbn in *;
    intros -> ->; split; [split|..]; cell_solver.
Qed.

Section diff_theory.
Context `{UtxoView V} `{ImmutableUtxoDiff D}.
Implicit Types (view : V) (self : UtxoDiff) (other : D).

(** The sanity checks of [with_diff] pass on valid diffs. *)
Lemma with_diff_succeeds view self other :
  valid_diff view self -> valid_diff (compose view self) other ->
  exists d, with_diff self other = Ok d.
Proof.
  intros Hv Hw. unfold with_diff, with_diff_in_place.
  rewrite (proj2 (intersects_with_rule_None _ _ _)).
  2:{ intros o v1 v2 H1 H2. destruct (Hw o) as [W1 _]. rewrite get_compose in W1.
      specialize (W1 v1 H1). unfold contains_with_daa_score, get_cell in *.
      cbn in W1. rewrite H2 in W1. destruct (add self !! o); [|done].
      simplify_eq. by rewrite Z.eqb_refl. }
  rewrite (proj2 (intersects_with_rule_None _ _ _)).
  2:{ intros o v1 v2 H1 H2. destruct (Hw o) as [W1 W2]. rewrite get_compose in W1, W2.
      specialize (W2 v1 H1). unfold contains_with_daa_score, get_cell in *.
      cbn in W1, W2. rewrite H2 in W1, W2. destruct (removed other !! o); [|done].
      specialize (W1 _ eq_refl). simplify_eq. by rewrite Z.eqb_refl. }
  do 2 case_match. eauto.
Qed.

Lemma with_diff_view view self other d :
  valid_diff view self -> valid_diff (compose view self) other -> coin_identity view other ->
  with_diff self other = Ok d ->
  valid_diff view d /\
  forall o, get (compose view d) o = get (compose (compose view self) other) o.
Proof.
  intros Hv Hw Hid Hd.
  assert (forall o, valid_cell (get view o) (add d !! o) (remove d !! o) /\
    get_cell (get view o) (add d !! o) (remove d !! o) =
    get_cell (get_cell (get view o) (add self !! o) (remove self !! o)) (added other !! o) (removed other !! o))
    as Hcell.
  { intros o. destruct (with_diff_cells self other d o Hd) as [Ha Hr].
    specialize (Hw o). rewrite get_compose in Hw.
    eapply compose_cells; [apply Hv|exact Hw|apply Hid|exact Ha|exact Hr]. }
  split; intros o; [apply Hcell|]. rewrite !get_compose. apply Hcell.
Qed.

(** The cell of [diff_from] at one outpoint. *)
Lemma diff_from_cells self other d o :
  diff_from self other = Ok d ->
  let a := add self !! o in let r := remove self !! o in
  let a2 := added other !! o in let r2 := removed other !! o in
  let hit (c : option UtxoEntry) (x : UtxoEntry) :=
    match c with Some y => block_daa_score y =? block_daa_score x | None => false end in
  add d !! o = match a2 with
               | Some x => if hit a x then match r with Some y => if hit r2 y then None else Some y | None => None end
                           else Some x
               | None => match r with Some y => if hit r2 y then None else Some y | None => None end
               end /\
  remove d !! o = match r2 with
                  | Some x => if hit r x then match a with Some y => if hit a2 y then None else Some y | None => None end
                              else Some x
                  | None => match a with Some y => if hit a2 y then None else Some y | None => None end
                  end.
Proof.
  unfold diff_from. do 3 (case_match; [done|]). case_match eqn:E1. case_match; [done|].
  intros [= <-]. cbn [add remove]. rewrite !subtraction_lookup.
  unfold subtraction_with_remainder_having_daa_score_in_place in E1.
  destruct (for_each_split (fun o e => negb (contains_with_daa_score (added other) o (block_daa_score e)))
              (add self) ∅ ∅ o) as [HI _]. rewrite E1 in HI. cbn in HI. rewrite HI.
  unfold contains_with_daa_score. rewrite lookup_empty.
  destruct (removed other !! o), (add self !! o), (added other !! o), (remove self !! o); cbn;
    repeat case_match; done.
Qed.

Lemma in_both_lookup self other o g g0 :
  subtraction_with_remainder_having_daa_score_in_place (add self) (added other) ∅ ∅ = (g, g0) ->
  is_Some (g0 !! o) -> exists a a2, add self !! o = Some a /\ added other !! o = Some a2.
Proof.
  intros E1. unfold subtraction_with_remainder_having_daa_score_in_place in E1.
  destruct (for_each_split (fun o e => negb (contains_with_daa_score (added other) o (block_daa_score e)))
              (add self) ∅ ∅ o) as [_ HI]. rewrite E1 in HI. cbn in HI. rewrite HI, lookup_empty.
  unfold contains_with_daa_score.
  destruct (add self !! o), (added other !! o); cbn; intros []; try done; eauto.
Qed.

(** The checks of [diff_from] pass on two valid diffs of one view. *)
Lemma diff_from_succeeds view self other :
  valid_diff view self -> valid_diff view other -> score_identity view self other ->
  exists d, diff_from self other = Ok d.
Proof.
  intros Hv Hw Hid. unfold diff_from, contains_with_daa_score.
  rewrite (proj2 (intersects_with_rule_None _ _ _)).
  2:{ intros o v1 v2 H1 H2. destruct (Hv o) as [V1 _]. destruct (Hw o) as [W1 W2].
      specialize (V1 _ H1). specialize (W2 _ H2).
      destruct (removed other !! o) as [x|]; [|congruence]. specialize (W1 _ eq_refl).
      assert (x = v1) as -> by congruence. rewrite Z.eqb_refl, orb_true_r, andb_true_r, negb_involutive.
      apply Z.eqb_neq. intros Heq. apply W2.
      rewrite (Hid o v1 v2); [done|by left|by right|done]. }
  rewrite (proj2 (intersects_with_rule_None _ _ _)).
  2:{ intros o v1 v2 H1 H2. destruct (Hv o) as [V1 V2]. destruct (Hw o) as [W1 _].
      specialize (W1 _ H2). specialize (V2 _ H1). cbn in V1, V2.
      destruct (remove self !! o) as [x|]; [|congruence]. specialize (V1 _ eq_refl).
      assert (x = v2) as -> by congruence. rewrite Z.eqb_refl. cbn. rewrite andb_true_r, negb_involutive.
      apply Z.eqb_neq. intros Heq. apply V2.
      rewrite (Hid o v2 v1); [done|by left|by left|done]. }
  rewrite (proj2 (intersects_with_rule_None _ _ _)).
  2:{ intros o v1 v2 H1 H2. destruct (Hv o) as [V1 _]. destruct (Hw o) as [W1 _].
      specialize (V1 _ H1). specialize (W1 _ H2). assert (v1 = v2) as -> by congruence.
      by rewrite Z.eqb_refl. }
  case_match eqn:E1.
  assert (intersects g0 (remove self) = intersects g0 (removed other)) as ->.
  { apply Bool.eq_iff_eq_true. rewrite !intersects_spec. apply exist_proper. intros o.
    enough (is_Some (g0 !! o) -> is_Some (remove self !! o) <-> is_Some (removed other !! o)) by tauto.
    intros Hg. destruct (in_both_lookup _ _ _ _ _ E1 Hg) as (a & a2 & Ha & Ha2).
    destruct (Hv o) as [V1 V2]. destruct (Hw o) as [W1 W2]. cbn in V1, V2.
    specialize (V2 _ Ha). specialize (W2 _ Ha2).
    destruct (remove self !! o), (removed other !! o); try done;
      [specialize (V1 _ eq_refl)|specialize (W1 _ eq_refl)]; congruence. }
  rewrite Bool.eqb_reflx. cbn. eauto.
Qed.

Lemma diff_from_view view self other d :
  valid_diff view self -> valid_diff view other -> score_identity view self other ->
  diff_from self other = Ok d ->
  valid_diff (compose view self) d /\
  forall o, get (compose (compose view self) d) o = get (compose view other) o.
Proof.
  intros Hv Hw Hid Hd.
  assert (forall o, valid_cell (get (compose view self) o) (add d !! o) (remove d !! o) /\
    get_cell (get (compose view self) o) (add d !! o) (remove d !! o) =
    get_cell (get view o) (added other !! o) (removed other !! o)) as Hcell.
  { intros o. destruct (diff_from_cells self other d o Hd) as [-> ->].
    rewrite get_compose. destruct (Hv o) as [V1 V2], (Hw o) as [W1 W2]. specialize (Hid o). cbn in V1, V2, Hid |- *.
    unfold valid_cell, get_cell in *.
    destruct (get view o) as [b|], (add self !! o) as [a|], (remove self !! o) as [r|],
      (added other !! o) as [a2|], (removed other !! o) as [r2|]; cbn in *;
      split; [split|..]; cell_solver. }
  split; intros o; [apply Hcell|]. rewrite (get_compose (compose view self) d), (get_compose view other). apply Hcell.
Qed.
End diff_theory.

(** ** Applying a transaction *)

(** The entry a transaction creates at outpoint [o], with the age anchor of the
    unit-coin reference when the coin-age era is active. *)
Definition created_anchor (ptx : PopulatedTransaction) (daa : Z) (active : bool) (output : TransactionOutput) : Z :=
  if active then
    reference_anchor
      (group_of (out_spk output) ((fun e => (ue_spk e, amount e, effective_daa e)) <$> entries ptx))
      (total_out (out_spk output) ((fun o => (out_spk o, out_value o)) <$> tx_outputs (ptx_tx ptx))) daa
  else daa.

Definition created_entry (ptx : PopulatedTransaction) (daa : Z) (active : bool) (output : TransactionOutput) : UtxoEntry :=
  mkUtxoEntry (out_value output) (out_spk output) daa (is_coinbase (ptx_tx ptx))
    (created_anchor ptx daa active output).

Definition created (ptx : PopulatedTransaction) (daa : Z) (active : bool) (o : TransactionOutpoint) : option UtxoEntry :=
  if bool_decide (transaction_id o = tx_id (ptx_tx ptx) /\ 0 <= op_index o)
  then created_entry ptx daa active <$> tx_outputs (ptx_tx ptx) !! Z.to_nat (op_index o)
  else None.

Definition spent (ptx : PopulatedTransaction) : list TransactionOutpoint :=
  previous_outpoint <$> tx_inputs (ptx_tx ptx).

(** The specification of a transaction on views: its outputs appear, the
    entries it spends disappear, everything else is unchanged. *)
Definition apply_tx `{UtxoView V} (view : V) (ptx : PopulatedTransaction) (daa : Z) (active : bool)
    (o : TransactionOutpoint) : option UtxoEntry :=
  match created ptx daa active o with
  | Some e => Some e
  | None => if bool_decide (o ∈ spent ptx) then None else get view o
  end.

(** A transaction whose inputs are populated from [view] with distinct
    outpoints, and whose output outpoints are new. *)
Record tx_fits `{UtxoView V} (view : V) (ptx : PopulatedTransaction) : Prop := {
  fits_length : length (tx_inputs (ptx_tx ptx)) = length (entries ptx);
  fits_populated : forall i input e, tx_inputs (ptx_tx ptx) !! i = Some input -> entries ptx !! i = Some e ->
                     get view (previous_outpoint input) = Some e;
  fits_nodup : NoDup (spent ptx);
  fits_outputs : Z.of_nat (length (tx_outputs (ptx_tx ptx))) < 2 ^ 32;
}.

Definition fresh_id `{UtxoView V} (view : V) (ptx : PopulatedTransaction) : Prop :=
  forall o, transaction_id o = tx_id (ptx_tx ptx) -> get view o = None.

(** The values of the transaction fit their widths (coin-age era only). *)
Definition aged_tx_ok (ptx : PopulatedTransaction) : Prop :=
  aged_inputs_ok ((fun e => (ue_spk e, amount e, effective_daa e)) <$> entries ptx) /\
  outputs_ok ((fun o => (out_spk o, out_value o)) <$> tx_outputs (ptx_tx ptx)).

Section transaction_lemmas.
Context `{UtxoView V}.
Implicit Types (view : V) (d : UtxoDiff).

Lemma remove_entry_step view d o e :
  valid_diff view d -> get (compose view d) o = Some e ->
  exists d', remove_entry d o e = Ok d' /\ valid_diff view d' /\
    forall o', get (compose view d') o' = if decide (o' = o) then None else get (compose view d) o'.
Proof.
  intros Hv Hg. rewrite get_compose in Hg. pose proof (Hv o) as [V1 V2]. cbn in V1, V2.
  unfold remove_entry, contains_with_daa_score. cbn in Hg.
  destruct (add d !! o) as [a|] eqn:Ea; cbn in Hg.
  - injection Hg as ->. rewrite Z.eqb_refl. specialize (V2 _ eq_refl).
    eexists; split; [done|]. split.
    + intros o'. specialize (Hv o'). cbn in Hv |- *.
      destruct (decide (o' = o)) as [->|Hne]; [|by rewrite lookup_delete_ne].
      rewrite lookup_delete_eq. split; [|done]. apply V1.
    + intros o'. rewrite !get_compose. cbn.
      destruct (decide (o' = o)) as [->|Hne]; [|by rewrite lookup_delete_ne].
      rewrite lookup_delete_eq. cbn. destruct (remove d !! o); done.
  - destruct (remove d !! o) eqn:Er; [done|]. cbn in Hg.
    eexists; split; [done|]. split.
    + intros o'. specialize (Hv o'). cbn in Hv |- *.
      destruct (decide (o' = o)) as [->|Hne]; [|by rewrite lookup_insert_ne].
      rewrite lookup_insert_eq, Ea. split; [|done]. by intros x [= <-].
    + intros o'. rewrite !get_compose. cbn.
      destruct (decide (o' = o)) as [->|Hne]; [|by rewrite lookup_insert_ne].
      by rewrite lookup_insert_eq, Ea.
Qed.

Lemma add_entry_step view d o e :
  valid_diff view d -> get view o = None -> get (compose view d) o = None ->
  exists d', add_entry d o e = Ok d' /\ valid_diff view d' /\
    forall o', get (compose view d') o' = if decide (o' = o) then Some e else get (compose view d) o'.
Proof.
  intros Hv Hb Hg. rewrite get_compose in Hg. pose proof (Hv o) as [V1 V2]. cbn in V1, V2.
  unfold add_entry, contains_with_daa_score. cbn in Hg.
  destruct (remove d !! o) as [r|] eqn:Er; [specialize (V1 _ eq_refl); congruence|].
  destruct (add d !! o) as [a|] eqn:Ea; [done|].
  eexists; split; [done|]. split.
  - intros o'. specialize (Hv o'). cbn in Hv |- *.
    destruct (decide (o' = o)) as [->|Hne]; [|by rewrite lookup_insert_ne].
    rewrite lookup_insert_eq, Er. by split.
  - intros o'. rewrite !get_compose. cbn.
    destruct (decide (o' = o)) as [->|Hne]; [|by rewrite lookup_insert_ne].
    by rewrite lookup_insert_eq.
Qed.

(** The loop over the inputs removes the spent outpoints. *)
Lemma remove_loop view d (l : list (TransactionInput * UtxoEntry)) :
  valid_diff view d -> NoDup ((fun p => previous_outpoint p.1) <$> l) ->
  (forall p, p ∈ l -> get (compose view d) (previous_outpoint p.1) = Some p.2) ->
  exists d', foldM (fun d p => remove_entry d (previous_outpoint p.1) p.2) d l = Ok d' /\
    valid_diff view d' /\
    forall o, get (compose view d') o =
      if bool_decide (o ∈ (fun p => previous_outpoint p.1) <$> l) then None else get (compose view d) o.
Proof.
  revert d. induction l as [|p l IH]; intros d Hv Hnd Hget; [by exists d|].
  cbn [fmap list_fmap] in Hnd. apply NoDup_cons in Hnd as [Hp Hnd].
  destruct (remove_entry_step view d (previous_outpoint p.1) p.2) as (d1 & Hd1 & Hv1 & Hg1);
    [done|apply Hget; left|].
  destruct (IH d1) as (d2 & Hd2 & Hv2 & Hg2); [done|done| |].
  { intros q Hq. rewrite Hg1, decide_False; [apply Hget; by right|].
    intros Heq. apply Hp. rewrite <-Heq. apply list_elem_of_fmap. eauto. }
  exists d2. cbn [foldM]. rewrite Hd1. cbn. split; [done|]. split; [done|].
  intros o. rewrite Hg2, Hg1. repeat case_bool_decide; try case_decide; try done; set_solver.
Qed.
End transaction_lemmas.

Section add_transaction_lemmas.
Context `{UtxoView V}.
Implicit Types (view : V) (d : UtxoDiff).

Lemma populated_entries ptx :
  length (tx_inputs (ptx_tx ptx)) = length (entries ptx) ->
  (fun p : TransactionInput * UtxoEntry => (ue_spk p.2, amount p.2, effective_daa p.2))
    <$> zip (tx_inputs (ptx_tx ptx)) (entries ptx) =
  (fun e => (ue_spk e, amount e, effective_daa e)) <$> entries ptx.
Proof.
  intros Hlen. rewrite <-(snd_zip (tx_inputs (ptx_tx ptx)) (entries ptx)) at 2 by lia.
  by rewrite <-list_fmap_compose.
Qed.

Lemma spent_zip ptx :
  length (tx_inputs (ptx_tx ptx)) = length (entries ptx) ->
  (fun p : TransactionInput * UtxoEntry => previous_outpoint p.1)
    <$> zip (tx_inputs (ptx_tx ptx)) (entries ptx) = spent ptx.
Proof.
  intros Hlen. unfold spent. rewrite <-(fst_zip (tx_inputs (ptx_tx ptx)) (entries ptx)) at 2 by lia.
  by rewrite <-list_fmap_compose.
Qed.

(** The anchors that [add_transaction] resolves before it consumes entries. *)
Lemma anchors_ok {E} ptx daa (active : bool) :
  length (tx_inputs (ptx_tx ptx)) = length (entries ptx) ->
  (active = true -> aged_tx_ok ptx /\ in_u 64 daa) ->
  (if active then
     inputs ← populated_inputs ptx;
     anchors ← assign_output_effective_daa (E := E)
       ((fun p => (ue_spk p.2, amount p.2, effective_daa p.2)) <$> inputs)
       ((fun o => (out_spk o, out_value o)) <$> tx_outputs (ptx_tx ptx)) daa;
     Ok (Some anchors)
   else Ok None) =
  Ok (if active then Some (created_anchor ptx daa active <$> tx_outputs (ptx_tx ptx)) else None).
Proof.
  intros Hlen Hact. destruct active; [|done]. destruct Hact as [[Hi Ho] Hd]; [done|].
  rewrite populated_inputs_zip by done. cbn [mbind outcome_mbind].
  rewrite populated_entries, assign_ok by done. cbn [mbind outcome_mbind].
  by rewrite <-list_fmap_compose.
Qed.

Lemma output_entry_ok ptx daa (active : bool) i output :
  tx_outputs (ptx_tx ptx) !! i = Some output ->
  output_entry (if active then Some (created_anchor ptx daa active <$> tx_outputs (ptx_tx ptx)) else None)
    output daa (is_coinbase (ptx_tx ptx)) i = Ok (created_entry ptx daa active output).
Proof.
  intros Hi. unfold output_entry, created_entry. destruct active; [|done].
  by rewrite list_lookup_fmap, Hi.
Qed.

(** The loop over the outputs creates their entries. *)
Lemma output_loop view d ptx daa (active : bool) :
  valid_diff view d -> Z.of_nat (length (tx_outputs (ptx_tx ptx))) < 2 ^ 32 ->
  fresh_id view ptx -> fresh_id (compose view d) ptx ->
  exists d', foldM (add_output (ptx_tx ptx)
      (if active then Some (created_anchor ptx daa active <$> tx_outputs (ptx_tx ptx)) else None) daa)
      d (imap pair (tx_outputs (ptx_tx ptx))) = Ok d' /\
    valid_diff view d' /\
    forall o, get (compose view d') o =
      match created ptx daa active o with Some e => Some e | None => get (compose view d) o end.
Proof.
  intros Hv Hlen Hf Hfd. set (outs := tx_outputs (ptx_tx ptx)) in *.
  edestruct (foldM_total
    (add_output (ptx_tx ptx) (if active then Some (created_anchor ptx daa active <$> outs) else None) daa)
    (fun (pre : list (nat * TransactionOutput)) d' => valid_diff view d' /\
      forall o, get (compose view d') o =
        if bool_decide (transaction_id o = tx_id (ptx_tx ptx) /\ 0 <= op_index o < Z.of_nat (length pre))
        then created ptx daa active o else get (compose view d) o)
    d (imap pair outs)) as (d' & Hd' & Hv' & Hg').
  - split; [done|]. intros o. rewrite bool_decide_false; [done|]. cbn. lia.
  - intros pre [i output] post d1 Heq [Hv1 Hg1].
    assert (imap pair outs !! length pre = Some (i, output)) as Hl
        by (rewrite Heq; by apply list_lookup_middle).
    rewrite list_lookup_imap in Hl.
    destruct (outs !! length pre) as [out'|] eqn:Ho; [|done]. cbn in Hl. injection Hl as <- <-.
    cbn [add_output]. unfold outs. rewrite (output_entry_ok ptx daa active) by done. fold outs.
    cbn [mbind outcome_mbind].
    assert (length pre < length outs)%nat by (by eapply lookup_lt_Some).
    rewrite Z.mod_small by lia.
    set (o1 := mkOutpoint (tx_id (ptx_tx ptx)) (Z.of_nat (length pre))).
    destruct (add_entry_step view d1 o1 (created_entry ptx daa active out')) as (d2 & Hd2 & Hv2 & Hg2);
      [done|by apply Hf| |].
    { rewrite Hg1, bool_decide_false by (cbn; lia). by apply Hfd. }
    exists d2. split; [done|]. split; [done|]. intros o. rewrite Hg2, Hg1.
    rewrite length_app. cbn [length]. destruct (decide (o = o1)) as [->|Hne].
    + rewrite bool_decide_true by (cbn; split; [done|lia]).
      unfold created. rewrite bool_decide_true by (cbn; split; [done|lia]).
      cbn. rewrite Nat2Z.id. fold outs. by rewrite Ho.
    + erewrite bool_decide_ext; [done|]. split; [intros [??]; split; [done|lia]|].
      intros [? [? ?]]. split; [done|]. split; [done|].
      enough (op_index o <> Z.of_nat (length pre)) by lia.
      intros Hidx. apply Hne. destruct o; cbn in *; subst. done.
  - exists d'. split; [exact Hd'|]. split; [done|]. intros o. rewrite Hg'.
    rewrite length_imap. unfold created.
    case_bool_decide as H1; case_bool_decide as H2; try done; try tauto.
    + fold outs. destruct (outs !! Z.to_nat (op_index o)) eqn:Eo; [done|].
      apply lookup_ge_None in Eo. lia.
    + fold outs. rewrite lookup_ge_None_2; [done|]. lia.
Qed.

Lemma add_transaction_ok view d ptx daa (active : bool) :
  valid_diff view d -> tx_fits (compose view d) ptx ->
  fresh_id view ptx -> fresh_id (compose view d) ptx ->
  (active = true -> aged_tx_ok ptx /\ in_u 64 daa) ->
  exists d', add_transaction d ptx daa active = Ok d' /\ valid_diff view d' /\
    forall o, get (compose view d') o = apply_tx (compose view d) ptx daa active o.
Proof.
  intros Hv [Hlen Hpop Hnd Houts] Hf Hfd Hact. unfold add_transaction.
  rewrite (anchors_ok ptx daa active Hlen Hact). cbn [mbind outcome_mbind].
  rewrite for_populated_inputs_zip by done.
  destruct (remove_loop view d (zip (tx_inputs (ptx_tx ptx)) (entries ptx))) as (d1 & -> & Hv1 & Hg1);
    [done|by rewrite spent_zip| |].
  { intros [input e] Hp. apply list_elem_of_lookup in Hp as [i Hi]. cbn.
    rewrite lookup_zip_with in Hi.
    destruct (tx_inputs (ptx_tx ptx) !! i) eqn:Ei; [|done].
    destruct (entries ptx !! i) eqn:Ee; cbn in Hi; [|done]. injection Hi as -> ->. eauto. }
  cbn [mbind outcome_mbind]. rewrite spent_zip in Hg1 by done.
  destruct (output_loop view d1 ptx daa active) as (d2 & Hd2 & Hv2 & Hg2); [done|done|done| |].
  { intros o Ho. rewrite Hg1. case_bool_decide; [done|]. by apply Hfd. }
  exists d2. split; [exact Hd2|]. split; [done|]. intros o. rewrite Hg2, Hg1. done.
Qed.
End add_transaction_lemmas.

(** ** Properties *)

(** C33: composing two diffs.  If the first diff fits a view and the second fits
    the view under the first, [with_diff] succeeds; the result fits the view,
    and the view under it answers every query as the view under the two diffs
    in turn. *)
Theorem with_diff_composition `{UtxoView V} `{ImmutableUtxoDiff D} (view : V) (self : UtxoDiff) (other : D) :
  valid_diff view self -> valid_diff (compose view self) other -> coin_identity view other ->
  exists d, with_diff self other = Ok d /\ valid_diff view d /\
    forall o, get (compose view d) o = get (compose (compose view self) other) o.
Proof.
  intros Hv Hw Hid. destruct (with_diff_succeeds view self other Hv Hw) as [d Hd].
  exists d. split; [done|]. by apply (with_diff_view view self other).
Qed.

(** The difference of two diffs of one view.  [diff_from] succeeds, and its
    result leads from the view under the first diff to the view under the
    second. *)
Theorem diff_from_transport `{UtxoView V} `{ImmutableUtxoDiff D} (view : V) (self : UtxoDiff) (other : D) :
  valid_diff view self -> valid_diff view other -> score_identity view self other ->
  exists d, diff_from self other = Ok d /\ valid_diff (compose view self) d /\
    forall o, get (compose (compose view self) d) o = get (compose view other) o.
Proof.
  intros Hv Hw Hid. destruct (diff_from_succeeds view self other Hv Hw Hid) as [d Hd].
  exists d. split; [done|]. by apply (diff_from_view view self other).
Qed.

(** A reversed diff undoes the diff: it fits the view under the diff, and
    the view under both is the view. *)
Theorem reversed_diff_undoes `{UtxoView V} (view : V) (d : UtxoDiff) :
  valid_diff view d ->
  valid_diff (compose view d) (as_reversed d) /\ valid_diff (compose view d) (to_reversed d) /\
  forall o, get (compose (compose view d) (as_reversed d)) o = get view o.
Proof.
  intros Hv.
  assert (forall o, valid_cell (get (compose view d) o) (remove d !! o) (add d !! o) /\
    get_cell (get (compose view d) o) (remove d !! o) (add d !! o) = get view o) as Hcell.
  { intros o. rewrite get_compose. destruct (Hv o) as [V1 V2]. cbn in V1, V2 |- *.
    unfold valid_cell, get_cell in *.
    destruct (get view o), (add d !! o), (remove d !! o); cbn in *; split; [split|..]; cell_solver. }
  split; [|split]; intros o; [apply Hcell..|]. rewrite get_compose. apply Hcell.
Qed.

(** C34: adding a transaction to a diff.  For a transaction populated from the
    view under the diff, with distinct inputs and a new identifier,
    [add_transaction] succeeds and the view under the new diff is the view under
    the old one with the inputs spent and the outputs created, each with its
    amount, script, score and age anchor. *)
Theorem add_transaction_refines `{UtxoView V} (view : V) (d : UtxoDiff) ptx daa (active : bool) :
  valid_diff view d -> tx_fits (compose view d) ptx ->
  fresh_id view ptx -> fresh_id (compose view d) ptx ->
  (active = true -> aged_tx_ok ptx /\ in_u 64 daa) ->
  exists d', add_transaction d ptx daa active = Ok d' /\ valid_diff view d' /\
    forall o, get (compose view d') o = apply_tx (compose view d) ptx daa active o.
Proof. apply add_transaction_ok. Qed.

(** ** Witnesses *)

Definition op1 : TransactionOutpoint := mkOutpoint 1 0.
Definition op2 : TransactionOutpoint := mkOutpoint 2 0.
Definition entry1 : UtxoEntry := mkUtxoEntry 100 spk_a 5 false 5.
Definition entry2 : UtxoEntry := mkUtxoEntry 80 spk_a 9 false 7.
Definition view1 : UtxoCollection := {[ op1 := entry1 ]}.
Definition diff_spend : UtxoDiff := mkDiff {[ op2 := entry2 ]} {[ op1 := entry1 ]}.
Definition diff_undo : UtxoDiff := mkDiff {[ op1 := entry1 ]} {[ op2 := entry2 ]}.

(** [at_points o] splits a statement about every outpoint into the two
    outpoints of the examples and the rest. *)
Ltac at_points o :=
  intros o; destruct (decide (o = op1)) as [->|?]; [|destruct (decide (o = op2)) as [->|?]].

Ltac rest_cell :=
  rewrite ?get_compose;
  unfold get, UtxoCollection_view, view1, diff_spend, diff_undo, added, removed, UtxoDiff_immutable, add, remove;
  rewrite ?lookup_singleton_ne by congruence; by split.

Ltac example_valid :=
  let o := fresh "o" in
  at_points o;
  [vm_compute; split; intros; simplify_eq; done..
  |rest_cell].

Lemma valid_spend : valid_diff view1 diff_spend.
Proof. example_valid. Defined.

Lemma valid_undo : valid_diff (compose view1 diff_spend) diff_undo.
Proof. example_valid. Defined.

Lemma identity_undo : coin_identity view1 diff_undo.
Proof.
  at_points o; [vm_compute; congruence..|].
  unfold get, UtxoCollection_view, view1. by rewrite lookup_singleton_ne by congruence.
Defined.

Lemma with_diff_composition_witness :
  exists d, with_diff diff_spend diff_undo = Ok d /\ valid_diff view1 d /\
    forall o, get (compose view1 d) o = get (compose (compose view1 diff_spend) diff_undo) o.
Proof.
  apply (with_diff_composition view1 diff_spend diff_undo).
  - apply valid_spend.
  - apply valid_undo.
  - apply identity_undo.
Defined.

Lemma valid_empty : valid_diff view1 UtxoDiff_default.
Proof. intros o. cbn. by split. Defined.

Lemma diff_from_transport_witness :
  exists d, diff_from diff_spend UtxoDiff_default = Ok d /\ valid_diff (compose view1 diff_spend) d /\
    forall o, get (compose (compose view1 diff_spend) d) o = get (compose view1 UtxoDiff_default) o.
Proof.
  apply (diff_from_transport view1 diff_spend UtxoDiff_default).
  - apply valid_spend.
  - apply valid_empty.
  - at_points o; [vm_compute; intuition congruence..|].
    unfold get, UtxoCollection_view, view1, added, UtxoDiff_immutable, diff_spend, add.
    rewrite !lookup_singleton_ne by congruence. cbn. rewrite lookup_empty. intuition congruence.
Defined.

Lemma reversed_diff_undoes_witness :
  valid_diff (compose view1 diff_spend) (as_reversed diff_spend) /\
  valid_diff (compose view1 diff_spend) (to_reversed diff_spend) /\
  forall o, get (compose (compose view1 diff_spend) (as_reversed diff_spend)) o = get view1 o.
Proof. apply (reversed_diff_undoes view1 diff_spend). apply valid_spend. Defined.

Definition tx2 : Transaction :=
  mkTransaction 0 [mkInput op1 [] 0 0] [mkOutput 60 spk_a; mkOutput 40 spk_b] 0
    SUBNETWORK_ID_NATIVE 0 [] 0 2.
Definition ptx2 : PopulatedTransaction := mkPopulated tx2 [entry1].

Lemma fresh_view1 : fresh_id view1 ptx2.
Proof.
  intros o Ho. unfold get, UtxoCollection_view, view1. apply lookup_singleton_ne.
  intros <-. cbn in Ho. discriminate.
Defined.

Lemma add_transaction_refines_witness :
  exists d', add_transaction UtxoDiff_default ptx2 20 true = Ok d' /\ valid_diff view1 d' /\
    forall o, get (compose view1 d') o = apply_tx (compose view1 UtxoDiff_default) ptx2 20 true o.
Proof.
  apply (add_transaction_refines view1 UtxoDiff_default ptx2 20 true).
  - apply valid_empty.
  - split; [reflexivity| |repeat constructor; set_solver|vm_compute; reflexivity].
    intros [|i] input e; cbn; [|by destruct i]. intros [= <-] [= <-]. vm_compute. reflexivity.
  - apply fresh_view1.
  - intros o Ho. rewrite get_compose. cbn. by apply fresh_view1.
  - intros _. split; [|split; vm_compute; congruence].
    split; (split; [repeat constructor; vm_compute; congruence|vm_compute; reflexivity]).
Defined.
