(* ===== verification/ScriptNum.v ===== *)
(** * The data stack of the script engine

    [crypto/txscript/src/data_stack.rs] and the errors of
    [crypto/txscript/errors]: numbers and booleans as byte strings, and the
    operations on a stack of byte strings.  A stack is a [Vec]: its top is the
    last element.  The texts of the errors are dropped.

    The encoding of numbers on the stack: every number but the least 64-bit one
    has exactly one accepted byte string. *)
From S2P Require Import Prelude Bytes.
#[local] Open Scope Z_scope.

Inductive TxScriptError :=
  | MalformedPushSize (bytes : list Z)
  | MalformedPush (required available : Z)
  | InvalidInputIndex (i len : Z)
  | StackSizeExceeded (size max : Z)
  | InvalidOpcode
  | OpcodeReserved
  | OpcodeDisabled
  | EmptyStack
  | CleanStack (n : Z)
  | EvalFalse
  | EarlyReturn
  | VerifyError
  | InvalidState
  | InvalidSignature
  | TooManyOperations (max : Z)
  | NotATransactionInput
  | ElementTooBig (size max : Z)
  | NotMinimalData
  | InvalidSource
  | UnsatisfiedLockTime
  | NumberTooBig
  | NullFail
  | InvalidSignatureCount
  | InvalidPubKeyCount
  | InvalidSigHashType (typ : Z)
  | PubKeyFormat
  | SigLength (len : Z)
  | NoScripts
  | SignatureScriptNotPushOnly
  | ErrUnbalancedConditional
  | InvalidStackOperation (required size : Z)
  | ScriptSize (size max : Z)
  | InvalidOutputIndex (i len : Z)
  | NumberTooLong (n : Z)
  | ExceededSigOpLimit (limit : Z).

Notation script_result := (outcome TxScriptError).

Definition zlen {A} (l : list A) : Z := Z.of_nat (length l).

(** ** Signed 64-bit arithmetic *)

Definition in_i (w x : Z) : Prop := - 2 ^ (w - 1) <= x < 2 ^ (w - 1).
Definition in_ib (w x : Z) : bool := (- 2 ^ (w - 1) <=? x) && (x <? 2 ^ (w - 1)).
(** [<<] drops the high bits; [+] and [*] panic on overflow. *)
Definition wrap_i64 (x : Z) : Z := (x + 2 ^ 63) mod 2 ^ 64 - 2 ^ 63.
Definition checked_i {E} (w x : Z) : outcome E Z := if in_ib w x then Ok x else Panic.

(** ** Numbers *)

Definition check_minimal_data_encoding (v : list Z) : script_result () :=
  match last v with
  | None => Ok ()
  | Some msb =>
      if Z.land msb 127 =? 0 then
        if (zlen v =? 1) || (Z.land (nth (length v - 2) v 0) 128 =? 0) then Err NotMinimalData else Ok ()
      else Ok ()
  end.

(** The iterator of [serialize_i64]; nine rounds are enough for 64 bits. *)
Fixpoint number_bytes (n : nat) (positive : Z) (last_saturated : bool) : list Z :=
  match n with
  | O => []
  | S n =>
      if positive =? 0 then
        if last_saturated then 0 :: number_bytes n 0 false else []
      else
        let value := Z.land positive 255 in
        value :: number_bytes n (Z.shiftr positive 8) (negb (Z.land value 128 =? 0))
  end.

Definition set_last (f : Z -> Z) (l : list Z) : option (list Z) :=
  match last l with None => None | Some x => Some (removelast l ++ [f x]) end.

Definition serialize_i64 (from : Z) : script_result (list Z) :=
  let number_vec := number_bytes 10 (Z.abs from) false in
  if Z.sgn from =? -1 then unwrap (set_last (fun num => Z.lor num 128) number_vec) else Ok number_vec.

Definition deserialize_i64 (v : list Z) : script_result Z :=
  if 8 <? zlen v then Err NotMinimalData
  else
    match last v with
    | None => Ok 0
    | Some msb =>
        _ ← check_minimal_data_encoding v;
        let sign := 1 - 2 * Z.shiftr msb 7 in
        let first_byte := Z.land msb 127 in
        x ← foldM (fun accum item => checked_i 64 (wrap_i64 (Z.shiftl accum 8) + item)) first_byte (rev (removelast v));
        checked_i 64 (x * sign)
    end.

(** [SizedEncodeInt<LEN>]. *)
Definition deserialize_sized (LEN : Z) (v : list Z) : script_result Z :=
  if LEN <? zlen v then Err NumberTooBig else deserialize_i64 v.
Definition serialize_sized (LEN : Z) (from : Z) : script_result (list Z) :=
  bytes ← serialize_i64 from;
  if LEN <? zlen bytes then Err (NumberTooLong from) else Ok bytes.

Definition deserialize_num64 (v : list Z) : script_result Z := deserialize_sized 8 v.
Definition serialize_num64 (from : Z) : script_result (list Z) := serialize_sized 8 from.
(** The conversion to [i32] expects a number in range. *)
Definition deserialize_num32 (v : list Z) : script_result Z := x ← deserialize_sized 4 v; checked_i 32 x.

Definition deserialize_bool (v : list Z) : script_result bool :=
  match last v with
  | None => Ok false
  | Some msb => Ok (negb (Z.land msb 127 =? 0) || existsb (fun b => negb (b =? 0)) (removelast v))
  end.
Definition serialize_bool (b : bool) : list Z := if b then [1] else [].

(** ** Stacks *)

Notation Stack := (list (list Z)).

Section stack.
Context {T : Type} (deserialize : list Z -> script_result T).

Definition pop_raw (n : nat) (s : Stack) : script_result (Stack * Stack) :=
  if (length s <? n)%nat then Err (InvalidStackOperation (Z.of_nat n) (zlen s))
  else Ok (drop (length s - n) s, take (length s - n) s).

Definition pop_items (n : nat) (s : Stack) : script_result (list T * Stack) :=
  '(items, s) ← pop_raw n s;
  ts ← mapM' deserialize items;
  Ok (ts, s).
End stack.

Definition peek_raw (n : nat) (s : Stack) : script_result Stack :=
  if (length s <? n)%nat then Err (InvalidStackOperation (Z.of_nat n) (zlen s)) else Ok (drop (length s - n) s).

Definition peek_items {T} (deserialize : list Z -> script_result T) (n : nat) (s : Stack) : script_result (list T) :=
  items ← peek_raw n s;
  mapM' deserialize items.

Definition drop_items (n : nat) (s : Stack) : script_result Stack :=
  if (n <=? length s)%nat then Ok (take (length s - n) s) else Err (InvalidStackOperation (Z.of_nat n) (zlen s)).

Definition dup_items (n : nat) (s : Stack) : script_result Stack :=
  if (n <=? length s)%nat then Ok (s ++ drop (length s - n) s) else Err (InvalidStackOperation (Z.of_nat n) (zlen s)).

Definition over_items (n : nat) (s : Stack) : script_result Stack :=
  if (2 * n <=? length s)%nat then Ok (s ++ take n (drop (length s - 2 * n) s))
  else Err (InvalidStackOperation (2 * Z.of_nat n) (zlen s)).

(** [drain] of the [n] elements at distance [k * n] from the top, appended. *)
Definition raise_items (k n : nat) (s : Stack) : script_result Stack :=
  if (k * n <=? length s)%nat then
    let i := (length s - k * n)%nat in
    Ok (take i s ++ drop (i + n) s ++ take n (drop i s))
  else Err (InvalidStackOperation (Z.of_nat k * Z.of_nat n) (zlen s)).
Definition rot_items (n : nat) (s : Stack) : script_result Stack := raise_items 3 n s.
Definition swap_items (n : nat) (s : Stack) : script_result Stack := raise_items 2 n s.

(** [number v x]: the little-endian magnitude of [x] without redundant bytes,
    with the sign in the highest bit of the last byte. *)
Inductive number : list Z -> Z -> Prop :=
| number_zero : number [] 0
| number_bytes_of l t (s : bool) x :
    Forall is_byte l -> 0 <= t < 128 -> (t <> 0 \/ exists l' b, l = l' ++ [b] /\ 128 <= b) ->
    x = (if s then -1 else 1) * (of_le_bytes l + 256 ^ zlen l * t) ->
    number (l ++ [t + (if s then 128 else 0)]) x.

Lemma zlen_app {A} (l1 l2 : list A) : zlen (l1 ++ l2) = zlen l1 + zlen l2.
Proof. unfold zlen. rewrite length_app. lia. Qed.

Lemma zlen_nonneg {A} (l : list A) : 0 <= zlen l.
Proof. unfold zlen. lia. Qed.

Lemma pow256 n : 0 <= n -> 0 < 256 ^ n.
Proof. intros. apply Z.pow_pos_nonneg; lia. Qed.

(** ** Bounds of the magnitude *)

Lemma magnitude_upper l t : Forall is_byte l -> 0 <= t < 128 -> of_le_bytes l + 256 ^ zlen l * t < 128 * 256 ^ zlen l.
Proof. intros Hl Ht. pose proof (of_le_bound l Hl). unfold zlen. nia. Qed.

Lemma magnitude_lower l t : Forall is_byte l -> 0 <= t < 128 -> (t <> 0 \/ exists l' b, l = l' ++ [b] /\ 128 <= b) ->
  128 * 256 ^ (zlen l - 1) <= of_le_bytes l + 256 ^ zlen l * t \/ (l = [] /\ 0 < t).
Proof.
  intros Hl Ht Hmin. destruct l as [|b0 l0] eqn:El; [right; split; [done|]; destruct Hmin as [?|(l' & b & E & _)]; [lia|by destruct l']|].
  left. rewrite <-El in *. assert (0 < zlen l) by (rewrite El; unfold zlen; cbn; lia). pose proof (of_le_bound l Hl) as Hb.
  assert (256 ^ zlen l = 256 * 256 ^ (zlen l - 1)) as Hp by (rewrite <-Z.pow_succ_r by lia; f_equal; lia).
  pose proof (pow256 (zlen l - 1)). destruct Hmin as [?|(l' & b & -> & Hge)]; [nia|].
  rewrite of_le_app. apply Forall_app in Hl as [Hl' _]. pose proof (of_le_bound l' Hl'). rewrite zlen_app in *.
  unfold zlen in *. cbn [length of_le_bytes] in *. replace (Z.of_nat (length l') + Z.of_nat 1 - 1) with (Z.of_nat (length l')) in * by lia.
  nia.
Qed.

Lemma number_nonzero l t (s : bool) : Forall is_byte l -> 0 <= t < 128 ->
  (t <> 0 \/ exists l' b, l = l' ++ [b] /\ 128 <= b) -> 0 < of_le_bytes l + 256 ^ zlen l * t.
Proof.
  intros Hl Ht Hm. destruct l as [|b0 l0] eqn:El.
  { change (0 < 0 + 1 * t). destruct Hm as [?|(l' & b & E & _)]; [lia|by destruct l']. }
  rewrite <-El in *. destruct (magnitude_lower l t Hl Ht Hm) as [H|[E _]]; [|by rewrite E in El].
  assert (0 < zlen l) by (rewrite El; unfold zlen; cbn; lia). pose proof (pow256 (zlen l - 1)). lia.
Qed.

Lemma pow256_mono a b : 0 <= a <= b -> 256 ^ a <= 256 ^ b.
Proof. intros. apply Z.pow_le_mono_r; lia. Qed.

Lemma number_length_eq l t l' t' : Forall is_byte l -> 0 <= t < 128 -> Forall is_byte l' -> 0 <= t' < 128 ->
  (t' <> 0 \/ exists m b, l' = m ++ [b] /\ 128 <= b) ->
  of_le_bytes l + 256 ^ zlen l * t = of_le_bytes l' + 256 ^ zlen l' * t' -> ~ zlen l < zlen l'.
Proof.
  intros Hl Ht Hl' Ht' Hm' E Hlt. pose proof (magnitude_upper l t Hl Ht).
  destruct (magnitude_lower l' t' Hl' Ht' Hm') as [H'|[-> _]]; [|pose proof (zlen_nonneg l); unfold zlen in *; cbn in *; lia].
  pose proof (pow256_mono (zlen l) (zlen l' - 1)). pose proof (zlen_nonneg l). lia.
Qed.

Lemma number_unique v w x : number v x -> number w x -> v = w.
Proof.
  intros Hv Hw. destruct Hv as [|l t s x Hl Ht Hm Ex]; inversion Hw as [|l' t' s' x' Hl' Ht' Hm' Ex']; subst; [done|..].
  - pose proof (number_nonzero l' t' s' Hl' Ht' Hm'). destruct s'; lia.
  - pose proof (number_nonzero l t s Hl Ht Hm). destruct s; lia.
  - pose proof (number_nonzero l t s Hl Ht Hm). pose proof (number_nonzero l' t' s' Hl' Ht' Hm').
    assert (s' = s) as -> by (destruct s, s'; (done || lia)).
    assert (of_le_bytes l + 256 ^ zlen l * t = of_le_bytes l' + 256 ^ zlen l' * t') as E by (destruct s; lia).
    assert (zlen l = zlen l') as EL.
    { pose proof (number_length_eq l t l' t' Hl Ht Hl' Ht' Hm' E). pose proof (number_length_eq l' t' l t Hl' Ht' Hl Ht Hm (eq_sym E)). lia. }
    rewrite <-EL in E. pose proof (of_le_bound l Hl). pose proof (of_le_bound l' Hl').
    assert (t = t' /\ of_le_bytes l = of_le_bytes l') as [<- E'].
    { unfold zlen in *. rewrite <-EL in *. assert (0 < 256 ^ Z.of_nat (length l)) by (apply pow256; lia).
      assert (t = t') as <- by nia. split; [done|lia]. }
    f_equal. rewrite <-(le_of_le (length l) l), <-(le_of_le (length l) l') by (done || unfold zlen in EL; lia). by rewrite E'.
Qed.

Lemma number_fun v x y : number v x -> number v y -> x = y.
Proof.
  intros Hx Hy. destruct Hx as [|l t s x Hl Ht _ Ex]; inversion Hy as [E0|l' t' s' y' Hl' Ht' _ Ey E0]; subst; [done|by destruct l'|by destruct l|].
  apply app_inj_2 in E0 as [-> [= E1]]; [|done]. assert (s' = s /\ t' = t) as [-> ->]; [|done].
  destruct s, s'; (split; (done || lia)).
Qed.

(** ** The encoder *)

Lemma land_255 p : Z.land p 255 = p mod 256.
Proof. change 255 with (Z.ones 8). by rewrite Z.land_ones. Qed.

Lemma land_127 p : Z.land p 127 = p mod 128.
Proof. change 127 with (Z.ones 7). by rewrite Z.land_ones. Qed.

Lemma byte_128 b : is_byte b -> (Z.land b 128 =? 0) = (b <? 128).
Proof.
  intros Hb. unfold is_byte in Hb. assert (Z.land b 128 = if b <? 128 then 0 else 128) as ->; [|by destruct (b <? 128)].
  assert (forallb (fun b => Z.land b 128 =? if b <? 128 then 0 else 128) (map Z.of_nat (seq 0 256)) = true) as H by (vm_compute; reflexivity).
  rewrite forallb_forall in H. apply Z.eqb_eq, H. apply in_map_iff. exists (Z.to_nat b). split; [lia|]. apply in_seq. lia.
Qed.

Lemma lor_128 t : 0 <= t < 128 -> Z.lor t 128 = t + 128.
Proof.
  intros Ht. assert (forallb (fun b => Z.lor b 128 =? b + 128) (map Z.of_nat (seq 0 128)) = true) as H by (vm_compute; reflexivity).
  rewrite forallb_forall in H. apply Z.eqb_eq, H. apply in_map_iff. exists (Z.to_nat t). split; [lia|]. apply in_seq. lia.
Qed.

Lemma number_bytes_zero n (sat : bool) : (1 <= n)%nat -> number_bytes n 0 sat = if sat then [0] else [].
Proof. intros Hn. destruct n as [|n]; [lia|]. cbn. destruct sat; [|done]. by destruct n. Qed.

Lemma number_bytes_step n p sat : 0 < p ->
  number_bytes (S n) p sat = p mod 256 :: number_bytes n (p / 256) (negb (p mod 256 <? 128)).
Proof.
  intros Hp. cbn [number_bytes]. destruct (Z.eqb_spec p 0); [lia|]. rewrite land_255, byte_128 by (apply Z.mod_pos_bound; lia).
  by rewrite Z.shiftr_div_pow2 by lia.
Qed.

Lemma number_bytes_ok n p sat : 0 < p < 256 ^ (Z.of_nat n - 1) ->
  exists l t, number_bytes n p sat = l ++ [t] /\ Forall is_byte l /\ 0 <= t < 128 /\
    (t <> 0 \/ exists l' b, l = l' ++ [b] /\ 128 <= b) /\ p = of_le_bytes l + 256 ^ zlen l * t.
Proof.
  revert p sat. induction n as [|n IH]; intros p sat Hp; [cbn in Hp; lia|].
  destruct (decide (n = 0%nat)) as [->|Hn]; [cbn in Hp; lia|]. rewrite number_bytes_step by lia.
  pose proof (Z.mod_pos_bound p 256 ltac:(lia)) as Hm. pose proof (Z.div_mod p 256 ltac:(lia)) as Hd.
  destruct (Z.eq_dec (p / 256) 0) as [Hq|Hq].
  - rewrite Hq, number_bytes_zero by lia. destruct (Z.ltb_spec (p mod 256) 128); cbn [negb].
    + exists [], (p mod 256). split_and!; [done|constructor|lia|lia|left; lia|]. change (p = 0 + 1 * (p mod 256)). lia.
    + exists [p mod 256], 0. split_and!; [done|constructor; [exact Hm|constructor]|lia|lia| |].
      * right. exists [], (p mod 256). split; [done|lia].
      * change (p = (p mod 256 + 256 * 0) + 256 ^ 1 * 0). lia.
  - destruct (IH (p / 256) (negb (p mod 256 <? 128))) as (l & t & -> & Hl & Ht & Hmin & E).
    { split; [pose proof (Z.div_pos p 256); lia|]. apply Z.div_lt_upper_bound; [lia|].
      rewrite <-Z.pow_succ_r by lia. replace (Z.succ (Z.of_nat n - 1)) with (Z.of_nat (S n) - 1) by lia. lia. }
    exists (p mod 256 :: l), t. split_and!; [done|by constructor|lia|lia| |].
    + destruct Hmin as [?|(l' & b & -> & ?)]; [by left|right]. by exists (p mod 256 :: l'), b.
    + unfold zlen in *. cbn [of_le_bytes length]. rewrite Nat2Z.inj_succ, Z.pow_succ_r by lia. lia.
Qed.

Lemma serialize_number x : - 2 ^ 63 <= x <= 2 ^ 63 -> exists v, serialize_i64 x = Ok v /\ number v x.
Proof.
  intros Hx. unfold serialize_i64. destruct (Z.eq_dec x 0) as [->|Hne]; [exists []; split; [done|constructor]|].
  destruct (number_bytes_ok 10 (Z.abs x) false) as (l & t & -> & Hl & Ht & Hmin & E).
  { split; [lia|]. change (256 ^ (Z.of_nat 10 - 1)) with (2 ^ 72). lia. }
  destruct (Z.eqb_spec (Z.sgn x) (-1)) as [Hs|Hs].
  - unfold set_last. rewrite last_snoc, removelast_last, lor_128 by done. run. eexists. split; [done|].
    apply (number_bytes_of l t true x); try done. lia.
  - eexists. split; [done|]. rewrite <-(Z.add_0_r t). apply (number_bytes_of l t false x); try done. rewrite Z.abs_eq in E by lia. lia.
Qed.

(** ** The decoder *)

Lemma wrap_id x : in_i 64 x -> wrap_i64 x = x.
Proof. unfold in_i, wrap_i64. cbn. intros ?. rewrite Z.mod_small; lia. Qed.

Lemma checked_i_ok {E} w x : in_i w x -> checked_i (E := E) w x = Ok x.
Proof. unfold in_i, checked_i, in_ib. intros [? ?]. destruct (Z.leb_spec (- 2 ^ (w - 1)) x), (Z.ltb_spec x (2 ^ (w - 1))); (done || lia). Qed.

Lemma fold_bytes_ok {E} l acc : Forall is_byte l -> 0 <= acc -> 256 ^ zlen l * (acc + 1) <= 2 ^ 63 ->
  foldM (E := E) (fun accum item => checked_i 64 (wrap_i64 (Z.shiftl accum 8) + item)) acc (rev l) =
    Ok (of_le_bytes l + 256 ^ zlen l * acc).
Proof.
  intros Hl Ha. induction Hl as [|b l Hb Hl IH]; intros Hbd; cbn [rev of_le_bytes]; [change (256 ^ zlen []) with 1; cbn; f_equal; lia|].
  assert (zlen (b :: l) = Z.succ (zlen l)) as El by (unfold zlen; cbn; lia). rewrite El, Z.pow_succ_r in * by apply zlen_nonneg.
  pose proof (pow256 (zlen l) (zlen_nonneg l)). pose proof (of_le_bound l Hl). fold (zlen l) in *. unfold is_byte in Hb.
  rewrite foldM_app, IH by nia. run. cbn [foldM]. rewrite Z.shiftl_mul_pow2 by lia.
  rewrite wrap_id, checked_i_ok by (unfold in_i; cbn -[Z.pow]; change (2 ^ (64 - 1)) with (2 ^ 63); nia). run. f_equal. nia.
Qed.

Lemma snoc_inv {A} (l : list A) x : last l = Some x -> l = removelast l ++ [x].
Proof.
  intros H. destruct (decide (l = [])) as [->|Hne]; [done|]. rewrite (app_removelast_last x Hne) at 1. f_equal. f_equal.
  rewrite (app_removelast_last x Hne), last_snoc in H. by injection H.
Qed.

Lemma byte_split m : is_byte m -> Z.shiftr m 7 = (if m <? 128 then 0 else 1) /\ Z.land m 127 = (if m <? 128 then m else m - 128).
Proof.
  intros Hm. unfold is_byte in Hm. rewrite land_127, Z.shiftr_div_pow2 by lia. change (2 ^ 7) with 128.
  destruct (Z.ltb_spec m 128).
  - split; [apply Z.div_small|apply Z.mod_small]; lia.
  - split; [symmetry; apply (Z.div_unique m 128 1 (m - 128))|symmetry; apply (Z.mod_unique m 128 1)]; lia.
Qed.

Lemma snoc_cases {A} (l : list A) : l = [] \/ exists l' x, l = l' ++ [x].
Proof. destruct l as [|x l] using rev_ind; [by left|right; eauto]. Qed.

Lemma check_minimal_ok l t (s : bool) : Forall is_byte l -> 0 <= t < 128 ->
  (check_minimal_data_encoding (l ++ [t + (if s then 128 else 0)]) = Ok () /\
    (t <> 0 \/ exists l' b, l = l' ++ [b] /\ 128 <= b)) \/
  (check_minimal_data_encoding (l ++ [t + (if s then 128 else 0)]) = Err NotMinimalData) /\
    ~ (t <> 0 \/ exists l' b, l = l' ++ [b] /\ 128 <= b).
Proof.
  intros Hl Ht. unfold check_minimal_data_encoding. rewrite last_snoc.
  destruct (byte_split (t + (if s then 128 else 0))) as [_ ->]; [unfold is_byte; destruct s; lia|].
  replace (if t + (if s then 128 else 0) <? 128 then t + (if s then 128 else 0) else t + (if s then 128 else 0) - 128) with t
    by (destruct s; destruct (Z.ltb_spec (t + 128) 128), (Z.ltb_spec (t + 0) 128); lia).
  destruct (Z.eqb_spec t 0) as [->|]; [|left; split; [done|by left]]. destruct (snoc_cases l) as [->|(l' & b & ->)].
  - right. split; [done|]. intros [?|(l' & b & E & _)]; [done|by destruct l'].
  - rewrite zlen_app, zlen_app. pose proof (zlen_nonneg l'). change (zlen [_]) with 1.
    destruct (Z.eqb_spec (zlen l' + 1 + 1) 1); [lia|]. cbn [orb].
    replace (nth (length ((l' ++ [b]) ++ [0 + (if s then 128 else 0)]) - 2) ((l' ++ [b]) ++ [0 + (if s then 128 else 0)]) 0) with b.
    2:{ rewrite !length_app. cbn [length]. replace (length l' + 1 + 1 - 2)%nat with (length l') by lia.
        rewrite <-app_assoc, app_nth2, Nat.sub_diag by lia. done. }
    apply Forall_app in Hl as [_ [Hb _]%Forall_cons]. rewrite byte_128 by done. destruct (Z.ltb_spec b 128); [|left; split; [done|right; eauto]].
    right. split; [done|]. intros [?|(m & c & [_ [= ->]]%app_inj_2 & ?)]; [done|lia|done].
Qed.

Lemma number_decode l t (s : bool) : Forall is_byte l -> 0 <= t < 128 -> zlen l <= 7 ->
  deserialize_i64 (l ++ [t + (if s then 128 else 0)]) =
    (_ ← check_minimal_data_encoding (l ++ [t + (if s then 128 else 0)]);
     Ok ((if s then -1 else 1) * (of_le_bytes l + 256 ^ zlen l * t))).
Proof.
  intros Hl Ht Hlen. unfold deserialize_i64. rewrite last_snoc, removelast_last, zlen_app. change (zlen [_]) with 1.
  destruct (Z.ltb_spec 8 (zlen l + 1)); [lia|]. destruct (check_minimal_data_encoding _); try done. run.
  destruct (byte_split (t + (if s then 128 else 0))) as [-> ->]; [unfold is_byte; destruct s; lia|].
  assert (256 ^ zlen l <= 256 ^ 7) as Hp by (apply pow256_mono; pose proof (zlen_nonneg l); lia). change (256 ^ 7) with (2 ^ 56) in Hp.
  pose proof (pow256 (zlen l) (zlen_nonneg l)). pose proof (of_le_bound l Hl) as Hb. fold (zlen l) in Hb.
  pose proof (magnitude_upper l t Hl Ht). assert (0 <= of_le_bytes l + 256 ^ zlen l * t) by nia.
  destruct s.
  - destruct (Z.ltb_spec (t + 128) 128); [lia|]. rewrite Z.add_simpl_r, fold_bytes_ok by (done || lia || nia). run.
    rewrite checked_i_ok by (unfold in_i; change (2 ^ (64 - 1)) with (2 ^ 63); nia). f_equal. lia.
  - rewrite Z.add_0_r. destruct (Z.ltb_spec t 128); [|lia]. rewrite fold_bytes_ok by (done || lia || nia). run.
    rewrite checked_i_ok by (unfold in_i; change (2 ^ (64 - 1)) with (2 ^ 63); nia). f_equal. lia.
Qed.

(** The last byte as the magnitude bits and the sign. *)
Lemma split_sign v : Forall is_byte v -> v = [] \/ exists l t (s : bool), v = l ++ [t + (if s then 128 else 0)] /\ Forall is_byte l /\ 0 <= t < 128.
Proof.
  intros Hv. destruct (snoc_cases v) as [->|(l & m & ->)]; [by left|right].
  apply Forall_app in Hv as [Hl [Hm _]%Forall_cons]. unfold is_byte in Hm. exists l, (m mod 128), (128 <=? m).
  split; [|split; [done|apply Z.mod_pos_bound; lia]]. f_equal. f_equal. destruct (Z.leb_spec 128 m).
  - pose proof (Z.mod_unique m 128 1 (m - 128)). lia.
  - rewrite Z.mod_small; lia.
Qed.

Lemma deserialize_number v : Forall is_byte v ->
  (exists x, number v x /\ zlen v <= 8 /\ deserialize_i64 v = Ok x /\ - 2 ^ 63 < x /\ x < 2 ^ 63) \/
  (deserialize_i64 v = Err NotMinimalData /\ forall x, number v x -> 8 < zlen v).
Proof.
  intros Hv. destruct (split_sign v Hv) as [->|(l & t & s & -> & Hl & Ht)]; [left; exists 0; split_and!; [constructor|done..]|].
  pose proof (zlen_nonneg l). destruct (Z.le_gt_cases (zlen l) 7) as [Hlen|Hlen].
  - rewrite number_decode by done. destruct (check_minimal_ok l t s Hl Ht) as [[E Hmin]|[E Hmin]]; rewrite E; run.
    + left. eexists. split_and!; [by apply (number_bytes_of l t s)|rewrite zlen_app; change (zlen [_]) with 1; lia|done|..].
      all: pose proof (magnitude_upper l t Hl Ht); pose proof (of_le_bound l Hl) as Hb; fold (zlen l) in Hb.
      all: assert (256 ^ zlen l <= 256 ^ 7) as Hp by (apply pow256_mono; lia); change (256 ^ 7) with (2 ^ 56) in Hp.
      all: assert (0 <= of_le_bytes l + 256 ^ zlen l * t) by nia; destruct s; lia.
    + right. split; [done|]. intros x Hx. inversion Hx as [E0|l' t' s' x' Hl' Ht' Hm' Ex' E0]; [by destruct l|].
      apply app_inj_2 in E0 as [<- [= E1]]; [|done]. destruct Hmin. replace t with t'; [done|]. destruct s, s'; lia.
  - right. rewrite zlen_app. change (zlen [_]) with 1. split; [|lia]. unfold deserialize_i64. rewrite zlen_app. change (zlen [_]) with 1.
    destruct (Z.ltb_spec 8 (zlen l + 1)); [done|lia].
Qed.

(** ** Lengths *)

Lemma number_length v x n : number v x -> 1 <= n -> zlen v <= n <-> Z.abs x < 128 * 256 ^ (n - 1).
Proof.
  intros Hv Hn. destruct Hv as [|l t s x Hl Ht Hm ->].
  - change (zlen []) with 0. pose proof (pow256 (n - 1)). lia.
  - pose proof (number_nonzero l t s Hl Ht Hm). rewrite zlen_app. change (zlen [_]) with 1. pose proof (zlen_nonneg l).
    assert (Z.abs ((if s then -1 else 1) * (of_le_bytes l + 256 ^ zlen l * t)) = of_le_bytes l + 256 ^ zlen l * t) as -> by (destruct s; lia).
    pose proof (magnitude_upper l t Hl Ht). split; intros Hle.
    + pose proof (pow256_mono (zlen l) (n - 1)). lia.
    + destruct (magnitude_lower l t Hl Ht Hm) as [Hlow|[-> _]]; [|change (zlen []) with 0; lia].
      destruct (Z.le_gt_cases (zlen l + 1) n); [done|]. pose proof (pow256_mono (n - 1) (zlen l - 1)). lia.
Qed.

Lemma number_bytes_all v x : number v x -> Forall is_byte v.
Proof.
  intros [|l t s y Hl Ht _ _]; [constructor|]. apply Forall_app. split; [done|]. constructor; [|constructor]. unfold is_byte. destruct s; lia.
Qed.

Lemma serialize_num64_ok x : - 2 ^ 63 < x < 2 ^ 63 -> exists v, serialize_num64 x = Ok v /\ number v x /\ zlen v <= 8.
Proof.
  intros Hx. destruct (serialize_number x) as (v & E & Hv); [lia|].
  assert (zlen v <= 8) as Hl by (apply (number_length v x 8 Hv); [lia|]; change (128 * 256 ^ (8 - 1)) with (2 ^ 63); lia).
  exists v. unfold serialize_num64, serialize_sized. rewrite E. run. destruct (Z.ltb_spec 8 (zlen v)); [lia|]. done.
Qed.

Lemma serialize_num64_min : serialize_num64 (- 2 ^ 63) = Err (NumberTooLong (- 2 ^ 63)).
Proof. vm_compute. reflexivity. Qed.

(** The decoders of the engine, on every byte string. *)
Lemma deserialize_sized_ok LEN v : 1 <= LEN <= 8 -> Forall is_byte v ->
  (exists x, deserialize_sized LEN v = Ok x /\ number v x /\ Z.abs x < 128 * 256 ^ (LEN - 1)) \/
  (exists e, deserialize_sized LEN v = Err e /\ forall x, number v x -> 128 * 256 ^ (LEN - 1) <= Z.abs x).
Proof.
  intros HL Hv. unfold deserialize_sized. destruct (Z.ltb_spec LEN (zlen v)) as [Hlt|Hle].
  - right. exists NumberTooBig. split; [done|]. intros x Hx. destruct (Z.le_gt_cases (128 * 256 ^ (LEN - 1)) (Z.abs x)) as [|Ha]; [done|].
    apply (number_length v x LEN Hx) in Ha; lia.
  - destruct (deserialize_number v Hv) as [(x & Hx & H8 & E & _)|[E Hno]].
    + left. exists x. split; [done|]. split; [done|]. by apply (number_length v x LEN Hx); [lia|].
    + right. exists NotMinimalData. split; [done|]. intros x Hx. apply Hno in Hx. lia.
Qed.

Lemma deserialize_num32_ok v : Forall is_byte v ->
  (exists x, deserialize_num32 v = Ok x /\ number v x /\ - 2 ^ 31 < x < 2 ^ 31) \/ exists e, deserialize_num32 v = Err e.
Proof.
  intros Hv. unfold deserialize_num32. destruct (deserialize_sized_ok 4 v) as [(x & -> & Hx & Ha)|(e & -> & _)]; [lia|done|left|right; by exists e].
  change (128 * 256 ^ (4 - 1)) with (2 ^ 31) in Ha. exists x. run. rewrite checked_i_ok; [split; [done|]; split; [done|lia]|].
  unfold in_i. change (2 ^ (32 - 1)) with (2 ^ 31). lia.
Qed.

(** Script numbers.  Every number between [-2^63 + 1] and [2^63 - 1] has an
    encoding that decodes to it; a byte string that decodes is the encoding of
    its number, so that no number has two accepted encodings; the least 64-bit
    number has none; and the 32-bit decoder rejects or returns a number in its
    range, but never panics. *)
Theorem script_numbers_canonical :
  (forall x, - 2 ^ 63 < x < 2 ^ 63 -> exists v, serialize_num64 x = Ok v /\ deserialize_num64 v = Ok x) /\
  (forall v x, Forall is_byte v -> deserialize_num64 v = Ok x -> serialize_num64 x = Ok v) /\
  (forall v, Forall is_byte v -> (exists x, deserialize_num64 v = Ok x) \/ exists e, deserialize_num64 v = Err e) /\
  serialize_num64 (- 2 ^ 63) = Err (NumberTooLong (- 2 ^ 63)) /\
  (forall v, Forall is_byte v ->
     (exists x, deserialize_num32 v = Ok x /\ serialize_num64 x = Ok v /\ - 2 ^ 31 < x < 2 ^ 31) \/ exists e, deserialize_num32 v = Err e).
Proof.
  assert (forall v x, Forall is_byte v -> number v x -> - 2 ^ 63 < x < 2 ^ 63 -> serialize_num64 x = Ok v) as Hser.
  { intros v x Hv Hx Hr. destruct (serialize_num64_ok x Hr) as (w & -> & Hw & _). f_equal. by eapply number_unique. }
  assert (forall v x, Forall is_byte v -> deserialize_num64 v = Ok x -> number v x /\ - 2 ^ 63 < x < 2 ^ 63) as Hdes.
  { intros v x Hv E. destruct (deserialize_sized_ok 8 v) as [(y & E' & Hy & Ha)|(e & E' & _)]; [lia|done|..].
    - unfold deserialize_num64 in E. rewrite E' in E. injection E as ->. change (128 * 256 ^ (8 - 1)) with (2 ^ 63) in Ha. split; [done|lia].
    - unfold deserialize_num64 in E. congruence. }
  split_and!; [| | |apply serialize_num64_min|].
  - intros x Hx. destruct (serialize_num64_ok x Hx) as (v & E & Hv & Hl). exists v. split; [done|].
    destruct (deserialize_sized_ok 8 v) as [(y & E' & Hy & _)|(e & _ & Hno)]; [lia|by eapply number_bytes_all|..].
    + unfold deserialize_num64. rewrite E'. f_equal. by eapply number_fun.
    + apply Hno in Hv. change (128 * 256 ^ (8 - 1)) with (2 ^ 63) in Hv. lia.
  - intros v x Hv [Hx Hr]%Hdes; [|done]. by apply Hser.
  - intros v Hv. destruct (deserialize_sized_ok 8 v) as [(y & E' & _)|(e & E' & _)]; [lia|done|left|right]; eauto.
  - intros v Hv. destruct (deserialize_num32_ok v Hv) as [(x & E & Hx & Hr)|?]; [left|by right]. exists x. split; [done|].
    split; [|done]. apply Hser; [done..|lia].
Qed.
