(* ===== verification/Hashing.v ===== *)
(** * Hashing of transactions

    [consensus/core/src/hashing]: what is written into the hashers for
    transaction ids and hashes and for signature hashes.  A hasher is its domain
    and the bytes written so far; the hash functions themselves (blake2b and
    sha256) are the operations of the class [Hashers].

    The byte strings that are hashed determine the fields that were written:
    equal hashes of different fields are a collision of the hash function. *)
From S2P Require Import Prelude Bytes Tx ScriptNum.
#[local] Open Scope Z_scope.

(** The hashers of [crypto/hashes], and the two personalized states of
    [consensus/core/src/collateral.rs]. *)
Inductive hasher :=
  | TransactionHash | TransactionID | TransactionSigningHash | TransactionSigningHashECDSA
  | MerkleBranchHash | BlockHash | MuHashElementHash | MuHashFinalizeHash
  | KeryxLedgerSnap | KeryxSvcCommit.

Class Hashers := {
  finalize : hasher -> list Z -> Hash;
  (** A hash has 32 bytes. *)
  finalize_range : forall d bs, 0 <= finalize d bs < 2 ^ 256
}.

Definition ZERO_HASH : Hash := 0.

(** ** [HasherExtensions] *)

Definition write_len (len : Z) : list Z := le_bytes 8 len.
Definition write_u8 (x : Z) : list Z := le_bytes 1 x.
Definition write_u16 (x : Z) : list Z := le_bytes 2 x.
Definition write_u32 (x : Z) : list Z := le_bytes 4 x.
Definition write_u64 (x : Z) : list Z := le_bytes 8 x.
Definition write_var_bytes (bytes : list Z) : list Z := write_len (zlen bytes) ++ bytes.

(** ** Transaction ids and hashes ([hashing/tx.rs]) *)

(** [TxEncodingFlags]. *)
Record TxEncodingFlags := mkFlags { EXCLUDE_SIGNATURE_SCRIPT : bool; EXCLUDE_MASS_COMMIT : bool }.
Definition FULL : TxEncodingFlags := mkFlags false false.

Definition write_outpoint (o : TransactionOutpoint) : list Z := hash_bytes (transaction_id o) ++ write_u32 (op_index o).

Definition write_input (f : TxEncodingFlags) (i : TransactionInput) : list Z :=
  write_outpoint (previous_outpoint i) ++
  (if EXCLUDE_SIGNATURE_SCRIPT f then write_var_bytes []
   else write_var_bytes (signature_script i) ++ [sig_op_count i]) ++
  write_u64 (sequence i).

Definition write_output (o : TransactionOutput) : list Z :=
  write_u64 (out_value o) ++ write_u16 (spk_version (out_spk o)) ++ write_var_bytes (spk_script (out_spk o)).

Definition write_transaction (tx : Transaction) (f : TxEncodingFlags) : list Z :=
  write_u16 (tx_version tx) ++ write_len (zlen (tx_inputs tx)) ++ (tx_inputs tx ≫= write_input f) ++
  write_len (zlen (tx_outputs tx)) ++ (tx_outputs tx ≫= write_output) ++
  write_u64 (lock_time tx) ++ subnetwork_id tx ++ write_u64 (gas tx) ++ write_var_bytes (payload tx) ++
  (if EXCLUDE_MASS_COMMIT f then [] else if 0 <? tx_mass tx then write_u64 (tx_mass tx) else []).

Section tx_hash.
Context `{Hashers}.

Definition tx_hash (tx : Transaction) : Hash := finalize TransactionHash (write_transaction tx FULL).
Definition hash_pre_crescendo (tx : Transaction) : Hash := finalize TransactionHash (write_transaction tx (mkFlags false true)).
Definition calc_id (tx : Transaction) : TransactionId :=
  finalize TransactionID (write_transaction tx (if is_coinbase tx then FULL else mkFlags true true)).
End tx_hash.

(** ** Signature hash types ([hashing/sighash_type.rs]) *)

Definition SIG_HASH_ALL : Z := 1.
Definition SIG_HASH_NONE : Z := 2.
Definition SIG_HASH_SINGLE : Z := 4.
Definition SIG_HASH_ANY_ONE_CAN_PAY : Z := 128.
Definition SIG_HASH_MASK : Z := 7.
Definition ALLOWED_SIG_HASH_TYPES_VALUES : list Z :=
  [SIG_HASH_ALL; SIG_HASH_NONE; SIG_HASH_SINGLE; Z.lor SIG_HASH_ALL SIG_HASH_ANY_ONE_CAN_PAY;
   Z.lor SIG_HASH_NONE SIG_HASH_ANY_ONE_CAN_PAY; Z.lor SIG_HASH_SINGLE SIG_HASH_ANY_ONE_CAN_PAY].

Definition is_sighash_all (t : Z) : bool := Z.land t SIG_HASH_MASK =? SIG_HASH_ALL.
Definition is_sighash_none (t : Z) : bool := Z.land t SIG_HASH_MASK =? SIG_HASH_NONE.
Definition is_sighash_single (t : Z) : bool := Z.land t SIG_HASH_MASK =? SIG_HASH_SINGLE.
Definition is_sighash_anyone_can_pay (t : Z) : bool := Z.land t SIG_HASH_ANY_ONE_CAN_PAY =? SIG_HASH_ANY_ONE_CAN_PAY.
Definition SigHashType_from_u8 (val : Z) : option Z :=
  if bool_decide (val ∈ ALLOWED_SIG_HASH_TYPES_VALUES) then Some val else None.

(** ** Signature hashes ([hashing/sighash.rs]) *)

(** [SigHashReusedValues]: the hashes that all inputs of a transaction share,
    once they were computed. *)
Record SigHashReusedValues := mkReused {
  r_previous_outputs : option Hash;
  r_sequences : option Hash;
  r_sig_op_counts : option Hash;
  r_outputs : option Hash;
  r_payload : option Hash
}.
Definition SigHashReusedValues_new : SigHashReusedValues := mkReused None None None None None.

(** A computation that may read and fill the reused values. *)
Notation reusing A := (SigHashReusedValues -> A * SigHashReusedValues).

Section sighash.
Context `{Hashers}.

Definition previous_outputs_hash (tx : Transaction) (hash_type : Z) : reusing Hash := fun r =>
  if is_sighash_anyone_can_pay hash_type then (ZERO_HASH, r)
  else
    match r_previous_outputs r with
    | Some h => (h, r)
    | None =>
        let h := finalize TransactionSigningHash
          (tx_inputs tx ≫= (fun i => hash_bytes (transaction_id (previous_outpoint i)) ++ write_u32 (op_index (previous_outpoint i)))) in
        (h, mkReused (Some h) (r_sequences r) (r_sig_op_counts r) (r_outputs r) (r_payload r))
    end.

Definition sequences_hash (tx : Transaction) (hash_type : Z) : reusing Hash := fun r =>
  if is_sighash_single hash_type || is_sighash_anyone_can_pay hash_type || is_sighash_none hash_type then (ZERO_HASH, r)
  else
    match r_sequences r with
    | Some h => (h, r)
    | None =>
        let h := finalize TransactionSigningHash (tx_inputs tx ≫= (fun i => write_u64 (sequence i))) in
        (h, mkReused (r_previous_outputs r) (Some h) (r_sig_op_counts r) (r_outputs r) (r_payload r))
    end.

Definition sig_op_counts_hash (tx : Transaction) (hash_type : Z) : reusing Hash := fun r =>
  if is_sighash_anyone_can_pay hash_type then (ZERO_HASH, r)
  else
    match r_sig_op_counts r with
    | Some h => (h, r)
    | None =>
        let h := finalize TransactionSigningHash (tx_inputs tx ≫= (fun i => write_u8 (sig_op_count i))) in
        (h, mkReused (r_previous_outputs r) (r_sequences r) (Some h) (r_outputs r) (r_payload r))
    end.

Definition payload_hash (tx : Transaction) : reusing Hash := fun r =>
  if is_native (subnetwork_id tx) && bool_decide (payload tx = []) then (ZERO_HASH, r)
  else
    match r_payload r with
    | Some h => (h, r)
    | None =>
        let h := finalize TransactionSigningHash (write_var_bytes (payload tx)) in
        (h, mkReused (r_previous_outputs r) (r_sequences r) (r_sig_op_counts r) (r_outputs r) (Some h))
    end.

Definition hash_script_public_key (spk : ScriptPublicKey) : list Z := write_u16 (spk_version spk) ++ write_var_bytes (spk_script spk).
Definition hash_output (o : TransactionOutput) : list Z := write_u64 (out_value o) ++ hash_script_public_key (out_spk o).
Definition hash_outpoint (o : TransactionOutpoint) : list Z := hash_bytes (transaction_id o) ++ write_u32 (op_index o).

Definition outputs_hash (tx : Transaction) (hash_type : Z) (input_index : nat) : reusing Hash := fun r =>
  if is_sighash_none hash_type then (ZERO_HASH, r)
  else if is_sighash_single hash_type then
    match tx_outputs tx !! input_index with
    | None => (ZERO_HASH, r)
    | Some o => (finalize TransactionSigningHash (hash_output o), r)
    end
  else
    match r_outputs r with
    | Some h => (h, r)
    | None =>
        let h := finalize TransactionSigningHash (tx_outputs tx ≫= hash_output) in
        (h, mkReused (r_previous_outputs r) (r_sequences r) (r_sig_op_counts r) (Some h) (r_payload r))
    end.

(** The bytes that are signed, given the shared hashes. *)
Definition sighash_preimage (tx : Transaction) (i : TransactionInput) (e : UtxoEntry) (hash_type : Z)
    (previous_outputs sequences sig_op_counts outputs payload : Hash) : list Z :=
  write_u16 (tx_version tx) ++ hash_bytes previous_outputs ++ hash_bytes sequences ++ hash_bytes sig_op_counts ++
  hash_outpoint (previous_outpoint i) ++ hash_script_public_key (ue_spk e) ++
  write_u64 (amount e) ++ write_u64 (sequence i) ++ write_u8 (sig_op_count i) ++ hash_bytes outputs ++
  write_u64 (lock_time tx) ++ subnetwork_id tx ++ write_u64 (gas tx) ++ hash_bytes payload ++ write_u8 hash_type.

Definition calc_schnorr_signature_hash {E} (ptx : PopulatedTransaction) (input_index : nat) (hash_type : Z)
    (r : SigHashReusedValues) : outcome E (Hash * SigHashReusedValues) :=
  '(i, e) ← populated_input ptx input_index;
  let tx := ptx_tx ptx in
  let '(prev, r) := previous_outputs_hash tx hash_type r in
  let '(seqs, r) := sequences_hash tx hash_type r in
  let '(sigops, r) := sig_op_counts_hash tx hash_type r in
  let '(outs, r) := outputs_hash tx hash_type input_index r in
  let '(pay, r) := payload_hash tx r in
  Ok (finalize TransactionSigningHash (sighash_preimage tx i e hash_type prev seqs sigops outs pay), r).

Definition calc_ecdsa_signature_hash {E} (ptx : PopulatedTransaction) (input_index : nat) (hash_type : Z)
    (r : SigHashReusedValues) : outcome E (Hash * SigHashReusedValues) :=
  '(h, r) ← calc_schnorr_signature_hash ptx input_index hash_type r;
  Ok (finalize TransactionSigningHashECDSA (hash_bytes h), r).
End sighash.

(** ** Prefix codes *)

(** [enc] can be decoded from the front, for the values that satisfy [P]. *)
Definition prefix_code {A} (P : A -> Prop) (enc : A -> list Z) : Prop :=
  forall x y r r', P x -> P y -> enc x ++ r = enc y ++ r' -> x = y /\ r = r'.

Lemma fixed_prefix {A} (P : A -> Prop) (enc : A -> list Z) n :
  (forall x, P x -> length (enc x) = n) -> (forall x y, P x -> P y -> enc x = enc y -> x = y) -> prefix_code P enc.
Proof.
  intros Hlen Hinj x y r r' Hx Hy E. apply app_inj_1 in E as [E ->]; [|by rewrite !Hlen]. split; [by apply Hinj|done].
Qed.

Lemma le_prefix n : prefix_code (fun x => 0 <= x < 256 ^ Z.of_nat n) (le_bytes n).
Proof. apply (fixed_prefix _ _ n); [intros; apply length_le_bytes|intros x y; apply le_bytes_inj]. Qed.

Lemma hash_prefix : prefix_code (in_u 256) hash_bytes.
Proof. apply (fixed_prefix _ _ 32); [intros; apply length_hash_bytes|apply hash_bytes_inj]. Qed.

Definition short {A} (l : list A) : Prop := zlen l < 2 ^ 64.

Lemma var_bytes_prefix : prefix_code short write_var_bytes.
Proof.
  intros x y r r' Hx Hy E. unfold write_var_bytes, write_len in E. rewrite <-!app_assoc in E.
  apply (le_prefix 8) in E as [El E]; [|split; [apply zlen_nonneg|exact Hx]|split; [apply zlen_nonneg|exact Hy]].
  by apply app_inj_1 in E; [|unfold zlen in El; lia].
Qed.

Lemma bytes_prefix n : prefix_code (fun l : list Z => length l = n) id.
Proof. apply (fixed_prefix _ _ n); [done|]. by intros x y _ _. Qed.

(** Two codes in sequence, as the code of a record through its projections. *)
Lemma pair_prefix {A B C} (P : A -> Prop) (Q : B -> Prop) (f : A -> list Z) (g : B -> list Z) (pa : C -> A) (pb : C -> B) :
  prefix_code P f -> prefix_code Q g -> (forall x y, pa x = pa y -> pb x = pb y -> x = y) ->
  prefix_code (fun c => P (pa c) /\ Q (pb c)) (fun c => f (pa c) ++ g (pb c)).
Proof.
  intros Hf Hg Hpair x y r r' [Hx1 Hx2] [Hy1 Hy2] E. rewrite <-!app_assoc in E.
  apply Hf in E as [E1 E]; [|done..]. apply Hg in E as [E2 ->]; [|done..]. split; [by apply Hpair|done].
Qed.

(** A list whose length is known, and a list that is followed by nothing. *)
Lemma list_prefix {A} (P : A -> Prop) (enc : A -> list Z) l l' r r' : prefix_code P enc -> Forall P l -> Forall P l' ->
  length l = length l' -> (l ≫= enc) ++ r = (l' ≫= enc) ++ r' -> l = l' /\ r = r'.
Proof.
  intros Henc Hl. revert l'. induction Hl as [|x l Hx Hl IH]; intros l' Hl' Hlen E; (destruct Hl' as [|y l' Hy Hl']; [|]; try done).
  cbn in E. rewrite <-!app_assoc in E. apply Henc in E as [-> E]; [|done..]. apply IH in E as [-> ->]; [done|done|].
  cbn in Hlen. lia.
Qed.

Lemma concat_inj {A} (P : A -> Prop) (enc : A -> list Z) l l' : prefix_code P enc -> (forall x, enc x <> []) ->
  Forall P l -> Forall P l' -> l ≫= enc = l' ≫= enc -> l = l'.
Proof.
  intros Henc Hne Hl. revert l'. induction Hl as [|x l Hx Hl IH]; intros l' Hl' E.
  - destruct Hl' as [|y l' Hy Hl']; [done|]. cbn in E. symmetry in E. apply app_eq_nil in E as [E _]. by apply Hne in E.
  - destruct Hl' as [|y l' Hy Hl']; cbn in E; [apply app_eq_nil in E as [E _]; by apply Hne in E|].
    apply Henc in E as [-> E]; [|done..]. by apply IH in E as ->.
Qed.

(** ** The fields *)

Definition outpoint_wf (o : TransactionOutpoint) : Prop := in_u 256 (transaction_id o) /\ in_u 32 (op_index o).
Definition input_wf (i : TransactionInput) : Prop :=
  outpoint_wf (previous_outpoint i) /\ short (signature_script i) /\ in_u 64 (sequence i) /\ in_u 8 (sig_op_count i).
Definition spk_wf (s : ScriptPublicKey) : Prop := in_u 16 (spk_version s) /\ short (spk_script s).
Definition output_wf (o : TransactionOutput) : Prop := in_u 64 (out_value o) /\ spk_wf (out_spk o).
Record tx_wf (tx : Transaction) : Prop := {
  tw_version : in_u 16 (tx_version tx);
  tw_inputs : Forall input_wf (tx_inputs tx) /\ short (tx_inputs tx);
  tw_outputs : Forall output_wf (tx_outputs tx) /\ short (tx_outputs tx);
  tw_lock_time : in_u 64 (lock_time tx);
  tw_subnetwork : length (subnetwork_id tx) = 20%nat;
  tw_gas : in_u 64 (gas tx);
  tw_payload : short (payload tx);
  tw_mass : in_u 64 (tx_mass tx)
}.

Lemma outpoint_prefix : prefix_code outpoint_wf write_outpoint.
Proof.
  apply (pair_prefix _ _ _ _ transaction_id op_index hash_prefix (le_prefix 4)). intros [] []; cbn; congruence.
Qed.

Lemma spk_prefix : prefix_code spk_wf hash_script_public_key.
Proof.
  apply (pair_prefix _ _ _ _ spk_version spk_script (le_prefix 2) var_bytes_prefix). intros [] []; cbn; congruence.
Qed.

Lemma output_prefix : prefix_code output_wf hash_output.
Proof. apply (pair_prefix _ _ _ _ out_value out_spk (le_prefix 8) spk_prefix). intros [] []; cbn; congruence. Qed.

(** ** Transaction ids *)

(** What is left of a transaction under the encoding flags: the fields that are
    not written are reset. *)
Definition erase_input (f : TxEncodingFlags) (i : TransactionInput) : TransactionInput :=
  if EXCLUDE_SIGNATURE_SCRIPT f then mkInput (previous_outpoint i) [] (sequence i) 0 else i.
Definition erase (f : TxEncodingFlags) (tx : Transaction) : Transaction :=
  mkTransaction (tx_version tx) (erase_input f <$> tx_inputs tx) (tx_outputs tx) (lock_time tx) (subnetwork_id tx) (gas tx)
    (payload tx) (if EXCLUDE_MASS_COMMIT f then 0 else tx_mass tx) 0.

Lemma write_erase_input f i : write_input f (erase_input f i) = write_input f i.
Proof. unfold write_input, erase_input. by destruct (EXCLUDE_SIGNATURE_SCRIPT f). Qed.

Lemma write_erase f tx : write_transaction (erase f tx) f = write_transaction tx f.
Proof.
  unfold write_transaction, erase. cbn. unfold zlen. rewrite length_fmap.
  assert (forall l, (erase_input f <$> l) ≫= write_input f = l ≫= write_input f) as ->.
  { induction l as [|i l IH]; [done|]. by rewrite fmap_cons, !bind_cons, write_erase_input, IH. }
  by destruct (EXCLUDE_MASS_COMMIT f).
Qed.

Lemma erase_input_wf f i : input_wf i -> input_wf (erase_input f i).
Proof.
  unfold erase_input, input_wf. destruct (EXCLUDE_SIGNATURE_SCRIPT f); [|done]. cbn [previous_outpoint signature_script sequence sig_op_count].
  intros (Ho & _ & Hs & _). split_and!; try done.
Qed.

Lemma input_prefix f : prefix_code (fun i => input_wf i /\ erase_input f i = i) (write_input f).
Proof.
  intros x y r r' [(Hx1 & Hx2 & Hx3 & Hx4) Ex] [(Hy1 & Hy2 & Hy3 & Hy4) Ey] E. unfold write_input, erase_input in *.
  rewrite <-!app_assoc in E. apply outpoint_prefix in E as [E1 E]; [|done..]. destruct (EXCLUDE_SIGNATURE_SCRIPT f).
  - apply app_inv_head in E. apply (le_prefix 8) in E as [E2 ->]; [|done..]. split; [|done]. rewrite <-Ex, <-Ey. by rewrite E1, E2.
  - rewrite <-!app_assoc in E. apply var_bytes_prefix in E as [E2 E]; [|done..]. apply app_inj_1 in E as [[= E3] E]; [|done].
    apply (le_prefix 8) in E as [E4 ->]; [|done..]. split; [|done]. destruct x, y; cbn in *; congruence.
Qed.

Lemma list_code_prefix {A} (P : A -> Prop) (enc : A -> list Z) l l' r r' : prefix_code P enc -> Forall P l -> Forall P l' ->
  short l -> short l' -> write_len (zlen l) ++ (l ≫= enc) ++ r = write_len (zlen l') ++ (l' ≫= enc) ++ r' -> l = l' /\ r = r'.
Proof.
  intros Henc Hl Hl' Hs Hs' E. apply (le_prefix 8) in E as [E1 E]; [|split; [apply zlen_nonneg|exact Hs]|split; [apply zlen_nonneg|exact Hs']].
  eapply list_prefix; try done. unfold zlen in E1. lia.
Qed.

(** The encoding of an erased transaction determines it; [r] and [r'] are the
    mass commitments. *)
Lemma write_erased_inj f x y : tx_wf x -> tx_wf y -> write_transaction x f = write_transaction y f -> erase f x = erase f y.
Proof.
  intros Hx Hy E. rewrite <-(write_erase f x), <-(write_erase f y) in E.
  destruct Hx as [Hxv [Hxi Hxil] [Hxo Hxol] Hxl Hxs Hxg Hxp Hxm], Hy as [Hyv [Hyi Hyil] [Hyo Hyol] Hyl Hys Hyg Hyp Hym].
  unfold write_transaction in E. cbn [erase tx_version tx_inputs tx_outputs lock_time subnetwork_id gas payload tx_mass] in E.
  assert (forall l, Forall input_wf l -> Forall (fun i => input_wf i /\ erase_input f i = i) (erase_input f <$> l)) as Hin.
  { intros l Hl. apply Forall_fmap. eapply Forall_impl; [exact Hl|]. intros i Hi. cbn. split; [by apply erase_input_wf|].
    unfold erase_input. by destruct (EXCLUDE_SIGNATURE_SCRIPT f). }
  apply (le_prefix 2) in E as [Ev E]; [|done..].
  apply (list_code_prefix _ _ _ _ _ _ (input_prefix f)) in E as [Ei E];
    [|by apply Hin|by apply Hin|by unfold short, zlen in *; rewrite length_fmap|by unfold short, zlen in *; rewrite length_fmap].
  apply (list_code_prefix _ _ _ _ _ _ output_prefix) in E as [Eo E]; [|done..].
  apply (le_prefix 8) in E as [El E]; [|done..].
  apply (bytes_prefix 20) in E as [Es E]; [|done..].
  apply (le_prefix 8) in E as [Eg E]; [|done..].
  apply var_bytes_prefix in E as [Ep E]; [|done..].
  assert ((if EXCLUDE_MASS_COMMIT f then 0 else tx_mass x) = (if EXCLUDE_MASS_COMMIT f then 0 else tx_mass y)) as Em.
  { destruct (EXCLUDE_MASS_COMMIT f); [done|]. unfold in_u in *. destruct (Z.ltb_spec 0 (tx_mass x)), (Z.ltb_spec 0 (tx_mass y)).
    - by apply (le_bytes_inj 8).
    - discriminate E.
    - discriminate E.
    - lia. }
  unfold erase. by rewrite Ev, Ei, Eo, El, Es, Eg, Ep, Em.
Qed.

Lemma no_inputs_subnetwork f f' x y : tx_wf x -> tx_wf y -> tx_inputs x = [] ->
  write_transaction x f = write_transaction y f' -> subnetwork_id x = subnetwork_id y.
Proof.
  intros Hx Hy Hi E. destruct Hx as [Hxv _ [Hxo Hxol] Hxl Hxs _ _ _], Hy as [Hyv [_ Hyil] [Hyo Hyol] Hyl Hys _ _ _].
  unfold write_transaction in E. rewrite Hi in E. apply (le_prefix 2) in E as [_ E]; [|done..].
  apply (le_prefix 8) in E as [En E]; [|done|split; [apply zlen_nonneg|exact Hyil]].
  destruct (tx_inputs y); [|unfold zlen in En; cbn in En; lia]. cbn [mbind list_bind app] in E.
  apply (list_code_prefix _ _ _ _ _ _ output_prefix) in E as [_ E]; [|done..].
  apply (le_prefix 8) in E as [_ E]; [|done..]. by apply (bytes_prefix 20) in E as [? _].
Qed.

(** Two different byte strings with the same hash. *)
Definition collision `{Hashers} (d : hasher) : Prop := exists a b, a <> b /\ finalize d a = finalize d b.

Lemma hash_eq `{Hashers} d a b : finalize d a = finalize d b -> collision d \/ a = b.
Proof. intros E. destruct (decide (a = b)); [by right|left]. by exists a, b. Qed.

Definition id_flags (tx : Transaction) : TxEncodingFlags := if is_coinbase tx then FULL else mkFlags true true.

(** Two transactions have the same id exactly when they agree on all that
    the id is meant to commit to (everything for a coinbase, everything but the
    signature scripts, signature operation counts and mass otherwise), unless
    the hash function collides. *)
Theorem transaction_id_commits `{Hashers} (x y : Transaction) :
  tx_wf x -> tx_wf y -> (is_coinbase x = true -> tx_inputs x = []) -> (is_coinbase y = true -> tx_inputs y = []) ->
  (calc_id x = calc_id y -> collision TransactionID \/ erase (id_flags x) x = erase (id_flags x) y) /\
  (erase (id_flags x) x = erase (id_flags x) y -> calc_id x = calc_id y).
Proof.
  intros Hx Hy Hcx Hcy. unfold calc_id. fold (id_flags x) (id_flags y). split.
  - intros [?|E]%hash_eq; [by left|right].
    assert (subnetwork_id x = subnetwork_id y \/ is_coinbase x = is_coinbase y) as Hs.
    { destruct (is_coinbase x) eqn:Ex; [left; eapply no_inputs_subnetwork; eauto|].
      destruct (is_coinbase y) eqn:Ey; [left; symmetry; eapply no_inputs_subnetwork; eauto|by right]. }
    assert (id_flags y = id_flags x) as Ef by (unfold id_flags, is_coinbase in *; destruct Hs as [->| ->]; done).
    rewrite Ef in E. by apply write_erased_inj.
  - intros E. assert (id_flags y = id_flags x) as ->.
    { unfold id_flags, is_coinbase. apply (f_equal subnetwork_id) in E. cbn in E. by rewrite E. }
    by rewrite <-(write_erase (id_flags x) x), <-(write_erase (id_flags x) y), E.
Qed.

(** ** Signature hashes *)

(** The reused values hold the hashes of [tx], as far as they are present. *)
Record reused_ok `{Hashers} (tx : Transaction) (r : SigHashReusedValues) : Prop := {
  ro_previous_outputs : forall h, r_previous_outputs r = Some h -> h = (previous_outputs_hash tx 0 SigHashReusedValues_new).1;
  ro_sequences : forall h, r_sequences r = Some h -> h = (sequences_hash tx 0 SigHashReusedValues_new).1;
  ro_sig_op_counts : forall h, r_sig_op_counts r = Some h -> h = (sig_op_counts_hash tx 0 SigHashReusedValues_new).1;
  ro_outputs : forall h, r_outputs r = Some h -> h = (outputs_hash tx 0 0 SigHashReusedValues_new).1;
  ro_payload : forall h, r_payload r = Some h -> is_native (subnetwork_id tx) && bool_decide (payload tx = []) = false ->
    h = (payload_hash tx SigHashReusedValues_new).1
}.

Section reuse.
Context `{Hashers} (tx : Transaction).

Lemma previous_outputs_reuse t r : reused_ok tx r ->
  (previous_outputs_hash tx t r).1 = (previous_outputs_hash tx t SigHashReusedValues_new).1 /\ reused_ok tx (previous_outputs_hash tx t r).2.
Proof.
  intros Hr. unfold previous_outputs_hash. destruct (is_sighash_anyone_can_pay t); [done|].
  destruct (r_previous_outputs r) as [h|] eqn:E; cbn; (split; [|]); try done; [by apply Hr in E|].
  destruct Hr. constructor; cbn; try done. by intros h [= <-].
Qed.

Lemma sequences_reuse t r : reused_ok tx r ->
  (sequences_hash tx t r).1 = (sequences_hash tx t SigHashReusedValues_new).1 /\ reused_ok tx (sequences_hash tx t r).2.
Proof.
  intros Hr. unfold sequences_hash. destruct (_ || _); [done|].
  destruct (r_sequences r) as [h|] eqn:E; cbn; (split; [|]); try done; [by apply Hr in E|].
  destruct Hr. constructor; cbn; try done. by intros h [= <-].
Qed.

Lemma sig_op_counts_reuse t r : reused_ok tx r ->
  (sig_op_counts_hash tx t r).1 = (sig_op_counts_hash tx t SigHashReusedValues_new).1 /\ reused_ok tx (sig_op_counts_hash tx t r).2.
Proof.
  intros Hr. unfold sig_op_counts_hash. destruct (is_sighash_anyone_can_pay t); [done|].
  destruct (r_sig_op_counts r) as [h|] eqn:E; cbn; (split; [|]); try done; [by apply Hr in E|].
  destruct Hr. constructor; cbn; try done. by intros h [= <-].
Qed.

Lemma outputs_reuse t i r : reused_ok tx r ->
  (outputs_hash tx t i r).1 = (outputs_hash tx t i SigHashReusedValues_new).1 /\ reused_ok tx (outputs_hash tx t i r).2.
Proof.
  intros Hr. unfold outputs_hash. destruct (is_sighash_none t); [done|]. destruct (is_sighash_single t); [by destruct (_ !! _)|].
  destruct (r_outputs r) as [h|] eqn:E; cbn; (split; [|]); try done; [by apply Hr in E|].
  destruct Hr. constructor; cbn; try done. by intros h [= <-].
Qed.

Lemma payload_reuse r : reused_ok tx r ->
  (payload_hash tx r).1 = (payload_hash tx SigHashReusedValues_new).1 /\ reused_ok tx (payload_hash tx r).2.
Proof.
  intros Hr. unfold payload_hash. destruct (_ && _) eqn:Ep; [done|].
  destruct (r_payload r) as [h|] eqn:E; cbn; (split; [|]); try done.
  - apply Hr in E; [|done]. unfold payload_hash in E. by rewrite Ep in E.
  - destruct Hr. constructor; cbn; try done. intros h [= <-] _. unfold payload_hash. by rewrite Ep.
Qed.
End reuse.

(** A collision, or a preimage of the hash that stands for an absent part. *)
Definition broken `{Hashers} (d : hasher) : Prop := collision d \/ exists a, finalize d a = ZERO_HASH.

Definition entry_wf (e : UtxoEntry) : Prop := in_u 64 (amount e) /\ spk_wf (ue_spk e).
Record populated_wf (p : PopulatedTransaction) : Prop := {
  pw_tx : tx_wf (ptx_tx p);
  pw_entries : Forall entry_wf (entries p);
  pw_length : length (tx_inputs (ptx_tx p)) = length (entries p)
}.

(** What a signature with the given hash type fixes: always the input with the
    entry that it spends and the fields outside of the inputs and outputs; the
    other inputs and the outputs as the type says. *)
Record signs_same (p q : PopulatedTransaction) (i j : nat) (t : Z) : Prop := {
  ss_version : tx_version (ptx_tx p) = tx_version (ptx_tx q);
  ss_lock_time : lock_time (ptx_tx p) = lock_time (ptx_tx q);
  ss_subnetwork : subnetwork_id (ptx_tx p) = subnetwork_id (ptx_tx q);
  ss_gas : gas (ptx_tx p) = gas (ptx_tx q);
  ss_payload : payload (ptx_tx p) = payload (ptx_tx q);
  ss_input : forall x y, tx_inputs (ptx_tx p) !! i = Some x -> tx_inputs (ptx_tx q) !! j = Some y ->
    previous_outpoint x = previous_outpoint y /\ sequence x = sequence y /\ sig_op_count x = sig_op_count y;
  ss_entry : forall x y, entries p !! i = Some x -> entries q !! j = Some y -> amount x = amount y /\ ue_spk x = ue_spk y;
  ss_inputs : is_sighash_anyone_can_pay t = false ->
    previous_outpoint <$> tx_inputs (ptx_tx p) = previous_outpoint <$> tx_inputs (ptx_tx q) /\
    sig_op_count <$> tx_inputs (ptx_tx p) = sig_op_count <$> tx_inputs (ptx_tx q);
  ss_sequences : is_sighash_anyone_can_pay t = false -> is_sighash_all t = true ->
    sequence <$> tx_inputs (ptx_tx p) = sequence <$> tx_inputs (ptx_tx q);
  ss_outputs : is_sighash_all t = true -> tx_outputs (ptx_tx p) = tx_outputs (ptx_tx q);
  ss_output : is_sighash_single t = true -> tx_outputs (ptx_tx p) !! i = tx_outputs (ptx_tx q) !! j
}.

Section signing.
Context `{Hashers}.
Notation fresh := SigHashReusedValues_new.

(** The five shared hashes, computed without reuse. *)
Definition fresh_preimage (p : PopulatedTransaction) (x : TransactionInput) (e : UtxoEntry) (i : nat) (t : Z) : list Z :=
  sighash_preimage (ptx_tx p) x e t (previous_outputs_hash (ptx_tx p) t fresh).1 (sequences_hash (ptx_tx p) t fresh).1
    (sig_op_counts_hash (ptx_tx p) t fresh).1 (outputs_hash (ptx_tx p) t i fresh).1 (payload_hash (ptx_tx p) fresh).1.

Lemma calc_sighash_ok {E} p x e i t r : reused_ok (ptx_tx p) r -> tx_inputs (ptx_tx p) !! i = Some x -> entries p !! i = Some e ->
  exists r', calc_schnorr_signature_hash (E := E) p i t r = Ok (finalize TransactionSigningHash (fresh_preimage p x e i t), r') /\
    reused_ok (ptx_tx p) r'.
Proof.
  intros Hr Hx He. unfold calc_schnorr_signature_hash, populated_input. rewrite Hx. run. rewrite He. run. unfold fresh_preimage.
  destruct (previous_outputs_reuse (ptx_tx p) t r Hr) as [<- Hr1]. destruct (previous_outputs_hash (ptx_tx p) t r) as [h1 r1]. cbn [fst snd] in *.
  destruct (sequences_reuse (ptx_tx p) t r1 Hr1) as [<- Hr2]. destruct (sequences_hash (ptx_tx p) t r1) as [h2 r2]. cbn [fst snd] in *.
  destruct (sig_op_counts_reuse (ptx_tx p) t r2 Hr2) as [<- Hr3]. destruct (sig_op_counts_hash (ptx_tx p) t r2) as [h3 r3]. cbn [fst snd] in *.
  destruct (outputs_reuse (ptx_tx p) t i r3 Hr3) as [<- Hr4]. destruct (outputs_hash (ptx_tx p) t i r3) as [h4 r4]. cbn [fst snd] in *.
  destruct (payload_reuse (ptx_tx p) r4 Hr4) as [<- Hr5]. destruct (payload_hash (ptx_tx p) r4) as [h5 r5]. cbn [fst snd] in *.
  by exists r5.
Qed.

Lemma zero_range : in_u 256 ZERO_HASH.
Proof. unfold in_u, ZERO_HASH. lia. Qed.

Lemma hash_range d bs : in_u 256 (finalize d bs).
Proof. apply finalize_range. Qed.

Lemma shared_range p t i : in_u 256 (previous_outputs_hash (ptx_tx p) t fresh).1 /\ in_u 256 (sequences_hash (ptx_tx p) t fresh).1 /\
  in_u 256 (sig_op_counts_hash (ptx_tx p) t fresh).1 /\ in_u 256 (outputs_hash (ptx_tx p) t i fresh).1 /\ in_u 256 (payload_hash (ptx_tx p) fresh).1.
Proof.
  unfold previous_outputs_hash, sequences_hash, sig_op_counts_hash, outputs_hash, payload_hash. cbn.
  split_and!; repeat case_match; cbn; auto using zero_range, hash_range.
Qed.

(** The preimage determines its parts. *)
Lemma preimage_inj tx tx' x x' e e' t t' a b c d f a' b' c' d' f' : tx_wf tx -> tx_wf tx' -> input_wf x -> input_wf x' ->
  entry_wf e -> entry_wf e' -> in_u 8 t -> in_u 8 t' ->
  Forall (in_u 256) [a; b; c; d; f] -> Forall (in_u 256) [a'; b'; c'; d'; f'] ->
  sighash_preimage tx x e t a b c d f = sighash_preimage tx' x' e' t' a' b' c' d' f' ->
  tx_version tx = tx_version tx' /\ lock_time tx = lock_time tx' /\ subnetwork_id tx = subnetwork_id tx' /\ gas tx = gas tx' /\
  previous_outpoint x = previous_outpoint x' /\ sequence x = sequence x' /\ sig_op_count x = sig_op_count x' /\
  amount e = amount e' /\ ue_spk e = ue_spk e' /\ t = t' /\ [a; b; c; d; f] = [a'; b'; c'; d'; f'].
Proof.
  intros Htx Htx' (Hxo & _ & Hxs & Hxc) (Hxo' & _ & Hxs' & Hxc') [Hea Hes] [Hea' Hes'] Ht Ht' Hh Hh' E.
  destruct Htx as [Hv _ _ Hl Hsub Hg _ _], Htx' as [Hv' _ _ Hl' Hsub' Hg' _ _]. rewrite !Forall_cons in Hh, Hh'.
  destruct Hh as (Ha & Hb & Hc & Hd & Hf & _), Hh' as (Ha' & Hb' & Hc' & Hd' & Hf' & _). unfold sighash_preimage in E.
  apply (le_prefix 2) in E as [? E]; [|done..]. apply hash_prefix in E as [? E]; [|done..]. apply hash_prefix in E as [? E]; [|done..].
  apply hash_prefix in E as [? E]; [|done..]. apply outpoint_prefix in E as [? E]; [|done..]. apply spk_prefix in E as [? E]; [|done..].
  apply (le_prefix 8) in E as [? E]; [|done..]. apply (le_prefix 8) in E as [? E]; [|done..]. apply (le_prefix 1) in E as [? E]; [|done..].
  apply hash_prefix in E as [? E]; [|done..]. apply (le_prefix 8) in E as [? E]; [|done..]. apply (bytes_prefix 20) in E as [? E]; [|done..].
  apply (le_prefix 8) in E as [? E]; [|done..]. apply hash_prefix in E as [? E]; [|done..]. apply (le_bytes_inj 1) in E; [|done..].
  subst. by split_and!; congruence.
Qed.

Lemma fields_hash {A B} (P : B -> Prop) (enc : B -> list Z) (f : A -> B) d l l' : prefix_code P enc -> (forall b, enc b <> []) ->
  Forall (fun a => P (f a)) l -> Forall (fun a => P (f a)) l' ->
  finalize d (l ≫= (fun a => enc (f a))) = finalize d (l' ≫= (fun a => enc (f a))) -> collision d \/ f <$> l = f <$> l'.
Proof.
  intros Henc Hne Hl Hl' [?|E]%hash_eq; [by left|right].
  assert (forall m, m ≫= (fun a => enc (f a)) = (f <$> m) ≫= enc) as Hm.
  { induction m as [|a m IH]; [done|]. by rewrite fmap_cons, !bind_cons, IH. }
  rewrite !Hm in E. eapply concat_inj; [exact Henc|done|by apply Forall_fmap|by apply Forall_fmap|done].
Qed.

Lemma inputs_fields tx (P : TransactionInput -> Prop) : tx_wf tx -> (forall i, input_wf i -> P i) -> Forall P (tx_inputs tx).
Proof. intros [_ [Hi _] _ _ _ _ _ _] HP. eapply Forall_impl; [exact Hi|]. apply HP. Qed.

Ltac sh := cbn -[write_var_bytes hash_output write_outpoint write_u8 write_u64 write_u32 hash_bytes].

Lemma payload_commits tx tx' : tx_wf tx -> tx_wf tx' -> subnetwork_id tx = subnetwork_id tx' ->
  (payload_hash tx fresh).1 = (payload_hash tx' fresh).1 -> broken TransactionSigningHash \/ payload tx = payload tx'.
Proof.
  intros Hx Hy Es. unfold payload_hash. sh. rewrite <-Es. destruct (is_native (subnetwork_id tx)); cbn [andb].
  - destruct (bool_decide_reflect (payload tx = [])) as [->|Hn], (bool_decide_reflect (payload tx' = [])) as [->|Hn']; sh; intros E.
    + by right.
    + left. right. eauto.
    + left. right. eauto.
    + apply hash_eq in E as [?|E]; [by left; left|right]. rewrite <-(app_nil_r (write_var_bytes _)), <-(app_nil_r (write_var_bytes (payload tx'))) in E.
      apply var_bytes_prefix in E as [? _]; [done|apply Hx|apply Hy].
  - intros [?|E]%hash_eq; [by left; left|right]. rewrite <-(app_nil_r (write_var_bytes _)), <-(app_nil_r (write_var_bytes (payload tx'))) in E.
    apply var_bytes_prefix in E as [? _]; [done|apply Hx|apply Hy].
Qed.

Lemma output_commits tx tx' t i j : tx_wf tx -> tx_wf tx' -> is_sighash_none t = false -> is_sighash_single t = true ->
  (outputs_hash tx t i fresh).1 = (outputs_hash tx' t j fresh).1 -> broken TransactionSigningHash \/ tx_outputs tx !! i = tx_outputs tx' !! j.
Proof.
  intros Hx Hy Hn Hs. unfold outputs_hash. rewrite Hn, Hs. destruct (tx_outputs tx !! i) as [o|] eqn:Ei, (tx_outputs tx' !! j) as [o'|] eqn:Ej; sh; intros E.
  - apply hash_eq in E as [?|E]; [by left; left|right]. rewrite <-(app_nil_r (hash_output _)), <-(app_nil_r (hash_output o')) in E.
    apply output_prefix in E as [-> _]; [done|..].
    + eapply Forall_lookup_1; [apply (tw_outputs _ Hx)|done].
    + eapply Forall_lookup_1; [apply (tw_outputs _ Hy)|done].
  - left. right. eauto.
  - left. right. eauto.
  - by right.
Qed.

Lemma outputs_commit tx tx' t i j : tx_wf tx -> tx_wf tx' -> is_sighash_none t = false -> is_sighash_single t = false ->
  (outputs_hash tx t i fresh).1 = (outputs_hash tx' t j fresh).1 -> collision TransactionSigningHash \/ tx_outputs tx = tx_outputs tx'.
Proof.
  intros Hx Hy Hn Hs. unfold outputs_hash. rewrite Hn, Hs. sh. intros [?|E]%hash_eq; [by left|right].
  eapply (concat_inj output_wf); [apply output_prefix|done|apply (tw_outputs _ Hx)|apply (tw_outputs _ Hy)|done].
Qed.

Lemma all_not_others t : is_sighash_all t = true -> is_sighash_none t = false /\ is_sighash_single t = false.
Proof. unfold is_sighash_all, is_sighash_none, is_sighash_single, SIG_HASH_ALL, SIG_HASH_NONE, SIG_HASH_SINGLE. rewrite Z.eqb_eq. by intros ->. Qed.

Lemma single_not_none t : is_sighash_single t = true -> is_sighash_none t = false.
Proof. unfold is_sighash_none, is_sighash_single, SIG_HASH_NONE, SIG_HASH_SINGLE. rewrite Z.eqb_eq. by intros ->. Qed.

(** Collisions of the parts are decided one at a time. *)
Lemma inputs_commit tx tx' t : tx_wf tx -> tx_wf tx' -> is_sighash_anyone_can_pay t = false ->
  (previous_outputs_hash tx t fresh).1 = (previous_outputs_hash tx' t fresh).1 ->
  (sig_op_counts_hash tx t fresh).1 = (sig_op_counts_hash tx' t fresh).1 -> collision TransactionSigningHash \/
  (previous_outpoint <$> tx_inputs tx = previous_outpoint <$> tx_inputs tx' /\ sig_op_count <$> tx_inputs tx = sig_op_count <$> tx_inputs tx').
Proof.
  intros Hx Hy Ha. unfold previous_outputs_hash, sig_op_counts_hash. rewrite Ha. sh. intros E1 E2.
  apply (fields_hash outpoint_wf write_outpoint previous_outpoint) in E1 as [?|E1];
    [by left| |apply outpoint_prefix|done|apply inputs_fields; [done|by intros i (? & _)]|apply inputs_fields; [done|by intros i (? & _)]].
  apply (fields_hash _ _ sig_op_count _ _ _ (le_prefix 1)) in E2 as [?|E2];
    [by left|by right|done|apply inputs_fields; [done|by intros i (_ & _ & _ & ?)]|apply inputs_fields; [done|by intros i (_ & _ & _ & ?)]].
Qed.

Lemma sequences_commit tx tx' t : tx_wf tx -> tx_wf tx' -> is_sighash_anyone_can_pay t = false -> is_sighash_all t = true ->
  (sequences_hash tx t fresh).1 = (sequences_hash tx' t fresh).1 -> collision TransactionSigningHash \/
  sequence <$> tx_inputs tx = sequence <$> tx_inputs tx'.
Proof.
  intros Hx Hy Ha [Hn Hs]%all_not_others. unfold sequences_hash. rewrite Ha, Hn, Hs. sh. intros E.
  apply (fields_hash _ _ sequence _ _ _ (le_prefix 8)) in E as [?|E];
    [by left|by right|done|apply inputs_fields; [done|by intros i (_ & _ & ? & _)]|apply inputs_fields; [done|by intros i (_ & _ & ? & _)]].
Qed.

Lemma allowed_u8 t : t ∈ ALLOWED_SIG_HASH_TYPES_VALUES -> in_u 8 t.
Proof. unfold in_u. set_unfold. intuition (subst; done). Qed.

Lemma decided (c v : bool) (A B : Prop) : (c = v -> A \/ B) -> A \/ (c = v -> B).
Proof. intros Hc. destruct (decide (c = v)) as [E|E]; [destruct (Hc E); auto|]. right. by intros ?. Qed.

Lemma or_broken d (Q : Prop) : collision d \/ Q -> broken d \/ Q.
Proof. intros [?|?]; [by left; left|by right]. Qed.

Lemma agree_or_broken p q i j t x y e e' : populated_wf p -> populated_wf q -> t ∈ ALLOWED_SIG_HASH_TYPES_VALUES ->
  tx_inputs (ptx_tx p) !! i = Some x -> entries p !! i = Some e -> tx_inputs (ptx_tx q) !! j = Some y -> entries q !! j = Some e' ->
  fresh_preimage p x e i t = fresh_preimage q y e' j t -> broken TransactionSigningHash \/ signs_same p q i j t.
Proof.
  intros [Hp Hpe _] [Hq Hqe _] Ht Hx He Hy He' E. unfold fresh_preimage in E.
  assert (input_wf x) by (eapply Forall_lookup_1; [apply (tw_inputs _ Hp)|done]).
  assert (input_wf y) by (eapply Forall_lookup_1; [apply (tw_inputs _ Hq)|done]).
  assert (entry_wf e) by (eapply Forall_lookup_1; [exact Hpe|exact He]).
  assert (entry_wf e') by (eapply Forall_lookup_1; [exact Hqe|exact He']).
  destruct (shared_range p t i) as (? & ? & ? & ? & ?), (shared_range q t j) as (? & ? & ? & ? & ?).
  apply preimage_inj in E as (Ev & El & Es & Eg & Eo & Esq & Esc & Ea & Espk & _ & [= E1 E2 E3 E4 E5]);
    [|done|done|done|done|done|done|by apply allowed_u8|by apply allowed_u8|by rewrite !Forall_cons|by rewrite !Forall_cons].
  destruct (payload_commits (ptx_tx p) (ptx_tx q)) as [?|Ep]; [done..|by left|].
  destruct (decided (is_sighash_anyone_can_pay t) false _ _ (fun Ha => or_broken _ _ (inputs_commit _ _ t Hp Hq Ha E1 E3))) as [?|Hins]; [by left|].
  destruct (decided (is_sighash_anyone_can_pay t || negb (is_sighash_all t)) false
    (broken TransactionSigningHash) (sequence <$> tx_inputs (ptx_tx p) = sequence <$> tx_inputs (ptx_tx q))) as [?|Hseq]; [|by left|].
  { intros [Ha Hall%negb_false_iff]%orb_false_iff. by apply or_broken, (sequences_commit _ _ t). }
  destruct (decided (is_sighash_all t) true (broken TransactionSigningHash) (tx_outputs (ptx_tx p) = tx_outputs (ptx_tx q))) as [?|Hout]; [|by left|].
  { intros [Hn Hs]%all_not_others. by apply or_broken, (outputs_commit _ _ t i j). }
  destruct (decided (is_sighash_single t) true (broken TransactionSigningHash) (tx_outputs (ptx_tx p) !! i = tx_outputs (ptx_tx q) !! j)) as [?|Hone]; [|by left|].
  { intros Hs. apply (output_commits _ _ t); try done. by apply single_not_none. }
  right. constructor; try done.
  - intros ? ? Hx' Hy'. by simplify_eq.
  - intros ? ? He1 He2. by simplify_eq.
  - intros Ha Hall. apply Hseq. by rewrite Ha, Hall.
Qed.
End signing.


(** ** Examples *)

(** A stand-in for the hash functions: the number that the bytes spell. *)
Definition spell_hashers : Hashers := {|
  finalize := fun d bs => of_le_bytes bs mod 2 ^ 256;
  finalize_range := fun d bs => Z.mod_pos_bound (of_le_bytes bs) (2 ^ 256) ltac:(lia)
|}.

Definition example_input (script : list Z) : TransactionInput := mkInput (mkOutpoint 7 0) script 5 1.
Definition example_tx (script : list Z) (mass : Z) : Transaction :=
  mkTransaction 0 [example_input script] [mkOutput 100 (mkSpk 0 [81])] 0 SUBNETWORK_ID_NATIVE 0 [] mass 0.
Definition example_populated (script : list Z) : PopulatedTransaction :=
  mkPopulated (example_tx script 0) [UtxoEntry_new 200 (mkSpk 0 [82]) 3 false].

Lemma example_tx_wf script mass : short script -> in_u 64 mass -> tx_wf (example_tx script mass).
Proof.
  intros Hs Hm. constructor; cbn; try done; split; try done; repeat constructor; try done.
Qed.

Lemma transaction_id_commits_witness :
  (@calc_id spell_hashers (example_tx [1; 2] 9) = @calc_id spell_hashers (example_tx [] 0) ->
     @collision spell_hashers TransactionID \/
     erase (id_flags (example_tx [1; 2] 9)) (example_tx [1; 2] 9) = erase (id_flags (example_tx [1; 2] 9)) (example_tx [] 0)) /\
  (erase (id_flags (example_tx [1; 2] 9)) (example_tx [1; 2] 9) = erase (id_flags (example_tx [1; 2] 9)) (example_tx [] 0) ->
     @calc_id spell_hashers (example_tx [1; 2] 9) = @calc_id spell_hashers (example_tx [] 0)).
Proof.
  apply (@transaction_id_commits spell_hashers (example_tx [1; 2] 9) (example_tx [] 0)).
  - apply example_tx_wf; done.
  - apply example_tx_wf; done.
  - discriminate.
  - discriminate.
Defined.

Lemma example_populated_wf script : short script -> populated_wf (example_populated script).
Proof.
  intros Hs. constructor; [by apply example_tx_wf|repeat constructor; done|done].
Qed.

Lemma fresh_reused_ok h tx : @reused_ok h tx SigHashReusedValues_new.
Proof. by constructor. Qed.

