(* ===== verification/Merkle.v ===== *)
(** * Merkle roots

    [crypto/merkle/src/lib.rs] and [consensus/core/src/merkle.rs].
    [calc_merkle_root] fills an array with the leaves, absent ones up to the next
    power of two, and then each pair of entries with their parent.

    The array algorithm computes the root of the binary tree over the leaves,
    and equal roots of lists of one length are equal lists, or a collision. *)
From S2P Require Import Prelude Bytes Tx Hashing.
From stdpp Require Import base list.
#[local] Open Scope Z_scope.

Section merkle.
Context `{Hashers} {E : Type}.

Definition merkle_hash (left right : Hash) : Hash := finalize MerkleBranchHash (hash_bytes left ++ hash_bytes right).

(** [usize::next_power_of_two]. *)
Definition next_power_of_two (n : nat) : nat := 2 ^ Nat.log2_up n.

(** The loop body: the parent of entries [i] and [i + 1] at [offset]. *)
Definition merkle_parent (st : list (option Hash) * nat) (i : nat) : outcome E (list (option Hash) * nat) :=
  let '(merkles, offset) := st in
  l ← unwrap (merkles !! i);
  p ← (match l with
       | None => Ok None
       | Some l => r ← unwrap (merkles !! (i + 1)%nat); Ok (Some (merkle_hash l (default ZERO_HASH r)))
       end);
  _ ← assert (offset <? length merkles)%nat;
  Ok (<[offset := p]> merkles, (offset + 1)%nat).

Definition calc_merkle_root (hashes : list Hash) : outcome E Hash :=
  if (length hashes =? 0)%nat then Ok ZERO_HASH
  else
    let next_pot := next_power_of_two (length hashes) in
    let vec_len := (2 * next_pot - 1)%nat in
    let merkles := (Some <$> hashes) ++ replicate (vec_len - length hashes) None in
    '(merkles, _) ← foldM merkle_parent (merkles, next_pot) ((fun k => 2 * k)%nat <$> seq 0 (next_pot - 1));
    root ← unwrap (last merkles);
    unwrap root.

(** [consensus/core/src/merkle.rs]. *)
Definition calc_hash_merkle_root (txs : list Transaction) : outcome E Hash := calc_merkle_root (tx_hash <$> txs).

(** [calc_accepted_id_merkle_root] of the virtual processor. *)
Definition calc_accepted_id_merkle_root (accepted_tx_ids : list Hash) (selected_parent_root : Hash) : outcome E Hash :=
  root ← calc_merkle_root accepted_tx_ids; Ok (merkle_hash selected_parent_root root).
End merkle.

Section tree.
Context `{Hashers}.

(** ** The tree *)
Definition branch (l r : option Hash) : option Hash :=
  match l with None => None | Some l => Some (merkle_hash l (default ZERO_HASH r)) end.

(** The root over [2^k] leaves. *)
Fixpoint tree_root (k : nat) (l : list (option Hash)) : option Hash :=
  match k with
  | O => default None (head l)
  | S k => branch (tree_root k (take (2 ^ k) l)) (tree_root k (drop (2 ^ k) l))
  end.

Definition leaves (n : nat) (hashes : list Hash) : list (option Hash) := (Some <$> hashes) ++ replicate (n - length hashes) None.

(** ** The array

    Every entry above the leaves is the parent of two entries below it. *)
Section array.
Context {E : Type} (k : nat).
Let n : nat := (2 ^ k)%nat.

Definition parents_upto (m : nat) (a : list (option Hash)) : Prop :=
  length a = (2 * n - 1)%nat /\
  forall j, (j < m)%nat -> a !! (n + j)%nat = Some (branch (default None (a !! (2 * j)%nat)) (default None (a !! (2 * j + 1)%nat))).

Lemma merkle_loop a0 : length a0 = (2 * n - 1)%nat ->
  exists a, foldM (merkle_parent (E := E)) (a0, n) ((fun k => 2 * k)%nat <$> seq 0 (n - 1)) = Ok (a, (n + (n - 1))%nat) /\
    parents_upto (n - 1) a /\ take n a = take n a0.
Proof.
  intros Hlen. assert (0 < n)%nat as Hn by (unfold n; pose proof (Nat.pow_nonzero 2 k); lia).
  edestruct (foldM_total (merkle_parent (E := E))
    (fun (pre : list nat) st => st.2 = (n + length pre)%nat /\ parents_upto (length pre) st.1 /\ take n st.1 = take n a0)
    (a0, n) ((fun k => 2 * k)%nat <$> seq 0 (n - 1))) as ([a off] & HF & Hoff & Hp & Ht).
  - split; [cbn; lia|]. split; [|done]. split; [done|]. intros j Hj. cbn in Hj. lia.
  - intros pre i post [a off] Heq (Hoff & [Hl Hp] & Ht). cbn [fst snd] in *. subst off.
    pose proof (f_equal length Heq) as Hlens. rewrite length_fmap, length_seq, length_app in Hlens. cbn in Hlens.
    assert (i = 2 * length pre)%nat as ->.
    { assert (((fun k => 2 * k)%nat <$> seq 0 (n - 1)) !! length pre = Some i) as Hi by (rewrite Heq; by apply list_lookup_middle).
      rewrite list_lookup_fmap, lookup_seq_lt in Hi by lia. cbn in Hi. by injection Hi as <-. }
    set (m := length pre) in *. unfold merkle_parent.
    destruct (lookup_lt_is_Some_2 a (2 * m)) as [l El]; [lia|]. destruct (lookup_lt_is_Some_2 a (2 * m + 1)) as [r Er]; [lia|].
    assert (unwrap (E := E) (a !! (2 * m)%nat) = Ok l) as -> by (by rewrite El). cbn [mbind outcome_mbind].
    assert ((match l with None => Ok None | Some l => r ← unwrap (a !! (2 * m + 1)%nat); Ok (Some (merkle_hash l (default ZERO_HASH r))) end)
      = Ok (E := E) (branch l r)) as -> by (destruct l; [by rewrite Er|done]).
    cbn [mbind outcome_mbind]. rewrite (proj2 (Nat.ltb_lt _ _)) by lia. cbn [assert mbind outcome_mbind].
    eexists. split; [done|]. cbn [fst snd]. rewrite length_app. cbn [length]. split; [fold m; lia|]. split.
    + split; [by rewrite length_insert|]. intros j Hj. rewrite Nat.add_1_r in Hj. fold m in Hj.
      rewrite !(list_lookup_insert_ne _ (n + m) (2 * j)), !(list_lookup_insert_ne _ (n + m) (2 * j + 1)) by lia.
      destruct (decide (j = m)) as [->|Hne].
      * rewrite list_lookup_insert_eq by lia. by rewrite El, Er.
      * rewrite list_lookup_insert_ne by lia. apply Hp. lia.
    + rewrite take_insert_ge by lia. done.
  - cbn [fst snd] in *. rewrite length_fmap, length_seq in *. subst off. eauto.
Qed.

(** Level [t] of the array holds the roots of the subtrees of height [t]. *)
Lemma level_root a t : parents_upto (n - 1) a -> (t <= k)%nat ->
  forall j, (j < 2 ^ (k - t))%nat ->
    a !! (2 * n - 2 ^ (k + 1 - t) + j)%nat = Some (tree_root t (take (2 ^ t) (drop (j * 2 ^ t) (take n a)))).
Proof.
  intros [Hl Hp]. assert (0 < n)%nat as Hn by (unfold n; pose proof (Nat.pow_nonzero 2 k); lia).
  induction t as [|t IH]; intros Ht j Hj.
  - rewrite Nat.sub_0_r in *. fold n in Hj. assert (2 ^ (k + 1) = 2 * n)%nat as -> by (by rewrite Nat.add_1_r, Nat.pow_succ_r').
    replace (2 * n - 2 * n + j)%nat with j by lia.
    cbn [tree_root]. rewrite Nat.pow_0_r, Nat.mul_1_r.
    destruct (lookup_lt_is_Some_2 a j) as [x Ex]; [lia|]. rewrite Ex. f_equal.
    rewrite (drop_S _ x) by (rewrite lookup_take_lt by lia; done). done.
  - assert (2 ^ (k - t) = 2 * 2 ^ (k - S t))%nat as Hw by (rewrite <-Nat.pow_succ_r'; f_equal; lia).
    assert (2 ^ (k + 1 - t) = 2 * 2 ^ (k + 1 - S t))%nat as Hw' by (rewrite <-Nat.pow_succ_r'; f_equal; lia).
    assert (2 ^ (k + 1 - S t) <= n)%nat as Hle by (apply Nat.pow_le_mono_r; lia).
    assert (2 ^ (k + 1 - S t) = 2 * 2 ^ (k - S t))%nat as Hw2 by (rewrite <-Nat.pow_succ_r'; f_equal; lia).
    specialize (IH ltac:(lia)). pose proof (IH (2 * j)%nat ltac:(lia)) as IHl. pose proof (IH (2 * j + 1)%nat ltac:(lia)) as IHr.
    set (q := (n - 2 ^ (k + 1 - S t) + j)%nat).
    replace (2 * n - 2 ^ (k + 1 - S t) + j)%nat with (n + q)%nat by (unfold q; lia).
    replace (2 * n - 2 ^ (k + 1 - t) + 2 * j)%nat with (2 * q)%nat in IHl by (unfold q; lia).
    replace (2 * n - 2 ^ (k + 1 - t) + (2 * j + 1))%nat with (2 * q + 1)%nat in IHr by (unfold q; lia).
    rewrite Hp by (unfold q; pose proof (Nat.pow_nonzero 2 (k - S t)); lia). rewrite IHl, IHr. cbn [default from_option id tree_root]. do 2 f_equal.
    + f_equal. rewrite take_take, Nat.pow_succ_r', Nat.min_l by lia. do 2 f_equal. lia.
    + f_equal. generalize (take n a). intros b. rewrite skipn_firstn_comm, drop_drop, Nat.pow_succ_r'. f_equal; [lia|]. f_equal. lia.
Qed.
End array.

(** The array algorithm computes the root of the tree. *)
Lemma calc_merkle_root_tree {E} hashes : hashes <> [] ->
  let k := Nat.log2_up (length hashes) in
  calc_merkle_root (E := E) hashes = unwrap (tree_root k (leaves (2 ^ k) hashes)).
Proof.
  intros Hne k. unfold calc_merkle_root. destruct (length hashes =? 0)%nat eqn:E0.
  { apply Nat.eqb_eq, nil_length_inv in E0. done. }
  apply Nat.eqb_neq in E0. unfold next_power_of_two. fold k.
  assert (length hashes <= 2 ^ k)%nat as Hk.
  { destruct (decide (length hashes = 1%nat)) as [E1|]; [unfold k; rewrite E1; cbn; lia|]. apply (Nat.log2_up_spec (length hashes)). lia. }
  set (n := (2 ^ k)%nat) in *. set (a0 := (Some <$> hashes) ++ replicate (2 * n - 1 - length hashes) None).
  assert (length a0 = 2 * n - 1)%nat as Hl0 by (unfold a0; rewrite length_app, length_fmap, length_replicate; lia).
  destruct (merkle_loop (E := E) k a0 Hl0) as (a & HF & Hp & Ht). fold n in HF. rewrite HF. cbn [mbind outcome_mbind].
  assert (take n a0 = leaves n hashes) as Hlv.
  { unfold a0, leaves. rewrite take_app, take_ge by (rewrite length_fmap; lia). f_equal. rewrite length_fmap, take_replicate. f_equal. lia. }
  pose proof (level_root k a k Hp ltac:(done) 0 ltac:(rewrite Nat.sub_diag; cbn; lia)) as Hroot.
  destruct Hp as [Hl _]. rewrite last_lookup, Hl. fold n in Hroot, Ht, Hl |- *.
  replace (2 * n - 2 ^ (k + 1 - k) + 0)%nat with (Nat.pred (2 * n - 1)) in Hroot by (replace (k + 1 - k)%nat with 1%nat by lia; cbn; lia).
  rewrite Hroot. cbn [unwrap mbind outcome_mbind]. rewrite Ht, Hlv, Nat.mul_0_l, drop_0. f_equal.
  rewrite take_ge; [done|]. unfold leaves. rewrite length_app, length_fmap, length_replicate. lia.
Qed.

(** ** Commitment

    The leaves are hashes with [leaf]; what would make two roots agree on
    different leaves is a collision of the branch hash, a branch that is a leaf,
    or a leaf or branch that is the hash of an absent node. *)
Section commitment.
Context (leaf : Hash -> Prop) (leaf_range : forall h, leaf h -> 0 <= h < 2 ^ 256).

Definition broken_tree : Prop :=
  collision MerkleBranchHash \/ (exists b, leaf (finalize MerkleBranchHash b)) \/ leaf ZERO_HASH \/
  (exists b, finalize MerkleBranchHash b = ZERO_HASH).

(** Lists of hashes with the absent entries at the end. *)
Definition padded (l : list (option Hash)) : Prop := exists hs m, l = (Some <$> hs) ++ replicate m None /\ Forall leaf hs.

Lemma padded_take l i : padded l -> padded (take i l).
Proof.
  intros (hs & m & -> & Hh). exists (take i hs), (Nat.min (i - length hs) m). rewrite take_app, length_fmap, <-fmap_take, take_replicate.
  split; [done|by apply Forall_take].
Qed.

Lemma padded_drop l i : padded l -> padded (drop i l).
Proof.
  intros (hs & m & -> & Hh). exists (drop i hs), (m - (i - length hs))%nat. rewrite drop_app, length_fmap, <-fmap_drop, drop_replicate.
  split; [done|by apply Forall_drop].
Qed.

(** An absent root is over absent leaves only. *)
Lemma tree_root_None k l : length l = (2 ^ k)%nat -> padded l -> tree_root k l = None -> l = replicate (2 ^ k) None.
Proof.
  revert l. induction k as [|k IH]; intros l Hl Hp E0.
  - destruct l as [|x [|? ?]]; cbn in Hl; [lia| |lia]. cbn in E0. by subst.
  - rewrite Nat.pow_succ_r' in *. cbn [tree_root] in E0.
    destruct (tree_root k (take (2 ^ k) l)) eqn:El; [done|].
    apply IH in El; [|rewrite length_take; lia|by apply padded_take].
    destruct Hp as (hs & m & -> & _). destruct hs as [|h hs].
    + cbn [fmap list_fmap app] in *. rewrite length_replicate in Hl. by rewrite Hl.
    + exfalso. destruct (2 ^ k)%nat eqn:E2; [pose proof (Nat.pow_nonzero 2 k); lia|]. done.
Qed.

(** A root is a leaf, at height zero, or a branch. *)
Lemma tree_root_Some k l x : padded l -> tree_root k l = Some x ->
  match k with O => leaf x | S _ => exists b, x = finalize MerkleBranchHash b end.
Proof.
  destruct k as [|k]; cbn [tree_root]; intros Hp E0.
  - destruct Hp as (hs & m & -> & Hh). destruct hs as [|h hs]; cbn in E0; [by destruct m|].
    apply Forall_cons in Hh as [? _]. by injection E0 as <-.
  - unfold branch in E0. destruct (tree_root k _); [|done]. injection E0 as <-. by eexists.
Qed.

Lemma root_default_range k l : padded l -> 0 <= default ZERO_HASH (tree_root k l) < 2 ^ 256.
Proof.
  intros Hp. destruct (tree_root k l) as [x|] eqn:E0; [|unfold ZERO_HASH; cbn; lia].
  apply (tree_root_Some k l x Hp) in E0. destruct k; [by apply leaf_range|]. destruct E0 as [b ->]. apply finalize_range.
Qed.

Lemma root_not_zero k l : padded l -> tree_root k l = Some ZERO_HASH -> broken_tree.
Proof.
  intros Hp E0. apply (tree_root_Some k l _ Hp) in E0. unfold broken_tree. destruct k; [by right; right; left|].
  destruct E0 as [b Hb]. right. right. right. by exists b.
Qed.

Lemma merkle_hash_inj a b a' b' : 0 <= a < 2 ^ 256 -> 0 <= b < 2 ^ 256 -> 0 <= a' < 2 ^ 256 -> 0 <= b' < 2 ^ 256 ->
  merkle_hash a b = merkle_hash a' b' -> collision MerkleBranchHash \/ (a = a' /\ b = b').
Proof.
  intros Ha Hb Ha' Hb' [?|E0]%hash_eq; [by left|]. right. unfold hash_bytes in E0.
  apply app_inj_1 in E0 as [E1 E2]; [|by rewrite !length_rev, !length_le_bytes].
  apply (f_equal (@rev Z)) in E1, E2. rewrite !rev_involutive in E1, E2. split; by eapply (le_bytes_inj 32).
Qed.

(** Equal branches have equal subtrees. *)
Lemma branch_inj k k' l l' x : padded l -> padded l' -> tree_root (S k) l = Some x -> tree_root (S k') l' = Some x ->
  broken_tree \/ exists y, tree_root k (take (2 ^ k) l) = Some y /\ tree_root k' (take (2 ^ k') l') = Some y /\
    default ZERO_HASH (tree_root k (drop (2 ^ k) l)) = default ZERO_HASH (tree_root k' (drop (2 ^ k') l')).
Proof.
  intros Hp Hp' E0 E1. cbn [tree_root] in E0, E1.
  pose proof (root_default_range k (take (2 ^ k) l) ltac:(by apply padded_take)) as R1.
  pose proof (root_default_range k' (take (2 ^ k') l') ltac:(by apply padded_take)) as R2.
  destruct (tree_root k (take (2 ^ k) l)) as [y|]; [|done]. destruct (tree_root k' (take (2 ^ k') l')) as [y'|]; [|done].
  cbn [branch] in E0, E1. injection E0 as <-. injection E1 as E1. symmetry in E1.
  apply merkle_hash_inj in E1 as [?|[-> E2]];
    [left; by left| |done|by apply root_default_range, padded_drop|done|by apply root_default_range, padded_drop].
  right. eauto.
Qed.

Lemma tree_root_inj k l l' x : length l = (2 ^ k)%nat -> length l' = (2 ^ k)%nat -> padded l -> padded l' ->
  tree_root k l = Some x -> tree_root k l' = Some x -> broken_tree \/ l = l'.
Proof.
  revert l l' x. induction k as [|k IH]; intros l l' x Hl Hl' Hp Hp' E0 E1.
  - right. destruct l as [|? [|? ?]], l' as [|? [|? ?]]; cbn in *; try lia. by subst.
  - destruct (branch_inj k k l l' x Hp Hp' E0 E1) as [?|(y & L & L' & R)]; [by left|]. rewrite Nat.pow_succ_r' in Hl, Hl'.
    assert (forall (l : list (option Hash)), length l = (2 * 2 ^ k)%nat -> length (take (2 ^ k) l) = (2 ^ k)%nat /\ length (drop (2 ^ k) l) = (2 ^ k)%nat) as Hlen
      by (intros l0; rewrite length_take, length_drop; lia).
    destruct (Hlen l Hl) as [Ht Hd], (Hlen l' Hl') as [Ht' Hd'].
    pose proof (padded_take l (2 ^ k) Hp) as Pt. pose proof (padded_take l' (2 ^ k) Hp') as Pt'.
    pose proof (padded_drop l (2 ^ k) Hp) as Pd. pose proof (padded_drop l' (2 ^ k) Hp') as Pd'.
    destruct (IH _ _ y Ht Ht' Pt Pt' L L') as [?|Et]; [by left|].
    assert (broken_tree \/ drop (2 ^ k) l = drop (2 ^ k) l') as [?|Ed]; [|by left|].
    + destruct (tree_root k (drop (2 ^ k) l)) as [z|] eqn:Ez, (tree_root k (drop (2 ^ k) l')) as [z'|] eqn:Ez'; cbn in R.
      * subst z'. by eapply IH.
      * left. rewrite R in Ez. exact (root_not_zero k _ Pd Ez).
      * left. rewrite <-R in Ez'. exact (root_not_zero k _ Pd' Ez').
      * right. by rewrite (tree_root_None k _ Hd Pd Ez), (tree_root_None k _ Hd' Pd' Ez').
    + right. by rewrite <-(take_drop (2 ^ k) l), <-(take_drop (2 ^ k) l'), Et, Ed.
Qed.

(** Roots of different heights do not agree. *)
Lemma heights_differ k k' l l' x : (k < k')%nat -> padded l -> padded l' ->
  tree_root k l = Some x -> tree_root k' l' = Some x -> broken_tree.
Proof.
  revert k' l l' x. induction k as [|k IH]; intros k' l l' x Hk Hp Hp' E0 E1; (destruct k' as [|k']; [lia|]).
  - apply (tree_root_Some 0 l x Hp) in E0. apply (tree_root_Some (S k') l' x Hp') in E1 as [b ->]. right. left. eauto.
  - destruct (branch_inj k k' l l' x Hp Hp' E0 E1) as [?|(y & L & L' & _)]; [done|].
    eapply (IH k'); [lia| | |exact L|exact L']; by apply padded_take.
Qed.

Lemma length_leaves n hs : (length hs <= n)%nat -> length (leaves n hs) = n.
Proof. intros Hl. unfold leaves. rewrite length_app, length_fmap, length_replicate. lia. Qed.

Lemma height_enough (hs : list Hash) : hs <> [] -> (length hs <= 2 ^ Nat.log2_up (length hs))%nat.
Proof.
  intros Hne. destruct (decide (length hs = 1%nat)) as [->|Hn]; [cbn; lia|].
  apply (Nat.log2_up_spec (length hs)). destruct hs; [done|]. cbn in *. lia.
Qed.

Lemma leaves_inj n hs hs' : leaves n hs = leaves n hs' -> hs = hs'.
Proof.
  unfold leaves. generalize (n - length hs)%nat (n - length hs')%nat. revert hs'. induction hs as [|h hs IH]; intros [|h' hs'] m m' E0; cbn in E0.
  - done.
  - by destruct m.
  - by destruct m'.
  - injection E0 as -> E0. f_equal. by eapply IH.
Qed.

(** The root is there, and agrees with another one on the same leaves only. *)
Lemma calc_merkle_root_commits {E} hs hs' : Forall leaf hs -> Forall leaf hs' ->
  exists r r', calc_merkle_root (E := E) hs = Ok r /\ calc_merkle_root (E := E) hs' = Ok r' /\ (r = r' -> broken_tree \/ hs = hs').
Proof.
  assert (forall hs, hs <> [] -> Forall leaf hs -> let k := Nat.log2_up (length hs) in padded (leaves (2 ^ k) hs) /\
    exists r, calc_merkle_root (E := E) hs = Ok r /\ tree_root k (leaves (2 ^ k) hs) = Some r) as Hroot.
  { intros l Hne Hl k. assert (padded (leaves (2 ^ k) l)) as Hp by (by eexists _, _). split; [done|].
    rewrite calc_merkle_root_tree by done. fold k. destruct (tree_root k _) as [r|] eqn:Er; [by exists r|].
    apply tree_root_None in Er; [|by apply length_leaves, height_enough|done]. exfalso.
    destruct l; [done|]. unfold leaves in Er. destruct (2 ^ k)%nat eqn:E2; [pose proof (Nat.pow_nonzero 2 k); lia|]. done. }
  intros Hl Hl'. destruct (decide (hs = [])) as [->|Hne], (decide (hs' = [])) as [->|Hne'].
  - exists ZERO_HASH, ZERO_HASH. auto.
  - destruct (Hroot hs' Hne' Hl') as (Hp & r & Er & Et). exists ZERO_HASH, r. split_and!; [done..|]. intros <-. left. exact (root_not_zero _ _ Hp Et).
  - destruct (Hroot hs Hne Hl) as (Hp & r & Er & Et). exists r, ZERO_HASH. split_and!; [done..|]. intros ->. left. exact (root_not_zero _ _ Hp Et).
  - destruct (Hroot hs Hne Hl) as (Hp & r & Er & Et), (Hroot hs' Hne' Hl') as (Hp' & r' & Er' & Et').
    exists r, r'. split_and!; [done..|]. intros <-. destruct (Nat.lt_total (Nat.log2_up (length hs)) (Nat.log2_up (length hs'))) as [Hlt|[Heq|Hgt]].
    + left. exact (heights_differ _ _ _ _ _ Hlt Hp Hp' Et Et').
    + pose proof (height_enough hs' Hne') as Hh'. rewrite <-Heq in Hp', Et', Hh'.
      destruct (tree_root_inj _ _ _ r (length_leaves _ hs (height_enough hs Hne)) (length_leaves _ hs' Hh') Hp Hp' Et Et') as [?|E0]; [by left|].
      right. by apply leaves_inj in E0.
    + left. exact (heights_differ _ _ _ _ _ Hgt Hp' Hp Et' Et).
Qed.
End commitment.

Definition is_tx_hash (h : Hash) : Prop := exists a, h = finalize TransactionHash a.

Lemma is_tx_hash_range h : is_tx_hash h -> 0 <= h < 2 ^ 256.
Proof. intros [a ->]. apply finalize_range. Qed.

End tree.

