(* ===== verification/ScriptOps.v ===== *)
(** * Opcodes and scripts

    [crypto/txscript/src/opcodes]: the opcodes, their metadata, and the parsing
    of a script into opcodes ([parse_script] of [lib.rs]). *)
From S2P Require Import Prelude Bytes ScriptNum.

#[local] Open Scope Z_scope.

(** The opcodes of [opcode_list!], without the numbering of the families
    [OpData1 .. OpData75], [Op1 .. Op16] and of the unassigned codes. *)
Inductive Op :=
  | OpFalse | OpData (n : Z) | OpPushData1 | OpPushData2 | OpPushData4 | Op1Negate | OpReserved | OpNum (n : Z)
  | OpNop | OpVer | OpIf | OpNotIf | OpVerIf | OpVerNotIf | OpElse | OpEndIf | OpVerify | OpReturn
  | OpToAltStack | OpFromAltStack | Op2Drop | Op2Dup | Op3Dup | Op2Over | Op2Rot | Op2Swap | OpIfDup | OpDepth | OpDrop
  | OpDup | OpNip | OpOver | OpPick | OpRoll | OpRot | OpSwap | OpTuck
  | OpCat | OpSubStr | OpLeft | OpRight | OpSize | OpInvert | OpAnd | OpOr | OpXor | OpEqual | OpEqualVerify
  | OpReserved1 | OpReserved2
  | Op1Add | Op1Sub | Op2Mul | Op2Div | OpNegate | OpAbs | OpNot | Op0NotEqual | OpAdd | OpSub | OpMul | OpDiv | OpMod
  | OpLShift | OpRShift | OpBoolAnd | OpBoolOr | OpNumEqual | OpNumEqualVerify | OpNumNotEqual | OpLessThan
  | OpGreaterThan | OpLessThanOrEqual | OpGreaterThanOrEqual | OpMin | OpMax | OpWithin
  | OpUnknown (code : Z)
  | OpSHA256 | OpCheckMultiSigECDSA | OpBlake2b | OpCheckSigECDSA | OpCheckSig | OpCheckSigVerify | OpCheckMultiSig
  | OpCheckMultiSigVerify | OpCheckLockTimeVerify | OpCheckSequenceVerify
  | OpTxVersion | OpTxInputCount | OpTxOutputCount | OpTxLockTime | OpTxSubnetId | OpTxGas | OpTxPayload | OpTxInputIndex
  | OpOutpointTxId | OpOutpointIndex | OpTxInputScriptSig | OpTxInputSeq | OpTxInputAmount | OpTxInputSpk
  | OpTxInputBlockDaaScore | OpTxInputIsCoinbase | OpTxOutputAmount | OpTxOutputSpk.

(** The opcodes from [0x61] to [0xc3], in the order of their codes. *)
Definition ops_from_nop : list Op :=
  [OpNop; OpVer; OpIf; OpNotIf; OpVerIf; OpVerNotIf; OpElse; OpEndIf; OpVerify; OpReturn;
   OpToAltStack; OpFromAltStack; Op2Drop; Op2Dup; Op3Dup; Op2Over; Op2Rot; Op2Swap; OpIfDup; OpDepth; OpDrop;
   OpDup; OpNip; OpOver; OpPick; OpRoll; OpRot; OpSwap; OpTuck;
   OpCat; OpSubStr; OpLeft; OpRight; OpSize; OpInvert; OpAnd; OpOr; OpXor; OpEqual; OpEqualVerify;
   OpReserved1; OpReserved2;
   Op1Add; Op1Sub; Op2Mul; Op2Div; OpNegate; OpAbs; OpNot; Op0NotEqual; OpAdd; OpSub; OpMul; OpDiv; OpMod;
   OpLShift; OpRShift; OpBoolAnd; OpBoolOr; OpNumEqual; OpNumEqualVerify; OpNumNotEqual; OpLessThan;
   OpGreaterThan; OpLessThanOrEqual; OpGreaterThanOrEqual; OpMin; OpMax; OpWithin;
   OpUnknown 166; OpUnknown 167;
   OpSHA256; OpCheckMultiSigECDSA; OpBlake2b; OpCheckSigECDSA; OpCheckSig; OpCheckSigVerify; OpCheckMultiSig;
   OpCheckMultiSigVerify; OpCheckLockTimeVerify; OpCheckSequenceVerify;
   OpTxVersion; OpTxInputCount; OpTxOutputCount; OpTxLockTime; OpTxSubnetId; OpTxGas; OpTxPayload; OpTxInputIndex;
   OpOutpointTxId; OpOutpointIndex; OpTxInputScriptSig; OpTxInputSeq; OpTxInputAmount; OpTxInputSpk;
   OpTxInputBlockDaaScore; OpTxInputIsCoinbase; OpTxOutputAmount; OpTxOutputSpk].

Definition op_of_code (code : Z) : Op :=
  if code =? 0 then OpFalse
  else if code <=? 75 then OpData code
  else if code =? 76 then OpPushData1
  else if code =? 77 then OpPushData2
  else if code =? 78 then OpPushData4
  else if code =? 79 then Op1Negate
  else if code =? 80 then OpReserved
  else if code <=? 96 then OpNum (code - 80)
  else nth (Z.to_nat (code - 97)) ops_from_nop (OpUnknown code).

(** The codes that the code names. *)
Definition code_OpFalse : Z := 0.
Definition code_OpTrue : Z := 81.
Definition code_Op16 : Z := 96.
Definition code_Op1Negate : Z := 79.
Definition code_OpPushData1 : Z := 76.
Definition code_OpPushData2 : Z := 77.
Definition code_OpPushData4 : Z := 78.
Definition code_OpReturn : Z := 106.
Definition code_OpEqual : Z := 135.
Definition code_OpBlake2b : Z := 170.
Definition code_OpCheckSigECDSA : Z := 171.
Definition code_OpCheckSig : Z := 172.
Definition code_OpCheckSigVerify : Z := 173.
Definition code_OpCheckMultiSigECDSA : Z := 169.
Definition code_OpCheckMultiSig : Z := 174.
Definition code_OpCheckMultiSigVerify : Z := 175.
Definition code_OpCheckSequenceVerify : Z := 177.
Definition code_OpData32 : Z := 32.
Definition code_OpData33 : Z := 33.

Definition OP_SMALL_INT_MIN_VAL : Z := 1.
Definition OP_SMALL_INT_MAX_VAL : Z := 16.
Definition OP_DATA_MIN_VAL : Z := 1.
Definition OP_DATA_MAX_VAL : Z := 75.
Definition OP_1_NEGATE_VAL : Z := 129.
Definition NO_COST_OPCODE : Z := 96.
Definition MAX_STACK_SIZE : Z := 244.
Definition MAX_SCRIPTS_SIZE : Z := 10000.
Definition MAX_SCRIPT_ELEMENT_SIZE : Z := 520.
Definition MAX_OPS_PER_SCRIPT : Z := 201.
Definition MAX_PUB_KEYS_PER_MUTLTISIG : Z := 20.
Definition MAX_SCRIPT_PUBLIC_KEY_VERSION : Z := 0.

(** ** [OpCode] and its metadata *)

Record OpCode := mkOp { op_value : Z; op_data : list Z }.

Definition is_disabled (o : OpCode) : bool :=
  match op_of_code (op_value o) with
  | OpCat | OpSubStr | OpLeft | OpRight | OpInvert | OpAnd | OpOr | OpXor | Op2Mul | Op2Div | OpMul | OpDiv | OpMod
  | OpLShift | OpRShift => true
  | _ => false
  end.

Definition always_illegal (o : OpCode) : bool :=
  match op_of_code (op_value o) with OpVerIf | OpVerNotIf => true | _ => false end.

Definition is_push_opcode (o : OpCode) : bool := op_value o <=? NO_COST_OPCODE.
Definition is_conditional (o : OpCode) : bool := (99 <=? op_value o) && (op_value o <=? 104).

Definition check_minimal_data_push (o : OpCode) : script_result () :=
  let data_len := zlen (op_data o) in
  let opcode := op_value o in
  let minimal (b : bool) : script_result () := if b then Ok () else Err NotMinimalData in
  if data_len =? 0 then minimal (opcode =? code_OpFalse)
  else
    let d0 := nth 0 (op_data o) 0 in
    if (data_len =? 1) && (OP_SMALL_INT_MIN_VAL <=? d0) && (d0 <=? OP_SMALL_INT_MAX_VAL) then
      minimal (opcode =? code_OpTrue + d0 - 1)
    else if (data_len =? 1) && (d0 =? OP_1_NEGATE_VAL) then minimal (opcode =? code_Op1Negate)
    else if data_len <=? OP_DATA_MAX_VAL then minimal (opcode =? data_len)
    else if data_len <=? 255 then minimal (opcode =? code_OpPushData1)
    else if (data_len <? 65535) && negb (opcode =? code_OpPushData2) then Err NotMinimalData
    else Ok ().

(** [to_small_int]. *)
Definition to_small_int {E} (o : OpCode) : outcome E Z :=
  let value := op_value o in
  if value =? code_OpFalse then Ok 0
  else
    _ ← assert ((code_OpTrue <=? value) && (value <? code_Op16));
    Ok (value - (code_OpTrue - 1)).

(** ** Parsing *)

(** [opcode_serde!] with a fixed length: [n] bytes of data. *)
Definition deserialize_fixed (code : Z) (n : nat) (it : list Z) : script_result OpCode * list Z :=
  let data := take n it in
  (if zlen data =? Z.of_nat n then Ok (mkOp code data) else Err (MalformedPush (Z.of_nat n) (zlen data)), drop n it).

(** [opcode_serde!] with a length of [k] bytes before the data. *)
Definition deserialize_var (code : Z) (k : nat) (it : list Z) : script_result OpCode * list Z :=
  let bytes := take k it in
  let it := drop k it in
  if zlen bytes =? Z.of_nat k then
    let length := of_le_bytes bytes in
    let data := take (Z.to_nat length) it in
    (if zlen data =? length then Ok (mkOp code data) else Err (MalformedPush length (zlen data)), drop (Z.to_nat length) it)
  else (Err (MalformedPushSize bytes), it).

Definition deserialize_next_opcode (code : Z) (it : list Z) : script_result OpCode * list Z :=
  match op_of_code code with
  | OpData n => deserialize_fixed code (Z.to_nat n) it
  | OpPushData1 => deserialize_var code 1 it
  | OpPushData2 => deserialize_var code 2 it
  | OpPushData4 => deserialize_var code 4 it
  | _ => deserialize_fixed code 0 it
  end.

(** Every opcode takes at least its own byte: [length script] rounds are
    enough. *)
Fixpoint parse_loop (n : nat) (it : list Z) : list (script_result OpCode) :=
  match n, it with
  | S n, code :: it => let '(r, it) := deserialize_next_opcode code it in r :: parse_loop n it
  | _, _ => []
  end.

Definition parse_script (script : list Z) : list (script_result OpCode) := parse_loop (length script) script.

(** ** Static signature operation counts *)

Fixpoint count_sig_ops (prev : option OpCode) (ops : list (script_result OpCode)) (num_sigs : Z) : script_result Z :=
  match ops with
  | [] => Ok num_sigs
  | Ok op :: ops =>
      n ← (match op_of_code (op_value op) with
           | OpCheckSig | OpCheckSigVerify | OpCheckSigECDSA => add_ 64 num_sigs 1
           | OpCheckMultiSig | OpCheckMultiSigVerify | OpCheckMultiSigECDSA =>
               match prev with
               | None => add_ 64 num_sigs MAX_PUB_KEYS_PER_MUTLTISIG
               | Some p =>
                   if (code_OpTrue <=? op_value p) && (op_value p <=? code_Op16) then
                     k ← to_small_int p; add_ 64 num_sigs k
                   else add_ 64 num_sigs MAX_PUB_KEYS_PER_MUTLTISIG
               end
           | _ => Ok num_sigs
           end);
      count_sig_ops (Some op) ops n
  | _ :: _ => Ok num_sigs
  end.

Definition get_sig_op_count_by_opcodes (ops : list (script_result OpCode)) : script_result Z := count_sig_ops None ops 0.

(** [ScriptClass::is_pay_to_script_hash]. *)
Definition is_pay_to_script_hash (s : list Z) : bool :=
  (zlen s =? 35) && (nth 0 s 0 =? code_OpBlake2b) && (nth 1 s 0 =? code_OpData32) && (nth 34 s 0 =? code_OpEqual).

Definition get_sig_op_count_upper_bound (signature_script prev_script : list Z) : script_result Z :=
  if negb (is_pay_to_script_hash prev_script) then get_sig_op_count_by_opcodes (parse_script prev_script)
  else
    let ops := parse_script signature_script in
    match last ops with
    | Some (Ok p2sh) =>
        if forallb (fun op => match op with Ok o => is_push_opcode o | _ => false end) ops
        then get_sig_op_count_by_opcodes (parse_script (op_data p2sh)) else Ok 0
    | _ => Ok 0
    end.

Definition is_unspendable (script : list Z) : bool :=
  let ops := parse_script script in
  existsb (fun op => negb (is_ok op)) ops ||
  match ops with Ok o :: _ => op_value o =? code_OpReturn | _ => false end.
