(* ===== verification/Script.v ===== *)
(** * The script engine

    [TxScriptEngine] of [crypto/txscript/src/lib.rs], the execution of the
    opcodes ([opcodes/mod.rs]), the runtime counter of signature operations and
    the signature cache ([caches.rs]).  An operation takes the engine and
    returns the engine after it, or the error; the engine an error leaves
    behind is dropped, as its callers drop it.  The curve and the two hash
    functions, and the map behind the cache, are crates outside the repository:
    they are the classes [Crypto] and [IndexMap]. *)
From S2P Require Import Prelude Tx Bytes ScriptNum Hashing ScriptOps.

#[local] Open Scope Z_scope.

(** What the engine calls of [secp256k1], [sha2] and [blake2b_simd]. *)
Class Crypto := {
  XOnlyPublicKey : Type;
  SchnorrSignature : Type;
  EcdsaPublicKey : Type;
  EcdsaSignature : Type;
  XOnlyPublicKey_eq_dec :: EqDecision XOnlyPublicKey;
  SchnorrSignature_eq_dec :: EqDecision SchnorrSignature;
  EcdsaPublicKey_eq_dec :: EqDecision EcdsaPublicKey;
  EcdsaSignature_eq_dec :: EqDecision EcdsaSignature;
  XOnlyPublicKey_from_slice : list Z -> option XOnlyPublicKey;
  SchnorrSignature_from_slice : list Z -> option SchnorrSignature;
  EcdsaPublicKey_from_slice : list Z -> option EcdsaPublicKey;
  EcdsaSignature_from_compact : list Z -> option EcdsaSignature;
  schnorr_verify : SchnorrSignature -> Hash -> XOnlyPublicKey -> bool;
  ecdsa_verify : EcdsaSignature -> Hash -> EcdsaPublicKey -> bool;
  Sha256 : list Z -> list Z;
  Blake2b : list Z -> list Z
}.

(** What the signature cache calls of [indexmap]: a map with a number of
    entries, an insertion that overwrites, and a removal by position. *)
Class IndexMap (K V : Type) := {
  index_map : Type;
  im_empty : index_map;
  im_len : index_map -> Z;
  im_get : index_map -> K -> option V;
  im_insert : index_map -> K -> V -> index_map;
  im_swap_remove_index : index_map -> nat -> index_map;
  im_get_empty : forall k, im_get im_empty k = None;
  im_get_insert : forall m k v, im_get (im_insert m k v) k = Some v;
  im_get_insert_ne : forall m k v k', k' <> k -> im_get (im_insert m k v) k' = im_get m k';
  im_get_swap_remove_index : forall m i k v, im_get (im_swap_remove_index m i) k = Some v -> im_get m k = Some v
}.

Section engine.
Context `{Hashers, Crypto}.

Definition MAX_TX_IN_SEQUENCE_NUM : Z := 2 ^ 64 - 1.
Definition SEQUENCE_LOCK_TIME_DISABLED : Z := Z.shiftl 1 63.
Definition SEQUENCE_LOCK_TIME_MASK : Z := 4294967295.
Definition LOCK_TIME_THRESHOLD : Z := 500000000000.

(** ** The signature cache *)

Inductive Signature := SigSecp256k1 (s : SchnorrSignature) | SigEcdsa (s : EcdsaSignature).
Inductive PublicKey := PkSchnorr (k : XOnlyPublicKey) | PkEcdsa (k : EcdsaPublicKey).
Record SigCacheKey := mkSigKey { ck_signature : Signature; ck_pub_key : PublicKey; ck_message : Hash }.

#[export] Instance Signature_eq_dec : EqDecision Signature.
Proof. solve_decision. Defined.
#[export] Instance PublicKey_eq_dec : EqDecision PublicKey.
Proof. solve_decision. Defined.
#[export] Instance SigCacheKey_eq_dec : EqDecision SigCacheKey.
Proof. solve_decision. Defined.

(** The map and the indices that the random generator picks at the next
    evictions. *)
Context `{!IndexMap SigCacheKey bool}.

Record Cache := mkCache { cache_map : index_map; cache_size : Z; cache_rng : list nat }.

Definition Cache_new (size : Z) (rng : list nat) : Cache := mkCache im_empty size rng.

Definition cache_clear (c : Cache) : Cache := mkCache im_empty (cache_size c) (cache_rng c).

Definition cache_get (c : Cache) (key : SigCacheKey) : option bool := im_get (cache_map c) key.

Definition cache_insert (c : Cache) (key : SigCacheKey) (data : bool) : Cache :=
  if cache_size c =? 0 then c
  else if im_len (cache_map c) =? cache_size c then
    let i := (nth 0 (cache_rng c) 0%nat mod Z.to_nat (cache_size c))%nat in
    mkCache (im_insert (im_swap_remove_index (cache_map c) i) key data) (cache_size c) (tail (cache_rng c))
  else mkCache (im_insert (cache_map c) key data) (cache_size c) (cache_rng c).

(** ** The counter of executed signature operations *)

Record RuntimeSigOpCounter := mkCounter { sig_op_limit : Z; sig_op_remaining : Z }.

Definition RuntimeSigOpCounter_new (limit : Z) : RuntimeSigOpCounter := mkCounter limit limit.

Definition consume_sig_op (c : RuntimeSigOpCounter) : script_result RuntimeSigOpCounter :=
  if sig_op_remaining c <? 1 then Err (ExceededSigOpLimit (sig_op_limit c))
  else Ok (mkCounter (sig_op_limit c) (sig_op_remaining c - 1)).

(** ** The engine *)

Inductive OpCond := CondFalse | CondTrue | CondSkip.

Definition negate (c : OpCond) : OpCond :=
  match c with CondTrue => CondFalse | CondFalse => CondTrue | CondSkip => CondSkip end.

Inductive ScriptSource :=
  | TxInput (tx : PopulatedTransaction) (input : TransactionInput) (idx : nat) (utxo_entry : UtxoEntry) (is_p2sh : bool)
  | StandAloneScripts (scripts : list (list Z)).

Record TxScriptEngine := mkEngine {
  dstack : Stack;
  astack : Stack;
  script_source : ScriptSource;
  reused_values : SigHashReusedValues;
  sig_cache : Cache;
  cond_stack : list OpCond;
  num_ops : Z;
  runtime_sig_op_counter : RuntimeSigOpCounter
}.

Definition TxScriptEngine_new (reused : SigHashReusedValues) (cache : Cache) : TxScriptEngine :=
  mkEngine [] [] (StandAloneScripts []) reused cache [] 0 (RuntimeSigOpCounter_new 255).

Definition from_transaction_input (tx : PopulatedTransaction) (input : TransactionInput) (input_idx : nat)
    (utxo_entry : UtxoEntry) (reused : SigHashReusedValues) (cache : Cache) : script_result TxScriptEngine :=
  let is_p2sh := is_pay_to_script_hash (spk_script (ue_spk utxo_entry)) in
  _ ← assert (input_idx <? length (tx_inputs (ptx_tx tx)))%nat;
  Ok (mkEngine [] [] (TxInput tx input input_idx utxo_entry is_p2sh) reused cache [] 0
        (RuntimeSigOpCounter_new (sig_op_count input))).

Definition from_script (script : list Z) (reused : SigHashReusedValues) (cache : Cache) : TxScriptEngine :=
  mkEngine [] [] (StandAloneScripts [script]) reused cache [] 0 (RuntimeSigOpCounter_new 255).

Definition set_dstack (s : Stack) (vm : TxScriptEngine) : TxScriptEngine :=
  mkEngine s (astack vm) (script_source vm) (reused_values vm) (sig_cache vm) (cond_stack vm) (num_ops vm)
    (runtime_sig_op_counter vm).
Definition set_astack (s : Stack) (vm : TxScriptEngine) : TxScriptEngine :=
  mkEngine (dstack vm) s (script_source vm) (reused_values vm) (sig_cache vm) (cond_stack vm) (num_ops vm)
    (runtime_sig_op_counter vm).
Definition set_cond_stack (c : list OpCond) (vm : TxScriptEngine) : TxScriptEngine :=
  mkEngine (dstack vm) (astack vm) (script_source vm) (reused_values vm) (sig_cache vm) c (num_ops vm)
    (runtime_sig_op_counter vm).
Definition set_num_ops (n : Z) (vm : TxScriptEngine) : TxScriptEngine :=
  mkEngine (dstack vm) (astack vm) (script_source vm) (reused_values vm) (sig_cache vm) (cond_stack vm) n
    (runtime_sig_op_counter vm).
Definition set_counter (c : RuntimeSigOpCounter) (vm : TxScriptEngine) : TxScriptEngine :=
  mkEngine (dstack vm) (astack vm) (script_source vm) (reused_values vm) (sig_cache vm) (cond_stack vm) (num_ops vm) c.
Definition set_caches (r : SigHashReusedValues) (c : Cache) (vm : TxScriptEngine) : TxScriptEngine :=
  mkEngine (dstack vm) (astack vm) (script_source vm) r c (cond_stack vm) (num_ops vm) (runtime_sig_op_counter vm).

Definition push (item : list Z) (vm : TxScriptEngine) : TxScriptEngine := set_dstack (dstack vm ++ [item]) vm.
Definition push_bool (b : bool) (vm : TxScriptEngine) : TxScriptEngine := push (serialize_bool b) vm.

Definition is_executing (vm : TxScriptEngine) : bool :=
  match last (cond_stack vm) with None | Some CondTrue => true | _ => false end.

Definition push_number (number : Z) (vm : TxScriptEngine) : script_result TxScriptEngine :=
  bytes ← serialize_num64 number;
  Ok (push bytes vm).

(** ** Signature checks *)

Definition check_pub_key_encoding (pub_key : list Z) : script_result () :=
  if zlen pub_key =? 32 then Ok () else Err PubKeyFormat.
Definition check_pub_key_encoding_ecdsa (pub_key : list Z) : script_result () :=
  if zlen pub_key =? 33 then Ok () else Err PubKeyFormat.

(** The lookup in the signature cache, or [verify] and the insertion. *)
Definition cached_verify (key : SigCacheKey) (verify : bool) (c : Cache) : bool * Cache :=
  match cache_get c key with
  | Some valid => (valid, c)
  | None => (verify, cache_insert c key verify)
  end.

Definition check_schnorr_signature (hash_type : Z) (key sig : list Z) (vm : TxScriptEngine)
    : script_result (bool * TxScriptEngine) :=
  counter ← consume_sig_op (runtime_sig_op_counter vm);
  let vm := set_counter counter vm in
  match script_source vm with
  | TxInput tx _ idx _ _ =>
      if negb (zlen sig =? 64) then Err (SigLength (zlen sig))
      else
        _ ← check_pub_key_encoding key;
        pk ← ok_or InvalidSignature (XOnlyPublicKey_from_slice key);
        sig ← ok_or InvalidSignature (SchnorrSignature_from_slice sig);
        '(msg, reused) ← calc_schnorr_signature_hash tx idx hash_type (reused_values vm);
        let '(valid, cache) :=
          cached_verify (mkSigKey (SigSecp256k1 sig) (PkSchnorr pk) msg) (schnorr_verify sig msg pk) (sig_cache vm) in
        Ok (valid, set_caches reused cache vm)
  | StandAloneScripts _ => Err NotATransactionInput
  end.

Definition check_ecdsa_signature (hash_type : Z) (key sig : list Z) (vm : TxScriptEngine)
    : script_result (bool * TxScriptEngine) :=
  counter ← consume_sig_op (runtime_sig_op_counter vm);
  let vm := set_counter counter vm in
  match script_source vm with
  | TxInput tx _ idx _ _ =>
      if negb (zlen sig =? 64) then Err (SigLength (zlen sig))
      else
        _ ← check_pub_key_encoding_ecdsa key;
        pk ← ok_or InvalidSignature (EcdsaPublicKey_from_slice key);
        sig ← ok_or InvalidSignature (EcdsaSignature_from_compact sig);
        '(msg, reused) ← calc_ecdsa_signature_hash tx idx hash_type (reused_values vm);
        let '(valid, cache) :=
          cached_verify (mkSigKey (SigEcdsa sig) (PkEcdsa pk) msg) (ecdsa_verify sig msg pk) (sig_cache vm) in
        Ok (valid, set_caches reused cache vm)
  | StandAloneScripts _ => Err NotATransactionInput
  end.

Definition check_signature (ecdsa : bool) (hash_type : Z) (key sig : list Z) (vm : TxScriptEngine)
    : script_result (bool * TxScriptEngine) :=
  if ecdsa then check_ecdsa_signature hash_type key sig vm else check_schnorr_signature hash_type key sig vm.

(** The inner loop: the keys after the one that verified, or [None] when too
    few keys are left for the [needed] signatures. *)
Fixpoint find_key (ecdsa : bool) (hash_type : Z) (sig : list Z) (needed : nat) (pub_key_iter : list (list Z))
    (vm : TxScriptEngine) : script_result (option (list (list Z)) * TxScriptEngine) :=
  if (length pub_key_iter <? needed)%nat then Ok (None, vm)
  else
    match pub_key_iter with
    | [] => Panic
    | pub_key :: pub_key_iter =>
        '(valid, vm) ← check_signature ecdsa hash_type pub_key sig vm;
        if (valid : bool) then Ok (Some pub_key_iter, vm) else find_key ecdsa hash_type sig needed pub_key_iter vm
    end.

(** The outer loop; the answer is [failed]. *)
Fixpoint match_signatures (ecdsa : bool) (signatures pub_key_iter : list (list Z)) (vm : TxScriptEngine)
    : script_result (bool * TxScriptEngine) :=
  match signatures with
  | [] => Ok (false, vm)
  | signature :: rest =>
      match last signature with
      | None => Ok (true, vm)
      | Some typ =>
          hash_type ← ok_or (InvalidSigHashType typ) (SigHashType_from_u8 typ);
          '(found, vm) ← find_key ecdsa hash_type (removelast signature) (length signatures) pub_key_iter vm;
          match found with
          | Some pub_key_iter => match_signatures ecdsa rest pub_key_iter vm
          | None => Ok (true, vm)
          end
      end
  end.

(** [split_off(len - n)], with the check before it. *)
Definition split_off_last (n : Z) (s : Stack) : script_result (Stack * Stack) :=
  if n <=? zlen s then Ok (drop (length s - Z.to_nat n) s, take (length s - Z.to_nat n) s)
  else Err (InvalidStackOperation n (zlen s)).

Definition op_check_multisig_schnorr_or_ecdsa (ecdsa : bool) (vm : TxScriptEngine) : script_result TxScriptEngine :=
  '(nk, ds) ← pop_items deserialize_num32 1 (dstack vm);
  let num_keys := nth 0 nk 0 in
  if num_keys <? 0 then Err InvalidPubKeyCount
  else if MAX_PUB_KEYS_PER_MUTLTISIG <? num_keys then Err InvalidPubKeyCount
  else
    n ← checked_i 32 (num_ops vm + num_keys);
    let vm := set_num_ops n vm in
    if MAX_OPS_PER_SCRIPT <? num_ops vm then Err (TooManyOperations MAX_OPS_PER_SCRIPT)
    else
      '(pub_keys, ds) ← split_off_last num_keys ds;
      '(ns, ds) ← pop_items deserialize_num32 1 ds;
      let num_sigs := nth 0 ns 0 in
      if num_sigs <? 0 then Err InvalidSignatureCount
      else if num_keys <? num_sigs then Err InvalidSignatureCount
      else
        '(signatures, ds) ← split_off_last num_sigs ds;
        '(failed, vm) ← match_signatures ecdsa signatures pub_keys (set_dstack ds vm);
        if failed && existsb (fun sig => negb (zlen sig =? 0)) signatures then Err NullFail
        else Ok (push_bool (negb failed) vm).

(** ** The opcodes *)

Definition with_stack (r : script_result Stack) (vm : TxScriptEngine) : script_result TxScriptEngine :=
  s ← r;
  Ok (set_dstack s vm).

(** [OpIf] ([neg = false]) and [OpNotIf]. *)
Definition exec_if (neg : bool) (vm : TxScriptEngine) : script_result TxScriptEngine :=
  '(cond, vm) ←
    (if is_executing vm then
       match last (dstack vm) with
       | None => Err EmptyStack
       | Some cond_buf =>
           let vm := set_dstack (removelast (dstack vm)) vm in
           if 1 <? zlen cond_buf then Err InvalidState
           else
             match last cond_buf with
             | Some 1 => Ok (if neg then CondFalse else CondTrue, vm)
             | Some _ => Err InvalidState
             | None => Ok (if neg then CondTrue else CondFalse, vm)
             end
       end
     else Ok (CondSkip, vm));
  Ok (set_cond_stack (cond_stack vm ++ [cond]) vm).

(** [pop_items] of a boolean, then an error unless it is true. *)
Definition pop_verify (vm : TxScriptEngine) : script_result TxScriptEngine :=
  '(r, ds) ← pop_items deserialize_bool 1 (dstack vm);
  if nth 0 r false then Ok (set_dstack ds vm) else Err VerifyError.

Definition exec_control (op : Op) (vm : TxScriptEngine) : script_result TxScriptEngine :=
  match op with
  | OpNop => Ok vm
  | OpIf => exec_if false vm
  | OpNotIf => exec_if true vm
  | OpElse =>
      match last (cond_stack vm) with
      | Some cond => Ok (set_cond_stack (removelast (cond_stack vm) ++ [negate cond]) vm)
      | None => Err InvalidState
      end
  | OpEndIf =>
      match last (cond_stack vm) with
      | Some _ => Ok (set_cond_stack (removelast (cond_stack vm)) vm)
      | None => Err InvalidState
      end
  | OpVerify => pop_verify vm
  | OpReturn => Err EarlyReturn
  | _ => Err OpcodeReserved
  end.

Definition exec_stack (op : Op) (vm : TxScriptEngine) : script_result TxScriptEngine :=
  let s := dstack vm in
  match op with
  | OpToAltStack =>
      '(items, ds) ← pop_raw 1 s;
      Ok (set_astack (astack vm ++ items) (set_dstack ds vm))
  | OpFromAltStack =>
      match last (astack vm) with
      | Some item => Ok (push item (set_astack (removelast (astack vm)) vm))
      | None => Err EmptyStack
      end
  | Op2Drop => with_stack (drop_items 2 s) vm
  | Op2Dup => with_stack (dup_items 2 s) vm
  | Op3Dup => with_stack (dup_items 3 s) vm
  | Op2Over => with_stack (over_items 2 s) vm
  | Op2Rot => with_stack (rot_items 2 s) vm
  | Op2Swap => with_stack (swap_items 2 s) vm
  | OpIfDup =>
      items ← peek_raw 1 s;
      let result := nth 0 items [] in
      b ← deserialize_bool result;
      Ok (if (b : bool) then push result vm else vm)
  | OpDepth => push_number (zlen s) vm
  | OpDrop => with_stack (drop_items 1 s) vm
  | OpDup => with_stack (dup_items 1 s) vm
  | OpNip =>
      if 2 <=? zlen s then Ok (set_dstack (delete (length s - 2)%nat s) vm) else Err (InvalidStackOperation 2 (zlen s))
  | OpOver => with_stack (over_items 1 s) vm
  | OpPick =>
      '(l, s) ← pop_items deserialize_num32 1 s;
      let loc := nth 0 l 0 in
      if (loc <? 0) || (zlen s <=? loc) then Err InvalidState
      else
        item ← unwrap (s !! (length s - Z.to_nat loc - 1)%nat);
        Ok (set_dstack (s ++ [item]) vm)
  | OpRoll =>
      '(l, s) ← pop_items deserialize_num32 1 s;
      let loc := nth 0 l 0 in
      if (loc <? 0) || (zlen s <=? loc) then Err InvalidState
      else
        let i := (length s - Z.to_nat loc - 1)%nat in
        item ← unwrap (s !! i);
        Ok (set_dstack (delete i s ++ [item]) vm)
  | OpRot => with_stack (rot_items 1 s) vm
  | OpSwap => with_stack (swap_items 1 s) vm
  | OpTuck =>
      if 2 <=? zlen s then
        item ← unwrap (last s);
        let i := (length s - 2)%nat in
        Ok (set_dstack (take i s ++ item :: drop i s) vm)
      else Err (InvalidStackOperation 2 (zlen s))
  | _ => Err OpcodeReserved
  end.

(** The splice and bitwise opcodes that are not disabled. *)
Definition exec_splice (op : Op) (vm : TxScriptEngine) : script_result TxScriptEngine :=
  let s := dstack vm in
  match op with
  | OpSize =>
      match last s with
      | Some item => if in_ib 64 (zlen item) then push_number (zlen item) vm else Err NumberTooBig
      | None => Err (InvalidStackOperation 1 0)
      end
  | OpEqual =>
      if 2 <=? zlen s then
        let pair := drop (length s - 2) s in
        let vm := set_dstack (take (length s - 2) s) vm in
        Ok (push (if bool_decide (nth 0 pair [] = nth 1 pair []) then [1] else []) vm)
      else Err (InvalidStackOperation 2 (zlen s))
  | OpEqualVerify =>
      if 2 <=? zlen s then
        let pair := drop (length s - 2) s in
        let vm := set_dstack (take (length s - 2) s) vm in
        if bool_decide (nth 0 pair [] = nth 1 pair []) then Ok vm else Err VerifyError
      else Err (InvalidStackOperation 2 (zlen s))
  | OpReserved1 | OpReserved2 => Err OpcodeReserved
  | _ => Err OpcodeDisabled
  end.

(** [checked_add] and the like on [i64]. *)
Definition checked_num (x : Z) : script_result Z := if in_ib 64 x then Ok x else Err NumberTooBig.

Definition unary (f : Z -> script_result Z) (vm : TxScriptEngine) : script_result TxScriptEngine :=
  '(l, s) ← pop_items deserialize_num64 1 (dstack vm);
  r ← f (nth 0 l 0);
  push_number r (set_dstack s vm).

Definition binary (f : Z -> Z -> script_result Z) (vm : TxScriptEngine) : script_result TxScriptEngine :=
  '(l, s) ← pop_items deserialize_num64 2 (dstack vm);
  r ← f (nth 0 l 0) (nth 1 l 0);
  push_number r (set_dstack s vm).

Definition bool_num (b : bool) : script_result Z := Ok (Z.b2z b).

Definition exec_numeric (op : Op) (vm : TxScriptEngine) : script_result TxScriptEngine :=
  match op with
  | Op1Add => unary (fun value => checked_num (value + 1)) vm
  | Op1Sub => unary (fun value => checked_num (value - 1)) vm
  | OpNegate => unary (fun value => checked_num (- value)) vm
  | OpAbs => unary (fun value => checked_num (Z.abs value)) vm
  | OpNot => unary (fun m => bool_num (m =? 0)) vm
  | Op0NotEqual => unary (fun m => bool_num (negb (m =? 0))) vm
  | OpAdd => binary (fun a b => checked_num (a + b)) vm
  | OpSub => binary (fun a b => checked_num (a - b)) vm
  | OpBoolAnd => binary (fun a b => bool_num (negb (a =? 0) && negb (b =? 0))) vm
  | OpBoolOr => binary (fun a b => bool_num (negb (a =? 0) || negb (b =? 0))) vm
  | OpNumEqual => binary (fun a b => bool_num (a =? b)) vm
  | OpNumEqualVerify =>
      '(l, s) ← pop_items deserialize_num64 2 (dstack vm);
      if nth 0 l 0 =? nth 1 l 0 then Ok (set_dstack s vm) else Err VerifyError
  | OpNumNotEqual => binary (fun a b => bool_num (negb (a =? b))) vm
  | OpLessThan => binary (fun a b => bool_num (a <? b)) vm
  | OpGreaterThan => binary (fun a b => bool_num (b <? a)) vm
  | OpLessThanOrEqual => binary (fun a b => bool_num (a <=? b)) vm
  | OpGreaterThanOrEqual => binary (fun a b => bool_num (b <=? a)) vm
  | OpMin => binary (fun a b => Ok (Z.min a b)) vm
  | OpMax => binary (fun a b => Ok (Z.max a b)) vm
  | OpWithin =>
      '(l, s) ← pop_items deserialize_num64 3 (dstack vm);
      let x := nth 0 l 0 in
      r ← bool_num ((nth 1 l 0 <=? x) && (x <? nth 2 l 0));
      push_number r (set_dstack s vm)
  | _ => Err OpcodeDisabled
  end.

(** [OpCheckSig] and [OpCheckSigECDSA]. *)
Definition exec_check_sig (ecdsa : bool) (vm : TxScriptEngine) : script_result TxScriptEngine :=
  '(items, ds) ← pop_raw 2 (dstack vm);
  let sig := nth 0 items [] in
  let key := nth 1 items [] in
  let vm := set_dstack ds vm in
  match last sig with
  | Some typ =>
      hash_type ← ok_or (InvalidSigHashType typ) (SigHashType_from_u8 typ);
      '(valid, vm) ← check_signature ecdsa hash_type key (removelast sig) vm;
      Ok (push_bool valid vm)
  | None => Ok (push_bool false vm)
  end.

Definition exec_hash (hash : list Z -> list Z) (vm : TxScriptEngine) : script_result TxScriptEngine :=
  '(items, ds) ← pop_raw 1 (dstack vm);
  Ok (push (hash (nth 0 items [])) (set_dstack ds vm)).

Definition exec_crypto (op : Op) (vm : TxScriptEngine) : script_result TxScriptEngine :=
  match op with
  | OpSHA256 => exec_hash Sha256 vm
  | OpBlake2b => exec_hash Blake2b vm
  | OpCheckSigECDSA => exec_check_sig true vm
  | OpCheckSig => exec_check_sig false vm
  | OpCheckSigVerify => vm ← exec_check_sig false vm; pop_verify vm
  | OpCheckMultiSigECDSA => op_check_multisig_schnorr_or_ecdsa true vm
  | OpCheckMultiSig => op_check_multisig_schnorr_or_ecdsa false vm
  | OpCheckMultiSigVerify => vm ← op_check_multisig_schnorr_or_ecdsa false vm; pop_verify vm
  | _ => Err InvalidOpcode
  end.

(** [resize(8, 0)] of at most 8 bytes and [u64::from_le_bytes]. *)
Definition resize_u64 (bytes : list Z) : script_result Z :=
  if 8 <? zlen bytes then Err NumberTooBig else Ok (of_le_bytes (bytes ++ replicate (8 - length bytes) 0)).

Definition exec_check_lock_time_verify (vm : TxScriptEngine) : script_result TxScriptEngine :=
  match script_source vm with
  | TxInput tx input _ _ _ =>
      '(items, ds) ← pop_raw 1 (dstack vm);
      stack_lock_time ← resize_u64 (nth 0 items []);
      let tx_lock_time := lock_time (ptx_tx tx) in
      if negb (((tx_lock_time <? LOCK_TIME_THRESHOLD) && (stack_lock_time <? LOCK_TIME_THRESHOLD)) ||
               ((LOCK_TIME_THRESHOLD <=? tx_lock_time) && (LOCK_TIME_THRESHOLD <=? stack_lock_time)))
      then Err UnsatisfiedLockTime
      else if tx_lock_time <? stack_lock_time then Err UnsatisfiedLockTime
      else if sequence input =? MAX_TX_IN_SEQUENCE_NUM then Err UnsatisfiedLockTime
      else Ok (set_dstack ds vm)
  | StandAloneScripts _ => Err InvalidSource
  end.

Definition exec_check_sequence_verify (vm : TxScriptEngine) : script_result TxScriptEngine :=
  match script_source vm with
  | TxInput tx input _ _ _ =>
      '(items, ds) ← pop_raw 1 (dstack vm);
      stack_sequence ← resize_u64 (nth 0 items []);
      if negb (Z.land stack_sequence SEQUENCE_LOCK_TIME_DISABLED =? 0) then Ok (set_dstack ds vm)
      else if negb (Z.land (sequence input) SEQUENCE_LOCK_TIME_DISABLED =? 0) then Err UnsatisfiedLockTime
      else if Z.land (sequence input) SEQUENCE_LOCK_TIME_MASK <? Z.land stack_sequence SEQUENCE_LOCK_TIME_MASK
      then Err UnsatisfiedLockTime
      else Ok (set_dstack ds vm)
  | StandAloneScripts _ => Err InvalidSource
  end.

(** [SpkEncoding::to_bytes]: the version in big-endian order, then the script. *)
Definition spk_to_bytes (spk : ScriptPublicKey) : list Z := rev (le_bytes 2 (spk_version spk)) ++ spk_script spk.

(** [usize::try_from(idx).ok().and_then(|idx| l.get(idx))]. *)
Definition get_i32 {A} (l : list A) (idx : Z) : option A := if idx <? 0 then None else l !! Z.to_nat idx.

(** The opcodes about the whole transaction. *)
Definition push_tx_number (f : PopulatedTransaction -> nat -> Z) (vm : TxScriptEngine) : script_result TxScriptEngine :=
  match script_source vm with
  | TxInput tx _ idx _ _ => push_number (f tx idx) vm
  | StandAloneScripts _ => Err InvalidSource
  end.

(** The opcodes about an input or an output, whose index is on the stack. *)
Definition with_popped_index (f : PopulatedTransaction -> Z -> TxScriptEngine -> script_result TxScriptEngine)
    (vm : TxScriptEngine) : script_result TxScriptEngine :=
  match script_source vm with
  | TxInput tx _ _ _ _ =>
      '(l, s) ← pop_items deserialize_num32 1 (dstack vm);
      f tx (nth 0 l 0) (set_dstack s vm)
  | StandAloneScripts _ => Err InvalidSource
  end.

Definition exec_tx_input_amount (tx : PopulatedTransaction) (idx : Z) (vm : TxScriptEngine) :=
  utxo ← ok_or (InvalidInputIndex idx (zlen (tx_inputs (ptx_tx tx)))) (get_i32 (entries tx) idx);
  n ← checked_num (amount utxo);
  push_number n vm.

Definition exec_tx_input_spk (tx : PopulatedTransaction) (idx : Z) (vm : TxScriptEngine) :=
  utxo ← ok_or (InvalidInputIndex idx (zlen (tx_inputs (ptx_tx tx)))) (get_i32 (entries tx) idx);
  Ok (push (spk_to_bytes (ue_spk utxo)) vm).

(** The bound that the error reports is the number of inputs. *)
Definition exec_tx_output_amount (tx : PopulatedTransaction) (idx : Z) (vm : TxScriptEngine) :=
  output ← ok_or (InvalidOutputIndex idx (zlen (tx_inputs (ptx_tx tx)))) (get_i32 (tx_outputs (ptx_tx tx)) idx);
  n ← checked_num (out_value output);
  push_number n vm.

Definition exec_tx_output_spk (tx : PopulatedTransaction) (idx : Z) (vm : TxScriptEngine) :=
  output ← ok_or (InvalidOutputIndex idx (zlen (tx_inputs (ptx_tx tx)))) (get_i32 (tx_outputs (ptx_tx tx)) idx);
  Ok (push (spk_to_bytes (out_spk output)) vm).

Definition exec_introspection (op : Op) (vm : TxScriptEngine) : script_result TxScriptEngine :=
  match op with
  | OpTxInputCount => push_tx_number (fun tx _ => zlen (tx_inputs (ptx_tx tx))) vm
  | OpTxOutputCount => push_tx_number (fun tx _ => zlen (tx_outputs (ptx_tx tx))) vm
  | OpTxInputIndex => push_tx_number (fun _ idx => Z.of_nat idx) vm
  | OpTxInputAmount => with_popped_index exec_tx_input_amount vm
  | OpTxInputSpk => with_popped_index exec_tx_input_spk vm
  | OpTxOutputAmount => with_popped_index exec_tx_output_amount vm
  | OpTxOutputSpk => with_popped_index exec_tx_output_spk vm
  | _ => Err OpcodeReserved
  end.

(** [OpCodeExecution::execute] of every opcode. *)
Definition op_execute (o : OpCode) (vm : TxScriptEngine) : script_result TxScriptEngine :=
  match op_of_code (op_value o) with
  | OpFalse => Ok (push [] vm)
  | OpData _ | OpPushData1 | OpPushData2 | OpPushData4 => Ok (push (op_data o) vm)
  | Op1Negate => push_number (-1) vm
  | OpNum n => push_number n vm
  | OpReserved => Err OpcodeReserved
  | (OpNop | OpVer | OpIf | OpNotIf | OpVerIf | OpVerNotIf | OpElse | OpEndIf | OpVerify | OpReturn) as op =>
      exec_control op vm
  | (OpToAltStack | OpFromAltStack | Op2Drop | Op2Dup | Op3Dup | Op2Over | Op2Rot | Op2Swap | OpIfDup | OpDepth | OpDrop
    | OpDup | OpNip | OpOver | OpPick | OpRoll | OpRot | OpSwap | OpTuck) as op => exec_stack op vm
  | (OpCat | OpSubStr | OpLeft | OpRight | OpSize | OpInvert | OpAnd | OpOr | OpXor | OpEqual | OpEqualVerify
    | OpReserved1 | OpReserved2) as op => exec_splice op vm
  | (Op1Add | Op1Sub | Op2Mul | Op2Div | OpNegate | OpAbs | OpNot | Op0NotEqual | OpAdd | OpSub | OpMul | OpDiv | OpMod
    | OpLShift | OpRShift | OpBoolAnd | OpBoolOr | OpNumEqual | OpNumEqualVerify | OpNumNotEqual | OpLessThan
    | OpGreaterThan | OpLessThanOrEqual | OpGreaterThanOrEqual | OpMin | OpMax | OpWithin) as op => exec_numeric op vm
  | OpCheckLockTimeVerify => exec_check_lock_time_verify vm
  | OpCheckSequenceVerify => exec_check_sequence_verify vm
  | (OpSHA256 | OpCheckMultiSigECDSA | OpBlake2b | OpCheckSigECDSA | OpCheckSig | OpCheckSigVerify | OpCheckMultiSig
    | OpCheckMultiSigVerify) as op => exec_crypto op vm
  | OpUnknown _ => Err InvalidOpcode
  | op => exec_introspection op vm
  end.

(** ** Running scripts *)

Definition execute_opcode (o : OpCode) (vm : TxScriptEngine) : script_result TxScriptEngine :=
  vm ← (if negb (is_push_opcode o) then
          n ← checked_i 32 (num_ops vm + 1);
          let vm := set_num_ops n vm in
          if MAX_OPS_PER_SCRIPT <? num_ops vm then Err (TooManyOperations MAX_OPS_PER_SCRIPT) else Ok vm
        else if MAX_SCRIPT_ELEMENT_SIZE <? zlen (op_data o) then
          Err (ElementTooBig (zlen (op_data o)) MAX_SCRIPT_ELEMENT_SIZE)
        else Ok vm);
  if is_executing vm || is_conditional o then
    _ ← (if (0 <? op_value o) && (op_value o <=? 78) then check_minimal_data_push o else Ok ());
    op_execute o vm
  else Ok vm.

(** The body of [try_for_each] in [execute_script]. *)
Definition script_step (verify_only_push : bool) (vm : TxScriptEngine) (opcode : script_result OpCode)
    : script_result TxScriptEngine :=
  opcode ← opcode;
  if is_disabled opcode then Err OpcodeDisabled
  else if always_illegal opcode then Err OpcodeReserved
  else if verify_only_push && negb (is_push_opcode opcode) then Err SignatureScriptNotPushOnly
  else
    vm ← execute_opcode opcode vm;
    let combined_size := zlen (astack vm) + zlen (dstack vm) in
    if MAX_STACK_SIZE <? combined_size then Err (StackSizeExceeded combined_size MAX_STACK_SIZE) else Ok vm.

Definition execute_script (script : list Z) (verify_only_push : bool) (vm : TxScriptEngine)
    : script_result TxScriptEngine :=
  vm ← foldM (script_step verify_only_push) vm (parse_script script);
  if negb (zlen (cond_stack vm) =? 0) then Err ErrUnbalancedConditional
  else Ok (set_num_ops 0 (set_astack [] vm)).

Definition check_error_condition (final_script : bool) (vm : TxScriptEngine) : script_result TxScriptEngine :=
  _ ← (if final_script then
         if 1 <? zlen (dstack vm) then Err (CleanStack (zlen (dstack vm) - 1))
         else if zlen (dstack vm) =? 0 then Err EmptyStack else Ok ()
       else Ok ());
  '(v, ds) ← pop_items deserialize_bool 1 (dstack vm);
  if nth 0 v false then Ok (set_dstack ds vm) else Err EvalFalse.

(** One script of the loop of [execute], with its position. *)
Definition execute_indexed (is_p2sh : bool) (st : TxScriptEngine * option Stack) (p : nat * list Z)
    : script_result (TxScriptEngine * option Stack) :=
  let '(vm, saved_stack) := st in
  let '(idx, s) := p in
  let verify_only_push := (idx =? 0)%nat && match script_source vm with TxInput _ _ _ _ _ => true | _ => false end in
  let saved_stack := if is_p2sh && (idx =? 1)%nat then Some (dstack vm) else saved_stack in
  vm ← execute_script s verify_only_push vm;
  Ok (vm, saved_stack).

Definition nonempty (s : list Z) : bool := negb (zlen s =? 0).

Definition execute_scripts (scripts : list (list Z)) (is_p2sh : bool) (vm : TxScriptEngine)
    : script_result TxScriptEngine :=
  if zlen scripts =? 0 then Err NoScripts
  else if forallb (fun e => negb (nonempty e)) scripts then Err EvalFalse
  else
    match List.find (fun e => MAX_SCRIPTS_SIZE <? zlen e) scripts with
    | Some s => Err (ScriptSize (zlen s) MAX_SCRIPTS_SIZE)
    | None =>
        let indexed := List.filter (fun p => nonempty p.2) (imap (fun i s => (i, s)) scripts) in
        '(vm, saved_stack) ← foldM (execute_indexed is_p2sh) (vm, None) indexed;
        vm ← (if is_p2sh then
                vm ← check_error_condition false vm;
                saved ← ok_or EmptyStack saved_stack;
                script ← ok_or EmptyStack (last saved);
                execute_script script false (set_dstack (removelast saved) vm)
              else Ok vm);
        check_error_condition true vm
    end.

Definition execute (vm : TxScriptEngine) : script_result TxScriptEngine :=
  match script_source vm with
  | TxInput _ input _ utxo_entry is_p2sh =>
      if MAX_SCRIPT_PUBLIC_KEY_VERSION <? spk_version (ue_spk utxo_entry) then Ok vm
      else execute_scripts [signature_script input; spk_script (ue_spk utxo_entry)] is_p2sh vm
  | StandAloneScripts scripts => execute_scripts scripts false vm
  end.

Definition used_sig_ops (vm : TxScriptEngine) : script_result Z :=
  let c := runtime_sig_op_counter vm in
  sub_ 8 (sig_op_limit c) (sig_op_remaining c).

Definition get_sig_op_count (tx : PopulatedTransaction) (input_idx : nat) : script_result Z :=
  input ← unwrap (tx_inputs (ptx_tx tx) !! input_idx);
  entry ← ok_or (InvalidInputIndex (Z.of_nat input_idx) (zlen (tx_inputs (ptx_tx tx)))) (entries tx !! input_idx);
  vm ← from_transaction_input tx input input_idx entry SigHashReusedValues_new (Cache_new 0 []);
  vm ← execute vm;
  used_sig_ops vm.
End engine.
