(* ===== verification/ScriptSafe.v ===== *)
(** * The script engine is safe

    No script makes the engine panic, and every state that it reaches respects
    the limits on the stacks, the operations and the signature operations. *)
From S2P Require Import Prelude Tx Bytes ScriptNum Hashing ScriptOps Script.

#[local] Open Scope Z_scope.

(** [safe P c]: [c] returns an error, or a value with [P]. *)
Definition safe {E A} (P : A -> Prop) (c : outcome E A) : Prop :=
  match c with Ok a => P a | Err _ => True | Panic | OutOfFuel => False end.

Lemma safe_bind {E A B} (Q : A -> Prop) (P : B -> Prop) (c : outcome E A) (f : A -> outcome E B) :
  safe Q c -> (forall a, Q a -> safe P (f a)) -> safe P (c ≫= f).
Proof. destruct c; cbn; auto. Qed.

Lemma safe_weaken {E A} (P Q : A -> Prop) (c : outcome E A) : safe P c -> (forall a, P a -> Q a) -> safe Q c.
Proof. destruct c; cbn; auto. Qed.

Lemma safe_ok_or {E A} (e : E) (o : option A) : safe (fun a => o = Some a) (ok_or e o).
Proof. by destruct o. Qed.

Lemma safe_foldM {E S A} (I : S -> Prop) (f : S -> A -> outcome E S) l s :
  I s -> (forall s a, a ∈ l -> I s -> safe I (f s a)) -> safe I (foldM f s l).
Proof.
  revert s. induction l as [|a l IH]; intros s Hs Hf; cbn [foldM]; [done|].
  apply (safe_bind I); [by apply Hf; [left|]|]. intros s' Hs'. apply IH; [done|]. intros. apply Hf; [by right|done].
Qed.

(** The bits of a sequence number. *)
Lemma land_disabled x : Z.land x SEQUENCE_LOCK_TIME_DISABLED = if Z.testbit x 63 then SEQUENCE_LOCK_TIME_DISABLED else 0.
Proof.
  unfold SEQUENCE_LOCK_TIME_DISABLED. apply Z.bits_inj'. intros n Hn. rewrite Z.land_spec, Z.shiftl_1_l.
  destruct (Z.testbit x 63) eqn:E; rewrite ?Z.bits_0, Z.pow2_bits_eqb by lia; destruct (Z.eqb_spec 63 n) as [<-|]; by rewrite ?E, ?andb_false_r.
Qed.

Lemma land_mask x : Z.land x SEQUENCE_LOCK_TIME_MASK = x mod 2 ^ 32.
Proof. change SEQUENCE_LOCK_TIME_MASK with (Z.ones 32). apply Z.land_ones. lia. Qed.

(** ** Stacks of byte strings *)

Notation bytes := (Forall is_byte).

Lemma last_bytes (P : list Z -> Prop) (s : Stack) x : Forall P s -> last s = Some x -> P x /\ Forall P (removelast s).
Proof. intros Hs Hx. apply snoc_inv in Hx. rewrite Hx in Hs. by apply Forall_app in Hs as [? [? _]%Forall_cons]. Qed.

Lemma removelast_Forall {A} (P : A -> Prop) (l : list A) : Forall P l -> Forall P (removelast l).
Proof. destruct (snoc_cases l) as [->|(l' & x & ->)]; [done|]. rewrite removelast_last. by intros [? _]%Forall_app. Qed.

Lemma nth_Forall {A} (P : A -> Prop) n l d : Forall P l -> P d -> P (nth n l d).
Proof. intros Hl Hd. revert n. induction Hl; intros [|n]; cbn; auto. Qed.

Lemma pop_raw_safe n s : Forall bytes s ->
  safe (fun p => length p.1 = n /\ Forall bytes p.1 /\ Forall bytes p.2 /\ s = p.2 ++ p.1) (pop_raw n s).
Proof.
  intros Hs. unfold pop_raw. destruct (Nat.ltb_spec (length s) n); cbn; [done|].
  rewrite length_drop, take_drop. split_and!; [lia|by apply Forall_drop|by apply Forall_take|done].
Qed.

Lemma num64_safe v : bytes v -> safe (in_i 64) (deserialize_num64 v).
Proof.
  intros Hv. unfold deserialize_num64, deserialize_sized. destruct (_ <? _); [done|].
  destruct (deserialize_number v Hv) as [(x & _ & _ & -> & ?)|[-> _]]; [|done]. cbn. unfold in_i. lia.
Qed.

Lemma num32_safe v : bytes v -> safe (in_i 32) (deserialize_num32 v).
Proof.
  intros Hv. destruct (deserialize_num32_ok v Hv) as [(x & -> & _ & Hx)|[e ->]]; [|done]. cbn. unfold in_i. cbn. lia.
Qed.

Lemma bool_safe v : safe (fun _ => True) (deserialize_bool v).
Proof. unfold deserialize_bool. by destruct (last v). Qed.

Lemma mapM_safe {T} (Q : T -> Prop) (f : list Z -> script_result T) s :
  (forall v, bytes v -> safe Q (f v)) -> Forall bytes s -> safe (fun l => Forall Q l /\ length l = length s) (mapM' f s).
Proof.
  intros Hf. induction 1 as [|v s Hv _ IH]; cbn [mapM']; [done|]. eapply safe_bind; [by apply Hf|]. intros a Ha.
  eapply safe_bind; [apply IH|]. intros l [Hl El]. cbn. split; [by constructor|congruence].
Qed.

Lemma pop_items_safe {T} (Q : T -> Prop) (f : list Z -> script_result T) n s :
  (forall v, bytes v -> safe Q (f v)) -> Forall bytes s ->
  safe (fun p => Forall Q p.1 /\ length p.1 = n /\ Forall bytes p.2) (pop_items f n s).
Proof.
  intros Hf Hs. unfold pop_items. eapply safe_bind; [by apply pop_raw_safe|]. intros [items ds] (El & Hi & Hd & _). cbn in *.
  eapply safe_bind; [by apply mapM_safe|]. intros l [Hl El']. cbn. split_and!; [done|congruence|done].
Qed.

Create HintDb bytes.
#[export] Hint Resolve Forall_take Forall_drop Forall_app_2 Forall_delete removelast_Forall Forall_nil_2 : bytes.

Lemma Forall_singleton_2 {A} (P : A -> Prop) x : P x -> Forall P [x].
Proof. intros. by constructor. Qed.
#[export] Hint Resolve Forall_singleton_2 : bytes.

Ltac stack_op := intros; repeat case_match; cbn [safe]; auto 8 with bytes.

Lemma drop_items_safe n s : Forall bytes s -> safe (Forall bytes) (drop_items n s).
Proof. unfold drop_items. stack_op. Qed.
Lemma dup_items_safe n s : Forall bytes s -> safe (Forall bytes) (dup_items n s).
Proof. unfold dup_items. stack_op. Qed.
Lemma over_items_safe n s : Forall bytes s -> safe (Forall bytes) (over_items n s).
Proof. unfold over_items. stack_op. Qed.
Lemma raise_items_safe k n s : Forall bytes s -> safe (Forall bytes) (raise_items k n s).
Proof. unfold raise_items. stack_op. Qed.

Lemma split_off_last_safe n s : Forall bytes s ->
  safe (fun p => Forall bytes p.1 /\ Forall bytes p.2 /\ length p.1 = Z.to_nat n) (split_off_last n s).
Proof.
  intros Hs. unfold split_off_last. destruct (Z.leb_spec n (zlen s)); [|done]. cbn [safe fst snd]. unfold zlen in *.
  rewrite length_drop. split_and!; [auto with bytes..|lia].
Qed.

(** ** Engine states *)

Section safety.
Context `{Hashers, Crypto, !IndexMap SigCacheKey bool}.
(** The digests are byte strings. *)
Context (Sha256_bytes : forall l, bytes (Sha256 l)) (Blake2b_bytes : forall l, bytes (Blake2b l)).

Definition source_ok (src : ScriptSource) : Prop :=
  match src with
  | TxInput tx input idx entry _ =>
      length (tx_inputs (ptx_tx tx)) = length (entries tx) /\
      tx_inputs (ptx_tx tx) !! idx = Some input /\ entries tx !! idx = Some entry /\
      bytes (signature_script input) /\
      Forall (fun e => bytes (spk_script (ue_spk e)) /\ 0 <= amount e) (entries tx) /\
      Forall (fun o => bytes (spk_script (out_spk o)) /\ 0 <= out_value o) (tx_outputs (ptx_tx tx)) /\
      zlen (tx_inputs (ptx_tx tx)) < 2 ^ 63 /\ zlen (tx_outputs (ptx_tx tx)) < 2 ^ 63
  | StandAloneScripts scripts => Forall bytes scripts
  end.

(** The invariant of the engine between two opcodes; [vm_wf] lacks the bound of
    the stacks, which is checked after every opcode. *)
Record vm_wf (src : ScriptSource) (limit : Z) (vm : TxScriptEngine) : Prop := {
  wf_dstack : Forall bytes (dstack vm);
  wf_astack : Forall bytes (astack vm);
  wf_source : script_source vm = src;
  wf_num_ops : 0 <= num_ops vm <= MAX_OPS_PER_SCRIPT;
  wf_limit : sig_op_limit (runtime_sig_op_counter vm) = limit;
  wf_remaining : 0 <= sig_op_remaining (runtime_sig_op_counter vm) <= limit
}.

Definition stacks_bounded (vm : TxScriptEngine) : Prop := zlen (astack vm) + zlen (dstack vm) <= MAX_STACK_SIZE.

Section ops.
Context (src : ScriptSource) (limit : Z) (Hsrc : source_ok src).
#[local] Notation wf := (vm_wf src limit).

Lemma wf_set_dstack s vm : wf vm -> Forall bytes s -> wf (set_dstack s vm).
Proof. intros [] Hs. by constructor. Qed.
Lemma wf_set_astack s vm : wf vm -> Forall bytes s -> wf (set_astack s vm).
Proof. intros [] Hs. by constructor. Qed.
Lemma wf_set_cond_stack c vm : wf vm -> wf (set_cond_stack c vm).
Proof. intros []. by constructor. Qed.
Lemma wf_set_num_ops n vm : wf vm -> 0 <= n <= MAX_OPS_PER_SCRIPT -> wf (set_num_ops n vm).
Proof. intros [] ?. by constructor. Qed.
Lemma wf_set_caches r c vm : wf vm -> wf (set_caches r c vm).
Proof. intros []. by constructor. Qed.
Lemma wf_push v vm : wf vm -> bytes v -> wf (push v vm).
Proof. intros Hvm Hv. apply wf_set_dstack; [done|]. destruct Hvm. auto with bytes. Qed.
Lemma wf_push_bool b vm : wf vm -> wf (push_bool b vm).
Proof. intros Hvm. apply wf_push; [done|]. destruct b; [|constructor]. apply Forall_singleton_2. unfold is_byte. lia. Qed.

Lemma push_number_safe x vm : in_i 64 x -> wf vm -> safe wf (push_number x vm).
Proof.
  intros Hx Hvm. unfold push_number, serialize_num64, serialize_sized.
  destruct (serialize_number x) as (v & -> & Hv); [unfold in_i in Hx; cbn in Hx; lia|]. run. destruct (_ <? _); [done|].
  cbn. apply wf_push; [done|]. by eapply number_bytes_all.
Qed.

Lemma with_stack_safe r vm : safe (Forall bytes) r -> wf vm -> safe wf (with_stack r vm).
Proof. intros Hr Hvm. eapply safe_bind; [done|]. intros s Hs. by apply wf_set_dstack. Qed.

Lemma checked_i_safe {E} w x : in_i w x -> safe (fun y => y = x) (checked_i (E := E) w x).
Proof. intros Hx. by rewrite checked_i_ok. Qed.

Lemma checked_num_safe x : safe (in_i 64) (checked_num x).
Proof.
  unfold checked_num. destruct (in_ib 64 x) eqn:E; [|done]. cbn. unfold in_ib in E. unfold in_i.
  apply andb_prop in E as [?%Z.leb_le ?%Z.ltb_lt]. done.
Qed.

(** ** Signatures *)

Lemma consume_safe vm : wf vm ->
  safe (fun c => sig_op_limit c = limit /\ 0 <= sig_op_remaining c <= limit) (consume_sig_op (runtime_sig_op_counter vm)).
Proof. intros Hvm. unfold consume_sig_op. destruct (Z.ltb_spec (sig_op_remaining (runtime_sig_op_counter vm)) 1), Hvm; cbn; [done|lia]. Qed.

Lemma wf_set_counter c vm : wf vm -> sig_op_limit c = limit -> 0 <= sig_op_remaining c <= limit -> wf (set_counter c vm).
Proof. intros [] ? ?. by constructor. Qed.

Lemma sighash_safe {E} tx input idx entry p2sh ht r : src = TxInput tx input idx entry p2sh ->
  safe (fun _ => True) (calc_schnorr_signature_hash (E := E) tx idx ht r).
Proof using Hsrc.
  intros E0. pose proof Hsrc as Hs. rewrite E0 in Hs. destruct Hs as (_ & Hi & He & _). unfold calc_schnorr_signature_hash, populated_input. rewrite Hi, He. run.
  by repeat case_match.
Qed.

Lemma check_signature_safe ecdsa ht key sig vm : wf vm -> safe (fun p => wf p.2) (check_signature ecdsa ht key sig vm).
Proof using Hsrc.
  intros Hvm. destruct ecdsa; cbn [check_signature]; [unfold check_ecdsa_signature|unfold check_schnorr_signature].
  all: eapply safe_bind; [by apply consume_safe|]; intros c [Hc1 Hc2].
  all: assert (wf (set_counter c vm)) as Hvm' by by apply wf_set_counter.
  all: pose proof (wf_source _ _ _ Hvm') as Esrc; destruct (script_source (set_counter c vm)) as [tx input idx entry p2sh|] eqn:Es; [|done].
  all: destruct (negb _); [done|]; eapply (safe_bind (fun _ => True));
    [unfold check_pub_key_encoding, check_pub_key_encoding_ecdsa; by case_match|]; intros _ _.
  all: eapply safe_bind; [apply safe_ok_or|]; intros pk _; eapply safe_bind; [apply safe_ok_or|]; intros sg _.
  all: eapply (safe_bind (fun _ => True)).
  1: unfold calc_ecdsa_signature_hash; eapply safe_bind; [by eapply sighash_safe|]; by intros [].
  2: by eapply sighash_safe.
  all: intros [h r] _; case_match; cbn; by apply wf_set_caches.
Qed.

Lemma find_key_safe ecdsa ht sig needed keys vm : wf vm -> (1 <= needed)%nat ->
  safe (fun p => wf p.2) (find_key ecdsa ht sig needed keys vm).
Proof using Hsrc.
  intros Hvm Hn. revert vm Hvm. induction keys as [|k keys IH]; intros vm Hvm; cbn [find_key].
  - destruct (Nat.ltb_spec (length (@nil (list Z))) needed); [done|cbn in *; lia].
  - destruct (_ <? _)%nat; [done|]. eapply safe_bind; [by apply check_signature_safe|]. intros [[] vm'] Hvm'; [done|by apply IH].
Qed.

Lemma match_signatures_safe ecdsa sigs keys vm : wf vm -> safe (fun p => wf p.2) (match_signatures ecdsa sigs keys vm).
Proof using Hsrc.
  revert keys vm. induction sigs as [|sig sigs IH]; intros keys vm Hvm; cbn [match_signatures]; [done|].
  destruct (last sig); [|done]. eapply safe_bind; [apply safe_ok_or|]. intros ht _.
  eapply safe_bind; [apply find_key_safe; [done|cbn; lia]|]. intros [[keys'|] vm'] Hvm'; [by apply IH|done].
Qed.

(** [pop] of one number, as the head of the list. *)
Lemma pop_num32_safe vm : wf vm ->
  safe (fun p => in_i 32 (nth 0 p.1 0) /\ Forall bytes p.2) (pop_items deserialize_num32 1 (dstack vm)).
Proof.
  intros Hvm. eapply safe_weaken; [apply (pop_items_safe _ _ _ _ num32_safe), (wf_dstack _ _ _ Hvm)|].
  intros [l s] (Hl & _ & Hs). split; [|done]. apply nth_Forall; [done|]. unfold in_i. lia.
Qed.

Lemma multisig_safe ecdsa vm : wf vm -> safe wf (op_check_multisig_schnorr_or_ecdsa ecdsa vm).
Proof using Hsrc.
  intros Hvm. unfold op_check_multisig_schnorr_or_ecdsa. eapply safe_bind; [by apply pop_num32_safe|]. intros [nk ds] [Hk Hds]. cbn in Hk, Hds.
  destruct (Z.ltb_spec (nth 0 nk 0) 0), (Z.ltb_spec MAX_PUB_KEYS_PER_MUTLTISIG (nth 0 nk 0)); try done.
  pose proof (wf_num_ops _ _ _ Hvm). unfold MAX_PUB_KEYS_PER_MUTLTISIG, MAX_OPS_PER_SCRIPT in *.
  eapply safe_bind; [apply checked_i_safe; unfold in_i; cbn; lia|]. intros n ->. cbn [num_ops set_num_ops].
  destruct (Z.ltb_spec 201 (num_ops vm + nth 0 nk 0)); [done|].
  eapply safe_bind; [by apply split_off_last_safe|]. intros [keys ds'] (_ & Hds' & _). cbn in Hds'.
  eapply safe_bind; [apply (pop_items_safe _ _ _ _ num32_safe Hds')|]. intros [ns ds2] (_ & _ & Hds2). cbn in Hds2.
  destruct (_ <? _); [done|]. destruct (_ <? _); [done|].
  eapply safe_bind; [by apply split_off_last_safe|]. intros [sigs ds3] (_ & Hds3 & _). cbn in Hds3.
  eapply safe_bind; [apply match_signatures_safe, wf_set_dstack; [apply wf_set_num_ops; [done|unfold MAX_OPS_PER_SCRIPT; lia]|done]|].
  intros [failed vm'] Hvm'. case_match; [done|]. by apply wf_push_bool.
Qed.

(** ** The opcodes *)

Hint Resolve wf_set_dstack wf_set_astack wf_set_cond_stack wf_push wf_push_bool wf_dstack wf_astack wf_set_caches : bytes.

Lemma pop_verify_safe vm : wf vm -> safe wf (pop_verify vm).
Proof.
  intros Hvm. unfold pop_verify. eapply safe_bind.
  - apply (pop_items_safe _ _ _ _ (fun v _ => bool_safe v)), (wf_dstack _ _ _ Hvm).
  - intros [r ds] (_ & _ & Hds). case_match; [|done]. by apply wf_set_dstack.
Qed.

Lemma exec_if_safe neg vm : wf vm -> safe wf (exec_if neg vm).
Proof.
  intros Hvm. unfold exec_if. apply (safe_bind (fun p => wf p.2)); [|intros [c vm'] Hvm'; by apply wf_set_cond_stack].
  pose proof (wf_dstack _ _ _ Hvm). repeat case_match; cbn [safe fst snd]; auto with bytes.
Qed.

Lemma exec_control_safe op vm : wf vm -> safe wf (exec_control op vm).
Proof.
  intros Hvm. destruct op; cbn [exec_control]; try done; try by apply exec_if_safe.
  all: try (by apply pop_verify_safe); case_match; cbn [safe]; auto with bytes.
Qed.

Lemma pick_safe (s : Stack) loc : 0 <= loc < zlen s -> exists item, s !! (length s - Z.to_nat loc - 1)%nat = Some item.
Proof. intros Hl. unfold zlen in Hl. apply lookup_lt_is_Some_2. lia. Qed.

Lemma exec_stack_safe op vm : wf vm -> stacks_bounded vm -> safe wf (exec_stack op vm).
Proof.
  intros Hvm Hb. pose proof (wf_dstack _ _ _ Hvm) as Hd. pose proof (wf_astack _ _ _ Hvm) as Ha.
  destruct op; cbn [exec_stack]; try done.
  all: try (apply with_stack_safe; [|done]; unfold rot_items, swap_items;
    auto using drop_items_safe, dup_items_safe, over_items_safe, raise_items_safe).
  - eapply safe_bind; [by apply pop_raw_safe|]. intros [items ds] (_ & Hi & Hds & _). cbn [safe fst snd] in *. auto with bytes.
  - destruct (last (astack vm)) as [x|] eqn:E; [|done]. apply (last_bytes bytes) in E as [Hx Hr]; [|done]. cbn. auto with bytes.
  - unfold peek_raw. destruct (_ <? _)%nat; [done|]. run. eapply safe_bind; [apply bool_safe|]. intros b _.
    destruct b; cbn; [|done]. apply wf_push; [done|]. apply nth_Forall; auto with bytes.
  - apply push_number_safe; [|done]. unfold stacks_bounded, MAX_STACK_SIZE in Hb. unfold in_i. cbn.
    pose proof (zlen_nonneg (astack vm)). pose proof (zlen_nonneg (dstack vm)). lia.
  - case_match; cbn; auto with bytes.
  - eapply safe_bind; [by apply pop_num32_safe|]. intros [l s] [_ Hs]. cbn in Hs. case_match eqn:E; [done|].
    destruct (pick_safe s (nth 0 l 0)) as [item Hi]; [lia|]. rewrite Hi. cbn. apply wf_set_dstack; [done|].
    apply Forall_app_2; [done|]. apply Forall_singleton_2. by eapply Forall_lookup_1.
  - eapply safe_bind; [by apply pop_num32_safe|]. intros [l s] [_ Hs]. cbn in Hs. case_match eqn:E; [done|].
    destruct (pick_safe s (nth 0 l 0)) as [item Hi]; [lia|]. rewrite Hi. cbn. apply wf_set_dstack; [done|].
    apply Forall_app_2; [auto with bytes|]. apply Forall_singleton_2. by eapply Forall_lookup_1.
  - case_match eqn:E; [|done]. destruct (last (dstack vm)) as [x|] eqn:El; [|apply last_None in El; rewrite El in E; done].
    apply (last_bytes bytes) in El as [Hx _]; [|done]. cbn. apply wf_set_dstack; [done|]. apply Forall_app_2; [auto with bytes|].
    constructor; auto with bytes.
Qed.

Lemma exec_splice_safe op vm : wf vm -> safe wf (exec_splice op vm).
Proof.
  intros Hvm. pose proof (wf_dstack _ _ _ Hvm) as Hd. assert (bytes [1]) by (apply Forall_singleton_2; unfold is_byte; lia).
  destruct op; cbn [exec_splice]; try done.
  - destruct (last (dstack vm)) as [x|]; [|done]. destruct (in_ib 64 (zlen x)) eqn:E; [|done].
    apply push_number_safe; [|done]. pose proof (checked_num_safe (zlen x)) as Hc. unfold checked_num in Hc. by rewrite E in Hc.
  - case_match; [|done]. cbn. apply wf_push; [auto with bytes|]. case_match; auto with bytes.
  - case_match; [|done]. case_match; cbn; auto with bytes.
Qed.

Lemma pop_num64_safe n vm : wf vm ->
  safe (fun p => (forall i, in_i 64 (nth i p.1 0)) /\ Forall bytes p.2) (pop_items deserialize_num64 n (dstack vm)).
Proof.
  intros Hvm. eapply safe_weaken; [apply (pop_items_safe _ _ _ _ num64_safe), (wf_dstack _ _ _ Hvm)|].
  intros [l s] (Hl & _ & Hs). split; [|done]. intros i. apply nth_Forall; [done|]. unfold in_i. lia.
Qed.

Lemma unary_safe f vm : wf vm -> (forall x, in_i 64 x -> safe (in_i 64) (f x)) -> safe wf (unary f vm).
Proof.
  intros Hvm Hf. unfold unary. eapply safe_bind; [by apply pop_num64_safe|]. intros [l s] [Hl Hs]. cbn [fst snd] in *.
  eapply safe_bind; [by apply Hf|]. intros r Hr. apply push_number_safe; auto with bytes.
Qed.

Lemma binary_safe f vm : wf vm -> (forall x y, in_i 64 x -> in_i 64 y -> safe (in_i 64) (f x y)) -> safe wf (binary f vm).
Proof.
  intros Hvm Hf. unfold binary. eapply safe_bind; [by apply pop_num64_safe|]. intros [l s] [Hl Hs]. cbn [fst snd] in *.
  eapply safe_bind; [by apply Hf|]. intros r Hr. apply push_number_safe; auto with bytes.
Qed.

Lemma bool_num_safe b : safe (in_i 64) (bool_num b).
Proof. unfold in_i. by destruct b. Qed.

Lemma exec_numeric_safe op vm : wf vm -> safe wf (exec_numeric op vm).
Proof.
  intros Hvm. destruct op; cbn [exec_numeric]; try done.
  all: try (apply unary_safe; [done|]; intros; first [apply checked_num_safe|apply bool_num_safe]).
  all: try (apply binary_safe; [done|]; intros; first [apply checked_num_safe|apply bool_num_safe|cbn; unfold in_i in *; lia]).
  - eapply safe_bind; [by apply pop_num64_safe|]. intros [l s] [Hl Hs]. case_match; cbn; auto with bytes.
  - eapply safe_bind; [by apply pop_num64_safe|]. intros [l s] [Hl Hs]. cbn [fst snd] in *.
    eapply safe_bind; [apply bool_num_safe|]. intros r Hr. apply push_number_safe; auto with bytes.
Qed.

Lemma exec_check_sig_safe ecdsa vm : wf vm -> safe wf (exec_check_sig ecdsa vm).
Proof using Hsrc.
  intros Hvm. unfold exec_check_sig. eapply safe_bind; [apply pop_raw_safe, (wf_dstack _ _ _ Hvm)|].
  intros [items ds] (_ & _ & Hds & _). cbn [fst snd] in *. case_match; [|cbn; auto with bytes].
  eapply safe_bind; [apply safe_ok_or|]. intros ht _.
  eapply safe_bind; [apply check_signature_safe; auto with bytes|]. intros [valid vm'] Hvm'. cbn in *. auto with bytes.
Qed.

Lemma exec_hash_safe hash vm : wf vm -> (forall l, bytes (hash l)) -> safe wf (exec_hash hash vm).
Proof.
  intros Hvm Hh. unfold exec_hash. eapply safe_bind; [apply pop_raw_safe, (wf_dstack _ _ _ Hvm)|].
  intros [items ds] (_ & _ & Hds & _). cbn in *. auto with bytes.
Qed.

Lemma exec_crypto_safe op vm : wf vm -> safe wf (exec_crypto op vm).
Proof using Hsrc Sha256_bytes Blake2b_bytes.
  intros Hvm. destruct op; cbn [exec_crypto]; try done; auto using exec_hash_safe, exec_check_sig_safe, multisig_safe.
  all: eapply safe_bind; [auto using exec_check_sig_safe, multisig_safe|]; intros vm' Hvm'; by apply pop_verify_safe.
Qed.

Lemma lock_time_safe vm : wf vm -> safe wf (exec_check_lock_time_verify vm) /\ safe wf (exec_check_sequence_verify vm).
Proof.
  intros Hvm. unfold exec_check_lock_time_verify, exec_check_sequence_verify. destruct (script_source vm); [|done].
  split; (eapply safe_bind; [apply pop_raw_safe, (wf_dstack _ _ _ Hvm)|]); intros [items ds] (_ & _ & Hds & _); cbn in Hds.
  all: eapply (safe_bind (fun _ => True)); [unfold resize_u64; by case_match|]; intros x _; repeat case_match; cbn; auto with bytes.
Qed.

Lemma get_i32_Some {A} (l : list A) i a : get_i32 l i = Some a -> exists n, l !! n = Some a.
Proof. unfold get_i32. case_match; [done|]. eauto. Qed.

Lemma spk_bytes spk : bytes (spk_script spk) -> bytes (spk_to_bytes spk).
Proof. intros Hs. unfold spk_to_bytes. apply Forall_app_2; [|done]. apply Forall_rev, le_bytes_bytes. Qed.

Lemma with_popped_index_safe f vm : wf vm ->
  (forall tx input idx entry p i vm', src = TxInput tx input idx entry p -> wf vm' -> safe wf (f tx i vm')) ->
  safe wf (with_popped_index f vm).
Proof.
  intros Hvm Hf. unfold with_popped_index. pose proof (wf_source _ _ _ Hvm) as Es.
  destruct (script_source vm) as [tx input idx entry p|]; [|done]. eapply safe_bind; [by apply pop_num32_safe|].
  intros [l s] [_ Hs]. eapply Hf; [done|]. cbn in Hs. auto with bytes.
Qed.

Lemma push_tx_number_safe f vm : wf vm ->
  (forall tx input idx entry p, src = TxInput tx input idx entry p -> in_i 64 (f tx idx)) -> safe wf (push_tx_number f vm).
Proof.
  intros Hvm Hf. unfold push_tx_number. pose proof (wf_source _ _ _ Hvm) as Es.
  destruct (script_source vm) as [tx input idx entry p|]; [|done]. apply push_number_safe; [|done]. by eapply Hf.
Qed.

Lemma exec_introspection_safe op vm : wf vm -> safe wf (exec_introspection op vm).
Proof using Hsrc.
  intros Hvm. destruct op; cbn [exec_introspection]; try done.
  1-3: apply push_tx_number_safe; [done|]; intros tx input idx entry p E; pose proof Hsrc as Hs; rewrite E in Hs;
    destruct Hs as (_ & Hi & _ & _ & _ & _ & Hn & Ho); apply lookup_lt_Some in Hi; unfold in_i, zlen in *; cbn; lia.
  all: apply with_popped_index_safe; [done|]; intros tx input idx entry p i vm' E Hvm'; pose proof Hsrc as Hs; rewrite E in Hs;
    destruct Hs as (_ & _ & _ & _ & He & Ho & _).
  all: unfold exec_tx_input_amount, exec_tx_input_spk, exec_tx_output_amount, exec_tx_output_spk.
  all: eapply safe_bind; [apply safe_ok_or|]; intros x [n Hn]%get_i32_Some.
  1,3: eapply safe_bind; [apply checked_num_safe|]; intros y Hy; by apply push_number_safe.
  - eapply Forall_lookup_1 in He as [Hb _]; [|done]. cbn. by apply wf_push, spk_bytes.
  - eapply Forall_lookup_1 in Ho as [Hb _]; [|done]. cbn. by apply wf_push, spk_bytes.
Qed.

Lemma op_num_range code n : op_of_code code = OpNum n -> 1 <= n <= 16.
Proof.
  unfold op_of_code.
  repeat match goal with |- context [if ?b then _ else _] => destruct b eqn:?; [try done|] end; [intros [= <-]; lia|].
  intros E. assert (forallb (fun op => match op with OpNum _ => false | _ => true end) ops_from_nop = true) as Ha by reflexivity.
  destruct (nth_in_or_default (Z.to_nat (code - 97)) ops_from_nop (OpUnknown code)) as [Hin|Hd]; [|congruence].
  rewrite forallb_forall in Ha. apply Ha in Hin. by rewrite E in Hin.
Qed.

Lemma op_execute_safe o vm : wf vm -> stacks_bounded vm -> bytes (op_data o) -> safe wf (op_execute o vm).
Proof using Hsrc Sha256_bytes Blake2b_bytes.
  intros Hvm Hb Ho. unfold op_execute. destruct (op_of_code (op_value o)) eqn:E.
  all: try (by apply exec_control_safe); try (by apply exec_stack_safe); try (by apply exec_splice_safe).
  all: try (by apply exec_numeric_safe); try (by apply exec_crypto_safe); try (by apply exec_introspection_safe).
  all: try (by apply lock_time_safe); try done; try (lazymatch goal with |- safe wf (Ok _) => apply wf_push; auto with bytes end).
  - apply push_number_safe; [|done]. unfold in_i. lia.
  - apply op_num_range in E. apply push_number_safe; [|done]. unfold in_i. cbn. lia.
Qed.

(** ** Running scripts *)

Lemma deserialize_safe code it : bytes it ->
  safe (fun o => bytes (op_data o)) (deserialize_next_opcode code it).1 /\ bytes (deserialize_next_opcode code it).2.
Proof.
  intros Hit.
  assert (forall n, safe (fun o => bytes (op_data o)) (deserialize_fixed code n it).1 /\ bytes (deserialize_fixed code n it).2).
  { intros n. unfold deserialize_fixed. cbn [fst snd]. case_match; cbn; auto with bytes. }
  assert (forall n, safe (fun o => bytes (op_data o)) (deserialize_var code n it).1 /\ bytes (deserialize_var code n it).2).
  { intros n. unfold deserialize_var. case_match; cbn [fst snd]; [case_match|]; cbn; auto with bytes. }
  unfold deserialize_next_opcode. by case_match.
Qed.

Lemma parse_script_safe script : bytes script -> Forall (safe (fun o => bytes (op_data o))) (parse_script script).
Proof.
  unfold parse_script. generalize (length script) as n. intros n. revert script. induction n as [|n IH]; intros script Hs; [constructor|].
  destruct script as [|code it]; [constructor|]. apply Forall_cons in Hs as [_ Hs]. cbn [parse_loop].
  destruct (deserialize_safe code it Hs) as [H1 H2]. destruct (deserialize_next_opcode code it). constructor; auto.
Qed.

Definition vm_ok (vm : TxScriptEngine) : Prop := wf vm /\ stacks_bounded vm.

Lemma execute_opcode_safe o vm : vm_ok vm -> bytes (op_data o) -> safe wf (execute_opcode o vm).
Proof using Hsrc Sha256_bytes Blake2b_bytes.
  intros [Hvm Hb] Ho. unfold execute_opcode. apply (safe_bind vm_ok).
  - destruct (negb _); [|case_match; [done|by split]]. pose proof (wf_num_ops _ _ _ Hvm). unfold MAX_OPS_PER_SCRIPT in *.
    eapply safe_bind; [apply checked_i_safe; unfold in_i; cbn; lia|]. intros n ->. cbn [num_ops set_num_ops].
    destruct (Z.ltb_spec 201 (num_ops vm + 1)); [done|]. split; [|done]. apply wf_set_num_ops; [done|unfold MAX_OPS_PER_SCRIPT; lia].
  - intros vm' [Hvm' Hb']. case_match; [|done]. apply (safe_bind (fun _ => True)); [|intros _ _; by apply op_execute_safe].
    unfold check_minimal_data_push. repeat case_match; done.
Qed.

Lemma script_step_safe vop vm r : vm_ok vm -> safe (fun o => bytes (op_data o)) r -> safe vm_ok (script_step vop vm r).
Proof using Hsrc Sha256_bytes Blake2b_bytes.
  intros Hvm Hr. unfold script_step. eapply safe_bind; [done|]. intros o Ho. repeat (case_match; [done|]).
  eapply safe_bind; [by apply execute_opcode_safe|]. intros vm' Hvm'.
  destruct (Z.ltb_spec MAX_STACK_SIZE (zlen (astack vm') + zlen (dstack vm'))); [done|]. by split.
Qed.

Lemma script_loop_safe vop vm ops : vm_ok vm -> Forall (safe (fun o => bytes (op_data o))) ops -> safe vm_ok (foldM (script_step vop) vm ops).
Proof using Hsrc Sha256_bytes Blake2b_bytes.
  intros Hvm Ho. apply safe_foldM; [done|]. intros vm' r Hr Hvm'. rewrite Forall_forall in Ho. apply script_step_safe; auto.
Qed.

(** Between two scripts the alt stack is empty. *)
Definition vm_idle (vm : TxScriptEngine) : Prop := vm_ok vm /\ astack vm = [].

Lemma execute_script_safe script vop vm : vm_ok vm -> bytes script -> safe vm_idle (execute_script script vop vm).
Proof using Hsrc Sha256_bytes Blake2b_bytes.
  intros Hvm Hs. unfold execute_script. eapply safe_bind; [by apply script_loop_safe, parse_script_safe|]. intros vm' [Hvm' Hb].
  case_match; [done|]. split; [|done]. split; [apply wf_set_num_ops; [auto with bytes|unfold MAX_OPS_PER_SCRIPT; lia]|].
  unfold stacks_bounded, zlen in *. cbn [astack dstack set_num_ops set_astack length]. lia.
Qed.

Lemma check_error_condition_safe b vm : vm_idle vm -> safe vm_idle (check_error_condition b vm).
Proof.
  intros [[Hvm Hb] Ha]. unfold check_error_condition. apply (safe_bind (fun _ => True)); [by repeat case_match|]. intros _ _.
  unfold pop_items. pose proof (pop_raw_safe 1 (dstack vm) (wf_dstack _ _ _ Hvm)) as Hp.
  destruct (pop_raw 1 (dstack vm)) as [[items ds]| | |]; cbn in Hp |- *; try done. destruct Hp as (_ & Hi & Hds & E).
  pose proof (mapM_safe (fun _ => True) deserialize_bool items (fun v _ => bool_safe v) Hi) as Hm.
  destruct (mapM' deserialize_bool items); cbn in Hm |- *; try done. case_match; [|done]. split; [|done].
  split; [auto with bytes|]. unfold stacks_bounded in *. cbn [astack dstack set_dstack]. rewrite E, zlen_app in Hb. pose proof (zlen_nonneg items). lia.
Qed.

Definition source_scripts (src : ScriptSource) : list (list Z) :=
  match src with
  | TxInput _ input _ entry _ => [signature_script input; spk_script (ue_spk entry)]
  | StandAloneScripts scripts => scripts
  end.

Lemma source_scripts_bytes : Forall bytes (source_scripts src).
Proof using Hsrc.
  pose proof Hsrc as Hs. destruct src as [tx input idx entry p|scripts]; cbn in Hs |- *; [|done].
  destruct Hs as (_ & _ & Hen & Hi & He & _). repeat constructor; [done|]. by eapply Forall_lookup_1 in He as [? _].
Qed.

Lemma indexed_bytes scripts idx s : Forall bytes scripts ->
  (idx, s) ∈ List.filter (fun p => nonempty p.2) (imap (fun i s => (i, s)) scripts) -> bytes s.
Proof.
  intros Hs Hin. apply list_elem_of_In, filter_In in Hin as [Hin _].
  apply list_elem_of_In, elem_of_lookup_imap in Hin as (i & y & [= -> ->] & Hy). by eapply Forall_lookup_1.
Qed.

Lemma execute_indexed_safe p2sh vm saved idx s : vm_idle vm -> bytes s ->
  (forall t, saved = Some t -> Forall bytes t /\ zlen t <= MAX_STACK_SIZE) ->
  safe (fun p => vm_idle p.1 /\ forall t, p.2 = Some t -> Forall bytes t /\ zlen t <= MAX_STACK_SIZE) (execute_indexed p2sh (vm, saved) (idx, s)).
Proof using Hsrc Sha256_bytes Blake2b_bytes.
  intros [Hvm Ha] Hs Hsaved. unfold execute_indexed. eapply safe_bind; [by apply execute_script_safe|]. intros vm2 Hvm2.
  split; [done|]. cbn [snd]. intros t. case_match; [|by apply Hsaved]. intros [= <-]. destruct Hvm as [Hw Hb].
  split; [by destruct Hw|]. unfold stacks_bounded in Hb. pose proof (zlen_nonneg (astack vm)). lia.
Qed.

Lemma execute_scripts_safe scripts p2sh vm : vm_idle vm -> Forall bytes scripts -> safe vm_idle (execute_scripts scripts p2sh vm).
Proof using Hsrc Sha256_bytes Blake2b_bytes.
  intros Hvm Hs. unfold execute_scripts. repeat (case_match; [done|]).
  apply (safe_bind (fun p => vm_idle p.1 /\ forall t, p.2 = Some t -> Forall bytes t /\ zlen t <= MAX_STACK_SIZE)).
  - apply safe_foldM; [done|]. intros [vm' saved] [idx s] Hin [Hvm' Hsaved]. apply execute_indexed_safe; [done| |done].
    by eapply indexed_bytes.
  - intros [vm' saved] [Hvm' Hsaved]. cbn [fst snd] in *. apply (safe_bind vm_idle); [|intros; by apply check_error_condition_safe].
    destruct p2sh; [|done]. eapply safe_bind; [by apply check_error_condition_safe|]. intros vm2 [[Hw Hb] Ha].
    eapply safe_bind; [apply safe_ok_or|]. intros s Es. destruct (Hsaved s Es) as [Hsb Hlen].
    eapply safe_bind; [apply safe_ok_or|]. intros script El. destruct (last_bytes bytes s script Hsb El) as [Hsc Hr].
    apply execute_script_safe; [|done]. split; [auto with bytes|]. unfold stacks_bounded. cbn [astack dstack set_dstack]. rewrite Ha.
    apply snoc_inv in El. rewrite El, zlen_app in Hlen. unfold zlen in *. cbn [length] in *. lia.
Qed.

Lemma execute_safe vm : vm_idle vm -> safe vm_idle (execute vm).
Proof using Hsrc Sha256_bytes Blake2b_bytes.
  intros Hvm. unfold execute. pose proof Hvm as [[Hw _] _]. pose proof (wf_source _ _ _ Hw) as Es. pose proof source_scripts_bytes as Hb.
  rewrite <-Es in Hb. destruct (script_source vm); [case_match; [done|]|]; by apply execute_scripts_safe.
Qed.
End ops.

Lemma from_transaction_input_ok tx input idx entry r c :
  source_ok (TxInput tx input idx entry (is_pay_to_script_hash (spk_script (ue_spk entry)))) -> 0 <= sig_op_count input ->
  exists vm, from_transaction_input tx input idx entry r c = Ok vm /\ stacks_bounded vm /\ astack vm = [] /\
    vm_wf (TxInput tx input idx entry (is_pay_to_script_hash (spk_script (ue_spk entry)))) (sig_op_count input) vm.
Proof.
  intros (_ & Hi & _) Hc. unfold from_transaction_input. apply lookup_lt_Some in Hi. destruct (Nat.ltb_spec idx (length (tx_inputs (ptx_tx tx)))); [|lia].
  run. eexists. split_and!; [done|done|done|]. by constructor.
Qed.

(** C9: the script engine never panics.  On an input of a populated transaction
    the constructor succeeds, and [execute] returns an error or succeeds having
    used at most the signature operations that the input declares.  In any
    state that the engine reaches inside a script, whatever the script, the two
    stacks have at most [MAX_STACK_SIZE] items together, at most
    [MAX_OPS_PER_SCRIPT] operations are counted and the counter of signature
    operations lies between 0 and its limit. *)
Theorem script_engine_safe tx input idx entry r c :
  source_ok (TxInput tx input idx entry (is_pay_to_script_hash (spk_script (ue_spk entry)))) -> in_u 8 (sig_op_count input) ->
  exists vm, from_transaction_input tx input idx entry r c = Ok vm /\
    ((exists vm' n, execute vm = Ok vm' /\ used_sig_ops vm' = Ok n /\ 0 <= n <= sig_op_count input) \/ exists e, execute vm = Err e) /\
    forall vm0 script verify_only_push opcodes rest,
      vm_ok (script_source vm) (sig_op_count input) vm0 -> bytes script -> parse_script script = opcodes ++ rest ->
      match foldM (script_step verify_only_push) vm0 opcodes with
      | Ok vm' => zlen (astack vm') + zlen (dstack vm') <= MAX_STACK_SIZE /\ 0 <= num_ops vm' <= MAX_OPS_PER_SCRIPT /\
          0 <= sig_op_remaining (runtime_sig_op_counter vm') <= sig_op_limit (runtime_sig_op_counter vm')
      | Err _ => True
      | Panic | OutOfFuel => False
      end.
Proof using Sha256_bytes Blake2b_bytes.
  intros Hsrc Hu. destruct (from_transaction_input_ok tx input idx entry r c) as (vm & E & Hb & Ha & Hw); [done|unfold in_u in Hu; lia|].
  exists vm. split; [done|]. split.
  - pose proof (execute_safe _ (sig_op_count input) Hsrc vm (conj (conj Hw Hb) Ha)) as Hex.
    destruct (execute vm) as [vm'| | |]; try done; [left|right; eauto]. destruct Hex as [[Hw' _] _]. exists vm'.
    unfold used_sig_ops. pose proof (wf_limit _ _ _ Hw') as El. pose proof (wf_remaining _ _ _ Hw') as Hr. rewrite El.
    eexists. split; [done|]. split; [apply sub_ok; unfold in_u in *; lia|lia].
  - intros vm0 script vop ops rest Hok Hs Ep. rewrite (wf_source _ _ _ Hw) in Hok. pose proof (parse_script_safe script Hs) as Hp.
    rewrite Ep in Hp. apply Forall_app in Hp as [Hp _]. pose proof (script_loop_safe _ _ Hsrc vop vm0 ops Hok Hp) as Hl.
    destruct (foldM _ vm0 ops) as [vm'| | |]; try done. destruct Hl as [Hw' Hb']. split; [done|]. pose proof (wf_limit _ _ _ Hw') as El.
    rewrite El. by destruct Hw'.
Qed.
End safety.

(** Stand-ins for the curve and the digests: a signature of a message under a
    key is their concatenation. *)
Definition spell_crypto : Crypto := {|
  XOnlyPublicKey := list Z; SchnorrSignature := list Z; EcdsaPublicKey := list Z; EcdsaSignature := list Z;
  XOnlyPublicKey_eq_dec := _; SchnorrSignature_eq_dec := _; EcdsaPublicKey_eq_dec := _; EcdsaSignature_eq_dec := _;
  XOnlyPublicKey_from_slice := Some; SchnorrSignature_from_slice := Some;
  EcdsaPublicKey_from_slice := Some; EcdsaSignature_from_compact := Some;
  schnorr_verify := fun s m k => bool_decide (s = hash_bytes m ++ k);
  ecdsa_verify := fun s m k => bool_decide (s = hash_bytes m ++ tail k);
  Sha256 := fun l => hash_bytes (of_le_bytes l); Blake2b := fun l => hash_bytes (of_le_bytes l)
|}.

(** A stand-in for the map: the list of its pairs. *)
Fixpoint pairs_get {K V} `{EqDecision K} (m : list (K * V)) (k : K) : option V :=
  match m with [] => None | (k', v) :: m => if decide (k = k') then Some v else pairs_get m k end.

Definition pairs_index_map {K V} `{EqDecision K} : IndexMap K V.
Proof.
  refine {| index_map := list (K * V); im_empty := []; im_len := zlen; im_get := pairs_get;
            im_insert := fun m k v => (k, v) :: m; im_swap_remove_index := fun _ _ => [] |}; try done.
  - intros m k v. cbn. by destruct (decide (k = k)).
  - intros m k v k' Hne. cbn. by destruct (decide (k' = k)).
Defined.

Definition spell_map := @pairs_index_map (@SigCacheKey spell_crypto) bool _.

Lemma hash_bytes_bytes h : Forall is_byte (hash_bytes h).
Proof. apply Forall_rev, le_bytes_bytes. Qed.

Lemma script_engine_safe_witness : exists vm,
  @from_transaction_input spell_crypto spell_map (example_populated []) (example_input []) 0 (UtxoEntry_new 200 (mkSpk 0 [82]) 3 false)
    SigHashReusedValues_new (Cache_new 0 []) = Ok vm /\
  ((exists vm' n, @execute spell_hashers spell_crypto spell_map vm = Ok vm' /\ used_sig_ops vm' = Ok n /\ 0 <= n <= 1) \/
    exists e, @execute spell_hashers spell_crypto spell_map vm = Err e).
Proof.
  edestruct (@script_engine_safe spell_hashers spell_crypto spell_map) as (vm & E & Hex & _);
    [intros; apply hash_bytes_bytes|intros; apply hash_bytes_bytes| | |exists vm; split; [exact E|exact Hex]].
  - cbn. unfold is_byte. split_and!; try done; repeat constructor; done.
  - done.
Defined.
