(* ===== verification/ScriptCache.v ===== *)
(** * The caches of the script engine are transparent

    The signature cache and the reused hashes change neither the verdict nor
    the error of a script, as long as what they hold is right; and the engine
    only stores what is right. *)
From S2P Require Import Prelude Tx Bytes ScriptNum Hashing ScriptOps Script ScriptSafe.

#[local] Open Scope Z_scope.

(** Two computations with the same error or with related values. *)
Definition rel {E A B} (R : A -> B -> Prop) (c : outcome E A) (d : outcome E B) : Prop :=
  match c, d with
  | Ok a, Ok b => R a b
  | Err e, Err e' => e = e'
  | Panic, Panic | OutOfFuel, OutOfFuel => True
  | _, _ => False
  end.

Lemma rel_refl {E A} (R : A -> A -> Prop) (c : outcome E A) : (forall a, R a a) -> rel R c c.
Proof. destruct c; cbn; auto. Qed.

Lemma rel_bind {E A B C D} (R : A -> B -> Prop) (S : C -> D -> Prop) (c : outcome E A) (d : outcome E B) f g :
  rel R c d -> (forall a b, R a b -> rel S (f a) (g b)) -> rel S (c ≫= f) (d ≫= g).
Proof. destruct c, d; cbn; auto; naive_solver. Qed.

Lemma rel_bind_eq {E A C D} (S : C -> D -> Prop) (c : outcome E A) f g :
  (forall a, rel S (f a) (g a)) -> rel S (c ≫= f) (c ≫= g).
Proof. intros Hf. eapply (rel_bind eq); [by apply rel_refl|]. by intros a ? <-. Qed.

Lemma rel_foldM {E S S' A} (R : S -> S' -> Prop) (f : S -> A -> outcome E S) (g : S' -> A -> outcome E S') l s s' :
  R s s' -> (forall s s' a, R s s' -> rel R (f s a) (g s' a)) -> rel R (foldM f s l) (foldM g s' l).
Proof. intros Hs Hf. revert s s' Hs. induction l as [|a l IH]; intros; cbn [foldM]; [done|]. eapply rel_bind; eauto. Qed.

Section cache.
Context `{Hashers, Crypto, !IndexMap SigCacheKey bool}.

(** ** The signature cache *)

(** The answer that the curve library gives for a cache key. *)
Definition verdict (k : SigCacheKey) : bool :=
  match ck_signature k, ck_pub_key k with
  | SigSecp256k1 s, PkSchnorr pk => schnorr_verify s (ck_message k) pk
  | SigEcdsa s, PkEcdsa pk => ecdsa_verify s (ck_message k) pk
  | _, _ => false
  end.

Definition cache_ok (c : Cache) : Prop := forall k v, cache_get c k = Some v -> v = verdict k.

Lemma cache_insert_ok c k : cache_ok c -> cache_ok (cache_insert c k (verdict k)).
Proof.
  intros Hc. unfold cache_insert. destruct (_ =? 0); [done|].
  destruct (_ =? _); intros k' v'; unfold cache_get; cbn [cache_map];
    (destruct (decide (k' = k)) as [->|Hne]; [rewrite im_get_insert; congruence|rewrite im_get_insert_ne by done]); [|apply Hc].
  intros Hg%im_get_swap_remove_index. by apply Hc.
Qed.

Lemma cached_verify_ok c k b : cache_ok c -> b = verdict k -> (cached_verify k b c).1 = verdict k /\ cache_ok (cached_verify k b c).2.
Proof.
  intros Hc ->. unfold cached_verify. destruct (cache_get c k) as [v|] eqn:E; cbn.
  - by apply Hc in E.
  - split; [done|]. by apply cache_insert_ok.
Qed.

(** ** Signature checks without caches *)

(** The message that input [idx] of [tx] signs. *)
Definition signing_hash (ecdsa : bool) (tx : PopulatedTransaction) (idx : nat) (input : TransactionInput) (entry : UtxoEntry)
    (hash_type : Z) : Hash :=
  let h := finalize TransactionSigningHash (fresh_preimage tx input entry idx hash_type) in
  if ecdsa then finalize TransactionSigningHashECDSA (hash_bytes h) else h.

(** What a signature check answers, apart from the counter. *)
Definition signature_verdict (ecdsa : bool) (msg : Hash) (key sig : list Z) : script_result bool :=
  if negb (zlen sig =? 64) then Err (SigLength (zlen sig))
  else if ecdsa then
    _ ← check_pub_key_encoding_ecdsa key;
    pk ← ok_or InvalidSignature (EcdsaPublicKey_from_slice key);
    s ← ok_or InvalidSignature (EcdsaSignature_from_compact sig);
    Ok (ecdsa_verify s msg pk)
  else
    _ ← check_pub_key_encoding key;
    pk ← ok_or InvalidSignature (XOnlyPublicKey_from_slice key);
    s ← ok_or InvalidSignature (SchnorrSignature_from_slice sig);
    Ok (schnorr_verify s msg pk).

(** The caches of an engine hold right answers for its transaction. *)
Definition caches_ok (vm : TxScriptEngine) : Prop :=
  cache_ok (sig_cache vm) /\
  match script_source vm with TxInput tx _ _ _ _ => reused_ok (ptx_tx tx) (reused_values vm) | StandAloneScripts _ => True end.

(** [with_caches_of vm P]: the engine is [vm] up to its caches, which are
    right. *)
Definition recached (vm vm' : TxScriptEngine) : Prop :=
  caches_ok vm' /\ exists r c, vm' = set_caches r c vm.

Lemma caches_ok_set_counter c vm : caches_ok vm -> caches_ok (set_counter c vm).
Proof. done. Qed.

Lemma check_signature_spec ecdsa ht key sig vm tx input idx entry p :
  script_source vm = TxInput tx input idx entry p -> tx_inputs (ptx_tx tx) !! idx = Some input -> entries tx !! idx = Some entry ->
  caches_ok vm ->
  rel (fun x y => x.1 = y.1 /\ recached y.2 x.2) (check_signature ecdsa ht key sig vm)
    (counter ← consume_sig_op (runtime_sig_op_counter vm);
     b ← signature_verdict ecdsa (signing_hash ecdsa tx idx input entry ht) key sig;
     Ok (b, set_counter counter vm)).
Proof.
  intros Es Hi He [Hc Hr]. rewrite Es in Hr. destruct (calc_sighash_ok (E := TxScriptError) tx input entry idx ht (reused_values vm) Hr Hi He) as (r' & Eh & Hr').
  assert (forall c k b, b = verdict k -> rel (fun x y : bool * TxScriptEngine => x.1 = y.1 /\ recached y.2 x.2)
    (let '(valid, cache) := cached_verify k b (sig_cache vm) in Ok (E := TxScriptError) (valid, set_caches r' cache (set_counter c vm)))
    (Ok (b, set_counter c vm))) as Hfin.
  { intros c k b Hb. destruct (cached_verify_ok (sig_cache vm) k b Hc Hb) as [E1 E2]. destruct (cached_verify k b (sig_cache vm)) as [v c'].
    cbn in *. split; [congruence|]. split; [|eauto]. split; [done|]. cbn. by rewrite Es. }
  unfold check_signature, signature_verdict, signing_hash. destruct ecdsa; [unfold check_ecdsa_signature|unfold check_schnorr_signature].
  all: apply rel_bind_eq; intros c; cbn [script_source set_counter]; rewrite Es; destruct (negb _); [done|].
  - destruct (check_pub_key_encoding_ecdsa key); try done. run. destruct (EcdsaPublicKey_from_slice key) as [pk|]; [|done].
    cbn [ok_or]. run. destruct (EcdsaSignature_from_compact sig) as [sg|]; [|done]. cbn [ok_or]. run.
    unfold calc_ecdsa_signature_hash. cbn [reused_values set_counter]. rewrite Eh. run. by apply Hfin.
  - destruct (check_pub_key_encoding key); try done. run. destruct (XOnlyPublicKey_from_slice key) as [pk|]; [|done].
    cbn [ok_or]. run. destruct (SchnorrSignature_from_slice sig) as [sg|]; [|done]. cbn [ok_or]. run.
    cbn [reused_values set_counter]. rewrite Eh. run. by apply Hfin.
Qed.

(** ** Operations that do not look at the caches *)

Definition neutral (f : TxScriptEngine -> script_result TxScriptEngine) : Prop :=
  forall r c vm,
    rel (fun x y => x = set_caches r c y /\ script_source y = script_source vm /\
           reused_values y = reused_values vm /\ sig_cache y = sig_cache vm) (f (set_caches r c vm)) (f vm).

Ltac neutral :=
  repeat first
    [ progress intros
    | progress cbn [dstack astack cond_stack script_source num_ops set_caches]
    | match goal with
      | |- rel _ (Ok _) (Ok _) => split_and!; first [reflexivity|assumption]
      | |- rel _ (Ok (if ?b then _ else _)) _ => destruct b
      | |- rel _ (Err _) (Err _) => reflexivity
      | |- rel _ (?c ≫= _) (?c ≫= _) => apply rel_bind_eq
      | p : (_ * _)%type |- _ => destruct p
      | |- rel _ (match ?x with _ => _ end) (match ?x with _ => _ end) => destruct x eqn:?
      end ].

Lemma pop_verify_neutral : neutral pop_verify.
Proof. intros r c vm. unfold pop_verify. neutral. Qed.

Lemma push_number_neutral x : neutral (push_number x).
Proof. intros r c vm. unfold push_number. neutral. Qed.

Lemma exec_control_neutral op : neutral (exec_control op).
Proof.
  intros r c vm. destruct op; cbn [exec_control cond_stack set_caches]; unfold exec_if, is_executing; cbn [cond_stack dstack set_caches];
    try apply pop_verify_neutral; neutral; repeat case_match; run; neutral.
Qed.

Lemma exec_stack_neutral op : neutral (exec_stack op).
Proof.
  intros r c vm. destruct op; cbn [exec_stack dstack astack set_caches]; unfold with_stack, push_number; neutral.
Qed.

Lemma exec_splice_neutral op : neutral (exec_splice op).
Proof. intros r c vm. destruct op; cbn [exec_splice dstack set_caches]; unfold push_number; neutral. Qed.

Lemma exec_numeric_neutral op : neutral (exec_numeric op).
Proof. intros r c vm. destruct op; cbn [exec_numeric dstack set_caches]; unfold unary, binary, push_number; neutral. Qed.

Lemma exec_hash_neutral hash : neutral (exec_hash hash).
Proof. intros r c vm. unfold exec_hash. neutral. Qed.

Lemma lock_time_neutral : neutral exec_check_lock_time_verify /\ neutral exec_check_sequence_verify.
Proof.
  split; intros r c vm; unfold exec_check_lock_time_verify, exec_check_sequence_verify; cbn [script_source dstack set_caches]; neutral.
Qed.

Lemma exec_introspection_neutral op : neutral (exec_introspection op).
Proof.
  intros r c vm. destruct op; cbn [exec_introspection]; unfold push_tx_number, with_popped_index, exec_tx_input_amount, exec_tx_input_spk,
    exec_tx_output_amount, exec_tx_output_spk, push_number; cbn [script_source dstack set_caches]; neutral.
Qed.

Lemma check_error_condition_neutral b : neutral (check_error_condition b).
Proof. intros r c vm. unfold check_error_condition. cbn [dstack set_caches]. neutral. Qed.

(** ** Engines that differ in their caches only *)

Definition indexed_source (src : ScriptSource) : Prop :=
  match src with
  | TxInput tx input idx entry _ => tx_inputs (ptx_tx tx) !! idx = Some input /\ entries tx !! idx = Some entry
  | StandAloneScripts _ => True
  end.

Section same.
Context (src : ScriptSource).

Definition same (vm vm' : TxScriptEngine) : Prop :=
  (script_source vm = src /\ indexed_source src) /\ caches_ok vm /\ caches_ok vm' /\ exists r c, vm = set_caches r c vm'.

(** [same_op f]: on engines that differ in their caches only, [f] does the
    same. *)
Definition same_op (f : TxScriptEngine -> script_result TxScriptEngine) : Prop :=
  forall vm vm', same vm vm' -> rel same (f vm) (f vm').

Lemma neutral_same f : neutral f -> same_op f.
Proof.
  intros Hf vm vm' (Hi & Hv & Hv' & r & c & ->). specialize (Hf r c vm').
  destruct (f (set_caches r c vm')) as [x| | |], (f vm') as [y| | |]; try done. cbn in *. destruct Hf as (-> & Es & Er & Ec).
  unfold same, caches_ok in *. cbn [script_source reused_values sig_cache set_caches] in *. rewrite Es, Er, Ec. split_and!; try tauto. eauto.
Qed.

Lemma bind_same f g : same_op f -> same_op g -> same_op (fun vm => vm ← f vm; g vm).
Proof. intros Hf Hg vm vm' Hs. eapply rel_bind; [by apply Hf|auto]. Qed.

Lemma same_counter c vm vm' : same vm vm' -> same (set_counter c vm) (set_counter c vm').
Proof. intros ([Hi0 Hi1] & Hv & Hv' & r & d & ->). split_and!; try done. by exists r, d. Qed.
Lemma same_dstack s vm vm' : same vm vm' -> same (set_dstack s vm) (set_dstack s vm').
Proof. intros ([Hi0 Hi1] & Hv & Hv' & r & d & ->). split_and!; try done. by exists r, d. Qed.
Lemma same_num_ops n vm vm' : same vm vm' -> same (set_num_ops n vm) (set_num_ops n vm').
Proof. intros ([Hi0 Hi1] & Hv & Hv' & r & d & ->). split_and!; try done. by exists r, d. Qed.
Lemma same_astack s vm vm' : same vm vm' -> same (set_astack s vm) (set_astack s vm').
Proof. intros ([Hi0 Hi1] & Hv & Hv' & r & d & ->). split_and!; try done. by exists r, d. Qed.

(** The fields of two such engines. *)
Lemma same_fields vm vm' : same vm vm' ->
  dstack vm = dstack vm' /\ astack vm = astack vm' /\ script_source vm = script_source vm' /\ cond_stack vm = cond_stack vm' /\
  num_ops vm = num_ops vm' /\ runtime_sig_op_counter vm = runtime_sig_op_counter vm'.
Proof. by intros (_ & _ & _ & r & c & ->). Qed.

Lemma same_push v vm vm' : same vm vm' -> same (push v vm) (push v vm').
Proof. intros Hs. unfold push. destruct (same_fields _ _ Hs) as [-> _]. by apply same_dstack. Qed.

(** Two engines that are a third one with right caches. *)
Lemma recached_same z x y : script_source z = src /\ indexed_source src -> recached z x -> recached z y -> same x y.
Proof.
  intros [Hi0 Hi1] [Hx (r & c & ->)] [Hy (r' & c' & ->)]. split_and!; try done. by exists r, c.
Qed.

Lemma recached_trans z vm x : recached vm x -> (exists r c, vm = set_caches r c z) -> recached z x.
Proof. intros [Hx (r & c & ->)] (r' & c' & ->). split; [done|]. by exists r, c. Qed.

Lemma check_signature_same ecdsa ht key sig vm vm' : same vm vm' ->
  rel (fun x y => x.1 = y.1 /\ same x.2 y.2) (check_signature ecdsa ht key sig vm) (check_signature ecdsa ht key sig vm').
Proof.
  intros ([Esrc Hi] & Hv & Hv' & r & c & E). destruct (script_source vm) as [tx input idx entry p|] eqn:Es.
  - pose proof Hi as Hi0. rewrite <-Esrc in Hi0. destruct Hi0 as [Hin Hen]. pose proof (check_signature_spec ecdsa ht key sig vm _ _ _ _ _ Es Hin Hen Hv) as H1.
    assert (script_source vm' = TxInput tx input idx entry p) as Es' by (by rewrite E in Es).
    pose proof (check_signature_spec ecdsa ht key sig vm' _ _ _ _ _ Es' Hin Hen Hv') as H2.
    assert (runtime_sig_op_counter vm = runtime_sig_op_counter vm') as Ec by (by rewrite E). rewrite Ec in H1.
    destruct (consume_sig_op (runtime_sig_op_counter vm')) as [ctr| | |].
    all: try (destruct (check_signature ecdsa ht key sig vm), (check_signature ecdsa ht key sig vm'); cbn in *; first [done|congruence]).
    destruct (signature_verdict ecdsa (signing_hash ecdsa tx idx input entry ht) key sig).
    all: destruct (check_signature ecdsa ht key sig vm) as [[b1 v1]| | |], (check_signature ecdsa ht key sig vm') as [[b2 v2]| | |]; cbn in *; try first [done|congruence].
    destruct H1 as [-> H1], H2 as [-> H2]. split; [done|]. apply (recached_same (set_counter ctr vm')); [cbn; by rewrite Es', <-Esrc in *| |done].
    eapply recached_trans; [done|]. exists r, c. by rewrite E.
  - assert (script_source vm' = script_source vm) as Es' by (by rewrite E). rewrite Es in Es'.
    assert (runtime_sig_op_counter vm = runtime_sig_op_counter vm') as Ec by (by rewrite E).
    destruct ecdsa; cbn [check_signature]; [unfold check_ecdsa_signature|unfold check_schnorr_signature]; rewrite Ec; apply rel_bind_eq;
      intros ctr; cbn [script_source set_counter]; rewrite Es, Es'; done.
Qed.

(** ** The whole engine *)

Lemma find_key_same ecdsa ht sig needed keys vm vm' : same vm vm' ->
  rel (fun x y => x.1 = y.1 /\ same x.2 y.2) (find_key ecdsa ht sig needed keys vm) (find_key ecdsa ht sig needed keys vm').
Proof.
  revert vm vm'. induction keys as [|k keys IH]; intros vm vm' Hs; cbn [find_key]; (destruct (_ <? _)%nat; [done|]); [done|].
  eapply rel_bind; [by apply check_signature_same|]. intros [b1 v1] [b2 v2] [Eb Hv]. cbn in Eb, Hv. subst b2. destruct b1; [done|by apply IH].
Qed.

Lemma match_signatures_same ecdsa sigs keys vm vm' : same vm vm' ->
  rel (fun x y => x.1 = y.1 /\ same x.2 y.2) (match_signatures ecdsa sigs keys vm) (match_signatures ecdsa sigs keys vm').
Proof.
  revert keys vm vm'. induction sigs as [|sig sigs IH]; intros keys vm vm' Hs; cbn [match_signatures]; [done|]. destruct (last sig); [|done].
  apply rel_bind_eq. intros ht. eapply rel_bind; [by apply find_key_same|]. intros [f1 v1] [f2 v2] [Ef Hv]. cbn in Ef, Hv. subst f2.
  destruct f1; [by apply IH|done].
Qed.

Lemma multisig_same ecdsa : same_op (op_check_multisig_schnorr_or_ecdsa ecdsa).
Proof.
  intros vm vm' Hs. destruct (same_fields _ _ Hs) as (Ed & _ & _ & _ & En & _). unfold op_check_multisig_schnorr_or_ecdsa. rewrite Ed, En.
  apply rel_bind_eq. intros [nk ds]. repeat (destruct (_ <? _); [done|]). apply rel_bind_eq. intros n. cbn [num_ops set_num_ops].
  destruct (_ <? n); [done|]. apply rel_bind_eq. intros [keys ds1]. apply rel_bind_eq. intros [ns ds2]. repeat (destruct (_ <? _); [done|]).
  apply rel_bind_eq. intros [sigs ds3]. eapply rel_bind; [by apply match_signatures_same, same_dstack, same_num_ops|].
  intros [f1 v1] [f2 v2] [Ef Hv]. cbn in Ef, Hv. subst f2. destruct (_ && _); [done|]. by apply same_push.
Qed.

Lemma exec_check_sig_same ecdsa : same_op (exec_check_sig ecdsa).
Proof.
  intros vm vm' Hs. destruct (same_fields _ _ Hs) as (Ed & _). unfold exec_check_sig. rewrite Ed. apply rel_bind_eq. intros [items ds].
  destruct (last (nth 0 items [])); [|by apply same_push, same_dstack]. apply rel_bind_eq. intros ht.
  eapply rel_bind; [by apply check_signature_same, same_dstack|]. intros [b1 v1] [b2 v2] [Eb Hv]. cbn in Eb, Hv. subst b2. by apply same_push.
Qed.

Lemma exec_crypto_same op : same_op (exec_crypto op).
Proof.
  destruct op; cbn [exec_crypto]; try (by intros vm vm' _); try apply neutral_same, exec_hash_neutral; try apply exec_check_sig_same;
    try apply multisig_same; apply bind_same; auto using exec_check_sig_same, multisig_same, neutral_same, pop_verify_neutral.
Qed.

Lemma op_execute_same o : same_op (op_execute o).
Proof.
  intros vm vm' Hs. unfold op_execute. destruct (op_of_code (op_value o)).
  all: lazymatch goal with
    | |- rel _ (Ok _) _ => by apply same_push
    | |- rel _ (Err _) _ => done
    | |- rel _ (push_number _ _) _ => by apply (neutral_same _ (push_number_neutral _))
    | |- rel _ (exec_control _ _) _ => by apply (neutral_same _ (exec_control_neutral _))
    | |- rel _ (exec_stack _ _) _ => by apply (neutral_same _ (exec_stack_neutral _))
    | |- rel _ (exec_splice _ _) _ => by apply (neutral_same _ (exec_splice_neutral _))
    | |- rel _ (exec_numeric _ _) _ => by apply (neutral_same _ (exec_numeric_neutral _))
    | |- rel _ (exec_introspection _ _) _ => by apply (neutral_same _ (exec_introspection_neutral _))
    | |- rel _ (exec_check_lock_time_verify _) _ => by apply (neutral_same _ (proj1 lock_time_neutral))
    | |- rel _ (exec_check_sequence_verify _) _ => by apply (neutral_same _ (proj2 lock_time_neutral))
    | |- rel _ (exec_crypto _ _) _ => by apply exec_crypto_same
    end.
Qed.

Lemma execute_opcode_same o : same_op (execute_opcode o).
Proof.
  apply bind_same.
  - intros vm vm' Hs. destruct (negb _); [|by destruct (_ <? _)]. destruct (same_fields _ _ Hs) as (_ & _ & _ & _ & -> & _).
    apply rel_bind_eq. intros n. cbn [num_ops set_num_ops]. destruct (_ <? n); [done|]. by apply same_num_ops.
  - intros vm vm' Hs. unfold is_executing. destruct (same_fields _ _ Hs) as (_ & _ & _ & -> & _). destruct (_ || _); [|done].
    apply rel_bind_eq. intros _. by apply op_execute_same.
Qed.

Lemma execute_script_same script vop : same_op (execute_script script vop).
Proof.
  intros vm vm' Hs. unfold execute_script. apply (rel_bind same).
  - apply rel_foldM; [done|]. clear. intros vm vm' opcode Hs. apply rel_bind_eq. intros o.
    destruct (is_disabled o); [done|]. destruct (always_illegal o); [done|]. destruct (_ && _); [done|].
    eapply rel_bind; [by apply execute_opcode_same|]. intros v1 v2 Hv. destruct (same_fields _ _ Hv) as (-> & -> & _). cbv zeta. by destruct (_ <? _).
  - intros v1 v2 Hv. destruct (same_fields _ _ Hv) as (_ & _ & _ & -> & _). destruct (negb _); [done|]. by apply same_num_ops, same_astack.
Qed.

Lemma execute_indexed_same p2sh st st' p : same st.1 st'.1 /\ st.2 = st'.2 ->
  rel (fun x y => same x.1 y.1 /\ x.2 = y.2) (execute_indexed p2sh st p) (execute_indexed p2sh st' p).
Proof.
  destruct st as [vm saved], st' as [vm' saved'], p as [idx s]. cbn [fst snd]. intros [Hs ->]. unfold execute_indexed.
  destruct (same_fields _ _ Hs) as (-> & _ & -> & _). eapply rel_bind; [by apply execute_script_same|]. by intros v1 v2 Hv.
Qed.

Lemma execute_scripts_same scripts p2sh : same_op (execute_scripts scripts p2sh).
Proof.
  intros vm vm' Hs. unfold execute_scripts. destruct (_ =? 0); [done|]. destruct (forallb _ _); [done|]. destruct (List.find _ _); [done|].
  apply (rel_bind (fun x y => same x.1 y.1 /\ x.2 = y.2)); [apply rel_foldM; [done|apply execute_indexed_same]|]. intros [v1 s1] [v2 s2] [Hv Es]. cbn in Hv, Es. subst s2.
  apply (rel_bind same); [|apply (neutral_same _ (check_error_condition_neutral true))]. destruct p2sh; [|done].
  eapply rel_bind; [by apply (neutral_same _ (check_error_condition_neutral false))|]. intros w1 w2 Hw.
  apply rel_bind_eq. intros s. apply rel_bind_eq. intros script. by apply execute_script_same, same_dstack.
Qed.

Lemma execute_same : same_op execute.
Proof.
  intros vm vm' Hs. unfold execute. destruct (same_fields _ _ Hs) as (_ & _ & -> & _).
  destruct (script_source vm'); [destruct (_ <? _); [done|]|]; by apply execute_scripts_same.
Qed.

End same.

(** The engine on an input with right caches and with none. *)
Lemma execute_transparent tx input idx entry r c :
  tx_inputs (ptx_tx tx) !! idx = Some input -> entries tx !! idx = Some entry -> reused_ok (ptx_tx tx) r -> cache_ok c ->
  rel (fun x y => dstack x = dstack y /\ runtime_sig_op_counter x = runtime_sig_op_counter y /\
         cache_ok (sig_cache x) /\ reused_ok (ptx_tx tx) (reused_values x))
    (vm ← from_transaction_input tx input idx entry r c; execute vm)
    (vm ← from_transaction_input tx input idx entry SigHashReusedValues_new (Cache_new 0 []); execute vm).
Proof.
  intros Hi He Hr Hc. unfold from_transaction_input. pose proof (lookup_lt_Some _ _ _ Hi) as Hlt.
  destruct (Nat.ltb_spec idx (length (tx_inputs (ptx_tx tx)))); [|lia]. run.
  match goal with |- rel _ (execute ?v) (execute ?w) => set (vm := v); set (vm0 := w) end.
  assert (same (script_source vm) vm vm0) as Hs.
  { split_and!; [done..|split; done|split; [intros k v; unfold cache_get; cbn; by rewrite im_get_empty|apply fresh_reused_ok]|]. by exists r, c. }
  apply execute_same in Hs. destruct (execute vm) as [v1| | |], (execute vm0) as [v2| | |]; cbn in Hs |- *; try done.
  destruct (same_fields _ _ _ Hs) as (Ed & _ & _ & _ & _ & Ec). destruct Hs as ([Es _] & [Hc1 Hr1] & _). by rewrite Es in Hr1.
Qed.

(** C18: caches are transparent.  Take two engines for the same input, one that
    starts with any right contents of the signature cache and of the reused
    hashes, and one that starts with none.  They succeed together, leaving the
    same stacks and the same count of signature operations, or return the same
    error; and the caches are right again after a success. *)
Theorem caches_transparent tx input idx entry r c :
  tx_inputs (ptx_tx tx) !! idx = Some input -> entries tx !! idx = Some entry ->
  reused_ok (ptx_tx tx) r -> cache_ok c ->
  exists vm vm0, from_transaction_input tx input idx entry r c = Ok vm /\
    from_transaction_input tx input idx entry SigHashReusedValues_new (Cache_new 0 []) = Ok vm0 /\
    match execute vm, execute vm0 with
    | Ok vm', Ok vm0' => dstack vm' = dstack vm0' /\ used_sig_ops vm' = used_sig_ops vm0' /\
        cache_ok (sig_cache vm') /\ reused_ok (ptx_tx tx) (reused_values vm')
    | Err e, Err e0 => e = e0
    | Panic, Panic | OutOfFuel, OutOfFuel => True
    | _, _ => False
    end.
Proof.
  intros Hi He Hr Hc. pose proof (execute_transparent tx input idx entry r c Hi He Hr Hc) as Ht. revert Ht.
  unfold from_transaction_input. pose proof (lookup_lt_Some _ _ _ Hi) as Hlt.
  destruct (Nat.ltb_spec idx (length (tx_inputs (ptx_tx tx)))); [|lia]. run. intros Ht. eexists _, _. split; [done|]. split; [done|].
  revert Ht. match goal with |- rel _ ?x ?y -> _ => destruct x, y end; cbn; try done. unfold used_sig_ops. by intros (-> & -> & ? & ?).
Qed.
End cache.

Lemma empty_cache_ok `{Crypto, !IndexMap SigCacheKey bool} size rng : cache_ok (Cache_new size rng).
Proof. intros k v. unfold cache_get. cbn. by rewrite im_get_empty. Qed.

(** The right answer for a key that signed nothing. *)
Definition example_cache : @Cache spell_crypto spell_map :=
  @mkCache spell_crypto spell_map [(@mkSigKey spell_crypto (@SigSecp256k1 spell_crypto []) (@PkSchnorr spell_crypto []) 5, false)] 1 [].

Lemma example_cache_ok : cache_ok example_cache.
Proof. intros k v. unfold cache_get. cbn. destruct (decide _) as [->|]; [by intros [= <-]|done]. Qed.

Lemma caches_transparent_witness : exists vm vm0,
  @from_transaction_input spell_crypto spell_map (example_populated []) (example_input []) 0 (UtxoEntry_new 200 (mkSpk 0 [82]) 3 false)
    SigHashReusedValues_new example_cache = Ok vm /\
  @from_transaction_input spell_crypto spell_map (example_populated []) (example_input []) 0 (UtxoEntry_new 200 (mkSpk 0 [82]) 3 false)
    SigHashReusedValues_new (Cache_new 0 []) = Ok vm0 /\
  match @execute spell_hashers spell_crypto spell_map vm, @execute spell_hashers spell_crypto spell_map vm0 with
  | Ok vm', Ok vm0' => dstack vm' = dstack vm0'
  | Err e, Err e0 => e = e0
  | Panic, Panic | OutOfFuel, OutOfFuel => True
  | _, _ => False
  end.
Proof.
  edestruct (@caches_transparent spell_hashers spell_crypto spell_map (example_populated []) (example_input []) 0
    (UtxoEntry_new 200 (mkSpk 0 [82]) 3 false) SigHashReusedValues_new example_cache) as (vm & vm0 & E & E0 & Hm).
  - reflexivity.
  - reflexivity.
  - apply fresh_reused_ok.
  - apply example_cache_ok.
  - exists vm, vm0. split; [exact E|]. split; [exact E0|].
    destruct (@execute spell_hashers spell_crypto spell_map vm), (@execute spell_hashers spell_crypto spell_map vm0); try exact Hm. exact (proj1 Hm).
Defined.
