(* ===== verification/ScriptStd.v ===== *)
(** * Building and classifying scripts

    [ScriptBuilder] ([script_builder.rs]), [ScriptClass] ([script_class.rs]),
    the standard scripts ([standard.rs], [standard/multisig.rs]) of
    [crypto/txscript/src], the data of [crypto/addresses/src/lib.rs] that they
    use, and the escrow script of [consensus/src/processes/coinbase.rs].  A
    builder is the script it holds. *)
From S2P Require Import Prelude Tx Bytes ScriptNum ScriptOps Script.

#[local] Open Scope Z_scope.

(** ** [ScriptBuilder] *)

Inductive ScriptBuilderError :=
  | OpCodeRejected (opcode : Z)
  | OpCodesRejected (n : Z)
  | DataRejected (n : Z)
  | ElementExceedsMaxSize (n : Z)
  | IntegerRejected (n : Z)
  | Serialization (n : Z).

Notation builder_result := (outcome ScriptBuilderError).

Definition add_op (script : list Z) (opcode : Z) : builder_result (list Z) :=
  if MAX_SCRIPTS_SIZE <=? zlen script then Err (OpCodeRejected opcode) else Ok (script ++ [opcode]).

Definition add_ops (script opcodes : list Z) : builder_result (list Z) :=
  if MAX_SCRIPTS_SIZE <? zlen script + zlen opcodes then Err (OpCodesRejected (zlen opcodes)) else Ok (script ++ opcodes).

Definition canonical_data_size (data : list Z) : Z :=
  let data_len := zlen data in
  if (data_len =? 0) || ((data_len =? 1) && ((nth 0 data 0 <=? OP_SMALL_INT_MAX_VAL) || (nth 0 data 0 =? OP_1_NEGATE_VAL))) then 1
  else data_len +
    (if data_len <=? OP_DATA_MAX_VAL then 1 else if data_len <=? 255 then 2 else if data_len <=? 65535 then 3 else 5).

Definition add_raw_data (script data : list Z) : list Z :=
  let data_len := zlen data in
  if data_len =? 0 then script ++ [code_OpFalse]
  else if (data_len =? 1) && (OP_SMALL_INT_MIN_VAL <=? nth 0 data 0) && (nth 0 data 0 <=? OP_SMALL_INT_MAX_VAL)
  then script ++ [code_OpTrue - 1 + nth 0 data 0]
  else if (data_len =? 1) && (nth 0 data 0 =? OP_1_NEGATE_VAL) then script ++ [code_Op1Negate]
  else
    script ++
    (if data_len <=? OP_DATA_MAX_VAL then [OP_DATA_MIN_VAL - 1 + data_len]
     else if data_len <=? 255 then [code_OpPushData1; data_len]
     else if data_len <=? 65535 then code_OpPushData2 :: le_bytes 2 data_len
     else code_OpPushData4 :: le_bytes 4 data_len) ++ data.

Definition add_data (script data : list Z) : builder_result (list Z) :=
  let data_size := canonical_data_size data in
  if MAX_SCRIPTS_SIZE <? zlen script + data_size then Err (DataRejected data_size)
  else if MAX_SCRIPT_ELEMENT_SIZE <? zlen data then Err (ElementExceedsMaxSize (zlen data))
  else Ok (add_raw_data script data).

(** [(Op1 as i64 - 1 + val) as u8] of [-1] is [0x4f], [Op1Negate]. *)
Definition add_i64 (script : list Z) (val : Z) : builder_result (list Z) :=
  if MAX_SCRIPTS_SIZE <? zlen script + 1 then Err (IntegerRejected val)
  else if val =? 0 then Ok (script ++ [code_OpFalse])
  else if (val =? -1) || ((1 <=? val) && (val <=? 16)) then Ok (script ++ [(code_OpTrue - 1 + val) mod 256])
  else
    match serialize_num64 val with
    | Ok bytes => add_data script bytes
    | Err _ => Err (Serialization val)
    | Panic => Panic
    | OutOfFuel => OutOfFuel
    end.

(** The bytes up to the last one that is not zero. *)
Fixpoint trim_zeros (l : list Z) : list Z :=
  match l with
  | [] => []
  | x :: l => match trim_zeros l with [] => if x =? 0 then [] else [x] | t => x :: t end
  end.

Definition add_u64 (script : list Z) (val : Z) : builder_result (list Z) := add_data script (trim_zeros (le_bytes 8 val)).
Definition add_lock_time (script : list Z) (lock_time : Z) : builder_result (list Z) := add_u64 script lock_time.
Definition add_sequence (script : list Z) (sequence : Z) : builder_result (list Z) := add_u64 script sequence.

(** ** [ScriptClass] *)

Inductive ScriptClass := NonStandard | ClassPubKey | ClassPubKeyECDSA | ClassScriptHash | CsvPubKey.

Definition is_pay_to_pubkey (s : list Z) : bool :=
  (zlen s =? 34) && (nth 0 s 0 =? code_OpData32) && (nth 33 s 0 =? code_OpCheckSig).

Definition is_pay_to_pubkey_ecdsa (s : list Z) : bool :=
  (zlen s =? 35) && (nth 0 s 0 =? code_OpData33) && (nth 34 s 0 =? code_OpCheckSigECDSA).

Definition is_csv_pay_to_pubkey (s : list Z) : bool :=
  let len := zlen s in
  if (len <? 37) || (44 <? len) then false
  else
    let seq_len := nth 0 s 0 in
    if (seq_len =? 0) || (8 <? seq_len) then false
    else if negb (len =? seq_len + 36) then false
    else (nth (Z.to_nat (seq_len + 1)) s 0 =? code_OpCheckSequenceVerify) &&
         (nth (Z.to_nat (seq_len + 2)) s 0 =? code_OpData32) && (nth (Z.to_nat (len - 1)) s 0 =? code_OpCheckSig).

Definition ScriptClass_from_script (spk : ScriptPublicKey) : ScriptClass :=
  let s := spk_script spk in
  if spk_version spk =? MAX_SCRIPT_PUBLIC_KEY_VERSION then
    if is_pay_to_pubkey s then ClassPubKey
    else if is_pay_to_pubkey_ecdsa s then ClassPubKeyECDSA
    else if is_pay_to_script_hash s then ClassScriptHash
    else if is_csv_pay_to_pubkey s then CsvPubKey else NonStandard
  else NonStandard.

Definition ScriptClass_version (c : ScriptClass) : Z :=
  match c with NonStandard => 0 | _ => MAX_SCRIPT_PUBLIC_KEY_VERSION end.

(** ** Addresses *)

Inductive Prefix := Mainnet | Testnet | Simnet | Devnet.
Inductive Version := PubKey | PubKeyECDSA | ScriptHash.
Record Address := mkAddress { addr_prefix : Prefix; addr_version : Version; addr_payload : list Z }.

Definition public_key_len (v : Version) : Z := match v with PubKey => 32 | PubKeyECDSA => 33 | ScriptHash => 32 end.

Definition Address_new {E} (prefix : Prefix) (version : Version) (payload : list Z) : outcome E Address :=
  _ ← assert (zlen payload =? public_key_len version);
  Ok (mkAddress prefix version payload).

(** [From<Version> for ScriptClass]. *)
Definition ScriptClass_from_version (v : Version) : ScriptClass :=
  match v with PubKey => ClassPubKey | PubKeyECDSA => ClassPubKeyECDSA | ScriptHash => ClassScriptHash end.

(** ** Standard scripts *)

Definition pay_to_pub_key {E} (payload : list Z) : outcome E (list Z) :=
  _ ← assert (zlen payload =? 32);
  Ok (code_OpData32 :: payload ++ [code_OpCheckSig]).

Definition pay_to_pub_key_ecdsa {E} (payload : list Z) : outcome E (list Z) :=
  _ ← assert (zlen payload =? 33);
  Ok (code_OpData33 :: payload ++ [code_OpCheckSigECDSA]).

Definition pay_to_script_hash {E} (script_hash : list Z) : outcome E (list Z) :=
  _ ← assert (zlen script_hash =? 32);
  Ok (code_OpBlake2b :: code_OpData32 :: script_hash ++ [code_OpEqual]).

Definition pay_to_address_script {E} (a : Address) : outcome E ScriptPublicKey :=
  script ← (match addr_version a with
            | PubKey => pay_to_pub_key (addr_payload a)
            | PubKeyECDSA => pay_to_pub_key_ecdsa (addr_payload a)
            | ScriptHash => pay_to_script_hash (addr_payload a)
            end);
  Ok (mkSpk (ScriptClass_version (ScriptClass_from_version (addr_version a))) script).

Definition pay_to_script_hash_script `{Crypto} {E} (redeem_script : list Z) : outcome E ScriptPublicKey :=
  script ← pay_to_script_hash (Blake2b redeem_script);
  Ok (mkSpk (ScriptClass_version ClassScriptHash) script).

Definition pay_to_script_hash_signature_script (redeem_script signature : list Z) : builder_result (list Z) :=
  redeem_script_as_data ← add_data [] redeem_script;
  Ok (signature ++ redeem_script_as_data).

Definition extract_script_pub_key_address (spk : ScriptPublicKey) (prefix : Prefix) : script_result Address :=
  let class := ScriptClass_from_script spk in
  if ScriptClass_version class <? spk_version spk then Err PubKeyFormat
  else
    match class with
    | NonStandard | CsvPubKey => Err PubKeyFormat
    | ClassPubKey => Address_new prefix PubKey (take 32 (drop 1 (spk_script spk)))
    | ClassPubKeyECDSA => Address_new prefix PubKeyECDSA (take 33 (drop 1 (spk_script spk)))
    | ClassScriptHash => Address_new prefix ScriptHash (take 32 (drop 2 (spk_script spk)))
    end.

(** ** Redeem scripts of multi-signatures *)

Inductive MultisigError := ErrTooManyRequiredSigs | BuilderError (e : ScriptBuilderError) | EmptyKeys.

Definition lift_builder {A} (c : builder_result A) : outcome MultisigError A :=
  match c with Ok a => Ok a | Err e => Err (BuilderError e) | Panic => Panic | OutOfFuel => OutOfFuel end.

(** Both variants; the keys are an exact-size iterator of arrays of 32
    (Schnorr) or 33 bytes. *)
Definition multisig_redeem (ecdsa : bool) (pub_keys : list (list Z)) (required : Z) : outcome MultisigError (list Z) :=
  if zlen pub_keys <? required then Err ErrTooManyRequiredSigs
  else
    script ← lift_builder (add_i64 [] required);
    script ← foldM (fun script key => lift_builder (add_data script key)) script pub_keys;
    let count := zlen pub_keys in
    if count <? required then Err ErrTooManyRequiredSigs
    else if count =? 0 then Err EmptyKeys
    else
      script ← lift_builder (add_i64 script count);
      lift_builder (add_op script (if ecdsa then code_OpCheckMultiSigECDSA else code_OpCheckMultiSig)).

Definition multisig_redeem_script (pub_keys : list (list Z)) (required : Z) := multisig_redeem false pub_keys required.
Definition multisig_redeem_script_ecdsa (pub_keys : list (list Z)) (required : Z) := multisig_redeem true pub_keys required.

(** [build_escrow_script] of the coinbase. *)
Definition build_escrow_script (pubkey_bytes : list Z) (csv_blocks : Z) : option ScriptPublicKey :=
  match (s ← add_sequence [] csv_blocks; s ← add_op s code_OpCheckSequenceVerify;
         s ← add_data s pubkey_bytes; add_op s code_OpCheckSig) with
  | Ok script => Some (mkSpk 0 script)
  | _ => None
  end.
