(* ===== verification/ScriptSpend.v ===== *)
(** * Spending standard scripts

    What the builder writes the parser reads back, and the standard outputs can
    be spent by exactly the inputs they are meant for: pay to public key,
    escrow with a relative lock, and multi-signature behind a script hash. *)
From S2P Require Import Prelude Tx Bytes ScriptNum Hashing ScriptOps Script ScriptSafe ScriptCache ScriptStd.

#[local] Open Scope Z_scope.

(** ** Parsing *)

Lemma deserialize_shorter code it : (length (deserialize_next_opcode code it).2 <= length it)%nat.
Proof.
  unfold deserialize_next_opcode, deserialize_fixed, deserialize_var.
  destruct (op_of_code code); cbn [snd]; try (rewrite length_drop; lia); destruct (_ =? _); cbn [snd]; rewrite !length_drop; lia.
Qed.

Lemma parse_loop_enough n it : (length it <= n)%nat -> parse_loop n it = parse_script it.
Proof.
  unfold parse_script. remember (length it) as m eqn:Em. revert n it Em. induction m as [m IH] using lt_wf_ind. intros n it Em Hn.
  destruct it as [|code it]; [by destruct n, m|]. cbn in Em. destruct n as [|n], m as [|m]; try lia. cbn [parse_loop].
  pose proof (deserialize_shorter code it) as Hs. destruct (deserialize_next_opcode code it) as [r it']. cbn in Hs. f_equal.
  rewrite (IH (length it')) by (done || lia). symmetry. apply IH; (done || lia).
Qed.

Lemma parse_cons code it :
  parse_script (code :: it) = (deserialize_next_opcode code it).1 :: parse_script (deserialize_next_opcode code it).2.
Proof.
  unfold parse_script at 1. cbn [length parse_loop]. pose proof (deserialize_shorter code it) as Hs.
  destruct (deserialize_next_opcode code it) as [r it']. cbn [fst snd] in *. f_equal. by apply parse_loop_enough.
Qed.

(** Codes without data. *)
Definition takes_data (op : Op) : bool :=
  match op with OpData _ | OpPushData1 | OpPushData2 | OpPushData4 => true | _ => false end.

Lemma takes_data_code code : 79 <= code -> takes_data (op_of_code code) = false.
Proof.
  intros Hc. unfold op_of_code. repeat match goal with |- context [if ?b then _ else _] => destruct b eqn:?; [try lia; try done|] end.
  assert (forallb (fun op => negb (takes_data op)) ops_from_nop = true) as Ha by reflexivity.
  destruct (nth_in_or_default (Z.to_nat (code - 97)) ops_from_nop (OpUnknown code)) as [Hin|Hdef]; [|by rewrite Hdef].
  rewrite forallb_forall in Ha. apply Ha in Hin. by apply negb_true_iff.
Qed.

Lemma parse_op code it : 79 <= code -> parse_script (code :: it) = Ok (mkOp code []) :: parse_script it.
Proof.
  intros Hc%takes_data_code. rewrite parse_cons. assert (deserialize_next_opcode code it = (Ok (mkOp code []), it)) as ->; [|done].
  unfold deserialize_next_opcode. by destruct (op_of_code code).
Qed.

(** The bytes that the builder writes for [data]. *)
Definition push_bytes (data : list Z) : list Z := add_raw_data [] data.

Lemma add_raw_data_app script data : add_raw_data script data = script ++ push_bytes data.
Proof. unfold push_bytes, add_raw_data. by repeat case_match. Qed.

Lemma add_data_ok script data script' : add_data script data = Ok script' ->
  script' = script ++ push_bytes data /\ zlen data <= MAX_SCRIPT_ELEMENT_SIZE.
Proof.
  unfold add_data. destruct (_ <? _); [done|]. destruct (Z.ltb_spec MAX_SCRIPT_ELEMENT_SIZE (zlen data)); [done|]. intros [= <-].
  by rewrite add_raw_data_app.
Qed.

(** The opcode that these bytes are. *)
Definition push_op (data : list Z) : OpCode :=
  let n := zlen data in
  if n =? 0 then mkOp 0 []
  else if (n =? 1) && (1 <=? nth 0 data 0) && (nth 0 data 0 <=? 16) then mkOp (80 + nth 0 data 0) []
  else if (n =? 1) && (nth 0 data 0 =? 129) then mkOp 79 []
  else if n <=? 75 then mkOp n data else if n <=? 255 then mkOp 76 data else mkOp 77 data.

Lemma deserialize_data n data rest : zlen data = n -> 1 <= n <= 75 ->
  deserialize_next_opcode n (data ++ rest) = (Ok (mkOp n data), rest).
Proof.
  intros En Hn. unfold deserialize_next_opcode, op_of_code. destruct (Z.eqb_spec n 0); [lia|]. destruct (Z.leb_spec n 75); [|lia].
  unfold deserialize_fixed. assert (Z.to_nat n = length data) as -> by (unfold zlen in En; lia).
  rewrite take_app_length, drop_app_length. unfold zlen. by rewrite Z.eqb_refl.
Qed.

Lemma deserialize_var_data code k data rest : 0 <= zlen data < 256 ^ Z.of_nat k ->
  deserialize_var code k (le_bytes k (zlen data) ++ data ++ rest) = (Ok (mkOp code data), rest).
Proof.
  intros Hd. unfold deserialize_var. rewrite take_app_length', drop_app_length' by (by rewrite length_le_bytes).
  unfold zlen at 1. rewrite length_le_bytes, Z.eqb_refl, of_le_le by done. unfold zlen. rewrite Nat2Z.id.
  by rewrite take_app_length, drop_app_length, Z.eqb_refl.
Qed.

Lemma parse_push data rest : zlen data <= 65535 -> parse_script (push_bytes data ++ rest) = Ok (push_op data) :: parse_script rest.
Proof.
  intros Hlen. unfold push_bytes, add_raw_data, push_op, OP_SMALL_INT_MIN_VAL, OP_SMALL_INT_MAX_VAL, OP_1_NEGATE_VAL, OP_DATA_MAX_VAL, OP_DATA_MIN_VAL.
  cbn [app]. pose proof (zlen_nonneg data). destruct (Z.eqb_spec (zlen data) 0); [cbn [app]; by rewrite parse_cons|].
  destruct ((zlen data =? 1) && (1 <=? nth 0 data 0) && (nth 0 data 0 <=? 16)) eqn:E1.
  { unfold code_OpTrue. cbn [app]. rewrite parse_op by lia. do 3 f_equal. }
  destruct ((zlen data =? 1) && (nth 0 data 0 =? 129)); [cbn [app]; by rewrite parse_op|].
  destruct (Z.leb_spec (zlen data) 75).
  { cbn [app]. rewrite parse_cons, (deserialize_data (1 - 1 + zlen data)) by lia. by replace (1 - 1 + zlen data) with (zlen data) by lia. }
  rewrite <-app_assoc. destruct (Z.leb_spec (zlen data) 255); [|destruct (Z.leb_spec (zlen data) 65535); [|lia]]; cbn [app]; rewrite parse_cons.
  - change (deserialize_next_opcode code_OpPushData1) with (deserialize_var code_OpPushData1 1).
    pose proof (deserialize_var_data code_OpPushData1 1 data rest) as Hv. cbn [le_bytes] in Hv. rewrite Z.mod_small in Hv by lia.
    cbn [app] in Hv. rewrite Hv by (change (256 ^ Z.of_nat 1) with 256; lia). done.
  - change (deserialize_next_opcode code_OpPushData2) with (deserialize_var code_OpPushData2 2).
    rewrite deserialize_var_data by (change (256 ^ Z.of_nat 2) with 65536; lia). done.
Qed.

(** ** Executing pushes *)

(** A byte string that may be a stack element. *)
Notation element d := (zlen d <= MAX_SCRIPT_ELEMENT_SIZE /\ Forall is_byte d).

Section spend.
Context `{Hashers, Crypto, !IndexMap SigCacheKey bool}.

Lemma push_op_codes data : zlen data <= MAX_SCRIPT_ELEMENT_SIZE -> Forall is_byte data ->
  0 <= op_value (push_op data) <= 96 /\ op_value (push_op data) <> 80 /\ zlen (op_data (push_op data)) <= zlen data.
Proof.
  intros Hl Hd. unfold push_op. pose proof (zlen_nonneg data).
  repeat case_match; cbn [op_value op_data]; change (zlen (@nil Z)) with 0; lia.
Qed.

Lemma single data b : zlen data = 1 -> nth 0 data 0 = b -> data = [b].
Proof. destruct data as [|x [|y l]]; unfold zlen; cbn; intros; [lia|congruence|lia]. Qed.

Lemma push_number_small n : 1 <= n <= 16 -> serialize_num64 n = Ok [n].
Proof.
  intros Hn. destruct n as [|p|p]; [lia| |lia]. do 5 (destruct p as [p|p|]; try lia; try reflexivity).
Qed.

(** Room for one more item. *)
Definition room (n : Z) (vm : TxScriptEngine) : Prop := zlen (astack vm) + zlen (dstack vm) + n <= MAX_STACK_SIZE.

Lemma push_op_execute data vm : zlen data <= MAX_SCRIPT_ELEMENT_SIZE -> Forall is_byte data ->
  op_execute (push_op data) vm = Ok (push data vm) /\
  (0 < op_value (push_op data) <= 78 -> check_minimal_data_push (push_op data) = Ok ()).
Proof.
  intros Hl Hd. unfold push_op, MAX_SCRIPT_ELEMENT_SIZE in *. pose proof (zlen_nonneg data).
  destruct (Z.eqb_spec (zlen data) 0) as [E0|E0]; [destruct data; [cbn; split; [done|lia]|unfold zlen in E0; cbn in E0; lia]|].
  destruct (((zlen data =? 1) && (1 <=? nth 0 data 0)) && (nth 0 data 0 <=? 16)) eqn:E1.
  { assert (data = [nth 0 data 0]) as Es by (apply single; lia). set (b := nth 0 data 0) in *. assert (1 <= b <= 16) as Hb by lia.
    split; [|cbn; lia]. unfold op_execute. cbn [op_value]. assert (op_of_code (80 + b) = OpNum b) as ->.
    { unfold op_of_code. repeat match goal with |- context [if ?b then _ else _] => destruct b eqn:?; [try lia|] end; [f_equal; lia|lia]. }
    unfold push_number. rewrite push_number_small, Es by done. done. }
  destruct ((zlen data =? 1) && (nth 0 data 0 =? 129)) eqn:E2; [rewrite (single data 129) by lia; split; [done|cbn; lia]|].
  destruct (Z.leb_spec (zlen data) 75); [|destruct (Z.leb_spec (zlen data) 255)].
  - split.
    + unfold op_execute, op_of_code. cbn [op_value op_data]. destruct (Z.eqb_spec (zlen data) 0); [lia|]. by destruct (Z.leb_spec (zlen data) 75); [|lia].
    + intros _. unfold check_minimal_data_push, OP_SMALL_INT_MIN_VAL, OP_SMALL_INT_MAX_VAL, OP_1_NEGATE_VAL, OP_DATA_MAX_VAL. cbn [op_value op_data].
      destruct (Z.eqb_spec (zlen data) 0); [lia|]. rewrite E1, E2. destruct (Z.leb_spec (zlen data) 75); [|lia]. by rewrite Z.eqb_refl.
  - split; [done|]. intros _. unfold check_minimal_data_push, OP_SMALL_INT_MIN_VAL, OP_SMALL_INT_MAX_VAL, OP_1_NEGATE_VAL, OP_DATA_MAX_VAL. cbn [op_value op_data].
    rewrite E1, E2. destruct (Z.eqb_spec (zlen data) 0), (Z.leb_spec (zlen data) 75), (Z.leb_spec (zlen data) 255); (done || lia).
  - split; [done|]. intros _. unfold check_minimal_data_push, OP_SMALL_INT_MIN_VAL, OP_SMALL_INT_MAX_VAL, OP_1_NEGATE_VAL, OP_DATA_MAX_VAL. cbn [op_value op_data].
    rewrite E1, E2. destruct (Z.eqb_spec (zlen data) 0), (Z.leb_spec (zlen data) 75), (Z.leb_spec (zlen data) 255); try lia. cbn. by destruct (_ <? _).
Qed.

Lemma early_op code : 0 <= code <= 96 ->
  is_disabled (mkOp code []) = false /\ always_illegal (mkOp code []) = false /\ is_push_opcode (mkOp code []) = true.
Proof.
  intros Hc. unfold is_disabled, always_illegal, is_push_opcode, NO_COST_OPCODE, op_of_code. cbn [op_value].
  repeat match goal with |- context [if ?b then _ else _] => destruct b eqn:?; [split_and!; try done; lia|] end. lia.
Qed.

Lemma step_push vop vm data : zlen data <= MAX_SCRIPT_ELEMENT_SIZE -> Forall is_byte data -> is_executing vm = true -> room 1 vm ->
  script_step vop vm (Ok (push_op data)) = Ok (push data vm).
Proof.
  intros Hl Hd Hx Hr. destruct (push_op_codes data Hl Hd) as (Hc & _ & Hdl). destruct (push_op_execute data vm Hl Hd) as [He Hm].
  destruct (early_op (op_value (push_op data)) Hc) as (E1 & E2 & E3). unfold script_step. cbn [mbind outcome_mbind].
  change (is_disabled (push_op data)) with (is_disabled (mkOp (op_value (push_op data)) [])). rewrite E1.
  change (always_illegal (push_op data)) with (always_illegal (mkOp (op_value (push_op data)) [])). rewrite E2.
  change (is_push_opcode (mkOp (op_value (push_op data)) [])) with (is_push_opcode (push_op data)) in E3. rewrite E3, andb_false_r.
  assert (execute_opcode (push_op data) vm = Ok (push data vm)) as ->.
  { unfold execute_opcode. rewrite E3. cbn [negb]. destruct (Z.ltb_spec MAX_SCRIPT_ELEMENT_SIZE (zlen (op_data (push_op data)))); [lia|]. run.
    rewrite Hx. cbn [orb]. destruct (Z.ltb_spec 0 (op_value (push_op data))), (Z.leb_spec (op_value (push_op data)) 78); cbn [andb]; run; try done.
    rewrite Hm by lia. done. }
  run. unfold room in Hr. cbn [push dstack astack set_dstack]. rewrite zlen_app. change (zlen [data]) with 1.
  destruct (Z.ltb_spec MAX_STACK_SIZE (zlen (astack vm) + (zlen (dstack vm) + 1))); [lia|done].
Qed.

Lemma zlen_cons {A} (x : A) l : zlen (x :: l) = zlen l + 1.
Proof. unfold zlen. cbn. lia. Qed.

(** A run of pushes. *)
Lemma steps_push vop datas rest vm : Forall (fun d => element d) datas -> is_executing vm = true -> room (zlen datas) vm ->
  foldM (script_step vop) vm (parse_script ((datas ≫= push_bytes) ++ rest)) =
  foldM (script_step vop) (set_dstack (dstack vm ++ datas) vm) (parse_script rest).
Proof.
  intros Hd. revert vm. induction Hd as [|d datas [Hl Hb] _ IH]; intros vm Hx Hr; cbn [mbind list_bind].
  - rewrite app_nil_r. by destruct vm.
  - rewrite <-app_assoc, parse_push by (unfold MAX_SCRIPT_ELEMENT_SIZE in Hl; lia). cbn [foldM]. rewrite zlen_cons in Hr.
    pose proof (zlen_nonneg datas). rewrite step_push by (done || unfold room in *; lia). run. rewrite IH.
    + f_equal. unfold push, set_dstack. cbn. by rewrite <-app_assoc.
    + done.
    + unfold room in *. cbn [push dstack astack set_dstack]. rewrite zlen_app. change (zlen [d]) with 1. lia.
Qed.

(** An opcode that is neither a push nor part of the control flow. *)
Definition plain_code (code : Z) : bool :=
  (96 <? code) && (code <? 256) && negb (is_disabled (mkOp code [])) && negb (always_illegal (mkOp code [])).

Lemma step_op vm code : plain_code code = true -> is_executing vm = true -> 0 <= num_ops vm < MAX_OPS_PER_SCRIPT ->
  script_step false vm (Ok (mkOp code [])) =
  (vm' ← op_execute (mkOp code []) (set_num_ops (num_ops vm + 1) vm);
   if MAX_STACK_SIZE <? zlen (astack vm') + zlen (dstack vm') then Err (StackSizeExceeded (zlen (astack vm') + zlen (dstack vm')) MAX_STACK_SIZE)
   else Ok vm').
Proof.
  unfold plain_code, MAX_OPS_PER_SCRIPT. intros Hc Hx Hn. apply andb_prop in Hc as [Hc Hi]. apply andb_prop in Hc as [Hc Hdis].
  apply negb_true_iff in Hi, Hdis. unfold script_step. run. rewrite Hdis, Hi. cbn [andb].
  assert (execute_opcode (mkOp code []) vm = op_execute (mkOp code []) (set_num_ops (num_ops vm + 1) vm)) as ->; [|done].
  unfold execute_opcode, is_push_opcode, NO_COST_OPCODE. cbn [op_value]. destruct (Z.leb_spec code 96); [lia|]. cbn [negb].
  rewrite checked_i_ok by (unfold in_i; cbn; lia). run. cbn [num_ops set_num_ops]. unfold MAX_OPS_PER_SCRIPT.
  destruct (Z.ltb_spec 201 (num_ops vm + 1)); [lia|]. run.
  change (is_executing (set_num_ops (num_ops vm + 1) vm)) with (is_executing vm). rewrite Hx. cbn [orb].
  destruct (Z.ltb_spec 0 code), (Z.leb_spec code 78); try lia; done.
Qed.

(** ** Engines that start on an input *)

Definition start (tx : PopulatedTransaction) (input : TransactionInput) (idx : nat) (entry : UtxoEntry) (p2sh : bool)
    (r : SigHashReusedValues) (c : Cache) : TxScriptEngine :=
  mkEngine [] [] (TxInput tx input idx entry p2sh) r c [] 0 (RuntimeSigOpCounter_new (sig_op_count input)).

Lemma start_ok tx input idx entry r c : tx_inputs (ptx_tx tx) !! idx = Some input ->
  from_transaction_input tx input idx entry r c = Ok (start tx input idx entry (is_pay_to_script_hash (spk_script (ue_spk entry))) r c).
Proof.
  intros Hi%lookup_lt_Some. unfold from_transaction_input. by destruct (Nat.ltb_spec idx (length (tx_inputs (ptx_tx tx)))); [|lia].
Qed.

(** The two scripts, one after the other, and the script behind a hash. *)
Lemma execute_two tx input idx entry p2sh r c s0 s1 :
  signature_script input = s0 -> ue_spk entry = mkSpk 0 s1 -> 0 < zlen s0 <= MAX_SCRIPTS_SIZE -> 0 < zlen s1 <= MAX_SCRIPTS_SIZE ->
  execute (start tx input idx entry p2sh r c) =
  (vm0 ← execute_script s0 true (start tx input idx entry p2sh r c);
   vm ← execute_script s1 false vm0;
   vm ← (if p2sh then
           vm ← check_error_condition false vm;
           script ← ok_or EmptyStack (last (dstack vm0));
           execute_script script false (set_dstack (removelast (dstack vm0)) vm)
         else Ok vm);
   check_error_condition true vm).
Proof.
  intros E0 E1 H0' H1'. unfold execute. cbn [script_source start]. rewrite E1. cbn [spk_version spk_script].
  change (MAX_SCRIPT_PUBLIC_KEY_VERSION <? 0) with false. cbn match. rewrite E0. unfold execute_scripts, MAX_SCRIPTS_SIZE in *.
  change (zlen [s0; s1] =? 0) with false. cbn match.
  assert (nonempty s0 = true /\ nonempty s1 = true) as [N0 N1].
  { unfold nonempty. destruct (Z.eqb_spec (zlen s0) 0), (Z.eqb_spec (zlen s1) 0); (done || lia). }
  assert (List.find (fun e => 10000 <? zlen e) [s0; s1] = None) as Ef.
  { cbn. destruct (Z.ltb_spec 10000 (zlen s0)), (Z.ltb_spec 10000 (zlen s1)); (done || lia). }
  assert (List.filter (fun p : nat * list Z => nonempty p.2) (imap (fun i s => (i, s)) [s0; s1]) = [(0%nat, s0); (1%nat, s1)]) as ->.
  { cbn. by rewrite N0, N1. }
  assert (forall vm saved, execute_indexed p2sh (vm, saved) (1%nat, s1) =
    (v ← execute_script s1 false vm; Ok (v, if p2sh then Some (dstack vm) else saved))) as E2 by by destruct p2sh.
  cbn [forallb]. rewrite N0. cbn [negb andb]. rewrite Ef. cbn [foldM].
  assert (execute_indexed p2sh (start tx input idx entry p2sh r c, None) (0%nat, s0) =
    (v ← execute_script s0 true (start tx input idx entry p2sh r c); Ok (v, None))) as -> by by destruct p2sh.
  destruct (execute_script s0 true _) as [vm0| | |]; try done. run. rewrite E2.
  destruct (execute_script s1 false vm0); try done. by destruct p2sh.
Qed.

(** A script of pushes. *)
Lemma execute_pushes vop datas vm : Forall (fun d => element d) datas -> cond_stack vm = [] -> astack vm = [] -> num_ops vm = 0 ->
  room (zlen datas) vm -> execute_script (datas ≫= push_bytes) vop vm = Ok (set_dstack (dstack vm ++ datas) vm).
Proof.
  intros Hd Hc Ha Hn Hr. unfold execute_script. pose proof (steps_push vop datas [] vm Hd) as E. rewrite app_nil_r in E.
  rewrite E by (done || unfold is_executing; by rewrite Hc). cbn [parse_script parse_loop length foldM]. run. cbn [cond_stack set_dstack].
  rewrite Hc. cbn. unfold set_num_ops, set_astack, set_dstack. cbn. by rewrite Ha, Hn.
Qed.

Lemma zlen_le_bytes k x : zlen (le_bytes k x) = Z.of_nat k.
Proof. unfold zlen. by rewrite length_le_bytes. Qed.

Lemma push_bytes_length d : element d -> 0 < zlen (push_bytes d) <= zlen d + 3.
Proof.
  intros [Hl _]. unfold MAX_SCRIPT_ELEMENT_SIZE in Hl. unfold push_bytes, add_raw_data. pose proof (zlen_nonneg d). cbn [app].
  repeat case_match; rewrite ?zlen_cons, ?zlen_app, ?zlen_cons, ?zlen_le_bytes; change (zlen (@nil Z)) with 0; try lia.
Qed.

(** ** Signature checks *)

Section input.
Context (tx : PopulatedTransaction) (input : TransactionInput) (idx : nat) (entry : UtxoEntry).
Context (Hin : tx_inputs (ptx_tx tx) !! idx = Some input) (Hen : entries tx !! idx = Some entry).

(** The answer of [OpCheckSig] ([ecdsa = false]) or [OpCheckSigECDSA] for the
    stack elements [sig] and [key]. *)
Definition check_sig_answer (ecdsa : bool) (ctr : RuntimeSigOpCounter) (sig key : list Z) : script_result bool :=
  match last sig with
  | Some typ =>
      hash_type ← ok_or (InvalidSigHashType typ) (SigHashType_from_u8 typ);
      _ ← consume_sig_op ctr;
      signature_verdict ecdsa (signing_hash ecdsa tx idx input entry hash_type) key (removelast sig)
  | None => Ok false
  end.

Definition check_sig_code (ecdsa : bool) : Z := if ecdsa then code_OpCheckSigECDSA else code_OpCheckSig.

(** A state with two elements on the stack in front of the last opcode. *)
Lemma check_sig_step ecdsa vm sig key p : script_source vm = TxInput tx input idx entry p -> caches_ok vm -> dstack vm = [sig; key] ->
  astack vm = [] -> cond_stack vm = [] -> 0 <= num_ops vm < MAX_OPS_PER_SCRIPT ->
  rel (fun vm' b => dstack vm' = [serialize_bool b] /\ cond_stack vm' = [] /\ caches_ok vm')
    (script_step false vm (Ok (mkOp (check_sig_code ecdsa) []))) (check_sig_answer ecdsa (runtime_sig_op_counter vm) sig key).
Proof using Hin Hen.
  intros Es Hc Hd Ha Hcs Hn. rewrite step_op; [|by destruct ecdsa|by unfold is_executing; rewrite Hcs|done].
  assert (op_execute (mkOp (check_sig_code ecdsa) []) = exec_check_sig ecdsa) as -> by by destruct ecdsa.
  unfold exec_check_sig. cbn [dstack set_num_ops]. rewrite Hd. change (pop_raw 2 [sig; key]) with (Ok (E := TxScriptError) ([sig; key], @nil (list Z))).
  run. cbn [nth]. unfold check_sig_answer. destruct (last sig) as [typ|]; [|cbn; rewrite Ha; cbn; rewrite ?Hcs; done].
  destruct (SigHashType_from_u8 typ) as [ht|]; [|done]. cbn [ok_or]. run.
  set (vm0 := set_dstack [] (set_num_ops (num_ops vm + 1) vm)).
  pose proof (check_signature_spec ecdsa ht key (removelast sig) vm0 tx input idx entry p Es Hin Hen Hc) as Hspec.
  change (runtime_sig_op_counter vm0) with (runtime_sig_op_counter vm) in Hspec.
  destruct (consume_sig_op (runtime_sig_op_counter vm)) as [ctr| | |]; cbn [mbind outcome_mbind] in Hspec |- *;
    [|by destruct (check_signature ecdsa ht key (removelast sig) vm0) as [[b' vm']| | |]..].
  destruct (signature_verdict ecdsa _ key (removelast sig)) as [b| | |]; cbn [mbind outcome_mbind] in Hspec;
    destruct (check_signature ecdsa ht key (removelast sig) vm0) as [[b' vm']| | |]; cbn [rel] in Hspec; try done.
  cbn [fst snd] in Hspec. destruct Hspec as [-> [Hvm' (r & c & ->)]]. cbn. rewrite Ha. destruct b; cbn; rewrite ?Hcs; done.
Qed.

Lemma check_sig_answer_true ecdsa ctr sig key : check_sig_answer ecdsa ctr sig key = Ok true <->
  1 <= sig_op_remaining ctr /\ exists sig' typ ht, sig = sig' ++ [typ] /\ SigHashType_from_u8 typ = Some ht /\
    signature_verdict ecdsa (signing_hash ecdsa tx idx input entry ht) key sig' = Ok true.
Proof.
  unfold check_sig_answer, consume_sig_op. destruct (snoc_cases sig) as [->|(s & t & ->)].
  - cbn. split; [done|]. intros (_ & s & t & ht & E & _). by destruct s.
  - rewrite last_snoc, removelast_last. destruct (SigHashType_from_u8 t) as [ht|] eqn:Et; cbn [ok_or]; run.
    + destruct (Z.ltb_spec (sig_op_remaining ctr) 1); cbn; [split; [done|lia]|]. split.
      * intros E. split; [lia|]. by exists s, t, ht.
      * intros (_ & s' & t' & ht' & E & Et' & E2). apply app_inj_2 in E as [<- [= <-]]; [|done]. rewrite Et in Et'. by injection Et' as <-.
    + split; [done|]. intros (_ & s' & t' & ht' & E & Et' & _). apply app_inj_2 in E as [<- [= <-]]; [|done]. congruence.
Qed.

(** The end of a script after its last opcode, and of the execution. *)
Lemma finish_true (step : script_result TxScriptEngine) (answer : script_result bool) :
  rel (fun vm' b => dstack vm' = [serialize_bool b] /\ cond_stack vm' = [] /\ caches_ok vm') step answer ->
  (exists v, (vm ← (vm ← (vm ← step; Ok vm); if negb (zlen (cond_stack vm) =? 0) then Err ErrUnbalancedConditional
                     else Ok (set_num_ops 0 (set_astack [] vm))); check_error_condition true vm) = Ok v) <-> answer = Ok true.
Proof.
  destruct step as [vm| | |], answer as [b| | |]; cbn [rel]; try done; intros Hr.
  2-4: split; [by intros [v E]|done].
  destruct Hr as (Hd & Hc & _). run. rewrite Hc. change (negb (zlen (@nil OpCond) =? 0)) with false. cbn match. run.
  unfold check_error_condition. cbn [dstack set_num_ops set_astack]. rewrite Hd. destruct b; cbn; split; try done; eauto. by intros [v E].
Qed.

Lemma push_bytes_data d : 2 <= zlen d <= 75 -> push_bytes d = zlen d :: d.
Proof.
  intros Hd. unfold push_bytes, add_raw_data, OP_DATA_MAX_VAL, OP_DATA_MIN_VAL. cbn [app].
  destruct (Z.eqb_spec (zlen d) 0); [lia|]. destruct (Z.eqb_spec (zlen d) 1); [lia|]. cbn [andb].
  destruct (Z.leb_spec (zlen d) 75); [|lia]. done.
Qed.

(** Pay to public key, in the state after the signature script. *)
Lemma key_script_true ecdsa vm sig key p : script_source vm = TxInput tx input idx entry p -> caches_ok vm -> dstack vm = [sig] ->
  astack vm = [] -> cond_stack vm = [] -> 0 <= num_ops vm < MAX_OPS_PER_SCRIPT -> element key ->
  (exists v, (vm ← (vm ← foldM (script_step false) vm (parse_script (push_bytes key ++ [check_sig_code ecdsa]));
                    if negb (zlen (cond_stack vm) =? 0) then Err ErrUnbalancedConditional else Ok (set_num_ops 0 (set_astack [] vm)));
              check_error_condition true vm) = Ok v) <->
  check_sig_answer ecdsa (runtime_sig_op_counter vm) sig key = Ok true.
Proof using Hin Hen.
  intros Es Hc Hd Ha Hcs Hn Hk. pose proof (steps_push false [key] [check_sig_code ecdsa] vm) as Ep.
  cbn [mbind list_bind] in Ep. rewrite app_nil_r, Hd in Ep.
  rewrite Ep; [|by apply Forall_singleton_2|unfold is_executing; by rewrite Hcs|unfold room; by rewrite Ha, Hd].
  rewrite parse_op by (destruct ecdsa; done). cbn [parse_script parse_loop length foldM app].
  apply (finish_true _ (check_sig_answer ecdsa (runtime_sig_op_counter (set_dstack [sig; key] vm)) sig key)).
  by eapply check_sig_step.
Qed.

(** Pay to public key.  An output that pays to a public key, Schnorr or
    ECDSA, can be spent with a signature script that pushes [sig] if and only
    if the input declares a signature operation, [sig] ends in a valid hash
    type, and the rest of [sig] is a signature under that key of the hash of
    this very input. *)
Theorem pay_to_pub_key_spend (ecdsa : bool) (key sig : list Z) r c :
  zlen key = (if ecdsa then 33 else 32) -> Forall is_byte key -> element sig ->
  (if ecdsa then pay_to_pub_key_ecdsa key else pay_to_pub_key key) = Ok (E := TxScriptError) (spk_script (ue_spk entry)) ->
  spk_version (ue_spk entry) = 0 -> add_data [] sig = Ok (signature_script input) ->
  reused_ok (ptx_tx tx) r -> cache_ok c ->
  exists vm, from_transaction_input tx input idx entry r c = Ok vm /\
    ((exists vm', execute vm = Ok vm') <->
     1 <= sig_op_count input /\ exists sig' typ ht, sig = sig' ++ [typ] /\ SigHashType_from_u8 typ = Some ht /\
       signature_verdict ecdsa (signing_hash ecdsa tx idx input entry ht) key sig' = Ok true).
Proof using Hin Hen.
  intros Hlen Hkb Hsig Hspk Hver Hss Hr Hc.
  assert (element key) as Hk by (split; [unfold MAX_SCRIPT_ELEMENT_SIZE; destruct ecdsa; lia|done]).
  assert (spk_script (ue_spk entry) = push_bytes key ++ [check_sig_code ecdsa]) as Escr.
  { rewrite push_bytes_data by (destruct ecdsa; lia). rewrite Hlen.
    destruct ecdsa; [unfold pay_to_pub_key_ecdsa in Hspk|unfold pay_to_pub_key in Hspk]; rewrite Hlen in Hspk; by injection Hspk. }
  assert (is_pay_to_script_hash (spk_script (ue_spk entry)) = false) as Ep.
  { rewrite Escr, push_bytes_data by (destruct ecdsa; lia). rewrite Hlen. unfold is_pay_to_script_hash. cbn [app nth].
    destruct ecdsa; cbn [Z.eqb]; by rewrite andb_false_r. }
  assert (signature_script input = [sig] ≫= push_bytes) as Ess.
  { apply add_data_ok in Hss as [-> _]. cbn. by rewrite app_nil_r. }
  eexists. split; [by apply start_ok|]. rewrite Ep.
  rewrite (execute_two tx input idx entry false r c _ (spk_script (ue_spk entry)) Ess);
    [|destruct (ue_spk entry); cbn in *; by subst| |].
  - rewrite execute_pushes; [|by apply Forall_singleton_2|done..]. run. rewrite Escr.
    cbn [dstack start app]. rewrite <-(check_sig_answer_true ecdsa (RuntimeSigOpCounter_new (sig_op_count input))).
    unfold execute_script.
    rewrite <-(key_script_true ecdsa (set_dstack [sig] (start tx input idx entry false r c)) sig key false) by done.
    split; intros [v E]; exists v; [|rewrite <-E]; [rewrite <-E|]; by destruct (_ ≫= _).
  - cbn. rewrite app_nil_r. pose proof (push_bytes_length sig Hsig). destruct Hsig as [Hs _]. unfold MAX_SCRIPT_ELEMENT_SIZE, MAX_SCRIPTS_SIZE in *. lia.
  - rewrite Escr, zlen_app. change (zlen [_]) with 1. pose proof (push_bytes_length key Hk). destruct Hk as [Hs _].
    unfold MAX_SCRIPT_ELEMENT_SIZE, MAX_SCRIPTS_SIZE in *. lia.
Qed.

(** ** The escrow of the coinbase *)

Lemma push_bytes_head d : element d -> exists b t, push_bytes d = b :: t /\ 0 <= b <= 96.
Proof.
  intros [Hl _]. unfold push_bytes, add_raw_data, MAX_SCRIPT_ELEMENT_SIZE, OP_DATA_MIN_VAL, OP_DATA_MAX_VAL, OP_SMALL_INT_MIN_VAL,
    OP_SMALL_INT_MAX_VAL in *. pose proof (zlen_nonneg d). cbn [app].
  repeat case_match; eexists _, _; (split; [reflexivity|]); unfold code_OpFalse, code_OpTrue, code_Op1Negate, code_OpPushData1, code_OpPushData2 in *; lia.
Qed.

Lemma not_p2sh d rest : element d -> is_pay_to_script_hash (push_bytes d ++ rest) = false.
Proof.
  intros Hd. destruct (push_bytes_head d Hd) as (b & t & -> & Hb). unfold is_pay_to_script_hash, code_OpBlake2b. cbn [app nth].
  destruct (Z.eqb_spec b 170); [lia|]. by rewrite andb_false_r.
Qed.

Lemma trim_zeros_app l : trim_zeros l ++ replicate (length l - length (trim_zeros l)) 0 = l /\ (length (trim_zeros l) <= length l)%nat.
Proof.
  induction l as [|x l [IH1 IH2]]; cbn [trim_zeros]; [done|]. destruct (trim_zeros l) as [|y t] eqn:Et.
  - cbn in IH1. rewrite Nat.sub_0_r in IH1. destruct (Z.eqb_spec x 0) as [->|].
    + cbn [length app Nat.sub replicate]. rewrite IH1. split; [done|lia].
    + cbn [length app Nat.sub]. rewrite Nat.sub_0_r, IH1. split; [done|lia].
  - cbn [length app Nat.sub] in *. rewrite IH1. split; [done|lia].
Qed.

Lemma resize_trim x : 0 <= x < 2 ^ 64 -> resize_u64 (trim_zeros (le_bytes 8 x)) = Ok x.
Proof.
  intros Hx. unfold resize_u64. destruct (trim_zeros_app (le_bytes 8 x)) as [Ht Hl]. rewrite length_le_bytes in Ht, Hl.
  destruct (Z.ltb_spec 8 (zlen (trim_zeros (le_bytes 8 x)))); [unfold zlen in *; lia|]. by rewrite Ht, of_le_le.
Qed.

Lemma trim_element x : element (trim_zeros (le_bytes 8 x)).
Proof.
  destruct (trim_zeros_app (le_bytes 8 x)) as [Ht Hl]. rewrite length_le_bytes in Hl. split; [unfold zlen, MAX_SCRIPT_ELEMENT_SIZE; lia|].
  pose proof (le_bytes_bytes 8 x) as Hb. rewrite <-Ht in Hb. by apply Forall_app in Hb as [? _].
Qed.

Lemma sequence_disabled x : 0 <= x < 2 ^ 64 -> (Z.land x SEQUENCE_LOCK_TIME_DISABLED =? 0) = (x <? 2 ^ 63).
Proof.
  intros Hx. rewrite land_disabled, Z.testbit_eqb by lia. destruct (Z.ltb_spec x (2 ^ 63)); [by rewrite Z.div_small by lia|].
  replace (x / 2 ^ 63) with 1; [done|]. apply (Z.div_unique _ _ _ (x - 2 ^ 63)); lia.
Qed.

(** The relative lock, as the first step of the escrow script. *)
Lemma sequence_verify vm csv below p : script_source vm = TxInput tx input idx entry p -> 0 <= csv < 2 ^ 63 -> in_u 64 (sequence input) ->
  dstack vm = below ++ [trim_zeros (le_bytes 8 csv)] ->
  exec_check_sequence_verify vm =
  if (sequence input <? 2 ^ 63) && (csv mod 2 ^ 32 <=? sequence input mod 2 ^ 32) then Ok (set_dstack below vm) else Err UnsatisfiedLockTime.
Proof.
  intros Es Hcsv Hseq Hd. unfold exec_check_sequence_verify. rewrite Es, Hd. unfold in_u in Hseq. unfold pop_raw. rewrite length_app. cbn [length].
  destruct (Nat.ltb_spec (length below + 1) 1); [lia|]. replace (length below + 1 - 1)%nat with (length below) by lia.
  rewrite take_app_length, drop_app_length. run. cbn [nth]. rewrite resize_trim by lia. run. rewrite !sequence_disabled, !land_mask by lia.
  destruct (Z.ltb_spec csv (2 ^ 63)); [|lia]. cbn [negb]. destruct (sequence input <? 2 ^ 63); [|done]. cbn [negb andb].
  destruct (Z.ltb_spec (sequence input mod 2 ^ 32) (csv mod 2 ^ 32)), (Z.leb_spec (csv mod 2 ^ 32) (sequence input mod 2 ^ 32)); (done || lia).
Qed.

Lemma escrow_script key csv spk : build_escrow_script key csv = Some spk ->
  spk = mkSpk 0 (push_bytes (trim_zeros (le_bytes 8 csv)) ++ code_OpCheckSequenceVerify :: push_bytes key ++ [code_OpCheckSig]) /\
  zlen key <= MAX_SCRIPT_ELEMENT_SIZE.
Proof.
  unfold build_escrow_script. match goal with |- match ?c with _ => _ end = _ -> _ => destruct c as [script| | |] eqn:E; try done end.
  intros [= <-]. apply bind_Ok in E as (s1 & E1 & E). apply bind_Ok in E as (s2 & E2 & E). apply bind_Ok in E as (s3 & E3 & E).
  apply add_data_ok in E1 as [-> _]. apply add_data_ok in E3 as [-> Hk]. unfold add_op in E2, E.
  destruct (_ <=? _) in E2; [done|]. destruct (_ <=? _) in E; [done|]. injection E2 as <-. injection E as <-.
  split; [|done]. f_equal. by rewrite <-!app_assoc.
Qed.

(** The escrow script, in the state after the signature script. *)
Lemma escrow_true vm sig key csv : script_source vm = TxInput tx input idx entry false -> caches_ok vm -> dstack vm = [sig] ->
  astack vm = [] -> cond_stack vm = [] -> num_ops vm = 0 -> element key -> 0 <= csv < 2 ^ 63 -> in_u 64 (sequence input) ->
  (exists v, (vm ← execute_script (push_bytes (trim_zeros (le_bytes 8 csv)) ++ code_OpCheckSequenceVerify :: push_bytes key ++ [code_OpCheckSig]) false vm;
              check_error_condition true vm) = Ok v) <->
  (sequence input < 2 ^ 63 /\ csv mod 2 ^ 32 <= sequence input mod 2 ^ 32) /\
  check_sig_answer false (runtime_sig_op_counter vm) sig key = Ok true.
Proof using Hin Hen.
  intros Es Hc Hd Ha Hcs Hn Hk Hcsv Hseq. unfold execute_script. set (n := trim_zeros (le_bytes 8 csv)).
  pose proof (steps_push false [n] (code_OpCheckSequenceVerify :: push_bytes key ++ [code_OpCheckSig]) vm) as Ep.
  cbn [mbind list_bind] in Ep. rewrite app_nil_r, Hd in Ep.
  rewrite Ep; [|apply Forall_singleton_2, trim_element|unfold is_executing; by rewrite Hcs|unfold room; by rewrite Ha, Hd].
  rewrite parse_op by done. cbn [foldM]. set (vm1 := set_dstack ([sig] ++ [n]) vm).
  rewrite step_op; [|done|unfold is_executing; cbn; by rewrite Hcs|cbn; by rewrite Hn].
  change (op_execute (mkOp code_OpCheckSequenceVerify [])) with exec_check_sequence_verify.
  rewrite (sequence_verify (set_num_ops (num_ops vm1 + 1) vm1) csv [sig] false Es Hcsv Hseq) by done.
  destruct ((sequence input <? 2 ^ 63) && (csv mod 2 ^ 32 <=? sequence input mod 2 ^ 32)) eqn:Elock.
  - apply andb_prop in Elock as [H1%Z.ltb_lt H2%Z.leb_le]. run. cbn [astack dstack set_dstack set_num_ops vm1]. rewrite Ha.
    change (MAX_STACK_SIZE <? zlen (@nil (list Z)) + zlen [sig]) with false. cbn match. run.
    rewrite (key_script_true false _ sig key false); [|done|done|done|done|done|cbn; rewrite Hn; done|done]. tauto.
  - cbn. split; [by intros [v ?]|]. intros [[? ?] _]. apply andb_false_iff in Elock as [?%Z.ltb_ge|?%Z.leb_gt]; lia.
Qed.

(** C26: the escrow of a block reward.  The output that [build_escrow_script]
    makes for [key] and a lock of [csv] blocks can be spent with a signature
    script that pushes [sig] if and only if the sequence of the input has the
    disabling bit clear and a relative lock of at least [csv] (both modulo
    [2^32]), the input declares a signature operation and [sig] is a Schnorr
    signature of this input under [key], with a valid hash type. *)
Theorem escrow_spend (key sig : list Z) (csv : Z) r c :
  build_escrow_script key csv = Some (ue_spk entry) -> 0 <= csv < 2 ^ 63 -> Forall is_byte key ->
  add_data [] sig = Ok (signature_script input) -> Forall is_byte sig -> in_u 64 (sequence input) ->
  reused_ok (ptx_tx tx) r -> cache_ok c ->
  exists vm, from_transaction_input tx input idx entry r c = Ok vm /\
    ((exists vm', execute vm = Ok vm') <->
     (sequence input < 2 ^ 63 /\ csv mod 2 ^ 32 <= sequence input mod 2 ^ 32) /\
     1 <= sig_op_count input /\ exists sig' typ ht, sig = sig' ++ [typ] /\ SigHashType_from_u8 typ = Some ht /\
       signature_verdict false (signing_hash false tx idx input entry ht) key sig' = Ok true).
Proof using Hin Hen.
  intros Hspk Hcsv Hkb Hss Hsb Hseq Hr Hc. apply escrow_script in Hspk as [Espk Hkl]. apply add_data_ok in Hss as [Ess Hsl]. cbn [app] in Ess.
  assert (is_pay_to_script_hash (spk_script (ue_spk entry)) = false) as Ep by (rewrite Espk; apply not_p2sh, trim_element).
  assert (element sig) as Hsig by done. assert (element key) as Hk by done.
  eexists. split; [by apply start_ok|]. rewrite Ep.
  assert (signature_script input = [sig] ≫= push_bytes) as Ess' by (rewrite Ess; cbn; by rewrite app_nil_r).
  rewrite (execute_two tx input idx entry false r c _ _ Ess' Espk).
  - rewrite execute_pushes; [|by apply Forall_singleton_2|done..]. run. cbn [dstack start app].
    rewrite <-(check_sig_answer_true false (RuntimeSigOpCounter_new (sig_op_count input))).
    rewrite <-(escrow_true (set_dstack [sig] (start tx input idx entry false r c)) sig key csv) by done.
    split; intros [v E]; exists v; rewrite <-E; by destruct (execute_script _ false _).
  - rewrite <-Ess', Ess. pose proof (push_bytes_length sig Hsig). unfold MAX_SCRIPT_ELEMENT_SIZE, MAX_SCRIPTS_SIZE in *. lia.
  - rewrite zlen_app, zlen_cons, zlen_app. change (zlen [_]) with 1. pose proof (push_bytes_length key Hk).
    pose proof (trim_element csv) as Ht. pose proof (push_bytes_length _ Ht). destruct Ht.
    unfold MAX_SCRIPT_ELEMENT_SIZE, MAX_SCRIPTS_SIZE in *. lia.
Qed.
End input.
End spend.

Definition spending_input (script : list Z) : TransactionInput := mkInput (mkOutpoint 7 0) script 5 1.
Definition spent_entry (spk : ScriptPublicKey) : UtxoEntry := UtxoEntry_new 200 spk 3 false.
Definition spending (spk : ScriptPublicKey) (script : list Z) : PopulatedTransaction :=
  mkPopulated (mkTransaction 0 [spending_input script] [mkOutput 100 (mkSpk 0 [81])] 0 SUBNETWORK_ID_NATIVE 0 [] 0 0) [spent_entry spk].

Lemma replicate_bytes n b : 0 <= b < 256 -> Forall is_byte (replicate n b).
Proof. intros Hb. by apply Forall_replicate. Qed.

Lemma pay_to_pub_key_spend_witness : exists spk sig vm,
  @from_transaction_input spell_crypto spell_map (spending spk (push_bytes sig)) (spending_input (push_bytes sig)) 0 (spent_entry spk)
    SigHashReusedValues_new (Cache_new 0 []) = Ok vm /\
  ((exists vm', @execute spell_hashers spell_crypto spell_map vm = Ok vm') <->
   1 <= 1 /\ exists sig' typ ht, sig = sig' ++ [typ] /\ SigHashType_from_u8 typ = Some ht /\
     @signature_verdict spell_crypto false (@signing_hash spell_hashers false (spending spk (push_bytes sig)) 0
       (spending_input (push_bytes sig)) (spent_entry spk) ht) (replicate 32 9) sig' = Ok true).
Proof.
  exists (mkSpk 0 (32 :: replicate 32 9 ++ [172])), (replicate 64 3 ++ [1]).
  apply (@pay_to_pub_key_spend spell_hashers spell_crypto spell_map
    (spending (mkSpk 0 (32 :: replicate 32 9 ++ [172])) (push_bytes (replicate 64 3 ++ [1])))
    (spending_input (push_bytes (replicate 64 3 ++ [1]))) 0 (spent_entry (mkSpk 0 (32 :: replicate 32 9 ++ [172])))
    eq_refl eq_refl false (replicate 32 9) (replicate 64 3 ++ [1])); try reflexivity.
  - apply replicate_bytes. lia.
  - split; [discriminate|]. apply Forall_app_2; [apply replicate_bytes; lia|]. apply Forall_singleton_2. unfold is_byte. lia.
  - apply fresh_reused_ok.
  - apply empty_cache_ok.
Defined.

Lemma escrow_spend_witness : exists spk sig vm, build_escrow_script (replicate 32 9) 3 = Some spk /\
  @from_transaction_input spell_crypto spell_map (spending spk (push_bytes sig)) (spending_input (push_bytes sig)) 0 (spent_entry spk)
    SigHashReusedValues_new (Cache_new 0 []) = Ok vm /\
  ((exists vm', @execute spell_hashers spell_crypto spell_map vm = Ok vm') <->
   (5 < 2 ^ 63 /\ 3 mod 2 ^ 32 <= 5 mod 2 ^ 32) /\
   1 <= 1 /\ exists sig' typ ht, sig = sig' ++ [typ] /\ SigHashType_from_u8 typ = Some ht /\
     @signature_verdict spell_crypto false (@signing_hash spell_hashers false (spending spk (push_bytes sig)) 0
       (spending_input (push_bytes sig)) (spent_entry spk) ht) (replicate 32 9) sig' = Ok true).
Proof.
  exists (mkSpk 0 (83 :: 177 :: 32 :: replicate 32 9 ++ [172])), (replicate 64 3 ++ [1]).
  edestruct (@escrow_spend spell_hashers spell_crypto spell_map
    (spending (mkSpk 0 (83 :: 177 :: 32 :: replicate 32 9 ++ [172])) (push_bytes (replicate 64 3 ++ [1])))
    (spending_input (push_bytes (replicate 64 3 ++ [1]))) 0 (spent_entry (mkSpk 0 (83 :: 177 :: 32 :: replicate 32 9 ++ [172])))
    eq_refl eq_refl (replicate 32 9) (replicate 64 3 ++ [1]) 3 SigHashReusedValues_new (Cache_new 0 [])) as (vm & E1 & E2).
  - reflexivity.
  - lia.
  - apply replicate_bytes. lia.
  - reflexivity.
  - apply Forall_app_2; [apply replicate_bytes; lia|]. apply Forall_singleton_2. unfold is_byte. lia.
  - done.
  - apply fresh_reused_ok.
  - apply empty_cache_ok.
  - exists vm. split; [reflexivity|]. split; [exact E1|exact E2].
Defined.
