(* ===== verification/ScriptMultisig.v ===== *)
(** * Multi-signatures behind a script hash

    The greedy matching of [op_check_multisig_schnorr_or_ecdsa] accepts exactly
    the signature lists that can be assigned to keys in order, and an output
    that pays to the hash of a redeem script of [multisig_redeem_script] is
    spent by exactly those. *)
From S2P Require Import Prelude Tx Bytes ScriptNum Hashing ScriptOps Script ScriptSafe ScriptCache ScriptStd ScriptSpend.

#[local] Open Scope Z_scope.

(** ** The greedy matching *)

Section greedy.
Context {K S : Type} (valid : K -> S -> bool).

(** The inner and the outer loop, for answers that are known. *)
Fixpoint greedy_find (s : S) (needed : nat) (keys : list K) : option (list K) :=
  if (length keys <? needed)%nat then None
  else match keys with [] => None | k :: keys => if valid k s then Some keys else greedy_find s needed keys end.

Fixpoint greedy (sigs : list S) (keys : list K) : bool :=
  match sigs with
  | [] => true
  | s :: rest => match greedy_find s (length sigs) keys with Some keys => greedy rest keys | None => false end
  end.

(** An assignment of keys to the signatures that keeps their order. *)
Definition assignable (sigs : list S) (keys : list K) : Prop :=
  exists ks, ks `sublist_of` keys /\ Forall2 (fun s k => valid k s = true) sigs ks.

Lemma assignable_length sigs keys : assignable sigs keys -> (length sigs <= length keys)%nat.
Proof. intros (ks & Hsub & Hf). apply Forall2_length in Hf. apply sublist_length in Hsub. lia. Qed.

Lemma assignable_skip s sigs k keys : valid k s = false -> assignable (s :: sigs) (k :: keys) <-> assignable (s :: sigs) keys.
Proof.
  intros Hv. split; intros (ks & Hsub & Hf); exists ks; (split; [|done]).
  - apply sublist_cons_r in Hsub as [?|(ks' & -> & _)]; [done|]. apply Forall2_cons in Hf as [Hf _]. congruence.
  - by apply sublist_cons.
Qed.

Lemma assignable_take s sigs k keys : valid k s = true -> assignable (s :: sigs) (k :: keys) <-> assignable sigs keys.
Proof.
  intros Hv. split.
  - intros (ks & Hsub & Hf). destruct ks as [|k' ks]; [by apply Forall2_cons_nil_inv in Hf|]. apply Forall2_cons in Hf as [_ Hf].
    exists ks. split; [|done]. apply sublist_cons_r in Hsub as [Hsub|(ks' & [= -> ->] & ?)]; [|done].
    by apply sublist_cons_l in Hsub as (k1 & k2 & -> & ?); apply sublist_inserts_l, sublist_cons.
  - intros (ks & Hsub & Hf). exists (k :: ks). split; [by apply sublist_skip|]. by constructor.
Qed.

Lemma greedy_correct sigs keys : greedy sigs keys = true <-> assignable sigs keys.
Proof.
  revert keys. induction sigs as [|s sigs IH]; intros keys; cbn [greedy].
  - split; [|done]. intros _. exists []. split; [apply sublist_nil_l|constructor].
  - induction keys as [|k keys IHk]; cbn [greedy_find].
    + destruct (Nat.ltb_spec (length (@nil K)) (length (s :: sigs))); (split; [done|]); intros Ha%assignable_length; cbn in *; lia.
    + destruct (Nat.ltb_spec (length (k :: keys)) (length (s :: sigs))).
      { split; [done|]. intros Ha%assignable_length. lia. }
      destruct (valid k s) eqn:Ev; [by rewrite IH, assignable_take|]. by rewrite IHk, assignable_skip.
Qed.
End greedy.

Section multisig.
Context `{Hashers, Crypto, !IndexMap SigCacheKey bool}.
Context (tx : PopulatedTransaction) (input : TransactionInput) (idx : nat) (entry : UtxoEntry).
Context (Hin : tx_inputs (ptx_tx tx) !! idx = Some input) (Hen : entries tx !! idx = Some entry).
Context (ecdsa : bool).

(** A signature of the right shape for a key: 64 bytes and a hash type, and
    both parse. *)
Definition checkable (sig key : list Z) : Prop :=
  exists s typ ht b, sig = s ++ [typ] /\ SigHashType_from_u8 typ = Some ht /\
    signature_verdict ecdsa (signing_hash ecdsa tx idx input entry ht) key s = Ok b.

(** The signature verifies under the key. *)
Definition verifies (key sig : list Z) : bool :=
  match last sig with
  | Some typ =>
      match SigHashType_from_u8 typ with
      | Some ht => match signature_verdict ecdsa (signing_hash ecdsa tx idx input entry ht) key (removelast sig) with Ok b => b | _ => false end
      | None => false
      end
  | None => false
  end.

Definition ready (n : nat) (vm : TxScriptEngine) : Prop :=
  caches_ok vm /\ (exists p, script_source vm = TxInput tx input idx entry p) /\ Z.of_nat n <= sig_op_remaining (runtime_sig_op_counter vm).

(** The fields that signature checks leave alone. *)
Definition same_frame (vm vm' : TxScriptEngine) : Prop :=
  dstack vm' = dstack vm /\ astack vm' = astack vm /\ cond_stack vm' = cond_stack vm /\ num_ops vm' = num_ops vm.

Lemma find_key_greedy s typ ht needed keys vm : (1 <= needed)%nat -> SigHashType_from_u8 typ = Some ht ->
  Forall (checkable (s ++ [typ])) keys -> ready (length keys) vm ->
  exists vm', find_key ecdsa ht s needed keys vm = Ok (greedy_find verifies (s ++ [typ]) needed keys, vm') /\ same_frame vm vm' /\
    forall rest, greedy_find verifies (s ++ [typ]) needed keys = Some rest -> ready (length rest) vm' /\ rest `suffix_of` keys.
Proof using Hin Hen.
  intros Hn Ht Hk. revert vm. induction Hk as [|k keys Hck Hk IH]; intros vm Hvm; cbn [find_key greedy_find].
  - destruct (Nat.ltb_spec (length (@nil (list Z))) needed); [by exists vm|cbn in *; lia].
  - destruct (_ <? needed)%nat; [by exists vm|]. destruct Hvm as (Hc & [p Hp] & Hrem).
    destruct Hck as (s' & typ' & ht' & b & Es & Ht' & Ev). apply app_inj_2 in Es as [<- [= <-]]; [|done]. rewrite Ht in Ht'. injection Ht' as <-.
    assert (verifies k (s ++ [typ]) = b) as -> by (unfold verifies; by rewrite last_snoc, removelast_last, Ht, Ev).
    pose proof (check_signature_spec ecdsa ht k s vm tx input idx entry p Hp Hin Hen Hc) as Hspec. rewrite Ev in Hspec.
    unfold consume_sig_op in Hspec. cbn [length] in Hrem. destruct (Z.ltb_spec (sig_op_remaining (runtime_sig_op_counter vm)) 1); [lia|].
    cbn [mbind outcome_mbind] in Hspec. destruct (check_signature ecdsa ht k s vm) as [[b' vm']| | |]; cbn [rel fst snd] in Hspec; try done.
    destruct Hspec as [-> [Hc' (r & c & ->)]]. run.
    assert (forall m, (m <= length keys)%nat -> ready m (set_caches r c (set_counter
      (mkCounter (sig_op_limit (runtime_sig_op_counter vm)) (sig_op_remaining (runtime_sig_op_counter vm) - 1)) vm))) as Hready.
    { intros m Hm. split; [done|]. split; [by exists p|]. cbn. lia. }
    destruct b.
    + eexists. split; [done|]. split; [done|]. intros rest [= <-]. split; [by apply Hready|]. by apply suffix_cons_r.
    + destruct (IH _ (Hready (length keys) ltac:(lia))) as (vm2 & E2 & Hf2 & Hr2). exists vm2. split; [done|].
      split; [done|]. intros rest Hrest. destruct (Hr2 rest Hrest) as [? ?]. split; [done|]. by apply suffix_cons_r.
Qed.

Lemma match_signatures_greedy sigs keys vm : Forall (fun sig => Forall (checkable sig) keys /\
    exists s typ ht, sig = s ++ [typ] /\ SigHashType_from_u8 typ = Some ht) sigs -> ready (length keys) vm ->
  exists vm', match_signatures ecdsa sigs keys vm = Ok (negb (greedy verifies sigs keys), vm') /\ same_frame vm vm'.
Proof using Hin Hen.
  revert keys vm. induction sigs as [|sig sigs IH]; intros keys vm Hs Hvm; [by exists vm|].
  apply Forall_cons in Hs as [[Hck (s & typ & ht & -> & Ht)] Hs]. cbn [match_signatures greedy]. rewrite last_snoc, removelast_last, Ht.
  cbn [ok_or]. run. destruct (find_key_greedy s typ ht (length ((s ++ [typ]) :: sigs)) keys vm) as (vm' & -> & Hf & Hrest); [cbn; lia|done..|].
  run. destruct (greedy_find verifies (s ++ [typ]) (length ((s ++ [typ]) :: sigs)) keys) as [rest|]; [|by exists vm'].
  destruct (Hrest rest eq_refl) as [Hvm' Hsuf]. destruct (IH rest vm') as (vm2 & E & Hf2); [|done|].
  - eapply Forall_impl; [done|]. cbn. intros sig [Hc Hsh]. split; [|done]. destruct Hsuf as [pre ->]. by apply Forall_app in Hc as [_ ?].
  - exists vm2. split; [done|]. unfold same_frame in *. destruct Hf as (<- & <- & <- & <-). done.
Qed.

(** ** The opcode *)

(** The encoding of a number of keys or signatures. *)
Definition small_bytes (n : Z) : list Z := if n =? 0 then [] else [n].

Lemma small_cases (P : Z -> Prop) : Forall P [0;1;2;3;4;5;6;7;8;9;10;11;12;13;14;15;16;17;18;19;20] -> forall n, 0 <= n <= 20 -> P n.
Proof.
  rewrite Forall_forall. intros HP n Hn. apply HP.
  change (n ∈ Z.of_nat <$> seq 0 21). apply list_elem_of_fmap. exists (Z.to_nat n). rewrite elem_of_seq. lia.
Qed.

Lemma small_num32 n : 0 <= n <= 20 -> deserialize_num32 (small_bytes n) = Ok n.
Proof. revert n. apply small_cases. repeat constructor. Qed.

Lemma small_add script n script' : 0 <= n <= 20 -> add_i64 script n = Ok script' -> script' = script ++ push_bytes (small_bytes n).
Proof.
  intros Hn. unfold add_i64. destruct (_ <? _); [done|]. destruct (Z.eqb_spec n 0) as [->|Hn0]; [by intros [= <-]|].
  destruct (Z.eqb_spec n (-1)); [lia|]. cbn [orb]. destruct ((1 <=? n) && (n <=? 16)) eqn:E.
  - unfold small_bytes, push_bytes, add_raw_data. destruct (Z.eqb_spec n 0); [lia|]. change (zlen [n]) with 1. cbn [nth app].
    unfold OP_SMALL_INT_MIN_VAL, OP_SMALL_INT_MAX_VAL. cbn [Z.eqb Pos.eqb andb]. rewrite E. unfold code_OpTrue. rewrite Z.mod_small by lia. by intros [= <-].
  - assert (serialize_num64 n = Ok [n] /\ small_bytes n = [n]) as [-> ->].
    { assert (n = 17 \/ n = 18 \/ n = 19 \/ n = 20) as Hc by lia. by destruct Hc as [->|[->|[->| ->]]]. }
    by intros [-> _]%add_data_ok.
Qed.

Lemma pop_num32_snoc (s : Stack) v x : deserialize_num32 v = Ok x -> pop_items deserialize_num32 1 (s ++ [v]) = Ok ([x], s).
Proof.
  intros E. unfold pop_items, pop_raw. rewrite length_app. cbn [length]. destruct (Nat.ltb_spec (length s + 1) 1); [lia|].
  replace (length s + 1 - 1)%nat with (length s) by lia. rewrite take_app_length, drop_app_length. run. cbn [mapM']. by rewrite E.
Qed.

Lemma split_off_app (s t : Stack) : split_off_last (zlen t) (s ++ t) = Ok (t, s).
Proof.
  unfold split_off_last. rewrite zlen_app. pose proof (zlen_nonneg s). destruct (Z.leb_spec (zlen t) (zlen s + zlen t)); [|lia].
  unfold zlen. rewrite Nat2Z.id, length_app. replace (length s + length t - length t)%nat with (length s) by lia.
  by rewrite take_app_length, drop_app_length.
Qed.

(** The opcode on a stack that the redeem script prepared. *)
Lemma multisig_op vm sigs keys : zlen sigs <= zlen keys <= 20 -> num_ops vm + zlen keys <= MAX_OPS_PER_SCRIPT -> 0 <= num_ops vm ->
  Forall (fun sig => Forall (checkable sig) keys /\ exists s typ ht, sig = s ++ [typ] /\ SigHashType_from_u8 typ = Some ht) sigs ->
  ready (length keys) vm ->
  dstack vm = sigs ++ [small_bytes (zlen sigs)] ++ keys ++ [small_bytes (zlen keys)] ->
  exists vm', same_frame (set_num_ops (num_ops vm + zlen keys) (set_dstack [] vm)) vm' /\
    op_check_multisig_schnorr_or_ecdsa ecdsa vm =
    if greedy verifies sigs keys then Ok (push_bool true vm') else Err NullFail.
Proof using Hin Hen.
  intros Hl Hops Hn Hs Hvm Hd. pose proof (zlen_nonneg sigs). pose proof (zlen_nonneg keys). unfold MAX_OPS_PER_SCRIPT in *.
  destruct (match_signatures_greedy sigs keys (set_dstack [] (set_num_ops (num_ops vm + zlen keys) vm))) as (vm' & Em & Hf); [done|done|].
  exists vm'. split; [done|]. unfold op_check_multisig_schnorr_or_ecdsa. rewrite Hd, !app_assoc.
  rewrite (pop_num32_snoc _ _ (zlen keys)) by (apply small_num32; lia). run. cbn [nth]. unfold MAX_PUB_KEYS_PER_MUTLTISIG.
  destruct (Z.ltb_spec (zlen keys) 0); [lia|]. destruct (Z.ltb_spec 20 (zlen keys)); [lia|].
  rewrite checked_i_ok by (unfold in_i; cbn; lia). run. cbn [num_ops set_num_ops]. unfold MAX_OPS_PER_SCRIPT.
  destruct (Z.ltb_spec 201 (num_ops vm + zlen keys)); [lia|]. rewrite split_off_app. run.
  rewrite (pop_num32_snoc _ _ (zlen sigs)) by (apply small_num32; lia). run. cbn [nth].
  destruct (Z.ltb_spec (zlen sigs) 0); [lia|]. destruct (Z.ltb_spec (zlen keys) (zlen sigs)); [lia|].
  pose proof (split_off_app [] sigs) as Eo. cbn [app] in Eo. rewrite Eo. run. rewrite Em. run.
  destruct (greedy verifies sigs keys) eqn:Eg; cbn [negb andb]; [done|].
  assert (existsb (fun sig => negb (zlen sig =? 0)) sigs = true) as ->; [|done].
  destruct sigs as [|sig sigs]; [done|]. cbn [existsb]. apply Forall_cons in Hs as [[_ (s & typ & ht & -> & _)] _].
  rewrite zlen_app. pose proof (zlen_nonneg s). change (zlen [typ]) with 1. destruct (Z.eqb_spec (zlen s + 1) 0); [lia|done].
Qed.

(** ** The redeem script *)

Lemma lift_builder_ok {A} (c : builder_result A) a : lift_builder c = Ok a -> c = Ok a.
Proof. destruct c; cbn; congruence. Qed.

Lemma add_keys keys script script' : foldM (fun script key => lift_builder (add_data script key)) script keys = Ok script' ->
  script' = script ++ (keys ≫= push_bytes).
Proof.
  revert script. induction keys as [|k keys IH]; intros script; cbn [foldM mbind list_bind]; [intros [= <-]; by rewrite app_nil_r|].
  intros (s & E%lift_builder_ok & Es)%bind_Ok. apply add_data_ok in E as [-> _]. apply IH in Es as ->. by rewrite <-app_assoc.
Qed.

Definition multisig_code : Z := if ecdsa then code_OpCheckMultiSigECDSA else code_OpCheckMultiSig.

Lemma redeem_script keys required redeem : 0 <= required -> zlen keys <= 20 -> multisig_redeem ecdsa keys required = Ok redeem ->
  redeem = (([small_bytes required] ++ keys ++ [small_bytes (zlen keys)]) ≫= push_bytes) ++ [multisig_code] /\ required <= zlen keys.
Proof.
  intros Hr Hk. unfold multisig_redeem. destruct (Z.ltb_spec (zlen keys) required); [done|].
  intros (s1 & E1%lift_builder_ok & E)%bind_Ok. apply bind_Ok in E as (s2 & E2%add_keys & E). destruct (_ =? 0); [done|].
  apply bind_Ok in E as (s3 & E3%lift_builder_ok & E4%lift_builder_ok). pose proof (zlen_nonneg keys).
  apply small_add in E1; [|lia]. apply small_add in E3; [|lia]. unfold add_op in E4. destruct (_ <=? _); [done|]. injection E4 as <-. subst.
  split; [|lia]. rewrite !bind_app. cbn [mbind list_bind app]. rewrite !app_nil_r, <-!app_assoc. done.
Qed.

(** The redeem script, with the signatures on the stack. *)
Lemma redeem_true vm sigs keys : zlen sigs <= zlen keys <= 20 ->
  Forall (fun sig => Forall (checkable sig) keys /\ exists s typ ht, sig = s ++ [typ] /\ SigHashType_from_u8 typ = Some ht) sigs ->
  Forall (fun k => element k) keys -> ready (length keys) vm -> dstack vm = sigs -> astack vm = [] -> cond_stack vm = [] -> num_ops vm = 0 ->
  (exists v, (vm ← execute_script ((([small_bytes (zlen sigs)] ++ keys ++ [small_bytes (zlen keys)]) ≫= push_bytes) ++ [multisig_code]) false vm;
              check_error_condition true vm) = Ok v) <-> assignable verifies sigs keys.
Proof using Hin Hen.
  intros Hl Hs Hk Hvm Hd Ha Hc Hn. rewrite <-greedy_correct. unfold execute_script. pose proof (zlen_nonneg sigs). pose proof (zlen_nonneg keys).
  assert (forall n, 0 <= n <= 20 -> element (small_bytes n)) as Hsmall.
  { intros n Hn'. unfold small_bytes. destruct (_ =? 0); [by split|]. split; [done|]. apply Forall_singleton_2. unfold is_byte. lia. }
  rewrite steps_push; [|repeat apply Forall_app_2; try done; apply Forall_singleton_2, Hsmall; lia|unfold is_executing; by rewrite Hc|].
  2: { unfold room. rewrite Ha, Hd, !zlen_app. change (zlen (@nil (list Z))) with 0. change (zlen [_]) with 1. unfold MAX_STACK_SIZE. lia. }
  set (vm1 := set_dstack _ vm).
  rewrite parse_op by (unfold multisig_code; destruct ecdsa; done). cbn [parse_script parse_loop length foldM].
  rewrite step_op; [|unfold multisig_code; by destruct ecdsa|unfold is_executing; cbn; by rewrite Hc|cbn; by rewrite Hn].
  assert (op_execute (mkOp multisig_code []) = op_check_multisig_schnorr_or_ecdsa ecdsa) as -> by (unfold multisig_code; by destruct ecdsa).
  destruct (multisig_op (set_num_ops (num_ops vm1 + 1) vm1) sigs keys) as (vm' & (Fd & Fa & Fc & Fn) & ->); try done.
  - cbn. rewrite Hn. unfold MAX_OPS_PER_SCRIPT. lia.
  - cbn. lia.
  - cbn. by rewrite Hd.
  - destruct (greedy verifies sigs keys); [|cbn; split; [by intros [v ?]|done]]. split; [done|]. intros _. run.
    assert (dstack (push_bool true vm') = [[1]] /\ astack (push_bool true vm') = [] /\ cond_stack (push_bool true vm') = []) as (E1 & E2 & E3).
    { cbn. rewrite Fd, Fa, Fc. cbn. by rewrite Ha, Hc. }
    rewrite E1, E2. change (MAX_STACK_SIZE <? zlen (@nil (list Z)) + zlen [[1]]) with false. cbn match. run. rewrite E3.
    change (negb (zlen (@nil OpCond) =? 0)) with false. cbn match. run. unfold check_error_condition.
    change (dstack (set_num_ops 0 (set_astack [] (push_bool true vm')))) with (dstack (push_bool true vm')). rewrite E1. cbn. eauto.
Qed.

(** ** The script hash *)

Context (Blake2b_bytes : forall l, Forall is_byte (Blake2b l) /\ zlen (Blake2b l) = 32).

Lemma hash_script_run script vm sigs : dstack vm = sigs ++ [script] -> zlen sigs + 2 <= MAX_STACK_SIZE ->
  astack vm = [] -> cond_stack vm = [] -> num_ops vm = 0 ->
  execute_script (code_OpBlake2b :: push_bytes (Blake2b script) ++ [code_OpEqual]) false vm = Ok (set_dstack (sigs ++ [[1]]) vm).
Proof using Blake2b_bytes.
  intros Hd Hr Ha Hc Hn. unfold execute_script. destruct (Blake2b_bytes script) as [Hb Hbl]. pose proof (zlen_nonneg sigs).
  assert (element (Blake2b script)) as Hel by (split; [rewrite Hbl; done|done]).
  rewrite parse_op by done. cbn [foldM]. rewrite step_op; [|done|unfold is_executing; by rewrite Hc|by rewrite Hn].
  change (op_execute (mkOp code_OpBlake2b [])) with (exec_hash Blake2b). unfold exec_hash. cbn [dstack set_num_ops]. rewrite Hd.
  unfold pop_raw. rewrite length_app. cbn [length]. destruct (Nat.ltb_spec (length sigs + 1) 1); [lia|].
  replace (length sigs + 1 - 1)%nat with (length sigs) by lia. rewrite take_app_length, drop_app_length. run. cbn [nth].
  cbn [astack dstack push set_dstack set_num_ops]. rewrite Ha, zlen_app. change (zlen (@nil (list Z))) with 0. change (zlen [_]) with 1.
  destruct (Z.ltb_spec MAX_STACK_SIZE (0 + (zlen sigs + 1))); [lia|]. run. set (vm1 := push _ _).
  pose proof (steps_push false [Blake2b script] [code_OpEqual] vm1) as Ep. cbn [mbind list_bind] in Ep. rewrite app_nil_r in Ep.
  rewrite Ep; [|by apply Forall_singleton_2|unfold is_executing; cbn; by rewrite Hc|].
  2: { unfold room, vm1. cbn [astack dstack push set_dstack set_num_ops]. rewrite Ha, zlen_app. change (zlen (@nil (list Z))) with 0.
    change (zlen [_]) with 1. lia. }
  rewrite parse_op by done. cbn [parse_script parse_loop length foldM]. rewrite step_op; [|done|unfold is_executing; cbn; by rewrite Hc|cbn; by rewrite Hn].
  change (op_execute (mkOp code_OpEqual [])) with (exec_splice OpEqual). cbn [exec_splice dstack set_num_ops vm1 push set_dstack].
  rewrite <-app_assoc. cbn [app]. set (h := Blake2b script). assert (zlen (sigs ++ [h; h]) = zlen sigs + 2) as El by by rewrite zlen_app.
  rewrite El. destruct (Z.leb_spec 2 (zlen sigs + 2)); [|lia].
  assert ((length (sigs ++ [h; h]) - 2)%nat = length sigs) as -> by (rewrite length_app; cbn; lia).
  rewrite take_app_length, drop_app_length. cbn [nth]. rewrite bool_decide_eq_true_2 by done. run. subst vm1.
  cbn [astack dstack push set_dstack set_num_ops]. rewrite Ha, zlen_app. change (zlen (@nil (list Z))) with 0. change (zlen [_]) with 1.
  destruct (Z.ltb_spec MAX_STACK_SIZE (0 + (zlen sigs + 1))); [lia|]. run. cbn [cond_stack push set_dstack set_num_ops]. rewrite Hc.
  change (negb (zlen (@nil OpCond) =? 0)) with false. cbv match. f_equal. destruct vm; cbn in *. by subst.
Qed.

Lemma pop_true vm sigs : dstack vm = sigs ++ [[1]] -> check_error_condition false vm = Ok (set_dstack sigs vm).
Proof.
  intros Hd. unfold check_error_condition. run. rewrite Hd. unfold pop_items, pop_raw. rewrite length_app. cbn [length].
  destruct (Nat.ltb_spec (length sigs + 1) 1); [lia|]. replace (length sigs + 1 - 1)%nat with (length sigs) by lia.
  by rewrite take_app_length, drop_app_length.
Qed.

Lemma p2sh_script redeem spk : pay_to_script_hash_script (E := TxScriptError) redeem = Ok spk ->
  spk = mkSpk 0 (code_OpBlake2b :: push_bytes (Blake2b redeem) ++ [code_OpEqual]) /\ is_pay_to_script_hash (spk_script spk) = true.
Proof using Blake2b_bytes.
  destruct (Blake2b_bytes redeem) as [_ Hl]. unfold pay_to_script_hash_script, pay_to_script_hash. rewrite Hl. change (32 =? 32) with true. run.
  intros [= <-]. rewrite push_bytes_data, Hl by lia. split; [done|]. cbn [spk_script]. unfold is_pay_to_script_hash.
  rewrite !zlen_cons, zlen_app, Hl. cbn [nth Z.eqb]. rewrite app_nth2 by (unfold zlen in Hl; lia).
  replace (32 - length (Blake2b redeem))%nat with 0%nat by (unfold zlen in Hl; lia). done.
Qed.

Lemma pushes_length (ds : list (list Z)) n : Forall (fun d => element d /\ zlen d <= n) ds ->
  zlen (ds ≫= push_bytes) <= zlen ds * (n + 3).
Proof.
  induction 1 as [|d ds [Hel Hd] _ IH]; [done|]. cbn [mbind list_bind]. rewrite zlen_app, zlen_cons.
  pose proof (push_bytes_length d Hel). lia.
Qed.

(** C17: multi-signatures.  Let [redeem] be the redeem script for [required] of
    the [keys] (at most 20), let the output pay to its hash, and let the
    signature script push as many signatures as required, each one well formed,
    and the redeem script.  With a declared signature operation per key, the
    input is accepted if and only if the signatures can be assigned to distinct
    keys in the order of both lists, each one valid under its key; the greedy
    matching of the engine misses no assignment. *)
Theorem multisig_spend (keys sigs : list (list Z)) (redeem : list Z) r c :
  1 <= zlen keys <= 20 -> Forall (fun k => zlen k = (if ecdsa then 33 else 32) /\ Forall is_byte k) keys ->
  Forall (fun s => zlen s = 65 /\ Forall is_byte s) sigs -> Forall is_byte redeem ->
  Forall (fun sig => Forall (checkable sig) keys) sigs ->
  multisig_redeem ecdsa keys (zlen sigs) = Ok redeem ->
  pay_to_script_hash_script (E := TxScriptError) redeem = Ok (ue_spk entry) ->
  pay_to_script_hash_signature_script redeem (sigs ≫= push_bytes) = Ok (signature_script input) ->
  zlen keys <= sig_op_count input -> reused_ok (ptx_tx tx) r -> cache_ok c ->
  exists vm, from_transaction_input tx input idx entry r c = Ok vm /\
    ((exists vm', execute vm = Ok vm') <->
     exists ks, ks `sublist_of` keys /\ Forall2 (fun sig key => verifies key sig = true) sigs ks).
Proof using Hin Hen Blake2b_bytes.
  intros Hkl Hk Hs Hred Hck Er Espk Ess Hops Hr Hc. pose proof (zlen_nonneg sigs).
  apply redeem_script in Er as [Ered Hle]; [|lia..]. apply p2sh_script in Espk as [Espk Ep].
  unfold pay_to_script_hash_signature_script in Ess. apply bind_Ok in Ess as (d & Ed & [= Ess]). apply add_data_ok in Ed as [-> Hrl]. cbn [app] in Ess.
  assert (signature_script input = (sigs ++ [redeem]) ≫= push_bytes) as Ess' by (rewrite <-Ess, bind_app; cbn; by rewrite app_nil_r).
  assert (Forall (fun d => element d /\ zlen d <= 520) (sigs ++ [redeem])) as Hel.
  { apply Forall_app_2; [|by apply Forall_singleton_2]. eapply Forall_impl; [exact Hs|]. cbn. intros s [E ?]. rewrite E. done. }
  eexists. split; [by apply start_ok|]. rewrite Ep.
  rewrite (execute_two tx input idx entry true r c _ _ Ess' Espk).
  - rewrite execute_pushes; [|by eapply Forall_impl; [exact Hel|]; intros ? [? _]|done..|].
    2: { unfold room. cbn. rewrite zlen_app. change (zlen [redeem]) with 1. unfold MAX_STACK_SIZE, zlen in *. cbn. lia. }
    run. cbn [dstack start app]. set (vm1 := set_dstack (sigs ++ [redeem]) (start tx input idx entry true r c)).
    rewrite (hash_script_run redeem vm1 sigs) by (done || unfold MAX_STACK_SIZE; lia). run.
    rewrite (pop_true (set_dstack (sigs ++ [[1]]) vm1) sigs) by done. run. cbn [dstack vm1 set_dstack]. rewrite last_snoc, removelast_last. cbn [ok_or]. run.
    set (vm2 := set_dstack sigs (set_dstack sigs (set_dstack (sigs ++ [[1]]) vm1))). fold (assignable verifies sigs keys).
    rewrite <-(redeem_true vm2 sigs keys), <-Ered; [|lia|..]; try done.
    + eapply Forall_impl; [exact Hck|]. cbn. intros sig Hsig. split; [done|]. destruct keys as [|k keys]; [unfold zlen in Hkl; cbn in Hkl; lia|].
      apply Forall_cons in Hsig as [(s & typ & ht & b & -> & ? & _) _]. by exists s, typ, ht.
    + eapply Forall_impl; [exact Hk|]. cbn. intros k [E ?]. split; [rewrite E; by destruct ecdsa|done].
    + split; [done|]. split; [by eexists|]. cbn. unfold zlen in Hops. lia.
  - rewrite bind_app, zlen_app. cbn [mbind list_bind]. rewrite app_nil_r. assert (element redeem) as Hre by done.
    pose proof (push_bytes_length redeem Hre). pose proof (zlen_nonneg (sigs ≫= push_bytes)).
    assert (zlen (sigs ≫= push_bytes) <= zlen sigs * (65 + 3)) as Hb.
    { apply pushes_length. eapply Forall_impl; [exact Hs|]. cbn. intros s [E ?]. rewrite E. done. }
    unfold MAX_SCRIPT_ELEMENT_SIZE, MAX_SCRIPTS_SIZE in *. lia.
  - destruct (Blake2b_bytes redeem) as [Hbb Hbl]. rewrite zlen_cons, zlen_app, push_bytes_data, zlen_cons, Hbl by lia. done.
Qed.
End multisig.

Definition example_key : list Z := replicate 32 9.
Definition example_sig : list Z := replicate 64 3 ++ [1].
Definition example_redeem : list Z := 81 :: 32 :: example_key ++ [81; 174].
Definition example_spk : ScriptPublicKey := mkSpk 0 (170 :: 32 :: @Blake2b spell_crypto example_redeem ++ [135]).
Definition example_script : list Z := push_bytes example_sig ++ push_bytes example_redeem.

Lemma example_sig_bytes : Forall is_byte example_sig.
Proof. apply Forall_app_2; [apply replicate_bytes; lia|]. apply Forall_singleton_2. unfold is_byte. lia. Qed.

Lemma example_redeem_bytes : Forall is_byte example_redeem.
Proof.
  constructor; [unfold is_byte; lia|]. constructor; [unfold is_byte; lia|]. apply Forall_app_2; [apply replicate_bytes; lia|].
  constructor; [unfold is_byte; lia|]. apply Forall_singleton_2. unfold is_byte. lia.
Qed.

Lemma multisig_spend_witness : exists vm,
  @from_transaction_input spell_crypto spell_map (spending example_spk example_script) (spending_input example_script) 0 (spent_entry example_spk)
    SigHashReusedValues_new (Cache_new 0 []) = Ok vm /\
  ((exists vm', @execute spell_hashers spell_crypto spell_map vm = Ok vm') <->
   exists ks, ks `sublist_of` [example_key] /\
     Forall2 (fun sig key => @verifies spell_hashers spell_crypto (spending example_spk example_script) (spending_input example_script) 0
       (spent_entry example_spk) false key sig = true) [example_sig] ks).
Proof.
  apply (@multisig_spend spell_hashers spell_crypto spell_map (spending example_spk example_script) (spending_input example_script) 0
    (spent_entry example_spk) eq_refl eq_refl false) with (redeem := example_redeem).
  - intros l. split; [apply hash_bytes_bytes|]. reflexivity.
  - done.
  - apply Forall_singleton_2. split; [reflexivity|]. apply replicate_bytes. lia.
  - apply Forall_singleton_2. split; [reflexivity|]. apply example_sig_bytes.
  - apply example_redeem_bytes.
  - apply Forall_singleton_2, Forall_singleton_2. eexists (replicate 64 3), 1, 1, _. split; [reflexivity|]. split; [reflexivity|].
    unfold signature_verdict. cbn [negb]. reflexivity.
  - reflexivity.
  - reflexivity.
  - reflexivity.
  - done.
  - apply fresh_reused_ok.
  - apply empty_cache_ok.
Defined.
