(* ===== verification/Bech32.v ===== *)
(** * Addresses as text

    [crypto/addresses/src/bech32.rs] and the conversions of [Address] from and to
    strings in [crypto/addresses/src/lib.rs].  A string is the list of its UTF-8
    bytes.

    Regrouping bits keeps the number that the groups spell.  The checksum is
    linear over exclusive or: the difference of two texts that differ within
    eight consecutive characters spells a number that is not zero, and the steps
    that follow keep it from being zero. *)
From Stdlib Require Import Ascii String Btauto.
From S2P Require Import Prelude Bytes Tx ScriptNum Hashing ScriptOps Script ScriptStd.
#[local] Open Scope Z_scope.

(** The bytes of a literal. *)
Fixpoint text (s : string) : list Z :=
  match s with EmptyString => [] | String a s => Z.of_nat (nat_of_ascii a) :: text s end.

Inductive AddressError :=
  | InvalidPrefix (prefix : list Z)
  | MissingPrefix
  | InvalidVersion (v : Z)
  | InvalidVersionString (v : list Z)
  | DecodingError (c : Z)
  | BadChecksumSize
  | BadChecksum
  | BadPayload
  | InvalidAddress
  | InvalidAddressArray.

Definition prefix_as_str (p : Prefix) : list Z :=
  match p with
  | Mainnet => text "keryx"
  | Testnet => text "keryxtest"
  | Simnet => text "keryxsim"
  | Devnet => text "keryxdev"
  end.

Definition prefix_try_from (s : list Z) : outcome AddressError Prefix :=
  if bool_decide (s = text "keryx") then Ok Mainnet
  else if bool_decide (s = text "keryxtest") then Ok Testnet
  else if bool_decide (s = text "keryxsim") then Ok Simnet
  else if bool_decide (s = text "keryxdev") then Ok Devnet
  else Err (InvalidPrefix s).

(** [self.version as u8]. *)
Definition version_byte (v : Version) : Z := match v with PubKey => 0 | PubKeyECDSA => 1 | ScriptHash => 8 end.

Definition version_try_from (v : Z) : outcome AddressError Version :=
  if v =? 0 then Ok PubKey else if v =? 1 then Ok PubKeyECDSA else if v =? 8 then Ok ScriptHash else Err (InvalidVersion v).

(** ** Characters *)

Definition CHARSET : list Z := text "qpzry9x8gf2tvdw0s3jn54khce6mua7l".

Definition REV_CHARSET : list Z := [
    100; 100; 100; 100; 100; 100; 100; 100; 100; 100; 100; 100; 100; 100; 100; 100; 100; 100; 100; 100; 100; 100; 100; 100; 100; 100;
    100; 100; 100; 100; 100; 100; 100; 100; 100; 100; 100; 100; 100; 100; 100; 100; 100; 100; 100; 100; 100; 100; 15; 100; 10; 17; 21;
    20; 26; 30; 7; 5; 100; 100; 100; 100; 100; 100; 100; 100; 100; 100; 100; 100; 100; 100; 100; 100; 100; 100; 100; 100; 100; 100;
    100; 100; 100; 100; 100; 100; 100; 100; 100; 100; 100; 100; 100; 100; 100; 100; 100; 29; 100; 24; 13; 25; 9; 8; 23; 100; 18; 22;
    31; 27; 19; 100; 1; 0; 3; 16; 11; 28; 12; 14; 6; 4; 2].

(** [CHARSET[*c as usize]]. *)
Definition to_char {E} (c : Z) : outcome E Z := unwrap (CHARSET !! Z.to_nat c).

(** The closure of [scan], whose error ends the decoding. *)
Definition of_char (b : Z) : outcome AddressError Z :=
  let i := default 100 (REV_CHARSET !! Z.to_nat b) in
  if i =? 100 then Err (DecodingError b) else Ok i.

(** ** The checksum *)

Definition polymod_step (c d : Z) : Z :=
  let c0 := Z.shiftr c 35 in
  let c := Z.lxor (Z.shiftl (Z.land c 0x07ffffffff) 5) d in
  let c := if negb (Z.land c0 1 =? 0) then Z.lxor c 0x98f2bc8e61 else c in
  let c := if negb (Z.land c0 2 =? 0) then Z.lxor c 0x79b76d99e2 else c in
  let c := if negb (Z.land c0 4 =? 0) then Z.lxor c 0xf33e5fb3c4 else c in
  let c := if negb (Z.land c0 8 =? 0) then Z.lxor c 0xae2eabe2a8 else c in
  if negb (Z.land c0 16 =? 0) then Z.lxor c 0x1e4f43e470 else c.

Definition polymod (values : list Z) : Z := Z.lxor (foldl polymod_step 1 values) 1.

Definition checksum (payload prefix : list Z) : Z := polymod (prefix ++ [0] ++ payload ++ replicate 8 0).

(** ** Groups of bits *)

(** [v[i] = x]. *)
Definition vec_set {E A} (i : nat) (x : A) (l : list A) : outcome E (list A) :=
  if (i <? length l)%nat then Ok (<[i := x]> l) else Panic.

(** The [while] loop of the two conversions, for groups of [to] bits: the
    output, the next index, the buffer and the number of bits in it.  A buffer
    holds at most twelve bits, so that it goes round at most twice. *)
Fixpoint emit {E} (fuel : nat) (to : Z) (out : list Z) (current_idx : nat) (buff bits : Z) : outcome E (list Z * nat * Z * Z) :=
  if bits <? to then Ok (out, current_idx, buff, bits)
  else
    match fuel with
    | O => OutOfFuel
    | S fuel =>
        let bits := bits - to in
        out ← vec_set current_idx (Z.shiftr buff bits mod 2 ^ 8) out;
        emit fuel to out (S current_idx) (Z.land buff (Z.shiftl 1 bits - 1)) bits
    end.

Definition regroup {E} (from to : Z) (size : nat) (payload : list Z) : outcome E (list Z * nat * Z * Z) :=
  foldM (fun '(out, current_idx, buff, bits) c =>
           emit 2 to out current_idx (Z.lor (Z.shiftl buff from mod 2 ^ 16) c) (bits + from))
        (replicate size 0, O, 0, 0) payload.

Definition conv8to5 {E} (payload : list Z) : outcome E (list Z) :=
  let padding := if (length payload mod 5 =? 0)%nat then O else 1%nat in
  '(five_bit, current_idx, buff, bits) ← regroup 8 5 (length payload * 8 / 5 + padding) payload;
  if 0 <? bits then vec_set current_idx (Z.shiftl buff (5 - bits) mod 2 ^ 8) five_bit else Ok five_bit.

Definition conv5to8 {E} (payload : list Z) : outcome E (list Z) :=
  '(eight_bit, _, _, _) ← regroup 5 8 (length payload * 5 / 8) payload;
  Ok eight_bit.

(** ** Addresses *)

Definition fivebit_prefix (p : Prefix) : list Z := (fun c => Z.land c 31) <$> prefix_as_str p.

Definition encode_payload {E} (a : Address) : outcome E (list Z) :=
  fivebit_payload ← conv8to5 (version_byte (addr_version a) :: addr_payload a);
  let sum := checksum fivebit_payload (fivebit_prefix (addr_prefix a)) in
  fivebit_sum ← conv8to5 (drop 3 (rev (le_bytes 8 sum)));
  mapM' to_char (fivebit_payload ++ fivebit_sum).

Definition decode_payload (prefix : Prefix) (address : list Z) : outcome AddressError Address :=
  address_u5 ← mapM' of_char address;
  if (length address <? 8)%nat then Err BadPayload
  else
    let payload_u5 := take (length address - 8) address_u5 in
    let checksum_u5 := drop (length address - 8) address_u5 in
    sum_bytes ← conv5to8 checksum_u5;
    let bytes := replicate 3 0 ++ sum_bytes in
    if negb (length bytes =? 8)%nat then Err BadChecksumSize
    else if negb (checksum payload_u5 (fivebit_prefix prefix) =? of_le_bytes (rev bytes)) then Err BadChecksum
    else
      payload_u8 ← conv5to8 payload_u5;
      first ← unwrap (head payload_u8);
      version ← version_try_from first;
      Address_new prefix version (tail payload_u8).

(** [From<&Address> for String]. *)
Definition address_to_string {E} (a : Address) : outcome E (list Z) :=
  encoded ← encode_payload a;
  Ok (prefix_as_str (addr_prefix a) ++ text ":" ++ encoded).

(** [str::split_once]. *)
Fixpoint split_once (sep : Z) (s : list Z) : option (list Z * list Z) :=
  match s with
  | [] => None
  | c :: s => if c =? sep then Some ([], s) else '(a, b) ← split_once sep s; Some (c :: a, b)
  end.

(** [TryFrom<&str> for Address]; 58 is the colon. *)
Definition address_try_from (value : list Z) : outcome AddressError Address :=
  match split_once 58 value with
  | Some (prefix, payload) => prefix ← prefix_try_from prefix; decode_payload prefix payload
  | None => Err MissingPrefix
  end.

Definition RD_ALLOCATION_ADDRESS : list Z := text "keryx:qp8zp9wnpqhgygpsv25px8whw0ee7md72s0tgy78x5wt7ryk6w525aqm045zv".

(** ** Numbers in base [2 ^ k], the first digit the highest *)

Definition be (k : Z) (l : list Z) : Z := foldl (fun v d => v * 2 ^ k + d) 0 l.
Definition digits (k : Z) (l : list Z) : Prop := Forall (fun d => 0 <= d < 2 ^ k) l.

Lemma be_snoc k l d : be k (l ++ [d]) = be k l * 2 ^ k + d.
Proof. unfold be. by rewrite foldl_app. Qed.

Lemma be_app k l r : 0 <= k -> be k (l ++ r) = be k l * 2 ^ (k * Z.of_nat (length r)) + be k r.
Proof.
  intros Hk. induction r as [|d r IH] using rev_ind; [unfold be; cbn; rewrite app_nil_r, Z.mul_0_r; lia|].
  rewrite app_assoc, !be_snoc, IH, length_app. cbn [length]. rewrite Nat2Z.inj_add. cbn [Z.of_nat]. rewrite Z.mul_add_distr_l, Z.mul_1_r, Z.pow_add_r by lia. lia.
Qed.

Lemma be_bound k l : 0 <= k -> digits k l -> 0 <= be k l < 2 ^ (k * Z.of_nat (length l)).
Proof.
  intros Hk. induction l as [|d l IH] using rev_ind; intros Hl; [unfold be; cbn; rewrite Z.mul_0_r; lia|].
  apply Forall_app in Hl as [Hl [Hd _]%Forall_cons]. specialize (IH Hl). rewrite be_snoc, length_app. cbn [length]. rewrite Nat2Z.inj_add. cbn [Z.of_nat].
  rewrite Z.mul_add_distr_l, Z.mul_1_r, Z.pow_add_r by lia. pose proof (Z.pow_pos_nonneg 2 k). nia.
Qed.

Lemma be_inj k l r : 0 <= k -> digits k l -> digits k r -> length l = length r -> be k l = be k r -> l = r.
Proof.
  intros Hk. revert r. induction l as [|d l IH] using rev_ind; intros r Hl Hr Hlen E; [by destruct r|].
  destruct r as [|e r _] using rev_ind; [rewrite length_app in Hlen; cbn in Hlen; lia|]. rewrite !length_app in Hlen. cbn [length] in Hlen.
  apply Forall_app in Hl as [Hl [Hd _]%Forall_cons]. apply Forall_app in Hr as [Hr [He _]%Forall_cons]. rewrite !be_snoc in E.
  destruct (Z.div_mod_unique (2 ^ k) (be k l) (be k r) d e) as [E' ->]; [lia..|]. by rewrite (IH r) by (done || lia).
Qed.

(** ** Regrouping *)

(** The state of a conversion that has taken in [p]. *)
Definition regrouped (from to : Z) (size : nat) (p : list Z) (st : list Z * nat * Z * Z) : Prop :=
  let '(out, idx, buff, bits) := st in
  exists ds, out = ds ++ replicate (size - length ds) 0 /\ idx = length ds /\ digits to ds /\ (length ds <= size)%nat /\
    0 <= bits < to /\ 0 <= buff < 2 ^ bits /\ from * Z.of_nat (length p) = to * Z.of_nat (length ds) + bits /\
    be to ds * 2 ^ bits + buff = be from p.

Lemma vec_set_next {E} (ds : list Z) n x : vec_set (E := E) (length ds) x (ds ++ replicate (S n) 0) = Ok ((ds ++ [x]) ++ replicate n 0).
Proof.
  unfold vec_set. rewrite length_app, length_replicate. destruct (Nat.ltb_spec (length ds) (length ds + S n)); [|lia].
  rewrite insert_app_r_alt, Nat.sub_diag by done. cbn. by rewrite <-app_assoc.
Qed.

Lemma emit_regroups {E} to size v : 0 < to <= 8 -> forall fuel ds buff bits, digits to ds -> 0 <= bits < to * Z.of_nat (S fuel) -> 0 <= buff < 2 ^ bits ->
  to * Z.of_nat (length ds) + bits < to * Z.of_nat (S size) -> be to ds * 2 ^ bits + buff = v ->
  exists ds' buff' bits', emit (E := E) fuel to (ds ++ replicate (size - length ds) 0) (length ds) buff bits =
      Ok (ds' ++ replicate (size - length ds') 0, length ds', buff', bits') /\
    digits to ds' /\ (length ds' <= size)%nat /\ 0 <= bits' < to /\ 0 <= buff' < 2 ^ bits' /\
    to * Z.of_nat (length ds') + bits' = to * Z.of_nat (length ds) + bits /\ be to ds' * 2 ^ bits' + buff' = v.
Proof.
  intros Hto. induction fuel as [|fuel IH]; intros ds buff bits Hds Hb Hbuff Hsize Hv; cbn [emit]; destruct (Z.ltb_spec bits to) as [Hlt|Hge].
  - exists ds, buff, bits. split_and!; try done; nia.
  - lia.
  - exists ds, buff, bits. split_and!; try done; nia.
  - assert (length ds < size)%nat by nia. replace (size - length ds)%nat with (S (size - S (length ds))) by lia. rewrite vec_set_next. run.
    destruct (Z.le_exists_sub to bits Hge) as (b & -> & Hb0). replace (b + to - to) with b by lia. rewrite Z.pow_add_r in Hbuff by lia.
    assert (Z.land buff (Z.shiftl 1 b - 1) = buff mod 2 ^ b) as -> by (rewrite Z.shiftl_1_l, Z.sub_1_r, <-Z.ones_equiv; by apply Z.land_ones).
    pose proof (Z.pow_pos_nonneg 2 b ltac:(lia) ltac:(lia)). pose proof (Z.pow_le_mono_r 2 to 8 ltac:(lia) ltac:(lia)).
    pose proof (Z.mod_pos_bound buff (2 ^ b) ltac:(lia)). pose proof (Z.div_mod buff (2 ^ b) ltac:(lia)).
    assert (0 <= buff / 2 ^ b < 2 ^ to) as Hx by (split; [apply Z.div_pos; lia|apply Z.div_lt_upper_bound; lia]).
    rewrite Z.shiftr_div_pow2, (Z.mod_small (buff / 2 ^ b)) by lia. set (x := buff / 2 ^ b) in *.
    destruct (IH (ds ++ [x]) (buff mod 2 ^ b) b) as (ds' & buff' & bits' & E' & R).
    + apply Forall_app. split; [done|]. by apply Forall_singleton.
    + nia.
    + lia.
    + rewrite length_app. cbn [length]. nia.
    + rewrite be_snoc. rewrite <-Hv, Z.pow_add_r by lia. nia.
    + rewrite length_app in E'. cbn [length] in E'. rewrite Nat.add_1_r in E'. exists ds', buff', bits'. split; [done|].
      rewrite length_app in R. cbn [length] in R. destruct R as (? & ? & ? & ? & ? & ?). split_and!; try done; lia.
Qed.

Lemma land_shift buff n d : 0 <= n -> 0 <= d < 2 ^ n -> Z.land (Z.shiftl buff n) d = 0.
Proof.
  intros Hn Hd. rewrite <-(Z.mod_small d (2 ^ n)), <-Z.land_ones, Z.land_comm, <-Z.land_assoc by lia.
  rewrite (Z.land_comm (Z.ones n)), Z.land_ones, Z.shiftl_mul_pow2, Z.mod_mul by lia. apply Z.land_0_r.
Qed.

Lemma lor_shift buff n d : 0 <= n -> 0 <= d < 2 ^ n -> Z.lor (Z.shiftl buff n) d = buff * 2 ^ n + d.
Proof. intros Hn Hd. pose proof (land_shift buff n d Hn Hd) as E. rewrite <-Z.lxor_lor, <-Z.add_nocarry_lxor, Z.shiftl_mul_pow2 by done. done. Qed.

Lemma regroup_ok {E} from to size p : 0 < from <= 8 -> 0 < to <= 8 -> from + to <= 3 * to -> digits from p ->
  from * Z.of_nat (length p) < to * Z.of_nat (S size) ->
  exists st, regroup (E := E) from to size p = Ok st /\ regrouped from to size p st.
Proof.
  intros Hf Ht Hft. unfold regroup. induction p as [|c p IH] using rev_ind; intros Hp Hs.
  - eexists. split; [done|]. exists []. cbn. rewrite Nat.sub_0_r. split_and!; try done; try lia. apply List.Forall_nil.
  - apply Forall_app in Hp as [Hp [Hc _]%Forall_cons]. rewrite length_app in Hs. cbn [length] in Hs.
    destruct (IH Hp ltac:(lia)) as ([[[out idx] buff] bits] & E1 & ds & -> & -> & Hds & Hl & Hb & Hbuff & Hn & Hv).
    rewrite foldM_app, E1. cbn [mbind outcome_mbind foldM]. clear E1 IH.
    assert (buff * 2 ^ from < 2 ^ 16) as Hw.
    { pose proof (Z.pow_le_mono_r 2 (bits + from) 16 ltac:(lia) ltac:(lia)). rewrite Z.pow_add_r in H by lia. pose proof (Z.pow_pos_nonneg 2 from). nia. }
    rewrite Z.shiftl_mul_pow2, Z.mod_small, <-Z.shiftl_mul_pow2, lor_shift by lia.
    destruct (emit_regroups (E := E) to size (be from (p ++ [c])) Ht 2 ds (buff * 2 ^ from + c) (bits + from)) as (ds' & buff' & bits' & -> & R).
    + done.
    + lia.
    + rewrite Z.pow_add_r by lia. nia.
    + lia.
    + rewrite be_snoc, <-Hv, Z.pow_add_r by lia. lia.
    + run. eexists. split; [done|]. destruct R as (? & ? & ? & ? & ? & ?). exists ds'. rewrite length_app. cbn [length]. split_and!; try done; lia.
Qed.

(** The padding: a text of [n] bytes has [8 n / 5] groups, rounded up. *)
Lemma conv8to5_ok {E} bs : digits 8 bs -> exists ds, conv8to5 (E := E) bs = Ok ds /\ digits 5 ds /\
  8 * Z.of_nat (length bs) <= 5 * Z.of_nat (length ds) < 8 * Z.of_nat (length bs) + 5 /\
  be 5 ds = be 8 bs * 2 ^ (5 * Z.of_nat (length ds) - 8 * Z.of_nat (length bs)).
Proof.
  intros Hb. unfold conv8to5. set (size := (length bs * 8 / 5 + _)%nat).
  assert (8 * length bs <= 5 * size < 8 * length bs + 5)%nat as Hs.
  { subst size. pose proof (Nat.div_mod (length bs) 5 ltac:(lia)). pose proof (Nat.mod_upper_bound (length bs) 5 ltac:(lia)).
    set (q := (length bs / 5)%nat) in *. set (r := (length bs mod 5)%nat) in *. rewrite H.
    assert ((5 * q + r) * 8 / 5 = 8 * q + r * 8 / 5)%nat as ->.
    { replace ((5 * q + r) * 8)%nat with (r * 8 + 8 * q * 5)%nat by lia. rewrite Nat.div_add by lia. lia. }
    clearbody q r. clear H. destruct r as [|[|[|[|[|r]]]]]; cbn; lia. }
  destruct (regroup_ok (E := E) 8 5 size bs) as ([[[out idx] buff] bits] & -> & ds & -> & -> & Hds & Hl & Hbits & Hbuff & Hn & Hv); [lia..|done|lia|].
  cbn [mbind outcome_mbind]. destruct (Z.ltb_spec 0 bits) as [Hpos|Hz].
  - replace (size - length ds)%nat with 1%nat by lia. rewrite (vec_set_next ds 0). eexists. split; [done|].
    pose proof (Z.pow_add_r 2 bits (5 - bits) ltac:(lia) ltac:(lia)) as Hp. replace (bits + (5 - bits)) with 5 in Hp by lia.
    pose proof (Z.pow_pos_nonneg 2 (5 - bits) ltac:(lia) ltac:(lia)). rewrite Z.shiftl_mul_pow2, Z.mod_small by nia. cbn [replicate].
    rewrite app_nil_r, be_snoc, length_app. cbn [length]. split_and!; [apply Forall_app; split; [done|apply Forall_singleton; nia]|lia|lia|].
    rewrite <-Hv, Hp. replace (5 * Z.of_nat (length ds + 1) - 8 * Z.of_nat (length bs)) with (5 - bits) by lia. nia.
  - assert (bits = 0) as -> by lia. replace (size - length ds)%nat with 0%nat by lia. cbn [replicate]. rewrite app_nil_r. exists ds.
    split_and!; [done..|lia|lia|]. rewrite <-Hv. replace (5 * Z.of_nat (length ds) - 8 * Z.of_nat (length bs)) with 0 by lia. change (2 ^ 0) with 1 in *. lia.
Qed.

Lemma conv5to8_ok {E} ds : digits 5 ds -> exists bs r, conv5to8 (E := E) ds = Ok bs /\ digits 8 bs /\
  5 * Z.of_nat (length ds) = 8 * Z.of_nat (length bs) + r /\ 0 <= r < 8 /\ be 8 bs = be 5 ds / 2 ^ r.
Proof.
  intros Hd. unfold conv5to8. set (size := (length ds * 5 / 8)%nat).
  assert (8 * size <= 5 * length ds < 8 * size + 8)%nat as Hs.
  { subst size. pose proof (Nat.div_mod (length ds * 5) 8 ltac:(lia)). pose proof (Nat.mod_upper_bound (length ds * 5) 8 ltac:(lia)). lia. }
  destruct (regroup_ok (E := E) 5 8 size ds) as ([[[out idx] buff] bits] & -> & bs & -> & -> & Hbs & Hl & Hbits & Hbuff & Hn & Hv); [lia..|done|lia|].
  run. exists bs, bits. replace (size - length bs)%nat with 0%nat by lia. cbn [replicate]. rewrite app_nil_r. split_and!; try done; try lia.
  rewrite <-Hv. rewrite Z.div_add_l by lia. rewrite Z.div_small by lia. lia.
Qed.

Lemma conv_round_trip {E E'} bs : digits 8 bs -> exists ds, conv8to5 (E := E) bs = Ok ds /\ digits 5 ds /\ conv5to8 (E := E') ds = Ok bs.
Proof.
  intros Hb. destruct (conv8to5_ok (E := E) bs Hb) as (ds & E1 & Hd & Hl & Hv). exists ds. split_and!; [done..|].
  destruct (conv5to8_ok (E := E') ds Hd) as (bs' & r & E2 & Hb' & Hn & Hr & Hv'). rewrite E2. f_equal. apply (be_inj 8); try done; try lia.
  rewrite Hv', Hv. replace (5 * Z.of_nat (length ds) - 8 * Z.of_nat (length bs)) with r by lia. apply Z.div_mul. lia.
Qed.

(** ** The checksum *)

(** The generators that the bits of [c0] select. *)
Definition generator (b : bool) (g : Z) : Z := if b then g else 0.

Definition feedback (c0 : Z) : Z :=
  Z.lxor (generator (Z.testbit c0 0) 0x98f2bc8e61) (Z.lxor (generator (Z.testbit c0 1) 0x79b76d99e2)
    (Z.lxor (generator (Z.testbit c0 2) 0xf33e5fb3c4) (Z.lxor (generator (Z.testbit c0 3) 0xae2eabe2a8) (generator (Z.testbit c0 4) 0x1e4f43e470)))).

Lemma land_bit c n : 0 <= n -> negb (Z.land c (2 ^ n) =? 0) = Z.testbit c n.
Proof.
  intros Hn. assert (Z.land c (2 ^ n) = if Z.testbit c n then 2 ^ n else 0) as ->.
  { apply Z.bits_inj'. intros m Hm. rewrite Z.land_spec, Z.pow2_bits_eqb by lia.
    destruct (Z.testbit c n) eqn:E; rewrite ?Z.bits_0, ?Z.pow2_bits_eqb by lia; destruct (Z.eqb_spec n m) as [<-|]; by rewrite ?E, ?andb_false_r. }
  destruct (Z.testbit c n); [|done]. pose proof (Z.pow_pos_nonneg 2 n ltac:(lia) Hn). by destruct (Z.eqb_spec (2 ^ n) 0); [lia|].
Qed.

Lemma polymod_step_eq c d : polymod_step c d = Z.lxor (Z.lxor (Z.shiftl (Z.land c (Z.ones 35)) 5) d) (feedback (Z.shiftr c 35)).
Proof.
  unfold polymod_step, feedback. change 0x07ffffffff with (Z.ones 35).
  rewrite (land_bit _ 0), (land_bit _ 1), (land_bit _ 2), (land_bit _ 3), (land_bit _ 4) by lia.
  set (c0 := Z.shiftr c 35). set (x := Z.lxor _ d). clearbody x.
  destruct (Z.testbit c0 0), (Z.testbit c0 1), (Z.testbit c0 2), (Z.testbit c0 3), (Z.testbit c0 4); cbn [generator];
    rewrite ?Z.lxor_0_l, ?Z.lxor_0_r, ?Z.lxor_assoc; done.
Qed.

Lemma generator_xorb a b g : generator (xorb a b) g = Z.lxor (generator a g) (generator b g).
Proof. destruct a, b; cbn; rewrite ?Z.lxor_nilpotent, ?Z.lxor_0_l, ?Z.lxor_0_r; done. Qed.

Lemma feedback_lxor a b : feedback (Z.lxor a b) = Z.lxor (feedback a) (feedback b).
Proof.
  unfold feedback. rewrite !Z.lxor_spec, !generator_xorb. apply Z.bits_inj'. intros n Hn. rewrite !Z.lxor_spec.
  repeat match goal with |- context [Z.testbit (generator ?b ?g) n] => generalize (Z.testbit (generator b g) n); intros ? end. btauto.
Qed.

Lemma polymod_step_lxor c1 c2 d1 d2 : polymod_step (Z.lxor c1 c2) (Z.lxor d1 d2) = Z.lxor (polymod_step c1 d1) (polymod_step c2 d2).
Proof.
  rewrite !polymod_step_eq, Z.shiftr_lxor, feedback_lxor. apply Z.bits_inj'. intros n Hn. rewrite !Z.lxor_spec, !Z.shiftl_spec, !Z.land_spec, Z.lxor_spec by done.
  generalize (Z.testbit c1 (n - 5)), (Z.testbit c2 (n - 5)), (Z.testbit (Z.ones 35) (n - 5)), (Z.testbit d1 n), (Z.testbit d2 n),
    (Z.testbit (feedback (Z.shiftr c1 35)) n), (Z.testbit (feedback (Z.shiftr c2 35)) n). intros. btauto.
Qed.

Lemma lxor_bound n a b : 0 <= n -> 0 <= a < 2 ^ n -> 0 <= b < 2 ^ n -> 0 <= Z.lxor a b < 2 ^ n.
Proof.
  intros Hn Ha Hb. assert (0 <= Z.lxor a b) as H0 by (apply Z.lxor_nonneg; lia). split; [done|].
  destruct (Z.eq_dec (Z.lxor a b) 0) as [->|Hne]; [apply Z.pow_pos_nonneg; lia|]. apply Z.log2_lt_pow2; [lia|].
  pose proof (Z.log2_lxor a b ltac:(lia) ltac:(lia)). destruct (Z.eq_dec n 0) as [->|]; [assert (a = 0 /\ b = 0) as [-> ->] by lia; done|].
  assert (forall x, 0 <= x < 2 ^ n -> Z.log2 x < n) as Hl; [|pose proof (Hl a Ha); pose proof (Hl b Hb); lia].
  intros x Hx. destruct (Z.eq_dec x 0) as [->|]; [cbn; lia|]. apply Z.log2_lt_pow2; lia.
Qed.

(** The five low bits of the feedback are the bits that selected it. *)
Lemma feedback_ok c0 : 0 <= c0 < 32 -> 0 <= feedback c0 < 2 ^ 40 /\ feedback c0 mod 32 = c0.
Proof.
  intros Hc. assert (Forall (fun n => (0 <=? feedback (Z.of_nat n)) && (feedback (Z.of_nat n) <? 2 ^ 40) && (feedback (Z.of_nat n) mod 32 =? Z.of_nat n) = true) (seq 0 32)) as H by (repeat constructor).
  rewrite Forall_forall in H. specialize (H (Z.to_nat c0)). rewrite Z2Nat.id in H by lia. rewrite !andb_true_iff, Z.leb_le, Z.ltb_lt, Z.eqb_eq in H. apply H. apply elem_of_seq. lia.
Qed.

Section step.
Context (c d : Z) (Hc : 0 <= c < 2 ^ 40) (Hd : 0 <= d < 2 ^ 5).

Lemma step_split : exists hi lo, c = hi * 2 ^ 35 + lo /\ 0 <= hi < 32 /\ 0 <= lo < 2 ^ 35 /\ polymod_step c d = Z.lxor (lo * 32 + d) (feedback hi).
Proof using Hc Hd.
  exists (c / 2 ^ 35), (c mod 2 ^ 35). pose proof (Z.mod_pos_bound c (2 ^ 35) ltac:(lia)). split_and!; [pose proof (Z.div_mod c (2 ^ 35)); lia|apply Z.div_pos; lia|apply Z.div_lt_upper_bound; lia|lia..|].
  rewrite polymod_step_eq, Z.land_ones, Z.shiftr_div_pow2 by lia. f_equal. change 32 with (2 ^ 5). rewrite <-lor_shift, Z.lxor_lor by (lia || apply land_shift; lia). done.
Qed.

Lemma polymod_step_bound : 0 <= polymod_step c d < 2 ^ 40.
Proof using Hc Hd.
  destruct step_split as (hi & lo & _ & Hhi & Hlo & ->). apply lxor_bound; [lia| |by apply feedback_ok]. lia.
Qed.

(** No feedback. *)
Lemma polymod_step_small : c < 2 ^ 35 -> polymod_step c d = c * 2 ^ 5 + d.
Proof using Hc Hd.
  intros Hs. destruct step_split as (hi & lo & E & Hhi & Hlo & ->). assert (hi = 0) as -> by lia. change (feedback 0) with 0. rewrite Z.lxor_0_r. lia.
Qed.

Lemma polymod_step_nonzero : d = 0 -> c <> 0 -> polymod_step c d <> 0.
Proof using Hc Hd.
  intros Hd0 Hne. destruct step_split as (hi & lo & E & Hhi & Hlo & ->). rewrite Hd0. intros Hz. apply Z.lxor_eq in Hz. destruct (feedback_ok hi Hhi) as [_ Hf].
  rewrite <-Hz, Z.add_0_r, Z.mod_mul in Hf by lia. subst hi. change (feedback 0) with 0 in Hz. lia.
Qed.
End step.

(** ** Errors *)

(** A difference that is not zero stays so over equal characters. *)
Lemma fold_distinct s : digits 5 s -> forall c1 c2, 0 <= c1 < 2 ^ 40 -> 0 <= c2 < 2 ^ 40 -> c1 <> c2 -> foldl polymod_step c1 s <> foldl polymod_step c2 s.
Proof.
  induction 1 as [|d s Hd _ IH]; intros c1 c2 H1 H2 Hne; [done|]. cbn [foldl]. apply IH; [by apply polymod_step_bound..|].
  intros E. apply (polymod_step_nonzero (Z.lxor c1 c2) 0); [apply lxor_bound; lia|lia|done|by intros ?%Z.lxor_eq|].
  rewrite <-(Z.lxor_nilpotent d) at 1. rewrite polymod_step_lxor, E. apply Z.lxor_nilpotent.
Qed.

Lemma fold_bound s c : digits 5 s -> 0 <= c < 2 ^ 40 -> 0 <= foldl polymod_step c s < 2 ^ 40.
Proof. intros Hs. revert c. induction Hs; intros c Hc; cbn [foldl]; [done|]. apply IHHs. by apply polymod_step_bound. Qed.

(** The difference over at most eight characters is the number that the
    differences of the characters spell. *)
Lemma fold_difference a b : digits 5 a -> digits 5 b -> length a = length b -> forall c1 c2 j, 0 <= c1 < 2 ^ 40 -> 0 <= c2 < 2 ^ 40 ->
  Z.lxor c1 c2 < 2 ^ (5 * j) -> 0 <= j -> j + Z.of_nat (length a) <= 8 ->
  Z.lxor (foldl polymod_step c1 a) (foldl polymod_step c2 b) = Z.lxor c1 c2 * 2 ^ (5 * Z.of_nat (length a)) + be 5 (zip_with Z.lxor a b).
Proof.
  intros Ha. revert b. induction Ha as [|x a Hx Ha IH]; intros [|y b] Hb Hl c1 c2 j H1 H2 Hj Hj0 Hn; try done; [cbn; lia|].
  apply Forall_cons in Hb as [Hy Hb]. cbn [length] in *. injection Hl as Hl. cbn [foldl zip_with].
  pose proof (lxor_bound 40 c1 c2 ltac:(lia) H1 H2) as Hc. pose proof (lxor_bound 5 x y ltac:(lia) Hx Hy) as He.
  assert (Z.lxor (polymod_step c1 x) (polymod_step c2 y) = Z.lxor c1 c2 * 2 ^ 5 + Z.lxor x y) as E.
  { rewrite <-polymod_step_lxor. apply polymod_step_small; [done..|]. pose proof (Z.pow_le_mono_r 2 (5 * j) 35). lia. }
  rewrite (IH b Hb Hl _ _ (j + 1)); [|by apply polymod_step_bound..| |lia|lia].
  - rewrite E. change (Z.lxor x y :: zip_with Z.lxor a b) with ([Z.lxor x y] ++ zip_with Z.lxor a b). rewrite be_app, length_zip_with, <-Hl, Nat.min_id by lia.
    change (be 5 [Z.lxor x y]) with (0 * 2 ^ 5 + Z.lxor x y). replace (5 * Z.of_nat (S (length a))) with (5 + 5 * Z.of_nat (length a)) by lia. rewrite Z.pow_add_r by lia. lia.
  - rewrite E. replace (5 * (j + 1)) with (5 * j + 5) by lia. rewrite Z.pow_add_r by lia. lia.
Qed.

Lemma be_zeros k n : be k (replicate n 0) = 0.
Proof. induction n as [|n IH]; [done|]. rewrite replicate_S_end, be_snoc, IH. lia. Qed.

Lemma digits_zeros k n : 0 <= k -> digits k (replicate n 0).
Proof. intros Hk. apply Forall_replicate. pose proof (Z.pow_pos_nonneg 2 k). lia. Qed.

Lemma digits_lxor k a b : 0 <= k -> digits k a -> digits k b -> digits k (zip_with Z.lxor a b).
Proof. intros Hk Ha. revert b. induction Ha; intros [|y b] Hb; cbn; constructor; inversion_clear Hb; [by apply lxor_bound|by apply IHHa]. Qed.

Lemma difference_zero k a b : 0 <= k -> digits k a -> digits k b -> length a = length b -> be k (zip_with Z.lxor a b) = 0 -> a = b.
Proof.
  intros Hk Ha Hb Hl Hz. assert (zip_with Z.lxor a b = replicate (length a) 0) as E.
  { apply (be_inj k); [done|by apply digits_lxor|by apply digits_zeros|rewrite length_zip_with, length_replicate; lia|by rewrite be_zeros]. }
  clear -E Hl. revert b E Hl. induction a as [|x a IH]; intros [|y b] E Hl; try done. cbn in *. injection E as E1 E2. apply Z.lxor_eq in E1 as ->. injection Hl as Hl.
  by rewrite (IH b).
Qed.

(** The text before the checksum and the checksum are right together when the
    steps over both end in [1]. *)
Lemma checksum_codeword prefix payload sum : digits 5 prefix -> digits 5 payload -> digits 5 sum -> length sum = 8%nat ->
  checksum payload prefix = be 5 sum <-> foldl polymod_step 1 (prefix ++ [0] ++ payload ++ sum) = 1.
Proof.
  intros Hp Hd Hs Hl. unfold checksum, polymod. rewrite !(app_assoc prefix), !(app_assoc (prefix ++ [0])), !(foldl_app _ ((prefix ++ [0]) ++ payload)).
  assert (0 <= foldl polymod_step 1 ((prefix ++ [0]) ++ payload) < 2 ^ 40) as Hc.
  { apply fold_bound; [|lia]. repeat (apply Forall_app; split); try done. by repeat constructor. }
  set (c := foldl _ 1 _) in *. pose proof (fold_difference sum (replicate 8 0) Hs (digits_zeros 5 8 ltac:(lia)) Hl c c 0 Hc Hc) as E.
  rewrite Z.lxor_nilpotent, Hl in E. specialize (E ltac:(done) ltac:(lia) ltac:(lia)).
  assert (zip_with Z.lxor sum (replicate 8 0) = sum) as Ez.
  { rewrite <-Hl. clear. induction sum as [|x s IH]; [done|]. cbn. by rewrite Z.lxor_0_r, IH. }
  rewrite Ez in E. cbn [Z.mul] in E. rewrite Z.add_0_l in E. rewrite <-E. set (x := foldl _ c sum). set (y := foldl _ c (replicate 8 0)). split; intros H.
  - rewrite (Z.lxor_comm x y) in H. apply (f_equal (Z.lxor y)) in H. rewrite <-!Z.lxor_assoc, Z.lxor_nilpotent, !Z.lxor_0_l in H. done.
  - rewrite H. apply Z.lxor_comm.
Qed.

(** ** Characters *)

Lemma of_char_ok b i : of_char b = Ok i -> 0 <= i < 2 ^ 5 /\ CHARSET !! Z.to_nat i = Some b.
Proof.
  assert (forallb (fun n => let i := default 100 (REV_CHARSET !! n) in
    (i =? 100) || (0 <=? i) && (i <? 2 ^ 5) && bool_decide (CHARSET !! Z.to_nat i = Some (Z.of_nat n))) (seq 0 123) = true) as H by (by vm_compute).
  unfold of_char. cbn zeta. destruct (REV_CHARSET !! Z.to_nat b) as [j|] eqn:E; cbn [default from_option id]; [|done].
  destruct (Z.eqb_spec j 100) as [|Hj]; [done|]. intros [= <-]. pose proof (lookup_lt_Some _ _ _ E) as Hlt. change (length REV_CHARSET) with 123%nat in Hlt.
  rewrite forallb_forall in H. specialize (H (Z.to_nat b) ltac:(apply in_seq; lia)). rewrite E in H. cbn zeta in H. cbn [default from_option id] in H.
  assert (0 <= b) by (destruct (Z.le_gt_cases 0 b); [done|]; replace (Z.to_nat b) with O in E by lia; cbn in E; congruence).
  rewrite orb_true_iff, !andb_true_iff, Z.eqb_eq, Z.leb_le, Z.ltb_lt, bool_decide_eq_true, Z2Nat.id in H by lia. naive_solver.
Qed.

Lemma to_char_ok {E} i : 0 <= i < 2 ^ 5 -> exists b, to_char (E := E) i = Ok b /\ of_char b = Ok i.
Proof.
  intros Hi. assert (forallb (fun n => match CHARSET !! n with Some b => default 100 (REV_CHARSET !! Z.to_nat b) =? Z.of_nat n | None => false end) (seq 0 32) = true) as H by (by vm_compute).
  rewrite forallb_forall in H. specialize (H (Z.to_nat i) ltac:(apply in_seq; lia)). unfold to_char. destruct (CHARSET !! Z.to_nat i) as [b|]; [|done].
  exists b. split; [done|]. apply Z.eqb_eq in H. rewrite Z2Nat.id in H by lia. unfold of_char. rewrite H. by destruct (Z.eqb_spec i 100); [lia|].
Qed.

Lemma mapM_Forall2 {E A B} (f : A -> outcome E B) l u : mapM' f l = Ok u <-> Forall2 (fun a b => f a = Ok b) l u.
Proof.
  revert u. induction l as [|a l IH]; intros u; cbn [mapM'].
  - split; [by intros [= <-]|by inversion_clear 1].
  - split.
    + destruct (f a) as [b| | |] eqn:Ea; cbn; try done. destruct (mapM' f l) as [bs| | |]; cbn; try done. intros [= <-]. constructor; [done|]. by apply IH.
    + inversion_clear 1 as [|? b ? bs Ea Hf]. rewrite Ea. apply IH in Hf. by rewrite Hf.
Qed.

Lemma of_chars_digits l u : mapM' of_char l = Ok u -> digits 5 u /\ length u = length l.
Proof.
  intros H%mapM_Forall2. split; [|symmetry; by eapply Forall2_length]. induction H as [|b i l u Hb _ IH]; constructor; [by eapply of_char_ok|done].
Qed.

Lemma of_chars_cases l : (exists u, mapM' of_char l = Ok u) \/ exists e, mapM' of_char l = Err e.
Proof.
  induction l as [|b l IH]; [left; by exists []|]. cbn [mapM'].
  assert ((exists i, of_char b = Ok i) \/ exists e, of_char b = Err e) as [[i ->]|[e ->]] by (unfold of_char; cbn zeta; case_match; eauto); run; [|right; by eexists].
  destruct IH as [[u ->]|[e ->]]; [left|right]; by eexists.
Qed.

Lemma chars_inj x y u : Forall2 (fun b i => of_char b = Ok i) x u -> Forall2 (fun b i => of_char b = Ok i) y u -> x = y.
Proof.
  intros Hx. revert y. induction Hx as [|b i x u Hb _ IH]; intros y Hy; inversion_clear Hy as [|c]; [done|].
  apply of_char_ok in Hb as [_ Hb]. apply of_char_ok in H as [_ H]. rewrite (IH l) by done. congruence.
Qed.

(** ** Decoding *)

Lemma prefix_digits p : digits 5 (fivebit_prefix p).
Proof. by destruct p; repeat constructor. Qed.

Lemma of_le_rev l : of_le_bytes (rev l) = be 8 l.
Proof. induction l as [|b l IH] using rev_ind; [done|]. rewrite rev_unit, be_snoc. cbn [of_le_bytes]. rewrite IH. change (2 ^ 8) with 256. lia. Qed.

Definition codeword (prefix : Prefix) (u5 : list Z) : Prop := foldl polymod_step 1 (fivebit_prefix prefix ++ [0] ++ u5) = 1.

(** The decoding of a text whose characters are [u5]. *)
Lemma decode_chars prefix address u5 : mapM' of_char address = Ok u5 -> (8 <= length address)%nat ->
  (codeword prefix u5 /\ decode_payload prefix address =
     (payload_u8 ← conv5to8 (take (length address - 8) u5); first ← unwrap (head payload_u8); version ← version_try_from first; Address_new prefix version (tail payload_u8))) \/
  (~ codeword prefix u5 /\ decode_payload prefix address = Err BadChecksum).
Proof.
  intros Hu Hl. destruct (of_chars_digits _ _ Hu) as [Hd Hlen]. unfold decode_payload. rewrite Hu. cbn [mbind outcome_mbind].
  destruct (Nat.ltb_spec (length address) 8); [lia|]. rewrite <-(take_drop (length address - 8) u5) in Hd |- *.
  set (pay := take _ u5) in *. set (sum := drop _ u5) in *. apply Forall_app in Hd as [Hp Hs].
  assert (length pay = length address - 8)%nat as Hlp by (subst pay; rewrite length_take; lia).
  assert (length sum = 8)%nat as Hls by (subst sum; rewrite length_drop; lia).
  rewrite take_app_length', drop_app_length' by done.
  destruct (conv5to8_ok (E := AddressError) sum Hs) as (bs & r & -> & Hb & Hn & Hr & Hv). cbn [mbind outcome_mbind].
  rewrite Hls in Hn. assert (length bs = 5)%nat as Hlb by lia. assert (r = 0) as -> by lia. rewrite length_app, Hlb, length_replicate. cbn [Nat.add Nat.eqb negb].
  assert (of_le_bytes (rev (replicate 3 0 ++ bs)) = be 5 sum) as ->.
  { rewrite of_le_rev, be_app, be_zeros, Hv, Z.div_1_r by lia. lia. }
  pose proof (checksum_codeword (fivebit_prefix prefix) pay sum (prefix_digits prefix) Hp Hs Hls) as Hc. unfold codeword.
  destruct (Z.eqb_spec (checksum pay (fivebit_prefix prefix)) (be 5 sum)) as [E|Hne]; cbn [negb]; [left|right]; split; try done; [by apply Hc|]. by rewrite <-Hc.
Qed.

(** ** What holds of addresses *)

Lemma split_once_app sep s a b t : split_once sep s = Some (a, b) -> split_once sep (s ++ t) = Some (a, b ++ t).
Proof.
  revert a b. induction s as [|c s IH]; intros a b; cbn [split_once app]; [done|]. destruct (c =? sep); [by intros [= <- <-]|].
  destruct (split_once sep s) as [[x y]|] eqn:E; [|done]. cbn. intros [= <- <-]. by rewrite (IH x y).
Qed.

Lemma split_once_In sep s : sep ∈ s -> exists a b, split_once sep s = Some (a, b).
Proof.
  induction s as [|c s IH]; [set_solver|]. cbn [split_once]. destruct (Z.eqb_spec c sep) as [|Hne]; [eauto|]. intros [->|Hin]%elem_of_cons; [done|].
  destruct (IH Hin) as (a & b & ->). by eexists _, _.
Qed.

(** Two texts that differ within eight consecutive characters are not both
    right. *)
Lemma codewords_distant prefix p x y s : digits 5 p -> digits 5 x -> digits 5 y -> digits 5 s -> length x = length y -> (length x <= 8)%nat -> x <> y ->
  codeword prefix (p ++ x ++ s) -> ~ codeword prefix (p ++ y ++ s).
Proof.
  intros Hp Hx Hy Hs Hl H8 Hne. unfold codeword.
  assert (forall z, foldl polymod_step 1 (fivebit_prefix prefix ++ [0] ++ p ++ z ++ s) =
    foldl polymod_step (foldl polymod_step (foldl polymod_step 1 ((fivebit_prefix prefix ++ [0]) ++ p)) z) s) as Hf by (intros z; by rewrite <-!foldl_app, <-!app_assoc).
  rewrite !Hf. clear Hf. assert (digits 5 ((fivebit_prefix prefix ++ [0]) ++ p)) as Hd.
  { repeat (apply Forall_app; split); [apply prefix_digits|by repeat constructor|done]. }
  pose proof (fold_bound _ 1 Hd ltac:(lia)) as Hc. set (c := foldl polymod_step 1 _) in *. intros <-. apply not_eq_sym, fold_distinct; [done|by apply fold_bound..|].
  intros E. apply Hne, (difference_zero 5); try done.
  pose proof (fold_difference x y Hx Hy Hl c c 0 Hc Hc) as Hdiff. rewrite Z.lxor_nilpotent, E, Z.lxor_nilpotent in Hdiff.
  specialize (Hdiff ltac:(done) ltac:(lia) ltac:(lia)). lia.
Qed.

(** C31: a text that is accepted as an address is not accepted any more when at
    most eight consecutive characters after the colon are replaced, whatever
    they are replaced by: the decoding returns an error. *)
Theorem address_errors_detected pre x y post a : 58 ∈ pre -> length x = length y -> (length x <= 8)%nat -> x <> y ->
  address_try_from (pre ++ x ++ post) = Ok a -> exists e, address_try_from (pre ++ y ++ post) = Err e.
Proof.
  intros Hin Hl H8 Hne. unfold address_try_from. destruct (split_once_In 58 pre Hin) as (h & t & E). rewrite !(split_once_app 58 pre h t) by done.
  destruct (prefix_try_from h) as [prefix| | |]; run; try done. intros Hok.
  destruct (of_chars_cases (t ++ y ++ post)) as [[v Hv]|[e He]]; [|exists e; unfold decode_payload; by rewrite He].
  destruct (of_chars_cases (t ++ x ++ post)) as [[u Hu]|[e He]]; [|unfold decode_payload in Hok; by rewrite He in Hok].
  assert (8 <= length (t ++ x ++ post))%nat as Hlen.
  { unfold decode_payload in Hok. rewrite Hu in Hok. cbn [mbind outcome_mbind] in Hok. by destruct (Nat.ltb_spec (length (t ++ x ++ post)) 8). }
  destruct (decode_chars prefix _ u Hu Hlen) as [[Hcode _]|[_ E']]; [|by rewrite E' in Hok].
  destruct (decode_chars prefix (t ++ y ++ post) v Hv) as [[Hcode' _]|[_ E']]; [rewrite !length_app in *; lia| |by exists BadChecksum]. exfalso.
  pose proof (of_chars_digits _ _ Hu) as [Hdu _]. pose proof (of_chars_digits _ _ Hv) as [Hdv _].
  apply mapM_Forall2 in Hu, Hv. apply Forall2_app_inv_l in Hu as (u1 & u' & H1 & Hu & ->). apply Forall2_app_inv_l in Hu as (ux & u2 & Hx & H2 & ->).
  apply Forall2_app_inv_l in Hv as (v1 & v' & H1' & Hv & ->). apply Forall2_app_inv_l in Hv as (vy & v2 & Hy & H2' & ->).
  assert (v1 = u1) as -> by (apply mapM_Forall2 in H1, H1'; congruence). assert (v2 = u2) as -> by (apply mapM_Forall2 in H2, H2'; congruence).
  apply Forall_app in Hdu as [Hd1 [Hdx Hd2]%Forall_app]. apply Forall_app in Hdv as [_ [Hdy _]%Forall_app].
  pose proof (Forall2_length _ _ _ Hx). pose proof (Forall2_length _ _ _ Hy). revert Hcode'. apply (codewords_distant prefix u1 ux vy u2); try done; [lia..|].
  intros ->. apply Hne. by apply (chars_inj x y vy).
Qed.

(** *** Round trip *)

Definition address_wf (a : Address) : Prop := Forall is_byte (addr_payload a) /\ zlen (addr_payload a) = public_key_len (addr_version a).

Lemma checksum_bound payload prefix : digits 5 payload -> digits 5 prefix -> 0 <= checksum payload prefix < 2 ^ 40.
Proof.
  intros Hd Hp. apply lxor_bound; [lia| |lia]. apply fold_bound; [|lia].
  repeat (apply Forall_app; split); try done; [by repeat constructor|by apply digits_zeros].
Qed.

Lemma be_le_bytes n x : 0 <= x < 256 ^ Z.of_nat n -> be 8 (rev (le_bytes n x)) = x.
Proof. intros Hx. by rewrite <-of_le_rev, rev_involutive, of_le_le. Qed.

Lemma digits_le_bytes n x : digits 8 (rev (le_bytes n x)).
Proof. apply Forall_rev, le_bytes_bytes. Qed.

Lemma sum_bytes sum : 0 <= sum < 2 ^ 40 -> drop 3 (rev (le_bytes 8 sum)) = rev (le_bytes 5 sum).
Proof.
  intros Hs. assert (rev (le_bytes 8 sum) = replicate 3 0 ++ rev (le_bytes 5 sum)) as ->; [|done]. apply (be_inj 8).
  - lia.
  - apply digits_le_bytes.
  - apply Forall_app. split; [by apply digits_zeros|apply digits_le_bytes].
  - by rewrite length_app, !length_rev, !length_le_bytes.
  - rewrite be_app, be_zeros, !be_le_bytes by lia. lia.
Qed.

Lemma to_chars {E} u : digits 5 u -> exists s, mapM' (to_char (E := E)) u = Ok s /\ mapM' of_char s = Ok u.
Proof.
  induction 1 as [|i u Hi _ (s & E1 & E2)]; [by exists []|]. destruct (to_char_ok (E := E) i Hi) as (b & Eb & Ei). exists (b :: s). cbn [mapM']. by rewrite Eb, E1, Ei, E2.
Qed.

Lemma version_ok v : version_try_from (version_byte v) = Ok v.
Proof. by destruct v. Qed.

Lemma prefix_ok p : prefix_try_from (prefix_as_str p) = Ok p /\ forall t, split_once 58 (prefix_as_str p ++ text ":" ++ t) = Some (prefix_as_str p, t).
Proof. by destruct p. Qed.

(** C32: every address with a payload of the length of its version prints, and
    its text parses back to it. *)
Theorem address_round_trip {E} a : address_wf a -> exists s, address_to_string (E := E) a = Ok s /\ address_try_from s = Ok a.
Proof.
  intros [Hb Hl]. set (bs := version_byte (addr_version a) :: addr_payload a).
  assert (digits 8 bs) as Hbs by (constructor; [by destruct (addr_version a)|done]).
  destruct (conv_round_trip (E := E) (E' := AddressError) bs Hbs) as (ds & E1 & Hds & E2).
  pose proof (checksum_bound ds _ Hds (prefix_digits (addr_prefix a))) as Hc. set (sum := checksum _ _) in *.
  destruct (conv8to5_ok (E := E) (rev (le_bytes 5 sum)) (digits_le_bytes 5 sum)) as (fs & E3 & Hfs & Hlf & Hv). rewrite length_rev, length_le_bytes in Hlf, Hv.
  assert (length fs = 8)%nat as Hl8 by lia. destruct (to_chars (E := E) (ds ++ fs)) as (s & Es & Hu); [by apply Forall_app|].
  pose proof (of_chars_digits _ _ Hu) as [_ Hlen]. rewrite length_app in Hlen.
  exists (prefix_as_str (addr_prefix a) ++ text ":" ++ s). split.
  { unfold address_to_string, encode_payload. fold bs. rewrite E1. cbn [mbind outcome_mbind]. fold sum. by rewrite (sum_bytes sum Hc), E3; cbn [mbind outcome_mbind]; rewrite Es. }
  unfold address_try_from. destruct (prefix_ok (addr_prefix a)) as [Ep ->]. rewrite Ep. cbn [mbind outcome_mbind].
  destruct (decode_chars (addr_prefix a) s _ Hu ltac:(lia)) as [[_ ->]|[Hn _]].
  - replace (length s - 8)%nat with (length ds) by lia. rewrite take_app_length, E2. subst bs. cbn [mbind outcome_mbind head unwrap tail]. rewrite version_ok. cbn [mbind outcome_mbind]. unfold Address_new.
    rewrite Hl, Z.eqb_refl. by destruct a.
  - exfalso. apply Hn. unfold codeword. apply checksum_codeword; [apply prefix_digits|done..|]. fold sum. rewrite Hv, be_le_bytes, Hl8 by lia. cbn. lia.
Qed.

(** The decoding of an address panics instead of returning an error: on a
    text with a right checksum and no payload at all it indexes an empty vector,
    and on one whose key is too short for its version it fails an assertion. *)
Theorem address_decoding_panics :
  address_try_from (text "keryx:n6khd3gs") = Panic /\ address_try_from (text "keryx:qqqqqqqqxvnywazl") = Panic.
Proof. by vm_compute. Qed.

(** *** The address of the protocol *)

Definition rd_address : Address :=
  mkAddress Mainnet PubKey [78; 32; 149; 211; 8; 46; 130; 32; 48; 98; 168; 19; 29; 215; 115; 243; 159; 109; 190; 84; 30; 180; 19; 199; 53; 28; 191; 12; 150; 211; 168; 170].

Lemma rd_address_ok : address_try_from RD_ALLOCATION_ADDRESS = Ok rd_address.
Proof. by vm_compute. Qed.

Lemma rd_address_wf : address_wf rd_address.
Proof. split; [|done]. by repeat constructor. Qed.

Lemma address_round_trip_witness : exists s, address_to_string (E := Empty_set) rd_address = Ok s /\ address_try_from s = Ok rd_address.
Proof. apply (address_round_trip rd_address), rd_address_wf. Defined.

Lemma address_errors_detected_witness : exists e, address_try_from (text "keryx:" ++ text "qqqqqqqq" ++ drop 14 RD_ALLOCATION_ADDRESS) = Err e.
Proof.
  apply (address_errors_detected (text "keryx:") (text "qp8zp9wn") (text "qqqqqqqq") (drop 14 RD_ALLOCATION_ADDRESS) rd_address).
  - apply (bool_decide_unpack _). by vm_compute.
  - done.
  - cbn. lia.
  - done.
  - by vm_compute.
Defined.
