(* ===== verification/Float.v ===== *)
(** * Binary floating point

    The non-negative finite floats the reachability intervals are split with:
    [f32] and [f64] arithmetic rounds the exact result to the nearest value of
    [p] significant bits, ties to even ([p] is 24 or 53), with the exponent of
    the last place never below [emin].  Infinities do not occur in the ranges
    of the callers and are handled where the source can meet one. *)

From S2P Require Import Prelude.
#[local] Open Scope Z_scope.

(** [man * 2 ^ ex]. *)
Record float := mkFloat { man : Z; ex : Z }.

Record format := mkFormat { prec : Z; emin : Z }.
Definition f32 : format := mkFormat 24 (-149).
Definition f64 : format := mkFormat 53 (-1074).

Definition fzero : float := mkFloat 0 0.

(** [2 ^ e] as the pair of a numerator and a denominator. *)
Definition up (e : Z) : Z := 2 ^ Z.max e 0.
Definition down (e : Z) : Z := 2 ^ Z.max (- e) 0.

(** The quotient [a / b] rounded to the nearest integer, ties to even. *)
Definition rne (a b : Z) : Z :=
  let q := a / b in
  let r := a mod b in
  if 2 * r <? b then q else if b <? 2 * r then q + 1 else q + q mod 2.

(** The exponent [a] with [2^a <= num/den < 2^(a+1)]. *)
Definition flog2 (num den : Z) : Z :=
  let l := Z.log2 num - Z.log2 den in
  if den * up l <=? num * down l then l else l - 1.

(** The rational [num / den] rounded to a float. *)
Definition fround (F : format) (num den : Z) : float :=
  if num <=? 0 then fzero
  else
    let e := Z.max (emin F) (flog2 num den - (prec F - 1)) in
    mkFloat (rne (num * down e) (den * up e)) e.

(** Conversions and operators. *)
Definition float_of_Z (F : format) (n : Z) : float := fround F n 1.
Definition fmul (F : format) (x y : float) : float :=
  fround F (man x * man y * up (ex x + ex y)) (down (ex x + ex y)).
Definition fdiv (F : format) (x y : float) : float :=
  fround F (man x * up (ex x) * down (ex y)) (man y * up (ex y) * down (ex x)).
Definition fadd (F : format) (x y : float) : float :=
  let e := Z.min (ex x) (ex y) in
  let s := man x * 2 ^ (ex x - e) + man y * 2 ^ (ex y - e) in
  fround F (s * up e) (down e).

(** [ceil] and [round] (half away from zero), followed by the saturating
    [as u64]. *)
Definition fceil_u64 (x : float) : Z := Z.min u64_max (div_ceil (man x * up (ex x)) (down (ex x))).
Definition fround_u64 (x : float) : Z :=
  Z.min u64_max ((2 * (man x * up (ex x)) + down (ex x)) / (2 * down (ex x))).

(** ** Rounding stays within a binade *)

Lemma up_pos e : 0 < up e.
Proof. unfold up. apply Z.pow_pos_nonneg; lia. Qed.

Lemma down_pos e : 0 < down e.
Proof. unfold down. apply Z.pow_pos_nonneg; lia. Qed.

#[export] Hint Resolve up_pos down_pos : keryx.

Lemma up_down_nonneg e : 0 <= e -> up e = 2 ^ e /\ down e = 1.
Proof. intros. unfold up, down. rewrite (Z.max_l e 0), (Z.max_r (- e) 0) by lia. done. Qed.

Lemma up_down_neg e : e <= 0 -> up e = 1 /\ down e = 2 ^ (- e).
Proof. intros. unfold up, down. rewrite (Z.max_r e 0), (Z.max_l (- e) 0) by lia. done. Qed.

(** [up e / down e] is multiplicative in [e]. *)
Lemma up_down_add a b : up (a + b) * down a * down b = up a * up b * down (a + b).
Proof.
  unfold up, down.
  rewrite <-!Z.pow_add_r by lia. f_equal. lia.
Qed.

Lemma rne_bounds a b lo hi : 0 < b -> lo * b <= a <= hi * b -> lo <= rne a b <= hi.
Proof.
  intros Hb [H1 H2]. unfold rne.
  pose proof (Z.div_mod a b ltac:(lia)) as Hd. pose proof (Z.mod_pos_bound a b Hb).
  pose proof (Z.mod_pos_bound (a / b) 2 ltac:(lia)).
  assert (lo <= a / b) by (apply Z.div_le_lower_bound; lia).
  assert (a / b <= hi) by (apply Z.div_le_upper_bound; lia).
  assert (a mod b <> 0 -> a / b < hi) by (intros; apply (Z.mul_lt_mono_pos_r b); lia).
  destruct (Z.ltb_spec (2 * (a mod b)) b); [lia|].
  destruct (Z.ltb_spec b (2 * (a mod b))); [lia|].
  assert (a mod b <> 0) by lia. lia.
Qed.

Lemma flog2_spec num den :
  0 < num -> 0 < den ->
  den * up (flog2 num den) <= num * down (flog2 num den) /\
  num * down (flog2 num den + 1) < den * up (flog2 num den + 1).
Proof.
  intros Hn Hd.
  pose proof (Z.log2_spec num Hn) as [N1 N2]. pose proof (Z.log2_spec den Hd) as [D1 D2].
  pose proof (Z.log2_nonneg num). pose proof (Z.log2_nonneg den).
  set (ln := Z.log2 num) in *. set (ld := Z.log2 den) in *.
  assert (forall k, up (k + 1) * down k = 2 * (up k * down (k + 1))) as Hstep.
  { intros k. unfold up, down. rewrite <-!Z.pow_add_r by lia.
    rewrite <-Z.pow_succ_r by lia. f_equal. lia. }
  assert (num * down (ln - ld + 1) < den * up (ln - ld + 1)) as Hhi.
  { destruct (Z.le_gt_cases 0 (ln - ld + 1)).
    - destruct (up_down_nonneg (ln - ld + 1)) as [-> ->]; [lia|].
      assert (2 ^ Z.succ ln = 2 ^ ld * 2 ^ (ln - ld + 1)) as He by (rewrite <-Z.pow_add_r by lia; f_equal; lia).
      nia.
    - destruct (up_down_neg (ln - ld + 1)) as [-> ->]; [lia|].
      assert (2 ^ ld = 2 ^ Z.succ ln * 2 ^ (- (ln - ld + 1))) as He by (rewrite <-Z.pow_add_r by lia; f_equal; lia).
      assert (0 < 2 ^ (- (ln - ld + 1))) by (apply Z.pow_pos_nonneg; lia). nia. }
  assert (den * up (ln - ld - 1) <= num * down (ln - ld - 1)) as Hlo.
  { destruct (Z.le_gt_cases 0 (ln - ld - 1)).
    - destruct (up_down_nonneg (ln - ld - 1)) as [-> ->]; [lia|].
      assert (2 ^ ln = 2 ^ Z.succ ld * 2 ^ (ln - ld - 1)) as He by (rewrite <-Z.pow_add_r by lia; f_equal; lia).
      assert (0 < 2 ^ (ln - ld - 1)) by (apply Z.pow_pos_nonneg; lia). nia.
    - destruct (up_down_neg (ln - ld - 1)) as [-> ->]; [lia|].
      assert (2 ^ Z.succ ld = 2 ^ ln * 2 ^ (- (ln - ld - 1))) as He by (rewrite <-Z.pow_add_r by lia; f_equal; lia).
      assert (0 < 2 ^ (- (ln - ld - 1))) by (apply Z.pow_pos_nonneg; lia). nia. }
  unfold flog2. fold ln ld.
  destruct (Z.leb_spec (den * up (ln - ld)) (num * down (ln - ld))) as [Hc|Hc]; [done|].
  split; [done|]. replace (ln - ld - 1 + 1) with (ln - ld) by lia. lia.
Qed.

(** Comparison of the rational [num / den] with a power of two. *)
Definition le2 (num den b : Z) : Prop := num * down b <= den * up b.
Definition ge2 (num den a : Z) : Prop := den * up a <= num * down a.

Lemma up_down_sub a b : a <= b -> up b * down a = 2 ^ (b - a) * up a * down b.
Proof. intros. unfold up, down. rewrite <-!Z.pow_add_r by lia. f_equal. lia. Qed.

Lemma up_down_mono a b : a <= b -> up a * down b <= up b * down a.
Proof. intros. unfold up, down. rewrite <-!Z.pow_add_r by lia. apply Z.pow_le_mono_r; lia. Qed.

Lemma flog2_ge num den a : 0 < num -> 0 < den -> ge2 num den a -> a <= flog2 num den.
Proof.
  intros Hn Hd Ha. destruct (flog2_spec num den Hn Hd) as [_ L2]. set (c := flog2 num den) in *.
  destruct (Z.le_gt_cases a c) as [|Hlt]; [done|exfalso]. unfold ge2 in Ha.
  pose proof (up_down_mono (c + 1) a ltac:(lia)).
  pose proof (up_pos a); pose proof (down_pos a); pose proof (up_pos (c + 1)); pose proof (down_pos (c + 1)).
  assert (num * down (c + 1) * down a < den * up (c + 1) * down a) by nia.
  assert (den * up a * down (c + 1) <= num * down a * down (c + 1)) by nia. nia.
Qed.

Lemma flog2_le num den b : 0 < num -> 0 < den -> le2 num den b -> flog2 num den <= b.
Proof.
  intros Hn Hd Hb. destruct (flog2_spec num den Hn Hd) as [L1 _]. set (c := flog2 num den) in *.
  destruct (Z.le_gt_cases c b) as [|Hlt]; [done|exfalso]. unfold le2 in Hb.
  pose proof (up_down_sub b c ltac:(lia)) as Hs.
  assert (2 <= 2 ^ (c - b)) by (apply (Z.pow_le_mono_r 2 1); lia).
  pose proof (up_pos b); pose proof (down_pos b); pose proof (up_pos c); pose proof (down_pos c).
  assert (0 < den * up b * down c) by nia.
  assert (den * up c * down b <= num * down c * down b) by nia.
  assert (num * down b * down c <= den * up b * down c) by nia. nia.
Qed.

(** Rounding never crosses a power of two. *)
Lemma fround_ge2 F num den a :
  0 < num -> 0 < den -> 0 < prec F -> emin F <= a - (prec F - 1) -> ge2 num den a ->
  ge2 (man (fround F num den) * up (ex (fround F num den))) (down (ex (fround F num den))) a.
Proof.
  intros Hn Hd Hp He Ha. pose proof (flog2_ge _ _ _ Hn Hd Ha) as Hc.
  destruct (flog2_spec num den Hn Hd) as [L1 _].
  unfold fround. destruct (Z.leb_spec num 0); [lia|]. cbn [man ex]. set (c := flog2 num den) in *.
  rewrite Z.max_r by lia. set (e := c - (prec F - 1)).
  pose proof (up_down_sub e c ltac:(lia)) as E1. pose proof (up_down_mono a c Hc) as E2.
  pose proof (up_pos e); pose proof (down_pos e); pose proof (up_pos c); pose proof (down_pos c);
    pose proof (up_pos a); pose proof (down_pos a).
  assert (2 ^ (c - e) <= rne (num * down e) (den * up e)) as Hm.
  { destruct (rne_bounds (num * down e) (den * up e) (2 ^ (c - e)) (num * down e)); [nia| |done].
    assert (1 <= den * up e) by nia. assert (0 < num * down e) by nia.
    split; [|nia]. apply (Z.mul_le_mono_pos_r _ _ (down c)); [done|].
    transitivity (den * up c * down e); [nia|]. transitivity (num * down c * down e); [|nia]. nia. }
  unfold ge2. set (m := rne _ _) in *.
  apply (Z.mul_le_mono_pos_r _ _ (down c)); [done|].
  assert (0 < up e * down c) by nia.
  transitivity (up c * down e * down a); [nia|]. rewrite E1.
  transitivity (m * (up e * down c) * down a); [|nia].
  apply Z.mul_le_mono_nonneg_r; [lia|]. nia.
Qed.

Lemma fround_le2 F num den b :
  0 < num -> 0 < den -> 0 < prec F -> emin F <= b -> le2 num den b ->
  le2 (man (fround F num den) * up (ex (fround F num den))) (down (ex (fround F num den))) b.
Proof.
  intros Hn Hd Hp He Hb. pose proof (flog2_le _ _ _ Hn Hd Hb) as Hc.
  unfold fround. destruct (Z.leb_spec num 0); [lia|]. cbn [man ex]. set (c := flog2 num den) in *.
  set (e := Z.max (emin F) (c - (prec F - 1))).
  pose proof (up_down_sub e b ltac:(lia)) as E1.
  pose proof (up_pos e); pose proof (down_pos e); pose proof (up_pos b); pose proof (down_pos b).
  assert (rne (num * down e) (den * up e) <= 2 ^ (b - e)) as Hm.
  { destruct (rne_bounds (num * down e) (den * up e) 0 (2 ^ (b - e))); [nia| |done].
    split; [nia|]. unfold le2 in Hb. apply (Z.mul_le_mono_pos_r _ _ (down b)); [done|].
    transitivity (den * up b * down e); nia. }
  unfold le2. set (m := rne _ _) in *. assert (0 < up e * down b) by nia. nia.
Qed.

(** A float between two powers of two has its ceiling between them. *)
Lemma div_ceil_between num den b :
  0 < num -> 0 < den -> 0 <= b -> le2 num den b -> 1 <= div_ceil num den <= 2 ^ b.
Proof.
  intros Hn Hd Hb Hle. unfold le2 in Hle. destruct (up_down_nonneg b Hb) as [Hu Hv].
  rewrite Hu, Hv in Hle. unfold div_ceil. split.
  - apply Z.div_le_lower_bound; lia.
  - apply Z.lt_succ_r, Z.div_lt_upper_bound; nia.
Qed.

Example f32_third : fround f32 1 3 = mkFloat 11184811 (-25). Proof. reflexivity. Qed.
Example f64_tenth : fround f64 1 10 = mkFloat 7205759403792794 (-56). Proof. reflexivity. Qed.
Example f32_big : float_of_Z f32 (2 ^ 64 - 2) = mkFloat (2 ^ 24) 40. Proof. reflexivity. Qed.
