(* ===== verification/Interval.v ===== *)
(** * Reachability intervals

    [consensus/src/processes/reachability/interval.rs].  The [debug_assert!]s of
    [Interval::new] do not run in release builds; [wf_interval] states what
    they check. *)

From S2P Require Import Prelude Float.
#[local] Open Scope Z_scope.

Record Interval := mkInterval { start : Z; end_ : Z }.

#[export] Instance Interval_eq_dec : EqDecision Interval.
Proof. solve_decision. Defined.

Definition Interval_empty : Interval := mkInterval 1 0.
Definition Interval_maximal : Interval := mkInterval 1 (u64_max - 1).

Section interval.
Context {E : Type}.

Definition size (i : Interval) : outcome E Z := e1 ← add_ 64 (end_ i) 1; sub_ 64 e1 (start i).

Definition is_empty (i : Interval) : outcome E bool := sz ← size i; Ok (sz =? 0).

Definition increase (i : Interval) (offset : Z) : outcome E Interval :=
  s ← add_ 64 (start i) offset; e ← add_ 64 (end_ i) offset; Ok (mkInterval s e).

Definition decrease (i : Interval) (offset : Z) : outcome E Interval :=
  s ← sub_ 64 (start i) offset; e ← sub_ 64 (end_ i) offset; Ok (mkInterval s e).

Definition increase_start (i : Interval) (offset : Z) : outcome E Interval :=
  s ← add_ 64 (start i) offset; Ok (mkInterval s (end_ i)).

Definition decrease_start (i : Interval) (offset : Z) : outcome E Interval :=
  s ← sub_ 64 (start i) offset; Ok (mkInterval s (end_ i)).

Definition increase_end (i : Interval) (offset : Z) : outcome E Interval :=
  e ← add_ 64 (end_ i) offset; Ok (mkInterval (start i) e).

Definition decrease_end (i : Interval) (offset : Z) : outcome E Interval :=
  e ← sub_ 64 (end_ i) offset; Ok (mkInterval (start i) e).

(** [fraction] is an [f32]; the only caller passes one half. *)
Definition split_fraction (i : Interval) (fraction : float) : outcome E (Interval * Interval) :=
  sz ← size i;
  let left_size := fceil_u64 (fmul f32 (float_of_Z f32 sz) fraction) in
  mid ← add_ 64 (start i) left_size;
  left_end ← sub_ 64 mid 1;
  Ok (mkInterval (start i) left_end, mkInterval mid (end_ i)).

Definition split_half (i : Interval) : outcome E (Interval * Interval) :=
  split_fraction i (mkFloat 1 (-1)).

(** The [map] of [split_exact] with its captured [start]. *)
Fixpoint split_exact_from (s : Z) (sizes : list Z) : outcome E (list Interval) :=
  match sizes with
  | [] => Ok []
  | sz :: sizes =>
      next ← add_ 64 s sz;
      e ← sub_ 64 next 1;
      rest ← split_exact_from next sizes;
      Ok (mkInterval s e :: rest)
  end.

Definition split_exact (i : Interval) (sizes : list Z) : outcome E (list Interval) :=
  sum ← foldM (add_ 64) 0 sizes;
  sz ← size i;
  _ ← assert (sum =? sz);
  split_exact_from (start i) sizes.

(** [1 / 2^d] in [f64]: [powf] gives infinity from [2^1024] on. *)
Definition inverse_pow2 (d : Z) : float :=
  if d <? 1024 then fdiv f64 (mkFloat 1 0) (mkFloat 1 d) else fzero.

Definition exponential_fractions (sizes : list Z) : list float :=
  let max_size := foldr Z.max 0 sizes in
  let fractions := (fun s => inverse_pow2 (max_size - s)) <$> sizes in
  let fractions_sum := foldl (fadd f64) fzero fractions in
  (fun item => fdiv f64 item fractions_sum) <$> fractions.

(** One iteration of the bias loop; the state is [(remaining_bias, biased_sizes)]. *)
Definition bias_step (sizes : list Z) (n : nat) (total_bias : float) (st : Z * list Z) (x : nat * float)
    : outcome E (Z * list Z) :=
  let '(remaining_bias, biased_sizes) := st in
  let '(i, fraction) := x in
  let bias := if Nat.eqb i (n - 1) then remaining_bias
              else Z.min remaining_bias (fround_u64 (fmul f64 total_bias fraction)) in
  s ← unwrap (sizes !! i);
  b ← add_ 64 s bias;
  remaining_bias ← sub_ 64 remaining_bias bias;
  Ok (remaining_bias, biased_sizes ++ [b]).

Definition split_exponential (i : Interval) (sizes : list Z) : outcome E (list Interval) :=
  interval_size ← size i;
  sizes_sum ← foldM (add_ 64) 0 sizes;
  _ ← assert (sizes_sum <=? interval_size);
  _ ← assert (0 <? sizes_sum);
  if interval_size =? sizes_sum then split_exact i sizes
  else
    remaining_bias ← sub_ 64 interval_size sizes_sum;
    let total_bias := float_of_Z f64 remaining_bias in
    let exp_fractions := exponential_fractions sizes in
    st ← foldM (bias_step sizes (length exp_fractions) total_bias) (remaining_bias, []) (imap pair exp_fractions);
    split_exact i st.2.

End interval.

Definition contains (i other : Interval) : bool := (start i <=? start other) && (end_ other <=? end_ i).
Definition strictly_contains (i other : Interval) : bool := (start i <=? start other) && (end_ other <? end_ i).

(** The vectors of the unit tests of [interval.rs]. *)
Example split_exponential_vectors :
  split_exponential (E := ()) (mkInterval 1 100) [33; 33; 33] =
    Ok [mkInterval 1 33; mkInterval 34 66; mkInterval 67 100] /\
  split_exponential (E := ()) (mkInterval 1 100) [25; 15; 10] =
    Ok [mkInterval 1 75; mkInterval 76 90; mkInterval 91 100] /\
  split_exponential (E := ()) (mkInterval 1 10000) [10; 10; 20] =
    Ok [mkInterval 1 20; mkInterval 21 40; mkInterval 41 10000] /\
  split_exponential (E := ()) (mkInterval 1 100000) [31000; 31000; 30001] =
    Ok [mkInterval 1 35000; mkInterval 35001 69999; mkInterval 70000 100000].
Proof. vm_compute. repeat split. Qed.

(** ** Well-formed intervals *)

(** What the debug assertions of [Interval::new] check. *)
Definition wf_interval (i : Interval) : Prop :=
  1 <= start i /\ start i - 1 <= end_ i /\ end_ i < u64_max.

(** The number of points of an interval. *)
Definition isize (i : Interval) : Z := end_ i + 1 - start i.

(** [tiles s e l]: the intervals of [l] follow each other from [s] to [e]. *)
Fixpoint tiles (s e : Z) (l : list Interval) : Prop :=
  match l with
  | [] => s = e + 1
  | i :: l => start i = s /\ s - 1 <= end_ i /\ tiles (end_ i + 1) e l
  end.

Section interval_lemmas.
Context {E : Type}.

Ltac step := unfold add_, sub_; rewrite checked_in by (unfold in_u, wf_interval, u64_max, umax in *; lia); run.

Lemma size_ok i : wf_interval i -> size (E := E) i = Ok (isize i).
Proof. intros Hw. unfold size, isize. step. step. done. Qed.

Lemma is_empty_ok i : wf_interval i -> is_empty (E := E) i = Ok (isize i =? 0).
Proof. intros Hw. unfold is_empty. by rewrite size_ok. Qed.

Lemma tiles_bounds s e l : tiles s e l -> s <= e + 1.
Proof. revert s; induction l as [|i l IH]; cbn; intros s; [lia|]. intros (Hs & H & Ht). apply IH in Ht. lia. Qed.

Lemma tiles_wf s e l : 1 <= s -> e < u64_max -> tiles s e l -> Forall wf_interval l.
Proof.
  revert s; induction l as [|i l IH]; cbn; intros s Hs He; [constructor|]. intros (Hst & Hi & Ht).
  pose proof (tiles_bounds _ _ _ Ht). constructor; [unfold wf_interval; lia|].
  apply (IH (end_ i + 1)); [lia|done|done].
Qed.

(** Two tiles of one tiling are ordered and disjoint. *)
Lemma tiles_lookup s e l n i :
  tiles s e l -> l !! n = Some i -> s <= start i /\ start i - 1 <= end_ i /\ end_ i <= e.
Proof.
  revert s n; induction l as [|j l IH]; intros s n; cbn; [done|].
  intros (Hs & Hj & Ht) Hn. pose proof (tiles_bounds _ _ _ Ht).
  destruct n as [|n]; cbn in Hn; [injection Hn as <-; lia|].
  destruct (IH _ _ Ht Hn). lia.
Qed.

Lemma tiles_ordered s e l n m i j :
  tiles s e l -> l !! n = Some i -> l !! m = Some j -> (n < m)%nat -> end_ i < start j.
Proof.
  revert s n m; induction l as [|k l IH]; intros s n m; cbn; [done|].
  intros (Hs & Hj & Ht) Hn Hm Hlt. destruct m as [|m]; [lia|]. cbn in Hm.
  destruct n as [|n]; cbn in Hn; [|by eapply (IH _ n m); [done..|lia]].
  injection Hn as ->. destruct (tiles_lookup _ _ _ _ _ Ht Hm). lia.
Qed.

Lemma split_exact_from_ok s e sizes :
  1 <= s -> e < u64_max -> Forall (fun x => 0 <= x) sizes -> Zsum sizes = e + 1 - s ->
  exists l, split_exact_from (E := E) s sizes = Ok l /\ tiles s e l /\ isize <$> l = sizes.
Proof.
  intros Hs He Hall. revert s Hs. induction Hall as [|x sizes Hx Hall IH]; intros s Hs Hsum.
  { exists []. rewrite Zsum_nil in Hsum. cbn. split; [done|]. split; [lia|done]. }
  rewrite Zsum_cons in Hsum. pose proof (Zsum_nonneg sizes Hall).
  cbn [split_exact_from]. step. step.
  destruct (IH (s + x)) as (l & -> & Ht & Hl); [lia|lia|]. run.
  eexists. split; [done|]. split.
  - cbn. replace (s + x - 1 + 1) with (s + x) by lia. split; [done|]. split; [lia|done].
  - cbn. rewrite Hl. f_equal. unfold isize. cbn. lia.
Qed.

Lemma split_exact_ok i sizes :
  wf_interval i -> Forall (fun x => 0 <= x) sizes -> Zsum sizes = isize i ->
  exists l, split_exact (E := E) i sizes = Ok l /\ tiles (start i) (end_ i) l /\ isize <$> l = sizes.
Proof.
  intros Hw Hall Hsum. unfold split_exact.
  rewrite foldM_add64; [|done|done|unfold isize, wf_interval, u64_max, umax in *; lia]. run.
  rewrite size_ok by done. run. rewrite Z.add_0_l, Hsum, Z.eqb_refl. cbn.
  apply split_exact_from_ok; [apply Hw|apply Hw|done|exact Hsum].
Qed.

Lemma rne_nonneg a b : 0 <= a -> 0 < b -> 0 <= rne a b.
Proof.
  intros Ha Hb. unfold rne. pose proof (Z.div_pos a b Ha Hb).
  pose proof (Z.mod_pos_bound (a / b) 2 ltac:(lia)). repeat case_match; lia.
Qed.

Lemma fround_man_nonneg F num den : 0 < den -> 0 <= man (fround F num den).
Proof.
  intros Hd. unfold fround. destruct (Z.leb_spec num 0); cbn; [lia|].
  apply rne_nonneg; [|apply Z.mul_pos_pos; auto with keryx].
  pose proof (down_pos (Z.max (emin F) (flog2 num den - (prec F - 1)))). nia.
Qed.

Lemma fround_u64_nonneg x : 0 <= man x -> 0 <= fround_u64 x.
Proof.
  intros Hm. unfold fround_u64. pose proof (up_pos (ex x)). pose proof (down_pos (ex x)).
  assert (0 <= (2 * (man x * up (ex x)) + down (ex x)) / (2 * down (ex x))) by (apply Z.div_pos; nia).
  unfold u64_max, umax. lia.
Qed.

Lemma bias_nonneg x y : 0 <= fround_u64 (fmul f64 x y).
Proof. apply fround_u64_nonneg, fround_man_nonneg. auto with keryx. Qed.

Lemma length_exponential_fractions sizes : length (exponential_fractions sizes) = length sizes.
Proof. unfold exponential_fractions. by rewrite !length_fmap. Qed.

(** The bias loop distributes exactly the slack, whatever the fractions are. *)
Lemma bias_loop sizes (fr : list float) total_bias slack :
  length fr = length sizes -> sizes <> [] -> Forall (fun x => 0 <= x) sizes ->
  0 <= slack -> Zsum sizes + slack < 2 ^ 64 ->
  exists biased, foldM (bias_step (E := E) sizes (length fr) total_bias) (slack, []) (imap pair fr) = Ok (0, biased) /\
    Zsum biased = Zsum sizes + slack /\ Forall2 Z.le sizes biased.
Proof.
  intros Hlen Hne Hpos Hslack Hsum.
  destruct (foldM_total (bias_step (E := E) sizes (length fr) total_bias)
    (fun pre st =>
       Forall2 Z.le (take (length pre) sizes) st.2 /\ 0 <= st.1 /\
       st.1 + Zsum st.2 = Zsum (take (length pre) sizes) + slack /\
       (length pre = length fr -> st.1 = 0))
    (slack, []) (imap pair fr)) as ([rem biased] & Hf & H1 & H2 & H3 & H4).
  - cbn [length fst snd]. rewrite take_0. repeat split; [constructor|done|lia|].
    intros Hz. destruct sizes; [done|]. cbn in Hlen. lia.
  - intros pre [i fraction] post [rem biased] Heq (H1 & H2 & H3 & H4). cbn [fst snd] in *.
    assert (imap pair fr !! length pre = Some (i, fraction)) as Hl
        by (rewrite Heq; by apply list_lookup_middle).
    rewrite list_lookup_imap in Hl.
    destruct (fr !! length pre) as [f'|] eqn:Ef; [|done]. cbn in Hl. injection Hl as <- <-.
    apply lookup_lt_Some in Ef.
    destruct (lookup_lt_is_Some_2 sizes (length pre)) as [s Hs]; [lia|].
    pose proof (Forall_lookup_1 _ _ _ _ Hpos Hs) as Hs0. cbn in Hs0.
    set (bias := if Nat.eqb (length pre) (length fr - 1) then rem
                 else Z.min rem (fround_u64 (fmul f64 total_bias f'))).
    assert (0 <= bias <= rem) as Hbias.
    { unfold bias. pose proof (bias_nonneg total_bias f'). case_match; lia. }
    assert (s + bias < 2 ^ 64) as Hfit.
    { rewrite <-(take_drop_middle sizes (length pre) s Hs), Zsum_app, Zsum_cons in Hsum.
      assert (0 <= Zsum (drop (S (length pre)) sizes)) by (by apply Zsum_nonneg, Forall_drop).
      assert (0 <= Zsum biased); [|lia].
      apply Z.le_trans with (Zsum (take (length pre) sizes)); [|by apply Zsum_le].
      by apply Zsum_nonneg, Forall_take. }
    eexists. cbn [bias_step]. rewrite Hs. cbn [unwrap mbind outcome_mbind]. fold bias.
    unfold add_, sub_. rewrite (checked_in 64 (s + bias)) by (unfold in_u; lia). run.
    rewrite (checked_in 64 (rem - bias)); [run; split; [done|]|].
    2:{ unfold in_u. split; [lia|]. assert (rem < 2 ^ 64); [|lia].
        assert (Zsum (take (length pre) sizes) <= Zsum biased) by (by apply Zsum_le).
        pose proof (Zsum_nonneg _ Hpos). lia. }
    cbn [fst snd]. rewrite length_app. cbn [length]. rewrite Nat.add_1_r.
    rewrite (take_S_r _ _ _ Hs). repeat split.
    + apply Forall2_app; [done|]. constructor; [lia|constructor].
    + lia.
    + rewrite !Zsum_app, !Zsum_cons, !Zsum_nil. lia.
    + intros Hlast. unfold bias. rewrite (proj2 (Nat.eqb_eq _ _)) by lia. lia.
  - cbn [fst snd] in *. rewrite length_imap in *. rewrite take_ge in * by lia.
    specialize (H4 eq_refl). subst rem. exists biased. split; [done|]. split; [lia|done].
Qed.

Lemma split_exponential_ok i sizes :
  wf_interval i -> Forall (fun x => 0 <= x) sizes -> 0 < Zsum sizes <= isize i ->
  exists l, split_exponential (E := E) i sizes = Ok l /\ tiles (start i) (end_ i) l /\
    Forall2 Z.le sizes (isize <$> l).
Proof.
  intros Hw Hall [Hpos Hle]. unfold split_exponential.
  rewrite size_ok by done. run.
  assert (isize i < 2 ^ 64) by (unfold isize, wf_interval, u64_max, umax in *; lia).
  rewrite foldM_add64; [|done|done|lia]. run. rewrite Z.add_0_l.
  rewrite (proj2 (Z.leb_le _ _)) by lia. rewrite (proj2 (Z.ltb_lt _ _)) by lia. cbn [assert]. run.
  destruct (Z.eqb_spec (isize i) (Zsum sizes)) as [He|He].
  - destruct (split_exact_ok i sizes) as (l & -> & Ht & Hl); [done..|].
    exists l. rewrite Hl. split; [done|]. split; [done|]. by apply Forall_Forall2_diag, Forall_true.
  - unfold sub_. rewrite checked_in by (unfold in_u; lia). run.
    destruct (bias_loop sizes (exponential_fractions sizes)
                (float_of_Z f64 (isize i - Zsum sizes)) (isize i - Zsum sizes)) as (biased & -> & Hs & Hf);
      [apply length_exponential_fractions|by intros ->|done|lia|lia|].
    run. cbn [snd].
    destruct (split_exact_ok i biased) as (l & -> & Ht & Hl); [done| |lia|].
    + eapply Forall2_Forall_r; [exact Hf|]. eapply Forall_impl; [exact Hall|]. cbn. intros. lia.
    + exists l. rewrite Hl. done.
Qed.

Lemma half_bounds m e a :
  ge2 (m * up e) (down e) a -> le2 (m * up e) (down e) (a + 1) ->
  0 < m * up (e + -1) /\ ge2 (m * up (e + -1)) (down (e + -1)) (a - 1) /\ le2 (m * up (e + -1)) (down (e + -1)) a.
Proof.
  unfold ge2, le2. intros H1 H2.
  pose proof (up_down_sub (e + -1) e ltac:(lia)) as E1. pose proof (up_down_sub (a - 1) a ltac:(lia)) as E2.
  pose proof (up_down_sub a (a + 1) ltac:(lia)) as E3.
  replace (e - (e + -1)) with 1 in E1 by lia. replace (a - (a - 1)) with 1 in E2 by lia.
  replace (a + 1 - a) with 1 in E3 by lia. change (2 ^ 1) with 2 in *.
  pose proof (up_pos e); pose proof (down_pos e); pose proof (up_pos (e + -1)); pose proof (down_pos (e + -1)).
  pose proof (up_pos a); pose proof (down_pos a); pose proof (up_pos (a - 1)); pose proof (down_pos (a - 1)).
  pose proof (up_pos (a + 1)); pose proof (down_pos (a + 1)).
  assert (0 < m) by nia. split; [nia|].
  split.
  - apply (Z.mul_le_mono_pos_r _ _ (2 * down e * down a)); [nia|].
    replace (down (e + -1) * up (a - 1) * (2 * down e * down a))
      with (down (e + -1) * down e * (2 * up (a - 1) * down a)) by ring.
    replace (m * up (e + -1) * down (a - 1) * (2 * down e * down a))
      with (m * down (a - 1) * down a * (2 * up (e + -1) * down e)) by ring.
    rewrite <-E1, <-E2.
    replace (m * down (a - 1) * down a * (up e * down (e + -1)))
      with (m * up e * down a * (down (e + -1) * down (a - 1))) by ring.
    replace (down (e + -1) * down e * (up a * down (a - 1)))
      with (down e * up a * (down (e + -1) * down (a - 1))) by ring.
    apply Z.mul_le_mono_nonneg_r; [nia|done].
  - apply (Z.mul_le_mono_pos_r _ _ (2 * down e * down (a + 1))); [nia|].
    replace (down (e + -1) * up a * (2 * down e * down (a + 1)))
      with (down (e + -1) * down e * (2 * up a * down (a + 1))) by ring.
    replace (m * up (e + -1) * down a * (2 * down e * down (a + 1)))
      with (m * down a * down (a + 1) * (2 * up (e + -1) * down e)) by ring.
    rewrite <-E1, <-E3.
    replace (m * down a * down (a + 1) * (up e * down (e + -1)))
      with (m * up e * down (a + 1) * (down (e + -1) * down a)) by ring.
    replace (down (e + -1) * down e * (up (a + 1) * down a))
      with (down e * up (a + 1) * (down (e + -1) * down a)) by ring.
    apply Z.mul_le_mono_nonneg_r; [nia|done].
Qed.

(** One half in [f32]: the left part is never empty and never exceeds the
    interval, although the size is rounded to 24 bits. *)
Lemma half_size n : 1 <= n < 2 ^ 64 -> 1 <= fceil_u64 (fmul f32 (float_of_Z f32 n) (mkFloat 1 (-1))) <= n.
Proof.
  intros Hn. pose proof (Z.log2_spec n ltac:(lia)) as [L1 L2]. set (a := Z.log2 n) in *.
  assert (0 <= a < 64) as Ha by (split; [apply Z.log2_nonneg|apply Z.log2_lt_pow2; lia]).
  assert (ge2 n 1 a) as G1 by (unfold ge2; destruct (up_down_nonneg a) as [-> ->]; lia).
  assert (le2 n 1 (a + 1)) as G2 by (unfold le2; destruct (up_down_nonneg (a + 1)) as [-> ->]; lia).
  apply (fround_ge2 f32) in G1; [|cbn; lia..]. apply (fround_le2 f32) in G2; [|cbn; lia..].
  unfold float_of_Z. set (x := fround f32 n 1) in *.
  unfold fmul, fceil_u64. cbn [man ex]. rewrite Z.mul_1_r. set (e := ex x + -1).
  destruct (half_bounds (man x) (ex x) a G1 G2) as (Hx & H1 & H2). fold e in H1, H2.
  apply (fround_ge2 f32) in H1; [|cbn; auto with keryx; nia..].
  apply (fround_le2 f32) in H2; [|cbn; auto with keryx; nia..].
  set (y := fround f32 (man x * up e) (down e)) in *.
  assert (0 < man y * up (ex y)) as Hy.
  { unfold ge2 in H1. pose proof (up_pos (a - 1)); pose proof (down_pos (ex y)); pose proof (down_pos (a - 1)).
    assert (0 < down (ex y) * up (a - 1)) by (by apply Z.mul_pos_pos).
    apply (Z.mul_pos_cancel_r _ (down (a - 1))); [done|lia]. }
  destruct (div_ceil_between (man y * up (ex y)) (down (ex y)) a); [done|auto with keryx|lia|done|].
  unfold u64_max, umax. lia.
Qed.

Lemma split_half_ok i :
  wf_interval i -> 0 < isize i ->
  exists l r, split_half (E := E) i = Ok (l, r) /\ tiles (start i) (end_ i) [l; r] /\ 0 < isize l.
Proof.
  intros Hw Hpos. unfold split_half, split_fraction. rewrite size_ok by done. run.
  assert (isize i < 2 ^ 64) by (unfold isize, wf_interval, u64_max, umax in *; lia).
  pose proof (half_size (isize i) ltac:(lia)) as Hh.
  set (h := fceil_u64 _) in *. unfold isize in *. step. step.
  do 2 eexists. split; [done|]. cbn. lia.
Qed.
End interval_lemmas.

(** ** What the reachability tree relies on *)

(** An exponential split of an interval never fails when the requested
    sizes fit: it returns one child interval per size, the children tile the
    interval from its start to its end without gap or overlap, and each child
    is at least as large as was asked, whatever the floating-point fractions
    of the slack round to. *)
Theorem split_exponential_allocates (i : Interval) (sizes : list Z) :
  wf_interval i -> Forall (fun s => 0 <= s) sizes -> 0 < Zsum sizes <= isize i ->
  exists l, split_exponential (E := ()) i sizes = Ok l /\ tiles (start i) (end_ i) l /\
    Forall2 Z.le sizes (isize <$> l).
Proof. apply split_exponential_ok. Qed.

Lemma split_exponential_allocates_witness :
  exists l, split_exponential (E := ()) (mkInterval 1 100) [25; 15; 10] = Ok l /\ tiles 1 100 l /\
    Forall2 Z.le [25; 15; 10] (isize <$> l).
Proof.
  apply (split_exponential_allocates (mkInterval 1 100) [25; 15; 10]).
  - vm_compute. repeat split; congruence.
  - repeat constructor; vm_compute; congruence.
  - vm_compute. split; congruence.
Defined.

(** Halving a non-empty interval in [f32] arithmetic never fails, splits it
    into two adjacent intervals, and the left one, which a new tree child
    receives, is never empty, although the size is rounded to 24 bits. *)
Theorem split_half_left_nonempty (i : Interval) :
  wf_interval i -> 0 < isize i ->
  exists l r, split_half (E := ()) i = Ok (l, r) /\ tiles (start i) (end_ i) [l; r] /\ 0 < isize l.
Proof. apply split_half_ok. Qed.

Lemma split_half_left_nonempty_witness :
  exists l r, split_half (E := ()) Interval_maximal = Ok (l, r) /\
    tiles 1 (u64_max - 1) [l; r] /\ 0 < isize l.
Proof.
  apply (split_half_left_nonempty Interval_maximal); vm_compute; repeat split; congruence.
Defined.
