(* ===== verification/Slice.v ===== *)
(** * Slices and vectors of the Rust standard library

    The operations on [Vec] and slices that more than one component uses:
    indexed insertion, [splice] of one element, [position] and the binary
    search of [core::slice], written as the standard library writes it. *)
From S2P Require Import Prelude.
#[local] Open Scope Z_scope.

(** [Vec::insert(i, x)]: panics past the end. *)
Definition vec_insert {E A} (i : nat) (x : A) (l : list A) : outcome E (list A) :=
  if Nat.leb i (length l) then Ok (take i l ++ x :: drop i l) else Panic.

(** [Vec::splice(i..i + 1, new)]: panics past the end. *)
Definition vec_splice {E A} (i : nat) (new : list A) (l : list A) : outcome E (list A) :=
  if Nat.leb (S i) (length l) then Ok (take i l ++ new ++ drop (S i) l) else Panic.

(** [iter().position(p)]. *)
Fixpoint position {A} (p : A -> bool) (l : list A) : option nat :=
  match l with
  | [] => None
  | x :: l => if p x then Some O else S <$> position p l
  end.

Section binary_search.
Context {E A : Type} (key : A -> outcome E Z) (point : Z) (l : list A).

Definition search_cmp (i : nat) : outcome E comparison :=
  a ← unwrap (l !! i); k ← key a; Ok (k ?= point).

Fixpoint search_loop (fuel base size : nat) : outcome E nat :=
  match fuel with
  | O => OutOfFuel
  | S fuel =>
      if Nat.leb size 1 then Ok base
      else
        let half := Nat.div2 size in
        let mid := (base + half)%nat in
        cmp ← search_cmp mid;
        search_loop fuel (match cmp with Gt => base | _ => mid end) (size - half)
  end.

(** [inl i] is [Ok(i)] and [inr i] is [Err(i)] of the standard library. *)
Definition binary_search_by_key : outcome E (nat + nat) :=
  if Nat.eqb (length l) 0 then Ok (inr O)
  else
    base ← search_loop (length l) 0 (length l);
    cmp ← search_cmp base;
    Ok (match cmp with Eq => inl base | Lt => inr (S base) | Gt => inr base end).
End binary_search.

(** ** Correctness of the binary search *)

Section binary_search_lemmas.
Context {E A : Type} (key : A -> outcome E Z) (k : A -> Z) (point : Z) (l : list A).
Context (Hkey : forall a, a ∈ l -> key a = Ok (k a)).
Context (Hsorted : forall i j a b, l !! i = Some a -> l !! j = Some b -> (i < j)%nat -> k a < k b).

Lemma search_cmp_ok i a : l !! i = Some a -> search_cmp key point l i = Ok (k a ?= point).
Proof.
  intros Hi. unfold search_cmp. rewrite Hi. cbn. rewrite Hkey; [done|].
  apply list_elem_of_lookup. eauto.
Qed.

(** The window [base, base + size) keeps the last element not above the point. *)
Definition window (base size : nat) : Prop :=
  (1 <= size)%nat /\ (base + size <= length l)%nat /\
  (base = O \/ exists a, l !! base = Some a /\ k a <= point) /\
  (forall j a, (base + size <= j)%nat -> l !! j = Some a -> point < k a).

Lemma search_loop_ok fuel base size :
  (size <= fuel)%nat -> window base size ->
  exists b, search_loop key point l fuel base size = Ok b /\ window b 1.
Proof.
  revert base size. induction fuel as [|fuel IH]; intros base size Hf (H1 & H2 & H3 & H4); [lia|].
  cbn [search_loop]. destruct (Nat.leb_spec size 1).
  { exists base. split; [done|]. assert (size = 1)%nat as -> by lia. done. }
  assert (1 <= Nat.div2 size /\ 2 * Nat.div2 size <= size)%nat as [Hh1 Hh2].
  { rewrite Nat.div2_div. split; [apply Nat.div_le_lower_bound; lia|apply Nat.Div0.mul_div_le]. }
  set (half := Nat.div2 size) in *. cbn zeta.
  destruct (lookup_lt_is_Some_2 l (base + half)) as [m Hm]; [lia|].
  rewrite (search_cmp_ok _ _ Hm). cbn [mbind outcome_mbind].
  apply IH; [lia|]. destruct (Z.compare_spec (k m) point) as [Hc|Hc|Hc]; split_and!; try lia; try done.
  - right. exists m. split; [done|lia].
  - intros j a Hj. apply H4. lia.
  - right. exists m. split; [done|lia].
  - intros j a Hj. apply H4. lia.
  - intros j a Hj Ha. destruct (decide (j = base + half)%nat) as [->|]; [congruence|].
    assert (k m < k a); [|lia]. eapply Hsorted; [exact Hm|exact Ha|lia].
Qed.

(** On a slice sorted by the key, [Ok(i)] is the position of the point and
    [Err(i)] its insertion index. *)
Lemma binary_search_ok :
  exists r, binary_search_by_key key point l = Ok r /\
    match r with
    | inl i => exists a, l !! i = Some a /\ k a = point
    | inr i => (i <= length l)%nat /\ forall j a, l !! j = Some a ->
                 ((j < i)%nat -> k a < point) /\ ((i <= j)%nat -> point < k a)
    end.
Proof.
  unfold binary_search_by_key. destruct (Nat.eqb_spec (length l) 0) as [H0|H0].
  { exists (inr O). split; [done|]. split; [lia|]. intros j a Ha. apply lookup_lt_Some in Ha. lia. }
  destruct (search_loop_ok (length l) 0 (length l)) as (b & -> & _ & W2 & W3 & W4); [lia| |].
  { split_and!; try lia. intros j a Hj Ha. apply lookup_lt_Some in Ha. lia. }
  cbn [mbind outcome_mbind].
  destruct (lookup_lt_is_Some_2 l b) as [m Hm]; [lia|].
  rewrite (search_cmp_ok _ _ Hm). cbn [mbind outcome_mbind].
  assert (forall j a, l !! j = Some a -> (j < b)%nat -> k a < k m) as Hlow
    by (intros; eapply Hsorted; eauto).
  destruct (Z.compare_spec (k m) point) as [Hc|Hc|Hc]; (eexists; split; [reflexivity|]).
  - by exists m.
  - split; [lia|]. intros j a Ha. split; intros Hj; [|eapply W4; [|done]; lia].
    destruct (decide (j = b)) as [->|]; [congruence|]. specialize (Hlow j a Ha). lia.
  - split; [lia|]. destruct W3 as [->|(a' & Ha' & ?)]; [|assert (a' = m) by congruence; subst; lia].
    intros j a Ha. split; intros Hj; [lia|].
    destruct (decide (j = O)) as [->|]; [congruence|]. eapply W4; [|done]. lia.
Qed.
End binary_search_lemmas.

Example binary_search_vectors :
  (fun p => binary_search_by_key (E := ()) Ok p [0; 1; 2; 3; 5; 8; 13; 21; 34; 55]) <$> [13; 4; 100; -1] =
  [Ok (inl 6%nat); Ok (inr 4%nat); Ok (inr 10%nat); Ok (inr 0%nat)].
Proof. reflexivity. Qed.

Lemma position_Some {A} (p : A -> bool) l i :
  position p l = Some i ->
  (exists x, l !! i = Some x /\ p x = true) /\ Forall (fun y => p y = false) (take i l).
Proof.
  revert i. induction l as [|x l IH]; intros i; cbn; [done|].
  destruct (p x) eqn:Ep.
  - intros [= <-]. split; [eauto|constructor].
  - destruct (position p l) as [j|]; cbn; [|done]. intros [= <-].
    destruct (IH j eq_refl) as [H1 H2]. split; [done|]. cbn. by constructor.
Qed.

Lemma position_None {A} (p : A -> bool) l : position p l = None <-> Forall (fun y => p y = false) l.
Proof.
  induction l as [|x l IH]; cbn; [split; [constructor|done]|].
  rewrite Forall_cons. destruct (p x); [naive_solver|].
  destruct (position p l); cbn; naive_solver.
Qed.
