(* ===== verification/BTree.v ===== *)
(** * Ordered maps

    The [BTreeMap]s keyed by 32-byte hashes of the service ledger are finite
    maps; what their order decides is the order in which [iter], [keys],
    [iter_mut] and [retain] visit them.  [btree_iter m] lists a map by increasing
    keys.  The order makes the listing canonical: it is the one strictly sorted
    list whose map is [m]. *)
From S2P Require Import Prelude.
From stdpp Require Import base gmap list.
#[local] Open Scope Z_scope.

Section btree.
Context {V : Type}.
Implicit Types (m : gmap Z V) (l : list (Z * V)).

Definition key_leb (a b : Z * V) : bool := a.1 <=? b.1.

(** [iter] and [keys]. *)
Definition btree_iter m : list (Z * V) := sort_by key_leb (map_to_list m).
Definition btree_keys m : list Z := (btree_iter m).*1.

(** [contains_key]. *)
Definition contains_key m (k : Z) : bool := match m !! k with Some _ => true | None => false end.

(** [retain], with a predicate that may panic. *)
Definition btree_retain {E} (f : Z -> V -> outcome E bool) m : outcome E (gmap Z V) :=
  foldM (fun m' '(k, v) => b ← f k v; Ok (if (b : bool) then m' else delete k m')) m (btree_iter m).

(** [sorted l]: the keys of [l] strictly increase. *)
Definition sorted l : Prop := StronglySorted Z.lt l.*1.

Lemma iter_perm m : btree_iter m ≡ₚ map_to_list m.
Proof. apply sort_by_perm. Qed.

Lemma elem_of_iter m k v : (k, v) ∈ btree_iter m <-> m !! k = Some v.
Proof. by rewrite iter_perm, elem_of_map_to_list. Qed.

Lemma elem_of_keys m k : k ∈ btree_keys m <-> is_Some (m !! k).
Proof.
  unfold btree_keys. rewrite list_elem_of_fmap. split.
  - intros ([k' v] & -> & Hv). apply elem_of_iter in Hv. by exists v.
  - intros [v Hv]. exists (k, v). by rewrite elem_of_iter.
Qed.

Lemma NoDup_keys m : NoDup (btree_keys m).
Proof. unfold btree_keys. rewrite iter_perm. apply NoDup_fst_map_to_list. Qed.

Lemma iter_map m : list_to_map (btree_iter m) = m.
Proof. rewrite <-(list_to_map_to_list m) at 2. apply list_to_map_proper; [apply NoDup_keys|apply iter_perm]. Qed.

Lemma iter_sorted m : sorted (btree_iter m).
Proof.
  unfold sorted. pose proof (NoDup_keys m) as Hnd. unfold btree_keys in Hnd. revert Hnd.
  assert (StronglySorted (fun a b => key_leb a b = true) (btree_iter m)) as Hs.
  { apply sort_by_sorted; unfold key_leb; intros; lia. }
  induction Hs as [|a l _ IH Hall]; cbn; [constructor|]. intros [Ha Hnd]%NoDup_cons.
  constructor; [by apply IH|]. rewrite Forall_fmap. rewrite Forall_forall in *. intros b Hb. cbn.
  specialize (Hall b Hb). unfold key_leb in Hall.
  assert (a.1 <> b.1); [|lia]. intros Eab. apply Ha. rewrite Eab. by apply list_elem_of_fmap_2.
Qed.

Lemma sorted_NoDup l : sorted l -> NoDup l.*1.
Proof.
  unfold sorted. induction l.*1 as [|k ks IH]; [constructor|]. inversion_clear 1 as [|? ? Hs Hall].
  constructor; [|by apply IH]. intros Hk. rewrite Forall_forall in Hall. specialize (Hall k Hk). lia.
Qed.

(** Two strictly sorted listings of one map are equal. *)
Lemma sorted_unique l1 l2 : sorted l1 -> sorted l2 -> l1 ≡ₚ l2 -> l1 = l2.
Proof.
  revert l2. induction l1 as [|[k v] l1 IH]; intros [|[k' v'] l2] H1 H2 Hp; try done.
  { by apply Permutation_nil_cons in Hp. }
  { by apply symmetry, Permutation_nil_cons in Hp. }
  inversion_clear H1 as [|? ? Hs1 Ha1]. inversion_clear H2 as [|? ? Hs2 Ha2].
  assert ((k, v) = (k', v')) as [= <- <-].
  { rewrite Forall_forall in Ha1, Ha2.
    assert ((k, v) ∈ (k', v') :: l2) as Hin by (rewrite <-Hp; left).
    assert ((k', v') ∈ (k, v) :: l1) as Hin' by (rewrite Hp; left).
    apply elem_of_cons in Hin as [?|Hin]; [done|]. apply elem_of_cons in Hin' as [?|Hin']; [done|].
    apply (list_elem_of_fmap_2 fst) in Hin, Hin'. specialize (Ha2 _ Hin). specialize (Ha1 _ Hin'). cbn in *. lia. }
  f_equal. apply IH; [done..|]. by apply Permutation_cons_inv in Hp.
Qed.

Lemma sorted_iter l : sorted l -> btree_iter (list_to_map l) = l.
Proof.
  intros Hs. apply sorted_unique; [apply iter_sorted|done|].
  rewrite iter_perm. by apply map_to_list_to_map, sorted_NoDup.
Qed.

Lemma iter_inj m1 m2 : btree_iter m1 = btree_iter m2 -> m1 = m2.
Proof. intros E. by rewrite <-(iter_map m1), <-(iter_map m2), E. Qed.

Lemma length_iter m : length (btree_iter m) = size m.
Proof. unfold btree_iter. rewrite length_sort_by. apply length_map_to_list. Qed.

Lemma map_Forall_keep (P : Z -> V -> Prop) (Q : Z * V -> Prop) `{!forall x, Decision (Q x)} m :
  map_Forall P m -> map_Forall P (filter Q m).
Proof. intros Hm k v [Hk _]%map_lookup_filter_Some. by apply Hm. Qed.

(** [btree_retain] keeps the entries that pass. *)
Lemma retain_filter {E} (f : Z -> V -> outcome E bool) (p : Z -> V -> bool) m :
  (forall k v, m !! k = Some v -> f k v = Ok (p k v)) ->
  btree_retain f m = Ok (filter (fun kv => p kv.1 kv.2 = true) m).
Proof.
  intros Hf. unfold btree_retain.
  destruct (foldM_total (fun m' '(k, v) => b ← f k v; Ok (if (b : bool) then m' else delete k m'))
    (fun done m' => forall k, m' !! k = match m !! k with
       | Some v => if bool_decide (k ∈ done.*1) && negb (p k v) then None else Some v | None => None end) m (btree_iter m))
    as (m' & -> & Hm').
  - intros k. cbn. destruct (m !! k); [|done]. by rewrite bool_decide_eq_false_2 by apply not_elem_of_nil.
  - intros pre [k v] post m1 E1 IH.
    assert (m !! k = Some v) as Hk. { apply elem_of_iter. rewrite E1. set_solver. }
    rewrite (Hf k v Hk). run. eexists. split; [done|]. intros j.
    assert (k ∉ pre.*1) as Hpre.
    { pose proof (NoDup_keys m) as Hnd. unfold btree_keys in Hnd. rewrite E1, fmap_app in Hnd.
      apply NoDup_app in Hnd as (_ & Hd & _). intros Hk'. apply (Hd k Hk'). left. }
    rewrite fmap_app. cbn. destruct (decide (j = k)) as [->|Hjk].
    + rewrite Hk, (bool_decide_eq_true_2 (k ∈ _)) by set_solver. cbn.
      destruct (p k v); cbn; [|by rewrite lookup_delete_eq].
      by rewrite IH, Hk, bool_decide_eq_false_2.
    + transitivity (m1 !! j). { destruct (p k v); [done|]. by rewrite lookup_delete_ne. }
      rewrite IH. destruct (m !! j); [|done].
      rewrite (bool_decide_ext (j ∈ pre.*1 ++ [k]) (j ∈ pre.*1)); [done|]. set_solver.
  - f_equal. apply map_eq. intros k. rewrite Hm', map_lookup_filter. destruct (m !! k) as [v|] eqn:Hk; [|done]. cbn.
    rewrite bool_decide_eq_true_2 by (by apply elem_of_keys; eauto).
    destruct (p k v) eqn:Ep; [rewrite option_guard_True by done|rewrite option_guard_False by (cbn; congruence)]; done.
Qed.
(** Inserting the entries of a delta into a base is a left-biased union. *)
Lemma fold_delta (base delta : gmap Z V) :
  foldl (fun m '(k, e) => <[k := e]> m) base (btree_iter delta) = delta ∪ base.
Proof.
  apply map_eq. intros k.
  assert (forall (l : list (Z * V)) (m : gmap Z V), sorted l -> foldl (fun m '(k, e) => <[k := e]> m) m l !! k = (list_to_map l : gmap Z V) !! k ∪ m !! k) as Hl.
  { induction l as [|[k' v] l IH]; intros m Hs; cbn [foldl]; [by rewrite left_id by apply _|].
    pose proof (sorted_NoDup _ Hs) as [Hk' _]%NoDup_cons. inversion_clear Hs as [|? ? Hs' _]. rewrite IH by done. cbn [list_to_map foldr].
    destruct (decide (k = k')) as [->|]; [|by rewrite !lookup_insert_ne].
    rewrite !lookup_insert_eq. rewrite not_elem_of_list_to_map_1 by done. by destruct (m !! k'). }
  rewrite Hl by apply iter_sorted. rewrite iter_map. by rewrite lookup_union.
Qed.

(** [range(..=d).next_back()]: the entry of the greatest key up to [d]. *)
Definition last_upto m (d : Z) : option (Z * V) := last (filter (fun kv => kv.1 <= d) (btree_iter m)).

Lemma sorted_last l k v : sorted l -> last l = Some (k, v) -> (k, v) ∈ l /\ Forall (fun kv => kv.1 <= k) l.
Proof.
  intros Hs Hl. apply last_Some in Hl as [l' ->]. unfold sorted in Hs. rewrite fmap_app in Hs. split; [set_solver|].
  apply Forall_app. split; [|by repeat constructor]. apply Forall_forall. intros kv Hkv.
  enough (kv.1 < k) by lia. apply (StronglySorted_app_1_elem_of Z.lt l'.*1 [k]); [exact Hs| |set_solver]. by apply list_elem_of_fmap_2.
Qed.

Lemma sorted_filter (Q : Z * V -> Prop) `{!forall x, Decision (Q x)} l : sorted l -> sorted (filter Q l).
Proof.
  unfold sorted. induction l as [|kv l IH]; [done|]. rewrite fmap_cons, filter_cons. inversion_clear 1 as [|? ? Hs Ha].
  destruct (decide (Q kv)); [|by apply IH]. cbn. constructor; [by apply IH|].
  rewrite Forall_fmap in *. rewrite Forall_forall in *. intros x [_ Hx]%list_elem_of_filter. by apply Ha.
Qed.

Lemma last_upto_Some m d k v :
  last_upto m d = Some (k, v) <-> m !! k = Some v /\ k <= d /\ (forall k' v', m !! k' = Some v' -> k' <= d -> k' <= k).
Proof.
  assert (forall k v, last_upto m d = Some (k, v) -> m !! k = Some v /\ k <= d /\ (forall k' v', m !! k' = Some v' -> k' <= d -> k' <= k)) as Hf.
  { intros k1 v1 Hl. apply sorted_last in Hl as [Hin Hall]; [|apply sorted_filter, iter_sorted].
    apply list_elem_of_filter in Hin as [Hd Hin]. apply elem_of_iter in Hin. split; [done|]. split; [done|].
    intros k' v' Hk' Hd'. rewrite Forall_forall in Hall. apply (Hall (k', v')). apply list_elem_of_filter. by rewrite elem_of_iter. }
  split; [apply Hf|]. intros (Hk & Hd & Hmax). destruct (last_upto m d) as [[k1 v1]|] eqn:El.
  - destruct (Hf k1 v1 eq_refl) as (Hk1 & Hd1 & Hmax1). specialize (Hmax _ _ Hk1 Hd1). specialize (Hmax1 _ _ Hk Hd).
    assert (k1 = k) as -> by lia. congruence.
  - apply last_None in El. assert ((k, v) ∈ filter (fun kv => kv.1 <= d) (btree_iter m)) as Hin; [|rewrite El in Hin; set_solver].
    apply list_elem_of_filter. by rewrite elem_of_iter.
Qed.

Lemma last_upto_None m d : last_upto m d = None <-> (forall k v, m !! k = Some v -> d < k).
Proof.
  unfold last_upto. rewrite last_None. split.
  - intros El k v Hk. apply Z.nle_gt. intros Hd. assert ((k, v) ∈ filter (fun kv => kv.1 <= d) (btree_iter m)) as Hin; [|rewrite El in Hin; set_solver].
    apply list_elem_of_filter. by rewrite elem_of_iter.
  - intros Hall. destruct (filter _ _) as [|[k v] l] eqn:Ef; [done|].
    assert ((k, v) ∈ filter (fun kv => kv.1 <= d) (btree_iter m)) as Hin by (rewrite Ef; left).
    apply list_elem_of_filter in Hin as [Hd Hin]. apply elem_of_iter, Hall in Hin. cbn in Hd. lia.
Qed.

(** An insert at the top is seen from there on. *)
Lemma last_upto_insert m k v d : (forall k' v', m !! k' = Some v' -> k' <= k) ->
  last_upto (<[k := v]> m) d = if d <? k then last_upto m d else Some (k, v).
Proof.
  intros Hm. destruct (Z.ltb_spec d k) as [Hd|Hd].
  - destruct (last_upto m d) as [[k1 v1]|] eqn:El.
    + apply last_upto_Some in El as (Hk1 & Hd1 & Hmax). apply last_upto_Some. rewrite lookup_insert_ne by lia.
      split; [done|]. split; [done|]. intros k' v' Hk'. destruct (decide (k' = k)) as [->|]; [lia|]. rewrite lookup_insert_ne in Hk' by done. by eapply Hmax.
    + rewrite last_upto_None in El |- *. intros k' v' Hk'. destruct (decide (k' = k)) as [->|]; [lia|]. rewrite lookup_insert_ne in Hk' by done. by eapply El.
  - apply last_upto_Some. rewrite lookup_insert_eq. split; [done|]. split; [done|]. intros k' v' Hk' _.
    destruct (decide (k' = k)) as [->|]; [lia|]. rewrite lookup_insert_ne in Hk' by done. by eapply Hm.
Qed.
End btree.

Lemma iter_fmap {V W} (f : V -> W) (m : gmap Z V) : btree_iter (f <$> m) = (fun kv => (kv.1, f kv.2)) <$> btree_iter m.
Proof.
  apply sorted_unique; [apply iter_sorted| |].
  - unfold sorted. rewrite <-list_fmap_compose. apply iter_sorted.
  - rewrite !iter_perm, map_to_list_fmap. reflexivity.
Qed.

#[global] Arguments btree_iter : simpl never.
