(* ===== verification/Ledger.v ===== *)
(** * The service ledger

    [ServiceLedger] of [consensus/core/src/collateral.rs]: the state machine the
    virtual processor folds over the selected chain to decide which miners
    missed an assigned inference request, which escrow claims their strikes
    burn, who is suspended and who wins a request's reward.  [fold_inner] is one
    definition per phase, in the order of the source.  The maps are ordered
    ([BTree.v]); the addition of two DAA scores panics when it overflows. *)
From S2P Require Import Prelude Tx Slice BTree.
From stdpp Require Import base gmap list.
#[local] Open Scope Z_scope.

(** ** Constants *)
Definition SERVICE_BURNABLE_WINDOW_DAA : Z := 360000.
Definition STRIKE_1_BURN_CLAIMS : Z := 5.
Definition SERVICE_STRIKE_INTERVAL_DAA : Z := 36000.
Definition SERVICE_WINDOW_BASE_DAA : Z := 300.
Definition SERVICE_WINDOW_BASE_DAA_V2 : Z := 3000.
Definition AI_REQUEST_MAX_TOKENS_CAP : Z := 4096.
Definition SERVICE_LEDGER_HORIZON_DAA : Z := 72000.
Definition SERVICE_AUDITED_MEMORY_DAA : Z := 864000.
Definition SERVICE_EARLY_RESPONSE_HORIZON_DAA : Z := 36000.
Definition MAX_EARLY_RESPONSE_HASHES : nat := Z.to_nat 4096.

(** ** Service windows and penalties *)
Definition service_window_daa_at (tier max_tokens : Z) (v2 : bool) : Z :=
  let per_token_daa := if (0 <=? tier) && (tier <=? 2) then 2 else if tier =? 3 then 3 else 4 in
  let base := if v2 then SERVICE_WINDOW_BASE_DAA_V2 else SERVICE_WINDOW_BASE_DAA in
  base + Z.min max_tokens AI_REQUEST_MAX_TOKENS_CAP * per_token_daa.

Inductive ServicePenalty :=
| PenaltyNone
| BurnClaims (n : Z)
| SlashAllPending
| Suspend.

#[export] Instance ServicePenalty_eq_dec : EqDecision ServicePenalty.
Proof. solve_decision. Defined.

Definition strike_penalty_at (consecutive_misses : Z) (established v2 : bool) : ServicePenalty :=
  if consecutive_misses =? 0 then PenaltyNone
  else if (consecutive_misses =? 1) && (established || v2) then BurnClaims STRIKE_1_BURN_CLAIMS
  else if (consecutive_misses =? 1) || (consecutive_misses =? 2) then SlashAllPending
  else Suspend.

(** ** Data *)
Record EscrowClaim := mkClaim { ec_outpoint : TransactionOutpoint; ec_value : Z; ec_daa : Z }.

Record ServiceMiss := mkMiss {
  sm_request_hash : Hash;
  sm_miner : Hash;
  sm_consecutive_misses : Z;
  sm_penalty : ServicePenalty;
  sm_burned : list EscrowClaim;
}.

Record Audit := mkAudit {
  au_cohort : list Hash;
  au_delegations : list (Hash * Hash);
  au_responded : list Hash;
  au_window_end_daa : Z;
}.

Record PendingRequest := mkPending {
  pr_tier : Z;
  pr_max_tokens : Z;
  pr_accepted_daa : Z;
  pr_reward : Z;
  pr_winner : option Hash;
  pr_audit : option Audit;
  pr_early_responders : list Hash;
}.

Record StrikeEntry := mkStrike { se_count : Z; se_last_daa : Z }.

Record ServiceReward := mkReward {
  sr_request_hash : Hash;
  sr_winner : Hash;
  sr_amount : Z;
  sr_spk : option ScriptPublicKey;
}.

Record FoldOutcome := mkOutcome {
  fo_misses : list ServiceMiss;
  fo_rewards : list ServiceReward;
  fo_resets : list (Hash * Z);
  fo_sightings : list Hash;
  fo_expired : list (Hash * EscrowClaim);
}.

(** [entry(h).or_default()] of the vault: an absent deque is an empty one. *)
Notation Vault := (gmap Hash (list EscrowClaim)).

Record ServiceLedger := mkLedger {
  l_pending : gmap Hash PendingRequest;
  l_early_responses : gmap Hash (Z * list Hash);
  l_strikes : gmap Hash StrikeEntry;
  l_vault : Vault;
  l_base : gmap Hash StrikeEntry;
  l_first_seen : gmap Hash Z;
  l_first_seen_base : gmap Hash Z;
  l_window_v2_activation_daa : option Z;
  l_burnable_window_daa : option Z;
  l_reward_routing_daa : option Z;
  l_audited : gmap Hash Z;
  l_producer_spk : gmap Hash ScriptPublicKey;
}.

(** [ServiceLedger::default()]. *)
Definition empty_ledger : ServiceLedger := mkLedger ∅ ∅ ∅ ∅ ∅ ∅ ∅ None None None ∅ ∅.

Definition with_pending (L : ServiceLedger) m : ServiceLedger :=
  mkLedger m (l_early_responses L) (l_strikes L) (l_vault L) (l_base L) (l_first_seen L) (l_first_seen_base L)
    (l_window_v2_activation_daa L) (l_burnable_window_daa L) (l_reward_routing_daa L) (l_audited L) (l_producer_spk L).
Definition with_early_responses (L : ServiceLedger) m : ServiceLedger :=
  mkLedger (l_pending L) m (l_strikes L) (l_vault L) (l_base L) (l_first_seen L) (l_first_seen_base L)
    (l_window_v2_activation_daa L) (l_burnable_window_daa L) (l_reward_routing_daa L) (l_audited L) (l_producer_spk L).
Definition with_strikes (L : ServiceLedger) m : ServiceLedger :=
  mkLedger (l_pending L) (l_early_responses L) m (l_vault L) (l_base L) (l_first_seen L) (l_first_seen_base L)
    (l_window_v2_activation_daa L) (l_burnable_window_daa L) (l_reward_routing_daa L) (l_audited L) (l_producer_spk L).
Definition with_vault (L : ServiceLedger) m : ServiceLedger :=
  mkLedger (l_pending L) (l_early_responses L) (l_strikes L) m (l_base L) (l_first_seen L) (l_first_seen_base L)
    (l_window_v2_activation_daa L) (l_burnable_window_daa L) (l_reward_routing_daa L) (l_audited L) (l_producer_spk L).
Definition with_first_seen (L : ServiceLedger) m : ServiceLedger :=
  mkLedger (l_pending L) (l_early_responses L) (l_strikes L) (l_vault L) (l_base L) m (l_first_seen_base L)
    (l_window_v2_activation_daa L) (l_burnable_window_daa L) (l_reward_routing_daa L) (l_audited L) (l_producer_spk L).
Definition with_audited (L : ServiceLedger) m : ServiceLedger :=
  mkLedger (l_pending L) (l_early_responses L) (l_strikes L) (l_vault L) (l_base L) (l_first_seen L) (l_first_seen_base L)
    (l_window_v2_activation_daa L) (l_burnable_window_daa L) (l_reward_routing_daa L) m (l_producer_spk L).
Definition with_producer_spk (L : ServiceLedger) m : ServiceLedger :=
  mkLedger (l_pending L) (l_early_responses L) (l_strikes L) (l_vault L) (l_base L) (l_first_seen L) (l_first_seen_base L)
    (l_window_v2_activation_daa L) (l_burnable_window_daa L) (l_reward_routing_daa L) (l_audited L) m.

Definition with_audit (r : PendingRequest) (a : Audit) : PendingRequest :=
  mkPending (pr_tier r) (pr_max_tokens r) (pr_accepted_daa r) (pr_reward r) (pr_winner r) (Some a) (pr_early_responders r).
Definition with_winner (r : PendingRequest) (w : Hash) : PendingRequest :=
  mkPending (pr_tier r) (pr_max_tokens r) (pr_accepted_daa r) (pr_reward r) (Some w) (pr_audit r) (pr_early_responders r).
Definition with_early_responders (r : PendingRequest) (keys : list Hash) : PendingRequest :=
  mkPending (pr_tier r) (pr_max_tokens r) (pr_accepted_daa r) (pr_reward r) (pr_winner r) (pr_audit r) keys.

(** ** Reading the state *)

(** The folded delta wins over the persisted baseline. *)
Definition strike_state (L : ServiceLedger) (miner : Hash) : option StrikeEntry :=
  match l_strikes L !! miner with Some e => Some e | None => l_base L !! miner end.

Definition consecutive_misses (L : ServiceLedger) (miner : Hash) : Z :=
  match strike_state L miner with Some e => se_count e | None => 0 end.

Definition v2_at (L : ServiceLedger) (daa : Z) : bool :=
  match l_window_v2_activation_daa L with Some a => a <=? daa | None => false end.

Definition reset_preserved_last_daa (L : ServiceLedger) (identity : Hash) (daa : Z) : Z :=
  if v2_at L daa then match strike_state L identity with Some e => se_last_daa e | None => 0 end else 0.

Definition vault_claims (L : ServiceLedger) (miner : Hash) : list EscrowClaim :=
  default [] (l_vault L !! miner).

Definition strike_entries (L : ServiceLedger) : list (Hash * Z * Z) :=
  let merged := foldl (fun m '(k, e) => <[k := e]> m) (l_base L) (btree_iter (l_strikes L)) in
  (fun '(m, e) => (m, se_count e, se_last_daa e)) <$> filter (fun me => 0 < se_count me.2) (btree_iter merged).

(** ** Helpers of the fold *)

(** [if !v.contains(&x) { v.push(x) }]. *)
Definition push_new (v : list Hash) (x : Hash) : list Hash := if bool_decide (x ∈ v) then v else v ++ [x].

(** [dedup] of a slice: an element equal to the one kept before it goes. *)
Fixpoint dedup {A} `{EqDecision A} (l : list A) : list A :=
  match l with
  | x :: ((y :: _) as l') => if decide (x = y) then dedup l' else x :: dedup l'
  | l => l
  end.

(** The derived order of a pair of hashes. *)
Definition pair_leb (a b : Hash * Hash) : bool := (a.1 <? b.1) || ((a.1 =? b.1) && (a.2 <=? b.2)).

Definition eligible_pairs (recent : list (Hash * Z * Hash)) (target_tier : Z) : list (Hash * Hash) :=
  dedup (sort_by pair_leb ((fun '(m, _, e) => (m, e)) <$> filter (fun r => r.1.2 = target_tier) recent)).

(** [entry(miner).or_default()] of the vault, with a push at either end. *)
Definition vault_push_back (V : Vault) (miner : Hash) (c : EscrowClaim) : Vault :=
  <[miner := default [] (V !! miner) ++ [c]]> V.
Definition vault_push_front (V : Vault) (miner : Hash) (c : EscrowClaim) : Vault :=
  <[miner := c :: default [] (V !! miner)]> V.

(** The arguments of [fold_inner].  [warmup_burned] is [Some] for the blocks
    whose strike events are already persisted. *)
Record FoldInput := mkInput_ {
  fi_daa : Z;
  fi_requests : list (Hash * Z * Z);
  fi_request_rewards : list (Hash * Z);
  fi_responses : list (Hash * option Hash);
  fi_escrows : list (Hash * EscrowClaim);
  fi_producers : list (Hash * ScriptPublicKey);
  fi_warmup_burned : option (TransactionOutpoint -> bool);
  fi_is_established : Hash -> bool;
  fi_cohort : Z -> list (Hash * Hash);
}.

Definition warmup (b : FoldInput) : bool := bool_decide (is_Some (fi_warmup_burned b)).

(** The ledger and the outcome under construction. *)
Notation fold_state := (ServiceLedger * FoldOutcome)%type.

Definition burn (L : ServiceLedger) (miner : Hash) (penalty : ServicePenalty) : ServiceLedger * list EscrowClaim :=
  match l_vault L !! miner with
  | None => (L, [])
  | Some claims =>
      let take_n := match penalty with
                    | PenaltyNone => O
                    | BurnClaims n => Nat.min (Z.to_nat n) (length claims)
                    | SlashAllPending | Suspend => length claims
                    end in
      let burned := take take_n (reverse claims) in
      let rest := take (length claims - take_n) claims in
      (with_vault L (if bool_decide (rest = []) then delete miner (l_vault L) else <[miner := rest]> (l_vault L)), burned)
  end.

Definition maybe_award (warmup : bool) (st : fold_state) (rh identity : Hash) : fold_state :=
  let '(L, o) := st in
  match l_reward_routing_daa L with
  | None => st
  | Some routed_from =>
      match l_pending L !! rh with
      | None => st
      | Some req =>
          if (pr_accepted_daa req <? routed_from) || bool_decide (is_Some (pr_winner req)) || (pr_reward req =? 0) then st
          else
            (with_pending L (<[rh := with_winner req identity]> (l_pending L)),
             if warmup then o
             else mkOutcome (fo_misses o)
                    (fo_rewards o ++ [mkReward rh identity (pr_reward req) (l_producer_spk L !! identity)])
                    (fo_resets o) (fo_sightings o) (fo_expired o))
      end
  end.

(** [if let Some(first) = served.first()]: the first credited identity is awarded. *)
Definition award_first (warmup : bool) (st : fold_state) (rh : Hash) (served : list Hash) : fold_state :=
  match served with first :: _ => maybe_award warmup st rh first | [] => st end.

(** The streak reset of an identity that served; a warmup fold leaves the
    strikes alone. *)
Definition reset_streak (warmup : bool) (daa : Z) (st : fold_state) (identity : Hash) : fold_state :=
  let '(L, o) := st in
  if negb warmup && match strike_state L identity with Some e => 0 <? se_count e | None => false end then
    let preserved := reset_preserved_last_daa L identity daa in
    (with_strikes L (<[identity := mkStrike 0 preserved]> (l_strikes L)),
     mkOutcome (fo_misses o) (fo_rewards o) (fo_resets o ++ [(identity, preserved)]) (fo_sightings o) (fo_expired o))
  else st.

(** ** The fold of one chain block *)
Section fold.
Context {E : Type}.
Implicit Types (L : ServiceLedger) (o : FoldOutcome) (b : FoldInput).

(** The escrow claims the block's coinbase creates. *)
Definition fold_escrow b (st : ServiceLedger * list Hash) (escrow : Hash * EscrowClaim) : ServiceLedger * list Hash :=
  let '(L, sightings) := st in
  let '(miner, claim) := escrow in
  let '(L, sightings) :=
    if negb (warmup b) && negb (contains_key (l_first_seen L) miner) && negb (contains_key (l_first_seen_base L) miner)
    then (with_first_seen L (<[miner := ec_daa claim]> (l_first_seen L)), sightings ++ [miner])
    else (L, sightings) in
  if match fi_warmup_burned b with Some is_burned => is_burned (ec_outpoint claim) | None => false end then (L, sightings)
  else (with_vault L (vault_push_back (l_vault L) miner claim), sightings).

(** The claims of one deque that leave the burnable window, and those that stay. *)
Fixpoint expire_claims (burnable daa : Z) (claims : list EscrowClaim) : outcome E (list EscrowClaim * list EscrowClaim) :=
  match claims with
  | [] => Ok ([], [])
  | c :: claims' =>
      e ← add_ 64 (ec_daa c) burnable;
      if e <=? daa then '(popped, rest) ← expire_claims burnable daa claims'; Ok (c :: popped, rest)
      else Ok ([], claims)
  end.

Definition expire_vault (burnable daa : Z) (V : Vault) : outcome E (Vault * list (Hash * EscrowClaim)) :=
  '(V, expired) ← foldM (fun '(V, expired) '(miner, claims) =>
      '(popped, rest) ← expire_claims burnable daa claims;
      Ok (<[miner := rest]> V, expired ++ ((fun c => (miner, c)) <$> popped))) (V, []) (btree_iter V);
  Ok (filter (fun kv => kv.2 <> []) V, expired).

(** A request the block accepts. *)
Definition fold_request b (gated : bool) L (request : Hash * Z * Z) : ServiceLedger :=
  let '(rh, tier, max_tokens) := request in
  if gated && contains_key (l_audited L) rh then L
  else
    let L := if gated then with_audited L (<[rh := fi_daa b]> (l_audited L)) else L in
    let early := match l_early_responses L !! rh with Some (_, keys) => keys | None => [] end in
    let L := with_early_responses L (delete rh (l_early_responses L)) in
    let entry := match l_pending L !! rh with
                 | Some r => r
                 | None =>
                     mkPending tier max_tokens (fi_daa b)
                       (match List.find (fun hv => hv.1 =? rh) (fi_request_rewards b) with Some (_, v) => v | None => 0 end)
                       None None []
                 end in
    let entry := match pr_audit entry with
                 | None => with_early_responders entry (foldl push_new (pr_early_responders entry) early)
                 | Some _ => entry
                 end in
    with_pending L (<[rh := entry]> (l_pending L)).

(** [cohort.binary_search(&identity).is_ok() && !responded.contains(&identity)]:
    the identity is credited in both lists. *)
Definition credit (cohort : list Hash) (st : list Hash * list Hash) (identity : Hash)
    : outcome E (list Hash * list Hash) :=
  let '(responded, served) := st in
  found ← binary_search_by_key Ok identity cohort;
  Ok (if match found with inl _ => true | inr _ => false end && negb (bool_decide (identity ∈ responded))
      then (responded ++ [identity], served ++ [identity]) else st).

(** The identities that delegated to an escrow key. *)
Definition delegators (delegations : list (Hash * Hash)) (key : Hash) : list Hash :=
  (filter (fun ei => ei.1 = key) delegations).*2.

(** A response the block accepts. *)
Definition fold_response b (st : fold_state) (response : Hash * option Hash) : outcome E fold_state :=
  let '(L, o) := st in
  match response with
  | (_, None) => Ok st
  | (rh, Some r) =>
      match l_pending L !! rh with
      | None =>
          let '(seen, keys) := default (fi_daa b, []) (l_early_responses L !! rh) in
          Ok (with_early_responses L (<[rh := (seen, push_new keys r)]> (l_early_responses L)), o)
      | Some req =>
          match pr_audit req with
          | None =>
              Ok (with_pending L (<[rh := with_early_responders req (push_new (pr_early_responders req) r)]> (l_pending L)), o)
          | Some audit =>
              '(responded, served) ← foldM (credit (au_cohort audit)) (au_responded audit, []) (delegators (au_delegations audit) r);
              let audit := mkAudit (au_cohort audit) (au_delegations audit) responded (au_window_end_daa audit) in
              let L := with_pending L (<[rh := with_audit req audit]> (l_pending L)) in
              Ok (foldl (reset_streak (warmup b) (fi_daa b)) (award_first (warmup b) (L, o) rh served) served)
          end
      end
  end.

(** [min_by_key(|(hash, (seen, _))| (seen, hash))]: the first minimum. *)
Definition oldest (m : gmap Hash (Z * list Hash)) : option Hash :=
  match btree_iter m with
  | [] => None
  | (h, (s, _)) :: l =>
      Some (foldl (fun best '(h, (s, _)) =>
              if (s <? best.1) || ((s =? best.1) && (h <? best.2)) then (s, h) else best) (s, h) l).2
  end.

(** [while early_responses.len() > MAX]. *)
Fixpoint evict (fuel : nat) (m : gmap Hash (Z * list Hash)) : outcome E (gmap Hash (Z * list Hash)) :=
  if (size m <=? MAX_EARLY_RESPONSE_HASHES)%nat then Ok m
  else match fuel with
       | O => OutOfFuel
       | S fuel => victim ← unwrap (oldest m); evict fuel (delete victim m)
       end.

(** A silent member of a cohort whose window closed. *)
Definition strike b (rh : Hash) (st : fold_state) (miner : Hash) : outcome E fold_state :=
  let '(L, o) := st in
  if warmup b then Ok st
  else
    limited ← (match strike_state L miner with
               | Some e => if 0 <? se_last_daa e
                           then until ← add_ 64 (se_last_daa e) SERVICE_STRIKE_INTERVAL_DAA; Ok (fi_daa b <? until)
                           else Ok false
               | None => Ok false
               end);
    if (limited : bool) then Ok st
    else
      count ← add_ 32 (consecutive_misses L miner) 1;
      let L := with_strikes L (<[miner := mkStrike count (fi_daa b)]> (l_strikes L)) in
      let penalty := strike_penalty_at count (fi_is_established b miner) (v2_at L (fi_daa b)) in
      let '(L, burned) := burn L miner penalty in
      let L := if bool_decide (penalty = Suspend)
               then with_strikes L (<[miner := mkStrike 0 (fi_daa b)]> (l_strikes L)) else L in
      Ok (L, mkOutcome (fo_misses o ++ [mkMiss rh miner count penalty burned]) (fo_rewards o) (fo_resets o)
               (fo_sightings o) (fo_expired o)).

(** A pending request: its audit closes, or arms. *)
Definition fold_pending b (st : fold_state * list Hash) (rh : Hash) : outcome E (fold_state * list Hash) :=
  let '((L, o), served_at_arm) := st in
  req ← unwrap (l_pending L !! rh);
  match pr_audit req with
  | Some a =>
      if au_window_end_daa a <? fi_daa b then
        '(L, o) ← foldM (strike b rh) (L, o) (filter (fun m => m ∉ au_responded a) (au_cohort a));
        Ok ((with_pending L (delete rh (l_pending L)), o), served_at_arm)
      else Ok st
  | None =>
      if pr_accepted_daa req <? fi_daa b then
        match fi_cohort b (pr_tier req) with
        | [] => Ok ((with_pending L (delete rh (l_pending L)), o), served_at_arm)
        | set =>
            let ids := dedup (sort_by Z.leb set.*1) in
            let delegations := dedup (sort_by pair_leb ((fun '(id, esc) => (esc, id)) <$> set)) in
            let window := service_window_daa_at (pr_tier req) (pr_max_tokens req) (v2_at L (fi_daa b)) in
            '(responded, served_at_arm) ←
              foldM (fun st key => foldM (credit ids) st (delegators delegations key)) ([], served_at_arm)
                (pr_early_responders req);
            window_end ← add_ 64 (fi_daa b) window;
            let req := with_audit (with_early_responders req []) (mkAudit ids delegations responded window_end) in
            let L := with_pending L (<[rh := req]> (l_pending L)) in
            Ok (award_first (warmup b) (L, o) rh responded, served_at_arm)
        end
      else Ok st
  end.

(** The parts of [fold_inner], in its order: the producers, the escrows and
    their expiry, *)
Definition fold_escrows L b : outcome E fold_state :=
  let L := with_producer_spk L (foldl (fun m '(identity, spk) => <[identity := spk]> m) (l_producer_spk L) (fi_producers b)) in
  let '(L, sightings) := foldl (fold_escrow b) (L, []) (fi_escrows b) in
  let burnable := default SERVICE_BURNABLE_WINDOW_DAA (l_burnable_window_daa L) in
  '(V, expired) ← expire_vault burnable (fi_daa b) (l_vault L);
  Ok (with_vault L V, mkOutcome [] [] [] sightings expired).

(** the horizons and the requests, *)
Definition fold_requests L b : outcome E ServiceLedger :=
  pending ← btree_retain (fun _ r => e ← add_ 64 (pr_accepted_daa r) SERVICE_LEDGER_HORIZON_DAA; Ok (fi_daa b <? e)) (l_pending L);
  early ← btree_retain (fun _ sk => e ← add_ 64 sk.1 SERVICE_EARLY_RESPONSE_HORIZON_DAA; Ok (fi_daa b <? e)) (l_early_responses L);
  let L := with_early_responses (with_pending L pending) early in
  let gated := match l_reward_routing_daa L with Some a => a <=? fi_daa b | None => false end in
  L ← (if (gated : bool) then
         audited ← btree_retain (fun _ seen => e ← add_ 64 seen SERVICE_AUDITED_MEMORY_DAA; Ok (fi_daa b <? e)) (l_audited L);
         Ok (with_audited L audited)
       else Ok L);
  Ok (foldl (fold_request b gated) L (fi_requests b)).

(** the responses and the bound on early ones, *)
Definition fold_responses (st : fold_state) b : outcome E fold_state :=
  '(L, o) ← foldM (fold_response b) st (fi_responses b);
  early ← evict (size (l_early_responses L)) (l_early_responses L);
  Ok (with_early_responses L early, o).

(** and the audits. *)
Definition fold_audits (st : fold_state) b : outcome E fold_state :=
  '(st, served_at_arm) ← foldM (fold_pending b) (st, []) (btree_keys (l_pending st.1));
  Ok (foldl (reset_streak (warmup b) (fi_daa b)) st served_at_arm).

Definition fold_inner L b : outcome E fold_state :=
  '(L, o) ← fold_escrows L b;
  L ← fold_requests L b;
  st ← fold_responses (L, o) b;
  fold_audits st b.

(** ** Reorganisations *)
Definition undo_burn (V : Vault) (miss : ServiceMiss) : Vault :=
  foldl (fun V c => vault_push_back V (sm_miner miss) c) V (reverse (sm_burned miss)).

Definition undo_add (V : Vault) (add : Hash * EscrowClaim) : outcome E Vault :=
  claims ← unwrap (V !! add.1);
  _ ← unwrap (last claims);
  let rest := take (length claims - 1) claims in
  Ok (if bool_decide (rest = []) then delete add.1 V else <[add.1 := rest]> V).

Definition undo_vault L (added : list (Hash * EscrowClaim)) (misses : list ServiceMiss) (expired : list (Hash * EscrowClaim))
    : outcome E ServiceLedger :=
  let V := foldl undo_burn (l_vault L) (reverse misses) in
  let V := foldl (fun V '(miner, claim) => vault_push_front V miner claim) V (reverse expired) in
  V ← foldM undo_add V (reverse added);
  Ok (with_vault L V).
End fold.

(** [on_chain_block] and [on_chain_block_warmup] with their [_with_rewards]
    forms are the two shapes of the input. *)
Definition on_chain_block_with_rewards {E} (L : ServiceLedger) (daa : Z) requests request_rewards responses escrows producers
    is_established cohort : outcome E (ServiceLedger * FoldOutcome) :=
  fold_inner L (mkInput_ daa requests request_rewards responses escrows producers None is_established cohort).

Definition on_chain_block {E} (L : ServiceLedger) (daa : Z) requests responses escrows is_established cohort
    : outcome E (ServiceLedger * FoldOutcome) :=
  on_chain_block_with_rewards L daa requests [] responses escrows [] is_established cohort.

Definition on_chain_block_warmup_with_rewards {E} (L : ServiceLedger) (daa : Z) requests request_rewards responses escrows
    producers is_burned cohort : outcome E ServiceLedger :=
  '(L, _) ← fold_inner L (mkInput_ daa requests request_rewards responses escrows producers (Some is_burned) (fun _ => true) cohort);
  Ok L.

Record LightSnapshot := mkLight {
  ls_pending : gmap Hash PendingRequest;
  ls_early_responses : gmap Hash (Z * list Hash);
  ls_strikes : gmap Hash StrikeEntry;
  ls_first_seen : gmap Hash Z;
  ls_base : gmap Hash StrikeEntry;
  ls_first_seen_base : gmap Hash Z;
  ls_producer_spk : gmap Hash ScriptPublicKey;
  ls_audited : gmap Hash Z;
}.

Definition light_snapshot (L : ServiceLedger) : LightSnapshot :=
  mkLight (l_pending L) (l_early_responses L) (l_strikes L) (l_first_seen L) (l_base L) (l_first_seen_base L)
    (l_producer_spk L) (l_audited L).

Definition restore_light (L : ServiceLedger) (snap : LightSnapshot) : ServiceLedger :=
  mkLedger (ls_pending snap) (ls_early_responses snap) (ls_strikes snap) (l_vault L) (ls_base snap) (ls_first_seen snap)
    (ls_first_seen_base snap) (l_window_v2_activation_daa L) (l_burnable_window_daa L) (l_reward_routing_daa L)
    (ls_audited snap) (ls_producer_spk snap).

(** ** Snapshots *)
Record ServiceLedgerSnapshot := mkSnapshot {
  ss_vault : gmap Hash (list EscrowClaim);
  ss_pending : gmap Hash PendingRequest;
  ss_early_responses : gmap Hash (Z * list Hash);
  ss_strikes : gmap Hash StrikeEntry;
  ss_first_seen : gmap Hash Z;
  ss_audited : gmap Hash Z;
  ss_producer_spk : gmap Hash ScriptPublicKey;
  ss_recent_producers : list (Z * Hash * Z * Hash);
}.

Definition snapshot (L : ServiceLedger) : ServiceLedgerSnapshot :=
  let strikes := foldl (fun m '(k, e) => <[k := e]> m) (l_base L) (btree_iter (l_strikes L)) in
  let first_seen := foldl (fun m '(k, d) => <[k := d]> m) (l_first_seen_base L) (btree_iter (l_first_seen L)) in
  mkSnapshot (l_vault L) (l_pending L) (l_early_responses L) strikes first_seen (l_audited L) (l_producer_spk L) [].

Definition restore_snapshot (L : ServiceLedger) (snap : ServiceLedgerSnapshot) : ServiceLedger :=
  mkLedger (ss_pending snap) (ss_early_responses snap) (ss_strikes snap) (ss_vault snap) ∅ (ss_first_seen snap) ∅
    (l_window_v2_activation_daa L) (l_burnable_window_daa L) (l_reward_routing_daa L) (ss_audited snap) (ss_producer_spk snap).

#[global] Arguments burn : simpl never.
#[global] Arguments maybe_award : simpl never.
#[global] Arguments award_first : simpl never.
#[global] Arguments reset_streak : simpl never.
#[global] Arguments credit : simpl never.
#[global] Arguments strike : simpl never.

(** ** A small chain

    Two miners, each delegated to an escrow key; a routed request accepted in
    the first block, armed in the second, answered by the first miner in the
    third and closed in the fourth, with one claim of each miner in the vault. *)
Definition ex_cohort (_ : Z) : list (Hash * Hash) := [(1, 11); (2, 12)].
Definition ex_claim (n daa : Z) : EscrowClaim := mkClaim (mkOutpoint n 0) 100 daa.
Definition ex_block (daa : Z) requests responses escrows : FoldInput :=
  mkInput_ daa requests [(7, 9000)] responses escrows [] None (fun _ => true) ex_cohort.
Definition ex_b1 : FoldInput := ex_block 100 [(7, 0, 256)] [] [(1, ex_claim 50 100)].
Definition ex_b2 : FoldInput := ex_block 101 [] [] [].
Definition ex_b3 : FoldInput := ex_block 200 [] [(7, Some 11)] [(2, ex_claim 51 200)].
Definition ex_b4 : FoldInput := ex_block 4000 [] [] [(1, ex_claim 52 4000)].
Definition ex_l0 : ServiceLedger := mkLedger ∅ ∅ ∅ ∅ ∅ ∅ ∅ (Some 0) (Some 3850) (Some 0) ∅ ∅.
Definition ex_fold (L : ServiceLedger) (b : FoldInput) : ServiceLedger * FoldOutcome :=
  match fold_inner (E := ()) L b with Ok r => r | _ => (L, mkOutcome [] [] [] [] []) end.
Definition ex_l2 : ServiceLedger := foldl (fun L b => (ex_fold L b).1) ex_l0 [ex_b1; ex_b2].
Definition ex_l3 : ServiceLedger := (ex_fold ex_l2 ex_b3).1.
