(* ===== verification/LedgerSteps.v ===== *)
(** * The steps of the ledger fold

    What each step of [fold_inner] can do to the ledger and to the outcome, as
    case lemmas, and the functional behaviour of its helpers: [dedup] after a
    sort, the credit loop, the expiry of a deque and the eviction loop. *)
From S2P Require Import Prelude Tx Slice BTree Ledger.
From stdpp Require Import base gmap list.
#[local] Open Scope Z_scope.

(** ** Loops *)

(** A relation that every step respects relates the ends of the loop. *)
Lemma foldl_rel {S A} (R : S -> S -> Prop) `{!PreOrder R} (f : S -> A -> S) s l :
  (forall s a, a ∈ l -> R s (f s a)) -> R s (foldl f s l).
Proof.
  revert s. induction l as [|a l IH]; intros s Hf; cbn; [done|].
  transitivity (f s a); [apply Hf; by left|]. apply IH. intros s' a' Ha'. apply Hf. by right.
Qed.

Lemma foldM_rel {E S A} (R : S -> S -> Prop) `{!PreOrder R} (f : S -> A -> outcome E S) s l s' :
  (forall s a s', a ∈ l -> f s a = Ok s' -> R s s') -> foldM f s l = Ok s' -> R s s'.
Proof.
  revert s. induction l as [|a l IH]; intros s Hf Hl; cbn in Hl; inv_ok Hl; [done|].
  transitivity a0; [by apply (Hf s a); [left|]|]. apply IH; [|done]. intros s1 a1 s2 Ha1. apply Hf. by right.
Qed.

Lemma foldl_pres {S A} (P : S -> Prop) (f : S -> A -> S) s l :
  (forall s a, a ∈ l -> P s -> P (f s a)) -> P s -> P (foldl f s l).
Proof.
  revert s. induction l as [|a l IH]; intros s Hf Hs; cbn; [done|].
  apply IH; [|apply Hf; [by left|done]]. intros s' a' Ha'. apply Hf. by right.
Qed.

Lemma foldM_pres {E S A} (P : S -> Prop) (f : S -> A -> outcome E S) s l :
  (forall s a, a ∈ l -> P s -> exists s', f s a = Ok s' /\ P s') -> P s -> exists s', foldM f s l = Ok s' /\ P s'.
Proof.
  intros Hf Hs. apply (foldM_total f (fun _ => P)); [done|]. intros pre a post st -> Hst. apply Hf; [set_solver|done].
Qed.

(** ** Sorted identities *)
Lemma dedup_cons {A} `{EqDecision A} (x y : A) l :
  dedup (x :: y :: l) = if decide (x = y) then dedup (y :: l) else x :: dedup (y :: l).
Proof. done. Qed.

Lemma dedup_elem {A} `{EqDecision A} (l : list A) x : x ∈ dedup l <-> x ∈ l.
Proof.
  induction l as [|a [|a' l] IH]; [done..|]. rewrite dedup_cons.
  destruct (decide (a = a')) as [->|]; rewrite ?elem_of_cons, IH, ?elem_of_cons; naive_solver.
Qed.

Lemma dedup_nil {A} `{EqDecision A} (l : list A) : dedup l = [] -> l = [].
Proof.
  induction l as [|a [|a' l] IH]; [done..|]. rewrite dedup_cons. destruct (decide (a = a')); [|done]. intros H. by apply IH in H.
Qed.

(** [sort_unstable] and [dedup] leave a strictly increasing slice. *)
Lemma dedup_sort_sorted (l : list Z) : StronglySorted Z.lt (dedup (sort_by Z.leb l)).
Proof.
  assert (StronglySorted (fun a b => Z.leb a b = true) (sort_by Z.leb l)) as Hs by (apply sort_by_sorted; lia).
  induction Hs as [|a l' Hs IH Ha]; [constructor|]. destruct l' as [|a' l']; [repeat constructor|].
  rewrite dedup_cons. destruct (decide (a = a')) as [->|Hne]; [done|].
  constructor; [done|]. apply Forall_forall. intros x Hx. rewrite dedup_elem in Hx.
  inversion_clear Hs as [|? ? _ Ha']. rewrite Forall_cons in Ha. destruct Ha as [Haa' _].
  apply elem_of_cons in Hx as [->|Hx]; [lia|]. rewrite Forall_forall in Ha'. specialize (Ha' x Hx). lia.
Qed.

Lemma sorted_lookup (l : list Z) i j a b :
  StronglySorted Z.lt l -> l !! i = Some a -> l !! j = Some b -> (i < j)%nat -> a < b.
Proof.
  intros Hs. revert i j. induction Hs as [|x l Hs IH Hx]; intros i j Hi Hj Hij; [done|].
  destruct i as [|i], j as [|j]; cbn in *; try lia.
  - injection Hi as <-. rewrite Forall_forall in Hx. apply Hx. by eapply list_elem_of_lookup_2.
  - eapply IH; eauto. lia.
Qed.

(** A binary search in a sorted cohort decides membership. *)
Lemma cohort_search {E} (cohort : list Z) (id : Z) :
  StronglySorted Z.lt cohort ->
  exists r, binary_search_by_key (E := E) Ok id cohort = Ok r /\
    match r with inl _ => true | inr _ => false end = bool_decide (id ∈ cohort).
Proof.
  intros Hs. destruct (binary_search_ok (E := E) Ok (fun x => x) id cohort) as (r & Hr & Hspec); [done| |].
  { intros i j a b. by apply sorted_lookup. }
  exists r. split; [done|]. destruct r as [i|i].
  - destruct Hspec as (a & Ha & ->). symmetry. apply bool_decide_eq_true_2. by eapply list_elem_of_lookup_2.
  - symmetry. apply bool_decide_eq_false_2. intros (j & Hj)%list_elem_of_lookup. destruct Hspec as [_ Hspec].
    destruct (Hspec j id Hj). destruct (decide (j < i)%nat); lia.
Qed.

(** ** Credited identities *)

(** The identities of [ids] a credit loop adds to [responded]. *)
Fixpoint newly (cohort responded ids : list Hash) : list Hash :=
  match ids with
  | [] => []
  | id :: ids => if bool_decide (id ∈ cohort /\ id ∉ responded) then id :: newly cohort (responded ++ [id]) ids
                 else newly cohort responded ids
  end.

Lemma elem_of_newly cohort responded ids id :
  id ∈ newly cohort responded ids <-> id ∈ ids /\ id ∈ cohort /\ id ∉ responded.
Proof.
  revert responded. induction ids as [|i ids IH]; intros responded; cbn; [set_solver|].
  case_bool_decide; rewrite ?elem_of_cons, IH, ?elem_of_app, ?list_elem_of_singleton; [|naive_solver].
  destruct (decide (id = i)); naive_solver.
Qed.

Lemma NoDup_newly cohort responded ids : NoDup (newly cohort responded ids).
Proof.
  revert responded. induction ids as [|i ids IH]; intros responded; cbn; [constructor|].
  case_bool_decide; [|done]. constructor; [|done]. rewrite elem_of_newly. set_solver.
Qed.

Lemma credit_one {E} cohort responded served id :
  StronglySorted Z.lt cohort ->
  credit (E := E) cohort (responded, served) id =
  Ok (if bool_decide (id ∈ cohort /\ id ∉ responded) then (responded ++ [id], served ++ [id]) else (responded, served)).
Proof.
  intros Hs. unfold credit. destruct (cohort_search (E := E) cohort id Hs) as (r & -> & Hr). run.
  rewrite Hr, <-bool_decide_not, <-bool_decide_and. done.
Qed.

Lemma credit_ok {E} cohort responded served ids :
  StronglySorted Z.lt cohort ->
  foldM (credit (E := E) cohort) (responded, served) ids =
  Ok (responded ++ newly cohort responded ids, served ++ newly cohort responded ids).
Proof.
  intros Hs. revert responded served. induction ids as [|i ids IH]; intros responded served; cbn [foldM newly].
  { by rewrite !app_nil_r. }
  rewrite credit_one by done. run. case_bool_decide; rewrite IH; [|done].
  by rewrite <-!app_assoc.
Qed.

(** The nested loop of an arming audit credits the delegators of every key. *)
Lemma credit_keys_ok {E} cohort delegations responded served keys :
  StronglySorted Z.lt cohort ->
  foldM (fun st key => foldM (credit (E := E) cohort) st (delegators delegations key)) (responded, served) keys =
  Ok (responded ++ newly cohort responded (keys ≫= delegators delegations),
      served ++ newly cohort responded (keys ≫= delegators delegations)).
Proof.
  intros Hs. rewrite <-credit_ok by done. revert responded served. induction keys as [|k keys IH]; intros responded served; [done|].
  cbn [foldM]. rewrite bind_cons, foldM_app.
  destruct (foldM (credit cohort) (responded, served) (delegators delegations k)) as [[r s]| | |]; run; auto.
Qed.

Lemma elem_of_delegators delegations key id : id ∈ delegators delegations key <-> (key, id) ∈ delegations.
Proof.
  unfold delegators. rewrite list_elem_of_fmap. split.
  - intros ([k i] & -> & Hf). apply list_elem_of_filter in Hf as [<- Hf]. done.
  - intros H. exists (key, id). by rewrite list_elem_of_filter.
Qed.

(** ** Case lemmas *)
Definition add_miss (o : FoldOutcome) (m : ServiceMiss) : FoldOutcome :=
  mkOutcome (fo_misses o ++ [m]) (fo_rewards o) (fo_resets o) (fo_sightings o) (fo_expired o).
Definition add_reward (o : FoldOutcome) (r : ServiceReward) : FoldOutcome :=
  mkOutcome (fo_misses o) (fo_rewards o ++ [r]) (fo_resets o) (fo_sightings o) (fo_expired o).
Definition add_reset (o : FoldOutcome) (r : Hash * Z) : FoldOutcome :=
  mkOutcome (fo_misses o) (fo_rewards o) (fo_resets o ++ [r]) (fo_sightings o) (fo_expired o).

(** The reward is routed, unawarded and carries an amount. *)
Definition awardable (L : ServiceLedger) (rh : Hash) (req : PendingRequest) : Prop :=
  l_pending L !! rh = Some req /\ pr_winner req = None /\ pr_reward req <> 0 /\
  exists routed_from, l_reward_routing_daa L = Some routed_from /\ routed_from <= pr_accepted_daa req.

Lemma maybe_award_cases w L o rh id :
  (maybe_award w (L, o) rh id = (L, o) /\ (forall req, ~ awardable L rh req)) \/
  exists req, awardable L rh req /\
    maybe_award w (L, o) rh id =
    (with_pending L (<[rh := with_winner req id]> (l_pending L)),
     if w then o else add_reward o (mkReward rh id (pr_reward req) (l_producer_spk L !! id))).
Proof.
  unfold maybe_award, awardable. destruct (l_reward_routing_daa L) as [from|]; [|left; naive_solver].
  destruct (l_pending L !! rh) as [req|]; [|left; naive_solver].
  destruct (Z.ltb_spec (pr_accepted_daa req) from) as [Ha|Ha]; cbn [orb].
  { left. split; [done|]. intros req' ([= <-] & _ & _ & from' & [= <-] & ?). lia. }
  case_bool_decide as Hw; cbn [orb].
  { left. split; [done|]. intros req' ([= <-] & Hn & _). rewrite Hn in Hw. by destruct Hw. }
  destruct (Z.eqb_spec (pr_reward req) 0) as [Hr|Hr].
  { left. split; [done|]. intros req' ([= <-] & _ & Hn & _). done. }
  right. exists req. split; [|done]. split; [done|]. split; [|eauto].
  destruct (pr_winner req); [|done]. destruct Hw. eauto.
Qed.

Lemma reset_streak_cases w daa L o id :
  (reset_streak w daa (L, o) id = (L, o) /\ (w = true \/ consecutive_misses L id <= 0)) \/
  w = false /\ exists e, strike_state L id = Some e /\ 0 < se_count e /\
    let p := if v2_at L daa then se_last_daa e else 0 in
    reset_streak w daa (L, o) id = (with_strikes L (<[id := mkStrike 0 p]> (l_strikes L)), add_reset o (id, p)).
Proof.
  unfold reset_streak, reset_preserved_last_daa, consecutive_misses. destruct w; cbn [negb andb]; [left; auto|].
  destruct (strike_state L id) as [e|]; [|left; split; [done|right; lia]].
  destruct (Z.ltb_spec 0 (se_count e)); [|left; auto]. right. split; [done|]. exists e. auto.
Qed.

(** The rate limit of strikes. *)
Definition limited (L : ServiceLedger) (daa : Z) (miner : Hash) : Prop :=
  exists e, strike_state L miner = Some e /\ 0 < se_last_daa e /\ daa < se_last_daa e + SERVICE_STRIKE_INTERVAL_DAA.

(** The deque of a miner; an absent one is empty. *)
Definition deque (V : Vault) (m : Hash) : list EscrowClaim := default [] (V !! m).
Definition no_empty_deque (V : Vault) : Prop := forall m, V !! m <> Some [].

(** What a burn takes off the back of a deque, and what stays. *)
Lemma take_reverse_split {A} n (l : list A) : take (length l - n) l ++ reverse (take n (reverse l)) = l.
Proof. by rewrite take_reverse, reverse_involutive, take_drop. Qed.

Lemma deque_insert V m l m' : deque (<[m := l]> V) m' = if decide (m' = m) then l else deque V m'.
Proof.
  unfold deque. destruct (decide (m' = m)) as [->|]; [by rewrite lookup_insert_eq|by rewrite lookup_insert_ne].
Qed.

Lemma deque_delete V m m' : deque (delete m V) m' = if decide (m' = m) then [] else deque V m'.
Proof.
  unfold deque. destruct (decide (m' = m)) as [->|]; [by rewrite lookup_delete_eq|by rewrite lookup_delete_ne].
Qed.

(** Removing a deque that became empty. *)
Definition set_deque (V : Vault) (m : Hash) (l : list EscrowClaim) : Vault :=
  if bool_decide (l = []) then delete m V else <[m := l]> V.

Lemma deque_set V m l m' : deque (set_deque V m l) m' = if decide (m' = m) then l else deque V m'.
Proof.
  unfold set_deque. case_bool_decide as H; [subst; apply deque_delete|apply deque_insert].
Qed.

Lemma no_empty_set V m l : no_empty_deque V -> no_empty_deque (set_deque V m l).
Proof.
  intros HV m'. unfold set_deque. case_bool_decide; destruct (decide (m' = m)) as [->|];
    rewrite ?lookup_delete_eq, ?lookup_insert_eq, ?lookup_delete_ne, ?lookup_insert_ne by done; try congruence; apply HV.
Qed.

(** A vault without empty deques is the function of its deques. *)
Lemma vault_ext V V' : no_empty_deque V -> no_empty_deque V' -> (forall m, deque V m = deque V' m) -> V = V'.
Proof.
  intros HV HV' Hd. apply map_eq. intros m. specialize (HV m). specialize (HV' m). specialize (Hd m). unfold deque in Hd.
  destruct (V !! m), (V' !! m); cbn in Hd; congruence.
Qed.

(** [V'] is [V] with the claims [burned], newest first, off the back of one deque. *)
Definition burned_from (V : Vault) (miner : Hash) (burned : list EscrowClaim) (V' : Vault) : Prop :=
  deque V miner = deque V' miner ++ reverse burned /\
  (forall m, m <> miner -> deque V' m = deque V m) /\
  (no_empty_deque V -> no_empty_deque V').

Lemma burn_cases L miner p :
  exists V burned, burn L miner p = (with_vault L V, burned) /\ burned_from (l_vault L) miner burned V.
Proof.
  unfold burn. destruct (l_vault L !! miner) as [claims|] eqn:Hc.
  - set (n := match p with PenaltyNone => O | BurnClaims n => _ | _ => _ end).
    change (if bool_decide _ then delete _ _ else _) with (set_deque (l_vault L) miner (take (length claims - n) claims)).
    do 2 eexists. split; [done|]. split; [|split].
    + rewrite deque_set, decide_True by done. unfold deque. rewrite Hc. cbn. by rewrite take_reverse_split.
    + intros m Hm. by rewrite deque_set, decide_False.
    + apply no_empty_set.
  - exists (l_vault L), []. split; [by destruct L|]. split; [by rewrite app_nil_r|done].
Qed.

(** A strike does nothing in a warmup fold or under the rate limit; otherwise it
    counts, burns and reports the miss. *)
Lemma strike_cases {E} b rh L o miner L' o' :
  strike (E := E) b rh (L, o) miner = Ok (L', o') ->
  (L' = L /\ o' = o /\ (warmup b = true \/ limited L (fi_daa b) miner)) \/
  (warmup b = false /\ ~ limited L (fi_daa b) miner /\ exists V burned,
     let count := consecutive_misses L miner + 1 in
     let penalty := strike_penalty_at count (fi_is_established b miner) (v2_at L (fi_daa b)) in
     in_u 32 count /\
     burn L miner penalty = (with_vault L V, burned) /\ burned_from (l_vault L) miner burned V /\
     L' = with_strikes (with_vault L V)
            (<[miner := mkStrike (if bool_decide (penalty = Suspend) then 0 else count) (fi_daa b)]> (l_strikes L)) /\
     o' = add_miss o (mkMiss rh miner count penalty burned)).
Proof.
  unfold strike. destruct (warmup b); [intros [= <- <-]; auto|]. intros H.
  apply bind_Ok in H as (lim & Hlim & H).
  assert (lim = true <-> limited L (fi_daa b) miner) as Hl.
  { clear H. unfold limited. destruct (strike_state L miner) as [e|]; [|naive_solver].
    destruct (Z.ltb_spec 0 (se_last_daa e)); [|injection Hlim as <-; naive_solver lia].
    inv_ok Hlim. apply checked_Ok in Hok as [-> _]. rewrite Z.ltb_lt. naive_solver. }
  destruct lim; [injection H as <- <-; naive_solver|]. right. split; [done|]. split; [naive_solver|].
  inv_ok H. apply checked_Ok in Hok as [-> Hu].
  set (count := consecutive_misses L miner + 1) in *. set (penalty := strike_penalty_at _ _ _) in *.
  change (strike_penalty_at count (fi_is_established b miner) (v2_at L (fi_daa b))) with penalty.
  destruct (burn_cases L miner penalty) as (V & burned & Hb & Hbf). exists V, burned.
  split; [done|]. split; [done|]. split; [done|].
  assert (burn (with_strikes L (<[miner:=mkStrike count (fi_daa b)]> (l_strikes L))) miner penalty =
          (with_strikes (with_vault L V) (<[miner:=mkStrike count (fi_daa b)]> (l_strikes L)), burned)) as Hb'.
  { revert Hb. unfold burn. cbn. destruct (l_vault L !! miner); intros [= <- <-]; done. }
  rewrite Hb' in H. injection H as <- <-. split; [|done].
  case_bool_decide; [|done]. unfold with_strikes. cbn. by rewrite insert_insert_eq.
Qed.

(** The outcomes of a response: parked, parked on its request, or credited. *)
Lemma fold_response_cases {E} b L o rh r st' :
  fold_response (E := E) b (L, o) (rh, Some r) = Ok st' ->
  match l_pending L !! rh with
  | None =>
      let sk := default (fi_daa b, []) (l_early_responses L !! rh) in
      st' = (with_early_responses L (<[rh := (sk.1, push_new sk.2 r)]> (l_early_responses L)), o)
  | Some req =>
      match pr_audit req with
      | None => st' = (with_pending L (<[rh := with_early_responders req (push_new (pr_early_responders req) r)]> (l_pending L)), o)
      | Some a => exists responded served,
          foldM (credit (E := E) (au_cohort a)) (au_responded a, []) (delegators (au_delegations a) r) = Ok (responded, served) /\
          st' = foldl (reset_streak (warmup b) (fi_daa b))
            (award_first (warmup b)
               (with_pending L (<[rh := with_audit req (mkAudit (au_cohort a) (au_delegations a) responded (au_window_end_daa a))]>
                  (l_pending L)), o) rh served) served
      end
  end.
Proof.
  unfold fold_response. destruct (l_pending L !! rh) as [req|].
  2:{ destruct (default _ _). by intros [= <-]. }
  destruct (pr_audit req) as [a|]; [|by intros [= <-]].
  intros H. apply bind_Ok in H as ([responded served] & HF & H). injection H as <-. eauto.
Qed.

(** The outcomes of a pending request: kept, closed, dropped or armed. *)
Lemma fold_pending_cases {E} b L o served rh st' :
  fold_pending (E := E) b ((L, o), served) rh = Ok st' ->
  exists req, l_pending L !! rh = Some req /\
  match pr_audit req with
  | Some a =>
      (fi_daa b <= au_window_end_daa a /\ st' = ((L, o), served)) \/
      (au_window_end_daa a < fi_daa b /\ exists L1 o1,
         foldM (strike (E := E) b rh) (L, o) (filter (fun m => m ∉ au_responded a) (au_cohort a)) = Ok (L1, o1) /\
         st' = ((with_pending L1 (delete rh (l_pending L1)), o1), served))
  | None =>
      (fi_daa b <= pr_accepted_daa req /\ st' = ((L, o), served)) \/
      (pr_accepted_daa req < fi_daa b /\ fi_cohort b (pr_tier req) = [] /\
         st' = ((with_pending L (delete rh (l_pending L)), o), served)) \/
      (pr_accepted_daa req < fi_daa b /\ exists responded served',
         let set := fi_cohort b (pr_tier req) in
         let ids := dedup (sort_by Z.leb set.*1) in
         let delegations := dedup (sort_by pair_leb ((fun '(id, esc) => (esc, id)) <$> set)) in
         let window_end := fi_daa b + service_window_daa_at (pr_tier req) (pr_max_tokens req) (v2_at L (fi_daa b)) in
         set <> [] /\
         foldM (fun st key => foldM (credit (E := E) ids) st (delegators delegations key)) ([], served) (pr_early_responders req)
           = Ok (responded, served') /\
         in_u 64 window_end /\
         st' = (award_first (warmup b)
                  (with_pending L (<[rh := with_audit (with_early_responders req []) (mkAudit ids delegations responded window_end)]>
                     (l_pending L)), o) rh responded, served'))
  end.
Proof.
  unfold fold_pending. intros H. apply bind_Ok in H as (req & Hreq & H). apply unwrap_Ok in Hreq. exists req. split; [done|].
  destruct (pr_audit req) as [a|].
  - destruct (Z.ltb_spec (au_window_end_daa a) (fi_daa b)); [|injection H as <-; auto].
    apply bind_Ok in H as ([L1 o1] & HF & H). injection H as <-. right. split; [done|]. eauto.
  - destruct (Z.ltb_spec (pr_accepted_daa req) (fi_daa b)); [|injection H as <-; auto]. right.
    destruct (fi_cohort b (pr_tier req)) as [|p set]; [injection H as <-; auto|]. right. split; [done|].
    apply bind_Ok in H as ([responded served1] & HF & H). apply bind_Ok in H as (w & Hw & H).
    apply checked_Ok in Hw as [-> Hw]. injection H as <-. exists responded, served1. done.
Qed.

(** ** What the steps leave alone *)
Lemma maybe_award_other w L o rh id rh' : rh' <> rh -> l_pending (maybe_award w (L, o) rh id).1 !! rh' = l_pending L !! rh'.
Proof.
  intros Hne. destruct (maybe_award_cases w L o rh id) as [[-> _]|(req & _ & ->)]; [done|]. cbn. by rewrite lookup_insert_ne.
Qed.

Lemma award_first_other w L o rh ids rh' : rh' <> rh -> l_pending (award_first w (L, o) rh ids).1 !! rh' = l_pending L !! rh'.
Proof. intros Hne. destruct ids; [done|]. by apply maybe_award_other. Qed.

Lemma strike_pending {E} b rh st miner st' : strike (E := E) b rh st miner = Ok st' -> l_pending st'.1 = l_pending st.1.
Proof.
  destruct st as [L o], st' as [L' o']. intros H.
  apply strike_cases in H as [(-> & -> & _)|(_ & _ & V & burned & _ & _ & _ & -> & ->)]; done.
Qed.

Lemma strikes_pending {E} b rh st miners st' :
  foldM (strike (E := E) b rh) st miners = Ok st' -> l_pending st'.1 = l_pending st.1.
Proof.
  intros H. refine (foldM_invariant _ (fun _ s => l_pending s.1 = l_pending st.1) _ _ _ _ _ H); [done|].
  intros pre a post s s' _ IH Hs. by rewrite (strike_pending _ _ _ _ _ Hs).
Qed.

Lemma fold_pending_other {E} b st rh st' rh' :
  fold_pending (E := E) b st rh = Ok st' -> rh' <> rh -> l_pending st'.1.1 !! rh' = l_pending st.1.1 !! rh'.
Proof.
  destruct st as [[L o] served]. intros H Hne. apply fold_pending_cases in H as (req & _ & H). destruct (pr_audit req) as [a|].
  - destruct H as [[_ ->]|(_ & L1 & o1 & HF & ->)]; [done|]. cbn. rewrite lookup_delete_ne by done.
    apply strikes_pending in HF. by cbn in HF; rewrite HF.
  - destruct H as [[_ ->]|[(_ & _ & ->)|(_ & responded & served' & _ & _ & _ & ->)]]; [done|cbn; by rewrite lookup_delete_ne|].
    cbn [fst]. rewrite award_first_other by done. cbn. by rewrite lookup_insert_ne.
Qed.

(** The audits change the requests, the strikes and the vault only. *)
Section audit_frame.
Context {E X : Type} (f : ServiceLedger -> X).
Context (Hpending : forall L m, f (with_pending L m) = f L) (Hstrikes : forall L m, f (with_strikes L m) = f L)
  (Hvault : forall L m, f (with_vault L m) = f L).

Lemma maybe_award_frame w st rh id : f (maybe_award w st rh id).1 = f st.1.
Proof. destruct st as [L o]. destruct (maybe_award_cases w L o rh id) as [[-> _]|(req & _ & ->)]; [done|]. apply Hpending. Qed.

Lemma award_first_frame w st rh ids : f (award_first w st rh ids).1 = f st.1.
Proof. destruct ids; [done|]. apply maybe_award_frame. Qed.

Lemma reset_streaks_frame w daa st ids : f (foldl (reset_streak w daa) st ids).1 = f st.1.
Proof.
  apply (foldl_pres (fun s => f s.1 = f st.1)); [|done]. intros [L o] id _ <-.
  destruct (reset_streak_cases w daa L o id) as [[-> _]|(_ & e & _ & _ & ->)]; [done|]. apply Hstrikes.
Qed.

Lemma strikes_frame b rh st miners st' : foldM (strike (E := E) b rh) st miners = Ok st' -> f st'.1 = f st.1.
Proof.
  intros H. refine (foldM_invariant _ (fun _ s => f s.1 = f st.1) _ _ _ _ _ H); [done|]. intros pre a post [L o] [L' o'] _ <- Hs.
  apply strike_cases in Hs as [(-> & -> & _)|(_ & _ & V & burned & _ & _ & _ & -> & ->)]; [done|]. cbn. by rewrite Hstrikes, Hvault.
Qed.

Lemma fold_pending_frame b st rh st' : fold_pending (E := E) b st rh = Ok st' -> f st'.1.1 = f st.1.1.
Proof.
  destruct st as [[L o] served]. intros H. apply fold_pending_cases in H as (req & _ & H). destruct (pr_audit req) as [a|].
  - destruct H as [[_ ->]|(_ & L1 & o1 & HF & ->)]; [done|]. cbn. rewrite Hpending. by apply strikes_frame in HF.
  - destruct H as [[_ ->]|[(_ & _ & ->)|(_ & responded & served' & _ & _ & _ & ->)]]; [done|apply Hpending|].
    cbn [fst]. rewrite award_first_frame. apply Hpending.
Qed.

Lemma fold_audits_frame b st st' : fold_audits (E := E) st b = Ok st' -> f st'.1 = f st.1.
Proof.
  unfold fold_audits. intros H. apply bind_Ok in H as ([st1 served] & HF & H). injection H as <-. rewrite reset_streaks_frame.
  refine (foldM_invariant _ (fun _ s => f s.1.1 = f st.1) _ _ _ _ _ HF); [done|]. intros pre a post s s' _ IH Hs.
  by rewrite (fold_pending_frame _ _ _ _ Hs).
Qed.

(** So do the responses, which also park answers. *)
Lemma fold_response_frame (Hearly : forall L m, f (with_early_responses L m) = f L) b st r st' :
  fold_response (E := E) b st r = Ok st' -> f st'.1 = f st.1.
Proof.
  destruct st as [L o], r as [rh [r|]]; [|by intros [= <-]]. intros H. apply fold_response_cases in H.
  destruct (l_pending L !! rh) as [req|]; [|cbn zeta in H; subst; apply Hearly].
  destruct (pr_audit req) as [a|]; [|subst; apply Hpending].
  destruct H as (responded & served & _ & ->). rewrite reset_streaks_frame, award_first_frame. apply Hpending.
Qed.

Lemma fold_responses_frame (Hearly : forall L m, f (with_early_responses L m) = f L) b st st' :
  fold_responses (E := E) st b = Ok st' -> f st'.1 = f st.1.
Proof.
  unfold fold_responses. intros H. apply bind_Ok in H as ([L1 o1] & HF & H). apply bind_Ok in H as (e & _ & H). injection H as <-.
  cbn [fst]. rewrite Hearly. change (f (L1, o1).1 = f st.1).
  refine (foldM_invariant _ (fun _ s => f s.1 = f st.1) _ _ _ _ _ HF); [done|]. intros pre a post s s' _ <-.
  by apply fold_response_frame.
Qed.
End audit_frame.

(** The requests change the requests, the parked answers and the audited
    hashes; the escrows change neither the requests nor the strikes. *)
Lemma fold_requests_frame {E X} (f : ServiceLedger -> X) L b L' :
  fold_requests (E := E) L b = Ok L' ->
  (forall L m, f (with_pending L m) = f L) -> (forall L m, f (with_early_responses L m) = f L) ->
  (forall L m, f (with_audited L m) = f L) -> f L' = f L.
Proof.
  intros H Hp He Ha. unfold fold_requests in H. apply bind_Ok in H as (p & _ & H). apply bind_Ok in H as (e & _ & H).
  apply bind_Ok in H as (L2 & HL2 & H). injection H as <-. transitivity (f L2).
  - apply (foldl_pres (fun L' => f L' = f L2)); [|done]. intros L' [[rh t] mt] _ <-. unfold fold_request.
    destruct (_ && _); [done|]. rewrite Hp, He. match goal with |- context [if ?g then _ else _] => destruct g end; [apply Ha|done].
  - match type of HL2 with (if ?g then _ else _) = _ => destruct g end; [inv_ok HL2; rewrite Ha|injection HL2 as <-]; by rewrite He, Hp.
Qed.

Lemma fold_escrows_frame {E X} (f : ServiceLedger -> X) L b L' o :
  fold_escrows (E := E) L b = Ok (L', o) ->
  (forall L m, f (with_producer_spk L m) = f L) -> (forall L m, f (with_first_seen L m) = f L) ->
  (forall L m, f (with_vault L m) = f L) -> f L' = f L /\ fo_misses o = [] /\ fo_rewards o = [].
Proof.
  intros H Hp Hs Hv. unfold fold_escrows in H. set (L0 := with_producer_spk _ _) in H.
  assert (f (foldl (fold_escrow b) (L0, []) (fi_escrows b)).1 = f L) as Hf.
  { apply (foldl_pres (fun s => f s.1 = f L)); [|apply Hp]. intros [L1 si] [m c] _ IH. cbn [fst] in IH. unfold fold_escrow.
    destruct (_ && _), (match fi_warmup_burned b with Some _ => _ | None => _ end); cbn [fst]; rewrite ?Hv, ?Hs; exact IH. }
  destruct (foldl (fold_escrow b) _ _) as [L1 si]. apply bind_Ok in H as ([V ex] & _ & H). injection H as <- <-.
  by rewrite Hv.
Qed.

Lemma fold_escrows_same {E} L b L' o :
  fold_escrows (E := E) L b = Ok (L', o) ->
  l_pending L' = l_pending L /\ (forall m, strike_state L' m = strike_state L m) /\ fo_misses o = [] /\
  l_window_v2_activation_daa L' = l_window_v2_activation_daa L.
Proof.
  intros H. destruct (fold_escrows_frame l_pending _ _ _ _ H) as (? & ? & _); [done..|].
  destruct (fold_escrows_frame l_window_v2_activation_daa _ _ _ _ H) as [? _]; [done..|]. split; [done|]. split; [|done].
  intros m. by destruct (fold_escrows_frame (fun L => strike_state L m) _ _ _ _ H) as [? _].
Qed.

(** ** Expiry *)
Lemma expire_claims_app {E} burnable daa claims popped rest :
  expire_claims (E := E) burnable daa claims = Ok (popped, rest) -> claims = popped ++ rest.
Proof.
  revert popped. induction claims as [|c claims IH]; intros popped H; cbn in H; [by injection H as <- <-|].
  inv_ok H. destruct (a <=? daa); [|by injection H as <- <-].
  apply bind_Ok in H as ([p r] & Hp & H). injection H as <- <-. cbn. f_equal. by apply IH.
Qed.

(** The claims of one miner in a list of expired claims. *)
Definition of_miner (m : Hash) (l : list (Hash * EscrowClaim)) : list EscrowClaim := (filter (fun x => x.1 = m) l).*2.

Lemma of_miner_app m l1 l2 : of_miner m (l1 ++ l2) = of_miner m l1 ++ of_miner m l2.
Proof. unfold of_miner. by rewrite filter_app, fmap_app. Qed.

Lemma of_miner_cons m x l : of_miner m (x :: l) = (if decide (m = x.1) then [x.2] else []) ++ of_miner m l.
Proof.
  unfold of_miner. rewrite filter_cons. destruct (decide (m = x.1)); [rewrite decide_True by done|rewrite decide_False by congruence]; done.
Qed.

Lemma of_miner_tag m m' l : of_miner m ((fun c => (m', c)) <$> l) = if decide (m = m') then l else [].
Proof.
  induction l as [|c l IH]; [by destruct (decide (m = m'))|]. cbn [fmap list_fmap]. rewrite of_miner_cons. cbn [fst snd].
  rewrite IH. by destruct (decide (m = m')).
Qed.

(** The purge splits every deque into its expired front and its live rest. *)
Lemma expire_vault_split {E} burnable daa V V' expired :
  expire_vault (E := E) burnable daa V = Ok (V', expired) ->
  (forall m, deque V m = of_miner m expired ++ deque V' m) /\ no_empty_deque V'.
Proof.
  unfold expire_vault. intros H. apply bind_Ok in H as ([V1 ex] & HF & H). injection H as <- <-.
  assert (forall m, deque V m = of_miner m ex ++ deque V1 m) as Hsplit.
  { unshelve refine (_ (foldM_invariant _ (fun done st => forall m, deque V m = of_miner m st.2 ++ deque st.1 m /\
      (m ∉ done.*1 -> st.1 !! m = V !! m /\ of_miner m st.2 = [])) _ _ _ _ _ HF)); [intros HI m; apply (HI m)|done|].
    intros pre [k claims] post [V2 ex2] [V3 ex3] El IH Hs m. cbn [fst snd] in *.
    apply bind_Ok in Hs as ([popped rest] & Hp & Hs). injection Hs as <- <-. apply expire_claims_app in Hp as ->.
    assert (V !! k = Some (popped ++ rest)) as Hk by (apply elem_of_iter; rewrite El; set_solver).
    assert (k ∉ pre.*1) as Hpre.
    { pose proof (NoDup_keys V) as Hnd. unfold btree_keys in Hnd. rewrite El, fmap_app in Hnd.
      apply NoDup_app in Hnd as (_ & Hd & _). intros Hk'. apply (Hd k Hk'). left. }
    rewrite of_miner_app, of_miner_tag, deque_insert. destruct (IH m) as [IH1 IH2].
    destruct (decide (m = k)) as [->|Hne].
    - destruct IH2 as [_ ->]; [done|]. cbn. split; [unfold deque; by rewrite Hk|]. set_solver.
    - rewrite app_nil_r. split; [done|]. intros Hm. rewrite lookup_insert_ne by done. apply IH2. set_solver. }
  split.
  - intros m. rewrite Hsplit. f_equal. unfold deque. rewrite map_lookup_filter.
    destruct (V1 !! m) as [l|]; [|done]. cbn. destruct (decide (l = [])) as [->|];
      [rewrite option_guard_False by (cbn; congruence)|rewrite option_guard_True by done]; done.
  - intros m [_ Hm]%map_lookup_filter_Some. done.
Qed.

(** ** Eviction *)
Lemma oldest_in m h : oldest m = Some h -> is_Some (m !! h).
Proof.
  unfold oldest. destruct (btree_iter m) as [|[h0 [s0 k0]] l] eqn:El; [done|]. intros [= <-].
  rewrite <-elem_of_keys. unfold btree_keys. rewrite El. cbn [fmap list_fmap fst].
  assert (forall best : Z * Hash, best.2 ∈ h0 :: l.*1 ->
    (foldl (fun best '(h, (s, _)) => if (s <? best.1) || ((s =? best.1) && (h <? best.2)) then (s, h) else best) best l).2 ∈ h0 :: l.*1) as Hgen.
  { clear El. assert (l ⊆ l) as Hl by done. revert Hl. generalize l at 1 4 as l'.
    induction l' as [|[h [s k]] l' IH]; intros Hl best Hb; cbn [foldl]; [done|].
    apply IH; [set_solver|]. destruct (_ || _); [|done]. cbn. right.
    change h with ((h, (s, k)).1). apply list_elem_of_fmap_2, Hl. left. }
  apply Hgen. left.
Qed.

Lemma oldest_some m : m <> ∅ -> exists h, oldest m = Some h.
Proof.
  intros Hm. unfold oldest. destruct (btree_iter m) as [|[h0 [s0 k0]] l] eqn:El; [|eauto].
  destruct Hm. rewrite <-(iter_map m), El. done.
Qed.

(** The loop ends with at most the maximum of hashes, all of them old ones. *)
Lemma evict_ok {E} fuel m :
  (size m <= fuel)%nat ->
  exists m', evict (E := E) fuel m = Ok m' /\ m' ⊆ m /\ (size m' <= MAX_EARLY_RESPONSE_HASHES)%nat.
Proof.
  revert m. induction fuel as [|fuel IH]; intros m Hm; cbn [evict].
  { destruct (Nat.leb_spec (size m) MAX_EARLY_RESPONSE_HASHES); [eauto|lia]. }
  destruct (Nat.leb_spec (size m) MAX_EARLY_RESPONSE_HASHES); [eauto|].
  destruct (oldest_some m) as [h Hh]. { intros ->. rewrite map_size_empty in *. lia. }
  rewrite Hh. run. apply oldest_in in Hh as [v Hv].
  assert (size m = S (size (delete h m))) as Hsz by (rewrite (map_size_delete_Some h m) by eauto; assert (size m <> O) by (apply map_size_ne_0_lookup; eauto); lia).
  destruct (IH (delete h m)) as (m' & -> & Hsub & Hmax); [lia|]. exists m'. split; [done|]. split; [|done].
  etrans; [done|]. apply delete_subseteq.
Qed.
