(* ===== verification/LedgerUndo.v ===== *)
(** * Undoing a folded block

    The virtual processor keeps, for every folded chain block, a light snapshot
    (everything but the vault) and the log of the vault's changes.  When the
    chain reorganises, [restore_light] and [undo_vault] take the block back:
    together they are the exact inverse of the fold, and do not panic. *)
From S2P Require Import Prelude Tx Slice BTree Ledger LedgerSteps.
From stdpp Require Import base gmap list.
#[local] Open Scope Z_scope.

(** What no fold changes: the baselines and the configuration. *)
Definition static (L : ServiceLedger) :=
  (l_base L, l_first_seen_base L, l_window_v2_activation_daa L, l_burnable_window_daa L, l_reward_routing_daa L).

(** ** The inverses of the vault's operations *)
Lemma no_empty_push_back V m c : no_empty_deque V -> no_empty_deque (vault_push_back V m c).
Proof.
  intros HV m'. unfold vault_push_back. destruct (decide (m' = m)) as [->|];
    [rewrite lookup_insert_eq; intros [= H]; by apply app_eq_nil in H as [_ ?]|rewrite lookup_insert_ne by done; apply HV].
Qed.

Lemma no_empty_push_front V m c : no_empty_deque V -> no_empty_deque (vault_push_front V m c).
Proof.
  intros HV m'. unfold vault_push_front. destruct (decide (m' = m)) as [->|];
    [by rewrite lookup_insert_eq|rewrite lookup_insert_ne by done; apply HV].
Qed.

Lemma deque_push_back V m c m' :
  deque (vault_push_back V m c) m' = deque V m' ++ if decide (m' = m) then [c] else [].
Proof.
  unfold vault_push_back. rewrite deque_insert. destruct (decide (m' = m)) as [->|]; [done|by rewrite app_nil_r].
Qed.

Lemma undo_burn_deque V miss :
  (forall m, deque (undo_burn V miss) m = deque V m ++ if decide (m = sm_miner miss) then reverse (sm_burned miss) else []) /\
  (no_empty_deque V -> no_empty_deque (undo_burn V miss)).
Proof.
  unfold undo_burn. generalize (reverse (sm_burned miss)) as l. intros l. revert V.
  induction l as [|c l IH]; intros V; cbn [foldl].
  { split; [|done]. intros m. destruct (decide _); by rewrite app_nil_r. }
  destruct (IH (vault_push_back V (sm_miner miss) c)) as [IH1 IH2]. split.
  - intros m. rewrite IH1, deque_push_back, <-app_assoc. by destruct (decide (m = sm_miner miss)).
  - intros HV. by apply IH2, no_empty_push_back.
Qed.

Lemma undo_expired_deque V expired :
  no_empty_deque V ->
  let V' := foldl (fun V '(miner, claim) => vault_push_front V miner claim) V (reverse expired) in
  no_empty_deque V' /\ forall m, deque V' m = of_miner m expired ++ deque V m.
Proof.
  intros HV. induction expired as [|[k c] expired [IH1 IH2]]; [done|]. cbn zeta in *.
  rewrite reverse_cons, foldl_app. cbn [foldl]. split; [by apply no_empty_push_front|].
  intros m. rewrite of_miner_cons, <-app_assoc, <-IH2. unfold vault_push_front. cbn [fst snd]. rewrite deque_insert.
  destruct (decide (m = k)) as [->|]; done.
Qed.

Lemma undo_add_inverts {E} V m c : no_empty_deque V -> undo_add (E := E) (vault_push_back V m c) (m, c) = Ok V.
Proof.
  intros HV. unfold undo_add. cbn [fst].
  assert (vault_push_back V m c !! m = Some (default [] (V !! m) ++ [c])) as -> by apply lookup_insert_eq. run.
  rewrite last_snoc. run. f_equal. rewrite length_app, Nat.add_sub, take_app_length.
  change (if bool_decide _ then _ else _) with (set_deque (vault_push_back V m c) m (default [] (V !! m))).
  apply vault_ext; [by apply no_empty_set, no_empty_push_back|done|].
  intros m'. rewrite deque_set, deque_push_back. destruct (decide (m' = m)) as [->|]; [done|by rewrite app_nil_r].
Qed.

Definition push_backs (V : Vault) (adds : list (Hash * EscrowClaim)) : Vault :=
  foldl (fun V '(m, c) => vault_push_back V m c) V adds.

Lemma no_empty_push_backs V adds : no_empty_deque V -> no_empty_deque (push_backs V adds).
Proof. apply foldl_pres. intros s [m c] _. apply no_empty_push_back. Qed.

Lemma undo_adds_invert {E} V adds : no_empty_deque V -> foldM (undo_add (E := E)) (push_backs V adds) (reverse adds) = Ok V.
Proof.
  intros HV. induction adds as [|[m c] adds IH] using rev_ind; [done|].
  unfold push_backs. rewrite foldl_app, reverse_app. cbn [foldl foldM reverse rev_append app].
  rewrite undo_add_inverts by (by apply no_empty_push_backs). done.
Qed.

(** ** The fold as a logged change of the vault *)

(** From [st] to [st'] only the vault and the folded state changed, and the
    misses logged on the way say how to take the vault back. *)
Definition logged (st st' : ServiceLedger * FoldOutcome) : Prop :=
  static st'.1 = static st.1 /\ fo_expired st'.2 = fo_expired st.2 /\
  (no_empty_deque (l_vault st.1) -> no_empty_deque (l_vault st'.1)) /\
  exists ms, fo_misses st'.2 = fo_misses st.2 ++ ms /\
    (no_empty_deque (l_vault st.1) -> foldl undo_burn (l_vault st'.1) (reverse ms) = l_vault st.1).

#[export] Instance logged_preorder : PreOrder logged.
Proof.
  split.
  - intros st. repeat (split; [done|]). exists []. by rewrite app_nil_r.
  - intros s1 s2 s3 (S1 & X1 & N1 & ms1 & M1 & U1) (S2 & X2 & N2 & ms2 & M2 & U2).
    split; [congruence|]. split; [congruence|]. split; [auto|]. exists (ms1 ++ ms2). split; [by rewrite M2, M1, app_assoc|].
    intros HV. rewrite reverse_app, foldl_app, U2, U1; auto.
Qed.

(** A step that leaves the vault, the misses and the expired claims alone. *)
Lemma logged_frame L o L' o' :
  static L' = static L -> l_vault L' = l_vault L -> fo_misses o' = fo_misses o -> fo_expired o' = fo_expired o ->
  logged (L, o) (L', o').
Proof.
  intros HS HV HM HX. split; [done|]. split; [done|]. cbn. rewrite HV. split; [done|]. exists []. by rewrite app_nil_r.
Qed.

Lemma strike_logged {E} b rh st miner st' : strike (E := E) b rh st miner = Ok st' -> logged st st'.
Proof.
  destruct st as [L o], st' as [L' o']. intros H.
  destruct (strike_cases _ _ _ _ _ _ _ H) as [(-> & -> & _)|(_ & _ & V & burned & _ & _ & (Hm & Hne & Hwf) & -> & ->)]; [done|].
  split; [done|]. split; [done|]. split; [done|]. eexists [_]. split; [done|]. intros HV.
  cbn [fst l_vault with_strikes with_vault reverse rev_append foldl].
  match goal with |- undo_burn V ?miss = _ => destruct (undo_burn_deque V miss) as [Hu Hun] end.
  apply vault_ext; [by apply Hun, Hwf|done|]. intros m. rewrite Hu. cbn.
  destruct (decide (m = miner)) as [->|]; [done|]. by rewrite Hne, app_nil_r.
Qed.

Lemma maybe_award_logged w st rh id : logged st (maybe_award w st rh id).
Proof.
  destruct st as [L o]. destruct (maybe_award_cases w L o rh id) as [[-> _]|(req & _ & ->)]; [done|].
  by destruct w; apply logged_frame.
Qed.

Lemma reset_streak_logged w daa st id : logged st (reset_streak w daa st id).
Proof.
  destruct st as [L o]. destruct (reset_streak_cases w daa L o id) as [[-> _]|(_ & e & _ & _ & ->)]; [done|].
  by apply logged_frame.
Qed.

Lemma fold_request_logged b g L o r : logged (L, o) (fold_request b g L r, o).
Proof. destruct r as [[rh tier] mt]. unfold fold_request. destruct (g && _); [done|]. by destruct g; apply logged_frame. Qed.

Lemma award_first_logged w L L' o rh l : static L' = static L -> l_vault L' = l_vault L -> logged (L, o) (award_first w (L', o) rh l).
Proof.
  intros HS HV. etrans; [by apply (logged_frame L o L' o)|]. destruct l; [done|]. apply maybe_award_logged.
Qed.

Lemma fold_response_logged {E} b st r st' : fold_response (E := E) b st r = Ok st' -> logged st st'.
Proof.
  destruct st as [L o], r as [rh [r|]]; [|by intros [= <-]]. intros H. apply fold_response_cases in H.
  destruct (l_pending L !! rh) as [req|]; [|cbn zeta in H; subst; by apply logged_frame].
  destruct (pr_audit req) as [a|]; [|subst; by apply logged_frame].
  destruct H as (responded & served & _ & ->).
  etrans; [|apply (foldl_rel logged); intros; apply reset_streak_logged]. by apply award_first_logged.
Qed.

Lemma fold_pending_logged {E} b st rh st' : fold_pending (E := E) b st rh = Ok st' -> logged st.1 st'.1.
Proof.
  destruct st as [[L o] served]. intros H. apply fold_pending_cases in H as (req & _ & H). destruct (pr_audit req) as [a|].
  - destruct H as [[_ ->]|(_ & L1 & o1 & HF & ->)]; [done|]. cbn [fst].
    etrans; [eapply (foldM_rel logged); [|exact HF]; intros s x s' _; apply strike_logged|]. by apply logged_frame.
  - destruct H as [[_ ->]|[(_ & _ & ->)|(_ & responded & served' & _ & _ & _ & ->)]]; [done|by apply logged_frame|].
    by apply award_first_logged.
Qed.

(** Everything after the escrow phase is a logged change. *)
Lemma fold_rest_logged {E} L o b L1 st st' :
  fold_requests (E := E) L b = Ok L1 -> fold_responses (E := E) (L1, o) b = Ok st -> fold_audits (E := E) st b = Ok st' ->
  logged (L, o) st'.
Proof.
  intros H1 H2 H3. transitivity (L1, o); [|transitivity st].
  - unfold fold_requests in H1. apply bind_Ok in H1 as (p & _ & H1). apply bind_Ok in H1 as (e & _ & H1).
    apply bind_Ok in H1 as (L2 & HL2 & H1). injection H1 as <-. transitivity (L2, o).
    + destruct (match l_reward_routing_daa _ with Some _ => _ | None => _ end); [inv_ok HL2|injection HL2 as <-]; by apply logged_frame.
    + apply (foldl_pres (fun L' => logged (L2, o) (L', o))); [|done]. intros L' r _ HL'. etrans; [done|]. apply fold_request_logged.
  - unfold fold_responses in H2. apply bind_Ok in H2 as ([L2 o2] & HF & H2). apply bind_Ok in H2 as (e & _ & H2). injection H2 as <-.
    etrans; [eapply (foldM_rel logged); [|exact HF]; intros s x s' _; apply fold_response_logged|]. by apply logged_frame.
  - unfold fold_audits in H3. apply bind_Ok in H3 as ([st1 served] & HF & H3). injection H3 as <-.
    etrans; [|apply (foldl_rel logged); intros; apply reset_streak_logged].
    clear -HF. revert HF. generalize (btree_keys (l_pending st.1)) as ks.
    intros ks HF. change (logged (st, @nil Hash).1 (st1, served).1).
    refine (foldM_invariant _ (fun _ s => logged (st, @nil Hash).1 s.1) _ _ _ _ _ HF); [done|].
    intros pre a post s s' _ IH Hs. etrans; [exact IH|]. by eapply fold_pending_logged.
Qed.

(** ** The escrow phase *)
Lemma fold_escrows_vault L b :
  warmup b = false ->
  let st := foldl (fold_escrow b) (with_producer_spk L (foldl (fun m '(identity, spk) => <[identity := spk]> m) (l_producer_spk L) (fi_producers b)), []) (fi_escrows b) in
  l_vault st.1 = push_backs (l_vault L) (fi_escrows b) /\ static st.1 = static L.
Proof.
  intros Hw. set (L0 := with_producer_spk _ _). cbn zeta.
  assert (static L0 = static L /\ l_vault L0 = l_vault L) as [<- <-] by done.
  generalize (@nil Hash) as si. generalize L0 as L1. unfold push_backs.
  induction (fi_escrows b) as [|[m c] l IH]; intros L1 si; cbn [foldl]; [done|].
  assert (exists L2 si2, fold_escrow b (L1, si) (m, c) = (L2, si2) /\ l_vault L2 = vault_push_back (l_vault L1) m c /\ static L2 = static L1)
    as (L2 & si2 & -> & <- & <-); [|apply IH].
  unfold warmup in Hw. apply bool_decide_eq_false in Hw. unfold fold_escrow.
  destruct (fi_warmup_burned b); [destruct Hw; eauto|]. destruct (_ && _); eauto.
Qed.

(** The vault of a fold: what is pushed, what expires and what is burned. *)
Lemma fold_inner_vault {E} L b L' o :
  no_empty_deque (l_vault L) -> warmup b = false -> fold_inner (E := E) L b = Ok (L', o) ->
  let V1 := foldl undo_burn (l_vault L') (reverse (fo_misses o)) in
  static L' = static L /\ no_empty_deque V1 /\ no_empty_deque (l_vault L') /\
  forall m, deque (push_backs (l_vault L) (fi_escrows b)) m = of_miner m (fo_expired o) ++ deque V1 m.
Proof.
  intros HV Hw H. unfold fold_inner in H. apply bind_Ok in H as ([L0 o0] & H0 & H).
  apply bind_Ok in H as (L1 & H1 & H). apply bind_Ok in H as (st & H2 & H3).
  pose proof (fold_rest_logged _ _ _ _ _ _ H1 H2 H3) as (HS & HX & HN & ms & HM & HU). cbn [fst snd] in *.
  unfold fold_escrows in H0. pose proof (fold_escrows_vault L b Hw) as Hesc. cbn zeta in Hesc.
  destruct (foldl (fold_escrow b) _ (fi_escrows b)) as [L2 si]. destruct Hesc as [HV2 HS2]. cbn [fst] in *.
  apply bind_Ok in H0 as ([V1 expired] & Hexp & H0). injection H0 as <- <-. cbn in HX, HM, HU, HN. subst ms.
  rewrite HV2 in Hexp. destruct (expire_vault_split _ _ _ _ _ Hexp) as [Hd Hn1]. cbn zeta. rewrite HU, HX by done.
  split; [|by auto]. unfold static in *. destruct L, L', L2. cbn in *. congruence.
Qed.

(** C8: undoing a folded block restores the ledger exactly.  For a ledger
    without empty deques and a fold that is not a warmup, [restore_light] with
    the snapshot taken before the block and [undo_vault] with the block's
    escrows, misses and expired claims give back the whole ledger - the vault
    deque by deque, the strikes, the audits, the baselines and the
    configuration - and neither of the two [expect]s of [undo_vault] panics. *)
Theorem undo_restores_ledger {E} L b L' o :
  no_empty_deque (l_vault L) -> warmup b = false ->
  fold_inner (E := E) L b = Ok (L', o) ->
  undo_vault (E := E) (restore_light L' (light_snapshot L)) (fi_escrows b) (fo_misses o) (fo_expired o) = Ok L.
Proof.
  intros HV Hw H. destruct (fold_inner_vault L b L' o HV Hw H) as (HS & Hn1 & _ & Hd). unfold undo_vault. cbn [l_vault restore_light].
  destruct (undo_expired_deque _ (fo_expired o) Hn1) as [Hn2 Hd2].
  replace (foldl _ _ (reverse (fo_expired o))) with (push_backs (l_vault L) (fi_escrows b)).
  2:{ apply vault_ext; [by apply no_empty_push_backs|done|]. intros m. by rewrite Hd2, Hd. }
  rewrite undo_adds_invert by done. run. f_equal.
  unfold static in HS. unfold with_vault, restore_light, light_snapshot in *. destruct L, L'. cbn in *. congruence.
Qed.

Lemma no_empty_deque_decide V : bool_decide (map_Forall (fun _ l => l <> []) V) = true -> no_empty_deque V.
Proof. intros HV%bool_decide_eq_true m Hm. by apply (HV m []). Qed.

(** The fourth block of the example, with one claim added, one expired and one
    burned, is undone. *)
Lemma undo_restores_ledger_witness :
  undo_vault (E := ()) (restore_light (ex_fold ex_l3 ex_b4).1 (light_snapshot ex_l3)) (fi_escrows ex_b4)
    (fo_misses (ex_fold ex_l3 ex_b4).2) (fo_expired (ex_fold ex_l3 ex_b4).2) = Ok ex_l3.
Proof.
  apply (undo_restores_ledger ex_l3 ex_b4).
  - apply no_empty_deque_decide. vm_compute. reflexivity.
  - reflexivity.
  - vm_compute. reflexivity.
Defined.
