(* ===== verification/LedgerInv.v ===== *)
(** * Well-formed ledgers

    The invariant of the service ledger and its preservation by the fold, which
    is total on well-formed inputs: no addition of DAA scores overflows, no
    strike counter leaves its range, and the loops end. *)
From S2P Require Import Prelude Tx Slice BTree Ledger LedgerSteps LedgerUndo.
From stdpp Require Import base gmap list.
#[local] Open Scope Z_scope.

(** DAA scores leave room for the longest of the ledger's horizons. *)
Definition DAA_ROOM : Z := 1000000.
Definition daa_ok (x : Z) : Prop := 0 <= x /\ x + DAA_ROOM < 2 ^ 64.

Record wf_audit (a : Audit) : Prop := {
  wa_sorted : StronglySorted Z.lt (au_cohort a);
  wa_nonempty : au_cohort a <> [];
  wa_delegated : forall id, id ∈ au_cohort a <-> exists key, (key, id) ∈ au_delegations a;
  wa_responded : NoDup (au_responded a) /\ au_responded a ⊆ au_cohort a;
}.

Record wf_request (r : PendingRequest) : Prop := {
  wr_accepted : daa_ok (pr_accepted_daa r);
  wr_ranges : in_u 8 (pr_tier r) /\ in_u 32 (pr_max_tokens r) /\ in_u 64 (pr_reward r);
  wr_early : NoDup (pr_early_responders r);
  wr_audit : forall a, pr_audit r = Some a -> wf_audit a /\ pr_early_responders r = [];
  wr_winner : forall w, pr_winner r = Some w -> pr_reward r <> 0 /\ exists a, pr_audit r = Some a /\ w ∈ au_responded a;
}.

(** Two consecutive misses at most: the third suspends and restarts the streak. *)
Definition wf_strike (e : StrikeEntry) : Prop := 0 <= se_count e <= 2 /\ daa_ok (se_last_daa e).

Definition wf_claims (cs : list EscrowClaim) : Prop := cs <> [] /\ Forall (fun c => daa_ok (ec_daa c)) cs.

Definition wf_early_entry (sk : Z * list Hash) : Prop := daa_ok sk.1 /\ NoDup sk.2.

Record wf_ledger (L : ServiceLedger) : Prop := {
  wl_pending : map_Forall (fun _ => wf_request) (l_pending L);
  wl_early : map_Forall (fun _ => wf_early_entry) (l_early_responses L);
  wl_disjoint : forall rh, is_Some (l_pending L !! rh) -> l_early_responses L !! rh = None;
  wl_strikes : forall m e, strike_state L m = Some e -> wf_strike e;
  wl_vault : map_Forall (fun _ => wf_claims) (l_vault L);
  wl_audited : map_Forall (fun _ => daa_ok) (l_audited L);
  wl_burnable : 0 <= default SERVICE_BURNABLE_WINDOW_DAA (l_burnable_window_daa L) <= DAA_ROOM;
}.

(** The typed arguments of a fold. *)
Record wf_input (b : FoldInput) : Prop := {
  wi_daa : daa_ok (fi_daa b);
  wi_requests : Forall (fun r => in_u 8 r.1.2 /\ in_u 32 r.2) (fi_requests b);
  wi_rewards : Forall (fun r => in_u 64 r.2) (fi_request_rewards b);
  wi_escrows : Forall (fun e => daa_ok (ec_daa e.2)) (fi_escrows b);
}.

(** A reported miss counts from one to three, and suspends at three. *)
Definition wf_miss (m : ServiceMiss) : Prop :=
  1 <= sm_consecutive_misses m <= 3 /\ (sm_penalty m = Suspend <-> sm_consecutive_misses m = 3).

Definition wf_state (st : ServiceLedger * FoldOutcome) : Prop := wf_ledger st.1 /\ Forall wf_miss (fo_misses st.2).

Ltac daa_lia := unfold daa_ok, DAA_ROOM, in_u, SERVICE_LEDGER_HORIZON_DAA, SERVICE_EARLY_RESPONSE_HORIZON_DAA,
  SERVICE_AUDITED_MEMORY_DAA, SERVICE_STRIKE_INTERVAL_DAA, SERVICE_BURNABLE_WINDOW_DAA in *; lia.

(** ** One field at a time *)
Lemma wf_with_pending L m :
  wf_ledger L -> map_Forall (fun _ => wf_request) m ->
  (forall rh, is_Some (m !! rh) -> l_early_responses L !! rh = None) -> wf_ledger (with_pending L m).
Proof. by intros []. Qed.

Lemma wf_set_request L rh r r' :
  wf_ledger L -> l_pending L !! rh = Some r -> wf_request r' -> wf_ledger (with_pending L (<[rh := r']> (l_pending L))).
Proof.
  intros HL Hr Hr'. apply wf_with_pending; [done|apply map_Forall_insert_2; [done|apply HL]|].
  intros rh' [<-|[_ H]]%lookup_insert_is_Some; apply (wl_disjoint _ HL); eauto.
Qed.

Lemma wf_delete_request L rh : wf_ledger L -> wf_ledger (with_pending L (delete rh (l_pending L))).
Proof.
  intros HL. apply wf_with_pending; [done|apply map_Forall_delete, HL|].
  intros rh' [_ H]%lookup_delete_is_Some. by apply (wl_disjoint _ HL).
Qed.

Lemma wf_set_strike L m e : wf_ledger L -> wf_strike e -> wf_ledger (with_strikes L (<[m := e]> (l_strikes L))).
Proof.
  intros [] He. constructor; try done. intros m' e'. unfold strike_state in *. cbn.
  destruct (decide (m' = m)) as [->|]; [rewrite lookup_insert_eq; congruence|].
  rewrite lookup_insert_ne by done. eauto.
Qed.

Lemma wf_with_vault L V : wf_ledger L -> map_Forall (fun _ => wf_claims) V -> wf_ledger (with_vault L V).
Proof. by intros []. Qed.

Lemma wf_vault_no_empty V : map_Forall (fun _ => wf_claims) V -> no_empty_deque V.
Proof. intros HV m Hm. by destruct (HV m [] Hm). Qed.

(** A vault whose deques come from the claims of another. *)
Lemma wf_vault_sub V V' :
  map_Forall (fun _ => wf_claims) V -> no_empty_deque V' -> (forall m, deque V' m ⊆ deque V m) ->
  map_Forall (fun _ => wf_claims) V'.
Proof.
  intros HV Hn Hs m cs Hm. split; [intros ->; by apply (Hn m)|]. apply Forall_forall. intros c Hc.
  specialize (Hs m). unfold deque in Hs. rewrite Hm in Hs. cbn in Hs. specialize (Hs c Hc).
  destruct (V !! m) as [cs'|] eqn:E'; cbn in Hs; [|by apply not_elem_of_nil in Hs].
  destruct (HV m cs' E') as [_ Hall]. rewrite Forall_forall in Hall. auto.
Qed.

(** ** The steps *)
Lemma maybe_award_wf w L o rh id req a :
  l_pending L !! rh = Some req -> pr_audit req = Some a -> id ∈ au_responded a ->
  wf_state (L, o) -> wf_state (maybe_award w (L, o) rh id).
Proof.
  intros Hreq Ha Hid [HL Ho]. destruct (maybe_award_cases w L o rh id) as [[-> _]|(r & (Hr & Hw & Hne & _) & ->)]; [done|].
  assert (r = req) as -> by congruence. split; [|by destruct w]. cbn [fst]. eapply wf_set_request; [done..|].
  assert (wf_request req) as [] by (eapply wl_pending; eauto). constructor; try done.
  intros w' [= <-]. eauto.
Qed.

Lemma reset_streak_wf w daa st id : wf_state st -> wf_state (reset_streak w daa st id).
Proof.
  destruct st as [L o]. intros [HL Ho].
  destruct (reset_streak_cases w daa L o id) as [[-> _]|(_ & e & He & _ & ->)]; [done|]. split; [|done].
  apply wf_set_strike; [done|]. destruct (wl_strikes _ HL _ _ He) as [_ Hd]. split; [cbn; lia|]. cbn.
  destruct (v2_at L daa); [done|]. daa_lia.
Qed.

Lemma reset_streaks_wf w daa st ids : wf_state st -> wf_state (foldl (reset_streak w daa) st ids).
Proof. apply foldl_pres. intros s id _. apply reset_streak_wf. Qed.

Lemma strike_wf {E} b rh st miner :
  wf_input b -> wf_state st -> exists st', strike (E := E) b rh st miner = Ok st' /\ wf_state st'.
Proof.
  destruct st as [L o]. intros Hb [HL Ho]. cbn [fst snd] in *.
  assert (0 <= consecutive_misses L miner <= 2) as Hc.
  { unfold consecutive_misses. destruct (strike_state L miner) as [e|] eqn:He; [apply (wl_strikes _ HL _ _ He)|lia]. }
  assert (exists st', strike (E := E) b rh (L, o) miner = Ok st') as [[L' o'] Hs].
  { unfold strike. destruct (warmup b); [eauto|].
    assert (exists lim, (match strike_state L miner with
      | Some e => if 0 <? se_last_daa e then until ← add_ (E := E) 64 (se_last_daa e) SERVICE_STRIKE_INTERVAL_DAA; Ok (fi_daa b <? until) else Ok false
      | None => Ok false end) = Ok lim) as [lim ->].
    { destruct (strike_state L miner) as [e|] eqn:He; [|eauto]. destruct (wl_strikes _ HL _ _ He) as [_ Hd].
      destruct (_ <? _); [|eauto]. rewrite add_ok by daa_lia. run. eauto. }
    run. destruct lim; [eauto|]. rewrite add_ok by (unfold in_u; lia). run.
    match goal with |- context [burn ?a ?b ?c] => destruct (burn a b c) end. eauto. }
  rewrite Hs. eexists. split; [done|].
  apply strike_cases in Hs as [(-> & -> & _)|(_ & _ & V & burned & _ & _ & (Hm & Hne & Hwf) & -> & ->)]; [done|].
  set (count := consecutive_misses L miner + 1) in *. set (p := strike_penalty_at _ _ _).
  assert (p = Suspend <-> count = 3) as Hp.
  { unfold p, strike_penalty_at. destruct (Z.eqb_spec count 0); [lia|]. destruct (Z.eqb_spec count 1); cbn [andb orb].
    - destruct (_ || _); split; (done || lia).
    - destruct (Z.eqb_spec count 2); split; (done || lia). }
  split; cbn [fst snd].
  - apply (wf_set_strike (with_vault L V)).
    + apply wf_with_vault; [done|]. eapply wf_vault_sub; [apply HL|apply Hwf, wf_vault_no_empty, HL|].
      intros m. destruct (decide (m = miner)) as [->|]; [rewrite Hm; set_solver|by rewrite Hne].
    + split; [|apply Hb]. cbn. case_bool_decide; [lia|]. assert (count <> 3) by tauto. lia.
  - unfold add_miss. cbn. apply Forall_app. split; [done|]. apply Forall_singleton. split; [cbn; lia|done].
Qed.

Lemma push_new_NoDup l x : NoDup l -> NoDup (push_new l x).
Proof.
  intros Hl. unfold push_new. case_bool_decide; [done|]. apply NoDup_app. split; [done|]. split; [set_solver|apply NoDup_singleton].
Qed.

Lemma push_news_NoDup l xs : NoDup l -> NoDup (foldl push_new l xs).
Proof. apply foldl_pres. intros s x _. apply push_new_NoDup. Qed.

Lemma award_first_wf w L o rh served req a :
  l_pending L !! rh = Some req -> pr_audit req = Some a -> served ⊆ au_responded a ->
  wf_state (L, o) -> wf_state (award_first w (L, o) rh served).
Proof.
  intros Hreq Ha Hs HL. unfold award_first. destruct served as [|id served]; [done|].
  eapply maybe_award_wf; [done..| |done]. apply Hs. left.
Qed.

(** The audit after its responders grow by newly credited identities. *)
Lemma wf_audit_credit a ids :
  wf_audit a ->
  wf_audit (mkAudit (au_cohort a) (au_delegations a) (au_responded a ++ newly (au_cohort a) (au_responded a) ids) (au_window_end_daa a)).
Proof.
  intros [Hs Hn Hd [Hnd Hsub]]. constructor; try done. cbn. split.
  - apply NoDup_app. split; [done|]. split; [|apply NoDup_newly]. intros x Hx. rewrite elem_of_newly. naive_solver.
  - intros x. rewrite elem_of_app, elem_of_newly. naive_solver.
Qed.

Lemma fold_response_wf {E} b st r :
  wf_input b -> wf_state st -> exists st', fold_response (E := E) b st r = Ok st' /\ wf_state st'.
Proof.
  destruct st as [L o], r as [rh [r|]]; [|by eauto]. intros Hb [HL Ho]. cbn [fst snd] in *. unfold fold_response.
  destruct (l_pending L !! rh) as [req|] eqn:Hreq.
  2:{ assert (wf_early_entry (default (fi_daa b, []) (l_early_responses L !! rh))) as He.
      { destruct (l_early_responses L !! rh) as [e|] eqn:Ee; [by apply (wl_early _ HL rh)|].
        split; [apply Hb|constructor]. }
      destruct (default _ _) as [seen keys]. eexists. split; [done|]. split; [|done]. destruct He as [He1 He2], HL. cbn in He2.
      constructor; try done; cbn.
      - apply map_Forall_insert_2; [|done]. split; [done|]. by apply push_new_NoDup.
      - intros rh' Hrh'. rewrite lookup_insert_ne; [auto|]. intros ->. rewrite Hreq in Hrh'. by destruct Hrh'. }
  pose proof (wl_pending _ HL _ _ Hreq) as Hwr. destruct (pr_audit req) as [a|] eqn:Ha.
  2:{ eexists. split; [done|]. split; [|done]. eapply wf_set_request; [done..|].
      destruct Hwr. constructor; try done. by apply push_new_NoDup. cbn. congruence. }
  destruct (wr_audit _ Hwr a Ha) as [Hwa Hearly]. rewrite credit_ok by apply Hwa. run. eexists. split; [done|].
  apply reset_streaks_wf. eapply award_first_wf; [by apply lookup_insert_eq|done|cbn; set_solver|]. split; [|done].
  eapply wf_set_request; [done..|]. destruct Hwr as [? ? ? _ Hw]. constructor; try done.
  - intros a' [= <-]. split; [by apply wf_audit_credit|done].
  - intros w Hw'. destruct (Hw w Hw') as (? & a' & Ha' & Hin). split; [done|]. eexists. split; [done|].
    assert (a' = a) as -> by congruence. cbn. set_solver.
Qed.

(** ** Arming and closing audits *)
Lemma window_bound tier max_tokens v2 :
  0 <= max_tokens -> 0 <= service_window_daa_at tier max_tokens v2 <= 19384.
Proof.
  intros Hm. unfold service_window_daa_at, AI_REQUEST_MAX_TOKENS_CAP, SERVICE_WINDOW_BASE_DAA, SERVICE_WINDOW_BASE_DAA_V2.
  destruct v2, (_ && _), (tier =? 3); lia.
Qed.

(** The cohort of an arming audit: its sorted identities with their delegations. *)
Lemma wf_audit_arm (set : list (Hash * Hash)) keys window_end :
  set <> [] ->
  let ids := dedup (sort_by Z.leb set.*1) in
  let delegations := dedup (sort_by pair_leb ((fun '(id, esc) => (esc, id)) <$> set)) in
  wf_audit (mkAudit ids delegations (newly ids [] keys) window_end).
Proof.
  intros Hset ids delegations.
  assert (forall id, id ∈ ids <-> exists key, (id, key) ∈ set) as Hids.
  { intros id. unfold ids. rewrite dedup_elem, elem_of_sort_by, list_elem_of_fmap. split.
    - intros ([i k] & -> & H). eauto.
    - intros [k H]. by exists (id, k). }
  constructor; cbn.
  - apply dedup_sort_sorted.
  - destruct set as [|[i k] set]; [done|]. intros Hn. apply (not_elem_of_nil i). rewrite <-Hn. apply Hids. exists k. left.
  - intros id. rewrite Hids. apply exist_proper. intros key. unfold delegations. rewrite dedup_elem, elem_of_sort_by, list_elem_of_fmap. split.
    + intros H. by exists (id, key).
    + intros ([i k] & [= -> ->] & H). done.
  - split; [apply NoDup_newly|]. intros x. rewrite elem_of_newly. naive_solver.
Qed.

Lemma fold_pending_wf {E} b st served rh :
  wf_input b -> wf_state st -> is_Some (l_pending st.1 !! rh) ->
  exists st' served', fold_pending (E := E) b (st, served) rh = Ok (st', served') /\ wf_state st'.
Proof.
  destruct st as [L o]. intros Hb [HL Ho] [req Hreq]. cbn [fst snd] in *. pose proof (wl_pending _ HL _ _ Hreq) as Hwr.
  unfold fold_pending. rewrite Hreq. run. destruct (pr_audit req) as [a|] eqn:Ha.
  - destruct (_ <? _); [|by exists (L, o), served].
    destruct (foldM_pres wf_state (strike (E := E) b rh) (L, o) (filter (fun m => m ∉ au_responded a) (au_cohort a)))
      as ([L1 o1] & -> & [HL1 Ho1]); [intros; by apply strike_wf|done|].
    run. do 2 eexists. split; [done|]. split; [by apply wf_delete_request|done].
  - destruct (_ <? _); [|by exists (L, o), served]. destruct (fi_cohort b (pr_tier req)) as [|p set] eqn:Hset.
    { do 2 eexists. split; [done|]. split; [by apply wf_delete_request|done]. }
    assert (p :: set <> []) as Hne by done. revert Hne. generalize (p :: set) as S. clear Hset. intros S Hne.
    rewrite credit_keys_ok by apply dedup_sort_sorted. run.
    pose proof (window_bound (pr_tier req) (pr_max_tokens req) (v2_at L (fi_daa b))) as Hwin.
    destruct (wr_ranges _ Hwr) as (_ & Hmt & _). pose proof (wi_daa _ Hb).
    rewrite add_ok by daa_lia. run. do 2 eexists. split; [done|].
    eapply award_first_wf; [by apply lookup_insert_eq|done|done|]. split; [|done].
    eapply wf_set_request; [done..|]. destruct Hwr as [? ? _ _ Hw]. constructor; try done; cbn.
    + constructor.
    + intros a' [= <-]. split; [by apply wf_audit_arm|done].
    + intros w Hw'. destruct (Hw w Hw') as (_ & a' & Ha' & _). congruence.
Qed.

Lemma fold_response_keeps {E} b st r st' : wf_input b -> wf_state st -> fold_response (E := E) b st r = Ok st' -> wf_state st'.
Proof. intros Hb Hst H. destruct (fold_response_wf (E := E) b st r Hb Hst) as (st1 & H1 & ?). by assert (st1 = st') as <- by congruence. Qed.

Lemma fold_pending_keeps {E} b st served rh st' served' :
  wf_input b -> wf_state st -> fold_pending (E := E) b (st, served) rh = Ok (st', served') -> wf_state st'.
Proof.
  intros Hb Hst H. destruct (fold_pending_wf (E := E) b st served rh Hb Hst) as (st1 & sv1 & H1 & ?).
  { destruct st as [L o]. apply fold_pending_cases in H as (req & Hreq & _). by exists req. }
  by assert (st1 = st') as <- by congruence.
Qed.

(** ** The phases *)
Lemma fold_audits_wf {E} b st : wf_input b -> wf_state st -> exists st', fold_audits (E := E) st b = Ok st' /\ wf_state st'.
Proof.
  intros Hb Hst. unfold fold_audits.
  destruct (foldM_total (fold_pending (E := E) b) (fun done s => wf_state s.1 /\
     forall rh, rh ∈ btree_keys (l_pending st.1) -> rh ∉ done -> is_Some (l_pending s.1.1 !! rh)) (st, []) (btree_keys (l_pending st.1)))
    as ([st1 served] & -> & Hst1 & _).
  - split; [done|]. intros rh Hrh _. by apply elem_of_keys.
  - intros pre rh post [s served] Eks [Hs Hpend]. cbn [fst] in *.
    assert (rh ∉ pre) as Hpre. { pose proof (NoDup_keys (l_pending st.1)) as Hnd. rewrite Eks in Hnd. apply NoDup_app in Hnd. set_solver. }
    destruct (fold_pending_wf (E := E) b s served rh) as (s' & served' & Hs' & Hwf); [done..|apply Hpend; [rewrite Eks; set_solver|done]|].
    exists (s', served'). split; [done|]. split; [done|]. intros rh' Hin Hnot.
    rewrite (fold_pending_other _ _ _ _ rh' Hs') by set_solver. apply Hpend; [done|set_solver].
  - run. eexists. split; [done|]. by apply reset_streaks_wf.
Qed.

Lemma fold_responses_wf {E} b st :
  wf_input b -> wf_state st ->
  exists st', fold_responses (E := E) st b = Ok st' /\ wf_state st' /\
    (size (l_early_responses st'.1) <= MAX_EARLY_RESPONSE_HASHES)%nat.
Proof.
  intros Hb Hst. unfold fold_responses.
  destruct (foldM_pres wf_state (fold_response (E := E) b) st (fi_responses b)) as ([L1 o1] & -> & HL & Ho);
    [intros; by apply fold_response_wf|done|]. run.
  destruct (evict_ok (E := E) (size (l_early_responses L1)) (l_early_responses L1)) as (early & -> & Hsub & Hsz); [done|]. run.
  eexists. split; [done|]. split; [split; [|done]|done]. destruct HL. constructor; try done; cbn.
  - intros rh e He. eapply wl_early0, lookup_weaken; eauto.
  - intros rh Hrh. eapply lookup_weaken_None; [|done]. auto.
Qed.

Lemma fold_request_wf b g L r :
  wf_input b -> in_u 8 r.1.2 /\ in_u 32 r.2 -> wf_ledger L -> wf_ledger (fold_request b g L r).
Proof.
  intros Hb Hr HL. destruct r as [[rh tier] mt]. cbn in Hr. unfold fold_request. destruct (g && _); [done|].
  set (L1 := if g then _ else L). assert (wf_ledger L1) as HL1.
  { unfold L1. destruct g; [|done]. destruct HL. constructor; try done. apply map_Forall_insert_2; [apply Hb|done]. }
  clearbody L1. clear HL. set (req := match l_pending _ !! rh with Some r => r | None => _ end).
  assert (wf_request req) as Hreq.
  { unfold req. cbn. destruct (l_pending L1 !! rh) as [r|] eqn:Er; [by apply (wl_pending _ HL1 rh)|].
    constructor; cbn; try done; [apply Hb| |constructor]. split; [tauto|]. split; [tauto|].
    destruct (List.find _ _) as [[h v]|] eqn:Ef; [|unfold in_u; lia]. apply List.find_some in Ef as [Hin _].
    pose proof (wi_rewards _ Hb) as Hw. rewrite List.Forall_forall in Hw. apply (Hw _ Hin). }
  clearbody req. apply wf_with_pending.
  - destruct HL1. constructor; try done; cbn; [by apply map_Forall_delete|].
    intros rh' H. apply lookup_delete_None. right. auto.
  - apply map_Forall_insert_2; [|apply HL1]. destruct (pr_audit req) as [a|] eqn:Ea; [done|].
    destruct Hreq. constructor; try done; cbn; [by apply push_news_NoDup|congruence].
  - cbn. intros rh' [<-|[_ H]]%lookup_insert_is_Some; [apply lookup_delete_eq|].
    apply lookup_delete_None. right. by apply (wl_disjoint _ HL1).
Qed.

(** [retain] with a horizon. *)
Lemma retain_horizon {E V} (daa_of : V -> Z) (horizon daa : Z) (m : gmap Z V) :
  map_Forall (fun _ v => daa_ok (daa_of v)) m -> 0 <= horizon <= DAA_ROOM ->
  btree_retain (E := E) (fun _ v => e ← add_ 64 (daa_of v) horizon; Ok (daa <? e)) m =
  Ok (filter (fun kv => (daa <? daa_of kv.2 + horizon) = true) m).
Proof.
  intros Hm Hh. apply (retain_filter _ (fun _ v => daa <? daa_of v + horizon)). intros k v Hk.
  specialize (Hm k v Hk). cbn in Hm. by rewrite add_ok by daa_lia.
Qed.

Lemma fold_requests_wf {E} b L : wf_input b -> wf_ledger L -> exists L', fold_requests (E := E) L b = Ok L' /\ wf_ledger L'.
Proof.
  intros Hb HL. unfold fold_requests.
  rewrite (retain_horizon pr_accepted_daa); [run|eapply map_Forall_impl; [apply HL|]; by intros ? ? []|daa_lia].
  rewrite (retain_horizon fst); [run|eapply map_Forall_impl; [apply HL|]; by intros ? ? []|daa_lia].
  set (L1 := with_early_responses _ _). assert (wf_ledger L1) as HL1.
  { destruct HL. constructor; try done; cbn; [by apply map_Forall_keep..|]. intros rh [r Hr]. apply map_lookup_filter_Some in Hr as [Hr _].
    apply map_lookup_filter_None. left. eauto. }
  clearbody L1. set (g := match l_reward_routing_daa _ with Some a => _ | None => _ end). clearbody g.
  assert (exists L2, (if g then audited ← btree_retain (E := E) (fun _ seen => e ← add_ 64 seen SERVICE_AUDITED_MEMORY_DAA; Ok (fi_daa b <? e)) (l_audited L1);
            Ok (with_audited L1 audited) else Ok L1) = Ok L2 /\ wf_ledger L2) as (L2 & -> & HL2).
  { destruct g; [|eauto]. rewrite (retain_horizon (fun x => x)); [run|apply HL1|daa_lia]. eexists. split; [done|].
    destruct HL1. constructor; try done; cbn. by apply map_Forall_keep. }
  run. eexists. split; [done|]. apply foldl_pres; [|done]. intros L' r Hr. apply fold_request_wf; [done|].
  pose proof (wi_requests _ Hb) as Hq. rewrite Forall_forall in Hq. by apply (Hq r).
Qed.

Lemma expire_claims_total {E} burnable daa claims :
  0 <= burnable <= DAA_ROOM -> Forall (fun c => daa_ok (ec_daa c)) claims ->
  exists pr, expire_claims (E := E) burnable daa claims = Ok pr.
Proof.
  intros Hb. induction 1 as [|c claims Hc _ [[p r] IH]]; cbn; [eauto|]. rewrite add_ok by daa_lia. run.
  destruct (_ <=? _); [rewrite IH; run|]; eauto.
Qed.

Lemma expire_vault_wf {E} burnable daa V :
  0 <= burnable <= DAA_ROOM -> map_Forall (fun _ => wf_claims) V ->
  exists V' expired, expire_vault (E := E) burnable daa V = Ok (V', expired) /\ map_Forall (fun _ => wf_claims) V'.
Proof.
  intros Hb HV. assert (exists st, expire_vault (E := E) burnable daa V = Ok st) as [[V' expired] HE].
  { unfold expire_vault. match goal with |- context [foldM ?f ?s ?l] => destruct (foldM_pres (fun _ => True) f s l) as ([V1 ex] & -> & _) end;
      [|done|run; eauto].
    intros [V1 ex] [m cs] Hin _. apply elem_of_iter, HV in Hin as [_ Hcs].
    destruct (expire_claims_total (E := E) burnable daa cs Hb Hcs) as [[p r] ->]. run. eauto. }
  exists V', expired. split; [done|]. apply expire_vault_split in HE as [Hd Hn]. eapply wf_vault_sub; [done..|].
  intros m. rewrite (Hd m). set_solver.
Qed.

Lemma fold_escrow_wf b st e :
  daa_ok (ec_daa e.2) -> wf_ledger st.1 -> wf_ledger (fold_escrow b st e).1.
Proof.
  destruct st as [L si], e as [m c]. cbn [fst snd]. intros Hc HL. unfold fold_escrow.
  destruct (if _ && _ && _ then (with_first_seen _ _, _) else (L, si)) as [L1 si1] eqn:E1.
  assert (wf_ledger L1) as HL1. { destruct (_ && _); injection E1 as <- _; [by destruct HL|done]. }
  destruct (match fi_warmup_burned b with Some _ => _ | None => _ end); [done|]. cbn [fst]. apply wf_with_vault; [done|].
  apply map_Forall_insert_2; [|apply HL1]. split; [by intros [_ ?]%app_eq_nil|]. apply Forall_app. split; [|by apply Forall_singleton].
  destruct (l_vault L1 !! m) as [cs|] eqn:Ecs; [apply (wl_vault _ HL1 m cs Ecs)|constructor].
Qed.

Lemma fold_escrows_wf {E} b L : wf_input b -> wf_ledger L -> exists st, fold_escrows (E := E) L b = Ok st /\ wf_state st.
Proof.
  intros Hb HL. unfold fold_escrows. set (L0 := with_producer_spk _ _). assert (wf_ledger L0) as HL0 by (by destruct HL).
  clearbody L0. assert (wf_ledger (foldl (fold_escrow b) (L0, []) (fi_escrows b)).1) as HL1.
  { apply (foldl_pres (fun s => wf_ledger s.1)); [|done]. intros s e He. apply fold_escrow_wf.
    pose proof (wi_escrows _ Hb) as Hw. rewrite Forall_forall in Hw. by apply (Hw e). }
  destruct (foldl _ _ _) as [L1 si]. cbn [fst] in HL1.
  destruct (expire_vault_wf (E := E) (default SERVICE_BURNABLE_WINDOW_DAA (l_burnable_window_daa L1)) (fi_daa b) (l_vault L1))
    as (V & ex & -> & HV); [apply HL1..|].
  run. eexists. split; [done|]. split; [by apply wf_with_vault|constructor].
Qed.

Lemma fold_inner_wf {E} L b :
  wf_ledger L -> wf_input b ->
  exists L' o, fold_inner (E := E) L b = Ok (L', o) /\ wf_ledger L' /\ Forall wf_miss (fo_misses o) /\
    (size (l_early_responses L') <= MAX_EARLY_RESPONSE_HASHES)%nat.
Proof.
  intros HL Hb. unfold fold_inner. destruct (fold_escrows_wf (E := E) b L) as ([L0 o0] & -> & HL0 & Ho0); [done..|]. run.
  destruct (fold_requests_wf (E := E) b L0) as (L1 & -> & HL1); [done..|]. run.
  destruct (fold_responses_wf (E := E) b (L1, o0)) as (st & -> & Hst & Hsz); [done..|]. run.
  destruct (fold_audits_wf (E := E) b st) as ([L' o'] & Ha & HL' & Ho'); [done..|]. exists L', o'. repeat (split; [done|]).
  apply (fold_audits_frame l_early_responses) in Ha; [|done..]. cbn [fst] in Ha. by rewrite Ha.
Qed.

Lemma fold_keeps_wf {E} L b L' o : wf_ledger L -> wf_input b -> fold_inner (E := E) L b = Ok (L', o) -> wf_ledger L'.
Proof. intros HL Hb H. destruct (fold_inner_wf (E := E) L b HL Hb) as (L1 & o1 & H1 & ? & _). by assert (L1 = L') as <- by congruence. Qed.

(** The example chain is well formed. *)
Lemma ex_block_wf daa requests responses escrows :
  daa_ok daa -> Forall (fun r => in_u 8 r.1.2 /\ in_u 32 r.2) requests -> Forall (fun e => daa_ok (ec_daa e.2)) escrows ->
  wf_input (ex_block daa requests responses escrows).
Proof. intros Hd Hr He. constructor; cbn; try done. by repeat constructor. Qed.

Ltac ex_wf := apply ex_block_wf; [split; (reflexivity || done)|by repeat constructor|by repeat constructor].

Lemma ex_b1_wf : wf_input ex_b1. Proof. ex_wf. Qed.
Lemma ex_b2_wf : wf_input ex_b2. Proof. ex_wf. Qed.
Lemma ex_b3_wf : wf_input ex_b3. Proof. ex_wf. Qed.
Lemma ex_b4_wf : wf_input ex_b4. Proof. ex_wf. Qed.

Lemma ex_l0_wf : wf_ledger ex_l0.
Proof. constructor; cbn; try apply map_Forall_empty; [by intros rh|unfold DAA_ROOM; lia]. Qed.

Lemma ex_fold_wf L b : wf_ledger L -> wf_input b -> wf_ledger (ex_fold L b).1.
Proof. intros HL Hb. unfold ex_fold. destruct (fold_inner_wf (E := ()) L b HL Hb) as (L' & o & -> & HL' & _). exact HL'. Qed.

Lemma ex_l2_wf : wf_ledger ex_l2.
Proof. unfold ex_l2. cbn [foldl]. apply ex_fold_wf, ex_b2_wf. apply ex_fold_wf, ex_b1_wf. apply ex_l0_wf. Qed.

Lemma ex_l3_wf : wf_ledger ex_l3.
Proof. apply ex_fold_wf, ex_b3_wf. apply ex_l2_wf. Qed.

(** C19: the type invariant of the service ledger.  A fold of a well-formed
    ledger over any typed input returns - it neither panics on an overflow nor
    runs out of the eviction loop's fuel - and leaves a well-formed ledger:
    deques are never empty, cohorts are sorted and made of exactly the delegated
    identities, responders belong to their cohort once, a winner is a responder,
    a parked answer never coexists with its pending request, strike counters
    stay below three, and the parked answers stay below their cap.  Every miss
    it reports counts from one to three, and suspends exactly at three. *)
Theorem fold_preserves_wf {E} L b :
  wf_ledger L -> wf_input b ->
  exists L' o, fold_inner (E := E) L b = Ok (L', o) /\ wf_ledger L' /\ Forall wf_miss (fo_misses o) /\
    (size (l_early_responses L') <= MAX_EARLY_RESPONSE_HASHES)%nat.
Proof. apply fold_inner_wf. Qed.

Lemma fold_preserves_wf_witness :
  exists L' o, fold_inner (E := ()) ex_l3 ex_b4 = Ok (L', o) /\ wf_ledger L' /\ Forall wf_miss (fo_misses o) /\
    (size (l_early_responses L') <= MAX_EARLY_RESPONSE_HASHES)%nat.
Proof. apply fold_preserves_wf; [apply ex_l3_wf|apply ex_b4_wf]. Defined.
