(* ===== verification/LedgerAudit.v ===== *)
(** * Who is struck

    The misses a fold reports, characterised by the ledger before the block and
    the block's responses alone: a cohort member is struck for a request exactly
    when the request's window closed in silence, up to the rate limit. *)
From S2P Require Import Prelude Tx Slice BTree Ledger LedgerSteps LedgerUndo LedgerInv.
From stdpp Require Import base gmap list.
#[local] Open Scope Z_scope.

(** ** The audit of a request *)
Definition audit_of (P : gmap Hash PendingRequest) (rh : Hash) : option Audit := P !! rh ≫= pr_audit.

(** The keys that answered [rh] in a block, in order. *)
Definition answers (rh : Hash) (responses : list (Hash * option Hash)) : list Hash :=
  omap (fun hr => if decide (hr.1 = rh) then hr.2 else None) responses.

(** An audit with the delegators of the answering keys credited. *)
Definition respond (keys : list Hash) (a : Audit) : Audit :=
  mkAudit (au_cohort a) (au_delegations a)
    (au_responded a ++ newly (au_cohort a) (au_responded a) (keys ≫= delegators (au_delegations a))) (au_window_end_daa a).

#[global] Arguments respond : simpl never.

Lemma newly_app cohort responded l1 l2 :
  newly cohort responded (l1 ++ l2) = newly cohort responded l1 ++ newly cohort (responded ++ newly cohort responded l1) l2.
Proof.
  revert responded. induction l1 as [|x l1 IH]; intros responded; cbn; [by rewrite app_nil_r|].
  case_bool_decide; rewrite IH; [|done]. cbn. by rewrite <-app_assoc.
Qed.

Lemma respond_nil a : respond [] a = a.
Proof. destruct a. unfold respond. cbn. by rewrite app_nil_r. Qed.

Lemma respond_app k1 k2 a : respond (k1 ++ k2) a = respond k2 (respond k1 a).
Proof. unfold respond. cbn. by rewrite bind_app, newly_app, !app_assoc. Qed.

Lemma elem_of_respond keys a id :
  wf_audit a -> id ∈ au_responded (respond keys a) <->
  id ∈ au_responded a \/ exists key, key ∈ keys /\ (key, id) ∈ au_delegations a.
Proof.
  intros Ha. unfold respond. cbn. rewrite elem_of_app, elem_of_newly, list_elem_of_bind. split.
  - intros [H|[(key & Hid & Hkey) _]]; [by left|]. rewrite elem_of_delegators in Hid. eauto.
  - intros [H|(key & Hkey & Hid)]; [by left|]. destruct (decide (id ∈ au_responded a)); [by left|]. right. split; [|split; [|done]].
    + exists key. by rewrite elem_of_delegators.
    + apply (wa_delegated _ Ha). eauto.
Qed.

Lemma elem_of_answers rh key responses : key ∈ answers rh responses <-> (rh, Some key) ∈ responses.
Proof.
  unfold answers. rewrite list_elem_of_omap. split.
  - intros ([h r] & Hin & H). cbn in H. destruct (decide (h = rh)) as [->|]; [|done]. by subst.
  - intros H. eexists. split; [done|]. cbn. by rewrite decide_True.
Qed.

(** ** The audits through the phases *)
Lemma maybe_award_audit w L o rh id rh' : audit_of (l_pending (maybe_award w (L, o) rh id).1) rh' = audit_of (l_pending L) rh'.
Proof.
  destruct (maybe_award_cases w L o rh id) as [[-> _]|(req & (Hreq & _) & ->)]; [done|]. unfold audit_of. cbn.
  destruct (decide (rh' = rh)) as [->|]; [by rewrite lookup_insert_eq, Hreq|by rewrite lookup_insert_ne].
Qed.

Lemma award_first_audit w L o rh ids rh' : audit_of (l_pending (award_first w (L, o) rh ids).1) rh' = audit_of (l_pending L) rh'.
Proof. destruct ids; [done|]. apply maybe_award_audit. Qed.

Lemma audit_of_insert P rh req rh' :
  audit_of (<[rh := req]> P) rh' = if decide (rh' = rh) then pr_audit req else audit_of P rh'.
Proof.
  unfold audit_of. destruct (decide (rh' = rh)) as [->|]; [by rewrite lookup_insert_eq|by rewrite lookup_insert_ne].
Qed.

(** What admission makes of the requests: those of the horizon continue, with
    more parked answers at most; the others leave, or come in fresh. *)
Definition continues (r r' : PendingRequest) : Prop :=
  r' = with_early_responders r (pr_early_responders r') /\ pr_early_responders r ⊆ pr_early_responders r'.

Definition fresh (b : FoldInput) (rh : Hash) (r : PendingRequest) : Prop :=
  pr_accepted_daa r = fi_daa b /\ pr_winner r = None /\ pr_audit r = None /\
  exists mt, (rh, pr_tier r, mt) ∈ fi_requests b.

Definition admits (b : FoldInput) (rh : Hash) (o o' : option PendingRequest) : Prop :=
  match o with
  | Some r => exists r', o' = Some r' /\ continues r r'
  | None => o' = None \/ exists r', o' = Some r' /\ fresh b rh r'
  end.

#[export] Instance continues_preorder : PreOrder continues.
Proof.
  split.
  - intros r. split; [by destruct r|done].
  - intros r1 r2 r3 [E1 S1] [E2 S2]. split; [|by etrans]. rewrite E2 at 1. rewrite E1. done.
Qed.

Lemma fresh_continues b rh r r' : fresh b rh r -> continues r r' -> fresh b rh r'.
Proof. intros Hf [-> _]. exact Hf. Qed.

#[export] Instance admits_preorder b rh : PreOrder (admits b rh).
Proof.
  split; [intros [r|]; [by exists r|by left]|]. intros [r1|] o2 o3 H1 H2.
  - destruct H1 as (r2 & -> & C1), H2 as (r3 & -> & C2). eexists. split; [done|]. by etrans.
  - destruct H1 as [->|(r2 & -> & F2)]; [exact H2|]. destruct H2 as (r3 & -> & C3). right. eexists. split; [done|]. by eapply fresh_continues.
Qed.

Lemma push_news_sub l xs : l ⊆ foldl push_new l xs.
Proof.
  apply (foldl_pres (fun l' => l ⊆ l')); [|done]. intros l' x _ Hl'. unfold push_new. case_bool_decide; set_solver.
Qed.

Lemma fold_request_admits b g L r rh : r ∈ fi_requests b -> admits b rh (l_pending L !! rh) (l_pending (fold_request b g L r) !! rh).
Proof.
  intros Hr. destruct r as [[rh' tier] mt]. unfold fold_request. destruct (g && _); [done|].
  set (L1 := if g then _ else L). assert (l_pending L1 = l_pending L) as Hp by (by destruct g). clearbody L1.
  cbn [l_pending with_pending with_early_responses]. rewrite Hp.
  destruct (decide (rh = rh')) as [->|]; [rewrite lookup_insert_eq|by rewrite lookup_insert_ne].
  destruct (l_pending L !! rh') as [req|]; cbn.
  - eexists. split; [done|]. destruct (pr_audit req) eqn:Ea; [done|]. split; [done|]. apply push_news_sub.
  - right. eexists. split; [done|]. split; [done|]. split; [done|]. split; [done|]. eauto.
Qed.

Lemma fold_requests_admits {E} b L L' rh :
  wf_ledger L -> fold_requests (E := E) L b = Ok L' ->
  admits b rh (req ← l_pending L !! rh; guard (fi_daa b < pr_accepted_daa req + SERVICE_LEDGER_HORIZON_DAA);; Some req) (l_pending L' !! rh).
Proof.
  intros HL H. unfold fold_requests in H.
  rewrite (retain_horizon pr_accepted_daa) in H; [|eapply map_Forall_impl; [apply HL|]; by intros ? ? []|daa_lia].
  apply bind_Ok in H as (p & [= <-] & H). apply bind_Ok in H as (early & _ & H). apply bind_Ok in H as (L2 & HL2 & H).
  injection H as <-. transitivity (l_pending L2 !! rh).
  - match type of HL2 with (if ?g then _ else _) = _ => assert (l_pending L2 =
      filter (fun kv => (fi_daa b <? pr_accepted_daa kv.2 + SERVICE_LEDGER_HORIZON_DAA) = true) (l_pending L)) as -> by
      (destruct g; [inv_ok HL2|injection HL2 as <-]; done) end.
    rewrite map_lookup_filter. destruct (l_pending L !! rh) as [req|]; [|by left]. cbn.
    destruct (decide (fi_daa b < pr_accepted_daa req + SERVICE_LEDGER_HORIZON_DAA)).
    + rewrite !option_guard_True by lia. by eexists.
    + rewrite !option_guard_False by lia. by left.
  - apply (foldl_pres (fun L' => admits b rh (l_pending L2 !! rh) (l_pending L' !! rh))); [|done].
    intros L' r Hr IH. etrans; [exact IH|]. by apply fold_request_admits.
Qed.

(** Admission keeps the audits of the horizon and arms none. *)
Lemma fold_requests_audit {E} b L L' :
  wf_ledger L -> fold_requests (E := E) L b = Ok L' ->
  forall rh a, audit_of (l_pending L') rh = Some a <->
    exists req, l_pending L !! rh = Some req /\ pr_audit req = Some a /\ fi_daa b < pr_accepted_daa req + SERVICE_LEDGER_HORIZON_DAA.
Proof.
  intros HL H rh a. pose proof (fold_requests_admits b L L' rh HL H) as Ha. unfold audit_of.
  assert ((l_pending L' !! rh = None \/ exists r', l_pending L' !! rh = Some r' /\ fresh b rh r') -> l_pending L' !! rh ≫= pr_audit = Some a -> False) as Hno.
  { intros [->|(r' & -> & (_ & _ & Hn & _))]; cbn; congruence. }
  destruct (l_pending L !! rh) as [req|]; cbn in Ha.
  2:{ split; [intros; by destruct Hno|]. by intros (? & ? & _). }
  destruct (decide (fi_daa b < pr_accepted_daa req + SERVICE_LEDGER_HORIZON_DAA)) as [Hd|Hd].
  - rewrite option_guard_True in Ha by done. destruct Ha as (r' & -> & [-> _]). cbn. split; [by eauto|].
    by intros (? & [= <-] & ? & _).
  - rewrite option_guard_False in Ha by done. split; [intros; by destruct Hno|]. by intros (? & [= <-] & _ & ?).
Qed.

(** The responses credit the delegators of the answering keys. *)
Lemma fold_response_audit {E} b st r st' :
  wf_state st -> fold_response (E := E) b st r = Ok st' ->
  forall rh, audit_of (l_pending st'.1) rh = respond (answers rh [r]) <$> audit_of (l_pending st.1) rh.
Proof.
  destruct st as [L o], r as [rh' [r|]]; intros [HL _] H rh.
  2:{ injection H as <-. assert (answers rh [(rh', None)] = []) as -> by (unfold answers; cbn; by destruct (decide (rh' = rh))).
      cbn [fst]. destruct (audit_of _ _); cbn; [by rewrite respond_nil|done]. }
  assert (rh' <> rh -> audit_of (l_pending L) rh = respond (answers rh [(rh', Some r)]) <$> audit_of (l_pending L) rh) as Hother.
  { intros Hne. assert (answers rh [(rh', Some r)] = []) as -> by (unfold answers; cbn; by rewrite decide_False).
    destruct (audit_of _ _); cbn; [by rewrite respond_nil|done]. }
  assert (answers rh' [(rh', Some r)] = [r]) as Hsame by (unfold answers; cbn; by rewrite decide_True).
  apply fold_response_cases in H. destruct (l_pending L !! rh') as [req|] eqn:Hreq.
  2:{ cbn zeta in H. subst st'. cbn [fst l_pending with_early_responses]. destruct (decide (rh' = rh)) as [->|]; [|auto]. unfold audit_of. by rewrite Hreq. }
  destruct (pr_audit req) as [a|] eqn:Ha.
  2:{ subst st'. cbn [fst l_pending with_pending]. rewrite audit_of_insert. destruct (decide (rh = rh')) as [->|]; [|by apply Hother].
      unfold audit_of. rewrite Hreq. cbn. by rewrite Ha. }
  pose proof (wr_audit _ (wl_pending _ HL _ _ Hreq) a Ha) as [Hwa _].
  destruct H as (responded & served & Hc & ->). rewrite credit_ok in Hc by apply Hwa. injection Hc as <- <-.
  rewrite (reset_streaks_frame (fun L => audit_of (l_pending L) rh)), award_first_audit by done.
  cbn [fst l_pending with_pending]. rewrite audit_of_insert.
  destruct (decide (rh = rh')) as [->|]; [|by apply Hother]. rewrite Hsame. unfold audit_of. rewrite Hreq. cbn. rewrite Ha. cbn.
  f_equal. unfold respond. cbn. by rewrite app_nil_r.
Qed.

Lemma fold_responses_audit {E} b st st' :
  wf_input b -> wf_state st -> fold_responses (E := E) st b = Ok st' ->
  forall rh, audit_of (l_pending st'.1) rh = respond (answers rh (fi_responses b)) <$> audit_of (l_pending st.1) rh.
Proof.
  intros Hb Hst H rh. unfold fold_responses in H. apply bind_Ok in H as ([L1 o1] & HF & H). apply bind_Ok in H as (e & _ & H).
  injection H as <-. cbn.
  refine (proj2 (foldM_invariant _ (fun done s => wf_state s /\
    audit_of (l_pending s.1) rh = respond (answers rh done) <$> audit_of (l_pending st.1) rh) _ _ _ _ _ HF)).
  - split; [done|]. destruct (audit_of _ _); cbn; [by rewrite respond_nil|done].
  - intros pre r post s s' _ [Hs IH] Hstep. split; [by eapply fold_response_keeps|].
    rewrite (fold_response_audit _ _ _ _ Hs Hstep), IH. unfold answers. rewrite omap_app.
    destruct (audit_of (l_pending st.1) rh); cbn; [|done]. by rewrite respond_app.
Qed.

(** ** The strikes of a closing audit *)
Definition struck (o : FoldOutcome) (m : Hash) : Prop := exists x, x ∈ fo_misses o /\ sm_miner x = m.

(** What a series of strikes for [rh] on [miners] does: it reports misses of
    these miners only, leaves each of them under the rate limit, and puts nobody
    else there. *)
Record strikes_spec (rh daa : Z) (miners : list Hash) (st st' : ServiceLedger * FoldOutcome) : Prop := {
  ss_new : forall x, x ∈ fo_misses st'.2 -> x ∈ fo_misses st.2 \/ (sm_request_hash x = rh /\ sm_miner x ∈ miners);
  ss_old : fo_misses st.2 ⊆ fo_misses st'.2;
  ss_limit : forall m, limited st.1 daa m \/ m ∈ miners -> limited st'.1 daa m;
  ss_only : forall m, limited st'.1 daa m -> limited st.1 daa m \/ struck st'.2 m;
}.

Lemma strike_spec {E} b rh st miner st' :
  warmup b = false -> 0 < fi_daa b -> strike (E := E) b rh st miner = Ok st' -> strikes_spec rh (fi_daa b) [miner] st st'.
Proof.
  destruct st as [L o], st' as [L' o']. intros Hw Hd H.
  apply strike_cases in H as [(-> & -> & [?|Hl])|(_ & Hl & V & burned & _ & _ & _ & -> & ->)]; [congruence|..].
  - split; [by left|done| |by left]. intros m [H| ->%list_elem_of_singleton]; done.
  - set (e := mkStrike _ (fi_daa b)). set (x := mkMiss _ _ _ _ _).
    assert (forall m, limited (with_strikes (with_vault L V) (<[miner:=e]> (l_strikes L))) (fi_daa b) m <->
              m = miner \/ limited L (fi_daa b) m) as Hlim.
    { intros m. unfold limited, strike_state. cbn. destruct (decide (m = miner)) as [->|Hne].
      - rewrite lookup_insert_eq. split; [auto|]. intros _. exists e. cbn. unfold SERVICE_STRIKE_INTERVAL_DAA. split; [done|lia].
      - rewrite lookup_insert_ne by done. naive_solver. }
    split; cbn.
    + intros y [Hy| ->%list_elem_of_singleton]%elem_of_app; [by left|]. right. cbn. set_solver.
    + set_solver.
    + intros m. rewrite Hlim, list_elem_of_singleton. tauto.
    + intros m [->|Hm]%Hlim; [|by left]. right. exists x. cbn. set_solver.
Qed.

Lemma strikes_specs {E} b rh st miners st' :
  warmup b = false -> 0 < fi_daa b -> foldM (strike (E := E) b rh) st miners = Ok st' -> strikes_spec rh (fi_daa b) miners st st'.
Proof.
  intros Hw Hd H. refine (foldM_invariant _ (fun done s => strikes_spec rh (fi_daa b) done st s) _ _ _ _ _ H).
  - split; [by left|done| |by left]. intros m [?|?]; [done|set_solver].
  - intros pre m post s s' _ [N1 O1 L1 Y1] Hs. destruct (strike_spec _ _ _ _ _ Hw Hd Hs) as [N2 O2 L2 Y2]. split.
    + intros x [H1|[? ?]]%N2; [|set_solver]. apply N1 in H1. set_solver.
    + set_solver.
    + intros m' [H'|[H'|H']%elem_of_app]; apply L2; auto.
    + intros m' [H'|H']%Y2; [|auto]. apply Y1 in H' as [?|(x & Hx & ?)]; [auto|]. right. exists x. split; [|done]. by apply O2.
Qed.

(** ** The audits of a block *)

(** The members of a closing audit that stayed silent. *)
Definition silent (P : gmap Hash PendingRequest) (daa : Z) (rh m : Hash) : Prop :=
  exists a, audit_of P rh = Some a /\ au_window_end_daa a < daa /\ m ∈ au_cohort a /\ m ∉ au_responded a.

Record audits_spec (P : gmap Hash PendingRequest) (daa : Z) (closed : list Hash) (st st' : ServiceLedger * FoldOutcome) : Prop := {
  as_new : forall x, x ∈ fo_misses st'.2 -> x ∈ fo_misses st.2 \/ silent P daa (sm_request_hash x) (sm_miner x);
  as_limit : forall rh m, rh ∈ closed -> silent P daa rh m -> limited st'.1 daa m;
  as_keep : forall m, limited st.1 daa m -> limited st'.1 daa m;
  as_only : forall m, limited st'.1 daa m -> limited st.1 daa m \/ struck st'.2 m;
  as_rest : forall rh, rh ∉ closed -> l_pending st'.1 !! rh = P !! rh;
}.

Lemma award_first_limited w st rh ids daa m : limited (award_first w st rh ids).1 daa m <-> limited st.1 daa m.
Proof.
  unfold limited. by rewrite (award_first_frame (fun L => strike_state L m)).
Qed.

Lemma award_first_misses w st rh ids : fo_misses (award_first w st rh ids).2 = fo_misses st.2.
Proof.
  destruct ids as [|id ids]; [done|]. destruct st as [L o]. unfold award_first.
  destruct (maybe_award_cases w L o rh id) as [[-> _]|(req & _ & ->)]; [done|]. by destruct w.
Qed.

Lemma fold_pending_spec {E} b st0 P closed st rh st' :
  warmup b = false -> 0 < fi_daa b -> rh ∉ closed ->
  audits_spec P (fi_daa b) closed st0 st.1 -> fold_pending (E := E) b st rh = Ok st' ->
  audits_spec P (fi_daa b) (closed ++ [rh]) st0 st'.1.
Proof.
  intros Hw Hd Hrh [N1 L1 K1 Y1 R1] H.
  assert (forall rh', rh' ∉ closed ++ [rh] -> l_pending st'.1.1 !! rh' = P !! rh') as Hrest.
  { intros rh' Hn. rewrite (fold_pending_other _ _ _ _ rh' H) by set_solver. apply R1. set_solver. }
  destruct st as [[L o] served]. cbn [fst] in *. apply fold_pending_cases in H as (req & Hreq & H).
  assert (audit_of P rh = pr_audit req) as Haud. { unfold audit_of. by rewrite <-R1, Hreq. }
  assert ((forall m, ~ silent P (fi_daa b) rh m) -> (forall m, limited st'.1.1 (fi_daa b) m <-> limited L (fi_daa b) m) ->
    fo_misses st'.1.2 = fo_misses o -> audits_spec P (fi_daa b) (closed ++ [rh]) st0 st'.1) as Hquiet.
  { intros Hs Hl Hm. split; [by rewrite Hm| | | |done].
    - intros rh' m [H'| ->%list_elem_of_singleton]%elem_of_app Hsil; [|by apply Hs in Hsil]. rewrite Hl. by eapply L1.
    - intros m. rewrite Hl. auto.
    - intros m. rewrite Hl. unfold struck. rewrite Hm. apply Y1. }
  destruct (pr_audit req) as [a|].
  - destruct H as [[Hin ->]|(Hout & L2 & o2 & HF & ->)].
    + apply Hquiet; [|done..]. intros m (a' & Ha' & Hend & _). assert (a' = a) as -> by congruence. lia.
    + clear Hquiet. apply strikes_specs in HF as [N2 O2 L2' Y2]; [|done..]. cbn [fst snd] in *. split; [| | | |done]; cbn [fst snd].
      * intros x [Hx|[Hr Hm]]%N2; [by apply N1|]. right. rewrite Hr. apply list_elem_of_filter in Hm as [? ?]. by exists a.
      * intros rh' m Hin Hsil. apply L2'. apply elem_of_app in Hin as [Hin| ->%list_elem_of_singleton]; [left; by eapply L1|].
        right. destruct Hsil as (a' & Ha' & _ & ? & ?). assert (a' = a) as -> by congruence. by apply list_elem_of_filter.
      * intros m Hm. apply L2'. left. by apply K1.
      * intros m [Hm|?]%Y2; [|by right]. apply Y1 in Hm as [?|(x & Hx & ?)]; [by left|]. right. exists x. split; [by apply O2|done].
  - apply Hquiet.
    + intros m (a & Ha & _). congruence.
    + intros m. destruct H as [[_ ->]|[(_ & _ & ->)|(_ & responded & served' & _ & _ & _ & ->)]]; [done..|].
      cbn [fst]. by rewrite award_first_limited.
    + destruct H as [[_ ->]|[(_ & _ & ->)|(_ & responded & served' & _ & _ & _ & ->)]]; [done..|].
      cbn [fst]. by rewrite award_first_misses.
Qed.

(** ** Streak resets *)

(** A reset never arms the rate limit. *)
Lemma reset_streaks_limited w daa st ids m : limited (foldl (reset_streak w daa) st ids).1 daa m -> limited st.1 daa m.
Proof.
  apply (foldl_pres (fun s => limited s.1 daa m -> limited st.1 daa m)); [|done]. intros [L o] id _ IH.
  destruct (reset_streak_cases w daa L o id) as [[-> _]|(_ & e & He & _ & ->)]; [done|]. intros H. apply IH. revert H.
  unfold limited, strike_state in *. cbn in *. destruct (decide (m = id)) as [->|]; [|by rewrite lookup_insert_ne].
  rewrite lookup_insert_eq, He. intros (e' & [= <-] & Hp & Hl). exists e. cbn in *. destruct (v2_at L daa); [done|lia].
Qed.

Lemma reset_streaks_misses w daa st ids : fo_misses (foldl (reset_streak w daa) st ids).2 = fo_misses st.2.
Proof.
  apply (foldl_pres (fun s => fo_misses s.2 = fo_misses st.2)); [|done]. intros [L o] id _ IH.
  destruct (reset_streak_cases w daa L o id) as [[-> _]|(_ & e & _ & _ & ->)]; done.
Qed.

Lemma fold_responses_quiet {E} b st st' :
  fold_responses (E := E) st b = Ok st' ->
  fo_misses st'.2 = fo_misses st.2 /\ forall m, limited st'.1 (fi_daa b) m -> limited st.1 (fi_daa b) m.
Proof.
  unfold fold_responses. intros H. apply bind_Ok in H as ([L1 o1] & HF & H). apply bind_Ok in H as (e & _ & H). injection H as <-.
  refine (foldM_invariant _ (fun _ s => fo_misses s.2 = fo_misses st.2 /\ forall m, limited s.1 (fi_daa b) m -> limited st.1 (fi_daa b) m)
    _ _ _ (conj eq_refl (fun _ H => H)) _ HF).
  intros pre r post [L o] s' _ [IH1 IH2] Hs. destruct r as [rh [r|]]; [|by injection Hs as <-]. apply fold_response_cases in Hs.
  destruct (l_pending L !! rh) as [req|]; [|cbn zeta in Hs; by subst]. destruct (pr_audit req) as [a|]; [|by subst].
  destruct Hs as (responded & served & _ & ->). rewrite reset_streaks_misses, award_first_misses. split; [done|].
  intros m Hm%reset_streaks_limited. rewrite award_first_limited in Hm. by apply IH2.
Qed.

Lemma fold_audits_spec {E} b st st' :
  warmup b = false -> 0 < fi_daa b -> fold_audits (E := E) st b = Ok st' ->
  (forall x, x ∈ fo_misses st'.2 -> x ∈ fo_misses st.2 \/ silent (l_pending st.1) (fi_daa b) (sm_request_hash x) (sm_miner x)) /\
  (forall rh m, silent (l_pending st.1) (fi_daa b) rh m -> limited st.1 (fi_daa b) m \/ struck st'.2 m).
Proof.
  intros Hw Hd H. unfold fold_audits in H. apply bind_Ok in H as ([st1 served] & HF & H). injection H as <-.
  assert (audits_spec (l_pending st.1) (fi_daa b) (btree_keys (l_pending st.1)) st st1) as [N L K Y _].
  { pose proof (NoDup_keys (l_pending st.1)) as Hnd.
    refine (foldM_invariant _ (fun closed s => audits_spec (l_pending st.1) (fi_daa b) closed st s.1) _ _ _ _ _ HF).
    - split; [by left|set_solver|done|by left|done].
    - intros pre rh post s s' Ek IH Hs. eapply fold_pending_spec; [done..| |exact IH|exact Hs].
      rewrite Ek in Hnd. apply NoDup_app in Hnd. set_solver. }
  unfold struck. rewrite reset_streaks_misses. split; [done|]. intros rh m Hs. apply Y. eapply L; [|done].
  apply elem_of_keys. destruct Hs as (a & Ha & _). unfold audit_of in Ha. destruct (l_pending st.1 !! rh); [eauto|done].
Qed.

(** ** The misses of a block *)

(** The window of [rh] closed with no answer of [m]: neither in an earlier
    block nor in this one, by any key it delegated to. *)
Definition unanswered (L : ServiceLedger) (b : FoldInput) (rh m : Hash) : Prop :=
  exists req a, l_pending L !! rh = Some req /\ pr_audit req = Some a /\
    fi_daa b < pr_accepted_daa req + SERVICE_LEDGER_HORIZON_DAA /\ au_window_end_daa a < fi_daa b /\
    m ∈ au_cohort a /\ m ∉ au_responded a /\
    forall key, (key, m) ∈ au_delegations a -> (rh, Some key) ∉ fi_responses b.

Lemma silent_unanswered {E} L b L1 o st :
  wf_input b -> wf_ledger L -> Forall wf_miss (fo_misses o) ->
  fold_requests (E := E) L b = Ok L1 -> fold_responses (E := E) (L1, o) b = Ok st ->
  forall rh m, silent (l_pending st.1) (fi_daa b) rh m <-> unanswered L b rh m.
Proof.
  intros Hb HL Ho H1 H2 rh m. destruct (fold_requests_wf (E := E) b L Hb HL) as (L1' & H1' & HL1).
  assert (L1' = L1) as -> by congruence.
  unfold silent. rewrite (fold_responses_audit b (L1, o) st Hb (conj HL1 Ho) H2). cbn [fst].
  assert (forall a, audit_of (l_pending L1) rh = Some a -> wf_audit a) as Hwa.
  { intros a. unfold audit_of. destruct (l_pending L1 !! rh) as [r|] eqn:Er; [|done]. cbn. intros Ha. by apply (wl_pending _ HL1 _ _ Er). }
  split.
  - intros (a' & Ha' & Hend & Hm & Hn). destruct (audit_of (l_pending L1) rh) as [a|] eqn:Ea; [|done]. injection Ha' as <-.
    specialize (Hwa a eq_refl). rewrite (elem_of_respond _ _ _ Hwa) in Hn.
    apply (fold_requests_audit _ _ _ HL H1) in Ea as (req & Hr & Ha & Hh). exists req, a. repeat (split; [done|]).
    split; [naive_solver|]. intros key Hk Hresp. apply Hn. right. exists key. by rewrite elem_of_answers.
  - intros (req & a & Hr & Ha & Hh & Hend & Hm & Hn & Hk).
    assert (audit_of (l_pending L1) rh = Some a) as Ea by (apply (fold_requests_audit _ _ _ HL H1); eauto). rewrite Ea.
    exists (respond (answers rh (fi_responses b)) a). repeat (split; [done|]). rewrite elem_of_respond by auto.
    intros [?|(key & Hkey & Hd)]; [done|]. apply elem_of_answers in Hkey. by apply (Hk key).
Qed.

Lemma misses_unanswered {E} L b L' o :
  wf_ledger L -> wf_input b -> warmup b = false -> 0 < fi_daa b ->
  fold_inner (E := E) L b = Ok (L', o) ->
  (forall x, x ∈ fo_misses o -> unanswered L b (sm_request_hash x) (sm_miner x)) /\
  (forall rh m, unanswered L b rh m -> ~ limited L (fi_daa b) m -> struck o m).
Proof.
  intros HL Hb Hw Hd H. unfold fold_inner in H. destruct (fold_escrows_wf (E := E) b L Hb HL) as ([L0 o0] & H0 & HL0 & _).
  rewrite H0 in H. cbn [mbind outcome_mbind] in H. apply bind_Ok in H as (L1 & H1 & H). apply bind_Ok in H as (st & H2 & H3).
  pose proof (fold_escrows_same _ _ _ _ H0) as (Hp & Hs & Hm0 & _).
  assert (forall rh m, unanswered L0 b rh m <-> unanswered L b rh m) as Hun by (intros; unfold unanswered; by rewrite Hp).
  assert (forall m, limited st.1 (fi_daa b) m -> limited L (fi_daa b) m) as Hl.
  { intros m Hm. apply (fold_responses_quiet _ _ _ H2) in Hm. cbn in Hm. unfold limited in *.
    rewrite (fold_requests_frame (fun L => strike_state L m) _ _ _ H1), Hs in Hm; done. }
  destruct (fold_audits_spec _ _ _ Hw Hd H3) as [N Y]. cbn [snd] in *.
  destruct (fold_responses_quiet _ _ _ H2) as [Hq _]. cbn in Hq. rewrite Hm0 in Hq.
  assert (Forall wf_miss (fo_misses o0)) as Ho by (rewrite Hm0; constructor). split.
  - intros x [Hx|Hx]%N; [rewrite Hq in Hx; set_solver|].
    by apply Hun, (silent_unanswered L0 b L1 o0 st Hb HL0 Ho H1 H2).
  - intros rh m Hu Hnl. apply Hun, (silent_unanswered L0 b L1 o0 st Hb HL0 Ho H1 H2) in Hu. apply Y in Hu as [?|?]; [naive_solver|done].
Qed.

(** C12: who is struck.  A fold strikes [m] for the request [rh] only if [rh]'s
    window closed unanswered by [m]: [m] belongs to the audited cohort, is not
    among the responders recorded before the block, and no key it delegated to
    answers in the block itself - an answer in the closing block still counts.
    Conversely every such silent member is struck by the block, for this
    request or for another one it closes, unless the ledger already held the
    miner under the rate limit. *)
Theorem struck_iff_unanswered {E} L b L' o :
  wf_ledger L -> wf_input b -> warmup b = false -> 0 < fi_daa b ->
  fold_inner (E := E) L b = Ok (L', o) ->
  (forall x, x ∈ fo_misses o -> unanswered L b (sm_request_hash x) (sm_miner x)) /\
  (forall rh m, unanswered L b rh m -> ~ limited L (fi_daa b) m -> struck o m).
Proof. apply misses_unanswered. Qed.

(** The second miner of the example, silent, is struck by the closing block. *)
Lemma struck_iff_unanswered_witness : unanswered ex_l3 ex_b4 7 2 /\ struck (ex_fold ex_l3 ex_b4).2 2.
Proof.
  destruct (struck_iff_unanswered (E := ()) ex_l3 ex_b4 (ex_fold ex_l3 ex_b4).1 (ex_fold ex_l3 ex_b4).2) as [H1 H2].
  - apply ex_l3_wf.
  - apply ex_b4_wf.
  - reflexivity.
  - reflexivity.
  - vm_compute. reflexivity.
  - assert (unanswered ex_l3 ex_b4 7 2) as Hu.
    { apply (H1 (mkMiss 7 2 1 (BurnClaims 5) [ex_claim 51 200])). vm_compute. left. }
    split; [exact Hu|]. apply (H2 7 2 Hu). intros (e & He & _). vm_compute in He. discriminate He.
Defined.
