(* ===== verification/LedgerRuns.v ===== *)
(** * Chains of folded blocks

    What holds of a miner or of a request over any number of folded blocks: the
    strikes of one miner are an interval apart, an answer protects from every
    later strike, and a reward is paid once per admission. *)
From S2P Require Import Prelude Tx Slice BTree Ledger LedgerSteps LedgerUndo LedgerInv LedgerAudit.
From stdpp Require Import base gmap list.
#[local] Open Scope Z_scope.

(** The ledger folded over the blocks of a chain, with the outcome of each. *)
Fixpoint folds {E} (L : ServiceLedger) (bs : list FoldInput) : outcome E (ServiceLedger * list FoldOutcome) :=
  match bs with
  | [] => Ok (L, [])
  | b :: bs => '(L1, o) ← fold_inner L b; '(L2, os) ← folds L1 bs; Ok (L2, o :: os)
  end.

(** The four phases of a fold that returns. *)
Lemma fold_inner_phases {E} L b L' o :
  fold_inner (E := E) L b = Ok (L', o) ->
  exists L0 o0 L1 st, fold_escrows (E := E) L b = Ok (L0, o0) /\ fold_requests (E := E) L0 b = Ok L1 /\
    fold_responses (E := E) (L1, o0) b = Ok st /\ fold_audits (E := E) st b = Ok (L', o).
Proof.
  unfold fold_inner. intros H. apply bind_Ok in H as ([L0 o0] & H0 & H). apply bind_Ok in H as (L1 & H1 & H).
  apply bind_Ok in H as (st & H2 & H3). eauto 10.
Qed.

(** A relation respected by the steps of the responses and of the audits. *)
Section step_relation.
Context {E : Type} (b : FoldInput) (R : ServiceLedger * FoldOutcome -> ServiceLedger * FoldOutcome -> Prop) `{!PreOrder R}.
Context (Hresponse : forall st r st', fold_response (E := E) b st r = Ok st' -> R st st').
Context (Hpending : forall st served rh st' served', fold_pending (E := E) b (st, served) rh = Ok (st', served') -> R st st').
Context (Hreset : forall st id, R st (reset_streak (warmup b) (fi_daa b) st id)).
Context (Hearly : forall L o m, R (L, o) (with_early_responses L m, o)).

Lemma fold_late_rel st st1 st2 :
  fold_responses (E := E) st b = Ok st1 -> fold_audits (E := E) st1 b = Ok st2 -> R st st2.
Proof.
  intros H1 H2. transitivity st1.
  - unfold fold_responses in H1. apply bind_Ok in H1 as ([L1 o1] & HF & H1). apply bind_Ok in H1 as (e & _ & H1). injection H1 as <-.
    etrans; [eapply (foldM_rel R); [|exact HF]; intros s x s' _; apply Hresponse|apply Hearly].
  - unfold fold_audits in H2. apply bind_Ok in H2 as ([st' served] & HF & H2). injection H2 as <-.
    etrans; [|apply (foldl_rel R); intros; apply Hreset].
    refine (foldM_invariant _ (fun _ s => R st1 s.1) _ _ _ _ _ HF); [done|]. intros pre rh post [s sv] [s' sv'] _ IH Hs.
    etrans; [exact IH|]. by eapply Hpending.
Qed.
End step_relation.

(** ** Strikes are an interval apart *)

(** The score of the last strike; zero when there is none. *)
Definition last_strike (L : ServiceLedger) (m : Hash) : Z :=
  match strike_state L m with Some e => se_last_daa e | None => 0 end.

Definition spaced (d d' : Z) : Prop := d <= 0 \/ d + SERVICE_STRIKE_INTERVAL_DAA <= d'.

Definition misses_of (m : Hash) (o : FoldOutcome) : list ServiceMiss := filter (fun x => sm_miner x = m) (fo_misses o).

Lemma limited_spaced L daa m : ~ limited L daa m -> spaced (last_strike L m) daa.
Proof.
  unfold limited, spaced, last_strike. intros Hn. destruct (strike_state L m) as [e|]; [|by left].
  destruct (decide (se_last_daa e <= 0)); [by left|]. right. apply Z.nlt_ge. intros Hlt. apply Hn. exists e. split; [done|lia].
Qed.

(** From one state to another [m] is struck at most once, at a spaced score. *)
Definition struck_once (daa : Z) (m : Hash) (st st' : ServiceLedger * FoldOutcome) : Prop :=
  l_window_v2_activation_daa st'.1 = l_window_v2_activation_daa st.1 /\
  (v2_at st.1 daa = true -> 0 < daa ->
    (misses_of m st'.2 = misses_of m st.2 /\ last_strike st'.1 m = last_strike st.1 m) \/
    (exists x, misses_of m st'.2 = misses_of m st.2 ++ [x] /\ spaced (last_strike st.1 m) daa /\ last_strike st'.1 m = daa)).

Lemma v2_at_same L L' daa : l_window_v2_activation_daa L' = l_window_v2_activation_daa L -> v2_at L' daa = v2_at L daa.
Proof. unfold v2_at. by intros ->. Qed.

#[export] Instance struck_once_preorder daa m : PreOrder (struck_once daa m).
Proof.
  split; [by split; auto|]. intros s1 s2 s3 [V1 H1] [V2 H2]. split; [congruence|]. intros Hv Hd.
  destruct (H1 Hv Hd) as [[E1 L1]|(x & E1 & S1 & L1)]; destruct (H2 ltac:(by rewrite (v2_at_same s1.1 s2.1)) Hd)
    as [[E2 L2]|(y & E2 & S2 & L2)].
  - left. split; congruence.
  - right. exists y. rewrite E2, E1, <-L1. auto.
  - right. exists x. split; [congruence|]. split; [done|congruence].
  - exfalso. rewrite L1 in S2. unfold spaced, SERVICE_STRIKE_INTERVAL_DAA in S2. lia.
Qed.

Lemma struck_once_frame daa m L o L' o' :
  l_window_v2_activation_daa L' = l_window_v2_activation_daa L -> strike_state L' m = strike_state L m ->
  fo_misses o' = fo_misses o -> struck_once daa m (L, o) (L', o').
Proof. intros HV HS HM. split; [done|]. intros _ _. left. unfold misses_of, last_strike. cbn. by rewrite HM, HS. Qed.

Lemma last_strike_set L S m' e m :
  last_strike (with_strikes L (<[m' := e]> S)) m = if decide (m = m') then se_last_daa e else last_strike (with_strikes L S) m.
Proof.
  unfold last_strike, strike_state. cbn. destruct (decide (m = m')) as [->|]; [by rewrite lookup_insert_eq|by rewrite lookup_insert_ne].
Qed.

Lemma strike_struck_once {E} b rh st miner st' m :
  strike (E := E) b rh st miner = Ok st' -> struck_once (fi_daa b) m st st'.
Proof.
  destruct st as [L o], st' as [L' o']. intros H.
  apply strike_cases in H as [(-> & -> & _)|(_ & Hl & V & burned & _ & _ & _ & -> & ->)]; [done|].
  split; [done|]. intros _ _. cbn [fst snd]. unfold misses_of, add_miss. cbn [fo_misses]. rewrite filter_app.
  rewrite last_strike_set. destruct (decide (m = miner)) as [->|Hne].
  - right. eexists. rewrite filter_cons_True by done. split; [done|]. split; [by apply limited_spaced|done].
  - left. rewrite filter_cons_False by (cbn; congruence). by rewrite app_nil_r.
Qed.

Lemma reset_struck_once w daa st id m : struck_once daa m st (reset_streak w daa st id).
Proof.
  destruct st as [L o]. destruct (reset_streak_cases w daa L o id) as [[-> _]|(_ & e & He & _ & ->)]; [done|].
  split; [done|]. intros Hv _. left. cbn in Hv. rewrite Hv. split; [done|]. cbn [fst]. rewrite last_strike_set.
  destruct (decide (m = id)) as [->|]; [|done]. unfold last_strike. by rewrite He.
Qed.

Lemma award_first_struck_once w daa m L L' o rh ids :
  l_window_v2_activation_daa L' = l_window_v2_activation_daa L -> strike_state L' m = strike_state L m ->
  struck_once daa m (L, o) (award_first w (L', o) rh ids).
Proof.
  intros HV HS. pose proof (award_first_frame (fun L => (l_window_v2_activation_daa L, strike_state L m))
    ltac:(done) w (L', o) rh ids) as Hf.
  pose proof (award_first_misses w (L', o) rh ids) as Hm. destruct (award_first _ _ _ _) as [L2 o2]. cbn in *. injection Hf as Hf1 Hf2.
  apply struck_once_frame; congruence.
Qed.

Lemma fold_response_struck_once {E} b m st r st' :
  fold_response (E := E) b st r = Ok st' -> struck_once (fi_daa b) m st st'.
Proof.
  destruct st as [L o], r as [rh [r|]]; [|by intros [= <-]]. intros H. apply fold_response_cases in H.
  destruct (l_pending L !! rh) as [req|]; [|cbn zeta in H; subst; by apply struck_once_frame].
  destruct (pr_audit req) as [a|]; [|subst; by apply struck_once_frame].
  destruct H as (responded & served & _ & ->).
  etrans; [|apply (foldl_rel (struck_once (fi_daa b) m)); intros; apply reset_struck_once]. by apply award_first_struck_once.
Qed.

Lemma fold_pending_struck_once {E} b m st served rh st' served' :
  fold_pending (E := E) b (st, served) rh = Ok (st', served') -> struck_once (fi_daa b) m st st'.
Proof.
  destruct st as [L o]. intros H. apply fold_pending_cases in H as (req & _ & H). destruct (pr_audit req) as [a|].
  - destruct H as [[_ [= -> ->]]|(_ & L1 & o1 & HF & [= -> ->])]; [done|].
    etrans; [eapply (foldM_rel (struck_once (fi_daa b) m)); [|exact HF]; intros s x s' _; apply strike_struck_once|].
    by apply struck_once_frame.
  - destruct H as [[_ [= -> ->]]|[(_ & _ & [= -> ->])|(_ & responded & sv & _ & _ & _ & [= -> ->])]]; [done|by apply struck_once_frame|].
    by apply award_first_struck_once.
Qed.

(** A whole fold strikes [m] at most once, at a score spaced from the last strike. *)
Lemma fold_inner_struck_once {E} L b L' o m :
  fold_inner (E := E) L b = Ok (L', o) -> v2_at L (fi_daa b) = true -> 0 < fi_daa b ->
  l_window_v2_activation_daa L' = l_window_v2_activation_daa L /\
  ((misses_of m o = [] /\ last_strike L' m = last_strike L m) \/
   (exists x, misses_of m o = [x] /\ spaced (last_strike L m) (fi_daa b) /\ last_strike L' m = fi_daa b)).
Proof.
  intros H Hv Hd. apply fold_inner_phases in H as (L0 & o0 & L1 & st & H0 & H1 & H2 & H3).
  pose proof (fold_late_rel b (struck_once (fi_daa b) m) (fold_response_struck_once b m) (fold_pending_struck_once b m)
    ltac:(intros; apply reset_struck_once) ltac:(intros; by apply struck_once_frame) _ _ _ H2 H3) as [HV HR].
  destruct (fold_escrows_same _ _ _ _ H0) as (_ & Hs & Hm & HV0).
  assert (strike_state L1 m = strike_state L m) as Hs1.
  { rewrite <-Hs. by apply (fold_requests_frame (fun L => strike_state L m) _ _ _ H1). }
  assert (l_window_v2_activation_daa L1 = l_window_v2_activation_daa L) as HV1.
  { rewrite <-HV0. by apply (fold_requests_frame l_window_v2_activation_daa _ _ _ H1). }
  cbn [fst snd] in *. split; [congruence|]. rewrite (v2_at_same L L1) in HR by done.
  assert (misses_of m o0 = []) as Hm0 by (unfold misses_of; by rewrite Hm).
  assert (last_strike L1 m = last_strike L m) as Hl by (unfold last_strike; by rewrite Hs1).
  rewrite Hm0, Hl in HR. by apply HR.
Qed.

(** The scores at which a chain of blocks strikes [m], in order. *)
Definition strike_daas (m : Hash) (bs : list FoldInput) (os : list FoldOutcome) : list Z :=
  concat (zip_with (fun b o => (fun _ => fi_daa b) <$> misses_of m o) bs os).

(** The strike rate limit holds over the whole chain.  Once the second
    version of the service bond is active, any two strikes of one miner - in one
    block or in different ones, whatever requests they are for, and even when a
    served answer resets the streak in between - are at least
    [SERVICE_STRIKE_INTERVAL_DAA] apart, and so are the first strike of the chain
    and the last one persisted before it. *)
Theorem strikes_are_spaced {E} L bs L' os m :
  Forall (fun b => v2_at L (fi_daa b) = true /\ 0 < fi_daa b) bs ->
  folds (E := E) L bs = Ok (L', os) ->
  StronglySorted (fun d d' => d + SERVICE_STRIKE_INTERVAL_DAA <= d') (strike_daas m bs os) /\
  Forall (spaced (last_strike L m)) (strike_daas m bs os).
Proof.
  intros Hbs. revert L os Hbs. induction bs as [|b bs IH]; intros L os Hbs H; cbn in H.
  { injection H as _ <-. split; constructor. }
  apply bind_Ok in H as ([L1 o] & H1 & H). apply bind_Ok in H as ([L2 os'] & H2 & H). injection H as -> <-.
  apply Forall_cons in Hbs as [[Hv Hd] Hbs]. destruct (fold_inner_struck_once _ _ _ _ m H1 Hv Hd) as [HV Hone].
  destruct (IH L1 os') as [IH1 IH2]; [|done|].
  { eapply Forall_impl; [done|]. intros b' [? ?]. by rewrite (v2_at_same L L1). }
  unfold strike_daas in *. cbn [zip_with concat]. destruct Hone as [[-> <-]|(x & -> & Hsp & Hl)]; [done|]. cbn.
  rewrite Hl in IH2. assert (Forall (fun d => fi_daa b + SERVICE_STRIKE_INTERVAL_DAA <= d) (concat (zip_with (fun b o => (fun _ => fi_daa b) <$> misses_of m o) bs os'))) as Hafter.
  { eapply Forall_impl; [exact IH2|]. intros d [?|?]; [lia|done]. }
  split; [by constructor|]. constructor; [done|]. eapply Forall_impl; [exact Hafter|].
  unfold spaced, SERVICE_STRIKE_INTERVAL_DAA in *. lia.
Qed.

Definition ex_chain : list FoldInput := [ex_b1; ex_b2; ex_b3; ex_b4].
Definition ex_folds (L : ServiceLedger) (bs : list FoldInput) : ServiceLedger * list FoldOutcome :=
  match folds (E := ()) L bs with Ok r => r | _ => (L, []) end.

(** The second miner of the example is struck once. *)
Lemma strikes_are_spaced_witness :
  strike_daas 2 ex_chain (ex_folds ex_l0 ex_chain).2 = [4000] /\
  StronglySorted (fun d d' => d + SERVICE_STRIKE_INTERVAL_DAA <= d') (strike_daas 2 ex_chain (ex_folds ex_l0 ex_chain).2) /\
  Forall (spaced (last_strike ex_l0 2)) (strike_daas 2 ex_chain (ex_folds ex_l0 ex_chain).2).
Proof.
  split; [vm_compute; reflexivity|]. apply (strikes_are_spaced (E := ()) ex_l0 ex_chain (ex_folds ex_l0 ex_chain).1).
  - repeat constructor.
  - vm_compute. reflexivity.
Defined.

(** ** An answer protects its author *)
Section answered.
Context {E : Type} (rh key id tier : Hash).

(** The answer of [key] to [rh] is on record, for the identity [id]: parked on
    the unarmed request, or credited by its audit. *)
Definition recorded (L : ServiceLedger) : Prop :=
  forall req, l_pending L !! rh = Some req -> pr_tier req = tier /\
    match pr_audit req with None => key ∈ pr_early_responders req | Some a => id ∈ au_responded a end.

(** The request is pending and, if its audit is armed, [id] delegated to [key]. *)
Definition awaiting (L : ServiceLedger) : Prop :=
  exists req, l_pending L !! rh = Some req /\ pr_tier req = tier /\
    forall a, pr_audit req = Some a -> (key, id) ∈ au_delegations a.

Lemma maybe_award_recorded w L o rh' id' : recorded L -> recorded (maybe_award w (L, o) rh' id').1.
Proof.
  intros HL. destruct (maybe_award_cases w L o rh' id') as [[-> _]|(r & (Hr & _) & ->)]; [done|]. intros req. cbn.
  destruct (decide (rh = rh')) as [<-|]; [|rewrite lookup_insert_ne by done; apply HL]. rewrite lookup_insert_eq.
  intros [= <-]. apply (HL r Hr).
Qed.

Lemma award_first_recorded w L o rh' ids : recorded L -> recorded (award_first w (L, o) rh' ids).1.
Proof. destruct ids; [done|]. apply maybe_award_recorded. Qed.

Lemma reset_streaks_recorded w daa st ids : recorded (foldl (reset_streak w daa) st ids).1 <-> recorded st.1.
Proof. unfold recorded. by rewrite (reset_streaks_frame l_pending). Qed.

(** A response keeps the record; the response of [key] itself makes it. *)
Lemma fold_response_recorded b st r st' :
  wf_state st -> fold_response (E := E) b st r = Ok st' -> recorded st.1 \/ (awaiting st.1 /\ r = (rh, Some key)) -> recorded st'.1.
Proof.
  destruct st as [L o], r as [rh' [r|]]; intros [HL _] H Hrec; [|injection H as <-; naive_solver]. cbn [fst] in *.
  apply fold_response_cases in H. destruct (l_pending L !! rh') as [req|] eqn:Hreq.
  2:{ cbn zeta in H. subst. destruct Hrec as [?|[(req & Hr & _) [= -> ->]]]; [done|congruence]. }
  assert (forall req', pr_tier req' = pr_tier req ->
    (rh' = rh -> pr_tier req' = tier -> match pr_audit req' with None => key ∈ pr_early_responders req' | Some a => id ∈ au_responded a end) ->
    recorded (with_pending L (<[rh' := req']> (l_pending L)))) as Hset.
  { intros req' Ht Hm req1. cbn. destruct (decide (rh = rh')) as [<-|].
    - rewrite lookup_insert_eq. intros [= <-]. assert (pr_tier req = tier) as Htier; [|split; [congruence|apply Hm; congruence]].
      destruct Hrec as [Hrec|[(r' & Hr' & Ht' & _) _]]; [by apply (Hrec req Hreq)|congruence].
    - rewrite lookup_insert_ne by done. destruct Hrec as [Hrec|[_ [= -> _]]]; [apply Hrec|done]. }
  destruct (pr_audit req) as [a|] eqn:Ha.
  2:{ subst. apply Hset; [done|]. intros -> _. cbn. rewrite Ha. unfold push_new. case_bool_decide as Hin;
      (destruct Hrec as [Hrec|[_ [= ->]]]; [destruct (Hrec req Hreq) as [_ Hk]; rewrite Ha in Hk|]); set_solver. }
  pose proof (wr_audit _ (wl_pending _ HL _ _ Hreq) a Ha) as [Hwa _].
  destruct H as (responded & served & Hc & ->). rewrite credit_ok in Hc by apply Hwa. injection Hc as <- <-.
  apply reset_streaks_recorded, award_first_recorded, Hset; [done|]. intros -> _. cbn.
  rewrite elem_of_app, elem_of_newly, elem_of_delegators. destruct (decide (id ∈ au_responded a)); [by left|]. right.
  destruct Hrec as [Hrec|[(r' & Hr' & _ & Hdel) [= ->]]].
  { destruct (Hrec req Hreq) as [_ Hk]. by rewrite Ha in Hk. }
  assert (r' = req) as -> by congruence. split; [by apply Hdel|]. split; [apply Hwa; eexists; by apply Hdel|done].
Qed.

Lemma fold_pending_recorded b st served rh' st' served' :
  wf_state st -> (id, key) ∈ fi_cohort b tier -> fold_pending (E := E) b (st, served) rh' = Ok (st', served') ->
  recorded st.1 -> recorded st'.1.
Proof.
  intros [HL _] Hcoh H Hrec. destruct (decide (rh = rh')) as [<-|Hne].
  2:{ intros req. pose proof (fold_pending_other _ _ _ _ rh H Hne) as Ho. cbn [fst] in Ho. rewrite Ho. apply Hrec. }
  destruct st as [L o]. cbn [fst] in *. apply fold_pending_cases in H as (req & Hreq & H).
  destruct (Hrec req Hreq) as [Ht Hr]. destruct (pr_audit req) as [a|] eqn:Ha.
  - destruct H as [[_ [= -> ->]]|(_ & L1 & o1 & HF & [= -> ->])]; [done|]. intros req'. cbn. by rewrite lookup_delete_eq.
  - destruct H as [[_ [= -> ->]]|[(_ & _ & [= -> ->])|(_ & responded & sv & _ & Hc & _ & [= -> ->])]]; [done| |].
    { intros req'. cbn. by rewrite lookup_delete_eq. }
    apply award_first_recorded. intros req'. cbn. rewrite lookup_insert_eq. intros [= <-]. split; [done|]. cbn.
    rewrite credit_keys_ok in Hc by apply dedup_sort_sorted. injection Hc as <- _. cbn.
    rewrite elem_of_newly, dedup_elem, elem_of_sort_by, list_elem_of_bind. split; [|split; [|set_solver]].
    + exists key. split; [|done]. rewrite elem_of_delegators, dedup_elem, elem_of_sort_by, list_elem_of_fmap. exists (id, key).
      by rewrite Ht.
    + rewrite list_elem_of_fmap. exists (id, key). by rewrite Ht.
Qed.

Lemma maybe_award_awaiting w L o rh' id' : awaiting L -> awaiting (maybe_award w (L, o) rh' id').1.
Proof.
  intros (req & Hr & Ht & Hd). destruct (maybe_award_cases w L o rh' id') as [[-> _]|(r & (Hr' & _) & ->)]; [by exists req|].
  unfold awaiting. cbn. destruct (decide (rh = rh')) as [<-|]; [|rewrite lookup_insert_ne by done; by exists req].
  rewrite lookup_insert_eq. assert (r = req) as -> by congruence. eexists. split; [done|]. done.
Qed.

Lemma fold_response_awaiting b st r st' : fold_response (E := E) b st r = Ok st' -> awaiting st.1 -> awaiting st'.1.
Proof.
  destruct st as [L o], r as [rh' [r|]]; [|by intros [= <-]]. cbn [fst]. intros H Haw. apply fold_response_cases in H.
  destruct (l_pending L !! rh') as [req|] eqn:Hreq; [|cbn zeta in H; by subst].
  assert (forall req', pr_tier req' = pr_tier req ->
     (forall a', pr_audit req' = Some a' -> exists a, pr_audit req = Some a /\ au_delegations a = au_delegations a') ->
     awaiting (with_pending L (<[rh' := req']> (l_pending L)))) as Hset.
  { intros req' Ht Ha. destruct Haw as (r0 & Hr0 & Ht0 & Hd0). unfold awaiting. cbn.
    destruct (decide (rh = rh')) as [<-|]; [|rewrite lookup_insert_ne by done; by exists r0].
    rewrite lookup_insert_eq. assert (r0 = req) as -> by congruence. eexists. split; [done|]. split; [congruence|].
    intros a' Ha'. destruct (Ha a' Ha') as (a & Ha0 & <-). by apply Hd0. }
  destruct (pr_audit req) as [a|] eqn:Ha; [|subst; apply Hset; [done|cbn; naive_solver]].
  destruct H as (responded & served & _ & ->).
  unfold awaiting. rewrite (reset_streaks_frame l_pending) by done. fold (awaiting (award_first (warmup b)
    (with_pending L (<[rh' := with_audit req (mkAudit (au_cohort a) (au_delegations a) responded (au_window_end_daa a))]> (l_pending L)), o) rh' served).1).
  unfold award_first. destruct served; [|apply maybe_award_awaiting]; cbn [fst]; (apply Hset; [done|]); cbn; intros a' [= <-]; eauto.
Qed.

(** Through the responses and the audits of a block. *)
Lemma fold_late_recorded b st st1 st2 :
  wf_input b -> wf_state st -> (id, key) ∈ fi_cohort b tier ->
  recorded st.1 \/ (awaiting st.1 /\ (rh, Some key) ∈ fi_responses b) ->
  fold_responses (E := E) st b = Ok st1 -> fold_audits (E := E) st1 b = Ok st2 -> recorded st2.1.
Proof.
  intros Hb Hst Hcoh Hrec H1 H2.
  destruct (fold_responses_wf (E := E) b st Hb Hst) as (st1' & H1' & Hst1 & _). assert (st1' = st1) as -> by congruence.
  assert (recorded st1.1) as Hrec1.
  { unfold fold_responses in H1. apply bind_Ok in H1 as ([L1 o1] & HF & H1). apply bind_Ok in H1 as (e & _ & H1). injection H1 as <-.
    change (recorded (L1, o1).1).
    assert (wf_state (L1, o1) /\ (recorded (L1, o1).1 \/ (awaiting (L1, o1).1 /\ (rh, Some key) ∈ fi_responses b /\ (rh, Some key) ∉ fi_responses b))) as [_ [?|(_ & ? & ?)]]; [|done..].
    refine (foldM_invariant _ (fun done s => wf_state s /\ (recorded s.1 \/ (awaiting s.1 /\ (rh, Some key) ∈ fi_responses b /\ (rh, Some key) ∉ done))) _ _ _ _ _ HF).
    - split; [done|]. destruct Hrec as [?|[? ?]]; [by left|right]. split; [done|]. split; [done|]. apply not_elem_of_nil.
    - intros pre r post s s' _ [Hs IH] Hstep. split; [by eapply fold_response_keeps|].
      destruct IH as [?|(Haw & Hin & Hn)]; [left; eapply fold_response_recorded; eauto|].
      destruct (decide (r = (rh, Some key))); [left; eapply fold_response_recorded; eauto|right].
      split; [by eapply fold_response_awaiting|]. split; [done|set_solver]. }
  unfold fold_audits in H2. apply bind_Ok in H2 as ([st' served] & HF & H2). injection H2 as <-. apply reset_streaks_recorded.
  refine (proj2 (foldM_invariant _ (fun _ s => wf_state s.1 /\ recorded s.1.1) (st1, []) _ _ (conj Hst1 Hrec1) _ HF)).
  intros pre rh' post [s sv] [s' sv'] _ [Hs IH] Hstep. split; [by eapply fold_pending_keeps|by eapply fold_pending_recorded].
Qed.

(** A live block: typed, not a warmup, with [id] among the delegators of [key]
    in the cohort of the request's tier. *)
Record live (b : FoldInput) : Prop := {
  lv_input : wf_input b;
  lv_fold : warmup b = false /\ 0 < fi_daa b;
  lv_cohort : (id, key) ∈ fi_cohort b tier;
}.

Definition not_again (b : FoldInput) : Prop := forall t mt, (rh, t, mt) ∉ fi_requests b.

Definition never_struck (o : FoldOutcome) : Prop := forall x, x ∈ fo_misses o -> ~ (sm_request_hash x = rh /\ sm_miner x = id).

(** On record before the block: on record after it, and no strike. *)
Lemma fold_inner_recorded b L L' o :
  live b -> not_again b -> wf_ledger L -> recorded L -> fold_inner (E := E) L b = Ok (L', o) -> recorded L' /\ never_struck o.
Proof.
  intros [Hb [Hw Hd] Hc] Hn HL Hrec H. split.
  - apply fold_inner_phases in H as (L0 & o0 & L1 & st & H0 & H1 & H2 & H3).
    destruct (fold_escrows_wf (E := E) b L Hb HL) as (s & H0' & HL0 & Ho0). assert (s = (L0, o0)) as -> by congruence. cbn [fst snd] in *.
    destruct (fold_requests_wf (E := E) b L0 Hb HL0) as (L1' & H1' & HL1). assert (L1' = L1) as -> by congruence.
    change (recorded (L', o).1). eapply (fold_late_recorded b (L1, o0)); [done..| |done|done]. left. intros req Hreq.
    cbn [fst] in Hreq. pose proof (fold_requests_admits b L0 L1 rh HL0 H1) as Ha. rewrite Hreq in Ha.
    destruct (fold_escrows_same _ _ _ _ H0) as [Hp _]. rewrite Hp in Ha.
    destruct (l_pending L !! rh) as [req0|] eqn:Hr0; cbn in Ha.
    2:{ destruct Ha as [?|(r' & [= <-] & (_ & _ & _ & mt & Hin))]; [done|]. by apply Hn in Hin. }
    destruct (decide (fi_daa b < pr_accepted_daa req0 + SERVICE_LEDGER_HORIZON_DAA)).
    + rewrite option_guard_True in Ha by done. destruct Ha as (r' & [= <-] & [-> Hs]).
      destruct (Hrec req0 Hr0) as [Ht Hm]. split; [done|]. cbn. destruct (pr_audit req0); [done|]. by apply Hs.
    + rewrite option_guard_False in Ha by done. destruct Ha as [?|(r' & [= <-] & (_ & _ & _ & mt & Hin))]; [done|]. by apply Hn in Hin.
  - intros x Hx [E1 E2]. apply (misses_unanswered _ _ _ _ HL Hb Hw Hd H) in Hx. rewrite E1, E2 in Hx. destruct Hx as (req & a & Hr & Ha & _ & _ & _ & Hnr & _).
    apply Hnr. destruct (Hrec req Hr) as [_ Hm]. by rewrite Ha in Hm.
Qed.

(** The block with the answer itself, for a pending request. *)
Lemma fold_inner_answer b L L' o req :
  live b -> wf_ledger L -> l_pending L !! rh = Some req -> pr_tier req = tier ->
  fi_daa b < pr_accepted_daa req + SERVICE_LEDGER_HORIZON_DAA ->
  (forall a, pr_audit req = Some a -> (key, id) ∈ au_delegations a) -> (rh, Some key) ∈ fi_responses b ->
  fold_inner (E := E) L b = Ok (L', o) -> recorded L' /\ never_struck o.
Proof.
  intros [Hb [Hw Hd] Hc] HL Hreq Ht Hh Hdel Hresp H. split.
  - apply fold_inner_phases in H as (L0 & o0 & L1 & st & H0 & H1 & H2 & H3).
    destruct (fold_escrows_wf (E := E) b L Hb HL) as (s & H0' & HL0 & Ho0). assert (s = (L0, o0)) as -> by congruence. cbn [fst snd] in *.
    destruct (fold_requests_wf (E := E) b L0 Hb HL0) as (L1' & H1' & HL1). assert (L1' = L1) as -> by congruence.
    change (recorded (L', o).1). eapply (fold_late_recorded b (L1, o0)); [done..| |done|done]. right. split; [|done].
    pose proof (fold_requests_admits b L0 L1 rh HL0 H1) as Ha. destruct (fold_escrows_same _ _ _ _ H0) as [Hp _].
    rewrite Hp, Hreq in Ha. cbn in Ha. rewrite option_guard_True in Ha by done. destruct Ha as (r' & Hr' & [Er _]).
    exists r'. rewrite Er. split; [by rewrite <-Er|]. done.
  - intros x Hx [E1 E2]. apply (misses_unanswered _ _ _ _ HL Hb Hw Hd H) in Hx. rewrite E1, E2 in Hx. destruct Hx as (req' & a & Hr & Ha & _ & _ & _ & _ & Hk).
    assert (req' = req) as -> by congruence. apply (Hk key); auto.
Qed.
End answered.

(** An answer protects its author for good.  Take a request [rh] that is
    pending and inside its horizon when a block accepts the answer signed by
    [key], and an identity [id] delegated to [key] - in the armed audit, or in
    the cohorts of the blocks from here on.  Then neither this block nor any
    later one strikes [id] for [rh], whether the audit was already armed, arms
    in this very block or later, or closes in this very block, as long as the
    same request is not accepted anew. *)
Theorem answer_never_struck {E} rh key id L b bs L' os req :
  wf_ledger L -> l_pending L !! rh = Some req ->
  fi_daa b < pr_accepted_daa req + SERVICE_LEDGER_HORIZON_DAA ->
  (forall a, pr_audit req = Some a -> (key, id) ∈ au_delegations a) ->
  (rh, Some key) ∈ fi_responses b ->
  Forall (live key id (pr_tier req)) (b :: bs) -> Forall (not_again rh) bs ->
  folds (E := E) L (b :: bs) = Ok (L', os) ->
  Forall (never_struck rh id) os.
Proof.
  intros HL Hreq Hh Hdel Hresp [Hb Hbs]%Forall_cons Hn H. cbn in H.
  apply bind_Ok in H as ([L1 o] & H1 & H). apply bind_Ok in H as ([L2 os'] & H2 & H). injection H as -> <-.
  destruct (fold_inner_answer (E := E) rh key id (pr_tier req) b L L1 o req Hb HL Hreq eq_refl Hh Hdel Hresp H1) as [Hrec Hnever].
  constructor; [done|]. pose proof (fold_keeps_wf _ _ _ _ HL (lv_input _ _ _ _ Hb) H1) as HL1.
  clear HL Hreq Hh Hdel Hresp H1 Hnever Hb. generalize dependent (pr_tier req). intros tier Hbs Hrec.
  revert L1 os' HL1 Hrec H2. induction bs as [|b' bs IH]; intros L1 os' HL1 Hrec H2; cbn in H2.
  { injection H2 as _ <-. constructor. }
  apply Forall_cons in Hbs as [Hb' Hbs]. apply Forall_cons in Hn as [Hn' Hn].
  apply bind_Ok in H2 as ([L3 o3] & H3 & H2). apply bind_Ok in H2 as ([L4 os4] & H4 & H2). injection H2 as -> <-.
  destruct (fold_inner_recorded (E := E) rh key id tier b' L1 L3 o3 Hb' Hn' HL1 Hrec H3) as [Hrec3 Hnever]. constructor; [done|].
  eapply IH; [done..| |exact Hrec3|exact H4]. eapply fold_keeps_wf; [done|apply Hb'|done].
Qed.

(** The first miner of the example answers in the third block; the closing
    block strikes the second miner only. *)
Lemma answer_never_struck_witness :
  Forall (never_struck 7 1) (ex_folds ex_l2 [ex_b3; ex_b4]).2.
Proof.
  apply (answer_never_struck (E := ()) 7 11 1 ex_l2 ex_b3 [ex_b4] (ex_folds ex_l2 [ex_b3; ex_b4]).1 _
    (default (mkPending 0 0 0 0 None None []) (l_pending ex_l2 !! 7))).
  - apply ex_l2_wf.
  - vm_compute. reflexivity.
  - vm_compute. reflexivity.
  - vm_compute. intros a [= <-]. left.
  - left.
  - repeat constructor; try apply ex_b3_wf; try apply ex_b4_wf.
  - constructor; [|constructor]. intros t mt Hin. by apply not_elem_of_nil in Hin.
  - vm_compute. reflexivity.
Defined.
