(* ===== verification/LedgerRewards.v ===== *)
(** * Rewards are paid once

    A routed request's reward goes to the first identity credited with an
    answer.  Over any chain of blocks it is paid once per admission, and the
    memory of admitted hashes keeps two admissions of one hash far apart. *)
From S2P Require Import Prelude Tx Slice BTree Ledger LedgerSteps LedgerUndo LedgerInv LedgerAudit LedgerRuns.
From stdpp Require Import base gmap list.
#[local] Open Scope Z_scope.

Definition rewards_of (rh : Hash) (o : FoldOutcome) : list ServiceReward := filter (fun x => sr_request_hash x = rh) (fo_rewards o).

Section rewards.
Context {E : Type} (rh from : Z).

(** ** One admission, one reward *)

(** From one state to another, the request [rh] keeps its admission and its
    winner, and its reward is paid only when the winner is set. *)
Definition paid_once (st st' : ServiceLedger * FoldOutcome) : Prop :=
  l_reward_routing_daa st'.1 = l_reward_routing_daa st.1 /\ l_audited st'.1 = l_audited st.1 /\
  match l_pending st.1 !! rh with
  | None => l_pending st'.1 !! rh = None /\ rewards_of rh st'.2 = rewards_of rh st.2
  | Some r =>
      (forall r', l_pending st'.1 !! rh = Some r' ->
         pr_accepted_daa r' = pr_accepted_daa r /\ (is_Some (pr_winner r) -> is_Some (pr_winner r'))) /\
      (rewards_of rh st'.2 = rewards_of rh st.2 \/
       (pr_winner r = None /\ (forall f, l_reward_routing_daa st.1 = Some f -> f <= pr_accepted_daa r) /\
        (exists x, rewards_of rh st'.2 = rewards_of rh st.2 ++ [x]) /\
        forall r', l_pending st'.1 !! rh = Some r' -> is_Some (pr_winner r')))
  end.

#[export] Instance paid_once_preorder : PreOrder paid_once.
Proof.
  split.
  - intros st. split; [done|]. split; [done|]. destruct (l_pending st.1 !! rh) as [r|] eqn:Er; [|done]. split; [|by left].
    by intros r' [= <-].
  - intros s1 s2 s3 (R1 & A1 & H1) (R2 & A2 & H2). split; [congruence|]. split; [congruence|].
    destruct (l_pending s1.1 !! rh) as [r1|].
    2:{ destruct H1 as [H1 W1]. rewrite H1 in H2. destruct H2 as [H2 W2]. split; [done|congruence]. }
    destruct H1 as [K1 W1]. destruct (l_pending s2.1 !! rh) as [r2|].
    2:{ destruct H2 as [H2 W2]. rewrite H2. split; [done|]. destruct W1 as [W1|(? & ? & [x W1] & _)]; [left; congruence|right].
        repeat (split; [done|]). split; [exists x; congruence|done]. }
    destruct (K1 r2 eq_refl) as [Ka Kw]. destruct H2 as [K2 W2]. split.
    { intros r3 Hr3. destruct (K2 r3 Hr3). split; [congruence|auto]. }
    destruct W1 as [W1|(N1 & F1 & [x W1] & S1)].
    + destruct W2 as [W2|(N2 & F2 & [x W2] & S2)]; [left; congruence|right].
      split. { destruct (pr_winner r1) as [w|]; [|done]. destruct Kw as [? ?]; [eauto|congruence]. }
      split; [intros f Hf; rewrite <-Ka; apply F2; congruence|]. split; [exists x; congruence|done].
    + right. specialize (S1 r2 eq_refl). destruct W2 as [W2|(N2 & _)]; [|rewrite N2 in S1; by destruct S1].
      split; [done|]. split; [done|]. split; [exists x; congruence|]. intros r3 Hr3. destruct (K2 r3 Hr3). auto.
Qed.

(** A step that keeps the admission and the winner, and pays nothing. *)
Lemma paid_once_frame L o L' o' :
  l_reward_routing_daa L' = l_reward_routing_daa L -> l_audited L' = l_audited L -> fo_rewards o' = fo_rewards o ->
  (forall r', l_pending L' !! rh = Some r' ->
     exists r, l_pending L !! rh = Some r /\ pr_accepted_daa r' = pr_accepted_daa r /\ pr_winner r' = pr_winner r) ->
  paid_once (L, o) (L', o').
Proof.
  intros HR HA HW HP. split; [done|]. split; [done|]. unfold rewards_of. cbn. rewrite HW.
  destruct (l_pending L !! rh) as [r|].
  - split; [|by left]. intros r' Hr'. destruct (HP r' Hr') as (r0 & [= <-] & -> & ->). done.
  - split; [|done]. destruct (l_pending L' !! rh) as [r'|]; [|done]. by destruct (HP r' eq_refl) as (? & ? & _).
Qed.

Lemma maybe_award_paid_once w st rh' id : paid_once st (maybe_award w st rh' id).
Proof.
  destruct st as [L o]. destruct (maybe_award_cases w L o rh' id) as [[-> _]|(req & (Hreq & Hw & _ & f & Hf & Hle) & ->)]; [done|].
  split; [done|]. split; [done|]. cbn. destruct (decide (rh = rh')) as [<-|Hne].
  - rewrite Hreq, lookup_insert_eq. split.
    { intros r' [= <-]. split; [done|]. intros _. by eexists. }
    destruct w; [by left|]. right. split; [done|]. split; [intros f' Hf'; congruence|].
    split; [|intros r' [= <-]; by eexists]. eexists. unfold rewards_of. cbn. by rewrite filter_app, filter_cons_True.
  - rewrite lookup_insert_ne by done. assert (rewards_of rh (if w then o else add_reward o (mkReward rh' id (pr_reward req) (l_producer_spk L !! id))) = rewards_of rh o) as ->.
    { destruct w; [done|]. unfold rewards_of. cbn. rewrite filter_app, filter_cons_False by (cbn; congruence). apply app_nil_r. }
    destruct (l_pending L !! rh) as [r|]; [|done]. split; [by intros r' [= <-]|by left].
Qed.

Lemma reset_paid_once w daa st id : paid_once st (reset_streak w daa st id).
Proof.
  destruct st as [L o]. destruct (reset_streak_cases w daa L o id) as [[-> _]|(_ & e & _ & _ & ->)]; [done|].
  apply paid_once_frame; eauto.
Qed.

Lemma set_request_paid_once L o rh' req req' :
  l_pending L !! rh' = Some req -> pr_accepted_daa req' = pr_accepted_daa req -> pr_winner req' = pr_winner req ->
  paid_once (L, o) (with_pending L (<[rh' := req']> (l_pending L)), o).
Proof.
  intros Hr Ha Hw. apply paid_once_frame; [done..|]. intros r'. cbn.
  destruct (decide (rh = rh')) as [<-|]; [rewrite lookup_insert_eq|rewrite lookup_insert_ne by done; eauto]. intros [= <-]. eauto.
Qed.

Lemma delete_request_paid_once L o rh' : paid_once (L, o) (with_pending L (delete rh' (l_pending L)), o).
Proof. apply paid_once_frame; [done..|]. cbn. intros r' [_ Hr']%lookup_delete_Some. eauto. Qed.

Lemma strike_paid_once b rh' st miner st' : strike (E := E) b rh' st miner = Ok st' -> paid_once st st'.
Proof.
  destruct st as [L o], st' as [L' o']. intros H.
  apply strike_cases in H as [(-> & -> & _)|(_ & _ & V & burned & _ & _ & _ & -> & ->)]; [done|]. apply paid_once_frame; eauto.
Qed.

Lemma award_first_paid_once w L o rh' ids : paid_once (L, o) (award_first w (L, o) rh' ids).
Proof. destruct ids; [done|]. apply maybe_award_paid_once. Qed.

Lemma fold_response_paid_once b st r st' : fold_response (E := E) b st r = Ok st' -> paid_once st st'.
Proof.
  destruct st as [L o], r as [rh' [r|]]; [|by intros [= <-]]. intros H. apply fold_response_cases in H.
  destruct (l_pending L !! rh') as [req|] eqn:Hreq; [|cbn zeta in H; subst; apply paid_once_frame; eauto].
  destruct (pr_audit req) as [a|]; [|subst; by eapply set_request_paid_once].
  destruct H as (responded & served & _ & ->).
  etrans; [|apply (foldl_rel paid_once); intros; apply reset_paid_once].
  etrans; [|apply award_first_paid_once]. by eapply set_request_paid_once.
Qed.

Lemma fold_pending_paid_once b st served rh' st' served' :
  fold_pending (E := E) b (st, served) rh' = Ok (st', served') -> paid_once st st'.
Proof.
  destruct st as [L o]. intros H. apply fold_pending_cases in H as (req & Hreq & H). destruct (pr_audit req) as [a|].
  - destruct H as [[_ [= -> ->]]|(_ & L1 & o1 & HF & [= -> ->])]; [done|].
    etrans; [eapply (foldM_rel paid_once); [|exact HF]; intros s x s' _; apply strike_paid_once|]. apply delete_request_paid_once.
  - destruct H as [[_ [= -> ->]]|[(_ & _ & [= -> ->])|(_ & responded & sv & _ & _ & _ & [= -> ->])]]; [done|apply delete_request_paid_once|].
    etrans; [|apply award_first_paid_once]. by eapply set_request_paid_once.
Qed.

Lemma fold_late_paid_once b st st1 st2 :
  fold_responses (E := E) st b = Ok st1 -> fold_audits (E := E) st1 b = Ok st2 -> paid_once st st2.
Proof.
  apply (fold_late_rel b paid_once); [apply fold_response_paid_once|apply fold_pending_paid_once|intros; apply reset_paid_once|].
  intros. apply paid_once_frame; eauto.
Qed.

(** ** The memory of admitted hashes *)

(** One request of a gated block: a remembered hash is skipped, any other one
    is remembered and admitted. *)
Definition remembers (b : FoldInput) (L L' : ServiceLedger) : Prop :=
  (l_audited L' !! rh = l_audited L !! rh /\ l_pending L' !! rh = l_pending L !! rh) \/
  (l_audited L !! rh = None /\ l_audited L' !! rh = Some (fi_daa b) /\ admits b rh (l_pending L !! rh) (l_pending L' !! rh)).

#[export] Instance remembers_preorder b : PreOrder (remembers b).
Proof.
  split; [by left|]. intros L1 L2 L3 [[A1 P1]|(N1 & A1 & P1)] [[A2 P2]|(N2 & A2 & P2)].
  - left. split; congruence.
  - right. rewrite <-A1, <-P1. done.
  - right. rewrite A2, P2. done.
  - congruence.
Qed.

Lemma fold_request_remembers b L r : r ∈ fi_requests b -> remembers b L (fold_request b true L r).
Proof.
  intros Hr. destruct (decide (rh = r.1.1)) as [Erh|Hne].
  - pose proof (fold_request_admits b true L r rh Hr) as Ha. destruct r as [[rh' t] mt]. cbn in Erh. subst rh'.
    revert Ha. unfold fold_request. cbn [andb]. unfold contains_key.
    destruct (l_audited L !! rh) eqn:Hs; [by left|]. intros Ha. right. split; [done|]. split; [|exact Ha]. cbn. by rewrite lookup_insert_eq.
  - left. destruct r as [[rh' t] mt]. cbn in Hne. unfold fold_request. cbn [andb]. destruct (contains_key _ _); [done|]. cbn.
    by rewrite !lookup_insert_ne.
Qed.

(** Still inside the horizon of requests, or of the memory. *)
Definition unexpired (b : FoldInput) (o : option PendingRequest) : option PendingRequest :=
  req ← o; guard (fi_daa b < pr_accepted_daa req + SERVICE_LEDGER_HORIZON_DAA);; Some req.
Definition remembered (b : FoldInput) (o : option Z) : option Z :=
  seen ← o; guard (fi_daa b < seen + SERVICE_AUDITED_MEMORY_DAA);; Some seen.

Lemma fold_requests_remembers b L L' :
  wf_ledger L -> l_reward_routing_daa L = Some from -> from <= fi_daa b -> fold_requests (E := E) L b = Ok L' ->
  (l_audited L' !! rh = remembered b (l_audited L !! rh) /\ l_pending L' !! rh = unexpired b (l_pending L !! rh)) \/
  (remembered b (l_audited L !! rh) = None /\ l_audited L' !! rh = Some (fi_daa b) /\
   admits b rh (unexpired b (l_pending L !! rh)) (l_pending L' !! rh)).
Proof.
  intros HL Hf Hg H. unfold fold_requests in H.
  rewrite (retain_horizon pr_accepted_daa) in H; [|eapply map_Forall_impl; [apply HL|]; by intros ? ? []|daa_lia].
  apply bind_Ok in H as (p & [= <-] & H). apply bind_Ok in H as (early & _ & H). apply bind_Ok in H as (L2 & HL2 & H).
  injection H as <-. cbn [l_reward_routing_daa with_early_responses with_pending] in *. rewrite Hf in *.
  replace (from <=? fi_daa b) with true in * by lia.
  rewrite (retain_horizon (fun x => x)) in HL2; [|apply HL|daa_lia]. injection HL2 as <-. cbn [l_audited with_early_responses with_pending].
  set (L1 := with_audited _ _).
  assert (l_audited L1 !! rh = remembered b (l_audited L !! rh)) as <-.
  { unfold L1. cbn. rewrite map_lookup_filter. unfold remembered. destruct (l_audited L !! rh) as [seen|]; [|done]. cbn.
    destruct (decide (fi_daa b < seen + SERVICE_AUDITED_MEMORY_DAA)); [rewrite !option_guard_True by lia|rewrite !option_guard_False by lia]; done. }
  assert (l_pending L1 !! rh = unexpired b (l_pending L !! rh)) as <-.
  { unfold L1. cbn. rewrite map_lookup_filter. unfold unexpired. destruct (l_pending L !! rh) as [req|]; [|done]. cbn.
    destruct (decide (fi_daa b < pr_accepted_daa req + SERVICE_LEDGER_HORIZON_DAA)); [rewrite !option_guard_True by lia|rewrite !option_guard_False by lia]; done. }
  generalize L1. intros L1'. change (remembers b L1' (foldl (fold_request b true) L1' (fi_requests b))).
  apply (foldl_pres (fun L' => remembers b L1' L')); [|done].
  intros L' r Hr IH. etrans; [exact IH|]. by apply fold_request_remembers.
Qed.

(** ** A block *)

(** A routed pending request is remembered under the score of its admission. *)
Definition tracked (L : ServiceLedger) : Prop :=
  l_reward_routing_daa L = Some from /\
  forall req, l_pending L !! rh = Some req -> from <= pr_accepted_daa req -> l_audited L !! rh = Some (pr_accepted_daa req).

(** The admission at [a] is settled: remembered and, while pending, won. *)
Definition settled (a : Z) (L : ServiceLedger) : Prop :=
  l_audited L !! rh = Some a /\ forall req, l_pending L !! rh = Some req -> pr_accepted_daa req = a /\ is_Some (pr_winner req).

Lemma unexpired_Some b o req :
  unexpired b o = Some req <-> o = Some req /\ fi_daa b < pr_accepted_daa req + SERVICE_LEDGER_HORIZON_DAA.
Proof.
  unfold unexpired. destruct o as [r|]; [|naive_solver]. cbn.
  destruct (decide (fi_daa b < pr_accepted_daa r + SERVICE_LEDGER_HORIZON_DAA));
    [rewrite option_guard_True by done|rewrite option_guard_False by done]; naive_solver.
Qed.

Lemma remembered_Some b o seen :
  remembered b o = Some seen <-> o = Some seen /\ fi_daa b < seen + SERVICE_AUDITED_MEMORY_DAA.
Proof.
  unfold remembered. destruct o as [s|]; [|naive_solver]. cbn.
  destruct (decide (fi_daa b < s + SERVICE_AUDITED_MEMORY_DAA));
    [rewrite option_guard_True by done|rewrite option_guard_False by done]; naive_solver.
Qed.

Lemma fold_requests_tracked b L L' :
  wf_ledger L -> tracked L -> from <= fi_daa b -> fold_requests (E := E) L b = Ok L' ->
  tracked L' /\ (forall r, l_pending L' !! rh = Some r -> fi_daa b < pr_accepted_daa r + SERVICE_LEDGER_HORIZON_DAA) /\
  (forall a, settled a L -> fi_daa b < a + SERVICE_AUDITED_MEMORY_DAA -> settled a L').
Proof.
  intros HL [Hf Ht] Hg H.
  assert (l_reward_routing_daa L' = Some from) as Hf'. { rewrite <-Hf. by apply (fold_requests_frame l_reward_routing_daa _ _ _ H). }
  destruct (fold_requests_remembers b L L' HL Hf Hg H) as [[HA HP]|(HN & HA & HP)].
  - split; [|split].
    + split; [done|]. intros req. rewrite HP, HA, unexpired_Some. intros [Hr Hh] Hle. rewrite (Ht req Hr Hle).
      apply remembered_Some. split; [done|]. daa_lia.
    + intros r. rewrite HP, unexpired_Some. tauto.
    + intros a [Ha Hs] Hm. split; [rewrite HA, Ha; by apply remembered_Some|]. intros req. rewrite HP, unexpired_Some. intros [Hr _]. auto.
  - assert (forall r, l_pending L' !! rh = Some r -> fi_daa b < pr_accepted_daa r + SERVICE_LEDGER_HORIZON_DAA /\
      (from <= pr_accepted_daa r -> pr_accepted_daa r = fi_daa b)) as Hr.
    { intros r Hr. rewrite Hr in HP. destruct (unexpired b (l_pending L !! rh)) as [r0|] eqn:Eu.
      - destruct HP as (r' & [= <-] & [-> _]). cbn. apply unexpired_Some in Eu as [Hr0 Hh]. split; [done|]. intros Hle.
        rewrite (Ht r0 Hr0 Hle) in HN. unfold remembered in HN. cbn in HN. rewrite option_guard_True in HN; [done|daa_lia].
      - destruct HP as [?|(r' & [= <-] & (Ha & _))]; [done|]. rewrite Ha. split; [daa_lia|done]. }
    split; [|split].
    + split; [done|]. intros req Hreq Hle. rewrite HA. f_equal. symmetry. by apply (Hr req Hreq).
    + intros r Hr'. by apply Hr.
    + intros a [Ha _] Hm. assert (remembered b (l_audited L !! rh) = Some a) by (by apply remembered_Some). congruence.
Qed.

Lemma fold_inner_rewards b L L' o :
  wf_ledger L -> wf_input b -> tracked L -> from <= fi_daa b -> fold_inner (E := E) L b = Ok (L', o) ->
  tracked L' /\
  (rewards_of rh o = [] \/
   exists x a, rewards_of rh o = [x] /\ fi_daa b < a + SERVICE_LEDGER_HORIZON_DAA /\ settled a L') /\
  (forall a, settled a L -> fi_daa b < a + SERVICE_AUDITED_MEMORY_DAA -> settled a L' /\ rewards_of rh o = []).
Proof.
  intros HL Hb Ht Hg H. apply fold_inner_phases in H as (L0 & o0 & L1 & st & H0 & H1 & H2 & H3).
  destruct (fold_escrows_wf (E := E) b L Hb HL) as (s & H0' & HL0 & _). assert (s = (L0, o0)) as -> by congruence. cbn [fst] in HL0.
  destruct (fold_escrows_frame (fun L => (l_pending L, l_audited L, l_reward_routing_daa L)) _ _ _ _ H0) as ([= Hp Ha Hf] & _ & Hr0); [done..|].
  assert (tracked L0) as Ht0 by (unfold tracked; by rewrite Hp, Ha, Hf).
  destruct (fold_requests_tracked b L0 L1 HL0 Ht0 Hg H1) as ([Hf1 Ht1] & Hh1 & Hs1).
  destruct (fold_late_paid_once b (L1, o0) st (L', o) H2 H3) as (Hf' & Ha' & Hpaid). cbn [fst snd] in *.
  assert (rewards_of rh o0 = []) as Hw0 by (unfold rewards_of; by rewrite Hr0). rewrite Hw0 in Hpaid.
  assert (forall a, settled a L -> settled a L0) as Hs0 by (intros a; unfold settled; by rewrite Hp, Ha).
  unfold tracked, settled in *. rewrite Hf', Ha'. destruct (l_pending L1 !! rh) as [r|] eqn:Hr.
  2:{ destruct Hpaid as [-> ->]. split; [by split|]. split; [by left|]. intros a Hs Hm.
      split; [|done]. split; [apply (Hs1 a (Hs0 a Hs) Hm)|done]. }
  destruct Hpaid as [Hk Hpaid]. split; [|split].
  - split; [done|]. intros req Hreq. destruct (Hk req Hreq) as [-> _]. auto.
  - destruct Hpaid as [?|(_ & Hle & [x ->] & Hwin)]; [by left|]. right. exists x, (pr_accepted_daa r). split; [done|]. split; [auto|].
    split; [apply Ht1; auto|]. intros req Hreq. split; [by apply Hk|auto].
  - intros a Hs Hm. destruct (Hs1 a (Hs0 a Hs) Hm) as [Ha1 Hs1']. destruct (Hs1' r eq_refl) as [<- Hw]. split.
    + split; [done|]. intros req Hreq. destruct (Hk req Hreq). auto.
    + destruct Hpaid as [?|(Hn & _)]; [done|]. rewrite Hn in Hw. by destruct Hw.
Qed.
End rewards.

(** The scores at which a chain of blocks pays the reward of [rh], in order. *)
Definition reward_daas (rh : Hash) (bs : list FoldInput) (os : list FoldOutcome) : list Z :=
  concat (zip_with (fun b o => (fun _ => fi_daa b) <$> rewards_of rh o) bs os).

(** No reward while the admission at [a] is settled and remembered. *)
Lemma settled_unpaid {E} rh from a L bs L' os :
  wf_ledger L -> tracked rh from L -> settled rh a L ->
  Forall (fun b => wf_input b /\ from <= fi_daa b) bs -> StronglySorted (fun b b' => fi_daa b <= fi_daa b') bs ->
  folds (E := E) L bs = Ok (L', os) -> Forall (fun d => a + SERVICE_AUDITED_MEMORY_DAA <= d) (reward_daas rh bs os).
Proof.
  revert L os. induction bs as [|b bs IH]; intros L os HL Ht Hs Hbs Hsort H; cbn in H.
  { injection H as _ <-. constructor. }
  apply bind_Ok in H as ([L1 o] & H1 & H). apply bind_Ok in H as ([L2 os'] & H2 & H). injection H as -> <-.
  apply Forall_cons in Hbs as [[Hb Hg] Hbs]. inversion_clear Hsort as [|? ? Hsort' Hle].
  destruct (fold_inner_rewards (E := E) rh from b L L1 o HL Hb Ht Hg H1) as (Ht1 & _ & Hset).
  unfold reward_daas. cbn [zip_with concat]. apply Forall_app.
  destruct (decide (fi_daa b < a + SERVICE_AUDITED_MEMORY_DAA)) as [Hd|Hd].
  - destruct (Hset a Hs Hd) as [Hs1 ->]. split; [constructor|]. eapply IH; [|done..]. by eapply fold_keeps_wf.
  - split; [apply Forall_fmap, Forall_true; intros; cbn; lia|].
    clear -Hle Hd. revert os' Hle. induction bs as [|b' bs IHb]; intros [|o os'] Hle; cbn; [constructor..|].
    apply Forall_cons in Hle as [Hb' Hle]. apply Forall_app. split; [apply Forall_fmap, Forall_true; intros; cbn; lia|by apply IHb].
Qed.

(** C36: a reward is paid at most once per admission.  From any ledger whose
    routed requests are remembered, over any chain of blocks past the routing
    gate with non-decreasing scores, two rewards for one request hash are more
    than [SERVICE_AUDITED_MEMORY_DAA - SERVICE_LEDGER_HORIZON_DAA] = 792 000
    apart: never twice in one block, never again for a later responder or for
    another credited identity, and not by accepting the same hash again while
    it is remembered. *)
Theorem reward_paid_once {E} rh from L bs L' os :
  wf_ledger L -> tracked rh from L ->
  Forall (fun b => wf_input b /\ from <= fi_daa b) bs -> StronglySorted (fun b b' => fi_daa b <= fi_daa b') bs ->
  folds (E := E) L bs = Ok (L', os) ->
  StronglySorted (fun d d' => d + (SERVICE_AUDITED_MEMORY_DAA - SERVICE_LEDGER_HORIZON_DAA) < d') (reward_daas rh bs os).
Proof.
  revert L os. induction bs as [|b bs IH]; intros L os HL Ht Hbs Hsort H; cbn in H.
  { injection H as _ <-. constructor. }
  apply bind_Ok in H as ([L1 o] & H1 & H). apply bind_Ok in H as ([L2 os'] & H2 & H). injection H as -> <-.
  apply Forall_cons in Hbs as [[Hb Hg] Hbs]. inversion_clear Hsort as [|? ? Hsort' Hle].
  destruct (fold_inner_rewards (E := E) rh from b L L1 o HL Hb Ht Hg H1) as (Ht1 & Hone & _).
  pose proof (fold_keeps_wf _ _ _ _ HL Hb H1) as HL1. specialize (IH L1 os' HL1 Ht1 Hbs Hsort' H2).
  unfold reward_daas in *. cbn [zip_with concat]. destruct Hone as [->|(x & a & -> & Hd & Hs)]; [exact IH|].
  constructor; [exact IH|]. eapply Forall_impl; [by eapply (settled_unpaid rh from a L1)|]. intros d Hd'. cbn in Hd'. lia.
Qed.

(** The example pays its request's reward once, in the third block. *)
Lemma reward_paid_once_witness :
  reward_daas 7 ex_chain (ex_folds ex_l0 ex_chain).2 = [200] /\
  StronglySorted (fun d d' => d + (SERVICE_AUDITED_MEMORY_DAA - SERVICE_LEDGER_HORIZON_DAA) < d')
    (reward_daas 7 ex_chain (ex_folds ex_l0 ex_chain).2).
Proof.
  split; [vm_compute; reflexivity|]. apply (reward_paid_once (E := ()) 7 0 ex_l0 ex_chain (ex_folds ex_l0 ex_chain).1).
  - apply ex_l0_wf.
  - split; [reflexivity|]. intros req Hreq. vm_compute in Hreq. discriminate Hreq.
  - repeat (constructor; [split; [|done]|]); [apply ex_b1_wf|apply ex_b2_wf|apply ex_b3_wf|apply ex_b4_wf|constructor].
  - repeat (constructor; [|repeat (constructor; [vm_compute; congruence|]); constructor]). constructor.
  - vm_compute. reflexivity.
Defined.
