(* ===== verification/LedgerSnapshot.v ===== *)
(** * Resuming from a snapshot

    [snapshot] folds the strike and sighting baselines into their deltas;
    [restore_snapshot] installs the result with empty baselines.  The ledger one
    gets, [canon L], is a normal form of [L]: every operation of the fold
    commutes with [canon], so a node that resumes from a snapshot reports the
    same misses, rewards, resets, sightings and expiries as the node that took
    it, block after block, and takes the same snapshots. *)
From S2P Require Import Prelude Tx Slice BTree Ledger LedgerSteps LedgerUndo LedgerRuns.
From stdpp Require Import base gmap list.
#[local] Open Scope Z_scope.

Definition canon (L : ServiceLedger) : ServiceLedger := restore_snapshot L (snapshot L).

Lemma canon_eq L :
  canon L = mkLedger (l_pending L) (l_early_responses L) (l_strikes L ∪ l_base L) (l_vault L) ∅
    (l_first_seen L ∪ l_first_seen_base L) ∅ (l_window_v2_activation_daa L) (l_burnable_window_daa L) (l_reward_routing_daa L)
    (l_audited L) (l_producer_spk L).
Proof. unfold canon, restore_snapshot, snapshot. cbn. by rewrite !fold_delta. Qed.

(** Equivalent ledgers have the same effective state and configuration. *)
#[export] Instance ledger_equiv : Equiv ServiceLedger := fun L L' => canon L = canon L'.

#[export] Instance ledger_equivalence : Equivalence (≡@{ServiceLedger}).
Proof. split; unfold equiv, ledger_equiv; [by intros ?|by intros ? ? ->|by intros ? ? ? -> ->]. Qed.

Lemma canon_idemp L : canon (canon L) = canon L.
Proof. rewrite (canon_eq (canon L)), (canon_eq L). cbn. by rewrite !(right_id_L ∅ (∪)). Qed.

Lemma canon_equiv L : canon L ≡ L.
Proof. apply canon_idemp. Qed.

Lemma snapshot_canon L : snapshot (canon L) = snapshot L.
Proof. unfold snapshot. rewrite !fold_delta, canon_eq. cbn. by rewrite !(right_id_L ∅ (∪)). Qed.

#[export] Instance snapshot_proper : Proper ((≡) ==> (=)) snapshot.
Proof. intros L L' HL. rewrite <-(snapshot_canon L), <-(snapshot_canon L'). by rewrite HL. Qed.

(** ** The fold commutes with the normal form *)
Lemma strike_state_canon L m : strike_state (canon L) m = strike_state L m.
Proof.
  rewrite canon_eq. unfold strike_state. cbn. rewrite lookup_union, lookup_empty.
  destruct (l_strikes L !! m), (l_base L !! m); done.
Qed.

#[export] Instance strike_state_proper : Proper ((≡) ==> (=) ==> (=)) strike_state.
Proof. intros L L' HL m ? <-. rewrite <-(strike_state_canon L), <-(strike_state_canon L'). by rewrite HL. Qed.

Lemma canon_set_strike L k e :
  with_strikes (canon L) (<[k := e]> (l_strikes (canon L))) = canon (with_strikes L (<[k := e]> (l_strikes L))).
Proof. rewrite !canon_eq. unfold with_strikes. cbn. by rewrite insert_union_l. Qed.

Lemma canon_set_seen L k d :
  with_first_seen (canon L) (<[k := d]> (l_first_seen (canon L))) = canon (with_first_seen L (<[k := d]> (l_first_seen L))).
Proof. rewrite !canon_eq. unfold with_first_seen. cbn. by rewrite insert_union_l. Qed.

Definition canon_st (st : ServiceLedger * FoldOutcome) : ServiceLedger * FoldOutcome := (canon st.1, st.2).

Lemma foldl_commute {S A} (f : S -> A -> S) (g : S -> S) s l :
  (forall s a, f (g s) a = g (f s a)) -> foldl f (g s) l = g (foldl f s l).
Proof. intros Hf. revert s. induction l as [|a l IH]; intros s; cbn; [done|]. by rewrite Hf, IH. Qed.

Lemma foldM_commute {E S A} (f : S -> A -> outcome E S) (g : S -> S) s l :
  (forall s a, f (g s) a = outcome_map g (f s a)) -> foldM f (g s) l = outcome_map g (foldM f s l).
Proof.
  intros Hf. revert s. induction l as [|a l IH]; intros s; cbn; [done|]. rewrite Hf. destruct (f s a); cbn; [apply IH|done..].
Qed.

Lemma maybe_award_canon w st rh id : maybe_award w (canon_st st) rh id = canon_st (maybe_award w st rh id).
Proof.
  destruct st as [L o]. unfold maybe_award, canon_st. cbn. destruct (l_reward_routing_daa L); [|done].
  destruct (l_pending L !! rh) as [req|]; [|done]. by destruct (_ || _).
Qed.

Lemma award_first_canon w st rh ids : award_first w (canon_st st) rh ids = canon_st (award_first w st rh ids).
Proof. destruct ids; [done|]. apply maybe_award_canon. Qed.

Lemma reset_streak_canon w daa st id : reset_streak w daa (canon_st st) id = canon_st (reset_streak w daa st id).
Proof.
  destruct st as [L o]. unfold reset_streak, reset_preserved_last_daa, canon_st. cbn [fst snd]. rewrite !strike_state_canon.
  destruct (_ && _); [|done]. rewrite canon_set_strike. done.
Qed.

Lemma reset_streaks_canon w daa st ids :
  foldl (reset_streak w daa) (canon_st st) ids = canon_st (foldl (reset_streak w daa) st ids).
Proof. apply foldl_commute. intros. apply reset_streak_canon. Qed.

Lemma burn_canon L m p : burn (canon L) m p = (canon (burn L m p).1, (burn L m p).2).
Proof. unfold burn. cbn. by destruct (l_vault L !! m). Qed.

Lemma strike_canon {E} b rh st m : strike (E := E) b rh (canon_st st) m = outcome_map canon_st (strike b rh st m).
Proof.
  destruct st as [L o]. unfold strike, canon_st, consecutive_misses. cbn [fst snd]. rewrite !strike_state_canon.
  destruct (warmup b); [done|]. match goal with |- (?c ≫= _) = _ => destruct c as [lim| | |] end; run; [|done..].
  destruct lim; [done|]. destruct (add_ 32 _ 1) as [count| | |]; run; [|done..].
  rewrite canon_set_strike, burn_canon.
  set (L1 := with_strikes L _). change (v2_at (canon L1) (fi_daa b)) with (v2_at L1 (fi_daa b)).
  destruct (burn L1 m _) as [L2 burned]. cbn [fst snd]. case_bool_decide; cbn; [by rewrite canon_set_strike|done].
Qed.

Lemma fold_escrow_canon b st e : fold_escrow b (canon st.1, st.2) e = (canon (fold_escrow b st e).1, (fold_escrow b st e).2).
Proof.
  destruct st as [L si], e as [m c]. unfold fold_escrow. cbn [fst snd].
  assert (negb (contains_key (l_first_seen (canon L)) m) && negb (contains_key (l_first_seen_base (canon L)) m) =
          negb (contains_key (l_first_seen L) m) && negb (contains_key (l_first_seen_base L) m)) as Hseen.
  { rewrite canon_eq. unfold contains_key. cbn. rewrite lookup_union, lookup_empty. by destruct (l_first_seen L !! m), (l_first_seen_base L !! m). }
  rewrite <-!andb_assoc, Hseen. destruct (negb (warmup b) && _); rewrite ?canon_set_seen; by destruct (match fi_warmup_burned b with Some _ => _ | None => _ end).
Qed.

Lemma fold_escrows_canon {E} L b : fold_escrows (E := E) (canon L) b = outcome_map canon_st (fold_escrows L b).
Proof.
  unfold fold_escrows. set (L0 := with_producer_spk L _).
  change (with_producer_spk (canon L) _) with (canon L0). clearbody L0.
  rewrite (foldl_commute (fold_escrow b) (fun st => (canon st.1, st.2)) (L0, [])) by (intros; apply fold_escrow_canon).
  destruct (foldl (fold_escrow b) _ _) as [L1 si]. cbn [fst snd].
  change (l_burnable_window_daa (canon L1)) with (l_burnable_window_daa L1). change (l_vault (canon L1)) with (l_vault L1).
  by destruct (expire_vault _ _ _) as [[V ex]| | |].
Qed.

Lemma fold_request_canon b g L r : fold_request b g (canon L) r = canon (fold_request b g L r).
Proof. destruct r as [[rh t] mt]. unfold fold_request. change (l_audited (canon L)) with (l_audited L).
  destruct (g && _); [done|]. by destruct g. Qed.

Lemma fold_requests_canon {E} L b : fold_requests (E := E) (canon L) b = outcome_map canon (fold_requests L b).
Proof.
  unfold fold_requests. change (l_pending (canon L)) with (l_pending L).
  destruct (btree_retain _ (l_pending L)) as [p| | |]; run; [|done..].
  change (l_early_responses (canon L)) with (l_early_responses L).
  destruct (btree_retain _ (l_early_responses L)) as [e| | |]; run; [|done..].
  change (with_early_responses (with_pending (canon L) p) e) with (canon (with_early_responses (with_pending L p) e)).
  set (L1 := with_early_responses _ e). change (l_reward_routing_daa (canon L1)) with (l_reward_routing_daa L1).
  set (g := match l_reward_routing_daa L1 with Some _ => _ | None => _ end).
  change (l_audited (canon L1)) with (l_audited L1). destruct g.
  - destruct (btree_retain _ (l_audited L1)) as [a| | |]; run; [|done..]. cbn [outcome_map]. f_equal.
    change (with_audited (canon L1) a) with (canon (with_audited L1 a)). apply foldl_commute. intros. apply fold_request_canon.
  - run. cbn [outcome_map]. f_equal. apply foldl_commute. intros. apply fold_request_canon.
Qed.

Lemma fold_response_canon {E} b st r : fold_response (E := E) b (canon_st st) r = outcome_map canon_st (fold_response b st r).
Proof.
  destruct st as [L o], r as [rh [r|]]; [|done]. unfold fold_response. cbn [canon_st fst snd].
  change (l_pending (canon L)) with (l_pending L). change (l_early_responses (canon L)) with (l_early_responses L).
  destruct (l_pending L !! rh) as [req|]; [|by destruct (default _ _)]. destruct (pr_audit req) as [a|]; [|done].
  destruct (foldM _ _ _) as [[responded served]| | |]; run; [|done..]. cbn [outcome_map]. f_equal.
  rewrite <-reset_streaks_canon, <-award_first_canon. done.
Qed.

Lemma fold_pending_canon {E} b st rh :
  fold_pending (E := E) b (canon_st st.1, st.2) rh = outcome_map (fun st => (canon_st st.1, st.2)) (fold_pending b st rh).
Proof.
  destruct st as [[L o] sv]. unfold fold_pending. cbn [canon_st fst snd]. change (l_pending (canon L)) with (l_pending L).
  destruct (l_pending L !! rh) as [req|]; run; [|done]. destruct (pr_audit req) as [a|].
  - destruct (_ <? _); [|done]. change (canon L, o) with (canon_st (L, o)).
    rewrite (foldM_commute _ canon_st) by (intros; apply strike_canon). by destruct (foldM _ _ _) as [[L1 o1]| | |].
  - destruct (_ <? _); [|done]. destruct (fi_cohort b (pr_tier req)) as [|p set]; [done|].
    destruct (foldM _ _ _) as [[responded sv']| | |]; run; [|done..].
    change (v2_at (canon L)) with (v2_at L). destruct (add_ 64 _ _) as [w| | |]; run; [|done..]. cbn [outcome_map fst snd]. f_equal. f_equal.
    rewrite <-award_first_canon. done.
Qed.

Lemma fold_inner_canon {E} L b : fold_inner (E := E) (canon L) b = outcome_map canon_st (fold_inner L b).
Proof.
  unfold fold_inner. rewrite fold_escrows_canon. destruct (fold_escrows L b) as [[L0 o0]| | |]; cbn [outcome_map]; run; cbn [canon_st fst snd]; [|done..].
  rewrite fold_requests_canon. destruct (fold_requests L0 b) as [L1| | |]; cbn [outcome_map]; run; [|done..].
  assert (fold_responses (E := E) (canon_st (L1, o0)) b = outcome_map canon_st (fold_responses (L1, o0) b)) as Hr.
  { unfold fold_responses. rewrite (foldM_commute _ canon_st) by (intros; apply fold_response_canon).
    destruct (foldM _ _ _) as [[L2 o2]| | |]; cbn [outcome_map]; run; cbn [canon_st fst snd]; [|done..].
    change (l_early_responses (canon L2)) with (l_early_responses L2). by destruct (evict _ _). }
  unfold canon_st in Hr at 1. cbn [fst snd] in Hr. rewrite Hr. destruct (fold_responses (L1, o0) b) as [st| | |]; cbn [outcome_map]; run; [|done..].
  unfold fold_audits. change (l_pending (canon_st st).1) with (l_pending st.1).
  pose proof (foldM_commute (fold_pending (E := E) b) (fun st => (canon_st st.1, st.2)) (st, []) (btree_keys (l_pending st.1))
    (fold_pending_canon b)) as Hp. cbn [fst snd] in Hp. rewrite Hp.
  clear Hp Hr. destruct (foldM _ _ _) as [[st1 sv]| | |]; cbn [outcome_map]; run; cbn [fst snd]; [|done..]. by rewrite reset_streaks_canon.
Qed.

Lemma folds_canon {E} L bs : folds (E := E) (canon L) bs = outcome_map (fun r => (canon r.1, r.2)) (folds L bs).
Proof.
  revert L. induction bs as [|b bs IH]; intros L; cbn [folds]; [done|]. rewrite fold_inner_canon.
  destruct (fold_inner L b) as [[L1 o]| | |]; cbn [outcome_map]; run; cbn [canon_st fst snd]; [|done..]. rewrite IH.
  by destruct (folds L1 bs) as [[L2 os]| | |].
Qed.

(** C15: a snapshot is enough to go on.  Restore the snapshot of a ledger [L]
    into any ledger [L0] with the same activation scores, and fold any chain of
    blocks: the outcomes (misses and burns, rewards, resets, sightings,
    expiries) and the snapshot at the end are the ones [L] itself gives, and the
    fold panics on the one exactly when it panics on the other. *)
Theorem snapshot_resumes {E} L0 L bs :
  l_window_v2_activation_daa L0 = l_window_v2_activation_daa L ->
  l_burnable_window_daa L0 = l_burnable_window_daa L ->
  l_reward_routing_daa L0 = l_reward_routing_daa L ->
  outcome_map (fun r => (snapshot r.1, r.2)) (folds (E := E) (restore_snapshot L0 (snapshot L)) bs) =
  outcome_map (fun r => (snapshot r.1, r.2)) (folds (E := E) L bs).
Proof.
  intros H1 H2 H3. replace (restore_snapshot L0 (snapshot L)) with (canon L) by (unfold canon, restore_snapshot; congruence).
  rewrite folds_canon. destruct (folds L bs) as [[L1 os]| | |]; cbn [outcome_map fst snd]; [by rewrite snapshot_canon|done..].
Qed.

(** A node restored in the middle of the example closes it as the others do. *)
Lemma snapshot_resumes_witness :
  outcome_map (fun r => (snapshot r.1, r.2)) (folds (E := ()) (restore_snapshot ex_l0 (snapshot ex_l3)) [ex_b4]) =
  outcome_map (fun r => (snapshot r.1, r.2)) (folds (E := ()) ex_l3 [ex_b4]).
Proof. apply snapshot_resumes; reflexivity. Defined.
