(* ===== verification/LedgerWire.v ===== *)
(** * The snapshot encoding

    [ServiceLedgerSnapshot::to_bytes] and [from_bytes], the canonical bytes that
    are hashed into the service commitment and sent to a syncing node.  A
    [Reader] holds the bytes that are left; a loop of [n] items has the length
    of the input as fuel, which its items cannot outlast because each of them
    takes a byte.

    A class of codecs with its laws - what is written is bytes that are read
    back, and a read returns typed values without panicking - with one instance per record
    of the snapshot, and the round trip of the whole in both directions. *)
From S2P Require Import Prelude Bytes Tx BTree Ledger.
From stdpp Require Import base gmap list strings.
#[local] Open Scope Z_scope.

Notation len l := (Z.of_nat (length l)).

(** ** Encoding *)
Definition put_list {A} (put : A -> list Z) (l : list A) : list Z := le_bytes 4 (len l) ++ (l ≫= put).

Definition put_hashes (hashes : list Hash) : list Z := put_list hash_bytes hashes.

Definition put_claim (c : EscrowClaim) : list Z :=
  hash_bytes (transaction_id (ec_outpoint c)) ++ le_bytes 4 (op_index (ec_outpoint c)) ++
  le_bytes 8 (ec_value c) ++ le_bytes 8 (ec_daa c).

Definition put_vault (mc : Hash * list EscrowClaim) : list Z :=
  hash_bytes mc.1 ++ put_list put_claim mc.2.

Definition put_delegation (ei : Hash * Hash) : list Z := hash_bytes ei.1 ++ hash_bytes ei.2.

Definition put_audit (a : option Audit) : list Z :=
  match a with
  | Some a => [1] ++ put_hashes (au_cohort a) ++ put_list put_delegation (au_delegations a) ++
              put_hashes (au_responded a) ++ le_bytes 8 (au_window_end_daa a)
  | None => [0]
  end.

Definition put_winner (w : option Hash) : list Z := match w with Some w => [1] ++ hash_bytes w | None => [0] end.

Definition put_pending (rr : Hash * PendingRequest) : list Z :=
  let r := rr.2 in
  hash_bytes rr.1 ++ le_bytes 1 (pr_tier r) ++ le_bytes 4 (pr_max_tokens r) ++ le_bytes 8 (pr_accepted_daa r) ++
  le_bytes 8 (pr_reward r) ++ put_winner (pr_winner r) ++ put_audit (pr_audit r) ++ put_hashes (pr_early_responders r).

Definition put_early (e : Hash * (Z * list Hash)) : list Z := hash_bytes e.1 ++ le_bytes 8 e.2.1 ++ put_hashes e.2.2.

Definition put_strike (me : Hash * StrikeEntry) : list Z :=
  hash_bytes me.1 ++ le_bytes 4 (se_count me.2) ++ le_bytes 8 (se_last_daa me.2).

Definition put_daa (md : Hash * Z) : list Z := hash_bytes md.1 ++ le_bytes 8 md.2.

Definition put_spk (ms : Hash * ScriptPublicKey) : list Z :=
  hash_bytes ms.1 ++ le_bytes 2 (spk_version ms.2) ++ le_bytes 2 (len (spk_script ms.2)) ++ spk_script ms.2.

Definition put_producer (p : Z * Hash * Z * Hash) : list Z :=
  let '(daa, id, tier, escrow) := p in le_bytes 8 daa ++ hash_bytes id ++ le_bytes 1 tier ++ hash_bytes escrow.

(** A map: its length and its entries by increasing keys. *)
Definition put_map {V} (put : Hash * V -> list Z) (m : gmap Hash V) : list Z :=
  le_bytes 4 (Z.of_nat (size m)) ++ (btree_iter m ≫= put).

Definition SNAPSHOT_ENCODING_VERSION : Z := 1.

Definition to_bytes (s : ServiceLedgerSnapshot) : list Z :=
  [SNAPSHOT_ENCODING_VERSION] ++ put_map put_vault (ss_vault s) ++ put_map put_pending (ss_pending s) ++
  put_map put_early (ss_early_responses s) ++ put_map put_strike (ss_strikes s) ++ put_map put_daa (ss_first_seen s) ++
  put_map put_daa (ss_audited s) ++ put_map put_spk (ss_producer_spk s) ++
  put_list put_producer (ss_recent_producers s).

(** ** Decoding *)
Definition Reader (A : Type) : Type := list Z -> outcome string (A * list Z).

#[export] Instance reader_ret : MRet Reader := fun A a bs => Ok (a, bs).
#[export] Instance reader_bind : MBind Reader := fun A B f r bs => '(a, bs) ← r bs; f a bs.

Definition r_err {A} (e : string) : Reader A := fun _ => Err e.

Definition r_take (n : Z) : Reader (list Z) := fun bs =>
  if n <=? len bs then Ok (take (Z.to_nat n) bs, drop (Z.to_nat n) bs) else Err "truncated snapshot"%string.

Definition r_uint (n : Z) : Reader Z := s ← r_take n; mret (of_le_bytes s).
Definition r_hash : Reader Hash := s ← r_take 32; mret (hash_of_bytes s).

(** [for _ in 0..n]: each iteration passes the state on. *)
Fixpoint r_loop {S} (fuel : nat) (n : Z) (item : S -> Reader S) (s : S) : Reader S := fun bs =>
  if n <=? 0 then Ok (s, bs)
  else match fuel with
       | O => OutOfFuel
       | Datatypes.S fuel => '(s, bs) ← item s bs; r_loop fuel (n - 1) item s bs
       end.

(** The bytes left, and one more iteration to find them missing. *)
Definition r_for {S} (n : Z) (item : S -> Reader S) (s : S) : Reader S :=
  fun bs => r_loop (Datatypes.S (length bs)) n item s bs.

Definition r_list {A} (item : Reader A) : Reader (list A) :=
  n ← r_uint 4; r_for n (fun l => a ← item; mret (l ++ [a])) [].

Definition r_hashes : Reader (list Hash) := r_list r_hash.

(** The entries of a map; [insert(..).is_some()] rejects a repeated key. *)
Definition r_map {V} (item : Reader (Hash * V)) (bad : V -> bool) (e : string) : Reader (gmap Hash V) :=
  n ← r_uint 4;
  r_for n (fun m => '(k, v) ← item; if bad v || contains_key m k then r_err e else mret (<[k := v]> m)) ∅.

Definition r_claim : Reader EscrowClaim :=
  txid ← r_hash; index ← r_uint 4; value ← r_uint 8; daa ← r_uint 8; mret (mkClaim (mkOutpoint txid index) value daa).

Definition r_vault : Reader (Hash * list EscrowClaim) := miner ← r_hash; claims ← r_list r_claim; mret (miner, claims).

Definition r_winner : Reader (option Hash) :=
  t ← r_uint 1;
  if t =? 0 then mret None else if t =? 1 then w ← r_hash; mret (Some w) else r_err "malformed winner"%string.

Definition r_delegation : Reader (Hash * Hash) := e ← r_hash; id ← r_hash; mret (e, id).

Definition r_audit : Reader (option Audit) :=
  t ← r_uint 1;
  if t =? 0 then mret None
  else if t =? 1 then
    cohort ← r_hashes; delegations ← r_list r_delegation; responded ← r_hashes; window_end ← r_uint 8;
    mret (Some (mkAudit cohort delegations responded window_end))
  else r_err "malformed audit"%string.

Definition r_pending : Reader (Hash * PendingRequest) :=
  rh ← r_hash; tier ← r_uint 1; max_tokens ← r_uint 4; accepted ← r_uint 8; reward ← r_uint 8;
  winner ← r_winner; audit ← r_audit; early ← r_hashes;
  mret (rh, mkPending tier max_tokens accepted reward winner audit early).

Definition r_early : Reader (Hash * (Z * list Hash)) := rh ← r_hash; seen ← r_uint 8; keys ← r_hashes; mret (rh, (seen, keys)).

Definition r_strike : Reader (Hash * StrikeEntry) :=
  m ← r_hash; count ← r_uint 4; last ← r_uint 8; mret (m, mkStrike count last).

Definition r_daa : Reader (Hash * Z) := m ← r_hash; daa ← r_uint 8; mret (m, daa).

Definition r_spk : Reader (Hash * ScriptPublicKey) :=
  m ← r_hash; version ← r_uint 2; n ← r_uint 2; script ← r_take n; mret (m, mkSpk version script).

Definition r_producer : Reader (Z * Hash * Z * Hash) :=
  daa ← r_uint 8; id ← r_hash; tier ← r_uint 1; escrow ← r_hash; mret (daa, id, tier, escrow).

Definition r_snapshot : Reader ServiceLedgerSnapshot :=
  v ← r_uint 1;
  if negb (v =? SNAPSHOT_ENCODING_VERSION) then r_err "unsupported snapshot encoding"%string
  else
    vault ← r_map r_vault (fun claims => bool_decide (claims = [])) "malformed vault"%string;
    pending ← r_map r_pending (fun _ => false) "malformed pending"%string;
    early ← r_map r_early (fun _ => false) "malformed early responses"%string;
    strikes ← r_map r_strike (fun _ => false) "malformed strikes"%string;
    first_seen ← r_map r_daa (fun _ => false) "malformed first_seen"%string;
    audited ← r_map r_daa (fun _ => false) "malformed audited"%string;
    producer_spk ← r_map r_spk (fun _ => false) "malformed producer_spk"%string;
    recent ← r_list r_producer;
    mret (mkSnapshot vault pending early strikes first_seen audited producer_spk recent).

Definition from_bytes (bytes : list Z) : outcome string ServiceLedgerSnapshot :=
  '(snap, rest) ← r_snapshot bytes;
  if negb (bool_decide (rest = [])) then Err "trailing bytes"%string
  else if negb (bool_decide (to_bytes snap = bytes)) then Err "non-canonical snapshot"%string
  else Ok snap.

(** A reader that takes at least [c] bytes and returns values in [Q]. *)
Definition reads {A} (c : nat) (r : Reader A) (Q : A -> Prop) : Prop :=
  forall bs, Forall is_byte bs ->
    match r bs with
    | Ok (a, rest) => Q a /\ Forall is_byte rest /\ (length rest + c <= length bs)%nat
    | Err _ => True
    | _ => False
    end.

Class Codec {A} (put : A -> list Z) (get : Reader A) (valid : A -> Prop) : Prop := {
  put_get : forall a rest, valid a -> get (put a ++ rest) = Ok (a, rest);
  get_reads : reads 1 get valid;
  put_bytes : forall a, valid a -> Forall is_byte (put a);
}.

(** ** Rules of readers *)
Lemma reads_weaken {A} c c' (r : Reader A) (Q Q' : A -> Prop) :
  reads c r Q -> (c' <= c)%nat -> (forall a, Q a -> Q' a) -> reads c' r Q'.
Proof.
  intros Hr Hc HQ bs Hbs. specialize (Hr bs Hbs). destruct (r bs) as [[a rest]| | |]; try done.
  destruct Hr as (? & ? & ?). split; [auto|]. split; [done|lia].
Qed.

Lemma reads_bind {A B} c1 c2 (r : Reader A) (k : A -> Reader B) Q R :
  reads c1 r Q -> (forall a, Q a -> reads c2 (k a) R) -> reads (c1 + c2) (r ≫= k) R.
Proof.
  intros Hr Hk bs Hbs. specialize (Hr bs Hbs). unfold mbind, reader_bind. destruct (r bs) as [[a rest]| | |]; run; try done.
  destruct Hr as (Ha & Hrest & Hl). specialize (Hk a Ha rest Hrest). destruct (k a rest) as [[b rest']| | |]; try done.
  destruct Hk as (? & ? & ?). split; [done|]. split; [done|lia].
Qed.

Lemma reads_ret {A} (a : A) (Q : A -> Prop) : Q a -> reads 0 (mret a) Q.
Proof. intros Ha bs Hbs. split; [done|]. split; [done|lia]. Qed.

Lemma reads_err {A} c e (Q : A -> Prop) : reads c (r_err e) Q.
Proof. done. Qed.

Lemma reads_take n : 0 <= n -> reads (Z.to_nat n) (r_take n) (fun s => len s = n /\ Forall is_byte s).
Proof.
  intros Hn bs Hbs. unfold r_take. destruct (Z.leb_spec n (len bs)); [|done].
  split; [split; [rewrite length_take; lia|by apply Forall_take]|]. split; [by apply Forall_drop|]. rewrite length_drop. lia.
Qed.

(** A loop whose items each take a byte ends within its fuel. *)
Lemma reads_loop {S} (I : Z -> S -> Prop) (item : S -> Reader S) fuel n i s bs :
  (forall i s, I i s -> reads 1 (item s) (I (i + 1))) -> I i s -> (length bs < fuel)%nat -> Forall is_byte bs ->
  match r_loop fuel n item s bs with
  | Ok (s', rest) => I (i + Z.max 0 n) s' /\ Forall is_byte rest /\ (length rest <= length bs)%nat
  | Err _ => True
  | _ => False
  end.
Proof.
  intros Hitem. revert n i s bs. induction fuel as [|fuel IH]; intros n i s bs HI Hf Hbs; [lia|]. cbn [r_loop].
  destruct (Z.leb_spec n 0); [rewrite Z.max_l, Z.add_0_r by lia; done|].
  specialize (Hitem i s HI bs Hbs). destruct (item s bs) as [[s1 bs1]| | |]; run; try done. destruct Hitem as (HI1 & Hbs1 & Hl).
  specialize (IH (n - 1) (i + 1) s1 bs1 HI1 ltac:(lia) Hbs1). destruct (r_loop fuel (n - 1) item s1 bs1) as [[s2 rest]| | |]; try done.
  destruct IH as (HI2 & ? & ?). split; [|split; [done|lia]]. by replace (i + Z.max 0 n) with (i + 1 + Z.max 0 (n - 1)) by lia.
Qed.

Lemma reads_for {S} (I : Z -> S -> Prop) (item : S -> Reader S) n s :
  (forall i s, I i s -> reads 1 (item s) (I (i + 1))) -> 0 <= n -> I 0 s -> reads 0 (r_for n item s) (I n).
Proof.
  intros Hitem Hn HI bs Hbs. unfold r_for.
  pose proof (reads_loop I item (Datatypes.S (length bs)) n 0 s bs Hitem HI ltac:(lia) Hbs) as HL.
  destruct (r_loop _ _ _ _ _) as [[s' rest]| | |]; try done. rewrite Z.max_r, Z.add_0_l in HL by lia.
  destruct HL as (? & ? & ?). split; [done|]. split; [done|lia].
Qed.

(** ** Rules of round trips *)
Lemma put_get_bind {A B} (put : A -> list Z) (get : Reader A) valid (k : A -> Reader B) a rest :
  Codec put get valid -> valid a -> (get ≫= k) (put a ++ rest) = k a rest.
Proof. intros HC Ha. unfold mbind, reader_bind. by rewrite put_get. Qed.

(** A loop over encoded items folds them. *)
Lemma loop_put {S A} (item : S -> Reader S) (put : A -> list Z) (step : S -> A -> S) fuel (l : list A) s rest :
  (length l < fuel)%nat ->
  (forall pre a post rest', l = pre ++ a :: post -> item (foldl step s pre) (put a ++ rest') = Ok (foldl step s (pre ++ [a]), rest')) ->
  r_loop fuel (len l) item s ((l ≫= put) ++ rest) = Ok (foldl step s l, rest).
Proof.
  intros Hf Hitem.
  assert (forall suf pre fuel, l = pre ++ suf -> (length suf < fuel)%nat ->
    r_loop fuel (len suf) item (foldl step s pre) ((suf ≫= put) ++ rest) = Ok (foldl step s l, rest)) as Hgen.
  { induction suf as [|a suf IH]; intros pre fuel' El Hf'; (destruct fuel' as [|fuel']; [lia|]); cbn [r_loop].
    - subst. by rewrite app_nil_r.
    - destruct (Z.leb_spec (len (a :: suf)) 0); [cbn in *; lia|]. rewrite bind_cons, <-app_assoc, (Hitem pre a suf _ El). run.
      replace (len (a :: suf) - 1) with (len suf) by (cbn; lia). apply IH; [by rewrite <-app_assoc|cbn in *; lia]. }
  by apply (Hgen l []).
Qed.

(** ** Integers and hashes *)
Lemma hash_of_bytes_le bs : hash_of_bytes bs = of_le_bytes (rev bs).
Proof.
  unfold hash_of_bytes. assert (forall acc, foldl (fun acc b => acc * 256 + b) acc bs = acc * 256 ^ len bs + of_le_bytes (rev bs)) as H;
    [|by rewrite H].
  induction bs as [|b bs IH]; intros acc; cbn [foldl rev length]; [cbn; lia|].
  rewrite IH, of_le_app, length_rev, Nat2Z.inj_succ, Z.pow_succ_r by lia. cbn [of_le_bytes]. lia.
Qed.

#[export] Instance uint_codec n : (0 < n)%nat -> Codec (le_bytes n) (r_uint (Z.of_nat n)) (in_u (8 * Z.of_nat n)).
Proof.
  intros Hn. assert (forall x, in_u (8 * Z.of_nat n) x <-> 0 <= x < 256 ^ Z.of_nat n) as Hu.
  { intros x. unfold in_u. rewrite Z.pow_mul_r by lia. done. }
  split.
  - intros x rest Hx. unfold r_uint, mbind, reader_bind, r_take. rewrite length_app, length_le_bytes.
    destruct (Z.leb_spec (Z.of_nat n) (Z.of_nat (n + length rest))); [|lia]. run. rewrite Nat2Z.id.
    unfold mret, reader_ret. rewrite take_app_length', drop_app_length' by (by rewrite length_le_bytes). f_equal. f_equal.
    apply of_le_le. by apply Hu.
  - eapply (reads_weaken (Z.to_nat (Z.of_nat n) + 0)); [|lia|exact (fun _ H => H)].
    eapply reads_bind; [by apply reads_take; lia|]. intros s [Hl Hs]. apply reads_ret, Hu. rewrite <-Hl. by apply of_le_bound.
  - intros x _. apply le_bytes_bytes.
Qed.

#[export] Instance hash_codec : Codec hash_bytes r_hash (in_u 256).
Proof.
  split.
  - intros h rest Hh. unfold r_hash, mbind, reader_bind, r_take. rewrite length_app, length_hash_bytes.
    destruct (Z.leb_spec 32 (Z.of_nat (32 + length rest))); [|lia]. run. unfold mret, reader_ret.
    rewrite take_app_length', drop_app_length' by (by rewrite length_hash_bytes). f_equal. f_equal.
    rewrite hash_of_bytes_le. unfold hash_bytes. rewrite rev_involutive. apply of_le_le. exact Hh.
  - eapply (reads_weaken (Z.to_nat 32 + 0)); [|lia|exact (fun _ H => H)]. eapply reads_bind; [by apply reads_take|].
    intros s [Hl Hs]. apply reads_ret. rewrite hash_of_bytes_le. pose proof (of_le_bound (rev s)) as Hb. rewrite length_rev, Hl in Hb.
    apply Hb. by apply List.Forall_rev.
  - intros h _. apply List.Forall_rev, le_bytes_bytes.
Qed.

(** ** Lists and maps *)
Definition v_list {A} (valid : A -> Prop) (l : list A) : Prop := Forall valid l /\ in_u 32 (len l).

Lemma foldl_snoc {A} (l s : list A) : foldl (fun l a => l ++ [a]) s l = s ++ l.
Proof. revert s. induction l as [|a l IH]; intros s; cbn; [by rewrite app_nil_r|]. by rewrite IH, <-app_assoc. Qed.

Lemma put_length {A} (put : A -> list Z) get valid a : Codec put get valid -> valid a -> (1 <= length (put a))%nat.
Proof.
  intros HC Ha. pose proof (get_reads (put a) (put_bytes a Ha)) as Hr. pose proof (put_get a [] Ha) as Hg.
  rewrite app_nil_r in Hg. rewrite Hg in Hr. cbn in Hr. lia.
Qed.

Lemma puts_length {A} (put : A -> list Z) get valid l : Codec put get valid -> Forall valid l -> (length l <= length (l ≫= put))%nat.
Proof.
  intros HC. induction 1 as [|a l Ha _ IH]; [done|]. rewrite bind_cons, length_app. cbn [length].
  pose proof (put_length put get valid a HC Ha). lia.
Qed.

Lemma puts_bytes {A} (put : A -> list Z) get valid l : Codec put get valid -> Forall valid l -> Forall is_byte (l ≫= put).
Proof. intros HC. induction 1 as [|a l Ha _ IH]; [constructor|]. rewrite bind_cons. apply Forall_app. split; [by apply put_bytes|done]. Qed.

#[export] Instance list_codec {A} (put : A -> list Z) get valid :
  Codec put get valid -> Codec (put_list put) (r_list get) (v_list valid).
Proof.
  intros HC. split.
  - intros l rest [Hl Hn]. unfold put_list. rewrite <-app_assoc. unfold r_list.
    erewrite (put_get_bind (le_bytes 4)); [|apply (uint_codec 4); lia|done]. unfold r_for.
    rewrite (loop_put _ put (fun l a => l ++ [a])); [by rewrite foldl_snoc|..].
    + rewrite length_app. pose proof (puts_length put get valid l HC Hl). lia.
    + intros pre a post rest' ->. rewrite !foldl_snoc. cbn [app]. erewrite put_get_bind; [done..|].
      rewrite Forall_app, Forall_cons in Hl. tauto.
  - apply (reads_weaken (1 + 0) 1 _ (v_list valid)); [|lia|done]. eapply reads_bind; [apply (uint_codec 4); lia|].
    intros n Hn. eapply reads_weaken; [apply (reads_for (fun i l => Forall valid l /\ len l = i))|done|].
    + intros i l [Hl Hi]. apply (reads_weaken (1 + 0) 1 _ (fun l' => Forall valid l' /\ len l' = i + 1)); [|lia|done].
      eapply reads_bind; [apply get_reads|]. intros a Ha. apply reads_ret. rewrite Forall_app, Forall_singleton, length_app.
      split; [done|cbn; lia].
    + apply Hn.
    + done.
    + intros l [Hl Hi]. split; [done|]. by rewrite Hi.
  - intros l [Hl _]. apply Forall_app. split; [apply le_bytes_bytes|by eapply puts_bytes].
Qed.

Definition v_map {V} (valid : Hash * V -> Prop) (bad : V -> bool) (m : gmap Hash V) : Prop :=
  map_Forall (fun k v => valid (k, v) /\ bad v = false) m /\ in_u 32 (Z.of_nat (size m)).

Lemma v_map_iter {V} (valid : Hash * V -> Prop) bad m :
  v_map valid bad m -> Forall (fun kv => valid kv /\ bad kv.2 = false) (btree_iter m).
Proof. intros [Hm _]. apply Forall_forall. intros [k v] Hin. apply elem_of_iter in Hin. by apply (Hm k v). Qed.

(** The keys inserted so far. *)
Lemma fold_entries {V} (l : list (Hash * V)) k (m : gmap Hash V) :
  is_Some (foldl (fun m '(k, v) => <[k := v]> m) m l !! k) <-> k ∈ l.*1 \/ is_Some (m !! k).
Proof.
  revert m. induction l as [|[k' v] l IH]; intros m; cbn; [set_solver|]. rewrite IH, elem_of_cons, lookup_insert_is_Some.
  destruct (decide (k = k')); naive_solver.
Qed.

#[export] Instance map_codec {V} (put : Hash * V -> list Z) get valid bad e :
  Codec put get valid -> Codec (put_map put) (r_map get bad e) (v_map valid bad).
Proof.
  intros HC. split.
  - intros m rest Hm. pose proof (v_map_iter valid bad m Hm) as Hl. destruct Hm as [_ Hn].
    assert (Forall valid (btree_iter m)) as Hl' by (eapply Forall_impl; [exact Hl|]; by intros ? []).
    unfold put_map. rewrite <-app_assoc. unfold r_map.
    erewrite (put_get_bind (le_bytes 4)); [|apply (uint_codec 4); lia|done]. unfold r_for. rewrite <-length_iter.
    rewrite (loop_put _ put (fun m '(k, v) => <[k := v]> m)).
    + by rewrite fold_delta, (right_id_L ∅ (∪)).
    + rewrite length_app. pose proof (puts_length put get valid _ HC Hl'). lia.
    + intros pre [k v] post rest' El. rewrite El, Forall_app, Forall_cons in Hl. destruct Hl as (_ & [Hv Hb] & _).
      erewrite put_get_bind; [|done..]. cbn in Hb. rewrite Hb. cbn [orb]. unfold contains_key.
      destruct (foldl _ ∅ pre !! k) as [v'|] eqn:Ek; [exfalso|by rewrite foldl_app].
      assert (k ∈ pre.*1) as Hin.
      { destruct (fold_entries pre k ∅) as [Hf _]. destruct Hf as [?|[? Hx]]; [by eexists|done|]. by rewrite lookup_empty in Hx. }
      pose proof (NoDup_keys m) as Hnd. unfold btree_keys in Hnd. rewrite El, fmap_app in Hnd. apply NoDup_app in Hnd. set_solver.
  - apply (reads_weaken (1 + 0) 1 _ (v_map valid bad)); [|lia|done]. eapply reads_bind; [apply (uint_codec 4); lia|].
    intros n Hn. eapply reads_weaken;
      [apply (reads_for (fun i m => map_Forall (fun k v => valid (k, v) /\ bad v = false) m /\ Z.of_nat (size m) = i))|done|].
    + intros i m [Hl Hi].
      apply (reads_weaken (1 + 0) 1 _ (fun m' => map_Forall (fun k v => valid (k, v) /\ bad v = false) m' /\ Z.of_nat (size m') = i + 1)); [|lia|done].
      eapply reads_bind; [apply get_reads|]. intros [k v] Hv. unfold contains_key.
      destruct (bad v) eqn:Hb; [apply reads_err|]. cbn [orb]. destruct (m !! k) eqn:Ek; [apply reads_err|]. apply reads_ret. split.
      * by apply map_Forall_insert_2.
      * rewrite map_size_insert_None by done. lia.
    + apply Hn.
    + split; [apply map_Forall_empty|by rewrite map_size_empty].
    + intros m [Hl Hi]. split; [done|]. by rewrite Hi.
  - intros m Hm. apply Forall_app. split; [apply le_bytes_bytes|]. eapply puts_bytes; [done|].
    eapply Forall_impl; [by apply (v_map_iter valid bad)|]. by intros ? [].
Qed.

(** ** The records of the snapshot *)
#[export] Instance u8_codec : Codec (le_bytes 1) (r_uint 1) (in_u 8).
Proof. apply (uint_codec 1). lia. Qed.
#[export] Instance u16_codec : Codec (le_bytes 2) (r_uint 2) (in_u 16).
Proof. apply (uint_codec 2). lia. Qed.
#[export] Instance u32_codec : Codec (le_bytes 4) (r_uint 4) (in_u 32).
Proof. apply (uint_codec 4). lia. Qed.
#[export] Instance u64_codec : Codec (le_bytes 8) (r_uint 8) (in_u 64).
Proof. apply (uint_codec 8). lia. Qed.
#[export] Instance hashes_codec : Codec put_hashes r_hashes (v_list (in_u 256)).
Proof. apply list_codec, _. Qed.

(** The three laws of a record, field by field. *)
Ltac put_get_fields := rewrite <-?app_assoc; repeat (erewrite put_get_bind; [|apply _|by naive_solver]).
Ltac reads_fields := repeat (eapply reads_bind; [apply get_reads|intros ? ?]).
Ltac split_bytes := repeat match goal with |- Forall _ (_ ++ _) => apply Forall_app; split end.
Ltac put_bytes_fields := split_bytes; apply put_bytes; naive_solver.

Definition v_claim (c : EscrowClaim) : Prop :=
  in_u 256 (transaction_id (ec_outpoint c)) /\ in_u 32 (op_index (ec_outpoint c)) /\ in_u 64 (ec_value c) /\ in_u 64 (ec_daa c).

#[export] Instance claim_codec : Codec put_claim r_claim v_claim.
Proof.
  split.
  - intros c rest Hc. unfold put_claim, r_claim, v_claim in *. put_get_fields. by destruct c as [[] ? ?].
  - unfold r_claim. eapply reads_weaken; [reads_fields; by apply (reads_ret _ v_claim)|lia|done].
  - intros c Hc. unfold put_claim, v_claim in *. put_bytes_fields.
Qed.

Definition v_vault (mc : Hash * list EscrowClaim) : Prop := in_u 256 mc.1 /\ v_list v_claim mc.2.

#[export] Instance vault_codec : Codec put_vault r_vault v_vault.
Proof.
  split.
  - intros c rest Hc. unfold put_vault, r_vault, v_vault in *. put_get_fields. by destruct c.
  - unfold r_vault. eapply reads_weaken; [reads_fields; by apply (reads_ret _ v_vault)|lia|done].
  - intros c Hc. unfold put_vault, v_vault in *. put_bytes_fields.
Qed.

Definition v_delegation (ei : Hash * Hash) : Prop := in_u 256 ei.1 /\ in_u 256 ei.2.

#[export] Instance delegation_codec : Codec put_delegation r_delegation v_delegation.
Proof.
  split.
  - intros c rest Hc. unfold put_delegation, r_delegation, v_delegation in *. put_get_fields. by destruct c.
  - unfold r_delegation. eapply reads_weaken; [reads_fields; by apply (reads_ret _ v_delegation)|lia|done].
  - intros c Hc. unfold put_delegation, v_delegation in *. put_bytes_fields.
Qed.

Definition v_winner (w : option Hash) : Prop := match w with Some w => in_u 256 w | None => True end.

#[export] Instance winner_codec : Codec put_winner r_winner v_winner.
Proof.
  split.
  - intros [w|] rest Hw; unfold put_winner, r_winner, v_winner in *.
    + change [1] with (le_bytes 1 1). rewrite <-app_assoc. erewrite put_get_bind; [|apply _|done]. cbn [Z.eqb Pos.eqb]. put_get_fields. done.
    + change [0] with (le_bytes 1 0). erewrite put_get_bind; [|apply _|done]. done.
  - unfold r_winner. eapply (reads_weaken (1 + 0)); [|lia|exact (fun _ H => H)]. eapply reads_bind; [apply get_reads|]. intros t _.
    destruct (t =? 0); [by apply reads_ret|]. destruct (t =? 1); [|apply reads_err].
    eapply reads_weaken; [reads_fields; by apply (reads_ret _ v_winner)|lia|done].
  - intros [w|] Hw; unfold put_winner, v_winner in *; [|by repeat constructor]. apply Forall_app. split; [by repeat constructor|by apply put_bytes].
Qed.

Definition v_audit (a : option Audit) : Prop :=
  match a with
  | Some a => v_list (in_u 256) (au_cohort a) /\ v_list v_delegation (au_delegations a) /\ v_list (in_u 256) (au_responded a) /\
              in_u 64 (au_window_end_daa a)
  | None => True
  end.

#[export] Instance audit_codec : Codec put_audit r_audit v_audit.
Proof.
  split.
  - intros [a|] rest Ha; unfold put_audit, r_audit, v_audit in *.
    + change [1] with (le_bytes 1 1). rewrite <-!app_assoc. erewrite put_get_bind; [|apply _|done]. cbn [Z.eqb Pos.eqb]. put_get_fields. by destruct a.
    + change [0] with (le_bytes 1 0). erewrite put_get_bind; [|apply _|done]. done.
  - unfold r_audit. eapply (reads_weaken (1 + 0)); [|lia|exact (fun _ H => H)]. eapply reads_bind; [apply get_reads|]. intros t _.
    destruct (t =? 0); [by apply reads_ret|]. destruct (t =? 1); [|apply reads_err].
    eapply reads_weaken; [reads_fields; by apply (reads_ret _ v_audit)|lia|done].
  - intros [a|] Ha; unfold put_audit, v_audit in *; [|by repeat constructor]. apply Forall_app. split; [by repeat constructor|]. put_bytes_fields.
Qed.

Definition v_pending (rr : Hash * PendingRequest) : Prop :=
  let r := rr.2 in
  in_u 256 rr.1 /\ in_u 8 (pr_tier r) /\ in_u 32 (pr_max_tokens r) /\ in_u 64 (pr_accepted_daa r) /\ in_u 64 (pr_reward r) /\
  v_winner (pr_winner r) /\ v_audit (pr_audit r) /\ v_list (in_u 256) (pr_early_responders r).

#[export] Instance pending_codec : Codec put_pending r_pending v_pending.
Proof.
  split.
  - intros c rest Hc. unfold put_pending, r_pending, v_pending in *. cbn zeta in *. put_get_fields. by destruct c as [? []].
  - unfold r_pending. eapply reads_weaken; [reads_fields; by apply (reads_ret _ v_pending)|lia|done].
  - intros c Hc. unfold put_pending, v_pending in *. cbn zeta in *. put_bytes_fields.
Qed.

Definition v_early (e : Hash * (Z * list Hash)) : Prop := in_u 256 e.1 /\ in_u 64 e.2.1 /\ v_list (in_u 256) e.2.2.

#[export] Instance early_codec : Codec put_early r_early v_early.
Proof.
  split.
  - intros c rest Hc. unfold put_early, r_early, v_early in *. put_get_fields. by destruct c as [? []].
  - unfold r_early. eapply reads_weaken; [reads_fields; by apply (reads_ret _ v_early)|lia|done].
  - intros c Hc. unfold put_early, v_early in *. put_bytes_fields.
Qed.

Definition v_strike (me : Hash * StrikeEntry) : Prop := in_u 256 me.1 /\ in_u 32 (se_count me.2) /\ in_u 64 (se_last_daa me.2).

#[export] Instance strike_codec : Codec put_strike r_strike v_strike.
Proof.
  split.
  - intros c rest Hc. unfold put_strike, r_strike, v_strike in *. put_get_fields. by destruct c as [? []].
  - unfold r_strike. eapply reads_weaken; [reads_fields; by apply (reads_ret _ v_strike)|lia|done].
  - intros c Hc. unfold put_strike, v_strike in *. put_bytes_fields.
Qed.

Definition v_daa (md : Hash * Z) : Prop := in_u 256 md.1 /\ in_u 64 md.2.

#[export] Instance daa_codec : Codec put_daa r_daa v_daa.
Proof.
  split.
  - intros c rest Hc. unfold put_daa, r_daa, v_daa in *. put_get_fields. by destruct c.
  - unfold r_daa. eapply reads_weaken; [reads_fields; by apply (reads_ret _ v_daa)|lia|done].
  - intros c Hc. unfold put_daa, v_daa in *. put_bytes_fields.
Qed.

Definition v_spk (ms : Hash * ScriptPublicKey) : Prop :=
  in_u 256 ms.1 /\ in_u 16 (spk_version ms.2) /\ in_u 16 (len (spk_script ms.2)) /\ Forall is_byte (spk_script ms.2).

#[export] Instance spk_codec : Codec put_spk r_spk v_spk.
Proof.
  split.
  - intros c rest (H1 & H2 & H3 & H4). unfold put_spk, r_spk. put_get_fields.
    unfold mbind, reader_bind, r_take. destruct (Z.leb_spec (len (spk_script c.2)) (len (spk_script c.2 ++ rest))) as [|Hl];
      [|rewrite length_app in Hl; lia].
    run. rewrite Nat2Z.id, take_app_length, drop_app_length. by destruct c as [? []].
  - unfold r_spk. eapply (reads_weaken (1 + (1 + (1 + 0)))); [|lia|exact (fun _ H => H)]. reads_fields.
    eapply (reads_weaken _ 0); [eapply (reads_bind _ 0); [apply reads_take|]|lia|exact (fun _ H => H)].
    + match goal with H : in_u 16 ?n |- 0 <= ?n => apply H end.
    + intros s [Hl Hs]. apply reads_ret. unfold v_spk. cbn. rewrite Hl. done.
  - intros c (H1 & H2 & H3 & H4). unfold put_spk. split_bytes; try by apply put_bytes. done.
Qed.

Definition v_producer (p : Z * Hash * Z * Hash) : Prop :=
  let '(daa, id, tier, escrow) := p in in_u 64 daa /\ in_u 256 id /\ in_u 8 tier /\ in_u 256 escrow.

#[export] Instance producer_codec : Codec put_producer r_producer v_producer.
Proof.
  split.
  - intros [[[daa id] tier] escrow] rest Hc. unfold put_producer, r_producer, v_producer in *. by put_get_fields.
  - unfold r_producer. eapply reads_weaken; [reads_fields; by apply (reads_ret _ v_producer)|lia|done].
  - intros [[[daa id] tier] escrow] Hc. unfold put_producer, v_producer in *. put_bytes_fields.
Qed.

(** ** The snapshot *)
Record v_snapshot (s : ServiceLedgerSnapshot) : Prop := {
  vs_vault : v_map v_vault (fun claims => bool_decide (claims = [])) (ss_vault s);
  vs_pending : v_map v_pending (fun _ => false) (ss_pending s);
  vs_early : v_map v_early (fun _ => false) (ss_early_responses s);
  vs_strikes : v_map v_strike (fun _ => false) (ss_strikes s);
  vs_first_seen : v_map v_daa (fun _ => false) (ss_first_seen s);
  vs_audited : v_map v_daa (fun _ => false) (ss_audited s);
  vs_spk : v_map v_spk (fun _ => false) (ss_producer_spk s);
  vs_recent : v_list v_producer (ss_recent_producers s);
}.

#[export] Instance snapshot_codec : Codec to_bytes r_snapshot v_snapshot.
Proof.
  split.
  - intros s rest []. unfold to_bytes, r_snapshot. change [SNAPSHOT_ENCODING_VERSION] with (le_bytes 1 1). rewrite <-!app_assoc.
    erewrite put_get_bind; [|apply _|done]. cbn [Z.eqb Pos.eqb negb SNAPSHOT_ENCODING_VERSION].
    repeat (erewrite put_get_bind; [|apply _|eassumption]). by destruct s.
  - unfold r_snapshot. eapply (reads_weaken (1 + 0)); [|lia|exact (fun _ H => H)]. eapply reads_bind; [apply get_reads|]. intros v _.
    destruct (negb _); [apply reads_err|]. eapply reads_weaken; [reads_fields; by apply (reads_ret _ v_snapshot)|lia|done].
  - intros s []. unfold to_bytes. apply Forall_app. split; [by repeat constructor|]. split_bytes; by apply put_bytes.
    Unshelve. all: exact "e"%string.
Qed.

(** C20: the snapshot encoding is canonical.  For any bytes at all, [from_bytes]
    returns - it neither panics nor runs out of fuel - and it accepts exactly
    the encodings of typed snapshots: it returns [s] if and only if the bytes
    are [to_bytes s] and [s] is typed (fields in their ranges, lengths that fit
    their counters, no empty deque in the vault).  So an encoded snapshot
    decodes to itself, and no two byte strings stand for one snapshot. *)
Theorem snapshot_bytes_canonical bs :
  Forall is_byte bs ->
  match from_bytes bs with Ok _ | Err _ => True | _ => False end /\
  forall s, from_bytes bs = Ok s <-> v_snapshot s /\ to_bytes s = bs.
Proof.
  intros Hbs. pose proof (get_reads bs Hbs) as Hr. split.
  - unfold from_bytes. destruct (r_snapshot bs) as [[s rest]|e| |]; run; try done. by repeat case_bool_decide.
  - intros s. split.
    + unfold from_bytes. destruct (r_snapshot bs) as [[s' rest]|e| |]; run; try done. destruct Hr as (Hv & _).
      repeat case_bool_decide; cbn [negb]; try done. by intros [= <-].
    + intros [Hv <-]. unfold from_bytes. pose proof (put_get s [] Hv) as Hg. rewrite app_nil_r in Hg. rewrite Hg. run.
      by rewrite !bool_decide_eq_true_2.
Qed.

(** The snapshot of the example decodes to itself; in particular it is typed. *)
Lemma snapshot_bytes_canonical_witness :
  from_bytes (to_bytes (snapshot ex_l3)) = Ok (snapshot ex_l3) /\ v_snapshot (snapshot ex_l3).
Proof.
  assert (from_bytes (to_bytes (snapshot ex_l3)) = Ok (snapshot ex_l3)) as H by (vm_compute; reflexivity).
  split; [exact H|]. apply (snapshot_bytes_canonical (to_bytes (snapshot ex_l3))) in H; [exact (proj1 H)|].
  vm_compute. repeat (constructor; [split; [discriminate|reflexivity]|]). constructor.
Defined.
