(* ===== verification/Params.v ===== *)
(** * Fork activations

    [ForkActivation] and [ForkedParam] of [consensus/core/src/config/params.rs]
    and the block-level anchor that depends on one. *)
From S2P Require Import Prelude.

#[local] Open Scope Z_scope.

(** [ForkActivation(u64)]: the DAA score of the activation. *)
Notation ForkActivation := Z (only parsing).

Definition NEVER : Z := u64_max.
Definition ALWAYS : Z := 0.

Definition is_active (a : ForkActivation) (current_daa_score : Z) : bool := a <=? current_daa_score.

Definition is_within_range_from_activation {E} (a : ForkActivation) (current_daa_score range : Z) : outcome E bool :=
  if negb (a =? ALWAYS) && is_active a current_daa_score then
    limit ← add_ 64 a range; Ok (current_daa_score <? limit)
  else Ok false.

Definition is_within_range_before_activation {E} (a : ForkActivation) (current_daa_score range : Z)
    : outcome E (option Z) :=
  if negb (is_active a current_daa_score) then
    reach ← add_ 64 current_daa_score range;
    if a <? reach then d ← sub_ 64 a current_daa_score; Ok (Some d) else Ok None
  else Ok None.

Record ForkedParam (T : Type) := mkForked { pre : T; post : T; activation : ForkActivation }.
Arguments mkForked {T} _ _ _.
Arguments pre {T} _.
Arguments post {T} _.
Arguments activation {T} _.

Section forked.
Context {T : Type}.
Implicit Types p : ForkedParam T.

Definition new_const (v : T) : ForkedParam T := mkForked v v NEVER.
Definition forked_get p (daa_score : Z) : T := if is_active (activation p) daa_score then post p else pre p.
Definition before p : T := if activation p =? ALWAYS then post p else pre p.
Definition after p : T := if activation p =? NEVER then pre p else post p.
Definition forked_map {U} (f : T -> U) p : ForkedParam U := mkForked (f (pre p)) (f (post p)) (activation p).

(** [before] is the value at every score below the activation (and the
    constant value when there is none), [after] the value at every score from
    it on, short of the score [u64::MAX] that means never. *)
Lemma forked_get_before p daa : 0 <= daa -> (daa < activation p \/ activation p = ALWAYS) -> forked_get p daa = before p.
Proof.
  unfold forked_get, before, is_active, ALWAYS. intros. destruct (Z.eqb_spec (activation p) 0), (Z.leb_spec (activation p) daa);
    done || lia.
Qed.

Lemma forked_get_after p daa : daa < NEVER -> activation p <= daa \/ activation p = NEVER -> forked_get p daa = after p.
Proof.
  unfold forked_get, after, is_active. intros. destruct (Z.eqb_spec (activation p) NEVER), (Z.leb_spec (activation p) daa);
    done || lia.
Qed.
End forked.

Definition lower_bound (p : ForkedParam Z) : Z :=
  if activation p =? NEVER then pre p else if activation p =? ALWAYS then post p else Z.min (pre p) (post p).
Definition upper_bound (p : ForkedParam Z) : Z :=
  if activation p =? NEVER then pre p else if activation p =? ALWAYS then post p else Z.max (pre p) (post p).

Definition POM_MAXLEVEL_V4 : Z := 250.

Definition resolve_max_block_level (a : ForkActivation) (structural_max daa_score : Z) : Z :=
  if is_active a daa_score then Z.max POM_MAXLEVEL_V4 structural_max else structural_max.

(** The bounds are bounds. *)
Lemma forked_bounds (p : ForkedParam Z) daa : 0 <= daa < NEVER ->
  lower_bound p <= forked_get p daa <= upper_bound p.
Proof.
  intros Hd. unfold lower_bound, upper_bound, forked_get, is_active, ALWAYS in *.
  destruct (Z.eqb_spec (activation p) NEVER); [destruct (Z.leb_spec (activation p) daa); lia|].
  destruct (Z.eqb_spec (activation p) 0); destruct (Z.leb_spec (activation p) daa); lia.
Qed.
