(* ===== verification/Payloads.v ===== *)
(** * Payloads of the AI transactions

    [inference/src/ai_payload.rs]: requests, responses and challenges as byte
    strings.  Arrays of bytes are lists; [payload_wf] predicates state their
    lengths and the widths of the integers. *)
From S2P Require Import Prelude Bytes ScriptNum.

#[local] Open Scope Z_scope.

Definition MIN_AI_REQUEST_PAYLOAD_LEN : Z := 52.
Definition MAX_AI_REQUEST_PAYLOAD_LEN : Z := 4096.
Definition AI_RESPONSE_PAYLOAD_LEN : Z := 78.
Definition AI_RESPONSE_PAYLOAD_V2_LEN : Z := AI_RESPONSE_PAYLOAD_LEN + 32 + 64.
Definition MIN_AI_RESPONSE_PAYLOAD_LEN : Z := AI_RESPONSE_PAYLOAD_LEN.
Definition MAX_AI_RESPONSE_PAYLOAD_LEN : Z := AI_RESPONSE_PAYLOAD_V2_LEN.
Definition MIN_AI_CHALLENGE_PAYLOAD_LEN : Z := 74.
Definition MAX_AI_CHALLENGE_PAYLOAD_LEN : Z := 32768.

(** [data[a..b]]. *)
Definition slice (a b : nat) (data : list Z) : list Z := take (b - a) (drop a data).

Record AiRequestPayload := mkRequest {
  model_id : list Z;
  max_tokens : Z;
  inference_reward : Z;
  priority_fee : Z;
  prompt : list Z
}.

Definition request_serialize (p : AiRequestPayload) : list Z :=
  model_id p ++ le_bytes 4 (max_tokens p) ++ le_bytes 8 (inference_reward p) ++ le_bytes 8 (priority_fee p) ++ prompt p.

Definition request_deserialize (data : list Z) : option AiRequestPayload :=
  if (zlen data <? MIN_AI_REQUEST_PAYLOAD_LEN) || (MAX_AI_REQUEST_PAYLOAD_LEN <? zlen data) then None
  else Some (mkRequest (slice 0 32 data) (of_le_bytes (slice 32 36 data)) (of_le_bytes (slice 36 44 data))
               (of_le_bytes (slice 44 52 data)) (drop 52 data)).

Record AiResponder := mkResponder { escrow_pubkey : list Z; signature : list Z }.

Record AiResponsePayload := mkResponse {
  request_hash : list Z;
  challenge_window_end : Z;
  response_ipfs_cid : list Z;
  response_length : Z;
  responder : option AiResponder
}.

Definition signed_bytes (p : AiResponsePayload) : list Z :=
  request_hash p ++ le_bytes 8 (challenge_window_end p) ++ response_ipfs_cid p ++ le_bytes 4 (response_length p).

Definition response_serialize (p : AiResponsePayload) : list Z :=
  signed_bytes p ++ match responder p with Some r => escrow_pubkey r ++ signature r | None => [] end.

Definition response_deserialize (data : list Z) : option AiResponsePayload :=
  if negb (zlen data =? AI_RESPONSE_PAYLOAD_LEN) && negb (zlen data =? AI_RESPONSE_PAYLOAD_V2_LEN) then None
  else
    Some (mkResponse (slice 0 32 data) (of_le_bytes (slice 32 40 data)) (slice 40 74 data) (of_le_bytes (slice 74 78 data))
            (if zlen data =? AI_RESPONSE_PAYLOAD_V2_LEN then Some (mkResponder (slice 78 110 data) (slice 110 174 data)) else None)).

Record AiChallengePayload := mkChallenge {
  response_hash : list Z;
  challenger_deposit : Z;
  challenger_spk_version : Z;
  challenger_spk : list Z;
  proof_data : list Z
}.

Definition challenge_serialize (p : AiChallengePayload) : list Z :=
  response_hash p ++ le_bytes 8 (challenger_deposit p) ++ le_bytes 2 (challenger_spk_version p) ++ challenger_spk p ++ proof_data p.

Definition challenge_deserialize (data : list Z) : option AiChallengePayload :=
  if (zlen data <? MIN_AI_CHALLENGE_PAYLOAD_LEN) || (MAX_AI_CHALLENGE_PAYLOAD_LEN <? zlen data) then None
  else Some (mkChallenge (slice 0 32 data) (of_le_bytes (slice 32 40 data)) (of_le_bytes (slice 40 42 data)) (slice 42 74 data) (drop 74 data)).

(** ** Round trips *)

Lemma slice_app n a b (l r : list Z) : length l = n -> (n <= a)%nat -> slice a b (l ++ r) = slice (a - n) (b - n) r.
Proof.
  intros <- Ha. unfold slice. rewrite drop_app_ge by done. f_equal. lia.
Qed.

Lemma slice_head n (l r : list Z) : length l = n -> slice 0 n (l ++ r) = l.
Proof. intros <-. unfold slice. cbn [drop]. rewrite Nat.sub_0_r. apply take_app_length. Qed.

Lemma slice_split a b data : (a <= b)%nat -> (b <= length data)%nat -> slice a b data ++ drop b data = drop a data.
Proof.
  intros Hab Hb. unfold slice. rewrite <-(take_drop (b - a) (drop a data)) at 2. rewrite drop_drop. do 2 f_equal. lia.
Qed.

Lemma length_slice a b data : (a <= b)%nat -> (b <= length data)%nat -> length (slice a b data) = (b - a)%nat.
Proof. intros. unfold slice. rewrite length_take, length_drop. lia. Qed.

Lemma slice_bytes a b data : Forall is_byte data -> Forall is_byte (slice a b data).
Proof. intros. by apply Forall_take, Forall_drop. Qed.

(** The widths of the fields. *)
Definition request_wf (p : AiRequestPayload) : Prop :=
  length (model_id p) = 32%nat /\ in_u 32 (max_tokens p) /\ in_u 64 (inference_reward p) /\ in_u 64 (priority_fee p) /\
  zlen (prompt p) <= MAX_AI_REQUEST_PAYLOAD_LEN - MIN_AI_REQUEST_PAYLOAD_LEN.
Definition response_wf (p : AiResponsePayload) : Prop :=
  length (request_hash p) = 32%nat /\ in_u 64 (challenge_window_end p) /\ length (response_ipfs_cid p) = 34%nat /\ in_u 32 (response_length p) /\
  match responder p with Some r => length (escrow_pubkey r) = 32%nat /\ length (signature r) = 64%nat | None => True end.
Definition challenge_wf (p : AiChallengePayload) : Prop :=
  length (response_hash p) = 32%nat /\ in_u 64 (challenger_deposit p) /\ in_u 16 (challenger_spk_version p) /\ length (challenger_spk p) = 32%nat /\
  zlen (proof_data p) <= MAX_AI_CHALLENGE_PAYLOAD_LEN - MIN_AI_CHALLENGE_PAYLOAD_LEN.

Ltac fields :=
  cbn [model_id max_tokens inference_reward priority_fee prompt request_hash challenge_window_end response_ipfs_cid response_length
       responder escrow_pubkey signature response_hash challenger_deposit challenger_spk_version challenger_spk proof_data] in *.

Ltac slices :=
  repeat first [rewrite slice_head by (first [done|apply length_le_bytes])
               |rewrite slice_app with (n := 32%nat) by (first [done|lia])
               |rewrite slice_app with (n := 34%nat) by (first [done|lia])
               |rewrite slice_app with (n := 8%nat) by (first [apply length_le_bytes|lia])
               |rewrite slice_app with (n := 4%nat) by (first [apply length_le_bytes|lia])
               |rewrite slice_app with (n := 2%nat) by (first [apply length_le_bytes|lia])]; cbn [Nat.sub].

Lemma drop_app_n n (l r : list Z) k : length l = n -> (n <= k)%nat -> drop k (l ++ r) = drop (k - n) r.
Proof. intros <- Hk. by rewrite drop_app_ge. Qed.

Lemma zlen_of (l : list Z) n : length l = n -> zlen l = Z.of_nat n.
Proof. unfold zlen. by intros ->. Qed.

Lemma request_round p : request_wf p -> request_deserialize (request_serialize p) = Some p.
Proof.
  destruct p as [m t r f pr]. unfold request_wf, response_wf, challenge_wf. fields. intros (Hm & Ht & Hr & Hf & Hp). unfold request_deserialize, request_serialize. fields.
  unfold MAX_AI_REQUEST_PAYLOAD_LEN, MIN_AI_REQUEST_PAYLOAD_LEN in *.
  assert (zlen (m ++ le_bytes 4 t ++ le_bytes 8 r ++ le_bytes 8 f ++ pr) = 52 + zlen pr) as ->.
  { unfold zlen. rewrite !length_app, !length_le_bytes, Hm. lia. }
  assert (0 <= zlen pr) by (unfold zlen; lia).
  destruct (Z.ltb_spec (52 + zlen pr) 52); [lia|]. destruct (Z.ltb_spec 4096 (52 + zlen pr)); [lia|]. cbn [orb].
  slices. rewrite (drop_app_n 32), (drop_app_n 4), (drop_app_n 8), (drop_app_n 8) by (done || apply length_le_bytes || lia). cbn [Nat.sub drop].
  rewrite !of_le_le by (unfold in_u in *; done). done.
Qed.

Lemma response_round p : response_wf p -> response_deserialize (response_serialize p) = Some p.
Proof.
  destruct p as [h w c n r]. unfold request_wf, response_wf, challenge_wf. fields. intros (Hh & Hw & Hc & Hn & Hr). unfold response_deserialize, response_serialize, signed_bytes.
  fields. rewrite <-!app_assoc.
  unfold AI_RESPONSE_PAYLOAD_V2_LEN, AI_RESPONSE_PAYLOAD_LEN. destruct r as [[k s]|]; fields.
  - destruct Hr as [Hk Hs]. assert (zlen (h ++ le_bytes 8 w ++ c ++ le_bytes 4 n ++ k ++ s) = 174) as ->.
    { unfold zlen. rewrite !length_app, !length_le_bytes, Hh, Hc, Hk, Hs. lia. }
    cbn [Z.eqb negb andb Z.add Pos.add Pos.succ Pos.eqb]. slices. rewrite !of_le_le by (unfold in_u in *; done).
    assert (slice 0 64 s = s) as -> by (unfold slice; cbn [drop]; apply take_ge; lia). done.
  - assert (zlen (h ++ le_bytes 8 w ++ c ++ le_bytes 4 n ++ []) = 78) as ->.
    { unfold zlen. rewrite !length_app, !length_le_bytes, Hh, Hc. cbn. lia. }
    cbn [Z.eqb negb andb Z.add Pos.add Pos.succ Pos.eqb]. slices. rewrite !of_le_le by (unfold in_u in *; done). done.
Qed.

Lemma challenge_round p : challenge_wf p -> challenge_deserialize (challenge_serialize p) = Some p.
Proof.
  destruct p as [h d v s pr]. unfold request_wf, response_wf, challenge_wf. fields. intros (Hh & Hd & Hv & Hs & Hp). unfold challenge_deserialize, challenge_serialize.
  fields.
  unfold MAX_AI_CHALLENGE_PAYLOAD_LEN, MIN_AI_CHALLENGE_PAYLOAD_LEN in *.
  assert (zlen (h ++ le_bytes 8 d ++ le_bytes 2 v ++ s ++ pr) = 74 + zlen pr) as ->.
  { unfold zlen. rewrite !length_app, !length_le_bytes, Hh, Hs. lia. }
  assert (0 <= zlen pr) by (unfold zlen; lia).
  destruct (Z.ltb_spec (74 + zlen pr) 74); [lia|]. destruct (Z.ltb_spec 32768 (74 + zlen pr)); [lia|]. cbn [orb].
  slices. rewrite (drop_app_n 32), (drop_app_n 8), (drop_app_n 2), (drop_app_n 32) by (done || apply length_le_bytes || lia). cbn [Nat.sub drop].
  rewrite !of_le_le by (unfold in_u in *; done). done.
Qed.

(** The other direction: a payload that parses is the serialization of what it
    parses to. *)
Lemma le_slice a b k data : (b - a)%nat = k -> (a <= b)%nat -> (b <= length data)%nat -> Forall is_byte data ->
  le_bytes k (of_le_bytes (slice a b data)) = slice a b data /\ in_u (8 * Z.of_nat k) (of_le_bytes (slice a b data)).
Proof.
  intros Hk Hab Hb Hd. pose proof (length_slice a b data Hab Hb) as Hl. pose proof (slice_bytes a b data Hd) as Hs. split.
  - apply le_of_le; [lia|done].
  - pose proof (of_le_bound _ Hs) as Hbd. rewrite Hl, Hk in Hbd. unfold in_u. rewrite Z.pow_mul_r by lia. done.
Qed.

Lemma request_parse data p : Forall is_byte data -> request_deserialize data = Some p -> request_serialize p = data /\ request_wf p.
Proof.
  intros Hd. unfold request_deserialize, MAX_AI_REQUEST_PAYLOAD_LEN, MIN_AI_REQUEST_PAYLOAD_LEN.
  destruct (Z.ltb_spec (zlen data) 52), (Z.ltb_spec 4096 (zlen data)); cbn [orb]; try done. intros [= <-].
  assert (52 <= length data)%nat as Hl by (unfold zlen in *; lia). unfold request_serialize, request_wf, zlen in *. fields.
  destruct (le_slice 32 36 4 data eq_refl ltac:(lia) ltac:(lia) Hd) as [-> H1]; destruct (le_slice 36 44 8 data eq_refl ltac:(lia) ltac:(lia) Hd) as [-> H2]; destruct (le_slice 44 52 8 data eq_refl ltac:(lia) ltac:(lia) Hd) as [-> H3].
  rewrite length_slice, length_drop by lia. split.
  - rewrite !slice_split by lia. done.
  - split_and!; try done. unfold MAX_AI_REQUEST_PAYLOAD_LEN, MIN_AI_REQUEST_PAYLOAD_LEN. lia.
Qed.

Lemma response_parse data p : Forall is_byte data -> response_deserialize data = Some p -> response_serialize p = data /\ response_wf p.
Proof.
  intros Hd. unfold response_deserialize, AI_RESPONSE_PAYLOAD_V2_LEN, AI_RESPONSE_PAYLOAD_LEN.
  change (78 + 32 + 64) with 174. destruct (Z.eqb_spec (zlen data) 78) as [E|], (Z.eqb_spec (zlen data) 174) as [E2|]; cbn [negb andb]; try (done || lia).
  all: intros [= <-]; unfold zlen in *; assert (78 <= length data)%nat as Hl by lia; unfold response_serialize, signed_bytes, response_wf; fields.
  all: destruct (le_slice 32 40 8 data eq_refl ltac:(lia) ltac:(lia) Hd) as [-> H1]; destruct (le_slice 74 78 4 data eq_refl ltac:(lia) ltac:(lia) Hd) as [-> H2].
  all: rewrite !length_slice by lia; split; [|by split_and!].
  - rewrite app_nil_r. assert (slice 74 78 data = drop 74 data) as -> by (unfold slice; apply take_ge; rewrite length_drop; lia).
    rewrite !slice_split by lia. done.
  - assert (slice 110 174 data = drop 110 data) as -> by (unfold slice; apply take_ge; rewrite length_drop; lia).
    rewrite <-!app_assoc. rewrite !slice_split by lia. done.
Qed.

Lemma challenge_parse data p : Forall is_byte data -> challenge_deserialize data = Some p -> challenge_serialize p = data /\ challenge_wf p.
Proof.
  intros Hd. unfold challenge_deserialize, MAX_AI_CHALLENGE_PAYLOAD_LEN, MIN_AI_CHALLENGE_PAYLOAD_LEN.
  destruct (Z.ltb_spec (zlen data) 74), (Z.ltb_spec 32768 (zlen data)); cbn [orb]; try done. intros [= <-].
  assert (74 <= length data)%nat as Hl by (unfold zlen in *; lia). unfold challenge_serialize, challenge_wf, zlen in *. fields.
  destruct (le_slice 32 40 8 data eq_refl ltac:(lia) ltac:(lia) Hd) as [-> H1]; destruct (le_slice 40 42 2 data eq_refl ltac:(lia) ltac:(lia) Hd) as [-> H2].
  rewrite !length_slice, length_drop by lia. split.
  - rewrite !slice_split by lia. done.
  - split_and!; try done. unfold MAX_AI_CHALLENGE_PAYLOAD_LEN, MIN_AI_CHALLENGE_PAYLOAD_LEN. lia.
Qed.

(** The payloads of AI requests, responses and challenges.  A payload whose
    fields fit their widths parses back from its bytes, and a byte string that
    parses is the serialization of what it parses to, so that no payload has
    two encodings; in particular a response parses to a responder exactly when
    it has the length of version 2. *)
Theorem ai_payloads_round_trip :
  (forall p, request_wf p -> request_deserialize (request_serialize p) = Some p) /\
  (forall p, response_wf p -> response_deserialize (response_serialize p) = Some p) /\
  (forall p, challenge_wf p -> challenge_deserialize (challenge_serialize p) = Some p) /\
  (forall data p, Forall is_byte data -> request_deserialize data = Some p -> request_serialize p = data /\ request_wf p) /\
  (forall data p, Forall is_byte data -> response_deserialize data = Some p ->
     response_serialize p = data /\ response_wf p /\ (responder p = None <-> zlen data = AI_RESPONSE_PAYLOAD_LEN)) /\
  (forall data p, Forall is_byte data -> challenge_deserialize data = Some p -> challenge_serialize p = data /\ challenge_wf p).
Proof.
  split_and!; auto using request_round, response_round, challenge_round, request_parse, challenge_parse.
  intros data p Hd E. destruct (response_parse data p Hd E) as [Es Hw]. split_and!; try done.
  unfold response_deserialize in E. destruct (negb _ && negb _) eqn:En; [done|]. injection E as <-. cbn.
  unfold AI_RESPONSE_PAYLOAD_V2_LEN, AI_RESPONSE_PAYLOAD_LEN in *.
  destruct (Z.eqb_spec (zlen data) 78), (Z.eqb_spec (zlen data) (78 + 32 + 64)); cbn in En; try done; split; (done || lia).
Qed.
