(* ===== verification/Mass.v ===== *)
(** * Transaction masses

    [consensus/core/src/mass/mod.rs]: the estimated sizes, the compute and
    transient masses, and the storage mass of KIP-0009.  A function that
    returns an [Option] and may also panic has [outcome ()] as its result, with
    [Err ()] for [None]. *)
From S2P Require Import Prelude Tx ScriptNum.

#[local] Open Scope Z_scope.

Definition HASH_SIZE : Z := 32.
Definition SOMPI_PER_KASPA : Z := 100000000.
Definition STORAGE_MASS_PARAMETER : Z := SOMPI_PER_KASPA * 10000.
Definition TRANSIENT_BYTE_TO_MASS_FACTOR : Z := 4.
Definition MAX_SOMPI : Z := 29000000000 * SOMPI_PER_KASPA.

(** [iter().map(f).sum::<u64>()], which panics on overflow. *)
Definition sum_u64 {E A} (f : A -> Z) (l : list A) : outcome E Z := foldM (add_ 64) 0 (f <$> l).

(** ** Sizes *)

Definition outpoint_estimated_serialized_size : Z := HASH_SIZE + 4.

Definition transaction_input_estimated_serialized_size (input : TransactionInput) : Z :=
  outpoint_estimated_serialized_size + 8 + zlen (signature_script input) + 8.

Definition transaction_output_estimated_serialized_size (output : TransactionOutput) : Z :=
  8 + 2 + 8 + zlen (spk_script (out_spk output)).

Definition transaction_estimated_serialized_size {E} (tx : Transaction) : outcome E Z :=
  inputs_size ← sum_u64 transaction_input_estimated_serialized_size (tx_inputs tx);
  size ← add_ 64 (2 + 8) inputs_size;
  outputs_size ← sum_u64 transaction_output_estimated_serialized_size (tx_outputs tx);
  size ← add_ 64 (size + 8) outputs_size;
  add_ 64 (size + 8 + SUBNETWORK_ID_SIZE + 8 + HASH_SIZE + 8) (zlen (payload tx)).

(** ** Plurality *)

Definition UTXO_CONST_STORAGE : Z := 32 + 4 + 8 + 8 + 1 + 2 + 8.
Definition UTXO_UNIT_SIZE : Z := 100.
Definition utxo_plurality (spk : ScriptPublicKey) : Z := div_ceil (UTXO_CONST_STORAGE + zlen (spk_script spk)) UTXO_UNIT_SIZE.

Record UtxoCell := mkCell { plurality : Z; cell_amount : Z }.
Definition cell_of_entry (e : UtxoEntry) : UtxoCell := mkCell (utxo_plurality (ue_spk e)) (amount e).
Definition cell_of_output (o : TransactionOutput) : UtxoCell := mkCell (utxo_plurality (out_spk o)) (out_value o).

(** ** Masses *)

Record NonContextualMasses := mkNonContextual { compute_mass : Z; transient_mass : Z }.
Definition non_contextual_max (m : NonContextualMasses) : Z := Z.max (compute_mass m) (transient_mass m).

Record ContextualMasses := mkContextual { storage_mass : Z }.
Definition contextual_max (c : ContextualMasses) (m : NonContextualMasses) : Z := Z.max (storage_mass c) (non_contextual_max m).

(** [try_fold] over the outputs: the pluralities and the harmonic sum. *)
Definition harmonic_step (storm_param : Z) (acc : Z * Z) (cell : UtxoCell) : outcome () (Z * Z) :=
  acc_plurality ← add_ 64 acc.1 (plurality cell);
  m ← ok_or () (checked_mul 64 storm_param (plurality cell));
  m ← ok_or () (checked_mul 64 m (plurality cell));
  q ← div_ m (cell_amount cell);
  acc_harm ← ok_or () (checked_add 64 acc.2 q);
  Ok (acc_plurality, acc_harm).

(** The condition under which the harmonic mean of the inputs is used. *)
Definition relaxed_formula_path (inputs : list UtxoCell) (outs_plurality : Z) : outcome () bool :=
  if outs_plurality =? 1 then Ok true
  else if 2 <? zlen inputs then Ok false
  else
    ins_plurality ← sum_u64 plurality inputs;
    Ok ((ins_plurality =? 1) || ((outs_plurality =? 2) && (ins_plurality =? 2))).

(** The contribution of one input in the relaxed case. *)
Definition input_share (storm_param : Z) (cell : UtxoCell) : outcome () Z :=
  m ← mul_ 64 storm_param (plurality cell);
  m ← mul_ 64 m (plurality cell);
  div_ m (cell_amount cell).

Definition calc_storage_mass (coinbase : bool) (inputs outputs : list UtxoCell) (storm_param : Z) : outcome () Z :=
  if coinbase then Ok 0
  else
    '(outs_plurality, harmonic_outs) ← foldM (harmonic_step storm_param) (0, 0) outputs;
    if outs_plurality =? 0 then Ok 0
    else
      relaxed ← relaxed_formula_path inputs outs_plurality;
      if (relaxed : bool) then
        harmonic_ins ← foldM (fun total cell => current ← input_share storm_param cell; Ok (sat_add 64 total current)) 0 inputs;
        Ok (sat_sub harmonic_outs harmonic_ins)
      else
        '(ins_plurality, sum_ins) ← foldM (fun acc cell =>
            acc_plur ← add_ 64 acc.1 (plurality cell);
            acc_amt ← add_ 64 acc.2 (cell_amount cell);
            Ok (acc_plur, acc_amt)) (0, 0) inputs;
        mean_ins ← div_ sum_ins ins_plurality;
        q ← div_ storm_param mean_ins;
        Ok (sat_sub harmonic_outs (sat_mul 64 ins_plurality q)).

(** ** The calculator *)

Record MassCalculator := mkMassCalculator {
  mass_per_tx_byte : Z;
  mass_per_script_pub_key_byte : Z;
  mass_per_sig_op : Z;
  storage_mass_parameter : Z
}.

Definition calc_non_contextual_masses {E} (m : MassCalculator) (tx : Transaction) : outcome E NonContextualMasses :=
  if is_coinbase tx then Ok (mkNonContextual 0 0)
  else
    size ← transaction_estimated_serialized_size tx;
    compute_mass_for_size ← mul_ 64 size (mass_per_tx_byte m);
    total_script_public_key_size ← sum_u64 (fun output => 2 + zlen (spk_script (out_spk output))) (tx_outputs tx);
    total_script_public_key_mass ← mul_ 64 total_script_public_key_size (mass_per_script_pub_key_byte m);
    total_sigops ← sum_u64 sig_op_count (tx_inputs tx);
    total_sigops_mass ← mul_ 64 total_sigops (mass_per_sig_op m);
    compute ← add_ 64 compute_mass_for_size total_script_public_key_mass;
    compute ← add_ 64 compute total_sigops_mass;
    transient ← mul_ 64 size TRANSIENT_BYTE_TO_MASS_FACTOR;
    Ok (mkNonContextual compute transient).

Definition calc_contextual_masses (m : MassCalculator) (ptx : PopulatedTransaction) : outcome () ContextualMasses :=
  inputs ← populated_inputs ptx;
  storage ← calc_storage_mass (is_coinbase (ptx_tx ptx)) ((fun p => cell_of_entry p.2) <$> inputs)
              (cell_of_output <$> tx_outputs (ptx_tx ptx)) (storage_mass_parameter m);
  Ok (mkContextual storage).

(** ** The formula of KIP-0009 *)

Section spec.
Variable C : Z.

(** [C p^2 / amount], rounded down per cell. *)
Definition cell_share (c : UtxoCell) : Z := C * plurality c * plurality c / cell_amount c.
Definition harmonic (cells : list UtxoCell) : Z := Zsum (cell_share <$> cells).
Definition pluralities (cells : list UtxoCell) : Z := Zsum (plurality <$> cells).
Definition amounts (cells : list UtxoCell) : Z := Zsum (cell_amount <$> cells).

(** A cell occupies at least a unit and holds at least a sompi; its share does
    not overflow. *)
Definition cell_ok (c : UtxoCell) : Prop := 1 <= plurality c /\ 1 <= cell_amount c /\ in_u 64 (C * plurality c * plurality c).

Definition storage_mass_spec (inputs outputs : list UtxoCell) : outcome () Z :=
  let O := pluralities outputs in
  let I := pluralities inputs in
  if O =? 0 then Ok 0
  else if (O =? 1) || (I =? 1) || ((O =? 2) && (I =? 2)) then Ok (Z.max 0 (harmonic outputs - harmonic inputs))
  else if (I =? 0) || (amounts inputs <? I) then Panic
  else Ok (Z.max 0 (harmonic outputs - I * (C / (amounts inputs / I)))).

Context (HC : in_u 64 C).

Lemma cell_share_range c : cell_ok c -> 0 <= cell_share c.
Proof using HC. unfold in_u in HC. intros (Hp & Ha & _). apply Z.div_pos; nia. Qed.

Lemma shares_nonneg cells : Forall cell_ok cells ->
  Forall (fun x => 0 <= x) (plurality <$> cells) /\ Forall (fun x => 0 <= x) (cell_amount <$> cells) /\
  Forall (fun x => 0 <= x) (cell_share <$> cells).
Proof using HC.
  induction 1 as [|c cells Hc _ (IH1 & IH2 & IH3)]; [by repeat constructor|]. pose proof (cell_share_range c Hc). destruct Hc as (? & ? & _).
  cbn. split_and!; constructor; (done || lia).
Qed.

Lemma cells_bounds cells : Forall cell_ok cells -> 0 <= pluralities cells /\ 0 <= amounts cells /\ 0 <= harmonic cells /\ zlen cells <= pluralities cells.
Proof using HC.
  intros Hc. destruct (shares_nonneg cells Hc) as (H1 & H2 & H3). split_and!; [by apply Zsum_nonneg..|].
  clear H1 H2 H3. unfold pluralities, zlen. induction Hc as [|c cells (Hp & _ & _) _ IH]; [done|]. cbn [length]. zsum.
Qed.

Lemma input_share_ok c : cell_ok c -> input_share C c = Ok (cell_share c).
Proof using HC.
  intros (Hp & Ha & Hm). unfold input_share, cell_share. unfold in_u in *. rewrite mul_ok by (unfold in_u; nia). run.
  rewrite mul_ok by done. run. unfold div_. destruct (Z.eqb_spec (cell_amount c) 0); [lia|done].
Qed.

Lemma harmonic_step_ok p h c : cell_ok c -> in_u 64 (p + plurality c) -> in_u 64 (h + cell_share c) ->
  harmonic_step C (p, h) c = Ok (p + plurality c, h + cell_share c).
Proof using HC.
  intros (Hp & Ha & Hm) H1 H2. unfold harmonic_step. cbn [fst snd]. rewrite add_ok by done. run. unfold in_u in *.
  assert (checked_mul 64 C (plurality c) = Some (C * plurality c)) as -> by (apply checked_mul_Some; split; [done|unfold in_u; nia]).
  cbn [ok_or]. run. assert (checked_mul 64 (C * plurality c) (plurality c) = Some (C * plurality c * plurality c)) as ->
    by (apply checked_mul_Some; split; [done|unfold in_u; nia]).
  cbn [ok_or]. run. unfold div_. destruct (Z.eqb_spec (cell_amount c) 0); [lia|]. run.
  assert (checked_add 64 h (C * plurality c * plurality c / cell_amount c) = Some (h + cell_share c)) as -> by (apply checked_add_Some; done).
  done.
Qed.

Lemma harmonic_fold cells p h : Forall cell_ok cells -> 0 <= p -> 0 <= h ->
  p + pluralities cells < 2 ^ 64 -> h + harmonic cells < 2 ^ 64 ->
  foldM (harmonic_step C) (p, h) cells = Ok (p + pluralities cells, h + harmonic cells).
Proof using HC.
  intros Hc. revert p h. induction Hc as [|c cells Hc Hcs IH]; intros p h Hp Hh H1 H2; unfold pluralities, harmonic in *; zsum.
  - cbn. by rewrite !Z.add_0_r.
  - destruct (cells_bounds cells Hcs) as (? & _ & ? & _). unfold pluralities, harmonic in *. pose proof (cell_share_range c Hc).
    assert (1 <= plurality c) by apply Hc.
    cbn [foldM]. rewrite harmonic_step_ok by (done || unfold in_u; lia). run. rewrite IH by lia. f_equal. f_equal; lia.
Qed.

Lemma relaxed_path_spec inputs O : Forall cell_ok inputs -> pluralities inputs < 2 ^ 64 ->
  relaxed_formula_path inputs O = Ok ((O =? 1) || (pluralities inputs =? 1) || ((O =? 2) && (pluralities inputs =? 2))).
Proof using HC.
  intros Hc Hb. unfold relaxed_formula_path. destruct (Z.eqb_spec O 1); [done|]. cbn [orb].
  destruct (cells_bounds inputs Hc) as (H1 & _ & _ & H2). destruct (Z.ltb_spec 2 (zlen inputs)).
  - destruct (Z.eqb_spec (pluralities inputs) 1), (Z.eqb_spec (pluralities inputs) 2); try lia. by rewrite andb_false_r.
  - unfold sum_u64. rewrite foldM_add64; [done|lia|apply (shares_nonneg inputs Hc)|done].
Qed.

Lemma harmonic_inputs cells total : Forall cell_ok cells -> 0 <= total <= umax 64 ->
  foldM (fun total cell => current ← input_share C cell; Ok (sat_add 64 total current)) total cells =
  Ok (Z.min (umax 64) (total + harmonic cells)).
Proof using HC.
  intros Hc. revert total. induction Hc as [|c cells Hc Hcs IH]; intros total Ht; cbn [foldM].
  - unfold harmonic. zsum. f_equal. lia.
  - rewrite input_share_ok by done. run. unfold sat_add. pose proof (cell_share_range c Hc).
    destruct (cells_bounds cells Hcs) as (_ & _ & ? & _). rewrite IH by lia. f_equal. unfold harmonic in *. zsum.
Qed.

Lemma arithmetic_inputs cells p a : Forall cell_ok cells -> 0 <= p -> 0 <= a -> p + pluralities cells < 2 ^ 64 -> a + amounts cells < 2 ^ 64 ->
  foldM (fun acc cell =>
    acc_plur ← add_ 64 acc.1 (plurality cell);
    acc_amt ← add_ 64 acc.2 (cell_amount cell);
    Ok (E := ()) (acc_plur, acc_amt)) (p, a) cells = Ok (p + pluralities cells, a + amounts cells).
Proof using HC.
  intros Hc. revert p a. induction Hc as [|c cells Hc Hcs IH]; intros p a Hp Ha H1 H2; unfold pluralities, amounts in *; zsum.
  - cbn. by rewrite !Z.add_0_r.
  - destruct (cells_bounds cells Hcs) as (? & ? & _). unfold pluralities, amounts in *. destruct Hc as (? & ? & _).
    cbn [foldM fst snd]. rewrite add_ok by (unfold in_u; lia). run. rewrite add_ok by (unfold in_u; lia). run. rewrite IH by lia. f_equal. f_equal; lia.
Qed.
End spec.

(** The storage mass is the formula of KIP-0009.  On cells that occupy at
    least a unit and hold at least a sompi, within the widths of the sums, the
    computation with its shortcuts and saturations is
    [max(0, C (|O|/H(O) - |I|/A(I)))] with the harmonic mean of the inputs in
    the three relaxed cases, and with the quotients rounded as the code rounds
    them; it panics exactly when neither formula is defined, that is when there
    are no inputs or when they hold less than a sompi per unit. *)
Theorem storage_mass_formula C inputs outputs :
  in_u 64 C -> Forall (cell_ok C) inputs -> Forall (cell_ok C) outputs ->
  pluralities inputs < 2 ^ 64 -> amounts inputs < 2 ^ 64 -> pluralities outputs < 2 ^ 64 -> harmonic C outputs < 2 ^ 64 ->
  calc_storage_mass false inputs outputs C = storage_mass_spec C inputs outputs.
Proof.
  intros HC Hi Ho H1 H2 H3 H4. unfold calc_storage_mass, storage_mass_spec.
  destruct (cells_bounds C HC inputs Hi) as (? & ? & ? & _), (cells_bounds C HC outputs Ho) as (? & _ & ? & _).
  rewrite (harmonic_fold C HC) by (done || lia). run. rewrite !Z.add_0_l. destruct (_ =? 0); [done|].
  rewrite (relaxed_path_spec C HC) by done. run. destruct (_ || _ || _).
  - rewrite (harmonic_inputs C HC) by (done || unfold umax; lia). run. rewrite Z.add_0_l. f_equal. unfold sat_sub, umax in *. lia.
  - rewrite (arithmetic_inputs C HC) by (done || lia). run. rewrite !Z.add_0_l. unfold div_. destruct (Z.eqb_spec (pluralities inputs) 0); [done|].
    run. cbn [orb]. destruct (Z.ltb_spec (amounts inputs) (pluralities inputs)) as [Hlt|Hge].
    + rewrite Z.div_small by lia. done.
    + assert (1 <= amounts inputs / pluralities inputs) by (apply Z.div_le_lower_bound; lia).
      destruct (Z.eqb_spec (amounts inputs / pluralities inputs) 0); [lia|]. run. f_equal. unfold sat_sub, sat_mul, umax in *. lia.
Qed.

Lemma storage_mass_formula_witness :
  calc_storage_mass false [mkCell 1 1; mkCell 1 3; mkCell 2 1] [mkCell 1 4; mkCell 1 1] 100 = Ok 0 /\
  calc_storage_mass false [mkCell 2 1; mkCell 2 1; mkCell 2 1] [mkCell 1 2; mkCell 1 1] 100 = Panic /\
  calc_storage_mass false [] [mkCell 1 2; mkCell 1 1] 100 = Panic.
Proof.
  split_and!; (rewrite storage_mass_formula; [reflexivity|unfold in_u; lia|..|reflexivity|reflexivity|reflexivity|reflexivity]);
    repeat (constructor; [unfold cell_ok, in_u; cbn; lia|]); constructor.
Defined.
