(* ===== verification/TxValidate.v ===== *)
(** * Validation of transactions

    [consensus/src/processes/transaction_validator]: the checks that need
    nothing but the transaction, those that need the header, and those that
    need the UTXO entries, with the script checks in sequence and in parallel;
    and [consensus/core/src/spk_rule.rs].  The thread pool of rayon visits the
    inputs in an order that it chooses: the order is an argument of the
    parallel check. *)
From S2P Require Import Prelude Bytes Tx ScriptNum Hashing ScriptOps Script ScriptStd Float Slice Payloads Mass.

#[local] Open Scope Z_scope.

(** ** Errors *)

(** [RuleError] of the rules on AI requests, which the mempool reports as text. *)
Inductive AiRequestRule :=
  | AiRequestMaxTokensExceeded (max_tokens cap : Z)
  | AiRequestInferenceRewardBelowMinimum (tx : TransactionId) (reward minimum : Z) (model : list Z)
  | AiRequestPriorityFeeBelowMinimum (tx : TransactionId) (fee minimum : Z)
  | AiRequestMissingEscrowOutput (tx : TransactionId)
  | AiRequestInvalidEscrowScript (tx : TransactionId)
  | AiRequestEscrowBelowInferenceReward (tx : TransactionId) (value reward : Z).

(** A message is the data it formats. *)
Inductive TxRuleError :=
  | NoTxInputs
  | TxDuplicateInputs
  | TxHasGas
  | UnknownTxVersion (v : Z)
  | TooManyInputs (n max : Z)
  | TooManyOutputs (n max : Z)
  | TooBigSignatureScript (i max : Z)
  | TooBigScriptPublicKey (i max : Z)
  | NotFinalized (i : Z)
  | CoinbaseHasInputs (n : Z)
  | CoinbaseTooManyOutputs (n max : Z)
  | CoinbaseScriptPublicKeyTooLong (i : Z)
  | CoinbaseNonZeroMassCommitment
  | ImmatureCoinbaseSpend (i : Z) (o : TransactionOutpoint) (daa pov maturity : Z)
  | SpkRuleViolation (i : Z) (o : TransactionOutpoint)
  | InputAmountOverflow
  | InputAmountTooHigh
  | TxOutZero (i : Z)
  | TxOutTooHigh (i : Z)
  | OutputsValueOverflow
  | TotalTxOutTooHigh
  | SpendTooHigh (total_out total_in : Z)
  | SequenceLockConditionsAreNotMet
  | MissingTxOutpoints
  | SpendOfBurnedEscrow (burned : list TransactionOutpoint)
  | SignatureInvalid (e : TxScriptError)
  | SignatureEmpty (e : TxScriptError)
  | WrongSigOpCount (i declared computed : Z)
  | MassIncomputable
  | WrongMass (calculated committed : Z)
  | SubnetworksDisabled (s : list Z)
  | AiPayloadTooShort (n min : Z)
  | AiPayloadTooLong (n max : Z)
  | AiResponseNullRequestHash
  | AiChallengeNullResponseHash
  | SpendingSlashedEscrow
  | AiChallengeUnknownResponse
  | AiChallengeOutsideWindow
  | AiChallengeBadRequestHash
  | AiChallengeProofInvalid
  | AiChallengeDepositInsufficientInputs (deposit total_in : Z)
  | AiChallengeDepositMissingBurnOutput (deposit : Z)
  | AiResponseModelCapMissing (model : list Z)
  | AiRequestPayloadRule (rule : AiRequestRule)
  | FeerateTooLow.

Notation tx_result := (outcome TxRuleError).

Definition TX_VERSION : Z := 0.
Definition MAX_REWARD_MINTS_PER_BLOCK : Z := 64.

Definition is_ai_request (tx : Transaction) : bool := subnet_eqb (subnetwork_id tx) SUBNETWORK_ID_AI_REQUEST.
Definition is_ai_response (tx : Transaction) : bool := subnet_eqb (subnetwork_id tx) SUBNETWORK_ID_AI_RESPONSE.
Definition is_ai_challenge (tx : Transaction) : bool := subnet_eqb (subnetwork_id tx) SUBNETWORK_ID_AI_CHALLENGE.

(** [coinbase_outputs_limit] of [consensus/src/processes/coinbase.rs]. *)
Definition coinbase_outputs_limit (ghostdag_k : Z) (h3 h8 : bool) : Z :=
  let base := if h3 then 3 * (ghostdag_k + 1) + 4 else ghostdag_k + 2 in
  if h8 then base + MAX_REWARD_MINTS_PER_BLOCK else base.

Section validator.
Context `{Hashers, Crypto, !IndexMap SigCacheKey bool}.

Record TransactionValidator := mkValidator {
  max_tx_inputs : Z;
  max_tx_outputs : Z;
  max_signature_script_len : Z;
  max_script_public_key_len : Z;
  coinbase_payload_script_public_key_max_len : Z;
  coinbase_maturity : Z;
  ghostdag_k : Z;
  tv_sig_cache : Cache;
  mass_calculator : MassCalculator
}.

Implicit Types tv : TransactionValidator.

(** ** In isolation *)

Definition check_transaction_inputs_count tv (tx : Transaction) : tx_result () :=
  if negb (is_coinbase tx) && negb (is_ai_response tx) && negb (is_ai_challenge tx) && (zlen (tx_inputs tx) =? 0) then Err NoTxInputs
  else if max_tx_inputs tv <? zlen (tx_inputs tx) then Err (TooManyInputs (zlen (tx_inputs tx)) (max_tx_inputs tv))
  else Ok ().

Definition check_transaction_signature_scripts tv (tx : Transaction) : tx_result () :=
  match position (fun input => max_signature_script_len tv <? zlen (signature_script input)) (tx_inputs tx) with
  | Some i => Err (TooBigSignatureScript (Z.of_nat i) (max_signature_script_len tv))
  | None => Ok ()
  end.

Definition check_transaction_inputs_in_isolation tv (tx : Transaction) : tx_result () :=
  _ ← check_transaction_inputs_count tv tx;
  check_transaction_signature_scripts tv tx.

Definition check_transaction_outputs_count tv (tx : Transaction) : tx_result () :=
  if is_coinbase tx then Ok ()
  else if max_tx_outputs tv <? zlen (tx_outputs tx) then Err (TooManyOutputs (zlen (tx_outputs tx)) (max_tx_inputs tv))
  else Ok ().

Definition check_transaction_script_public_keys tv (tx : Transaction) : tx_result () :=
  match position (fun out => max_script_public_key_len tv <? zlen (spk_script (out_spk out))) (tx_outputs tx) with
  | Some i => Err (TooBigScriptPublicKey (Z.of_nat i) (max_script_public_key_len tv))
  | None => Ok ()
  end.

Definition check_transaction_outputs_in_isolation tv (tx : Transaction) : tx_result () :=
  _ ← check_transaction_outputs_count tv tx;
  check_transaction_script_public_keys tv tx.

Definition check_coinbase_in_isolation tv (tx : Transaction) : tx_result () :=
  if negb (is_coinbase tx) then Ok ()
  else if negb (zlen (tx_inputs tx) =? 0) then Err (CoinbaseHasInputs (zlen (tx_inputs tx)))
  else if 0 <? tx_mass tx then Err CoinbaseNonZeroMassCommitment
  else
    let outputs_limit := coinbase_outputs_limit (ghostdag_k tv) true true in
    if outputs_limit <? zlen (tx_outputs tx) then Err (CoinbaseTooManyOutputs (zlen (tx_outputs tx)) outputs_limit)
    else
      match position (fun out => coinbase_payload_script_public_key_max_len tv <? zlen (spk_script (out_spk out))) (tx_outputs tx) with
      | Some i => Err (CoinbaseScriptPublicKeyTooLong (Z.of_nat i))
      | None => Ok ()
      end.

(** The loop over the outputs, with the index and the running total. *)
Definition output_value_step (st : Z * Z) (output : TransactionOutput) : tx_result (Z * Z) :=
  let '(i, total) := st in
  if out_value output =? 0 then Err (TxOutZero i)
  else if MAX_SOMPI <? out_value output then Err (TxOutTooHigh i)
  else
    total ← ok_or OutputsValueOverflow (checked_add 64 total (out_value output));
    if MAX_SOMPI <? total then Err TotalTxOutTooHigh else Ok (i + 1, total).

Definition check_transaction_output_value_ranges (tx : Transaction) : tx_result () :=
  _ ← foldM output_value_step (0, 0) (tx_outputs tx);
  Ok ().

Definition check_duplicate_transaction_inputs (tx : Transaction) : tx_result () :=
  _ ← foldM (fun (existing : gset TransactionOutpoint) input =>
        if decide (previous_outpoint input ∈ existing) then Err TxDuplicateInputs
        else Ok ({[previous_outpoint input]} ∪ existing)) ∅ (tx_inputs tx);
  Ok ().

Definition check_gas (tx : Transaction) : tx_result () := if 0 <? gas tx then Err TxHasGas else Ok ().

Definition check_transaction_version (tx : Transaction) : tx_result () :=
  if negb (tx_version tx =? TX_VERSION) then Err (UnknownTxVersion (tx_version tx)) else Ok ().

Definition check_transaction_subnetwork (tx : Transaction) : tx_result () :=
  if is_coinbase tx || is_native (subnetwork_id tx) || is_ai (subnetwork_id tx) then Ok ()
  else Err (SubnetworksDisabled (subnetwork_id tx)).

Definition check_ai_payload_len (tx : Transaction) : tx_result () :=
  let bounds :=
    if is_ai_request tx then Some (MIN_AI_REQUEST_PAYLOAD_LEN, MAX_AI_REQUEST_PAYLOAD_LEN)
    else if is_ai_response tx then Some (MIN_AI_RESPONSE_PAYLOAD_LEN, MAX_AI_RESPONSE_PAYLOAD_LEN)
    else if is_ai_challenge tx then Some (MIN_AI_CHALLENGE_PAYLOAD_LEN, MAX_AI_CHALLENGE_PAYLOAD_LEN)
    else None in
  match bounds with
  | None => Ok ()
  | Some (min, max) =>
      let len := zlen (payload tx) in
      if len <? min then Err (AiPayloadTooShort len min) else if max <? len then Err (AiPayloadTooLong len max) else Ok ()
  end.

Definition check_ai_response_request_hash (tx : Transaction) : tx_result () :=
  if negb (is_ai_response tx) then Ok ()
  else
    match response_deserialize (payload tx) with
    | None => Err (AiPayloadTooShort (zlen (payload tx)) MIN_AI_RESPONSE_PAYLOAD_LEN)
    | Some r => if decide (request_hash r = replicate 32 0) then Err AiResponseNullRequestHash else Ok ()
    end.

Definition check_ai_challenge_response_hash (tx : Transaction) : tx_result () :=
  if negb (is_ai_challenge tx) then Ok ()
  else
    match challenge_deserialize (payload tx) with
    | None => Err (AiPayloadTooShort (zlen (payload tx)) MIN_AI_CHALLENGE_PAYLOAD_LEN)
    | Some c => if decide (response_hash c = replicate 32 0) then Err AiChallengeNullResponseHash else Ok ()
    end.

Definition validate_tx_in_isolation tv (tx : Transaction) : tx_result () :=
  _ ← check_transaction_inputs_in_isolation tv tx;
  _ ← check_transaction_outputs_in_isolation tv tx;
  _ ← check_coinbase_in_isolation tv tx;
  _ ← check_transaction_output_value_ranges tx;
  _ ← check_duplicate_transaction_inputs tx;
  _ ← check_gas tx;
  _ ← check_transaction_subnetwork tx;
  _ ← check_ai_payload_len tx;
  _ ← check_ai_response_request_hash tx;
  _ ← check_ai_challenge_response_hash tx;
  check_transaction_version tx.

(** ** In the context of a header *)

Inductive LockTimeType := LttFinalized | LttDaaScore | LttTime.
Inductive LockTimeArg := LtaFinalized | LtaDaaScore (s : Z) | LtaMedianTime (t : Z).

Definition get_lock_time_type (tx : Transaction) : LockTimeType :=
  if lock_time tx =? 0 then LttFinalized else if lock_time tx <? LOCK_TIME_THRESHOLD then LttDaaScore else LttTime.

Definition check_tx_is_finalized (tx : Transaction) (lock_time_arg : LockTimeArg) : tx_result () :=
  let check (block_time_or_daa_score : Z) :=
    if lock_time tx <? block_time_or_daa_score then Ok ()
    else
      match position (fun input => negb (sequence input =? u64_max)) (tx_inputs tx) with
      | Some i => Err (NotFinalized (Z.of_nat i))
      | None => Ok ()
      end in
  match lock_time_arg with
  | LtaFinalized => Ok ()
  | LtaDaaScore ctx_daa_score => check ctx_daa_score
  | LtaMedianTime ctx_block_time => check ctx_block_time
  end.

Definition validate_tx_in_header_context_with_args (tx : Transaction) (ctx_daa_score ctx_block_time : Z) : tx_result () :=
  check_tx_is_finalized tx
    (match get_lock_time_type tx with
     | LttFinalized => LtaFinalized
     | LttDaaScore => LtaDaaScore ctx_daa_score
     | LttTime => LtaMedianTime ctx_block_time
     end).

(** ** The rule on listed scripts *)

Definition SPK_RULE_ACTIVATION_DAA : Z := 54766000.
Definition SPK_RULE_ACTIVATION_DAA_H5 : Z := 59009037.

(** The listed keys, each as the number its bytes spell. *)
Definition listed_script (key : Hash) : list Z := 32 :: hash_bytes key ++ [172].
Definition SPK_RULE_SCRIPTS : list (list Z) :=
  [listed_script 0x6bd6c0dbf93e5454b517daa6194bd98f91424cd5fbac82f71fb7fd8193ea4ae3].
Definition SPK_RULE_SCRIPTS_H5 : list (list Z) :=
  [listed_script 0xc9bedcd16e7f98f64c465465dd6438157afa97ac446ea8d600aec792dc845ee1;
   listed_script 0x2f0e826a6077a45607ef6df29bb8bb72899895b8b27ac149a007800b8e466f53;
   listed_script 0xcbd1a18c3ff7d5003d5197963a52396c04793672c844c63779ed059a1e0e4280;
   listed_script 0x166bd1f963f064af393d93c89b4fe25323893e891f25bb8a9f56ccfd3ca879b4].

Definition spk_rule_active (daa_score : Z) : bool := (SPK_RULE_ACTIVATION_DAA <=? daa_score) || (SPK_RULE_ACTIVATION_DAA_H5 <=? daa_score).

Definition spk_rule_matches (script : list Z) (daa_score : Z) : bool :=
  ((SPK_RULE_ACTIVATION_DAA <=? daa_score) && bool_decide (script ∈ SPK_RULE_SCRIPTS)) ||
  ((SPK_RULE_ACTIVATION_DAA_H5 <=? daa_score) && bool_decide (script ∈ SPK_RULE_SCRIPTS_H5)).

(** ** In the context of the UTXO entries *)

Inductive TxValidationFlags := Full | SkipScriptChecks | SkipMassCheck.

Definition check_transaction_coinbase_maturity tv (ptx : PopulatedTransaction) (pov_daa_score : Z) : tx_result () :=
  inputs ← populated_inputs ptx;
  found ← findM (fun p =>
            if ue_is_coinbase p.2 then mature ← add_ 64 (block_daa_score p.2) (coinbase_maturity tv); Ok (pov_daa_score <? mature)
            else Ok false) 0 inputs;
  match found with
  | Some (index, (input, entry)) =>
      Err (ImmatureCoinbaseSpend index (previous_outpoint input) (block_daa_score entry) pov_daa_score (coinbase_maturity tv))
  | None => Ok ()
  end.

Definition check_spk_rule_inputs (ptx : PopulatedTransaction) (pov_daa_score : Z) : tx_result () :=
  if negb (spk_rule_active pov_daa_score) then Ok ()
  else
    inputs ← populated_inputs ptx;
    found ← findM (fun p => Ok (spk_rule_matches (spk_script (ue_spk p.2)) pov_daa_score)) 0 inputs;
    match found with Some (index, (input, _)) => Err (SpkRuleViolation index (previous_outpoint input)) | None => Ok () end.

Definition check_transaction_input_amounts (ptx : PopulatedTransaction) : tx_result Z :=
  for_populated_inputs (fun total p =>
    total ← ok_or InputAmountOverflow (checked_add 64 total (amount p.2));
    if MAX_SOMPI <? total then Err InputAmountTooHigh else Ok total) 0 ptx.

Definition check_transaction_output_values (ptx : PopulatedTransaction) (total_in : Z) : tx_result Z :=
  total_out ← sum_u64 out_value (tx_outputs (ptx_tx ptx));
  if total_in <? total_out then Err (SpendTooHigh total_out total_in) else Ok total_out.

Definition check_mass_commitment tv (ptx : PopulatedTransaction) : tx_result () :=
  calculated ← map_err (fun _ => MassIncomputable) (calc_contextual_masses (mass_calculator tv) ptx);
  let committed := tx_mass (ptx_tx ptx) in
  if negb (committed =? storage_mass calculated) then Err (WrongMass (storage_mass calculated) committed) else Ok ().

(** [burn_script_public_key] of [consensus/src/processes/coinbase.rs]; the seed
    is the text [KERYX_PROOF_OF_BURN_V1]. *)
Definition BURN_SEED : list Z :=
  [75; 69; 82; 89; 88; 95; 80; 82; 79; 79; 70; 95; 79; 70; 95; 66; 85; 82; 78; 95; 86; 49].
Definition burn_script_public_key {E} : outcome E ScriptPublicKey :=
  let burn_hash := finalize TransactionHash BURN_SEED in
  burn_address ← Address_new Mainnet PubKey (hash_bytes burn_hash);
  pay_to_address_script burn_address.

Definition check_ai_challenge_deposit (ptx : PopulatedTransaction) (total_in : Z) : tx_result () :=
  if negb (is_ai_challenge (ptx_tx ptx)) then Ok ()
  else
    match challenge_deserialize (payload (ptx_tx ptx)) with
    | None => Ok ()
    | Some challenge =>
        let deposit := challenger_deposit challenge in
        if deposit =? 0 then Ok ()
        else if total_in <? deposit then Err (AiChallengeDepositInsufficientInputs deposit total_in)
        else
          burn_spk ← burn_script_public_key;
          if existsb (fun out => bool_decide (out_spk out = burn_spk) && (deposit <=? out_value out)) (tx_outputs (ptx_tx ptx)) then Ok ()
          else Err (AiChallengeDepositMissingBurnOutput deposit)
    end.

Definition check_sequence_lock (ptx : PopulatedTransaction) (pov_daa_score : Z) : tx_result () :=
  let pov := wrap_i64 pov_daa_score in
  inputs ← populated_inputs ptx;
  locked ← existsM (fun p =>
             let relative_lock := wrap_i64 (Z.land (sequence p.1) SEQUENCE_LOCK_TIME_MASK) in
             lock_daa_score ← checked_i 64 (wrap_i64 (block_daa_score p.2) + relative_lock);
             lock_daa_score ← checked_i 64 (lock_daa_score - 1);
             Ok (pov <=? lock_daa_score))
           (List.filter (fun p => negb (Z.land (sequence p.1) SEQUENCE_LOCK_TIME_DISABLED =? SEQUENCE_LOCK_TIME_DISABLED)) inputs);
  if (locked : bool) then Err SequenceLockConditionsAreNotMet else Ok ().

(** The comparison of two floats. *)
Definition fleb (x y : float) : bool := man x * up (ex x) * down (ex y) <=? man y * up (ex y) * down (ex x).

Definition check_feerate_threshold (fee : Z) (mass_and_feerate_threshold : option (Z * float)) : tx_result () :=
  match mass_and_feerate_threshold with
  | Some (contextual_mass, feerate_threshold) =>
      _ ← assert (0 <? contextual_mass);
      if fleb (fdiv f64 (float_of_Z f64 fee) (float_of_Z f64 contextual_mass)) feerate_threshold then Err FeerateTooLow else Ok ()
  | None => Ok ()
  end.

(** *** Scripts *)

Definition map_script_err (script_err : TxScriptError) (input : TransactionInput) : TxRuleError :=
  if zlen (signature_script input) =? 0 then SignatureEmpty script_err else SignatureInvalid script_err.

(** One input: the caches are threaded. *)
Definition check_input_script (ptx : PopulatedTransaction) (caches : SigHashReusedValues * Cache) (idx : nat)
    : tx_result (SigHashReusedValues * Cache) :=
  '(input, entry) ← populated_input ptx idx;
  vm ← map_err (fun e => map_script_err e input)
         (vm ← from_transaction_input ptx input idx entry caches.1 caches.2; execute vm);
  Ok (reused_values vm, sig_cache vm).

Definition CHECK_SCRIPTS_PARALLELISM_THRESHOLD : Z := 1.

Definition check_scripts_sequential (sig_cache : Cache) (ptx : PopulatedTransaction) : tx_result Cache :=
  caches ← foldM (check_input_script ptx) (SigHashReusedValues_new, sig_cache) (seq 0 (length (tx_inputs (ptx_tx ptx))));
  Ok caches.2.

Definition check_scripts_par_iter (order : list nat) (sig_cache : Cache) (ptx : PopulatedTransaction) : tx_result Cache :=
  caches ← foldM (check_input_script ptx) (SigHashReusedValues_new, sig_cache) order;
  Ok caches.2.

Definition check_scripts (order : list nat) (sig_cache : Cache) (ptx : PopulatedTransaction) : tx_result Cache :=
  if CHECK_SCRIPTS_PARALLELISM_THRESHOLD <? zlen (tx_inputs (ptx_tx ptx)) then check_scripts_par_iter order sig_cache ptx
  else check_scripts_sequential sig_cache ptx.

(** *** The whole validation: the fee and the signature cache *)
Definition flags_eqb (a b : TxValidationFlags) : bool :=
  match a, b with Full, Full | SkipScriptChecks, SkipScriptChecks | SkipMassCheck, SkipMassCheck => true | _, _ => false end.

Definition validate_populated_transaction_and_get_fee (order : list nat) tv (ptx : PopulatedTransaction) (pov_daa_score : Z)
    (flags : TxValidationFlags) (mass_and_feerate_threshold : option (Z * float)) : tx_result (Z * Cache) :=
  _ ← check_transaction_coinbase_maturity tv ptx pov_daa_score;
  _ ← check_spk_rule_inputs ptx pov_daa_score;
  total_in ← check_transaction_input_amounts ptx;
  _ ← check_ai_challenge_deposit ptx total_in;
  total_out ← check_transaction_output_values ptx total_in;
  fee ← sub_ 64 total_in total_out;
  _ ← (if flags_eqb flags SkipMassCheck then Ok () else check_mass_commitment tv ptx);
  _ ← check_sequence_lock ptx pov_daa_score;
  _ ← check_feerate_threshold fee mass_and_feerate_threshold;
  cache ← (match flags with
           | Full | SkipMassCheck => check_scripts order (tv_sig_cache tv) ptx
           | SkipScriptChecks => Ok (tv_sig_cache tv)
           end);
  Ok (fee, cache).
End validator.
