(* ===== verification/TxContext.v ===== *)
(** * Transactions against the virtual state

    The entry points of [consensus/src/pipeline/virtual_processor] that
    validate a transaction of a block or of the mempool against a UTXO view
    ([utxo_validation.rs] and [validate_mempool_transaction_impl] of
    [processor.rs]), and [MutableTransaction] of [consensus/core/src/tx.rs].

    Signature caches are shared between threads.  The contents of the cache at
    the start of a validation are those of the validator that is given. *)
From S2P Require Import Prelude Bytes Tx Utxo ScriptNum Hashing ScriptOps Script ScriptStd Float Slice Payloads Mass TxValidate Params.

#[local] Open Scope Z_scope.

(** [Result::ok]. *)
Definition discard_err {E E' A} (c : outcome E A) : outcome E' (option A) :=
  match c with Ok a => Ok (Some a) | Err _ => Ok None | Panic => Panic | OutOfFuel => OutOfFuel end.

(** ** [MutableTransaction] *)

Record MutableTransaction := mkMutable {
  mtx_tx : Transaction;
  mtx_entries : list (option UtxoEntry);
  calculated_fee : option Z;
  calculated_non_contextual_masses : option NonContextualMasses
}.

Definition MutableTransaction_new (tx : Transaction) : MutableTransaction :=
  mkMutable tx (replicate (length (tx_inputs tx)) None) None None.

Definition set_entries (es : list (option UtxoEntry)) (m : MutableTransaction) : MutableTransaction :=
  mkMutable (mtx_tx m) es (calculated_fee m) (calculated_non_contextual_masses m).
Definition set_fee (fee : Z) (m : MutableTransaction) : MutableTransaction :=
  mkMutable (mtx_tx m) (mtx_entries m) (Some fee) (calculated_non_contextual_masses m).

(** [Transaction::set_mass]. *)
Definition set_tx_mass (mass : Z) (tx : Transaction) : Transaction :=
  mkTransaction (tx_version tx) (tx_inputs tx) (tx_outputs tx) (lock_time tx) (subnetwork_id tx) (gas tx) (payload tx) mass (tx_id tx).
Definition set_mass (mass : Z) (m : MutableTransaction) : MutableTransaction :=
  mkMutable (set_tx_mass mass (mtx_tx m)) (mtx_entries m) (calculated_fee m) (calculated_non_contextual_masses m).

Definition is_verifiable {E} (m : MutableTransaction) : outcome E bool :=
  _ ← assert (length (mtx_entries m) =? length (tx_inputs (mtx_tx m)))%nat;
  Ok (forallb (fun e => if e is Some _ then true else false) (mtx_entries m)).

Definition as_verifiable {E} (m : MutableTransaction) : outcome E PopulatedTransaction :=
  verifiable ← is_verifiable m;
  _ ← assert verifiable;
  Ok (mkPopulated (mtx_tx m) (omap id (mtx_entries m))).

(** ** Rules on AI requests *)

Definition INFERENCE_REWARD_TOKEN_STEP : Z := 5000000.
Definition MIN_AI_REQUEST_PRIORITY_FEE : Z := 30000000.
Definition AI_REQUEST_MAX_TOKENS_CAP : Z := 4096.
Definition INFERENCE_VAULT_SCRIPT : list Z := [106; 7; 97; 105; 118; 97; 117; 108; 116].

Notation rule_result := (outcome AiRequestRule).

(** The reward table of the era. *)
Definition check_ai_request_payload_rules (tx : Transaction) (req : AiRequestPayload) (minimums : list (list Z * Z)) : rule_result () :=
  _ ← (match List.find (fun m => bool_decide (m.1 = model_id req)) minimums with
       | Some (_, base_reward) =>
           token_surcharge ← mul_ 64 ((max_tokens req + 63) / 64) INFERENCE_REWARD_TOKEN_STEP;
           effective_min ← add_ 64 base_reward token_surcharge;
           if inference_reward req <? effective_min then
             Err (AiRequestInferenceRewardBelowMinimum (tx_id tx) (inference_reward req) effective_min (model_id req))
           else Ok ()
       | None => Ok ()
       end);
  if priority_fee req <? MIN_AI_REQUEST_PRIORITY_FEE then
    Err (AiRequestPriorityFeeBelowMinimum (tx_id tx) (priority_fee req) MIN_AI_REQUEST_PRIORITY_FEE)
  else Ok ().

Definition check_ai_request_escrow_output (tx : Transaction) (req : AiRequestPayload) (routed : bool) : rule_result () :=
  match tx_outputs tx with
  | _ :: escrow_out :: _ =>
      let spk := out_spk escrow_out in
      let invalid := if routed then negb (spk_version spk =? 0) || negb (bool_decide (spk_script spk = INFERENCE_VAULT_SCRIPT))
                     else negb (is_csv_pay_to_pubkey (spk_script spk)) in
      if invalid then Err (AiRequestInvalidEscrowScript (tx_id tx))
      else if out_value escrow_out <? inference_reward req then
        Err (AiRequestEscrowBelowInferenceReward (tx_id tx) (out_value escrow_out) (inference_reward req))
      else Ok ()
  | _ => Err (AiRequestMissingEscrowOutput (tx_id tx))
  end.

Definition check_ai_request_tx_payload_rules (tx : Transaction) (minimums : list (list Z * Z)) (routed : bool) : rule_result () :=
  if negb (is_ai_request tx) then Ok ()
  else
    match request_deserialize (payload tx) with
    | Some req => _ ← check_ai_request_payload_rules tx req minimums; check_ai_request_escrow_output tx req routed
    | None => Ok ()
    end.

(** ** The virtual processor *)

Section processor.
Context `{Hashers, Crypto, !IndexMap SigCacheKey bool}.

(** The fields of [VirtualStateProcessor] that the checks read; the five
    reward tables are constants and parameters of the network. *)
Record Processor := mkProcessor {
  transaction_validator : TransactionValidator;
  service_burned : gmap TransactionOutpoint Z;
  finality_depth : Z;
  model_cap_enforcement_activation : Z;
  reward_routing_activation : Z;
  pom_v3_activation : Z;
  coin_age_activation : Z;
  inference_min_h2_activation : Z;
  opoi_v2_activation : Z;
  minimums_v2_h6 : list (list Z * Z);
  minimums_v2_h4 : list (list Z * Z);
  minimums_v2_h2 : list (list Z * Z);
  minimums_v2 : list (list Z * Z);
  minimums_v1 : list (list Z * Z)
}.

Implicit Types vp : Processor.

Definition ai_reward_minimums vp (daa_score : Z) : list (list Z * Z) :=
  if is_active (pom_v3_activation vp) daa_score then minimums_v2_h6 vp
  else if is_active (coin_age_activation vp) daa_score then minimums_v2_h4 vp
  else if is_active (inference_min_h2_activation vp) daa_score then minimums_v2_h2 vp
  else if is_active (opoi_v2_activation vp) daa_score then minimums_v2 vp
  else minimums_v1 vp.

(** The burned outpoints of the message; none is [None]. *)
Definition burned_outpoints_msg vp (outpoints : list TransactionOutpoint) (pov_daa_score : Z) : option (list TransactionOutpoint) :=
  match List.filter (fun o =>
          match service_burned vp !! o with
          | Some burn_daa => sat_add 64 burn_daa (finality_depth vp) <? pov_daa_score
          | None => false
          end) outpoints with
  | [] => None
  | burned => Some burned
  end.

Definition HISTORICAL_ANCHOR_OVERRIDES : list (Hash * Z * Z) :=
  [(0xaeb4e536e444210419a3bf2fae8e582816ad36339be0f429c0eaac611e3bcab3, 1, 74780462)].

Definition historical_anchor_override (outpoint : TransactionOutpoint) : option Z :=
  (fun p => p.2) <$>
    List.find (fun p => (transaction_id outpoint =? p.1.1) && (op_index outpoint =? p.1.2)) HISTORICAL_ANCHOR_OVERRIDES.

Definition apply_anchor (outpoint : TransactionOutpoint) (entry : UtxoEntry) : UtxoEntry :=
  match historical_anchor_override outpoint with
  | Some anchor =>
      if negb (effective_daa entry =? anchor) then
        mkUtxoEntry (amount entry) (ue_spk entry) (block_daa_score entry) (ue_is_coinbase entry) anchor
      else entry
  | None => entry
  end.

(** The validated transaction: the populated transaction and its fee. *)
Definition validate_transaction_in_utxo_context `{UtxoView V} (order : list nat) vp (tx : Transaction) (utxo_view : V)
    (pov_daa_score : Z) (flags : TxValidationFlags) : tx_result (PopulatedTransaction * Z) :=
  match burned_outpoints_msg vp (previous_outpoint <$> tx_inputs tx) pov_daa_score with
  | Some msg => Err (SpendOfBurnedEscrow msg)
  | None =>
      entries ← mapM' (fun input =>
                  entry ← ok_or MissingTxOutpoints (get utxo_view (previous_outpoint input));
                  Ok (apply_anchor (previous_outpoint input) entry)) (tx_inputs tx);
      populated_tx ← PopulatedTransaction_new tx entries;
      '(fee, _) ← validate_populated_transaction_and_get_fee order (transaction_validator vp) populated_tx pov_daa_score flags None;
      Ok (populated_tx, fee)
  end.

(** A transaction of a block with its index. *)
Definition validate_indexed `{UtxoView V} (orders : nat -> list nat) vp (utxo_view : V) (pov_daa_score : Z) (flags : TxValidationFlags)
    (p : nat * Transaction) : tx_result (option (PopulatedTransaction * Z * Z)) :=
  vtx ← discard_err (E' := TxRuleError) (validate_transaction_in_utxo_context (orders p.1) vp p.2 utxo_view pov_daa_score flags);
  Ok (match vtx with Some (ptx, fee) => Some (ptx, fee, Z.of_nat p.1) | None => None end).

(** The transactions that pass, with their fee and their index in the block;
    the coinbase is skipped.  [orders] are the orders in which the inputs of
    each transaction are checked. *)
Definition validate_transactions_in_parallel `{UtxoView V} (orders : nat -> list nat) vp (txs : list Transaction) (utxo_view : V)
    (pov_daa_score : Z) (flags : TxValidationFlags) : tx_result (list (PopulatedTransaction * Z * Z)) :=
  validated ← mapM' (validate_indexed orders vp utxo_view pov_daa_score flags) (drop 1 (imap pair txs));
  Ok (omap (M := list) id validated).

(** ** The mempool *)

(** The entries that are found are kept also when some are missing: the result
    is the updated transaction and what the call returns. *)
Definition populate_mempool_transaction_in_utxo_context `{UtxoView V} (m : MutableTransaction) (utxo_view : V)
    : tx_result (MutableTransaction * tx_result ()) :=
  found ← mapM' (fun p : nat * TransactionInput =>
    known ← unwrap (mtx_entries m !! p.1);
    Ok (match known with Some e => Some e | None => get utxo_view (previous_outpoint p.2) end)) (imap pair (tx_inputs (mtx_tx m)));
  Ok (set_entries (found ++ drop (length found) (mtx_entries m)) m,
      if forallb (fun e => if e is Some _ then true else false) found then Ok () else Err MissingTxOutpoints).

(** The checks after the population; the mutable transaction is returned with
    its mass and its fee. *)
Definition validate_populated_mempool_transaction (order : list nat) vp (m : MutableTransaction) (pov_daa_score : Z)
    (feerate_threshold : option float) : tx_result MutableTransaction :=
  match burned_outpoints_msg vp (previous_outpoint <$> tx_inputs (mtx_tx m)) pov_daa_score with
  | Some msg => Err (SpendOfBurnedEscrow msg)
  | None =>
      let tv := transaction_validator vp in
      verifiable ← as_verifiable m;
      contextual_mass ← map_err (fun _ => MassIncomputable) (calc_contextual_masses (mass_calculator tv) verifiable);
      let m := set_mass (storage_mass contextual_mass) m in
      mass_and_feerate_threshold ← (match feerate_threshold with
        | Some threshold => masses ← unwrap (calculated_non_contextual_masses m); Ok (Some (contextual_max contextual_mass masses, threshold))
        | None => Ok None
        end);
      verifiable ← as_verifiable m;
      '(fee, _) ← validate_populated_transaction_and_get_fee order tv verifiable pov_daa_score SkipMassCheck mass_and_feerate_threshold;
      Ok (set_fee fee m)
  end.

Definition validate_mempool_transaction_in_utxo_context `{UtxoView V} (order : list nat) vp (m : MutableTransaction) (utxo_view : V)
    (pov_daa_score : Z) (feerate_threshold : option float) : tx_result MutableTransaction :=
  '(m, populated) ← populate_mempool_transaction_in_utxo_context m utxo_view;
  _ ← populated;
  validate_populated_mempool_transaction order vp m pov_daa_score feerate_threshold.

(** The rules that depend on the service-bond activation. *)
Definition check_service_bond_rules vp (tx : Transaction) (virtual_daa_score : Z) : tx_result () :=
  if negb (is_active (pom_v3_activation vp) virtual_daa_score) then
    if is_ai_response tx && negb (zlen (payload tx) =? AI_RESPONSE_PAYLOAD_LEN) then
      Err (AiPayloadTooLong (zlen (payload tx)) AI_RESPONSE_PAYLOAD_LEN)
    else Ok ()
  else if is_ai_request tx then
    match request_deserialize (payload tx) with
    | Some req =>
        if AI_REQUEST_MAX_TOKENS_CAP <? max_tokens req then
          Err (AiRequestPayloadRule (AiRequestMaxTokensExceeded (max_tokens req) AI_REQUEST_MAX_TOKENS_CAP))
        else Ok ()
    | None => Ok ()
    end
  else Ok ().

Definition validate_mempool_transaction_impl `{UtxoView V} (order : list nat) vp (m : MutableTransaction) (virtual_utxo_view : V)
    (virtual_daa_score virtual_past_median_time : Z) (feerate_threshold : option float) : tx_result MutableTransaction :=
  let tx := mtx_tx m in
  _ ← validate_tx_in_isolation (transaction_validator vp) tx;
  _ ← validate_tx_in_header_context_with_args tx virtual_daa_score virtual_past_median_time;
  _ ← (if is_active (model_cap_enforcement_activation vp) virtual_daa_score then
         map_err AiRequestPayloadRule
           (check_ai_request_tx_payload_rules tx (ai_reward_minimums vp virtual_daa_score)
              (is_active (reward_routing_activation vp) virtual_daa_score))
       else Ok ());
  _ ← check_service_bond_rules vp tx virtual_daa_score;
  validate_mempool_transaction_in_utxo_context order vp m virtual_utxo_view virtual_daa_score feerate_threshold.
End processor.
