(* ===== verification/TxScripts.v ===== *)
(** * The scripts of a transaction

    The order in which the inputs are checked and the contents of the caches do
    not matter: [check_scripts], in sequence or in parallel, accepts exactly
    when every input accepts on its own. *)
From S2P Require Import Prelude Bytes Tx ScriptNum Hashing ScriptOps Script ScriptSafe ScriptCache Mass TxValidate.

#[local] Open Scope Z_scope.

(** What the engine and the checks rely on: one entry per input, scripts of
    bytes, and integers of their widths. *)
Record ptx_ok (ptx : PopulatedTransaction) : Prop := {
  ptx_lengths : length (tx_inputs (ptx_tx ptx)) = length (entries ptx);
  ptx_inputs : Forall (fun i => bytes (signature_script i) /\ in_u 8 (sig_op_count i) /\ in_u 64 (sequence i)) (tx_inputs (ptx_tx ptx));
  ptx_entries : Forall (fun e => bytes (spk_script (ue_spk e)) /\ in_u 64 (amount e)) (entries ptx);
  ptx_outputs : Forall (fun o => bytes (spk_script (out_spk o)) /\ in_u 64 (out_value o)) (tx_outputs (ptx_tx ptx));
  ptx_counts : zlen (tx_inputs (ptx_tx ptx)) < 2 ^ 63 /\ zlen (tx_outputs (ptx_tx ptx)) < 2 ^ 63
}.

Section scripts.
Context `{Hashers, Crypto, !IndexMap SigCacheKey bool}.
Context (Sha256_bytes : forall l, bytes (Sha256 l)) (Blake2b_bytes : forall l, bytes (Blake2b l)).
Implicit Types ptx : PopulatedTransaction.

(** The verdict on an input alone, with empty caches. *)
Definition script_verdict ptx (idx : nat) : tx_result () :=
  '(input, entry) ← populated_input ptx idx;
  _ ← map_err (fun e => map_script_err e input)
        (vm ← from_transaction_input ptx input idx entry SigHashReusedValues_new (Cache_new 0 []); execute vm);
  Ok ().

Definition right ptx (caches : SigHashReusedValues * Cache) : Prop := reused_ok (ptx_tx ptx) caches.1 /\ cache_ok caches.2.

Lemma populated_input_lookup {E} ptx idx : length (tx_inputs (ptx_tx ptx)) = length (entries ptx) -> (idx < length (tx_inputs (ptx_tx ptx)))%nat ->
  exists input entry, tx_inputs (ptx_tx ptx) !! idx = Some input /\ entries ptx !! idx = Some entry /\
    populated_input (E := E) ptx idx = Ok (input, entry).
Proof using.
  intros Hl Hi. destruct (lookup_lt_is_Some_2 _ _ Hi) as [input Ei]. rewrite Hl in Hi. destruct (lookup_lt_is_Some_2 _ _ Hi) as [entry Ee].
  exists input, entry. unfold populated_input. by rewrite Ei, Ee.
Qed.

Lemma check_input_rel ptx caches idx : length (tx_inputs (ptx_tx ptx)) = length (entries ptx) ->
  (idx < length (tx_inputs (ptx_tx ptx)))%nat -> right ptx caches ->
  rel (fun cs _ => right ptx cs) (check_input_script ptx caches idx) (script_verdict ptx idx).
Proof using.
  intros Hl Hi [Hr Hc]. unfold check_input_script, script_verdict.
  destruct (populated_input_lookup (E := TxRuleError) ptx idx Hl Hi) as (input & entry & Ei & Ee & ->). run.
  pose proof (execute_transparent ptx input idx entry caches.1 caches.2 Ei Ee Hr Hc) as Ht. revert Ht.
  match goal with |- rel _ ?x ?y -> _ => destruct x, y end; cbn; try done; [|by intros ->]. by intros (_ & _ & ? & ?).
Qed.

(** A loop over any indices stops at the first input that does not accept. *)
Lemma check_inputs_rel ptx order caches : length (tx_inputs (ptx_tx ptx)) = length (entries ptx) ->
  Forall (fun i => i < length (tx_inputs (ptx_tx ptx)))%nat order -> right ptx caches ->
  match foldM (check_input_script ptx) caches order with
  | Ok cs => right ptx cs /\ Forall (fun i => script_verdict ptx i = Ok ()) order
  | Err e => Exists (fun i => script_verdict ptx i = Err e) order
  | Panic => Exists (fun i => script_verdict ptx i = Panic) order
  | OutOfFuel => Exists (fun i => script_verdict ptx i = OutOfFuel) order
  end.
Proof using.
  intros Hl Ho. revert caches. induction Ho as [|i order Hi Ho IH]; intros caches Hr; cbn [foldM]; [done|].
  pose proof (check_input_rel ptx caches i Hl Hi Hr) as Hs.
  destruct (check_input_script ptx caches i) as [cs| | |], (script_verdict ptx i) as [[]| | |] eqn:Ev; cbn in Hs; try done; run;
    [|left; congruence|by left..].
  specialize (IH cs Hs). destruct (foldM (check_input_script ptx) cs order); [|by right..].
  destruct IH. split; [done|]. by constructor.
Qed.

(** An input never panics. *)
Lemma script_verdict_safe ptx idx : ptx_ok ptx -> (idx < length (tx_inputs (ptx_tx ptx)))%nat ->
  script_verdict ptx idx = Ok () \/ exists e, script_verdict ptx idx = Err e.
Proof using Sha256_bytes Blake2b_bytes.
  intros [Hl Hin Hen Hout [Hc1 Hc2]] Hi. unfold script_verdict.
  destruct (populated_input_lookup (E := TxRuleError) ptx idx Hl Hi) as (input & entry & Ei & Ee & ->). run.
  assert (source_ok (TxInput ptx input idx entry (is_pay_to_script_hash (spk_script (ue_spk entry))))) as Hsrc.
  { cbn. unfold in_u in *. pose proof (Forall_lookup_1 _ _ _ _ Hin Ei) as [? _]. split_and!; try done.
    - eapply Forall_impl; [exact Hen|]. cbn. intros e (? & ?). split; [done|lia].
    - eapply Forall_impl; [exact Hout|]. cbn. intros e (? & ?). split; [done|lia]. }
  pose proof (Forall_lookup_1 _ _ _ _ Hin Ei) as (_ & Hu & _).
  destruct (from_transaction_input_ok ptx input idx entry SigHashReusedValues_new (Cache_new 0 [])) as (vm & -> & Hb & Ha & Hw);
    [done|unfold in_u in Hu; lia|]. run.
  pose proof (execute_safe Sha256_bytes Blake2b_bytes _ (sig_op_count input) Hsrc vm (conj (conj Hw Hb) Ha)) as Hex.
  destruct (execute vm) as [vm'| | |]; cbn; try done; [by left|right; eauto].
Qed.

Lemma check_order_spec ptx order c : ptx_ok ptx -> cache_ok c -> order ≡ₚ seq 0 (length (tx_inputs (ptx_tx ptx))) ->
  match check_scripts_par_iter order c ptx with
  | Ok c' => cache_ok c' /\ forall i, (i < length (tx_inputs (ptx_tx ptx)))%nat -> script_verdict ptx i = Ok ()
  | Err e => exists i, (i < length (tx_inputs (ptx_tx ptx)))%nat /\ script_verdict ptx i = Err e
  | Panic | OutOfFuel => False
  end.
Proof using Sha256_bytes Blake2b_bytes.
  intros Hok Hc Ho. assert (forall i, i ∈ order <-> (i < length (tx_inputs (ptx_tx ptx)))%nat) as Hin.
  { intros i. rewrite Ho, elem_of_seq. lia. }
  pose proof (check_inputs_rel ptx order (SigHashReusedValues_new, c) (ptx_lengths _ Hok)) as Hs.
  unfold check_scripts_par_iter. destruct (foldM _ _ order) as [cs|e| |].
  - destruct Hs as [[_ Hc'] Hv]; [apply Forall_forall; apply Hin|split; [apply fresh_reused_ok|done]|]. run. split; [done|].
    intros i Hi. rewrite Forall_forall in Hv. by apply Hv, Hin.
  - apply Exists_exists in Hs as (i & Hi & Hv); [|apply Forall_forall; apply Hin|split; [apply fresh_reused_ok|done]].
    exists i. split; [by apply Hin|done].
  - apply Exists_exists in Hs as (i & Hi & Hv); [|apply Forall_forall; apply Hin|split; [apply fresh_reused_ok|done]].
    destruct (script_verdict_safe ptx i Hok) as [|[? ?]]; [by apply Hin|congruence..].
  - apply Exists_exists in Hs as (i & Hi & Hv); [|apply Forall_forall; apply Hin|split; [apply fresh_reused_ok|done]].
    destruct (script_verdict_safe ptx i Hok) as [|[? ?]]; [by apply Hin|congruence..].
Qed.

Lemma check_scripts_spec ptx order c : ptx_ok ptx -> cache_ok c -> order ≡ₚ seq 0 (length (tx_inputs (ptx_tx ptx))) ->
  match check_scripts order c ptx with
  | Ok c' => cache_ok c' /\ forall i, (i < length (tx_inputs (ptx_tx ptx)))%nat -> script_verdict ptx i = Ok ()
  | Err e => exists i, (i < length (tx_inputs (ptx_tx ptx)))%nat /\ script_verdict ptx i = Err e
  | Panic | OutOfFuel => False
  end.
Proof using Sha256_bytes Blake2b_bytes.
  intros Hok Hc Ho. unfold check_scripts. destruct (_ <? _); [by apply check_order_spec|].
  by apply (check_order_spec ptx (seq 0 (length (tx_inputs (ptx_tx ptx))))).
Qed.

(** Checking the scripts of a transaction does not depend on the schedule.
    In whatever order the threads visit the inputs and whatever right answers
    the shared signature cache holds, [check_scripts] succeeds exactly when
    every input accepts when it is run alone with empty caches, and so exactly
    when the sequential loop does; the error it returns is the error of one of
    the inputs run alone; the cache holds right answers afterwards; and nothing
    panics. *)
Theorem check_scripts_any_order ptx order c :
  ptx_ok ptx -> cache_ok c -> order ≡ₚ seq 0 (length (tx_inputs (ptx_tx ptx))) ->
  (is_ok (check_scripts order c ptx) = true <->
     forall i, (i < length (tx_inputs (ptx_tx ptx)))%nat -> is_ok (script_verdict ptx i) = true) /\
  is_ok (check_scripts order c ptx) = is_ok (check_scripts_sequential c ptx) /\
  match check_scripts order c ptx with
  | Ok c' => cache_ok c'
  | Err e => exists i, (i < length (tx_inputs (ptx_tx ptx)))%nat /\ script_verdict ptx i = Err e
  | Panic | OutOfFuel => False
  end.
Proof using Sha256_bytes Blake2b_bytes.
  intros Hok Hc Ho. pose proof (check_scripts_spec ptx order c Hok Hc Ho) as Hs.
  pose proof (check_order_spec ptx (seq 0 (length (tx_inputs (ptx_tx ptx)))) c Hok Hc (reflexivity _)) as Hq.
  change (check_scripts_par_iter _ c ptx) with (check_scripts_sequential c ptx) in Hq.
  destruct (check_scripts order c ptx) as [c'|e| |], (check_scripts_sequential c ptx) as [c2|e2| |]; try done; cbn [is_ok].
  - destruct Hs as [Hc' Hv]. split_and!; [|done..]. split; [|done]. intros _ i Hi. by rewrite Hv.
  - destruct Hs as [_ Hv], Hq as (i & Hi & He). rewrite Hv in He by done. done.
  - destruct Hq as [_ Hv], Hs as (i & Hi & He). rewrite Hv in He by done. done.
  - destruct Hs as (i & Hi & He). split_and!; [|done|eauto]. split; [done|]. intros Hv. specialize (Hv i Hi). by rewrite He in Hv.
Qed.
End scripts.

(** Two coins that anyone can spend. *)
Definition example_two : PopulatedTransaction :=
  mkPopulated
    (mkTransaction 0 [mkInput (mkOutpoint 7 0) [] 5 1; mkInput (mkOutpoint 7 1) [] 5 1] [mkOutput 100 (mkSpk 0 [81])] 0 SUBNETWORK_ID_NATIVE 0 [] 0 0)
    [UtxoEntry_new 200 (mkSpk 0 [82]) 3 false; UtxoEntry_new 300 (mkSpk 0 [81]) 3 false].

Lemma example_two_ok : ptx_ok example_two.
Proof. constructor; [done|..|done]; repeat constructor; done. Qed.

Lemma check_scripts_any_order_witness :
  is_ok (@check_scripts spell_hashers spell_crypto spell_map [1%nat; 0%nat] example_cache example_two) = true /\
  is_ok (@check_scripts spell_hashers spell_crypto spell_map [1%nat; 0%nat] example_cache example_two) =
    is_ok (@check_scripts_sequential spell_hashers spell_crypto spell_map example_cache example_two).
Proof.
  edestruct (@check_scripts_any_order spell_hashers spell_crypto spell_map) as (Hiff & Heq & _);
    [intros; apply hash_bytes_bytes|intros; apply hash_bytes_bytes|apply example_two_ok|apply example_cache_ok|apply (perm_swap 0%nat 1%nat [])|].
  split; [|exact Heq]. apply Hiff. intros [|[|i]] Hi; [vm_compute; reflexivity|vm_compute; reflexivity|cbn in Hi; lia].
Defined.
