(* ===== verification/TxTheorems.v ===== *)
(** * What validation accepts

    Each check decides a property of the transaction: [decides P V c] says that
    [c] succeeds with a value in [V] when [P] holds, returns an error when it
    does not, and never panics. *)
From S2P Require Import Prelude Bytes Tx Utxo ScriptNum Hashing ScriptOps Script ScriptSafe ScriptCache ScriptStd Float Slice Payloads Mass.
From S2P Require Import TxValidate TxContext TxScripts.

#[local] Open Scope Z_scope.

Definition decides {E A} (P : Prop) (V : A -> Prop) (c : outcome E A) : Prop :=
  match c with Ok a => P /\ V a | Err _ => ~ P | Panic | OutOfFuel => False end.

Notation decides_ P := (decides P (fun _ : () => True)).

Section decides.
Context {E : Type}.

Lemma decides_bind {A B} P Q (V : A -> Prop) (W : B -> Prop) (c : outcome E A) (f : A -> outcome E B) :
  decides P V c -> (forall a, P -> V a -> decides Q W (f a)) -> decides (P /\ Q) W (c ≫= f).
Proof.
  destruct c as [a| | |]; cbn; try done; [|tauto]. intros [HP HV] Hf. specialize (Hf a HP HV). destruct (f a); cbn in *; try done; tauto.
Qed.

(** One check after the other. *)
Lemma decides_then {B} P Q (W : B -> Prop) (c : outcome E ()) (d : outcome E B) :
  decides_ P c -> (P -> decides Q W d) -> decides (P /\ Q) W (_ ← c; d).
Proof. intros Hc Hd. eapply decides_bind; [exact Hc|]. auto. Qed.

Lemma decides_iff {A} P Q (V : A -> Prop) (c : outcome E A) : (P <-> Q) -> decides P V c -> decides Q V c.
Proof. destruct c; cbn; tauto. Qed.

Lemma decides_weaken {A} P (V W : A -> Prop) (c : outcome E A) : (forall a, V a -> W a) -> decides P V c -> decides P W c.
Proof. destruct c; cbn; naive_solver. Qed.

Lemma decides_if (b : bool) P (e : E) : (b = false <-> P) -> decides_ P (if b then Err e else Ok ()).
Proof. destruct b; cbn; naive_solver. Qed.

Lemma decides_ifn (b : bool) P (e : E) : (b = true <-> P) -> decides_ P (if b then Ok () else Err e).
Proof. destruct b; cbn; naive_solver. Qed.

(** A check that does not apply. *)
Lemma decides_skip (b : bool) P (c : outcome E ()) : (b = true -> decides_ P c) -> decides_ (b = true -> P) (if b then c else Ok ()).
Proof. destruct b; cbn; [|done]. intros Hc. eapply decides_iff; [|by apply Hc]. naive_solver. Qed.

Lemma decides_position {A} (f : A -> bool) l P (e : nat -> E) : (forall a, f a = false <-> P a) ->
  decides_ (Forall P l) (match position f l with Some i => Err (e i) | None => Ok () end).
Proof.
  intros Hf. pose proof (position_None f l) as Hn. assert (Forall (fun y => f y = false) l <-> Forall P l) as Hl by (by apply Forall_iff).
  destruct (position f l); cbn; [|split; [|done]; by apply Hl, Hn]. intros HP. apply Hl, Hn in HP. done.
Qed.
End decides.

(** ** In isolation *)

(** What a transaction must satisfy on its own. *)
Record isolated `{Crypto, !IndexMap SigCacheKey bool} (tv : TransactionValidator) (tx : Transaction) : Prop := {
  iso_some_input : tx_inputs tx = [] -> is_coinbase tx = true \/ is_ai_response tx = true \/ is_ai_challenge tx = true;
  iso_inputs : zlen (tx_inputs tx) <= max_tx_inputs tv;
  iso_signatures : Forall (fun i => zlen (signature_script i) <= max_signature_script_len tv) (tx_inputs tx);
  iso_outputs : is_coinbase tx = false -> zlen (tx_outputs tx) <= max_tx_outputs tv;
  iso_keys : Forall (fun o => zlen (spk_script (out_spk o)) <= max_script_public_key_len tv) (tx_outputs tx);
  iso_coinbase : is_coinbase tx = true ->
    tx_inputs tx = [] /\ tx_mass tx = 0 /\ zlen (tx_outputs tx) <= coinbase_outputs_limit (ghostdag_k tv) true true /\
    Forall (fun o => zlen (spk_script (out_spk o)) <= coinbase_payload_script_public_key_max_len tv) (tx_outputs tx);
  iso_values : Forall (fun o => 1 <= out_value o <= MAX_SOMPI) (tx_outputs tx);
  iso_total : Zsum (out_value <$> tx_outputs tx) <= MAX_SOMPI;
  iso_distinct : NoDup (previous_outpoint <$> tx_inputs tx);
  iso_gas : gas tx = 0;
  iso_subnetwork : is_coinbase tx = true \/ is_native (subnetwork_id tx) = true \/ is_ai (subnetwork_id tx) = true;
  iso_request : is_ai_request tx = true -> MIN_AI_REQUEST_PAYLOAD_LEN <= zlen (payload tx) <= MAX_AI_REQUEST_PAYLOAD_LEN;
  iso_response : is_ai_response tx = true ->
    exists r, response_deserialize (payload tx) = Some r /\ request_hash r <> replicate 32 0;
  iso_challenge : is_ai_challenge tx = true ->
    exists c, challenge_deserialize (payload tx) = Some c /\ response_hash c <> replicate 32 0;
  iso_version : tx_version tx = TX_VERSION
}.

Section isolation.
Context `{Crypto, !IndexMap SigCacheKey bool}.
Implicit Types tv : TransactionValidator.

Lemma inputs_check tv tx : decides_
  (((tx_inputs tx = [] -> is_coinbase tx = true \/ is_ai_response tx = true \/ is_ai_challenge tx = true) /\
    zlen (tx_inputs tx) <= max_tx_inputs tv) /\
   Forall (fun i => zlen (signature_script i) <= max_signature_script_len tv) (tx_inputs tx))
  (check_transaction_inputs_in_isolation tv tx).
Proof.
  unfold check_transaction_inputs_in_isolation. apply decides_then; [|intros _; apply decides_position; intros; apply Z.ltb_ge].
  unfold check_transaction_inputs_count. assert ((zlen (tx_inputs tx) =? 0) = true <-> tx_inputs tx = []) as Hz.
  { unfold zlen. rewrite Z.eqb_eq. destruct (tx_inputs tx); cbn; [done|]. split; (done || lia). }
  destruct (negb _ && _ && _ && _) eqn:E.
  - cbn. intros [Hn _]. rewrite !andb_true_iff, !negb_true_iff, Hz in E. destruct E as [[[E1 E2] E3] E4]. destruct (Hn E4) as [|[|]]; congruence.
  - eapply decides_iff; [|apply decides_if, Z.ltb_ge]. split; [|by intros [_ ?]]. intros Hm. split; [|done]. intros Hn%Hz.
    rewrite Hn in E. destruct (is_coinbase tx), (is_ai_response tx), (is_ai_challenge tx); auto.
Qed.

Lemma outputs_check tv tx : decides_
  ((is_coinbase tx = false -> zlen (tx_outputs tx) <= max_tx_outputs tv) /\
   Forall (fun o => zlen (spk_script (out_spk o)) <= max_script_public_key_len tv) (tx_outputs tx))
  (check_transaction_outputs_in_isolation tv tx).
Proof.
  unfold check_transaction_outputs_in_isolation. apply decides_then; [|intros _; apply decides_position; intros; apply Z.ltb_ge].
  unfold check_transaction_outputs_count. destruct (is_coinbase tx); [by repeat split|].
  eapply decides_iff; [|apply decides_if, Z.ltb_ge]. naive_solver.
Qed.

Lemma coinbase_check tv tx : 0 <= tx_mass tx -> decides_
  (is_coinbase tx = true ->
    tx_inputs tx = [] /\ tx_mass tx = 0 /\ zlen (tx_outputs tx) <= coinbase_outputs_limit (ghostdag_k tv) true true /\
    Forall (fun o => zlen (spk_script (out_spk o)) <= coinbase_payload_script_public_key_max_len tv) (tx_outputs tx))
  (check_coinbase_in_isolation tv tx).
Proof.
  intros Hm. unfold check_coinbase_in_isolation. destruct (is_coinbase tx); cbn [negb]; [|by repeat split].
  destruct (Z.eqb_spec (zlen (tx_inputs tx)) 0) as [E|E]; cbn [negb]; [|intros Hc; destruct Hc as [Hc _]; [done|]; by rewrite Hc in E].
  destruct (Z.ltb_spec 0 (tx_mass tx)); [cbn; naive_solver lia|]. cbv zeta.
  destruct (Z.ltb_spec (coinbase_outputs_limit (ghostdag_k tv) true true) (zlen (tx_outputs tx))); [cbn; naive_solver lia|].
  eapply decides_iff; [|apply decides_position; intros; apply Z.ltb_ge].
  assert (tx_inputs tx = []) by (unfold zlen in E; destruct (tx_inputs tx); [done|cbn in E; lia]). assert (tx_mass tx = 0) by lia. naive_solver.
Qed.

Lemma values_loop outs i total : 0 <= total <= MAX_SOMPI -> Forall (fun o => in_u 64 (out_value o)) outs ->
  decides (Forall (fun o => 1 <= out_value o <= MAX_SOMPI) outs /\ total + Zsum (out_value <$> outs) <= MAX_SOMPI) (fun _ => True)
    (foldM output_value_step (i, total) outs).
Proof.
  intros Ht Ho. revert i total Ht. induction Ho as [|o outs Hv Ho IH]; intros i total Ht; cbn [foldM].
  { cbn. zsum. split; [|done]. split; [constructor|lia]. }
  unfold in_u in Hv. cbn [output_value_step fmap list_fmap]. rewrite Zsum_cons.
  assert (Forall (fun o => 1 <= out_value o <= MAX_SOMPI) outs -> 0 <= Zsum (out_value <$> outs)) as Hpos.
  { intros Hp. apply Zsum_nonneg, Forall_fmap. eapply Forall_impl; [exact Hp|]. cbn. lia. }
  destruct (Z.eqb_spec (out_value o) 0); [cbn; intros [[? _]%Forall_cons _]; lia|].
  destruct (Z.ltb_spec MAX_SOMPI (out_value o)); [cbn; intros [[? _]%Forall_cons _]; lia|].
  assert (checked_add 64 total (out_value o) = Some (total + out_value o)) as ->.
  { apply checked_add_Some. split; [done|]. unfold in_u, MAX_SOMPI, SOMPI_PER_KASPA in *. lia. }
  cbn [ok_or]. run. destruct (Z.ltb_spec MAX_SOMPI (total + out_value o)).
  - cbn. intros [[_ Hf]%Forall_cons Hs]. specialize (Hpos Hf). lia.
  - cbn [mbind outcome_mbind]. eapply decides_iff; [|apply IH; lia]. rewrite Forall_cons, Z.add_assoc. intuition lia.
Qed.

Lemma distinct_loop {E} (e : E) ins (existing : gset TransactionOutpoint) :
  decides (NoDup (previous_outpoint <$> ins) /\ Forall (fun i => previous_outpoint i ∉ existing) ins) (fun _ => True)
    (foldM (fun (existing : gset TransactionOutpoint) input =>
        if decide (previous_outpoint input ∈ existing) then Err e
        else Ok ({[previous_outpoint input]} ∪ existing)) existing ins).
Proof.
  revert existing. induction ins as [|i ins IH]; intros existing; cbn [foldM fmap list_fmap]; [repeat split; constructor|].
  destruct (decide (previous_outpoint i ∈ existing)) as [Hin|Hin]; [cbn; intros [_ [? _]%Forall_cons]; done|].
  cbn [mbind outcome_mbind]. eapply decides_iff; [|apply IH]. rewrite NoDup_cons, Forall_cons, !Forall_forall, list_elem_of_fmap.
  split.
  - intros [Hn Hf]. split_and!; [|done|done|intros x Hx; specialize (Hf x Hx); set_solver].
    intros (y & Ey & Hy). specialize (Hf y Hy). set_solver.
  - intros [[Hni Hn] [_ Hf]]. split; [done|]. intros x Hx. specialize (Hf x Hx).
    assert (previous_outpoint x <> previous_outpoint i) by (intros Ex; apply Hni; eauto). set_solver.
Qed.

(** The kinds of AI transactions exclude each other. *)
Lemma ai_exclusive tx :
  (is_ai_request tx = true -> is_ai_response tx = false /\ is_ai_challenge tx = false) /\
  (is_ai_response tx = true -> is_ai_challenge tx = false).
Proof.
  unfold is_ai_request, is_ai_response, is_ai_challenge, subnet_eqb. rewrite !bool_decide_eq_true, !bool_decide_eq_false.
  split; intros ->; [split|]; vm_compute; discriminate.
Qed.

Lemma ai_payload_check tx : decides_
  ((is_ai_request tx = true -> MIN_AI_REQUEST_PAYLOAD_LEN <= zlen (payload tx) <= MAX_AI_REQUEST_PAYLOAD_LEN) /\
   (is_ai_response tx = true -> MIN_AI_RESPONSE_PAYLOAD_LEN <= zlen (payload tx) <= MAX_AI_RESPONSE_PAYLOAD_LEN) /\
   (is_ai_challenge tx = true -> MIN_AI_CHALLENGE_PAYLOAD_LEN <= zlen (payload tx) <= MAX_AI_CHALLENGE_PAYLOAD_LEN))
  (check_ai_payload_len tx).
Proof.
  unfold check_ai_payload_len. destruct (ai_exclusive tx) as [H1 H2].
  destruct (is_ai_request tx); [destruct H1 as [-> ->]; [done|]|destruct (is_ai_response tx); [rewrite H2 by done|destruct (is_ai_challenge tx)]];
    cbv beta iota zeta; try (by repeat split);
    (destruct (_ <? _) eqn:E1; [cbn; intuition lia|]; destruct (_ <? zlen (payload tx)) eqn:E2; [cbn; intuition lia|]; cbn; intuition lia).
Qed.

Lemma ai_response_check tx : decides_
  (is_ai_response tx = true -> exists r, response_deserialize (payload tx) = Some r /\ request_hash r <> replicate 32 0)
  (check_ai_response_request_hash tx).
Proof.
  unfold check_ai_response_request_hash. destruct (is_ai_response tx); cbn [negb]; [|by repeat split].
  destruct (response_deserialize (payload tx)) as [r|]; [|cbn; naive_solver]. destruct (decide _); cbn; naive_solver.
Qed.

Lemma ai_challenge_check tx : decides_
  (is_ai_challenge tx = true -> exists c, challenge_deserialize (payload tx) = Some c /\ response_hash c <> replicate 32 0)
  (check_ai_challenge_response_hash tx).
Proof.
  unfold check_ai_challenge_response_hash. destruct (is_ai_challenge tx); cbn [negb]; [|by repeat split].
  destruct (challenge_deserialize (payload tx)) as [r|]; [|cbn; naive_solver]. destruct (decide _); cbn; naive_solver.
Qed.

(** The deserializers fix the lengths. *)
Lemma response_length_bounds data r : response_deserialize data = Some r -> MIN_AI_RESPONSE_PAYLOAD_LEN <= zlen data <= MAX_AI_RESPONSE_PAYLOAD_LEN.
Proof.
  unfold response_deserialize, MIN_AI_RESPONSE_PAYLOAD_LEN, MAX_AI_RESPONSE_PAYLOAD_LEN, AI_RESPONSE_PAYLOAD_V2_LEN, AI_RESPONSE_PAYLOAD_LEN.
  destruct (Z.eqb_spec (zlen data) 78), (Z.eqb_spec (zlen data) (78 + 32 + 64)); cbn; (done || lia).
Qed.

Lemma challenge_length_bounds data c : challenge_deserialize data = Some c -> MIN_AI_CHALLENGE_PAYLOAD_LEN <= zlen data <= MAX_AI_CHALLENGE_PAYLOAD_LEN.
Proof. unfold challenge_deserialize. destruct (_ <? _) eqn:E1, (_ <? zlen data) eqn:E2; cbn; (done || lia). Qed.

(** The checks in isolation decide [isolated]. *)
Lemma validate_tx_in_isolation_decides tv tx :
  0 <= tx_mass tx -> 0 <= gas tx -> Forall (fun o => in_u 64 (out_value o)) (tx_outputs tx) ->
  decides_ (isolated tv tx) (validate_tx_in_isolation tv tx).
Proof.
  intros Hm Hg Hv. eapply decides_iff; cycle 1.
  { unfold validate_tx_in_isolation.
    apply decides_then; [apply inputs_check|intros _]. apply decides_then; [apply outputs_check|intros _].
    apply decides_then; [by apply coinbase_check|intros _].
    apply decides_then; [eapply decides_iff; [|eapply decides_bind; [apply (values_loop _ 0 0); [done|exact Hv]|by intros; split]]; apply and_comm|intros _].
    apply decides_then; [eapply decides_bind; [apply distinct_loop|by intros; split]|intros _].
    apply decides_then; [apply (decides_if _ (gas tx = 0)); rewrite Z.ltb_ge; lia|intros _].
    apply decides_then; [apply decides_ifn; reflexivity|intros _]. apply decides_then; [apply ai_payload_check|intros _].
    apply decides_then; [apply ai_response_check|intros _]. apply decides_then; [apply ai_challenge_check|intros _].
    apply decides_if. rewrite negb_false_iff. apply Z.eqb_eq. }
  split.
  - intros (((H1 & H2) & H3) & (H4 & H5) & H6 & (_ & H7 & H8) & ((H9 & _) & _) & H10 & H11 & (H12 & _) & H13 & H14 & H15).
    rewrite !orb_true_iff in H11. constructor; try done; lia || tauto.
  - intros [H1 H2 H3 H4 H5 H6 H7 H8 H9 H10 H11 H12 H13 H14 H15]. rewrite !orb_true_iff. split_and!; try done; try tauto.
    + by apply Forall_true.
    + intros Hr. destruct (H13 Hr) as (r & Er & _). by eapply response_length_bounds.
    + intros Hr. destruct (H14 Hr) as (r & Er & _). by eapply challenge_length_bounds.
Qed.

(** C28: what validation in isolation accepts.  On a transaction whose integers
    have their widths, [validate_tx_in_isolation] returns [Ok] exactly when the
    transaction has an input or is a data transaction, respects the limits on
    counts and script lengths, has outputs between one sompi and [MAX_SOMPI]
    that add up to at most [MAX_SOMPI], spends no outpoint twice, uses no gas,
    has a known version and subnetwork, has the payload of its kind with a
    non-null hash, and, for a coinbase, has no inputs, no mass and bounded
    outputs; it returns an error otherwise and never panics. *)
Theorem validate_tx_in_isolation_exact tv tx :
  0 <= tx_mass tx -> 0 <= gas tx -> Forall (fun o => in_u 64 (out_value o)) (tx_outputs tx) ->
  decides_ (isolated tv tx) (validate_tx_in_isolation tv tx).
Proof. apply validate_tx_in_isolation_decides. Qed.
End isolation.

(** A validator with the limits of the main network. *)
Definition example_validator : @TransactionValidator spell_crypto spell_map :=
  @mkValidator spell_crypto spell_map 1000 1000 10000 10000 150 1000 124 (Cache_new 0 []) (mkMassCalculator 1 10 1000 50).

Lemma validate_tx_in_isolation_exact_witness :
  @isolated spell_crypto spell_map example_validator (ptx_tx example_two) /\
  ~ @isolated spell_crypto spell_map example_validator (mkTransaction 0 [] [mkOutput 1 (mkSpk 0 [])] 0 SUBNETWORK_ID_NATIVE 0 [] 0 0).
Proof.
  split.
  - refine (proj1 (_ : decides_ _ (@validate_tx_in_isolation spell_crypto spell_map example_validator (ptx_tx example_two)))).
    apply (@validate_tx_in_isolation_exact spell_crypto spell_map); [done|done|]. repeat constructor; done.
  - refine (_ : decides_ _ (@validate_tx_in_isolation spell_crypto spell_map example_validator
      (mkTransaction 0 [] [mkOutput 1 (mkSpk 0 [])] 0 SUBNETWORK_ID_NATIVE 0 [] 0 0))).
    apply (@validate_tx_in_isolation_exact spell_crypto spell_map); [done|done|]. repeat constructor; done.
Defined.
