(* ===== verification/TxSpend.v ===== *)
(** * What validation against the UTXO entries accepts

    The conditions under which a populated transaction is accepted, and that
    nothing in the checks panics on entries of the sizes a UTXO set holds. *)
From S2P Require Import Prelude Bytes Tx Utxo ScriptNum Hashing ScriptOps Script ScriptSafe ScriptCache ScriptStd Float Slice Payloads Mass.
From S2P Require Import TxValidate TxContext TxScripts TxTheorems.

#[local] Open Scope Z_scope.

(** ** The storage mass never panics *)

(** Sizes under which it is computed without a panic: every cell is sound, and
    an input holds at least a sompi per storage unit. *)
Record mass_ok (C : Z) (ptx : PopulatedTransaction) : Prop := {
  mo_param : in_u 64 C;
  mo_inputs : Forall (fun e => cell_ok C (cell_of_entry e) /\ utxo_plurality (ue_spk e) <= amount e) (entries ptx);
  mo_outputs : Forall (fun o => cell_ok C (cell_of_output o)) (tx_outputs (ptx_tx ptx));
  mo_units : pluralities (cell_of_entry <$> entries ptx) < 2 ^ 64 /\ pluralities (cell_of_output <$> tx_outputs (ptx_tx ptx)) < 2 ^ 64
}.

Lemma harmonic_step_safe C p h c : in_u 64 C -> cell_ok C c -> in_u 64 (p + plurality c) -> 0 <= h ->
  safe (fun st => st.1 = p + plurality c /\ 0 <= st.2) (harmonic_step C (p, h) c).
Proof.
  intros HC Hc Hp Hh. pose proof (cell_share_range C HC c Hc) as Hs. destruct (in_ub 64 (h + cell_share C c)) eqn:E.
  - rewrite in_ub_spec in E. rewrite (harmonic_step_ok C HC) by done. cbn. lia.
  - destruct Hc as (? & ? & Hm). unfold harmonic_step. cbn [fst snd]. rewrite add_ok by done. run. unfold in_u in *.
    assert (checked_mul 64 C (plurality c) = Some (C * plurality c)) as -> by (apply checked_mul_Some; split; [done|unfold in_u; nia]).
    cbn [ok_or]. run. assert (checked_mul 64 (C * plurality c) (plurality c) = Some (C * plurality c * plurality c)) as ->
      by (apply checked_mul_Some; split; [done|unfold in_u; nia]).
    cbn [ok_or]. run. unfold div_. destruct (Z.eqb_spec (cell_amount c) 0); [lia|]. run. fold (cell_share C c).
    unfold checked_add. by rewrite E.
Qed.

Lemma harmonic_fold_safe C cells p h : in_u 64 C -> Forall (cell_ok C) cells -> 0 <= p -> 0 <= h -> p + pluralities cells < 2 ^ 64 ->
  safe (fun st => st.1 = p + pluralities cells) (foldM (harmonic_step C) (p, h) cells).
Proof.
  intros HC Hc. revert p h. induction Hc as [|c cells Hc Hcs IH]; intros p h Hp Hh Hb; unfold pluralities in *; zsum.
  - cbn. lia.
  - destruct (cells_bounds C HC cells Hcs) as (? & _). unfold pluralities in *. assert (1 <= plurality c) by apply Hc. cbn [foldM].
    eapply safe_bind; [apply harmonic_step_safe; (done || unfold in_u; lia)|]. intros [p' h'] [E Hh']. cbn in E, Hh'. subst p'.
    eapply safe_weaken; [apply IH; lia|]. cbn. intros st ->. lia.
Qed.

Lemma storage_mass_safe C inputs outputs :
  in_u 64 C -> Forall (cell_ok C) inputs -> Forall (cell_ok C) outputs -> pluralities inputs < 2 ^ 64 -> amounts inputs < 2 ^ 64 ->
  pluralities outputs < 2 ^ 64 -> (outputs = [] \/ inputs <> []) -> pluralities inputs <= amounts inputs ->
  safe (fun _ => True) (calc_storage_mass false inputs outputs C).
Proof.
  intros HC Hi Ho H1 H2 H3 Hne Hle. unfold calc_storage_mass. destruct (cells_bounds C HC inputs Hi) as (? & ? & ? & Hlen).
  eapply safe_bind; [by apply harmonic_fold_safe|]. intros [op h] Eo. cbn in Eo. subst op. rewrite Z.add_0_l.
  destruct (Z.eqb_spec (pluralities outputs) 0) as [|Hnz]; [done|].
  assert (0 < pluralities inputs).
  { destruct Hne as [->|Hne]; [done|]. destruct inputs; [done|]. unfold zlen in Hlen. cbn [length] in Hlen. lia. }
  rewrite (relaxed_path_spec C HC) by done. run. destruct (_ || _ || _).
  - rewrite (harmonic_inputs C HC) by (done || unfold umax; lia). done.
  - rewrite (arithmetic_inputs C HC) by (done || lia). run. rewrite !Z.add_0_l. unfold div_. destruct (Z.eqb_spec (pluralities inputs) 0); [lia|]. run.
    assert (1 <= amounts inputs / pluralities inputs) by (apply Z.div_le_lower_bound; lia).
    destruct (Z.eqb_spec (amounts inputs / pluralities inputs) 0); [lia|]. done.
Qed.

Lemma units_amounts entries : Forall (fun e => utxo_plurality (ue_spk e) <= amount e) entries ->
  pluralities (cell_of_entry <$> entries) <= amounts (cell_of_entry <$> entries).
Proof. unfold pluralities, amounts. induction 1 as [|e es He _ IH]; zsum. cbn. lia. Qed.

Lemma amounts_entries entries : amounts (cell_of_entry <$> entries) = Zsum (amount <$> entries).
Proof. unfold amounts. induction entries as [|e es IH]; zsum. cbn. lia. Qed.

Lemma zip_snd {A B} (l : list A) (k : list B) : length l = length k -> (fun p => p.2) <$> zip l k = k.
Proof. revert k. induction l as [|a l IH]; intros [|b k]; cbn; try done. intros [= E]. by rewrite IH. Qed.

Lemma contextual_mass_safe m ptx : ptx_ok ptx -> mass_ok (storage_mass_parameter m) ptx ->
  Zsum (amount <$> entries ptx) < 2 ^ 64 -> (tx_outputs (ptx_tx ptx) = [] \/ entries ptx <> []) ->
  safe (fun _ => True) (calc_contextual_masses m ptx).
Proof.
  intros Hok [HC Hin Hout [H1 H2]] Hs Hne. unfold calc_contextual_masses. rewrite populated_inputs_zip by apply Hok. run.
  rewrite (list_fmap_compose (fun p : TransactionInput * UtxoEntry => p.2) cell_of_entry), zip_snd by apply Hok.
  apply Forall_and in Hin as [Hin Hu]. apply (safe_bind (fun _ => True)); [|by intros].
  destruct (is_coinbase (ptx_tx ptx)); [done|]. apply storage_mass_safe; try done.
  - by apply Forall_fmap.
  - by apply Forall_fmap.
  - by rewrite amounts_entries.
  - destruct Hne as [->|Hne]; [by left|right]. by destruct (entries ptx).
  - by apply units_amounts.
Qed.

(** ** The conditions of a spend *)

Section spend.
Context `{Hashers, Crypto, !IndexMap SigCacheKey bool}.
Context (Sha256_bytes : forall l, bytes (Sha256 l)) (Blake2b_bytes : forall l, bytes (Blake2b l)).
Implicit Types (tv : TransactionValidator) (ptx : PopulatedTransaction).

Definition total_in ptx : Z := Zsum (amount <$> entries ptx).
Definition total_out ptx : Z := Zsum (out_value <$> tx_outputs (ptx_tx ptx)).

(** The relative lock of an input on its coin. *)
Definition unlocked (pov_daa_score : Z) (p : TransactionInput * UtxoEntry) : Prop :=
  Z.testbit (sequence p.1) 63 = false -> block_daa_score p.2 + sequence p.1 mod 2 ^ 32 <= pov_daa_score.

(** The deposit of a challenge is burned. *)
Definition deposit_burned ptx : Prop :=
  forall c, is_ai_challenge (ptx_tx ptx) = true -> challenge_deserialize (payload (ptx_tx ptx)) = Some c -> challenger_deposit c <> 0 ->
    challenger_deposit c <= total_in ptx /\
    exists out, out ∈ tx_outputs (ptx_tx ptx) /\ challenger_deposit c <= out_value out /\
      burn_script_public_key (E := TxRuleError) = Ok (out_spk out).

Record spendable tv ptx (pov_daa_score : Z) (flags : TxValidationFlags) (threshold : option (Z * float)) : Prop := {
  sp_mature : Forall (fun e => ue_is_coinbase e = true -> block_daa_score e + coinbase_maturity tv <= pov_daa_score) (entries ptx);
  sp_unlisted : Forall (fun e => spk_rule_matches (spk_script (ue_spk e)) pov_daa_score = false) (entries ptx);
  sp_supply : total_in ptx <= MAX_SOMPI;
  sp_deposit : deposit_burned ptx;
  sp_balance : total_out ptx <= total_in ptx;
  sp_mass : flags <> SkipMassCheck -> calc_contextual_masses (mass_calculator tv) ptx = Ok (mkContextual (tx_mass (ptx_tx ptx)));
  sp_unlocked : Forall (unlocked pov_daa_score) (zip (tx_inputs (ptx_tx ptx)) (entries ptx));
  sp_feerate : forall mass rate, threshold = Some (mass, rate) ->
    fleb (fdiv f64 (float_of_Z f64 (total_in ptx - total_out ptx)) (float_of_Z f64 mass)) rate = false;
  sp_scripts : flags <> SkipScriptChecks -> forall i, (i < length (tx_inputs (ptx_tx ptx)))%nat -> script_verdict ptx i = Ok ()
}.

(** Scores far from the ends of their types. *)
Definition scores_ok tv ptx (pov_daa_score : Z) : Prop :=
  0 <= pov_daa_score < 2 ^ 63 /\ 0 <= coinbase_maturity tv < 2 ^ 62 /\ Forall (fun e => 0 <= block_daa_score e < 2 ^ 62) (entries ptx).

Lemma findM_decides {E A} (f : A -> outcome E bool) (g : A -> bool) i l k : Forall (fun a => f a = Ok (g a)) l ->
  k None = Ok () -> (forall p, exists e, k (Some p) = Err e) -> decides_ (Forall (fun a => g a = false) l) (found ← findM f i l; k found).
Proof.
  intros Hf Hn Hs. revert i. induction Hf as [|a l Ea Hf IH]; intros i; cbn [findM].
  - run. rewrite Hn. by repeat constructor.
  - rewrite Ea. run. destruct (g a) eqn:Eg.
    + cbn. destruct (Hs (i, a)) as [e ->]. cbn. intros [? _]%Forall_cons; congruence.
    + eapply decides_iff; [|apply IH]. rewrite Forall_cons. naive_solver.
Qed.

Lemma existsM_decides {E A} (f : A -> outcome E bool) (g : A -> bool) l (e : E) : Forall (fun a => f a = Ok (g a)) l ->
  decides_ (Forall (fun a => g a = false) l) (found ← existsM f l; if (found : bool) then Err e else Ok ()).
Proof.
  intros Hf. induction Hf as [|a l Ea Hf IH]; cbn [existsM]; [by repeat constructor|]. rewrite Ea. run.
  destruct (g a) eqn:Eg; [cbn; intros [? _]%Forall_cons; congruence|]. eapply decides_iff; [|apply IH]. rewrite Forall_cons. naive_solver.
Qed.

Lemma Forall_zip_snd {A B} (P : B -> Prop) (l : list A) (k : list B) : length l = length k -> Forall (fun p => P p.2) (zip l k) <-> Forall P k.
Proof. intros Hl. rewrite <-(zip_snd l k Hl) at 2. by rewrite Forall_fmap. Qed.

(** A search among the entries. *)
Lemma find_entries (f : UtxoEntry -> tx_result bool) (g : UtxoEntry -> bool) i ptx k : ptx_ok ptx ->
  Forall (fun e => f e = Ok (g e)) (entries ptx) -> k None = Ok () -> (forall p, exists e, k (Some p) = Err e) ->
  decides_ (Forall (fun e => g e = false) (entries ptx))
    (inputs ← populated_inputs ptx; found ← findM (fun p : TransactionInput * UtxoEntry => f p.2) i inputs; k found).
Proof.
  intros Hok Hf Hn Hs. rewrite populated_inputs_zip by apply Hok. run. eapply decides_iff; [apply (Forall_zip_snd _ (tx_inputs (ptx_tx ptx))), Hok|].
  apply (findM_decides _ (fun p => g p.2)); [|done..]. apply (Forall_zip_snd (fun e => f e = Ok (g e))); [apply Hok|done].
Qed.

Lemma maturity_check tv ptx pov : ptx_ok ptx -> scores_ok tv ptx pov -> decides_
  (Forall (fun e => ue_is_coinbase e = true -> block_daa_score e + coinbase_maturity tv <= pov) (entries ptx))
  (check_transaction_coinbase_maturity tv ptx pov).
Proof.
  intros Hok (Hp & Hm & Hs). eapply decides_iff; cycle 1.
  - apply (find_entries (fun e => if ue_is_coinbase e then mature ← add_ 64 (block_daa_score e) (coinbase_maturity tv); Ok (pov <? mature) else Ok false)
      (fun e => ue_is_coinbase e && (pov <? block_daa_score e + coinbase_maturity tv))); [done| |done|intros [? []]; eauto].
    eapply Forall_impl; [exact Hs|]. cbn. intros e He. destruct (ue_is_coinbase e); [|done]. by rewrite add_ok by (unfold in_u; lia).
  - apply Forall_iff. intros e. rewrite andb_false_iff, Z.ltb_ge. destruct (ue_is_coinbase e); naive_solver.
Qed.

Lemma spk_rule_check ptx pov : ptx_ok ptx -> decides_
  (Forall (fun e => spk_rule_matches (spk_script (ue_spk e)) pov = false) (entries ptx)) (check_spk_rule_inputs ptx pov).
Proof.
  intros Hok. unfold check_spk_rule_inputs. destruct (spk_rule_active pov) eqn:E; cbn [negb].
  - apply (find_entries (fun e => Ok (spk_rule_matches (spk_script (ue_spk e)) pov))); [done| |done|intros [? []]; eauto]. by apply Forall_true.
  - split; [|done]. apply Forall_true. intros e. unfold spk_rule_active in E. apply orb_false_iff in E as [E1 E2].
    unfold spk_rule_matches. by rewrite E1, E2.
Qed.

Lemma amounts_loop (l : list (TransactionInput * UtxoEntry)) total : 0 <= total <= MAX_SOMPI -> Forall (fun p => in_u 64 (amount p.2)) l ->
  decides (total + Zsum ((fun p => amount p.2) <$> l) <= MAX_SOMPI) (fun t => t = total + Zsum ((fun p => amount p.2) <$> l))
    (foldM (fun total p =>
      total ← ok_or InputAmountOverflow (checked_add 64 total (amount p.2));
      if MAX_SOMPI <? total then Err InputAmountTooHigh else Ok total) total l).
Proof.
  intros Ht Hl. revert total Ht. induction Hl as [|p l Hp Hl IH]; intros total Ht; cbn [foldM].
  { cbn. zsum. }
  unfold in_u in Hp. cbn [fmap list_fmap]. rewrite Zsum_cons.
  assert (0 <= Zsum ((fun p => amount p.2) <$> l)).
  { apply Zsum_nonneg, Forall_fmap. eapply Forall_impl; [exact Hl|]. unfold in_u. cbn. lia. }
  unfold checked_add. destruct (in_ub 64 (total + amount p.2)) eqn:E; cbn [ok_or].
  - run. destruct (Z.ltb_spec MAX_SOMPI (total + amount p.2)); [cbn; lia|]. cbn [mbind outcome_mbind].
    rewrite Z.add_assoc. apply IH. lia.
  - run. cbn. intros Hs. assert (in_ub 64 (total + amount p.2) = true); [|congruence]. apply in_ub_spec. unfold in_u, MAX_SOMPI, SOMPI_PER_KASPA in *. lia.
Qed.

Lemma amounts_check ptx : ptx_ok ptx -> decides (total_in ptx <= MAX_SOMPI) (fun t => t = total_in ptx) (check_transaction_input_amounts ptx).
Proof.
  intros Hok. unfold check_transaction_input_amounts. rewrite for_populated_inputs_zip by apply Hok.
  assert (total_in ptx = 0 + Zsum ((fun p : TransactionInput * UtxoEntry => amount p.2) <$> zip (tx_inputs (ptx_tx ptx)) (entries ptx))) as ->.
  { unfold total_in. rewrite (list_fmap_compose (fun p : TransactionInput * UtxoEntry => p.2) amount), zip_snd by apply Hok. lia. }
  apply amounts_loop; [done|]. apply (Forall_zip_snd (fun e => in_u 64 (amount e))); [apply Hok|].
  eapply Forall_impl; [apply Hok|]. by intros e [_ ?].
Qed.

Lemma burn_script_ok {E} : exists spk, burn_script_public_key (E := E) = Ok spk.
Proof using.
  unfold burn_script_public_key, Address_new. cbv zeta. set (p := hash_bytes _).
  assert (zlen p =? 32 = true) as Hl by (unfold p, zlen; by rewrite length_hash_bytes). clearbody p.
  change (public_key_len PubKey) with 32. rewrite Hl. run. unfold pay_to_address_script, pay_to_pub_key. cbn [addr_version addr_payload]. rewrite Hl. run. eauto.
Qed.

Lemma deposit_check ptx : decides_ (deposit_burned ptx) (check_ai_challenge_deposit ptx (total_in ptx)).
Proof using.
  unfold check_ai_challenge_deposit, deposit_burned. destruct (is_ai_challenge (ptx_tx ptx)); cbn [negb]; [|by split].
  destruct (challenge_deserialize _) as [c|]; [|by split]. cbv zeta. destruct (Z.eqb_spec (challenger_deposit c) 0).
  { split; [|done]. by intros ? _ [= <-]. }
  destruct (Z.ltb_spec (total_in ptx) (challenger_deposit c)).
  { cbn. intros Hd. destruct (Hd c) as [? _]; (done || lia). }
  destruct (burn_script_ok (E := TxRuleError)) as [spk Es]. rewrite Es. run. destruct (existsb _ _) eqn:Ex.
  - apply existsb_exists in Ex as (out & Hin & [Hb Hv]%andb_true_iff). apply bool_decide_eq_true in Hb. split; [|done].
    intros ? _ [= <-] _. split; [done|]. exists out. apply list_elem_of_In in Hin. split_and!; [done|lia|congruence].
  - cbn. intros Hd. destruct (Hd c) as (_ & out & Hin & Hv & Eb); [done..|]. assert (existsb (fun out =>
      bool_decide (out_spk out = spk) && (challenger_deposit c <=? out_value out)) (tx_outputs (ptx_tx ptx)) = true); [|congruence].
    apply existsb_exists. exists out. split; [by apply list_elem_of_In|]. apply andb_true_iff. split; [apply bool_decide_eq_true; congruence|lia].
Qed.

Lemma balance_check ptx : ptx_ok ptx -> total_out ptx < 2 ^ 64 ->
  decides (total_out ptx <= total_in ptx) (fun t => t = total_out ptx) (check_transaction_output_values ptx (total_in ptx)).
Proof using.
  intros Hok Hb. unfold check_transaction_output_values, sum_u64. rewrite foldM_add64; [|done| |done].
  - run. rewrite Z.add_0_l. fold (total_out ptx). destruct (Z.ltb_spec (total_in ptx) (total_out ptx)); cbn; lia.
  - apply Forall_fmap. eapply Forall_impl; [apply Hok|]. unfold in_u. cbn. intros o [_ ?]. lia.
Qed.

Lemma mass_check tv ptx : safe (fun _ => True) (calc_contextual_masses (mass_calculator tv) ptx) ->
  decides_ (calc_contextual_masses (mass_calculator tv) ptx = Ok (mkContextual (tx_mass (ptx_tx ptx)))) (check_mass_commitment tv ptx).
Proof using.
  intros Hs. unfold check_mass_commitment. destruct (calc_contextual_masses _ ptx) as [[m]| | |]; try done. cbn [map_err mbind outcome_mbind storage_mass].
  apply decides_if. rewrite negb_false_iff, Z.eqb_eq. split; [by intros ->|by intros [= ->]].
Qed.

Lemma checked_i64 {E} x : - 2 ^ 63 <= x < 2 ^ 63 -> checked_i (E := E) 64 x = Ok x.
Proof using. intros Hx. unfold checked_i, in_ib. destruct (Z.leb_spec (- 2 ^ (64 - 1)) x), (Z.ltb_spec x (2 ^ (64 - 1))); cbn in *; (done || lia). Qed.

Lemma Forall_filter_iff {A} (b : A -> bool) (P : A -> Prop) l : Forall P (List.filter b l) <-> Forall (fun a => b a = true -> P a) l.
Proof using.
  induction l as [|a l IH]; cbn; [by split; constructor|]. rewrite Forall_cons, <-IH. destruct (b a); [rewrite Forall_cons|]; naive_solver.
Qed.

Lemma sequence_check tv ptx pov : ptx_ok ptx -> scores_ok tv ptx pov ->
  decides_ (Forall (unlocked pov) (zip (tx_inputs (ptx_tx ptx)) (entries ptx))) (check_sequence_lock ptx pov).
Proof using.
  intros Hok (Hp & _ & Hs). unfold check_sequence_lock. rewrite populated_inputs_zip by apply Hok. run. eapply decides_iff; cycle 1.
  - apply (existsM_decides _ (fun p => pov <=? block_daa_score p.2 + sequence p.1 mod 2 ^ 32 - 1)). apply Forall_filter_iff.
    apply (Forall_impl (fun p : TransactionInput * UtxoEntry => 0 <= block_daa_score p.2 < 2 ^ 62));
      [by apply (Forall_zip_snd (fun e => 0 <= block_daa_score e < 2 ^ 62)); [apply Hok|]|].
    intros [i e] Hd _. cbn [fst snd] in *. rewrite land_mask. pose proof (Z.mod_pos_bound (sequence i) (2 ^ 32) ltac:(lia)).
    rewrite !wrap_id by (unfold in_i; lia). rewrite checked_i64 by lia. run. rewrite checked_i64 by lia. done.
  - rewrite Forall_filter_iff. apply Forall_iff. intros [i e]. unfold unlocked. cbn [fst snd]. rewrite land_disabled, Z.leb_gt.
    destruct (Z.testbit (sequence i) 63); [by split|]. change (negb (0 =? SEQUENCE_LOCK_TIME_DISABLED)) with true. intuition lia.
Qed.

Lemma feerate_check fee threshold : (forall mass rate, threshold = Some (mass, rate) -> 0 < mass) -> decides_
  (forall mass rate, threshold = Some (mass, rate) -> fleb (fdiv f64 (float_of_Z f64 fee) (float_of_Z f64 mass)) rate = false)
  (check_feerate_threshold fee threshold).
Proof using.
  intros Hm. unfold check_feerate_threshold. destruct threshold as [[mass rate]|]; [|by split]. specialize (Hm mass rate eq_refl).
  destruct (Z.ltb_spec 0 mass); [|lia]. run. apply decides_if. naive_solver.
Qed.

Lemma scripts_check order tv ptx flags : ptx_ok ptx -> cache_ok (tv_sig_cache tv) -> order ≡ₚ seq 0 (length (tx_inputs (ptx_tx ptx))) ->
  decides (flags <> SkipScriptChecks -> forall i, (i < length (tx_inputs (ptx_tx ptx)))%nat -> script_verdict ptx i = Ok ()) cache_ok
    (match flags with
     | Full | SkipMassCheck => check_scripts order (tv_sig_cache tv) ptx
     | SkipScriptChecks => Ok (tv_sig_cache tv)
     end).
Proof using Sha256_bytes Blake2b_bytes.
  intros Hok Hc Ho. pose proof (check_scripts_spec Sha256_bytes Blake2b_bytes ptx order _ Hok Hc Ho) as Hs.
  assert (decides (forall i, (i < length (tx_inputs (ptx_tx ptx)))%nat -> script_verdict ptx i = Ok ()) cache_ok
    (check_scripts order (tv_sig_cache tv) ptx)) as Hd.
  { destruct (check_scripts _ _ _) as [c'|e| |]; cbn; try done; [naive_solver|]. destruct Hs as (i & Hi & Ei). intros Hv. by rewrite Hv in Ei. }
  destruct flags; [|by split|]; (eapply decides_iff; [|exact Hd]); naive_solver.
Qed.

(** The mass check under the flags, once the outputs are covered: without
    inputs there are no outputs. *)
Lemma mass_step tv ptx flags : ptx_ok ptx -> (flags <> SkipMassCheck -> mass_ok (storage_mass_parameter (mass_calculator tv)) ptx) ->
  total_in ptx <= MAX_SOMPI -> total_out ptx <= total_in ptx ->
  decides_ (flags <> SkipMassCheck -> calc_contextual_masses (mass_calculator tv) ptx = Ok (mkContextual (tx_mass (ptx_tx ptx))))
    (if flags_eqb flags SkipMassCheck then Ok () else check_mass_commitment tv ptx).
Proof using.
  intros Hok Hm Hsup Hbal. destruct (decide (flags_eqb flags SkipMassCheck = true)) as [E|E].
  { rewrite E. split; [|done]. by destruct flags. }
  apply not_true_is_false in E. rewrite E. specialize (Hm ltac:(by destruct flags)).
  apply (decides_iff (calc_contextual_masses (mass_calculator tv) ptx = Ok (mkContextual (tx_mass (ptx_tx ptx)))));
    [destruct flags; naive_solver|]. apply mass_check, contextual_mass_safe; try done.
  { unfold total_in, MAX_SOMPI, SOMPI_PER_KASPA in *. lia. }
  destruct (entries ptx) eqn:Ee; [left|by right]. unfold total_in in Hbal. rewrite Ee in Hbal. unfold total_out in *.
  destruct Hm as [_ _ Hout _]. destruct (tx_outputs (ptx_tx ptx)) as [|o outs]; [done|]. apply Forall_cons in Hout as [(_ & Ha & _) Hout].
  assert (0 <= Zsum (out_value <$> outs)); [|cbn in Ha; zsum]. apply Zsum_nonneg, Forall_fmap. eapply Forall_impl; [exact Hout|]. unfold cell_ok. cbn. lia.
Qed.

Lemma validate_populated_decides order tv ptx pov_daa_score flags threshold :
  ptx_ok ptx -> scores_ok tv ptx pov_daa_score -> cache_ok (tv_sig_cache tv) ->
  order ≡ₚ seq 0 (length (tx_inputs (ptx_tx ptx))) -> total_out ptx < 2 ^ 64 ->
  (flags <> SkipMassCheck -> mass_ok (storage_mass_parameter (mass_calculator tv)) ptx) ->
  (forall mass rate, threshold = Some (mass, rate) -> 0 < mass) ->
  decides (spendable tv ptx pov_daa_score flags threshold) (fun r => r.1 = total_in ptx - total_out ptx /\ cache_ok r.2)
    (validate_populated_transaction_and_get_fee order tv ptx pov_daa_score flags threshold).
Proof using Sha256_bytes Blake2b_bytes.
  intros Hok Hsc Hc Ho Hb Hm Ht. assert (0 <= total_out ptx) as Hpos.
  { apply Zsum_nonneg, Forall_fmap. eapply Forall_impl; [apply Hok|]. unfold in_u. cbn. intros o [_ ?]. lia. }
  eapply decides_iff; cycle 1.
  { unfold validate_populated_transaction_and_get_fee.
    apply decides_then; [by apply maturity_check|intros _]. apply decides_then; [by apply spk_rule_check|intros _].
    eapply decides_bind; [by apply amounts_check|intros ? Hsup ->]. apply decides_then; [apply deposit_check|intros _].
    eapply decides_bind; [by apply balance_check|intros ? Hbal ->]. rewrite sub_ok by (unfold in_u, MAX_SOMPI, SOMPI_PER_KASPA in *; lia). run.
    apply decides_then; [by apply mass_step|intros _].
    apply decides_then; [by eapply sequence_check|intros _]. apply decides_then; [by apply feerate_check|intros _].
    eapply decides_iff; [|eapply (decides_bind _ True); [by apply scripts_check|by intros c _ Hc'; repeat split]]. split; [by intros [? _]|by intros ?; split]. }
  split.
  - intros (H1 & H2 & H3 & H4 & H5 & H6 & H7 & H8 & H9). by constructor.
  - intros [H1 H2 H3 H4 H5 H6 H7 H8 H9]. by split_and!.
Qed.

(** C25: what validation against the UTXO entries accepts.  On a populated
    transaction with scores and amounts of the sizes a UTXO set holds,
    whatever right answers the signature cache holds and in whatever order the
    inputs are checked, [validate_populated_transaction_and_get_fee] succeeds
    exactly when the spent coinbases are mature, no spent script is listed, the
    inputs add up to at most [MAX_SOMPI] and to at least the outputs, the
    deposit of a challenge is burned, the committed mass is the computed one,
    every relative lock has passed, the fee rate exceeds the threshold and
    every script accepts (the mass and the scripts unless the flags skip them);
    the fee it returns is inputs minus outputs; it returns an error otherwise
    and never panics. *)
Theorem validate_populated_transaction_exact order tv ptx pov_daa_score flags threshold :
  ptx_ok ptx -> scores_ok tv ptx pov_daa_score -> cache_ok (tv_sig_cache tv) ->
  order ≡ₚ seq 0 (length (tx_inputs (ptx_tx ptx))) -> total_out ptx < 2 ^ 64 ->
  (flags <> SkipMassCheck -> mass_ok (storage_mass_parameter (mass_calculator tv)) ptx) ->
  (forall mass rate, threshold = Some (mass, rate) -> 0 < mass) ->
  decides (spendable tv ptx pov_daa_score flags threshold) (fun r => r.1 = total_in ptx - total_out ptx /\ cache_ok r.2)
    (validate_populated_transaction_and_get_fee order tv ptx pov_daa_score flags threshold).
Proof using Sha256_bytes Blake2b_bytes. intros. apply validate_populated_decides; assumption. Qed.
End spend.

Lemma example_two_mass : mass_ok 50 example_two.
Proof. constructor; [done|..|done]; repeat constructor; done. Qed.

Lemma validate_populated_transaction_exact_witness :
  @spendable spell_hashers spell_crypto spell_map example_validator example_two 100 Full None /\
  exists c, @validate_populated_transaction_and_get_fee spell_hashers spell_crypto spell_map [1%nat; 0%nat] example_validator example_two 100 Full None =
    Ok (400, c).
Proof.
  refine ((fun H => _) (@validate_populated_transaction_exact spell_hashers spell_crypto spell_map _ _ [1%nat; 0%nat] example_validator example_two 100 Full None
    example_two_ok _ _ _ _ _ _)).
  - assert (is_ok (@validate_populated_transaction_and_get_fee spell_hashers spell_crypto spell_map [1%nat; 0%nat] example_validator example_two 100 Full
      None) = true) as E by (vm_compute; reflexivity).
    revert E H. generalize (@validate_populated_transaction_and_get_fee spell_hashers spell_crypto spell_map [1%nat; 0%nat] example_validator example_two
      100 Full None). intros [[fee c]| | |] E; [|discriminate E..]. intros [Hsp [Hf _]]. split; [exact Hsp|]. exists c.
    change (fee = 400) in Hf. by rewrite Hf.
  - intros; apply hash_bytes_bytes.
  - intros; apply hash_bytes_bytes.
  - repeat split; repeat constructor; done.
  - apply empty_cache_ok.
  - apply (perm_swap 0%nat 1%nat []).
  - done.
  - intros _. exact example_two_mass.
  - done.
Defined.
