(* ===== verification/TxContextTheorems.v ===== *)
(** * Transactions of blocks and of the mempool

    Which transactions of a block are accepted against a UTXO view, and an
    input-less data transaction with outputs in the mempool. *)
From S2P Require Import Prelude Bytes Tx Utxo ScriptNum Hashing ScriptOps Script ScriptSafe ScriptCache ScriptStd.
From S2P Require Import Float Slice Payloads Mass TxValidate TxContext TxScripts TxTheorems TxSpend Params.

#[local] Open Scope Z_scope.

Section block.
Context `{Hashers, Crypto, !IndexMap SigCacheKey bool} `{UtxoView V}.
Context (Sha256_bytes : forall l, bytes (Sha256 l)) (Blake2b_bytes : forall l, bytes (Blake2b l)).
Implicit Types (vp : Processor) (view : V).

(** The entries that the inputs of [tx] spend, in order. *)
Definition spends view (tx : Transaction) (es : list UtxoEntry) : Prop :=
  Forall2 (fun input e => exists e0, get view (previous_outpoint input) = Some e0 /\ e = apply_anchor (previous_outpoint input) e0) (tx_inputs tx) es.

(** No input is a burned escrow whose burn the block must see. *)
Definition unburned vp (tx : Transaction) (pov_daa_score : Z) : Prop :=
  Forall (fun input => forall burn_daa, service_burned vp !! previous_outpoint input = Some burn_daa ->
    pov_daa_score <= sat_add 64 burn_daa (finality_depth vp)) (tx_inputs tx).

(** The sizes of a transaction with the entries it spends. *)
Definition sizes_ok vp view (pov_daa_score : Z) (flags : TxValidationFlags) (tx : Transaction) : Prop :=
  forall es, spends view tx es ->
    let ptx := mkPopulated tx es in
    let tv := transaction_validator vp in
    ptx_ok ptx /\ scores_ok tv ptx pov_daa_score /\ total_out ptx < 2 ^ 64 /\
    (flags <> SkipMassCheck -> mass_ok (storage_mass_parameter (mass_calculator tv)) ptx).

Lemma populate_decides view tx : decides (exists es, spends view tx es) (spends view tx)
  (mapM' (fun input => entry ← ok_or MissingTxOutpoints (get view (previous_outpoint input)); Ok (apply_anchor (previous_outpoint input) entry))
     (tx_inputs tx)).
Proof using.
  unfold spends. induction (tx_inputs tx) as [|i ins IH]; cbn [mapM']; [split; [exists []|]; constructor|].
  destruct (get view (previous_outpoint i)) as [e0|] eqn:E; cbn [ok_or]; run.
  - destruct (mapM' _ ins) as [es| | |]; cbn in IH |- *; try done.
    + destruct IH as [_ Hes]. split; [eexists|]; constructor; eauto.
    + intros [es Hes]. inversion Hes; subst. eauto.
  - cbn. intros [es Hes]. inversion Hes as [|? ? ? ? (e0 & ? & _)]; subst. congruence.
Qed.

Lemma burned_none vp tx pov : burned_outpoints_msg vp (previous_outpoint <$> tx_inputs tx) pov = None <-> unburned vp tx pov.
Proof using.
  unfold burned_outpoints_msg, unburned. induction (tx_inputs tx) as [|i ins IH]; cbn [fmap list_fmap List.filter]; [by split|].
  rewrite Forall_cons. destruct (service_burned vp !! previous_outpoint i) as [d|] eqn:E.
  - destruct (Z.ltb_spec (sat_add 64 d (finality_depth vp)) pov).
    + split; [done|]. intros [Hd _]. specialize (Hd d eq_refl). lia.
    + rewrite IH. split; [|by intros [_ ?]]. intros ?. split; [|done]. by intros ? [= <-].
  - rewrite IH. naive_solver.
Qed.

Lemma spends_lengths view tx es : spends view tx es -> length (tx_inputs tx) = length es.
Proof using. apply Forall2_length. Qed.

Lemma spends_unique view tx es es' : spends view tx es -> spends view tx es' -> es = es'.
Proof using.
  unfold spends. intros Hs. revert es'. induction Hs as [|i e ins es (e0 & E & ->) Hs IH]; intros es' Hs'; inversion Hs' as [|? ? ? ? (e1 & E1 & ->)]; subst;
    [done|]. f_equal; [congruence|]. by apply IH.
Qed.

(** What a transaction of a block must satisfy. *)
Definition accepted vp view (pov_daa_score : Z) (flags : TxValidationFlags) (tx : Transaction) : Prop :=
  unburned vp tx pov_daa_score /\
  exists es, spends view tx es /\ spendable (transaction_validator vp) (mkPopulated tx es) pov_daa_score flags None.

Lemma validate_in_context_decides order vp tx view pov flags :
  sizes_ok vp view pov flags tx -> cache_ok (tv_sig_cache (transaction_validator vp)) -> order ≡ₚ seq 0 (length (tx_inputs tx)) ->
  decides (accepted vp view pov flags tx)
    (fun r => spends view tx (entries r.1) /\ ptx_tx r.1 = tx /\ r.2 = total_in r.1 - total_out r.1)
    (validate_transaction_in_utxo_context order vp tx view pov flags).
Proof using Sha256_bytes Blake2b_bytes.
  intros Hsz Hc Ho. unfold validate_transaction_in_utxo_context, accepted. pose proof (burned_none vp tx pov) as Hb.
  destruct (burned_outpoints_msg _ _ _) as [msg|]; [cbn; intros [Hu _]; by apply Hb in Hu|]. assert (unburned vp tx pov) as Hu by (by apply Hb).
  pose proof (populate_decides view tx) as Hp. destruct (mapM' _ _) as [es| | |]; run; cbn in Hp; try done; [|cbn; intros (_ & es & Hes & _); eauto].
  destruct Hp as [_ Hes]. destruct (Hsz es Hes) as (Hok & Hs & Ht & Hm). unfold PopulatedTransaction_new.
  rewrite (spends_lengths _ _ _ Hes), Nat.eqb_refl. run.
  pose proof (validate_populated_decides Sha256_bytes Blake2b_bytes order (transaction_validator vp) (mkPopulated tx es) pov flags None Hok Hs Hc Ho Ht Hm
    ltac:(done)) as Hd.
  destruct (validate_populated_transaction_and_get_fee _ _ _ _ _ _) as [[fee c]| | |]; cbn in Hd |- *; try done.
  - destruct Hd as (Hsp & -> & _). split; [eauto|done].
  - intros (_ & es' & Hes' & Hsp). by rewrite (spends_unique _ _ _ _ Hes' Hes) in Hsp.
Qed.

(** What a result of the loop says of its transaction. *)
Definition result_ok vp view pov flags (p : nat * Transaction) (r : option (PopulatedTransaction * Z * Z)) : Prop :=
  match r with
  | Some (ptx, fee, index) =>
      index = Z.of_nat p.1 /\ ptx_tx ptx = p.2 /\ accepted vp view pov flags p.2 /\ spends view p.2 (entries ptx) /\ fee = total_in ptx - total_out ptx
  | None => ~ accepted vp view pov flags p.2
  end.

Lemma indexed_loop orders vp view pov flags ps : cache_ok (tv_sig_cache (transaction_validator vp)) ->
  Forall (fun p => sizes_ok vp view pov flags p.2 /\ orders p.1 ≡ₚ seq 0 (length (tx_inputs p.2))) ps ->
  exists rs, mapM' (validate_indexed orders vp view pov flags) ps = Ok rs /\ Forall2 (result_ok vp view pov flags) ps rs.
Proof using Sha256_bytes Blake2b_bytes.
  intros Hc. induction 1 as [|p ps [Hsz Ho] _ (rs & IH & Hrs)]; cbn [mapM']; [by exists []|].
  assert (exists r, validate_indexed orders vp view pov flags p = Ok r /\ result_ok vp view pov flags p r) as (r & -> & Hr).
  { pose proof (validate_in_context_decides (orders p.1) vp p.2 view pov flags Hsz Hc Ho) as Hd. unfold validate_indexed.
    destruct (validate_transaction_in_utxo_context _ _ _ _ _ _) as [[ptx fee]| | |]; cbn in Hd; try done; cbn [discard_err]; run;
      eexists; (split; [done|]); cbn; naive_solver. }
  run. rewrite IH. run. eexists. split; [done|]. by constructor.
Qed.

Lemma elem_of_indexed (txs : list Transaction) i tx : (i, tx) ∈ drop 1 (imap pair txs) <-> (1 <= i)%nat /\ txs !! i = Some tx.
Proof using.
  rewrite list_elem_of_lookup. split.
  - intros (k & Hk). rewrite lookup_drop, list_lookup_imap in Hk. destruct (txs !! (1 + k)%nat) eqn:E; [|done]. injection Hk as <- <-. split; [lia|done].
  - intros [Hi Hl]. exists (i - 1)%nat. rewrite lookup_drop, list_lookup_imap. replace (1 + (i - 1))%nat with i by lia. by rewrite Hl.
Qed.

(** C10: which transactions of a block are accepted.  Whatever the order in which
    the threads visit inputs and whatever right answers the signature cache
    holds, [validate_transactions_in_parallel] returns exactly the transactions
    after the coinbase whose inputs are all in the view, are not burned escrows,
    and make the transaction spendable; each with the entries it spends, its
    fee, inputs minus outputs, and its index in the block; and it does not
    panic. *)
Theorem validate_transactions_exact orders vp txs view pov flags :
  Forall (sizes_ok vp view pov flags) txs -> cache_ok (tv_sig_cache (transaction_validator vp)) ->
  (forall i tx, txs !! i = Some tx -> orders i ≡ₚ seq 0 (length (tx_inputs tx))) ->
  exists l, validate_transactions_in_parallel orders vp txs view pov flags = Ok l /\
    forall ptx fee index, (ptx, fee, index) ∈ l <->
      exists i, index = Z.of_nat i /\ (1 <= i)%nat /\ txs !! i = Some (ptx_tx ptx) /\
        accepted vp view pov flags (ptx_tx ptx) /\ spends view (ptx_tx ptx) (entries ptx) /\ fee = total_in ptx - total_out ptx.
Proof using Sha256_bytes Blake2b_bytes.
  intros Hsz Hc Ho. destruct (indexed_loop orders vp view pov flags (drop 1 (imap pair txs)) Hc) as (rs & Ers & Hrs).
  { apply Forall_forall. intros [i tx] [_ Hi]%elem_of_indexed. split; [by eapply (Forall_lookup_1 _ _ _ _ Hsz)|by apply Ho]. }
  exists (omap (M := list) id rs). unfold validate_transactions_in_parallel. rewrite Ers. split; [done|]. intros ptx fee index.
  rewrite list_elem_of_omap. split.
  - intros (r & Hr & Er). cbn in Er. subst r. apply list_elem_of_lookup in Hr as [k Hk].
    destruct (Forall2_lookup_r _ _ _ _ _ Hrs Hk) as ([i tx] & Hp & Hres). cbn in Hres. destruct Hres as (-> & <- & Ha & Hs & ->).
    apply list_elem_of_lookup_2, elem_of_indexed in Hp as [? ?]. by exists i.
  - intros (i & -> & Hi & Hl & Ha & Hs & ->). assert ((i, ptx_tx ptx) ∈ drop 1 (imap pair txs)) as Hp by (by apply elem_of_indexed).
    apply list_elem_of_lookup in Hp as [k Hk]. destruct (Forall2_lookup_l _ _ _ _ _ Hrs Hk) as (r & Hr & Hres).
    exists r. split; [by apply list_elem_of_lookup_2 in Hr|]. destruct r as [[[ptx' fee'] index']|]; [|done]. cbn in Hres.
    destruct Hres as (-> & Et & _ & Hs' & ->). assert (ptx' = ptx) as ->; [|done]. destruct ptx', ptx. cbn in *. subst. f_equal. by eapply spends_unique.
Qed.
End block.

Section mempool.
Context `{Hashers, Crypto, !IndexMap SigCacheKey bool} `{UtxoView V}.
Implicit Types (vp : Processor) (view : V).

(** No inputs and more than one unit of outputs: the mean of the inputs is
    taken over nothing. *)
Lemma no_inputs_panic m tx : tx_inputs tx = [] -> is_coinbase tx = false ->
  let outputs := cell_of_output <$> tx_outputs tx in
  in_u 64 (storage_mass_parameter m) -> Forall (cell_ok (storage_mass_parameter m)) outputs -> 2 <= pluralities outputs < 2 ^ 64 ->
  harmonic (storage_mass_parameter m) outputs < 2 ^ 64 -> calc_contextual_masses m (mkPopulated tx []) = Panic.
Proof using.
  intros Hin Hcb outputs HC Ho [Hp1 Hp2] Hh. unfold calc_contextual_masses. rewrite populated_inputs_zip by (cbn; by rewrite Hin).
  cbn [ptx_tx entries]. rewrite Hin, Hcb. cbn [zip zip_with fmap list_fmap]. run. fold outputs. unfold calc_storage_mass.
  rewrite (harmonic_fold _ HC) by (done || lia). run. rewrite Z.add_0_l.
  destruct (Z.eqb_spec (pluralities outputs) 0); [lia|]. rewrite (relaxed_path_spec _ HC) by (done || constructor). run.
  destruct (Z.eqb_spec (pluralities outputs) 1); [lia|]. by rewrite andb_false_r.
Qed.

(** A data transaction without inputs but with outputs stops the node.
    Responses and challenges may have no inputs; when such a transaction passes
    the checks in isolation and has outputs of two storage units or more, the
    mempool divides by the zero inputs while it computes the storage mass, and
    panics, before it compares what is spent with what is there. *)
Theorem mempool_panics_without_inputs order vp tx masses view daa median threshold :
  validate_tx_in_isolation (transaction_validator vp) tx = Ok () -> check_service_bond_rules vp tx daa = Ok () ->
  tx_inputs tx = [] -> is_coinbase tx = false ->
  let C := storage_mass_parameter (mass_calculator (transaction_validator vp)) in
  let outputs := cell_of_output <$> tx_outputs tx in in_u 64 C -> Forall (cell_ok C) outputs -> 2 <= pluralities outputs < 2 ^ 64 -> harmonic C outputs < 2 ^ 64 ->
  validate_mempool_transaction_impl order vp (mkMutable tx [] None masses) view daa median threshold = Panic.
Proof.
  intros Hiso Hrules Hin Hcb C outputs HC Ho [Hp1 Hp2] Hh. unfold validate_mempool_transaction_impl. cbn [mtx_tx]. rewrite Hiso. run.
  assert (validate_tx_in_header_context_with_args tx daa median = Ok ()) as ->.
  { unfold validate_tx_in_header_context_with_args, check_tx_is_finalized. rewrite Hin. cbn [position].
    destruct (get_lock_time_type tx); [done|by destruct (_ <? _)..]. }
  assert (is_ai_request tx = false) as Hreq.
  { unfold validate_tx_in_isolation, check_transaction_inputs_in_isolation, check_transaction_inputs_count in Hiso. rewrite Hin in Hiso.
    destruct (is_ai_request tx) eqn:E; [|done]. destruct (proj1 (ai_exclusive tx) E) as [E1 E2]. rewrite Hcb, E1, E2 in Hiso. discriminate Hiso. }
  run. assert (forall b, (if b : bool then map_err AiRequestPayloadRule (check_ai_request_tx_payload_rules tx (ai_reward_minimums vp daa)
      (is_active (reward_routing_activation vp) daa)) else Ok ()) = Ok ()) as -> by (intros []; unfold check_ai_request_tx_payload_rules; by rewrite ?Hreq).
  run. rewrite Hrules. run. unfold validate_mempool_transaction_in_utxo_context.
  assert (populate_mempool_transaction_in_utxo_context (mkMutable tx [] None masses) view = Ok (mkMutable tx [] None masses, Ok ())) as ->.
  { unfold populate_mempool_transaction_in_utxo_context. cbn [mtx_tx]. by rewrite Hin. }
  run. unfold validate_populated_mempool_transaction. cbn [mtx_tx]. rewrite Hin. cbn [fmap list_fmap]. cbv zeta.
  change (burned_outpoints_msg vp [] daa) with (@None (list TransactionOutpoint)). cbv iota.
  assert (as_verifiable (E := TxRuleError) (mkMutable tx [] None masses) = Ok (mkPopulated tx [])) as ->.
  { unfold as_verifiable, is_verifiable. cbn [mtx_tx mtx_entries]. by rewrite Hin. }
  run. by rewrite no_inputs_panic.
Qed.
End mempool.

(** ** Examples *)

(** A view with the two coins, a processor of the main network, a block with a
    coinbase and a transaction, and a response that publishes two outputs. *)
Definition example_view : UtxoCollection :=
  <[mkOutpoint 7 0 := UtxoEntry_new 200 (mkSpk 0 [82]) 3 false]> (<[mkOutpoint 7 1 := UtxoEntry_new 300 (mkSpk 0 [81]) 3 false]> ∅).
Definition example_processor : @Processor spell_crypto spell_map :=
  @mkProcessor spell_crypto spell_map example_validator ∅ 1000 0 0 0 0 0 0 [] [] [] [] [].
Definition example_response : Transaction :=
  mkTransaction 0 [] [mkOutput 100 (mkSpk 0 [81]); mkOutput 100 (mkSpk 0 [81])] 0 SUBNETWORK_ID_AI_RESPONSE 0 (replicate 78 1) 0 5.

Lemma mempool_panics_without_inputs_witness :
  @validate_mempool_transaction_impl spell_hashers spell_crypto spell_map UtxoCollection _ [] example_processor (MutableTransaction_new example_response)
    example_view 100 100 None = Panic.
Proof.
  apply (@mempool_panics_without_inputs spell_hashers spell_crypto spell_map);
    [vm_compute; reflexivity|vm_compute; reflexivity|reflexivity|reflexivity|done|repeat constructor; done|done|done].
Defined.

Definition example_coinbase : Transaction := mkTransaction 0 [] [] 0 SUBNETWORK_ID_COINBASE 0 [] 0 1.
Definition example_block : list Transaction := [example_coinbase; ptx_tx example_two].

Lemma example_sizes : Forall (@sizes_ok spell_crypto spell_map UtxoCollection _ example_processor example_view 100 Full) example_block.
Proof.
  apply Forall_cons. split; [|apply Forall_cons; split; [|constructor]]; intros es Hes.
  - inversion Hes; subst. split_and!; [constructor; [done|..|done]; apply List.Forall_nil|split_and!; [done..|apply List.Forall_nil]|done|].
    intros _. constructor; [done|..|done]; apply List.Forall_nil.
  - inversion Hes as [|? e1 ? es1 (f1 & E1 & ->) Hes1]; subst. inversion Hes1 as [|? e2 ? es2 (f2 & E2 & ->) Hes2]; subst. inversion Hes2; subst.
    vm_compute in E1, E2. injection E1 as <-. injection E2 as <-. split_and!; [exact example_two_ok|repeat split; repeat constructor; done|done|].
    intros _. exact example_two_mass.
Qed.

Lemma validate_transactions_exact_witness :
  @accepted spell_hashers spell_crypto spell_map UtxoCollection _ example_processor example_view 100 Full (ptx_tx example_two).
Proof.
  edestruct (fun P Q => @validate_transactions_exact spell_hashers spell_crypto spell_map UtxoCollection _ P Q (fun i => rev (seq 0 (2 * i))) example_processor
    example_block example_view 100 Full) as (l & El & Hl).
  - intros; apply hash_bytes_bytes.
  - intros; apply hash_bytes_bytes.
  - exact example_sizes.
  - apply empty_cache_ok.
  - intros [|[|i]] tx E; [| |destruct i; discriminate E]; injection E as <-; cbn; [reflexivity|apply (perm_swap 0%nat 1%nat [])].
  - assert ((example_two, 400, 1) ∈ l) as Hin.
    { clear Hl. vm_compute in El. injection El as <-. left. }
    destruct (proj1 (Hl _ _ _) Hin) as (i & _ & _ & _ & Ha & _). exact Ha.
Defined.
