(* ===== verification/Pipeline.v ===== *)
(** * The dependency manager of block tasks

    [consensus/src/pipeline/deps_manager.rs], and the loops of the header and
    body processors that drive it ([worker] and [queue_block]).  The manager's
    map is behind a mutex, so that a call to it is one step; the jobs of the
    thread pool run in any order and interleave between these calls.  The jobs
    that [end] returns enter the pool with that step, since nothing looks at the
    pool between the two.  The processing of a block between [try_begin] and
    [end] is any result.

    Every pending block has exactly one token: a job in the pool, a running
    task, or an entry in the list of the parent it waits for.  From this follow
    that no call panics, that a task begins only when none of its parents is
    pending, and that everything received is eventually completed. *)
From S2P Require Import Prelude Tx.
#[local] Open Scope Z_scope.

(** ** Tasks *)

Record Block := mkBlock { block_hash : Hash; direct_parents : list Hash; is_header_only : bool }.

Inductive BlockTask :=
  | Ordinary (block : Block) (skip_pom_proof : bool)
  | Trusted (block : Block).

Definition task_block (t : BlockTask) : Block := match t with Ordinary b _ => b | Trusted b => b end.
Definition is_ordinary (t : BlockTask) : bool := match t with Ordinary _ _ => true | Trusted _ => false end.
Definition skip_pom_proof (t : BlockTask) : bool := match t with Ordinary _ s => s | Trusted _ => true end.
Definition requires_virtual_processing (t : BlockTask) : bool := is_ordinary t.
Definition task_hash (t : BlockTask) : Hash := block_hash (task_block t).

(** The sending ends of the one-shot channels. *)
Notation Sender := Z (only parsing).
Notation TaskId := Z (only parsing).

Record BlockTaskInternal := mkInternal {
  it_task : option BlockTask;
  block_result_transmitter : Sender;
  virtual_state_result_transmitter : Sender
}.

(** ** [TaskQueue] *)

Inductive TaskQueue := QEmpty | QSingle (t : BlockTaskInternal) | QMany (q : list BlockTaskInternal).

Definition push_back (q : TaskQueue) (task : BlockTaskInternal) : TaskQueue :=
  match q with
  | QEmpty => QSingle task
  | QSingle t => QMany [t; task]
  | QMany q => QMany (q ++ [task])
  end.

Definition front (q : TaskQueue) : option BlockTaskInternal :=
  match q with QEmpty => None | QSingle t => Some t | QMany q => head q end.

(** A write through [front_mut]. *)
Definition set_front (q : TaskQueue) (task : BlockTaskInternal) : TaskQueue :=
  match q with QEmpty => QEmpty | QSingle _ => QSingle task | QMany [] => QMany [] | QMany (_ :: q) => QMany (task :: q) end.

Definition pop_front (q : TaskQueue) : TaskQueue * option BlockTaskInternal :=
  match q with
  | QEmpty => (QEmpty, None)
  | QSingle t => (QEmpty, Some t)
  | QMany [] => (QMany [], None)
  | QMany (t :: q) => (QMany q, Some t)
  end.

Definition queue_is_empty (q : TaskQueue) : bool :=
  match q with QEmpty => true | QSingle _ => false | QMany [] => true | QMany _ => false end.

(** ** [BlockTaskDependencyManager] *)

Record BlockTaskGroup := mkGroup { tasks : TaskQueue; dependent_tasks : list TaskId }.

Notation Pending := (gmap Hash BlockTaskGroup).

Definition register (pending : Pending) (task : BlockTask) (block_tx virtual_tx : Sender) : Pending * option TaskId :=
  let hash := task_hash task in
  let internal := mkInternal (Some task) block_tx virtual_tx in
  match pending !! hash with
  | None => (<[hash := mkGroup (QSingle internal) []]> pending, Some hash)
  | Some g => (<[hash := mkGroup (push_back (tasks g) internal) (dependent_tasks g)]> pending, None)
  end.

Definition try_begin {E} (pending : Pending) (task_id : TaskId) : outcome E (Pending * option BlockTask) :=
  group ← unwrap (pending !! task_id);
  internal_task ← unwrap (front (tasks group));
  task ← unwrap (it_task internal_task);
  match List.find (fun parent => bool_decide (is_Some (pending !! parent))) (direct_parents (task_block task)) with
  | Some parent =>
      parent_task ← unwrap (pending !! parent);
      Ok (<[parent := mkGroup (tasks parent_task) (dependent_tasks parent_task ++ [task_id])]> pending, None)
  | None =>
      let taken := mkInternal None (block_result_transmitter internal_task) (virtual_state_result_transmitter internal_task) in
      Ok (<[task_id := mkGroup (set_front (tasks group) taken) (dependent_tasks group)]> pending, Some task)
  end.

(** [end]: the map, the tasks to queue, and the two senders that the callback
    gets. *)
Definition end_ {E} (pending : Pending) (task : BlockTask) : outcome E (Pending * list TaskId * (Sender * Sender)) :=
  let task_id := task_hash task in
  entry ← unwrap (pending !! task_id);
  let '(rest, popped) := pop_front (tasks entry) in
  internal_task ← unwrap popped;
  let '(pending, next_tasks) :=
    if queue_is_empty rest then (delete task_id pending, dependent_tasks entry)
    else (<[task_id := mkGroup rest (dependent_tasks entry)]> pending, [task_id]) in
  _ ← assert (match it_task internal_task with None => true | Some _ => false end);
  Ok (pending, next_tasks, (block_result_transmitter internal_task, virtual_state_result_transmitter internal_task)).

(** ** The processors *)

Section processors.
Context {BlockStatus RuleError : Type}.
Notation result := (BlockStatus + RuleError)%type.

(** What a callback sends: a result to one of the two callers, or the block to
    the next processor. *)
Inductive emission :=
  | BlockResult (s : Sender) (r : result)
  | VirtualResult (s : Sender) (r : result)
  | ToBody (task : BlockTask) (block_tx virtual_tx : Sender)
  | ToVirtual (task : BlockTask) (virtual_tx : Sender).

Definition is_err (r : result) : bool := match r with inl _ => false | inr _ => true end.

Definition header_callback (res : result) (task : BlockTask) (block_tx virtual_tx : Sender) : list emission :=
  if is_err res || is_header_only (task_block task) then [BlockResult block_tx res; VirtualResult virtual_tx res]
  else [ToBody task block_tx virtual_tx].

Definition body_callback (res : result) (task : BlockTask) (block_tx virtual_tx : Sender) : list emission :=
  BlockResult block_tx res ::
  (if is_err res || negb (requires_virtual_processing task) then [VirtualResult virtual_tx res] else [ToVirtual task virtual_tx]).

(** A processor: the manager's map, the jobs that wait in the pool, the tasks
    that are being processed, and what was sent.  The last two fields record the
    messages received and the tasks completed, in order. *)
Record Processor := mkProcessor {
  pending : Pending;
  spawned : list TaskId;
  running : list BlockTask;
  sent : list emission;
  received : list (BlockTask * Sender * Sender);
  completed : list (result * (BlockTask * Sender * Sender))
}.

Definition processor_new : Processor := mkProcessor ∅ [] [] [] [] [].

Context (callback : result -> BlockTask -> Sender -> Sender -> list emission).

(** The body of [worker] on a message. *)
Definition receive (p : Processor) (task : BlockTask) (block_tx virtual_tx : Sender) : Processor :=
  let '(m, id) := register (pending p) task block_tx virtual_tx in
  mkProcessor m (spawned p ++ match id with Some id => [id] | None => [] end) (running p) (sent p)
    (received p ++ [(task, block_tx, virtual_tx)]) (completed p).

(** A job [queue_block] that the pool picks, up to the start of the processing:
    [a] and [b] are the other jobs. *)
Definition begin_job {E} (p : Processor) (a : list TaskId) (task_id : TaskId) (b : list TaskId) : outcome E Processor :=
  '(m, task) ← try_begin (pending p) task_id;
  Ok (mkProcessor m (a ++ b) (match task with Some t => [t] | None => [] end ++ running p) (sent p) (received p) (completed p)).

(** The rest of a job, once its task is processed with [res]. *)
Definition finish_job {E} (p : Processor) (a : list BlockTask) (task : BlockTask) (b : list BlockTask) (res : result) : outcome E Processor :=
  '(m, next, (block_tx, virtual_tx)) ← end_ (pending p) task;
  Ok (mkProcessor m (spawned p ++ next) (a ++ b) (sent p ++ callback res task block_tx virtual_tx)
        (received p) (completed p ++ [(res, (task, block_tx, virtual_tx))])).

(** One job makes a step, or a message is received. *)
Inductive work : Processor -> Processor -> Prop :=
  | work_begin p p' a id b : spawned p = a ++ id :: b -> begin_job (E := Empty_set) p a id b = Ok p' -> work p p'
  | work_finish p p' a task b res : running p = a ++ task :: b -> finish_job (E := Empty_set) p a task b res = Ok p' -> work p p'.

Inductive step : Processor -> Processor -> Prop :=
  | step_receive p task block_tx virtual_tx : step p (receive p task block_tx virtual_tx)
  | step_work p p' : work p p' -> step p p'.
End processors.

Arguments emission : clear implicits.
Arguments Processor : clear implicits.

(** ** Queues as lists *)

Definition items (q : TaskQueue) : list BlockTaskInternal := match q with QEmpty => [] | QSingle t => [t] | QMany q => q end.

Lemma items_push_back q t : items (push_back q t) = items q ++ [t].
Proof. by destruct q. Qed.

Lemma front_items q : front q = head (items q).
Proof. by destruct q. Qed.

Lemma items_set_front q t x rest : items q = x :: rest -> items (set_front q t) = t :: rest.
Proof. destruct q as [|?|[|? ?]]; cbn; try done; by intros [= -> ->]. Qed.

Lemma pop_front_items q x rest : items q = x :: rest -> exists q', pop_front q = (q', Some x) /\ items q' = rest.
Proof. destruct q as [|?|[|? ?]]; cbn; try done; intros [= -> <-]; eauto. Qed.

Lemma queue_is_empty_items q : queue_is_empty q = true <-> items q = [].
Proof. by destruct q as [|?|[|? ?]]. Qed.

(** ** The groups as lists *)

Definition keys (m : Pending) : list Hash := (map_to_list m).*1.
Definition collect {A} (f : BlockTaskGroup -> list A) (m : Pending) : list A := map_to_list m ≫= fun p => f p.2.

(** The tasks that wait for a parent, and all that are queued. *)
Notation waiting := (collect dependent_tasks).
Notation queued := (collect (fun g => items (tasks g))).

Lemma keys_elem m h : h ∈ keys m <-> is_Some (m !! h).
Proof.
  unfold keys. rewrite list_elem_of_fmap. split.
  - intros ([k g] & -> & Hg%elem_of_map_to_list). by exists g.
  - intros [g Hg]. exists (h, g). split; [done|]. by apply elem_of_map_to_list.
Qed.

Lemma keys_NoDup m : NoDup (keys m).
Proof. apply NoDup_fst_map_to_list. Qed.

Lemma map_to_list_split (m : Pending) h g : m !! h = Some g -> map_to_list m ≡ₚ (h, g) :: map_to_list (delete h m).
Proof. intros Hg. rewrite <-(insert_delete_id m h g) at 1 by done. by rewrite map_to_list_insert by apply lookup_delete_eq. Qed.

Lemma keys_split m h g : m !! h = Some g -> keys m ≡ₚ h :: keys (delete h m).
Proof. intros Hg. unfold keys. by rewrite (map_to_list_split m h g). Qed.

Lemma keys_new m h g : m !! h = None -> keys (<[h := g]> m) ≡ₚ h :: keys m.
Proof. intros Hg. unfold keys. by rewrite map_to_list_insert. Qed.

Lemma keys_update m h g g' : m !! h = Some g -> keys (<[h := g']> m) ≡ₚ keys m.
Proof.
  intros Hg. rewrite (keys_split m h g Hg), (keys_split (<[h := g']> m) h g') by apply lookup_insert_eq. by rewrite delete_insert_eq.
Qed.

Section collect.
Context {A : Type} {f : BlockTaskGroup -> list A}.

Lemma collect_split m h g : m !! h = Some g -> collect f m ≡ₚ f g ++ collect f (delete h m).
Proof. intros Hg. unfold collect. by rewrite (map_to_list_split m h g). Qed.

Lemma collect_new m h g : m !! h = None -> collect f (<[h := g]> m) ≡ₚ f g ++ collect f m.
Proof. intros Hg. unfold collect. by rewrite map_to_list_insert. Qed.

Lemma collect_update m h g g' : m !! h = Some g -> collect f (<[h := g']> m) ≡ₚ f g' ++ collect f (delete h m).
Proof. intros Hg. rewrite (collect_split (<[h := g']> m) h g') by apply lookup_insert_eq. by rewrite delete_insert_eq. Qed.

Lemma collect_same m h g g' : m !! h = Some g -> f g' = f g -> collect f (<[h := g']> m) ≡ₚ collect f m.
Proof. intros Hg E. by rewrite (collect_update m h g g'), (collect_split m h g), E. Qed.

Lemma collect_length m h g g' : m !! h = Some g -> length (f g') = length (f g) -> length (collect f (<[h := g']> m)) = length (collect f m).
Proof. intros Hg E. rewrite (collect_update m h g g'), (collect_split m h g) by done. rewrite !length_app. lia. Qed.

Lemma elem_of_collect m x : x ∈ collect f m <-> exists h g, m !! h = Some g /\ x ∈ f g.
Proof.
  unfold collect. rewrite list_elem_of_bind. split.
  - intros ([h g] & Hd & Hg%elem_of_map_to_list). eauto.
  - intros (h & g & Hg & Hd). exists (h, g). split; [done|]. by apply elem_of_map_to_list.
Qed.

(** No group is empty. *)
Lemma keys_collect m : map_Forall (fun _ g => f g <> []) m -> (length (keys m) <= length (collect f m))%nat.
Proof.
  intros Hm. unfold keys, collect. rewrite length_fmap. assert (Forall (fun p => f p.2 <> []) (map_to_list m)) as Hl.
  { apply Forall_forall. intros [h g] Hg%elem_of_map_to_list. by apply (Hm h). }
  induction Hl as [|[h g] l Hx _ IH]; [done|]. rewrite bind_cons, length_app. cbn in Hx |- *. destruct (f g); [done|]. cbn [length]. lia.
Qed.
End collect.

(** ** The invariant *)

Section invariant.
Context {BlockStatus RuleError : Type}.
Notation result := (BlockStatus + RuleError)%type.
Notation Processor := (Processor BlockStatus RuleError).
Context (callback : result -> BlockTask -> Sender -> Sender -> list (emission BlockStatus RuleError)).
(** The parents that a hash commits to. *)
Context (parents : Hash -> list Hash).
Implicit Types (p : Processor) (m : Pending) (g : BlockTaskGroup) (run : list BlockTask).

Definition task_ok (t : BlockTask) : Prop := direct_parents (task_block t) = parents (task_hash t).

Definition group_ok run (h : Hash) g : Prop :=
  exists first rest, items (tasks g) = first :: rest /\
    Forall (fun i => exists t, it_task i = Some t /\ task_hash t = h /\ task_ok t) rest /\
    match it_task first with
    | Some t => task_hash t = h /\ task_ok t /\ h ∉ task_hash <$> run
    | None => h ∈ task_hash <$> run
    end.

(** A queued item stands for a message that was received. *)
Definition stands run (h : Hash) (i : BlockTaskInternal) (r : BlockTask * Sender * Sender) : Prop :=
  r.1.2 = block_result_transmitter i /\ r.2 = virtual_state_result_transmitter i /\
  match it_task i with Some t => r.1.1 = t | None => r.1.1 ∈ run /\ task_hash r.1.1 = h end.

(** The messages about block [h], in order. *)
Definition about (h : Hash) (rs : list (BlockTask * Sender * Sender)) : list (BlockTask * Sender * Sender) :=
  List.filter (fun r => task_hash r.1.1 =? h) rs.

Definition accounted p (h : Hash) : Prop :=
  exists cs, about h (received p) = about h (completed p).*2 ++ cs /\
    match pending p !! h with Some g => Forall2 (stands (running p) h) (items (tasks g)) cs | None => cs = [] end.

Record Inv p : Prop := {
  inv_tokens : spawned p ++ (task_hash <$> running p) ++ waiting (pending p) ≡ₚ keys (pending p);
  inv_groups : map_Forall (group_ok (running p)) (pending p);
  inv_waits : map_Forall (fun h g => Forall (fun id => h ∈ parents id) (dependent_tasks g)) (pending p);
  inv_running : Forall task_ok (running p);
  inv_account : forall h, accounted p h;
  inv_sent : sent p = completed p ≫= fun c => callback c.1 c.2.1.1 c.2.1.2 c.2.2
}.

Lemma Inv_new : Inv processor_new.
Proof. constructor; try done. intros h. exists []. split; [done|]. cbn [pending processor_new]. by rewrite lookup_empty. Qed.

(** Every token is a pending block. *)
Lemma token_pending p h : Inv p -> h ∈ spawned p \/ h ∈ task_hash <$> running p \/ h ∈ waiting (pending p) -> is_Some (pending p !! h).
Proof. intros I Hh. apply keys_elem. rewrite <-(inv_tokens p I), !elem_of_app. done. Qed.

Lemma tokens_NoDup p : Inv p -> NoDup (spawned p ++ (task_hash <$> running p) ++ waiting (pending p)).
Proof. intros I. rewrite (inv_tokens p I). apply keys_NoDup. Qed.

Lemma group_ok_run run run' h g : (h ∈ task_hash <$> run <-> h ∈ task_hash <$> run') -> group_ok run h g -> group_ok run' h g.
Proof. intros E (f & r & Ei & Hr & Hf). exists f, r. split_and!; [done..|]. destruct (it_task f); [|by apply E]. by rewrite <-E. Qed.

Lemma stands_run run run' h i r : (forall t, t ∈ run -> task_hash t = h -> t ∈ run') -> stands run h i r -> stands run' h i r.
Proof. intros E (H1 & H2 & H3). split_and!; [done..|]. destruct (it_task i); [done|]. destruct H3. auto. Qed.

Lemma about_app h l k : about h (l ++ k) = about h l ++ about h k.
Proof. apply List.filter_app. Qed.

Lemma about_one h r : about h [r] = if task_hash r.1.1 =? h then [r] else [].
Proof. done. Qed.

(** *** Receiving *)

Lemma receive_Inv p task s1 s2 : Inv p -> task_ok task -> Inv (receive p task s1 s2).
Proof.
  intros I Ht. unfold receive, register. set (h := task_hash task). destruct (pending p !! h) as [g|] eqn:E; constructor; cbn [pending spawned running sent received completed].
  - rewrite app_nil_r, (collect_same _ h g) by done. rewrite (keys_update _ h g) by done. apply I.
  - apply map_Forall_insert_2; [|apply I]. destruct (inv_groups p I h g E) as (f & r & Ei & Hr & Hf). exists f, (r ++ [mkInternal (Some task) s1 s2]).
    cbn [tasks]. rewrite items_push_back, Ei. split_and!; [done| |done]. apply Forall_app. split; [done|]. apply Forall_singleton. eauto.
  - apply map_Forall_insert_2; [|apply I]. apply (inv_waits p I h g E).
  - apply I.
  - intros k. destruct (inv_account p I k) as (cs & Ea & Hcs). unfold accounted. cbn [pending received completed running]. rewrite about_app, about_one, Ea. cbn [fst].
    destruct (Z.eqb_spec (task_hash task) k) as [<-|Hk]; fold h in Hcs |- *.
    + exists (cs ++ [(task, s1, s2)]). rewrite app_assoc. split; [done|]. rewrite lookup_insert_eq. cbn [tasks]. rewrite items_push_back. rewrite E in Hcs.
      apply Forall2_app; [done|]. by repeat constructor.
    + exists cs. rewrite app_nil_r. split; [done|]. by rewrite lookup_insert_ne.
  - apply I.
  - rewrite (collect_new _ h) by done. rewrite (keys_new _ h) by done. cbn [dependent_tasks app]. rewrite <-app_assoc, <-(inv_tokens p I). symmetry. apply Permutation_middle.
  - apply map_Forall_insert_2; [|apply I]. exists (mkInternal (Some task) s1 s2), []. split_and!; [done|constructor|]. cbn. split_and!; [done..|].
    intros Hin. destruct (token_pending p h I) as [? ?]; [auto|congruence].
  - apply map_Forall_insert_2; [constructor|apply I].
  - apply I.
  - intros k. destruct (inv_account p I k) as (cs & Ea & Hcs). unfold accounted. cbn [pending received completed running]. rewrite about_app, about_one, Ea. cbn [fst].
    destruct (Z.eqb_spec (task_hash task) k) as [<-|Hk]; fold h in Hcs |- *.
    + rewrite E in Hcs. subst cs. exists [(task, s1, s2)]. rewrite app_nil_r. split; [done|]. rewrite lookup_insert_eq. by repeat constructor.
    + exists cs. rewrite app_nil_r. split; [done|]. by rewrite lookup_insert_ne.
  - apply I.
Qed.

(** *** Beginning *)

(** A group that is replaced by one with the same tasks. *)
Lemma lookup_same_tasks (P : TaskQueue -> Prop) (Q : Prop) m h g g' k : m !! h = Some g -> tasks g' = tasks g ->
  match m !! k with Some g => P (tasks g) | None => Q end -> match <[h := g']> m !! k with Some g => P (tasks g) | None => Q end.
Proof.
  intros Hg E. destruct (decide (h = k)) as [<-|Hk]; [rewrite lookup_insert_eq, Hg, E; done|by rewrite lookup_insert_ne].
Qed.

(** The job finds its task still queued. *)
Lemma spawned_front p a id b : Inv p -> spawned p = a ++ id :: b ->
  exists g first rest t, pending p !! id = Some g /\ items (tasks g) = first :: rest /\ it_task first = Some t /\ task_hash t = id /\ task_ok t /\
    id ∉ task_hash <$> running p /\ Forall (fun i => exists t, it_task i = Some t /\ task_hash t = id /\ task_ok t) rest.
Proof.
  intros I Hs. destruct (token_pending p id I) as [g Hg]; [left; rewrite Hs; set_solver|]. destruct (inv_groups p I id g Hg) as (f & r & Ei & Hr & Hf).
  assert (id ∉ task_hash <$> running p) as Hn.
  { pose proof (tokens_NoDup p I) as Hd. rewrite Hs in Hd. apply NoDup_app in Hd as (_ & Hd & _). intros Hin. apply (Hd id); set_solver. }
  exists g, f, r. destruct (it_task f) as [t|]; [|done]. exists t. naive_solver.
Qed.

Lemma wait_Inv p a id b t parent pg : Inv p -> spawned p = a ++ id :: b -> task_hash t = id -> task_ok t ->
  pending p !! parent = Some pg -> parent ∈ direct_parents (task_block t) ->
  Inv (mkProcessor (<[parent := mkGroup (tasks pg) (dependent_tasks pg ++ [id])]> (pending p)) (a ++ b) (running p) (sent p) (received p) (completed p)).
Proof.
  intros I Hs Hid Ht Hpg Hpar. constructor; cbn [pending spawned running sent received completed].
  - rewrite (collect_update _ parent pg), (keys_update _ parent pg) by done. rewrite <-(inv_tokens p I), Hs, (collect_split (pending p) parent pg) by done.
    cbn [dependent_tasks]. rewrite <-!app_assoc. cbn [app]. solve_Permutation.
  - apply map_Forall_insert_2; [|apply I]. apply (inv_groups p I parent pg Hpg).
  - apply map_Forall_insert_2; [|apply I]. cbn. apply Forall_app. split; [by apply (inv_waits p I parent pg)|]. apply Forall_singleton. congruence.
  - apply I.
  - intros k. destruct (inv_account p I k) as (cs & Ea & Hcs). exists cs. split; [done|]. cbn [pending running].
    apply (lookup_same_tasks (fun q => Forall2 (stands (running p) k) (items q) cs) (cs = []) _ parent pg); done.
  - apply I.
Qed.

Lemma take_Inv p a id b g first rest t : Inv p -> spawned p = a ++ id :: b -> pending p !! id = Some g -> items (tasks g) = first :: rest ->
  it_task first = Some t -> task_hash t = id -> task_ok t -> id ∉ task_hash <$> running p ->
  Forall (fun i => exists t, it_task i = Some t /\ task_hash t = id /\ task_ok t) rest ->
  let taken := mkInternal None (block_result_transmitter first) (virtual_state_result_transmitter first) in
  Inv (mkProcessor (<[id := mkGroup (set_front (tasks g) taken) (dependent_tasks g)]> (pending p)) (a ++ b) (t :: running p) (sent p) (received p) (completed p)).
Proof.
  intros I Hs Hg Ei Ef Hid Ht Hn Hr taken. constructor; cbn [pending spawned running sent received completed].
  - rewrite (collect_same _ id g), (keys_update _ id g) by done. rewrite <-(inv_tokens p I), Hs, <-!app_assoc. cbn [fmap list_fmap app]. rewrite Hid. solve_Permutation.
  - intros k gk. destruct (decide (id = k)) as [<-|Hk].
    + rewrite lookup_insert_eq. intros [= <-]. exists taken, rest. cbn [tasks]. rewrite (items_set_front _ _ first rest Ei). split_and!; [done..|]. cbn. rewrite Hid. by left.
    + rewrite lookup_insert_ne by done. intros Hgk. eapply group_ok_run; [|by apply (inv_groups p I)]. cbn. rewrite elem_of_cons. naive_solver.
  - apply map_Forall_insert_2; [|apply I]. by apply (inv_waits p I id g).
  - constructor; [done|apply I].
  - intros k. destruct (inv_account p I k) as (cs & Ea & Hcs). exists cs. split; [done|]. cbn [pending running].
    assert (forall i r, stands (running p) k i r -> stands (t :: running p) k i r) as Hmono by (intros i r; apply stands_run; by right).
    destruct (decide (id = k)) as [<-|Hk].
    + rewrite lookup_insert_eq. cbn [tasks]. rewrite (items_set_front _ _ first rest Ei). rewrite Hg, Ei in Hcs.
      apply Forall2_cons_inv_l in Hcs as (r & cs' & (H1 & H2 & H3) & Hcs & ->). constructor; [|by eapply Forall2_impl].
      rewrite Ef in H3. split_and!; [done..|]. cbn. rewrite H3. split; [by left|done].
    + rewrite lookup_insert_ne by done. destruct (pending p !! k); [|done]. by eapply Forall2_impl.
  - apply I.
Qed.

Lemma begin_job_ok {E} p a id b : Inv p -> spawned p = a ++ id :: b ->
  exists p' task, begin_job (E := E) p a id b = Ok p' /\ Inv p' /\ spawned p' = a ++ b /\ received p' = received p /\
    running p' = option_list task ++ running p /\ length (queued (pending p')) = length (queued (pending p)) /\
    match task with
    | Some t => task_hash t = id /\ task_ok t /\ forall parent, parent ∈ direct_parents (task_block t) -> pending p !! parent = None
    | None => exists parent, parent ∈ parents id /\ is_Some (pending p !! parent)
    end.
Proof.
  intros I Hs. destruct (spawned_front p a id b I Hs) as (g & first & rest & t & Hg & Ei & Ef & Hid & Ht & Hn & Hr).
  unfold begin_job, try_begin. rewrite Hg. run. rewrite front_items, Ei. cbn [head unwrap mbind outcome_mbind]. rewrite Ef. run.
  destruct (List.find _ _) as [parent|] eqn:Efind.
  - apply List.find_some in Efind as [Hin Hp]. apply bool_decide_eq_true in Hp as [pg Hpg]. rewrite Hpg. run. apply list_elem_of_In in Hin.
    eexists _, None. split; [done|]. split; [by apply (wait_Inv p a id b t)|]. split_and!; [done..|by eapply collect_length|].
    exists parent. split; [|by exists pg]. unfold task_ok in Ht. rewrite Hid in Ht. by rewrite <-Ht.
  - run. eexists _, (Some t). split; [done|]. split; [by apply (take_Inv p a id b g first rest t)|]. split_and!; try done.
    { eapply collect_length; [done|]. cbn [tasks]. by rewrite (items_set_front _ _ first rest Ei), Ei. }
    intros parent Hin%list_elem_of_In. pose proof (List.find_none _ _ Efind parent Hin) as Hb. apply bool_decide_eq_false in Hb. by apply eq_None_not_Some.
Qed.

(** *** Finishing *)

(** A running task is the one its group was taken from, and the only one of its
    hash. *)
Lemma running_front p a t b : Inv p -> running p = a ++ t :: b ->
  exists g first rest, pending p !! task_hash t = Some g /\ items (tasks g) = first :: rest /\ it_task first = None /\
    task_hash t ∉ task_hash <$> a ++ b /\ Forall (fun i => exists u, it_task i = Some u /\ task_hash u = task_hash t /\ task_ok u) rest.
Proof.
  intros I Hr. assert (task_hash t ∈ task_hash <$> running p) as Hin by (rewrite Hr, fmap_app; set_solver).
  destruct (token_pending p (task_hash t) I) as [g Hg]; [auto|]. destruct (inv_groups p I _ g Hg) as (f & r & Ei & Hrest & Hf).
  exists g, f, r. destruct (it_task f) as [u|] eqn:Ef; [by destruct Hf as (_ & _ & [])|]. split_and!; [done..| |done].
  pose proof (tokens_NoDup p I) as Hd. rewrite Hr, fmap_app, fmap_cons in Hd. rewrite fmap_app.
  apply NoDup_app in Hd as (_ & _ & Hd). apply NoDup_app in Hd as (Hd & _). rewrite <-Permutation_middle in Hd. by apply NoDup_cons in Hd as [? _].
Qed.

(** What is left to process once [t] is: the rest of its queue, and everything
    of the other blocks. *)
Lemma finish_account p a t b g first rest res m : Inv p -> running p = a ++ t :: b -> pending p !! task_hash t = Some g ->
  items (tasks g) = first :: rest -> it_task first = None -> task_hash t ∉ task_hash <$> a ++ b ->
  Forall (fun i => exists u, it_task i = Some u /\ task_hash u = task_hash t /\ task_ok u) rest ->
  match m !! task_hash t with Some g => items (tasks g) = rest | None => rest = [] end ->
  (forall k, k <> task_hash t -> m !! k = pending p !! k) ->
  forall k, accounted (mkProcessor m (spawned p) (a ++ b) (sent p) (received p)
    (completed p ++ [(res, (t, block_result_transmitter first, virtual_state_result_transmitter first))])) k.
Proof.
  intros I Hr Hg Ei Ef Hn Hrest Hm Hk k. destruct (inv_account p I k) as (cs & Ea & Hcs). unfold accounted. cbn [pending received completed running].
  rewrite fmap_app, about_app. cbn [fmap list_fmap snd]. rewrite about_one. cbn [fst]. destruct (Z.eqb_spec (task_hash t) k) as [<-|Hne].
  - rewrite Hg, Ei in Hcs. apply Forall2_cons_inv_l in Hcs as ([[u s1] s2] & cs' & (H1 & H2 & H3) & Hcs & ->). cbn in H1, H2. rewrite Ef in H3. cbn in H3.
    destruct H3 as [Hu Eu]. assert (u = t) as ->.
    { rewrite Hr in Hu. apply elem_of_app in Hu as [Hu|[->|Hu]%elem_of_cons]; [|done|]; destruct Hn; rewrite <-Eu; apply list_elem_of_fmap_2; set_solver. }
    subst s1 s2. exists cs'. rewrite <-app_assoc. split; [done|].
    assert (Forall2 (stands (a ++ b) (task_hash t)) rest cs') as Hf.
    { clear -Hcs Hrest. induction Hcs as [|i r l k (H1 & H2 & H3) _ IH]; constructor; inversion_clear Hrest; [|auto].
      destruct H as (w & Ew & _). split_and!; [done..|]. by rewrite Ew in H3 |- *. }
    destruct (m !! task_hash t); [by rewrite Hm|]. subst rest. by inversion Hf.
  - exists cs. rewrite app_nil_r. split; [done|]. rewrite Hk by done. destruct (pending p !! k); [|done]. eapply Forall2_impl; [done|].
    intros i r. apply stands_run. intros u Hu Eu. rewrite Hr in Hu. apply elem_of_app in Hu as [Hu|[->|Hu]%elem_of_cons]; [set_solver|done|set_solver].
Qed.

Lemma finish_Inv p a t b g first rest res m next : Inv p -> running p = a ++ t :: b -> pending p !! task_hash t = Some g ->
  items (tasks g) = first :: rest -> it_task first = None -> task_hash t ∉ task_hash <$> a ++ b ->
  Forall (fun i => exists u, it_task i = Some u /\ task_hash u = task_hash t /\ task_ok u) rest ->
  (rest = [] /\ m = delete (task_hash t) (pending p) /\ next = dependent_tasks g \/
   rest <> [] /\ next = [task_hash t] /\ exists q, items q = rest /\ m = <[task_hash t := mkGroup q (dependent_tasks g)]> (pending p)) ->
  let s1 := block_result_transmitter first in let s2 := virtual_state_result_transmitter first in
  Inv (mkProcessor m (spawned p ++ next) (a ++ b) (sent p ++ callback res t s1 s2) (received p) (completed p ++ [(res, (t, s1, s2))])).
Proof.
  intros I Hr Hg Ei Ef Hn Hrest Hm s1 s2. set (h := task_hash t) in *.
  assert (forall k, k <> h -> m !! k = pending p !! k) as Hk.
  { intros k Hk. destruct Hm as [(_ & -> & _)|(_ & _ & q & _ & ->)]; [by rewrite lookup_delete_ne|by rewrite lookup_insert_ne]. }
  assert (forall k gk, k <> h -> pending p !! k = Some gk -> group_ok (a ++ b) k gk) as Ho.
  { intros k gk Hne Hgk. eapply group_ok_run; [|by apply (inv_groups p I)]. rewrite Hr, !fmap_app, fmap_cons, !elem_of_app, elem_of_cons. naive_solver. }
  constructor; cbn [pending spawned running sent received completed].
  - pose proof (inv_tokens p I) as Ht. rewrite Hr, fmap_app, fmap_cons in Ht. rewrite fmap_app. destruct Hm as [(_ & -> & ->)|(_ & -> & q & _ & ->)].
    + rewrite (collect_split (pending p) h g), (keys_split (pending p) h g) in Ht by done. apply (Permutation_cons_inv (a := h)). rewrite <-Ht. fold h. solve_Permutation.
    + rewrite (collect_same _ h g), (keys_update _ h g) by done. rewrite <-Ht. fold h. solve_Permutation.
  - intros k gk Hgk. destruct (decide (k = h)) as [->|Hne]; [|by apply Ho; [|rewrite <-Hk]].
    destruct Hm as [(_ & -> & _)|(Hne & _ & q & Eq & ->)]; [by rewrite lookup_delete_eq in Hgk|]. rewrite lookup_insert_eq in Hgk. injection Hgk as <-.
    destruct rest as [|i rest]; [done|]. exists i, rest. cbn [tasks]. inversion_clear Hrest. destruct H as (u & -> & Hu & Ou). done.
  - destruct Hm as [(_ & -> & _)|(_ & _ & q & _ & ->)]; [by apply map_Forall_delete, I|]. apply map_Forall_insert_2; [by apply (inv_waits p I h g)|apply I].
  - pose proof (inv_running p I) as Ho'. rewrite Hr in Ho'. apply Forall_app in Ho' as [? Ho']. inversion_clear Ho'. by apply Forall_app.
  - apply (finish_account p a t b g first rest res m); try done. destruct Hm as [(-> & -> & _)|(_ & _ & q & <- & ->)]; [by rewrite lookup_delete_eq|by rewrite lookup_insert_eq].
  - rewrite bind_app, (inv_sent p I). cbn. by rewrite app_nil_r.
Qed.

Lemma finish_job_ok {E} p a t b res : Inv p -> running p = a ++ t :: b ->
  exists p', finish_job (E := E) callback p a t b res = Ok p' /\ Inv p' /\ running p' = a ++ b /\ received p' = received p /\
    S (length (queued (pending p'))) = length (queued (pending p)).
Proof.
  intros I Hr. destruct (running_front p a t b I Hr) as (g & first & rest & Hg & Ei & Ef & Hn & Hrest).
  unfold finish_job, end_. rewrite Hg. run. destruct (pop_front_items _ _ _ Ei) as (q & -> & Eq). run. rewrite Ef. cbn [assert].
  destruct (queue_is_empty q) eqn:Ee; run; (eexists; split; [done|]; split; [apply (finish_Inv p a t b g first rest); try done|split_and!; [done..|]]).
  - apply queue_is_empty_items in Ee. left. split_and!; congruence.
  - apply queue_is_empty_items in Ee. cbn [pending]. rewrite (collect_split (pending p) (task_hash t) g) by done. rewrite length_app, Ei. cbn. rewrite <-Eq, Ee. done.
  - right. split_and!; [|done|by exists q]. rewrite <-Eq. intros Eq'%queue_is_empty_items. congruence.
  - cbn [pending]. rewrite (collect_update _ (task_hash t) g), (collect_split (pending p) (task_hash t) g) by done. rewrite !length_app, Ei. cbn [tasks length]. rewrite Eq. lia.
Qed.

(** ** Runs *)

(** The messages carry the parents that the hash of their block commits to. *)
Definition received_ok p : Prop := Forall (fun r => task_ok r.1.1) (received p).

Lemma work_ok p p' : Inv p -> work callback p p' -> Inv p' /\ received p' = received p.
Proof.
  intros I Hw. revert I. destruct Hw as [? ? a id b Hs H|? ? a t b res Hr H]; intros I.
  - destruct (begin_job_ok (E := Empty_set) _ a id b I Hs) as (? & ? & E & I' & _ & Er & _). rewrite E in H. by injection H as <-.
  - destruct (finish_job_ok (E := Empty_set) _ a t b res I Hr) as (? & E & I' & _ & Er & _). rewrite E in H. by injection H as <-.
Qed.

Lemma reachable_Inv p : rtc (step callback) processor_new p -> received_ok p -> Inv p.
Proof.
  revert p. apply (rtc_ind_r (fun p => received_ok p -> Inv p)); [intros _; apply Inv_new|]. intros q r _ Hs IH Ho.
  destruct Hs as [q task s1 s2|q r Hw].
  - assert (received (receive q task s1 s2) = received q ++ [(task, s1, s2)]) as Er by (unfold receive; by destruct (register _ _ _ _)).
    unfold received_ok in Ho. rewrite Er in Ho. apply Forall_app in Ho as [Ho Ht]. inversion_clear Ht. apply receive_Inv; auto.
  - assert (received r = received q) as Er.
    { destruct Hw as [? ? a id b _ H|? ? a t b res _ H]; unfold begin_job, finish_job in H.
      - destruct (try_begin _ _) as [[m o]| | |]; cbn in H; [by injection H as <-|done..].
      - destruct (end_ _ _) as [[[m o] [s1 s2]]| | |]; cbn in H; [by injection H as <-|done..]. }
    apply (work_ok q); [|done]. apply IH. unfold received_ok. by rewrite <-Er.
Qed.

Lemma runs_ok p p' : Inv p -> rtc (work callback) p p' -> Inv p' /\ received p' = received p.
Proof.
  intros I H. induction H as [|p q r Hw _ IH]; [done|]. destruct (work_ok p q I Hw) as [Iq Eq]. destruct (IH Iq) as [? Er]. split; [done|]. by rewrite Er.
Qed.

(** *** Progress *)

(** The work that is left: every job begins at most once for each task that is
    still to finish. *)
Definition effort p : nat := let n := length (queued (pending p)) in n * n + 2 * length (spawned p) + length (running p).

Lemma tokens_queued p : Inv p -> (length (spawned p) + length (running p) <= length (queued (pending p)))%nat.
Proof.
  intros I. assert (length (keys (pending p)) <= length (queued (pending p)))%nat.
  { apply keys_collect. intros h g Hg. by destruct (inv_groups p I h g Hg) as (f & r & -> & _). }
  rewrite <-(inv_tokens p I), !length_app, length_fmap in H. lia.
Qed.

Lemma effort_bound p : Inv p -> let n := length (queued (pending p)) in (effort p <= n * n + 2 * n)%nat.
Proof. intros I n. unfold effort. pose proof (tokens_queued p I). fold n in H |- *. lia. Qed.

Lemma work_effort p p' : Inv p -> work callback p p' -> (effort p' < effort p)%nat.
Proof.
  intros I Hw. revert I. destruct Hw as [? ? a id b Hs H|? ? a t b res Hr H]; intros I; unfold effort.
  - destruct (begin_job_ok (E := Empty_set) _ a id b I Hs) as (? & task & E & I' & Es & _ & Er & El & _). rewrite E in H. injection H as <-.
    rewrite El, Er, Es, Hs, !length_app. cbn [length]. assert (length (option_list task) <= 1)%nat by (destruct task; cbn; lia). lia.
  - destruct (finish_job_ok (E := Empty_set) _ a t b res I Hr) as (q & E & I' & Er & _ & El). rewrite E in H. injection H as <-.
    pose proof (tokens_queued q I'). rewrite <-El, Er, Hr, !length_app in *. cbn [length]. nia.
Qed.

Lemma nsteps_effort n p p' : Inv p -> nsteps (work callback) n p p' -> (n + effort p' <= effort p)%nat.
Proof.
  intros I H. revert I. induction H as [|n p q r Hw _ IH]; intros I; [done|].
  pose proof (work_effort p q I Hw). destruct (work_ok p q I Hw) as [Iq _]. specialize (IH Iq). lia.
Qed.

(** With no job left no block is pending: the one of least height could only
    wait for a lower one. *)
Lemma idle_empty (height : Hash -> nat) p : (forall h parent, parent ∈ parents h -> height parent < height h)%nat -> Inv p ->
  spawned p = [] -> running p = [] -> pending p = ∅.
Proof.
  intros Hh I Es Er. apply map_eq. intros h. rewrite lookup_empty.
  induction h as [h IH] using (well_founded_induction (well_founded_ltof _ height)). destruct (pending p !! h) as [g|] eqn:E; [|done].
  assert (h ∈ waiting (pending p)) as Hw.
  { pose proof (inv_tokens p I) as Ht. rewrite Es, Er in Ht. cbn in Ht. rewrite Ht. apply keys_elem. by exists g. }
  apply elem_of_collect in Hw as (k & gk & Hk & Hd). pose proof (inv_waits p I k gk Hk) as Hp. cbn in Hp. rewrite Forall_forall in Hp.
  by rewrite (IH k) in Hk by (apply Hh, Hp, Hd).
Qed.

Definition drained p : Prop :=
  pending p = ∅ /\ spawned p = [] /\ running p = [] /\ forall h, about h (completed p).*2 = about h (received p).

Lemma work_or_drained (height : Hash -> nat) (res : result) p : (forall h parent, parent ∈ parents h -> height parent < height h)%nat -> Inv p ->
  red (work callback) p \/ drained p.
Proof.
  intros Hh I. destruct (spawned p) as [|id b] eqn:Es; [|left].
  - destruct (running p) as [|t b] eqn:Er; [right|left].
    + pose proof (idle_empty height p Hh I Es Er) as Ep. split_and!; [done..|]. intros h. destruct (inv_account p I h) as (cs & -> & Hcs).
      rewrite Ep, lookup_empty in Hcs. by rewrite Hcs, app_nil_r.
    + destruct (finish_job_ok (E := Empty_set) p [] t b res I Er) as (p' & E & _). exists p'. by apply (work_finish _ p p' [] t b res).
  - destruct (begin_job_ok (E := Empty_set) p [] id b I Es) as (p' & task & E & _). exists p'. by apply (work_begin _ p p' [] id b).
Qed.
End invariant.

(** ** The manager's contract *)

(** C23: the dependency manager is safe in every interleaving of the jobs: at any
    state that the worker and the jobs of the pool reach, the jobs that begin and
    those that finish do not panic; a job that takes its task does so only when
    everything received about the parents of its block is completed, and one that
    does not waits for a pending parent; no two running tasks are of the same
    block; the messages about a block are completed in the order in which they
    came, each once; and what was sent is what the callback sends for the
    completed tasks. *)
Theorem dependency_manager_safe {BlockStatus RuleError} callback (parents : Hash -> list Hash) (p : Processor BlockStatus RuleError) :
  rtc (step callback) processor_new p -> received_ok parents p ->
  (forall a id b, spawned p = a ++ id :: b -> exists p' task, begin_job (E := Empty_set) p a id b = Ok p' /\
     running p' = option_list task ++ running p /\
     match task with
     | Some t => task_hash t = id /\ forall parent, parent ∈ direct_parents (task_block t) -> about parent (completed p).*2 = about parent (received p)
     | None => exists parent, parent ∈ parents id /\ is_Some (pending p !! parent)
     end) /\
  (forall a task b res, running p = a ++ task :: b -> is_ok (finish_job (E := Empty_set) callback p a task b res) = true) /\
  NoDup (task_hash <$> running p) /\
  (forall h, about h (completed p).*2 `prefix_of` about h (received p)) /\
  sent p = completed p ≫= fun '(res, (task, block_tx, virtual_tx)) => callback res task block_tx virtual_tx.
Proof.
  intros Hp Ho. pose proof (reachable_Inv callback parents p Hp Ho) as I. split_and!.
  - intros a id b Hs. destruct (begin_job_ok (E := Empty_set) callback parents p a id b I Hs) as (p' & task & E & _ & _ & _ & Er & _ & Ht).
    exists p', task. split_and!; [done..|]. destruct task as [t|]; [|done]. destruct Ht as (Hid & _ & Ht). split; [done|]. intros parent Hin.
    destruct (inv_account _ _ p I parent) as (cs & -> & Hcs). rewrite (Ht parent Hin) in Hcs. by rewrite Hcs, app_nil_r.
  - intros a t b res Hr. by destruct (finish_job_ok (E := Empty_set) callback parents p a t b res I Hr) as (p' & -> & _).
  - pose proof (tokens_NoDup callback parents p I) as Hd. apply NoDup_app in Hd as (_ & _ & Hd). by apply NoDup_app in Hd as (Hd & _).
  - intros h. destruct (inv_account _ _ p I h) as (cs & -> & _). by exists cs.
  - rewrite (inv_sent _ _ p I) at 1. apply list_bind_ext; [|done]. by intros [res [[t s1] s2]].
Qed.

(** C24: the dependency manager is live, when no chain of parents is a cycle:
    with nothing more received, from a state with [n] queued tasks the jobs make
    at most [n * n + 2 * n] steps, in any order; and as long as a task is
    pending some job can make one, so that they end with no task pending, no job
    left, and every message that was received completed, in its order. *)
Theorem dependency_manager_live {BlockStatus RuleError} callback (parents : Hash -> list Hash) (height : Hash -> nat) (res : BlockStatus + RuleError)
    (p : Processor BlockStatus RuleError) :
  (forall h parent, parent ∈ parents h -> height parent < height h)%nat ->
  rtc (step callback) processor_new p -> received_ok parents p ->
  (forall k p', nsteps (work callback) k p p' -> let n := length (queued (pending p)) in k <= n * n + 2 * n)%nat /\
  (forall p', rtc (work callback) p p' -> received p' = received p /\ (red (work callback) p' \/ drained p')).
Proof.
  intros Hh Hp Ho. pose proof (reachable_Inv callback parents p Hp Ho) as I. split.
  - intros k p' Hk n. pose proof (nsteps_effort callback parents k p p' I Hk). pose proof (effort_bound callback parents p I). cbn zeta in *. fold n in H0. lia.
  - intros p' Hw. destruct (runs_ok callback parents p p' I Hw) as [I' E]. split; [done|]. by apply (work_or_drained callback parents height).
Qed.

(** *** A block and its child *)

Definition example_parents (h : Hash) : list Hash := if h =? 2 then [1] else [].

Definition example_received : Processor unit unit :=
  receive (receive processor_new (Ordinary (mkBlock 2 [1] false) false) 20 21) (Ordinary (mkBlock 1 [] false) false) 10 11.

Lemma example_received_reachable : rtc (step header_callback) processor_new example_received.
Proof. eapply rtc_l; [apply step_receive|]. apply rtc_once. apply step_receive. Qed.

Lemma example_received_ok : received_ok example_parents example_received.
Proof. repeat constructor. Qed.

Lemma dependency_manager_safe_witness :
  exists p', begin_job (E := Empty_set) example_received [] 2 [1] = Ok p' /\ NoDup (task_hash <$> running example_received).
Proof.
  destruct (dependency_manager_safe header_callback example_parents example_received example_received_reachable example_received_ok) as (Hb & _ & Hd & _).
  destruct (Hb [] 2 [1] eq_refl) as (p' & _ & E & _). by exists p'.
Defined.

Lemma dependency_manager_live_witness : red (work header_callback) example_received \/ drained example_received.
Proof.
  apply (dependency_manager_live header_callback example_parents Z.to_nat (inl tt) example_received).
  - intros h parent. unfold example_parents. destruct (Z.eqb_spec h 2) as [->|_]; [|set_solver]. intros ->%list_elem_of_singleton. lia.
  - apply example_received_reachable.
  - apply example_received_ok.
  - apply rtc_refl.
Defined.
