(* ===== verification/ReachStore.v ===== *)
(** * The reachability store

    [consensus/src/model/stores/reachability.rs]: the reader and writer traits
    as the class [ReachabilityStore], and the in-memory store
    [MemoryReachabilityStore] that implements them. *)
From S2P Require Import Prelude Tx Interval Slice.
#[local] Open Scope Z_scope.

(** ** Errors *)

(** The key of [KeyNotFound] is a block hash, or the bare prefix of the
    reindex root. *)
Inductive StoreError :=
  | KeyNotFound (key : option Hash)
  | HashAlreadyExists (h : Hash).

(** [?] wraps the errors of the stores; the text of [DataOverflow] is dropped. *)
Inductive ReachabilityError :=
  | StoreErr (e : StoreError)
  | DataOverflow
  | DataInconsistency
  | BadQuery.

Notation result := (outcome ReachabilityError).

Definition key_not_found {A} (h : Hash) : result A := Err (StoreErr (KeyNotFound (Some h))).
Definition already_exists {A} (h : Hash) : result A := Err (StoreErr (HashAlreadyExists h)).

(** ** The traits *)
Class ReachabilityStore (S : Type) := {
  has : S -> Hash -> result bool;
  get_interval : S -> Hash -> result Interval;
  get_parent : S -> Hash -> result Hash;
  get_children : S -> Hash -> result (list Hash);
  get_future_covering_set : S -> Hash -> result (list Hash);
  store_init : S -> Hash -> Interval -> result S;
  store_insert : S -> Hash -> Hash -> Interval -> Z -> result S;
  set_interval : S -> Hash -> Interval -> result S;
  append_child : S -> Hash -> Hash -> result S;
  insert_future_covering_item : S -> Hash -> Hash -> nat -> result S;
  set_parent : S -> Hash -> Hash -> result S;
  replace_child : S -> Hash -> Hash -> nat -> list Hash -> result S;
  replace_future_covering_item : S -> Hash -> Hash -> nat -> list Hash -> result S;
  store_delete : S -> Hash -> result S;
  get_height : S -> Hash -> result Z;
  set_reindex_root : S -> Hash -> result S;
  get_reindex_root : S -> result Hash
}.

(** ** The in-memory store *)
Record MemoryReachabilityData := mkMData {
  children : list Hash;
  parent : Hash;
  interval : Interval;
  height : Z;
  future_covering_set : list Hash
}.

Definition MemoryReachabilityData_new (p : Hash) (i : Interval) (h : Z) : MemoryReachabilityData :=
  mkMData [] p i h [].

Record MemoryReachabilityStore := mkMem {
  mem_map : gmap Hash MemoryReachabilityData;
  mem_reindex_root : option Hash
}.

Definition MemoryReachabilityStore_new : MemoryReachabilityStore := mkMem ∅ None.

Section memory.
#[local] Notation store := MemoryReachabilityStore.

Definition mem_get_data (s : store) (h : Hash) : result MemoryReachabilityData :=
  match mem_map s !! h with Some d => Ok d | None => key_not_found h end.

(** [get_data_mut] followed by an assignment to the entry. *)
Definition mem_update (s : store) (h : Hash) (f : MemoryReachabilityData -> result MemoryReachabilityData) : result store :=
  d ← mem_get_data s h;
  d' ← f d;
  Ok (mkMem (<[h := d']> (mem_map s)) (mem_reindex_root s)).

Definition mem_has (s : store) (h : Hash) : result bool := Ok (bool_decide (is_Some (mem_map s !! h))).
Definition mem_get_interval (s : store) (h : Hash) : result Interval := d ← mem_get_data s h; Ok (interval d).
Definition mem_get_parent (s : store) (h : Hash) : result Hash := d ← mem_get_data s h; Ok (parent d).
Definition mem_get_children (s : store) (h : Hash) : result (list Hash) := d ← mem_get_data s h; Ok (children d).
Definition mem_get_future_covering_set (s : store) (h : Hash) : result (list Hash) :=
  d ← mem_get_data s h; Ok (future_covering_set d).
Definition mem_get_height (s : store) (h : Hash) : result Z := d ← mem_get_data s h; Ok (height d).

Definition mem_set_reindex_root (s : store) (r : Hash) : result store := Ok (mkMem (mem_map s) (Some r)).
Definition mem_get_reindex_root (s : store) : result Hash :=
  match mem_reindex_root s with Some r => Ok r | None => Err (StoreErr (KeyNotFound None)) end.

Definition mem_insert (s : store) (h p : Hash) (i : Interval) (ht : Z) : result store :=
  match mem_map s !! h with
  | None => Ok (mkMem (<[h := MemoryReachabilityData_new p i ht]> (mem_map s)) (mem_reindex_root s))
  | Some _ => already_exists h
  end.

Definition mem_init (s : store) (origin : Hash) (capacity : Interval) : result store :=
  s ← mem_insert s origin NONE capacity 0;
  mem_set_reindex_root s origin.

Definition mem_set_interval (s : store) (h : Hash) (i : Interval) : result store :=
  mem_update s h (fun d => Ok (mkMData (children d) (parent d) i (height d) (future_covering_set d))).
Definition mem_set_parent (s : store) (h new_parent : Hash) : result store :=
  mem_update s h (fun d => Ok (mkMData (children d) new_parent (interval d) (height d) (future_covering_set d))).
Definition mem_append_child (s : store) (h child : Hash) : result store :=
  mem_update s h (fun d => Ok (mkMData (children d ++ [child]) (parent d) (interval d) (height d) (future_covering_set d))).
Definition mem_replace_child (s : store) (h replaced_hash : Hash) (i : nat) (l : list Hash) : result store :=
  mem_update s h (fun d =>
    c ← vec_splice i l (children d);
    Ok (mkMData c (parent d) (interval d) (height d) (future_covering_set d))).
Definition mem_insert_future_covering_item (s : store) (h fci : Hash) (i : nat) : result store :=
  mem_update s h (fun d =>
    f ← vec_insert i fci (future_covering_set d);
    Ok (mkMData (children d) (parent d) (interval d) (height d) f)).
Definition mem_replace_future_covering_item (s : store) (h replaced_hash : Hash) (i : nat) (l : list Hash) : result store :=
  mem_update s h (fun d =>
    f ← vec_splice i l (future_covering_set d);
    Ok (mkMData (children d) (parent d) (interval d) (height d) f)).

Definition mem_delete (s : store) (h : Hash) : result store := Ok (mkMem (delete h (mem_map s)) (mem_reindex_root s)).

#[export] Instance memory_store : ReachabilityStore store := {
  has := mem_has; get_interval := mem_get_interval; get_parent := mem_get_parent; get_children := mem_get_children;
  get_future_covering_set := mem_get_future_covering_set; store_init := mem_init; store_insert := mem_insert;
  set_interval := mem_set_interval; append_child := mem_append_child;
  insert_future_covering_item := mem_insert_future_covering_item; set_parent := mem_set_parent;
  replace_child := mem_replace_child; replace_future_covering_item := mem_replace_future_covering_item;
  store_delete := mem_delete; get_height := mem_get_height; set_reindex_root := mem_set_reindex_root;
  get_reindex_root := mem_get_reindex_root
}.
End memory.
