(* ===== verification/Reachability.v ===== *)
(** * The reachability algorithms

    [consensus/src/processes/reachability]: the interval extensions of a store
    ([extensions.rs]), the queries and block operations ([inquirer.rs]), the
    tree operations ([tree.rs]) and the reindexing ([reindex.rs]), over any
    implementation of the store traits. *)
From S2P Require Import Prelude Tx Interval Slice ReachStore.
#[local] Open Scope Z_scope.

Definition DEFAULT_REINDEX_DEPTH : Z := 100.
Definition DEFAULT_REINDEX_SLACK : Z := Z.shiftl 1 14.

Inductive SearchOutput :=
  | NotFound (position : nat)
  | Found (h : Hash) (position : nat).

(** The context of one reindex operation: the store and the cache of subtree
    sizes ([_depth] is unused by the code). *)
Record ReindexOperationContext (S : Type) := mkCtx {
  ctx_store : S;
  subtree_sizes : gmap Hash Z;
  slack : Z
}.
Arguments mkCtx {S}.
Arguments ctx_store {S}.
Arguments subtree_sizes {S}.
Arguments slack {S}.

Section reachability.
Context {S : Type} `{ReachabilityStore S}.
#[local] Notation ctx := (ReindexOperationContext S).

(** ** Interval extensions *)

Definition interval_children_capacity (s : S) (block : Hash) : result Interval :=
  i ← get_interval s block;
  decrease_end i 1.

Definition interval_remaining_before (s : S) (block : Hash) : result Interval :=
  alloc_capacity ← interval_children_capacity s block;
  cs ← get_children s block;
  match head cs with
  | Some first_child =>
      first_alloc ← get_interval s first_child;
      e ← sub_ 64 (start first_alloc) 1;
      Ok (mkInterval (start alloc_capacity) e)
  | None => Ok alloc_capacity
  end.

Definition interval_remaining_after (s : S) (block : Hash) : result Interval :=
  alloc_capacity ← interval_children_capacity s block;
  cs ← get_children s block;
  match last cs with
  | Some last_child =>
      last_alloc ← get_interval s last_child;
      b ← add_ 64 (end_ last_alloc) 1;
      Ok (mkInterval b (end_ alloc_capacity))
  | None => Ok alloc_capacity
  end.

(** ** Queries *)

Definition is_strict_chain_ancestor_of (s : S) (this queried : Hash) : result bool :=
  a ← get_interval s this;
  b ← get_interval s queried;
  Ok (strictly_contains a b).

Definition is_chain_ancestor_of (s : S) (this queried : Hash) : result bool :=
  a ← get_interval s this;
  b ← get_interval s queried;
  Ok (contains a b).

(** The key function unwraps, so a missing block panics. *)
Definition search_key (s : S) (c : Hash) : result Z :=
  match get_interval s c with Ok i => Ok (start i) | _ => Panic end.

Definition binary_search_descendant (s : S) (ordered_hashes : list Hash) (descendant : Hash) : result SearchOutput :=
  d ← get_interval s descendant;
  r ← binary_search_by_key (search_key s) (end_ d) ordered_hashes;
  match r with
  | inl i => h ← unwrap (ordered_hashes !! i); Ok (Found h i)
  | inr O => Ok (NotFound O)
  | inr (Datatypes.S i) =>
      h ← unwrap (ordered_hashes !! i);
      b ← is_chain_ancestor_of s h descendant;
      Ok (if (b : bool) then Found h i else NotFound (Datatypes.S i))
  end.

Definition is_dag_ancestor_of (s : S) (this queried : Hash) : result bool :=
  chain ← is_chain_ancestor_of s this queried;
  if (chain : bool) then Ok true
  else
    fcs ← get_future_covering_set s this;
    r ← binary_search_descendant s fcs queried;
    Ok (match r with Found _ _ => true | NotFound _ => false end).

Definition get_next_chain_ancestor_unchecked (s : S) (descendant ancestor : Hash) : result Hash :=
  cs ← get_children s ancestor;
  r ← binary_search_descendant s cs descendant;
  match r with Found h _ => Ok h | NotFound _ => Err BadQuery end.

Definition get_next_chain_ancestor (s : S) (descendant ancestor : Hash) : result Hash :=
  if descendant =? ancestor then Err BadQuery
  else
    b ← is_strict_chain_ancestor_of s ancestor descendant;
    if negb b then Err BadQuery else get_next_chain_ancestor_unchecked s descendant ancestor.

(** ** Reindexing

    Every loop takes its fuel from the section. *)
Context (fuel : nat).

Definition with_store (c : ctx) (s : S) : ctx := mkCtx s (subtree_sizes c) (slack c).

Definition ctx_new (s : S) (slack : Z) : ctx := mkCtx s ∅ slack.

(** The inner loop of [count_subtrees]: pushes the information of a finished
    subtree up the parent chain. *)
Fixpoint push_up (n : nat) (s : S) (sizes counts : gmap Hash Z) (block current : Hash)
    : result (gmap Hash Z * gmap Hash Z) :=
  match n with
  | O => OutOfFuel
  | Datatypes.S n =>
      if current =? block then Ok (sizes, counts)
      else
        current ← get_parent s current;
        cs ← get_children s current;
        count ← add_ 64 (default 0 (counts !! current)) 1;
        let counts := <[current := count]> counts in
        if count <? Z.of_nat (length cs) then Ok (sizes, counts)
        else
          child_sizes ← mapM' (fun c => unwrap (sizes !! c)) cs;
          subtree_sum ← foldM (add_ 64) 0 child_sizes;
          subtree_size ← add_ 64 subtree_sum 1;
          push_up n s (<[current := subtree_size]> sizes) counts block current
  end.

Fixpoint count_loop (n : nat) (s : S) (sizes counts : gmap Hash Z) (block : Hash) (queue : list Hash)
    : result (gmap Hash Z) :=
  match n with
  | O => OutOfFuel
  | Datatypes.S n =>
      match queue with
      | [] => Ok sizes
      | current :: queue =>
          cs ← get_children s current;
          if bool_decide (cs = []) then
            '(sizes, counts) ← push_up fuel s (<[current := 1]> sizes) counts block current;
            count_loop n s sizes counts block queue
          else if bool_decide (sizes !! current = None) then
            count_loop n s sizes counts block (queue ++ cs)
          else
            '(sizes, counts) ← push_up fuel s sizes counts block current;
            count_loop n s sizes counts block queue
      end
  end.

Definition count_subtrees (c : ctx) (block : Hash) : result ctx :=
  if bool_decide (is_Some (subtree_sizes c !! block)) then Ok c
  else
    sizes ← count_loop fuel (ctx_store c) (subtree_sizes c) ∅ block [block];
    Ok (mkCtx (ctx_store c) sizes (slack c)).

Fixpoint propagate_loop (n : nat) (s : S) (sizes : gmap Hash Z) (queue : list Hash) : result S :=
  match n with
  | O => OutOfFuel
  | Datatypes.S n =>
      match queue with
      | [] => Ok s
      | current :: queue =>
          cs ← get_children s current;
          if bool_decide (cs = []) then propagate_loop n s sizes queue
          else
            child_sizes ← mapM' (fun c => unwrap (sizes !! c)) cs;
            capacity ← interval_children_capacity s current;
            intervals ← split_exponential capacity child_sizes;
            s ← foldM (fun s '(c, ci) => set_interval s c ci) s (zip cs intervals);
            propagate_loop n s sizes (queue ++ cs)
      end
  end.

Definition propagate_interval (c : ctx) (block : Hash) : result ctx :=
  c ← count_subtrees c block;
  s ← propagate_loop fuel (ctx_store c) (subtree_sizes c) [block];
  Ok (with_store c s).

Definition apply_interval_op (c : ctx) (block : Hash) (offset : Z) (op : Interval -> Z -> result Interval) : result ctx :=
  i ← get_interval (ctx_store c) block;
  i ← op i offset;
  s ← set_interval (ctx_store c) block i;
  Ok (with_store c s).

Definition apply_interval_op_and_propagate (c : ctx) (block : Hash) (offset : Z) (op : Interval -> Z -> result Interval)
    : result ctx :=
  c ← apply_interval_op c block offset op;
  propagate_interval c block.

Definition split_children (cs : list Hash) (pivot : Hash) : result (list Hash * list Hash) :=
  match position (fun c => c =? pivot) cs with
  | Some index => Ok (take index cs, drop (Datatypes.S index) cs)
  | None => Err DataInconsistency
  end.

(** The loops over the siblings, which stop at [allocation_block]. *)
Fixpoint offset_siblings (c : ctx) (siblings : list Hash) (allocation_block : Hash) (offset : Z)
    (op_alloc op_other : Interval -> Z -> result Interval) : result ctx :=
  match siblings with
  | [] => Ok c
  | sibling :: siblings =>
      if sibling =? allocation_block then apply_interval_op_and_propagate c allocation_block offset op_alloc
      else
        c ← apply_interval_op_and_propagate c sibling offset op_other;
        offset_siblings c siblings allocation_block offset op_alloc op_other
  end.

Definition offset_siblings_before (c : ctx) (allocation_block current : Hash) (offset : Z) : result ctx :=
  p ← get_parent (ctx_store c) current;
  cs ← get_children (ctx_store c) p;
  '(siblings_before, _) ← split_children cs current;
  offset_siblings c (reverse siblings_before) allocation_block offset increase_end increase.

Definition offset_siblings_after (c : ctx) (allocation_block current : Hash) (offset : Z) : result ctx :=
  p ← get_parent (ctx_store c) current;
  cs ← get_children (ctx_store c) p;
  '(_, siblings_after) ← split_children cs current;
  offset_siblings c siblings_after allocation_block offset decrease_start decrease.

(** The two loops shared by [reclaim_interval_before] and
    [reclaim_interval_after]; [remaining], [op] and [offset_sib] select the
    side. *)
Section reclaim.
Context (remaining : S -> Hash -> result Interval) (op : Interval -> Z -> result Interval).
Context (offset_sib : ctx -> Hash -> Hash -> Z -> result ctx).
Context (allocation_block common_ancestor reindex_root : Hash) (required_allocation : Z).

(** The walk from the chosen child towards the reindex root; returns the
    context, the block reached and [path_slack_alloc]. *)
Fixpoint reclaim_up (n : nat) (c : ctx) (current : Hash) (slack_sum path_len : Z) : result (ctx * Hash * Z) :=
  match n with
  | O => OutOfFuel
  | Datatypes.S n =>
      if current =? reindex_root then
        chain_slack ← mul_ 64 (slack c) path_len;
        total ← add_ 64 required_allocation chain_slack;
        offset ← sub_ 64 total slack_sum;
        c ← apply_interval_op_and_propagate c current offset op;
        c ← offset_sib c allocation_block current offset;
        Ok (c, current, slack c)
      else
        rem ← remaining (ctx_store c) current;
        slack_current ← size rem;
        slack_sum ← add_ 64 slack_sum slack_current;
        if required_allocation <=? slack_sum then
          excess ← sub_ 64 slack_sum required_allocation;
          offset ← sub_ 64 slack_current excess;
          c ← apply_interval_op c current offset op;
          c ← offset_sib c allocation_block current offset;
          Ok (c, current, 0)
        else
          current ← get_next_chain_ancestor_unchecked (ctx_store c) reindex_root current;
          path_len ← add_ 64 path_len 1;
          reclaim_up n c current slack_sum path_len
  end.

(** The way back down to the common ancestor. *)
Fixpoint reclaim_down (n : nat) (c : ctx) (current : Hash) (path_slack_alloc : Z) : result ctx :=
  match n with
  | O => OutOfFuel
  | Datatypes.S n =>
      current ← get_parent (ctx_store c) current;
      if current =? common_ancestor then Ok c
      else
        rem ← remaining (ctx_store c) current;
        slack_current ← size rem;
        offset ← sub_ 64 slack_current path_slack_alloc;
        c ← apply_interval_op c current offset op;
        c ← offset_sib c allocation_block current offset;
        reclaim_down n c current path_slack_alloc
  end.

Definition reclaim_interval (c : ctx) (chosen_child : Hash) : result ctx :=
  '(c, current, path_slack_alloc) ← reclaim_up fuel c chosen_child 0 0;
  reclaim_down fuel c current path_slack_alloc.
End reclaim.

Definition reclaim_interval_before (c : ctx) (allocation_block common_ancestor chosen_child reindex_root : Hash)
    (required_allocation : Z) : result ctx :=
  reclaim_interval interval_remaining_before increase_start offset_siblings_before
    allocation_block common_ancestor reindex_root required_allocation c chosen_child.

Definition reclaim_interval_after (c : ctx) (allocation_block common_ancestor chosen_child reindex_root : Hash)
    (required_allocation : Z) : result ctx :=
  reclaim_interval interval_remaining_after decrease_end offset_siblings_after
    allocation_block common_ancestor reindex_root required_allocation c chosen_child.

Definition reindex_intervals_earlier_than_root (c : ctx) (allocation_block reindex_root common_ancestor : Hash)
    (required_allocation : Z) : result ctx :=
  chosen_child ← get_next_chain_ancestor_unchecked (ctx_store c) reindex_root common_ancestor;
  block_interval ← get_interval (ctx_store c) allocation_block;
  chosen_interval ← get_interval (ctx_store c) chosen_child;
  if start block_interval <? start chosen_interval
  then reclaim_interval_before c allocation_block common_ancestor chosen_child reindex_root required_allocation
  else reclaim_interval_after c allocation_block common_ancestor chosen_child reindex_root required_allocation.

(** The search of the first ancestor with enough space, followed by the
    propagation or by the reclaim along the chain of the reindex root. *)
Fixpoint reindex_loop (n : nat) (c : ctx) (current reindex_root : Hash) : result ctx :=
  match n with
  | O => OutOfFuel
  | Datatypes.S n =>
      current_interval ← get_interval (ctx_store c) current;
      c ← count_subtrees c current;
      subtree_size ← unwrap (subtree_sizes c !! current);
      sz ← size current_interval;
      if subtree_size <=? sz then propagate_interval c current
      else
        parent ← get_parent (ctx_store c) current;
        if parent =? NONE then Err DataOverflow
        else if current =? reindex_root then Err DataOverflow
        else
          above ← is_strict_chain_ancestor_of (ctx_store c) parent reindex_root;
          if (above : bool)
          then reindex_intervals_earlier_than_root c current reindex_root parent subtree_size
          else reindex_loop n c parent reindex_root
  end.

Definition reindex_intervals (c : ctx) (new_child reindex_root : Hash) : result ctx :=
  reindex_loop fuel c new_child reindex_root.

(** [map(|block| { self.count_subtrees(block)?; Ok(self.subtree_sizes[&block]) })]. *)
Fixpoint count_all (c : ctx) (blocks : list Hash) : result (ctx * list Z) :=
  match blocks with
  | [] => Ok (c, [])
  | b :: blocks =>
      c ← count_subtrees c b;
      sz ← unwrap (subtree_sizes c !! b);
      '(c, szs) ← count_all c blocks;
      Ok (c, sz :: szs)
  end.

(** [set_interval(c, ci)?; propagate_interval(c)?] for each pair. *)
Definition set_and_propagate (c : ctx) (x : Hash * Interval) : result ctx :=
  s ← set_interval (ctx_store c) x.1 x.2;
  propagate_interval (with_store c s) x.1.

Definition tighten_intervals_before (c : ctx) (parent : Hash) (children_before : list Hash) : result (ctx * Z) :=
  '(c, sizes) ← count_all c children_before;
  sum ← foldM (add_ 64) 0 sizes;
  i ← get_interval (ctx_store c) parent;
  b ← add_ 64 (start i) (slack c);
  e ← add_ 64 b sum;
  e ← sub_ 64 e 1;
  intervals ← split_exact (mkInterval b e) sizes;
  c ← foldM set_and_propagate c (zip children_before intervals);
  Ok (c, sum).

Definition tighten_intervals_after (c : ctx) (parent : Hash) (children_after : list Hash) : result (ctx * Z) :=
  '(c, sizes) ← count_all c children_after;
  sum ← foldM (add_ 64) 0 sizes;
  i ← get_interval (ctx_store c) parent;
  e ← sub_ 64 (end_ i) (slack c);
  b ← sub_ 64 e sum;
  e ← sub_ 64 e 1;
  intervals ← split_exact (mkInterval b e) sizes;
  c ← foldM set_and_propagate c (zip children_after intervals);
  Ok (c, sum).

Definition expand_interval_to_chosen (c : ctx) (parent child : Hash)
    (siblings_before_subtrees_sum siblings_after_subtrees_sum : Z) (is_final_reindex_root : bool) : result ctx :=
  i ← get_interval (ctx_store c) parent;
  b ← add_ 64 (start i) siblings_before_subtrees_sum;
  b ← add_ 64 b (slack c);
  e ← sub_ 64 (end_ i) siblings_after_subtrees_sum;
  e ← sub_ 64 e (slack c);
  e ← sub_ 64 e 1;
  let allocation := mkInterval b e in
  current ← get_interval (ctx_store c) child;
  c ← (if is_final_reindex_root && negb (contains allocation current) then
         nb ← add_ 64 b (slack c);
         ne ← sub_ 64 e (slack c);
         set_and_propagate c (child, mkInterval nb ne)
       else Ok c);
  s ← set_interval (ctx_store c) child allocation;
  Ok (with_store c s).

Definition concentrate_interval (c : ctx) (parent child : Hash) (is_final_reindex_root : bool) : result ctx :=
  cs ← get_children (ctx_store c) parent;
  '(siblings_before, siblings_after) ← split_children cs child;
  '(c, before_sum) ← tighten_intervals_before c parent siblings_before;
  '(c, after_sum) ← tighten_intervals_after c parent siblings_after;
  expand_interval_to_chosen c parent child before_sum after_sum is_final_reindex_root.

(** ** The tree *)

Definition add_tree_block (s : S) (new_block parent : Hash) (reindex_slack : Z) : result S :=
  remaining ← interval_remaining_after s parent;
  s ← append_child s parent new_block;
  parent_height ← get_height s parent;
  h ← add_ 64 parent_height 1;
  empty ← is_empty remaining;
  if (empty : bool) then
    s ← store_insert s new_block parent remaining h;
    reindex_root ← get_reindex_root s;
    c ← reindex_intervals (ctx_new s reindex_slack) new_block reindex_root;
    Ok (ctx_store c)
  else
    '(allocated, _) ← split_half remaining;
    store_insert s new_block parent allocated h.

Fixpoint common_ancestor_loop (n : nat) (s : S) (current reindex_root : Hash) : result Hash :=
  match n with
  | O => OutOfFuel
  | Datatypes.S n =>
      b ← is_chain_ancestor_of s current reindex_root;
      if (b : bool) then Ok current
      else
        current ← get_parent s current;
        common_ancestor_loop n s current reindex_root
  end.

Definition find_common_tree_ancestor (s : S) (block reindex_root : Hash) : result Hash :=
  common_ancestor_loop fuel s block reindex_root.

(** The walk from [next] towards [hint]. *)
Fixpoint next_root_loop (n : nat) (s : S) (hint : Hash) (hint_height reindex_depth : Z) (next : Hash) : result Hash :=
  match n with
  | O => OutOfFuel
  | Datatypes.S n =>
      child ← get_next_chain_ancestor_unchecked s hint next;
      child_height ← get_height s child;
      if hint_height <? child_height then Err DataInconsistency
      else if hint_height - child_height <? reindex_depth then Ok next
      else next_root_loop n s hint hint_height reindex_depth child
  end.

Definition find_next_reindex_root (s : S) (current hint : Hash) (reindex_depth reindex_slack : Z)
    : result (Hash * Hash) :=
  hint_height ← get_height s hint;
  on_chain ← is_chain_ancestor_of s current hint;
  if negb on_chain then
    current_height ← get_height s current;
    if (hint_height <? current_height) || (hint_height - current_height <? reindex_slack) then Ok (current, current)
    else
      common ← find_common_tree_ancestor s hint current;
      next ← next_root_loop fuel s hint hint_height reindex_depth common;
      Ok (common, next)
  else
    next ← next_root_loop fuel s hint hint_height reindex_depth current;
    Ok (current, next).

Fixpoint concentrate_loop (n : nat) (s : S) (ancestor next : Hash) (reindex_slack : Z) : result S :=
  match n with
  | O => OutOfFuel
  | Datatypes.S n =>
      if ancestor =? next then Ok s
      else
        child ← get_next_chain_ancestor_unchecked s next ancestor;
        c ← concentrate_interval (ctx_new s reindex_slack) ancestor child (child =? next);
        concentrate_loop n (ctx_store c) child next reindex_slack
  end.

Definition try_advancing_reindex_root (s : S) (hint : Hash) (reindex_depth reindex_slack : Z) : result S :=
  current ← get_reindex_root s;
  '(ancestor, next) ← find_next_reindex_root s current hint reindex_depth reindex_slack;
  if current =? next then Ok s
  else
    s ← concentrate_loop fuel s ancestor next reindex_slack;
    set_reindex_root s next.

(** ** Block operations *)

Definition init_with_params (s : S) (origin : Hash) (capacity : Interval) : result S :=
  b ← has s origin;
  if (b : bool) then Ok s else store_init s origin capacity.

Definition init (s : S) : result S := init_with_params s ORIGIN Interval_maximal.

Definition insert_to_future_covering_set (s : S) (merged_block new_block : Hash) : result S :=
  fcs ← get_future_covering_set s merged_block;
  r ← binary_search_descendant s fcs new_block;
  match r with
  | Found _ _ => Err DataInconsistency
  | NotFound i => insert_future_covering_item s merged_block new_block i
  end.

Definition add_dag_block (s : S) (new_block : Hash) (mergeset : list Hash) : result S :=
  foldM (fun s merged_block => insert_to_future_covering_set s merged_block new_block) s mergeset.

Definition add_block_with_params (s : S) (new_block selected_parent : Hash) (mergeset : list Hash)
    (reindex_slack : Z) : result S :=
  s ← add_tree_block s new_block selected_parent reindex_slack;
  add_dag_block s new_block mergeset.

Definition add_block (s : S) (new_block selected_parent : Hash) (mergeset : list Hash) : result S :=
  add_block_with_params s new_block selected_parent mergeset DEFAULT_REINDEX_SLACK.

Definition hint_virtual_selected_parent (s : S) (hint : Hash) : result S :=
  try_advancing_reindex_root s hint DEFAULT_REINDEX_DEPTH DEFAULT_REINDEX_SLACK.

(** Steps 1 to 4 of [delete_block]: the block is replaced by its children. *)
Definition splice_out (s : S) (block parent : Hash) (block_index : nat) (cs mergeset : list Hash) : result S :=
  s ← replace_child s parent block block_index cs;
  s ← foldM (fun s child => set_parent s child parent) s cs;
  foldM (fun s merged_block =>
    fcs ← get_future_covering_set s merged_block;
    r ← binary_search_descendant s fcs block;
    match r with
    | NotFound _ => Err DataInconsistency
    | Found _ i => replace_future_covering_item s merged_block block i cs
    end) s mergeset.

(** Step 5: the capacity of the block goes to its children, or to its left
    sibling. *)
Definition extend_intervals (s : S) (parent : Hash) (block_index : nat) (i : Interval) (cs : list Hash) : result S :=
  match cs with
  | [] =>
      match block_index with
      | O => Ok s
      | Datatypes.S k =>
          siblings ← get_children s parent;
          sibling ← unwrap (siblings !! k);
          sibling_interval ← get_interval s sibling;
          set_interval s sibling (mkInterval (start sibling_interval) (end_ i))
      end
  | [child] => set_interval s child i
  | first_child :: _ =>
      first_interval ← get_interval s first_child;
      s ← set_interval s first_child (mkInterval (start i) (end_ first_interval));
      last_child ← unwrap (last cs);
      last_interval ← get_interval s last_child;
      set_interval s last_child (mkInterval (start last_interval) (end_ i))
  end.

Definition delete_block (s : S) (block : Hash) (mergeset : list Hash) : result S :=
  i ← get_interval s block;
  parent ← get_parent s block;
  cs ← get_children s block;
  siblings ← get_children s parent;
  r ← binary_search_descendant s siblings block;
  match r with
  | NotFound _ => Err DataInconsistency
  | Found _ block_index =>
      s ← splice_out s block parent block_index cs mergeset;
      s ← extend_intervals s parent block_index i cs;
      store_delete s block
  end.
End reachability.
