(* ===== verification/ReachTree.v ===== *)
(** * The reachability tree

    The invariant of the reachability store and what the queries of
    [inquirer.rs] compute under it: the blocks form a tree through [parent] and
    [children], and the interval of a block strictly contains the intervals of
    its children, which are ordered and disjoint.  A chain query is then the
    tree-ancestor relation. *)
From S2P Require Import Prelude Tx Interval Slice ReachStore Reachability.
#[local] Open Scope Z_scope.

Notation blocks := (gmap Hash MemoryReachabilityData).

(** ** Shape *)

(** The parts of a block, with defaults for a missing one. *)
Definition kids (m : blocks) (h : Hash) : list Hash := default [] (children <$> m !! h).
Definition par (m : blocks) (h : Hash) : Hash := default NONE (parent <$> m !! h).
Definition iv (m : blocks) (h : Hash) : Interval := default Interval_empty (interval <$> m !! h).
Definition ht (m : blocks) (h : Hash) : Z := default 0 (height <$> m !! h).
Definition fcs (m : blocks) (h : Hash) : list Hash := default [] (future_covering_set <$> m !! h).

(** The tree: every block but the root is listed by its parent, and heights
    grow from parent to child (by more than one after a deletion). *)
Record tree (m : blocks) (root : Hash) : Prop := {
  tree_root : root ∈ dom m;
  tree_root_par : par m root = NONE;
  tree_none : NONE ∉ dom m;
  tree_child : forall p c, c ∈ kids m p -> c ∈ dom m /\ par m c = p /\ ht m p < ht m c;
  tree_parent : forall h, h ∈ dom m -> h <> root -> par m h ∈ dom m /\ h ∈ kids m (par m h);
  tree_nodup : forall p, NoDup (kids m p);
  tree_height : forall h, 0 <= ht m h
}.

(** [anc m a b]: [a] is [b] or a tree ancestor of [b]. *)
Definition child_of (m : blocks) (p c : Hash) : Prop := c ∈ kids m p.
Definition anc (m : blocks) : Hash -> Hash -> Prop := rtc (child_of m).

Lemma anc_closed (m : blocks) (P : Hash -> Prop) a b :
  anc m a b -> P a -> (forall p c, P p -> c ∈ kids m p -> P c) -> P b.
Proof. induction 1 as [|a c b Hac _ IH]; [done|]. intros Ha Hs. apply IH; [by eapply Hs|done]. Qed.

Section tree_lemmas.
Context (m : blocks) (root : Hash) (T : tree m root).

Lemma kids_dom p c : c ∈ kids m p -> p ∈ dom m.
Proof.
  unfold kids. intros Hc. apply elem_of_dom. destruct (m !! p); [eauto|]. cbn in Hc. by apply elem_of_nil in Hc.
Qed.

Lemma root_not_child p : root ∉ kids m p.
Proof.
  intros Hc. destruct (tree_child _ _ T _ _ Hc) as (_ & Hp & _).
  rewrite (tree_root_par _ _ T) in Hp. subst p. apply kids_dom in Hc. by apply (tree_none _ _ T).
Qed.

Lemma anc_dom a b : anc m a b -> a ∈ dom m -> b ∈ dom m.
Proof. induction 1 as [|a c b Hac _ IH]; [done|]. intros _. apply IH. by apply (tree_child _ _ T) in Hac as (? & _). Qed.

Lemma anc_dom_l a b : anc m a b -> b ∈ dom m -> a ∈ dom m.
Proof. intros H Hb. inversion H as [|? c]; subst; [done|]. by eapply kids_dom. Qed.

Lemma anc_height a b : anc m a b -> a = b \/ ht m a < ht m b.
Proof.
  induction 1 as [|a c b Hac _ IH]; [by left|].
  apply (tree_child _ _ T) in Hac as (_ & _ & Hh). right. destruct IH as [->|]; lia.
Qed.

Lemma anc_height_le a b : anc m a b -> ht m a <= ht m b.
Proof. intros [->|]%anc_height; lia. Qed.

Lemma anc_antisym a b : anc m a b -> anc m b a -> a = b.
Proof. intros [->|H1]%anc_height [?|H2]%anc_height; [done..|lia]. Qed.

(** The last step of a chain goes through the parent. *)
Lemma anc_par a b : anc m a b -> a = b \/ (b ∈ kids m (par m b) /\ anc m a (par m b)).
Proof.
  intros H. apply rtc_inv_r in H as [->|(p & Hap & Hpb)]; [by left|right].
  unfold child_of in Hpb. destruct (tree_child _ _ T _ _ Hpb) as (_ & Hp & _). by rewrite Hp.
Qed.

Lemma anc_kid p c : c ∈ kids m p -> anc m p c.
Proof. intros. by apply rtc_once. Qed.

(** The ancestors of a block are linearly ordered. *)
Lemma anc_linear a b x : anc m a x -> anc m b x -> anc m a b \/ anc m b a.
Proof.
  intros Ha. revert b. induction Ha as [|a c x Hac Hcx IH]; intros b Hb; [by right|].
  destruct (IH b Hb) as [Hcb|Hbc]; [left; by eapply rtc_l|].
  apply anc_par in Hbc as [->|[_ Hbp]]; [left; by apply rtc_once|].
  unfold child_of in Hac. destruct (tree_child _ _ T _ _ Hac) as (_ & <- & _). by right.
Qed.

(** Two blocks are on one chain, or below two different children of a block. *)
Lemma kids_disjoint p c1 c2 x : c1 ∈ kids m p -> c2 ∈ kids m p -> anc m c1 x -> anc m c2 x -> c1 = c2.
Proof.
  intros H1 H2 A1 A2.
  assert (forall c c', c ∈ kids m p -> c' ∈ kids m p -> anc m c c' -> c = c') as Haux.
  { intros c c' Hc Hc' A. apply anc_par in A as [->|[_ A]]; [done|].
    destruct (tree_child _ _ T _ _ Hc) as (_ & _ & Hh).
    destruct (tree_child _ _ T _ _ Hc') as (_ & Hp & _). rewrite Hp in A. apply anc_height_le in A. lia. }
  destruct (anc_linear _ _ _ A1 A2); [|symmetry]; by eapply Haux.
Qed.

Lemma root_anc h : h ∈ dom m -> anc m root h.
Proof.
  intros Hh. remember (Z.to_nat (ht m h)) as n eqn:Hn. revert h Hh Hn.
  induction n as [n IH] using lt_wf_ind. intros h Hh ->.
  destruct (decide (h = root)) as [->|Hne]; [done|].
  destruct (tree_parent _ _ T h Hh Hne) as [Hp Hk].
  destruct (tree_child _ _ T _ _ Hk) as (_ & _ & Hlt). pose proof (tree_height _ _ T (par m h)).
  eapply rtc_r; [|exact Hk]. eapply IH; [|done|done]. lia.
Qed.

(** Ancestry is decidable: follow the parents. *)
Lemma anc_em a b : anc m a b \/ ~ anc m a b.
Proof.
  remember (Z.to_nat (ht m b)) as n eqn:Hn. revert b Hn. induction n as [n IH] using lt_wf_ind. intros b ->.
  destruct (decide (a = b)) as [->|Hne]; [left; apply rtc_refl|].
  destruct (decide (b ∈ kids m (par m b))) as [Hk|Hk].
  - destruct (tree_child _ _ T _ _ Hk) as (_ & _ & Hlt). pose proof (tree_height _ _ T (par m b)).
    destruct (IH (Z.to_nat (ht m (par m b))) ltac:(lia) (par m b) eq_refl) as [Hp|Hp].
    + left. by eapply rtc_r.
    + right. intros [?|[_ ?]]%anc_par; done.
  - right. intros [?|[? _]]%anc_par; done.
Qed.

Lemma diverge a b : a ∈ dom m -> b ∈ dom m ->
  anc m a b \/ anc m b a \/
  exists p c1 c2, c1 ∈ kids m p /\ c2 ∈ kids m p /\ c1 <> c2 /\ anc m c1 a /\ anc m c2 b.
Proof.
  intros Ha. revert b.
  assert (forall x, anc m x a -> forall b, anc m x b ->
    anc m a b \/ anc m b a \/ exists p c1 c2, c1 ∈ kids m p /\ c2 ∈ kids m p /\ c1 <> c2 /\ anc m c1 a /\ anc m c2 b) as Hgen.
  { induction 1 as [|x c a Hxc Hca IH]; intros b Hb; [by left|].
    inversion Hb as [|? c' ? Hxc' Hc'b]; subst.
    - right; left. by eapply rtc_l.
    - destruct (decide (c = c')) as [->|Hne]; [by apply IH|]. right; right. by exists x, c, c'. }
  intros b Hb. apply (Hgen root); by apply root_anc.
Qed.

(** Induction from the leaves to the root. *)
Lemma tree_ind_down (P : Hash -> Prop) :
  (forall h, h ∈ dom m -> (forall c, c ∈ kids m h -> P c) -> P h) -> forall h, h ∈ dom m -> P h.
Proof.
  intros Hstep.
  assert (exists H, forall h, ht m h <= H) as [top Htop].
  { clear. unfold ht. induction m as [|h d m' Hd IH] using map_ind.
    - exists 0. intros h. by rewrite lookup_empty.
    - destruct IH as [H IH]. exists (Z.max H (height d)). intros x.
      destruct (decide (x = h)) as [->|Hne].
      + rewrite lookup_insert_eq. cbn. lia.
      + rewrite lookup_insert_ne by done. specialize (IH x). lia. }
  intros h. remember (Z.to_nat (top - ht m h)) as n eqn:Hn. revert h Hn.
  induction n as [n IH] using lt_wf_ind. intros h -> Hh. apply Hstep; [done|].
  intros c Hc. destruct (tree_child _ _ T _ _ Hc) as (Hcd & _ & Hlt).
  specialize (Htop c). eapply IH; [|done|done]. lia.
Qed.
End tree_lemmas.

(** ** Intervals *)

(** [packed m lo hi cs]: the intervals of [cs] lie in [lo, hi], in order and
    disjoint (an interval may be empty). *)
Fixpoint packed (m : blocks) (lo hi : Z) (cs : list Hash) : Prop :=
  match cs with
  | [] => True
  | c :: cs =>
      lo <= start (iv m c) /\ start (iv m c) - 1 <= end_ (iv m c) /\ end_ (iv m c) <= hi /\
      packed m (end_ (iv m c) + 1) hi cs
  end.

Definition solid (m : blocks) (h : Hash) : Prop := 0 < isize (iv m h).

Definition block_ok (m : blocks) (h : Hash) : Prop :=
  wf_interval (iv m h) /\ packed m (start (iv m h)) (end_ (iv m h) - 1) (kids m h).

Definition laminar (m : blocks) : Prop := forall h, h ∈ dom m -> block_ok m h.

Lemma packed_in m lo hi cs c :
  packed m lo hi cs -> c ∈ cs ->
  lo <= start (iv m c) /\ start (iv m c) - 1 <= end_ (iv m c) /\ end_ (iv m c) <= hi.
Proof.
  revert lo. induction cs as [|c' cs IH]; intros lo Hp Hc; [by apply elem_of_nil in Hc|].
  destruct Hp as (H1 & H2 & H3 & Hp). apply elem_of_cons in Hc as [->|Hc]; [done|].
  destruct (IH _ Hp Hc). lia.
Qed.

Lemma packed_app m lo hi cs1 cs2 :
  packed m lo hi (cs1 ++ cs2) <->
  packed m lo hi cs1 /\ packed m (match last cs1 with Some c => end_ (iv m c) + 1 | None => lo end) hi cs2.
Proof.
  revert lo. induction cs1 as [|c cs1 IH]; intros lo; cbn [app packed]; [cbn; tauto|].
  rewrite IH. destruct cs1 as [|c' cs1]; [cbn; tauto|]. rewrite last_cons_cons. 
  destruct (last (c' :: cs1)) eqn:E; [tauto|]. by apply last_None in E.
Qed.

Lemma packed_weaken m lo lo' hi hi' cs : lo' <= lo -> hi <= hi' -> packed m lo hi cs -> packed m lo' hi' cs.
Proof.
  revert lo lo'. induction cs as [|c cs IH]; intros lo lo' Hl Hh; cbn; [done|].
  intros (H1 & H2 & H3 & H4). split_and!; try lia. eapply IH; [| |exact H4]; lia.
Qed.

Lemma packed_lt m lo hi cs i j a b :
  packed m lo hi cs -> cs !! i = Some a -> cs !! j = Some b -> (i < j)%nat ->
  end_ (iv m a) < start (iv m b).
Proof.
  intros Hp Ha Hb Hij. rewrite <-(take_drop_middle cs i a Ha) in Hp.
  apply packed_app in Hp as [_ (_ & _ & _ & Hp)].
  assert (b ∈ drop (S i) cs) as Hin.
  { apply list_elem_of_lookup. exists (j - S i)%nat. rewrite lookup_drop. rewrite <-Hb. f_equal. lia. }
  destruct (packed_in _ _ _ _ _ Hp Hin). lia.
Qed.

(** Only the intervals of the listed blocks matter. *)
Lemma packed_ext m m' lo hi cs :
  (forall c, c ∈ cs -> iv m' c = iv m c) -> packed m lo hi cs -> packed m' lo hi cs.
Proof.
  revert lo. induction cs as [|c cs IH]; intros lo Heq; cbn; [done|].
  rewrite Heq by left. intros (H1 & H2 & H3 & H4). split_and!; try done. apply IH; [|done].
  intros c' Hc'. apply Heq. by right.
Qed.

Section laminar_lemmas.
Context (m : blocks) (root : Hash) (T : tree m root) (L : laminar m).

Lemma kid_contained p c : c ∈ kids m p ->
  start (iv m p) <= start (iv m c) /\ start (iv m c) - 1 <= end_ (iv m c) /\ end_ (iv m c) < end_ (iv m p).
Proof.
  intros Hc. destruct (L p (kids_dom _ _ _ Hc)) as [_ Hp].
  destruct (packed_in _ _ _ _ _ Hp Hc). lia.
Qed.

Lemma anc_contained a b : anc m a b ->
  start (iv m a) <= start (iv m b) /\ end_ (iv m b) <= end_ (iv m a) /\ (a <> b -> end_ (iv m b) < end_ (iv m a)).
Proof.
  induction 1 as [|a c b Hac _ IH]; [lia|]. apply kid_contained in Hac. lia.
Qed.

Lemma siblings_disjoint p c1 c2 : c1 ∈ kids m p -> c2 ∈ kids m p -> c1 <> c2 ->
  end_ (iv m c1) < start (iv m c2) \/ end_ (iv m c2) < start (iv m c1).
Proof.
  intros H1 H2 Hne. destruct (L p (kids_dom _ _ _ H1)) as [_ Hp].
  apply list_elem_of_lookup in H1 as [i Hi]. apply list_elem_of_lookup in H2 as [j Hj].
  destruct (lt_eq_lt_dec i j) as [[Hlt| ->]|Hlt]; [left| congruence |right]; by eapply packed_lt.
Qed.

(** A non-empty interval meets another one only along a chain. *)
Lemma contains_anc a b : a ∈ dom m -> b ∈ dom m -> solid m b ->
  contains (iv m a) (iv m b) = true -> anc m a b.
Proof.
  intros Ha Hb Hs Hc. unfold contains in Hc. apply andb_true_iff in Hc as [H1 H2].
  apply Z.leb_le in H1, H2. unfold solid, isize in Hs.
  destruct (diverge _ _ T a b Ha Hb) as [?|[Hba|(p & c1 & c2 & K1 & K2 & Hne & A1 & A2)]]; [done| |exfalso].
  - destruct (decide (b = a)) as [->|Hne]; [apply rtc_refl|].
    apply anc_contained in Hba as (_ & _ & Hlt). specialize (Hlt Hne). lia.
  - apply anc_contained in A1, A2. destruct (siblings_disjoint _ _ _ K1 K2 Hne); lia.
Qed.

Lemma contains_iff a b : a ∈ dom m -> b ∈ dom m -> solid m b ->
  contains (iv m a) (iv m b) = true <-> anc m a b.
Proof.
  intros Ha Hb Hs. split; [by apply contains_anc|].
  intros A. apply anc_contained in A. unfold contains. apply andb_true_iff. rewrite !Z.leb_le. lia.
Qed.

Lemma strictly_contains_iff a b : a ∈ dom m -> b ∈ dom m -> solid m b ->
  strictly_contains (iv m a) (iv m b) = true <-> anc m a b /\ a <> b.
Proof.
  intros Ha Hb Hs. unfold strictly_contains. rewrite andb_true_iff, Z.leb_le, Z.ltb_lt. split.
  - intros [H1 H2]. split; [|intros ->; lia]. apply contains_anc; [done..|].
    unfold contains. apply andb_true_iff. rewrite !Z.leb_le. lia.
  - intros [A Hne]. apply anc_contained in A. lia.
Qed.
End laminar_lemmas.

(** ** Reads of the in-memory store *)

Section reads.
Context (s : MemoryReachabilityStore).
#[local] Notation m := (mem_map s).

Lemma get_interval_ok h : h ∈ dom m -> get_interval s h = Ok (iv m h).
Proof. intros [d Hd]%elem_of_dom. cbn. unfold mem_get_interval, mem_get_data, iv. by rewrite Hd. Qed.
Lemma get_parent_ok h : h ∈ dom m -> get_parent s h = Ok (par m h).
Proof. intros [d Hd]%elem_of_dom. cbn. unfold mem_get_parent, mem_get_data, par. by rewrite Hd. Qed.
Lemma get_children_ok h : h ∈ dom m -> get_children s h = Ok (kids m h).
Proof. intros [d Hd]%elem_of_dom. cbn. unfold mem_get_children, mem_get_data, kids. by rewrite Hd. Qed.
Lemma get_height_ok h : h ∈ dom m -> get_height s h = Ok (ht m h).
Proof. intros [d Hd]%elem_of_dom. cbn. unfold mem_get_height, mem_get_data, ht. by rewrite Hd. Qed.
Lemma get_fcs_ok h : h ∈ dom m -> get_future_covering_set s h = Ok (fcs m h).
Proof. intros [d Hd]%elem_of_dom. cbn. unfold mem_get_future_covering_set, mem_get_data, fcs. by rewrite Hd. Qed.
End reads.

#[export] Hint Rewrite get_interval_ok get_parent_ok get_children_ok get_height_ok get_fcs_ok using done : reach.

(** ** Queries *)

(** What [assert_hashes_ordered] checks in debug builds, and strictly
    increasing starts. *)
Definition ordered (m : blocks) (hs : list Hash) : Prop :=
  forall i j a b, hs !! i = Some a -> hs !! j = Some b -> (i < j)%nat ->
    end_ (iv m a) < start (iv m b) /\ start (iv m a) < start (iv m b).

Section queries.
Context (s : MemoryReachabilityStore) (root : Hash).
#[local] Notation m := (mem_map s).
Context (T : tree m root) (L : laminar m).

Lemma chain_query_ok a b : a ∈ dom m -> b ∈ dom m -> solid m b ->
  exists r, is_chain_ancestor_of s a b = Ok r /\ (r = true <-> anc m a b).
Proof.
  intros Ha Hb Hs. unfold is_chain_ancestor_of. rewrite !get_interval_ok by done. run.
  eexists. split; [done|]. by eapply contains_iff.
Qed.

Lemma strict_chain_query_ok a b : a ∈ dom m -> b ∈ dom m -> solid m b ->
  exists r, is_strict_chain_ancestor_of s a b = Ok r /\ (r = true <-> anc m a b /\ a <> b).
Proof.
  intros Ha Hb Hs. unfold is_strict_chain_ancestor_of. rewrite !get_interval_ok by done. run.
  eexists. split; [done|]. by eapply strictly_contains_iff.
Qed.

(** The binary search over an ordered list finds the only element that is a
    chain ancestor of [d], or the insertion index of [d]. *)
Lemma search_descendant_ok hs d :
  d ∈ dom m -> solid m d -> (forall h, h ∈ hs -> h ∈ dom m) -> ordered m hs ->
  (forall h, h ∈ hs -> start (iv m h) = end_ (iv m d) -> solid m h) ->
  exists r, binary_search_descendant s hs d = Ok r /\
    match r with
    | Found h i => hs !! i = Some h /\ anc m h d
    | NotFound i => (i <= length hs)%nat /\ (forall h, h ∈ hs -> ~ anc m h d) /\
        forall j h, hs !! j = Some h ->
          ((j < i)%nat -> start (iv m h) < end_ (iv m d)) /\ ((i <= j)%nat -> end_ (iv m d) < start (iv m h))
    end.
Proof.
  intros Hd Hs Hdom Hord Hbelow. unfold binary_search_descendant. rewrite get_interval_ok by done. run.
  destruct (binary_search_ok (search_key s) (fun h => start (iv m h)) (end_ (iv m d)) hs) as (r & -> & Hr).
  { intros h Hh. unfold search_key. by rewrite get_interval_ok by auto. }
  { intros i j a b Ha Hb Hij. by eapply Hord. }
  run. unfold solid, isize in Hs. destruct r as [i|i].
  - destruct Hr as (h & Hi & Heq). rewrite Hi. run. eexists. split; [done|]. cbn. split; [done|].
    assert (h ∈ hs) as Hin by (apply list_elem_of_lookup; eauto).
    specialize (Hbelow _ Hin Heq). unfold solid, isize in Hbelow.
    destruct (diverge _ _ T h d (Hdom _ Hin) Hd) as [?|[Hdh|(p & c1 & c2 & K1 & K2 & Hne & A1 & A2)]]; [done| |].
    + destruct (decide (d = h)) as [->|Hne]; [apply rtc_refl|].
      eapply anc_contained in Hdh as (_ & _ & Hlt); [|done]. specialize (Hlt Hne). lia.
    + eapply anc_contained in A1, A2; [|done..]. destruct (siblings_disjoint _ L _ _ _ K1 K2 Hne); lia.
  - destruct Hr as [Hlen Hr].
    assert (forall j h, hs !! j = Some h -> anc m h d -> S j = i) as Hcand.
    { intros j h Hj A. destruct (Hr j h Hj) as [R1 R2]. apply (anc_contained _ L) in A.
      destruct (Nat.lt_trichotomy (S j) i) as [Hlt|[?|Hgt]]; [exfalso|done|exfalso].
      - destruct (lookup_lt_is_Some_2 hs (S j)) as [h' Hj']; [lia|].
        destruct (Hord _ _ _ _ Hj Hj') as [O1 _]; [lia|]. destruct (Hr _ _ Hj') as [R3 _]. lia.
      - lia. }
    destruct i as [|i]; [eexists; split; [done|]; split_and!; [lia| |done]|].
    { intros h [j Hj]%list_elem_of_lookup A. by specialize (Hcand _ _ Hj A). }
    destruct (lookup_lt_is_Some_2 hs i) as [h Hi]; [lia|]. rewrite Hi. run.
    assert (h ∈ hs) as Hin by (apply list_elem_of_lookup; eauto).
    destruct (chain_query_ok h d) as (r & -> & Hb); [by auto|done|done|]. run.
    eexists. split; [done|]. destruct r; [split; [done|by apply Hb]|].
    split_and!; [done| |done]. intros h' [j Hj]%list_elem_of_lookup A.
    specialize (Hcand _ _ Hj A). injection Hcand as ->. rewrite Hi in Hj. injection Hj as ->. naive_solver.
Qed.

(** The children of a block form an ordered list as long as only the last one
    may be empty. *)
Lemma kids_ordered p : p ∈ dom m ->
  (forall i c c', kids m p !! i = Some c -> kids m p !! S i = Some c' -> solid m c) -> ordered m (kids m p).
Proof.
  intros Hp Hsol i j a b Ha Hb Hij. destruct (L p Hp) as [_ Hpk].
  pose proof (packed_lt _ _ _ _ _ _ _ _ Hpk Ha Hb Hij) as Hlt. split; [done|].
  destruct (lookup_lt_is_Some_2 (kids m p) (S i)) as [c' Hc'];
    [apply lookup_lt_Some in Hb; lia|].
  specialize (Hsol _ _ _ Ha Hc'). unfold solid, isize in Hsol. lia.
Qed.

Lemma next_chain_ancestor_ok d a :
  anc m a d -> a <> d -> d ∈ dom m -> solid m d ->
  (forall i c c', kids m a !! i = Some c -> kids m a !! S i = Some c' -> solid m c) ->
  (forall c, c ∈ kids m a -> start (iv m c) = end_ (iv m d) -> solid m c) ->
  exists c, get_next_chain_ancestor_unchecked s d a = Ok c /\ c ∈ kids m a /\ anc m c d.
Proof.
  intros A Hne Hd Hs Hsol Hsol'. unfold get_next_chain_ancestor_unchecked.
  pose proof (anc_dom_l _ _ _ A Hd) as Ha. rewrite get_children_ok by done. run.
  destruct (search_descendant_ok (kids m a) d) as (r & -> & Hr); try done.
  { intros h Hh. by apply (tree_child _ _ T) in Hh as (? & _). }
  { by apply kids_ordered. }
  run. destruct r as [i|h i].
  - destruct Hr as (_ & Hr & _). inversion A as [|? c ? Hc Hcd]; subst; [done|]. by apply Hr in Hc.
  - destruct Hr as [Hi Hh]. exists h. split_and!; [done| |done]. apply list_elem_of_lookup. eauto.
Qed.
End queries.
