(* ===== verification/ReachReindex.v ===== *)
(** * Subtree counting and interval propagation

    The two breadth-first loops of [reindex.rs].  [count_subtrees] terminates
    and computes the size of every subtree, as the recursive definition its
    comment gives; [propagate_interval] terminates and lays out the whole
    subtree of a block within the interval of the block. *)
From S2P Require Import Prelude Tx Interval Slice ReachStore Reachability ReachTree.
#[local] Open Scope Z_scope.

(** ** Subtree sizes *)

(** The recursive reading of [count_subtrees]. *)
Fixpoint subtree_size (n : nat) (m : blocks) (h : Hash) : Z :=
  match n with
  | O => 0
  | S n => 1 + Zsum (subtree_size n m <$> kids m h)
  end.

(** [sz] gives every block one more than the sizes of its children. *)
Definition sizing (m : blocks) (sz : Hash -> Z) : Prop :=
  forall h, h ∈ dom m -> sz h = 1 + Zsum (sz <$> kids m h).

Lemma filter_ext_in {A} (P P' : A -> Prop) `{!forall x, Decision (P x), !forall x, Decision (P' x)} (l : list A) :
  (forall x, x ∈ l -> P' x <-> P x) -> filter P' l = filter P l.
Proof.
  induction l as [|x l IH]; intros Heq; [done|].
  pose proof (Heq x ltac:(left)). destruct (decide (P x)).
  - rewrite !filter_cons_True by naive_solver. f_equal. apply IH. intros; apply Heq; by right.
  - rewrite !filter_cons_False by naive_solver. apply IH. intros; apply Heq; by right.
Qed.

Lemma filter_none {A} (P : A -> Prop) `{!forall x, Decision (P x)} (l : list A) :
  (forall x, x ∈ l -> ~ P x) -> filter P l = [].
Proof.
  induction l as [|x l IH]; intros Hn; [done|].
  rewrite filter_cons_False by (apply Hn; left). apply IH. intros; apply Hn; by right.
Qed.

Lemma filter_grow {A} (P P' : A -> Prop) `{!forall x, Decision (P x), !forall x, Decision (P' x)} (l : list A) p :
  NoDup l -> p ∈ l -> ~ P p -> P' p -> (forall x, x <> p -> P' x <-> P x) ->
  length (filter P' l) = S (length (filter P l)).
Proof.
  intros Hnd Hin Hp Hp' Heq. induction Hnd as [|x l Hx Hnd IH]; [by apply elem_of_nil in Hin|].
  apply elem_of_cons in Hin as [<-|Hin].
  - rewrite filter_cons_True, filter_cons_False by done. cbn. f_equal. f_equal.
    apply filter_ext_in. intros y Hy. apply Heq. by intros ->.
  - assert (x <> p) by (by intros ->). destruct (decide (P x)).
    + rewrite !filter_cons_True by naive_solver. cbn. by rewrite IH.
    + rewrite !filter_cons_False by naive_solver. auto.
Qed.

Lemma filter_all {A} (P : A -> Prop) `{!forall x, Decision (P x)} (l : list A) :
  (length l <= length (filter P l))%nat -> forall x, x ∈ l -> P x.
Proof.
  induction l as [|x l IH]; intros Hlen y Hy; [by apply elem_of_nil in Hy|].
  pose proof (length_filter P l) as Hle. destruct (decide (P x)).
  - rewrite filter_cons_True in Hlen by done. cbn in Hlen.
    apply elem_of_cons in Hy as [->|Hy]; [done|]. apply IH; [lia|done].
  - rewrite filter_cons_False in Hlen by done. cbn in Hlen. lia.
Qed.

Lemma filter_missing {A} (P : A -> Prop) `{!forall x, Decision (P x)} (l : list A) :
  (length (filter P l) < length l)%nat -> exists x, x ∈ l /\ ~ P x.
Proof.
  induction l as [|x l IH]; cbn [length]; intros Hlen; [lia|].
  destruct (decide (P x)); [|exists x; split; [left|done]].
  rewrite filter_cons_True in Hlen by done. cbn in Hlen.
  destruct IH as (y & ? & ?); [lia|]. exists y. split; [by right|done].
Qed.

Section sizes.
Context (m : blocks) (root : Hash) (T : tree m root) (sz : Hash -> Z) (Hsz : sizing m sz).

Lemma sz_pos h : h ∈ dom m -> 1 <= sz h.
Proof.
  revert h. apply (tree_ind_down _ _ T). intros h Hh IH. rewrite Hsz by done.
  assert (0 <= Zsum (sz <$> kids m h)); [|lia]. apply Zsum_nonneg, Forall_fmap, Forall_forall.
  intros c Hc. cbn. specialize (IH c Hc). lia.
Qed.

Lemma kids_count h : h ∈ dom m -> Z.of_nat (length (kids m h)) < sz h.
Proof.
  intros Hh. rewrite Hsz by done.
  assert (forall c, c ∈ kids m h -> 1 <= sz c) as Hpos.
  { intros c Hc. apply sz_pos. by apply (tree_child _ _ T) in Hc as (? & _). }
  induction (kids m h) as [|c l IH]; zsum; cbn [length]; [lia|].
  specialize (IH ltac:(intros; apply Hpos; by right)). specialize (Hpos c ltac:(left)). lia.
Qed.

Lemma sz_kid p c : c ∈ kids m p -> sz c < sz p.
Proof.
  intros Hc. pose proof (kids_dom _ _ _ Hc) as Hp. rewrite (Hsz p) by done.
  assert (forall c, c ∈ kids m p -> 1 <= sz c) as Hpos.
  { intros c' Hc'. apply sz_pos. by apply (tree_child _ _ T) in Hc' as (? & _). }
  apply list_elem_of_split in Hc as (l1 & l2 & Hl). rewrite Hl in *. rewrite fmap_app. zsum.
  assert (forall l, (forall x, x ∈ l -> 1 <= sz x) -> 0 <= Zsum (sz <$> l)) as Hnn.
  { intros l Hl'. apply Zsum_nonneg, Forall_fmap, Forall_forall. intros x Hx. cbn. specialize (Hl' x Hx). lia. }
  pose proof (Hnn l1 ltac:(set_solver)). pose proof (Hnn l2 ltac:(set_solver)). lia.
Qed.

Lemma sz_anc a b : anc m a b -> sz b <= sz a.
Proof. induction 1 as [|a c b Hac _ IH]; [lia|]. apply sz_kid in Hac. lia. Qed.
End sizes.

(** The cache of sizes: its values are right, and it is closed under children. *)
Record sizes_ok (m : blocks) (sz : Hash -> Z) (sizes : gmap Hash Z) : Prop := {
  sizes_right : forall x v, sizes !! x = Some v -> x ∈ dom m /\ v = sz x;
  sizes_closed : forall x c, is_Some (sizes !! x) -> c ∈ kids m x -> is_Some (sizes !! c)
}.

(** ** [count_subtrees] *)

Section count.
Context (s : MemoryReachabilityStore) (root : Hash).
#[local] Notation m := (mem_map s).
Context (T : tree m root) (sz : Hash -> Z) (Hsz : sizing m sz).
Context (Hsmall : forall h, h ∈ dom m -> sz h < 2 ^ 64).
Context (B : Hash) (HB : B ∈ dom m).

(** A visited block is queued ([Q]), open (its children are queued, their sizes
    not all known: [O]) or finished. *)
Definition finished (Q : list Hash) (O : gset Hash) (c : Hash) : Prop := c ∉ Q /\ c ∉ O.
#[local] Instance finished_dec Q O c : Decision (finished Q O c).
Proof. unfold finished. apply _. Defined.

Definition finished_kids (Q : list Hash) (O : gset Hash) (o : Hash) : nat := length (filter (finished Q O) (kids m o)).

(** [lag x o]: the size of [x] is known but not yet counted at its parent [o]. *)
Definition lag (x : option Hash) (o : Hash) : bool :=
  match x with Some x => negb (x =? B) && (o =? par m x) | None => false end.

Record count_inv (x : option Hash) (Q : list Hash) (O V : gset Hash) (sizes counts : gmap Hash Z) : Prop := {
  ci_sizes : sizes_ok m sz sizes;
  ci_nodup : NoDup Q;
  ci_sep : forall q, q ∈ Q -> q ∉ O;
  ci_Q : forall q, q ∈ Q -> q ∈ V /\ (q <> B -> par m q ∈ O);
  ci_V : forall v, v ∈ V -> anc m B v /\ (v <> B -> par m v ∈ V /\ par m v ∉ Q);
  ci_O : forall o, o ∈ O -> o ∈ V /\ sizes !! o = None /\ (o <> B -> par m o ∈ O) /\ (forall c, c ∈ kids m o -> c ∈ V);
  ci_count : forall o, o ∈ O ->
    default 0 (counts !! o) + (if lag x o then 1 else 0) = Z.of_nat (finished_kids Q O o);
  ci_open : forall o, o ∈ O -> lag x o = false -> exists c, c ∈ kids m o /\ ~ finished Q O c;
  ci_fin : forall v, v ∈ V -> finished Q O v -> is_Some (sizes !! v);
  ci_counts : forall c, is_Some (counts !! c) -> c ∈ O \/ is_Some (sizes !! c);
  ci_B : B ∈ V
}.

Lemma kid_par p c : c ∈ kids m p -> par m c = p.
Proof. intros Hc. by apply (tree_child _ _ T) in Hc as (_ & ? & _). Qed.
Lemma kid_dom p c : c ∈ kids m p -> c ∈ dom m.
Proof. intros Hc. by apply (tree_child _ _ T) in Hc as (? & _). Qed.

(** A block below [B] other than [B] is a child of its parent. *)
Lemma below_kid v : anc m B v -> v <> B -> v ∈ kids m (par m v).
Proof. intros A Hne. destruct (anc_par _ _ T _ _ A) as [->|[? _]]; done. Qed.

(** Finishing [x] adds one finished child at its parent only. *)
Lemma finished_kids_grow Q O Q' O' x o :
  (forall c, c <> x -> finished Q' O' c <-> finished Q O c) -> finished Q' O' x -> ~ finished Q O x ->
  x ∈ kids m (par m x) ->
  Z.of_nat (finished_kids Q' O' o) = Z.of_nat (finished_kids Q O o) + (if o =? par m x then 1 else 0).
Proof.
  intros Heq H1 H2 Hk. unfold finished_kids. destruct (Z.eqb_spec o (par m x)) as [->|Hne].
  - rewrite (filter_grow (finished Q O) (finished Q' O') _ x); [lia|apply (tree_nodup _ _ T)|done..].
  - rewrite (filter_ext_in (finished Q O) (finished Q' O')); [lia|]. intros c Hc. apply Heq.
    intros ->. by rewrite (kid_par _ _ Hc) in Hne.
Qed.

Lemma mapM_sizes sizes cs :
  sizes_ok m sz sizes -> (forall c, c ∈ cs -> is_Some (sizes !! c)) ->
  mapM' (fun c => unwrap (sizes !! c)) cs = Ok (E := ReachabilityError) (sz <$> cs).
Proof.
  intros Hok. induction cs as [|c cs IH]; intros Hall; [done|]. cbn.
  destruct (Hall c ltac:(left)) as [v Hv]. rewrite Hv. run.
  rewrite IH by (intros; apply Hall; by right). run. by destruct (sizes_right _ _ _ Hok _ _ Hv) as [_ ->].
Qed.

Lemma sum_sizes p : p ∈ dom m ->
  foldM (add_ 64) 0 (sz <$> kids m p) = Ok (E := ReachabilityError) (Zsum (sz <$> kids m p)) /\
  add_ 64 (Zsum (sz <$> kids m p)) 1 = Ok (E := ReachabilityError) (sz p).
Proof.
  intros Hp. pose proof (Hsz p Hp) as He. pose proof (Hsmall p Hp).
  assert (Forall (fun x => 0 <= x) (sz <$> kids m p)) as Hnn.
  { apply Forall_fmap, Forall_forall. intros c Hc. cbn.
    pose proof (sz_pos _ _ T _ Hsz c (kid_dom _ _ Hc)). lia. }
  pose proof (Zsum_nonneg _ Hnn). split.
  - rewrite foldM_add64; [f_equal; lia|lia|done|lia].
  - unfold add_. rewrite checked_in by (unfold in_u; lia). f_equal. lia.
Qed.

(** A parent with children still to come: only its count changes. *)
Lemma push_stop x Q O V sizes counts :
  count_inv (Some x) Q O V sizes counts -> x <> B -> par m x ∈ O ->
  (finished_kids Q O (par m x) < length (kids m (par m x)))%nat ->
  count_inv None Q O V sizes (<[par m x := default 0 (counts !! par m x) + 1]> counts).
Proof.
  intros [] Hx Hp Hlt. constructor; try done.
  - intros o Ho. specialize (ci_count0 o Ho). cbn in *.
    destruct (decide (o = par m x)) as [->|Hne].
    + rewrite lookup_insert_eq. cbn. rewrite Z.eqb_refl in ci_count0.
      destruct (Z.eqb_spec x B); [done|]. cbn in ci_count0. lia.
    + rewrite lookup_insert_ne by done. destruct (Z.eqb_spec o (par m x)); [done|].
      rewrite andb_false_r in ci_count0. lia.
  - intros o Ho _. destruct (decide (o = par m x)) as [->|Hne]; [by apply (filter_missing (finished Q O))|].
    apply ci_open0; [done|]. cbn. destruct (Z.eqb_spec o (par m x)); [done|]. by rewrite andb_false_r.
  - intros c Hc. destruct (decide (c = par m x)) as [->|Hne]; [by left|].
    rewrite lookup_insert_ne in Hc by done. auto.
Qed.

(** A parent whose children are all finished: it is finished in turn. *)
Lemma push_done x Q O V sizes counts :
  count_inv (Some x) Q O V sizes counts -> x <> B -> par m x ∈ O ->
  (forall c, c ∈ kids m (par m x) -> finished Q O c) ->
  let p := par m x in
  count_inv (Some p) Q (O ∖ {[p]}) V (<[p := sz p]> sizes) (<[p := default 0 (counts !! p) + 1]> counts).
Proof.
  intros I Hx Hp Hall p. destruct I. fold p in Hp, Hall.
  destruct (ci_O0 p Hp) as (HpV & Hpn & Hpp & HpK). destruct (ci_V0 p HpV) as [HpB _].
  assert (p ∈ dom m) as Hpd by (by eapply anc_dom).
  assert (forall c, c <> p -> finished Q (O ∖ {[p]}) c <-> finished Q O c) as Hfin
    by (intros c Hc; unfold finished; set_solver).
  assert (forall o, par m o = p -> anc m B o -> o <> B -> o ∉ O /\ o ∉ Q) as Hkids.
  { intros o <- A Ho. destruct (Hall o (below_kid _ A Ho)). done. }
  constructor; try done.
  - constructor.
    + intros y v. destruct (decide (y = p)) as [->|Hne].
      * rewrite lookup_insert_eq. by intros [= <-].
      * rewrite lookup_insert_ne by done. apply ci_sizes0.
    + intros y c. destruct (decide (c = p)) as [->|Hne]; [rewrite lookup_insert_eq; eauto|].
      rewrite (lookup_insert_ne _ _ c) by done. destruct (decide (y = p)) as [->|Hne'].
      * intros _ Hc. apply ci_fin0; [|by apply Hall]. by apply HpK.
      * rewrite lookup_insert_ne by done. apply ci_sizes0.
  - intros q Hq. specialize (ci_sep0 q Hq). set_solver.
  - intros q Hq. destruct (ci_Q0 q Hq) as [HqV Hqp]. split; [done|]. intros Hne.
    destruct (ci_V0 q HqV) as [A _]. assert (par m q <> p); [|set_solver].
    intros Heq. by destruct (Hkids q Heq A Hne).
  - intros o Ho. apply elem_of_difference in Ho as [Ho Hne]. rewrite elem_of_singleton in Hne.
    destruct (ci_O0 o Ho) as (HoV & Hon & Hop & HoK). destruct (ci_V0 o HoV) as [A _].
    split_and!; [done|by rewrite lookup_insert_ne| |done]. intros HoB.
    assert (par m o <> p); [|set_solver]. intros Heq. by destruct (Hkids o Heq A HoB).
  - intros o Ho. apply elem_of_difference in Ho as [Ho Hne]. rewrite elem_of_singleton in Hne.
    specialize (ci_count0 o Ho). rewrite lookup_insert_ne by done.
    assert (lag (Some x) o = false) as Hl.
    { cbn. fold p. destruct (Z.eqb_spec o p); [done|]. by rewrite andb_false_r. }
    rewrite Hl, Z.add_0_r in ci_count0. rewrite ci_count0. cbn [lag].
    destruct (Z.eqb_spec p B) as [HpB'|HpB']; cbn [negb andb].
    + rewrite Z.add_0_r. f_equal. unfold finished_kids. f_equal.
      apply filter_ext_in. intros c Hc. symmetry. apply Hfin. intros ->.
      apply kid_par in Hc as Hc'. destruct (ci_O0 o Ho) as (HoV & _). destruct (ci_V0 o HoV) as [A _].
      apply (tree_child _ _ T) in Hc as (_ & _ & Hh). apply (anc_height_le _ _ T) in A. rewrite <-?HpB', <-?Hl in A. lia.
    + symmetry. apply finished_kids_grow; [done|unfold finished; set_solver|unfold finished; set_solver|].
      by apply below_kid.
  - intros o Ho Hl. apply elem_of_difference in Ho as [Ho Hne]. rewrite elem_of_singleton in Hne.
    destruct (ci_open0 o Ho) as (c & Hc & Hnf).
    { cbn. fold p. destruct (Z.eqb_spec o p); [done|]. by rewrite andb_false_r. }
    exists c. split; [done|]. rewrite Hfin; [done|]. intros ->.
    cbn [lag] in Hl. rewrite (kid_par _ _ Hc), Z.eqb_refl, andb_true_r in Hl.
    apply negb_false_iff, Z.eqb_eq in Hl. destruct (ci_O0 o Ho) as (HoV & _). destruct (ci_V0 o HoV) as [A _].
    apply (tree_child _ _ T) in Hc as (_ & _ & Hh). apply (anc_height_le _ _ T) in A. rewrite <-?HpB', <-?Hl in A. lia.
  - intros v Hv Hf. destruct (decide (v = p)) as [->|Hne]; [rewrite lookup_insert_eq; eauto|].
    rewrite lookup_insert_ne by done. apply ci_fin0; [done|]. by apply Hfin.
  - intros c. destruct (decide (c = p)) as [->|Hne]; [rewrite !lookup_insert_eq; eauto|].
    rewrite !lookup_insert_ne by done. intros Hc. apply ci_counts0 in Hc as [?|?]; [left; set_solver|by right].
Qed.

Lemma push_up_ok n x Q O V sizes counts :
  count_inv (Some x) Q O V sizes counts -> x ∈ V -> (x <> B -> par m x ∈ O) -> ht m x < Z.of_nat n ->
  exists O' sizes' counts', push_up n s sizes counts B x = Ok (sizes', counts') /\
    count_inv None Q O' V sizes' counts'.
Proof.
  revert x O sizes counts. induction n as [|n IH]; intros x O sizes counts I HxV HxO Hn.
  { pose proof (tree_height _ _ T x). lia. }
  cbn [push_up]. destruct (ci_V _ _ _ _ _ _ I x HxV) as [A _].
  destruct (Z.eqb_spec x B) as [->|Hx].
  { exists O, sizes, counts. split; [done|]. destruct I. constructor; try done.
    - intros o Ho. specialize (ci_count0 o Ho). cbn in *. by rewrite Z.eqb_refl in ci_count0.
    - intros o Ho _. apply ci_open0; [done|]. cbn. by rewrite Z.eqb_refl. }
  specialize (HxO Hx). pose proof (below_kid x A Hx) as Hk.
  pose proof (kid_dom _ _ Hk) as Hxd. pose proof (kids_dom _ _ _ Hk) as Hpd.
  rewrite get_parent_ok by done. run. rewrite get_children_ok by done. run.
  pose proof (ci_count _ _ _ _ _ _ I _ HxO) as Hcount. cbn [lag] in Hcount.
  rewrite Z.eqb_refl in Hcount. destruct (Z.eqb_spec x B); [done|]. cbn [negb andb] in Hcount.
  pose proof (kids_count _ _ T _ Hsz _ Hpd) as Hlen. pose proof (Hsmall _ Hpd).
  assert (finished_kids Q O (par m x) <= length (kids m (par m x)))%nat as Hle by apply length_filter.
  rewrite add_ok by (unfold in_u; lia). run.
  destruct (Z.ltb_spec (default 0 (counts !! par m x) + 1) (Z.of_nat (length (kids m (par m x))))) as [Hlt|Hge].
  - do 3 eexists. split; [done|]. apply push_stop; [done..|lia].
  - assert (forall c, c ∈ kids m (par m x) -> finished Q O c) as Hall.
    { apply (filter_all (finished Q O)). unfold finished_kids in *. lia. }
    rewrite mapM_sizes; [run| |].
    2:{ eapply ci_sizes, I. }
    2:{ intros c Hc. eapply ci_fin; [exact I| |by apply Hall]. by eapply ci_O. }
    destruct (sum_sizes (par m x) Hpd) as [-> Hadd]. run. rewrite Hadd. run.
    destruct (ci_O _ _ _ _ _ _ I _ HxO) as (HpV & _ & Hpp & _).
    apply (IH _ (O ∖ {[par m x]})); [by apply push_done|done| |].
    + intros HpB. apply elem_of_difference. split; [by apply Hpp|]. rewrite elem_of_singleton. intros Heq.
      destruct (ci_V _ _ _ _ _ _ I _ HpV) as [A' _].
      pose proof (below_kid _ A' HpB) as Hk'. apply (tree_child _ _ T) in Hk' as (_ & _ & Hh). rewrite Heq in Hh. lia.
    + apply (tree_child _ _ T) in Hk as (_ & _ & Hh). lia.
Qed.

(** A dequeued block whose size is known. *)
Lemma dequeue_known q Q O V sizes sizes' counts :
  count_inv None (q :: Q) O V sizes counts -> sizes_ok m sz sizes' ->
  (forall x, is_Some (sizes !! x) -> is_Some (sizes' !! x)) ->
  (forall x, x <> q -> sizes' !! x = sizes !! x) -> is_Some (sizes' !! q) ->
  count_inv (Some q) Q O V sizes' counts.
Proof.
  intros [] Hok Hmono Hsame Hq. apply NoDup_cons in ci_nodup0 as [HqQ Hnd].
  assert (q ∉ O) as HqO by (apply ci_sep0; left).
  destruct (ci_Q0 q ltac:(left)) as [HqV HqP]. destruct (ci_V0 q HqV) as [A _].
  assert (forall c, c <> q -> finished Q O c <-> finished (q :: Q) O c) as Hfin
    by (intros c Hc; unfold finished; set_solver).
  constructor; try done.
  - intros q' Hq'. apply ci_sep0. by right.
  - intros q' Hq'. apply ci_Q0. by right.
  - intros v Hv. destruct (ci_V0 v Hv) as [? Hp]. split; [done|]. intros Hne. destruct (Hp Hne). set_solver.
  - intros o Ho. destruct (ci_O0 o Ho) as (? & Hn & ?). split_and!; [done| |naive_solver..].
    rewrite Hsame; [done|]. by intros ->.
  - intros o Ho. specialize (ci_count0 o Ho). cbn [lag] in *. rewrite Z.add_0_r in ci_count0. rewrite ci_count0.
    destruct (Z.eqb_spec q B) as [HqB|HqB]; cbn [negb andb].
    + rewrite Z.add_0_r. f_equal. unfold finished_kids. f_equal. apply filter_ext_in. intros c Hc. symmetry. apply Hfin.
      intros ->. destruct (ci_O0 o Ho) as (HoV & _). destruct (ci_V0 o HoV) as [A' _].
      apply (tree_child _ _ T) in Hc as (_ & _ & Hh). apply (anc_height_le _ _ T) in A'. rewrite <-HqB in A'. lia.
    + symmetry. apply finished_kids_grow; [done|unfold finished; set_solver|unfold finished; set_solver|by apply below_kid].
  - intros o Ho Hl. destruct (ci_open0 o Ho) as (c & Hc & Hnf); [done|].
    exists c. split; [done|]. rewrite Hfin; [done|]. intros ->.
    cbn [lag] in Hl. rewrite (kid_par _ _ Hc), Z.eqb_refl, andb_true_r in Hl.
    apply negb_false_iff, Z.eqb_eq in Hl. destruct (ci_O0 o Ho) as (HoV & _). destruct (ci_V0 o HoV) as [A' _].
    apply (tree_child _ _ T) in Hc as (_ & _ & Hh). apply (anc_height_le _ _ T) in A'. rewrite <-Hl in A'. lia.
  - intros v Hv Hf. destruct (decide (v = q)) as [->|Hne]; [done|]. apply Hmono, ci_fin0; [done|]. by apply Hfin.
  - intros c Hc. destruct (ci_counts0 c Hc) as [?|?]; [by left|right; auto].
Qed.

(** A dequeued block whose size is not known: its children are queued. *)
Lemma dequeue_open q Q O V sizes counts :
  count_inv None (q :: Q) O V sizes counts -> sizes !! q = None -> kids m q <> [] ->
  count_inv None (Q ++ kids m q) ({[q]} ∪ O) (V ∪ list_to_set (kids m q)) sizes counts /\
  (forall c, c ∈ kids m q -> c ∉ V).
Proof.
  intros [] Hq Hne. apply NoDup_cons in ci_nodup0 as [HqQ Hnd].
  assert (q ∉ O) as HqO by (apply ci_sep0; left).
  destruct (ci_Q0 q ltac:(left)) as [HqV HqP]. destruct (ci_V0 q HqV) as [A _].
  assert (forall c, c ∈ kids m q -> c <> B) as HkB.
  { intros c Hc ->. apply (tree_child _ _ T) in Hc as (_ & _ & Hh). apply (anc_height_le _ _ T) in A. lia. }
  assert (forall c, c ∈ kids m q -> c ∉ V) as Hfresh.
  { intros c Hc HcV. destruct (ci_V0 c HcV) as [_ Hp]. destruct (Hp (HkB c Hc)) as [_ Hp'].
    apply Hp'. rewrite (kid_par _ _ Hc). left. }
  split; [|done]. assert (q ∉ kids m q) as Hqq by (intros Hc; by apply Hfresh in Hc).
  assert (forall c o, o ∈ O -> c ∈ kids m o -> finished (Q ++ kids m q) ({[q]} ∪ O) c <-> finished (q :: Q) O c) as Hfin.
  { intros c o Ho Hc. assert (c ∉ kids m q); [|unfold finished; set_solver].
    intros Hc'. apply kid_par in Hc, Hc'. congruence. }
  constructor; try done.
  - apply NoDup_app. split_and!; [done| |apply (tree_nodup _ _ T)].
    intros x Hx Hx'. apply (Hfresh x Hx'). by apply ci_Q0; right.
  - intros x [Hx|Hx]%elem_of_app.
    + specialize (ci_sep0 x ltac:(by right)). set_solver.
    + intros [->%elem_of_singleton|HO]%elem_of_union; [done|]. by apply (Hfresh x Hx), ci_O0.
  - intros x [Hx|Hx]%elem_of_app.
    + destruct (ci_Q0 x ltac:(by right)). set_solver.
    + split; [set_solver|]. intros _. rewrite (kid_par _ _ Hx). set_solver.
  - intros v [Hv|Hv%elem_of_list_to_set]%elem_of_union.
    + destruct (ci_V0 v Hv) as [? Hp]. split; [done|]. intros HvB. destruct (Hp HvB) as [Hp1 Hp2].
      split; [set_solver|]. rewrite not_elem_of_app. split; [set_solver|]. intros Hk. by apply (Hfresh _ Hk).
    + split; [by eapply rtc_r|]. intros _. rewrite (kid_par _ _ Hv). set_solver.
  - intros o [->%elem_of_singleton|Ho]%elem_of_union.
    + split_and!; [set_solver|done| |set_solver]. intros HqB. specialize (HqP HqB). set_solver.
    + destruct (ci_O0 o Ho) as (? & ? & Hp & HK). split_and!; [set_solver|done|set_solver|]. intros c Hc. set_solver.
  - intros o [->%elem_of_singleton|Ho]%elem_of_union.
    + assert (counts !! q = None) as ->.
      { destruct (counts !! q) eqn:E; [|done]. destruct (ci_counts0 q) as [?|[? ?]]; [eauto|done|congruence]. }
      cbn. unfold finished_kids. rewrite filter_none; [done|]. intros c Hc. unfold finished. set_solver.
    + rewrite (ci_count0 o Ho). unfold finished_kids. f_equal. f_equal. apply filter_ext_in.
      intros c Hc. symmetry. by eapply Hfin.
  - intros o [->%elem_of_singleton|Ho]%elem_of_union _.
    + destruct (kids m q) as [|c l] eqn:Ek; [done|]. exists c. split; [left|]. unfold finished. set_solver.
    + destruct (ci_open0 o Ho eq_refl) as (c & Hc & Hnf). exists c. split; [done|]. by rewrite Hfin.
  - intros v [Hv|Hv%elem_of_list_to_set]%elem_of_union Hf; [|by destruct Hf; set_solver].
    apply ci_fin0; [done|]. unfold finished in *. set_solver.
  - intros c Hc. destruct (ci_counts0 c Hc); [left; set_solver|by right].
  - set_solver.
Qed.

Context (fuel : nat) (Hfuel : (base.size (dom m) < fuel)%nat) (Hdeep : forall h, ht m h < Z.of_nat fuel).

Lemma count_loop_ok n Q O V sizes counts :
  count_inv None Q O V sizes counts -> (base.size (dom m ∖ V) + length Q < n)%nat ->
  exists sizes', count_loop fuel n s sizes counts B Q = Ok sizes' /\ sizes_ok m sz sizes' /\ is_Some (sizes' !! B).
Proof.
  revert Q O V sizes counts. induction n as [|n IH]; intros Q O V sizes counts I Hn; [lia|].
  cbn [count_loop]. destruct Q as [|q Q].
  - exists sizes. split; [done|]. split; [by eapply ci_sizes|].
    assert (forall h, h ∈ dom m -> h ∉ O) as HO.
    { apply (tree_ind_down _ _ T). intros h Hh IHh Ho.
      destruct (ci_open _ _ _ _ _ _ I h Ho eq_refl) as (c & Hc & Hnf). apply Hnf.
      split; [apply not_elem_of_nil|by apply IHh]. }
    eapply ci_fin; [exact I|by eapply ci_B|]. split; [apply not_elem_of_nil|by apply HO].
  - destruct (ci_Q _ _ _ _ _ _ I q ltac:(left)) as [HqV HqP].
    destruct (ci_V _ _ _ _ _ _ I q HqV) as [A _]. assert (q ∈ dom m) as Hqd by (by eapply anc_dom).
    rewrite get_children_ok by done. run. cbn [length] in Hn.
    assert (forall sizes', sizes_ok m sz sizes' -> (forall x, is_Some (sizes !! x) -> is_Some (sizes' !! x)) ->
      (forall x, x <> q -> sizes' !! x = sizes !! x) -> is_Some (sizes' !! q) ->
      exists sizes'', ('(sizes, counts) ← push_up fuel s sizes' counts B q; count_loop fuel n s sizes counts B Q) = Ok sizes'' /\
        sizes_ok m sz sizes'' /\ is_Some (sizes'' !! B)) as Hknown.
    { intros sizes' H1 H2 H3 H4.
      destruct (push_up_ok fuel q Q O V sizes' counts) as (O' & sz' & cn' & -> & I'); [|done|done|apply Hdeep|].
      { by eapply dequeue_known. }
      run. eapply IH; [exact I'|lia]. }
    case_bool_decide as Hleaf; [|case_bool_decide as Hnone].
    + apply Hknown.
      * pose proof (ci_sizes _ _ _ _ _ _ I) as [R C]. constructor.
        -- intros x v. destruct (decide (x = q)) as [->|Hne].
           ++ rewrite lookup_insert_eq. intros [= <-]. split; [done|]. rewrite Hsz by done. by rewrite Hleaf.
           ++ rewrite lookup_insert_ne by done. apply R.
        -- intros x c. destruct (decide (c = q)) as [->|Hne]; [rewrite lookup_insert_eq; eauto|].
           rewrite (lookup_insert_ne _ _ c) by done. destruct (decide (x = q)) as [->|Hne'].
           ++ rewrite Hleaf. intros _ Hc. by apply elem_of_nil in Hc.
           ++ rewrite lookup_insert_ne by done. apply C.
      * intros x [v Hv]. destruct (decide (x = q)) as [->|]; [rewrite lookup_insert_eq; eauto|].
        rewrite lookup_insert_ne by done. eauto.
      * intros x Hx. by rewrite lookup_insert_ne.
      * rewrite lookup_insert_eq. eauto.
    + destruct (dequeue_open _ _ _ _ _ _ I Hnone Hleaf) as [I' Hfresh].
      eapply IH; [exact I'|]. rewrite length_app.
      assert (base.size (dom m ∖ V) = base.size (dom m ∖ (V ∪ list_to_set (kids m q))) + length (kids m q))%nat; [|lia].
      rewrite <-(size_list_to_set (C := gset Hash)) by apply (tree_nodup _ _ T).
      rewrite <-size_union by set_solver. f_equal. apply set_eq. intros x.
      rewrite elem_of_union, !elem_of_difference, elem_of_union, elem_of_list_to_set.
      destruct (decide (x ∈ kids m q)) as [Hx|Hx]; [|naive_solver].
      pose proof (kid_dom _ _ Hx). pose proof (Hfresh x Hx). naive_solver.
    + apply Hknown; [by eapply ci_sizes|done|done|]. destruct (sizes !! q); [eauto|done].
Qed.

Lemma count_subtrees_ok (c : ReindexOperationContext MemoryReachabilityStore) :
  ctx_store c = s -> sizes_ok m sz (subtree_sizes c) ->
  exists sizes', count_subtrees fuel c B = Ok (mkCtx s sizes' (slack c)) /\
    sizes_ok m sz sizes' /\ sizes' !! B = Some (sz B).
Proof.
  intros Hs Hok. unfold count_subtrees.
  assert (forall sizes', sizes_ok m sz sizes' -> is_Some (sizes' !! B) -> sizes' !! B = Some (sz B)) as Hval.
  { intros sizes' H' [v Hv]. by destruct (sizes_right _ _ _ H' _ _ Hv) as [_ <-]. }
  case_bool_decide as Hcached.
  { exists (subtree_sizes c). destruct c; cbn in *; subst. auto. }
  rewrite Hs. destruct (count_loop_ok fuel [B] ∅ {[B]} (subtree_sizes c) ∅) as (sizes' & -> & H1 & H2).
  - constructor; try done.
    + apply NoDup_singleton.
    + intros q Hq. apply list_elem_of_singleton in Hq as ->. split; [set_solver|done].
    + intros v ->%elem_of_singleton. split; [apply rtc_refl|done].
    + intros v ->%elem_of_singleton [Hf _]. by destruct Hf; left.
    + intros x [? Hx]. by rewrite lookup_empty in Hx.
    + set_solver.
  - cbn [length]. assert (base.size (dom m ∖ {[B]}) + base.size ({[B]} : gset Hash) = base.size (dom m))%nat as He.
    { rewrite <-size_union by set_solver. f_equal. apply set_eq. intros x. destruct (decide (x = B)) as [->|]; set_solver. }
    rewrite size_singleton in He. lia.
  - run. exists sizes'. auto.
Qed.
End count.

(** ** Subtree sizes exist and are bounded by the number of blocks *)

Section bounds.
Context (m : blocks) (root : Hash) (T : tree m root).
Context (fuel : nat) (Hdeep : forall h, ht m h < Z.of_nat fuel).

Lemma subtree_size_stable n1 n2 h : h ∈ dom m ->
  Z.of_nat fuel - 1 - ht m h < Z.of_nat n1 -> Z.of_nat fuel - 1 - ht m h < Z.of_nat n2 ->
  subtree_size n1 m h = subtree_size n2 m h.
Proof.
  revert n2 h. induction n1 as [|n1 IH]; intros n2 h Hh H1 H2; [specialize (Hdeep h); lia|].
  destruct n2 as [|n2]; [specialize (Hdeep h); lia|]. cbn. f_equal. apply Zsum_map_ext.
  intros c Hc. destruct (tree_child _ _ T _ _ Hc) as (? & _ & ?). apply IH; [done|lia..].
Qed.

Lemma subtree_size_sizing : sizing m (subtree_size fuel m).
Proof.
  intros h Hh. rewrite (subtree_size_stable fuel (S fuel)); [|done|pose proof (tree_height _ _ T h); lia..].
  done.
Qed.

(** The blocks of a subtree, in preorder. *)
Fixpoint subtree (n : nat) (h : Hash) : list Hash :=
  match n with
  | O => []
  | S n => h :: concat (subtree n <$> kids m h)
  end.

Lemma length_subtree n h : Z.of_nat (length (subtree n h)) = subtree_size n m h.
Proof.
  revert h. induction n as [|n IH]; intros h; [done|]. cbn [subtree subtree_size length].
  assert (Z.of_nat (length (concat (subtree n <$> kids m h))) = Zsum (subtree_size n m <$> kids m h)); [|lia].
  induction (kids m h) as [|c l IHl]; [done|]. rewrite !fmap_cons, Zsum_cons. cbn [concat].
  rewrite length_app, <-IH, <-IHl. lia.
Qed.

Lemma subtree_anc n h x : x ∈ subtree n h -> anc m h x.
Proof.
  revert h. induction n as [|n IH]; intros h; cbn; [by intros ?%elem_of_nil|].
  intros [->|Hx]%elem_of_cons; [apply rtc_refl|].
  apply list_elem_of_In, in_concat in Hx as (l & Hl & Hx).
  apply list_elem_of_In, list_elem_of_fmap in Hl as (c & -> & Hc).
  apply list_elem_of_In, IH in Hx. by eapply rtc_l.
Qed.

Lemma subtree_nodup n h : h ∈ dom m -> NoDup (subtree n h).
Proof.
  revert h. induction n as [|n IH]; intros h Hh; cbn; [constructor|]. constructor.
  - intros Hx. apply list_elem_of_In, in_concat in Hx as (l & Hl & Hx).
    apply list_elem_of_In, list_elem_of_fmap in Hl as (c & -> & Hc).
    apply list_elem_of_In, subtree_anc in Hx. apply (anc_height_le _ _ T) in Hx.
    apply (tree_child _ _ T) in Hc as (_ & _ & ?). lia.
  - assert (forall l, NoDup l -> (forall c, c ∈ l -> c ∈ kids m h) -> NoDup (concat (subtree n <$> l))) as Hgen.
    { intros l Hnd. induction Hnd as [|c l Hc _ IHl]; intros Hsub; cbn; [constructor|].
      apply NoDup_app. split_and!.
      - apply IH. by destruct (tree_child _ _ T _ _ (Hsub c ltac:(left))).
      - intros x Hx Hx'. apply list_elem_of_In, in_concat in Hx' as (l' & Hl & Hx').
        apply list_elem_of_In, list_elem_of_fmap in Hl as (c' & -> & Hc').
        apply list_elem_of_In, subtree_anc in Hx'. apply subtree_anc in Hx.
        assert (c = c') as -> by (eapply (kids_disjoint _ _ T h); eauto; apply Hsub; [left|by right]). done.
      - apply IHl. intros x Hx. apply Hsub. by right. }
    apply Hgen; [apply (tree_nodup _ _ T)|done].
Qed.

Lemma subtree_size_bound h : h ∈ dom m -> subtree_size fuel m h <= Z.of_nat (base.size (dom m)).
Proof.
  intros Hh. rewrite <-length_subtree. apply Nat2Z.inj_le.
  rewrite <-(size_list_to_set (C := gset Hash)) by (by apply subtree_nodup).
  apply subseteq_size. intros x Hx. apply elem_of_list_to_set, subtree_anc in Hx.
  by eapply (anc_dom _ _ T).
Qed.
End bounds.
