(* ===== verification/ReachPropagate.v ===== *)
(** * Interval propagation

    [propagate_interval] of [reindex.rs]: it changes intervals only, only
    strictly below the block it is called on, and leaves every block of the
    subtree with room for its own subtree. *)
From S2P Require Import Prelude Tx Interval Slice ReachStore Reachability ReachTree ReachReindex.
#[local] Open Scope Z_scope.

(** ** Stores with the same tree *)

(** [m'] differs from [m] in intervals only. *)
Record same_shape (m m' : blocks) : Prop := {
  ss_dom : dom m' = dom m;
  ss_kids : forall h, kids m' h = kids m h;
  ss_par : forall h, par m' h = par m h;
  ss_ht : forall h, ht m' h = ht m h;
  ss_fcs : forall h, fcs m' h = fcs m h
}.

#[export] Instance same_shape_equiv : Equivalence same_shape.
Proof.
  split.
  - done.
  - intros m m' []. by constructor.
  - intros m m' m'' [] []. constructor; intros; congruence.
Qed.

Section shape.
Context (m m' : blocks) (Hs : same_shape m m').

Lemma shape_anc a b : anc m' a b <-> anc m a b.
Proof.
  unfold anc. split; apply rtc_subrel; intros x y; unfold child_of; by rewrite (ss_kids _ _ Hs).
Qed.

Lemma shape_tree root : tree m root -> tree m' root.
Proof.
  destruct Hs as [Hd Hk Hp Hh _]. intros []. constructor; rewrite ?Hd, ?Hp; try done.
  - intros p c. rewrite Hk, Hp, !Hh. auto.
  - intros h. rewrite Hp, Hk. auto.
  - intros p. rewrite Hk. auto.
  - intros h. rewrite Hh. auto.
Qed.

Lemma shape_sizing sz : sizing m sz -> sizing m' sz.
Proof. intros H h. rewrite (ss_dom _ _ Hs), (ss_kids _ _ Hs). apply H. Qed.

Lemma shape_sizes_ok sz sizes : sizes_ok m sz sizes -> sizes_ok m' sz sizes.
Proof.
  intros [H1 H2]. constructor; [rewrite (ss_dom _ _ Hs); done|].
  intros x c. rewrite (ss_kids _ _ Hs). apply H2.
Qed.

(** A block is laid out as before when its interval and those of its children
    are. *)
Lemma shape_block_ok h :
  (forall x, x = h \/ x ∈ kids m h -> iv m' x = iv m x) -> block_ok m h -> block_ok m' h.
Proof.
  intros Hiv [Hw Hp]. unfold block_ok. rewrite (Hiv h) by auto. split; [done|].
  rewrite (ss_kids _ _ Hs). eapply packed_ext; [|exact Hp]. auto.
Qed.
End shape.

(** ** Interval updates *)

Definition set_iv (i : Interval) (d : MemoryReachabilityData) : MemoryReachabilityData :=
  mkMData (children d) (parent d) i (height d) (future_covering_set d).
Definition upd_iv (m : blocks) (h : Hash) (i : Interval) : blocks := alter (set_iv i) h m.

Lemma set_interval_ok (s : MemoryReachabilityStore) h i : h ∈ dom (mem_map s) ->
  set_interval s h i = Ok (mkMem (upd_iv (mem_map s) h i) (mem_reindex_root s)).
Proof.
  intros [d Hd]%elem_of_dom. cbn. unfold mem_set_interval, mem_update, mem_get_data. rewrite Hd. run.
  f_equal. f_equal. unfold upd_iv. apply map_eq. intros x.
  destruct (decide (x = h)) as [->|Hne].
  - by rewrite lookup_insert_eq, lookup_alter_eq, Hd.
  - by rewrite lookup_insert_ne, lookup_alter_ne.
Qed.

Lemma upd_iv_shape m h i : same_shape m (upd_iv m h i).
Proof.
  assert (forall A (f : MemoryReachabilityData -> A) x, (forall d, f (set_iv i d) = f d) ->
    f <$> upd_iv m h i !! x = f <$> m !! x) as Hf.
  { intros A f x Hf. unfold upd_iv. destruct (decide (x = h)) as [->|Hne].
    - rewrite lookup_alter_eq. destruct (m !! h); cbn; [by rewrite Hf|done].
    - by rewrite lookup_alter_ne. }
  constructor; [apply dom_alter_L|..]; intros x; unfold kids, par, ht, fcs; by rewrite Hf.
Qed.

Lemma iv_upd_eq m h i : h ∈ dom m -> iv (upd_iv m h i) h = i.
Proof. intros [d Hd]%elem_of_dom. unfold iv, upd_iv. by rewrite lookup_alter_eq, Hd. Qed.

Lemma iv_upd_ne m h i x : x <> h -> iv (upd_iv m h i) x = iv m x.
Proof. intros. unfold iv, upd_iv. by rewrite lookup_alter_ne. Qed.

(** Assigning a list of intervals to a list of distinct blocks. *)
Lemma set_intervals_ok cs : forall (s : MemoryReachabilityStore) l,
  NoDup cs -> (forall c, c ∈ cs -> c ∈ dom (mem_map s)) -> length l = length cs ->
  exists m', foldM (fun s '(c, ci) => set_interval s c ci) s (zip cs l) = Ok (mkMem m' (mem_reindex_root s)) /\
    same_shape (mem_map s) m' /\ (forall x, x ∉ cs -> iv m' x = iv (mem_map s) x) /\ iv m' <$> cs = l.
Proof.
  induction cs as [|c cs IH]; intros s l Hnd Hdom Hlen.
  { destruct l; [|done]. exists (mem_map s). destruct s. cbn. split_and!; done. }
  destruct l as [|i l]; [done|]. apply NoDup_cons in Hnd as [Hc Hnd]. cbn [zip zip_with foldM].
  pose proof (Hdom c ltac:(left)) as Hcd. rewrite set_interval_ok by done. run.
  pose proof (upd_iv_shape (mem_map s) c i) as Hsh.
  destruct (IH (mkMem (upd_iv (mem_map s) c i) (mem_reindex_root s)) l) as (m' & Hf & S1 & S2 & S3); cbn [mem_map] in *.
  - done.
  - intros x Hx. rewrite (ss_dom _ _ Hsh). apply Hdom. by right.
  - by injection Hlen.
  - exists m'. split; [done|]. split; [by etrans|]. split.
    + intros x [Hne Hx]%not_elem_of_cons. rewrite S2 by done. by apply iv_upd_ne.
    + cbn. f_equal; [|done]. rewrite S2 by done. by apply iv_upd_eq.
Qed.

Lemma tiles_packed m lo hi cs : tiles lo hi (iv m <$> cs) -> packed m lo hi cs.
Proof.
  revert lo. induction cs as [|c cs IH]; intros lo; cbn; [done|].
  intros (H1 & H2 & Ht). pose proof (tiles_bounds _ _ _ Ht). split_and!; [lia..|]. by apply IH.
Qed.

(** ** [propagate_interval] *)

Lemma capacity_ok i : wf_interval i -> 1 <= isize i ->
  exists cap, decrease_end (E := ReachabilityError) i 1 = Ok cap /\ start cap = start i /\ end_ cap = end_ i - 1 /\
    wf_interval cap /\ isize cap = isize i - 1.
Proof.
  intros (H1 & H2 & H3) Hs. unfold isize in *. unfold decrease_end.
  rewrite sub_ok by (unfold in_u, u64_max, umax in *; lia). run.
  eexists. split; [done|]. unfold wf_interval. cbn. lia.
Qed.

Section propagate.
Context (m0 : blocks) (root : Hash) (T : tree m0 root) (sz : Hash -> Z) (Hsz : sizing m0 sz).
Context (B : Hash) (HB : B ∈ dom m0).

(** Visited blocks [V] have an interval that fits their subtree; those no longer
    queued have laid out their children. *)
Record prop_inv (m : blocks) (Q : list Hash) (V : gset Hash) : Prop := {
  pi_shape : same_shape m0 m;
  pi_nodup : NoDup Q;
  pi_Q : forall q, q ∈ Q -> q ∈ V;
  pi_V : forall v, v ∈ V -> anc m0 B v /\ (v <> B -> par m0 v ∈ V /\ par m0 v ∉ Q);
  pi_B : B ∈ V;
  pi_fit : forall v, v ∈ V -> wf_interval (iv m v) /\ sz v <= isize (iv m v);
  pi_done : forall v, v ∈ V -> v ∉ Q -> block_ok m v /\ forall c, c ∈ kids m0 v -> c ∈ V;
  pi_same : forall x, x ∉ V \/ x = B -> iv m x = iv m0 x
}.

Lemma prop_fresh m q Q V : prop_inv m (q :: Q) V -> forall c, c ∈ kids m0 q -> c ∉ V /\ c <> B.
Proof.
  intros [] c Hc. destruct (tree_child _ _ T _ _ Hc) as (_ & Hp & Hh).
  assert (c <> B) as HcB.
  { intros ->. destruct (pi_V0 q ltac:(apply pi_Q0; left)) as [A _]. apply (anc_height_le _ _ T) in A. lia. }
  split; [|done]. intros HcV. destruct (pi_V0 c HcV) as [_ Hv]. destruct (Hv HcB) as [_ Hv'].
  rewrite Hp in Hv'. apply Hv'. left.
Qed.

(** Dequeuing [q] and giving its children intervals that tile its capacity. *)
Lemma prop_step m m' q Q V :
  prop_inv m (q :: Q) V -> same_shape m m' ->
  (forall x, x ∉ kids m0 q -> iv m' x = iv m x) ->
  packed m' (start (iv m q)) (end_ (iv m q) - 1) (kids m0 q) ->
  (forall c, c ∈ kids m0 q -> wf_interval (iv m' c) /\ sz c <= isize (iv m' c)) ->
  prop_inv m' (Q ++ kids m0 q) (V ∪ list_to_set (kids m0 q)).
Proof.
  intros I Hsh Hiv Hpk Hfit. pose proof (prop_fresh _ _ _ _ I) as Hfresh. destruct I.
  apply NoDup_cons in pi_nodup0 as [HqQ Hnd]. pose proof (pi_Q0 q ltac:(left)) as HqV.
  assert (forall v, v ∈ V -> iv m' v = iv m v) as HivV.
  { intros v Hv. apply Hiv. intros Hc. by destruct (Hfresh v Hc). }
  constructor.
  - by etrans.
  - apply NoDup_app. split_and!; [done| |apply (tree_nodup _ _ T)].
    intros x Hx Hc. destruct (Hfresh x Hc) as [Hn _]. apply Hn, pi_Q0. by right.
  - intros x [Hx|Hx]%elem_of_app; apply elem_of_union; [left; apply pi_Q0; by right|right; by apply elem_of_list_to_set].
  - intros v [Hv|Hv%elem_of_list_to_set]%elem_of_union.
    + destruct (pi_V0 v Hv) as [A Hp]. split; [done|]. intros HvB. destruct (Hp HvB) as [Hp1 Hp2].
      split; [apply elem_of_union; by left|]. apply not_elem_of_cons in Hp2 as [_ Hp2].
      apply not_elem_of_app. split; [done|]. intros Hc. by destruct (Hfresh _ Hc).
    + destruct (tree_child _ _ T _ _ Hv) as (_ & Hp & _). destruct (pi_V0 q HqV) as [A _].
      split; [by eapply rtc_r|]. intros _. rewrite Hp. split; [apply elem_of_union; by left|].
      apply not_elem_of_app. split; [done|]. intros Hc. by destruct (Hfresh _ Hc).
  - apply elem_of_union. by left.
  - intros v [Hv|Hv%elem_of_list_to_set]%elem_of_union; [rewrite HivV by done; auto|auto].
  - intros v [Hv|Hv%elem_of_list_to_set]%elem_of_union Hn; apply not_elem_of_app in Hn as [Hn1 Hn2]; [|done].
    destruct (decide (v = q)) as [->|Hne].
    + split; [|intros c Hc; apply elem_of_union; right; by apply elem_of_list_to_set].
      unfold block_ok. rewrite HivV by done. destruct (pi_fit0 q Hv) as [Hw _]. split; [done|].
      by rewrite (ss_kids _ _ Hsh), (ss_kids _ _ pi_shape0).
    + destruct (pi_done0 v Hv) as [Hb HK]; [by apply not_elem_of_cons|].
      split; [|intros c Hc; apply elem_of_union; left; auto].
      eapply shape_block_ok; [exact Hsh| |exact Hb]. intros x [->|Hx]; [by apply HivV|].
      rewrite (ss_kids _ _ pi_shape0) in Hx. by apply HivV, HK.
  - intros x Hx. rewrite Hiv; [apply pi_same0|].
    + destruct Hx as [Hx|]; [left; intros ?; apply Hx, elem_of_union; by left|by right].
    + intros Hc. destruct Hx as [Hx| ->]; [|by destruct (Hfresh _ Hc)].
      apply Hx, elem_of_union. right. by apply elem_of_list_to_set.
Qed.

Context (sizes : gmap Hash Z) (Hok : sizes_ok m0 sz sizes) (HszB : is_Some (sizes !! B)).

Lemma sizes_below x : anc m0 B x -> is_Some (sizes !! x).
Proof.
  intros A. apply (anc_closed _ (fun x => is_Some (sizes !! x)) _ _ A HszB).
  intros p c Hp Hc. by eapply sizes_closed.
Qed.

Lemma propagate_loop_ok n : forall (s : MemoryReachabilityStore) Q V,
  prop_inv (mem_map s) Q V -> (base.size (dom m0 ∖ V) + length Q < n)%nat ->
  exists m', propagate_loop n s sizes Q = Ok (mkMem m' (mem_reindex_root s)) /\
    same_shape m0 m' /\
    (forall x, anc m0 B x -> block_ok m' x /\ sz x <= isize (iv m' x)) /\
    (forall x, ~ anc m0 B x \/ x = B -> iv m' x = iv m0 x).
Proof.
  induction n as [|n IH]; intros s Q V I Hn; [lia|]. cbn [propagate_loop]. destruct Q as [|q Q].
  { exists (mem_map s). split; [by destruct s|]. destruct I.
    assert (forall x, anc m0 B x -> x ∈ V) as Hall.
    { intros x A. apply (anc_closed _ (fun x => x ∈ V) _ _ A); [done|].
      intros p c Hp Hc. destruct (pi_done0 p Hp) as [_ HK]; [apply not_elem_of_nil|]. by apply HK. }
    split; [done|]. split.
    - intros x A. split; [apply pi_done0; [auto|apply not_elem_of_nil]|]. by apply pi_fit0, Hall.
    - intros x [Hx| ->]; apply pi_same0; [left|by right]. intros HxV. by apply Hx, pi_V0. }
  pose proof I as []. pose proof (pi_Q0 q ltac:(left)) as HqV. destruct (pi_V0 q HqV) as [A _].
  assert (q ∈ dom m0) as Hqd by (by eapply anc_dom). cbn [length] in Hn.
  assert (q ∈ dom (mem_map s)) as Hqs by (by rewrite (ss_dom _ _ pi_shape0)).
  rewrite get_children_ok, (ss_kids _ _ pi_shape0) by done. run.
  assert (base.size (dom m0 ∖ V) = base.size (dom m0 ∖ (V ∪ list_to_set (kids m0 q))) + length (kids m0 q))%nat as Hmeas.
  { rewrite <-(size_list_to_set (C := gset Hash)) by apply (tree_nodup _ _ T).
    rewrite <-size_union by set_solver. f_equal. apply set_eq. intros x.
    rewrite elem_of_union, !elem_of_difference, elem_of_union, elem_of_list_to_set.
    destruct (decide (x ∈ kids m0 q)) as [Hx|Hx]; [|naive_solver].
    destruct (tree_child _ _ T _ _ Hx) as (? & _). destruct (prop_fresh _ _ _ _ I x Hx). naive_solver. }
  case_bool_decide as Hleaf.
  { destruct (IH s Q (V ∪ list_to_set (kids m0 q))) as (m' & Hm' & Hrest).
    - rewrite <-(app_nil_r Q), <-Hleaf. eapply prop_step; [exact I|done|done|by rewrite Hleaf|].
      intros c Hc. rewrite Hleaf in Hc. by apply elem_of_nil in Hc.
    - rewrite Hleaf in Hmeas |- *. cbn [length] in Hmeas. lia.
    - eauto. }
  assert (forall c, c ∈ kids m0 q -> c ∈ dom m0) as Hkd by (intros c Hc; by apply (tree_child _ _ T) in Hc as (? & _)).
  rewrite (mapM_sizes s sz); [run|by eapply shape_sizes_ok|intros c Hc; apply sizes_below; by eapply rtc_r].
  unfold interval_children_capacity. rewrite get_interval_ok by done. run.
  destruct (pi_fit0 q HqV) as [Hw Hfit]. rewrite (Hsz q Hqd) in Hfit.
  assert (forall c, c ∈ kids m0 q -> 1 <= sz c) as Hpos by (intros c Hc; apply (sz_pos _ _ T _ Hsz); auto).
  assert (0 < Zsum (sz <$> kids m0 q)) as Hsum.
  { destruct (kids m0 q) as [|c cs]; [done|]. zsum. pose proof (Hpos c ltac:(left)).
    assert (0 <= Zsum (sz <$> cs)); [|lia]. apply Zsum_nonneg, Forall_fmap, Forall_forall.
    intros x Hx. cbn. specialize (Hpos x ltac:(by right)). lia. }
  destruct (capacity_ok (iv (mem_map s) q)) as (cap & Hcap & Hcs & Hce & Hcw & Hci); [done|lia|]. rewrite Hcap. run.
  destruct (split_exponential_ok (E := ReachabilityError) cap (sz <$> kids m0 q)) as (l & -> & Ht & Hl); [done| |lia|].
  { apply Forall_fmap, Forall_forall. intros c Hc. cbn. specialize (Hpos c Hc). lia. }
  run. assert (length l = length (kids m0 q)) as Hlen.
  { apply Forall2_length in Hl. by rewrite !length_fmap in Hl. }
  destruct (set_intervals_ok (kids m0 q) s l) as (m' & -> & S1 & S2 & S3); [apply (tree_nodup _ _ T)| |done|].
  { intros c Hc. rewrite (ss_dom _ _ pi_shape0). auto. }
  run. rewrite Hcs, Hce in Ht. rewrite <-S3 in Ht.
  destruct (IH (mkMem m' (mem_reindex_root s)) (Q ++ kids m0 q) (V ∪ list_to_set (kids m0 q))) as (m'' & Hm'' & Hrest).
  - eapply prop_step; [exact I|done|done|by apply tiles_packed|]. intros c Hc.
    assert (iv m' c ∈ iv m' <$> kids m0 q) as Hin by (apply list_elem_of_fmap; eauto). split.
    + apply tiles_wf in Ht; [|destruct Hw; lia..]. by eapply Forall_forall in Hin.
    + rewrite <-S3, <-list_fmap_compose in Hl. clear -Hl Hc. revert Hc.
      induction (kids m0 q) as [|c' cs IH]; intros Hc; [by apply elem_of_nil in Hc|]. cbn in Hl.
      apply Forall2_cons in Hl as [H1 H2]. apply elem_of_cons in Hc as [->|Hc]; [done|by apply IH].
  - rewrite length_app. lia.
  - eauto.
Qed.
End propagate.

(** ** The setting of a reindex operation *)

(** A tree with the sizes of its subtrees, within what 64 bits and the fuel of
    the loops allow. *)
Record setting (fuel : nat) (root : Hash) (sz : Hash -> Z) (m : blocks) : Prop := {
  set_tree : tree m root;
  set_sizing : sizing m sz;
  set_small : forall h, h ∈ dom m -> sz h <= Z.of_nat (base.size (dom m));
  set_fuel : (base.size (dom m) < fuel)%nat;
  set_fuel64 : Z.of_nat fuel < 2 ^ 63;
  set_deep : forall h, ht m h < Z.of_nat fuel
}.

Lemma setting_shape fuel root sz m m' : same_shape m m' -> setting fuel root sz m -> setting fuel root sz m'.
Proof.
  intros Hs []. constructor; try rewrite (ss_dom _ _ Hs); try done.
  - by eapply shape_tree.
  - by eapply shape_sizing.
  - intros h. rewrite (ss_ht _ _ Hs). auto.
Qed.

Lemma setting_small64 fuel root sz m : setting fuel root sz m -> forall h, h ∈ dom m -> sz h < 2 ^ 63.
Proof. intros [] h Hh. specialize (set_small0 h Hh). lia. Qed.

Notation ctx := (ReindexOperationContext MemoryReachabilityStore).
Notation cmap c := (mem_map (ctx_store c)).

(** [ctx_step c c']: [c'] is [c] with other intervals and more sizes. *)
Record ctx_step (sz : Hash -> Z) (c c' : ctx) : Prop := {
  cs_shape : same_shape (cmap c) (cmap c');
  cs_sizes : sizes_ok (cmap c') sz (subtree_sizes c');
  cs_slack : slack c' = slack c;
  cs_root : mem_reindex_root (ctx_store c') = mem_reindex_root (ctx_store c)
}.

Lemma ctx_step_trans sz c1 c2 c3 : ctx_step sz c1 c2 -> ctx_step sz c2 c3 -> ctx_step sz c1 c3.
Proof. intros [] []. constructor; [by etrans|done|congruence..]. Qed.

Section operations.
Context (fuel : nat) (root : Hash) (sz : Hash -> Z).

Lemma propagate_interval_ok (c : ctx) B :
  setting fuel root sz (cmap c) -> sizes_ok (cmap c) sz (subtree_sizes c) ->
  B ∈ dom (cmap c) -> wf_interval (iv (cmap c) B) -> sz B <= isize (iv (cmap c) B) ->
  exists c', propagate_interval fuel c B = Ok c' /\ ctx_step sz c c' /\
    (forall x, anc (cmap c) B x -> block_ok (cmap c') x /\ sz x <= isize (iv (cmap c') x)) /\
    (forall x, ~ anc (cmap c) B x \/ x = B -> iv (cmap c') x = iv (cmap c) x).
Proof.
  intros Hset Hok HB Hw Hfit. pose proof (setting_small64 _ _ _ _ Hset) as Hsm. destruct Hset.
  unfold propagate_interval.
  destruct (count_subtrees_ok (ctx_store c) root set_tree0 sz set_sizing0
              ltac:(intros h Hh; specialize (Hsm h Hh); lia) B HB fuel set_fuel0 set_deep0 c eq_refl Hok)
    as (sizes' & -> & Hok' & HszB). run. cbn [ctx_store subtree_sizes].
  destruct (propagate_loop_ok (cmap c) root set_tree0 sz set_sizing0 B HB sizes' Hok' ltac:(eauto) fuel
              (ctx_store c) [B] {[B]}) as (m' & -> & H1 & H2 & H3).
  - constructor; try done.
    + apply NoDup_singleton.
    + intros q ->%list_elem_of_singleton. set_solver.
    + intros v ->%elem_of_singleton. split; [apply rtc_refl|done].
    + set_solver.
    + by intros v ->%elem_of_singleton.
    + intros v ->%elem_of_singleton Hn. destruct Hn. left.
  - cbn [length]. assert (base.size (dom (cmap c) ∖ {[B]}) + base.size ({[B]} : gset Hash) = base.size (dom (cmap c)))%nat as He.
    { rewrite <-size_union by set_solver. f_equal. apply set_eq. intros x. destruct (decide (x = B)) as [->|]; set_solver. }
    rewrite size_singleton in He. lia.
  - run. eexists. split; [done|]. split; [|done]. constructor; try done. by eapply shape_sizes_ok.
Qed.

Lemma Zsum_map_le {A} (f g : A -> Z) l : (forall a, a ∈ l -> f a <= g a) -> Zsum (f <$> l) <= Zsum (g <$> l).
Proof.
  induction l as [|a l IH]; intros Hl; zsum. pose proof (Hl a ltac:(left)).
  specialize (IH ltac:(intros; apply Hl; by right)). lia.
Qed.

(** In a solid laminar subtree every block has room for its subtree. *)
Lemma packed_room m hi cs : forall lo, packed m lo hi cs -> Zsum ((fun c => isize (iv m c)) <$> cs) <= Z.max 0 (hi + 1 - lo).
Proof.
  induction cs as [|c cs IH]; intros lo; cbn [packed]; [intros _; zsum|].
  intros (H1 & H2 & H3 & Hp). specialize (IH _ Hp). zsum. unfold isize in *. lia.
Qed.

Lemma subtree_fits m B : tree m root -> sizing m sz -> B ∈ dom m ->
  (forall x, anc m B x -> block_ok m x /\ solid m x) -> sz B <= isize (iv m B).
Proof.
  intros T Hsz HB. revert B HB. apply (tree_ind_down _ _ T (fun B => (forall x, anc m B x -> _) -> _)).
  intros h Hh IH Hall. rewrite Hsz by done.
  destruct (Hall h ltac:(apply rtc_refl)) as [[_ Hp] Hs]. apply packed_room in Hp.
  assert (Zsum (sz <$> kids m h) <= Zsum ((fun c => isize (iv m c)) <$> kids m h)) as Hle.
  { apply Zsum_map_le. intros c Hc. apply IH; [done|]. intros x A. apply Hall. by eapply rtc_l. }
  unfold solid, isize in *. lia.
Qed.

Lemma apply_op_ok (c : ctx) B off op i :
  sizes_ok (cmap c) sz (subtree_sizes c) -> B ∈ dom (cmap c) -> op (iv (cmap c) B) off = Ok i ->
  exists c', apply_interval_op c B off op = Ok c' /\ ctx_step sz c c' /\ cmap c' = upd_iv (cmap c) B i.
Proof.
  intros Hok HB Hop. unfold apply_interval_op. rewrite get_interval_ok by done. run. rewrite Hop. run.
  rewrite set_interval_ok by done. run. eexists. split; [done|]. split; [|done].
  pose proof (upd_iv_shape (cmap c) B i). constructor; cbn; try done. by eapply shape_sizes_ok.
Qed.
End operations.
