(* ===== verification/ReachReclaim.v ===== *)
(** * Reclaiming intervals along the chain of the reindex root

    [reclaim_interval_before] and [reclaim_interval_after] of [reindex.rs]: when
    the block that needs space hangs off the chain of the reindex root, slack is
    collected from the chain blocks and handed to it by shifting the siblings in
    between.  The walk always terminates without underflow, and leaves the whole
    tree laid out. *)
From S2P Require Import Prelude Tx Interval Slice ReachStore Reachability ReachTree ReachReindex ReachPropagate.
#[local] Open Scope Z_scope.

(** Every block is laid out and non-empty, except possibly below [A]. *)
Definition good_except (A : Hash) (m : blocks) : Prop :=
  forall h, h ∈ dom m -> ~ anc m A h -> block_ok m h /\ solid m h.
Definition all_good (m : blocks) : Prop := forall h, h ∈ dom m -> block_ok m h /\ solid m h.

Lemma all_good_except A m : all_good m -> good_except A m.
Proof. intros H h Hh _. by apply H. Qed.

(** Membership in appended lists. *)
Ltac mem := repeat first [rewrite elem_of_app|rewrite list_elem_of_singleton|rewrite elem_of_cons]; tauto.

Section moves.
Context (fuel : nat) (root : Hash) (sz : Hash -> Z).

(** Changing the interval of a block and laying out its subtree again. *)
Lemma relayout (c : ctx) s off op i :
  setting fuel root sz (cmap c) -> sizes_ok (cmap c) sz (subtree_sizes c) -> s ∈ dom (cmap c) ->
  op (iv (cmap c) s) off = Ok i -> wf_interval i -> sz s <= isize i ->
  exists c', apply_interval_op_and_propagate fuel c s off op = Ok c' /\ ctx_step sz c c' /\ iv (cmap c') s = i /\
    (forall x, anc (cmap c) s x -> block_ok (cmap c') x /\ solid (cmap c') x) /\
    (forall x, ~ anc (cmap c) s x -> iv (cmap c') x = iv (cmap c) x).
Proof.
  intros Hset Hok Hs Hop Hw Hfit. unfold apply_interval_op_and_propagate.
  destruct (apply_op_ok sz c s off op i) as (c1 & -> & St1 & Hm1); [done..|]. run.
  pose proof (cs_shape _ _ _ St1) as Hsh.
  assert (setting fuel root sz (cmap c1)) as Hset1 by (by eapply setting_shape).
  assert (s ∈ dom (cmap c1)) as Hs1 by (by rewrite (ss_dom _ _ Hsh)).
  assert (iv (cmap c1) s = i) as Hi by (rewrite Hm1; by apply iv_upd_eq).
  destruct (propagate_interval_ok fuel root sz c1 s) as (c2 & -> & St2 & H1 & H2);
    [done|by eapply cs_sizes|done|by rewrite Hi..|].
  exists c2. split; [done|]. split; [by eapply ctx_step_trans|]. split; [rewrite H2 by auto; done|]. split.
  - intros x A. destruct (H1 x) as [Hb Hx]; [by eapply shape_anc|]. split; [done|].
    assert (x ∈ dom (cmap c)) as Hxd by (eapply anc_dom; eauto; apply Hset).
    pose proof (sz_pos _ _ (set_tree _ _ _ _ Hset) _ (set_sizing _ _ _ _ Hset) x Hxd). unfold solid. lia.
  - intros x A. rewrite H2 by (left; by rewrite (shape_anc _ _ Hsh)). rewrite Hm1. apply iv_upd_ne.
    intros ->. apply A, rtc_refl.
Qed.

(** A change below [s] does not concern the blocks outside, its parent apart. *)
Lemma outside_ok m m' p s h :
  tree m root -> same_shape m m' -> s ∈ kids m p -> (forall x, ~ anc m s x -> iv m' x = iv m x) ->
  ~ anc m s h -> h <> p -> block_ok m h /\ solid m h -> block_ok m' h /\ solid m' h.
Proof.
  intros T Hsh Hs Hiv Hh Hp [Hb Hso]. split.
  - eapply shape_block_ok; [done| |done]. intros x [->|Hx]; apply Hiv; [done|]. intros A.
    apply (anc_par _ _ T) in A as [->|[_ A]].
    + apply (tree_child _ _ T) in Hs as (_ & Hps & _). apply (tree_child _ _ T) in Hx as (_ & Hpx & _). congruence.
    + apply (tree_child _ _ T) in Hx as (_ & Hpx & _). by rewrite Hpx in A.
  - unfold solid. by rewrite Hiv.
Qed.

Lemma kid_not_anc m p s : tree m root -> s ∈ kids m p -> ~ anc m s p.
Proof.
  intros T Hs A. apply (anc_height_le _ _ T) in A. apply (tree_child _ _ T) in Hs as (_ & _ & ?). lia.
Qed.

Lemma sibling_not_anc m p s s' : tree m root -> s ∈ kids m p -> s' ∈ kids m p -> s <> s' -> ~ anc m s s'.
Proof.
  intros T Hs Hs' Hne A. apply Hne. eapply (kids_disjoint _ _ T p); eauto. apply rtc_refl.
Qed.
End moves.

(** ** The siblings on the left *)

(** The first free point after the blocks [l], from [lo]. *)
Definition after (m : blocks) (lo : Z) (l : list Hash) : Z :=
  match last l with Some c => end_ (iv m c) + 1 | None => lo end.
(** The last free point before the blocks [l], up to [hi]. *)
Definition before (m : blocks) (hi : Z) (l : list Hash) : Z :=
  match head l with Some c => start (iv m c) - 1 | None => hi end.

Section siblings.
Context (fuel : nat) (root : Hash) (sz : Hash -> Z) (A p : Hash) (off : Z) (Hoff : 0 <= off).

(** All blocks but [p] and those below [A] are fine. *)
Definition level (m : blocks) : Prop :=
  p ∈ dom m /\ (forall h, h ∈ dom m -> ~ anc m A h -> h <> p -> block_ok m h /\ solid m h) /\
  wf_interval (iv m p) /\ solid m p.

(** The children of [p] split into [l], in place, and [done], with a gap of
    [off] between the two. *)
Definition gap_left (m : blocks) (l done : list Hash) : Prop :=
  level m /\ kids m p = l ++ done /\ done <> [] /\
  packed m (start (iv m p)) (end_ (iv m p) - 1) l /\
  packed m (after m (start (iv m p)) l + off) (end_ (iv m p) - 1) done.

Definition gap_right (m : blocks) (done l : list Hash) : Prop :=
  level m /\ kids m p = done ++ l /\ done <> [] /\
  packed m (start (iv m p)) (before m (end_ (iv m p) - 1) l - off) done /\
  packed m (start (iv m p)) (end_ (iv m p) - 1) l.

Lemma move_kid (c : ctx) s op i :
  setting fuel root sz (cmap c) -> sizes_ok (cmap c) sz (subtree_sizes c) -> level (cmap c) ->
  s ∈ kids (cmap c) p -> op (iv (cmap c) s) off = Ok i -> wf_interval i -> sz s <= isize i ->
  exists c', apply_interval_op_and_propagate fuel c s off op = Ok c' /\ ctx_step sz c c' /\ level (cmap c') /\
    iv (cmap c') s = i /\ (forall x, ~ anc (cmap c) s x -> iv (cmap c') x = iv (cmap c) x) /\
    (forall x, anc (cmap c) s x -> block_ok (cmap c') x /\ solid (cmap c') x).
Proof.
  intros Hset Hok (Hpd & Hl & Hw & Hso) Hs Hop Hwi Hfit. pose proof (set_tree _ _ _ _ Hset) as T.
  destruct (relayout fuel root sz c s off op i) as (c' & -> & St & Hi & H1 & H2); [try done..|].
  { by apply (tree_child _ _ T) in Hs as (? & _). }
  exists c'. split_and!; try done. pose proof (cs_shape _ _ _ St) as Hsh.
  assert (iv (cmap c') p = iv (cmap c) p) as Hp by (apply H2; by eapply kid_not_anc).
  split; [by rewrite (ss_dom _ _ Hsh)|]. unfold solid. rewrite Hp. split_and!; [|done..].
  intros h Hh HA Hne. rewrite (ss_dom _ _ Hsh) in Hh. rewrite (shape_anc _ _ Hsh) in HA.
  destruct (anc_em _ _ T s h) as [Hs'|Hs']; [by apply H1|].
  eapply outside_ok; eauto.
Qed.

(** A sibling away from [A] fits its own subtree. *)
Lemma sibling_fits m s : setting fuel root sz m -> level m -> s ∈ kids m p -> ~ anc m A s -> ~ anc m s A ->
  sz s <= isize (iv m s).
Proof.
  intros Hset (Hpd & Hl & _) Hs HA1 HA2. pose proof (set_tree _ _ _ _ Hset) as T.
  eapply subtree_fits; [done|by eapply set_sizing|by apply (tree_child _ _ T) in Hs as (? & _)|].
  intros x Hx. apply Hl.
  - eapply anc_dom; eauto. by apply (tree_child _ _ T) in Hs as (? & _).
  - intros Hx'. by destruct (anc_linear _ _ T _ _ _ Hx Hx').
  - intros ->. by eapply kid_not_anc.
Qed.

Definition shifted (d : Z) (i : Interval) : Interval := mkInterval (start i + d) (end_ i + d).

Lemma level_good m : level m -> packed m (start (iv m p)) (end_ (iv m p) - 1) (kids m p) -> good_except A m.
Proof.
  intros (Hpd & Hl & Hw & Hso) Hp h Hh HA. destruct (decide (h = p)) as [->|Hne]; [done|auto].
Qed.

Lemma level_all_good m : tree m root -> level m -> (forall x, anc m A x -> block_ok m x /\ solid m x) ->
  packed m (start (iv m p)) (end_ (iv m p) - 1) (kids m p) -> all_good m.
Proof.
  intros T Hl HA Hp h Hh. destruct (anc_em _ _ T A h) as [?|Hn]; [auto|]. by apply level_good.
Qed.

(** The position of [A] with respect to [p]. *)
Definition beside (m : blocks) : Prop := ~ anc m A p /\ (A ∈ kids m p \/ ~ anc m p A).

Lemma beside_sibling m s : tree m root -> beside m -> s ∈ kids m p -> s <> A -> ~ anc m A s /\ ~ anc m s A.
Proof.
  intros T [H1 H2] Hs Hne. split.
  - intros HA. apply (anc_par _ _ T) in HA as [?|[_ HA]]; [done|].
    apply (tree_child _ _ T) in Hs as (_ & Hp & _). by rewrite Hp in HA.
  - destruct H2 as [H2|H2]; [by eapply sibling_not_anc|]. intros HA. apply H2. by eapply rtc_l.
Qed.

Lemma kids_iv_out m m' (l : list Hash) s :
  tree m root -> s ∉ l -> s ∈ kids m p -> (forall x, x ∈ l -> x ∈ kids m p) ->
  (forall x, ~ anc m s x -> iv m' x = iv m x) -> forall x, x ∈ l -> iv m' x = iv m x.
Proof.
  intros T Hn Hs Hl Hiv x Hx. apply Hiv. eapply sibling_not_anc; eauto. by intros ->.
Qed.

Lemma after_ext m m' lo l : (forall x, x ∈ l -> iv m' x = iv m x) -> after m' lo l = after m lo l.
Proof.
  intros Hl. unfold after. destruct (last l) as [c|] eqn:E; [|done]. by rewrite Hl by (by apply last_Some_elem_of).
Qed.

Lemma packed_after m lo hi l1 l2 : packed m lo hi (l1 ++ l2) <-> packed m lo hi l1 /\ packed m (after m lo l1) hi l2.
Proof. apply packed_app. Qed.

Lemma gap_left_packed m l done : gap_left m l done -> packed m (start (iv m p)) (end_ (iv m p) - 1) (kids m p).
Proof.
  intros (_ & -> & _ & H1 & H2). apply packed_after. split; [done|]. eapply packed_weaken; [..|exact H2]; lia.
Qed.

(** A sibling just before the gap moves right by [off], over the gap. *)
Lemma gap_left_step (c : ctx) l s done :
  setting fuel root sz (cmap c) -> sizes_ok (cmap c) sz (subtree_sizes c) -> gap_left (cmap c) (l ++ [s]) done ->
  beside (cmap c) -> s <> A ->
  exists c', apply_interval_op_and_propagate fuel c s off increase = Ok c' /\ ctx_step sz c c' /\
    gap_left (cmap c') l (s :: done) /\ iv (cmap c') s = shifted off (iv (cmap c) s) /\
    (forall x, ~ anc (cmap c) s x -> iv (cmap c') x = iv (cmap c) x).
Proof.
  intros Hset Hok (Hl & Hk & Hne & P1 & P2) Hb HsA. pose proof (set_tree _ _ _ _ Hset) as T.
  pose proof Hl as (Hpd & _ & Hwp & _).
  assert (s ∈ kids (cmap c) p) as Hs by (rewrite Hk; set_solver).
  destruct (beside_sibling _ s T Hb Hs HsA) as [HA1 HA2].
  pose proof (sibling_fits _ _ Hset Hl Hs HA1 HA2) as Hfit.
  apply packed_after in P1 as [P1 (Q1 & Q2 & Q3 & _)].
  unfold after in P2 at 1. rewrite last_snoc in P2.
  destruct done as [|d done]; [done|]. destruct P2 as (R1 & R2 & R3 & R4).
  destruct Hwp as (W1 & W2 & W3).
  assert (after (cmap c) (start (iv (cmap c) p)) l >= start (iv (cmap c) p)) as Haft.
  { unfold after. destruct (last l) as [x|] eqn:E; [|lia].
    destruct (packed_in _ _ _ _ x P1); [by apply last_Some_elem_of|]. lia. }
  destruct (move_kid c s increase (shifted off (iv (cmap c) s))) as (c' & -> & St & Hl' & Hi & Hout & _); try done.
  { unfold increase, u64_max, umax in *. do 2 (rewrite add_ok by (unfold in_u; lia); run). done. }
  { unfold wf_interval, shifted; cbn. lia. }
  { unfold isize, shifted in *; cbn. lia. }
  exists c'. split_and!; try done. pose proof (cs_shape _ _ _ St) as Hsh.
  pose proof (tree_nodup _ _ T p) as Hnd. rewrite Hk, <-app_assoc in Hnd.
  assert (s ∉ l /\ s ∉ d :: done) as [Hsl Hsd].
  { apply NoDup_app in Hnd as (_ & Hnd & Hnd2). apply NoDup_cons in Hnd2 as [? _]. split; [|done].
    intros Hin. apply (Hnd s Hin). left. }
  assert (forall x, x ∈ l -> iv (cmap c') x = iv (cmap c) x) as Hil.
  { eapply kids_iv_out; eauto. intros x Hx. rewrite Hk, !elem_of_app. auto. }
  assert (forall x, x ∈ d :: done -> iv (cmap c') x = iv (cmap c) x) as Hid.
  { eapply kids_iv_out; eauto. intros x Hx. rewrite Hk, elem_of_app. auto. }
  assert (iv (cmap c') p = iv (cmap c) p) as Hp by (apply Hout; by eapply kid_not_anc).
  unfold gap_left. rewrite Hp. split_and!; [done| |done|by eapply packed_ext|].
  - rewrite (ss_kids _ _ Hsh), Hk. by rewrite <-app_assoc.
  - cbn [packed]. rewrite Hi, (after_ext _ _ _ _ Hil), (Hid d) by left. cbn [shifted start end_].
    split_and!; try lia. eapply packed_ext; [|exact R4].
    intros x Hx. apply Hid. by right.
Qed.

(** Reaching [A]: its end moves right over the gap. *)
Lemma gap_left_alloc (c : ctx) l done :
  setting fuel root sz (cmap c) -> sizes_ok (cmap c) sz (subtree_sizes c) -> gap_left (cmap c) (l ++ [A]) done ->
  sz A <= isize (iv (cmap c) A) + off ->
  exists c', apply_interval_op_and_propagate fuel c A off increase_end = Ok c' /\ ctx_step sz c c' /\
    all_good (cmap c') /\ (forall x, ~ anc (cmap c) A x -> iv (cmap c') x = iv (cmap c) x).
Proof.
  intros Hset Hok (Hl & Hk & Hne & P1 & P2) Hfit. pose proof (set_tree _ _ _ _ Hset) as T.
  pose proof Hl as (Hpd & _ & (W1 & W2 & W3) & _).
  assert (A ∈ kids (cmap c) p) as Hs by (rewrite Hk; set_solver).
  destruct (packed_in _ _ _ _ A P1 ltac:(set_solver)) as (Q1 & Q2 & Q3).
  unfold after in P2 at 1. rewrite last_snoc in P2.
  destruct done as [|d done]; [done|]. pose proof P2 as (R1 & R2 & R3 & _).
  destruct (move_kid c A increase_end (mkInterval (start (iv (cmap c) A)) (end_ (iv (cmap c) A) + off)))
    as (c' & -> & St & Hl' & Hi & Hout & Hin); try done.
  { unfold increase_end, u64_max, umax in *. rewrite add_ok by (unfold in_u; lia). run. done. }
  { unfold wf_interval; cbn. lia. }
  { unfold isize in *; cbn. lia. }
  exists c'. split_and!; try done. pose proof (cs_shape _ _ _ St) as Hsh.
  assert (iv (cmap c') p = iv (cmap c) p) as Hp by (apply Hout; by eapply kid_not_anc).
  assert (forall x, x ∈ kids (cmap c) p -> x <> A -> iv (cmap c') x = iv (cmap c) x) as Hkid.
  { intros x Hx HxA. apply Hout. eapply sibling_not_anc; eauto. }
  pose proof (tree_nodup _ _ T p) as Hnd. rewrite Hk in Hnd, Hkid. rewrite <-app_assoc in Hnd.
  apply NoDup_app in Hnd as (_ & Hn1 & Hn2). apply NoDup_cons in Hn2 as [Hn2 _].
  apply (level_all_good _ (shape_tree _ _ Hsh _ T) Hl').
  { intros x. rewrite (shape_anc _ _ Hsh). auto. }
  rewrite Hp, (ss_kids _ _ Hsh), Hk, <-app_assoc. apply packed_after in P1 as [P1 (Q1' & _)].
  assert (forall x, x ∈ l -> iv (cmap c') x = iv (cmap c) x) as Hil.
  { intros x Hx. apply Hkid; [rewrite !elem_of_app; auto|]. intros ->. apply (Hn1 A Hx). left. }
  apply packed_after. split; [by eapply packed_ext|].
  cbn [app packed]. rewrite Hi, (after_ext _ _ _ _ Hil). cbn [start end_]. split_and!; [lia..| | | |];
    rewrite ?(Hkid d) by (first [rewrite !elem_of_app; right; left|intros ->; apply Hn2; left]); try lia.
  destruct P2 as (_ & _ & _ & P2). eapply packed_ext; [|exact P2].
  intros x Hx. apply Hkid; [rewrite !elem_of_app; right; by right|]. intros ->. apply Hn2. by right.
Qed.

Lemma shift_left_siblings l : forall (c : ctx) done,
  setting fuel root sz (cmap c) -> sizes_ok (cmap c) sz (subtree_sizes c) -> gap_left (cmap c) l done ->
  beside (cmap c) -> (A ∈ kids (cmap c) p -> A ∈ l /\ sz A <= isize (iv (cmap c) A) + off) ->
  exists c', offset_siblings fuel c (reverse l) A off increase_end increase = Ok c' /\ ctx_step sz c c' /\
    (forall x, ~ anc (cmap c) p x \/ x = p -> iv (cmap c') x = iv (cmap c) x) /\
    (A ∈ l -> all_good (cmap c')) /\
    (A ∉ l -> good_except A (cmap c') /\ (forall x, x ∈ l -> iv (cmap c') x = shifted off (iv (cmap c) x)) /\
      (forall x, x ∈ done -> iv (cmap c') x = iv (cmap c) x)).
Proof.
  induction l as [|s l IH] using rev_ind; intros c done Hset Hok Hg Hb HA.
  { exists c. rewrite reverse_nil. split; [done|]. split; [by constructor|]. split; [done|].
    split; [by intros ?%elem_of_nil|]. intros _. split_and!; [|by intros ? ?%elem_of_nil|done].
    apply level_good; [apply Hg|]. by eapply gap_left_packed. }
  pose proof (set_tree _ _ _ _ Hset) as T.
  assert (s ∈ kids (cmap c) p) as Hs by (destruct Hg as (_ & -> & _); mem).
  rewrite reverse_app. cbn [reverse rev_append app offset_siblings].
  destruct (Z.eqb_spec s A) as [->|Hne].
  - destruct (gap_left_alloc c l done) as (c' & -> & St & Hall & Hout); [try done..|by apply HA|].
    exists c'. split_and!; try done; [|intros HAl; destruct HAl; mem].
    intros x Hx. apply Hout. destruct Hx as [Hx| ->]; [|by eapply kid_not_anc].
    intros HA'. apply Hx. by eapply rtc_l.
  - destruct (gap_left_step c l s done) as (c1 & -> & St & Hg1 & Hi & Hout); [done..|]. run.
    pose proof (cs_shape _ _ _ St) as Hsh.
    destruct (beside_sibling _ _ T Hb Hs Hne) as [HA1 HA2].
    assert (iv (cmap c1) A = iv (cmap c) A) as HiA by auto.
    destruct (IH c1 (s :: done)) as (c' & Hc' & St' & H1 & H2 & H3).
    + by eapply setting_shape.
    + by eapply cs_sizes.
    + done.
    + unfold beside. rewrite !(shape_anc _ _ Hsh), (ss_kids _ _ Hsh). done.
    + rewrite (ss_kids _ _ Hsh), HiA. intros HAk. destruct (HA HAk) as [HAl ?]. split; [|done].
      apply elem_of_app in HAl as [?|HAl%list_elem_of_singleton]; [done|congruence].
    + exists c'. split; [done|]. split; [by eapply ctx_step_trans|].
      assert (forall x, ~ anc (cmap c) p x \/ x = p -> ~ anc (cmap c) s x) as Hps.
      { intros x [Hx| ->] Hsx; [apply Hx; by eapply rtc_l|by eapply kid_not_anc]. }
      split; [intros x Hx; rewrite H1 by (rewrite (shape_anc _ _ Hsh); done); by apply Hout, Hps|].
      split; [intros HAl; apply H2; apply elem_of_app in HAl as [?|HAl%list_elem_of_singleton]; [done|congruence]|].
      intros HAl. destruct (H3 ltac:(intros ?; apply HAl; mem)) as (G & Sl & Sd).
      pose proof (tree_nodup _ _ T p) as Hnd. destruct Hg as (_ & Hk & _). rewrite Hk in Hnd.
      split_and!; [done| |].
      * intros x [Hx|Hx]%elem_of_app.
        -- rewrite Sl by done. f_equal. apply Hout. eapply sibling_not_anc; eauto; [rewrite Hk; mem|].
           intros ->. rewrite <-app_assoc in Hnd. apply NoDup_app in Hnd as (_ & Hnd & _). apply (Hnd x Hx). left.
        -- apply list_elem_of_singleton in Hx as ->. rewrite Sd by left. done.
      * intros x Hx. rewrite Sd by (by right). apply Hout. eapply sibling_not_anc; eauto; [rewrite Hk; mem|].
        intros ->. apply NoDup_app in Hnd as (_ & Hnd & _). apply (Hnd x); [mem|done].
Qed.

(** Narrowing the chain block [K] opens the gap. *)
Lemma open_level (c c1 : ctx) K :
  setting fuel root sz (cmap c) -> good_except A (cmap c) -> ~ anc (cmap c) A p -> K ∈ kids (cmap c) p ->
  ctx_step sz c c1 -> (forall x, ~ anc (cmap c) K x -> iv (cmap c1) x = iv (cmap c) x) ->
  (forall x, anc (cmap c) K x -> block_ok (cmap c1) x /\ solid (cmap c1) x) -> level (cmap c1).
Proof.
  intros Hset Hg HAp HK St Hout Hin. pose proof (set_tree _ _ _ _ Hset) as T.
  pose proof (cs_shape _ _ _ St) as Hsh. pose proof (kids_dom _ _ _ HK) as Hpd.
  assert (iv (cmap c1) p = iv (cmap c) p) as Hp by (apply Hout; by eapply kid_not_anc).
  destruct (Hg p Hpd HAp) as [[Hw _] Hso].
  split; [by rewrite (ss_dom _ _ Hsh)|]. unfold solid. rewrite Hp. split_and!; [|done..].
  intros h Hh HA Hne. rewrite (ss_dom _ _ Hsh) in Hh. rewrite (shape_anc _ _ Hsh) in HA.
  destruct (anc_em _ _ T K h) as [Hs'|Hs']; [by apply Hin|]. eapply outside_ok; eauto.
Qed.

Lemma open_gap_left (c c1 : ctx) K pre post :
  setting fuel root sz (cmap c) -> good_except A (cmap c) -> ~ anc (cmap c) A p ->
  kids (cmap c) p = pre ++ K :: post ->
  ctx_step sz c c1 -> (forall x, ~ anc (cmap c) K x -> iv (cmap c1) x = iv (cmap c) x) ->
  (forall x, anc (cmap c) K x -> block_ok (cmap c1) x /\ solid (cmap c1) x) ->
  iv (cmap c1) K = mkInterval (start (iv (cmap c) K) + off) (end_ (iv (cmap c) K)) ->
  gap_left (cmap c1) pre (K :: post).
Proof.
  intros Hset Hg HAp Hk St Hout Hin Hi. pose proof (set_tree _ _ _ _ Hset) as T.
  pose proof (cs_shape _ _ _ St) as Hsh.
  assert (K ∈ kids (cmap c) p) as HK by (rewrite Hk; mem). pose proof (kids_dom _ _ _ HK) as Hpd.
  assert (iv (cmap c1) p = iv (cmap c) p) as Hp by (apply Hout; by eapply kid_not_anc).
  destruct (Hg p Hpd HAp) as [[Hw Hpk] Hso].
  pose proof (tree_nodup _ _ T p) as Hnd. rewrite Hk in Hnd, Hpk.
  apply NoDup_app in Hnd as (_ & Hn1 & Hn2). apply NoDup_cons in Hn2 as [Hn2 _].
  assert (forall x, x ∈ pre -> iv (cmap c1) x = iv (cmap c) x) as Hipre.
  { eapply kids_iv_out; eauto; [intros HKp; apply (Hn1 K HKp); left|]. intros x Hx. rewrite Hk. mem. }
  assert (forall x, x ∈ post -> iv (cmap c1) x = iv (cmap c) x) as Hipost.
  { eapply kids_iv_out; eauto. intros x Hx. rewrite Hk. mem. }
  apply packed_after in Hpk as [Pk1 (Q1 & Q2 & Q3 & Pk2)].
  destruct (Hin K ltac:(apply rtc_refl)) as [_ HsoK]. unfold solid, isize in HsoK. rewrite Hi in HsoK. cbn in HsoK.
  split; [by eapply open_level|]. rewrite Hp. split_and!; [by rewrite (ss_kids _ _ Hsh)|done|by eapply packed_ext|].
  cbn [packed]. rewrite Hi, (after_ext _ _ _ _ Hipre). cbn [start end_]. split_and!; try lia. by eapply packed_ext.
Qed.

(** The space before the first child. *)
Definition room_left (m : blocks) (h : Hash) : Z :=
  before m (end_ (iv m h) - 1) (kids m h) - start (iv m h) + 1.

(** What adjusting one level of the chain establishes: nothing changes outside
    the strict descendants of [p]; if [A] is a child of [p] everything is laid
    out, otherwise the room of [p] has grown by [off]. *)
Definition adjusted (room : blocks -> Hash -> Z) (c c' : ctx) : Prop :=
  ctx_step sz c c' /\ (forall x, ~ anc (cmap c) p x \/ x = p -> iv (cmap c') x = iv (cmap c) x) /\
  (A ∈ kids (cmap c) p -> all_good (cmap c')) /\
  (A ∉ kids (cmap c) p -> good_except A (cmap c') /\ room (cmap c') p = room (cmap c) p + off).

Lemma split_children_ok cs pre K post :
  NoDup cs -> cs = pre ++ K :: post -> split_children cs K = Ok (pre, post).
Proof.
  intros Hnd ->. unfold split_children.
  assert (position (fun c => c =? K) (pre ++ K :: post) = Some (length pre)) as ->.
  { induction pre as [|x pre IH]; cbn; [by rewrite Z.eqb_refl|].
    cbn in Hnd. apply NoDup_cons in Hnd as [Hx Hnd]. destruct (Z.eqb_spec x K) as [->|Hne]; [set_solver|].
    by rewrite IH. }
  f_equal. f_equal; [by rewrite take_app_length|]. rewrite <-(app_nil_r pre) at 1.
  rewrite drop_app_ge by (rewrite app_nil_r; lia). rewrite app_nil_r. replace (S (length pre) - length pre)%nat with 1%nat by lia. done.
Qed.

Lemma adjust_left (c c1 : ctx) K pre post :
  setting fuel root sz (cmap c) -> good_except A (cmap c) -> beside (cmap c) ->
  kids (cmap c) p = pre ++ K :: post -> K <> A ->
  ctx_step sz c c1 -> (forall x, ~ anc (cmap c) K x -> iv (cmap c1) x = iv (cmap c) x) ->
  (forall x, anc (cmap c) K x -> block_ok (cmap c1) x /\ solid (cmap c1) x) ->
  iv (cmap c1) K = mkInterval (start (iv (cmap c) K) + off) (end_ (iv (cmap c) K)) ->
  (A ∈ kids (cmap c) p -> A ∈ pre /\ sz A <= isize (iv (cmap c) A) + off) ->
  exists c', offset_siblings_before fuel c1 A K off = Ok c' /\ adjusted room_left c c'.
Proof.
  intros Hset Hg Hb Hk HKA St Hout Hin Hi HA. pose proof (set_tree _ _ _ _ Hset) as T.
  pose proof (cs_shape _ _ _ St) as Hsh.
  assert (K ∈ kids (cmap c) p) as HK by (rewrite Hk; mem).
  destruct (beside_sibling _ K T Hb HK HKA) as [HA1 HA2].
  pose proof (tree_child _ _ T _ _ HK) as (HKd & HKp & _). pose proof (kids_dom _ _ _ HK) as Hpd.
  unfold offset_siblings_before.
  rewrite get_parent_ok by (by rewrite (ss_dom _ _ Hsh)). run. rewrite (ss_par _ _ Hsh), HKp.
  rewrite get_children_ok by (by rewrite (ss_dom _ _ Hsh)). run. rewrite (ss_kids _ _ Hsh).
  rewrite (split_children_ok _ pre K post); [run|apply (tree_nodup _ _ T)|done].
  destruct (shift_left_siblings pre c1 (K :: post)) as (c' & -> & St' & H1 & H2 & H3).
  { by eapply setting_shape. }
  { by eapply cs_sizes. }
  { eapply open_gap_left; eauto. apply Hb. }
  { unfold beside. rewrite !(shape_anc _ _ Hsh), (ss_kids _ _ Hsh). done. }
  { rewrite (ss_kids _ _ Hsh), (Hout A HA2). done. }
  exists c'. split; [done|].
  assert (forall x, ~ anc (cmap c) p x \/ x = p -> iv (cmap c') x = iv (cmap c) x) as Hsame.
  { intros x Hx. rewrite H1 by (by rewrite (shape_anc _ _ Hsh)). apply Hout.
    destruct Hx as [Hx| ->]; [|by eapply kid_not_anc]. intros Hs'. apply Hx. by eapply rtc_l. }
  split; [by eapply ctx_step_trans|]. split; [done|].
  split; [intros HAk; by apply H2, HA|]. intros HAk.
  assert (A ∉ pre) as HAp by (intros HAp; apply HAk; rewrite Hk; mem).
  destruct (H3 HAp) as (G & Sl & Sd). split; [done|].
  unfold room_left. rewrite (ss_kids _ _ (cs_shape _ _ _ St')), (ss_kids _ _ Hsh), Hk, (Hsame p) by auto.
  pose proof (tree_nodup _ _ T p) as Hnd. rewrite Hk in Hnd. apply NoDup_app in Hnd as (_ & Hn1 & _).
  destruct pre as [|x pre]; cbn [before app head].
  - unfold before. cbn [head]. rewrite Sd, Hi by left. cbn. lia.
  - unfold before. cbn [head]. rewrite Sl by left. cbn. rewrite Hout; [lia|].
    eapply sibling_not_anc; eauto; [rewrite Hk; left|]. intros ->. apply (Hn1 x); [left|left].
Qed.

(** ** The siblings on the right *)

Lemma before_ext m m' hi l : (forall x, x ∈ l -> iv m' x = iv m x) -> before m' hi l = before m hi l.
Proof. intros Hl. unfold before. destruct l as [|c l]; cbn; [done|]. by rewrite Hl by left. Qed.

Lemma after_le m lo h l : packed m lo h l -> l <> [] -> lo <= after m lo l <= h + 1.
Proof.
  intros Hp Hne. unfold after. destruct (last l) as [c|] eqn:E; [|by apply last_None in E].
  destruct (packed_in _ _ _ _ c Hp); [by apply last_Some_elem_of|]. lia.
Qed.

Lemma packed_snoc m lo h l s : packed m lo (start (iv m s) - 1) l -> lo <= start (iv m s) ->
  start (iv m s) - 1 <= end_ (iv m s) <= h -> packed m lo h (l ++ [s]).
Proof.
  intros Hp H1 H2. apply packed_after. split; [eapply packed_weaken; [..|exact Hp]; lia|]. cbn.
  destruct (decide (l = [])) as [->|Hne]; [cbn; lia|]. pose proof (after_le _ _ _ _ Hp Hne). lia.
Qed.

Lemma gap_right_packed m done l : gap_right m done l -> packed m (start (iv m p)) (end_ (iv m p) - 1) (kids m p).
Proof.
  intros (_ & -> & Hne & H1 & H2). pose proof (after_le _ _ _ _ H1 Hne) as Ha. apply packed_after.
  destruct l as [|s l]; cbn in *.
  - split; [|done]. eapply packed_weaken; [..|exact H1]; lia.
  - destruct H2 as (Q1 & Q2 & Q3 & Q4). split; [eapply packed_weaken; [..|exact H1]; lia|]. split_and!; try done. lia.
Qed.

(** A sibling just after the gap moves left by [off], over the gap. *)
Lemma gap_right_step (c : ctx) l s done :
  setting fuel root sz (cmap c) -> sizes_ok (cmap c) sz (subtree_sizes c) -> gap_right (cmap c) done (s :: l) ->
  beside (cmap c) -> s <> A ->
  exists c', apply_interval_op_and_propagate fuel c s off decrease = Ok c' /\ ctx_step sz c c' /\
    gap_right (cmap c') (done ++ [s]) l /\ iv (cmap c') s = shifted (- off) (iv (cmap c) s) /\
    (forall x, ~ anc (cmap c) s x -> iv (cmap c') x = iv (cmap c) x).
Proof.
  intros Hset Hok (Hl & Hk & Hne & P1 & P2) Hb HsA. pose proof (set_tree _ _ _ _ Hset) as T.
  pose proof Hl as (Hpd & _ & (W1 & W2 & W3) & _).
  assert (s ∈ kids (cmap c) p) as Hs by (rewrite Hk; mem).
  destruct (beside_sibling _ s T Hb Hs HsA) as [HA1 HA2].
  pose proof (sibling_fits _ _ Hset Hl Hs HA1 HA2) as Hfit.
  destruct P2 as (Q1 & Q2 & Q3 & Q4). cbn [before head] in P1. unfold before in P1. cbn [head] in P1.
  pose proof (after_le _ _ _ _ P1 Hne) as Haft.
  destruct (move_kid c s decrease (shifted (- off) (iv (cmap c) s))) as (c' & -> & St & Hl' & Hi & Hout & _); try done.
  { unfold decrease, u64_max, umax in *. do 2 (rewrite sub_ok by (unfold in_u; lia); run). done. }
  { unfold wf_interval, shifted; cbn. lia. }
  { unfold isize, shifted in *; cbn. lia. }
  exists c'. split_and!; try done. pose proof (cs_shape _ _ _ St) as Hsh.
  pose proof (tree_nodup _ _ T p) as Hnd. rewrite Hk in Hnd.
  assert (s ∉ l /\ s ∉ done) as [Hsl Hsd].
  { apply NoDup_app in Hnd as (_ & Hnd & Hnd2). apply NoDup_cons in Hnd2 as [? _]. split; [done|].
    intros Hin. apply (Hnd s Hin). left. }
  assert (forall x, x ∈ l -> iv (cmap c') x = iv (cmap c) x) as Hil.
  { eapply kids_iv_out; eauto. intros x Hx. rewrite Hk. mem. }
  assert (forall x, x ∈ done -> iv (cmap c') x = iv (cmap c) x) as Hid.
  { eapply kids_iv_out; eauto. intros x Hx. rewrite Hk. mem. }
  assert (iv (cmap c') p = iv (cmap c) p) as Hp by (apply Hout; by eapply kid_not_anc).
  assert (end_ (iv (cmap c) s) <= before (cmap c) (end_ (iv (cmap c) p) - 1) l) as Hbef.
  { unfold before. destruct l as [|y l]; cbn in *; lia. }
  unfold gap_right. rewrite Hp. split_and!; [done| |by destruct done| |].
  - rewrite (ss_kids _ _ Hsh), Hk. by rewrite <-app_assoc.
  - rewrite (before_ext _ _ _ _ Hil). apply packed_snoc; rewrite Hi; cbn [shifted start end_]; try lia.
    eapply packed_ext; [exact Hid|]. eapply packed_weaken; [..|exact P1]; lia.
  - eapply packed_ext; [exact Hil|]. eapply packed_weaken; [..|exact Q4]; lia.
Qed.

Lemma gap_right_alloc (c : ctx) l done :
  setting fuel root sz (cmap c) -> sizes_ok (cmap c) sz (subtree_sizes c) -> gap_right (cmap c) done (A :: l) ->
  sz A <= isize (iv (cmap c) A) + off ->
  exists c', apply_interval_op_and_propagate fuel c A off decrease_start = Ok c' /\ ctx_step sz c c' /\
    all_good (cmap c') /\ (forall x, ~ anc (cmap c) A x -> iv (cmap c') x = iv (cmap c) x).
Proof.
  intros Hset Hok (Hl & Hk & Hne & P1 & P2) Hfit. pose proof (set_tree _ _ _ _ Hset) as T.
  pose proof Hl as (Hpd & _ & (W1 & W2 & W3) & _).
  assert (A ∈ kids (cmap c) p) as Hs by (rewrite Hk; mem).
  destruct P2 as (Q1 & Q2 & Q3 & Q4). unfold before in P1. cbn [head] in P1.
  pose proof (after_le _ _ _ _ P1 Hne) as Haft.
  destruct (move_kid c A decrease_start (mkInterval (start (iv (cmap c) A) - off) (end_ (iv (cmap c) A))))
    as (c' & -> & St & Hl' & Hi & Hout & Hin); try done.
  { unfold decrease_start, u64_max, umax in *. rewrite sub_ok by (unfold in_u; lia). run. done. }
  { unfold wf_interval; cbn. lia. }
  { unfold isize in *; cbn. lia. }
  exists c'. split_and!; try done. pose proof (cs_shape _ _ _ St) as Hsh.
  assert (iv (cmap c') p = iv (cmap c) p) as Hp by (apply Hout; by eapply kid_not_anc).
  assert (forall x, x ∈ kids (cmap c) p -> x <> A -> iv (cmap c') x = iv (cmap c) x) as Hkid.
  { intros x Hx HxA. apply Hout. eapply sibling_not_anc; eauto. }
  pose proof (tree_nodup _ _ T p) as Hnd. rewrite Hk in Hnd, Hkid.
  apply NoDup_app in Hnd as (_ & Hn1 & Hn2). apply NoDup_cons in Hn2 as [Hn2 _].
  apply (level_all_good _ (shape_tree _ _ Hsh _ T) Hl').
  { intros x. rewrite (shape_anc _ _ Hsh). auto. }
  assert (forall x, x ∈ done -> iv (cmap c') x = iv (cmap c) x) as Hid.
  { intros x Hx. apply Hkid; [mem|]. intros ->. apply (Hn1 A Hx). left. }
  rewrite Hp, (ss_kids _ _ Hsh), Hk. change (A :: l) with ([A] ++ l). rewrite app_assoc. apply packed_after.
  unfold after. rewrite last_snoc, Hi. split.
  - apply packed_snoc; rewrite Hi; cbn; try lia. eapply packed_ext; [exact Hid|].
    eapply packed_weaken; [..|exact P1]; lia.
  - eapply packed_ext; [|exact Q4]. intros x Hx. apply Hkid; [mem|]. by intros ->.
Qed.

Lemma shift_right_siblings l : forall (c : ctx) done,
  setting fuel root sz (cmap c) -> sizes_ok (cmap c) sz (subtree_sizes c) -> gap_right (cmap c) done l ->
  beside (cmap c) -> (A ∈ kids (cmap c) p -> A ∈ l /\ sz A <= isize (iv (cmap c) A) + off) ->
  exists c', offset_siblings fuel c l A off decrease_start decrease = Ok c' /\ ctx_step sz c c' /\
    (forall x, ~ anc (cmap c) p x \/ x = p -> iv (cmap c') x = iv (cmap c) x) /\
    (A ∈ l -> all_good (cmap c')) /\
    (A ∉ l -> good_except A (cmap c') /\ (forall x, x ∈ l -> iv (cmap c') x = shifted (- off) (iv (cmap c) x)) /\
      (forall x, x ∈ done -> iv (cmap c') x = iv (cmap c) x)).
Proof.
  induction l as [|s l IH]; intros c done Hset Hok Hg Hb HA.
  { exists c. split; [done|]. split; [by constructor|]. split; [done|].
    split; [by intros ?%elem_of_nil|]. intros _. split_and!; [|by intros ? ?%elem_of_nil|done].
    apply level_good; [apply Hg|]. by eapply gap_right_packed. }
  pose proof (set_tree _ _ _ _ Hset) as T.
  assert (s ∈ kids (cmap c) p) as Hs by (destruct Hg as (_ & -> & _); mem).
  cbn [offset_siblings]. destruct (Z.eqb_spec s A) as [->|Hne].
  - destruct (gap_right_alloc c l done) as (c' & -> & St & Hall & Hout); [try done..|by apply HA|].
    exists c'. split_and!; try done; [|intros HAl; destruct HAl; mem].
    intros x Hx. apply Hout. destruct Hx as [Hx| ->]; [|by eapply kid_not_anc].
    intros HA'. apply Hx. by eapply rtc_l.
  - destruct (gap_right_step c l s done) as (c1 & -> & St & Hg1 & Hi & Hout); [done..|]. run.
    pose proof (cs_shape _ _ _ St) as Hsh.
    destruct (beside_sibling _ _ T Hb Hs Hne) as [HA1 HA2].
    assert (iv (cmap c1) A = iv (cmap c) A) as HiA by auto.
    destruct (IH c1 (done ++ [s])) as (c' & Hc' & St' & H1 & H2 & H3).
    + by eapply setting_shape.
    + by eapply cs_sizes.
    + done.
    + unfold beside. rewrite !(shape_anc _ _ Hsh), (ss_kids _ _ Hsh). done.
    + rewrite (ss_kids _ _ Hsh), HiA. intros HAk. destruct (HA HAk) as [HAl ?]. split; [|done].
      apply elem_of_cons in HAl as [HAl|?]; [congruence|done].
    + exists c'. split; [done|]. split; [by eapply ctx_step_trans|].
      assert (forall x, ~ anc (cmap c) p x \/ x = p -> ~ anc (cmap c) s x) as Hps.
      { intros x [Hx| ->] Hsx; [apply Hx; by eapply rtc_l|by eapply kid_not_anc]. }
      split; [intros x Hx; rewrite H1 by (rewrite (shape_anc _ _ Hsh); done); by apply Hout, Hps|].
      split; [intros HAl; apply H2; apply elem_of_cons in HAl as [HAl|?]; [congruence|done]|].
      intros HAl. destruct (H3 ltac:(intros ?; apply HAl; mem)) as (G & Sl & Sd).
      pose proof (tree_nodup _ _ T p) as Hnd. destruct Hg as (_ & Hk & _). rewrite Hk in Hnd.
      apply NoDup_app in Hnd as (_ & Hn1 & Hn2). apply NoDup_cons in Hn2 as [Hn2 _].
      split_and!; [done| |].
      * intros x [->|Hx]%elem_of_cons.
        -- rewrite Sd by mem. done.
        -- rewrite Sl by done. f_equal. apply Hout. eapply sibling_not_anc; eauto; [rewrite Hk; mem|]. by intros ->.
      * intros x Hx. rewrite Sd by mem. apply Hout. eapply sibling_not_anc; eauto; [rewrite Hk; mem|].
        intros ->. apply (Hn1 x Hx). left.
Qed.

Lemma open_gap_right (c c1 : ctx) K pre post :
  setting fuel root sz (cmap c) -> good_except A (cmap c) -> ~ anc (cmap c) A p ->
  kids (cmap c) p = pre ++ K :: post ->
  ctx_step sz c c1 -> (forall x, ~ anc (cmap c) K x -> iv (cmap c1) x = iv (cmap c) x) ->
  (forall x, anc (cmap c) K x -> block_ok (cmap c1) x /\ solid (cmap c1) x) ->
  iv (cmap c1) K = mkInterval (start (iv (cmap c) K)) (end_ (iv (cmap c) K) - off) ->
  gap_right (cmap c1) (pre ++ [K]) post.
Proof.
  intros Hset Hg HAp Hk St Hout Hin Hi. pose proof (set_tree _ _ _ _ Hset) as T.
  pose proof (cs_shape _ _ _ St) as Hsh.
  assert (K ∈ kids (cmap c) p) as HK by (rewrite Hk; mem). pose proof (kids_dom _ _ _ HK) as Hpd.
  assert (iv (cmap c1) p = iv (cmap c) p) as Hp by (apply Hout; by eapply kid_not_anc).
  destruct (Hg p Hpd HAp) as [[Hw Hpk] Hso].
  pose proof (tree_nodup _ _ T p) as Hnd. rewrite Hk in Hnd, Hpk.
  apply NoDup_app in Hnd as (_ & Hn1 & Hn2). apply NoDup_cons in Hn2 as [Hn2 _].
  assert (forall x, x ∈ pre -> iv (cmap c1) x = iv (cmap c) x) as Hipre.
  { eapply kids_iv_out; eauto; [intros HKp; apply (Hn1 K HKp); left|]. intros x Hx. rewrite Hk. mem. }
  assert (forall x, x ∈ post -> iv (cmap c1) x = iv (cmap c) x) as Hipost.
  { eapply kids_iv_out; eauto. intros x Hx. rewrite Hk. mem. }
  pose proof Hpk as Hpk'. apply packed_after in Hpk' as [Pk1 (Q1 & Q2 & Q3 & Pk2)].
  assert (packed (cmap c) (start (iv (cmap c) p)) (start (iv (cmap c) K) - 1) pre) as Pk1'.
  { clear -Hpk. generalize dependent (start (iv (cmap c) p)). induction pre as [|x pre IH]; intros lo; cbn [app packed]; [done|].
    intros (? & ? & ? & Hp). split_and!; try done; [|by apply IH].
    destruct (packed_in _ _ _ _ K Hp); [mem|]. lia. }
  destruct (Hin K ltac:(apply rtc_refl)) as [_ HsoK]. unfold solid, isize in HsoK. rewrite Hi in HsoK. cbn in HsoK.
  assert (start (iv (cmap c) p) <= start (iv (cmap c) K)) as HpK.
  { destruct (packed_in _ _ _ _ K Hpk); [mem|]. lia. }
  assert (end_ (iv (cmap c) K) <= before (cmap c) (end_ (iv (cmap c) p) - 1) post) as Hbef.
  { unfold before. destruct post as [|y post]; cbn in *; lia. }
  split; [by eapply open_level|]. rewrite Hp.
  split_and!; [by rewrite (ss_kids _ _ Hsh), Hk, <-app_assoc|by destruct pre| |].
  - rewrite (before_ext _ _ _ _ Hipost). apply packed_snoc; rewrite Hi; cbn [start end_]; try lia.
    eapply packed_ext; [exact Hipre|]. done.
  - eapply packed_ext; [exact Hipost|]. eapply packed_weaken; [..|exact Pk2]; lia.
Qed.

(** The space after the last child. *)
Definition room_right (m : blocks) (h : Hash) : Z := end_ (iv m h) - after m (start (iv m h)) (kids m h).

Lemma adjust_right (c c1 : ctx) K pre post :
  setting fuel root sz (cmap c) -> good_except A (cmap c) -> beside (cmap c) ->
  kids (cmap c) p = pre ++ K :: post -> K <> A ->
  ctx_step sz c c1 -> (forall x, ~ anc (cmap c) K x -> iv (cmap c1) x = iv (cmap c) x) ->
  (forall x, anc (cmap c) K x -> block_ok (cmap c1) x /\ solid (cmap c1) x) ->
  iv (cmap c1) K = mkInterval (start (iv (cmap c) K)) (end_ (iv (cmap c) K) - off) ->
  (A ∈ kids (cmap c) p -> A ∈ post /\ sz A <= isize (iv (cmap c) A) + off) ->
  exists c', offset_siblings_after fuel c1 A K off = Ok c' /\ adjusted room_right c c'.
Proof.
  intros Hset Hg Hb Hk HKA St Hout Hin Hi HA. pose proof (set_tree _ _ _ _ Hset) as T.
  pose proof (cs_shape _ _ _ St) as Hsh.
  assert (K ∈ kids (cmap c) p) as HK by (rewrite Hk; mem).
  destruct (beside_sibling _ K T Hb HK HKA) as [HA1 HA2].
  pose proof (tree_child _ _ T _ _ HK) as (HKd & HKp & _). pose proof (kids_dom _ _ _ HK) as Hpd.
  unfold offset_siblings_after.
  rewrite get_parent_ok by (by rewrite (ss_dom _ _ Hsh)). run. rewrite (ss_par _ _ Hsh), HKp.
  rewrite get_children_ok by (by rewrite (ss_dom _ _ Hsh)). run. rewrite (ss_kids _ _ Hsh).
  rewrite (split_children_ok _ pre K post); [run|apply (tree_nodup _ _ T)|done].
  destruct (shift_right_siblings post c1 (pre ++ [K])) as (c' & -> & St' & H1 & H2 & H3).
  { by eapply setting_shape. }
  { by eapply cs_sizes. }
  { eapply open_gap_right; eauto. apply Hb. }
  { unfold beside. rewrite !(shape_anc _ _ Hsh), (ss_kids _ _ Hsh). done. }
  { rewrite (ss_kids _ _ Hsh), (Hout A HA2). done. }
  exists c'. split; [done|].
  assert (forall x, ~ anc (cmap c) p x \/ x = p -> iv (cmap c') x = iv (cmap c) x) as Hsame.
  { intros x Hx. rewrite H1 by (by rewrite (shape_anc _ _ Hsh)). apply Hout.
    destruct Hx as [Hx| ->]; [|by eapply kid_not_anc]. intros Hs'. apply Hx. by eapply rtc_l. }
  split; [by eapply ctx_step_trans|]. split; [done|].
  split; [intros HAk; by apply H2, HA|]. intros HAk.
  assert (A ∉ post) as HAp by (intros HAp; apply HAk; rewrite Hk; mem).
  destruct (H3 HAp) as (G & Sl & Sd). split; [done|].
  unfold room_right. rewrite (ss_kids _ _ (cs_shape _ _ _ St')), (ss_kids _ _ Hsh), Hk, (Hsame p) by auto.
  pose proof (tree_nodup _ _ T p) as Hnd. rewrite Hk in Hnd. apply NoDup_app in Hnd as (_ & _ & Hn1).
  apply NoDup_cons in Hn1 as [Hn1 _].
  unfold after. destruct post as [|x post] using rev_ind.
  - rewrite last_snoc, Sd, Hi by mem. cbn. lia.
  - clear IHpost. rewrite app_comm_cons, app_assoc, last_snoc, Sl by mem. cbn. rewrite Hout; [lia|].
    eapply sibling_not_anc; eauto; [rewrite Hk; mem|]. intros ->. apply Hn1. mem.
Qed.
End siblings.
