(* ===== verification/ReachWalk.v ===== *)
(** * The walk along the chain of the reindex root

    The two loops of [reclaim_interval_before] and [reclaim_interval_after],
    proved once for both sides from what one level does. *)
From S2P Require Import Prelude Tx Interval Slice ReachStore Reachability ReachTree ReachReindex ReachPropagate ReachReclaim.
#[local] Open Scope Z_scope.

(** What the walk needs of a side: how a chain block is narrowed, how much room
    it has there, and which siblings lie on that side. *)
Record side_ok (fuel : nat) (root : Hash) (sz : Hash -> Z)
    (remaining : MemoryReachabilityStore -> Hash -> result Interval)
    (op : Interval -> Z -> result Interval) (nar : Interval -> Z -> Interval)
    (sib : ctx -> Hash -> Hash -> Z -> result ctx)
    (room : blocks -> Hash -> Z) (side : list Hash -> list Hash -> list Hash) : Prop := {
  so_op : forall i off, wf_interval i -> 0 <= off < isize i ->
    op i off = Ok (nar i off) /\ wf_interval (nar i off) /\ isize (nar i off) = isize i - off;
  so_packed : forall m h off, block_ok m h -> kids m h <> [] -> 0 <= off <= room m h ->
    packed m (start (nar (iv m h) off)) (end_ (nar (iv m h) off) - 1) (kids m h);
  so_remaining : forall s h, block_ok (mem_map s) h -> kids (mem_map s) h <> [] ->
    h ∈ dom (mem_map s) -> (forall c, c ∈ kids (mem_map s) h -> c ∈ dom (mem_map s)) ->
    exists i, remaining s h = Ok i /\ wf_interval i /\ isize i = room (mem_map s) h;
  so_room : forall m h c x, block_ok m h -> c ∈ kids m h ->
    start (iv m c) <= start (iv m x) -> end_ (iv m x) <= end_ (iv m c) -> start (iv m x) - 1 <= end_ (iv m x) ->
    0 <= room m h /\ room m h + isize (iv m x) < isize (iv m h);
  so_room_ext : forall m m' h, kids m' h = kids m h -> iv m' h = iv m h ->
    (forall c, c ∈ kids m h -> iv m' c = iv m c) -> room m' h = room m h;
  so_adjust : forall A p off c c1 K pre post, 0 <= off ->
    setting fuel root sz (cmap c) -> good_except A (cmap c) -> beside A p (cmap c) ->
    kids (cmap c) p = pre ++ K :: post -> K <> A ->
    ctx_step sz c c1 -> (forall x, ~ anc (cmap c) K x -> iv (cmap c1) x = iv (cmap c) x) ->
    (forall x, anc (cmap c) K x -> block_ok (cmap c1) x /\ solid (cmap c1) x) ->
    iv (cmap c1) K = nar (iv (cmap c) K) off ->
    (A ∈ kids (cmap c) p -> A ∈ side pre post /\ sz A <= isize (iv (cmap c) A) + off) ->
    exists c', sib c1 A K off = Ok c' /\ adjusted sz A p off room c c'
}.

(** The left side: starts are increased. *)
Lemma left_side fuel root sz :
  side_ok fuel root sz interval_remaining_before increase_start
    (fun i off => mkInterval (start i + off) (end_ i)) (offset_siblings_before fuel) room_left (fun pre _ => pre).
Proof.
  constructor.
  - intros i off (H1 & H2 & H3) Ho. unfold isize, wf_interval, increase_start in *. cbn.
    rewrite add_ok by (unfold in_u, u64_max, umax in *; lia). run. split; [done|]. lia.
  - intros m h off [Hw Hp] Hne Ho. cbn. unfold room_left, before in Ho.
    destruct (kids m h) as [|c l]; [done|]. cbn in *. destruct Hp as (? & ? & ? & ?). split_and!; try done. lia.
  - intros s h [Hw Hp] Hne Hh Hk. unfold interval_remaining_before, interval_children_capacity.
    rewrite get_interval_ok by done. run. unfold room_left, before.
    destruct (kids (mem_map s) h) as [|c l] eqn:Ek; [done|]. destruct Hp as (P1 & P2 & P3 & _).
    destruct Hw as (W1 & W2 & W3).
    destruct (capacity_ok (iv (mem_map s) h)) as (cap & -> & C1 & C2 & _); [done|unfold isize; lia|]. run.
    rewrite get_children_ok by done. run. rewrite Ek. cbn [head].
    rewrite get_interval_ok by (apply Hk; left). run.
    rewrite sub_ok by (unfold in_u, u64_max, umax in *; lia). run.
    eexists. split; [done|]. unfold wf_interval, isize. cbn. lia.
  - intros m h c x [Hw Hp] Hc H1 H2 H3. unfold room_left, before, isize.
    destruct (kids m h) as [|c' l] eqn:Ek; [by apply elem_of_nil in Hc|]. cbn [head].
    destruct (packed_in _ _ _ _ c Hp Hc) as (Q1 & Q2 & Q3). destruct Hp as (P1 & P2 & P3 & P4).
    assert (start (iv m c') <= start (iv m c)); [|lia].
    apply elem_of_cons in Hc as [->|Hc]; [lia|]. destruct (packed_in _ _ _ _ c P4 Hc). lia.
  - intros m m' h H1 H2 H3. unfold room_left, before. rewrite H1, H2.
    destruct (kids m h) as [|c l]; cbn; [done|]. by rewrite H3 by left.
  - intros. eapply adjust_left; eauto.
Qed.

(** The right side: ends are decreased. *)
Lemma right_side fuel root sz :
  side_ok fuel root sz interval_remaining_after decrease_end
    (fun i off => mkInterval (start i) (end_ i - off)) (offset_siblings_after fuel) room_right (fun _ post => post).
Proof.
  constructor.
  - intros i off (H1 & H2 & H3) Ho. unfold isize, wf_interval, decrease_end in *. cbn.
    rewrite sub_ok by (unfold in_u, u64_max, umax in *; lia). run. split; [done|]. lia.
  - intros m h off [Hw Hp] Hne Ho. cbn. unfold room_right in Ho.
    clear Hw. revert Hp Ho. generalize (start (iv m h)). induction (kids m h) as [|c l IH]; intros lo Hp Ho; [done|].
    destruct Hp as (P1 & P2 & P3 & P4). destruct l as [|c' l]; [cbn in *; split_and!; lia|].
    assert (after m (end_ (iv m c) + 1) (c' :: l) = after m lo (c :: c' :: l)) as Ha.
    { unfold after. rewrite last_cons_cons. destruct (last (c' :: l)) eqn:E; [done|by apply last_None in E]. }
    split; [done|]. split; [done|]. split; [|apply IH; [done|done|rewrite Ha; done]].
    pose proof (after_le _ _ _ _ P4 ltac:(done)). rewrite Ha in *. lia.
  - intros s h [Hw Hp] Hne Hh Hk. unfold interval_remaining_after, interval_children_capacity.
    rewrite get_interval_ok by done. run. unfold room_right.
    pose proof (after_le _ _ _ _ Hp Hne) as Haft. destruct Hw as (W1 & W2 & W3).
    destruct (capacity_ok (iv (mem_map s) h)) as (cap & -> & C1 & C2 & _); [done|unfold isize; lia|]. run.
    rewrite get_children_ok by done. run.
    unfold after in *. destruct (last (kids (mem_map s) h)) as [c|] eqn:E; [|by apply last_None in E].
    pose proof (last_Some_elem_of _ _ E) as Hc. destruct (packed_in _ _ _ _ c Hp Hc) as (Q1 & Q2 & Q3).
    rewrite get_interval_ok by auto. run.
    rewrite add_ok by (unfold in_u, u64_max, umax in *; lia). run.
    eexists. split; [done|]. unfold wf_interval, isize. cbn. lia.
  - intros m h c x [Hw Hp] Hc H1 H2 H3. unfold room_right, isize.
    assert (kids m h <> []) as Hne by (intros He; rewrite He in Hc; by apply elem_of_nil in Hc).
    pose proof (after_le _ _ _ _ Hp Hne) as Haft. destruct (packed_in _ _ _ _ c Hp Hc) as (Q1 & Q2 & Q3).
    assert (end_ (iv m c) < after m (start (iv m h)) (kids m h)); [|lia].
    unfold after. destruct (last (kids m h)) as [c'|] eqn:E; [|by apply last_None in E].
    apply last_Some in E as [l E]. rewrite E in *. apply elem_of_app in Hc as [Hc|Hc%list_elem_of_singleton]; [|subst; lia].
    apply list_elem_of_lookup in Hc as [i Hi].
    assert (end_ (iv m c) < start (iv m c')).
    { eapply (packed_lt _ _ _ _ i (length l) _ _ Hp).
      - by apply lookup_app_l_Some.
      - by apply list_lookup_middle.
      - by eapply lookup_lt_Some. }
    destruct (packed_in _ _ _ _ c' Hp); [mem|]. lia.
  - intros m m' h H1 H2 H3. unfold room_right. rewrite H1, H2. by rewrite (after_ext m).
  - intros. eapply adjust_right; eauto.
Qed.

(** ** The walk *)

Section walk.
Context (fuel : nat) (root : Hash) (sz : Hash -> Z).
Context (remaining : MemoryReachabilityStore -> Hash -> result Interval).
Context (op : Interval -> Z -> result Interval) (nar : Interval -> Z -> Interval).
Context (sib : ctx -> Hash -> Hash -> Z -> result ctx) (room : blocks -> Hash -> Z).
Context (side : list Hash -> list Hash -> list Hash).
Context (SO : side_ok fuel root sz remaining op nar sib room side).

(** [A] needs space; [K0], its sibling on the side at hand, leads to the
    reindex root [R]; their parent is [CA]. *)
Context (A CA K0 R : Hash).

(** Facts about the tree, which the walk does not change. *)
Record place (m : blocks) : Prop := {
  pl_A : A ∈ kids m CA;
  pl_K0 : K0 ∈ kids m CA;
  pl_ne : A <> K0;
  pl_R : anc m K0 R;
  pl_side : forall pre post, kids m CA = pre ++ K0 :: post -> A ∈ side pre post
}.

Lemma place_shape m m' : same_shape m m' -> place m -> place m'.
Proof.
  intros Hs []. constructor; rewrite ?(ss_kids _ _ Hs), ?(shape_anc _ _ Hs); try done.
Qed.

Lemma K0_apart m x : tree m root -> place m -> anc m K0 x -> ~ anc m A x /\ ~ anc m x A.
Proof.
  intros T [] Hx. split; intros HA; apply pl_ne0.
  - eapply (kids_disjoint _ _ T CA); eauto.
  - eapply (kids_disjoint _ _ T CA); [done..|apply rtc_refl|by etrans].
Qed.

(** The parent of a chain block at or above [K0]. *)
Lemma chain_parent m K : tree m root -> place m -> anc m K0 K ->
  K ∈ kids m (par m K) /\ K <> A /\ beside A (par m K) m /\
  ((K = K0 /\ par m K = CA) \/ (anc m K0 (par m K) /\ par m K <> CA /\ A ∉ kids m (par m K))).
Proof.
  intros T P HK. pose proof P as [].
  destruct (K0_apart _ _ T P HK) as [HA1 HA2].
  assert (K <> A) as HKA by (intros ->; apply HA1, rtc_refl).
  destruct (tree_child _ _ T _ _ pl_K1) as (_ & HpK0 & HhK0).
  destruct (anc_par _ _ T _ _ HK) as [<-|[Hk HK']].
  - rewrite HpK0. split_and!; try done; [|by left]. split; [|by left]. by eapply kid_not_anc.
  - destruct (K0_apart _ _ T P HK') as [HB1 HB2]. pose proof (anc_height_le _ _ T _ _ HK') as Hle.
    assert (par m K <> CA) as HCA by (intros Heq; rewrite Heq in Hle; lia).
    split_and!; try done; [split; [done|by right]|]. right. split_and!; try done.
    intros HAk. apply HCA. destruct (tree_child _ _ T _ _ HAk) as (_ & Hp1 & _).
    destruct (tree_child _ _ T _ _ pl_A0) as (_ & Hp2 & _). congruence.
Qed.

(** One level: narrowing [K] by [off] without touching its children. *)
Lemma level_ok (c : ctx) K off :
  setting fuel root sz (cmap c) -> sizes_ok (cmap c) sz (subtree_sizes c) -> good_except A (cmap c) ->
  place (cmap c) -> anc (cmap c) K0 K -> kids (cmap c) K <> [] -> 0 <= off <= room (cmap c) K ->
  (K = K0 -> sz A <= isize (iv (cmap c) A) + off) ->
  exists c1 c', apply_interval_op c K off op = Ok c1 /\ sib c1 A K off = Ok c' /\
    adjusted sz A (par (cmap c) K) off room c c'.
Proof.
  intros Hset Hok Hg P HK Hne Ho HA. pose proof (set_tree _ _ _ _ Hset) as T.
  destruct (chain_parent _ _ T P HK) as (Hk & HKA & Hb & Hpar).
  pose proof (tree_child _ _ T _ _ Hk) as (HKd & _ & _).
  destruct (K0_apart _ _ T P HK) as [HA1 HA2]. destruct (Hg K HKd HA1) as [HbK HsK].
  assert (0 <= off < isize (iv (cmap c) K)) as Hoff.
  { destruct (kids (cmap c) K) as [|x l] eqn:Ek; [done|].
    assert (x ∈ kids (cmap c) K) as Hx by (rewrite Ek; left).
    destruct HbK as [Hw Hpk]. destruct (packed_in _ _ _ _ x Hpk Hx) as (Q1 & Q2 & Q3).
    destruct (so_room _ _ _ _ _ _ _ _ _ SO (cmap c) K x x) as [Hr1 Hr2]; [done|done|lia..|].
    unfold isize in *. lia. }
  destruct HbK as [Hw Hpk]. destruct (so_op _ _ _ _ _ _ _ _ _ SO _ _ Hw Hoff) as (Hop & Hw' & His).
  destruct (apply_op_ok sz c K off op (nar (iv (cmap c) K) off)) as (c1 & Hc1 & St & Hm); [done..|].
  assert (forall x, x <> K -> iv (cmap c1) x = iv (cmap c) x) as Hsame by (intros x Hx; rewrite Hm; by apply iv_upd_ne).
  assert (iv (cmap c1) K = nar (iv (cmap c) K) off) as Hi by (rewrite Hm; by apply iv_upd_eq).
  pose proof (cs_shape _ _ _ St) as Hsh.
  apply list_elem_of_split in Hk as (pre & post & Hk).
  destruct (so_adjust _ _ _ _ _ _ _ _ _ SO A (par (cmap c) K) off c c1 K pre post) as (c' & Hc' & Hadj); try done.
  - lia.
  - intros x Hx. apply Hsame. intros ->. apply Hx, rtc_refl.
  - intros x Hx. assert (x ∈ dom (cmap c)) as Hxd by (by eapply anc_dom).
    destruct (decide (x = K)) as [->|HxK].
    + split; [|unfold solid; rewrite Hi; lia]. unfold block_ok. rewrite Hi, (ss_kids _ _ Hsh). split; [done|].
      eapply packed_ext; [|apply (so_packed _ _ _ _ _ _ _ _ _ SO (cmap c) K off); [done|done|lia]].
      intros y Hy. apply Hsame. intros ->. by apply (tree_child _ _ T) in Hy as (_ & _ & ?); lia.
    + assert (~ anc (cmap c) A x) as HAx by (apply (K0_apart _ _ T P); by etrans).
      destruct (Hg x Hxd HAx) as [Hbx Hsx]. split; [|unfold solid; by rewrite Hsame].
      eapply shape_block_ok; [exact Hsh| |exact Hbx]. intros y [->|Hy]; apply Hsame; [done|].
      intros ->. apply HxK. apply (anc_antisym _ _ T); [by apply anc_kid|done].
  - destruct Hpar as [[-> Hp]|(_ & _ & Hn)]; [|done]. intros _. split; [|by apply HA].
    apply (pl_side _ P). by rewrite <-Hp.
  - eauto.
Qed.

(** The level of the reindex root: its subtree is laid out again. *)
Lemma root_level_ok (c : ctx) K off :
  setting fuel root sz (cmap c) -> sizes_ok (cmap c) sz (subtree_sizes c) -> good_except A (cmap c) ->
  place (cmap c) -> anc (cmap c) K0 K -> 0 <= off -> sz K + off <= isize (iv (cmap c) K) ->
  (K = K0 -> sz A <= isize (iv (cmap c) A) + off) ->
  exists c1 c', apply_interval_op_and_propagate fuel c K off op = Ok c1 /\ sib c1 A K off = Ok c' /\
    adjusted sz A (par (cmap c) K) off room c c'.
Proof.
  intros Hset Hok Hg P HK Ho Hcap HA. pose proof (set_tree _ _ _ _ Hset) as T.
  destruct (chain_parent _ _ T P HK) as (Hk & HKA & Hb & Hpar).
  pose proof (tree_child _ _ T _ _ Hk) as (HKd & _ & _).
  destruct (K0_apart _ _ T P HK) as [HA1 HA2]. destruct (Hg K HKd HA1) as [[Hw Hpk] HsK].
  pose proof (sz_pos _ _ T _ (set_sizing _ _ _ _ Hset) K HKd) as Hpos.
  destruct (so_op _ _ _ _ _ _ _ _ _ SO (iv (cmap c) K) off Hw ltac:(lia)) as (Hop & Hw' & His).
  destruct (relayout fuel root sz c K off op (nar (iv (cmap c) K) off)) as (c1 & Hc1 & St & Hi & Hin & Hout); [try done..|lia|].
  apply list_elem_of_split in Hk as (pre & post & Hk).
  destruct (so_adjust _ _ _ _ _ _ _ _ _ SO A (par (cmap c) K) off c c1 K pre post) as (c' & Hc' & Hadj); try done; [|eauto].
  destruct Hpar as [[-> Hp]|(_ & _ & Hn)]; [|done]. intros _. split; [|by apply HA].
  apply (pl_side _ P). by rewrite <-Hp.
Qed.

(** Two adjustments, of a chain block and of its parent, one after the other. *)
Lemma adjusted_trans (c c1 c2 : ctx) K off1 off :
  tree (cmap c) root -> place (cmap c) -> anc (cmap c) K0 K ->
  adjusted sz A K off1 room c c1 -> adjusted sz A (par (cmap c) K) off room c1 c2 ->
  adjusted sz A (par (cmap c) K) off room c c2.
Proof.
  intros T P HK (St1 & S1 & _ & _) (St2 & S2 & G2 & H2).
  pose proof (cs_shape _ _ _ St1) as Hsh.
  destruct (chain_parent _ _ T P HK) as (Hk & _ & _ & _). set (p := par (cmap c) K) in *.
  assert (forall x, ~ anc (cmap c) p x \/ x = p -> iv (cmap c1) x = iv (cmap c) x) as Hup.
  { intros x Hx. apply S1. left. intros HKx. destruct Hx as [Hx| ->]; [apply Hx; by eapply rtc_l|].
    by eapply kid_not_anc. }
  rewrite (ss_kids _ _ Hsh) in G2, H2.
  split; [by eapply ctx_step_trans|]. split; [|split; [done|]].
  - intros x Hx. rewrite S2 by (by rewrite (shape_anc _ _ Hsh)). auto.
  - intros HA. destruct (H2 HA) as [G ->]. split; [done|]. f_equal.
    eapply so_room_ext; [exact SO|by rewrite (ss_kids _ _ Hsh)|apply Hup; auto|].
    intros x Hx. destruct (decide (x = K)) as [->|HxK]; apply S1; [by right|left].
    eapply sibling_not_anc; eauto.
Qed.

Context (required : Z).

Lemma walk_ok n : forall (c : ctx) K slack_sum path_len,
  setting fuel root sz (cmap c) -> sizes_ok (cmap c) sz (subtree_sizes c) -> good_except A (cmap c) ->
  laminar (cmap c) -> place (cmap c) -> anc (cmap c) K0 K -> anc (cmap c) K R ->
  required = sz A -> 0 <= slack c ->
  0 <= slack_sum < required -> 0 <= path_len <= ht (cmap c) K -> (K = K0 -> slack_sum = 0 /\ path_len = 0) ->
  sz R + required + slack c * ht (cmap c) R <= isize (iv (cmap c) R) ->
  ht (cmap c) R - ht (cmap c) K < Z.of_nat n ->
  exists c' cur psa cK k,
    reclaim_up fuel remaining op sib A R required n c K slack_sum path_len = Ok (c', cur, psa) /\
    (forall j, reclaim_down remaining op sib A CA (k + j) c' cur psa =
               reclaim_down remaining op sib A CA j cK K psa) /\
    Z.of_nat k <= ht (cmap c) R - ht (cmap c) K /\ 0 <= psa /\
    adjusted sz A (par (cmap c) K) (required + psa * path_len - slack_sum) room c cK.
Proof.
  induction n as [|n IH]; intros c K slack_sum path_len Hset Hok Hg L P HK0 HKR Hreq Hsl Hss Hpl HK0z Hcap Hn.
  { pose proof (anc_height_le _ _ (set_tree _ _ _ _ Hset) _ _ HKR). lia. }
  pose proof (set_tree _ _ _ _ Hset) as T. cbn [reclaim_up].
  destruct (chain_parent _ _ T P HK0) as (HKk & HKA & _ & Hpar).
  pose proof (tree_child _ _ T _ _ HKk) as (HKd & _ & _).
  assert (R ∈ dom (cmap c)) as HRd by (by eapply anc_dom).
  assert (anc (cmap c) K0 R) as HR0 by apply P.
  destruct (K0_apart _ _ T P HR0) as [HAR _]. destruct (Hg R HRd HAR) as [[HwR _] HsR].
  pose proof (anc_height_le _ _ T _ _ HKR) as HhR.
  assert (A ∈ dom (cmap c)) as HAd by (by destruct (tree_child _ _ T _ _ (pl_A _ P))).
  assert (0 <= isize (iv (cmap c) A)) as HAi by (destruct (L A HAd) as [(? & ? & ?) _]; unfold isize; lia).
  assert (isize (iv (cmap c) R) < 2 ^ 64 - 1) as HR64.
  { destruct HwR. unfold isize, u64_max, umax in *. lia. }
  pose proof (sz_pos _ _ T _ (set_sizing _ _ _ _ Hset) R HRd) as HszR.
  destruct (Z.eqb_spec K R) as [->|HneR].
  - (* the reindex root *)
    assert (0 <= slack c * path_len <= slack c * ht (cmap c) R) as Hsp by nia.
    rewrite mul_ok by (unfold in_u; lia). run. rewrite add_ok by (unfold in_u; lia). run.
    rewrite sub_ok by (unfold in_u; lia). run.
    destruct (root_level_ok c R (required + slack c * path_len - slack_sum)) as (c1 & c' & -> & Hsib & Hadj);
      [done..|lia|lia|intros HR; specialize (HK0z HR); lia|].
    run. rewrite Hsib. run.
    assert (slack c' = slack c) as Hslc by (by destruct Hadj as [[] _]). rewrite Hslc.
    exists c', R, (slack c), c', 0%nat. split; [done|]. split; [done|]. split; [lia|]. split; [done|]. done.
  - (* a chain block below it *)
    destruct (K0_apart _ _ T P HK0) as [HAK _]. destruct (Hg K HKd HAK) as [HbK HsK].
    destruct (next_chain_ancestor_ok (ctx_store c) root T L R K) as (K' & HK' & HKk' & HK'R); [done|done|done|done| | |].
    { intros i x x' Hx _. assert (x ∈ kids (cmap c) K) as Hxk by (apply list_elem_of_lookup; eauto).
      apply Hg; [by apply (tree_child _ _ T) in Hxk as (? & _)|]. apply (K0_apart _ _ T P). by eapply rtc_r; [exact HK0|]. }
    { intros x Hxk _. apply Hg; [by apply (tree_child _ _ T) in Hxk as (? & _)|].
      apply (K0_apart _ _ T P). by eapply rtc_r; [exact HK0|]. }
    assert (kids (cmap c) K <> []) as Hkne by (intros He; rewrite He in HKk'; by apply elem_of_nil in HKk').
    destruct (so_remaining _ _ _ _ _ _ _ _ _ SO (ctx_store c) K) as (rem & -> & Hwr & Hir); try done.
    { intros x Hx. by apply (tree_child _ _ T) in Hx as (? & _). }
    run. rewrite size_ok by done. run. rewrite Hir.
    destruct (anc_contained _ L _ _ HK'R) as (I1 & I2 & _).
    destruct (so_room _ _ _ _ _ _ _ _ _ SO (cmap c) K K' R) as [Hr1 Hr2];
      [done|done|done|done|destruct HwR; lia|].
    set (r := room (cmap c) K) in *.
    assert (isize (iv (cmap c) K) < 2 ^ 64 - 1) as HK64.
    { destruct HbK as [(? & ? & ?) _]. unfold isize, u64_max, umax in *. lia. }
    assert (0 <= slack c * ht (cmap c) R) by (apply Z.mul_nonneg_nonneg; [done|apply (tree_height _ _ T)]).
    rewrite (add_ok 64 slack_sum r) by (unfold in_u; lia). run.
    destruct (Z.leb_spec required (slack_sum + r)) as [Hen|Hnen].
    + (* enough slack collected *)
      rewrite sub_ok by (unfold in_u; lia). run. rewrite sub_ok by (unfold in_u; lia). run.
      replace (r - (slack_sum + r - required)) with (required - slack_sum) by lia.
      destruct (level_ok c K (required - slack_sum)) as (c1 & c' & -> & Hsib & Hadj);
        [done..|fold r; lia|intros HR; specialize (HK0z HR); lia|].
      run. rewrite Hsib. run.
      exists c', K, 0, c', 0%nat. split; [done|]. split; [done|]. split; [lia|]. split; [lia|].
      by replace (required + 0 * path_len - slack_sum) with (required - slack_sum) by lia.
    + (* go on towards the reindex root *)
      rewrite HK'. run. pose proof (tree_child _ _ T _ _ HKk') as (HKd' & HKp' & HKh').
      pose proof (set_deep _ _ _ _ Hset K) as Hdeep. pose proof (set_fuel64 _ _ _ _ Hset).
      rewrite add_ok by (unfold in_u; lia). run.
      assert (K' <> K0) as HnK0.
      { intros ->. pose proof (anc_height_le _ _ T _ _ HK0). lia. }
      destruct (IH c K' (slack_sum + r) (path_len + 1)) as (c' & cur & psa & cK' & k & -> & Hdown & Hk & Hpsa & Hadj);
        [done|done|done|done|done|by eapply rtc_r; [exact HK0|]|done|done|done|lia|lia|done|done|lia|].
      rewrite HKp' in Hadj. pose proof Hadj as (St & Hsame & _ & HnA).
      assert (anc (cmap c) K0 K') as HK0' by (by eapply rtc_r; [exact HK0|]).
      destruct (chain_parent _ _ T P HK0') as (_ & _ & _ & [[? _]|(_ & HKCA & HAk)]); [done|]. rewrite HKp' in HKCA, HAk.
      destruct (HnA HAk) as [Hg' Hroom]. fold r in Hroom. pose proof (cs_shape _ _ _ St) as Hsh.
      assert (setting fuel root sz (cmap cK')) as Hset' by (by eapply setting_shape).
      assert (place (cmap cK')) as P' by (by eapply place_shape).
      assert (anc (cmap cK') K0 K) as HK0K by (by rewrite (shape_anc _ _ Hsh)).
      assert (block_ok (cmap cK') K) as HbK'.
      { apply Hg'; [by rewrite (ss_dom _ _ Hsh)|by rewrite (shape_anc _ _ Hsh)]. }
      assert (iv (cmap cK') A = iv (cmap c) A) as HivA by (apply Hsame; left; by apply (K0_apart _ _ T P)).
      assert (iv (cmap cK') K = iv (cmap c) K) as HivK by (apply Hsame; by right).
      set (off' := required + psa * (path_len + 1) - (slack_sum + r)) in *.
      set (off := required + psa * path_len - slack_sum).
      assert (r + off' - psa = off) as Hoff by (unfold off, off'; lia).
      assert (0 < off) as Hoffpos by (unfold off; nia).
      destruct (level_ok cK' K off) as (c1 & cK & Hop & Hsib & Hadj'); try done.
      { by eapply cs_sizes. }
      { by rewrite (ss_kids _ _ Hsh). }
      { lia. }
      { intros HR. specialize (HK0z HR). rewrite HivA. unfold off. lia. }
      rewrite (ss_par _ _ Hsh) in Hadj'.
      exists c', cur, psa, cK, (S k). split; [done|]. split; [|split; [lia|split; [done|]]].
      * intros j. replace (S k + j)%nat with (k + S j)%nat by lia. rewrite Hdown. cbn [reclaim_down].
        rewrite get_parent_ok by (by rewrite (ss_dom _ _ Hsh)). run. rewrite (ss_par _ _ Hsh), HKp'.
        destruct (Z.eqb_spec K CA); [done|].
        destruct (so_remaining _ _ _ _ _ _ _ _ _ SO (ctx_store cK') K) as (rem' & -> & Hwr' & Hir'); try done.
        { by rewrite (ss_kids _ _ Hsh). }
        { by rewrite (ss_dom _ _ Hsh). }
        { intros x. rewrite (ss_kids _ _ Hsh), (ss_dom _ _ Hsh). intros Hx. by apply (tree_child _ _ T) in Hx as (? & _). }
        run. rewrite size_ok by done. run. rewrite Hir', Hroom.
        assert (isize rem' < 2 ^ 64) by (destruct Hwr'; unfold isize, u64_max, umax in *; lia).
        rewrite sub_ok by (unfold in_u; lia). run. rewrite Hoff, Hop. run. by rewrite Hsib.
      * by eapply adjusted_trans.
Qed.

(** The whole of a reclaim: everything is laid out afterwards. *)
Lemma reclaim_ok (c : ctx) :
  setting fuel root sz (cmap c) -> sizes_ok (cmap c) sz (subtree_sizes c) -> good_except A (cmap c) ->
  laminar (cmap c) -> place (cmap c) -> required = sz A -> 0 <= slack c ->
  sz R + required + slack c * ht (cmap c) R <= isize (iv (cmap c) R) ->
  exists c', reclaim_interval fuel remaining op sib A CA R required c K0 = Ok c' /\ ctx_step sz c c' /\ all_good (cmap c').
Proof.
  intros Hset Hok Hg L P Hreq Hsl Hcap. pose proof (set_tree _ _ _ _ Hset) as T.
  destruct (tree_child _ _ T _ _ (pl_K0 _ P)) as (HKd & HKp & HKh).
  destruct (tree_child _ _ T _ _ (pl_A _ P)) as (HAd & _ & _).
  pose proof (sz_pos _ _ T _ (set_sizing _ _ _ _ Hset) A HAd) as HszA.
  pose proof (tree_height _ _ T CA) as HhCA.
  unfold reclaim_interval.
  destruct (walk_ok fuel c K0 0 0) as (c' & cur & psa & cK & k & -> & Hdown & Hk & Hpsa & St & _ & Hall & _); try done.
  - apply P.
  - lia.
  - lia.
  - pose proof (set_deep _ _ _ _ Hset R). lia.
  - run. pose proof (set_deep _ _ _ _ Hset R) as Hd. replace fuel with (k + S (fuel - k - 1))%nat by lia.
    rewrite Hdown. cbn [reclaim_down]. pose proof (cs_shape _ _ _ St) as Hsh.
    rewrite get_parent_ok by (by rewrite (ss_dom _ _ Hsh)). run. rewrite (ss_par _ _ Hsh), HKp, Z.eqb_refl.
    exists cK. split_and!; [done|done|]. apply Hall. rewrite HKp. apply P.
Qed.
End walk.
