(* ===== verification/ReachAdd.v ===== *)
(** * Adding a block to the reachability tree

    [reindex_intervals] of [reindex.rs] and [add_tree_block] of [tree.rs]: adding
    a leaf always succeeds while the reindex root has capacity, and preserves the
    invariant of the store. *)
From S2P Require Import Prelude Tx Interval Slice ReachStore Reachability ReachTree ReachReindex ReachPropagate ReachReclaim ReachWalk.
#[local] Open Scope Z_scope.

Section reindex.
Context (fuel : nat) (root : Hash) (sz : Hash -> Z) (N R : Hash).

(** The state in which a reindex starts: everything is laid out, but the new
    leaf [N], the last child of its parent, has the empty interval at the end
    of the capacity. *)
Record pending (c : ctx) : Prop := {
  pe_set : setting fuel root sz (cmap c);
  pe_sizes : sizes_ok (cmap c) sz (subtree_sizes c);
  pe_lam : laminar (cmap c);
  pe_solid : forall h, h ∈ dom (cmap c) -> h <> N -> solid (cmap c) h;
  pe_leaf : kids (cmap c) N = [];
  pe_last : last (kids (cmap c) (par (cmap c) N)) = Some N;
  pe_start : start (iv (cmap c) N) = end_ (iv (cmap c) (par (cmap c) N));
  pe_R : R ∈ dom (cmap c) /\ R <> N;
  pe_slack : 0 <= slack c;
  pe_cap : 2 * Z.of_nat (base.size (dom (cmap c))) + slack c * ht (cmap c) R <= isize (iv (cmap c) R)
}.

Lemma pending_room (c : ctx) h : pending c -> anc (cmap c) h R -> sz h <= isize (iv (cmap c) h).
Proof.
  intros [] HR. pose proof (set_tree _ _ _ _ pe_set0) as T. destruct pe_R0 as [HRd _].
  destruct (anc_contained _ pe_lam0 _ _ HR) as (I1 & I2 & _).
  pose proof (set_small _ _ _ _ pe_set0 h ltac:(by eapply anc_dom_l)) as Hs.
  assert (0 <= slack c * ht (cmap c) R) by (apply Z.mul_nonneg_nonneg; [done|apply (tree_height _ _ T)]).
  unfold isize in *. lia.
Qed.

Lemma pending_apart (c : ctx) A : pending c -> anc (cmap c) A N -> good_except A (cmap c).
Proof. intros [] HA h Hh Hn. split; [by apply pe_lam0|]. apply pe_solid0; [done|]. by intros ->. Qed.

(** The children of a strict ancestor of [R] are searched as the code does. *)
Lemma pending_next (c : ctx) p : pending c -> anc (cmap c) p R -> p <> R ->
  exists K, get_next_chain_ancestor_unchecked (ctx_store c) R p = Ok K /\ K ∈ kids (cmap c) p /\ anc (cmap c) K R.
Proof.
  intros I HpR Hne. pose proof I as []. pose proof (set_tree _ _ _ _ pe_set0) as T. destruct pe_R0 as [HRd HRN].
  apply (next_chain_ancestor_ok (ctx_store c) root T pe_lam0); auto.
  - intros i x x' Hx Hx'. assert (x ∈ kids (cmap c) p) as Hxk by (apply list_elem_of_lookup; eauto).
    pose proof (tree_child _ _ T _ _ Hxk) as (Hxd & Hxp & _). apply pe_solid0; [done|]. intros ->.
    rewrite Hxp in pe_last0. rewrite last_lookup in pe_last0.
    pose proof (NoDup_lookup _ _ _ _ (tree_nodup _ _ T p) Hx pe_last0).
    apply lookup_lt_Some in Hx'. lia.
  - intros x Hxk Heq. pose proof (tree_child _ _ T _ _ Hxk) as (Hxd & Hxp & _).
    apply pe_solid0; [done|]. intros ->. rewrite Hxp in pe_start0.
    destruct (anc_contained _ pe_lam0 _ _ HpR) as (_ & _ & Hlt). specialize (Hlt Hne). lia.
Qed.

Lemma earlier_than_root_ok (c : ctx) A p : pending c -> A ∈ kids (cmap c) p -> anc (cmap c) A N ->
  ~ anc (cmap c) A R -> anc (cmap c) p R -> p <> R ->
  exists c', reindex_intervals_earlier_than_root fuel c A R p (sz A) = Ok c' /\ ctx_step sz c c' /\ all_good (cmap c').
Proof.
  intros I HA HAN HAR HpR Hne. pose proof I as []. pose proof (set_tree _ _ _ _ pe_set0) as T.
  destruct (pending_next c p I HpR Hne) as (K & HK & HKk & HKR).
  pose proof (tree_child _ _ T _ _ HA) as (HAd & HAp & _). pose proof (tree_child _ _ T _ _ HKk) as (HKd & HKp & _).
  assert (A <> K) as HAK by (intros ->; done). destruct pe_R0 as [HRd HRN].
  assert (K <> N) as HKN.
  { intros ->. inversion HKR as [|? x ? Hx]; subst; [done|]. unfold child_of in Hx. rewrite pe_leaf0 in Hx. by apply elem_of_nil in Hx. }
  pose proof (pe_solid0 K HKd HKN) as HsK. unfold solid, isize in HsK.
  assert (sz R + sz A + slack c * ht (cmap c) R <= isize (iv (cmap c) R)) as Hcap.
  { pose proof (set_small _ _ _ _ pe_set0 R HRd). pose proof (set_small _ _ _ _ pe_set0 A HAd). lia. }
  pose proof (pending_apart c A I HAN) as Hg.
  unfold reindex_intervals_earlier_than_root. rewrite HK. run.
  rewrite (get_interval_ok _ A), (get_interval_ok _ K) by done. run.
  (* where A lies with respect to K *)
  assert (forall pre post, kids (cmap c) p = pre ++ K :: post ->
    (A ∈ pre -> start (iv (cmap c) A) < start (iv (cmap c) K)) /\ (A ∈ post -> start (iv (cmap c) K) < start (iv (cmap c) A))) as Hpos.
  { intros pre post Hk. destruct (pe_lam0 p (kids_dom _ _ _ HA)) as [_ Hpk]. rewrite Hk in Hpk.
    split; intros Hin; apply list_elem_of_lookup in Hin as [i Hi].
    - assert (A <> N) as HAN'.
      { intros ->. rewrite HAp, Hk, last_app_cons in pe_last0.
        pose proof (tree_nodup _ _ T p) as Hnd. rewrite Hk in Hnd. apply NoDup_app in Hnd as (_ & Hn1 & _).
        apply (Hn1 N); [apply list_elem_of_lookup; eauto|]. by apply last_Some_elem_of. }
      pose proof (pe_solid0 A HAd HAN') as HsA. unfold solid, isize in HsA.
      assert (end_ (iv (cmap c) A) < start (iv (cmap c) K)); [|lia].
      apply (packed_lt _ _ _ _ i (length pre) A K Hpk); [by apply lookup_app_l_Some|by apply list_lookup_middle|by eapply lookup_lt_Some].
    - assert (end_ (iv (cmap c) K) < start (iv (cmap c) A)); [|lia].
      apply (packed_lt _ _ _ _ (length pre) (length pre + S i) K A Hpk); [by apply list_lookup_middle| |lia].
      rewrite lookup_app_r by lia. replace (length pre + S i - length pre)%nat with (S i) by lia. done. }
  assert (forall pre post, kids (cmap c) p = pre ++ K :: post -> A ∈ pre \/ A ∈ post) as Hin.
  { intros pre post Hk. rewrite Hk in HA. apply elem_of_app in HA as [?|[?|?]%elem_of_cons]; [by left|done|by right]. }
  destruct (Z.ltb_spec (start (iv (cmap c) A)) (start (iv (cmap c) K))) as [Hlt|Hge].
  - apply (reclaim_ok _ _ _ _ _ _ _ _ _ (left_side fuel root sz) A p K R (sz A)); try done.
    constructor; try done. intros pre post Hk. destruct (Hin _ _ Hk) as [?|Hp]; [done|]. apply (Hpos _ _ Hk) in Hp. lia.
  - apply (reclaim_ok _ _ _ _ _ _ _ _ _ (right_side fuel root sz) A p K R (sz A)); try done.
    constructor; try done. intros pre post Hk. destruct (Hin _ _ Hk) as [Hp|?]; [|done]. apply (Hpos _ _ Hk) in Hp. lia.
Qed.

Lemma reindex_loop_ok n : forall (c : ctx) cur, pending c -> anc (cmap c) cur N -> cur ∈ dom (cmap c) ->
  ht (cmap c) cur < Z.of_nat n ->
  exists c', reindex_loop fuel n c cur R = Ok c' /\ ctx_step sz c c' /\ all_good (cmap c').
Proof.
  induction n as [|n IH]; intros c cur I HcN Hcd Hn.
  { pose proof (tree_height _ _ (set_tree _ _ _ _ (pe_set _ I)) cur). lia. }
  pose proof I as []. pose proof (set_tree _ _ _ _ pe_set0) as T. destruct pe_R0 as [HRd HRN].
  pose proof (setting_small64 _ _ _ _ pe_set0) as Hsm. cbn [reindex_loop]. rewrite get_interval_ok by done. run.
  destruct (count_subtrees_ok (ctx_store c) root T sz (set_sizing _ _ _ _ pe_set0)
              ltac:(intros h Hh; specialize (Hsm h Hh); lia) cur Hcd fuel (set_fuel _ _ _ _ pe_set0)
              (set_deep _ _ _ _ pe_set0) c eq_refl pe_sizes0) as (sizes' & -> & Hok' & Hszc). run.
  cbn [subtree_sizes ctx_store]. rewrite Hszc. run.
  set (c1 := mkCtx (ctx_store c) sizes' (slack c)).
  assert (ctx_step sz c c1) as St by (by constructor).
  assert (pending c1) as I1 by (destruct I; by constructor).
  destruct (pe_lam0 cur Hcd) as [Hwc Hpc]. rewrite size_ok by done. run.
  destruct (Z.leb_spec (sz cur) (isize (iv (cmap c) cur))) as [Hfit|Hfull].
  - destruct (propagate_interval_ok fuel root sz c1 cur) as (c' & -> & St' & Hin & Hout); try done.
    exists c'. split; [done|]. split; [by eapply ctx_step_trans|]. intros h Hh.
    rewrite (ss_dom _ _ (cs_shape _ _ _ St')) in Hh.
    destruct (anc_em _ _ T cur h) as [Hc|Hc].
    + destruct (Hin h Hc) as [Hb Hs]. split; [done|]. unfold solid.
      pose proof (sz_pos _ _ T _ (set_sizing _ _ _ _ pe_set0) h Hh). lia.
    + split; [|unfold solid; rewrite Hout by (by left); apply pe_solid0; [done|by intros ->]].
      eapply shape_block_ok; [by eapply cs_shape| |by apply pe_lam0]. intros x [->|Hx]; apply Hout; [by left|].
      destruct (anc_em _ _ T cur x) as [Hcx|Hcx]; [right|by left].
      destruct (anc_par _ _ T _ _ Hcx) as [?|[_ Hcp]]; [done|].
      pose proof (tree_child _ _ T _ _ Hx) as (_ & Hp & _). rewrite Hp in Hcp. done.
  - assert (~ anc (cmap c) cur R) as HcR by (intros HcR; pose proof (pending_room c cur I HcR); lia).
    assert (cur <> root) as Hcr by (intros ->; by apply HcR, (root_anc _ _ T)).
    destruct (tree_parent _ _ T cur Hcd Hcr) as [Hpd Hpk].
    rewrite get_parent_ok by done. run.
    destruct (Z.eqb_spec (par (cmap c) cur) NONE) as [Hnone|_].
    { rewrite Hnone in Hpd. by apply (tree_none _ _ T) in Hpd. }
    destruct (Z.eqb_spec cur R) as [->|_]; [by destruct HcR; apply rtc_refl|].
    destruct (strict_chain_query_ok (ctx_store c) root T pe_lam0 (par (cmap c) cur) R) as (b & -> & Hb);
      [done|done|by apply pe_solid0|]. run.
    destruct b.
    + destruct (proj1 Hb eq_refl) as [HpR HpneR].
      destruct (earlier_than_root_ok c1 cur (par (cmap c) cur)) as (c' & -> & St' & Hall); try done.
      exists c'. split; [done|]. split; [by eapply ctx_step_trans|done].
    + destruct (IH c1 (par (cmap c) cur)) as (c' & -> & St' & Hall); try done.
      * by eapply rtc_l.
      * pose proof (tree_child _ _ T _ _ Hpk) as (_ & _ & ?). change (cmap c1) with (cmap c). lia.
      * exists c'. split; [done|]. split; [by eapply ctx_step_trans|done].
Qed.
End reindex.

(** ** A new leaf *)

(** [m2] is [m] with the leaf [N], of interval [i], appended to the children of
    [P]. *)
Record extends (m m2 : blocks) (P N : Hash) (i : Interval) : Prop := {
  ex_dom : dom m2 = {[N]} ∪ dom m;
  ex_kids : forall h, kids m2 h = if decide (h = P) then kids m P ++ [N] else kids m h;
  ex_par : forall h, par m2 h = if decide (h = N) then P else par m h;
  ex_ht : forall h, ht m2 h = if decide (h = N) then ht m P + 1 else ht m h;
  ex_iv : forall h, iv m2 h = if decide (h = N) then i else iv m h;
  ex_fcs : forall h, fcs m2 h = if decide (h = N) then [] else fcs m h
}.

Section extension.
Context (m m2 : blocks) (root P N : Hash) (i : Interval).
Context (T : tree m root) (HP : P ∈ dom m) (HN : N ∉ dom m) (HNn : N <> NONE) (X : extends m m2 P N i).

Lemma out_kids h : h ∉ dom m -> kids m h = [].
Proof. intros Hh%not_elem_of_dom. unfold kids. by rewrite Hh. Qed.

Lemma kids_not_new h c : c ∈ kids m h -> c <> N.
Proof. intros Hc ->. by apply (tree_child _ _ T) in Hc as (? & _). Qed.

Lemma ext_kids_old h c : c ∈ kids m h -> c ∈ kids m2 h.
Proof. intros Hc. rewrite (ex_kids _ _ _ _ _ X). case_decide; [subst; mem|done]. Qed.

Lemma ext_kids_new h c : c ∈ kids m2 h -> c ∈ kids m h \/ (h = P /\ c = N).
Proof.
  rewrite (ex_kids _ _ _ _ _ X). case_decide; [|by left].
  intros [?|?%list_elem_of_singleton]%elem_of_app; subst; auto.
Qed.

Lemma ext_kids_N : kids m2 N = [].
Proof. rewrite (ex_kids _ _ _ _ _ X). case_decide; [congruence|by apply out_kids]. Qed.

Lemma ext_tree : tree m2 root.
Proof.
  pose proof X as [X1 X2 X3 X4 X5 X6]. pose proof T as [T1 T2 T3 T4 T5 T6 T7]. constructor.
  - rewrite X1. set_solver.
  - rewrite X3. case_decide; [subst; done|done].
  - rewrite X1. set_solver.
  - intros p c [Hc|[-> ->]]%ext_kids_new.
    + pose proof (kids_not_new _ _ Hc). pose proof (kids_dom _ _ _ Hc) as Hp.
      destruct (T4 _ _ Hc) as (? & ? & ?). rewrite X1, X3, !X4.
      rewrite !decide_False by (congruence || (intros ->; done)). split; [set_solver|done].
    + rewrite X1, X3, !X4. rewrite !(decide_True (P := N = N)) by done.
      rewrite decide_False by (intros ->; done). split; [set_solver|]. split; [done|lia].
  - intros h. rewrite X1, elem_of_union, elem_of_singleton, X3. intros Hh Hne.
    destruct (decide (h = N)) as [->|HhN].
    + split; [set_solver|]. rewrite X2, decide_True by done. mem.
    + destruct Hh as [?|Hh]; [done|]. destruct (T5 h Hh Hne). split; [set_solver|]. by apply ext_kids_old.
  - intros p. rewrite X2. case_decide; [|done]. apply NoDup_app. split_and!; [done| |apply NoDup_singleton].
    intros c Hc ->%list_elem_of_singleton. by apply kids_not_new in Hc.
  - intros h. rewrite X4. case_decide; [|done]. specialize (T7 P). lia.
Qed.

Lemma ext_anc_old a b : anc m a b -> anc m2 a b.
Proof. apply rtc_subrel. intros x y. apply ext_kids_old. Qed.

(** Ancestry after the extension. *)
Lemma ext_anc a b : anc m2 a b <-> (b <> N /\ anc m a b) \/ (b = N /\ (a = N \/ anc m a P)).
Proof.
  split.
  - induction 1 as [|a c b Hac _ IH].
    + destruct (decide (x = N)) as [->|]; [right; auto|left; split; [done|apply rtc_refl]].
    + apply ext_kids_new in Hac as [Hac|[-> ->]].
      * destruct IH as [[? ?]|[-> [->|?]]]; [left; split; [done|by eapply rtc_l]| |].
        -- by apply kids_not_new in Hac.
        -- right. split; [done|]. right. by eapply rtc_l.
      * destruct IH as [[Hb HNb]|[-> _]]; [|right; split; [done|right; apply rtc_refl]].
        inversion HNb as [|? x ? Hx]; subst; [done|]. unfold child_of in Hx. rewrite out_kids in Hx by done. by apply elem_of_nil in Hx.
  - intros [[_ ?]|[-> [->|HaP]]]; [by apply ext_anc_old|apply rtc_refl|].
    eapply rtc_r; [by apply ext_anc_old|]. unfold child_of. rewrite (ex_kids _ _ _ _ _ X), decide_True by done. mem.
Qed.

Lemma ext_iv_old h : h <> N -> iv m2 h = iv m h.
Proof. intros. rewrite (ex_iv _ _ _ _ _ X). by rewrite decide_False. Qed.
Lemma ext_iv_N : iv m2 N = i.
Proof. rewrite (ex_iv _ _ _ _ _ X). by rewrite decide_True. Qed.

(** The layout after the extension, for an interval in the free capacity. *)
Lemma ext_laminar : (forall h, h ∈ dom m -> block_ok m h) -> wf_interval i ->
  after m (start (iv m P)) (kids m P) <= start i -> end_ i <= end_ (iv m P) - 1 -> laminar m2.
Proof.
  intros L Hw H1 H2 h. rewrite (ex_dom _ _ _ _ _ X), elem_of_union, elem_of_singleton. intros [->|Hh].
  - unfold block_ok. rewrite ext_iv_N, ext_kids_N. done.
  - assert (h <> N) as Hne by (intros ->; done). destruct (L h Hh) as [Hwh Hp]. unfold block_ok. rewrite ext_iv_old by done.
    split; [done|]. assert (packed m2 (start (iv m h)) (end_ (iv m h) - 1) (kids m h)) as Hp2.
    { eapply packed_ext; [|exact Hp]. intros c Hc. apply ext_iv_old. by eapply kids_not_new. }
    rewrite (ex_kids _ _ _ _ _ X). case_decide; [subst h|done]. apply packed_after. split; [done|]. cbn [packed].
    rewrite ext_iv_N. rewrite (after_ext m) by (intros c Hc; apply ext_iv_old; by eapply kids_not_new).
    destruct Hw as (? & ? & ?). split_and!; try done; lia.
Qed.
End extension.

(** ** [add_tree_block] *)

Lemma remaining_after_ok (s : MemoryReachabilityStore) root p :
  tree (mem_map s) root -> p ∈ dom (mem_map s) -> block_ok (mem_map s) p -> solid (mem_map s) p ->
  let m := mem_map s in
  interval_remaining_after s p = Ok (mkInterval (after m (start (iv m p)) (kids m p)) (end_ (iv m p) - 1)) /\
  wf_interval (mkInterval (after m (start (iv m p)) (kids m p)) (end_ (iv m p) - 1)).
Proof.
  intros T Hp [Hw Hpk] Hs m. unfold interval_remaining_after, interval_children_capacity.
  rewrite get_interval_ok by done. run. fold m in Hw, Hpk, Hs |- *. unfold solid, isize in Hs.
  destruct (capacity_ok (iv m p) Hw ltac:(unfold isize; lia)) as ([cs ce] & -> & C1 & C2 & _). cbn in C1, C2. subst.
  run. rewrite get_children_ok by done. run. fold m. destruct Hw as (W1 & W2 & W3).
  unfold after. destruct (last (kids m p)) as [c|] eqn:E.
  - pose proof (last_Some_elem_of _ _ E) as Hc. destruct (packed_in _ _ _ _ c Hpk Hc) as (Q1 & Q2 & Q3).
    rewrite get_interval_ok by (by destruct (tree_child _ _ T _ _ Hc)). run. fold m. cbn [end_].
    rewrite add_ok by (unfold in_u, u64_max, umax in *; lia). run. split; [done|]. unfold wf_interval. cbn. lia.
  - split; [done|]. unfold wf_interval. cbn. lia.
Qed.

(** The store after [append_child] and [insert]. *)
Lemma append_insert_ok (s : MemoryReachabilityStore) P N i :
  let m := mem_map s in
  P ∈ dom m -> N ∉ dom m ->
  exists m1 m2, append_child s P N = Ok (mkMem m1 (mem_reindex_root s)) /\
    get_height (mkMem m1 (mem_reindex_root s)) P = Ok (ht m P) /\
    store_insert (mkMem m1 (mem_reindex_root s)) N P i (ht m P + 1) = Ok (mkMem m2 (mem_reindex_root s)) /\
    extends m m2 P N i.
Proof.
  intros m [d Hd]%elem_of_dom HN. pose proof HN as HN'%not_elem_of_dom.
  assert (P <> N) as HPN by (intros ->; congruence).
  cbn. unfold mem_append_child, mem_update, mem_get_height, mem_get_data, mem_insert. fold m. rewrite Hd. run.
  do 2 eexists. split; [done|]. cbn [mem_map mem_reindex_root]. rewrite lookup_insert_eq. run. cbn [height].
  unfold ht. rewrite Hd. cbn. split; [done|]. rewrite lookup_insert_ne, HN' by done. split; [done|].
  assert (P ∈ dom m) as HP by (apply elem_of_dom; eauto).
  constructor; [rewrite !dom_insert_L; clear -HP; set_solver|..]; intros h; unfold kids, par, ht, iv, fcs;
    (destruct (decide (h = N)) as [->|HhN];
     [rewrite lookup_insert_eq; try (rewrite decide_False by congruence); cbn; rewrite ?HN', ?Hd; done|];
     rewrite lookup_insert_ne by done; destruct (decide (h = P)) as [->|HhP];
     [rewrite lookup_insert_eq, ?Hd; done|by rewrite lookup_insert_ne]).
Qed.

(** The invariant of the store. *)
Record store_ok (root R : Hash) (s : MemoryReachabilityStore) : Prop := {
  ok_tree : tree (mem_map s) root;
  ok_good : all_good (mem_map s);
  ok_root : mem_reindex_root s = Some R;
  ok_R : R ∈ dom (mem_map s)
}.

(** The limits within which a block can be added: [fuel] bounds the number of
    blocks and the height, and the reindex root has room for two entries per
    block and the slack of its chain. *)
Record capacity (fuel : nat) (slack : Z) (R : Hash) (m : blocks) : Prop := {
  cap_blocks : (base.size (dom m) + 1 < fuel)%nat;
  cap_height : forall h, ht m h + 1 < Z.of_nat fuel;
  cap_fuel : Z.of_nat fuel < 2 ^ 63;
  cap_slack : 0 <= slack;
  cap_R : 2 * (Z.of_nat (base.size (dom m)) + 1) + slack * ht m R <= isize (iv m R)
}.

Lemma add_tree_block_ok fuel root R s N P slack :
  let m := mem_map s in
  store_ok root R s -> capacity fuel slack R m -> P ∈ dom m -> N ∉ dom m -> N <> NONE ->
  exists s' m2 i, add_tree_block fuel s N P slack = Ok s' /\ store_ok root R s' /\
    extends m m2 P N i /\ same_shape m2 (mem_map s').
Proof.
  intros m [T G Hroot HR] [C1 C2 C3 C4 C5] HP HN HNn. fold m in T, G, HR.
  destruct (G P HP) as [HbP HsP].
  destruct (remaining_after_ok s root P T HP HbP HsP) as [Hrem Hwr]. fold m in Hrem, Hwr.
  set (rem := mkInterval _ _) in *. unfold add_tree_block. rewrite Hrem. run.
  assert (laminar m) as L by (intros h Hh; by apply G).
  assert (R <> N) as HRN by (intros ->; done).
  pose proof (tree_height _ _ T P) as HhP. pose proof (C2 P) as HhP2.
  assert (forall i, wf_interval i -> start rem <= start i -> end_ i <= end_ rem ->
    exists m1 m2, append_child s P N = Ok (mkMem m1 (mem_reindex_root s)) /\
      get_height (mkMem m1 (mem_reindex_root s)) P = Ok (ht m P) /\
      store_insert (mkMem m1 (mem_reindex_root s)) N P i (ht m P + 1) = Ok (mkMem m2 (mem_reindex_root s)) /\
      extends m m2 P N i /\ tree m2 root /\ laminar m2 /\ (forall h, h ∈ dom m -> solid m2 h)) as Hext.
  { intros i Hw H1 H2. destruct (append_insert_ok s P N i HP HN) as (m1 & m2 & E1 & E2 & E3 & X).
    exists m1, m2. split_and!; try done.
    - by eapply ext_tree.
    - eapply ext_laminar; eauto.
    - intros h Hh. unfold solid. rewrite (ext_iv_old _ _ _ _ _ X) by (intros ->; done). by apply G. }
  rewrite is_empty_ok by done.
  destruct (Z.eqb_spec (isize rem) 0) as [Hemp|Hnemp].
  - (* the capacity is exhausted: reindex *)
    destruct (Hext rem Hwr) as (m1 & m2 & -> & E2 & E3 & X & T2 & L2 & S2); [lia..|]. run. rewrite E2. run.
    rewrite add_ok by (unfold in_u; lia). run. rewrite E3. run.
    assert (get_reindex_root (mkMem m2 (mem_reindex_root s)) = Ok R) as -> by (cbn; unfold mem_get_reindex_root; by rewrite Hroot).
    run. set (c := ctx_new (mkMem m2 (mem_reindex_root s)) slack).
    assert (forall h, ht m2 h < Z.of_nat fuel) as Hd2.
    { intros h. rewrite (ex_ht _ _ _ _ _ X). case_decide; [lia|]. specialize (C2 h). lia. }
    assert (base.size (dom m2) = base.size (dom m) + 1)%nat as Hsize.
    { rewrite (ex_dom _ _ _ _ _ X), size_union by set_solver. rewrite size_singleton. lia. }
    assert (N ∈ dom m2) as HN2 by (rewrite (ex_dom _ _ _ _ _ X); set_solver).
    assert (par m2 N = P) as HpN by (rewrite (ex_par _ _ _ _ _ X); by rewrite decide_True).
    destruct (reindex_loop_ok fuel root (subtree_size fuel m2) N R fuel c N) as (c' & Hc' & St & Hall).
    + constructor; change (cmap c) with m2; rewrite ?HpN.
      * constructor; try done; [by eapply subtree_size_sizing|by eapply subtree_size_bound|lia].
      * change (subtree_sizes c) with (∅ : gmap Hash Z). constructor; [intros x v|intros x y [v Hv]]; [|revert Hv]; by rewrite lookup_empty.
      * done.
      * intros h Hh Hne. apply S2. rewrite (ex_dom _ _ _ _ _ X) in Hh. set_solver.
      * exact (ext_kids_N _ _ _ _ _ HP HN X).
      * rewrite (ex_kids _ _ _ _ _ X), decide_True by done. apply last_snoc.
      * rewrite (ext_iv_N _ _ _ _ _ X), (ext_iv_old _ _ _ _ _ X) by (intros ->; done).
        unfold isize in Hemp. cbn in *. lia.
      * split; [|done]. rewrite (ex_dom _ _ _ _ _ X). set_solver.
      * done.
      * rewrite Hsize, (ex_ht _ _ _ _ _ X), decide_False, (ext_iv_old _ _ _ _ _ X) by done. change (Reachability.slack c) with slack. lia.
    + apply rtc_refl.
    + done.
    + apply Hd2.
    + unfold reindex_intervals. rewrite Hc'. run. exists (ctx_store c'), m2, rem.
      pose proof (cs_shape _ _ _ St) as Hsh. split_and!; try done.
      constructor; [by eapply shape_tree|done| |].
      * rewrite (cs_root _ _ _ St). done.
      * rewrite (ss_dom _ _ Hsh). change (cmap c) with m2. rewrite (ex_dom _ _ _ _ _ X). set_solver.
  - (* half of the remaining capacity *)
    assert (0 < isize rem) as Hpos by (destruct Hwr; unfold isize in *; lia).
    destruct (split_half_ok (E := ReachabilityError) rem Hwr Hpos) as (l & r & Hsp & Ht & Hl). cbn in Ht.
    destruct Ht as (Hls & Hle & Hrs & Hre & Hend). destruct Hwr as (W1 & W2 & W3). cbn [start end_ rem] in *.
    destruct (Hext l) as (m1 & m2 & -> & E2 & E3 & X & T2 & L2 & S2); [unfold wf_interval; lia|cbn; lia|cbn; lia|].
    run. rewrite E2. run. rewrite add_ok by (unfold in_u; lia). run. rewrite Hsp. run. rewrite E3.
    exists (mkMem m2 (mem_reindex_root s)), m2, l. split_and!; try done. constructor; try done.
    + intros h Hh. split; [by apply L2|]. cbn in Hh. rewrite (ex_dom _ _ _ _ _ X) in Hh.
      apply elem_of_union in Hh as [->%elem_of_singleton|Hh]; [|by apply S2].
      unfold solid. cbn. by rewrite (ext_iv_N _ _ _ _ _ X).
    + cbn. rewrite (ex_dom _ _ _ _ _ X). set_solver.
Qed.
