(* ===== verification/ReachDag.v ===== *)
(** * DAG reachability

    The future covering sets: with them the tree answers ancestry queries on the
    whole block DAG.  Adding a block registers it with the blocks it merges, and
    the query then returns exactly the DAG relation. *)
From S2P Require Import Prelude Tx Interval Slice ReachStore Reachability ReachTree ReachReindex ReachPropagate ReachReclaim ReachAdd.
#[local] Open Scope Z_scope.

(** ** The order of unrelated blocks *)

(** [a] lies left of [b]: they are below two children of one block, in order. *)
Definition left_of (m : blocks) (a b : Hash) : Prop :=
  exists p l1 c1 l2 c2 l3, kids m p = l1 ++ c1 :: l2 ++ c2 :: l3 /\ anc m c1 a /\ anc m c2 b.

Definition sorted (m : blocks) (hs : list Hash) : Prop :=
  forall i j a b, hs !! i = Some a -> hs !! j = Some b -> (i < j)%nat -> left_of m a b.

(** The future covering sets hold known blocks, from left to right. *)
Definition fcs_ok (m : blocks) : Prop :=
  forall h, sorted m (fcs m h) /\ forall f, f ∈ fcs m h -> f ∈ dom m.

(** What [is_dag_ancestor_of] decides. *)
Definition dag_rel (m : blocks) (a b : Hash) : Prop := anc m a b \/ exists f, f ∈ fcs m a /\ anc m f b.

Section order.
Context (m : blocks) (root : Hash) (T : tree m root) (L : laminar m).

Lemma left_of_intervals a b : left_of m a b -> end_ (iv m a) < start (iv m b).
Proof.
  intros (p & l1 & c1 & l2 & c2 & l3 & Hk & A1 & A2).
  assert (c1 ∈ kids m p) as Hc1 by (rewrite Hk; mem).
  destruct (L p (kids_dom _ _ _ Hc1)) as [_ Hp]. rewrite Hk in Hp.
  apply packed_after in Hp as [_ (_ & _ & _ & Hp)].
  destruct (packed_in _ _ _ _ c2 Hp) as (Hlt & _); [mem|].
  apply (anc_contained _ L) in A1, A2. lia.
Qed.

Lemma intervals_left_of a b : a ∈ dom m -> b ∈ dom m -> solid m a -> solid m b ->
  end_ (iv m a) < start (iv m b) -> left_of m a b.
Proof.
  intros Ha Hb Sa Sb Hlt. unfold solid, isize in Sa, Sb.
  destruct (diverge _ _ T a b Ha Hb) as [Hab|[Hba|(p & c1 & c2 & K1 & K2 & Hne & A1 & A2)]].
  - apply (anc_contained _ L) in Hab. lia.
  - apply (anc_contained _ L) in Hba. lia.
  - exists p. pose proof K1 as K1'. apply list_elem_of_split in K1' as (l1 & r & Hk).
    rewrite Hk in K2. apply elem_of_app in K2 as [K2|[K2|K2]%elem_of_cons]; [|by subst|].
    + exfalso. apply list_elem_of_split in K2 as (l1' & r' & ->).
      assert (left_of m b a) as Hba.
      { exists p, l1', c2, r', c1, r. split_and!; try done. by rewrite Hk, <-app_assoc. }
      apply left_of_intervals in Hba. lia.
    + apply list_elem_of_split in K2 as (l2 & l3 & ->). exists l1, c1, l2, c2, l3. done.
Qed.

Lemma left_of_not_anc a b : solid m b -> left_of m a b -> ~ anc m a b.
Proof. intros Sb Hl A. apply left_of_intervals in Hl. apply (anc_contained _ L) in A. unfold solid, isize in Sb. lia. Qed.

Lemma sorted_ordered hs : sorted m hs -> (forall h, h ∈ hs -> solid m h) -> ordered m hs.
Proof.
  intros Hs Hso i j a b Ha Hb Hij. pose proof (left_of_intervals _ _ (Hs i j a b Ha Hb Hij)) as Hlt.
  split; [done|]. assert (solid m a) as Sa by (apply Hso, list_elem_of_lookup; eauto). unfold solid, isize in Sa. lia.
Qed.
End order.

Lemma left_of_shape m m' a b : same_shape m m' -> left_of m a b -> left_of m' a b.
Proof.
  intros Hs (p & l1 & c1 & l2 & c2 & l3 & Hk & A1 & A2). exists p, l1, c1, l2, c2, l3.
  rewrite (ss_kids _ _ Hs), !(shape_anc _ _ Hs). done.
Qed.

Lemma fcs_ok_shape m m' : same_shape m m' -> fcs_ok m -> fcs_ok m'.
Proof.
  intros Hs Hf h. destruct (Hf h) as [H1 H2]. rewrite (ss_fcs _ _ Hs), (ss_dom _ _ Hs). split; [|done].
  intros i j a b Ha Hb Hij. eapply left_of_shape; eauto.
Qed.

Lemma dag_rel_shape m m' a b : same_shape m m' -> dag_rel m' a b <-> dag_rel m a b.
Proof.
  intros Hs. unfold dag_rel. rewrite (shape_anc _ _ Hs), (ss_fcs _ _ Hs).
  by setoid_rewrite (shape_anc _ _ Hs).
Qed.

(** ** The query *)

Lemma dag_query_ok (s : MemoryReachabilityStore) root a b :
  let m := mem_map s in
  tree m root -> all_good m -> fcs_ok m -> a ∈ dom m -> b ∈ dom m ->
  exists r, is_dag_ancestor_of s a b = Ok r /\ (r = true <-> dag_rel m a b).
Proof.
  intros m T G F Ha Hb. assert (laminar m) as L by (intros h Hh; by apply G).
  unfold is_dag_ancestor_of.
  destruct (chain_query_ok s root T L a b Ha Hb) as (r & -> & Hr); [by apply G|]. run. fold m in Hr.
  destruct r; [exists true; split; [done|]; split; [|done]; intros _; left; by apply Hr|].
  rewrite get_fcs_ok by done. run. fold m. destruct (F a) as [F1 F2].
  destruct (search_descendant_ok s root T L (fcs m a) b) as (r & -> & Hs).
  { done. } { by apply G. } { done. }
  { apply (sorted_ordered _ L); [done|]. intros h Hh. apply G. auto. }
  { intros h Hh _. apply G. auto. }
  run. eexists. split; [done|]. destruct r as [i|h i].
  - split; [done|]. intros [Hab|(f & Hf & Hfb)]; [by apply Hr|]. destruct Hs as (_ & Hs & _). by apply Hs in Hf.
  - split; [|done]. intros _. right. destruct Hs as [Hi Hh]. exists h. split; [|done]. apply list_elem_of_lookup. eauto.
Qed.

(** ** Changes of the future covering sets *)

(** [m'] differs from [m] in future covering sets only. *)
Record same_core (m m' : blocks) : Prop := {
  sc_dom : dom m' = dom m;
  sc_kids : forall h, kids m' h = kids m h;
  sc_par : forall h, par m' h = par m h;
  sc_ht : forall h, ht m' h = ht m h;
  sc_iv : forall h, iv m' h = iv m h
}.

#[export] Instance same_core_equiv : Equivalence same_core.
Proof.
  split.
  - done.
  - intros m m' []. by constructor.
  - intros m m' m'' [] []. constructor; intros; congruence.
Qed.

Section core.
Context (m m' : blocks) (Hs : same_core m m').

Lemma core_anc a b : anc m' a b <-> anc m a b.
Proof. unfold anc. split; apply rtc_subrel; intros x y; unfold child_of; by rewrite (sc_kids _ _ Hs). Qed.

Lemma core_tree root : tree m root -> tree m' root.
Proof.
  destruct Hs as [Hd Hk Hp Hh _]. intros []. constructor; rewrite ?Hd, ?Hp; try done.
  - intros p c. rewrite Hk, Hp, !Hh. auto.
  - intros h. rewrite Hp, Hk. auto.
  - intros p. rewrite Hk. auto.
  - intros h. rewrite Hh. auto.
Qed.

Lemma core_packed lo hi cs : packed m lo hi cs -> packed m' lo hi cs.
Proof. apply packed_ext. intros. apply (sc_iv _ _ Hs). Qed.

Lemma core_good : all_good m -> all_good m'.
Proof.
  intros G h. rewrite (sc_dom _ _ Hs). intros Hh. destruct (G h Hh) as [[Hw Hp] Hso].
  unfold block_ok, solid. rewrite (sc_iv _ _ Hs), (sc_kids _ _ Hs). split; [split; [done|by apply core_packed]|done].
Qed.

Lemma core_left_of a b : left_of m a b -> left_of m' a b.
Proof.
  intros (p & l1 & c1 & l2 & c2 & l3 & Hk & A1 & A2). exists p, l1, c1, l2, c2, l3.
  rewrite (sc_kids _ _ Hs), !core_anc. done.
Qed.
End core.

Definition set_fcs (l : list Hash) (d : MemoryReachabilityData) : MemoryReachabilityData :=
  mkMData (children d) (parent d) (interval d) (height d) l.

Lemma alter_fcs_core m h l : same_core m (alter (set_fcs l) h m).
Proof.
  assert (forall A (f : MemoryReachabilityData -> A) x, (forall d, f (set_fcs l d) = f d) ->
    f <$> alter (set_fcs l) h m !! x = f <$> m !! x) as Hf.
  { intros A f x Hf. destruct (decide (x = h)) as [->|Hne].
    - rewrite lookup_alter_eq. destruct (m !! h); cbn; [by rewrite Hf|done].
    - by rewrite lookup_alter_ne. }
  constructor; [apply dom_alter_L|..]; intros x; unfold kids, par, ht, iv; by rewrite Hf.
Qed.

Lemma fcs_alter m h l x : h ∈ dom m -> fcs (alter (set_fcs l) h m) x = if decide (x = h) then l else fcs m x.
Proof.
  intros [d Hd]%elem_of_dom. unfold fcs. case_decide as Hx.
  - subst. by rewrite lookup_alter_eq, Hd.
  - by rewrite lookup_alter_ne.
Qed.

Lemma update_fcs_ok (s : MemoryReachabilityStore) h (f : list Hash -> result (list Hash)) l :
  h ∈ dom (mem_map s) -> f (fcs (mem_map s) h) = Ok l ->
  mem_update s h (fun d => l ← f (future_covering_set d); Ok (mkMData (children d) (parent d) (interval d) (height d) l)) =
  Ok (mkMem (alter (set_fcs l) h (mem_map s)) (mem_reindex_root s)).
Proof.
  intros [d Hd]%elem_of_dom Hf. unfold mem_update, mem_get_data, fcs in *. rewrite Hd in *. cbn in Hf. run. rewrite Hf. run.
  f_equal. f_equal. apply map_eq. intros x. destruct (decide (x = h)) as [->|Hne].
  - by rewrite lookup_insert_eq, lookup_alter_eq, Hd.
  - by rewrite lookup_insert_ne, lookup_alter_ne.
Qed.

(** ** Registering a new block *)

Lemma sorted_insert m hs i n :
  sorted m hs -> (i <= length hs)%nat ->
  (forall j h, hs !! j = Some h -> ((j < i)%nat -> left_of m h n) /\ ((i <= j)%nat -> left_of m n h)) ->
  sorted m (take i hs ++ n :: drop i hs).
Proof.
  intros Hs Hi Hn.
  assert (forall k x, (take i hs ++ n :: drop i hs) !! k = Some x ->
    ((k < i)%nat /\ hs !! k = Some x) \/ (k = i /\ x = n) \/ (exists k', k = S k' /\ (i <= k')%nat /\ hs !! k' = Some x)) as Hlook.
  { intros k x Hk. apply lookup_app_Some in Hk as [Hk|[Hk1 Hk2]].
    - apply lookup_take_Some in Hk as [? ?]. left. done.
    - rewrite length_take_le in * by done. destruct (k - i)%nat as [|k'] eqn:E.
      + right; left. split; [lia|]. by injection Hk2.
      + right; right. exists (i + k')%nat. change (drop i hs !! k' = Some x) in Hk2. rewrite lookup_drop in Hk2. split; [lia|]. split; [lia|done]. }
  intros j k a b Ha Hb Hjk.
  apply Hlook in Ha as [[Hj Ha]|[[-> ->]|(j' & -> & Hj & Ha)]];
  apply Hlook in Hb as [[Hk Hb]|[[-> ->]|(k' & -> & Hk & Hb)]]; try lia.
  - eapply (Hs j k); eauto.
  - by apply (Hn j a).
  - eapply (Hs j k'); eauto. lia.
  - by apply (Hn k' b).
  - eapply (Hs j' k'); eauto. lia.
Qed.

Lemma insert_fcs_ok (s : MemoryReachabilityStore) root x n :
  let m := mem_map s in
  tree m root -> all_good m -> fcs_ok m -> x ∈ dom m -> n ∈ dom m -> kids m n = [] ->
  n ∉ fcs m x -> (forall f, f ∈ fcs m x -> ~ anc m f n) ->
  exists l, insert_to_future_covering_set s x n = Ok (mkMem (alter (set_fcs l) x m) (mem_reindex_root s)) /\
    sorted m l /\ (forall f, f ∈ l <-> f = n \/ f ∈ fcs m x).
Proof.
  intros m T G F Hx Hn Hleaf Hnew Hno. assert (laminar m) as L by (intros h Hh; by apply G).
  destruct (F x) as [F1 F2]. unfold insert_to_future_covering_set. rewrite get_fcs_ok by done. run. fold m.
  destruct (search_descendant_ok s root T L (fcs m x) n) as (r & -> & Hs).
  { done. } { by apply G. } { done. }
  { apply (sorted_ordered _ L); [done|]. intros h Hh. apply G. auto. }
  { intros h Hh _. apply G. auto. }
  run. destruct r as [i|h i]; [|destruct Hs as [Hi Hh]; exfalso; eapply Hno; [|exact Hh]; apply list_elem_of_lookup; eauto].
  destruct Hs as (Hi & _ & Hpos). fold m in Hpos.
  exists (take i (fcs m x) ++ n :: drop i (fcs m x)). split_and!.
  - cbn. apply (update_fcs_ok s x (vec_insert i n)); [done|]. unfold vec_insert. fold m.
    by rewrite (proj2 (Nat.leb_le _ _)) by lia.
  - apply sorted_insert; [done|done|]. intros j h Hj. assert (h ∈ fcs m x) as Hh by (apply list_elem_of_lookup; eauto).
    destruct (Hpos j h Hj) as [P1 P2]. destruct (G h (F2 h Hh)) as [[Hwh _] Sh]. destruct (G n Hn) as [[Hwn _] Sn].
    split; intros Hij.
    + specialize (P1 Hij). unfold solid, isize in *.
      destruct (diverge _ _ T h n (F2 h Hh) Hn) as [Ha|[Ha|(p & c1 & c2 & K1 & K2 & Hne & A1 & A2)]].
      * by apply Hno in Ha.
      * inversion Ha as [|? y ? Hy]; subst; [done|]. unfold child_of in Hy. rewrite Hleaf in Hy. by apply elem_of_nil in Hy.
      * apply (intervals_left_of _ _ T L); [auto|done|done|done|].
        apply (anc_contained _ L) in A1, A2. destruct (siblings_disjoint _ L _ _ _ K1 K2 Hne); lia.
    + specialize (P2 Hij). apply (intervals_left_of _ _ T L); [done|auto|done|done|]. done.
  - intros f. rewrite <-(take_drop i (fcs m x)) at 3. mem.
Qed.

Lemma add_dag_block_ok ms n : forall (s : MemoryReachabilityStore) root,
  let m := mem_map s in
  tree m root -> all_good m -> fcs_ok m -> n ∈ dom m -> kids m n = [] -> NoDup ms ->
  (forall x, x ∈ ms -> x ∈ dom m /\ n ∉ fcs m x /\ forall f, f ∈ fcs m x -> ~ anc m f n) ->
  exists m', add_dag_block s n ms = Ok (mkMem m' (mem_reindex_root s)) /\ same_core m m' /\ fcs_ok m' /\
    forall h f, f ∈ fcs m' h <-> f ∈ fcs m h \/ (f = n /\ h ∈ ms).
Proof.
  induction ms as [|x ms IH]; intros s root m T G F Hn Hleaf Hnd Hms.
  { exists m. destruct s. split; [done|]. split; [done|]. split; [done|]. intros h f. rewrite elem_of_nil. tauto. }
  apply NoDup_cons in Hnd as [Hx Hnd]. destruct (Hms x ltac:(left)) as (Hxd & Hxn & Hxf).
  destruct (insert_fcs_ok s root x n T G F Hxd Hn Hleaf Hxn Hxf) as (l & Hl & Sl & El).
  unfold add_dag_block. cbn [foldM]. rewrite Hl. run. fold m in Hl, Sl, El |- *.
  set (m1 := alter (set_fcs l) x m). pose proof (alter_fcs_core m x l) as C1. fold m1 in C1.
  assert (forall h, fcs m1 h = if decide (h = x) then l else fcs m h) as Hf1 by (intros h; by apply fcs_alter).
  destruct (IH (mkMem m1 (mem_reindex_root s)) root) as (m' & Hm' & C2 & F' & Hf'); cbn [mem_map].
  - by eapply core_tree.
  - by eapply core_good.
  - intros h. rewrite Hf1, (sc_dom _ _ C1). case_decide as Hh.
    + subst h. split; [intros i j a b Ha Hb Hij; eapply core_left_of; eauto|].
      intros f [->|Hf]%El; [done|]. by apply (F x).
    + destruct (F h) as [F1 F2]. split; [intros i j a b Ha Hb Hij; eapply core_left_of; eauto|done].
  - by rewrite (sc_dom _ _ C1).
  - by rewrite (sc_kids _ _ C1).
  - done.
  - intros y Hy. assert (y <> x) as Hyx by (by intros ->). destruct (Hms y ltac:(by right)) as (Y1 & Y2 & Y3).
    rewrite Hf1, decide_False, (sc_dom _ _ C1) by done. split_and!; [done|done|].
    intros f Hf. rewrite (core_anc _ _ C1). auto.
  - exists m'. split; [done|]. split; [by etrans|]. split; [done|]. intros h f.
    cbn [mem_map] in Hf'. rewrite Hf', Hf1, elem_of_cons. case_decide as Hh; [subst h; rewrite El|]; naive_solver.
Qed.

(** The whole invariant of the store. *)
Record dag_store_ok (root R : Hash) (s : MemoryReachabilityStore) : Prop := {
  dok_store : store_ok root R s;
  dok_fcs : fcs_ok (mem_map s)
}.

Lemma ext_left_of m m2 P N i a b : extends m m2 P N i -> left_of m a b -> left_of m2 a b.
Proof.
  intros X (p & l1 & c1 & l2 & c2 & l3 & Hk & A1 & A2).
  exists p, l1, c1, l2, c2, (if decide (p = P) then l3 ++ [N] else l3).
  split_and!; [|by eapply ext_anc_old..]. rewrite (ex_kids _ _ _ _ _ X). case_decide; [subst|done].
  rewrite Hk. by rewrite <-!app_assoc, <-!app_comm_cons, <-!app_assoc, <-!app_comm_cons.
Qed.

Lemma ext_fcs_ok m m2 P N i : extends m m2 P N i -> fcs_ok m -> fcs_ok m2.
Proof.
  intros X F h. rewrite (ex_fcs _ _ _ _ _ X), (ex_dom _ _ _ _ _ X). case_decide.
  - split; [intros ? ? ? ? Ha; by rewrite lookup_nil in Ha|intros f Hf; by apply elem_of_nil in Hf].
  - destruct (F h) as [F1 F2]. split; [|intros f Hf; apply elem_of_union; right; auto].
    intros j k a b Ha Hb Hjk. eapply ext_left_of; eauto.
Qed.

Lemma add_block_ok fuel root R s N P ms slack :
  let m := mem_map s in
  dag_store_ok root R s -> capacity fuel slack R m -> P ∈ dom m -> N ∉ dom m -> N <> NONE ->
  NoDup ms -> (forall x, x ∈ ms -> x ∈ dom m /\ ~ dag_rel m x P) ->
  exists s', add_block_with_params fuel s N P ms slack = Ok s' /\ dag_store_ok root R s' /\
    dom (mem_map s') = {[N]} ∪ dom m /\
    (forall a b, anc (mem_map s') a b <-> (b <> N /\ anc m a b) \/ (b = N /\ (a = N \/ anc m a P))) /\
    (forall a b, dag_rel (mem_map s') a b <->
       (b <> N /\ dag_rel m a b) \/ (b = N /\ (a = N \/ dag_rel m a P \/ a ∈ ms))).
Proof.
  intros m [Ok F] Cap HP HN HNn Hnd Hms. fold m in F. unfold add_block_with_params.
  destruct (add_tree_block_ok fuel root R s N P slack Ok Cap HP HN HNn) as (s1 & m2 & i & -> & Ok1 & X & Sh). run.
  fold m in X. pose proof Ok as [T G _ _]. fold m in T, G. pose proof Ok1 as [T1 G1 Hr1 HR1].
  set (m1 := mem_map s1) in *.
  assert (forall a b, anc m1 a b <-> (b <> N /\ anc m a b) \/ (b = N /\ (a = N \/ anc m a P))) as Hanc.
  { intros a b. rewrite (shape_anc _ _ Sh). by apply (ext_anc m m2 root P N i). }
  assert (forall h, fcs m1 h = if decide (h = N) then [] else fcs m h) as Hfcs1.
  { intros h. rewrite (ss_fcs _ _ Sh). apply (ex_fcs _ _ _ _ _ X). }
  assert (dom m1 = {[N]} ∪ dom m) as Hdom by (rewrite (ss_dom _ _ Sh); apply (ex_dom _ _ _ _ _ X)).
  assert (forall x f, f ∈ fcs m x -> f <> N) as HfN by (intros x f Hf ->; by apply (F x) in Hf).
  destruct (add_dag_block_ok ms N s1 root) as (m3 & Hm3 & C & F3 & Hf3); fold m1; try done.
  - eapply fcs_ok_shape; [exact Sh|]. by eapply ext_fcs_ok.
  - rewrite Hdom. set_solver.
  - rewrite (ss_kids _ _ Sh). exact (ext_kids_N _ _ _ _ _ HP HN X).
  - intros x Hx. destruct (Hms x Hx) as [Hxd Hxr]. assert (x <> N) as HxN by (by intros ->).
    rewrite Hfcs1, decide_False, Hdom by done. split_and!; [set_solver|intros Hf; by eapply HfN|].
    intros f Hf. rewrite Hanc. intros [[? _]|[_ [->|Hfp]]]; [done|by eapply HfN|]. apply Hxr. right. eauto.
  - exists (mkMem m3 (mem_reindex_root s1)). split; [done|]. cbn [mem_map]. fold m1 in C, Hf3.
    assert (forall a b, anc m3 a b <-> (b <> N /\ anc m a b) \/ (b = N /\ (a = N \/ anc m a P))) as Hanc3.
    { intros a b. rewrite (core_anc _ _ C). apply Hanc. }
    split_and!; [|by rewrite (sc_dom _ _ C)|done|].
    + constructor; [|done]. constructor; cbn; [by eapply core_tree|by eapply core_good|done|by rewrite (sc_dom _ _ C)].
    + intros a b. unfold dag_rel. setoid_rewrite Hf3. setoid_rewrite Hanc3. rewrite Hfcs1.
      destruct (decide (a = N)) as [->|HaN].
      * assert (fcs m N = []) as HfcsN by (unfold fcs; apply not_elem_of_dom in HN; by rewrite HN).
        rewrite HfcsN. split.
        -- intros [[[? ?]|[-> _]]|(f & [Hf|[-> HN']] & _)]; [left; auto|right; auto|by apply elem_of_nil in Hf|].
           by apply Hms in HN' as [? _].
        -- intros [[? [?|(f & Hf & _)]]|[-> _]]; [left; left; auto|by apply elem_of_nil in Hf|left; right; auto].
      * split.
        -- intros [[[? ?]|[-> [?|?]]]|(f & [Hf|[-> Ha]] & [[? ?]|[-> Hfb]])]; try done.
           ++ left. auto.
           ++ right. auto.
           ++ left. split; [done|]. right. eauto.
           ++ destruct Hfb as [->|?]; [by apply HfN in Hf|]. right. split; [done|]. right. left. right. eauto.
           ++ exfalso. assert (kids m N = []) as HkN by (by apply out_kids).
              match goal with Ha : anc m N b |- _ => inversion Ha as [|? y ? Hy]; subst; [done|];
                unfold child_of in Hy; rewrite HkN in Hy; by apply elem_of_nil in Hy end.
           ++ right. auto.
        -- intros [[Hb [?|(f & Hf & ?)]]|[-> [?|[[?|(f & Hf & ?)]|?]]]]; try done.
           ++ left; left; auto.
           ++ right. exists f. split; [auto|left; auto].
           ++ left; right; auto.
           ++ right. exists f. split; [auto|right; auto].
           ++ right. exists N. split; [auto|right; auto].
Qed.
