(* ===== verification/ReachDelete.v ===== *)
(** * Deleting a block

    [delete_block] of [inquirer.rs]: it always succeeds on a block other than the
    tree root, and, as its comment promises, every chain and DAG query about the
    other blocks keeps its answer. *)
From S2P Require Import Prelude Tx Interval Slice ReachStore Reachability ReachTree ReachReindex ReachPropagate ReachReclaim ReachAdd ReachDag.
#[local] Open Scope Z_scope.

(** The list [l] with the block [b] replaced by [cs]. *)
Definition repl (b : Hash) (cs l : list Hash) : list Hash :=
  l ≫= fun x => if decide (x = b) then cs else [x].

Section repl.
Context (b : Hash) (cs : list Hash).

Lemma repl_app l1 l2 : repl b cs (l1 ++ l2) = repl b cs l1 ++ repl b cs l2.
Proof. unfold repl. by rewrite bind_app. Qed.

Lemma repl_cons x l : repl b cs (x :: l) = (if decide (x = b) then cs else [x]) ++ repl b cs l.
Proof. done. Qed.

Lemma elem_of_repl x l : x ∈ repl b cs l <-> (x <> b /\ x ∈ l) \/ (b ∈ l /\ x ∈ cs).
Proof.
  unfold repl. rewrite list_elem_of_bind. split.
  - intros (y & Hx & Hy). case_decide; [subst; auto|]. apply list_elem_of_singleton in Hx as ->. auto.
  - intros [[Hne Hx]|[Hb Hx]]; [exists x; rewrite decide_False by done; split; [left|done]|].
    exists b. by rewrite decide_True.
Qed.

Lemma repl_id l : b ∉ l -> repl b cs l = l.
Proof.
  induction l as [|x l IH]; [done|]. intros [Hne Hl]%not_elem_of_cons. rewrite repl_cons, decide_False by done.
  cbn. by rewrite IH.
Qed.

Lemma repl_split pre post : b ∉ pre -> b ∉ post -> repl b cs (pre ++ b :: post) = pre ++ cs ++ post.
Proof. intros H1 H2. rewrite repl_app, repl_cons, decide_True, !repl_id by done. done. Qed.
End repl.

(** ** Searching depends on the intervals only *)

Lemma search_loop_ext {E A} (key key' : A -> outcome E Z) point l n : forall base size,
  (forall a, key a = key' a) -> search_loop key point l n base size = search_loop key' point l n base size.
Proof.
  induction n as [|n IH]; intros base size Hk; [done|]. cbn. case_match; [done|].
  unfold search_cmp. destruct (l !! _) as [a|]; [|done]. run. rewrite Hk. destruct (key' a); run; [|done..]. by apply IH.
Qed.

Lemma binary_search_ext {E A} (key key' : A -> outcome E Z) point l :
  (forall a, key a = key' a) -> binary_search_by_key key point l = binary_search_by_key key' point l.
Proof.
  intros Hk. unfold binary_search_by_key. case_match; [done|]. rewrite (search_loop_ext key key') by done.
  destruct (search_loop _ _ _ _ _ _) as [base| | |]; run; [|done..].
  unfold search_cmp. destruct (l !! base); [|done]. run. by rewrite Hk.
Qed.

Lemma search_ext (s s' : MemoryReachabilityStore) hs d :
  (forall h, get_interval s h = get_interval s' h) ->
  binary_search_descendant s hs d = binary_search_descendant s' hs d.
Proof.
  intros Hi. unfold binary_search_descendant. rewrite Hi. destruct (get_interval s' d); run; [|done..].
  rewrite (binary_search_ext (search_key s) (search_key s')) by (intros; unfold search_key; by rewrite Hi).
  destruct (binary_search_by_key _ _ _) as [[?|[|?]]| | |]; run; try done.
  unfold is_chain_ancestor_of. destruct (hs !! n); [|done]. run. by rewrite !Hi.
Qed.

(** ** The effect of the updates *)

Definition set_kids (l : list Hash) (d : MemoryReachabilityData) : MemoryReachabilityData :=
  mkMData l (parent d) (interval d) (height d) (future_covering_set d).
Definition set_par (p : Hash) (d : MemoryReachabilityData) : MemoryReachabilityData :=
  mkMData (children d) p (interval d) (height d) (future_covering_set d).

(** A store in which the block [b], a child of [p], has been replaced by its
    children at [p], the blocks [cd] have been given the parent [p], and [b] has
    been replaced in the future covering sets of the blocks [fd]. *)
Record spliced (m m' : blocks) (b p : Hash) (cd fd : list Hash) : Prop := {
  sp_dom : dom m' = dom m;
  sp_kids : forall h, h <> b -> kids m' h = repl b (kids m b) (kids m h);
  sp_par : forall h, par m' h = if decide (h ∈ cd) then p else par m h;
  sp_ht : forall h, ht m' h = ht m h;
  sp_iv : forall h, iv m' h = iv m h;
  sp_fcs : forall h, fcs m' h = if decide (h ∈ fd) then repl b (kids m b) (fcs m h) else fcs m h
}.

Lemma update_alter (s : MemoryReachabilityStore) h f : h ∈ dom (mem_map s) ->
  mem_update s h (fun d => Ok (f d)) = Ok (mkMem (alter f h (mem_map s)) (mem_reindex_root s)).
Proof.
  intros [d Hd]%elem_of_dom. unfold mem_update, mem_get_data. rewrite Hd. run. f_equal. f_equal.
  apply map_eq. intros x. destruct (decide (x = h)) as [->|Hne].
  - by rewrite lookup_insert_eq, lookup_alter_eq, Hd.
  - by rewrite lookup_insert_ne, lookup_alter_ne.
Qed.

Lemma set_parent_ok (s : MemoryReachabilityStore) h p : h ∈ dom (mem_map s) ->
  set_parent s h p = Ok (mkMem (alter (set_par p) h (mem_map s)) (mem_reindex_root s)).
Proof. apply (update_alter s h (set_par p)). Qed.

(** The projection [f] of a store with an altered entry. *)
Lemma proj_alter {A} (f : MemoryReachabilityData -> A) (def : A) g h (m : blocks) x :
  default def (f <$> alter g h m !! x) =
  if decide (x = h) then default def ((fun d => f (g d)) <$> m !! x) else default def (f <$> m !! x).
Proof.
  case_decide; [subst; rewrite lookup_alter_eq; by destruct (m !! h)|]. by rewrite lookup_alter_ne.
Qed.

Lemma list_shape {A} (l : list A) : l = [] \/ (exists c, l = [c]) \/ exists c1 mid cn, l = c1 :: mid ++ [cn].
Proof. destruct l as [|c1 l]; [auto|]. destruct l as [|cn mid _] using rev_ind; eauto 10. Qed.

Section splice.
Context (m : blocks) (root b p : Hash) (T : tree m root) (G : all_good m) (F : fcs_ok m).
Context (Hb : b ∈ kids m p).

Lemma b_dom : b ∈ dom m.
Proof. by apply (tree_child _ _ T) in Hb as (? & _). Qed.
Lemma p_dom : p ∈ dom m.
Proof. by eapply kids_dom. Qed.
Lemma b_par : par m b = p.
Proof. by apply (tree_child _ _ T) in Hb as (_ & ? & _). Qed.
Lemma b_not_kid h : h <> p -> b ∉ kids m h.
Proof. intros Hh Hk. apply (tree_child _ _ T) in Hk as (_ & Hp & _). rewrite b_par in Hp. done. Qed.
Lemma p_not_b : p <> b.
Proof. intros Heq. apply (tree_child _ _ T) in Hb as (_ & _ & Hh). rewrite Heq in Hh. lia. Qed.
Lemma b_kids_not_b : b ∉ kids m b.
Proof. apply b_not_kid. intros Heq. by apply p_not_b. Qed.

Lemma kids_split : exists pre post, kids m p = pre ++ b :: post /\ b ∉ pre /\ b ∉ post.
Proof.
  pose proof (tree_nodup _ _ T p) as Hnd. apply list_elem_of_split in Hb as (pre & post & Hk). exists pre, post.
  rewrite Hk in Hnd. apply NoDup_app in Hnd as (_ & H1 & H2). apply NoDup_cons in H2 as [H2 _]. split_and!; try done.
  intros Hp. apply (H1 b Hp). left.
Qed.

Lemma replace_child_ok (s : MemoryReachabilityStore) pre post :
  mem_map s = m -> kids m p = pre ++ b :: post -> b ∉ pre -> b ∉ post ->
  exists m1, replace_child s p b (length pre) (kids m b) = Ok (mkMem m1 (mem_reindex_root s)) /\ spliced m m1 b p [] [].
Proof.
  intros Hs Hk H1 H2. pose proof p_dom as [d Hd]%elem_of_dom. cbn.
  unfold mem_replace_child, mem_update, mem_get_data. rewrite Hs, Hd. run.
  assert (children d = pre ++ b :: post) as Hc by (unfold kids in Hk; rewrite Hd in Hk; done).
  unfold vec_splice. rewrite Hc, (proj2 (Nat.leb_le _ _)) by (rewrite length_app; cbn; lia). run.
  eexists. split; [done|].
  assert (take (length pre) (pre ++ b :: post) ++ kids m b ++ drop (S (length pre)) (pre ++ b :: post)
    = repl b (kids m b) (kids m p)) as ->.
  { rewrite Hk, repl_split by done. rewrite take_app_length. f_equal. f_equal.
    change (b :: post) with ([b] ++ post). rewrite app_assoc. apply drop_app_length'. rewrite length_app. cbn. lia. }
  constructor; [rewrite dom_insert_L; apply elem_of_dom_2 in Hd; clear -Hd; set_solver|..]; intros h;
    rewrite ?(decide_False (P := h ∈ [])) by apply not_elem_of_nil; unfold par, ht, iv, fcs;
    (destruct (decide (h = p)) as [->|Hne]; [|]); try (rewrite lookup_insert_eq, Hd; done); try (by rewrite lookup_insert_ne).
  - intros _. unfold kids at 1. rewrite lookup_insert_eq. done.
  - intros Hhb. unfold kids at 1. rewrite lookup_insert_ne by done. rewrite repl_id; [done|]. by apply b_not_kid.
Qed.

Lemma set_parents_ok cs : forall (s : MemoryReachabilityStore) cd fd,
  spliced m (mem_map s) b p cd fd -> (forall c, c ∈ cs -> c ∈ dom m) ->
  exists m', foldM (fun s child => set_parent s child p) s cs = Ok (mkMem m' (mem_reindex_root s)) /\
    spliced m m' b p (cd ++ cs) fd.
Proof.
  induction cs as [|c cs IH]; intros s cd fd [] Hdom.
  { exists (mem_map s). rewrite app_nil_r. split; [by destruct s|by constructor]. }
  cbn [foldM]. rewrite set_parent_ok by (rewrite sp_dom0; apply Hdom; left). run.
  destruct (IH (mkMem (alter (set_par p) c (mem_map s)) (mem_reindex_root s)) (cd ++ [c]) fd) as (m' & Hm' & Sp).
  - constructor; cbn [mem_map].
    + by rewrite dom_alter_L.
    + intros h Hh. rewrite <-sp_kids0 by done. unfold kids. rewrite proj_alter. by case_decide.
    + intros h. unfold par at 1. rewrite proj_alter. destruct (decide (h = c)) as [->|Hne].
      * rewrite decide_True by mem. assert (c ∈ dom (mem_map s)) as [d Hd]%elem_of_dom by (rewrite sp_dom0; apply Hdom; left).
        rewrite Hd. done.
      * change (default NONE (parent <$> mem_map s !! h)) with (par (mem_map s) h). rewrite sp_par0.
        destruct (decide (h ∈ cd)); [rewrite decide_True by mem; done|rewrite decide_False; [done|]].
        rewrite elem_of_app, list_elem_of_singleton. tauto.
    + intros h. rewrite <-sp_ht0. unfold ht. rewrite proj_alter. by case_decide.
    + intros h. rewrite <-sp_iv0. unfold iv. rewrite proj_alter. by case_decide.
    + intros h. rewrite <-sp_fcs0. unfold fcs. rewrite proj_alter. by case_decide.
  - intros x Hx. apply Hdom. by right.
  - exists m'. split; [done|]. by rewrite <-app_assoc in Sp.
Qed.

Lemma lam : laminar m.
Proof. intros h Hh. by apply G. Qed.

(** A future covering set lists a block once, and none of its relatives. *)
Lemma fcs_related x f g : f ∈ fcs m x -> g ∈ fcs m x -> anc m f g -> f = g.
Proof.
  intros Hf Hg A. destruct (F x) as [F1 F2]. apply list_elem_of_lookup in Hf as [i Hi]. apply list_elem_of_lookup in Hg as [j Hj].
  assert (solid m f) as Sf by (apply G, F2, list_elem_of_lookup; eauto).
  assert (solid m g) as Sg by (apply G, F2, list_elem_of_lookup; eauto).
  apply (anc_contained _ lam) in A. unfold solid, isize in *.
  destruct (Nat.lt_trichotomy i j) as [Hij|[->|Hij]]; [|congruence|].
  - pose proof (left_of_intervals _ lam _ _ (F1 _ _ _ _ Hi Hj Hij)). lia.
  - pose proof (left_of_intervals _ lam _ _ (F1 _ _ _ _ Hj Hi Hij)). lia.
Qed.

Lemma fcs_once x j : fcs m x !! j = Some b -> b ∉ take j (fcs m x) /\ b ∉ drop (S j) (fcs m x).
Proof.
  intros Hj. destruct (F x) as [F1 F2]. assert (solid m b) as Sb by (apply G, b_dom).
  split; intros Hin; apply list_elem_of_lookup in Hin as [k Hk].
  - apply lookup_take_Some in Hk as [Hk Hlt].
    pose proof (left_of_intervals _ lam _ _ (F1 _ _ _ _ Hk Hj Hlt)). unfold solid, isize in Sb. lia.
  - rewrite lookup_drop in Hk.
    pose proof (left_of_intervals _ lam _ _ (F1 _ _ _ _ Hj Hk ltac:(lia))). unfold solid, isize in Sb. lia.
Qed.

Lemma splice_fcs_ok ms : forall (s : MemoryReachabilityStore) cd fd,
  spliced m (mem_map s) b p cd fd -> NoDup ms -> (forall x, x ∈ ms -> x ∈ dom m /\ b ∈ fcs m x /\ x ∉ fd) ->
  exists m', foldM (fun s merged_block =>
      fcs ← get_future_covering_set s merged_block;
      r ← binary_search_descendant s fcs b;
      match r with
      | NotFound _ => Err DataInconsistency
      | Found _ i => replace_future_covering_item s merged_block b i (kids m b)
      end) s ms = Ok (mkMem m' (mem_reindex_root s)) /\
    spliced m m' b p cd (fd ++ ms).
Proof.
  induction ms as [|x ms IH]; intros s cd fd Sp Hnd Hms.
  { exists (mem_map s). rewrite app_nil_r. split; [by destruct s|done]. }
  pose proof Sp as []. apply NoDup_cons in Hnd as [Hx Hnd]. destruct (Hms x ltac:(left)) as (Hxd & Hxb & Hxf).
  cbn [foldM]. assert (x ∈ dom (mem_map s)) as Hxs by (by rewrite sp_dom0).
  rewrite get_fcs_ok, sp_fcs0, decide_False by done. run.
  set (s0 := mkMem m (mem_reindex_root s)).
  rewrite (search_ext s s0).
  2:{ intros h. cbn. unfold mem_get_interval, mem_get_data. specialize (sp_iv0 h). unfold iv in sp_iv0. cbn.
      destruct (mem_map s !! h) as [d|] eqn:E1, (m !! h) as [d'|] eqn:E2; try done; cbn in *; try congruence.
      - apply elem_of_dom_2 in E1. rewrite sp_dom0 in E1. by apply not_elem_of_dom in E2.
      - apply elem_of_dom_2 in E2. rewrite <-sp_dom0 in E2. by apply not_elem_of_dom in E1. }
  destruct (F x) as [F1 F2].
  destruct (search_descendant_ok s0 root T lam (fcs m x) b) as (r & -> & Hr).
  { apply b_dom. } { apply G, b_dom. } { done. }
  { apply (sorted_ordered _ lam); [done|]. intros h Hh. apply G. auto. }
  { intros h Hh _. apply G. auto. }
  run. destruct r as [i|h i]; [destruct Hr as (_ & Hr & _); exfalso; apply (Hr b Hxb), rtc_refl|].
  destruct Hr as [Hi Hh]. assert (h ∈ fcs m x) as Hhx by (apply list_elem_of_lookup; eauto).
  apply (fcs_related x) in Hh as ->; [|done|done]. destruct (fcs_once x i Hi) as [O1 O2].
  assert (replace_future_covering_item s x b i (kids m b) =
    Ok (mkMem (alter (set_fcs (repl b (kids m b) (fcs m x))) x (mem_map s)) (mem_reindex_root s))) as ->.
  { apply (update_fcs_ok s x (vec_splice i (kids m b))); [done|]. rewrite sp_fcs0, decide_False by done.
    unfold vec_splice. rewrite (proj2 (Nat.leb_le _ _)) by (apply lookup_lt_Some in Hi; lia).
    f_equal. rewrite <-(take_drop_middle _ _ _ Hi) at 3. by rewrite repl_split. }
  run. destruct (IH (mkMem (alter (set_fcs (repl b (kids m b) (fcs m x))) x (mem_map s)) (mem_reindex_root s)) cd (fd ++ [x]))
    as (m' & Hm' & Sp'); [|done| |].
  - pose proof (alter_fcs_core (mem_map s) x (repl b (kids m b) (fcs m x))) as [C1 C2 C3 C4 C5].
    constructor; cbn [mem_map].
    + congruence.
    + intros h Hh. rewrite C2. auto.
    + intros h. rewrite C3. auto.
    + intros h. rewrite C4. auto.
    + intros h. rewrite C5. auto.
    + intros h. rewrite fcs_alter by done. case_decide as Hhx'.
      * subst h. by rewrite decide_True by mem.
      * rewrite sp_fcs0. destruct (decide (h ∈ fd)); [rewrite decide_True by mem; done|rewrite decide_False; [done|]].
        rewrite elem_of_app, list_elem_of_singleton. tauto.
  - intros y Hy. destruct (Hms y ltac:(by right)) as (? & ? & ?). split_and!; try done.
    rewrite elem_of_app, list_elem_of_singleton. intros [?| ->]; done.
  - exists m'. split; [done|]. by rewrite <-app_assoc in Sp'.
Qed.

(** ** Handing on the capacity *)

(** The children now at [p] may have grown, within the interval of [p]. *)
Record widened (m4 : blocks) : Prop := {
  wd_sub : forall h, h ∈ dom m -> h <> b ->
    start (iv m4 h) <= start (iv m h) /\ end_ (iv m h) <= end_ (iv m4 h) /\ wf_interval (iv m4 h);
  wd_out : forall h, h ∉ repl b (kids m b) (kids m p) -> iv m4 h = iv m h;
  wd_packed : packed m4 (start (iv m p)) (end_ (iv m p) - 1) (repl b (kids m b) (kids m p))
}.

Lemma replace_packed m4 lo hi pre post cs :
  packed m lo hi (pre ++ b :: post) -> (forall h, h ∈ pre -> iv m4 h = iv m h) -> (forall h, h ∈ post -> iv m4 h = iv m h) ->
  packed m4 (start (iv m b)) (end_ (iv m b)) cs -> packed m4 lo hi (pre ++ cs ++ post).
Proof.
  intros Hp H1 H2 Hcs. apply packed_after in Hp as [P1 (Q1 & Q2 & Q3 & P2)].
  apply packed_after. split; [by eapply packed_ext|]. rewrite (after_ext _ _ _ _ H1).
  apply packed_after. split; [eapply packed_weaken; [..|exact Hcs]; lia|].
  apply (packed_weaken _ (end_ (iv m b) + 1) _ hi); [|lia|eapply packed_ext; [exact H2|exact P2]].
  destruct (decide (cs = [])) as [->|Hne]; [cbn; lia|]. pose proof (after_le _ _ _ _ Hcs Hne) as Ha.
  unfold after in *. destruct (last cs) eqn:E; [lia|by apply last_None in E].
Qed.

Lemma same_wd h m4 : iv m4 h = iv m h -> h ∈ dom m ->
  start (iv m4 h) <= start (iv m h) /\ end_ (iv m h) <= end_ (iv m4 h) /\ wf_interval (iv m4 h).
Proof. intros -> Hh. destruct (G h Hh) as [[Hw _] _]. split_and!; [lia|lia|done]. Qed.

Lemma kid_b_facts c : c ∈ kids m b -> c ∈ dom m /\ c <> b /\ c ∉ kids m p /\
  start (iv m b) <= start (iv m c) /\ end_ (iv m c) < end_ (iv m b) /\ start (iv m c) - 1 <= end_ (iv m c).
Proof.
  intros Hc. pose proof (tree_child _ _ T _ _ Hc) as (Hcd & Hcp & Hch).
  destruct (kid_contained _ lam _ _ Hc) as (K1 & K2 & K3). split_and!; try done; try lia.
  - intros ->. lia.
  - intros Hk. apply (tree_child _ _ T) in Hk as (_ & Hp & _). rewrite Hcp in Hp. by apply p_not_b.
Qed.

(** The store [s] has the spliced tree and the intervals of [m]. *)
Context (s : MemoryReachabilityStore) (ms : list Hash) (Sp : spliced m (mem_map s) b p (kids m b) ms).

Lemma set_ivs_ok l : NoDup l.*1 -> (forall h, h ∈ l.*1 -> h ∈ dom m) ->
  exists m4, foldM (fun s '(c, ci) => set_interval s c ci) s l = Ok (mkMem m4 (mem_reindex_root s)) /\
    same_shape (mem_map s) m4 /\ (forall x, x ∉ l.*1 -> iv m4 x = iv m x) /\ (forall h i, (h, i) ∈ l -> iv m4 h = i).
Proof.
  intros Hnd Hd. destruct (set_intervals_ok l.*1 s l.*2) as (m4 & Hf & S1 & S2 & S3).
  - done.
  - intros c Hc. rewrite (sp_dom _ _ _ _ _ _ Sp). auto.
  - by rewrite !length_fmap.
  - rewrite zip_fst_snd in Hf. exists m4. split_and!; try done.
    + intros x Hx. rewrite S2 by done. apply (sp_iv _ _ _ _ _ _ Sp).
    + intros h i Hl. clear -S3 Hl. induction l as [|[h' i'] l IH]; [by apply elem_of_nil in Hl|].
      cbn in S3. injection S3 as S3 S3'. apply elem_of_cons in Hl as [[= -> ->]|Hl]; [done|auto].
Qed.

Lemma extend_leaf pre post : kids m p = pre ++ b :: post -> b ∉ pre -> b ∉ post -> kids m b = [] ->
  exists m4, extend_intervals s p (length pre) (iv m b) [] = Ok (mkMem m4 (mem_reindex_root s)) /\
    same_shape (mem_map s) m4 /\ widened m4.
Proof.
  intros Hk H1 H2 Hleaf. pose proof (lam p p_dom) as [Hw Hpk]. rewrite Hk in Hpk.
  assert (repl b (kids m b) (kids m p) = pre ++ post) as Hrep by (by rewrite Hk, repl_split, Hleaf).
  destruct pre as [|x pre _] using rev_ind.
  { exists (mem_map s). cbn. split; [by destruct s|]. split; [done|]. constructor.
    - intros h Hh _. apply same_wd; [apply (sp_iv _ _ _ _ _ _ Sp)|done].
    - intros h _. apply (sp_iv _ _ _ _ _ _ Sp).
    - rewrite Hrep. apply (replace_packed _ _ _ [] post []); try done; intros; apply (sp_iv _ _ _ _ _ _ Sp). }
  rewrite length_app, Nat.add_1_r. cbn [extend_intervals].
  assert (x ∈ kids m p) as Hxk by (rewrite Hk; mem). pose proof (tree_child _ _ T _ _ Hxk) as (Hxd & _ & _).
  rewrite get_children_ok by (rewrite (sp_dom _ _ _ _ _ _ Sp); apply p_dom). run.
  rewrite (sp_kids _ _ _ _ _ _ Sp), Hrep by apply p_not_b. rewrite <-app_assoc. cbn [app]. rewrite list_lookup_middle by done. run.
  rewrite get_interval_ok, (sp_iv _ _ _ _ _ _ Sp) by (by rewrite (sp_dom _ _ _ _ _ _ Sp)). run.
  destruct (set_ivs_ok [(x, mkInterval (start (iv m x)) (end_ (iv m b)))]) as (m4 & Hf & S1 & S2 & S3).
  { apply NoDup_singleton. } { by intros h ->%list_elem_of_singleton. }
  cbn [foldM] in Hf. destruct (set_interval s x _) as [s'| | |]; [|done..]. injection Hf as ->.
  exists m4. split; [done|]. split; [done|]. specialize (S3 x _ ltac:(left)).
  pose proof (tree_nodup _ _ T p) as Hnd. rewrite Hk, <-app_assoc in Hnd.
  apply NoDup_app in Hnd as (_ & N1 & N2). apply NoDup_cons in N2 as [N2 _].
  assert (forall h, h <> x -> iv m4 h = iv m h) as Hother.
  { intros h Hh. apply S2. cbn. by rewrite list_elem_of_singleton. }
  rewrite <-app_assoc in Hpk. apply packed_after in Hpk as [P1 (Q1 & Q2 & Q3 & R1 & R2 & R3 & R4)].
  pose proof (lam x Hxd) as [(W1 & W2 & W3) _]. destruct Hw as (V1 & V2 & V3).
  constructor.
  - intros h Hh _. destruct (decide (h = x)) as [->|Hne]; [|apply same_wd; auto].
    rewrite S3. unfold wf_interval. cbn. lia.
  - intros h Hh. apply Hother. intros ->. apply Hh. rewrite Hrep. mem.
  - rewrite Hrep, <-app_assoc. apply packed_after.
    assert (forall y, y ∈ pre -> iv m4 y = iv m y) as Hpre.
    { intros y Hy. apply Hother. intros ->. apply (N1 x Hy). left. }
    split; [by eapply packed_ext|]. rewrite (after_ext _ _ _ _ Hpre). cbn [app packed]. rewrite S3. cbn [start end_].
    split_and!; try lia. eapply packed_ext; [|exact R4]. intros y Hy. apply Hother. intros ->. apply N2. by right.
Qed.

(** What remains to be shown once the children have their intervals. *)
Lemma widened_kids m4 pre post :
  kids m p = pre ++ b :: post -> b ∉ pre -> b ∉ post -> (forall h, h ∉ kids m b -> iv m4 h = iv m h) ->
  (forall h, h ∈ kids m b -> start (iv m4 h) <= start (iv m h) /\ end_ (iv m h) <= end_ (iv m4 h)) ->
  packed m4 (start (iv m b)) (end_ (iv m b)) (kids m b) -> widened m4.
Proof.
  intros Hk H1 H2 Hout Hin Hpk. pose proof (lam p p_dom) as [Hw Hpp]. pose proof (lam b b_dom) as [(B1 & B2 & B3) _].
  rewrite Hk in Hpp.
  constructor.
  - intros h Hh Hne. destruct (decide (h ∈ kids m b)) as [Hc|Hc]; [|apply same_wd; auto].
    destruct (Hin h Hc) as [I1 I2]. split_and!; [done|done|]. destruct (kid_b_facts h Hc) as (_ & _ & _ & K1 & K2 & K3).
    destruct (packed_in _ _ _ _ h Hpk Hc) as (Q1 & Q2 & Q3). unfold wf_interval. lia.
  - intros h Hh. apply Hout. intros Hc. apply Hh, elem_of_repl. right. done.
  - rewrite Hk, repl_split by done. eapply replace_packed; [exact Hpp| | |exact Hpk];
      intros h Hh; apply Hout; intros Hc; destruct (kid_b_facts h Hc) as (_ & _ & Hn & _); apply Hn; rewrite Hk; mem.
Qed.

Lemma extend_single pre post c : kids m p = pre ++ b :: post -> b ∉ pre -> b ∉ post -> kids m b = [c] ->
  exists m4, extend_intervals s p (length pre) (iv m b) [c] = Ok (mkMem m4 (mem_reindex_root s)) /\
    same_shape (mem_map s) m4 /\ widened m4.
Proof.
  intros Hk H1 H2 Hc. assert (c ∈ kids m b) as Hcb by (rewrite Hc; left).
  destruct (kid_b_facts c Hcb) as (Hcd & Hne & Hn & K1 & K2 & K3).
  destruct (set_ivs_ok [(c, iv m b)]) as (m4 & Hf & S1 & S2 & S3).
  { apply NoDup_singleton. } { by intros h ->%list_elem_of_singleton. }
  cbn [foldM] in Hf. cbn [extend_intervals]. destruct (set_interval s c _) as [s'| | |]; [|done..]. injection Hf as ->.
  exists m4. split; [done|]. split; [done|]. specialize (S3 c _ ltac:(left)).
  pose proof (lam b b_dom) as [(B1 & B2 & B3) _].
  eapply widened_kids; eauto.
  - intros h Hh. apply S2. cbn. rewrite list_elem_of_singleton. intros ->. done.
  - intros h Hh. rewrite Hc in Hh. apply list_elem_of_singleton in Hh as ->. rewrite S3. lia.
  - rewrite Hc. cbn [packed]. rewrite S3. split_and!; try done; lia.
Qed.

Lemma extend_many pre post c1 mid cn :
  kids m p = pre ++ b :: post -> b ∉ pre -> b ∉ post -> kids m b = c1 :: mid ++ [cn] ->
  exists m4, extend_intervals s p (length pre) (iv m b) (c1 :: mid ++ [cn]) = Ok (mkMem m4 (mem_reindex_root s)) /\
    same_shape (mem_map s) m4 /\ widened m4.
Proof.
  intros Hk H1 H2 Hc. assert (c1 ∈ kids m b) as Hc1 by (rewrite Hc; mem).
  assert (cn ∈ kids m b) as Hcn by (rewrite Hc; mem).
  destruct (kid_b_facts c1 Hc1) as (Hd1 & Hne1 & Hn1 & K1 & K2 & K3).
  destruct (kid_b_facts cn Hcn) as (Hdn & Hnen & Hnn & L1 & L2 & L3).
  pose proof (tree_nodup _ _ T b) as Hnd. rewrite Hc in Hnd. apply NoDup_cons in Hnd as [Hnd1 Hnd].
  assert (c1 <> cn) as Hne by (intros ->; apply Hnd1; mem).
  destruct (set_ivs_ok [(c1, mkInterval (start (iv m b)) (end_ (iv m c1))); (cn, mkInterval (start (iv m cn)) (end_ (iv m b)))])
    as (m4 & Hf & S1 & S2 & S3).
  { cbn. apply NoDup_cons. split; [by rewrite list_elem_of_singleton|apply NoDup_singleton]. }
  { cbn. intros h [Hh|Hh%list_elem_of_singleton]%elem_of_cons; by subst. }
  assert (extend_intervals s p (length pre) (iv m b) (c1 :: mid ++ [cn]) = Ok (mkMem m4 (mem_reindex_root s))) as He.
  { assert (exists c2 l, mid ++ [cn] = c2 :: l) as (c2 & l & Hm) by (destruct mid; cbn; eauto).
    assert (last ((c1 :: mid) ++ [cn]) = Some cn) as Hlast by apply last_snoc. rewrite <-app_comm_cons, Hm in Hlast. rewrite Hm. cbn [extend_intervals].
    rewrite get_interval_ok, (sp_iv _ _ _ _ _ _ Sp) by (by rewrite (sp_dom _ _ _ _ _ _ Sp)). run.
    cbn [foldM] in Hf. rewrite set_interval_ok in Hf |- * by (by rewrite (sp_dom _ _ _ _ _ _ Sp)). revert Hf. run. intros Hf.
    rewrite Hlast. run. rewrite get_interval_ok.
    2:{ cbn. rewrite (ss_dom _ _ (upd_iv_shape _ _ _)). by rewrite (sp_dom _ _ _ _ _ _ Sp). }
    run. cbn [mem_map]. rewrite iv_upd_ne, (sp_iv _ _ _ _ _ _ Sp) by done.
    match type of Hf with (?x ≫= _) = _ => destruct x; [|done..] end. by injection Hf as ->. }
  exists m4. split; [done|]. split; [done|].
  pose proof (S3 c1 _ ltac:(left)) as E1. pose proof (S3 cn _ ltac:(right; left)) as En.
  assert (forall h, h <> c1 -> h <> cn -> iv m4 h = iv m h) as Hother.
  { intros h Hh1 Hhn. apply S2. cbn. by rewrite not_elem_of_cons, list_elem_of_singleton. }
  pose proof (lam b b_dom) as [(B1 & B2 & B3) Hpb]. rewrite Hc in Hpb.
  eapply widened_kids; eauto.
  - intros h Hh. apply Hother; intros ->; done.
  - intros h Hh. destruct (decide (h = c1)) as [->|]; [rewrite E1; cbn; lia|].
    destruct (decide (h = cn)) as [->|]; [rewrite En; cbn; lia|]. rewrite Hother by done. lia.
  - rewrite Hc. destruct Hpb as (P1 & P2 & P3 & P4). cbn [packed]. rewrite E1. cbn [start end_].
    split_and!; try lia. apply packed_after in P4 as [P4 (Q1 & Q2 & Q3 & _)].
    apply NoDup_app in Hnd as (_ & N1 & _).
    assert (forall x, x ∈ mid -> iv m4 x = iv m x) as Hmid.
    { intros x Hx. apply Hother; [intros ->; apply Hnd1; mem|]. intros ->. apply (N1 cn Hx). left. }
    apply packed_after. split.
    + eapply packed_ext; [exact Hmid|]. eapply packed_weaken; [..|exact P4]; lia.
    + rewrite (after_ext _ _ _ _ Hmid). cbn [packed]. rewrite En. cbn [start end_]. split_and!; try done; lia.
Qed.

Lemma extend_ok pre post : kids m p = pre ++ b :: post -> b ∉ pre -> b ∉ post ->
  exists m4, extend_intervals s p (length pre) (iv m b) (kids m b) = Ok (mkMem m4 (mem_reindex_root s)) /\
    same_shape (mem_map s) m4 /\ widened m4.
Proof.
  intros Hk H1 H2. destruct (list_shape (kids m b)) as [Hc|[[c Hc]|(c1 & mid & cn & Hc)]]; rewrite Hc.
  - by eapply extend_leaf.
  - by eapply extend_single.
  - by eapply extend_many.
Qed.
End splice.

(** ** The store without the block *)

(** What is left after the deletion. *)
Record removed (m m5 : blocks) (b p : Hash) : Prop := {
  rm_dom : dom m5 = dom m ∖ {[b]};
  rm_kids : forall h, kids m5 h = if decide (h = b) then [] else repl b (kids m b) (kids m h);
  rm_par : forall h, h <> b -> par m5 h = if decide (h ∈ kids m b) then p else par m h;
  rm_ht : forall h, h <> b -> ht m5 h = ht m h;
  rm_ht_b : ht m5 b = 0;
  rm_fcs : forall h, h <> b -> fcs m5 h = repl b (kids m b) (fcs m h);
  rm_fcs_b : fcs m5 b = []
}.

Section removed.
Context (m : blocks) (root b p : Hash) (T : tree m root) (G : all_good m) (F : fcs_ok m).
Context (Hb : b ∈ kids m p) (m5 : blocks) (Rm : removed m m5 b p).

Lemma rm_child h c : c ∈ kids m5 h <-> h <> b /\ ((c <> b /\ c ∈ kids m h) \/ (h = p /\ c ∈ kids m b)).
Proof.
  rewrite (rm_kids _ _ _ _ Rm). case_decide as Hh.
  - subst. rewrite elem_of_nil. tauto.
  - rewrite elem_of_repl. split; [|intros [_ [?|[-> ?]]]; auto].
    intros [?|[Hbh Hc]]; [auto|]. split; [done|]. right. split; [|done].
    destruct (decide (h = p)) as [|Hne]; [done|]. by apply (b_not_kid m root b p T Hb) in Hbh.
Qed.

Lemma removed_anc_to a c : anc m5 a c -> anc m a c.
Proof.
  induction 1 as [|a x c Hax _ IH]; [apply rtc_refl|]. apply rm_child in Hax as (_ & [[_ Hx]|[-> Hx]]).
  - by eapply rtc_l.
  - eapply rtc_l; [exact Hb|]. by eapply rtc_l.
Qed.

Lemma removed_anc_from a c : anc m a c -> c <> b ->
  (a <> b -> anc m5 a c) /\ (a = b -> exists z, z ∈ kids m b /\ anc m5 z c).
Proof.
  induction 1 as [|a x c Hax _ IH]; intros Hc; [split; [intros _; apply rtc_refl|done]|].
  destruct (IH Hc) as [IH1 IH2]. unfold child_of in Hax.
  destruct (decide (x = b)) as [->|Hxb].
  - assert (a = p) as -> by (apply (tree_child _ _ T) in Hax as (_ & Hp & _); by rewrite (b_par m root b p T Hb) in Hp).
    pose proof (p_not_b m root b p T Hb) as Hpb. split; [|done]. intros _. destruct (IH2 eq_refl) as (z & Hz & Hzc).
    eapply rtc_l; [|exact Hzc]. apply rm_child. auto.
  - split; intros Ha.
    + eapply rtc_l; [|by apply IH1]. apply rm_child. auto.
    + subst a. exists x. auto.
Qed.

Lemma removed_anc a c : a <> b -> c <> b -> anc m5 a c <-> anc m a c.
Proof. intros Ha Hc. split; [apply removed_anc_to|]. intros A. by apply (removed_anc_from _ _ A Hc). Qed.

Lemma removed_tree : b <> root -> tree m5 root.
Proof.
  intros Hbr. pose proof (p_not_b m root b p T Hb) as Hpb. constructor.
  - rewrite (rm_dom _ _ _ _ Rm). pose proof (tree_root _ _ T). set_solver.
  - rewrite (rm_par _ _ _ _ Rm) by done. rewrite decide_False; [apply (tree_root_par _ _ T)|]. by apply (root_not_child _ _ T).
  - rewrite (rm_dom _ _ _ _ Rm). pose proof (tree_none _ _ T). set_solver.
  - intros h c Hc. apply rm_child in Hc as (Hh & [[Hcb Hc]|[-> Hc]]).
    + pose proof (tree_child _ _ T _ _ Hc) as (Hcd & Hcp & Hch). rewrite (rm_dom _ _ _ _ Rm), (rm_par _ _ _ _ Rm), !(rm_ht _ _ _ _ Rm) by done.
      split; [set_solver|]. split; [|done]. rewrite decide_False; [done|]. intros Hc'.
      apply (tree_child _ _ T) in Hc' as (_ & ? & _). congruence.
    + destruct (kid_b_facts m root b p T G Hb c Hc) as (Hcd & Hcb & _).
      rewrite (rm_dom _ _ _ _ Rm), (rm_par _ _ _ _ Rm), !(rm_ht _ _ _ _ Rm), decide_True by done.
      split; [set_solver|]. split; [done|]. pose proof (tree_child _ _ T _ _ Hc) as (_ & _ & ?).
      pose proof (tree_child _ _ T _ _ Hb) as (_ & _ & ?). lia.
  - intros h Hh Hne. rewrite (rm_dom _ _ _ _ Rm) in Hh |- *. apply elem_of_difference in Hh as [Hh Hhb].
    rewrite elem_of_singleton in Hhb. rewrite (rm_par _ _ _ _ Rm) by done. destruct (tree_parent _ _ T h Hh Hne) as [Hp1 Hp2].
    case_decide as Hk.
    + split; [apply elem_of_difference; split; [by eapply p_dom|by rewrite elem_of_singleton]|]. apply rm_child. auto.
    + assert (par m h <> b) as Hpb' by (intros Heq; by rewrite Heq in Hp2). split; [set_solver|]. apply rm_child. auto.
  - intros h. rewrite (rm_kids _ _ _ _ Rm). case_decide; [constructor|].
    destruct (decide (h = p)) as [->|Hhp]; [|rewrite repl_id; [apply (tree_nodup _ _ T)|by eapply b_not_kid]].
    destruct (kids_split m root b p T Hb) as (pre & post & Hk & H1 & H2). rewrite Hk, repl_split by done.
    pose proof (tree_nodup _ _ T p) as Hnd. rewrite Hk in Hnd.
    apply NoDup_app in Hnd as (N1 & N2 & N3). apply NoDup_cons in N3 as [_ N3].
    assert (forall x, x ∈ kids m b -> x ∉ pre /\ x ∉ post) as Hdis.
    { intros x Hx. destruct (kid_b_facts m root b p T G Hb x Hx) as (_ & _ & Hn & _). rewrite Hk in Hn.
      split; intros ?; apply Hn; mem. }
    apply NoDup_app. split_and!; [done| |].
    + intros x Hx Hx'. apply elem_of_app in Hx' as [Hx'|Hx']; [by apply Hdis in Hx' as [? _]|].
      apply (N2 x Hx). mem.
    + apply NoDup_app. split_and!; [apply (tree_nodup _ _ T)| |done]. intros x Hx Hx'. by apply Hdis in Hx as [_ ?].
  - intros h. destruct (decide (h = b)) as [->|]; [by rewrite (rm_ht_b _ _ _ _ Rm)|].
    rewrite (rm_ht _ _ _ _ Rm) by done. apply (tree_height _ _ T).
Qed.

(** The intervals: as [m], except for the widened children of [p]. *)
Lemma removed_good m4 : widened m b p m4 -> (forall h, h <> b -> iv m5 h = iv m4 h) -> all_good m5.
Proof.
  intros [W1 W2 W3] Hiv h Hh. rewrite (rm_dom _ _ _ _ Rm) in Hh. apply elem_of_difference in Hh as [Hh Hhb].
  rewrite elem_of_singleton in Hhb. destruct (W1 h Hh Hhb) as (I1 & I2 & Hw). destruct (G h Hh) as [[_ Hp] Hso].
  unfold block_ok, solid, isize in *. rewrite Hiv by done. split; [split; [done|]|lia].
  rewrite (rm_kids _ _ _ _ Rm), decide_False by done.
  destruct (decide (h = p)) as [->|Hhp].
  - assert (iv m4 p = iv m p) as ->.
    { apply W2. rewrite elem_of_repl. intros [[_ Hpp]|[_ Hpp]].
      - apply (tree_child _ _ T) in Hpp as (_ & _ & ?). lia.
      - apply (tree_child _ _ T) in Hpp as (_ & _ & ?). pose proof (tree_child _ _ T _ _ Hb) as (_ & _ & ?). lia. }
    eapply packed_ext; [|exact W3]. intros c Hc. apply Hiv. intros ->.
    apply elem_of_repl in Hc as [[? _]|[_ Hc]]; [done|]. by apply (b_kids_not_b m root b p T Hb) in Hc.
  - rewrite repl_id by (by eapply b_not_kid). eapply packed_ext with (m := m).
    + intros c Hc. assert (c <> b) as Hcb by (intros ->; by apply (b_not_kid m root b p T Hb) in Hc).
      rewrite Hiv by done. apply W2. rewrite elem_of_repl.
      pose proof (tree_child _ _ T _ _ Hc) as (_ & Hcp & _).
      intros [[_ Hc']|[_ Hc']]; apply (tree_child _ _ T) in Hc' as (_ & Hcp' & _); congruence.
    + eapply packed_weaken; [..|exact Hp]; lia.
Qed.

Lemma removed_left_of a c : a <> b -> c <> b -> left_of m a c -> left_of m5 a c.
Proof.
  intros Ha Hc (q & l1 & c1 & l2 & c2 & l3 & Hk & A1 & A2).
  set (cs := kids m b). pose proof (p_not_b m root b p T Hb) as Hpb.
  assert (forall x y, x <> b -> anc m y x -> exists u z v, repl b cs [y] = u ++ z :: v /\ anc m5 z x) as Hpick.
  { intros x y Hx A. destruct (removed_anc_from _ _ A Hx) as [F1 F2]. unfold repl; cbn. rewrite app_nil_r. case_decide as Hy.
    - destruct (F2 Hy) as (z & Hz & Hzx). apply list_elem_of_split in Hz as (u & v & Hz). exists u, z, v. done.
    - exists [], y, []. split; [done|auto]. }
  destruct (Hpick a c1 Ha A1) as (u1 & z1 & v1 & E1 & B1). destruct (Hpick c c2 Hc A2) as (u2 & z2 & v2 & E2 & B2).
  assert (repl b cs (kids m q) = (repl b cs l1 ++ u1) ++ z1 :: (v1 ++ repl b cs l2 ++ u2) ++ z2 :: (v2 ++ repl b cs l3)) as Hr.
  { rewrite Hk. change (c1 :: l2 ++ c2 :: l3) with ([c1] ++ l2 ++ [c2] ++ l3). rewrite !repl_app, E1, E2.
    by list_simplifier. }
  destruct (decide (q = b)) as [->|Hqb].
  - (* the children of b are now children of p *)
    destruct (kids_split m root b p T Hb) as (pre & post & Hkp & H1 & H2).
    exists p. rewrite (rm_kids _ _ _ _ Rm), decide_False, Hkp, repl_split by done. fold cs.
    assert (repl b cs cs = cs) as Hid by (apply repl_id, (b_kids_not_b m root b p T Hb)).
    fold cs in Hr. rewrite Hid in Hr.
    exists (pre ++ repl b cs l1 ++ u1), z1, (v1 ++ repl b cs l2 ++ u2), z2, ((v2 ++ repl b cs l3) ++ post).
    split_and!; [|done|done]. rewrite Hr at 1. by list_simplifier.
  - exists q, (repl b cs l1 ++ u1), z1, (v1 ++ repl b cs l2 ++ u2), z2, (v2 ++ repl b cs l3).
    split_and!; [|done|done]. rewrite (rm_kids _ _ _ _ Rm), decide_False by done. exact Hr.
Qed.

Lemma sorted_nil : sorted m5 [].
Proof. intros ? ? ? ? Hl. by rewrite lookup_nil in Hl. Qed.

Lemma sorted_app hs hs' : sorted m5 (hs ++ hs') <->
  sorted m5 hs /\ sorted m5 hs' /\ forall x y, x ∈ hs -> y ∈ hs' -> left_of m5 x y.
Proof.
  split.
  - intros Hs. split_and!.
    + intros i j x y Hi Hj. apply (Hs i j); by apply lookup_app_l_Some.
    + intros i j x y Hi Hj Hij. apply (Hs (length hs + i) (length hs + j))%nat; [..|lia];
        rewrite lookup_app_r by lia; [by replace (length hs + i - length hs)%nat with i by lia|].
      by replace (length hs + j - length hs)%nat with j by lia.
    + intros x y [i Hi]%list_elem_of_lookup [j Hj]%list_elem_of_lookup. pose proof (lookup_lt_Some _ _ _ Hi).
      apply (Hs i (length hs + j))%nat; [by apply lookup_app_l_Some| |lia].
      rewrite lookup_app_r by lia. by replace (length hs + j - length hs)%nat with j by lia.
  - intros (S1 & S2 & S3) i j x y Hi Hj Hij.
    apply lookup_app_Some in Hi as [Hi|[Hi1 Hi2]]; apply lookup_app_Some in Hj as [Hj|[Hj1 Hj2]].
    + by apply (S1 i j).
    + apply S3; apply list_elem_of_lookup; eauto.
    + apply lookup_lt_Some in Hj. lia.
    + apply (S2 (i - length hs) (j - length hs))%nat; [done|done|lia].
Qed.

Lemma removed_kids_sorted : sorted m5 (kids m b).
Proof.
  destruct (kids_split m root b p T Hb) as (pre & post & Hkp & H1 & H2). pose proof (p_not_b m root b p T Hb) as Hpb.
  intros i j x y Hi Hj Hij.
  pose proof (take_drop_middle _ _ _ Hi) as E. pose proof Hj as Hj'. rewrite <-E in Hj'.
  rewrite lookup_app_r in Hj' by (rewrite length_take; lia).
  assert (y ∈ drop (S i) (kids m b)) as Hy.
  { apply list_elem_of_lookup. exists (j - S i)%nat. rewrite lookup_drop, <-Hj. f_equal. lia. }
  apply list_elem_of_split in Hy as (l2 & l3 & Hd). rewrite Hd in E.
  exists p, (pre ++ take i (kids m b)), x, l2, y, (l3 ++ post).
  split_and!; [|apply rtc_refl|apply rtc_refl]. rewrite (rm_kids _ _ _ _ Rm), decide_False, Hkp, repl_split by done.
  rewrite <-E at 1. by list_simplifier.
Qed.

Lemma removed_sorted hs : sorted m hs -> (forall f, f ∈ hs -> f ∈ dom m) -> sorted m5 (repl b (kids m b) hs).
Proof.
  induction hs as [|x hs IH]; intros Hs Hd; [apply sorted_nil|].
  assert (sorted m hs) as Hs'.
  { intros i j y z Hy Hz Hij. apply (Hs (S i) (S j)); [done|done|lia]. }
  assert (forall y, y ∈ hs -> left_of m x y) as Hx.
  { intros y [j Hj]%list_elem_of_lookup. apply (Hs O (S j)); [done|done|lia]. }
  assert (solid m b) as Sb by (apply G; by eapply b_dom).
  assert (b ∈ hs -> x <> b) as Hxb.
  { intros Hbh ->. specialize (Hx b Hbh). pose proof (left_of_intervals _ (lam m G) _ _ Hx). unfold solid, isize in Sb. lia. }
  assert (forall y z c, left_of m y z -> anc m z c -> left_of m y c) as Hdown.
  { intros y z c (q & l1 & c1 & l2 & c2 & l3 & ? & ? & ?) A. exists q, l1, c1, l2, c2, l3. split_and!; [done|done|by etrans]. }
  assert (forall y z c, left_of m y z -> anc m y c -> left_of m c z) as Hdown'.
  { intros y z c (q & l1 & c1 & l2 & c2 & l3 & ? & ? & ?) A. exists q, l1, c1, l2, c2, l3. split_and!; [done|by etrans|done]. }
  rewrite repl_cons. apply sorted_app. split_and!; [|apply IH; [done|]; intros f Hf; apply Hd; by right|].
  - case_decide; [apply removed_kids_sorted|]. intros i j y z Hy Hz Hij. destruct i, j; cbn in Hy, Hz; try done; lia.
  - intros y z Hy Hz.
    assert (y <> b /\ (forall w, left_of m x w -> left_of m y w)) as [Hyb Hyw].
    { case_decide as Hd'.
      - subst x. destruct (kid_b_facts m root b p T G Hb y Hy) as (_ & Hyb & _). split; [done|].
        intros w Hw. apply (Hdown' b); [done|by apply anc_kid].
      - apply list_elem_of_singleton in Hy as ->. split; [done|auto]. }
    apply elem_of_repl in Hz as [[Hzb Hz]|[Hbh Hz]].
    + apply removed_left_of; [done|done|]. auto.
    + destruct (kid_b_facts m root b p T G Hb z Hz) as (_ & Hzb & _). apply removed_left_of; [done|done|].
      apply (Hdown _ b); [auto|by apply anc_kid].
Qed.

Lemma removed_fcs_ok : fcs_ok m5.
Proof.
  intros h. destruct (decide (h = b)) as [->|Hh].
  { rewrite (rm_fcs_b _ _ _ _ Rm). split; [apply sorted_nil|intros f Hf; by apply elem_of_nil in Hf]. }
  destruct (F h) as [F1 F2]. rewrite (rm_fcs _ _ _ _ Rm) by done. split; [by apply removed_sorted|].
  intros f Hf. rewrite (rm_dom _ _ _ _ Rm). apply elem_of_difference. rewrite elem_of_singleton.
  apply elem_of_repl in Hf as [[Hfb Hf]|[_ Hf]]; [auto|].
  by destruct (kid_b_facts m root b p T G Hb f Hf) as (? & ? & _).
Qed.

Lemma removed_dag a c : a <> b -> c <> b -> dag_rel m5 a c <-> dag_rel m a c.
Proof.
  intros Ha Hc. unfold dag_rel. rewrite (removed_anc a c Ha Hc), (rm_fcs _ _ _ _ Rm) by done.
  setoid_rewrite elem_of_repl. split; (intros [?|(f & Hf & A)]; [by left|right]).
  - destruct Hf as [[Hfb Hf]|[Hbf Hf]]; [exists f; split; [done|by apply removed_anc]|].
    exists b. split; [done|]. eapply rtc_l; [exact Hf|]. by apply removed_anc_to.
  - destruct (removed_anc_from _ _ A Hc) as [F1 F2]. destruct (decide (f = b)) as [->|Hfb].
    + destruct (F2 eq_refl) as (z & Hz & Hzc). exists z. auto.
    + exists f. auto.
Qed.
End removed.

(** ** [delete_block] *)

Lemma delete_block_ok root R s b ms :
  let m := mem_map s in
  dag_store_ok root R s -> b ∈ dom m -> b <> root -> b <> R -> NoDup ms ->
  (forall x, x ∈ ms <-> x ∈ dom m /\ x <> b /\ b ∈ fcs m x) ->
  exists s', delete_block s b ms = Ok s' /\ dag_store_ok root R s' /\ dom (mem_map s') = dom m ∖ {[b]} /\
    (forall a c, a <> b -> c <> b -> anc (mem_map s') a c <-> anc m a c) /\
    (forall a c, a <> b -> c <> b -> dag_rel (mem_map s') a c <-> dag_rel m a c).
Proof.
  intros m [[T G Hroot HR] F] Hbd Hbr HbR Hnd Hms. fold m in T, G, HR, F.
  destruct (tree_parent _ _ T b Hbd Hbr) as [Hpd Hb]. set (p := par m b) in *.
  assert (laminar m) as L by (intros h Hh; by apply G).
  destruct (kids_split m root b p T Hb) as (pre & post & Hk & H1 & H2).
  unfold delete_block. rewrite get_interval_ok, get_parent_ok, get_children_ok by done. run. fold m p.
  rewrite get_children_ok by done. run. fold m.
  destruct (search_descendant_ok s root T L (kids m p) b) as (r & -> & Hr); try done.
  { by apply G. }
  { intros h Hh. by destruct (tree_child _ _ T _ _ Hh). }
  { apply kids_ordered; try done. intros i c c' Hc _. apply G.
    apply list_elem_of_lookup_2 in Hc. by destruct (tree_child _ _ T _ _ Hc). }
  { intros h Hh _. apply G. by destruct (tree_child _ _ T _ _ Hh). }
  run. destruct r as [i|h i]; [destruct Hr as (_ & Hr & _); exfalso; apply (Hr b Hb), rtc_refl|].
  destruct Hr as [Hi Hh]. fold m in Hi, Hh.
  assert (h = b) as -> by (eapply (kids_disjoint _ _ T p); [by eapply list_elem_of_lookup_2|done|done|apply rtc_refl]).
  assert (i = length pre) as ->.
  { eapply (NoDup_lookup _ _ _ _ (tree_nodup _ _ T p)); [exact Hi|]. rewrite Hk. by apply list_lookup_middle. }
  unfold splice_out.
  destruct (replace_child_ok m root b p T Hb s pre post eq_refl Hk H1 H2) as (m1 & -> & Sp1). run.
  destruct (set_parents_ok m b p (kids m b) (mkMem m1 (mem_reindex_root s)) [] [] Sp1) as (m2 & -> & Sp2).
  { intros c Hc. by destruct (tree_child _ _ T _ _ Hc). }
  run. cbn [mem_reindex_root]. destruct (splice_fcs_ok m root b p T G F Hb ms (mkMem m2 (mem_reindex_root s)) ([] ++ kids m b) [] Sp2 Hnd) as (m3 & -> & Sp3).
  { intros x Hx. apply Hms in Hx as (? & ? & ?). split_and!; [done|done|apply not_elem_of_nil]. }
  run. cbn [app] in Sp3. cbn [mem_reindex_root].
  destruct (extend_ok m root b p T G Hb (mkMem m3 (mem_reindex_root s)) ms Sp3 pre post Hk H1 H2) as (m4 & -> & Sh & Wd). run. cbn [mem_reindex_root].
  cbn [mem_map] in Sh. eexists. split; [done|]. cbn [mem_map].
  set (m5 := delete b m4).
  assert (removed m m5 b p) as Rm.
  { destruct Sh as [D1 D2 D3 D4 D5]. destruct Sp3 as [E1 E2 E3 E4 E5 E6]. cbn in *. constructor.
    - unfold m5. rewrite dom_delete_L. congruence.
    - intros h. unfold kids at 1, m5. case_decide as Hh'; [subst; by rewrite lookup_delete_eq|].
      rewrite lookup_delete_ne by done. change (kids m4 h = repl b (kids m b) (kids m h)). rewrite D2. by apply E2.
    - intros h Hh'. unfold par at 1, m5. rewrite lookup_delete_ne by done. change (par m4 h = if decide (h ∈ kids m b) then p else par m h). rewrite D3. apply E3.
    - intros h Hh'. unfold ht at 1, m5. rewrite lookup_delete_ne by done. change (ht m4 h = ht m h). congruence.
    - unfold ht, m5. by rewrite lookup_delete_eq.
    - intros h Hh'. unfold fcs at 1, m5. rewrite lookup_delete_ne by done. change (fcs m4 h = repl b (kids m b) (fcs m h)).
      rewrite D5, E6. case_decide as Hm; [done|]. rewrite repl_id; [done|]. intros Hbf. apply Hm, Hms. split_and!; [|done|done].
      destruct (decide (h ∈ dom m)) as [|Hn]; [done|]. unfold fcs in Hbf. apply not_elem_of_dom in Hn. rewrite Hn in Hbf. by apply elem_of_nil in Hbf.
    - unfold fcs, m5. by rewrite lookup_delete_eq. }
  assert (forall h, h <> b -> iv m5 h = iv m4 h) as Hiv.
  { intros h Hh'. unfold iv, m5. by rewrite lookup_delete_ne. }
  split; [|split; [apply (rm_dom _ _ _ _ Rm)|split; intros a c Ha Hc; [by eapply removed_anc|by eapply removed_dag]]].
  constructor; cbn [mem_map].
  - constructor; cbn [mem_map mem_reindex_root]; [by eapply removed_tree|by eapply removed_good|done|].
    fold m5. rewrite (rm_dom _ _ _ _ Rm). set_solver.
  - by eapply removed_fcs_ok.
Qed.
