(* ===== verification/Dag.v ===== *)
(** * The block DAG

    The graph of block parents that the relations store keeps, and ancestry in
    it. *)
From S2P Require Import Prelude Tx.

#[local] Open Scope Z_scope.

(** A DAG as the relations store keeps it: the parents of each block. *)
Notation dag := (gmap Hash (list Hash)).

Definition parent_of (D : dag) (x y : Hash) : Prop := exists ps, D !! y = Some ps /\ x ∈ ps.
(** [x] is [y] or in the past of [y]. *)
Definition dag_anc (D : dag) : Hash -> Hash -> Prop := rtc (parent_of D).

(** Parents are known blocks. *)
Definition dag_closed (D : dag) : Prop := forall x y, parent_of D x y -> x ∈ dom D.

Lemma dag_anc_dom D a b : dag_closed D -> dag_anc D a b -> b ∈ dom D -> a ∈ dom D.
Proof. intros Hc H Hb. inversion H as [|? c ? Hac]; subst; [done|]. by eapply Hc. Qed.

(** A block is added with parents [ps]: nothing changes for the others. *)
Lemma dag_anc_insert D n ps a b : dag_closed D -> n ∉ dom D -> (forall p, p ∈ ps -> p ∈ dom D) ->
  dag_anc (<[n := ps]> D) a b <->
  (b <> n /\ dag_anc D a b) \/ (b = n /\ (a = n \/ exists p, p ∈ ps /\ dag_anc D a p)).
Proof.
  intros Hc Hn Hps. pose proof Hn as Hn'%not_elem_of_dom.
  assert (forall x y, parent_of (<[n := ps]> D) x y <-> (y <> n /\ parent_of D x y) \/ (y = n /\ x ∈ ps)) as Hpar.
  { intros x y. unfold parent_of. destruct (decide (y = n)) as [->|Hne].
    - rewrite lookup_insert_eq. naive_solver.
    - rewrite lookup_insert_ne by done. naive_solver. }
  assert (forall x y, parent_of D x y -> y <> n) as Hold by (intros x y (? & ? & _) ->; congruence).
  assert (forall x y, dag_anc D x y -> y <> n -> dag_anc (<[n := ps]> D) x y) as Hmono.
  { intros x y H _. revert H. apply rtc_subrel. intros u v Huv. apply Hpar. left. eauto. }
  split.
  - intros H. apply rtc_inv_r in H as [->|(p & Hap & Hpb)].
    { destruct (decide (b = n)); [right; auto|left; split; [done|apply rtc_refl]]. }
    assert (forall x y, dag_anc (<[n := ps]> D) x y -> y <> n -> dag_anc D x y) as Hback.
    { intros x y H Hy. induction H as [|x u y Hxu _ IH]; [apply rtc_refl|]. specialize (IH Hy).
      apply Hpar in Hxu as [[_ Hxu]|[-> Hx]]; [by eapply rtc_l|].
      inversion IH as [|? c ? Hc']; subst; [done|]. apply Hc in Hc'. done. }
    apply Hpar in Hpb as [[Hb Hpb]|[-> Hp]].
    + left. split; [done|]. eapply rtc_r; [|exact Hpb]. apply Hback; [done|]. intros ->. by apply Hc in Hpb.
    + right. split; [done|]. right. exists p. split; [done|]. apply Hback; [done|]. intros ->. by apply Hps in Hp.
  - intros [[Hb H]|[-> [->|(p & Hp & H)]]]; [by apply Hmono|apply rtc_refl|].
    eapply rtc_r; [apply Hmono; [exact H|]|apply Hpar; auto]. intros ->. by apply Hps in Hp.
Qed.

Lemma dag_anc_trans D a b c : dag_anc D a b -> dag_anc D b c -> dag_anc D a c.
Proof. apply (transitivity (R := rtc (parent_of D))). Qed.

(** A rank that grows along the edges makes the graph acyclic. *)
Definition ranked (D : dag) (rank : Hash -> Z) : Prop := forall x y, parent_of D x y -> rank x < rank y.

Lemma ranked_anc D rank a b : ranked D rank -> dag_anc D a b -> a = b \/ rank a < rank b.
Proof.
  intros HR. induction 1 as [|a c b Hac _ IH]; [by left|]. apply HR in Hac. destruct IH as [->|]; right; lia.
Qed.

Lemma ranked_antisym D rank a b : ranked D rank -> dag_anc D a b -> dag_anc D b a -> a = b.
Proof.
  intros HR H1 H2. destruct (ranked_anc _ _ _ _ HR H1), (ranked_anc _ _ _ _ HR H2); (done || lia).
Qed.

(** [f] decides ancestry among the blocks of [D]. *)
Definition decides (D : dag) (f : Hash -> Hash -> bool) : Prop :=
  forall x y, x ∈ dom D -> y ∈ dom D -> f x y = true <-> dag_anc D x y.

Lemma decides_false D f x y : decides D f -> x ∈ dom D -> y ∈ dom D -> f x y = false <-> ~ dag_anc D x y.
Proof. intros Hf Hx Hy. rewrite <-(Hf x y Hx Hy). by destruct (f x y). Qed.
