(* ===== verification/ReachTheorems.v ===== *)
(** * The reachability service

    What the rest of consensus relies on: the queries of the reachability store
    answer questions about the block DAG, and the operations that grow and prune
    the store keep it so. *)
From S2P Require Import Prelude Tx Dag Interval Slice ReachStore Reachability ReachTree ReachReindex ReachPropagate ReachReclaim ReachAdd ReachDag ReachDelete.
#[local] Open Scope Z_scope.

(** ** Representation of a DAG *)

(** The store holds the blocks of [D] and its queries give the ancestry of [D]. *)
Record represents (s : MemoryReachabilityStore) (D : dag) : Prop := {
  rep_dom : dom (mem_map s) = dom D;
  rep_closed : dag_closed D;
  rep_anc : forall a b, a ∈ dom D -> b ∈ dom D -> dag_rel (mem_map s) a b <-> dag_anc D a b
}.

(** ** Initial store *)

Definition init_store (origin : Hash) (i : Interval) : MemoryReachabilityStore :=
  mkMem {[origin := MemoryReachabilityData_new NONE i 0]} (Some origin).

Lemma init_kids o i h : kids (mem_map (init_store o i)) h = [].
Proof.
  unfold kids. cbn. destruct (decide (h = o)) as [->|Hne].
  - by rewrite lookup_singleton_eq.
  - by rewrite lookup_singleton_ne.
Qed.

Lemma init_fcs o i h : fcs (mem_map (init_store o i)) h = [].
Proof.
  unfold fcs. cbn. destruct (decide (h = o)) as [->|Hne].
  - by rewrite lookup_singleton_eq.
  - by rewrite lookup_singleton_ne.
Qed.

Lemma init_store_ok o i : o <> NONE -> wf_interval i -> 0 < isize i -> dag_store_ok o o (init_store o i).
Proof.
  intros Ho Hw Hs.
  assert (iv (mem_map (init_store o i)) o = i) as Hi by (unfold iv; cbn; by rewrite lookup_singleton_eq).
  constructor; [constructor|].
  - constructor.
    + cbn. set_solver.
    + unfold par. cbn. by rewrite lookup_singleton_eq.
    + cbn. set_solver.
    + intros p c. rewrite init_kids. by intros ?%elem_of_nil.
    + intros h. cbn. set_solver.
    + intros p. rewrite init_kids. constructor.
    + intros h. unfold ht. cbn. destruct (decide (h = o)) as [->|Hne].
      * by rewrite lookup_singleton_eq.
      * by rewrite lookup_singleton_ne.
  - intros h Hh. cbn in Hh. rewrite dom_singleton_L, elem_of_singleton in Hh. subst h.
    unfold block_ok, solid. rewrite Hi, init_kids. done.
  - done.
  - cbn. set_solver.
  - intros h. rewrite init_fcs. split; [intros ? ? ? ? Hl; by rewrite lookup_nil in Hl|by intros f ?%elem_of_nil].
Qed.

Lemma init_represents o i : represents (init_store o i) {[o := []]}.
Proof.
  constructor.
  - cbn. by rewrite !dom_singleton_L.
  - intros x y (ps & Hl & Hx). apply lookup_singleton_Some in Hl as [_ <-]. by apply elem_of_nil in Hx.
  - intros a b. rewrite !dom_singleton_L, !elem_of_singleton. intros -> ->.
    split; intros _; [apply rtc_refl|left; apply rtc_refl].
Qed.

Lemma init_run o i : init_with_params MemoryReachabilityStore_new o i = Ok (init_store o i).
Proof. done. Qed.

(** ** The theorems *)

(** The store of the examples: the origin 1 with the whole range, its children
    2 and 3, and 4, which extends 2 and merges 3. *)
Definition store0 : MemoryReachabilityStore := init_store 1 Interval_maximal.
Definition example_add (s : MemoryReachabilityStore) (n sp : Hash) (ms : list Hash) : MemoryReachabilityStore :=
  match add_block 100 s n sp ms with Ok s' => s' | _ => s end.
Definition store2 : MemoryReachabilityStore := Eval vm_compute in example_add store0 2 1 [].
Definition store3 : MemoryReachabilityStore := Eval vm_compute in example_add store2 3 1 [].
Definition store4 : MemoryReachabilityStore := Eval vm_compute in example_add store3 4 2 [3].
Definition dag2 : dag := <[2 := [1]]> {[1 := []]}.
Definition dag3 : dag := <[3 := [1]]> dag2.
Definition dag4 : dag := <[4 := [2; 3]]> dag3.

Lemma capacity_check fuel slack R (m : blocks) :
  bool_decide (base.size (dom m) + 1 < fuel)%nat &&
  bool_decide (map_Forall (fun _ d => height d + 1 < Z.of_nat fuel) m) && (Z.of_nat fuel <? 2 ^ 63) && (0 <=? slack) &&
  (2 * (Z.of_nat (base.size (dom m)) + 1) + slack * ht m R <=? isize (iv m R)) = true ->
  capacity fuel slack R m.
Proof.
  rewrite !andb_true_iff, !bool_decide_eq_true, Z.ltb_lt, !Z.leb_le. intros ((((H1 & H2) & H3) & H4) & H5).
  constructor; try done. intros h. unfold ht. destruct (m !! h) as [d|] eqn:E; [by apply (H2 h)|]. cbn. lia.
Qed.

(** One step of the example: a block with the given selected parent, parents and
    mergeset is added to a store that represents [D]. *)
Lemma add_block_step (fuel : nat) (s : MemoryReachabilityStore) (D : dag) (root R n sp : Hash) (ps ms : list Hash) (slack : Z) :
  dag_store_ok root R s -> represents s D -> capacity fuel slack R (mem_map s) ->
  n ∉ dom D -> n <> NONE -> sp ∈ ps -> (forall p, p ∈ ps -> p ∈ dom D) -> NoDup ms ->
  (forall x, x ∈ ms <-> (exists p, p ∈ ps /\ dag_anc D x p) /\ ~ dag_anc D x sp) ->
  exists s', add_block_with_params fuel s n sp ms slack = Ok s' /\ dag_store_ok root R s' /\ represents s' (<[n := ps]> D).
Proof.
  intros Hok [Hd Hc Hr] Hcap Hn HnN Hsp Hps Hnd Hms.
  assert (forall x, x ∈ ms -> x ∈ dom D) as Hmsd.
  { intros x Hx. apply Hms in Hx as [(p & Hp & Hxp) _]. eapply dag_anc_dom; eauto. }
  destruct (add_block_ok fuel root R s n sp ms slack Hok Hcap) as (s' & Hadd & Hok' & Hdom & _ & Hrel); rewrite ?Hd; auto.
  { intros x Hx. split; [auto|]. rewrite Hr by auto. by apply Hms. }
  exists s'. split; [done|]. split; [done|]. constructor.
  - rewrite Hdom, dom_insert_L, Hd. done.
  - intros x y (qs & Hl & Hx). rewrite dom_insert_L, elem_of_union. right.
    destruct (decide (y = n)) as [->|Hne].
    + rewrite lookup_insert_eq in Hl. injection Hl as <-. auto.
    + rewrite lookup_insert_ne in Hl by done. apply (Hc x y). by exists qs.
  - intros a b. rewrite dom_insert_L, !elem_of_union, !elem_of_singleton. intros Ha Hb.
    rewrite Hrel, (dag_anc_insert D n ps) by done.
    assert (forall x y, x = n \/ x ∈ dom D -> y ∈ dom D -> dag_rel (mem_map s) x y <-> dag_anc D x y) as Hr'.
    { intros x y [->|Hx] Hy; [|by apply Hr]. split.
      - intros [H|(f & Hf & _)].
        + exfalso. inversion H as [|? c ? Hc']; subst; [done|]. apply kids_dom in Hc'. by rewrite Hd in Hc'.
        + unfold fcs in Hf. rewrite <-Hd in Hn. apply not_elem_of_dom in Hn. rewrite Hn in Hf. by apply elem_of_nil in Hf.
      - intros H. eapply dag_anc_dom in H; [|done|done]. done. }
    split; (intros [[Hbn H]|[-> H]]; [left; split; [done|]; apply Hr'; naive_solver|right; split; [done|]]).
    + destruct H as [?|[H|H]]; [by left|right|right].
      * exists sp. split; [done|]. apply Hr'; [done|auto|done].
      * by apply Hms in H as [? _].
    + destruct H as [?|(p & Hp & H)]; [by left|right]. destruct Ha as [->|Ha].
      { eapply dag_anc_dom in H; [|done|auto]. done. }
      destruct (dag_query_ok s root a sp) as (r & _ & Hq); [apply Hok..|by rewrite Hd|by rewrite Hd; auto|].
      destruct r; [left; by apply Hq|right]. apply Hms. split; [eauto|].
      intros H'. apply Hr in H'; [|done|auto]. apply Hq in H'. done.
Qed.

Lemma store0_ok : dag_store_ok 1 1 store0.
Proof. apply init_store_ok; vm_compute; repeat split; congruence. Qed.

Lemma dag_closed_insert D n ps : dag_closed D -> (forall p, p ∈ ps -> p ∈ dom D) -> dag_closed (<[n := ps]> D).
Proof.
  intros Hc Hps x y (qs & Hl & Hx). rewrite dom_insert_L, elem_of_union. right. destruct (decide (y = n)) as [->|Hne].
  - rewrite lookup_insert_eq in Hl. injection Hl as <-. auto.
  - rewrite lookup_insert_ne in Hl by done. apply (Hc x y). by exists qs.
Qed.

Ltac in_dom := apply (bool_decide_unpack _); vm_compute; reflexivity.
Ltac out_dom := apply (bool_decide_unpack _); vm_compute; reflexivity.

Lemma single_parent (p q : Hash) : q ∈ [p] -> q = p.
Proof. by intros ->%list_elem_of_singleton. Qed.

(** The example steps have a single parent and nothing to merge. *)
Lemma no_merge (D : dag) (p x : Hash) : x ∈ ([] : list Hash) <-> (exists q, q ∈ [p] /\ dag_anc D x q) /\ ~ dag_anc D x p.
Proof.
  split; [by intros ?%elem_of_nil|]. intros [(q & Hq & H) Hn]. apply single_parent in Hq as ->. done.
Qed.

Lemma store2_ok : dag_store_ok 1 1 store2 /\ represents store2 dag2.
Proof.
  destruct (add_block_step 100 store0 {[1 := []]} 1 1 2 1 [1] [] DEFAULT_REINDEX_SLACK) as (s' & E & Hok & Hr).
  - apply store0_ok.
  - apply init_represents.
  - apply capacity_check. vm_compute. reflexivity.
  - out_dom.
  - vm_compute. congruence.
  - left.
  - intros p ->%single_parent. in_dom.
  - constructor.
  - apply no_merge.
  - assert (s' = store2) as -> by (vm_compute in E; injection E as <-; reflexivity). exact (conj Hok Hr).
Qed.

Lemma store3_ok : dag_store_ok 1 1 store3 /\ represents store3 dag3.
Proof.
  destruct store2_ok as [O2 R2].
  destruct (add_block_step 100 store2 dag2 1 1 3 1 [1] [] DEFAULT_REINDEX_SLACK) as (s' & E & Hok & Hr).
  - exact O2.
  - exact R2.
  - apply capacity_check. vm_compute. reflexivity.
  - out_dom.
  - vm_compute. congruence.
  - left.
  - intros p ->%single_parent. in_dom.
  - constructor.
  - apply no_merge.
  - assert (s' = store3) as -> by (vm_compute in E; injection E as <-; reflexivity). exact (conj Hok Hr).
Qed.

(** The past of 2 and of 3 in the example. *)
Lemma dag3_past x : (dag_anc dag3 x 2 <-> x = 2 \/ x = 1) /\ (dag_anc dag3 x 3 <-> x = 3 \/ x = 1).
Proof.
  assert (dag_closed {[1 := []]}) as C1 by apply (init_represents 1 Interval_maximal).
  assert (forall y, dag_anc {[1 := []]} y 1 <-> y = 1) as A1.
  { intros y. split; [|intros ->; apply rtc_refl]. intros H. apply rtc_inv_r in H as [?|(z & _ & (ps & Hl & Hz))]; [done|].
    apply lookup_singleton_Some in Hl as [_ <-]. by apply elem_of_nil in Hz. }
  assert (dag_closed dag2) as C2 by (apply dag_closed_insert; [done|]; intros p ->%single_parent; in_dom).
  assert (forall y b, dag_anc dag2 y b <-> (b <> 2 /\ dag_anc {[1 := []]} y b) \/ (b = 2 /\ (y = 2 \/ exists p, p ∈ [1] /\ dag_anc {[1 := []]} y p))) as A2.
  { intros y b. apply dag_anc_insert; [done|out_dom|]. intros p ->%single_parent. in_dom. }
  assert (forall y b, dag_anc dag3 y b <-> (b <> 3 /\ dag_anc dag2 y b) \/ (b = 3 /\ (y = 3 \/ exists p, p ∈ [1] /\ dag_anc dag2 y p))) as A3.
  { intros y b. apply dag_anc_insert; [done|out_dom|]. intros p ->%single_parent. in_dom. }
  assert (forall y, dag_anc dag2 y 1 <-> y = 1) as B1.
  { intros y. rewrite A2, A1. split; [intros [[_ ?]|[? _]]; [done|lia]|]. intros ->. left. lia. }
  assert (forall y, dag_anc dag2 y 2 <-> y = 2 \/ y = 1) as B2.
  { intros y. rewrite A2. split.
    - intros [[? _]|(_ & [?|(p & ->%single_parent & H)])]; [done|by left|]. right. by apply A1.
    - intros [->| ->]; right; (split; [done|]); [by left|]. right. exists 1. split; [left|by apply A1]. }
  split; rewrite A3.
  - rewrite B2. split; [intros [[_ ?]|[? _]]; [done|lia]|]. intros ?. left. split; [lia|done].
  - split.
    + intros [[? _]|(_ & [?|(p & ->%single_parent & H)])]; [done|by left|]. right. by apply B1.
    + intros [->| ->]; right; (split; [done|]); [by left|]. right. exists 1. split; [left|by apply B1].
Qed.

(** 4 merges 3. *)
Lemma merge_4 x : x ∈ [3] <-> (exists p, p ∈ [2; 3] /\ dag_anc dag3 x p) /\ ~ dag_anc dag3 x 2.
Proof.
  destruct (dag3_past x) as [P2 P3]. rewrite list_elem_of_singleton. split.
  - intros ->. split; [exists 3; split; [right; left|by apply P3; left]|]. rewrite P2. lia.
  - intros [(p & [Hp|Hp%single_parent]%elem_of_cons & H) Hn]; subst p; [done|]. apply P3 in H as [?|?]; [done|]. destruct Hn. apply P2. by right.
Qed.

Lemma store4_ok : dag_store_ok 1 1 store4 /\ represents store4 dag4.
Proof.
  destruct store3_ok as [O3 R3].
  destruct (add_block_step 100 store3 dag3 1 1 4 2 [2; 3] [3] DEFAULT_REINDEX_SLACK) as (s' & E & Hok & Hr).
  - exact O3.
  - exact R3.
  - apply capacity_check. vm_compute. reflexivity.
  - out_dom.
  - vm_compute. congruence.
  - left.
  - intros p [Hp|Hp%single_parent]%elem_of_cons; subst p; in_dom.
  - apply NoDup_singleton.
  - apply merge_4.
  - assert (s' = store4) as -> by (vm_compute in E; injection E as <-; reflexivity). exact (conj Hok Hr).
Qed.

(** In a store that satisfies the invariant, the interval test of
    [is_chain_ancestor_of] never fails and is true exactly for the tree
    ancestors of the queried block (the block itself included). *)
Theorem is_chain_ancestor_of_correct (s : MemoryReachabilityStore) (root R a b : Hash) :
  store_ok root R s -> a ∈ dom (mem_map s) -> b ∈ dom (mem_map s) ->
  exists r, is_chain_ancestor_of s a b = Ok r /\ (r = true <-> anc (mem_map s) a b).
Proof.
  intros [T G _ _] Ha Hb. apply (chain_query_ok s root T); [|done|done|by apply G].
  intros h Hh. by apply G.
Qed.

Lemma is_chain_ancestor_of_correct_witness :
  exists r, is_chain_ancestor_of store4 2 4 = Ok r /\ (r = true <-> anc (mem_map store4) 2 4).
Proof. apply (is_chain_ancestor_of_correct store4 1 1 2 4); [apply store4_ok|in_dom..]. Defined.

Lemma next_chain_ancestor_run (s : MemoryReachabilityStore) (root R d a : Hash) :
  store_ok root R s -> d ∈ dom (mem_map s) -> anc (mem_map s) a d -> a <> d ->
  exists c, get_next_chain_ancestor s d a = Ok c /\ c ∈ kids (mem_map s) a /\ anc (mem_map s) c d.
Proof.
  intros [T G _ _] Hd A Hne. assert (laminar (mem_map s)) as L by (intros h Hh; by apply G).
  pose proof (anc_dom_l _ _ _ A Hd) as Ha.
  unfold get_next_chain_ancestor. destruct (Z.eqb_spec d a) as [->|_]; [done|].
  destruct (strict_chain_query_ok s root T L a d Ha Hd) as (r & -> & Hr); [by apply G|]. run.
  destruct r; cbn [negb]; [|exfalso; cut (false = true); [done|by apply Hr]].
  apply (next_chain_ancestor_ok s root T L); auto; [by apply G|..].
  - intros i c c' Hc _. apply G. apply list_elem_of_lookup_2 in Hc. by destruct (tree_child _ _ T _ _ Hc).
  - intros c Hc _. apply G. by destruct (tree_child _ _ T _ _ Hc).
Qed.

(** [get_next_chain_ancestor] returns the child of [a] on the chain to [d]
    when [a] is a strict tree ancestor of [d], and [BadQuery] otherwise. *)
Theorem get_next_chain_ancestor_correct (s : MemoryReachabilityStore) (root R d a : Hash) :
  store_ok root R s -> a ∈ dom (mem_map s) -> d ∈ dom (mem_map s) ->
  (anc (mem_map s) a d /\ a <> d /\
     exists c, get_next_chain_ancestor s d a = Ok c /\ c ∈ kids (mem_map s) a /\ anc (mem_map s) c d) \/
  (~ (anc (mem_map s) a d /\ a <> d) /\ get_next_chain_ancestor s d a = Err BadQuery).
Proof.
  intros Hok Ha Hd. destruct (decide (a = d)) as [->|Hne].
  { right. split; [naive_solver|]. unfold get_next_chain_ancestor. by rewrite Z.eqb_refl. }
  pose proof Hok as [T G _ _]. assert (laminar (mem_map s)) as L by (intros h Hh; by apply G).
  destruct (strict_chain_query_ok s root T L a d Ha Hd) as (r & Hrun & Hr); [by apply G|]. destruct r.
  - destruct (proj1 Hr eq_refl) as [A _]. left. split; [done|]. split; [done|]. by eapply next_chain_ancestor_run.
  - right. split; [intros Hn; apply Hr in Hn; done|]. unfold get_next_chain_ancestor.
    destruct (Z.eqb_spec d a) as [->|_]; [done|]. by rewrite Hrun.
Qed.

Lemma get_next_chain_ancestor_correct_witness :
  (anc (mem_map store4) 1 4 /\ 1 <> 4 /\
     exists c, get_next_chain_ancestor store4 4 1 = Ok c /\ c ∈ kids (mem_map store4) 1 /\ anc (mem_map store4) c 4) \/
  (~ (anc (mem_map store4) 1 4 /\ 1 <> 4) /\ get_next_chain_ancestor store4 4 1 = Err BadQuery).
Proof. apply (get_next_chain_ancestor_correct store4 1 1 4 1); [apply store4_ok|in_dom..]. Defined.

(** C2: for a store that represents the block DAG [D], [is_dag_ancestor_of]
    never fails and is true exactly when the first block is the second or in its
    past. *)
Theorem is_dag_ancestor_of_correct (s : MemoryReachabilityStore) (D : dag) (root R a b : Hash) :
  dag_store_ok root R s -> represents s D -> a ∈ dom D -> b ∈ dom D ->
  exists r, is_dag_ancestor_of s a b = Ok r /\ (r = true <-> dag_anc D a b).
Proof.
  intros [[T G _ _] F] [Hd _ Hr] Ha Hb.
  destruct (dag_query_ok s root a b T G F) as (r & Hq & Hrel); [by rewrite Hd..|].
  exists r. split; [done|]. rewrite Hrel. by apply Hr.
Qed.

Lemma is_dag_ancestor_of_correct_witness :
  exists r, is_dag_ancestor_of store4 3 4 = Ok r /\ (r = true <-> dag_anc dag4 3 4).
Proof. apply (is_dag_ancestor_of_correct store4 dag4 1 1 3 4); [apply store4_ok..|in_dom|in_dom]. Defined.

(** Adding a leaf to the reachability tree always succeeds while the
    reindex root has capacity, on every branch: half of the remaining interval,
    propagation from the first ancestor with space, or a reclaim of slack along
    the chain of the reindex root on either side.  The invariant holds
    afterwards, the new block is a child of its parent and no other ancestry
    changes. *)
Theorem add_tree_block_total (fuel : nat) (s : MemoryReachabilityStore) (root R new_block parent : Hash) (slack : Z) :
  store_ok root R s -> capacity fuel slack R (mem_map s) ->
  parent ∈ dom (mem_map s) -> new_block ∉ dom (mem_map s) -> new_block <> NONE ->
  exists s', add_tree_block fuel s new_block parent slack = Ok s' /\ store_ok root R s' /\
    dom (mem_map s') = {[new_block]} ∪ dom (mem_map s) /\
    forall a b, anc (mem_map s') a b <->
      (b <> new_block /\ anc (mem_map s) a b) \/ (b = new_block /\ (a = new_block \/ anc (mem_map s) a parent)).
Proof.
  intros Hok Hcap HP HN HNn.
  destruct (add_tree_block_ok fuel root R s new_block parent slack Hok Hcap HP HN HNn)
    as (s' & m2 & i & Hadd & Hok' & X & Sh).
  exists s'. split_and!; [done|done| |].
  - rewrite (ss_dom _ _ Sh). apply (ex_dom _ _ _ _ _ X).
  - intros a b. rewrite (shape_anc _ _ Sh). apply (ext_anc _ _ root _ _ i); [apply Hok|done..].
Qed.

Lemma add_tree_block_total_witness :
  exists s', add_tree_block 100 store4 5 3 16384 = Ok s' /\ store_ok 1 1 s' /\
    dom (mem_map s') = {[5]} ∪ dom (mem_map store4) /\
    forall a b, anc (mem_map s') a b <->
      (b <> 5 /\ anc (mem_map store4) a b) \/ (b = 5 /\ (a = 5 \/ anc (mem_map store4) a 3)).
Proof.
  apply (add_tree_block_total 100 store4 1 1 5 3 16384); [apply store4_ok| |in_dom|out_dom|vm_compute; congruence].
  apply capacity_check. vm_compute. reflexivity.
Defined.



(** C7: deleting a block succeeds and keeps the promise of its comment: for all
    other blocks every chain query and every DAG query has the same answer as
    before.  The block is neither the tree root nor the reindex root, and its
    mergeset is given as the blocks that list it in their future covering set. *)
Theorem delete_block_preserves_queries (s : MemoryReachabilityStore) (root R b : Hash) (ms : list Hash) :
  dag_store_ok root R s -> b ∈ dom (mem_map s) -> b <> root -> b <> R -> NoDup ms ->
  (forall x, x ∈ ms <-> x ∈ dom (mem_map s) /\ x <> b /\ b ∈ fcs (mem_map s) x) ->
  exists s', delete_block s b ms = Ok s' /\ dag_store_ok root R s' /\ dom (mem_map s') = dom (mem_map s) ∖ {[b]} /\
    forall a c, a ∈ dom (mem_map s') -> c ∈ dom (mem_map s') ->
      is_chain_ancestor_of s' a c = is_chain_ancestor_of s a c /\
      is_dag_ancestor_of s' a c = is_dag_ancestor_of s a c.
Proof.
  intros Hok Hb Hbr HbR Hnd Hms.
  destruct (delete_block_ok root R s b ms Hok Hb Hbr HbR Hnd Hms) as (s' & Hdel & Hok' & Hd & Ha & Hr).
  exists s'. split; [done|]. split; [done|]. split; [done|]. intros a c Ha' Hc'.
  pose proof Hok as [[T G _ _] F]. pose proof Hok' as [[T' G' _ _] F'].
  assert (a ∈ dom (mem_map s) /\ a <> b) as [Had Hab] by (rewrite Hd in Ha'; set_solver).
  assert (c ∈ dom (mem_map s) /\ c <> b) as [Hcd Hcb] by (rewrite Hd in Hc'; set_solver).
  split.
  - destruct (chain_query_ok s root T) with (a := a) (b := c) as (r & -> & Q); [intros h Hh; by apply G|done|done|by apply G|].
    destruct (chain_query_ok s' root T') with (a := a) (b := c) as (r' & -> & Q'); [intros h Hh; by apply G'|done|done|by apply G'|].
    f_equal. apply Bool.eq_true_iff_eq. rewrite Q, Q'. by apply Ha.
  - destruct (dag_query_ok s root a c T G F Had Hcd) as (r & -> & Q).
    destruct (dag_query_ok s' root a c T' G' F' Ha' Hc') as (r' & -> & Q').
    f_equal. apply Bool.eq_true_iff_eq. rewrite Q, Q'. by apply Hr.
Qed.

(** In the example, 4 is listed by 3 only. *)
Lemma store4_fcs x : x ∈ [3] <-> x ∈ dom (mem_map store4) /\ x <> 4 /\ 4 ∈ fcs (mem_map store4) x.
Proof.
  rewrite list_elem_of_singleton. split.
  - intros ->. split_and!; [in_dom|lia|]. vm_compute. left.
  - intros (Hx & Hn & H4). assert (x ∈ elements (dom (mem_map store4))) as Hl by (by apply elem_of_elements).
    assert (Forall (fun x => x = 4 \/ 4 ∉ fcs (mem_map store4) x \/ x = 3) (elements (dom (mem_map store4)))) as Hall.
    { apply (bool_decide_unpack _). vm_compute. reflexivity. }
    rewrite Forall_forall in Hall. destruct (Hall x Hl) as [?|[?|?]]; done.
Qed.

Lemma delete_block_preserves_queries_witness :
  exists s', delete_block store4 4 [3] = Ok s' /\ dag_store_ok 1 1 s' /\ dom (mem_map s') = dom (mem_map store4) ∖ {[4]} /\
    forall a c, a ∈ dom (mem_map s') -> c ∈ dom (mem_map s') ->
      is_chain_ancestor_of s' a c = is_chain_ancestor_of store4 a c /\
      is_dag_ancestor_of s' a c = is_dag_ancestor_of store4 a c.
Proof.
  apply (delete_block_preserves_queries store4 1 1 4 [3]);
    [apply store4_ok|in_dom|lia|lia|apply NoDup_singleton|exact store4_fcs].
Defined.

(** The breadth-first [count_subtrees] terminates and computes, for every
    block of the subtree, what the recursive implementation in its comment
    computes. *)
Theorem count_subtrees_recursive (fuel : nat) (s : MemoryReachabilityStore) (root block : Hash) (slack : Z) :
  tree (mem_map s) root -> block ∈ dom (mem_map s) ->
  (base.size (dom (mem_map s)) < fuel)%nat -> (forall h, ht (mem_map s) h < Z.of_nat fuel) -> Z.of_nat fuel < 2 ^ 63 ->
  exists sizes, count_subtrees fuel (ctx_new s slack) block = Ok (mkCtx s sizes slack) /\
    forall x, anc (mem_map s) block x -> sizes !! x = Some (subtree_size fuel (mem_map s) x).
Proof.
  intros T Hb Hf Hd H63. pose proof (subtree_size_sizing _ root T fuel Hd) as Hsz.
  destruct (count_subtrees_ok s root T (subtree_size fuel (mem_map s)) Hsz) with (B := block) (fuel := fuel) (c := ctx_new s slack)
    as (sizes & -> & Hok & HB); try done.
  - intros h Hh. pose proof (subtree_size_bound _ root T fuel h Hh). lia.
  - exists sizes. split; [done|]. intros x A.
    destruct (anc_closed _ (fun x => is_Some (sizes !! x)) _ _ A) as [v Hv]; [eauto|intros p c; by eapply sizes_closed|].
    rewrite Hv. f_equal. by destruct (sizes_right _ _ _ Hok _ _ Hv).
Qed.

Lemma count_subtrees_recursive_witness :
  exists sizes, count_subtrees 10 (ctx_new store4 16384) 1 = Ok (mkCtx store4 sizes 16384) /\
    forall x, anc (mem_map store4) 1 x -> sizes !! x = Some (subtree_size 10 (mem_map store4) x).
Proof.
  apply (count_subtrees_recursive 10 store4 1 1 16384); [apply store4_ok|in_dom|vm_compute; lia| |vm_compute; reflexivity].
  assert (capacity 10 16384 1 (mem_map store4)) as [_ Hh _ _ _] by (apply capacity_check; vm_compute; reflexivity).
  intros h. specialize (Hh h). lia.
Defined.

(** The trees of the unit tests of [reindex.rs] and [inquirer.rs]. *)
Definition test_add (depth slack : Z) (s : MemoryReachabilityStore) (x : Hash * Hash) : result MemoryReachabilityStore :=
  s ← add_tree_block 500 s x.1 x.2 slack;
  try_advancing_reindex_root 500 s x.1 depth slack.

Definition test_intervals (s : MemoryReachabilityStore) : list (Hash * (Z * Z)) :=
  (fun h => (h, (start (iv (mem_map s) h), end_ (iv (mem_map s) h)))) <$> sort_by Z.leb (elements (dom (mem_map s))).

(** [test_count_subtrees]: sizes 8 6 4 1 3 2 1 1, and the propagated intervals. *)
Example test_count_subtrees :
  (s ← init_with_params MemoryReachabilityStore_new 1 (mkInterval 1 8);
   s ← foldM (fun s '(n, p) => s ← append_child s p n; store_insert s n p Interval_empty 1) s
         [(2, 1); (3, 2); (4, 2); (5, 3); (6, 5); (7, 1); (8, 6)];
   c ← count_subtrees 100 (ctx_new s 16) 1;
   c' ← propagate_interval 100 c 1;
   Ok ((fun h => subtree_sizes c !! h) <$> [1; 2; 3; 4; 5; 6; 7; 8], test_intervals (ctx_store c'))) =
  Ok (Some <$> [8; 6; 4; 1; 3; 2; 1; 1],
      [(1, (1, 8)); (2, (1, 6)); (3, (1, 4)); (4, (5, 5)); (5, (1, 3)); (6, (1, 2)); (7, (7, 7)); (8, (1, 1))]).
Proof. vm_compute. reflexivity. Qed.

(** [test_add_early_blocks]: a block below the chain of the reindex root. *)
Example test_add_early_blocks :
  is_ok (s ← init_with_params MemoryReachabilityStore_new 1 Interval_maximal;
         s ← foldM (test_add 2 5) s ((fun i => (Z.of_nat i, Z.of_nat (Nat.div2 i))) <$> seq 2 98);
         test_add 2 5 s (100, 2)) = true.
Proof. vm_compute. reflexivity. Qed.
