(* ===== verification/ReachService.v ===== *)
(** * The reachability service

    [model/services/reachability.rs]: the queries that the other components
    call, as the class [ReachabilityService], their implementation over a
    reachability store, and the iterators along the selected chain.  The read
    lock of [MTReachabilityService] is not modelled: a call reads one state of
    the store.

    The iterators of [ReachService] walk the path between a block and one of its
    chain ancestors, one step per block, in opposite orders. *)
From S2P Require Import Prelude Tx Interval ReachStore Reachability ReachTree ReachAdd ReachDag Dag ReachTheorems.
#[local] Open Scope Z_scope.

Class ReachabilityService (R : Type) := {
  try_is_chain_ancestor_of : R -> Hash -> Hash -> result bool;
  try_is_dag_ancestor_of : R -> Hash -> Hash -> result bool;
  next_chain_ancestor : R -> Hash -> Hash -> result Hash;
  get_chain_parent : R -> Hash -> result Hash;
  has_reachability_data : R -> Hash -> result bool
}.

Section derived.
Context {E R : Type} `{ReachabilityService R} (r : R).

Definition chain_ancestor (this queried : Hash) : outcome E bool := unwrap_r (try_is_chain_ancestor_of r this queried).
Definition dag_ancestor (this queried : Hash) : outcome E bool := unwrap_r (try_is_dag_ancestor_of r this queried).

Fixpoint is_dag_ancestor_of_any (this : Hash) (queried : list Hash) : outcome E bool :=
  match queried with
  | [] => Ok false
  | h :: queried =>
      b ← dag_ancestor this h; if (b : bool) then Ok true else is_dag_ancestor_of_any this queried
  end.

Fixpoint try_is_any_dag_ancestor (list : list Hash) (queried : Hash) : result bool :=
  match list with
  | [] => Ok false
  | h :: list =>
      b ← try_is_dag_ancestor_of r h queried; if (b : bool) then Ok true else try_is_any_dag_ancestor list queried
  end.

Definition is_any_dag_ancestor (list : list Hash) (queried : Hash) : outcome E bool :=
  unwrap_r (try_is_any_dag_ancestor list queried).
End derived.

(** [impl ReachabilityService for T]: any reachability store. *)
#[export] Instance store_service {S} `{ReachabilityStore S} : ReachabilityService S := {
  try_is_chain_ancestor_of := is_chain_ancestor_of;
  try_is_dag_ancestor_of := is_dag_ancestor_of;
  next_chain_ancestor s descendant ancestor := unwrap_r (get_next_chain_ancestor s descendant ancestor);
  get_chain_parent s h := unwrap_r (get_parent s h);
  has_reachability_data s h := unwrap_r (has s h)
}.

(** ** Chain iterators *)

Record ChainIterator := mkIter { current : option Hash; bound : Hash; inclusive : bool }.

Section iterators.
Context {R : Type} `{ReachabilityService R} (r : R).

(** [next] of both iterators; [step] moves to the neighbour of the current
    block. *)
Definition iter_next (step : Hash -> result Hash) (it : ChainIterator) : result (option Hash * ChainIterator) :=
  match current it with
  | None => Ok (None, it)
  | Some c =>
      if c =? bound it then
        let it := mkIter None (bound it) (inclusive it) in
        Ok (if inclusive it then Some c else None, it)
      else
        next ← step c;
        Ok (Some c, mkIter (Some next) (bound it) (inclusive it))
  end.

Definition backward_next (it : ChainIterator) : result (option Hash * ChainIterator) := iter_next (get_chain_parent r) it.
Definition forward_next (it : ChainIterator) : result (option Hash * ChainIterator) :=
  iter_next (fun c => next_chain_ancestor r (bound it) c) it.

Fixpoint collect (fuel : nat) (next : ChainIterator -> result (option Hash * ChainIterator)) (it : ChainIterator)
    : result (list Hash) :=
  match fuel with
  | O => OutOfFuel
  | Datatypes.S fuel =>
      '(item, it) ← next it;
      match item with
      | None => Ok []
      | Some h => rest ← collect fuel next it; Ok (h :: rest)
      end
  end.

Definition forward_chain_iterator (fuel : nat) (from_ancestor to_descendant : Hash) (incl : bool) : result (list Hash) :=
  collect fuel forward_next (mkIter (Some from_ancestor) to_descendant incl).
Definition backward_chain_iterator (fuel : nat) (from_descendant to_ancestor : Hash) (incl : bool) : result (list Hash) :=
  collect fuel backward_next (mkIter (Some from_descendant) to_ancestor incl).
Definition default_backward_chain_iterator (fuel : nat) (from : Hash) : result (list Hash) :=
  collect fuel backward_next (mkIter (Some from) ORIGIN false).
End iterators.

(** The blocks from [a] down to its descendant [d], both included. *)
Inductive path (m : blocks) : Hash -> Hash -> list Hash -> Prop :=
| path_nil a : path m a a [a]
| path_cons a c d l : c ∈ kids m a -> path m c d l -> path m a d (a :: l).

Section chain.
Context (s : MemoryReachabilityStore) (root R : Hash) (Hok : store_ok root R s).
Notation m := (mem_map s).

Lemma path_anc a d l : path m a d l -> anc m a d.
Proof. induction 1; [apply rtc_refl|by eapply rtc_l]. Qed.

Lemma path_length a d l : path m a d l -> Z.of_nat (length l) <= ht m d - ht m a + 1.
Proof.
  induction 1 as [|a c d l Hc _ IH]; cbn [length]; [lia|].
  destruct (tree_child _ _ (ok_tree _ _ _ Hok) _ _ Hc) as (_ & _ & ?). lia.
Qed.

Lemma anc_path a d : anc m a d -> exists l, path m a d l.
Proof.
  induction 1 as [a|a c d Hc _ [l IH]]; eexists; [constructor|]. by eapply path_cons.
Qed.

Lemma path_snoc a p d l : path m a p l -> d ∈ kids m p -> path m a d (l ++ [d]).
Proof.
  induction 1 as [a|a c p l Hc _ IH]; intros Hd; cbn; [eapply path_cons; [done|constructor]|].
  eapply path_cons; [done|by apply IH].
Qed.

Lemma path_inv_r a d l : path m a d l -> (d = a /\ l = [a]) \/ exists p l', d ∈ kids m p /\ path m a p l' /\ l = l' ++ [d].
Proof.
  induction 1 as [a|a c d l Hc Hp IH]; [by left|right]. destruct IH as [[-> ->]|(p & l' & Hd & Hp' & ->)].
  - exists a, [a]. split; [done|]. split; [constructor|done].
  - exists p, (a :: l'). split; [done|]. split; [by eapply path_cons|done].
Qed.

Lemma path_strict a c d l : c ∈ kids m a -> path m c d l -> a <> d.
Proof.
  intros Hc Hp%path_anc ->. destruct (tree_child _ _ (ok_tree _ _ _ Hok) _ _ Hc) as (_ & _ & ?).
  pose proof (anc_height_le _ _ (ok_tree _ _ _ Hok) _ _ Hp). lia.
Qed.

Lemma forward_path fuel incl a d l : path m a d l -> d ∈ dom m -> (length l < fuel)%nat ->
  forward_chain_iterator s fuel a d incl = Ok (if incl then l else removelast l).
Proof.
  unfold forward_chain_iterator. intros Hp Hd. revert fuel.
  induction Hp as [a|a c d l Hc Hp IH]; intros fuel Hf; (destruct fuel as [|fuel]; [cbn in Hf; lia|]); cbn [collect].
  - unfold forward_next, iter_next. cbn [current bound inclusive]. rewrite Z.eqb_refl. destruct incl; run; [|done].
    destruct fuel; [cbn in Hf; lia|]. done.
  - pose proof (path_strict _ _ _ _ Hc Hp) as Hne.
    destruct (next_chain_ancestor_run s root R d a Hok Hd) as (c' & E & Hc' & Hcd); [eapply rtc_l; [exact Hc|by eapply path_anc]|done|].
    assert (c' = c) as -> by (eapply (kids_disjoint m root); eauto using path_anc; apply Hok).
    assert (forward_next s (mkIter (Some a) d incl) = Ok (Some a, mkIter (Some c) d incl)) as ->.
    { unfold forward_next, iter_next. cbn [current bound inclusive]. apply Z.eqb_neq in Hne as ->.
      cbn [next_chain_ancestor store_service]. by rewrite E. }
    run. rewrite IH; [|done|cbn in Hf; lia]. run.
    f_equal. destruct incl; [done|]. by destruct Hp.
Qed.

Lemma backward_path fuel incl a d l : path m a d l -> d ∈ dom m -> (length l < fuel)%nat ->
  backward_chain_iterator s fuel d a incl = Ok (rev (if incl then l else tail l)).
Proof.
  unfold backward_chain_iterator. intros Hp Hd Hf. revert d l Hp Hd Hf. induction fuel as [|fuel IH]; intros d l Hp Hd Hf; [lia|].
  cbn [collect]. destruct (path_inv_r _ _ _ Hp) as [[-> ->]|(p & l' & Hdp & Hp' & ->)].
  - unfold backward_next, iter_next. cbn [current bound inclusive]. rewrite Z.eqb_refl. destruct incl; run; [|done].
    destruct fuel; [cbn in Hf; lia|]. done.
  - destruct (tree_child _ _ (ok_tree _ _ _ Hok) _ _ Hdp) as (_ & Hpar & Hht).
    assert (backward_next s (mkIter (Some d) a incl) = Ok (Some d, mkIter (Some p) a incl)) as ->.
    { unfold backward_next, iter_next. cbn [current bound inclusive]. destruct (Z.eqb_spec d a) as [->|_].
      { pose proof (anc_height_le _ _ (ok_tree _ _ _ Hok) _ _ (path_anc _ _ _ Hp')). lia. }
      cbn [get_chain_parent store_service]. rewrite get_parent_ok by done. run. by rewrite Hpar. }
    run.
    rewrite length_app in Hf. cbn in Hf. rewrite (IH p l'); [|done|by eapply kids_dom|lia]. run.
    f_equal. destruct incl; [by rewrite rev_app_distr|].
    assert (l' <> []) by (by destruct Hp'). destruct l'; [done|]. cbn [tail app]. by rewrite rev_app_distr.
Qed.
End chain.

(** Between a block and one of its chain ancestors the forward and the
    backward iterator visit the same blocks, the path of tree children, in
    opposite orders.  Both end after at most one step per unit of height, and
    the inclusive flag decides only about the block that they walk to. *)
Theorem chain_iterators_inverse (s : MemoryReachabilityStore) (root R a d : Hash) (fuel : nat) :
  store_ok root R s -> d ∈ dom (mem_map s) -> anc (mem_map s) a d ->
  ht (mem_map s) d - ht (mem_map s) a + 1 < Z.of_nat fuel ->
  exists l, path (mem_map s) a d l /\
    forward_chain_iterator s fuel a d true = Ok l /\ backward_chain_iterator s fuel d a true = Ok (rev l) /\
    forward_chain_iterator s fuel a d false = Ok (removelast l) /\ backward_chain_iterator s fuel d a false = Ok (rev (tail l)).
Proof.
  intros Hok Hd Ha Hf. destruct (anc_path s a d Ha) as [l Hl]. pose proof (path_length s root R Hok _ _ _ Hl).
  exists l. split; [done|]. split_and!.
  - apply (forward_path s root R Hok fuel true a d l); (done || lia).
  - apply (backward_path s root R Hok fuel true a d l); (done || lia).
  - apply (forward_path s root R Hok fuel false a d l); (done || lia).
  - apply (backward_path s root R Hok fuel false a d l); (done || lia).
Qed.

Lemma chain_iterators_inverse_witness : exists l, path (mem_map store4) 1 4 l /\
  forward_chain_iterator store4 10 1 4 true = Ok l /\ backward_chain_iterator store4 10 4 1 true = Ok (rev l) /\
  forward_chain_iterator store4 10 1 4 false = Ok (removelast l) /\ backward_chain_iterator store4 10 4 1 false = Ok (rev (tail l)).
Proof.
  apply (chain_iterators_inverse store4 1 1 1 4 10); [apply store4_ok|in_dom| |vm_compute; reflexivity].
  eapply rtc_l; [|eapply rtc_l; [|apply rtc_refl]].
  - unfold child_of. instantiate (1 := 2). vm_compute. left.
  - unfold child_of. vm_compute. left.
Defined.
