(* ===== verification/Math.v ===== *)
(** * Fixed-width big integers and the compact target

    The types that [construct_uint!] of [math/src/uint.rs] builds ([Uint192],
    [Uint256], [Uint320], [Uint3072]): a little-endian array of [LIMBS] 64-bit
    words.  A value is the list of its words; every operation works on the
    words as the macro does, and is related to arithmetic on the value
    [uval]. *)
From S2P Require Import Prelude Bytes.

#[local] Open Scope Z_scope.

Module Uint.

(** ** Words *)

Definition B : Z := 2 ^ 64.

(** [overflowing_add] and [overflowing_sub] of [u64]. *)
Definition u64_overflowing_add (a b : Z) : Z * bool := ((a + b) mod B, B <=? a + b).
Definition u64_overflowing_sub (a b : Z) : Z * bool := ((a - b) mod B, a <? b).

(** [a << s] and [a >> s] of [u64], for [s < 64]. *)
Definition u64_shl (a s : Z) : Z := Z.shiftl a s mod B.
Definition u64_shr (a s : Z) : Z := Z.shiftr a s.

(** The number of bits of a word: [64 - leading_zeros()]. *)
Definition u64_bits (a : Z) : Z := if a =? 0 then 0 else Z.log2 a + 1.

(** ** The type *)

Notation Uint := (list Z).

Definition limb (a : Uint) (i : nat) : Z := default 0 (a !! i).

Definition ZERO (n : nat) : Uint := replicate n 0.
Definition MAX (n : nat) : Uint := replicate n (B - 1).
Definition BITS (n : nat) : Z := 64 * Z.of_nat n.

Definition from_u64 (n : nat) (x : Z) : Uint := <[0%nat := x]> (ZERO n).
Definition from_u128 (n : nat) (x : Z) : Uint := <[1%nat := Z.shiftr x 64]> (<[0%nat := x mod B]> (ZERO n)).
Definition as_u128 (a : Uint) : Z := Z.lor (limb a 0) (Z.shiftl (limb a 1) 64).
Definition as_u64 (a : Uint) : Z := limb a 0.
Definition is_zero (a : Uint) : bool := forallb (fun x => x =? 0) a.

(** [bits]: the words from the highest to the lowest. *)
Fixpoint bits (a : Uint) : Z :=
  match a with
  | [] => 0
  | x :: a' => let b := bits a' in if b =? 0 then u64_bits x else 64 + b
  end.

Definition leading_zeros (a : Uint) : Z := BITS (length a) - bits a.

(** ** Shifts *)

Definition overflowing_shl (a : Uint) (s : Z) : Uint * bool :=
  let n := length a in
  let overflows := BITS n <=? s in
  let s := s mod BITS n in
  let left_words := Z.to_nat (s / 64) in
  let left_shifts := s mod 64 in
  let word i :=
    if (i <? left_words)%nat then 0
    else
      let hi := u64_shl (limb a (i - left_words)) left_shifts in
      if (0 <? left_shifts) && (left_words + 1 <=? i)%nat
      then Z.lor hi (u64_shr (limb a (i - 1 - left_words)) (64 - left_shifts))
      else hi in
  (word <$> seq 0 n, overflows).

Definition wrapping_shl (a : Uint) (s : Z) : Uint := (overflowing_shl a s).1.

Definition overflowing_shr (a : Uint) (s : Z) : Uint * bool :=
  let n := length a in
  let overflows := BITS n <=? s in
  let s := s mod BITS n in
  let left_words := Z.to_nat (s / 64) in
  let left_shifts := s mod 64 in
  let word i :=
    if (i + left_words <? n)%nat then
      let lo := u64_shr (limb a (i + left_words)) left_shifts in
      if (0 <? left_shifts) && (i + left_words + 1 <? n)%nat
      then Z.lor lo (u64_shl (limb a (i + left_words + 1)) (64 - left_shifts))
      else lo
    else 0 in
  (word <$> seq 0 n, overflows).

(** The operators [<<] and [>>]: the overflow flag is only looked at by a
    [debug_assert!]. *)
Definition shl (a : Uint) (s : Z) : Uint := (overflowing_shl a s).1.
Definition shr (a : Uint) (s : Z) : Uint := (overflowing_shr a s).1.

(** ** Addition and subtraction *)

Definition carrying_add_u64 (lhs rhs : Z) (carry : bool) : Z * bool :=
  let '(a, b) := u64_overflowing_add lhs rhs in
  let '(c, d) := u64_overflowing_add a (Z.b2z carry) in
  (c, xorb b d).

Fixpoint add_loop (a b : Uint) (carry : bool) : Uint * bool :=
  match a, b with
  | x :: a, y :: b =>
      let '(z, carry) := carrying_add_u64 x y carry in
      let '(r, carry) := add_loop a b carry in
      (z :: r, carry)
  | _, _ => ([], carry)
  end.

Definition overflowing_add (a b : Uint) : Uint * bool := add_loop a b false.

Fixpoint add_one_loop (a : Uint) (carry : bool) : Uint * bool :=
  match a with
  | [] => ([], carry)
  | x :: a' =>
      if carry then
        let '(z, carry) := u64_overflowing_add x 1 in
        let '(r, carry) := add_one_loop a' carry in
        (z :: r, carry)
      else (a, false)
  end.

Definition overflowing_add_u64 (a : Uint) (other : Z) : Uint * bool :=
  match a with
  | [] => ([], false)
  | x :: a =>
      let '(z, carry) := u64_overflowing_add x other in
      let '(r, carry) := add_one_loop a carry in
      (z :: r, carry)
  end.

Definition borrowing_sub_u64 (lhs rhs : Z) (borrow : bool) : Z * bool :=
  let '(a, b) := u64_overflowing_sub lhs rhs in
  let '(c, d) := u64_overflowing_sub a (Z.b2z borrow) in
  (c, xorb b d).

Fixpoint sub_loop (a b : Uint) (borrow : bool) : Uint * bool :=
  match a, b with
  | x :: a, y :: b =>
      let '(z, borrow) := borrowing_sub_u64 x y borrow in
      let '(r, borrow) := sub_loop a b borrow in
      (z :: r, borrow)
  | _, _ => ([], borrow)
  end.

Definition overflowing_sub (a b : Uint) : Uint * bool := sub_loop a b false.

Definition saturating_sub (a b : Uint) : Uint :=
  let '(d, carry) := overflowing_sub a b in if carry then ZERO (length a) else d.
Definition saturating_add (a b : Uint) : Uint :=
  let '(s, carry) := overflowing_add a b in if carry then MAX (length a) else s.

Definition add (a b : Uint) : Uint := (overflowing_add a b).1.
Definition add_u64 (a : Uint) (x : Z) : Uint := (overflowing_add_u64 a x).1.
Definition sub (a b : Uint) : Uint := (overflowing_sub a b).1.

(** ** Multiplication

    The 128-bit intermediate values never overflow (see [mul_word_fits]). *)

Fixpoint carrying_mul_loop (a : Uint) (other carry : Z) : Uint * Z :=
  match a with
  | [] => ([], carry)
  | x :: a =>
      let n := carry + other * x in
      let '(r, carry) := carrying_mul_loop a other (Z.land (Z.shiftr n 64) u64_max) in
      (n mod B :: r, carry)
  end.

Definition carrying_mul_u64 (a : Uint) (other : Z) : Uint * Z := carrying_mul_loop a other 0.

Definition overflowing_mul_u64 (a : Uint) (other : Z) : Uint * bool :=
  let '(this, carry) := carrying_mul_u64 a other in (this, negb (carry =? 0)).

(** The inner loop on [result[j..]]: [while i + j < LIMBS]. *)
Fixpoint mul_row (a : Uint) (y : Z) (result : Uint) (carry : Z) : Uint * Z :=
  match a, result with
  | x :: a, r :: result =>
      let n := x * y + r + carry in
      let '(row, carry) := mul_row a y result (Z.shiftr n 64) in
      (n mod B :: row, carry)
  | _, _ => ([], carry)
  end.

(** The outer loop; [result] are the words from index [j] on, the lower ones
    are final. *)
Fixpoint mul_loop (a other result : Uint) (carry_out : bool) : Uint * bool :=
  match other with
  | [] => (result, carry_out)
  | y :: other =>
      let '(row, carry) := mul_row a y result 0 in
      let carry_out := carry_out || negb (carry =? 0) in
      match row with
      | [] => ([], carry_out)
      | r :: row => let '(rest, carry_out) := mul_loop a other row carry_out in (r :: rest, carry_out)
      end
  end.

Definition overflowing_mul (a other : Uint) : Uint * bool := mul_loop a other (ZERO (length a)) false.

Definition mul (a b : Uint) : Uint := (overflowing_mul a b).1.
Definition mul_u64 (a : Uint) (x : Z) : Uint := (overflowing_mul_u64 a x).1.

(** ** Comparison *)

Fixpoint lex_cmp (a b : list Z) : comparison :=
  match a, b with
  | [], [] => Eq
  | [], _ => Lt
  | _, [] => Gt
  | x :: a, y :: b => match x ?= y with Eq => lex_cmp a b | c => c end
  end.

Definition cmp (a b : Uint) : comparison := lex_cmp (rev a) (rev b).

Definition ge (a b : Uint) : bool := match cmp a b with Lt => false | _ => true end.
Definition max (a b : Uint) : Uint := match cmp a b with Gt => a | _ => b end.
Definition min (a b : Uint) : Uint := match cmp a b with Gt => b | _ => a end.

Definition eq_u64 (a : Uint) (x : Z) : bool :=
  negb (existsb (fun y => negb (y =? 0)) (drop 1 a)) && (limb a 0 =? x).
Definition cmp_u64 (a : Uint) (x : Z) : comparison :=
  if existsb (fun y => negb (y =? 0)) (drop 1 a) then Gt else limb a 0 ?= x.
Definition eq_u128 (a : Uint) (x : Z) : bool :=
  negb (existsb (fun y => negb (y =? 0)) (drop 2 a)) && (limb a 0 =? x mod B) && (limb a 1 =? Z.shiftr x 64).
Definition cmp_u128 (a : Uint) (x : Z) : comparison :=
  if existsb (fun y => negb (y =? 0)) (drop 2 a) then Gt else as_u128 a ?= x.

(** ** Division *)

Fixpoint div_rem_u64_loop (a : Uint) (other : Z) : Uint * Z :=
  match a with
  | [] => ([], 0)
  | d :: a =>
      let '(q, rem) := div_rem_u64_loop a other in
      let n := Z.lor (Z.shiftl rem 64) d in
      ((n / other) mod B :: q, n mod other)
  end.

Definition div_rem_u64 {E} (a : Uint) (other : Z) : outcome E (Uint * Z) :=
  if other =? 0 then Panic else Ok (div_rem_u64_loop a other).

(** The bitwise long division, from [shift] down to zero. *)
Definition set_bit (ret : Uint) (shift : nat) : Uint :=
  alter (fun w => Z.lor w (u64_shl 1 (Z.of_nat (shift mod 64)))) (shift / 64)%nat ret.

Fixpoint div_loop (shift : nat) (sub_copy shift_copy ret : Uint) : Uint * Uint :=
  let '(sub_copy, ret) :=
    if ge sub_copy shift_copy then (sub sub_copy shift_copy, set_bit ret shift) else (sub_copy, ret) in
  let shift_copy := shr shift_copy 1 in
  match shift with
  | O => (ret, sub_copy)
  | S shift => div_loop shift sub_copy shift_copy ret
  end.

Definition div_rem {E} (a other : Uint) : outcome E (Uint * Uint) :=
  let ret := ZERO (length a) in
  let my_bits := bits a in
  let your_bits := bits other in
  if your_bits =? 0 then Panic
  else if my_bits <? your_bits then Ok (ret, a)
  else
    let shift := my_bits - your_bits in
    Ok (div_loop (Z.to_nat shift) a (shl other shift) ret).

Definition div {E} (a b : Uint) : outcome E Uint := '(q, _) ← div_rem a b; Ok q.
Definition rem {E} (a b : Uint) : outcome E Uint := '(_, r) ← div_rem a b; Ok r.
Definition div_u64 {E} (a : Uint) (x : Z) : outcome E Uint := '(q, _) ← div_rem_u64 a x; Ok q.
Definition rem_u64 {E} (a : Uint) (x : Z) : outcome E Z := '(_, r) ← div_rem_u64 a x; Ok r.

(** ** Bit operators, sums and products *)

Definition bitand (a b : Uint) : Uint := zip_with Z.land a b.
Definition bitor (a b : Uint) : Uint := zip_with Z.lor a b.
Definition bitxor (a b : Uint) : Uint := zip_with Z.lxor a b.
Definition not (a : Uint) : Uint := (fun x => B - 1 - x) <$> a.

Definition sum (n : nat) (l : list Uint) : Uint :=
  match l with [] => ZERO n | x :: l => foldl add x l end.
Definition product (n : nat) (l : list Uint) : Uint :=
  match l with [] => from_u64 n 1 | x :: l => foldl mul x l end.

(** ** Bytes *)

(** [chunks_exact(8)]. *)
Fixpoint chunks8 (n : nat) (l : list Z) : list (list Z) :=
  match n with O => [] | S n => take 8 l :: chunks8 n (drop 8 l) end.

Definition BYTES (n : nat) : nat := 8 * n.

Definition to_le_bytes (a : Uint) : list Z := a ≫= le_bytes 8.
Definition from_le_bytes (n : nat) (bytes : list Z) : Uint := of_le_bytes <$> chunks8 n bytes.
Definition to_be_bytes (a : Uint) : list Z := rev a ≫= (fun w => rev (le_bytes 8 w)).
Definition from_be_bytes (n : nat) (bytes : list Z) : Uint := rev ((fun c => of_le_bytes (rev c)) <$> chunks8 n bytes).

Fixpoint skip_zeros (l : list Z) : list Z :=
  match l with [] => [] | b :: l' => if b =? 0 then skip_zeros l' else l end.

Definition to_be_bytes_var (a : Uint) : list Z := skip_zeros (to_be_bytes a).

Definition from_be_bytes_var (n : nat) (bytes : list Z) : outcome () Uint :=
  if (BYTES n <? length bytes)%nat then Err ()
  else Ok (from_be_bytes n (replicate (BYTES n - length bytes) 0 ++ bytes)).

(** ** Decimal output ([Display])

    [digits2] is the two-digit look-up table; [emit] writes a group of
    characters in front of the text written so far, at index [curr] of the
    buffer. *)
Definition digits2 (d : Z) : list Z := [48 + d / 10; 48 + d mod 10].

Definition emit {E} (curr : Z) (chars : list Z) (text : list Z) : outcome E (Z * list Z) :=
  curr ← sub_ 64 curr (Z.of_nat (length chars)); Ok (curr, chars ++ text).

Fixpoint display_loop {E} (fuel : nat) (n : Uint) (curr : Z) (text : list Z) : outcome E (Uint * Z * list Z) :=
  match fuel with
  | O => OutOfFuel
  | S fuel =>
      match cmp_u64 n 10000 with
      | Lt => Ok (n, curr, text)
      | _ =>
          '(n, rem) ← div_rem_u64 n 10000;
          '(curr, text) ← emit curr (digits2 (rem / 100) ++ digits2 (rem mod 100)) text;
          display_loop fuel n curr text
      end
  end.

Definition display {E} (a : Uint) : outcome E (list Z) :=
  '(n, curr, text) ← display_loop (S (Z.to_nat (BITS (length a)))) a (20 * Z.of_nat (length a)) [];
  let n := as_u64 n in
  '(n, curr, text) ←
    (if 100 <=? n then '(curr, text) ← emit curr (digits2 (n mod 100)) text; Ok (n / 100, curr, text)
     else Ok (n, curr, text));
  '(_, text) ← (if n <? 10 then emit curr [n + 48] text else emit curr (digits2 n) text);
  Ok text.

(** ** Values *)

Definition uval (a : Uint) : Z := foldr (fun x v => x + B * v) 0 a.
Definition wf (n : nat) (a : Uint) : Prop := length a = n /\ Forall (in_u 64) a.
Definition M (n : nat) : Z := 2 ^ BITS n.

End Uint.

(** ** The compact target encoding and the conversions of [math/src/lib.rs] *)
Module Uint256.

Definition from_compact_target_bits (bits : Z) : list Z :=
  let unshifted_expt := Z.shiftr bits 24 in
  let '(mant, expt) :=
    if unshifted_expt <=? 3 then (Z.shiftr (Z.land bits 0xFFFFFF) (8 * (3 - unshifted_expt)), 0)
    else (Z.land bits 0xFFFFFF, 8 * (Z.shiftr bits 24 - 3)) in
  if 0x7FFFFF <? mant then Uint.ZERO 4 else Uint.shl (Uint.from_u64 4 mant) expt.

Definition compact_target_bits (a : list Z) : Z :=
  let size := div_ceil (Uint.bits a) 8 in
  let compact :=
    if size <=? 3 then Uint.u64_shl (Uint.as_u64 a) (8 * (3 - size)) mod 2 ^ 32
    else Uint.as_u64 (Uint.shr a (8 * (size - 3))) mod 2 ^ 32 in
  let '(compact, size) :=
    if negb (Z.land compact 0x00800000 =? 0) then (Z.shiftr compact 8, size + 1) else (compact, size) in
  Z.lor compact (Z.shiftl size 24 mod 2 ^ 32).

(** [Uint320::from(Uint256)], [Uint256::try_from(Uint320)] and
    [Uint192::try_from(Uint256)]. *)
Definition to_uint320 (a : list Z) : list Z := take 4 a ++ [0].
Definition from_uint320 (a : list Z) : outcome () (list Z) := if Uint.limb a 4 =? 0 then Ok (take 4 a) else Err ().
Definition to_uint192 (a : list Z) : outcome () (list Z) := if Uint.limb a 3 =? 0 then Ok (take 3 a) else Err ().
End Uint256.
