(* ===== verification/MathArith.v ===== *)
(** * The big integers compute

    Every operation of [Math.Uint] is related to the arithmetic of the values:
    addition, subtraction and multiplication modulo [2^BITS], shifts,
    comparison, and the two divisions. *)
From S2P Require Import Prelude Math.

#[local] Open Scope Z_scope.
Import Uint.

(** ** Values of words *)

Lemma B_val : B = 18446744073709551616.
Proof. reflexivity. Qed.

Ltac words := unfold in_u in *; rewrite ?B_val in *; change (2 ^ 64) with 18446744073709551616 in *.

Lemma M_0 : M 0 = 1.
Proof. reflexivity. Qed.

Lemma M_S n : M (S n) = B * M n.
Proof. unfold M, BITS, B. rewrite <-Z.pow_add_r by lia. f_equal. lia. Qed.

Lemma M_pos n : 0 < M n.
Proof. unfold M, BITS. apply Z.pow_pos_nonneg; lia. Qed.

Lemma wf_nil a : wf 0 a <-> a = [].
Proof. unfold wf. split; [intros [H _]; by apply nil_length_inv in H|by intros ->]. Qed.

Lemma wf_cons n x a : wf (S n) (x :: a) <-> in_u 64 x /\ wf n a.
Proof. unfold wf. cbn. rewrite Forall_cons. naive_solver lia. Qed.

Lemma wf_S n a : wf (S n) a -> exists x a', a = x :: a' /\ in_u 64 x /\ wf n a'.
Proof. destruct a as [|x a]; [intros [? _]; done|]. rewrite wf_cons. eauto. Qed.

Lemma wf_length n a : wf n a -> length a = n.
Proof. by intros []. Qed.

Lemma uval_cons x a : uval (x :: a) = x + B * uval a.
Proof. done. Qed.

Lemma uval_bound n a : wf n a -> 0 <= uval a < M n.
Proof.
  revert a; induction n as [|n IH]; intros a Ha.
  - apply wf_nil in Ha as ->. rewrite M_0. cbn. lia.
  - apply wf_S in Ha as (x & a' & -> & Hx & Ha'). specialize (IH _ Ha').
    rewrite uval_cons, M_S. words. nia.
Qed.

Lemma uval_app a b : uval (a ++ b) = uval a + M (length a) * uval b.
Proof.
  induction a as [|x a IH]; cbn [app length]; [rewrite M_0; cbn; lia|].
  rewrite !uval_cons, IH, M_S. ring.
Qed.

(** A value determines its words. *)
Lemma uval_inj n a b : wf n a -> wf n b -> uval a = uval b -> a = b.
Proof.
  revert a b; induction n as [|n IH]; intros a b Ha Hb E.
  - apply wf_nil in Ha as ->, Hb as ->. done.
  - apply wf_S in Ha as (x & a' & -> & Hx & Ha'), Hb as (y & b' & -> & Hy & Hb').
    rewrite !uval_cons in E. words. assert (x = y) by lia. subst. f_equal. apply (IH a' b'); [done..|lia].
Qed.

Lemma wf_ZERO n : wf n (ZERO n).
Proof. split; [apply length_replicate|]. apply Forall_replicate. words. lia. Qed.

Lemma uval_ZERO n : uval (ZERO n) = 0.
Proof. unfold ZERO. induction n as [|n IH]; [done|]. cbn [replicate]. rewrite uval_cons, IH. lia. Qed.

Lemma uval_MAX n : uval (MAX n) = M n - 1.
Proof.
  unfold MAX. induction n as [|n IH]; [done|]. cbn [replicate]. rewrite uval_cons, IH, M_S. lia.
Qed.

Lemma from_u64_ok n x : in_u 64 x -> wf (S n) (from_u64 (S n) x) /\ uval (from_u64 (S n) x) = x.
Proof.
  intros Hx. change (from_u64 (S n) x) with (x :: ZERO n). rewrite wf_cons, uval_cons, uval_ZERO.
  repeat split; [apply Hx..|apply wf_ZERO|apply wf_ZERO|lia].
Qed.

(** ** Addition and subtraction *)

Lemma carrying_add_ok x y (c : bool) : in_u 64 x -> in_u 64 y ->
  let r := carrying_add_u64 x y c in
  in_u 64 r.1 /\ r.1 + B * Z.b2z r.2 = x + y + Z.b2z c.
Proof.
  intros Hx Hy. unfold carrying_add_u64, u64_overflowing_add. cbn. words.
  destruct c; cbn; destruct (Z.leb_spec 18446744073709551616 (x + y)); cbn;
    match goal with |- context [?a <=? ?b] => destruct (Z.leb_spec a b) end; cbn; Z.to_euclidean_division_equations; lia.
Qed.

Lemma add_loop_ok n a b c : wf n a -> wf n b ->
  let r := add_loop a b c in
  wf n r.1 /\ uval r.1 + M n * Z.b2z r.2 = uval a + uval b + Z.b2z c.
Proof.
  revert a b c; induction n as [|n IH]; intros a b c Ha Hb.
  - apply wf_nil in Ha as ->, Hb as ->. cbn. by destruct c.
  - apply wf_S in Ha as (x & a' & -> & Hx & Ha'), Hb as (y & b' & -> & Hy & Hb'). cbn [add_loop].
    pose proof (carrying_add_ok x y c Hx Hy) as H1. destruct (carrying_add_u64 x y c) as [z c1]. cbn in H1.
    specialize (IH a' b' c1 Ha' Hb'). cbv zeta in IH. destruct (add_loop a' b' c1) as [r c2]. cbn [fst snd] in *.
    rewrite wf_cons, !uval_cons, M_S. split; [naive_solver|]. nia.
Qed.

Lemma borrowing_sub_ok x y (c : bool) : in_u 64 x -> in_u 64 y ->
  let r := borrowing_sub_u64 x y c in
  in_u 64 r.1 /\ r.1 - B * Z.b2z r.2 = x - y - Z.b2z c.
Proof.
  intros Hx Hy. unfold borrowing_sub_u64, u64_overflowing_sub. cbn. words.
  destruct c; cbn; destruct (Z.ltb_spec x y); cbn;
    match goal with |- context [?a <? ?b] => destruct (Z.ltb_spec a b) end; cbn; Z.to_euclidean_division_equations; lia.
Qed.

Lemma sub_loop_ok n a b c : wf n a -> wf n b ->
  let r := sub_loop a b c in
  wf n r.1 /\ uval r.1 - M n * Z.b2z r.2 = uval a - uval b - Z.b2z c.
Proof.
  revert a b c; induction n as [|n IH]; intros a b c Ha Hb.
  - apply wf_nil in Ha as ->, Hb as ->. cbn. by destruct c.
  - apply wf_S in Ha as (x & a' & -> & Hx & Ha'), Hb as (y & b' & -> & Hy & Hb'). cbn [sub_loop].
    pose proof (borrowing_sub_ok x y c Hx Hy) as H1. destruct (borrowing_sub_u64 x y c) as [z c1]. cbn in H1.
    specialize (IH a' b' c1 Ha' Hb'). cbv zeta in IH. destruct (sub_loop a' b' c1) as [r c2]. cbn [fst snd] in *.
    rewrite wf_cons, !uval_cons, M_S. split; [naive_solver|]. nia.
Qed.

Lemma uadd_ok n a b : wf n a -> wf n b -> wf n (add a b) /\ uval (add a b) = (uval a + uval b) mod M n.
Proof.
  intros Ha Hb. destruct (add_loop_ok n a b false Ha Hb) as [Hw He]. split; [exact Hw|].
  change (add a b) with (add_loop a b false).1. cbn [Z.b2z] in He. pose proof (uval_bound _ _ Hw).
  apply (Zmod_unique _ _ (Z.b2z (add_loop a b false).2)); lia.
Qed.

Lemma usub_ok n a b : wf n a -> wf n b -> wf n (sub a b) /\ uval (sub a b) = (uval a - uval b) mod M n.
Proof.
  intros Ha Hb. destruct (sub_loop_ok n a b false Ha Hb) as [Hw He]. split; [exact Hw|].
  change (sub a b) with (sub_loop a b false).1. cbn [Z.b2z] in He. pose proof (uval_bound _ _ Hw).
  apply (Zmod_unique _ _ (- Z.b2z (sub_loop a b false).2)); lia.
Qed.

Lemma add_u64_ok n a x : wf (S n) a -> in_u 64 x ->
  wf (S n) (add_u64 a x) /\ uval (add_u64 a x) = (uval a + x) mod M (S n).
Proof.
  assert (forall n a c, wf n a ->
    let r := add_one_loop a c in wf n r.1 /\ uval r.1 + M n * Z.b2z r.2 = uval a + Z.b2z c) as Hone.
  { clear. induction n as [|n IH]; intros a c Ha.
    - apply wf_nil in Ha as ->. cbn. by destruct c.
    - pose proof Ha as Hw. apply wf_S in Ha as (y & a' & -> & Hy & Ha'). destruct c; [|cbn; split; [done|lia]].
      cbn [add_one_loop]. unfold u64_overflowing_add. cbv zeta. specialize (IH a' (B <=? y + 1) Ha').
      cbv zeta in IH. destruct (add_one_loop a' _) as [r c2]. cbn [fst snd] in *.
      rewrite wf_cons, !uval_cons, M_S. pose proof (uval_bound _ _ Ha'). pose proof (uval_bound _ _ (proj1 IH)).
      destruct IH as [Hr He]. words. destruct (Z.leb_spec 18446744073709551616 (y + 1)); cbn [Z.b2z] in *.
      + assert (y = 18446744073709551615) as -> by lia. change ((18446744073709551615 + 1) mod 18446744073709551616) with 0. split; [split; [lia|done]|nia].
      + rewrite Z.mod_small by lia. split; [split; [lia|done]|nia]. }
  intros Ha Hx. apply wf_S in Ha as (y & a' & -> & Hy & Ha'). unfold add_u64, overflowing_add_u64, u64_overflowing_add.
  specialize (Hone n a' (B <=? y + x) Ha'). cbv zeta in *. destruct (add_one_loop a' _) as [r c2]. cbn [fst snd] in *.
  destruct Hone as [Hr He]. assert (in_u 64 ((y + x) mod B)) as Hm.
  { words. apply Z.mod_pos_bound. lia. }
  split; [by rewrite wf_cons|]. rewrite !uval_cons, M_S. pose proof (uval_bound _ _ Hr) as Hrb.
  assert ((y + x) mod B = y + x - B * Z.b2z (B <=? y + x)) as Hmod.
  { words. destruct (Z.leb_spec 18446744073709551616 (y + x)); cbn [Z.b2z]; Z.to_euclidean_division_equations; lia. }
  apply (Zmod_unique _ _ (Z.b2z c2)); words; nia.
Qed.

(** ** Bits *)

Lemma word_high x k : in_u 64 x -> 64 <= k -> Z.testbit x k = false.
Proof.
  intros Hx Hk. rewrite <-(Z.mod_small x (2 ^ 64)) by (words; lia). by apply Z.mod_pow2_bits_high.
Qed.

Lemma testbit_cons x v k : in_u 64 x -> 0 <= k ->
  Z.testbit (x + B * v) k = if k <? 64 then Z.testbit x k else Z.testbit v (k - 64).
Proof.
  intros Hx Hk. unfold B. destruct (Z.ltb_spec k 64).
  - rewrite <-(Z.mod_pow2_bits_low _ 64) by lia. f_equal. rewrite Z.mul_comm, Z_mod_plus_full. apply Z.mod_small. words. lia.
  - replace k with (k - 64 + 64) at 1 by lia. rewrite <-Z.div_pow2_bits by lia. f_equal.
    rewrite Z.mul_comm, Z.div_add by lia. rewrite Z.div_small by (words; lia). lia.
Qed.

Lemma div64_sub k : (k - 64) / 64 = k / 64 - 1 /\ (k - 64) mod 64 = k mod 64.
Proof. Z.to_euclidean_division_equations; lia. Qed.

Lemma limb_S x a i : limb (x :: a) (S i) = limb a i.
Proof. done. Qed.

Lemma uval_testbit n a k : wf n a -> 0 <= k -> Z.testbit (uval a) k = Z.testbit (limb a (Z.to_nat (k / 64))) (k mod 64).
Proof.
  revert a k; induction n as [|n IH]; intros a k Ha Hk.
  - apply wf_nil in Ha as ->. unfold limb. rewrite lookup_nil. cbn. by rewrite !Z.testbit_0_l.
  - apply wf_S in Ha as (x & a' & -> & Hx & Ha'). rewrite uval_cons, testbit_cons by done.
    destruct (Z.ltb_spec k 64); [by rewrite Z.div_small, Z.mod_small by lia|].
    rewrite (IH a') by (done || lia). destruct (div64_sub k) as [-> ->].
    assert (1 <= k / 64) by (apply Z.div_le_lower_bound; lia).
    by replace (Z.to_nat (k / 64)) with (S (Z.to_nat (k / 64 - 1))) by lia.
Qed.

Lemma limb_in n a i : wf n a -> in_u 64 (limb a i).
Proof.
  intros [_ Ha]. unfold limb. destruct (a !! i) eqn:E; cbn; [|words; lia]. by eapply Forall_lookup_1 in Ha.
Qed.

Lemma limb_ge n a i : wf n a -> (n <= i)%nat -> limb a i = 0.
Proof. intros [Hl _] Hi. unfold limb. by rewrite lookup_ge_None_2 by lia. Qed.

Lemma limb_seq (f : nat -> Z) n i : (i < n)%nat -> limb (f <$> seq 0 n) i = f i.
Proof. intros Hi. unfold limb. by rewrite list_lookup_fmap, lookup_seq_lt by done. Qed.

Lemma uval_high n a k : wf n a -> BITS n <= k -> Z.testbit (uval a) k = false.
Proof.
  intros Ha Hk. unfold BITS in Hk. rewrite (uval_testbit n) by (done || lia).
  rewrite (limb_ge n); [apply Z.testbit_0_l|done|]. apply Nat2Z.inj_le.
  rewrite Z2Nat.id by (apply Z.div_pos; lia). apply Z.div_le_lower_bound; lia.
Qed.

(** A list of words with the bits of [v] is the value [v] modulo [2^BITS]. *)
Lemma words_value n (f : nat -> Z) v :
  (forall i, (i < n)%nat -> in_u 64 (f i)) ->
  (forall k, 0 <= k < BITS n -> Z.testbit (f (Z.to_nat (k / 64))) (k mod 64) = Z.testbit v k) ->
  wf n (f <$> seq 0 n) /\ uval (f <$> seq 0 n) = v mod M n.
Proof.
  intros Hin Hbits. assert (wf n (f <$> seq 0 n)) as Hw.
  { split; [by rewrite length_fmap, length_seq|]. apply Forall_fmap, Forall_forall. intros i Hi.
    apply elem_of_seq in Hi. apply Hin. lia. }
  split; [done|]. apply Z.bits_inj'. intros k Hk. unfold M. destruct (decide (k < BITS n)) as [Hlt|Hge].
  - rewrite Z.mod_pow2_bits_low, <-Hbits, (uval_testbit n) by (done || lia). f_equal.
    apply limb_seq. unfold BITS in Hlt. apply Nat2Z.inj_lt. rewrite Z2Nat.id by (apply Z.div_pos; lia).
    apply Z.div_lt_upper_bound; lia.
  - unfold BITS in *. rewrite Z.mod_pow2_bits_high by lia. by apply (uval_high n); [|unfold BITS; lia].
Qed.

Lemma shl_word_testbit x s k : 0 <= s -> 0 <= k < 64 -> Z.testbit (u64_shl x s) k = Z.testbit x (k - s).
Proof. intros Hs Hk. unfold u64_shl, B. by rewrite Z.mod_pow2_bits_low, Z.shiftl_spec by lia. Qed.

Lemma shl_word_in x s : in_u 64 (u64_shl x s).
Proof. unfold u64_shl. words. apply Z.mod_pos_bound. lia. Qed.

Lemma lor_in x y : in_u 64 x -> in_u 64 y -> in_u 64 (Z.lor x y).
Proof.
  intros Hx Hy. assert (0 <= Z.lor x y) by (apply Z.lor_nonneg; split; [apply Hx|apply Hy]).
  split; [done|]. destruct (decide (Z.lor x y = 0)) as [->|]; [lia|]. apply Z.log2_lt_pow2; [lia|].
  rewrite Z.log2_lor by (apply Hx || apply Hy). 
  assert (forall z, in_u 64 z -> Z.log2 z < 64) as Hl.
  { intros z [? ?]. destruct (decide (z = 0)) as [->|]; [cbn; lia|]. apply Z.log2_lt_pow2; lia. }
  pose proof (Hl x Hx). pose proof (Hl y Hy). lia.
Qed.

Lemma shr_word_in x s : in_u 64 x -> 0 <= s -> in_u 64 (u64_shr x s).
Proof.
  intros Hx Hs. unfold u64_shr. rewrite Z.shiftr_div_pow2 by lia. pose proof (Z.pow_pos_nonneg 2 s ltac:(lia) Hs).
  split; [apply Z.div_pos; [apply Hx|lia]|]. apply Z.le_lt_trans with x; [|apply Hx]. apply Z.div_le_upper_bound; [lia|].
  words. nia.
Qed.

(** Quotient and remainder by 64 of a difference and of a sum. *)
Lemma split64 k s : 0 <= s ->
  (s mod 64 <= k mod 64 -> (k - s) / 64 = k / 64 - s / 64 /\ (k - s) mod 64 = k mod 64 - s mod 64) /\
  (k mod 64 < s mod 64 -> (k - s) / 64 = k / 64 - s / 64 - 1 /\ (k - s) mod 64 = k mod 64 - s mod 64 + 64).
Proof. intros. split; intros; Z.to_euclidean_division_equations; lia. Qed.

Lemma split64_add k s : 0 <= s ->
  (k mod 64 + s mod 64 < 64 -> (k + s) / 64 = k / 64 + s / 64 /\ (k + s) mod 64 = k mod 64 + s mod 64) /\
  (64 <= k mod 64 + s mod 64 -> (k + s) / 64 = k / 64 + s / 64 + 1 /\ (k + s) mod 64 = k mod 64 + s mod 64 - 64).
Proof. intros. split; intros; Z.to_euclidean_division_equations; lia. Qed.

Lemma shl_ok n a s : wf n a -> 0 <= s < BITS n ->
  wf n (shl a s) /\ uval (shl a s) = (uval a * 2 ^ s) mod M n.
Proof.
  intros Ha Hs. unfold shl, overflowing_shl. rewrite (wf_length n a Ha). cbn [fst].
  rewrite (Z.mod_small s) by lia. pose proof (Z.mod_pos_bound s 64 ltac:(lia)) as Hls.
  assert (0 <= s / 64) as Hlw by (apply Z.div_pos; lia).
  apply words_value.
  - intros i Hi. destruct (i <? _)%nat; [words; lia|]. destruct (_ && _); [|apply shl_word_in].
    apply lor_in; [apply shl_word_in|]. apply shr_word_in; [by apply (limb_in n)|lia].
  - intros k Hk. rewrite <-Z.shiftl_mul_pow2, Z.shiftl_spec by lia. pose proof (Z.mod_pos_bound k 64 ltac:(lia)) as Hr.
    assert (0 <= k / 64) as Hq by (apply Z.div_pos; lia).
    pose proof (Z.div_mod k 64 ltac:(lia)). pose proof (Z.div_mod s 64 ltac:(lia)).
    destruct (split64 k s ltac:(lia)) as [Hge Hlt].
    destruct (Nat.ltb_spec (Z.to_nat (k / 64)) (Z.to_nat (s / 64))).
    { rewrite Z.testbit_0_l, Z.testbit_neg_r; [done|]. lia. }
    destruct (decide (s mod 64 <= k mod 64)) as [Hc|Hc].
    + destruct (Hge Hc) as [Hd Hm]. rewrite (uval_testbit n) by (done || lia). rewrite Hd, Hm.
      replace (Z.to_nat (k / 64 - s / 64)) with (Z.to_nat (k / 64) - Z.to_nat (s / 64))%nat by lia.
      rewrite <-shl_word_testbit by lia.
      destruct (_ && _); [|done]. rewrite Z.lor_spec. unfold u64_shr at 1. rewrite Z.shiftr_spec by lia.
      rewrite (word_high (limb a _) (k mod 64 + (64 - s mod 64))); [by rewrite orb_false_r|by apply (limb_in n)|lia].
    + destruct (Hlt ltac:(lia)) as [Hd Hm]. replace (0 <? s mod 64) with true by lia. cbn [andb].
      destruct (Nat.leb_spec (Z.to_nat (s / 64) + 1) (Z.to_nat (k / 64))).
      * rewrite (uval_testbit n) by (done || lia). rewrite Hd, Hm, Z.lor_spec, shl_word_testbit by lia.
        rewrite (Z.testbit_neg_r _ (k mod 64 - s mod 64)) by lia. unfold u64_shr. rewrite Z.shiftr_spec by lia. cbn [orb].
        f_equal; [f_equal; lia|lia].
      * rewrite shl_word_testbit, !Z.testbit_neg_r by lia. done.
Qed.

Lemma shr_ok n a s : wf n a -> 0 <= s < BITS n ->
  wf n (shr a s) /\ uval (shr a s) = uval a / 2 ^ s.
Proof.
  intros Ha Hs. unfold shr, overflowing_shr. rewrite (wf_length n a Ha). cbn [fst].
  rewrite (Z.mod_small s) by lia. pose proof (Z.mod_pos_bound s 64 ltac:(lia)) as Hls.
  assert (0 <= s / 64) as Hlw by (apply Z.div_pos; lia). pose proof (uval_bound n a Ha) as Hb.
  rewrite <-(Z.mod_small (uval a / 2 ^ s) (M n)).
  2: { pose proof (Z.pow_pos_nonneg 2 s ltac:(lia) ltac:(lia)). split; [apply Z.div_pos; lia|].
       apply Z.le_lt_trans with (uval a); [|lia]. apply Z.div_le_upper_bound; nia. }
  apply words_value.
  - intros i Hi. destruct (_ <? _)%nat; [|words; lia]. destruct (_ && _); [apply lor_in; [|apply shl_word_in]|];
      (apply shr_word_in; [by apply (limb_in n)|lia]).
  - intros k Hk. rewrite Z.div_pow2_bits by lia. pose proof (Z.mod_pos_bound k 64 ltac:(lia)) as Hr.
    assert (0 <= k / 64) as Hq by (apply Z.div_pos; lia).
    destruct (split64_add k s ltac:(lia)) as [Hlt Hge]. rewrite (uval_testbit n) by (done || lia).
    destruct (decide (k mod 64 + s mod 64 < 64)) as [Hc|Hc].
    + destruct (Hlt Hc) as [-> ->]. replace (Z.to_nat (k / 64 + s / 64)) with (Z.to_nat (k / 64) + Z.to_nat (s / 64))%nat by lia.
      destruct (Nat.ltb_spec (Z.to_nat (k / 64) + Z.to_nat (s / 64)) n) as [Hin|Hout];
        [|rewrite (limb_ge n a) by done; by rewrite !Z.testbit_0_l].
      destruct (_ && _); [rewrite Z.lor_spec, shl_word_testbit, (Z.testbit_neg_r _ (k mod 64 - _)), orb_false_r by lia|];
        unfold u64_shr; by rewrite Z.shiftr_spec by lia.
    + destruct (Hge ltac:(lia)) as [-> ->]. replace (0 <? s mod 64) with true by lia. cbn [andb].
      replace (Z.to_nat (k / 64 + s / 64 + 1)) with (Z.to_nat (k / 64) + Z.to_nat (s / 64) + 1)%nat by lia.
      assert (forall i, Z.testbit (u64_shr (limb a i) (s mod 64)) (k mod 64) = false) as Hlow.
      { intros i. unfold u64_shr. rewrite Z.shiftr_spec by lia. apply word_high; [by apply (limb_in n)|lia]. }
      destruct (Nat.ltb_spec (Z.to_nat (k / 64) + Z.to_nat (s / 64) + 1) n) as [Hin|Hout].
      * replace (_ <? n)%nat with true by (symmetry; apply Nat.ltb_lt; lia).
        rewrite Z.lor_spec, shl_word_testbit, Hlow by lia. cbn [orb]. f_equal. lia.
      * rewrite (limb_ge n a (_ + 1)), Z.testbit_0_l by (done || lia).
        destruct (_ <? n)%nat; [apply Hlow|apply Z.testbit_0_l].
Qed.

(** ** Multiplication *)

(** The 128-bit intermediate value of a product of words with two carries. *)
Lemma mul_word_fits x y r c : in_u 64 x -> in_u 64 y -> in_u 64 r -> in_u 64 c -> in_u 128 (x * y + r + c).
Proof.
  intros [? Hx] [? Hy] [? Hr] [? Hc]. unfold in_u. replace (2 ^ 128) with (2 ^ 64 * 2 ^ 64) by reflexivity.
  set (b := 2 ^ 64) in *. nia.
Qed.

Lemma mul_word_ok x y r c : in_u 64 x -> in_u 64 y -> in_u 64 r -> in_u 64 c ->
  let n := x * y + r + c in
  in_u 64 (n mod B) /\ in_u 64 (Z.shiftr n 64) /\ n mod B + B * Z.shiftr n 64 = n.
Proof.
  intros Hx Hy Hr Hc n. pose proof (mul_word_fits x y r c Hx Hy Hr Hc) as [H0 H1]. fold n in H0, H1.
  rewrite Z.shiftr_div_pow2 by lia. change (2 ^ 64) with B. split; [|split].
  - apply Z.mod_pos_bound. words. lia.
  - split; [apply Z.div_pos; words; lia|]. apply Z.div_lt_upper_bound; [words; lia|].
    replace (B * 2 ^ 64) with (2 ^ 128) by reflexivity. done.
  - rewrite (Z.div_mod n B) at 3 by (words; lia). lia.
Qed.

Lemma mul_row_ok n a y result c : wf n result -> in_u 64 y -> in_u 64 c -> (n <= length a)%nat -> Forall (in_u 64) a ->
  let r := mul_row a y result c in
  wf n r.1 /\ in_u 64 r.2 /\ (uval r.1 + M n * r.2 - (uval (take n a) * y + uval result + c)) = 0.
Proof.
  revert a result c; induction n as [|n IH]; intros a result c Hres Hy Hc Hl Ha.
  - apply wf_nil in Hres as ->. rewrite take_0. destruct a; cbn; rewrite M_0; split_and!; try done; lia.
  - apply wf_S in Hres as (r & result' & -> & Hr & Hres'). destruct a as [|x a]; [cbn in Hl; lia|].
    apply Forall_cons in Ha as [Hx Ha]. cbn [mul_row take].
    destruct (mul_word_ok x y r c Hx Hy Hr Hc) as (H1 & H2 & H3).
    specialize (IH a result' _ Hres' Hy H2 ltac:(cbn in Hl; lia) Ha). cbv zeta in IH.
    destruct (mul_row a y result' _) as [row c']. cbn [fst snd] in *. destruct IH as (Hrow & Hc' & He).
    rewrite wf_cons, !uval_cons, M_S. split_and!; try done. nia.
Qed.

(** The words above [n] contribute multiples of [2^BITS]. *)
Lemma uval_take_drop k a : (k <= length a)%nat -> uval a = uval (take k a) + M k * uval (drop k a).
Proof.
  intros Hk. rewrite <-(take_drop k a) at 1. rewrite uval_app, length_take. by rewrite Nat.min_l by lia.
Qed.

Lemma mul_loop_ok n a other result co : wf n result -> wf n other -> (n <= length a)%nat -> Forall (in_u 64) a ->
  wf n (mul_loop a other result co).1 /\
  (M n | uval (mul_loop a other result co).1 - (uval a * uval other + uval result)).
Proof.
  revert a other result co; induction n as [|n IH]; intros a other result co Hres Hot Hl Ha.
  - apply wf_nil in Hres as ->, Hot as ->. cbn. split; [done|]. rewrite M_0. apply Z.divide_1_l.
  - apply wf_S in Hot as (y & other' & -> & Hy & Hot). cbn [mul_loop].
    destruct (mul_row_ok (S n) a y result 0 Hres Hy ltac:(words; lia) Hl Ha) as (Hw & Hc & He).
    destruct (mul_row a y result 0) as [row c]. cbn [fst snd] in *.
    apply wf_S in Hw as (r & row' & -> & Hr & Hrow').
    destruct (IH a other' row' (co || negb (c =? 0)) Hrow' Hot ltac:(lia) Ha) as [Hw2 [q Hq]].
    destruct (mul_loop a other' row' _) as [rest co2]. cbn [fst snd] in *. rewrite wf_cons.
    split; [done|]. rewrite !uval_cons in *. rewrite M_S in *.
    rewrite (uval_take_drop (S n) a) in * by done. rewrite M_S in *.
    exists (q - c - uval (drop (S n) a) * y). nia.
Qed.

Lemma umul_ok n a b : wf n a -> wf n b -> wf n (mul a b) /\ uval (mul a b) = (uval a * uval b) mod M n.
Proof.
  intros Ha Hb. unfold mul, overflowing_mul. rewrite (wf_length n a Ha).
  destruct (mul_loop_ok n a b (ZERO n) false (wf_ZERO n) Hb) as [Hw [q Hq]]; [rewrite (wf_length n a Ha); lia|apply Ha|].
  split; [done|]. rewrite uval_ZERO in Hq. pose proof (uval_bound _ _ Hw).
  apply (Zmod_unique _ _ (- q)); [done|]. nia.
Qed.

Lemma carrying_mul_ok n a x c : wf n a -> in_u 64 x -> in_u 64 c ->
  let r := carrying_mul_loop a x c in
  wf n r.1 /\ in_u 64 r.2 /\ uval r.1 + M n * r.2 = uval a * x + c.
Proof.
  revert a c; induction n as [|n IH]; intros a c Ha Hx Hc.
  - apply wf_nil in Ha as ->. cbn. rewrite M_0. split_and!; try done; try apply Hc; lia.
  - apply wf_S in Ha as (y & a' & -> & Hy & Ha'). cbn [carrying_mul_loop].
    destruct (mul_word_ok x y 0 c Hx Hy ltac:(words; lia) Hc) as (H1 & H2 & H3).
    replace (c + x * y) with (x * y + 0 + c) by lia.
    replace (Z.land (Z.shiftr (x * y + 0 + c) 64) u64_max) with (Z.shiftr (x * y + 0 + c) 64).
    2: { symmetry. unfold u64_max, umax.
         replace (2 ^ 64 - 1) with (Z.ones 64) by reflexivity. rewrite Z.land_ones by lia. apply Z.mod_small. apply H2. }
    specialize (IH a' _ Ha' Hx H2). cbv zeta in IH. destruct (carrying_mul_loop a' x _) as [r c']. cbn [fst snd] in *.
    rewrite wf_cons, !uval_cons, M_S. split_and!; try naive_solver. nia.
Qed.

Lemma mul_u64_ok n a x : wf n a -> in_u 64 x -> wf n (mul_u64 a x) /\ uval (mul_u64 a x) = (uval a * x) mod M n.
Proof.
  intros Ha Hx. unfold mul_u64, overflowing_mul_u64, carrying_mul_u64.
  destruct (carrying_mul_ok n a x 0 Ha Hx ltac:(words; lia)) as (Hw & Hc & He).
  destruct (carrying_mul_loop a x 0) as [r c]. cbn [fst snd] in *. split; [done|].
  pose proof (uval_bound _ _ Hw). apply (Zmod_unique _ _ c); lia.
Qed.

(** ** Comparison *)

Lemma lex_cmp_app a b c d : length a = length c ->
  lex_cmp (a ++ b) (c ++ d) = match lex_cmp a c with Eq => lex_cmp b d | r => r end.
Proof.
  revert c; induction a as [|x a IH]; intros [|y c] Hl; try done. cbn. destruct (x ?= y); [|done..]. apply IH. cbn in Hl. lia.
Qed.

Lemma cmp_ok n a b : wf n a -> wf n b -> cmp a b = (uval a ?= uval b).
Proof.
  revert a b; induction n as [|n IH]; intros a b Ha Hb.
  - apply wf_nil in Ha as ->, Hb as ->. done.
  - apply wf_S in Ha as (x & a' & -> & Hx & Ha'), Hb as (y & b' & -> & Hy & Hb'). unfold cmp in *. cbn [rev].
    rewrite lex_cmp_app, IH, !uval_cons by (rewrite ?length_rev; destruct Ha', Hb'; congruence || done).
    words. destruct (Z.compare_spec (uval a') (uval b')) as [->|H|H].
    + cbn. destruct (Z.compare_spec x y); symmetry; [apply Z.compare_eq_iff|apply Z.compare_lt_iff|apply Z.compare_gt_iff]; lia.
    + symmetry. apply Z.compare_lt_iff. lia.
    + symmetry. apply Z.compare_gt_iff. lia.
Qed.

Lemma ge_ok n a b : wf n a -> wf n b -> ge a b = (uval b <=? uval a).
Proof.
  intros Ha Hb. unfold ge. rewrite (cmp_ok n) by done. symmetry.
  destruct (Z.compare_spec (uval a) (uval b)); [apply Z.leb_le|apply Z.leb_gt|apply Z.leb_le]; lia.
Qed.

Lemma bits_ok n a : wf n a ->
  (uval a = 0 -> bits a = 0) /\ (0 < uval a -> 0 < bits a /\ 2 ^ (bits a - 1) <= uval a < 2 ^ bits a).
Proof.
  revert a; induction n as [|n IH]; intros a Ha.
  - apply wf_nil in Ha as ->. cbn. lia.
  - apply wf_S in Ha as (x & a' & -> & Hx & Ha'). destruct (IH a' Ha') as [H0 H1]. rewrite uval_cons. cbn [bits].
    pose proof (uval_bound n a' Ha'). destruct (decide (uval a' = 0)) as [E|E].
    + rewrite H0, E by done. cbn. unfold u64_bits. destruct (Z.eqb_spec x 0); [words; lia|].
      split; [words; lia|]. intros _. pose proof (Z.log2_nonneg x). split; [lia|].
      replace (Z.log2 x + 1 - 1) with (Z.log2 x) by lia. rewrite Z.mul_0_r, Z.add_0_r. apply Z.log2_spec. words. lia.
    + destruct (H1 ltac:(lia)) as [Hp Hv]. destruct (Z.eqb_spec (bits a') 0); [lia|].
      split; [words; lia|]. intros _. split; [lia|]. replace (64 + bits a' - 1) with (64 + (bits a' - 1)) by lia.
      rewrite !Z.pow_add_r by lia. words. nia.
Qed.

(** ** Division *)

Lemma div_rem_u64_ok n a x : wf n a -> 0 < x < 2 ^ 64 ->
  wf n (div_rem_u64_loop a x).1 /\ uval (div_rem_u64_loop a x).1 = uval a / x /\ (div_rem_u64_loop a x).2 = uval a mod x.
Proof.
  intros Ha Hx. revert a Ha; induction n as [|n IH]; intros a Ha.
  - apply wf_nil in Ha as ->. cbn. split; [done|]. rewrite Z.div_small, Z.mod_small by lia. done.
  - apply wf_S in Ha as (d & a' & -> & Hd & Ha'). cbn [div_rem_u64_loop]. destruct (IH a' Ha') as (Hw & Hq & Hr).
    destruct (div_rem_u64_loop a' x) as [q r]. cbn [fst snd] in *. subst r. rewrite wf_cons, !uval_cons, Hq.
    pose proof (Z.mod_pos_bound (uval a') x ltac:(lia)) as Hrb. pose proof (Z.div_mod (uval a') x ltac:(lia)) as Hdm.
    assert (Z.lor (Z.shiftl (uval a' mod x) 64) d = uval a' mod x * B + d) as ->.
    { rewrite Z.shiftl_mul_pow2 by lia. fold B. rewrite Z.lor_comm. apply Z.bits_inj'. intros k Hk.
      rewrite (Z.add_comm (_ * B)), (Z.mul_comm _ B), testbit_cons, Z.lor_spec by done. unfold B.
      rewrite Z.mul_comm, Z.mul_pow2_bits by lia. destruct (Z.ltb_spec k 64).
      - rewrite (Z.testbit_neg_r _ (k - 64)) by lia. apply orb_false_r.
      - by rewrite word_high. }
    assert (d + B * uval a' = (uval a' mod x * B + d) + (uval a' / x * B) * x) as E by nia.
    rewrite E, Z.div_add, Z_mod_plus_full by lia.
    assert (0 <= (uval a' mod x * B + d) / x < B) as Hqb.
    { split; [apply Z.div_pos; words; nia|]. apply Z.div_lt_upper_bound; words; nia. }
    rewrite (Z.mod_small (_ / x)) by done. split_and!; try done; lia.
Qed.

Lemma uval_alter n a i f : wf n a -> (i < n)%nat -> in_u 64 (f (limb a i)) ->
  wf n (alter f i a) /\ uval (alter f i a) = uval a + (f (limb a i) - limb a i) * M i.
Proof.
  revert a i; induction n as [|n IH]; intros a i Ha Hi Hf; [lia|].
  apply wf_S in Ha as (x & a' & -> & Hx & Ha'). destruct i as [|i]; cbn [alter list_alter].
  - rewrite wf_cons, !uval_cons, M_0. unfold limb in *. cbn in *. split; [done|lia].
  - rewrite limb_S in *. destruct (IH a' i Ha' ltac:(lia) Hf) as [Hw He].
    change (list_alter f i a') with (alter f i a') in *. rewrite wf_cons, !uval_cons, M_S. split; [done|]. nia.
Qed.

Lemma lor_bit w m : 0 <= m < 64 -> in_u 64 w -> Z.testbit w m = false -> Z.lor w (u64_shl 1 m) = w + 2 ^ m.
Proof.
  intros Hm Hw Hb. assert (u64_shl 1 m = 2 ^ m) as ->.
  { unfold u64_shl. rewrite Z.shiftl_mul_pow2, Z.mul_1_l by lia. apply Z.mod_small. unfold B.
    split; [lia|]. apply Z.pow_lt_mono_r; lia. }
  assert (Z.land w (2 ^ m) = 0) as Hl.
  { apply Z.bits_inj'. intros k Hk. rewrite Z.land_spec, Z.testbit_0_l, Z.pow2_bits_eqb by lia.
    destruct (Z.eqb_spec m k) as [->|]; [by rewrite Hb|by rewrite andb_false_r]. }
  by rewrite <-Z.lxor_lor, <-Z.add_nocarry_lxor.
Qed.

Lemma set_bit_ok n r k : wf n r -> Z.of_nat k < BITS n -> Z.testbit (uval r) (Z.of_nat k) = false ->
  wf n (set_bit r k) /\ uval (set_bit r k) = uval r + 2 ^ Z.of_nat k.
Proof.
  intros Hr Hk Hb. unfold set_bit. unfold BITS in Hk.
  rewrite (uval_testbit n) in Hb by (done || lia).
  change 64 with (Z.of_nat 64) in Hb. rewrite <-Nat2Z.inj_div, <-Nat2Z.inj_mod, !Nat2Z.id in Hb.
  assert ((k / 64 < n)%nat) as Hi by (apply Nat.Div0.div_lt_upper_bound; lia).
  pose proof (Nat.mod_upper_bound k 64 ltac:(lia)) as Hm.
  assert (forall w, in_u 64 w -> in_u 64 (Z.lor w (u64_shl 1 (Z.of_nat (k mod 64))))) as Hin.
  { intros. apply lor_in; [done|apply shl_word_in]. }
  destruct (uval_alter n r (k / 64) (fun w => Z.lor w (u64_shl 1 (Z.of_nat (k mod 64)))) Hr Hi) as [Hw ->].
  { apply Hin. by apply (limb_in n). }
  split; [done|]. rewrite lor_bit; [|lia|by apply (limb_in n)|done].
  assert (2 ^ Z.of_nat k = 2 ^ Z.of_nat (k mod 64) * M (k / 64)) as ->; [|lia].
  unfold M, BITS. rewrite <-Z.pow_add_r by lia. f_equal. pose proof (Nat.div_mod_eq k 64). lia.
Qed.

(** The long division: [sub_copy] is what is left of the dividend [v], and the
    bits of [ret] above [shift] are those of the quotient. *)
Lemma div_loop_ok n v d k s sh ret :
  wf n s -> wf n sh -> wf n ret -> 0 < d -> 0 <= v < M n -> Z.of_nat k < BITS n ->
  uval sh = d * 2 ^ Z.of_nat k -> v = uval ret * d + uval s ->
  uval s < d * 2 ^ (Z.of_nat k + 1) -> (2 ^ (Z.of_nat k + 1) | uval ret) ->
  let r := div_loop k s sh ret in
  wf n r.1 /\ wf n r.2 /\ v = uval r.1 * d + uval r.2 /\ 0 <= uval r.2 < d.
Proof.
  revert s sh ret; induction k as [|k IH]; intros s sh ret Hs Hsh Hret Hd Hv Hk Esh Ev Hlt [q Hq];
    pose proof (uval_bound _ _ Hs) as Hsb; pose proof (uval_bound _ _ Hsh) as Hshb.
  - assert (1 < BITS n) as HB by (unfold BITS in *; lia).
    cbn [div_loop]. rewrite (ge_ok n) by done. destruct (Z.leb_spec (uval sh) (uval s)) as [Hle|Hle]; cbn [fst snd].
    + destruct (usub_ok n s sh Hs Hsh) as [Hw He]. rewrite Z.mod_small in He by lia.
      destruct (set_bit_ok n ret 0 Hret Hk) as [Hw2 He2].
      { rewrite Hq. replace (Z.of_nat 0 + 1) with 1 by lia. rewrite Z.mul_pow2_bits, Z.testbit_neg_r by lia. done. }
      rewrite He, He2, Esh in *. cbn in *. split_and!; try done; lia.
    + rewrite Esh in *. cbn in *. split_and!; try done; lia.
  - assert (1 < BITS n) as HB by (unfold BITS in *; lia).
    assert (2 ^ (Z.of_nat (S k) + 1) = 2 * 2 ^ Z.of_nat (S k)) as Hp1 by (rewrite Z.pow_add_r by lia; lia).
    assert (2 ^ Z.of_nat (S k) = 2 * 2 ^ Z.of_nat k) as Hp2 by (rewrite Nat2Z.inj_succ, Z.pow_succ_r by lia; lia).
    destruct (shr_ok n sh 1 Hsh ltac:(lia)) as [Hsh2 Esh2].
    assert (uval (shr sh 1) = d * 2 ^ Z.of_nat k) as Esh3.
    { rewrite Esh2, Esh, Hp2. change (2 ^ 1) with 2. replace (d * (2 * 2 ^ Z.of_nat k)) with (d * 2 ^ Z.of_nat k * 2) by lia.
      apply Z.div_mul. lia. }
    cbn [div_loop]. rewrite (ge_ok n) by done. destruct (Z.leb_spec (uval sh) (uval s)) as [Hle|Hle].
    + destruct (usub_ok n s sh Hs Hsh) as [Hw He]. rewrite Z.mod_small in He by lia.
      destruct (set_bit_ok n ret (S k) Hret Hk) as [Hw2 He2].
      { rewrite Hq, Z.mul_pow2_bits, Z.testbit_neg_r by lia. done. }
      apply IH; try done; try lia; rewrite ?Z.add_1_r, <-?Nat2Z.inj_succ; try nia.
      exists (2 * q + 1). rewrite He2, Hq, Hp1. lia.
    + apply IH; try done; try lia; rewrite ?Z.add_1_r, <-?Nat2Z.inj_succ; try nia.
      exists (2 * q). rewrite Hq, Hp1. lia.
Qed.

Lemma div_rem_ok {E} n a b : wf n a -> wf n b -> 0 < uval b ->
  exists q r, div_rem (E := E) a b = Ok (q, r) /\ wf n q /\ wf n r /\ uval q = uval a / uval b /\ uval r = uval a mod uval b.
Proof.
  intros Ha Hb Hpos. unfold div_rem. pose proof (uval_bound _ _ Ha) as Hab. pose proof (uval_bound _ _ Hb) as Hbb.
  destruct (bits_ok n b Hb) as [_ Hbits]. destruct (Hbits Hpos) as [Hb0 Hb1]. rewrite (wf_length n a Ha).
  destruct (Z.eqb_spec (bits b) 0); [lia|]. destruct (bits_ok n a Ha) as [Ha0 Ha1].
  destruct (Z.ltb_spec (bits a) (bits b)) as [Hlt|Hge].
  { exists (ZERO n), a. split; [done|]. split; [apply wf_ZERO|]. split; [done|].
    assert (uval a < uval b) as Hsm.
    { destruct (decide (uval a = 0)); [lia|]. destruct (Ha1 ltac:(lia)) as [_ [_ Hu]].
      eapply Z.lt_le_trans; [exact Hu|]. etransitivity; [|apply Hb1]. apply Z.pow_le_mono_r; lia. }
    rewrite uval_ZERO, Z.div_small, Z.mod_small by lia. done. }
  assert (0 < uval a) as Hap by (destruct (decide (uval a = 0)) as [E0|]; [apply Ha0 in E0|]; lia).
  destruct (Ha1 Hap) as [Ha2 Ha3]. set (k := Z.to_nat (bits a - bits b)).
  assert (Z.of_nat k = bits a - bits b) as Hk by lia.
  assert (bits a <= BITS n) as HaB.
  { destruct (Z.le_gt_cases (bits a) (BITS n)) as [|Hgt]; [done|]. exfalso. unfold M in Hab.
    pose proof (Z.pow_le_mono_r 2 (BITS n) (bits a - 1) ltac:(lia) ltac:(lia)). lia. }
  assert (uval b * 2 ^ Z.of_nat k < M n) as Hfit.
  { apply Z.lt_le_trans with (2 ^ bits b * 2 ^ Z.of_nat k); [apply Z.mul_lt_mono_pos_r; lia|].
    rewrite <-Z.pow_add_r by lia. apply Z.pow_le_mono_r; lia. }
  destruct (shl_ok n b (Z.of_nat k) Hb ltac:(lia)) as [Hw He]. rewrite Z.mod_small in He by lia. rewrite Hk in Hw, He.
  destruct (div_loop_ok n (uval a) (uval b) k a (shl b (bits a - bits b)) (ZERO n)) as (H1 & H2 & H3 & H4);
    rewrite ?uval_ZERO; try done; try apply wf_ZERO; try lia.
  - by rewrite He, Hk.
  - apply Z.lt_le_trans with (2 ^ bits a); [lia|]. replace (bits a) with (bits b - 1 + (Z.of_nat k + 1)) by lia.
    rewrite Z.pow_add_r by lia. apply Z.mul_le_mono_nonneg_r; lia.
  - by exists 0.
  - destruct (div_loop k a _ _) as [q r]. cbn [fst snd] in *. exists q, r. split; [done|]. split; [done|]. split; [done|].
    split; [apply (Z.div_unique _ _ _ (uval r)); lia|apply (Z.mod_unique _ _ (uval q)); lia].
Qed.

Lemma div_ok {E} n a b : wf n a -> wf n b -> 0 < uval b ->
  exists q, div (E := E) a b = Ok q /\ wf n q /\ uval q = uval a / uval b.
Proof.
  intros Ha Hb Hp. destruct (div_rem_ok (E := E) n a b Ha Hb Hp) as (q & r & Hd & Hq & _ & Hv & _).
  exists q. unfold div. by rewrite Hd.
Qed.

Lemma div_u64_ok {E} n a x : wf n a -> 0 < x < 2 ^ 64 ->
  exists q, div_u64 (E := E) a x = Ok q /\ wf n q /\ uval q = uval a / x.
Proof.
  intros Ha Hx. unfold div_u64, div_rem_u64. destruct (Z.eqb_spec x 0); [lia|].
  destruct (div_rem_u64_ok n a x Ha Hx) as (Hw & Hv & _). destruct (div_rem_u64_loop a x) as [q r].
  exists q. done.
Qed.

Lemma not_ok n a : wf n a -> wf n (not a) /\ uval (not a) = M n - 1 - uval a.
Proof.
  revert a; induction n as [|n IH]; intros a Ha; [apply wf_nil in Ha as ->; done|].
  apply wf_S in Ha as (x & a' & -> & Hx & Ha'). destruct (IH a' Ha') as [Hw Hv]. unfold not in *. cbn [fmap list_fmap].
  change (list_fmap _ _ _ a') with ((fun y => B - 1 - y) <$> a') in *. rewrite wf_cons, !uval_cons, Hv, M_S.
  split; [split; [words; lia|done]|]. lia.
Qed.
