(* ===== verification/U3072.v ===== *)
(** * The MuHash field

    [U3072] of [crypto/muhash/src/u3072.rs]: numbers of [LIMBS] 64-bit words
    modulo the prime [2^3072 - PRIME_DIFF].  [mul] works column by column with a
    three-word accumulator and folds the high half back while it goes;
    additions that the source leaves to the overflow checks of the release
    profile panic in the model too.  The number of words is a parameter of the
    definitions; the code has [LIMBS] = 48.  The inverse modulo the prime is
    malachite's, through [mod_inverse] of [math/src/uint.rs]: the class
    [Malachite] has the documented behaviour of that library.

    [mul] returns a number congruent to the product modulo the prime, fully
    reduced unless it took the shortcut for one, and none of its assertions or
    checked additions fails. *)
From S2P Require Import Prelude Bytes Math MathArith.
From stdpp Require Import base list.
#[local] Open Scope Z_scope.
Import Uint.

Definition ELEMENT_BYTE_SIZE : nat := 384.
Definition LIMBS : nat := 48.
Definition PRIME_DIFF : Z := 1103717.

(** The accumulator of a column: three words. *)
Notation acc3 := (Z * Z * Z)%type.

Section ops.
Context {E : Type}.

(** ** Words *)
Definition mul_wide (a b : Z) : Z * Z := let t := a * b in (t mod B, Z.shiftr t 64 mod B).

Definition muladd3 (a b : Z) (acc : acc3) : outcome E acc3 :=
  let '(low, high, carry) := acc in
  let '(tl, th) := mul_wide a b in
  let '(low, overflow) := u64_overflowing_add low tl in
  th ← add_ 64 th (Z.b2z overflow);
  let '(high, overflow) := u64_overflowing_add high th in
  carry ← add_ 64 carry (Z.b2z overflow);
  Ok (low, high, carry).

Definition mulnadd3 (c0 c1 : Z) (d : acc3) (n : Z) : outcome E acc3 :=
  let '(d0, d1, d2) := d in
  p0 ← mul_ 128 d0 n;
  t ← add_ 128 p0 c0;
  let c0 := t mod B in
  let t := Z.shiftr t 64 in
  p1 ← mul_ 128 d1 n;
  s ← add_ 128 p1 c1;
  t ← add_ 128 t s;
  let c1 := t mod B in
  let t := Z.shiftr t 64 in
  p2 ← mul_ 64 d2 n;
  c2 ← add_ 64 (t mod B) p2;
  Ok (c0, c1, c2).

Definition muln2 (low high n : Z) : outcome E (Z * Z) :=
  tmp ← mul_ 128 low n;
  let low := tmp mod B in
  let tmp := Z.shiftr tmp 64 in
  p ← mul_ 128 high n;
  tmp ← add_ 128 tmp p;
  Ok (low, tmp mod B).

(** ** Reductions *)

(** The ripple of a two-word carry through the words, from the lowest. *)
Fixpoint ripple (low high : Z) (a : Uint) : Uint * (Z * Z) :=
  match a with
  | [] => ([], (low, high))
  | x :: a =>
      let '(low, overflow) := u64_overflowing_add low x in
      let '(high, overflow) := u64_overflowing_add high (Z.b2z overflow) in
      let '(r, c) := ripple high (Z.b2z overflow) a in
      (low :: r, c)
  end.

Definition full_reduce (a : Uint) : Uint := (ripple PRIME_DIFF 0 a).1.

Definition is_overflow (a : Uint) : bool :=
  if limb a 0 <=? B - 1 - PRIME_DIFF then false else forallb (fun x => x =? B - 1) (drop 1 a).

(** ** Multiplication *)
Definition one (n : nat) : Uint := from_u64 n 1.

(** Column [LIMBS + j] of the product: [a[j+1] * b[LIMBS-1] + ...]. *)
Definition high_column (n j : nat) (a b : Uint) : outcome E acc3 :=
  foldM (fun acc i => muladd3 (limb a i) (limb b (n + j - i)) acc)
    (mul_wide (limb a (j + 1)) (limb b (n + j - (1 + j))), 0) (seq (2 + j) (n - (2 + j))).

(** Column [j], added to an accumulator. *)
Definition low_column (j : nat) (a b : Uint) (acc : acc3) : outcome E acc3 :=
  foldM (fun acc i => muladd3 (limb a i) (limb b (j - i)) acc) acc (seq 0 (j + 1)).

(** One iteration: the high column, folded in, and the low one; the lowest word
    of the accumulator goes out. *)
Definition mul_column (n : nat) (a b : Uint) (st : Uint * (Z * Z)) (j : nat) : outcome E (Uint * (Z * Z)) :=
  let '(tmp, (carry_low, carry_high)) := st in
  d ← high_column n j a b;
  acc ← mulnadd3 carry_low carry_high d PRIME_DIFF;
  '(c0, c1, c2) ← low_column j a b acc;
  Ok (<[j := c0]> tmp, (c1, c2)).

Definition mul (a b : Uint) : outcome E Uint :=
  let n := length a in
  if bool_decide (a = one n) then Ok b
  else
    '(tmp, (carry_low, carry_high)) ← foldM (mul_column n a b) (one n, (0, 0)) (seq 0 (n - 1));
    '(c0, c1, c2) ← low_column (n - 1) a b (carry_low, carry_high, 0);
    let tmp := <[(n - 1)%nat := c0]> tmp in
    '(carry_low, carry_high) ← muln2 c1 c2 PRIME_DIFF;
    let '(r, (carry_low, carry_high)) := ripple carry_low carry_high tmp in
    _ ← assert (carry_high =? 0);
    _ ← assert ((carry_low =? 0) || (carry_low =? 1));
    let r := if is_overflow r then full_reduce r else r in
    Ok (if negb (carry_low =? 0) then full_reduce r else r).
End ops.

(** ** Inverses and division *)

(** [Natural::mod_inverse] of malachite: the inverse of a reduced number, and
    nothing when the number and the modulus have a common factor. *)
Class Malachite := {
  natural_mod_inverse : Z -> Z -> option Z;
  natural_mod_inverse_some : forall x m, 0 < x < m -> Z.gcd x m = 1 ->
    exists y, natural_mod_inverse x m = Some y /\ 0 < y < m /\ x * y mod m = 1 mod m;
  natural_mod_inverse_none : forall x m, 0 < x < m -> Z.gcd x m <> 1 -> natural_mod_inverse x m = None
}.

(** [into_limbs_asc], copied over an array of [n] zeros; a longer number does
    not fit the slice. *)
Definition from_natural {E} (n : nat) (v : Z) : outcome E Uint :=
  if v <? M n then Ok ((fun i => Z.shiftr v (64 * Z.of_nat i) mod B) <$> seq 0 n) else Panic.

Definition UINT_PRIME (n : nat) : Uint := alter (fun x => x - (PRIME_DIFF - 1)) 0%nat (MAX n).

Section inverse.
Context `{Malachite} {E : Type}.

(** [Uint3072::mod_inverse]; [uval] is [Natural::from_limbs_asc]. *)
Definition mod_inverse (a prime : Uint) : outcome E (option Uint) :=
  match natural_mod_inverse (uval a) (uval prime) with
  | Some y => r ← from_natural (length a) y; Ok (Some r)
  | None => Ok None
  end.

Definition inverse (a : Uint) : outcome E Uint :=
  let a := if is_overflow a then full_reduce a else a in
  if bool_decide (a = ZERO (length a)) then Ok a
  else
    inv ← mod_inverse a (UINT_PRIME (length a));
    match inv with Some inv => Ok inv | None => Panic end.

Definition div (a other : Uint) : outcome E Uint :=
  inv ← (if is_overflow other then inverse (full_reduce other) else inverse other);
  let a := if is_overflow a then full_reduce a else a in
  a ← mul a inv;
  Ok (if is_overflow a then full_reduce a else a).
End inverse.

(** ** Bytes *)
Definition U3072_from_le_bytes (bytes : list Z) : Uint := from_le_bytes LIMBS bytes.
Definition U3072_to_le_bytes (a : Uint) : list Z := to_le_bytes a.

Example u3072_word_vectors :
  mul_wide (B - 1) (B - 1) = (1, 18446744073709551614) /\
  mul_wide (B - 1 - 100) (B - 1 - 30) = (3131, 18446744073709551484).
Proof. split; reflexivity. Qed.

Import Uint.

#[local] Opaque B.

Definition P (n : nat) : Z := M n - PRIME_DIFF.

Lemma B_pow : B = 2 ^ 64.
Proof. reflexivity. Qed.

Lemma in_u64_B x : in_u 64 x <-> 0 <= x < B.
Proof. unfold in_u. by rewrite B_pow. Qed.

Lemma in_u128_B x : in_u 128 x <-> 0 <= x < B * B.
Proof. unfold in_u. by rewrite B_pow. Qed.

(** ** Words *)
Definition v3 (acc : acc3) : Z := let '(l, h, c) := acc in l + B * (h + B * c).
Definition wf3 (acc : acc3) : Prop := let '(l, h, c) := acc in in_u 64 l /\ in_u 64 h /\ in_u 64 c.

Lemma mul_wide_ok a b : in_u 64 a -> in_u 64 b ->
  exists l h, mul_wide a b = (l, h) /\ in_u 64 l /\ in_u 64 h /\ l + B * h = a * b /\ h <= B - 2.
Proof.
  rewrite !in_u64_B. intros Ha Hb. unfold mul_wide. rewrite Z.shiftr_div_pow2, <-B_pow by lia.
  assert (0 <= a * b <= (B - 1) * (B - 1)) as Hab by nia. pose proof B_val as HB.
  assert (0 <= a * b / B <= B - 2) as Hh.
  { split; [apply Z.div_pos; lia|]. apply Z.lt_succ_r, Z.div_lt_upper_bound; nia. }
  rewrite (Z.mod_small (a * b / B)) by lia. do 2 eexists. split; [done|]. rewrite !in_u64_B.
  pose proof (Z.mod_pos_bound (a * b) B). pose proof (Z.div_mod (a * b) B). split_and!; lia.
Qed.

Lemma overflowing_add_ok a b : in_u 64 a -> in_u 64 b ->
  exists s (o : bool), u64_overflowing_add a b = (s, o) /\ in_u 64 s /\ s + B * Z.b2z o = a + b.
Proof.
  rewrite !in_u64_B. intros Ha Hb. unfold u64_overflowing_add. do 2 eexists. split; [done|]. rewrite in_u64_B.
  split; [apply Z.mod_pos_bound; pose proof B_val; lia|]. destruct (Z.leb_spec B (a + b)); cbn [Z.b2z].
  - rewrite <-(Z.mod_unique (a + b) B 1 (a + b - B)); lia.
  - rewrite Z.mod_small by lia. lia.
Qed.

Lemma muladd3_ok {E} a b acc :
  in_u 64 a -> in_u 64 b -> wf3 acc -> v3 acc + a * b < B * B * B ->
  exists acc', muladd3 (E := E) a b acc = Ok acc' /\ wf3 acc' /\ v3 acc' = v3 acc + a * b.
Proof.
  destruct acc as [[l h] c]. intros Ha Hb (Hl & Hh & Hc) Hv. unfold muladd3.
  destruct (mul_wide_ok a b Ha Hb) as (tl & th & -> & Htl & Hth & Hab & Hth2).
  destruct (overflowing_add_ok l tl Hl Htl) as (s & o & -> & Hs & Hso).
  pose proof B_val as HB. assert (0 <= Z.b2z o <= 1) as Ho by (destruct o; cbn; lia).
  rewrite add_ok by (rewrite in_u64_B in *; lia). run.
  destruct (overflowing_add_ok h (th + Z.b2z o) Hh) as (s' & o' & -> & Hs' & Hso'); [rewrite in_u64_B in *; lia|].
  assert (0 <= Z.b2z o' <= 1) as Ho' by (destruct o'; cbn; lia). cbn [v3] in Hv.
  rewrite !in_u64_B in *. assert (c + Z.b2z o' < B) as Hcb by nia.
  rewrite add_ok by (rewrite in_u64_B; lia). run. eexists. split; [done|]. cbn [wf3 v3]. rewrite !in_u64_B. split; [lia|]. nia.
Qed.

Lemma mulnadd3_ok {E} c0 c1 d n :
  in_u 64 c0 -> in_u 64 c1 -> wf3 d -> in_u 64 n -> c0 + B * c1 + n * v3 d < B * B * B ->
  exists acc, mulnadd3 (E := E) c0 c1 d n = Ok acc /\ wf3 acc /\ v3 acc = c0 + B * c1 + n * v3 d.
Proof.
  destruct d as [[d0 d1] d2]. intros H0 H1 (D0 & D1 & D2) Hn Hv. cbn [v3] in Hv. unfold mulnadd3. pose proof B_val as HB.
  rewrite !in_u64_B in *.
  rewrite (mul_ok 128 d0) by (rewrite in_u128_B; nia). run. rewrite add_ok by (rewrite in_u128_B; nia). run.
  rewrite Z.shiftr_div_pow2, <-B_pow by lia.
  set (t0 := d0 * n + c0). assert (0 <= t0 <= (B - 1) * B) as Ht0 by (unfold t0; nia).
  pose proof (Z.div_mod t0 B) as Hd0. pose proof (Z.mod_pos_bound t0 B) as Hm0.
  assert (0 <= t0 / B <= B - 1) as Hq0 by (split; [apply Z.div_pos; lia|apply Z.lt_succ_r, Z.div_lt_upper_bound; lia]).
  rewrite (mul_ok 128 d1) by (rewrite in_u128_B; nia). run. rewrite add_ok by (rewrite in_u128_B; nia). run.
  rewrite add_ok by (rewrite in_u128_B; nia). run.
  set (t1 := t0 / B + (d1 * n + c1)). assert (0 <= t1 <= B * B - 1) as Ht1 by (unfold t1; nia).
  rewrite Z.shiftr_div_pow2, <-B_pow by lia.
  pose proof (Z.div_mod t1 B) as Hd1. pose proof (Z.mod_pos_bound t1 B) as Hm1.
  assert (0 <= t1 / B <= B - 1) as Hq1 by (split; [apply Z.div_pos; lia|apply Z.lt_succ_r, Z.div_lt_upper_bound; lia]).
  assert (c0 + B * c1 + n * (d0 + B * (d1 + B * d2)) = t0 mod B + B * (t1 mod B + B * (t1 / B + n * d2))) as Heq.
  { unfold t1 in *. unfold t0 in *. nia. }
  assert (t1 / B + n * d2 < B) as Hc2 by nia.
  rewrite (mul_ok 64 d2) by (rewrite in_u64_B; nia). run. rewrite (Z.mod_small (t1 / B)) by lia.
  rewrite add_ok by (rewrite in_u64_B; nia). run. eexists. split; [done|]. cbn [wf3 v3]. rewrite !in_u64_B.
  split; [|rewrite Heq; lia]. nia.
Qed.

Lemma muln2_ok {E} l h n :
  in_u 64 l -> in_u 64 h -> in_u 64 n -> (l + B * h) * n < B * B ->
  exists l' h', muln2 (E := E) l h n = Ok (l', h') /\ in_u 64 l' /\ in_u 64 h' /\ l' + B * h' = (l + B * h) * n.
Proof.
  rewrite !in_u64_B. intros Hl Hh Hn Hv. pose proof B_val as HB. unfold muln2. rewrite (mul_ok 128 l) by (rewrite in_u128_B; nia). run.
  rewrite Z.shiftr_div_pow2, <-B_pow by lia. pose proof (Z.div_mod (l * n) B) as Hd. pose proof (Z.mod_pos_bound (l * n) B) as Hm.
  assert (0 <= l * n / B) by (apply Z.div_pos; nia).
  assert (l * n / B + h * n < B) as Hlt by nia.
  rewrite (mul_ok 128 h) by (rewrite in_u128_B; nia). run. rewrite add_ok by (rewrite in_u128_B; nia). run.
  rewrite (Z.mod_small (l * n / B + h * n)) by nia. do 2 eexists. split; [done|]. rewrite !in_u64_B. split; [lia|]. split; [nia|]. nia.
Qed.

(** ** Ripples and reductions *)
Lemma ripple_ok n l h a :
  wf n a -> in_u 64 l -> in_u 64 h ->
  exists r l' h', ripple l h a = (r, (l', h')) /\ wf n r /\ in_u 64 l' /\ in_u 64 h' /\
    uval r + M n * (l' + B * h') = uval a + l + B * h.
Proof.
  revert l h a. induction n as [|n IH]; intros l h a Ha Hl Hh.
  - apply wf_nil in Ha as ->. exists [], l, h. rewrite M_0. cbn [ripple]. split; [done|]. split; [by apply wf_nil|]. split; [done|]. split; [done|]. cbn. lia.
  - apply wf_S in Ha as (x & a' & -> & Hx & Ha). cbn [ripple].
    destruct (overflowing_add_ok l x Hl Hx) as (s & o & -> & Hs & Hso).
    destruct (overflowing_add_ok h (Z.b2z o) Hh) as (s' & o' & -> & Hs' & Hso'); [destruct o; done|].
    destruct (IH s' (Z.b2z o') a' Ha Hs') as (r & l' & h' & -> & Hr & Hl' & Hh' & He); [destruct o'; done|].
    do 3 eexists. split; [done|]. split; [by apply wf_cons|]. split; [done|]. split; [done|].
    rewrite !uval_cons, M_S. nia.
Qed.

Lemma diff_in : in_u 64 PRIME_DIFF.
Proof. done. Qed.

Lemma full_reduce_ok n a :
  wf n a -> wf n (full_reduce a) /\ uval (full_reduce a) = (uval a + PRIME_DIFF) mod M n.
Proof.
  intros Ha. unfold full_reduce. destruct (ripple_ok n PRIME_DIFF 0 a Ha diff_in) as (r & l' & h' & -> & Hr & _ & _ & He); [done|].
  split; [done|]. cbn [fst]. pose proof (uval_bound n r Hr). rewrite Z.mul_0_r, Z.add_0_r in He. rewrite <-He.
  rewrite Z.add_comm, Z.mul_comm, Z.add_comm, Z_mod_plus_full. by rewrite Z.mod_small.
Qed.

Lemma all_max n a : wf n a -> forallb (fun x => x =? B - 1) a = true <-> uval a = M n - 1.
Proof.
  revert a. induction n as [|n IH]; intros a Ha.
  - apply wf_nil in Ha as ->. rewrite M_0. cbn. split; [lia|done].
  - apply wf_S in Ha as (x & a' & -> & Hx & Ha). cbn [forallb]. rewrite andb_true_iff, (IH a' Ha), uval_cons, M_S.
    pose proof (uval_bound n a' Ha). rewrite in_u64_B in Hx. pose proof B_val. split; nia.
Qed.

(** [is_overflow]: the number is at least the modulus. *)
Lemma is_overflow_ok n a : wf (S n) a -> is_overflow a = (P (S n) <=? uval a).
Proof.
  intros Ha. apply wf_S in Ha as (x & a' & -> & Hx & Ha). unfold is_overflow, P, limb. cbn [lookup list_lookup default from_option id drop]. rewrite drop_0.
  pose proof (uval_bound n a' Ha). rewrite uval_cons, M_S. pose proof B_val. rewrite in_u64_B in Hx.
  pose proof (all_max n a' Ha) as Hall. unfold PRIME_DIFF in *.
  destruct (Z.leb_spec x (B - 1 - 1103717)).
  - symmetry. apply Z.leb_gt. nia.
  - destruct (forallb _ a').
    + symmetry. apply Z.leb_le. rewrite (proj1 Hall eq_refl). nia.
    + symmetry. apply Z.leb_gt. assert (uval a' <> M n - 1) by (intros E; apply Hall in E; done). nia.
Qed.

(** ** Columns of the product *)

(** The part of column [k] with the indices [l] on the left. *)
Definition dot (a b : Uint) (k : nat) (l : list nat) : Z :=
  foldr (fun i s => limb a i * limb b (k - i) + s) 0 l.

Definition conv (a b : Uint) (k : nat) : Z := dot a b k (seq 0 (S k)).

Fixpoint series (f : nat -> Z) (m : nat) : Z :=
  match m with O => 0 | S m => series f m + f m * M m end.

Lemma dot_cons a b k i l : dot a b k (i :: l) = limb a i * limb b (k - i) + dot a b k l.
Proof. done. Qed.

Lemma dot_app a b k l l' : dot a b k (l ++ l') = dot a b k l + dot a b k l'.
Proof. induction l as [|i l IH]; [done|]. cbn [app]. rewrite !dot_cons, IH. lia. Qed.

Lemma dot_zero a b k l : (forall i, i ∈ l -> limb a i * limb b (k - i) = 0) -> dot a b k l = 0.
Proof. induction l as [|i l IH]; intros H; [done|]. rewrite dot_cons, H, IH; [done| |left]. intros; apply H. by right. Qed.

Lemma dot_bounds n a b k l : wf n a -> wf n b -> 0 <= dot a b k l <= Z.of_nat (length l) * (B * B).
Proof.
  intros Ha Hb. induction l as [|i l IH]; [cbn; lia|]. rewrite dot_cons. cbn [length].
  pose proof (limb_in n a i Ha) as H1. pose proof (limb_in n b (k - i) Hb) as H2. rewrite in_u64_B in H1, H2. nia.
Qed.

Lemma conv_cons x a b k : conv (x :: a) b k = x * limb b k + (match k with O => 0 | S k => conv a b k end).
Proof.
  unfold conv. cbn [seq]. rewrite dot_cons, Nat.sub_0_r. f_equal. destruct k as [|k]; [done|].
  rewrite <-seq_shift. unfold dot. rewrite foldr_fmap. apply foldr_ext; [|done|done]. intros i s. by rewrite limb_S.
Qed.

Lemma series_ext f g m : (forall k, (k < m)%nat -> f k = g k) -> series f m = series g m.
Proof. induction m as [|m IH]; intros H; cbn; [done|]. rewrite IH, H by (intros; auto with lia). done. Qed.

Lemma series_add f g m : series (fun k => f k + g k) m = series f m + series g m.
Proof. induction m as [|m IH]; cbn; [done|]. rewrite IH. lia. Qed.

Lemma series_scale c f m : series (fun k => c * f k) m = c * series f m.
Proof. induction m as [|m IH]; cbn; [lia|]. rewrite IH. lia. Qed.

Lemma series_S f m : series f (S m) = f 0%nat + B * series (fun k => f (S k)) m.
Proof.
  induction m as [|m IH]; [cbn; rewrite M_0; lia|]. cbn [series] in IH |- *. rewrite IH, !M_S. lia.
Qed.

Lemma series_split f n m : series f (n + m) = series f n + M n * series (fun k => f (n + k)%nat) m.
Proof.
  induction m as [|m IH]; [rewrite Nat.add_0_r; cbn; lia|]. rewrite Nat.add_succ_r. cbn [series]. rewrite IH.
  replace (M (n + m)) with (M n * M m); [lia|]. unfold M, BITS. rewrite <-Z.pow_add_r by lia. f_equal. lia.
Qed.

Lemma series_limb n a m : wf n a -> (n <= m)%nat -> series (limb a) m = uval a.
Proof.
  revert a n. induction m as [|m IH]; intros a n Ha Hm.
  - assert (n = 0%nat) as -> by lia. apply wf_nil in Ha as ->. done.
  - rewrite series_S. destruct n as [|n].
    + pose proof Ha as Ha'. apply wf_nil in Ha as ->. rewrite (series_ext _ (limb [])) by done. rewrite (IH [] 0%nat) by (done || lia). cbn. lia.
    + apply wf_S in Ha as (x & a' & -> & Hx & Ha). rewrite (series_ext _ (limb a')) by (intros; apply limb_S).
      rewrite (IH a' n) by (done || lia). done.
Qed.

Lemma series_0 m : series (fun _ => 0) m = 0.
Proof. induction m as [|m IH]; cbn; lia. Qed.

Lemma series_conv p n a b m : wf p a -> wf n b -> (p + n <= m)%nat -> series (conv a b) m = uval a * uval b.
Proof.
  intros Ha Hb. revert a m Ha. induction p as [|p IH]; intros a m Ha Hm.
  - apply wf_nil in Ha as ->. rewrite (series_ext _ (fun _ => 0)); [by rewrite series_0|].
    intros k _. apply dot_zero. intros i _. done.
  - apply wf_S in Ha as (x & a' & -> & Hx & Ha). destruct m as [|m]; [lia|].
    rewrite (series_ext _ (fun k => x * limb b k + match k with O => 0 | S k => conv a' b k end)) by (intros; apply conv_cons).
    rewrite series_add, series_scale, (series_limb n) by (done || lia). rewrite series_S, uval_cons.
    rewrite (IH a') by (done || lia). lia.
Qed.

Lemma dot_seq_split a b k i j m : dot a b k (seq i (j + m)) = dot a b k (seq i j) + dot a b k (seq (i + j) m).
Proof. by rewrite seq_app, dot_app. Qed.

(** The high columns have their two indices below the length only. *)
Lemma conv_high n a b j : wf n a -> wf n b -> (j < n)%nat ->
  conv a b (n + j) = dot a b (n + j) (seq (S j) (n - S j)).
Proof.
  intros Ha Hb Hj. unfold conv. replace (S (n + j)) with (S j + (n - S j + S j))%nat by lia.
  rewrite !dot_seq_split. rewrite (dot_zero a b _ (seq 0 (S j))), (dot_zero a b _ (seq (0 + S j + (n - S j)) (S j))); [cbn [Nat.add]; lia| |].
  - intros i Hi%elem_of_seq. rewrite (limb_ge n a i) by (done || lia). done.
  - intros i Hi%elem_of_seq. rewrite (limb_ge n b) by (done || lia). lia.
Qed.

Lemma conv_last n a b : wf n a -> wf n b -> (0 < n)%nat -> conv a b (n + (n - 1)) = 0.
Proof. intros Ha Hb Hn. rewrite (conv_high n) by (done || lia). by replace (n - S (n - 1))%nat with 0%nat by lia. Qed.

Section columns.
Context {E : Type} (n : nat) (a b : Uint) (Ha : wf n a) (Hb : wf n b) (Hn : (3 <= n <= 48)%nat).

Lemma muladd_loop k l acc :
  wf3 acc -> v3 acc + dot a b k l < B * B * B ->
  exists acc', foldM (fun acc i => muladd3 (E := E) (limb a i) (limb b (k - i)) acc) acc l = Ok acc' /\
    wf3 acc' /\ v3 acc' = v3 acc + dot a b k l.
Proof.
  revert acc. induction l as [|i l IH]; intros acc Hacc Hv; cbn [foldM] in *.
  - exists acc. split_and!; [done..|cbn; lia].
  - rewrite dot_cons in *. pose proof (dot_bounds n a b k l Ha Hb).
    destruct (muladd3_ok (E := E) (limb a i) (limb b (k - i)) acc) as (acc' & -> & Hacc' & Hv');
      [by eapply limb_in..|done|lia|].
    run. destruct (IH acc' Hacc') as (acc2 & -> & ? & ?); [lia|]. exists acc2. split_and!; [done..|lia].
Qed.

Lemma wf3_bound acc : wf3 acc -> 0 <= v3 acc.
Proof. destruct acc as [[l h] c]. cbn. rewrite !in_u64_B. pose proof B_val. nia. Qed.

Lemma conv_bounds k : (k < n)%nat -> 0 <= conv a b k <= 48 * (B * B).
Proof.
  intros Hk. pose proof (dot_bounds n a b k (seq 0 (S k)) Ha Hb) as H. rewrite length_seq in H. unfold conv. pose proof B_val. nia.
Qed.

Lemma high_bounds j : (j < n)%nat -> 0 <= conv a b (n + j) <= 48 * (B * B).
Proof.
  intros Hj. rewrite (conv_high n) by done. pose proof (dot_bounds n a b (n + j) (seq (S j) (n - S j)) Ha Hb) as H.
  rewrite length_seq in H. pose proof B_val. nia.
Qed.

Lemma high_column_ok j : (j < n - 1)%nat ->
  exists d, high_column (E := E) n j a b = Ok d /\ wf3 d /\ v3 d = conv a b (n + j).
Proof.
  intros Hj. pose proof (high_bounds j) as Hbd. rewrite (conv_high n) in * by (done || lia).
  unfold high_column. replace (n - S j)%nat with (S (n - (2 + j))) in * by lia. cbn [seq] in *.
  rewrite dot_cons in *. change (S (S j)) with (2 + j)%nat in *. replace (n + j - (1 + j))%nat with (n + j - S j)%nat by lia.
  replace (j + 1)%nat with (S j) by lia.
  destruct (mul_wide_ok (limb a (S j)) (limb b (n + j - S j))) as (l & h & -> & Hl & Hh & Hlh & _); [by eapply limb_in..|].
  pose proof B_val as HB.
  destruct (muladd_loop (n + j) (seq (2 + j) (n - (2 + j))) (l, h, 0)) as (d & -> & Hd & Hv).
  - cbn. split_and!; [done..|]. by rewrite in_u64_B.
  - cbn [v3]. specialize (Hbd ltac:(lia)). nia.
  - exists d. split_and!; [done..|]. rewrite Hv. cbn [v3]. lia.
Qed.

Lemma low_column_ok j acc : (j < n)%nat -> wf3 acc -> v3 acc + conv a b j < B * B * B ->
  exists acc', low_column (E := E) j a b acc = Ok acc' /\ wf3 acc' /\ v3 acc' = v3 acc + conv a b j.
Proof.
  intros Hj Hacc Hv. unfold low_column. rewrite Nat.add_1_r. by apply muladd_loop.
Qed.
End columns.

(** ** The loop over the columns *)
Lemma one_ok n : (0 < n)%nat -> wf n (one n) /\ uval (one n) = 1.
Proof. intros Hn. destruct n as [|m]; [lia|]. by apply from_u64_ok. Qed.

Lemma uval_take_insert n tmp j x : wf n tmp -> in_u 64 x -> (j < n)%nat ->
  wf n (<[j := x]> tmp) /\ uval (take (S j) (<[j := x]> tmp)) = uval (take j tmp) + M j * x.
Proof.
  intros [Hl Hf] Hx Hj. split.
  - split; [by rewrite length_insert|]. by apply Forall_insert.
  - rewrite (take_S_r _ _ x) by (apply list_lookup_insert_eq; lia). rewrite take_insert_ge by lia.
    rewrite uval_app, length_take, Nat.min_l by lia. cbn. lia.
Qed.

Section loop.
Context {E : Type} (n : nat) (a b : Uint) (Ha : wf n a) (Hb : wf n b) (Hn : (3 <= n <= 48)%nat).

Definition folded (k : nat) : Z := conv a b k + PRIME_DIFF * conv a b (n + k).
Definition carry_max : Z := 2 * 48 * (1 + PRIME_DIFF) * B.

Definition column_inv (j : nat) (st : Uint * (Z * Z)) : Prop :=
  let '(tmp, (low, high)) := st in
  wf n tmp /\ in_u 64 low /\ in_u 64 high /\ low + B * high <= carry_max /\
  uval (take j tmp) + M j * (low + B * high) = series folded j.

Lemma mul_column_ok j st : (j < n - 1)%nat -> column_inv j st ->
  exists st', mul_column (E := E) n a b st j = Ok st' /\ column_inv (S j) st'.
Proof.
  destruct st as [tmp [low high]]. intros Hj (Htmp & Hlow & Hhigh & Hmax & Hsum). unfold mul_column.
  pose proof (conv_bounds n a b Ha Hb Hn j ltac:(lia)) as HL. pose proof (high_bounds n a b Ha Hb Hn j ltac:(lia)) as HH.
  destruct (high_column_ok (E := E) n a b Ha Hb Hn j Hj) as (d & -> & Hd & Hvd). run. unfold carry_max, PRIME_DIFF in *.
  pose proof B_val as HB. assert (0 <= low + B * high) as Hc by (rewrite in_u64_B in *; nia).
  destruct (mulnadd3_ok (E := E) low high d 1103717) as (acc & -> & Hacc & Hva); [done..|nia|]. run.
  destruct (low_column_ok (E := E) n a b Ha Hb Hn j acc) as ([[c0 c1] c2] & -> & (H0 & H1 & H2) & Hv); [lia|done|nia|]. run.
  eexists. split; [done|]. destruct (uval_take_insert n tmp j c0) as [Hw Hu]; [done..|lia|].
  cbn [column_inv]. unfold carry_max, PRIME_DIFF. split_and!; [done..| |].
  - cbn [v3] in Hv. rewrite in_u64_B in H0. nia.
  - rewrite Hu, M_S. cbn [series]. rewrite <-Hsum. unfold folded, PRIME_DIFF. cbn [v3] in Hv. nia.
Qed.

Lemma mul_columns_ok j : (j <= n - 1)%nat ->
  exists st, foldM (mul_column (E := E) n a b) (one n, (0, 0)) (seq 0 j) = Ok st /\ column_inv j st.
Proof.
  intros Hj.
  destruct (foldM_total (mul_column (E := E) n a b) (fun pre st => column_inv (length pre) st) (one n, (0, 0)) (seq 0 j))
    as (st & HF & HI).
  - split; [apply one_ok; lia|]. split; [done|]. split; [done|]. pose proof B_val. unfold carry_max, PRIME_DIFF. cbn [take uval foldr series length]. split; [lia|]. rewrite M_0. cbn. rewrite B_val. done.
  - intros pre i post st E0 HI. pose proof (f_equal length E0) as El. rewrite length_app, length_seq in El. cbn in El.
    assert (i = length pre) as ->.
    { assert (seq 0 j !! length pre = Some i) as Hi by (rewrite E0; by apply list_lookup_middle). apply lookup_seq in Hi. lia. }
    rewrite length_app, Nat.add_1_r. apply mul_column_ok; [lia|done].
  - rewrite length_seq in HI. eauto.
Qed.
End loop.

(** The reductions at the end leave the residue. *)
Lemma last_reductions n r (c T : Z) :
  (3 <= n)%nat -> wf n r -> c = 0 \/ c = 1 -> uval r + M n * c = T -> T < M n + B * B ->
  let r1 := if is_overflow r then full_reduce r else r in
  let r2 := if negb (c =? 0) then full_reduce r1 else r1 in
  wf n r2 /\ uval r2 = T mod P n.
Proof.
  intros Hn Hr Hc HT Hlt. pose proof (uval_bound n r Hr) as Hb. pose proof B_val as HB.
  assert (B * B * B <= M n) as HM.
  { destruct n as [|[|[|m]]]; [lia..|]. rewrite !M_S. pose proof (M_pos m). nia. }
  destruct (full_reduce_ok n r Hr) as [Hw1 Hu1]. destruct n as [|n]; [lia|]. rewrite (is_overflow_ok n r) by done.
  set (N := S n) in *. unfold P, PRIME_DIFF in *. cbv zeta. destruct Hc as [-> | ->]; cbn [Z.eqb negb].
  - destruct (Z.leb_spec (M N - 1103717) (uval r)).
    + split; [done|]. rewrite Hu1. rewrite <-(Z.mod_unique (uval r + 1103717) (M N) 1 (uval r + 1103717 - M N)) by lia.
      rewrite <-(Z.mod_unique T (M N - 1103717) 1 (uval r + 1103717 - M N)) by lia. done.
    + split; [done|]. rewrite Z.mod_small by lia. lia.
  - destruct (Z.leb_spec (M N - 1103717) (uval r)); [nia|]. split; [done|]. rewrite Hu1, Z.mod_small by nia.
    apply (Z.mod_unique _ _ 1); [left|]; nia.
Qed.

Lemma mul_mod {E} n a b : wf n a -> wf n b -> (3 <= n <= 48)%nat -> a <> one n ->
  exists r, U3072.mul (E := E) a b = Ok r /\ wf n r /\ uval r = (uval a * uval b) mod P n.
Proof.
  intros Ha Hb Hn Hone. unfold U3072.mul. rewrite (wf_length n a Ha), bool_decide_eq_false_2 by done.
  destruct (mul_columns_ok (E := E) n a b Ha Hb Hn (n - 1)) as ([tmp [low high]] & -> & Hinv); [done|]. run.
  destruct Hinv as (Htmp & Hlow & Hhigh & Hmax & Hsum). pose proof B_val as HB.
  pose proof (conv_bounds n a b Ha Hb Hn (n - 1) ltac:(lia)) as HL. unfold carry_max, PRIME_DIFF in Hmax.
  assert (0 <= low + B * high) as Hc0 by (rewrite in_u64_B in *; nia).
  destruct (low_column_ok (E := E) n a b Ha Hb Hn (n - 1) (low, high, 0)) as ([[c0 c1] c2] & -> & (H0 & H1 & H2) & Hv);
    [lia|by split_and!|cbn [v3]; nia|]. cbn [v3] in Hv. run.
  destruct (uval_take_insert n tmp (n - 1) c0) as [Hw Hu]; [done..|lia|].
  replace (S (n - 1)) with n in Hu by lia. rewrite take_ge in Hu by (rewrite (wf_length n) by done; done).
  set (tmp' := <[(n - 1)%nat := c0]> tmp) in *. set (C := c1 + B * c2).
  assert (0 <= C <= 2 * 48 * (1 + 1103717) * B) as HC by (unfold C; rewrite in_u64_B in *; nia).
  assert (uval tmp' + M n * C = series (folded n a b) n) as Hfull.
  { assert (forall f, series f n = series f (n - 1) + f (n - 1)%nat * M (n - 1)) as -> by (intros f; by replace n with (S (n - 1)) at 1 by lia).
    assert (M n = B * M (n - 1)) as -> by (rewrite <-M_S; f_equal; lia).
    unfold folded at 2. rewrite conv_last by (done || lia). rewrite <-Hsum, Hu. unfold C. nia. }
  assert (uval a * uval b = uval tmp' + PRIME_DIFF * C + P n * (C + series (fun k => conv a b (n + k)) n)) as Hprod.
  { rewrite <-(series_conv n n a b (n + n)) by (done || lia). rewrite series_split. unfold folded in Hfull.
    rewrite series_add, series_scale in Hfull. unfold P. nia. }
  destruct (muln2_ok (E := E) c1 c2 PRIME_DIFF) as (l & h & -> & Hl & Hh & Hlh); [done..|fold C; unfold PRIME_DIFF; nia|]. run.
  fold C in Hlh. destruct (ripple_ok n l h tmp' Hw Hl Hh) as (r & l' & h' & -> & Hr & Hl' & Hh' & HT).
  pose proof (uval_bound n tmp' Hw) as Hbt. pose proof (uval_bound n r Hr) as Hbr. unfold PRIME_DIFF in Hlh.
  assert (B * B <= M n) as HM.
  { destruct n as [|[|m]]; [lia..|]. rewrite !M_S. pose proof (M_pos m). nia. }
  rewrite !in_u64_B in *. assert (h' = 0 /\ (l' = 0 \/ l' = 1)) as [-> Hl01].
  { assert (l' + B * h' < 2) by nia. nia. }
  assert (((l' =? 0) || (l' =? 1)) = true) as -> by (destruct Hl01 as [-> | ->]; done). run. cbn [assert Z.eqb]. run.
  destruct (last_reductions n r l' (uval r + M n * l')) as [Hwf Huv]; [lia|done|done|done|nia|].
  eexists. split; [done|]. split; [exact Hwf|]. rewrite Huv, Hprod. unfold PRIME_DIFF.
  rewrite (Z.mul_comm (P n)), Z.mod_add by (unfold P, PRIME_DIFF; nia). f_equal. nia.
Qed.

(** ** Residues

    The rest of the development reads the words modulo the prime. *)
Definition cong (n : nat) (x y : Z) : Prop := exists k, x = y + k * P n.
Notation "x ≡[ n ] y" := (cong n x y) (at level 70, no associativity, format "x  ≡[ n ]  y") : Z_scope.

#[export] Instance cong_equivalence n : Equivalence (cong n).
Proof.
  split.
  - intros x. exists 0. lia.
  - intros x y [k ->]. exists (- k). lia.
  - intros x y z [k ->] [k' ->]. exists (k + k'). lia.
Qed.

#[export] Instance cong_mul n : Proper (cong n ==> cong n ==> cong n) Z.mul.
Proof. intros x x' [k ->] y y' [k' ->]. exists (x' * k' + k * y' + k * k' * P n). lia. Qed.

Lemma cong_mod n x : P n <> 0 -> x mod P n ≡[n] x.
Proof. intros HP. exists (- (x / P n)). pose proof (Z.div_mod x (P n) HP). lia. Qed.

Lemma cong_eq n x y : x ≡[n] y -> x mod P n = y mod P n.
Proof. intros [k ->]. apply Z_mod_plus_full. Qed.

Lemma mod_cong n x y : P n <> 0 -> x mod P n = y mod P n -> x ≡[n] y.
Proof. intros HP E0. by rewrite <-(cong_mod n x), E0, cong_mod. Qed.


Definition reduced_word (a : Uint) : Uint := if is_overflow a then full_reduce a else a.

(** A residue with an inverse.  The modulus is prime, so that every number but
    its multiples is one. *)
Definition unit (n : nat) (x : Z) : Prop := Z.gcd x (P n) = 1.

Lemma P_bounds n : (3 <= n)%nat -> 2 < P n < M n.
Proof.
  intros Hn. pose proof B_val. unfold P, PRIME_DIFF. destruct n as [|[|[|m]]]; [lia..|]. rewrite !M_S. pose proof (M_pos m). nia.
Qed.

Lemma reduced_word_ok n a : (3 <= n)%nat -> wf n a -> wf n (reduced_word a) /\ uval (reduced_word a) = uval a mod P n.
Proof.
  intros Hn Ha. pose proof (uval_bound n a Ha). pose proof B_val. apply (last_reductions n a 0 (uval a)); [done|done|by left|lia|nia].
Qed.

Lemma UINT_PRIME_ok n : (0 < n)%nat -> uval (UINT_PRIME n) = P n.
Proof.
  intros Hn. unfold UINT_PRIME. destruct n as [|n]; [lia|].
  assert (wf (S n) (MAX (S n))) as Hw.
  { split; [apply length_replicate|]. apply Forall_replicate. rewrite in_u64_B. pose proof B_val. lia. }
  assert (limb (MAX (S n)) 0 = B - 1) as Hl by done.
  destruct (uval_alter (S n) (MAX (S n)) 0 (fun x => x - (PRIME_DIFF - 1)) Hw) as [_ ->]; [lia| |].
  - rewrite Hl, in_u64_B. pose proof B_val. unfold PRIME_DIFF. lia.
  - rewrite uval_MAX, Hl, M_0. unfold P. lia.
Qed.

Lemma series_digits v n : 0 <= v -> series (fun i => Z.shiftr v (64 * Z.of_nat i) mod B) n = v mod M n.
Proof.
  intros Hv. induction n as [|n IH]; [cbn; by rewrite M_0, Z.mod_1_r|]. cbn [series]. rewrite IH, M_S, (Z.mul_comm B).
  rewrite Z.rem_mul_r by (pose proof (M_pos n); pose proof B_val; lia).
  rewrite Z.shiftr_div_pow2 by lia. change (2 ^ (64 * Z.of_nat n)) with (2 ^ (64 * Z.of_nat n)). unfold M, BITS. lia.
Qed.

Lemma from_natural_ok {E} n v : 0 <= v < M n -> exists r, from_natural (E := E) n v = Ok r /\ wf n r /\ uval r = v.
Proof.
  intros Hv. unfold from_natural. rewrite (proj2 (Z.ltb_lt v (M n))) by lia. eexists. split; [done|].
  set (f := fun i => Z.shiftr v (64 * Z.of_nat i) mod B).
  assert (wf n (f <$> seq 0 n)) as Hw.
  { split; [by rewrite length_fmap, length_seq|]. apply Forall_fmap, Forall_forall. intros i _. apply in_u64_B. cbn.
    apply Z.mod_pos_bound. pose proof B_val. lia. }
  split; [done|]. rewrite <-(series_limb n _ n Hw) by done.
  rewrite (series_ext _ f) by (intros; by apply limb_seq). unfold f. rewrite series_digits by lia. apply Z.mod_small. lia.
Qed.

Section residues.
Context `{Malachite} {E : Type} (n : nat) (Hn : (3 <= n <= 48)%nat).

Lemma mul_eqm a b : wf n a -> wf n b ->
  exists r, U3072.mul (E := E) a b = Ok r /\ wf n r /\ uval r ≡[n] uval a * uval b.
Proof.
  intros Ha Hb. destruct (decide (a = one n)) as [->|Hne].
  - exists b. unfold U3072.mul. destruct (one_ok n) as [Hw Hu]; [lia|]. rewrite (wf_length n _ Hw), bool_decide_eq_true_2 by done.
    split_and!; [done..|]. by rewrite Hu, Z.mul_1_l.
  - destruct (mul_mod (E := E) n a b Ha Hb Hn Hne) as (r & -> & Hr & Hu). exists r. split_and!; [done..|].
    rewrite Hu. apply cong_mod. pose proof (P_bounds n). lia.
Qed.

Lemma unit_mod x : unit n (x mod P n) <-> unit n x.
Proof. unfold unit. rewrite Z.gcd_mod by (pose proof (P_bounds n); lia). by rewrite Z.gcd_comm. Qed.

Lemma inverse_ok a : wf n a -> unit n (uval a) ->
  exists r, inverse (E := E) a = Ok r /\ wf n r /\ uval r < P n /\ uval a * uval r ≡[n] 1.
Proof.
  intros Ha Hu. unfold inverse. fold (reduced_word a). destruct (reduced_word_ok n a) as [Hw He]; [lia|done|].
  apply unit_mod in Hu. rewrite <-He in Hu. pose proof (P_bounds n ltac:(lia)) as HP.
  rewrite (wf_length n _ Hw). rewrite bool_decide_eq_false_2.
  2: { intros E0. unfold unit in Hu. rewrite E0, uval_ZERO, Z.gcd_0_l in Hu. lia. }
  unfold mod_inverse. rewrite (wf_length n _ Hw), UINT_PRIME_ok by lia.
  pose proof (Z.mod_pos_bound (uval a) (P n)) as Hb. rewrite <-He in Hb.
  assert (uval (reduced_word a) <> 0) as Hnz by (intros E0; unfold unit in Hu; rewrite E0, Z.gcd_0_l in Hu; lia).
  destruct (natural_mod_inverse_some (uval (reduced_word a)) (P n)) as (y & -> & Hy & Hxy); [lia|done|].
  destruct (from_natural_ok (E := E) n y) as (r & -> & Hr & Hv); [lia|]. run. eexists. split; [done|]. split; [done|].
  rewrite Hv. split; [lia|]. rewrite <-(cong_mod n (uval a)), <-He by lia. by apply mod_cong; [lia|].
Qed.

Lemma reduced_word_idem a : wf n a -> reduced_word (reduced_word a) = reduced_word a.
Proof.
  intros Ha. destruct (reduced_word_ok n a) as [Hw He]; [lia|done|]. destruct (reduced_word_ok n _ ltac:(lia) Hw) as [Hw2 He2].
  apply (uval_inj n); [done..|]. rewrite He2, He. apply Z.mod_mod. pose proof (P_bounds n). lia.
Qed.

Lemma inverse_reduced a : wf n a -> (if is_overflow a then inverse (E := E) (full_reduce a) else inverse a) = inverse (reduced_word a).
Proof. intros Ha. unfold reduced_word. by destruct (is_overflow a). Qed.

Lemma field_div_ok a b : wf n a -> wf n b -> unit n (uval b) ->
  exists r, U3072.div (E := E) a b = Ok r /\ wf n r /\ 0 <= uval r < P n /\ uval r * uval b ≡[n] uval a.
Proof.
  intros Ha Hb Hu. unfold U3072.div. rewrite inverse_reduced by done. pose proof (P_bounds n ltac:(lia)) as HP.
  destruct (reduced_word_ok n b) as [Hwb Heb]; [lia|done|]. apply unit_mod in Hu. rewrite <-Heb in Hu.
  destruct (inverse_ok _ Hwb Hu) as (inv & -> & Hi & _ & Hinv). run. fold (reduced_word a).
  destruct (reduced_word_ok n a) as [Hwa Hea]; [lia|done|].
  destruct (mul_eqm _ _ Hwa Hi) as (r & -> & Hr & He). run. fold (reduced_word r).
  destruct (reduced_word_ok n r) as [Hwr Her]; [lia|done|]. eexists. split; [done|]. split; [done|].
  split; [rewrite Her; apply Z.mod_pos_bound; lia|].
  assert (forall x, x mod P n ≡[n] x) as Hmod by (intros x; apply cong_mod; lia).
  rewrite Her, Hmod, He, Hea, Hmod. rewrite Heb, Hmod in Hinv. rewrite <-Z.mul_assoc, (Z.mul_comm (uval inv)), Hinv. by rewrite Z.mul_1_r.
Qed.
End residues.
