(* ===== verification/MuHash.v ===== *)
(** * MuHash, the multiset hash

    [crypto/muhash/src/lib.rs]: a fraction of two numbers of the field
    [U3072.v].  Adding an element multiplies the numerator, removing one
    multiplies the denominator; [finalize] divides, keeps the normalized fraction
    and hashes it.  An element is the stream of ChaCha20 seeded with the hash of
    the data; the cipher is the class [ChaCha20].

    What a MuHash commits to: the multiset of the elements added, less those
    removed, whatever the order of the operations, the grouping of [combine] and
    the points at which the fraction was normalized. *)
From Stdlib Require Import Znumtheory.
From S2P Require Import Prelude Bytes Tx Hashing Math MathArith U3072.
From stdpp Require Import base list.
#[local] Open Scope Z_scope.

(** [ChaCha20Rng::from_seed(seed).fill_bytes(buf)] on a buffer of [n] bytes. *)
Class ChaCha20 := {
  chacha20_fill : list Z -> nat -> list Z;
  chacha20_fill_ok : forall seed n, length (chacha20_fill seed n) = n /\ Forall is_byte (chacha20_fill seed n)
}.

Definition HASH_SIZE : nat := 32.
Definition SERIALIZED_MUHASH_SIZE : nat := ELEMENT_BYTE_SIZE.

Record MuHash := mkMuHash { numerator : Uint.Uint; denominator : Uint.Uint }.

Inductive OverflowError := MuHashOverflow.

Definition MuHash_new : MuHash := mkMuHash (one LIMBS) (one LIMBS).

Section muhash.
Context `{Hashers, ChaCha20, Malachite} {E : Type}.

Definition data_to_element (data : list Z) : Uint.Uint :=
  let hash := finalize MuHashElementHash data in
  U3072_from_le_bytes (chacha20_fill (hash_bytes hash) ELEMENT_BYTE_SIZE).

Definition add_element (m : MuHash) (data : list Z) : outcome E MuHash :=
  x ← U3072.mul (numerator m) (data_to_element data); Ok (mkMuHash x (denominator m)).

Definition remove_element (m : MuHash) (data : list Z) : outcome E MuHash :=
  x ← U3072.mul (denominator m) (data_to_element data); Ok (mkMuHash (numerator m) x).

Definition MuHash_combine (m other : MuHash) : outcome E MuHash :=
  x ← U3072.mul (numerator m) (numerator other);
  y ← U3072.mul (denominator m) (denominator other);
  Ok (mkMuHash x y).

Definition normalize (m : MuHash) : outcome E MuHash :=
  x ← U3072.div (numerator m) (denominator m); Ok (mkMuHash x (one LIMBS)).

(** The bytes and the fraction left behind. *)
Definition MuHash_serialize (m : MuHash) : outcome E (list Z * MuHash) :=
  m ← normalize m; Ok (U3072_to_le_bytes (numerator m), m).

Definition MuHash_finalize (m : MuHash) : outcome E (Hash * MuHash) :=
  '(serialized, m) ← MuHash_serialize m; Ok (finalize MuHashFinalizeHash serialized, m).
End muhash.

Definition MuHash_deserialize (data : list Z) : outcome OverflowError MuHash :=
  let numerator := U3072_from_le_bytes data in
  if is_overflow numerator then Err MuHashOverflow else Ok (mkMuHash numerator (one LIMBS)).

(** ** Sharing the work

    [MuHashElementBuilder] collects what is written and does what [add_element]
    or [remove_element] does on [finalize].  A parallel [reduce] of rayon
    combines the items in their order, grouped in any way, with any number of
    identities among them: a tree. *)
Inductive reduction (A : Type) := Identity | Item (x : A) | Joined (l r : reduction A).
Arguments Identity {A}. Arguments Item {A} _. Arguments Joined {A} _ _.

Fixpoint reduced {A} (t : reduction A) : list A :=
  match t with Identity => [] | Item x => [x] | Joined l r => reduced l ++ reduced r end.

Fixpoint reduce {A E} (item : A -> outcome E MuHash) (t : reduction A) : outcome E MuHash :=
  match t with
  | Identity => Ok MuHash_new
  | Item x => item x
  | Joined l r => a ← reduce item l; b ← reduce item r; MuHash_combine a b
  end.

Import Uint.

#[local] Opaque B.

Lemma limbs_ok : (3 <= LIMBS <= 48)%nat.
Proof. unfold LIMBS. lia. Qed.

Lemma PL_bounds : 2 < P LIMBS < M LIMBS.
Proof. apply P_bounds, limbs_ok. Qed.

#[local] Opaque LIMBS.

(** ** Bytes *)
Lemma chunks8_ok n bs : length bs = (8 * n)%nat -> Forall is_byte bs -> Forall (fun c => length c = 8%nat /\ Forall is_byte c) (chunks8 n bs).
Proof.
  revert bs. induction n as [|n IH]; intros bs Hl Hb; cbn [chunks8]; constructor.
  - rewrite length_take, Nat.min_l by lia. split; [done|]. by apply Forall_take.
  - apply IH; [rewrite length_drop; lia|]. by apply Forall_drop.
Qed.

Lemma length_chunks8 n bs : length (chunks8 n bs) = n.
Proof. revert bs. induction n as [|n IH]; intros bs; cbn; [done|]. by rewrite IH. Qed.

Lemma from_le_bytes_wf n bs : length bs = (8 * n)%nat -> Forall is_byte bs -> wf n (from_le_bytes n bs).
Proof.
  intros Hl Hb. unfold from_le_bytes. split; [by rewrite length_fmap, length_chunks8|].
  apply Forall_fmap. eapply Forall_impl; [by apply chunks8_ok|]. intros c [Hc Hcb]. cbn. pose proof (of_le_bound c Hcb) as H.
  rewrite Hc in H. exact H.
Qed.

Lemma from_to_le_bytes n a : wf n a -> from_le_bytes n (to_le_bytes a) = a.
Proof.
  revert a. induction n as [|n IH]; intros a Ha; [by apply wf_nil in Ha as ->|].
  apply wf_S in Ha as (x & a' & -> & Hx & Ha). unfold from_le_bytes, to_le_bytes in *. cbn [mbind list_bind chunks8 fmap list_fmap].
  rewrite take_app_length', drop_app_length' by (by rewrite length_le_bytes). rewrite of_le_le by exact Hx. f_equal. by apply IH.
Qed.

(** ** Units *)
Lemma unit_mul x y : unit LIMBS x -> unit LIMBS y -> unit LIMBS (x * y).
Proof.
  unfold unit. rewrite !Zgcd_1_rel_prime. intros Hx Hy. apply rel_prime_sym, rel_prime_mult; by apply rel_prime_sym.
Qed.

Lemma unit_cong x y : x ≡[LIMBS] y -> unit LIMBS x -> unit LIMBS y.
Proof. intros E0%cong_eq. rewrite <-(unit_mod LIMBS limbs_ok x), E0. apply unit_mod, limbs_ok. Qed.

Lemma unit_1 : unit LIMBS 1.
Proof. unfold unit. by rewrite Z.gcd_1_l. Qed.

Lemma cong_cancel u x y : unit LIMBS u -> x * u ≡[LIMBS] y * u -> x ≡[LIMBS] y.
Proof.
  unfold unit. rewrite Zgcd_1_rel_prime. intros Hu [k Hk].
  assert (P LIMBS | u * (x - y)) as Hd by (exists k; lia).
  apply Gauss in Hd as [j Hj]; [|by apply rel_prime_sym]. exists j. lia.
Qed.

Section multiset.
Context `{Hashers, ChaCha20, Malachite} {E : Type}.

(** ** Elements *)
Definition elem (data : list Z) : Z := uval (data_to_element data).
Definition prod (l : list (list Z)) : Z := foldr (fun d v => elem d * v) 1 l.
Definition unit_data (data : list Z) : Prop := unit LIMBS (elem data).

Lemma element_wf data : wf LIMBS (data_to_element data).
Proof. apply from_le_bytes_wf; apply chacha20_fill_ok. Qed.

Lemma prod_cons d l : prod (d :: l) = elem d * prod l.
Proof. done. Qed.

Lemma prod_app l l' : prod (l ++ l') = prod l * prod l'.
Proof. induction l as [|d l IH]; [by rewrite Z.mul_1_l|]. cbn [app]. rewrite !prod_cons, IH. lia. Qed.

Lemma prod_perm l l' : l ≡ₚ l' -> prod l = prod l'.
Proof. induction 1; rewrite ?prod_cons; lia. Qed.

Lemma prod_unit l : Forall unit_data l -> unit LIMBS (prod l).
Proof. induction 1; [apply unit_1|]. rewrite prod_cons. by apply unit_mul. Qed.

(** ** Fractions

    A MuHash whose fraction is [a] over [r]. *)
Record ratio (m : MuHash) (a r : Z) : Prop := {
  fr_num : wf LIMBS (numerator m);
  fr_den : wf LIMBS (denominator m);
  fr_num_unit : unit LIMBS (uval (numerator m));
  fr_den_unit : unit LIMBS (uval (denominator m));
  fr_value : uval (numerator m) * r ≡[LIMBS] uval (denominator m) * a;
}.

(** The fraction of a MuHash to which [A] was added and from which [R] was
    removed. *)
Definition fraction (m : MuHash) (A R : list (list Z)) : Prop := ratio m (prod A) (prod R).

Lemma one_unit : wf LIMBS (one LIMBS) /\ uval (one LIMBS) = 1 /\ unit LIMBS (uval (one LIMBS)).
Proof. destruct (one_ok LIMBS) as [Hw Hu]; [pose proof limbs_ok; lia|]. rewrite Hu. split_and!; [done..|apply unit_1]. Qed.

Lemma new_fraction : fraction MuHash_new [] [].
Proof. destruct one_unit as (? & ? & ?). by constructor. Qed.

Lemma mul_unit a b : wf LIMBS a -> wf LIMBS b -> unit LIMBS (uval a) -> unit LIMBS (uval b) ->
  exists r, U3072.mul (E := E) a b = Ok r /\ wf LIMBS r /\ unit LIMBS (uval r) /\ uval r ≡[LIMBS] uval a * uval b.
Proof.
  intros Ha Hb Hua Hub. destruct (mul_eqm (E := E) LIMBS limbs_ok a b Ha Hb) as (r & -> & Hr & He).
  exists r. split_and!; [done..| |done]. eapply unit_cong; [symmetry; exact He|]. by apply unit_mul.
Qed.

Lemma add_fraction m A R d : fraction m A R -> unit_data d ->
  exists m', add_element (E := E) m d = Ok m' /\ fraction m' (d :: A) R.
Proof.
  intros [Hn Hd Hun Hud Hv] Hu. unfold add_element.
  destruct (mul_unit (numerator m) (data_to_element d)) as (r & -> & Hr & Hur & He); [done|apply element_wf|done..|]. run.
  eexists. split; [done|]. constructor; cbn [numerator denominator]; [done..|].
  rewrite He, prod_cons. fold (elem d). rewrite (Z.mul_comm (elem d)), !Z.mul_assoc, <-Hv.
  by rewrite <-!Z.mul_assoc, (Z.mul_comm (elem d)).
Qed.

Lemma remove_fraction m A R d : fraction m A R -> unit_data d ->
  exists m', remove_element (E := E) m d = Ok m' /\ fraction m' A (d :: R).
Proof.
  intros [Hn Hd Hun Hud Hv] Hu. unfold remove_element.
  destruct (mul_unit (denominator m) (data_to_element d)) as (r & -> & Hr & Hur & He); [done|apply element_wf|done..|]. run.
  eexists. split; [done|]. constructor; cbn [numerator denominator]; [done..|].
  rewrite He, prod_cons. fold (elem d). rewrite (Z.mul_comm (elem d) (prod R)), !Z.mul_assoc, Hv.
  by rewrite <-!Z.mul_assoc, (Z.mul_comm (elem d)).
Qed.

Lemma combine_ratio m m' a a' r r' : ratio m a r -> ratio m' a' r' ->
  exists m2, MuHash_combine (E := E) m m' = Ok m2 /\ ratio m2 (a * a') (r * r').
Proof.
  intros [Hn Hd Hun Hud Hv] [Hn' Hd' Hun' Hud' Hv']. unfold MuHash_combine.
  destruct (mul_unit (numerator m) (numerator m')) as (x & -> & Hx & Hux & Hex); [done..|]. run.
  destruct (mul_unit (denominator m) (denominator m')) as (y & -> & Hy & Huy & Hey); [done..|]. run.
  eexists. split; [done|]. constructor; cbn [numerator denominator]; [done..|]. rewrite Hex, Hey.
  transitivity ((uval (numerator m) * r) * (uval (numerator m') * r')); [apply eq_subrelation; [apply _|lia]|].
  rewrite Hv, Hv'. apply eq_subrelation; [apply _|lia].
Qed.

Lemma combine_fraction m m' A A' R R' : fraction m A R -> fraction m' A' R' ->
  exists m2, MuHash_combine (E := E) m m' = Ok m2 /\ fraction m2 (A ++ A') (R ++ R').
Proof. unfold fraction. rewrite !prod_app. apply combine_ratio. Qed.

Definition normalized (m : MuHash) : Prop := denominator m = one LIMBS /\ 0 <= uval (numerator m) < P LIMBS.

Lemma normalize_ratio m a r : ratio m a r ->
  exists m', normalize (E := E) m = Ok m' /\ ratio m' a r /\ normalized m'.
Proof.
  intros [Hn Hd Hun Hud Hv]. unfold normalize.
  destruct (field_div_ok (E := E) LIMBS limbs_ok (numerator m) (denominator m)) as (x & -> & Hx & Hb & He); [done..|]. run.
  destruct one_unit as (Hw & Hu1 & Huu). eexists. split; [done|]. split; [|done].
  constructor; cbn [numerator denominator]; [done|done| |done|].
  - assert (unit LIMBS (uval x * uval (denominator m))) as Hm by (eapply unit_cong; [symmetry; exact He|done]).
    unfold unit in Hm |- *. rewrite Zgcd_1_rel_prime in *. eapply rel_prime_div; [exact Hm|]. apply Z.divide_factor_l.
  - rewrite Hu1, Z.mul_1_l. apply (cong_cancel (uval (denominator m))); [done|].
    rewrite <-Z.mul_assoc, (Z.mul_comm r), Z.mul_assoc, He, Hv, (Z.mul_comm a). done.
Qed.

(** The normalized fraction is the residue of the quotient. *)
Lemma normalized_unique m m' a r a' r' :
  ratio m a r -> ratio m' a' r' -> normalized m -> normalized m' ->
  unit LIMBS r -> unit LIMBS r' -> a * r' = a' * r -> m = m'.
Proof.
  intros [Hn _ _ _ Hv] [Hn' _ _ _ Hv'] [Hd Hb] [Hd' Hb'] HR HR' HP. destruct m as [x y], m' as [x' y']. cbn [numerator denominator] in *. subst.
  destruct one_unit as (_ & Hu1 & _). rewrite Hu1, !Z.mul_1_l in Hv, Hv'. f_equal. apply (uval_inj LIMBS); [done..|].
  rewrite <-(Z.mod_small (uval x) (P LIMBS)), <-(Z.mod_small (uval x') (P LIMBS)) by done. apply cong_eq.
  apply (cong_cancel (r * r')); [by apply unit_mul|].
  rewrite Z.mul_assoc, Hv, HP, (Z.mul_comm r), Z.mul_assoc, Hv'. done.
Qed.

(** [serialize] and [finalize] normalize; what is written reads back. *)
Lemma serialize_ratio m a r : ratio m a r ->
  exists bytes m', MuHash_serialize (E := E) m = Ok (bytes, m') /\ ratio m' a r /\ normalized m' /\
    bytes = U3072_to_le_bytes (numerator m') /\ MuHash_deserialize bytes = Ok m'.
Proof.
  intros Hf. unfold MuHash_serialize. destruct (normalize_ratio m a r Hf) as (m' & -> & Hf' & Hd & Hb). run.
  do 2 eexists. split; [done|]. split; [done|]. split; [done|]. split; [done|]. unfold MuHash_deserialize, U3072_from_le_bytes, U3072_to_le_bytes.
  rewrite from_to_le_bytes by apply Hf'. pose proof limbs_ok as HL. pose proof (fr_num _ _ _ Hf') as Hw.
  destruct LIMBS as [|n] eqn:EL; [lia|]. rewrite (is_overflow_ok n) by done. rewrite (proj2 (Z.leb_gt _ _)) by lia.
  destruct m' as [x y]. cbn [numerator denominator] in *. by subst.
Qed.

Lemma finalize_ratio m a r : ratio m a r ->
  exists m', MuHash_finalize (E := E) m = Ok (finalize MuHashFinalizeHash (U3072_to_le_bytes (numerator m')), m') /\
    ratio m' a r /\ normalized m'.
Proof.
  intros Hf. unfold MuHash_finalize. destruct (serialize_ratio m a r Hf) as (bs & m' & -> & Hf' & Hn & -> & _). run. eauto.
Qed.

(** Equal quotients have the same hash. *)
Lemma finalize_same_ratio m m' a r a' r' :
  ratio m a r -> ratio m' a' r' -> unit LIMBS r -> unit LIMBS r' -> a * r' = a' * r ->
  exists hash m2, MuHash_finalize (E := E) m = Ok (hash, m2) /\ MuHash_finalize (E := E) m' = Ok (hash, m2) /\
    ratio m2 a r /\ normalized m2.
Proof.
  intros Hf Hf' HR HR' HP. destruct (finalize_ratio m a r Hf) as (m2 & -> & Hf2 & Hn2).
  destruct (finalize_ratio m' a' r' Hf') as (m3 & -> & Hf3 & Hn3).
  assert (m2 = m3) as <- by (by eapply normalized_unique). eauto 6.
Qed.

Lemma finalize_same m m' A R A' R' :
  fraction m A R -> fraction m' A' R' -> Forall unit_data R -> Forall unit_data R' -> A ++ R' ≡ₚ A' ++ R ->
  exists hash m2, MuHash_finalize (E := E) m = Ok (hash, m2) /\ MuHash_finalize (E := E) m' = Ok (hash, m2) /\
    fraction m2 A R /\ normalized m2.
Proof.
  intros Hf Hf' HR HR' HP. eapply finalize_same_ratio; [done..|by apply prod_unit|by apply prod_unit|].
  rewrite <-!prod_app. by apply prod_perm.
Qed.

(** ** Histories

    The ways to come to a MuHash. *)
Inductive history :=
  | New
  | Added (h : history) (data : list Z)
  | Removed (h : history) (data : list Z)
  | Combined (h h' : history)
  | Finalized (h : history)
  | Reread (h : history).

Fixpoint added (h : history) : list (list Z) :=
  match h with
  | New => []
  | Added h d => d :: added h
  | Removed h _ | Finalized h | Reread h => added h
  | Combined h h' => added h ++ added h'
  end.

Fixpoint removed (h : history) : list (list Z) :=
  match h with
  | New => []
  | Removed h d => d :: removed h
  | Added h _ | Finalized h | Reread h => removed h
  | Combined h h' => removed h ++ removed h'
  end.

Fixpoint build (h : history) : outcome OverflowError MuHash :=
  match h with
  | New => Ok MuHash_new
  | Added h d => m ← build h; add_element m d
  | Removed h d => m ← build h; remove_element m d
  | Combined h h' => m ← build h; m' ← build h'; MuHash_combine m m'
  | Finalized h => m ← build h; '(_, m) ← MuHash_finalize m; Ok m
  | Reread h => m ← build h; '(bytes, _) ← MuHash_serialize m; MuHash_deserialize bytes
  end.
End multiset.

Section histories.
Context `{Hashers, ChaCha20, Malachite}.

Lemma build_fraction h : Forall unit_data (added h) -> Forall unit_data (removed h) ->
  exists m, build h = Ok m /\ fraction m (added h) (removed h).
Proof.
  induction h as [|h IH d|h IH d|h IH h' IH'|h IH|h IH]; cbn [added removed build]; intros HA HR.
  - exists MuHash_new. split; [done|apply new_fraction].
  - apply Forall_cons in HA as [Hd HA]. destruct IH as (m & -> & Hf); [done..|]. run. by apply add_fraction.
  - apply Forall_cons in HR as [Hd HR]. destruct IH as (m & -> & Hf); [done..|]. run. by apply remove_fraction.
  - apply Forall_app in HA as [HA HA'], HR as [HR HR']. destruct IH as (m & -> & Hf); [done..|]. run.
    destruct IH' as (m' & -> & Hf'); [done..|]. run. by apply combine_fraction.
  - destruct IH as (m & -> & Hf); [done..|]. run. destruct (finalize_ratio (E := OverflowError) m _ _ Hf) as (m' & -> & Hf' & _). run. eauto.
  - destruct IH as (m & -> & Hf); [done..|]. run.
    destruct (serialize_ratio (E := OverflowError) m _ _ Hf) as (bs & m' & -> & Hf' & _ & _ & Hd). run. eauto.
Qed.

(** C11: MuHash is a hash of multisets.  Two MuHashes built by any operations,
    in any order, grouped by [combine] in any way, finalized or written out and
    read back at any points, have the same hash when the elements added less
    those removed are the same; nothing panics, and both are left with the same
    normalized fraction.  The elements are those with an inverse modulo the
    prime (all but its multiples). *)
Theorem muhash_multiset (h1 h2 : history) :
  Forall unit_data (added h1) -> Forall unit_data (removed h1) ->
  Forall unit_data (added h2) -> Forall unit_data (removed h2) ->
  added h1 ++ removed h2 ≡ₚ added h2 ++ removed h1 ->
  exists m1 m2 hash m, build h1 = Ok m1 /\ build h2 = Ok m2 /\
    MuHash_finalize (E := OverflowError) m1 = Ok (hash, m) /\ MuHash_finalize (E := OverflowError) m2 = Ok (hash, m).
Proof.
  intros HA1 HR1 HA2 HR2 HP. destruct (build_fraction h1) as (m1 & -> & Hf1); [done..|].
  destruct (build_fraction h2) as (m2 & -> & Hf2); [done..|].
  destruct (finalize_same (E := OverflowError) m1 m2 _ _ _ _ Hf1 Hf2) as (hash & m & ? & ? & _); [done..|]. eauto 10.
Qed.
End histories.

(** ** Examples

    Stand-ins for the libraries: the extended Euclidean algorithm, and the
    stream that repeats the seed once. *)
Fixpoint egcd (fuel : nat) (a b : Z) : Z * Z :=
  match fuel with
  | O => (1, 0)
  | S fuel => if b =? 0 then (1, 0) else let '(u, v) := egcd fuel b (a mod b) in (v, u - a / b * v)
  end.

Lemma egcd_ok k fuel a b : 0 <= a -> 0 <= b < 2 ^ Z.of_nat k -> (2 * k < fuel)%nat ->
  let '(u, v) := egcd fuel a b in u * a + v * b = Z.gcd a b.
Proof.
  assert (forall a, 0 <= a -> 1 * a + 0 * 0 = Z.gcd a 0) as Hbase by (intros; rewrite Z.gcd_0_r; lia).
  assert (forall u v a b, 0 < b -> u * b + v * (a mod b) = Z.gcd b (a mod b) -> v * a + (u - a / b * v) * b = Z.gcd a b) as Hstep.
  { intros u v x y Hy E0. rewrite (Z.gcd_comm x y), <-Z.gcd_mod, (Z.gcd_comm (x mod y)), <-E0 by lia. pose proof (Z.div_mod x y). lia. }
  revert fuel a b. induction k as [|k IH]; intros fuel a b Ha Hb Hf; (destruct fuel as [|fuel]; [lia|]); cbn [egcd].
  - cbn in Hb. assert (b = 0) as -> by lia. cbn. by apply Hbase.
  - destruct (Z.eqb_spec b 0) as [->|Hb0]; [by apply Hbase|]. destruct fuel as [|fuel]; [lia|]. cbn [egcd].
    pose proof (Z.mod_pos_bound a b ltac:(lia)) as Hm. destruct (Z.eqb_spec (a mod b) 0) as [E0|Hm0].
    { apply Hstep; [lia|]. rewrite E0. apply Hbase. lia. }
    pose proof (Z.mod_pos_bound b (a mod b) ltac:(lia)) as Hm2.
    assert (2 * (b mod (a mod b)) < b) as Hhalf.
    { pose proof (Z.div_mod b (a mod b) ltac:(lia)). assert (1 <= b / (a mod b)) by (apply Z.div_le_lower_bound; lia). nia. }
    rewrite Nat2Z.inj_succ, Z.pow_succ_r in Hb by lia.
    specialize (IH fuel (a mod b) (b mod (a mod b)) ltac:(lia) ltac:(lia) ltac:(lia)).
    destruct (egcd fuel _ _) as [u v]. apply Hstep; [lia|]. apply Hstep; [lia|]. exact IH.
Qed.

Definition euclid_inverse (x m : Z) : option Z :=
  if Z.gcd x m =? 1 then Some ((egcd (2 * Z.to_nat (Z.log2_up (m + 1)) + 1) x m).1 mod m) else None.

Lemma euclid_inverse_ok x m : 0 < x < m -> Z.gcd x m = 1 ->
  exists y, euclid_inverse x m = Some y /\ 0 < y < m /\ x * y mod m = 1 mod m.
Proof.
  intros Hx Hg. unfold euclid_inverse. rewrite Hg. cbn [Z.eqb Pos.eqb]. eexists. split; [done|].
  set (k := Z.to_nat (Z.log2_up (m + 1))).
  assert (0 <= m < 2 ^ Z.of_nat k) as Hm.
  { unfold k. rewrite Z2Nat.id by apply Z.log2_up_nonneg. pose proof (Z.log2_up_spec (m + 1) ltac:(lia)). lia. }
  pose proof (egcd_ok k (2 * k + 1) x m ltac:(lia) Hm ltac:(lia)) as He. destruct (egcd _ x m) as [u v]. rewrite Hg in He. cbn [fst].
  assert (x * (u mod m) mod m = 1 mod m) as Hy.
  { rewrite Z.mul_mod_idemp_r by lia. replace (x * u) with (1 + (- v) * m) by lia. apply Z_mod_plus_full. }
  split; [|done]. pose proof (Z.mod_pos_bound u m ltac:(lia)). assert (u mod m <> 0); [|lia].
  intros E0. rewrite E0, Z.mul_0_r, Z.mod_0_l, Z.mod_1_l in Hy by lia. lia.
Qed.

Lemma euclid_inverse_none x m : 0 < x < m -> Z.gcd x m <> 1 -> euclid_inverse x m = None.
Proof. intros _ Hg. unfold euclid_inverse. destruct (Z.eqb_spec (Z.gcd x m) 1); done. Qed.

Definition spell_malachite : Malachite := {|
  natural_mod_inverse := euclid_inverse;
  natural_mod_inverse_some := euclid_inverse_ok;
  natural_mod_inverse_none := euclid_inverse_none
|}.

Definition spell_fill (seed : list Z) (n : nat) : list Z :=
  take n (((fun b => b mod 256) <$> seed) ++ replicate n 0).

Lemma spell_fill_ok seed n : length (spell_fill seed n) = n /\ Forall is_byte (spell_fill seed n).
Proof.
  split.
  - unfold spell_fill. rewrite length_take, length_app, length_replicate. lia.
  - apply Forall_take, Forall_app. split; [|by apply Forall_replicate].
    apply Forall_fmap, Forall_forall. intros x _. apply Z.mod_pos_bound. lia.
Qed.

Definition spell_chacha : ChaCha20 := {| chacha20_fill := spell_fill; chacha20_fill_ok := spell_fill_ok |}.

(** Two elements added and one removed, one way and another. *)
Definition ex_history1 : history := Removed (Added (Finalized (Added New [3])) [5]) [3].
Definition ex_history2 : history := Combined (Removed New [7]) (Reread (Added (Added New [7]) [5])).

Lemma spell_unit d : Z.gcd (@elem spell_hashers spell_chacha d) (P 48) = 1 -> @unit_data spell_hashers spell_chacha d.
Proof. done. Qed.

Lemma muhash_multiset_witness :
  added ex_history1 ++ removed ex_history2 ≡ₚ added ex_history2 ++ removed ex_history1 /\
  exists m1 m2 hash m,
    @build spell_hashers spell_chacha spell_malachite ex_history1 = Ok m1 /\
    @build spell_hashers spell_chacha spell_malachite ex_history2 = Ok m2 /\
    @MuHash_finalize spell_hashers spell_malachite OverflowError m1 = Ok (hash, m) /\
    @MuHash_finalize spell_hashers spell_malachite OverflowError m2 = Ok (hash, m).
Proof.
  assert (added ex_history1 ++ removed ex_history2 ≡ₚ added ex_history2 ++ removed ex_history1) as HP.
  { apply perm_skip, perm_swap. }
  split; [exact HP|]. apply (@muhash_multiset spell_hashers spell_chacha spell_malachite); [..|exact HP].
  all: repeat constructor; apply spell_unit; vm_compute; reflexivity.
Defined.
