(* ===== verification/UtxoCommit.v ===== *)
(** * The UTXO commitment

    [consensus/core/src/muhash.rs]: the elements of the multiset hash that a
    header commits to, one for each unspent coin; and the checks of a set
    received from a peer against the commitment ([append_imported_pruning_point_utxos]
    of [consensus/src/consensus/mod.rs], [import_pruning_point_utxo_set] of the
    virtual processor and [assert_utxo_commitment] of the pruning processor).

    The multiset hash follows the UTXO set: [mu_add_transaction] takes the hash
    of a set to the hash of the set that [UtxoDiff::add_transaction] makes, and a
    set that is imported in chunks has the hash that was computed block by
    block. *)
From S2P Require Import Prelude Bytes Tx CoinAge Utxo Hashing Params Math U3072 MuHash.
From stdpp Require Import base list gmap.
#[local] Open Scope Z_scope.

(** [write_bool] of [HasherExtensions]. *)
Definition write_bool (b : bool) : list Z := if b then [1] else [0].

Definition write_utxo (entry : UtxoEntry) (outpoint : TransactionOutpoint) (coin_age_activation : ForkActivation) : list Z :=
  hash_bytes (transaction_id outpoint) ++ le_bytes 4 (op_index outpoint) ++
  le_bytes 8 (block_daa_score entry) ++ le_bytes 8 (amount entry) ++ write_bool (ue_is_coinbase entry) ++
  le_bytes 2 (spk_version (ue_spk entry)) ++ write_var_bytes (spk_script (ue_spk entry)) ++
  (if is_active coin_age_activation (block_daa_score entry) then le_bytes 8 (effective_daa entry) else []).

Definition COMMITMENT_RESIDUE : list Z :=
  [225; 184; 160; 228; 153; 31; 213; 46; 104; 236; 122; 178; 107; 173; 171; 195; 63; 75; 40; 182; 218; 81; 74; 98;
   138; 197; 248; 250; 246; 160; 172; 107; 53; 207; 143; 106; 173; 10; 220; 216; 93; 185; 230; 178; 97; 51; 130; 245;
   101; 138; 99; 220; 245; 33; 189; 100; 228; 39; 126; 84; 60; 206; 229; 175; 32; 58; 111; 255; 110; 221; 73; 236;
   9; 220; 162; 207; 160; 103; 129; 133; 4; 190; 10; 94; 85; 55; 247; 102; 227; 71; 84; 51; 142; 139; 100; 114;
   200; 189; 203; 146; 164; 117; 195; 179; 40; 210; 93; 76; 218; 241; 190; 77; 198; 158; 215; 153; 155; 191; 207; 231;
   228; 220; 58; 125; 157; 89; 25; 251; 80; 247; 159; 73; 121; 59; 237; 255; 188; 117; 179; 137; 200; 168; 245; 15;
   191; 75; 2; 160; 109; 20; 211; 36; 112; 210; 97; 86; 55; 59; 254; 180; 230; 184; 215; 24; 227; 10; 205; 126;
   159; 150; 45; 171; 99; 44; 143; 10; 209; 233; 59; 134; 207; 8; 239; 209; 187; 48; 9; 64; 74; 160; 107; 0;
   34; 88; 0; 51; 184; 194; 24; 83; 65; 118; 65; 100; 136; 67; 138; 121; 224; 123; 124; 251; 90; 111; 254; 114;
   200; 72; 72; 93; 26; 190; 179; 10; 86; 179; 225; 45; 155; 0; 128; 173; 168; 29; 165; 45; 177; 37; 228; 1;
   56; 15; 60; 192; 210; 163; 88; 38; 64; 228; 107; 163; 234; 154; 29; 95; 234; 109; 98; 32; 210; 158; 74; 139;
   152; 86; 132; 173; 183; 142; 241; 28; 223; 34; 140; 209; 82; 78; 159; 99; 114; 202; 201; 94; 25; 230; 159; 104;
   149; 105; 227; 55; 120; 178; 103; 252; 4; 71; 228; 148; 235; 236; 138; 199; 207; 161; 174; 216; 112; 128; 118; 8;
   94; 212; 162; 78; 199; 57; 87; 114; 25; 136; 66; 153; 73; 155; 145; 106; 43; 70; 187; 243; 33; 181; 109; 16;
   7; 200; 192; 97; 168; 85; 88; 110; 114; 129; 235; 153; 97; 187; 71; 188; 125; 192; 251; 32; 156; 60; 34; 156;
   241; 150; 58; 101; 37; 251; 21; 102; 45; 38; 88; 170; 68; 90; 180; 174; 246; 98; 162; 59; 254; 17; 88; 241].

Section commitment.
Context `{Hashers, ChaCha20, Malachite} {E : Type}.

(** ** [MuHashExtensions] *)
Definition add_utxo (m : MuHash) (outpoint : TransactionOutpoint) (entry : UtxoEntry) (coin_age_activation : ForkActivation)
    : outcome E MuHash :=
  add_element m (write_utxo entry outpoint coin_age_activation).

(** The loop body over the outputs. *)
Definition add_output_utxo (tx : Transaction) (anchors : option (list Z)) (daa : Z) (act : ForkActivation) (m : MuHash)
    (io : nat * TransactionOutput) : outcome E MuHash :=
  let '(i, output) := io in
  let outpoint := mkOutpoint (tx_id tx) (Z.of_nat i mod 2 ^ 32) in
  entry ← (match anchors with
           | Some anchors =>
               anchor ← unwrap (anchors !! i);
               Ok (UtxoEntry_new_aged (out_value output) (out_spk output) daa (is_coinbase tx) anchor)
           | None => Ok (UtxoEntry_new (out_value output) (out_spk output) daa (is_coinbase tx))
           end);
  add_utxo m outpoint entry act.

Definition mu_add_transaction (m : MuHash) (transaction : PopulatedTransaction) (daa : Z) (coin_age_activation : ForkActivation)
    : outcome E MuHash :=
  let tx := ptx_tx transaction in
  anchors ← (if is_active coin_age_activation daa then
               inputs ← populated_inputs transaction;
               anchors ← assign_output_effective_daa
                 ((fun p => (ue_spk p.2, amount p.2, effective_daa p.2)) <$> inputs)
                 ((fun o => (out_spk o, out_value o)) <$> tx_outputs tx) daa;
               Ok (Some anchors)
             else Ok None);
  m ← for_populated_inputs (fun m p => remove_element m (write_utxo p.2 (previous_outpoint p.1) coin_age_activation)) m transaction;
  foldM (add_output_utxo tx anchors daa coin_age_activation) m (imap pair (tx_outputs tx)).

Definition from_transaction (transaction : PopulatedTransaction) (daa : Z) (coin_age_activation : ForkActivation) : outcome E MuHash :=
  mu_add_transaction MuHash_new transaction daa coin_age_activation.

Definition from_utxo (coin_age_activation : ForkActivation) (p : TransactionOutpoint * UtxoEntry) : outcome E MuHash :=
  add_utxo MuHash_new p.1 p.2 coin_age_activation.

Definition with_commitment_residue (multiset : MuHash) : outcome E MuHash :=
  match MuHash_deserialize COMMITMENT_RESIDUE with
  | Ok residue => MuHash_combine multiset residue
  | _ => Panic
  end.

(** ** Imported sets *)

(** A chunk is written to the set and multiplied in; the parallel reduction has
    the shape [t], whose items are the chunk. *)
Definition append_imported_pruning_point_utxos (coin_age_activation : ForkActivation)
    (st : UtxoCollection * MuHash) (t : reduction (TransactionOutpoint * UtxoEntry)) : outcome E (UtxoCollection * MuHash) :=
  let '(utxo_set, current_multiset) := st in
  let utxo_set := foldl (fun s p => <[p.1 := p.2]> s) utxo_set (reduced t) in
  inner_multiset ← reduce (from_utxo coin_age_activation) t;
  m ← MuHash_combine current_multiset inner_multiset;
  Ok (utxo_set, m).
End commitment.

Inductive PruningImportError := ImportedMultisetHashMismatch (expected got : Hash).

(** The check of [import_pruning_point_utxo_set]: the multiset that is kept for
    the new pruning point. *)
Definition check_imported_multiset `{Hashers, Malachite} (imported_utxo_multiset : MuHash) (utxo_commitment : Hash)
    : outcome PruningImportError MuHash :=
  '(imported_hash, imported_utxo_multiset) ← MuHash_finalize imported_utxo_multiset;
  if negb (imported_hash =? utxo_commitment) then
    adjusted ← with_commitment_residue imported_utxo_multiset;
    '(adjusted_hash, _) ← MuHash_finalize adjusted;
    if adjusted_hash =? utxo_commitment then Ok adjusted
    else Err (ImportedMultisetHashMismatch utxo_commitment imported_hash)
  else Ok imported_utxo_multiset.

(** [assert_utxo_commitment]; [order] is the order of the store's iterator. *)
Definition assert_utxo_commitment `{Hashers, ChaCha20, Malachite} {E} (coin_age_activation : ForkActivation)
    (order : list (TransactionOutpoint * UtxoEntry)) (commitment : Hash) : outcome E () :=
  multiset ← foldM (fun m p => add_utxo m p.1 p.2 coin_age_activation) MuHash_new order;
  '(hash, _) ← MuHash_finalize multiset;
  if negb (hash =? commitment) then
    adjusted ← with_commitment_residue multiset;
    '(adjusted, _) ← MuHash_finalize adjusted;
    assert (adjusted =? commitment)
  else Ok ().

(** ** The residue *)
Lemma residue_reduced : is_overflow (U3072_from_le_bytes COMMITMENT_RESIDUE) = false.
Proof. vm_compute. reflexivity. Qed.

Lemma residue_unit : unit LIMBS (Uint.uval (U3072_from_le_bytes COMMITMENT_RESIDUE)).
Proof. vm_compute. reflexivity. Qed.

Lemma residue_wf : Uint.wf LIMBS (U3072_from_le_bytes COMMITMENT_RESIDUE).
Proof.
  apply from_le_bytes_wf; [reflexivity|].
  assert (forallb (fun x => (0 <=? x) && (x <? 256)) COMMITMENT_RESIDUE = true) as Hall by (vm_compute; reflexivity).
  apply Forall_forall. intros x Hx. rewrite forallb_forall in Hall. specialize (Hall x). rewrite <-list_elem_of_In in Hall.
  specialize (Hall Hx). unfold is_byte. lia.
Qed.

#[local] Opaque COMMITMENT_RESIDUE.

Section commits.
Context `{Hashers, ChaCha20, Malachite} (act : ForkActivation).

(** The multiset of the elements of a set of coins. *)
Definition coin (p : TransactionOutpoint * UtxoEntry) : list Z := write_utxo p.2 p.1 act.
Definition coins (S : UtxoCollection) : list (list Z) := coin <$> map_to_list S.

(** The fraction [m] is the hash of the change from [S] to [S'], whatever else
    was added and removed again; of the set itself when [S] is empty. *)
Definition moves (m : MuHash) (S S' : UtxoCollection) : Prop :=
  exists A R, fraction m A R /\ Forall unit_data A /\ Forall unit_data R /\ Forall unit_data (coins S) /\
    coins S ++ A ≡ₚ coins S' ++ R.

Definition commits (m : MuHash) (S : UtxoCollection) : Prop := moves m ∅ S.

Lemma coins_empty : coins ∅ = [].
Proof. unfold coins. by rewrite map_to_list_empty. Qed.

Lemma moves_new S : Forall unit_data (coins S) -> moves MuHash_new S S.
Proof. exists [], []. split; [apply new_fraction|]. by rewrite app_nil_r. Qed.

Lemma commits_new : commits MuHash_new ∅.
Proof. apply moves_new. by rewrite coins_empty. Qed.

Lemma coins_insert S o e : S !! o = None -> coins (<[o := e]> S) ≡ₚ coin (o, e) :: coins S.
Proof. intros Ho. unfold coins. by rewrite map_to_list_insert. Qed.

Lemma coins_delete S o e : S !! o = Some e -> coins S ≡ₚ coin (o, e) :: coins (delete o S).
Proof. intros Ho. unfold coins. by rewrite <-(map_to_list_delete S o e Ho). Qed.

Lemma moves_units m S S' : moves m S S' -> Forall unit_data (coins S').
Proof.
  intros (A & R & _ & HA & _ & HS & HP). assert (Forall unit_data (coins S ++ A)) as Hall by (by apply Forall_app).
  rewrite HP in Hall. by apply Forall_app in Hall as [? _].
Qed.

Lemma units_coin S o e : Forall unit_data (coins S) -> S !! o = Some e -> unit_data (coin (o, e)).
Proof. intros HS Ho. rewrite (coins_delete S o e Ho) in HS. by apply Forall_cons in HS as [? _]. Qed.

Section steps.
Context {E : Type}.

Lemma moves_add m S0 S o e : moves m S0 S -> S !! o = None -> unit_data (coin (o, e)) ->
  exists m', add_utxo (E := E) m o e act = Ok m' /\ moves m' S0 (<[o := e]> S).
Proof.
  intros (A & R & Hf & HA & HR & HS & HP) Ho Hu. destruct (add_fraction (E := E) m A R _ Hf Hu) as (m' & Hm & Hf').
  exists m'. split; [exact Hm|]. exists (coin (o, e) :: A), R. split_and!; [done|by constructor|done|done|].
  rewrite (coins_insert S o e Ho), <-Permutation_middle, HP. done.
Qed.

Lemma moves_remove m S0 S o e : moves m S0 S -> S !! o = Some e ->
  exists m', remove_element (E := E) m (write_utxo e o act) = Ok m' /\ moves m' S0 (delete o S).
Proof.
  intros HC Ho. pose proof (units_coin S o e (moves_units _ _ _ HC) Ho) as Hu. destruct HC as (A & R & Hf & HA & HR & HS & HP).
  destruct (remove_fraction (E := E) m A R _ Hf Hu) as (m' & Hm & Hf').
  exists m'. split; [exact Hm|]. exists A, (coin (o, e) :: R). split_and!; [done|done|by constructor|done|].
  rewrite HP, (coins_delete S o e Ho). cbn [app]. by rewrite <-Permutation_middle.
Qed.

Lemma moves_combine m m' S S' S'' : moves m S S' -> moves m' S' S'' ->
  exists m2, MuHash_combine (E := E) m m' = Ok m2 /\ moves m2 S S''.
Proof.
  intros (A & R & Hf & HA & HR & HS & HP) (A' & R' & Hf' & HA' & HR' & HS' & HP').
  destruct (combine_fraction (E := E) m m' A A' R R' Hf Hf') as (m2 & Hm & Hf2). exists m2. split; [done|].
  exists (A ++ A'), (R ++ R'). split_and!; [done|by apply Forall_app|by apply Forall_app|done|].
  rewrite (app_assoc (coins S)), HP, <-(app_assoc (coins S')), (Permutation_app_comm R A'), (app_assoc (coins S')), HP'.
  by rewrite <-app_assoc, (Permutation_app_comm R' R).
Qed.

(** ** A transaction *)
Lemma spend_loop m S0 S (l : list (TransactionInput * UtxoEntry)) :
  moves m S0 S -> NoDup ((fun p => previous_outpoint p.1) <$> l) ->
  (forall p, p ∈ l -> S !! previous_outpoint p.1 = Some p.2) ->
  exists m' S', foldM (fun m p => remove_element (E := E) m (write_utxo p.2 (previous_outpoint p.1) act)) m l = Ok m' /\
    moves m' S0 S' /\
    forall o, S' !! o = if bool_decide (o ∈ (fun p => previous_outpoint p.1) <$> l) then None else S !! o.
Proof.
  revert m S. induction l as [|p l IH]; intros m S HC Hnd Hget; [by exists m, S|].
  cbn [fmap list_fmap] in Hnd. apply NoDup_cons in Hnd as [Hp Hnd].
  destruct (moves_remove m S0 S (previous_outpoint p.1) p.2) as (m1 & E1 & HC1); [done|apply Hget; left|].
  cbn [foldM]. rewrite E1. cbn [mbind outcome_mbind].
  destruct (IH m1 (delete (previous_outpoint p.1) S)) as (m2 & S2 & E2 & HC2 & Hg2); [done|done| |].
  { intros q Hq. rewrite lookup_delete_ne; [apply Hget; by right|].
    intros Heq. apply Hp. rewrite Heq. apply list_elem_of_fmap. eauto. }
  exists m2, S2. split; [done|]. split; [done|]. intros o. rewrite Hg2.
  destruct (decide (o = previous_outpoint p.1)) as [->|Hne].
  - rewrite lookup_delete_eq. rewrite (bool_decide_true (_ ∈ _ <$> p :: l)) by (cbn; left). by case_bool_decide.
  - rewrite lookup_delete_ne by done. erewrite (bool_decide_ext (o ∈ _ <$> p :: l)); [done|]. cbn. rewrite elem_of_cons. naive_solver.
Qed.

Lemma add_output_utxo_ok m ptx daa i output :
  tx_outputs (ptx_tx ptx) !! i = Some output -> Z.of_nat (length (tx_outputs (ptx_tx ptx))) < 2 ^ 32 ->
  add_output_utxo (E := E) (ptx_tx ptx)
    (if is_active act daa then Some (created_anchor ptx daa (is_active act daa) <$> tx_outputs (ptx_tx ptx)) else None) daa act m (i, output) =
  add_utxo m (mkOutpoint (tx_id (ptx_tx ptx)) (Z.of_nat i)) (created_entry ptx daa (is_active act daa) output) act.
Proof.
  intros Hi Hlen. assert (i < length (tx_outputs (ptx_tx ptx)))%nat by (by eapply lookup_lt_Some).
  unfold add_output_utxo. rewrite Z.mod_small by lia. unfold created_entry.
  destruct (is_active act daa); [|done]. by rewrite list_lookup_fmap, Hi.
Qed.

Lemma create_loop m S0 S ptx daa :
  moves m S0 S -> Z.of_nat (length (tx_outputs (ptx_tx ptx))) < 2 ^ 32 -> fresh_id S ptx ->
  (forall o e, created ptx daa (is_active act daa) o = Some e -> unit_data (coin (o, e))) ->
  exists m' S', foldM (add_output_utxo (E := E) (ptx_tx ptx)
      (if is_active act daa then Some (created_anchor ptx daa (is_active act daa) <$> tx_outputs (ptx_tx ptx)) else None) daa act)
      m (imap pair (tx_outputs (ptx_tx ptx))) = Ok m' /\ moves m' S0 S' /\
    forall o, S' !! o = match created ptx daa (is_active act daa) o with Some e => Some e | None => S !! o end.
Proof.
  intros HC Hlen Hf Hu. set (outs := tx_outputs (ptx_tx ptx)) in *.
  set (new o (k : nat) := bool_decide (transaction_id o = tx_id (ptx_tx ptx) /\ 0 <= op_index o < Z.of_nat k)).
  edestruct (foldM_total
    (add_output_utxo (E := E) (ptx_tx ptx) (if is_active act daa then Some (created_anchor ptx daa (is_active act daa) <$> outs) else None) daa act)
    (fun (pre : list (nat * TransactionOutput)) m' => exists S', moves m' S0 S' /\
      forall o, S' !! o = if new o (length pre) then created ptx daa (is_active act daa) o else S !! o)
    m (imap pair outs)) as (m' & Hm' & S' & HC' & Hg').
  - exists S. split; [done|]. intros o. unfold new. rewrite bool_decide_false; [done|]. cbn. lia.
  - intros pre [i output] post m1 Heq (S1 & HC1 & Hg1).
    assert (imap pair outs !! length pre = Some (i, output)) as Hl by (rewrite Heq; by apply list_lookup_middle).
    rewrite list_lookup_imap in Hl. destruct (outs !! length pre) as [out'|] eqn:Ho; [|done]. cbn in Hl. injection Hl as <- <-.
    rewrite (add_output_utxo_ok m1 ptx daa) by done.
    set (o1 := mkOutpoint (tx_id (ptx_tx ptx)) (Z.of_nat (length pre))).
    assert (created ptx daa (is_active act daa) o1 = Some (created_entry ptx daa (is_active act daa) out')) as Hcr.
    { unfold created. rewrite bool_decide_true by (cbn; split; [done|lia]). cbn. rewrite Nat2Z.id. fold outs. by rewrite Ho. }
    destruct (moves_add m1 S0 S1 o1 (created_entry ptx daa (is_active act daa) out')) as (m2 & Hm2 & HC2); [done| |by apply Hu|].
    { rewrite Hg1. unfold new. rewrite bool_decide_false by (cbn; lia). by apply (Hf o1). }
    exists m2. split; [done|]. eexists. split; [done|]. intros o. rewrite length_app. cbn [length].
    destruct (decide (o = o1)) as [->|Hne].
    + rewrite lookup_insert_eq. unfold new. rewrite bool_decide_true by (cbn; split; [done|lia]). done.
    + rewrite lookup_insert_ne by done. rewrite Hg1. unfold new. erewrite bool_decide_ext; [done|].
      split; [intros [??]; split; [done|lia]|]. intros [? [? ?]]. split; [done|]. split; [done|].
      enough (op_index o <> Z.of_nat (length pre)) by lia. intros Hidx. apply Hne. destruct o; cbn in *; subst. done.
  - exists m', S'. split; [exact Hm'|]. split; [done|]. intros o. rewrite Hg', length_imap. unfold new, created.
    case_bool_decide as H1'; case_bool_decide as H2'; try done; try tauto.
    + fold outs. destruct (outs !! Z.to_nat (op_index o)) eqn:Eo; [done|]. apply lookup_ge_None in Eo. lia.
    + fold outs. rewrite lookup_ge_None_2; [done|]. lia.
Qed.

Lemma mu_add_transaction_ok m S0 S ptx daa :
  moves m S0 S -> tx_fits S ptx -> fresh_id S ptx ->
  (is_active act daa = true -> aged_tx_ok ptx /\ in_u 64 daa) ->
  (forall o e, created ptx daa (is_active act daa) o = Some e -> unit_data (coin (o, e))) ->
  exists m' S', mu_add_transaction (E := E) m ptx daa act = Ok m' /\ moves m' S0 S' /\
    forall o, S' !! o = apply_tx S ptx daa (is_active act daa) o.
Proof.
  intros HC [Hlen Hpop Hnd Houts] Hf Hact Hu. unfold mu_add_transaction.
  rewrite (anchors_ok ptx daa (is_active act daa) Hlen Hact). cbn [mbind outcome_mbind]. rewrite for_populated_inputs_zip by done.
  destruct (spend_loop m S0 S (zip (tx_inputs (ptx_tx ptx)) (entries ptx))) as (m1 & S1 & -> & HC1 & Hg1); [done|by rewrite spent_zip| |].
  { intros [input e] Hp. apply list_elem_of_lookup in Hp as [i Hi]. rewrite lookup_zip_with in Hi.
    destruct (tx_inputs (ptx_tx ptx) !! i) eqn:Ei; [|done].
    destruct (entries ptx !! i) eqn:Ee; cbn in Hi; [|done]. injection Hi as -> ->. by eapply Hpop. }
  cbn [mbind outcome_mbind]. rewrite spent_zip in Hg1 by done.
  destruct (create_loop m1 S0 S1 ptx daa) as (m2 & S2 & E2 & HC2 & Hg2); [done|done| |done|].
  { intros o Ho. unfold get, UtxoCollection_view. rewrite Hg1. case_bool_decide; [done|]. by apply Hf. }
  exists m2, S2. split; [exact E2|]. split; [done|]. intros o. rewrite Hg2, Hg1. done.
Qed.

(** ** Imported sets *)
Lemma foldl_insert_lookup (S : UtxoCollection) l : NoDup l.*1 -> (forall p, p ∈ l -> S !! p.1 = None) ->
  forall o e, foldl (fun s p => <[p.1 := p.2]> s) S l !! o = Some e <-> (o, e) ∈ l \/ S !! o = Some e.
Proof.
  revert S. induction l as [|[o' e'] l IH]; intros S Hnd Hf o e; cbn [foldl]; [set_solver|].
  cbn in Hnd. apply NoDup_cons in Hnd as [Ho' Hnd]. pose proof (Hf (o', e') ltac:(left)) as Hn. cbn [fst snd] in *. rewrite IH; [|done|].
  - rewrite elem_of_cons. destruct (decide (o = o')) as [->|Hne].
    + rewrite lookup_insert_eq. split; [naive_solver|]. intros [[[= <-]|?]|?]; [by right|by left|congruence].
    + rewrite lookup_insert_ne by done. naive_solver.
  - intros p Hp. rewrite lookup_insert_ne; [apply Hf; by right|]. intros ->. apply Ho'. by apply list_elem_of_fmap_2.
Qed.

Lemma foldl_insert_fresh (S : UtxoCollection) l o : NoDup l.*1 -> (forall p, p ∈ l -> S !! p.1 = None) ->
  o ∉ l.*1 -> S !! o = None -> foldl (fun s p => <[p.1 := p.2]> s) S l !! o = None.
Proof.
  intros Hnd Hf Ho HS. apply eq_None_not_Some. intros [e He]. rewrite foldl_insert_lookup in He by done.
  destruct He as [He|He]; [|congruence]. apply Ho. by apply (list_elem_of_fmap_2 fst) in He.
Qed.

Lemma reduce_moves t S : Forall unit_data (coins S) -> NoDup (reduced t).*1 -> (forall p, p ∈ reduced t -> S !! p.1 = None) ->
  Forall unit_data (coin <$> reduced t) ->
  exists m, reduce (E := E) (from_utxo act) t = Ok m /\ moves m S (foldl (fun s p => <[p.1 := p.2]> s) S (reduced t)).
Proof.
  revert S. induction t as [|p|l IHl r IHr]; intros S HS Hnd Hf Hu; cbn [reduce reduced] in *.
  - exists MuHash_new. split; [done|]. by apply moves_new.
  - cbn [foldl]. apply moves_add; [by apply moves_new|apply Hf; left|]. apply Forall_cons in Hu as [? _]. by destruct p.
  - rewrite fmap_app in Hnd; rewrite fmap_app in Hu. apply NoDup_app in Hnd as (Hl & Hlr & Hr). apply Forall_app in Hu as [Hul Hur].
    destruct (IHl S) as (ml & -> & Hml); [done|done|set_solver|done|]. cbn [mbind outcome_mbind].
    destruct (IHr (foldl (fun s p => <[p.1 := p.2]> s) S (reduced l))) as (mr & -> & Hmr); [by eapply moves_units|done| |done|].
    { intros p Hp. apply foldl_insert_fresh; [done|set_solver| |apply Hf; set_solver].
      intros Hin. by apply (Hlr _ Hin), list_elem_of_fmap_2. }
    cbn [mbind outcome_mbind]. rewrite foldl_app. by eapply moves_combine.
Qed.

Lemma append_moves ts S m : commits m S -> NoDup (ts ≫= reduced).*1 -> (forall p, p ∈ ts ≫= reduced -> S !! p.1 = None) ->
  Forall unit_data (coin <$> (ts ≫= reduced)) ->
  exists m', foldM (append_imported_pruning_point_utxos (E := E) act) (S, m) ts =
      Ok (foldl (fun s p => <[p.1 := p.2]> s) S (ts ≫= reduced), m') /\
    commits m' (foldl (fun s p => <[p.1 := p.2]> s) S (ts ≫= reduced)).
Proof.
  revert S m. induction ts as [|t ts IH]; intros S m HC Hnd Hf Hu; [by exists m|]. cbn [mbind list_bind foldM] in *.
  rewrite fmap_app in Hnd; rewrite fmap_app in Hu. apply NoDup_app in Hnd as (Hl & Hlr & Hr). apply Forall_app in Hu as [Hul Hur].
  destruct (reduce_moves t S) as (mt & Et & Ht); [by eapply moves_units|done|set_solver|done|].
  unfold append_imported_pruning_point_utxos at 2. rewrite Et. cbn [mbind outcome_mbind].
  destruct (moves_combine m mt _ _ _ HC Ht) as (m1 & -> & HC1). cbn [mbind outcome_mbind]. rewrite foldl_app. apply IH; [done|done| |done].
  intros p Hp. apply foldl_insert_fresh; [done|set_solver| |apply Hf; set_solver].
  intros Hin. by apply (Hlr _ Hin), list_elem_of_fmap_2.
Qed.

Lemma foldl_insert_all S l : l ≡ₚ map_to_list S -> foldl (fun s p => <[p.1 := p.2]> s) (∅ : UtxoCollection) l = S.
Proof.
  intros HP. apply map_eq. intros o. apply option_eq. intros e. rewrite foldl_insert_lookup.
  - rewrite HP, elem_of_map_to_list, lookup_empty. naive_solver.
  - rewrite HP. apply NoDup_fst_map_to_list.
  - intros p _. apply lookup_empty.
Qed.

(** A set imported in chunks, in any order, grouped in any way. *)
Lemma import_commits ts S : Forall unit_data (coins S) -> ts ≫= reduced ≡ₚ map_to_list S ->
  exists m, foldM (append_imported_pruning_point_utxos (E := E) act) (∅, MuHash_new) ts = Ok (S, m) /\ commits m S.
Proof.
  intros HS HP. destruct (append_moves ts ∅ MuHash_new) as (m & Hm & HC).
  - apply commits_new.
  - rewrite HP. apply NoDup_fst_map_to_list.
  - intros p _. apply lookup_empty.
  - rewrite HP. exact HS.
  - rewrite (foldl_insert_all S _ HP) in Hm, HC. eauto.
Qed.

Lemma chunks_bind {A} (l : list A) : (Item <$> l) ≫= reduced = l.
Proof. induction l as [|x l IH]; cbn; [done|]. by rewrite IH. Qed.

(** The same, one coin at a time. *)
Lemma iterate_commits order S : Forall unit_data (coins S) -> order ≡ₚ map_to_list S ->
  exists m, foldM (fun m p => add_utxo (E := E) m p.1 p.2 act) MuHash_new order = Ok m /\ commits m S.
Proof.
  intros HS HP. cut (forall S0 m l, commits m S0 -> NoDup l.*1 -> (forall p, p ∈ l -> S0 !! p.1 = None) -> Forall unit_data (coin <$> l) ->
    exists m', foldM (fun m p => add_utxo (E := E) m p.1 p.2 act) m l = Ok m' /\ commits m' (foldl (fun s p => <[p.1 := p.2]> s) S0 l)).
  - intros Hgen. destruct (Hgen ∅ MuHash_new order) as (m & Hm & HC);
      [apply commits_new|rewrite HP; apply NoDup_fst_map_to_list|intros; apply lookup_empty|rewrite HP; exact HS|].
    rewrite (foldl_insert_all S _ HP) in HC. eauto.
  - intros S0 m l. revert S0 m. induction l as [|p l IH]; intros S0 m HC Hnd Hf Hu; [by exists m|]. cbn [foldM foldl fmap list_fmap] in *.
    apply NoDup_cons in Hnd as [Hp Hnd]. apply Forall_cons in Hu as [Hup Hu].
    destruct (moves_add m ∅ S0 p.1 p.2) as (m1 & -> & HC1); [done|apply Hf; left|by destruct p|]. cbn [mbind outcome_mbind].
    apply IH; [done|done| |done]. intros q Hq. rewrite lookup_insert_ne; [apply Hf; by right|]. intros Heq. apply Hp. rewrite Heq. by apply list_elem_of_fmap_2.
Qed.

(** ** Hashes *)
Lemma commits_ratio m S : commits m S -> exists a r, ratio m a r /\ unit LIMBS a /\ unit LIMBS r /\ a = prod (coins S) * r.
Proof.
  intros (A & R & Hf & HA & HR & _ & HP). rewrite coins_empty in HP. exists (prod A), (prod R).
  split_and!; [done|by apply prod_unit|by apply prod_unit|]. cbn [app] in HP. by rewrite (prod_perm _ _ HP), prod_app.
Qed.

(** The pinned residue is a reduced number with an inverse. *)
Lemma residue_ok : exists res, MuHash_deserialize COMMITMENT_RESIDUE = Ok res /\
  exists a, ratio res a 1 /\ unit LIMBS a.
Proof.
  unfold MuHash_deserialize. rewrite residue_reduced. eexists. split; [reflexivity|].
  exists (Uint.uval (U3072_from_le_bytes COMMITMENT_RESIDUE)). split; [|exact residue_unit].
  destruct one_unit as (Hw & Hu1 & Huu). constructor; cbn [numerator denominator].
  - exact residue_wf.
  - exact Hw.
  - exact residue_unit.
  - exact Huu.
  - by rewrite Hu1, Z.mul_1_l, Z.mul_1_r.
Qed.

Lemma commits_same m m' S : commits m S -> commits m' S ->
  exists hash m2, MuHash_finalize (E := E) m = Ok (hash, m2) /\ MuHash_finalize (E := E) m' = Ok (hash, m2) /\
    exists a r, ratio m2 a r /\ unit LIMBS a /\ unit LIMBS r /\ a = prod (coins S) * r.
Proof.
  intros (a & r & Hr & Hua & Hur & Ha)%commits_ratio (a' & r' & Hr' & Hua' & Hur' & Ha')%commits_ratio.
  destruct (finalize_same_ratio (E := E) m m' a r a' r') as (hash & m2 & ? & ? & ? & _); [done..|subst; lia|]. eauto 12.
Qed.

Lemma with_residue_ok m a r : ratio m a r -> exists m' b, with_commitment_residue (E := E) m = Ok m' /\ unit LIMBS b /\ ratio m' (a * b) r.
Proof.
  intros Hr. unfold with_commitment_residue. destruct residue_ok as (res & -> & b & Hb & Hub).
  destruct (combine_ratio (E := E) m res a b r 1 Hr Hb) as (m' & Hm & Hr'). rewrite Z.mul_1_r in Hr'. eauto.
Qed.

Lemma residue_same m m' a r a' r' : ratio m a r -> ratio m' a' r' -> unit LIMBS r -> unit LIMBS r' -> a * r' = a' * r ->
  exists adj adj' hash m2, with_commitment_residue (E := E) m = Ok adj /\ with_commitment_residue (E := E) m' = Ok adj' /\
    MuHash_finalize (E := E) adj = Ok (hash, m2) /\ MuHash_finalize (E := E) adj' = Ok (hash, m2).
Proof.
  intros Hr Hr' Hu Hu' He. unfold with_commitment_residue. destruct residue_ok as (res & -> & b & Hb & Hub).
  destruct (combine_ratio (E := E) m res a b r 1 Hr Hb) as (adj & -> & Hadj).
  destruct (combine_ratio (E := E) m' res a' b r' 1 Hr' Hb) as (adj' & -> & Hadj').
  destruct (finalize_same_ratio (E := E) adj adj' (a * b) (r * 1) (a' * b) (r' * 1)) as (hash & m2 & ? & ? & _);
    [done|done|by rewrite Z.mul_1_r|by rewrite Z.mul_1_r|apply (f_equal (Z.mul b)) in He; lia|]. eauto 10.
Qed.
End steps.

(** C13: a UTXO set received from a peer.  Let [m] be the multiset hash carried
    block by block for the set [S].  When the coins of [S] arrive in chunks, in
    any order, each chunk reduced in parallel in any grouping, the imported set
    is [S], and the check against the committed hash [c] decides exactly whether
    [c] is the hash of [m], or else of [m] with the pinned residue; it goes on
    with the normalized fraction of [m] (or the adjusted one).  The sanity check
    over the stored set, in any order of iteration, passes for exactly these
    commitments. *)
Theorem imported_utxo_set_exact m S ts order (c : Hash) :
  commits m S -> ts ≫= reduced ≡ₚ map_to_list S -> order ≡ₚ map_to_list S ->
  exists h m1 mi adj h' m2,
    MuHash_finalize (E := PruningImportError) m = Ok (h, m1) /\
    with_commitment_residue (E := PruningImportError) m1 = Ok adj /\
    MuHash_finalize (E := PruningImportError) adj = Ok (h', m2) /\
    foldM (append_imported_pruning_point_utxos (E := PruningImportError) act) (∅, MuHash_new) ts = Ok (S, mi) /\
    check_imported_multiset mi c =
      (if h =? c then Ok m1 else if h' =? c then Ok adj else Err (ImportedMultisetHashMismatch c h)) /\
    assert_utxo_commitment (E := PruningImportError) act order c = if (h =? c) || (h' =? c) then Ok () else Panic.
Proof.
  intros HC Hts Hord. pose proof (moves_units _ _ _ HC) as HS.
  destruct (import_commits (E := PruningImportError) ts S HS Hts) as (mi & Hmi & HCi).
  destruct (iterate_commits (E := PruningImportError) order S HS Hord) as (mo & Hmo & HCo).
  destruct (commits_same (E := PruningImportError) m mi S HC HCi) as (h & m1 & Em & Ei & a & r & Hr & Hua & Hur & Ha).
  destruct (commits_same (E := PruningImportError) m mo S HC HCo) as (h2 & m3 & Em' & Eo & _). rewrite Em in Em'. injection Em' as <- <-.
  destruct (commits_ratio mo S HCo) as (ao & ro & Hro & _ & Huro & Hao).
  destruct (residue_same (E := PruningImportError) m1 mo a r ao ro) as (adj & adj' & h' & m2 & E1 & E2 & E3 & E4); [done..|subst; lia|].
  exists h, m1, mi, adj, h', m2. split_and!; [done..| |].
  - unfold check_imported_multiset. rewrite Ei. cbn [mbind outcome_mbind]. destruct (h =? c); [done|]. cbn [negb].
    rewrite E1. cbn [mbind outcome_mbind]. rewrite E3. done.
  - unfold assert_utxo_commitment. rewrite Hmo. cbn [mbind outcome_mbind]. rewrite Eo. cbn [mbind outcome_mbind].
    destruct (h =? c); [done|]. cbn [negb orb]. rewrite E2. cbn [mbind outcome_mbind]. rewrite E4. done.
Qed.
End commits.

(** ** Examples *)
Definition ex_coins : UtxoCollection := <[op2 := entry2]> view1.

Lemma ex_coins_commits : exists m, @commits spell_hashers spell_chacha 7 m ex_coins.
Proof.
  assert (forall p, p = (op1, entry1) \/ p = (op2, entry2) -> @unit_data spell_hashers spell_chacha (coin 7 p)) as Hu.
  { intros p [-> | ->]; apply spell_unit; vm_compute; reflexivity. }
  destruct (moves_add (H0 := spell_chacha) (H := spell_hashers) 7 (E := ()) MuHash_new ∅ ∅ op1 entry1) as (m1 & _ & H1);
    [apply commits_new|reflexivity|apply Hu; by left|].
  destruct (moves_add (H0 := spell_chacha) (H := spell_hashers) 7 (E := ()) m1 ∅ view1 op2 entry2) as (m2 & _ & H2);
    [exact H1|reflexivity|apply Hu; by right|].
  exists m2. exact H2.
Qed.

Lemma imported_utxo_set_exact_witness :
  exists m h m1 mi adj h' m2,
    @MuHash_finalize spell_hashers spell_malachite PruningImportError m = Ok (h, m1) /\
    with_commitment_residue (E := PruningImportError) m1 = Ok adj /\
    @MuHash_finalize spell_hashers spell_malachite PruningImportError adj = Ok (h', m2) /\
    foldM (@append_imported_pruning_point_utxos spell_hashers spell_chacha PruningImportError 7) (∅, MuHash_new)
      [Joined (Item (op2, entry2)) Identity; Item (op1, entry1)] = Ok (ex_coins, mi) /\
    @check_imported_multiset spell_hashers spell_malachite mi 5 =
      (if h =? 5 then Ok m1 else if h' =? 5 then Ok adj else Err (ImportedMultisetHashMismatch 5 h)) /\
    @assert_utxo_commitment spell_hashers spell_chacha spell_malachite PruningImportError 7 [(op1, entry1); (op2, entry2)] 5 =
      if (h =? 5) || (h' =? 5) then Ok () else Panic.
Proof.
  destruct ex_coins_commits as [m Hm]. exists m.
  assert ([(op1, entry1); (op2, entry2)] ≡ₚ map_to_list ex_coins) as HP.
  { apply (bool_decide_unpack _). vm_compute. reflexivity. }
  apply (@imported_utxo_set_exact spell_hashers spell_chacha spell_malachite 7 m ex_coins); [exact Hm| |exact HP].
  rewrite <-HP. apply perm_swap.
Defined.
