(* ===== verification/ServiceCommit.v ===== *)
(** * The sealed commitment of the service state

    [consensus/src/processes/service_commit.rs]: the canonical bytes of the rows
    of the service stores, and the index of their multiset hash by event score.
    The index is maintained row by row while events become final, and rebuilt
    from the stores when a node starts. *)
From S2P Require Import Prelude Bytes Tx BTree Hashing Math MathArith U3072 MuHash.
From stdpp Require Import base gmap list.
#[local] Open Scope Z_scope.

(** ** Rows *)
Definition burn_row_bytes (txid : Hash) (index daa : Z) : list Z :=
  [1] ++ hash_bytes txid ++ le_bytes 4 index ++ le_bytes 8 daa.

Definition first_seen_row_bytes (miner : Hash) (daa : Z) : list Z := [3] ++ hash_bytes miner ++ le_bytes 8 daa.

Definition reward_row_bytes (request_hash winner : Hash) (amount daa : Z) (spk : option ScriptPublicKey) : list Z :=
  [4] ++ hash_bytes request_hash ++ hash_bytes winner ++ le_bytes 8 amount ++ le_bytes 8 daa ++
  match spk with
  | Some s => le_bytes 2 (spk_version s) ++ le_bytes 2 (Z.of_nat (length (spk_script s))) ++ spk_script s
  | None => le_bytes 2 0 ++ le_bytes 2 0
  end.

Definition strike_row_bytes (daa : Z) (miner : Hash) (count last_daa : Z) : list Z :=
  [2] ++ le_bytes 8 daa ++ hash_bytes miner ++ le_bytes 4 count ++ le_bytes 8 last_daa.

(** ** The index *)
Record ServiceCommitIndex := mkIndex { ci_acc : MuHash; ci_snapshots : gmap Z Hash }.

Definition ServiceCommitIndex_new : ServiceCommitIndex := mkIndex MuHash_new ∅.

(** [snapshots.range(..=daa).next_back()]. *)
Definition commitment_at (idx : ServiceCommitIndex) (daa : Z) : Hash :=
  match last_upto (ci_snapshots idx) daa with Some (_, h) => h | None => ZERO_HASH end.

Section index.
Context `{Hashers, ChaCha20, Malachite} {E : Type}.

Definition add_row (idx : ServiceCommitIndex) (row : list Z) : outcome E ServiceCommitIndex :=
  acc ← add_element (ci_acc idx) row; Ok (mkIndex acc (ci_snapshots idx)).

Definition index_seal (idx : ServiceCommitIndex) (daa : Z) : outcome E ServiceCommitIndex :=
  '(value, acc) ← MuHash_finalize (ci_acc idx); Ok (mkIndex acc (<[daa := value]> (ci_snapshots idx))).

(** The two nested loops over the sorted rows: a row is added, and its score is
    sealed when the next row has another one. *)
Fixpoint rebuild_loop (idx : ServiceCommitIndex) (rows : list (Z * list Z)) : outcome E ServiceCommitIndex :=
  match rows with
  | [] => Ok idx
  | (daa, row) :: rest =>
      idx ← add_row idx row;
      if match rest with (daa', _) :: _ => daa' =? daa | [] => false end then rebuild_loop idx rest
      else idx ← index_seal idx daa; rebuild_loop idx rest
  end.

Definition daa_leb (a b : Z * list Z) : bool := a.1 <=? b.1.

Definition rebuild (rows : list (Z * list Z)) : outcome E ServiceCommitIndex :=
  rebuild_loop ServiceCommitIndex_new (sort_by daa_leb rows).
End index.

(** ** What is sealed

    The hash of a multiset of rows, and the commitment of a set of rows at a
    score: the hash of those at or below it, or zero if there are none. *)
Section spec.
Context `{Hashers, ChaCha20, Malachite}.

Definition multiset_hash (rows : list (list Z)) : Hash :=
  match m ← foldM add_element MuHash_new rows; MuHash_finalize (E := ()) m with Ok (h, _) => h | _ => ZERO_HASH end.

Definition rows_upto (daa : Z) (rows : list (Z * list Z)) : list (Z * list Z) := filter (fun r => r.1 <= daa) rows.

Definition commitment (rows : list (Z * list Z)) (daa : Z) : Hash :=
  match rows_upto daa rows with [] => ZERO_HASH | rs => multiset_hash rs.*2 end.

Lemma adds_fraction {E} rows m A : Forall unit_data rows -> fraction m A [] ->
  exists m', foldM (add_element (E := E)) m rows = Ok m' /\ fraction m' (rows ++ A) [].
Proof.
  revert m A. induction rows as [|r rows IH]; intros m A Hu Hf; cbn [foldM]; [by eauto|].
  apply Forall_cons in Hu as [Hr Hu]. destruct (add_fraction (E := E) m A [] r Hf Hr) as (m1 & -> & Hf1). run.
  destruct (IH m1 (r :: A) Hu Hf1) as (m2 & -> & Hf2). exists m2. split; [done|].
  unfold fraction in *. by rewrite (prod_perm (r :: rows ++ A) (rows ++ r :: A)) by apply Permutation_middle.
Qed.

(** The hash of a fraction is the hash of its rows, in any order. *)
Lemma finalize_multiset {E} m A rows : Forall unit_data A -> fraction m A [] -> A ≡ₚ rows ->
  exists m', MuHash_finalize (E := E) m = Ok (multiset_hash rows, m') /\ fraction m' A [].
Proof.
  intros Hu Hf Hp. assert (Forall unit_data rows) as Hu' by by rewrite <-Hp.
  destruct (adds_fraction (E := ()) rows MuHash_new [] Hu' new_fraction) as (m0 & E0 & Hf0). rewrite app_nil_r in Hf0.
  unfold multiset_hash. rewrite E0. run.
  destruct (finalize_ratio (E := E) m _ _ Hf) as (m1 & E2 & Hf1 & Hn1).
  destruct (finalize_ratio (E := ()) m0 _ _ Hf0) as (m2 & E3 & Hf2 & Hn2).
  assert (m1 = m2) as ->.
  { eapply normalized_unique; [exact Hf1|exact Hf2|done|done|apply unit_1|apply unit_1|]. by rewrite (prod_perm _ _ Hp). }
  exists m2. split; [by rewrite E2, E3|done].
Qed.

(** ** The index follows the rows

    [index_ok idx rows cur]: the rows added have scores up to [cur], and the
    scores below [cur] are sealed. *)
Record index_ok (idx : ServiceCommitIndex) (rows : list (Z * list Z)) (cur : Z) : Prop := {
  io_acc : fraction (ci_acc idx) rows.*2 [];
  io_units : Forall (fun r => unit_data r.2) rows;
  io_cur : 0 <= cur;
  io_rows : Forall (fun r => 0 <= r.1 <= cur) rows;
  io_keys : forall k h, ci_snapshots idx !! k = Some h -> k <= cur;
  io_below : forall d, d < cur -> commitment_at idx d = commitment rows d;
}.

(** [sealed idx rows]: every commitment is that of the rows. *)
Definition sealed (idx : ServiceCommitIndex) (rows : list (Z * list Z)) : Prop := forall d, commitment_at idx d = commitment rows d.

Lemma rows_upto_perm d rows rows' : rows ≡ₚ rows' -> rows_upto d rows ≡ₚ rows_upto d rows'.
Proof. intros Hp. unfold rows_upto. by rewrite Hp. Qed.

Lemma multiset_hash_perm rows rows' : Forall unit_data rows -> rows ≡ₚ rows' -> multiset_hash rows = multiset_hash rows'.
Proof.
  intros Hu Hp. destruct (adds_fraction (E := ()) rows MuHash_new [] Hu new_fraction) as (m0 & E0 & Hf0). rewrite app_nil_r in Hf0.
  destruct (finalize_multiset (E := ()) m0 rows rows Hu Hf0) as (? & E1 & _); [done|].
  destruct (finalize_multiset (E := ()) m0 rows rows' Hu Hf0 Hp) as (? & E2 & _). congruence.
Qed.

Lemma commitment_perm rows rows' d : Forall (fun r => unit_data r.2) rows -> rows ≡ₚ rows' -> commitment rows d = commitment rows' d.
Proof.
  intros Hu Hp. unfold commitment. pose proof (rows_upto_perm d _ _ Hp) as Hpd.
  assert (Forall unit_data (rows_upto d rows).*2) as Hud by (rewrite Forall_fmap, Forall_forall in *; intros r [_ Hr]%list_elem_of_filter; by apply Hu).
  destruct (rows_upto d rows) as [|r rs]; [by apply Permutation_nil in Hpd as ->|].
  destruct (rows_upto d rows') as [|r' rs']; [by apply symmetry, Permutation_nil_cons in Hpd|].
  apply multiset_hash_perm; [done|]. by apply fmap_Permutation.
Qed.

Lemma rows_upto_all d rows : Forall (fun r => r.1 <= d) rows -> rows_upto d rows = rows.
Proof. intros Hd. unfold rows_upto. induction Hd as [|r rows Hr _ IH]; [done|]. rewrite filter_cons_True by done. by f_equal. Qed.

Lemma new_ok : index_ok ServiceCommitIndex_new [] 0 /\ sealed ServiceCommitIndex_new [].
Proof.
  assert (sealed ServiceCommitIndex_new []) as Hs.
  { intros d. unfold commitment_at. cbn [ci_snapshots ServiceCommitIndex_new]. by rewrite (proj2 (last_upto_None _ d)) by done. }
  split; [|done]. constructor; [apply new_fraction|constructor|done|constructor|done|done].
Qed.

(** A later score can come once all is sealed. *)
Lemma index_ok_later idx rows cur cur' : index_ok idx rows cur -> sealed idx rows -> cur <= cur' -> index_ok idx rows cur'.
Proof.
  intros [Ha Hu H0c Hr Hk Hb] Hs Hc. constructor; [done|done|lia| | |done].
  - eapply Forall_impl; [exact Hr|]. cbn. lia.
  - intros k h Hkh. apply Hk in Hkh. lia.
Qed.

Lemma index_ok_perm idx rows rows' cur : rows ≡ₚ rows' -> index_ok idx rows cur -> index_ok idx rows' cur.
Proof.
  intros Hp [Ha Hu H0c Hr Hk Hb]. constructor; [|by rewrite <-Hp|done|by rewrite <-Hp|done|].
  - unfold fraction in *. rewrite <-(prod_perm rows.*2 rows'.*2); [done|]. by apply fmap_Permutation.
  - intros d Hd. rewrite Hb by done. by apply commitment_perm.
Qed.

Lemma add_row_ok {E} idx rows cur row : index_ok idx rows cur -> unit_data row ->
  exists idx', add_row (E := E) idx row = Ok idx' /\ index_ok idx' ((cur, row) :: rows) cur /\ ci_snapshots idx' = ci_snapshots idx.
Proof.
  intros [Ha Hu H0c Hr Hk Hb] Hrow. unfold add_row.
  destruct (add_fraction (E := E) _ _ _ row Ha Hrow) as (acc & -> & Hf). run. eexists. split; [done|]. split; [|done].
  constructor; cbn [ci_acc ci_snapshots]; [done|by constructor|done|by constructor|done|].
  intros d Hd. unfold commitment_at, commitment, rows_upto in *. cbn [ci_snapshots]. rewrite Hb by done.
  by rewrite filter_cons_False by (cbn; lia).
Qed.

Lemma seal_ok {E} idx rows cur : index_ok idx rows cur -> rows <> [] ->
  exists idx', index_seal (E := E) idx cur = Ok idx' /\ index_ok idx' rows cur /\ sealed idx' rows.
Proof.
  intros [Ha Hu H0c Hr Hk Hb] Hne. unfold index_seal.
  destruct (finalize_multiset (E := E) (ci_acc idx) rows.*2 rows.*2) as (acc & -> & Hf); [by rewrite Forall_fmap|done|done|]. run.
  assert (sealed (mkIndex acc (<[cur := multiset_hash rows.*2]> (ci_snapshots idx))) rows) as Hs.
  { intros d. unfold commitment_at. cbn [ci_snapshots]. rewrite last_upto_insert by done.
    destruct (Z.ltb_spec d cur); [by apply Hb|]. unfold commitment. rewrite rows_upto_all; [by destruct rows|].
    eapply Forall_impl; [exact Hr|]. cbn. lia. }
  eexists. split; [done|]. split; [|done]. constructor; cbn [ci_acc ci_snapshots]; [done|done|done|done| |done].
  intros k h. destruct (decide (k = cur)) as [->|]; [lia|]. rewrite lookup_insert_ne by done. by apply Hk.
Qed.

(** ** Rebuilding *)
Lemma rebuild_loop_ok {E} rows idx rows0 cur :
  index_ok idx rows0 cur -> sealed idx rows0 \/ (exists r rest, rows = r :: rest /\ r.1 = cur) ->
  Forall (fun r => unit_data r.2) rows -> StronglySorted (fun a b => daa_leb a b = true) rows -> Forall (fun r => cur <= r.1) rows ->
  exists idx' cur', rebuild_loop (E := E) idx rows = Ok idx' /\ index_ok idx' (rows ++ rows0) cur' /\ sealed idx' (rows ++ rows0).
Proof.
  revert idx rows0 cur. induction rows as [|[daa row] rows IH]; intros idx rows0 cur Hi Hs Hu Hsort Hc; cbn [rebuild_loop].
  { destruct Hs as [Hs|(? & ? & ? & _)]; [|done]. eauto. }
  apply Forall_cons in Hu as [Hrow Hu], Hc as [Hd Hc]. inversion_clear Hsort as [|? ? Hsort' Hle]. cbn in Hrow, Hd.
  assert (index_ok idx rows0 daa) as Hi'.
  { destruct Hs as [Hs|(? & ? & [= <- <-] & <-)]; [|done]. by eapply index_ok_later. }
  assert (Forall (fun r => daa <= r.1) rows) as Hc'.
  { eapply Forall_impl; [exact Hle|]. unfold daa_leb. cbn. lia. }
  destruct (add_row_ok (E := E) idx rows0 daa row Hi' Hrow) as (idx1 & -> & Hi1 & _). run.
  assert (forall P idx' cur', index_ok idx' (rows ++ (daa, row) :: rows0) cur' -> (P /\ sealed idx' (rows ++ (daa, row) :: rows0)) ->
    P /\ index_ok idx' (((daa, row) :: rows) ++ rows0) cur' /\ sealed idx' (((daa, row) :: rows) ++ rows0)) as Hmid.
  { intros P idx' cur' Hio [HP Hse]. split; [done|]. split; [eapply index_ok_perm; [symmetry; apply Permutation_middle|done]|].
    intros d. rewrite Hse. apply commitment_perm; [apply (io_units _ _ _ Hio)|]. symmetry. apply Permutation_middle. }
  destruct rows as [|[daa' row'] rows'].
  - destruct (seal_ok (E := E) idx1 _ daa Hi1) as (idx2 & -> & Hi2 & Hs2); [done|]. run.
    destruct (IH idx2 _ daa Hi2) as (idx3 & cur3 & E3 & Hi3 & Hs3); [by left|done..|]. eauto.
  - destruct (Z.eqb_spec daa' daa) as [->|Hne].
    + destruct (IH idx1 _ daa Hi1) as (idx3 & cur3 & E3 & Hi3 & Hs3); [right; eauto|done..|]. exists idx3, cur3. by eapply Hmid.
    + destruct (seal_ok (E := E) idx1 _ daa Hi1) as (idx2 & -> & Hi2 & Hs2); [done|]. run.
      destruct (IH idx2 _ daa Hi2) as (idx3 & cur3 & E3 & Hi3 & Hs3); [by left|done..|]. exists idx3, cur3. by eapply Hmid.
Qed.

Lemma rebuild_ok {E} rows : Forall (fun r => unit_data r.2) rows -> Forall (fun r => 0 <= r.1) rows ->
  exists idx cur, rebuild (E := E) rows = Ok idx /\ index_ok idx rows cur /\ sealed idx rows.
Proof.
  intros Hu Hr. pose proof (sort_by_perm daa_leb rows) as Hp. destruct new_ok as [Hn Hs].
  destruct (rebuild_loop_ok (E := E) (sort_by daa_leb rows) ServiceCommitIndex_new [] 0 Hn) as (idx & cur & Er & Hi & Hse).
  - by left.
  - by rewrite Hp.
  - apply sort_by_sorted; unfold daa_leb; intros; lia.
  - by rewrite Hp.
  - rewrite app_nil_r in *. exists idx, cur. split; [done|]. split; [by eapply index_ok_perm|].
    intros d. rewrite Hse. apply commitment_perm; [apply (io_units _ _ _ Hi)|done].
Qed.
End spec.
