(* ===== verification/ServiceState.v ===== *)
(** * The persisted service state and its mirrors

    The stores of the service bond ([service_burn], [service_strike],
    [service_first_seen], [service_reward], [service_ledger_snapshot] under
    [consensus/src/model/stores]), the mirrors of them that the virtual processor
    keeps in memory, and the operations of
    [consensus/src/pipeline/virtual_processor/service_bond.rs] on both: the flush
    of final events, the load at boot, and the queries of block validation.  The
    transfer of the stores to a syncing node is in
    [consensus/src/consensus/mod.rs]. *)
From S2P Require Import Prelude Bytes Tx Slice BTree Ledger LedgerWire Payloads Hashing Math U3072 MuHash ServiceCommit.
From stdpp Require Import base gmap list.
#[local] Open Scope Z_scope.

Definition SERVICE_SUSPENSION_DAA : Z := 864000.
Definition SERVICE_STANDING_LAG_DAA : Z := 504000.
Definition MAX_REWARD_MINTS_PER_BLOCK : nat := 64.

(** ** Standing *)
(** A row of the history is the event score with the count and the last score. *)
Record StandingIndex := mkStanding { si_first_seen : gmap Hash Z; si_history : gmap Hash (list (Z * (Z * Z))) }.

Definition empty_standing : StandingIndex := mkStanding ∅ ∅.

(** The index, and whether the row is new. *)
Definition record_sighting (s : StandingIndex) (id : Hash) (daa : Z) : StandingIndex * bool :=
  match si_first_seen s !! id with
  | Some _ => (s, false)
  | None => (mkStanding (<[id := daa]> (si_first_seen s)) (si_history s), true)
  end.

Definition record_strike (s : StandingIndex) (id : Hash) (daa count last_daa : Z) : StandingIndex * bool :=
  let rows := default [] (si_history s !! id) in
  if existsb (fun r => r.1 =? daa) (reverse rows) then (s, false)
  else (mkStanding (si_first_seen s) (<[id := sort_by key_leb (rows ++ [(daa, (count, last_daa))])]> (si_history s)), true).

Definition lifetime_strikes (s : StandingIndex) : list (Hash * Z) :=
  omap (fun '(id, rows) =>
    let n := Z.of_nat (length (filter (fun '(daa, (count, last)) => 0 < count \/ 0 < last /\ last = daa) rows)) mod 2 ^ 32 in
    if 0 <? n then Some (id, n) else None) (map_to_list (si_history s)).

(** [partition_point]: the binary search for a point between what satisfies
    [p] and what does not. *)
Definition partition_point {E A} (p : A -> bool) (l : list A) : outcome E nat :=
  r ← binary_search_by_key (fun x => Ok (if p x then 0 else 2)) 1 l; Ok (match r with inl i | inr i => i end).

Definition standing {E} (s : StandingIndex) (id : Hash) (pov : Z) (v2 : bool) : outcome E bool :=
  let anchor := sat_sub pov SERVICE_STANDING_LAG_DAA in
  if negb (match si_first_seen s !! id with Some f => f <=? anchor | None => false end) then Ok false
  else if v2 then Ok true
  else match si_history s !! id with
       | None => Ok true
       | Some rows =>
           at_ ← partition_point (fun r => r.1 <=? anchor) rows;
           if (at_ =? 0)%nat then Ok true
           else row ← unwrap (rows !! (at_ - 1)%nat); Ok (row.2.1 =? 0)
       end.

(** ** Stores and mirrors *)
Record RewardEntry := mkRewardEntry { re_winner : Hash; re_amount : Z; re_daa : Z; re_spk : option ScriptPublicKey }.

(** The databases.  The keys of the strike log are the event score and the
    miner, big-endian, so that an iterator visits them by score, then by miner. *)
Record ServiceStores := mkStores {
  db_burn : gmap TransactionOutpoint Z;
  db_strike : gmap (Z * Hash) StrikeEntry;
  db_first_seen : gmap Hash Z;
  db_reward : gmap Hash RewardEntry;
}.

Definition strike_key_leb (a b : (Z * Hash) * StrikeEntry) : bool := pair_leb a.1 b.1.
Definition strike_iterator (db : ServiceStores) : list ((Z * Hash) * StrikeEntry) :=
  sort_by strike_key_leb (map_to_list (db_strike db)).

(** The databases and what the virtual processor mirrors of them. *)
Record ServiceState := mkService {
  sv_db : ServiceStores;
  sv_burned : gmap TransactionOutpoint Z;
  sv_suspended : gmap Hash Z;
  sv_standing : StandingIndex;
  sv_index : ServiceCommitIndex;
  sv_rewarded : gset Hash;
  sv_recent : gmap Z (list (Hash * Z * option ScriptPublicKey));
  sv_cursor : Z;
}.

Definition empty_stores : ServiceStores := mkStores ∅ ∅ ∅ ∅.
Definition fresh_state (db : ServiceStores) : ServiceState :=
  mkService db ∅ ∅ empty_standing ServiceCommitIndex_new ∅ ∅ 0.

(** ** Events *)
Inductive ServiceEvent :=
| EvMiss (miss : ServiceMiss)
| EvReset (id : Hash) (preserved : Z)
| EvSighting (id : Hash)
| EvReward (reward : ServiceReward).

(** The events of one fold in the order in which they are queued. *)
Definition outcome_events (o : FoldOutcome) : list ServiceEvent :=
  (EvSighting <$> fo_sightings o) ++ (EvMiss <$> fo_misses o) ++
  ((fun '(id, preserved) => EvReset id preserved) <$> fo_resets o) ++ (EvReward <$> fo_rewards o).

(** The record a miss leaves in the log: an executed suspension restarts the
    streak. *)
Definition miss_record (miss : ServiceMiss) (daa : Z) : StrikeEntry :=
  if decide (sm_penalty miss = Suspend) then mkStrike 0 daa else mkStrike (sm_consecutive_misses miss) daa.

Section flush.
Context `{Hashers, ChaCha20, Malachite} {E : Type} (finality_depth : Z).

(** A row of the strike log, if the mirror does not have it yet. *)
Definition flush_strike (daa : Z) (miner : Hash) (record : StrikeEntry) (st : ServiceState) : outcome E ServiceState :=
  let '(standing, fresh) := record_strike (sv_standing st) miner daa (se_count record) (se_last_daa record) in
  if fresh then
    idx ← add_row (sv_index st) (strike_row_bytes daa miner (se_count record) (se_last_daa record));
    let db := sv_db st in
    Ok (mkService (mkStores (db_burn db) (<[(daa, miner) := record]> (db_strike db)) (db_first_seen db) (db_reward db))
          (sv_burned st) (sv_suspended st) standing idx (sv_rewarded st) (sv_recent st) (sv_cursor st))
  else Ok st.

Definition flush_sighting (daa : Z) (miner : Hash) (st : ServiceState) : outcome E ServiceState :=
  let '(standing, fresh) := record_sighting (sv_standing st) miner daa in
  if fresh then
    idx ← add_row (sv_index st) (first_seen_row_bytes miner daa);
    let db := sv_db st in
    Ok (mkService (mkStores (db_burn db) (db_strike db) (<[miner := daa]> (db_first_seen db)) (db_reward db))
          (sv_burned st) (sv_suspended st) standing idx (sv_rewarded st) (sv_recent st) (sv_cursor st))
  else Ok st.

(** A burned claim: the mirror takes the new score even when the store keeps
    the old one. *)
Definition flush_burn (daa : Z) (st : ServiceState) (claim : EscrowClaim) : outcome E ServiceState :=
  let o := ec_outpoint claim in
  let burned := <[o := daa]> (sv_burned st) in
  match sv_burned st !! o with
  | Some _ =>
      Ok (mkService (sv_db st) burned (sv_suspended st) (sv_standing st) (sv_index st) (sv_rewarded st) (sv_recent st) (sv_cursor st))
  | None =>
      idx ← add_row (sv_index st) (burn_row_bytes (transaction_id o) (op_index o) daa);
      let db := sv_db st in
      Ok (mkService (mkStores (<[o := daa]> (db_burn db)) (db_strike db) (db_first_seen db) (db_reward db))
            burned (sv_suspended st) (sv_standing st) idx (sv_rewarded st) (sv_recent st) (sv_cursor st))
  end.

Definition flush_suspension (daa : Z) (miss : ServiceMiss) (st : ServiceState) : outcome E ServiceState :=
  if decide (sm_penalty miss = Suspend) then
    a ← add_ 64 daa finality_depth;
    until ← add_ 64 a SERVICE_SUSPENSION_DAA;
    Ok (mkService (sv_db st) (sv_burned st) (<[sm_miner miss := until]> (sv_suspended st)) (sv_standing st) (sv_index st)
          (sv_rewarded st) (sv_recent st) (sv_cursor st))
  else Ok st.

Definition flush_reward (daa : Z) (r : ServiceReward) (st : ServiceState) : outcome E ServiceState :=
  if decide (sr_request_hash r ∈ sv_rewarded st) then Ok st
  else
    idx ← add_row (sv_index st) (reward_row_bytes (sr_request_hash r) (sr_winner r) (sr_amount r) daa (sr_spk r));
    let db := sv_db st in
    let entry := mkRewardEntry (sr_winner r) (sr_amount r) daa (sr_spk r) in
    let recent := default [] (sv_recent st !! daa) ++ [(sr_request_hash r, sr_amount r, sr_spk r)] in
    Ok (mkService (mkStores (db_burn db) (db_strike db) (db_first_seen db) (<[sr_request_hash r := entry]> (db_reward db)))
          (sv_burned st) (sv_suspended st) (sv_standing st) idx ({[sr_request_hash r]} ∪ sv_rewarded st)
          (<[daa := recent]> (sv_recent st)) (sv_cursor st)).

Definition flush_event (daa : Z) (event : ServiceEvent) (st : ServiceState) : outcome E ServiceState :=
  st ← match event with
       | EvSighting miner => flush_sighting daa miner st
       | EvReset miner preserved => flush_strike daa miner (mkStrike 0 preserved) st
       | EvMiss miss =>
           st ← foldM (flush_burn daa) st (sm_burned miss);
           st ← flush_strike daa (sm_miner miss) (miss_record miss daa) st;
           flush_suspension daa miss st
       | EvReward reward => flush_reward daa reward st
       end;
  Ok (mkService (sv_db st) (sv_burned st) (sv_suspended st) (sv_standing st) (sv_index st) (sv_rewarded st) (sv_recent st)
        (Z.max (sv_cursor st) daa)).

Definition seal_state (daa : Z) (st : ServiceState) : outcome E ServiceState :=
  idx ← index_seal (sv_index st) daa;
  Ok (mkService (sv_db st) (sv_burned st) (sv_suspended st) (sv_standing st) idx (sv_rewarded st) (sv_recent st) (sv_cursor st)).

(** The loop over the queue: what is left of it, and the state.  The score
    being sealed is sealed when the next event has another one, and at the end. *)
Fixpoint flush_loop (tip_daa : Z) (sealing : option Z) (queue : list (Z * Z * ServiceEvent)) (st : ServiceState)
    : outcome E (list (Z * Z * ServiceEvent) * ServiceState) :=
  let finish := match sealing with Some d => st ← seal_state d st; Ok (queue, st) | None => Ok (queue, st) end in
  match queue with
  | [] => finish
  | (_, daa, event) :: queue' =>
      final ← add_ 64 daa finality_depth;
      if final <=? tip_daa then
        st ← match sealing with Some d => if d =? daa then Ok st else seal_state d st | None => Ok st end;
        st ← flush_event daa event st;
        flush_loop tip_daa (Some daa) queue' st
      else finish
  end.

(** ** Boot *)
Definition burn_rows (db : ServiceStores) : list (Z * list Z) :=
  (fun '(o, daa) => (daa, burn_row_bytes (transaction_id o) (op_index o) daa)) <$> map_to_list (db_burn db).
Definition strike_rows (db : ServiceStores) : list (Z * list Z) :=
  (fun '((daa, miner), e) => (daa, strike_row_bytes daa miner (se_count e) (se_last_daa e))) <$> strike_iterator db.
Definition first_seen_rows (db : ServiceStores) : list (Z * list Z) :=
  (fun '(miner, daa) => (daa, first_seen_row_bytes miner daa)) <$> btree_iter (db_first_seen db).
Definition reward_rows (db : ServiceStores) : list (Z * list Z) :=
  (fun '(rh, e) => (re_daa e, reward_row_bytes rh (re_winner e) (re_amount e) (re_daa e) (re_spk e))) <$> btree_iter (db_reward db).
Definition store_rows (db : ServiceStores) : list (Z * list Z) :=
  burn_rows db ++ strike_rows db ++ first_seen_rows db ++ reward_rows db.

(** One record of the strike log: the mirror and the suspensions. *)
Definition load_strike (st : StandingIndex * gmap Hash Z) (entry : (Z * Hash) * StrikeEntry)
    : outcome E (StandingIndex * gmap Hash Z) :=
  let '(standing, suspended) := st in
  let '((event_daa, miner), record) := entry in
  let standing := (record_strike standing miner event_daa (se_count record) (se_last_daa record)).1 in
  if (se_count record =? 0) && (se_last_daa record =? event_daa) then
    a ← add_ 64 (se_last_daa record) finality_depth;
    until ← add_ 64 a SERVICE_SUSPENSION_DAA;
    Ok (standing, <[miner := until]> suspended)
  else Ok (standing, suspended).

(** One record of the reward store: the rewarded hashes and the wins by score. *)
Definition load_reward (st : gset Hash * gmap Z (list (Hash * Z * option ScriptPublicKey))) (kv : Hash * RewardEntry)
    : gset Hash * gmap Z (list (Hash * Z * option ScriptPublicKey)) :=
  let '(rewarded, recent) := st in
  let '(rh, e) := kv in
  ({[rh]} ∪ rewarded, <[re_daa e := default [] (recent !! re_daa e) ++ [(rh, re_amount e, re_spk e)]]> recent).

Definition load_service_burned (st : ServiceState) : outcome E ServiceState :=
  let db := sv_db st in
  let burned := foldl (fun m '(o, daa) => <[o := daa]> m) (sv_burned st) (map_to_list (db_burn db)) in
  '(standing, suspended) ← foldM load_strike (empty_standing, sv_suspended st) (strike_iterator db);
  let standing := foldl (fun s '(miner, daa) => (record_sighting s miner daa).1) standing (btree_iter (db_first_seen db)) in
  let '(rewarded, recent) :=
    foldl load_reward (∅, ∅) (btree_iter (db_reward db)) in
  idx ← rebuild (store_rows db);
  Ok (mkService db burned suspended standing idx rewarded recent (foldl Z.max 0 (store_rows db).*1)).
End flush.

(** The refold baseline: the last record per miner. *)
Definition load_strike_base (db : ServiceStores) : gmap Hash StrikeEntry :=
  foldl (fun base '((_, miner), record) => <[miner := record]> base) ∅ (strike_iterator db).

(** ** Queries of block validation *)
Definition is_producer_suspended (st : ServiceState) (producer : Hash) (daa_score : Z) : bool :=
  match sv_suspended st !! producer with
  | Some until => (sat_sub until SERVICE_SUSPENSION_DAA <=? daa_score) && (daa_score <? until)
  | None => false
  end.

Definition win_leb (a b : Hash * Z * ScriptPublicKey) : bool := a.1.1 <=? b.1.1.

(** The wins of one score in the order of their request hashes; those without a
    payout script stay burned. *)
Definition wins_of (entries : list (Hash * Z * option ScriptPublicKey)) : list (Hash * Z * ScriptPublicKey) :=
  sort_by win_leb (omap (fun '(rh, amount, spk) => match spk with Some s => Some (rh, amount, s) | None => None end) entries).

(** [service_reward_mints_for] once the scores of the selected parent and of its
    parent are read. *)
Definition reward_mints (finality_depth : Z) (active : bool) (st : ServiceState) (sp_daa parent_daa : Z) : list (ScriptPublicKey * Z) :=
  if negb active then []
  else
    let lo := sat_sub parent_daa finality_depth in
    let hi := sat_sub sp_daa finality_depth in
    if hi <=? lo then []
    else
      let wins := filter (fun kv => lo < kv.1 /\ kv.1 <= hi) (btree_iter (sv_recent st)) ≫= (fun kv => wins_of kv.2) in
      (fun '(_, amount, spk) => (spk, amount)) <$> take MAX_REWARD_MINTS_PER_BLOCK wins.

(** ** Transfer to a syncing node *)
Inductive ConsensusError := HeaderNotFound (hash : Hash) | General.

Inductive Row :=
| RowBurn (o : TransactionOutpoint) (daa : Z)
| RowStrike (daa : Z) (miner : Hash) (entry : StrikeEntry)
| RowSighting (miner : Hash) (daa : Z)
| RowReward (request_hash : Hash) (entry : RewardEntry).

(** The rows at or below the cutoff; [pp_daa] is the score of the pruning point,
    if its header is known. *)
Definition get_service_state_rows (db : ServiceStores) (pruning_point : Hash) (pp_daa : option Z) (handoff_daa : Z)
    : outcome ConsensusError (list (list Z)) :=
  match pp_daa with
  | None => Err (HeaderNotFound pruning_point)
  | Some pp_daa =>
      let cutoff := sat_add 64 pp_daa handoff_daa in
      let upto (rows : list (Z * list Z)) := (filter (fun r => r.1 <= cutoff) rows).*2 in
      Ok (upto (burn_rows db) ++ upto (strike_rows db) ++ upto (first_seen_rows db) ++ upto (reward_rows db))
  end.

Definition parse_row (row : list Z) : outcome ConsensusError Row :=
  match row with
  | 1 :: _ =>
      if (length row =? 45)%nat then
        Ok (RowBurn (mkOutpoint (hash_of_bytes (slice 1 33 row)) (of_le_bytes (slice 33 37 row))) (of_le_bytes (slice 37 45 row)))
      else Err General
  | 2 :: _ =>
      if (length row =? 53)%nat then
        Ok (RowStrike (of_le_bytes (slice 1 9 row)) (hash_of_bytes (slice 9 41 row))
              (mkStrike (of_le_bytes (slice 41 45 row)) (of_le_bytes (slice 45 53 row))))
      else Err General
  | 3 :: _ =>
      if (length row =? 41)%nat then Ok (RowSighting (hash_of_bytes (slice 1 33 row)) (of_le_bytes (slice 33 41 row)))
      else Err General
  | 4 :: _ =>
      if (85 <=? length row)%nat then
        let version := of_le_bytes (slice 81 83 row) in
        let script_len := Z.to_nat (of_le_bytes (slice 83 85 row)) in
        if negb (length row =? 85 + script_len)%nat then Err General
        else
          let spk := if (0 <? script_len)%nat || negb (version =? 0)
                     then Some (mkSpk version (slice 85 (85 + script_len) row)) else None in
          Ok (RowReward (hash_of_bytes (slice 1 33 row))
                (mkRewardEntry (hash_of_bytes (slice 33 65 row)) (of_le_bytes (slice 65 73 row)) (of_le_bytes (slice 73 81 row)) spk))
      else Err General
  | _ => Err General
  end.

Definition set_row (db : ServiceStores) (row : Row) : ServiceStores :=
  match row with
  | RowBurn o daa => mkStores (<[o := daa]> (db_burn db)) (db_strike db) (db_first_seen db) (db_reward db)
  | RowStrike daa miner e => mkStores (db_burn db) (<[(daa, miner) := e]> (db_strike db)) (db_first_seen db) (db_reward db)
  | RowSighting miner daa => mkStores (db_burn db) (db_strike db) (<[miner := daa]> (db_first_seen db)) (db_reward db)
  | RowReward rh e => mkStores (db_burn db) (db_strike db) (db_first_seen db) (<[rh := e]> (db_reward db))
  end.

(** Every row is parsed before anything is written. *)
Definition import_service_state `{Hashers, ChaCha20, Malachite} (finality_depth : Z) (st : ServiceState) (rows : list (list Z))
    : outcome ConsensusError ServiceState :=
  parsed ← mapM' parse_row rows;
  load_service_burned finality_depth
    (mkService (foldl set_row (sv_db st) parsed) (sv_burned st) (sv_suspended st) (sv_standing st) (sv_index st) (sv_rewarded st)
       (sv_recent st) (sv_cursor st)).
