(* ===== verification/ServiceMirror.v ===== *)
(** * The mirrors are a function of the stores

    What the virtual processor keeps in memory of the service state is
    determined by the stores: flushing events one by one and loading the stores
    at boot give the same answers. *)
From S2P Require Import Prelude Bytes Tx Slice BTree Ledger LedgerWire Hashing Math MathArith U3072 MuHash ServiceCommit ServiceState.
From stdpp Require Import base gmap list.
#[local] Open Scope Z_scope.

(** ** The history of strikes *)
Definition history_ok (db : gmap (Z * Hash) StrikeEntry) (h : gmap Hash (list (Z * (Z * Z)))) : Prop :=
  forall id, match h !! id with
  | Some rows => rows <> [] /\ sorted rows /\ (forall d c l, (d, (c, l)) ∈ rows <-> db !! (d, id) = Some (mkStrike c l))
  | None => forall d, db !! (d, id) = None
  end.

Lemma existsb_daa (rows : list (Z * (Z * Z))) d : existsb (fun r => r.1 =? d) (reverse rows) = true <-> exists c l, (d, (c, l)) ∈ rows.
Proof.
  rewrite existsb_exists. split.
  - intros ([d' [c l]] & Hin & Hd). exists c, l. rewrite <-list_elem_of_In, elem_of_reverse in Hin. apply Z.eqb_eq in Hd as <-. exact Hin.
  - intros (c & l & Hin). exists (d, (c, l)). split; [by rewrite <-list_elem_of_In, elem_of_reverse|]. apply Z.eqb_refl.
Qed.

Lemma history_lookup db h id d : history_ok db h ->
  existsb (fun r => r.1 =? d) (reverse (default [] (h !! id))) = true <-> is_Some (db !! (d, id)).
Proof.
  intros Hh. rewrite existsb_daa. specialize (Hh id). destruct (h !! id) as [rows|]; cbn.
  - destruct Hh as (_ & _ & Hr). split.
    + intros (c & l & Hin%Hr). eauto.
    + intros [[c l] He]. exists c, l. by apply Hr.
  - rewrite Hh. split; [intros (? & ? & ?); set_solver|by intros [? ?]].
Qed.

(** Sorting rows of distinct scores. *)
Lemma sort_sorted {V} (l : list (Z * V)) : NoDup l.*1 -> sorted (sort_by key_leb l).
Proof.
  intros Hnd. assert (StronglySorted (fun a b => key_leb a b = true) (sort_by key_leb l)) as Hs.
  { apply sort_by_sorted; unfold key_leb; intros; lia. }
  assert (NoDup (sort_by key_leb l).*1) as Hnd' by by rewrite sort_by_perm.
  unfold sorted. induction Hs as [|a s _ IH Ha]; [constructor|]. cbn in *. apply NoDup_cons in Hnd' as [Hna Hnd'].
  constructor; [by apply IH|]. rewrite Forall_fmap. rewrite Forall_forall in *. intros b Hb. cbn.
  specialize (Ha b Hb). unfold key_leb in Ha. assert (a.1 <> b.1); [|lia]. intros E. apply Hna. rewrite E. by apply list_elem_of_fmap_2.
Qed.

(** A row that is not there yet is recorded, one that is is not. *)
Lemma record_strike_new db s id d c l : history_ok db (si_history s) -> db !! (d, id) = None ->
  exists h, record_strike s id d c l = (mkStanding (si_first_seen s) h, true) /\ history_ok (<[(d, id) := mkStrike c l]> db) h.
Proof.
  intros Hh Hd. unfold record_strike.
  destruct (existsb _ _) eqn:Ee; [apply (history_lookup db) in Ee; [|done]; rewrite Hd in Ee; by destruct Ee|].
  eexists. split; [done|]. intros id'. destruct (decide (id' = id)) as [->|Hne].
  - rewrite lookup_insert_eq. set (rows := default [] (si_history s !! id)).
    assert (sorted rows /\ (forall d c l, (d, (c, l)) ∈ rows <-> db !! (d, id) = Some (mkStrike c l))) as [Hs Hr].
    { subst rows. specialize (Hh id). destruct (si_history s !! id); cbn; [naive_solver|]. split; [constructor|].
      intros. rewrite Hh. set_solver. }
    assert (d ∉ rows.*1) as Hnd.
    { intros ([d' [c' l']] & -> & Hin)%list_elem_of_fmap. apply Hr in Hin. cbn in *. congruence. }
    split; [|split].
    + intros E0. apply (f_equal length) in E0. rewrite length_sort_by, length_app in E0. cbn in E0. lia.
    + apply sort_sorted. rewrite fmap_app. apply NoDup_app. split; [by apply sorted_NoDup|]. split; [set_solver|]. cbn. apply NoDup_singleton.
    + intros d' c' l'. rewrite elem_of_sort_by, elem_of_app, list_elem_of_singleton, Hr. destruct (decide (d' = d)) as [->|Hd'].
      * rewrite lookup_insert_eq, Hd. naive_solver.
      * rewrite lookup_insert_ne by congruence. naive_solver.
  - rewrite lookup_insert_ne by done. specialize (Hh id'). destruct (si_history s !! id') as [rows|].
    + destruct Hh as (? & ? & Hr). split; [done|]. split; [done|]. intros. by rewrite Hr, lookup_insert_ne by congruence.
    + intros d'. by rewrite lookup_insert_ne by congruence.
Qed.

Lemma record_strike_old db s id d c l e : history_ok db (si_history s) -> db !! (d, id) = Some e -> record_strike s id d c l = (s, false).
Proof. intros Hh Hd. unfold record_strike. by rewrite (proj2 (history_lookup db _ id d Hh)) by eauto. Qed.

(** The store determines the history. *)
Lemma history_unique db h1 h2 : history_ok db h1 -> history_ok db h2 -> h1 = h2.
Proof.
  intros H1 H2. apply map_eq. intros id. specialize (H1 id). specialize (H2 id).
  destruct (h1 !! id) as [r1|], (h2 !! id) as [r2|]; [|exfalso|exfalso|done].
  - f_equal. destruct H1 as (_ & Hs1 & H1), H2 as (_ & Hs2 & H2). apply sorted_unique; [done..|].
    apply NoDup_Permutation; [by eapply NoDup_fmap_1, sorted_NoDup..|]. intros [d [c l]]. by rewrite H1, H2.
  - destruct H1 as (Hne & _ & H1). destruct r1 as [|[d [c l]] r1]; [done|]. specialize (H2 d).
    rewrite (proj1 (H1 d c l)) in H2; [done|left].
  - destruct H2 as (Hne & _ & H2). destruct r2 as [|[d [c l]] r2]; [done|]. specialize (H1 d).
    rewrite (proj1 (H2 d c l)) in H1; [done|left].
Qed.

(** ** Suspensions: the last executed one of each miner *)
Definition executed (d : Z) : StrikeEntry := mkStrike 0 d.

Definition suspended_ok (finality_depth : Z) (db : gmap (Z * Hash) StrikeEntry) (suspended : gmap Hash Z) : Prop :=
  forall m, match suspended !! m with
  | Some u => exists d, db !! (d, m) = Some (executed d) /\ u = d + finality_depth + SERVICE_SUSPENSION_DAA /\
                (forall d', db !! (d', m) = Some (executed d') -> d' <= d)
  | None => forall d, db !! (d, m) <> Some (executed d)
  end.

Lemma suspended_unique fin db s1 s2 : suspended_ok fin db s1 -> suspended_ok fin db s2 -> s1 = s2.
Proof.
  intros H1 H2. apply map_eq. intros m. specialize (H1 m). specialize (H2 m).
  destruct (s1 !! m) as [u1|], (s2 !! m) as [u2|]; [|exfalso; naive_solver..|done].
  destruct H1 as (d1 & Hd1 & -> & Hm1), H2 as (d2 & Hd2 & -> & Hm2). specialize (Hm1 _ Hd2). specialize (Hm2 _ Hd1). f_equal. lia.
Qed.

Lemma suspended_other fin db s d m r : suspended_ok fin db s -> db !! (d, m) = None -> r <> executed d ->
  suspended_ok fin (<[(d, m) := r]> db) s.
Proof.
  intros Hs Hd Hr. assert (forall d' m', <[(d, m) := r]> db !! (d', m') = Some (executed d') <-> db !! (d', m') = Some (executed d')) as Hiff.
  { intros d' m'. destruct (decide ((d', m') = (d, m))) as [[= -> ->]|Hne]; [|by rewrite lookup_insert_ne by congruence].
    rewrite lookup_insert_eq, Hd. naive_solver. }
  intros m'. specialize (Hs m'). destruct (s !! m') as [u|].
  - destruct Hs as (d1 & Hd1 & -> & Hm). exists d1. rewrite Hiff. split; [done|]. split; [done|]. intros d'. rewrite Hiff. apply Hm.
  - intros d'. rewrite Hiff. apply Hs.
Qed.

Lemma suspended_new fin db s d m : suspended_ok fin db s ->
  (forall d', is_Some (db !! (d', m)) -> d' <= d) -> db !! (d, m) = Some (executed d) \/ db !! (d, m) = None ->
  suspended_ok fin (<[(d, m) := executed d]> db) (<[m := d + fin + SERVICE_SUSPENSION_DAA]> s).
Proof.
  intros Hs Hle Hd m'. destruct (decide (m' = m)) as [->|Hne].
  - rewrite lookup_insert_eq. exists d. rewrite lookup_insert_eq. split; [done|]. split; [done|]. intros d'.
    destruct (decide (d' = d)) as [->|]; [lia|]. rewrite lookup_insert_ne by congruence. intros He. apply Hle. eauto.
  - rewrite lookup_insert_ne by done. specialize (Hs m'). destruct (s !! m') as [u|].
    + destruct Hs as (d1 & Hd1 & -> & Hm). exists d1. rewrite lookup_insert_ne by congruence. split; [done|]. split; [done|].
      intros d'. rewrite lookup_insert_ne by congruence. apply Hm.
    + intros d'. rewrite lookup_insert_ne by congruence. apply Hs.
Qed.

(** ** Rewards by score *)
Definition recent_ok (db : gmap Hash RewardEntry) (recent : gmap Z (list (Hash * Z * option ScriptPublicKey))) : Prop :=
  forall d, match recent !! d with
  | Some l => l <> [] /\ NoDup l.*1.*1 /\ (forall rh a s, (rh, a, s) ∈ l <-> exists w, db !! rh = Some (mkRewardEntry w a d s))
  | None => forall rh e, db !! rh = Some e -> re_daa e <> d
  end.

Lemma recent_new db recent rh w a d s : recent_ok db recent -> db !! rh = None ->
  recent_ok (<[rh := mkRewardEntry w a d s]> db) (<[d := default [] (recent !! d) ++ [(rh, a, s)]]> recent).
Proof.
  intros Hr Hrh d'. destruct (decide (d' = d)) as [->|Hne].
  - rewrite lookup_insert_eq. set (l := default [] (recent !! d)).
    assert (NoDup l.*1.*1 /\ (forall rh a s, (rh, a, s) ∈ l <-> exists w, db !! rh = Some (mkRewardEntry w a d s))) as [Hnd Hl].
    { subst l. specialize (Hr d). destruct (recent !! d) as [l|]; cbn; [naive_solver|]. split; [constructor|].
      intros rh' a' s'. split; [set_solver|]. intros (w' & Hw). by apply Hr in Hw. }
    split; [by destruct l|]. split.
    + rewrite !fmap_app. apply NoDup_app. split; [done|]. split; [|apply NoDup_singleton]. cbn.
      intros x Hx ->%list_elem_of_singleton. apply list_elem_of_fmap in Hx as ([x' a'] & -> & Hx). apply list_elem_of_fmap in Hx as ([[x2 a2] s2] & [= -> ->] & Hx).
      apply Hl in Hx as (w' & Hw). cbn in Hrh. congruence.
    + intros rh' a' s'. rewrite elem_of_app, list_elem_of_singleton, Hl. destruct (decide (rh' = rh)) as [->|Hrh'].
      * rewrite lookup_insert_eq, Hrh. naive_solver.
      * rewrite lookup_insert_ne by done. naive_solver.
  - rewrite lookup_insert_ne by done. specialize (Hr d'). destruct (recent !! d') as [l|].
    + destruct Hr as (? & ? & Hl). split; [done|]. split; [done|]. intros rh' a' s'. rewrite Hl.
      destruct (decide (rh' = rh)) as [->|]; [|by rewrite lookup_insert_ne]. rewrite lookup_insert_eq, Hrh. naive_solver.
    + intros rh' e. destruct (decide (rh' = rh)) as [->|]; [|rewrite lookup_insert_ne by done; apply Hr].
      rewrite lookup_insert_eq. intros [= <-]. cbn. congruence.
Qed.

(** The wins of a score do not depend on the order of the entries. *)
Lemma wins_of_same l1 l2 : NoDup l1.*1.*1 -> l1 ≡ₚ l2 -> wins_of l1 = wins_of l2.
Proof.
  intros Hnd Hp. unfold wins_of. apply (StronglySorted_unique_strong (fun a b => win_leb a b = true)).
  - intros [[h1 a1] s1] [[h2 a2] s2] H1 H2 H12 H21. unfold win_leb in *. cbn in *. assert (h1 = h2) as <- by lia.
    rewrite elem_of_sort_by, list_elem_of_omap in H1, H2.
    destruct H1 as ([[? ?] [?|]] & H1 & [= -> -> ->]), H2 as ([[? ?] [?|]] & H2 & [= -> -> ->]). rewrite <-Hp in H2.
    apply list_elem_of_lookup in H1 as [i Hi], H2 as [j Hj].
    assert (l1.*1.*1 !! i = Some h1) as Hi' by (by rewrite !list_lookup_fmap, Hi).
    assert (l1.*1.*1 !! j = Some h1) as Hj' by (by rewrite !list_lookup_fmap, Hj).
    pose proof (NoDup_lookup _ _ _ _ Hnd Hi' Hj') as ->. congruence.
  - apply sort_by_sorted; unfold win_leb; intros; lia.
  - apply sort_by_sorted; unfold win_leb; intros; lia.
  - rewrite !sort_by_perm. by rewrite Hp.
Qed.

Lemma recent_wins db r1 r2 : recent_ok db r1 -> recent_ok db r2 -> wins_of <$> r1 = wins_of <$> r2.
Proof.
  intros H1 H2. apply map_eq. intros d. rewrite !lookup_fmap. specialize (H1 d). specialize (H2 d).
  assert (forall l, l <> [] -> (forall rh a s, (rh, a, s) ∈ l <-> exists w, db !! rh = Some (mkRewardEntry w a d s)) ->
    ~ (forall rh e, db !! rh = Some e -> re_daa e <> d)) as Hno.
  { intros [|[[rh a] s] l] Hne Hl Hn; [done|]. destruct (proj1 (Hl rh a s)) as [w Hw]; [left|]. by apply (Hn _ _ Hw). }
  destruct (r1 !! d) as [l1|], (r2 !! d) as [l2|]; [|exfalso; naive_solver..|done]. cbn. f_equal.
  destruct H1 as (_ & Hn1 & H1), H2 as (_ & Hn2 & H2). apply wins_of_same; [done|].
  apply NoDup_Permutation; [by do 2 eapply NoDup_fmap_1..|]. intros [[rh a] s]. by rewrite H1, H2.
Qed.

Lemma reward_mints_same db fin active st1 st2 sp parent :
  recent_ok db (sv_recent st1) -> recent_ok db (sv_recent st2) ->
  reward_mints fin active st1 sp parent = reward_mints fin active st2 sp parent.
Proof.
  intros H1 H2. unfold reward_mints. destruct (negb active); [done|]. destruct (_ <=? _); [done|]. do 2 f_equal.
  assert (forall lo hi (m : gmap Z (list (Hash * Z * option ScriptPublicKey))),
    filter (fun kv => lo < kv.1 /\ kv.1 <= hi) (btree_iter m) ≫= (fun kv => wins_of kv.2) =
    filter (fun kv => lo < kv.1 /\ kv.1 <= hi) (btree_iter (wins_of <$> m)) ≫= snd) as Hf.
  { intros lo hi m. rewrite iter_fmap. induction (btree_iter m) as [|[k v] l IH]; [done|]. rewrite fmap_cons, !filter_cons.
    cbn [fst]. case_decide; cbn; [by f_equal|done]. }
  rewrite !Hf. by rewrite (recent_wins db _ _ H1 H2).
Qed.

(** ** Rows of the stores *)
Section rows.
Implicit Types (db : ServiceStores).

Lemma rows_new_burn db o d : db_burn db !! o = None ->
  store_rows (mkStores (<[o := d]> (db_burn db)) (db_strike db) (db_first_seen db) (db_reward db)) ≡ₚ
  (d, burn_row_bytes (transaction_id o) (op_index o) d) :: store_rows db.
Proof.
  intros Ho. unfold store_rows at 1, burn_rows at 1. cbn [db_burn]. by rewrite map_to_list_insert.
Qed.

Lemma rows_new_strike db d m e : db_strike db !! (d, m) = None ->
  store_rows (mkStores (db_burn db) (<[(d, m) := e]> (db_strike db)) (db_first_seen db) (db_reward db)) ≡ₚ
  (d, strike_row_bytes d m (se_count e) (se_last_daa e)) :: store_rows db.
Proof.
  intros Hm. assert (strike_rows (mkStores (db_burn db) (<[(d, m) := e]> (db_strike db)) (db_first_seen db) (db_reward db)) ≡ₚ
    (d, strike_row_bytes d m (se_count e) (se_last_daa e)) :: strike_rows db) as Hp.
  { unfold strike_rows, strike_iterator. cbn [db_strike]. by rewrite !(sort_by_perm strike_key_leb), map_to_list_insert. }
  unfold store_rows at 1. rewrite Hp. symmetry. apply Permutation_middle.
Qed.

Lemma rows_new_sighting db m d : db_first_seen db !! m = None ->
  store_rows (mkStores (db_burn db) (db_strike db) (<[m := d]> (db_first_seen db)) (db_reward db)) ≡ₚ
  (d, first_seen_row_bytes m d) :: store_rows db.
Proof.
  intros Hm. assert (first_seen_rows (mkStores (db_burn db) (db_strike db) (<[m := d]> (db_first_seen db)) (db_reward db)) ≡ₚ
    (d, first_seen_row_bytes m d) :: first_seen_rows db) as Hp.
  { unfold first_seen_rows. cbn [db_first_seen]. by rewrite !iter_perm, map_to_list_insert. }
  unfold store_rows at 1. rewrite Hp. rewrite app_assoc. symmetry. unfold store_rows. rewrite app_assoc. apply Permutation_middle.
Qed.

Lemma rows_new_reward db rh w a d s : db_reward db !! rh = None ->
  store_rows (mkStores (db_burn db) (db_strike db) (db_first_seen db) (<[rh := mkRewardEntry w a d s]> (db_reward db))) ≡ₚ
  (d, reward_row_bytes rh w a d s) :: store_rows db.
Proof.
  intros Hm. assert (reward_rows (mkStores (db_burn db) (db_strike db) (db_first_seen db) (<[rh := mkRewardEntry w a d s]> (db_reward db))) ≡ₚ
    (d, reward_row_bytes rh w a d s) :: reward_rows db) as Hp.
  { unfold reward_rows. cbn [db_reward]. by rewrite !iter_perm, map_to_list_insert. }
  unfold store_rows at 1. rewrite Hp, !app_assoc. symmetry. unfold store_rows. rewrite !app_assoc. apply Permutation_middle.
Qed.

(** Every entry of the strike store has its row. *)
Lemma strike_row_in db d m e : db_strike db !! (d, m) = Some e ->
  (d, strike_row_bytes d m (se_count e) (se_last_daa e)) ∈ store_rows db.
Proof.
  intros He. unfold store_rows. apply elem_of_app. right. apply elem_of_app. left. unfold strike_rows, strike_iterator.
  apply list_elem_of_fmap. exists ((d, m), e). split; [done|]. by rewrite elem_of_sort_by, elem_of_map_to_list.
Qed.

Lemma rows_some db : (db_burn db <> ∅ \/ db_strike db <> ∅ \/ db_first_seen db <> ∅ \/ db_reward db <> ∅) -> store_rows db <> [].
Proof.
  unfold store_rows, burn_rows, strike_rows, first_seen_rows, reward_rows, strike_iterator. intros Hne E0.
  apply app_eq_nil in E0 as [E1 E0]. apply app_eq_nil in E0 as [E2 E0]. apply app_eq_nil in E0 as [E3 E4].
  apply fmap_nil_inv in E1, E2, E3, E4. apply (f_equal length) in E2, E3, E4. rewrite length_sort_by in E2. rewrite length_iter in E3. rewrite length_iter in E4.
  apply map_to_list_empty_iff in E1. apply nil_length_inv, map_to_list_empty_iff in E2. apply map_size_empty_inv in E3, E4. naive_solver.
Qed.
End rows.

(** ** Flushing an event *)
Section flush_ok.
Context `{Hashers, ChaCha20, Malachite} {E : Type} (fin : Z).

(** The mirrors show the stores; the scores below [cur] are sealed. *)
Record mirrors (st : ServiceState) (cur : Z) : Prop := {
  mr_burned : sv_burned st = db_burn (sv_db st);
  mr_first : si_first_seen (sv_standing st) = db_first_seen (sv_db st);
  mr_history : history_ok (db_strike (sv_db st)) (si_history (sv_standing st));
  mr_rewarded : sv_rewarded st = dom (db_reward (sv_db st));
  mr_recent : recent_ok (db_reward (sv_db st)) (sv_recent st);
  mr_index : index_ok (sv_index st) (store_rows (sv_db st)) cur;
}.

(** What an event does to the two stores that later events depend on. *)
Definition record_row (k : Z * Hash) (r : StrikeEntry) (db : gmap (Z * Hash) StrikeEntry) : gmap (Z * Hash) StrikeEntry :=
  match db !! k with Some _ => db | None => <[k := r]> db end.

Definition strike_effect (d : Z) (ev : ServiceEvent) (db : gmap (Z * Hash) StrikeEntry) : gmap (Z * Hash) StrikeEntry :=
  match ev with
  | EvMiss x => record_row (d, sm_miner x) (miss_record x d) db
  | EvReset m p => record_row (d, m) (mkStrike 0 p) db
  | _ => db
  end.

Definition burn_effect (d : Z) (ev : ServiceEvent) (db : gmap TransactionOutpoint Z) : gmap TransactionOutpoint Z :=
  match ev with EvMiss x => foldl (fun db c => <[ec_outpoint c := d]> db) db (sm_burned x) | _ => db end.

(** The rows an event can add. *)
Definition event_rows (d : Z) (ev : ServiceEvent) : list (list Z) :=
  match ev with
  | EvMiss x =>
      let r := miss_record x d in
      strike_row_bytes d (sm_miner x) (se_count r) (se_last_daa r) ::
      ((fun c => burn_row_bytes (transaction_id (ec_outpoint c)) (op_index (ec_outpoint c)) d) <$> sm_burned x)
  | EvReset m p => [strike_row_bytes d m 0 p]
  | EvSighting m => [first_seen_row_bytes m d]
  | EvReward r => [reward_row_bytes (sr_request_hash r) (sr_winner r) (sr_amount r) d (sr_spk r)]
  end.

Lemma flush_burn_ok st d c : mirrors st d -> db_burn (sv_db st) !! ec_outpoint c = None \/ db_burn (sv_db st) !! ec_outpoint c = Some d ->
  unit_data (burn_row_bytes (transaction_id (ec_outpoint c)) (op_index (ec_outpoint c)) d) ->
  exists st', flush_burn (E := E) d st c = Ok st' /\ mirrors st' d /\
    sv_db st' = mkStores (<[ec_outpoint c := d]> (db_burn (sv_db st))) (db_strike (sv_db st)) (db_first_seen (sv_db st)) (db_reward (sv_db st)) /\
    sv_suspended st' = sv_suspended st /\ sv_cursor st' = sv_cursor st.
Proof.
  intros [Hb Hf Hh Hw Hr Hi] Hc Hu. unfold flush_burn. rewrite Hb. destruct (db_burn (sv_db st) !! ec_outpoint c) as [d'|] eqn:Ed.
  - destruct Hc as [?|[= ->]]; [done|]. eexists. split; [done|]. rewrite insert_id by done. destruct (sv_db st) as [b s f r] eqn:Edb. cbn in *.
    split; [|done]. by constructor; cbn; rewrite ?Edb.
  - destruct (add_row_ok (E := E) _ _ _ _ Hi Hu) as (idx & -> & Hi' & _). run. eexists. split; [done|]. split; [|done].
    constructor; cbn; [done..|]. eapply index_ok_perm; [|exact Hi']. symmetry. by apply rows_new_burn.
Qed.

Lemma flush_burns_ok st d cs : mirrors st d ->
  Forall (fun c => db_burn (sv_db st) !! ec_outpoint c = None \/ db_burn (sv_db st) !! ec_outpoint c = Some d) cs ->
  Forall (fun c => unit_data (burn_row_bytes (transaction_id (ec_outpoint c)) (op_index (ec_outpoint c)) d)) cs ->
  exists st', foldM (flush_burn (E := E) d) st cs = Ok st' /\ mirrors st' d /\
    sv_db st' = mkStores (foldl (fun db c => <[ec_outpoint c := d]> db) (db_burn (sv_db st)) cs) (db_strike (sv_db st))
                  (db_first_seen (sv_db st)) (db_reward (sv_db st)) /\
    sv_suspended st' = sv_suspended st /\ sv_cursor st' = sv_cursor st.
Proof.
  revert st. induction cs as [|c cs IH]; intros st Hm Hc Hu; cbn [foldM foldl].
  { exists st. by destruct (sv_db st). }
  apply Forall_cons in Hc as [Hc Hcs], Hu as [Hu Hus].
  destruct (flush_burn_ok st d c Hm Hc Hu) as (st1 & -> & Hm1 & Hdb1 & Hs1 & Hcu1). run.
  destruct (IH st1 Hm1) as (st2 & E2 & Hm2 & Hdb2 & Hs2 & Hcu2); [|done|].
  - rewrite Hdb1. cbn. eapply Forall_impl; [exact Hcs|]. intros c' Hc'. cbn in Hc'.
    destruct (decide (ec_outpoint c' = ec_outpoint c)) as [->|]; [rewrite lookup_insert_eq; by right|by rewrite lookup_insert_ne].
  - rewrite Hdb1 in Hdb2. cbn in Hdb2. exists st2. rewrite Hs2, Hs1, Hcu2, Hcu1. done.
Qed.

Lemma flush_strike_ok st d m r : mirrors st d -> unit_data (strike_row_bytes d m (se_count r) (se_last_daa r)) ->
  exists st', flush_strike (E := E) d m r st = Ok st' /\ mirrors st' d /\
    sv_db st' = mkStores (db_burn (sv_db st)) (record_row (d, m) r (db_strike (sv_db st))) (db_first_seen (sv_db st)) (db_reward (sv_db st)) /\
    sv_suspended st' = sv_suspended st /\ sv_cursor st' = sv_cursor st.
Proof.
  intros Hm Hu. pose proof Hm as [Hb Hf Hh Hw Hr Hi]. unfold flush_strike, record_row.
  destruct (db_strike (sv_db st) !! (d, m)) as [e|] eqn:Ed.
  - rewrite (record_strike_old _ _ _ _ _ _ e Hh Ed). exists st. by destruct (sv_db st).
  - destruct (record_strike_new _ _ m d (se_count r) (se_last_daa r) Hh Ed) as (h & -> & Hh').
    destruct (add_row_ok (E := E) _ _ _ _ Hi Hu) as (idx & -> & Hi' & _). run. eexists. split; [done|]. split; [|done].
    destruct r as [rc rl]. constructor; cbn in *; [done..|]. eapply index_ok_perm; [|exact Hi']. symmetry. by apply rows_new_strike.
Qed.

Lemma flush_sighting_ok st d m : mirrors st d -> unit_data (first_seen_row_bytes m d) ->
  exists st', flush_sighting (E := E) d m st = Ok st' /\ mirrors st' d /\ db_burn (sv_db st') = db_burn (sv_db st) /\
    db_strike (sv_db st') = db_strike (sv_db st) /\ sv_suspended st' = sv_suspended st /\ sv_cursor st' = sv_cursor st /\ db_first_seen (sv_db st') <> ∅.
Proof.
  intros Hm Hu. pose proof Hm as [Hb Hf Hh Hw Hr Hi]. unfold flush_sighting, record_sighting. rewrite Hf.
  destruct (db_first_seen (sv_db st) !! m) as [f|] eqn:Ed.
  - exists st. split; [done|]. split; [done|]. do 4 (split; [done|]). intros E0. by rewrite E0 in Ed.
  - destruct (add_row_ok (E := E) _ _ _ _ Hi Hu) as (idx & -> & Hi' & _). run. eexists. split; [done|]. split.
    + constructor; cbn; [done|by f_equal|done..|]. eapply index_ok_perm; [|exact Hi']. symmetry. by apply rows_new_sighting.
    + do 4 (split; [done|]). apply insert_non_empty.
Qed.

Lemma flush_reward_ok st d r : mirrors st d -> unit_data (reward_row_bytes (sr_request_hash r) (sr_winner r) (sr_amount r) d (sr_spk r)) ->
  exists st', flush_reward (E := E) d r st = Ok st' /\ mirrors st' d /\ db_burn (sv_db st') = db_burn (sv_db st) /\
    db_strike (sv_db st') = db_strike (sv_db st) /\ sv_suspended st' = sv_suspended st /\ sv_cursor st' = sv_cursor st /\ db_reward (sv_db st') <> ∅.
Proof.
  intros Hm Hu. pose proof Hm as [Hb Hf Hh Hw Hr Hi]. unfold flush_reward. destruct (decide _) as [Hin|Hin]; rewrite Hw in Hin.
  - exists st. split; [done|]. split; [done|]. do 4 (split; [done|]). intros E0. rewrite E0, dom_empty_L in Hin. set_solver.
  - apply not_elem_of_dom in Hin. destruct (add_row_ok (E := E) _ _ _ _ Hi Hu) as (idx & -> & Hi' & _). run. eexists. split; [done|]. split.
    + constructor; cbn; [done|done|done|by rewrite Hw, dom_insert_L|by apply recent_new|].
      eapply index_ok_perm; [|exact Hi']. symmetry. by apply rows_new_reward.
    + do 4 (split; [done|]). apply insert_non_empty.
Qed.

(** What the fold ensures of an event when it is flushed: a claim is burned at
    one score, a miner has one miss per score, and a reset keeps an older score
    unless the miss of the same score is logged before it. *)
Definition event_ok (db : ServiceStores) (d : Z) (ev : ServiceEvent) : Prop :=
  match ev with
  | EvMiss x =>
      Forall (fun c => db_burn db !! ec_outpoint c = None \/ db_burn db !! ec_outpoint c = Some d) (sm_burned x) /\
      (db_strike db !! (d, sm_miner x) = None \/ db_strike db !! (d, sm_miner x) = Some (miss_record x d)) /\
      0 < sm_consecutive_misses x
  | EvReset m p => db_strike db !! (d, m) = None -> p <> d
  | _ => True
  end.

Lemma miss_record_executed x d : 0 < sm_consecutive_misses x -> miss_record x d = executed d <-> sm_penalty x = Suspend.
Proof. intros Hc. unfold miss_record, executed. destruct (decide _); split; try done. intros [= E0]. lia. Qed.

Lemma record_row_lookup k r db : is_Some (record_row k r db !! k).
Proof. unfold record_row. destruct (db !! k) eqn:Ek; [by rewrite Ek|by rewrite lookup_insert_eq]. Qed.

Lemma mirrors_strike_le st d d' m : mirrors st d -> is_Some (db_strike (sv_db st) !! (d', m)) -> d' <= d.
Proof.
  intros Hm [e He]. apply strike_row_in in He. pose proof (io_rows _ _ _ (mr_index _ _ Hm)) as Hr. rewrite Forall_forall in Hr. apply Hr in He. cbn in He. lia.
Qed.

(** A row of the log that is not an executed suspension. *)
Lemma suspended_record db s d m r : suspended_ok fin db s -> (db !! (d, m) = None -> r <> executed d) -> suspended_ok fin (record_row (d, m) r db) s.
Proof. intros Hs Hr. unfold record_row. destruct (db !! (d, m)) eqn:Ed; [done|]. apply suspended_other; auto. Qed.

(** The log and the suspensions after a miss. *)
Lemma flush_suspension_ok st d x db0 : mirrors st d -> suspended_ok fin db0 (sv_suspended st) ->
  db_strike (sv_db st) = record_row (d, sm_miner x) (miss_record x d) db0 ->
  db0 !! (d, sm_miner x) = None \/ db0 !! (d, sm_miner x) = Some (miss_record x d) -> 0 < sm_consecutive_misses x ->
  0 <= fin -> 0 <= d -> in_u 64 (d + fin + SERVICE_SUSPENSION_DAA) ->
  exists st', flush_suspension (E := E) fin d x st = Ok st' /\ mirrors st' d /\ suspended_ok fin (db_strike (sv_db st)) (sv_suspended st') /\
    sv_db st' = sv_db st /\ sv_cursor st' = sv_cursor st.
Proof.
  intros Hm Hs Hdb Hd Hc Hfin Hd0 Hov. unfold flush_suspension. destruct (decide _) as [Hp|Hp].
  - assert (miss_record x d = executed d) as Hx by by apply miss_record_executed.
    unfold SERVICE_SUSPENSION_DAA in Hov. rewrite add_ok by (unfold in_u in *; lia). run. rewrite add_ok by done. run.
    eexists. split; [done|]. split; [by destruct Hm; constructor|]. cbn. split; [|done].
    replace (db_strike (sv_db st)) with (<[(d, sm_miner x) := executed d]> db0).
    + apply suspended_new; [done| |rewrite Hx in Hd; tauto]. intros d' Hd'. apply (mirrors_strike_le st d d' (sm_miner x) Hm). rewrite Hdb.
      unfold record_row. destruct Hd as [->| ->]; [|done]. destruct (decide (d' = d)) as [->|]; [by rewrite lookup_insert_eq|by rewrite lookup_insert_ne by congruence].
    + rewrite Hdb, Hx. unfold record_row. destruct Hd as [->|Hd]; [done|]. rewrite Hd. rewrite Hx in Hd. by rewrite insert_id.
  - exists st. split; [done|]. split; [done|]. split; [|done]. rewrite Hdb. apply suspended_record; [done|].
    intros _ Hx. by apply Hp, (miss_record_executed x d).
Qed.

Lemma flush_event_ok st d ev : mirrors st d -> suspended_ok fin (db_strike (sv_db st)) (sv_suspended st) -> event_ok (sv_db st) d ev ->
  Forall unit_data (event_rows d ev) -> 0 <= fin -> 0 <= d -> in_u 64 (d + fin + SERVICE_SUSPENSION_DAA) ->
  exists st', flush_event (E := E) fin d ev st = Ok st' /\ mirrors st' d /\ suspended_ok fin (db_strike (sv_db st')) (sv_suspended st') /\
    db_strike (sv_db st') = strike_effect d ev (db_strike (sv_db st)) /\ db_burn (sv_db st') = burn_effect d ev (db_burn (sv_db st)) /\
    store_rows (sv_db st') <> [] /\ sv_cursor st' = Z.max (sv_cursor st) d.
Proof.
  intros Hm Hs Hok Hu Hfin Hd Hov. unfold flush_event.
  assert (forall st', mirrors st' d -> mirrors (mkService (sv_db st') (sv_burned st') (sv_suspended st') (sv_standing st') (sv_index st')
    (sv_rewarded st') (sv_recent st') (Z.max (sv_cursor st') d)) d) as Hcur by (intros st' []; by constructor).
  destruct ev as [x|m p|m|r]; cbn [event_ok event_rows strike_effect burn_effect] in *.
  - destruct Hok as (Hb & Hr & Hc). apply Forall_cons in Hu as [Hu1 Hu2]. rewrite Forall_fmap in Hu2.
    destruct (flush_burns_ok st d (sm_burned x) Hm Hb Hu2) as (st1 & -> & Hm1 & Hdb1 & Hs1 & Hc1). run.
    destruct (flush_strike_ok st1 d (sm_miner x) (miss_record x d) Hm1 Hu1) as (st2 & -> & Hm2 & Hdb2 & Hs2 & Hc2). run.
    rewrite Hdb1 in Hdb2. cbn in Hdb2.
    destruct (flush_suspension_ok st2 d x (db_strike (sv_db st)) Hm2) as (st3 & -> & Hm3 & Hs3 & Hdb3 & Hc3); try done.
    { by rewrite Hs2, Hs1. } { by rewrite Hdb2. }
    run. eexists. split; [done|]. split; [by apply Hcur|]. cbn. rewrite Hdb3, Hc3, Hc2, Hc1. split; [done|]. rewrite Hdb2. cbn.
    split; [done|]. split; [done|]. split; [|done]. apply rows_some. right. left. cbn. intros E0.
    destruct (record_row_lookup (d, sm_miner x) (miss_record x d) (db_strike (sv_db st))) as [e He]. by rewrite E0 in He.
  - apply Forall_cons in Hu as [Hu _]. destruct (flush_strike_ok st d m (mkStrike 0 p) Hm Hu) as (st2 & -> & Hm2 & Hdb2 & Hs2 & Hc2). run.
    eexists. split; [done|]. split; [by apply Hcur|]. cbn. rewrite Hdb2, Hs2, Hc2. cbn. split; [|split; [done|split; [done|split; [|done]]]].
    + apply suspended_record; [done|]. intros Hn [= E0]. by apply (Hok Hn).
    + apply rows_some. right. left. cbn. intros E0. destruct (record_row_lookup (d, m) (mkStrike 0 p) (db_strike (sv_db st))) as [e He]. by rewrite E0 in He.
  - apply Forall_cons in Hu as [Hu _]. destruct (flush_sighting_ok st d m Hm Hu) as (st2 & -> & Hm2 & Hb2 & Hst2 & Hs2 & Hc2 & Hne). run.
    eexists. split; [done|]. split; [by apply Hcur|]. cbn. rewrite Hst2, Hs2, Hc2, Hb2. do 3 (split; [done|]). split; [|done]. apply rows_some. tauto.
  - apply Forall_cons in Hu as [Hu _]. destruct (flush_reward_ok st d r Hm Hu) as (st2 & -> & Hm2 & Hb2 & Hst2 & Hs2 & Hc2 & Hne). run.
    eexists. split; [done|]. split; [by apply Hcur|]. cbn. rewrite Hst2, Hs2, Hc2, Hb2. do 3 (split; [done|]). split; [|done]. apply rows_some. tauto.
Qed.
End flush_ok.

(** ** Queues

    The events of a chain, in the order in which they become final: the scores
    do not decrease; a miner has one miss per score, logged before its resets of
    that score; a reset keeps an older score, or follows such a miss; and a
    claim is burned at one score. *)
Section queue.
Context `{Hashers, ChaCha20, Malachite} (fin : Z).
Implicit Types (evs pre post : list (Z * ServiceEvent)).

Record well_queued evs : Prop := {
  wq_sorted : StronglySorted (fun a b => a.1 <= b.1) evs;
  wq_range : Forall (fun e => 0 <= e.1 /\ in_u 64 (e.1 + fin + SERVICE_SUSPENSION_DAA)) evs;
  wq_units : Forall (fun e => Forall unit_data (event_rows e.1 e.2)) evs;
  wq_counts : forall d x, (d, EvMiss x) ∈ evs -> 0 < sm_consecutive_misses x;
  wq_one_miss : forall d x y, (d, EvMiss x) ∈ evs -> (d, EvMiss y) ∈ evs -> sm_miner x = sm_miner y -> miss_record x d = miss_record y d;
  wq_miss_first : forall pre d x post p, evs = pre ++ (d, EvMiss x) :: post -> (d, EvReset (sm_miner x) p) ∉ pre;
  wq_reset_older : forall pre d m p post, evs = pre ++ (d, EvReset m p) :: post -> p < d \/ exists x, (d, EvMiss x) ∈ pre /\ sm_miner x = m;
  wq_burned_once : forall d x c d' x' c', (d, EvMiss x) ∈ evs -> (d', EvMiss x') ∈ evs -> c ∈ sm_burned x -> c' ∈ sm_burned x' ->
    ec_outpoint c = ec_outpoint c' -> d = d';
}.

(** The strike log and the burned claims of a list of events. *)
Definition strike_log evs : gmap (Z * Hash) StrikeEntry := foldl (fun db e => strike_effect e.1 e.2 db) ∅ evs.
Definition burn_set evs : gmap TransactionOutpoint Z := foldl (fun db e => burn_effect e.1 e.2 db) ∅ evs.

Lemma strike_log_snoc evs e : strike_log (evs ++ [e]) = strike_effect e.1 e.2 (strike_log evs).
Proof. unfold strike_log. by rewrite foldl_app. Qed.

Lemma burn_set_snoc evs e : burn_set (evs ++ [e]) = burn_effect e.1 e.2 (burn_set evs).
Proof. unfold burn_set. by rewrite foldl_app. Qed.

Lemma record_row_Some k r db k' r' : record_row k r db !! k' = Some r' -> db !! k' = Some r' \/ (k' = k /\ r' = r).
Proof.
  unfold record_row. destruct (db !! k) eqn:Ek; [tauto|]. destruct (decide (k' = k)) as [->|]; [|rewrite lookup_insert_ne by done; tauto].
  rewrite lookup_insert_eq. intros [= ->]. tauto.
Qed.

Lemma record_row_mono k r db k' : is_Some (db !! k') -> is_Some (record_row k r db !! k').
Proof.
  intros Hk. unfold record_row. destruct (db !! k) eqn:Ek; [done|]. destruct (decide (k' = k)) as [->|]; [|by rewrite lookup_insert_ne].
  by rewrite lookup_insert_eq.
Qed.

(** Where a record comes from. *)
Lemma strike_log_from evs d m r : strike_log evs !! (d, m) = Some r ->
  (exists x, (d, EvMiss x) ∈ evs /\ sm_miner x = m /\ r = miss_record x d) \/ (exists p, (d, EvReset m p) ∈ evs /\ r = mkStrike 0 p).
Proof.
  induction evs as [|[d' ev] evs IH] using rev_ind; [done|]. rewrite strike_log_snoc. cbn [fst snd].
  destruct ev as [x|m' p|m'|w]; cbn [strike_effect]; intros Hr.
  - apply record_row_Some in Hr as [Hr|([= -> ->] & ->)]; [|left; exists x; set_solver]. destruct (IH Hr) as [(y & ? & ?)|(p & ? & ?)]; [left|right]; set_solver.
  - apply record_row_Some in Hr as [Hr|([= -> ->] & ->)]; [|right; exists p; set_solver]. destruct (IH Hr) as [(y & ? & ?)|(p' & ? & ?)]; [left|right]; set_solver.
  - destruct (IH Hr) as [(y & ? & ?)|(p & ? & ?)]; [left|right]; set_solver.
  - destruct (IH Hr) as [(y & ? & ?)|(p & ? & ?)]; [left|right]; set_solver.
Qed.

Lemma strike_log_missed evs d x : (d, EvMiss x) ∈ evs -> is_Some (strike_log evs !! (d, sm_miner x)).
Proof.
  induction evs as [|[d' ev] evs IH] using rev_ind; [set_solver|]. rewrite strike_log_snoc. cbn [fst snd].
  rewrite elem_of_app, list_elem_of_singleton. intros [Hin|[= <- <-]]; [|apply record_row_lookup].
  specialize (IH Hin). destruct ev; cbn [strike_effect]; [by apply record_row_mono..|done|done].
Qed.

Lemma burn_set_from evs o d : burn_set evs !! o = Some d -> exists x c, (d, EvMiss x) ∈ evs /\ c ∈ sm_burned x /\ ec_outpoint c = o.
Proof.
  induction evs as [|[d' ev] evs IH] using rev_ind; [done|]. rewrite burn_set_snoc. cbn [fst snd].
  destruct ev as [x|m' p|m'|w]; cbn [burn_effect]; intros Hr; [|destruct (IH Hr) as (x & c & ? & ?); exists x, c; set_solver..].
  assert (burn_set evs !! o = Some d \/ (d' = d /\ exists c, c ∈ sm_burned x /\ ec_outpoint c = o)) as [Hold|(-> & c & Hc)].
  { clear IH. revert Hr. induction (sm_burned x) as [|c cs IHc] using rev_ind; [tauto|]. rewrite foldl_app. cbn.
    destruct (decide (o = ec_outpoint c)) as [->|]; [rewrite lookup_insert_eq; intros [= ->]; right; split; [done|]; exists c; set_solver|].
    rewrite lookup_insert_ne by done. intros Hc. destruct (IHc Hc) as [?|(? & c' & ?)]; [tauto|]. right. split; [done|]. exists c'. set_solver. }
  - destruct (IH Hold) as (y & c & ? & ?). exists y, c. set_solver.
  - exists x, c. set_solver.
Qed.

(** Each event of a queue is as flushing expects it. *)
Lemma queue_event_ok evs pre d ev post db : well_queued evs -> evs = pre ++ (d, ev) :: post ->
  db_strike db = strike_log pre -> db_burn db = burn_set pre -> event_ok db d ev.
Proof.
  intros Hq Hevs Hs Hb. destruct ev as [x|m p|m|w]; cbn [event_ok]; [| |done..]; rewrite ?Hs, ?Hb.
  - split; [|split].
    + apply Forall_forall. intros c Hc. destruct (burn_set pre !! ec_outpoint c) as [d'|] eqn:Eb; [right|by left].
      apply burn_set_from in Eb as (y & c' & Hy & Hc' & Ho). f_equal. apply (wq_burned_once _ Hq d' y c' d x c); [subst; set_solver..|done].
    + destruct (strike_log pre !! (d, sm_miner x)) as [r|] eqn:Er; [right|by left]. f_equal.
      apply strike_log_from in Er as [(y & Hy & Hm & ->)|(p & Hp & ->)].
      * apply (wq_one_miss _ Hq d); [subst; set_solver..|done].
      * by apply (wq_miss_first _ Hq _ _ _ _ p Hevs) in Hp.
    + apply (wq_counts _ Hq d). subst. set_solver.
  - intros Hn. destruct (wq_reset_older _ Hq _ _ _ _ _ Hevs) as [?|(x & Hx & <-)]; [lia|].
    apply strike_log_missed in Hx as [? Hx]. congruence.
Qed.
End queue.
