(* ===== verification/ServiceRestart.v ===== *)
(** * Restarts and transfers of the service state

    A node that restarts loads from the stores what it had in memory, and a node
    that imports the rows of another one has its stores up to the cutoff. *)
From S2P Require Import Prelude Bytes Tx Slice BTree Ledger LedgerWire Hashing Math MathArith U3072 MuHash ServiceCommit ServiceState ServiceMirror.
From stdpp Require Import base gmap list.
#[local] Open Scope Z_scope.

Section restart.
Context `{Hashers, ChaCha20, Malachite} {E : Type} (fin : Z) (fin_pos : 0 <= fin).
Implicit Types (evs pre post : list (Z * ServiceEvent)).

(** ** Flushing the queue *)
Record flushed pre (st : ServiceState) (cur : Z) : Prop := {
  fl_mirrors : mirrors st cur;
  fl_suspended : suspended_ok fin (db_strike (sv_db st)) (sv_suspended st);
  fl_strike : db_strike (sv_db st) = strike_log pre;
  fl_burn : db_burn (sv_db st) = burn_set pre;
  fl_cursor : sv_cursor st = cur;
  fl_last : cur = 0 \/ exists e, e ∈ pre /\ e.1 = cur;
}.

(** The events of a queue, without the indices of their chain blocks. *)
Definition queued (queue : list (Z * Z * ServiceEvent)) : list (Z * ServiceEvent) := (fun e => (e.1.2, e.2)) <$> queue.

Lemma seal_state_ok pre st cur : flushed pre st cur -> store_rows (sv_db st) <> [] ->
  exists st', seal_state (E := E) cur st = Ok st' /\ flushed pre st' cur /\ sealed (sv_index st') (store_rows (sv_db st')).
Proof.
  intros [Hm Hs Hst Hb Hc Hl] Hne. unfold seal_state.
  destruct (seal_ok (E := E) (sv_index st) _ cur (mr_index _ _ Hm) Hne) as (idx & -> & Hi & Hse). run.
  eexists. split; [done|]. split; [|done]. destruct Hm. constructor; [by constructor|done..].
Qed.

Lemma flushed_later pre st cur d : flushed pre st cur -> sealed (sv_index st) (store_rows (sv_db st)) -> cur <= d -> mirrors st d.
Proof. intros [[] _ _ _ _ _] Hse Hd. constructor; [done..|]. by eapply index_ok_later. Qed.

Definition open_at (sealing : option Z) (cur : Z) (st : ServiceState) : Prop :=
  match sealing with
  | None => sealed (sv_index st) (store_rows (sv_db st))
  | Some d => d = cur /\ store_rows (sv_db st) <> []
  end.

(** One event: the score before it is sealed if the event has another one. *)
Lemma flush_step evs pre d ev post st cur sealing : well_queued fin evs -> evs = pre ++ (d, ev) :: post ->
  flushed pre st cur -> open_at sealing cur st ->
  exists st1 st2, match sealing with Some d' => if d' =? d then Ok st else seal_state (E := E) d' st | None => Ok st end = Ok st1 /\
    flush_event (E := E) fin d ev st1 = Ok st2 /\ flushed (pre ++ [(d, ev)]) st2 d /\ open_at (Some d) d st2.
Proof.
  intros Hq Hevs Hfl Hop.
  assert (0 <= d /\ in_u 64 (d + fin + SERVICE_SUSPENSION_DAA)) as [Hd0 Hov].
  { pose proof (wq_range _ _ Hq) as Hr. rewrite Forall_forall in Hr. apply (Hr (d, ev)). subst. set_solver. }
  assert (Forall unit_data (event_rows d ev)) as Hu.
  { pose proof (wq_units _ _ Hq) as Hr. rewrite Forall_forall in Hr. apply (Hr (d, ev)). subst. set_solver. }
  assert (cur <= d) as Hcd.
  { destruct (fl_last _ _ _ Hfl) as [->|(e & He & <-)]; [done|]. pose proof (wq_sorted _ _ Hq) as Hs. subst evs.
    apply (StronglySorted_app_1_elem_of (fun a b : Z * ServiceEvent => a.1 <= b.1) pre _ e (d, ev) Hs He). left. }
  assert (exists st1, match sealing with Some d' => if d' =? d then Ok st else seal_state (E := E) d' st | None => Ok st end = Ok st1 /\
    flushed pre st1 cur /\ mirrors st1 d) as (st1 & E1 & Hfl1 & Hm1).
  { destruct sealing as [d'|]; cbn [open_at] in Hop.
    - destruct Hop as [-> Hne]. destruct (Z.eqb_spec cur d) as [->|]; [exists st; by destruct Hfl|].
      destruct (seal_state_ok pre st cur Hfl Hne) as (st1 & -> & Hfl1 & Hse1). exists st1. split; [done|]. split; [done|]. by eapply flushed_later.
    - exists st. split; [done|]. split; [done|]. by eapply flushed_later. }
  destruct (flush_event_ok (E := E) fin st1 d ev Hm1 (fl_suspended _ _ _ Hfl1)) as (st2 & E2 & Hm2 & Hs2 & Hst2 & Hb2 & Hne2 & Hc2); try done.
  { by eapply queue_event_ok; [exact Hq|exact Hevs|apply Hfl1..]. }
  exists st1, st2. split; [done|]. split; [done|]. split; [|done]. constructor; [done|done| | |rewrite Hc2, (fl_cursor _ _ _ Hfl1); lia|right].
  - rewrite Hst2, strike_log_snoc, (fl_strike _ _ _ Hfl1). done.
  - rewrite Hb2, burn_set_snoc, (fl_burn _ _ _ Hfl1). done.
  - exists (d, ev). set_solver.
Qed.

Lemma flush_loop_ok evs pre queue future tip st cur sealing : well_queued fin evs -> evs = pre ++ queued queue ++ future ->
  flushed pre st cur -> open_at sealing cur st ->
  exists pre' queue' st' cur', flush_loop (E := E) fin tip sealing queue st = Ok (queue', st') /\ evs = pre' ++ queued queue' ++ future /\
    flushed pre' st' cur' /\ open_at None cur' st'.
Proof.
  intros Hq. revert pre st cur sealing. induction queue as [|[[i d] ev] queue IH]; intros pre st cur sealing Hevs Hfl Hop; cbn [flush_loop].
  all: assert (exists st', match sealing with Some d => st ← seal_state (E := E) d st; Ok st | None => Ok st end = Ok st' /\ flushed pre st' cur /\ open_at None cur st')
    as (st' & Ef & Hfl' & Hop') by (destruct sealing as [d'|]; cbn [open_at] in Hop; [destruct Hop as [-> Hne];
      destruct (seal_state_ok pre st cur Hfl Hne) as (st' & -> & ? & ?); eauto|eauto]).
  - exists pre, [], st', cur. split; [|done]. destruct sealing; [|by injection Ef as ->]. apply bind_Ok in Ef as (s & -> & [= ->]). done.
  - cbn in Hevs. destruct (flush_step evs pre d ev _ st cur sealing Hq Hevs Hfl Hop) as (st1 & st2 & E1 & E2 & Hfl2 & Hop2).
    assert (in_u 64 (d + fin)) as Hov.
    { pose proof (wq_range _ _ Hq) as Hr. rewrite Forall_forall in Hr. specialize (Hr (d, ev)). destruct Hr as [H0' H1']; [subst; set_solver|].
      unfold in_u, SERVICE_SUSPENSION_DAA in *. cbn in *. lia. }
    rewrite add_ok by done. run. destruct (d + fin <=? tip).
    + rewrite E1. run. rewrite E2. run. apply (IH (pre ++ [(d, ev)]) st2 d (Some d)); [|done|done]. by rewrite Hevs, <-app_assoc.
    + exists pre, ((i, d, ev) :: queue), st', cur. split; [|done]. destruct sealing; [|by injection Ef as ->]. apply bind_Ok in Ef as (s & -> & [= ->]). done.
Qed.

(** ** Loading the stores *)
Definition fits (db : ServiceStores) : Prop :=
  Forall (fun r => 0 <= r.1 /\ unit_data r.2) (store_rows db) /\
  (forall d m, db_strike db !! (d, m) = Some (executed d) -> in_u 64 (d + fin + SERVICE_SUSPENSION_DAA)).

Lemma foldl_insert_map {K V} `{Countable K} (l : list (K * V)) (m0 : gmap K V) : NoDup l.*1 ->
  foldl (fun m '(k, v) => <[k := v]> m) m0 l = list_to_map l ∪ m0.
Proof.
  revert m0. induction l as [|[k v] l IH]; intros m0 Hnd; cbn; [by rewrite map_empty_union|]. apply NoDup_cons in Hnd as [Hk Hnd].
  rewrite IH by done. rewrite <-insert_union_r, insert_union_l; [done|]. by apply not_elem_of_list_to_map_1.
Qed.

Lemma strike_iterator_sorted db : StronglySorted (fun a b => strike_key_leb a b = true) (strike_iterator db).
Proof. apply sort_by_sorted; unfold strike_key_leb, pair_leb; intros; lia. Qed.

Lemma NoDup_strike_iterator db : NoDup (strike_iterator db).*1.
Proof. unfold strike_iterator. rewrite sort_by_perm. apply NoDup_fst_map_to_list. Qed.

Lemma elem_of_strike_iterator db k e : (k, e) ∈ strike_iterator db <-> db_strike db !! k = Some e.
Proof. unfold strike_iterator. by rewrite elem_of_sort_by, elem_of_map_to_list. Qed.

Lemma strike_iterator_map db : list_to_map (strike_iterator db) = db_strike db.
Proof.
  rewrite <-(list_to_map_to_list (db_strike db)). apply list_to_map_proper; [apply NoDup_strike_iterator|apply sort_by_perm].
Qed.

(** A record of the log: the entries before it are of older scores. *)
Lemma load_strike_ok db l1 d m e l2 st : fits db -> strike_iterator db = l1 ++ ((d, m), e) :: l2 ->
  history_ok (list_to_map l1) (si_history st.1) -> suspended_ok fin (list_to_map l1) st.2 ->
  exists st', load_strike (E := E) fin st ((d, m), e) = Ok st' /\ si_first_seen st'.1 = si_first_seen st.1 /\
    history_ok (<[(d, m) := e]> (list_to_map l1)) (si_history st'.1) /\ suspended_ok fin (<[(d, m) := e]> (list_to_map l1)) st'.2.
Proof.
  intros [Hrows Hov] Hit Hh Hs. destruct st as [s sus]. cbn in *.
  pose proof (NoDup_strike_iterator db) as Hnd. rewrite Hit, fmap_app in Hnd. apply NoDup_app in Hnd as (_ & Hnd & _).
  assert ((list_to_map l1 : gmap (Z * Hash) StrikeEntry) !! (d, m) = None) as Hnew.
  { apply not_elem_of_list_to_map_1. intros Hin. apply (Hnd _ Hin). left. }
  assert (db_strike db !! (d, m) = Some e) as Hdb by (apply elem_of_strike_iterator; rewrite Hit; set_solver).
  assert (0 <= d) as Hd0. { apply strike_row_in in Hdb. rewrite Forall_forall in Hrows. by apply Hrows in Hdb as [? _]. }
  destruct (record_strike_new _ s m d (se_count e) (se_last_daa e) Hh Hnew) as (h & -> & Hh'). destruct e as [c l]. cbn [se_count se_last_daa fst] in *.
  destruct ((c =? 0) && (l =? d)) eqn:Ex.
  - assert (c = 0) as -> by lia. assert (l = d) as -> by lia. specialize (Hov _ _ Hdb). unfold SERVICE_SUSPENSION_DAA in Hov.
    rewrite add_ok by (unfold in_u in *; lia). run. rewrite add_ok by done. run. eexists. split; [done|]. split; [done|]. split; [done|].
    apply suspended_new; [done| |by right]. intros d' [e' He']. apply elem_of_list_to_map_2 in He'.
    pose proof (strike_iterator_sorted db) as Hsort. rewrite Hit in Hsort.
    assert (strike_key_leb ((d', m), e') ((d, m), mkStrike 0 d) = true) as Hle.
    { eapply (StronglySorted_app_1_elem_of (fun a b => strike_key_leb a b = true)); [exact Hsort|done|left]. }
    unfold strike_key_leb, pair_leb in Hle. cbn in Hle. lia.
  - eexists. split; [done|]. split; [done|]. split; [done|]. apply suspended_other; [done..|]. intros [= -> ->].
    rewrite !Z.eqb_refl in Ex. done.
Qed.

Lemma list_to_map_snoc {V} (l1 : list ((Z * Hash) * V)) k v : k ∉ l1.*1 ->
  (list_to_map (l1 ++ [(k, v)]) : gmap (Z * Hash) V) = <[k := v]> (list_to_map l1).
Proof.
  intros Hk. rewrite list_to_map_app. cbn. rewrite <-insert_union_r by (by apply not_elem_of_list_to_map_1). by rewrite map_union_empty.
Qed.

Lemma load_strikes_ok db : fits db ->
  exists s sus, foldM (load_strike (E := E) fin) (empty_standing, ∅) (strike_iterator db) = Ok (s, sus) /\ si_first_seen s = ∅ /\
    history_ok (db_strike db) (si_history s) /\ suspended_ok fin (db_strike db) sus.
Proof.
  intros Hfit. destruct (foldM_total (load_strike (E := E) fin)
    (fun l1 st => si_first_seen st.1 = ∅ /\ history_ok (list_to_map l1) (si_history st.1) /\ suspended_ok fin (list_to_map l1) st.2)
    (empty_standing, ∅) (strike_iterator db)) as ([s sus] & Es & Hi).
  - split; [done|]. split; intros m; cbn; by rewrite lookup_empty.
  - intros l1 [[d m] e] l2 st Hit (Hf & Hh & Hs). destruct (load_strike_ok db l1 d m e l2 st Hfit Hit Hh Hs) as (st' & -> & Hf' & Hh' & Hs').
    exists st'. split; [done|]. rewrite Hf', list_to_map_snoc; [done|].
    pose proof (NoDup_strike_iterator db) as Hnd. rewrite Hit, fmap_app in Hnd. apply NoDup_app in Hnd as (_ & Hnd & _).
    intros Hin. apply (Hnd _ Hin). left.
  - cbn in Hi. rewrite strike_iterator_map in Hi. exists s, sus. tauto.
Qed.

(** Sightings and rewards. *)
Lemma load_sightings_ok (l : list (Hash * Z)) s : NoDup l.*1 -> (forall k, k ∈ l.*1 -> si_first_seen s !! k = None) ->
  foldl (fun s '(miner, daa) => (record_sighting s miner daa).1) s l = mkStanding (list_to_map l ∪ si_first_seen s) (si_history s).
Proof.
  revert s. induction l as [|[k v] l IH]; intros s Hnd Hn; cbn [foldl].
  { cbn. rewrite map_empty_union. by destruct s. }
  apply NoDup_cons in Hnd as [Hk Hnd]. unfold record_sighting at 2. rewrite (Hn k) by left. cbn [fst]. rewrite IH; [|done|].
  - cbn. f_equal. rewrite <-insert_union_r, insert_union_l; [done|]. by apply not_elem_of_list_to_map_1.
  - intros k' Hk'. cbn. rewrite lookup_insert_ne by (intros ->; done). apply Hn. by right.
Qed.

Lemma load_rewards_ok (l : list (Hash * RewardEntry)) st db : NoDup l.*1 -> (forall k, k ∈ l.*1 -> db !! k = None) ->
  st.1 = dom db -> recent_ok db st.2 ->
  (foldl load_reward st l).1 = dom (list_to_map l ∪ db) /\ recent_ok (list_to_map l ∪ db) (foldl load_reward st l).2.
Proof.
  revert st db. induction l as [|[k e] l IH]; intros [rw rc] db Hnd Hn Hd Hr; cbn [foldl load_reward].
  { cbn. by rewrite map_empty_union. }
  apply NoDup_cons in Hnd as [Hk Hnd]. cbn in Hd, Hr. cbn [list_to_map foldr].
  replace (<[k := e]> (list_to_map l) ∪ db) with (list_to_map l ∪ <[k := e]> db).
  2:{ rewrite <-insert_union_r, insert_union_l; [done|]. by apply not_elem_of_list_to_map_1. }
  apply IH; [done| |cbn; by rewrite Hd, dom_insert_L|].
  - intros k' Hk'. rewrite lookup_insert_ne by (intros ->; done). apply Hn. by right.
  - destruct e as [w a d s]. apply recent_new; [done|]. apply Hn. left.
Qed.

(** What is loaded mirrors the stores, whatever they hold. *)
Lemma load_ok db : fits db ->
  exists st, load_service_burned (E := E) fin (fresh_state db) = Ok st /\ sv_db st = db /\ (exists cur, mirrors st cur) /\
    suspended_ok fin (db_strike db) (sv_suspended st) /\ sealed (sv_index st) (store_rows db) /\
    sv_cursor st = foldl Z.max 0 (store_rows db).*1.
Proof.
  intros Hfit. unfold load_service_burned. cbn [sv_db fresh_state sv_burned sv_suspended].
  destruct (load_strikes_ok db Hfit) as (s & sus & -> & Hf & Hh & Hs). run.
  rewrite load_sightings_ok; [|apply NoDup_keys|by rewrite Hf]. rewrite Hf, map_union_empty, iter_map.
  destruct (load_rewards_ok (btree_iter (db_reward db)) (∅, ∅) ∅) as [Hrw Hrc]; [apply NoDup_keys|done|by rewrite dom_empty_L|intros d; cbn; rewrite lookup_empty; intros rh e; by rewrite lookup_empty|].
  rewrite map_union_empty, iter_map in Hrw, Hrc. destruct (foldl load_reward _ _) as [rw rc]. cbn in Hrw, Hrc.
  destruct Hfit as [Hrows _]. destruct (rebuild_ok (E := E) (store_rows db)) as (idx & cur & -> & Hi & Hse).
  { eapply Forall_impl; [exact Hrows|]. naive_solver. } { eapply Forall_impl; [exact Hrows|]. naive_solver. }
  run. eexists. split; [done|]. cbn. split; [done|]. split; [|done]. exists cur. constructor; cbn; [|done..].
  rewrite foldl_insert_map by apply NoDup_fst_map_to_list. by rewrite map_union_empty, list_to_map_to_list.
Qed.

(** ** Restart *)

(** The queue grows and is flushed, again and again. *)
Fixpoint flush_run (queue : list (Z * Z * ServiceEvent)) (steps : list (Z * list (Z * Z * ServiceEvent))) (st : ServiceState)
    : outcome E (list (Z * Z * ServiceEvent) * ServiceState) :=
  match steps with
  | [] => Ok (queue, st)
  | (tip_daa, new) :: steps => '(queue, st) ← flush_loop fin tip_daa None (queue ++ new) st; flush_run queue steps st
  end.

(** The states answer alike. *)
Record same_service (st st' : ServiceState) : Prop := {
  same_burned : sv_burned st = sv_burned st';
  same_suspended : sv_suspended st = sv_suspended st';
  same_standing : sv_standing st = sv_standing st';
  same_rewarded : sv_rewarded st = sv_rewarded st';
  same_commitments : forall daa, commitment_at (sv_index st) daa = commitment_at (sv_index st') daa;
  same_mints : forall active sp_daa parent_daa, reward_mints fin active st sp_daa parent_daa = reward_mints fin active st' sp_daa parent_daa;
}.

Lemma mirrors_same st st' cur cur' : mirrors st cur -> mirrors st' cur' -> sv_db st = sv_db st' ->
  suspended_ok fin (db_strike (sv_db st)) (sv_suspended st) -> suspended_ok fin (db_strike (sv_db st')) (sv_suspended st') ->
  sealed (sv_index st) (store_rows (sv_db st)) -> sealed (sv_index st') (store_rows (sv_db st')) -> same_service st st'.
Proof.
  intros [Hb Hf Hh Hw Hr _] [Hb' Hf' Hh' Hw' Hr' _] Hdb Hs Hs' Hse Hse'. rewrite <-Hdb in *. constructor; [congruence| | |congruence| |].
  - by eapply suspended_unique.
  - destruct (sv_standing st) as [f h], (sv_standing st') as [f' h']. cbn in *. f_equal; [congruence|]. by eapply history_unique.
  - intros daa. by rewrite Hse, Hse'.
  - intros. by eapply reward_mints_same.
Qed.

Lemma flushed_empty : flushed [] (fresh_state empty_stores) 0 /\ open_at None 0 (fresh_state empty_stores).
Proof.
  destruct new_ok as [Hi Hs]. split; [|exact Hs]. constructor; [|intros m; cbn; by rewrite lookup_empty|done|done|done|by left].
  constructor; cbn; [done|done| |by rewrite dom_empty_L| |done].
  - intros id. cbn. rewrite lookup_empty. intros d. by rewrite lookup_empty.
  - intros d. cbn. rewrite lookup_empty. intros rh e. by rewrite lookup_empty.
Qed.

Lemma flush_run_ok evs pre queue steps st cur : well_queued fin evs -> evs = pre ++ queued queue ++ queued (concat steps.*2) ->
  flushed pre st cur -> open_at None cur st ->
  exists pre' queue' st' cur', flush_run queue steps st = Ok (queue', st') /\ evs = pre' ++ queued queue' /\
    flushed pre' st' cur' /\ open_at None cur' st'.
Proof.
  intros Hq. revert pre queue st cur. induction steps as [|[tip new] steps IH]; intros pre queue st cur Hevs Hfl Hop; cbn [flush_run].
  { exists pre, queue, st, cur. rewrite app_nil_r in Hevs. eauto. }
  destruct (flush_loop_ok evs pre (queue ++ new) (queued (concat steps.*2)) tip st cur None Hq) as (pre' & queue' & st' & cur' & -> & Hevs' & Hfl' & Hop'); [|done..|].
  - rewrite Hevs. cbn. unfold queued. by rewrite !fmap_app, <-!app_assoc.
  - run. by eapply IH.
Qed.

Lemma flushed_fits evs pre post st cur : well_queued fin evs -> evs = pre ++ post -> flushed pre st cur -> fits (sv_db st).
Proof.
  intros Hq Hevs Hfl. split.
  - pose proof (mr_index _ _ (fl_mirrors _ _ _ Hfl)) as [_ Hu _ Hr _ _]. apply Forall_and. split; [|done].
    eapply Forall_impl; [exact Hr|]. cbn. lia.
  - intros d m Hd. rewrite (fl_strike _ _ _ Hfl) in Hd. pose proof (wq_range _ _ Hq) as Hr. rewrite Forall_forall in Hr.
    apply strike_log_from in Hd as [(x & Hx & _)|(p & Hp & _)]; [apply (Hr (d, EvMiss x))|apply (Hr (d, EvReset m p))]; subst; set_solver.
Qed.

Lemma max_bound l a c : a <= c -> Forall (fun x => x <= c) l -> foldl Z.max a l <= c.
Proof. revert a. induction l as [|x l IH]; intros a Ha Hl; [done|]. apply Forall_cons in Hl as [Hx Hl]. cbn. apply IH; [lia|done]. Qed.

Lemma restart_same steps : well_queued fin (queued (concat steps.*2)) ->
  exists queue st st', flush_run [] steps (fresh_state empty_stores) = Ok (queue, st) /\
    load_service_burned (E := E) fin (fresh_state (sv_db st)) = Ok st' /\ sv_db st' = sv_db st /\ same_service st st' /\ sv_cursor st' <= sv_cursor st.
Proof.
  intros Hq. destruct flushed_empty as [Hfl0 Hop0].
  destruct (flush_run_ok _ [] [] steps _ 0 Hq eq_refl Hfl0 Hop0) as (pre & queue & st & cur & Er & Hevs & Hfl & Hop).
  destruct (load_ok (sv_db st)) as (st' & El & Hdb & (cur' & Hm) & Hs & Hse & Hc); [by eapply flushed_fits|].
  exists queue, st, st'. split; [done|]. split; [done|]. split; [done|]. split.
  - eapply mirrors_same; [apply Hfl|exact Hm|done|apply Hfl|by rewrite Hdb|exact Hop|by rewrite Hdb].
  - rewrite Hc, (fl_cursor _ _ _ Hfl). pose proof (mr_index _ _ (fl_mirrors _ _ _ Hfl)) as [_ _ H0c Hr _ _].
    apply max_bound; [done|]. rewrite Forall_fmap. eapply Forall_impl; [exact Hr|]. cbn. lia.
Qed.
End restart.
