(* ===== verification/ServiceChain.v ===== *)
(** * The service events of a chain

    What the folds of a chain put in the queue, miner by miner: the strike state
    after a block is what its events say, and the claims that are burned are
    claims of the chain, each at most once.  So the queue of a chain is one that
    restarts are transparent for, and the strike log is the baseline of a refold. *)
From S2P Require Import Prelude Bytes Tx Slice BTree Ledger LedgerSteps LedgerUndo LedgerInv LedgerAudit LedgerRuns.
From S2P Require Import Hashing Math MathArith U3072 MuHash ServiceCommit ServiceState ServiceMirror ServiceRestart.
From stdpp Require Import base gmap list.
#[local] Open Scope Z_scope.

Definition resets_of (m : Hash) (o : FoldOutcome) : list Z := (filter (fun r => r.1 = m) (fo_resets o)).*2.

Lemma strike_state_set L S id e m :
  strike_state (with_strikes L (<[id := e]> S)) m = if decide (m = id) then Some e else strike_state (with_strikes L S) m.
Proof. unfold strike_state. cbn. destruct (decide (m = id)) as [->|]; [by rewrite lookup_insert_eq|by rewrite lookup_insert_ne]. Qed.

Section trace.
Context (daa : Z) (m : Hash).
Implicit Types (st : ServiceLedger * FoldOutcome).

(** ** Phases that reset *)
Definition reset_once st st' : Prop :=
  l_window_v2_activation_daa st'.1 = l_window_v2_activation_daa st.1 /\ misses_of m st'.2 = misses_of m st.2 /\
  ((resets_of m st'.2 = resets_of m st.2 /\ strike_state st'.1 m = strike_state st.1 m) \/
   (exists e, strike_state st.1 m = Some e /\ 0 < se_count e /\
      let p := if v2_at st.1 daa then se_last_daa e else 0 in
      resets_of m st'.2 = resets_of m st.2 ++ [p] /\ strike_state st'.1 m = Some (mkStrike 0 p))).

#[export] Instance reset_once_preorder : PreOrder reset_once.
Proof.
  split; [intros st; split; auto|]. intros s1 s2 s3 (V1 & M1 & H1) (V2 & M2 & H2). split; [congruence|]. split; [congruence|].
  destruct H1 as [[R1 S1]|(e1 & S1 & C1 & R1 & T1)], H2 as [[R2 S2]|(e2 & S2 & C2 & R2 & T2)].
  - left. split; congruence.
  - right. exists e2. rewrite <-S1. split; [done|]. split; [done|]. rewrite (v2_at_same s1.1 s2.1) in R2, T2 by done. cbn zeta. rewrite R2, R1. done.
  - right. exists e1. split; [done|]. split; [done|]. cbn zeta. rewrite R2, S2. done.
  - exfalso. rewrite T1 in S2. injection S2 as <-. cbn in C2. lia.
Qed.

Lemma reset_once_frame L o L' o' :
  l_window_v2_activation_daa L' = l_window_v2_activation_daa L -> strike_state L' m = strike_state L m ->
  fo_misses o' = fo_misses o -> fo_resets o' = fo_resets o -> reset_once (L, o) (L', o').
Proof. intros HV HS HM HR. split; [done|]. unfold misses_of, resets_of. cbn. rewrite HM, HR. auto. Qed.

Lemma reset_streak_once w st id : reset_once st (reset_streak w daa st id).
Proof.
  destruct st as [L o]. destruct (reset_streak_cases w daa L o id) as [[-> _]|(_ & e & He & Hc & ->)]; [done|].
  split; [done|]. split; [done|]. unfold resets_of. cbn [add_reset fst snd fo_resets]. rewrite filter_app, fmap_app.
  rewrite strike_state_set. destruct (decide (m = id)) as [->|Hne].
  - right. exists e. split; [done|]. split; [done|]. cbn zeta. by rewrite filter_cons_True by done.
  - left. rewrite filter_cons_False by (cbn; congruence). by rewrite app_nil_r.
Qed.

Lemma award_first_resets w st rh ids : fo_resets (award_first w st rh ids).2 = fo_resets st.2.
Proof.
  destruct ids as [|id ids]; [done|]. unfold award_first. destruct st as [L o].
  destruct (maybe_award_cases w L o rh id) as [[-> _]|(req & _ & ->)]; [done|]. by destruct w.
Qed.

Lemma award_first_once w L L' o rh ids :
  l_window_v2_activation_daa L' = l_window_v2_activation_daa L -> strike_state L' m = strike_state L m ->
  reset_once (L, o) (award_first w (L', o) rh ids).
Proof.
  intros HV HS. pose proof (award_first_frame (fun L => (l_window_v2_activation_daa L, strike_state L m)) ltac:(done) w (L', o) rh ids) as Hf.
  pose proof (award_first_misses w (L', o) rh ids) as Hm. pose proof (award_first_resets w (L', o) rh ids) as Hr.
  destruct (award_first _ _ _ _) as [L2 o2]. cbn in *. injection Hf as Hf1 Hf2. apply reset_once_frame; congruence.
Qed.

Lemma fold_responses_once {E} b st st' : fi_daa b = daa -> fold_responses (E := E) st b = Ok st' -> reset_once st st'.
Proof.
  intros Hd H. unfold fold_responses in H. apply bind_Ok in H as ([L1 o1] & HF & H). apply bind_Ok in H as (e & _ & H). injection H as <-.
  etrans; [eapply (foldM_rel reset_once); [|exact HF]|by apply reset_once_frame]. intros [L o] [rh [r|]] s' _ Hs; [|by injection Hs as <-].
  apply fold_response_cases in Hs. destruct (l_pending L !! rh) as [req|]; [|cbn zeta in Hs; subst s'; by apply reset_once_frame].
  destruct (pr_audit req) as [a|]; [|subst s'; by apply reset_once_frame]. destruct Hs as (responded & served & _ & ->). rewrite Hd.
  etrans; [|apply (foldl_rel reset_once); intros; apply reset_streak_once]. by apply award_first_once.
Qed.

(** ** The phase that strikes *)
Context (daa_pos : 0 < daa).

Definition strike_once st st' : Prop :=
  l_window_v2_activation_daa st'.1 = l_window_v2_activation_daa st.1 /\ resets_of m st'.2 = resets_of m st.2 /\
  ((misses_of m st'.2 = misses_of m st.2 /\ strike_state st'.1 m = strike_state st.1 m) \/
   (exists x, ~ limited st.1 daa m /\ misses_of m st'.2 = misses_of m st.2 ++ [x] /\ strike_state st'.1 m = Some (miss_record x daa))).

Lemma struck_limited L x : strike_state L m = Some (miss_record x daa) -> limited L daa m.
Proof.
  intros HS. exists (miss_record x daa). split; [done|]. unfold miss_record, SERVICE_STRIKE_INTERVAL_DAA. destruct (decide _); cbn; lia.
Qed.

#[export] Instance strike_once_preorder : PreOrder strike_once.
Proof using daa_pos.
  split; [intros st; split; auto|]. intros s1 s2 s3 (V1 & R1 & H1) (V2 & R2 & H2). split; [congruence|]. split; [congruence|].
  destruct H1 as [[M1 S1]|(x1 & L1 & M1 & S1)], H2 as [[M2 S2]|(x2 & L2 & M2 & S2)].
  - left. split; congruence.
  - right. exists x2. split; [|by rewrite M2, M1]. intros (e & He & ?). apply L2. exists e. by rewrite S1.
  - right. exists x1. rewrite M2, S2. done.
  - exfalso. by apply L2, (struck_limited _ x1).
Qed.

Lemma strike_once_frame L o L' o' :
  l_window_v2_activation_daa L' = l_window_v2_activation_daa L -> strike_state L' m = strike_state L m ->
  fo_misses o' = fo_misses o -> fo_resets o' = fo_resets o -> strike_once (L, o) (L', o').
Proof. intros HV HS HM HR. split; [done|]. unfold misses_of, resets_of. cbn. rewrite HM, HR. auto. Qed.

Lemma award_first_strike_once w L L' o rh ids :
  l_window_v2_activation_daa L' = l_window_v2_activation_daa L -> strike_state L' m = strike_state L m ->
  strike_once (L, o) (award_first w (L', o) rh ids).
Proof.
  intros HV HS. pose proof (award_first_frame (fun L => (l_window_v2_activation_daa L, strike_state L m)) ltac:(done) w (L', o) rh ids) as Hf.
  pose proof (award_first_misses w (L', o) rh ids) as Hm. pose proof (award_first_resets w (L', o) rh ids) as Hr.
  destruct (award_first _ _ _ _) as [L2 o2]. cbn in *. injection Hf as Hf1 Hf2. apply strike_once_frame; congruence.
Qed.

Lemma strike_strike_once {E} b rh st miner st' : fi_daa b = daa -> strike (E := E) b rh st miner = Ok st' -> strike_once st st'.
Proof.
  destruct st as [L o], st' as [L' o']. intros Hd H.
  apply strike_cases in H as [(-> & -> & _)|(_ & Hl & V & burned & _ & _ & _ & -> & ->)]; [split; auto|].
  split; [done|]. split; [done|]. rewrite Hd in *. unfold misses_of, add_miss. cbn [fst snd fo_misses]. rewrite filter_app.
  rewrite strike_state_set. destruct (decide (m = miner)) as [->|Hne].
  - right. eexists. split; [done|]. rewrite filter_cons_True by done. split; [done|]. f_equal.
    unfold miss_record. cbn. by case_bool_decide; case_decide.
  - left. rewrite filter_cons_False by (cbn; congruence). by rewrite app_nil_r.
Qed.

Lemma fold_pending_strike_once {E} b st served rh st' served' : fi_daa b = daa ->
  fold_pending (E := E) b (st, served) rh = Ok (st', served') -> strike_once st st'.
Proof using daa_pos.
  intros Hd H. destruct st as [L o]. apply fold_pending_cases in H as (req & _ & H). destruct (pr_audit req) as [a|].
  - destruct H as [[_ [= -> ->]]|(_ & L1 & o1 & HF & [= -> ->])]; [done|].
    etrans; [eapply (foldM_rel strike_once); [|exact HF]; intros s x s' _; by apply strike_strike_once|]. by apply strike_once_frame.
  - destruct H as [[_ [= -> ->]]|[(_ & _ & [= -> ->])|(_ & responded & sv & _ & _ & _ & [= -> ->])]]; [done|by apply strike_once_frame|].
    by apply award_first_strike_once.
Qed.
End trace.

(** ** One block *)

(** The strike state of a miner across a block with the misses [M] and the
    resets [R] of that miner. *)
Record block_trace (e0 : option StrikeEntry) (daa : Z) (M : list ServiceMiss) (R : list Z) (e' : option StrikeEntry) : Prop := {
  bt_misses : M = [] \/ exists x, M = [x];
  bt_resets : forall p, p ∈ R -> p = 0 \/ (exists e, e0 = Some e /\ p = se_last_daa e) \/ (p = daa /\ M <> []);
  bt_quiet : M = [] -> R = [] -> e' = e0;
  bt_reset : M = [] -> forall p, p ∈ R -> R = [p] /\ e' = Some (mkStrike 0 p);
  bt_struck : forall x, M = [x] -> e' = Some (miss_record x daa) \/ exists p, p ∈ R /\ e' = Some (mkStrike 0 p);
}.

(** A reset, a strike and a reset again, each of which may be missing. *)
Lemma phases_trace (v2 : bool) e0 e1 e2 e' daa (M : list ServiceMiss) (R1 R2 : list Z) :
  (R1 = [] /\ e1 = e0) \/ (exists e, e0 = Some e /\ 0 < se_count e /\ R1 = [if v2 then se_last_daa e else 0] /\ e1 = Some (mkStrike 0 (if v2 then se_last_daa e else 0))) ->
  (M = [] /\ e2 = e1) \/ (exists x, M = [x] /\ e2 = Some (miss_record x daa)) ->
  (R2 = [] /\ e' = e2) \/ (exists e, e2 = Some e /\ 0 < se_count e /\ R2 = [if v2 then se_last_daa e else 0] /\ e' = Some (mkStrike 0 (if v2 then se_last_daa e else 0))) ->
  block_trace e0 daa M (R1 ++ R2) e'.
Proof.
  assert (forall x : ServiceMiss, se_last_daa (miss_record x daa) = daa) as Hlast by (intros x; unfold miss_record; by destruct (decide _)).
  intros [[-> ->]|(a & -> & Ha & -> & ->)] [[-> ->]|(x & -> & ->)] [[-> ->]|(c & Hc & Hcount & -> & ->)]; cbn [app].
  - split; [by left|set_solver|done|set_solver|done].
  - subst. split; [by left| |done| |done].
    + intros p ->%list_elem_of_singleton. destruct v2; [right; left; eauto|by left].
    + intros _ p ->%list_elem_of_singleton. done.
  - split; [by eauto|set_solver|done|done|]. intros x' [= <-]. by left.
  - injection Hc as <-. split; [by eauto| |done|done|].
    + intros p ->%list_elem_of_singleton. rewrite Hlast. destruct v2; [by right; right|by left].
    + intros x' [= <-]. right. eexists. split; [left|done].
  - split; [by left| |done| |done].
    + intros p ->%list_elem_of_singleton. destruct v2; [right; left; eauto|by left].
    + intros _ p ->%list_elem_of_singleton. done.
  - injection Hc as <-. cbn in Hcount. lia.
  - split; [by eauto| |done|done|].
    + intros p ->%list_elem_of_singleton. destruct v2; [right; left; eauto|by left].
    + intros x' [= <-]. by left.
  - injection Hc as <-. split; [by eauto| |done|done|].
    + rewrite Hlast. intros p [->| ->%list_elem_of_singleton]%elem_of_cons; (destruct v2; [|by left]); [right; left; eauto|by right; right].
    + intros x' [= <-]. right. eexists. split; [right; left|done].
Qed.

Lemma fold_trace {E} L b L' o m : fold_inner (E := E) L b = Ok (L', o) -> 0 < fi_daa b ->
  block_trace (strike_state L m) (fi_daa b) (misses_of m o) (resets_of m o) (strike_state L' m).
Proof.
  intros H Hd. apply fold_inner_phases in H as (L0 & o0 & L1 & [L2 o2] & H0 & H1 & H2 & H3).
  assert (fo_resets o0 = []) as Hr0.
  { clear -H0. unfold fold_escrows in H0. destruct (foldl (fold_escrow b) _ _). apply bind_Ok in H0 as ([? ?] & _ & [= _ <-]). done. }
  destruct (fold_escrows_same _ _ _ _ H0) as (_ & Hs & Hm & HV0).
  assert (strike_state L1 m = strike_state L m) as Hs1.
  { rewrite <-Hs. by apply (fold_requests_frame (fun L => strike_state L m) _ _ _ H1). }
  pose proof (fold_responses_once (fi_daa b) m b _ _ eq_refl H2) as (V2 & M2 & D2).
  unfold fold_audits in H3. apply bind_Ok in H3 as ([[L3 o3] served] & HF & H3). injection H3 as H3.
  assert (strike_once (fi_daa b) m (L2, o2) (L3, o3)) as (V3 & R3 & D3).
  { pose proof (strike_once_preorder (fi_daa b) m Hd). change (strike_once (fi_daa b) m (L2, o2) ((L3, o3), served).1).
    refine (foldM_invariant _ (fun _ s => strike_once (fi_daa b) m (L2, o2) s.1) _ _ _ _ _ HF); [done|].
    intros pre rh post [s sv] [s' sv'] _ IH Hs'. etrans; [exact IH|]. by eapply fold_pending_strike_once. }
  assert (reset_once (fi_daa b) m (L3, o3) (L', o)) as (V4 & M4 & D4).
  { rewrite <-H3. apply (foldl_rel (reset_once (fi_daa b) m)). intros. apply reset_streak_once. }
  assert (misses_of m o0 = [] /\ resets_of m o0 = []) as [Hm0 Hr0'] by (unfold misses_of, resets_of; by rewrite Hm, Hr0).
  cbn [fst snd] in *. rewrite (v2_at_same L2 L3) in D4 by done. rewrite (v2_at_same L1 L2) in D4 by done.
  rewrite Hs1, Hr0' in D2. rewrite M2, Hm0 in D3. rewrite M4, R3 in *. clear M4 M2 R3.
  assert (exists R2, resets_of m o = resets_of m o2 ++ R2 /\
    ((R2 = [] /\ strike_state L' m = strike_state L3 m) \/
     (exists e, strike_state L3 m = Some e /\ 0 < se_count e /\ R2 = [if v2_at L1 (fi_daa b) then se_last_daa e else 0] /\
        strike_state L' m = Some (mkStrike 0 (if v2_at L1 (fi_daa b) then se_last_daa e else 0))))) as (R2 & -> & D4').
  { destruct D4 as [[-> ->]|(e & He & Hc & -> & ->)]; [exists []; rewrite app_nil_r; auto|]. eexists. split; [done|]. right. eauto. }
  apply (phases_trace (v2_at L1 (fi_daa b)) _ (strike_state L2 m) (strike_state L3 m)); [| |done].
  - destruct D2 as [[-> ->]|(e & He & Hc & -> & ->)]; [by left|right; eauto].
  - destruct D3 as [[-> ->]|(x & _ & -> & ->)]; [by left|right; eauto].
Qed.

(** The claims of a miner: those of the vault and of the block expire, stay or
    are burned. *)
Definition burned_of (m : Hash) (o : FoldOutcome) : list EscrowClaim := misses_of m o ≫= sm_burned.

Lemma push_backs_deque V adds m : deque (push_backs V adds) m = deque V m ++ of_miner m adds.
Proof.
  unfold push_backs. revert V. induction adds as [|[k c] adds IH]; intros V; cbn [foldl]; [by rewrite app_nil_r|].
  rewrite IH, deque_push_back, of_miner_cons, <-app_assoc. done.
Qed.

Lemma undo_burns_deque V ms m : deque (foldl undo_burn V (reverse ms)) m ≡ₚ deque V m ++ (filter (fun x => sm_miner x = m) ms ≫= sm_burned).
Proof.
  induction ms as [|x ms IH]; [by rewrite app_nil_r|]. rewrite reverse_cons, foldl_app. cbn [foldl].
  rewrite (proj1 (undo_burn_deque _ x)), IH, filter_cons. destruct (decide (m = sm_miner x)) as [->|Hne].
  - rewrite decide_True by done. cbn. rewrite reverse_Permutation. rewrite <-app_assoc. apply Permutation_app_head, Permutation_app_comm.
  - rewrite decide_False by congruence. by rewrite app_nil_r.
Qed.

Lemma fold_claims {E} L b L' o m : no_empty_deque (l_vault L) -> warmup b = false -> fold_inner (E := E) L b = Ok (L', o) ->
  deque (l_vault L) m ++ of_miner m (fi_escrows b) ≡ₚ of_miner m (fo_expired o) ++ deque (l_vault L') m ++ burned_of m o.
Proof.
  intros HV Hw H. destruct (fold_inner_vault L b L' o HV Hw H) as (_ & _ & _ & Hd).
  rewrite <-push_backs_deque, Hd, undo_burns_deque. done.
Qed.

(** ** A chain *)
Definition lasts_below (L : ServiceLedger) (daa : Z) : Prop := forall m e, strike_state L m = Some e -> se_last_daa e < daa.

Record good_chain (fin : Z) (bs : list FoldInput) : Prop := {
  gc_blocks : Forall (fun b => wf_input b /\ warmup b = false /\ 0 < fi_daa b /\ in_u 64 (fi_daa b + fin + SERVICE_SUSPENSION_DAA)) bs;
  gc_increasing : StronglySorted (fun b b' => fi_daa b < fi_daa b') bs;
  gc_claims : NoDup (ec_outpoint <$> (bs ≫= fi_escrows).*2);
}.

(** A ledger before the first event. *)
Definition unstruck (L : ServiceLedger) : Prop := wf_ledger L /\ l_vault L = ∅ /\ forall m, strike_state L m = None.

(** The events of a chain, with their scores. *)
Definition block_events (b : FoldInput) (o : FoldOutcome) : list (Z * ServiceEvent) := (fun ev => (fi_daa b, ev)) <$> outcome_events o.
Definition chain_events (bs : list FoldInput) (os : list FoldOutcome) : list (Z * ServiceEvent) := mjoin (zip_with block_events bs os).

(** A block of a chain is folded on a ledger whose strikes are older. *)
Definition folded {E} (b : FoldInput) (o : FoldOutcome) : Prop :=
  exists L L', fold_inner (E := E) L b = Ok (L', o) /\ wf_ledger L /\ wf_input b /\ 0 < fi_daa b /\ lasts_below L (fi_daa b).

Lemma fold_lasts_below {E} L b L' o daa : fold_inner (E := E) L b = Ok (L', o) -> 0 < fi_daa b -> lasts_below L (fi_daa b) -> fi_daa b < daa ->
  lasts_below L' daa.
Proof.
  intros H Hd Hl Hlt m e He. destruct (fold_trace L b L' o m H Hd) as [HM HR HQ H1 H2]. rewrite He in *.
  destruct HM as [HM|[x HM]].
  - destruct (resets_of m o) as [|p R] eqn:ER.
    + assert (strike_state L m = Some e) as HQ1 by (symmetry; by apply HQ). apply Hl in HQ1. lia.
    + destruct (H1 HM p) as [_ [= ->]]; [left|]. cbn. destruct (HR p) as [->|[(e0 & He0 & ->)|[-> _]]]; [left|lia| |lia]. apply Hl in He0. lia.
  - destruct (H2 x HM) as [[= ->]|(p & Hp & [= ->])].
    + unfold miss_record. destruct (decide _); cbn; lia.
    + cbn. destruct (HR p Hp) as [->|[(e0 & He0 & ->)|[-> _]]]; [lia| |lia]. apply Hl in He0. lia.
Qed.

Lemma folds_folded {E} L bs L' os : folds (E := E) L bs = Ok (L', os) -> wf_ledger L ->
  Forall (fun b => wf_input b /\ 0 < fi_daa b) bs -> StronglySorted (fun b b' => fi_daa b < fi_daa b') bs ->
  (forall b, head bs = Some b -> lasts_below L (fi_daa b)) -> Forall2 (folded (E := E)) bs os.
Proof.
  revert L os. induction bs as [|b bs IH]; intros L os H HL Hb Hs Hl; cbn in H; [injection H as _ <-; constructor|].
  apply bind_Ok in H as ([L1 o] & H1 & H). apply bind_Ok in H as ([L2 os'] & H2 & H). injection H as -> <-.
  apply Forall_cons in Hb as [[Hw Hd] Hb]. inversion_clear Hs as [|? ? Hs' Hlt]. specialize (Hl b eq_refl).
  constructor; [by exists L, L1|]. eapply IH; [done|by eapply fold_keeps_wf|done|done|].
  intros b' Hb'. destruct bs as [|b2 bs]; [done|]. injection Hb' as ->. apply Forall_cons in Hlt as [Hlt _]. by eapply fold_lasts_below.
Qed.

(** What was ever burned of a miner was created in the chain. *)
Lemma folds_claims {E} L bs L' os m : folds (E := E) L bs = Ok (L', os) -> wf_ledger L -> Forall (fun b => wf_input b /\ warmup b = false) bs ->
  (os ≫= burned_of m) ⊆+ deque (l_vault L) m ++ of_miner m (bs ≫= fi_escrows).
Proof.
  revert L os. induction bs as [|b bs IH]; intros L os H HL Hb; cbn in H; [injection H as _ <-; apply submseteq_nil_l|].
  apply bind_Ok in H as ([L1 o] & H1 & H). apply bind_Ok in H as ([L2 os'] & H2 & H). injection H as -> <-.
  apply Forall_cons in Hb as [[Hw Hwa] Hb]. pose proof (fold_keeps_wf _ _ _ _ HL Hw H1) as HL1.
  pose proof (fold_claims L b L1 o m (wf_vault_no_empty _ (wl_vault _ HL)) Hwa H1) as Hc. specialize (IH L1 os' H2 HL1 Hb).
  rewrite !bind_cons, of_miner_app, app_assoc, Hc, <-!app_assoc. apply submseteq_inserts_l.
  rewrite (Permutation_app_comm (burned_of m o) (of_miner _ _)), app_assoc, (Permutation_app_comm (burned_of m o)). by apply submseteq_skips_r.
Qed.

(** ** The queue of a chain *)
Definition rank (ev : ServiceEvent) : Z := match ev with EvSighting _ => 0 | EvMiss _ => 1 | EvReset _ _ => 2 | EvReward _ => 3 end.
Definition queue_order (a b : Z * ServiceEvent) : Prop := a.1 < b.1 \/ (a.1 = b.1 /\ rank a.2 <= rank b.2).

Lemma elem_of_outcome_events o ev : ev ∈ outcome_events o <->
  match ev with
  | EvSighting m => m ∈ fo_sightings o | EvMiss x => x ∈ fo_misses o | EvReset m p => (m, p) ∈ fo_resets o | EvReward r => r ∈ fo_rewards o
  end.
Proof.
  unfold outcome_events. rewrite !elem_of_app, !list_elem_of_fmap. destruct ev as [x|m p|m|r]; split.
  all: try (intros [(? & [= <-] & ?)|[(? & [= <-] & ?)|[([? ?] & [= <- <-] & ?)|(? & [= <-] & ?)]]]; done).
  - intros H. right. left. eauto.
  - intros H. right. right. left. exists (m, p). eauto.
  - intros H. left. eauto.
  - intros H. right. right. right. eauto.
Qed.

Lemma elem_of_chain_events bs os d ev : (d, ev) ∈ chain_events bs os <->
  exists i b o, bs !! i = Some b /\ os !! i = Some o /\ d = fi_daa b /\ ev ∈ outcome_events o.
Proof.
  unfold chain_events. rewrite list_elem_of_join. split.
  - intros (l & Hev & [i Hi]%list_elem_of_lookup). apply lookup_zip_with_Some in Hi as (b & o & -> & Hb & Ho).
    apply list_elem_of_fmap in Hev as (ev' & [= -> ->] & Hev). exists i, b, o. auto.
  - intros (i & b & o & Hb & Ho & -> & Hev). exists (block_events b o). split; [by apply list_elem_of_fmap_2|].
    apply list_elem_of_lookup. exists i. apply lookup_zip_with_Some. eauto.
Qed.

Lemma outcome_events_sorted b o : StronglySorted queue_order (block_events b o).
Proof.
  assert (forall (l : list ServiceEvent) k, Forall (fun ev => rank ev = k) l -> StronglySorted queue_order ((fun ev => (fi_daa b, ev)) <$> l)) as Hone.
  { intros l k Hl. induction Hl as [|ev l Hev Hl IH]; [constructor|]. rewrite fmap_cons. constructor; [done|]. rewrite Forall_fmap.
    eapply Forall_impl; [exact Hl|]. intros ev' Hev'. right. cbn in *. lia. }
  assert (forall (l1 l2 : list (Z * ServiceEvent)) k, StronglySorted queue_order l1 -> StronglySorted queue_order l2 ->
    Forall (fun e => e.1 = fi_daa b /\ rank e.2 <= k) l1 -> Forall (fun e => e.1 = fi_daa b /\ k <= rank e.2) l2 -> StronglySorted queue_order (l1 ++ l2)) as Happ.
  { intros l1 l2 k H1 H2 K1 K2. apply StronglySorted_app. split; [|done]. rewrite Forall_forall in K1. rewrite Forall_forall in K2.
    intros e1 e2 [? ?]%K1 [? ?]%K2. right. lia. }
  unfold block_events, outcome_events. rewrite !fmap_app.
  assert (forall (A : Type) (f : A -> ServiceEvent) (l : list A) (P : Z * ServiceEvent -> Prop), (forall a, P (fi_daa b, f a)) ->
    Forall P ((fun ev => (fi_daa b, ev)) <$> (f <$> l))) as HF by (intros A f l P HP; rewrite !Forall_fmap; apply Forall_true; intros; apply HP).
  assert (forall (A : Type) (f : A -> ServiceEvent) (l : list A) k, (forall a, rank (f a) = k) ->
    StronglySorted queue_order ((fun ev => (fi_daa b, ev)) <$> (f <$> l))) as HS by (intros A f l k Hf; apply (Hone _ k); rewrite Forall_fmap; by apply Forall_true).
  apply (Happ _ _ 0); [by apply (HS _ _ _ 0)| |by apply HF|].
  - apply (Happ _ _ 1); [by apply (HS _ _ _ 1)| |by apply HF|].
    + apply (Happ _ _ 2); [apply (HS _ _ _ 2); by intros []|by apply (HS _ _ _ 3)|apply HF; by intros []|by apply HF].
    + rewrite Forall_app. split; apply HF; [intros []|intros]; by split.
  - rewrite !Forall_app. split; [by apply HF|]. split; apply HF; [intros []|intros]; by split.
Qed.

Lemma chain_events_sorted bs os : StronglySorted (fun b b' => fi_daa b < fi_daa b') bs -> StronglySorted queue_order (chain_events bs os).
Proof.
  unfold chain_events. intros Hs. revert os. induction Hs as [|b bs _ IH Hlt]; intros [|o os]; cbn; [constructor..|].
  apply StronglySorted_app. split; [|split; [apply outcome_events_sorted|apply IH]]. rewrite Forall_forall in Hlt.
  intros [d1 e1] [d2 e2] (ev & [= -> ->] & _)%list_elem_of_fmap He2. apply elem_of_chain_events in He2 as (i & b' & o' & Hb' & _ & -> & _).
  left. cbn. apply Hlt. by eapply list_elem_of_lookup_2.
Qed.

(** Equal scores are of one block. *)
Lemma increasing_inj bs i j b b' : StronglySorted (fun b b' => fi_daa b < fi_daa b') bs -> bs !! i = Some b -> bs !! j = Some b' ->
  fi_daa b = fi_daa b' -> i = j.
Proof.
  intros Hs Hi Hj Hd. destruct (decide (i = j)) as [|Hne]; [done|exfalso].
  assert (forall i j b b', (i < j)%nat -> bs !! i = Some b -> bs !! j = Some b' -> fi_daa b < fi_daa b') as Hlt.
  { clear -Hs. intros i j b b' Hij Hi Hj. eapply (StronglySorted_app_1_elem_of (fun b b' => fi_daa b < fi_daa b') (take j bs) (drop j bs));
      [by rewrite take_drop| |].
    - apply list_elem_of_lookup. exists i. by rewrite lookup_take_lt.
    - apply list_elem_of_lookup. exists 0%nat. by rewrite lookup_drop, Nat.add_0_r. }
  destruct (decide (i < j)%nat); [specialize (Hlt i j b b')|specialize (Hlt j i b' b)]; naive_solver lia.
Qed.

Lemma NoDup_bind_lookup {A B} (f : A -> list B) l i j a a' x : NoDup (l ≫= f) -> l !! i = Some a -> l !! j = Some a' -> x ∈ f a -> x ∈ f a' -> i = j.
Proof.
  revert i j. induction l as [|y l IH]; intros i j Hnd Hi Hj Ha Ha'; [done|]. rewrite bind_cons in Hnd. apply NoDup_app in Hnd as (_ & Hdis & Hnd).
  assert (forall k b, l !! k = Some b -> x ∈ f b -> x ∈ (l ≫= f)) as Hin.
  { intros k b Hk Hx. apply list_elem_of_bind. exists b. split; [done|]. by eapply list_elem_of_lookup_2. }
  destruct i as [|i], j as [|j]; cbn in Hi, Hj; [done| | |f_equal; by apply IH].
  - injection Hi as ->. exfalso. apply (Hdis x Ha). by eapply Hin.
  - injection Hj as ->. exfalso. apply (Hdis x Ha'). by eapply Hin.
Qed.

Lemma NoDup_of_miner m l : NoDup (ec_outpoint <$> l.*2) -> NoDup (of_miner m l).
Proof.
  intros Hnd. apply (NoDup_fmap_1 ec_outpoint). unfold of_miner. eapply sublist_NoDup; [exact Hnd|]. do 2 apply fmap_sublist. apply sublist_filter.
Qed.

Lemma elem_of_of_miner m l c : c ∈ of_miner m l <-> (m, c) ∈ l.
Proof.
  unfold of_miner. rewrite list_elem_of_fmap. split.
  - intros ([m' c'] & -> & [<- Hin]%list_elem_of_filter). done.
  - intros Hin. exists (m, c). by rewrite list_elem_of_filter.
Qed.

Section chain.
Context `{Hashers, ChaCha20, Malachite} {E : Type} (fin : Z).
Context (L L' : ServiceLedger) (bs : list FoldInput) (os : list FoldOutcome).
Context (HL : unstruck L) (Hbs : good_chain fin bs) (Hfold : folds (E := E) L bs = Ok (L', os)).

Lemma chain_folded : Forall2 (folded (E := E)) bs os.
Proof.
  destruct HL as (Hw & _ & Hs). eapply folds_folded; [done|done| |apply Hbs|].
  - eapply Forall_impl; [apply Hbs|]. naive_solver.
  - intros b _ m e He. by rewrite Hs in He.
Qed.

Lemma chain_block i b o : bs !! i = Some b -> os !! i = Some o -> folded (E := E) b o.
Proof. intros Hb Ho. by eapply Forall2_lookup_lr; [apply chain_folded|..]. Qed.

(** The burned claims of a miner are distinct claims of the chain. *)
Lemma chain_burned m : NoDup (os ≫= burned_of m) /\ forall c, c ∈ (os ≫= burned_of m) -> (m, c) ∈ (bs ≫= fi_escrows).
Proof.
  destruct HL as (Hw & Hv & _). pose proof (folds_claims L bs L' os m Hfold Hw) as Hsub. rewrite Hv in Hsub.
  assert (os ≫= burned_of m ⊆+ of_miner m (bs ≫= fi_escrows)) as Hs.
  { apply Hsub. eapply Forall_impl; [apply Hbs|]. naive_solver. }
  split.
  - pose proof (NoDup_of_miner m _ (gc_claims _ _ Hbs)) as Hnd. apply submseteq_Permutation in Hs as [k Hk]. rewrite Hk in Hnd. by apply NoDup_app in Hnd as [? _].
  - intros c Hc. apply elem_of_of_miner. by eapply elem_of_submseteq.
Qed.

Lemma miss_burned i o x c : os !! i = Some o -> x ∈ fo_misses o -> c ∈ sm_burned x -> c ∈ burned_of (sm_miner x) o /\ c ∈ (os ≫= burned_of (sm_miner x)).
Proof.
  intros Ho Hx Hc. assert (c ∈ burned_of (sm_miner x) o) as Hb.
  { apply list_elem_of_bind. exists x. split; [done|]. by apply list_elem_of_filter. }
  split; [done|]. apply list_elem_of_bind. exists o. split; [done|]. by eapply list_elem_of_lookup_2.
Qed.

Lemma chain_burned_once d x c d' x' c' : (d, EvMiss x) ∈ chain_events bs os -> (d', EvMiss x') ∈ chain_events bs os ->
  c ∈ sm_burned x -> c' ∈ sm_burned x' -> ec_outpoint c = ec_outpoint c' -> d = d'.
Proof.
  rewrite !elem_of_chain_events. intros (i & b & o & Hb & Ho & -> & Hx) (j & b' & o' & Hb' & Ho' & -> & Hx') Hc Hc' Heq.
  apply elem_of_outcome_events in Hx, Hx'. destruct (miss_burned i o x c Ho Hx Hc) as [K1 K2], (miss_burned j o' x' c' Ho' Hx' Hc') as [K1' K2'].
  destruct (chain_burned (sm_miner x)) as [Hnd Hin]. pose proof (proj2 (chain_burned (sm_miner x')) c' K2') as Hin'. apply Hin in K2.
  apply list_elem_of_lookup in K2 as [k Hk], Hin' as [k' Hk'].
  assert ((ec_outpoint <$> (bs ≫= fi_escrows).*2) !! k = Some (ec_outpoint c)) as Ek by (by rewrite !list_lookup_fmap, Hk).
  assert ((ec_outpoint <$> (bs ≫= fi_escrows).*2) !! k' = Some (ec_outpoint c)) as Ek' by (by rewrite !list_lookup_fmap, Hk', Heq).
  pose proof (NoDup_lookup _ _ _ _ (gc_claims _ _ Hbs) Ek Ek') as <-. rewrite Hk in Hk'. injection Hk' as Em <-. rewrite <-Em in K1'.
  pose proof (NoDup_bind_lookup _ _ _ _ _ _ _ Hnd Ho Ho' K1 K1') as <-. congruence.
Qed.

Lemma misses_of_elem m o x : x ∈ misses_of m o <-> x ∈ fo_misses o /\ sm_miner x = m.
Proof. unfold misses_of. rewrite list_elem_of_filter. tauto. Qed.

Lemma resets_of_elem m o p : p ∈ resets_of m o <-> (m, p) ∈ fo_resets o.
Proof.
  unfold resets_of. rewrite list_elem_of_fmap. split.
  - intros ([m' p'] & -> & [<- Hin]%list_elem_of_filter). done.
  - intros Hin. exists (m, p). by rewrite list_elem_of_filter.
Qed.

(** The queue of a chain is well formed. *)
Lemma chain_well_queued : Forall (fun e => Forall unit_data (event_rows e.1 e.2)) (chain_events bs os) -> well_queued fin (chain_events bs os).
Proof.
  intros Hu. pose proof (chain_events_sorted bs os (gc_increasing _ _ Hbs)) as Hs.
  assert (forall pre e post e', chain_events bs os = pre ++ e :: post -> e' ∈ chain_events bs os -> ~ queue_order e e' -> e' ∈ pre \/ e' = e) as Hpre.
  { intros pre e post e' Hevs He' Hn. rewrite Hevs in He', Hs. apply elem_of_app in He' as [?|[->|Hin]%elem_of_cons]; [by left|by right|].
    destruct Hn. change (e :: post) with ([e] ++ post) in Hs. rewrite app_assoc in Hs.
    apply (StronglySorted_app_1_elem_of _ _ _ _ _ Hs); [set_solver|done]. }
  split; [| |done| | | | |apply chain_burned_once].
  - clear -Hs. induction Hs as [|e evs _ IH Ha]; [constructor|]. constructor; [done|]. eapply Forall_impl; [exact Ha|]. intros e' [?|[? ?]]; lia.
  - apply Forall_forall. intros [d ev] (i & b & o & Hb & Ho & -> & _)%elem_of_chain_events. pose proof (gc_blocks _ _ Hbs) as Hg.
    rewrite Forall_forall in Hg. apply list_elem_of_lookup_2, Hg in Hb as (_ & _ & ? & ?). cbn. split; [lia|done].
  - intros d x (i & b & o & Hb & Ho & -> & Hx)%elem_of_chain_events. apply elem_of_outcome_events in Hx.
    destruct (chain_block i b o Hb Ho) as (L1 & L2 & HF & Hw1 & Hw2 & _). destruct (fold_inner_wf (E := E) L1 b Hw1 Hw2) as (? & ? & HF' & _ & Hm & _).
    rewrite HF in HF'. injection HF' as <- <-. rewrite Forall_forall in Hm. apply Hm in Hx as [? _]. lia.
  - intros d x y (i & b & o & Hb & Ho & -> & Hx)%elem_of_chain_events (j & b' & o' & Hb' & Ho' & Hd & Hy)%elem_of_chain_events Hxy.
    pose proof (increasing_inj bs i j b b' (gc_increasing _ _ Hbs) Hb Hb' Hd) as <-. assert (o' = o) as -> by congruence.
    apply elem_of_outcome_events in Hx, Hy. destruct (chain_block i b o Hb Ho) as (L1 & L2 & HF & _ & _ & Hpos & _).
    destruct (fold_trace L1 b L2 o (sm_miner x) HF Hpos) as [[HM|[z HM]] _ _ _ _].
    all: assert (x ∈ misses_of (sm_miner x) o) as Hx' by (by apply misses_of_elem); assert (y ∈ misses_of (sm_miner x) o) as Hy' by (by apply misses_of_elem).
    all: rewrite HM in Hx', Hy'; set_solver.
  - intros pre d x post p Hevs Hin. rewrite Hevs in Hs. apply (StronglySorted_app_1_elem_of _ _ _ _ (d, EvMiss x) Hs) in Hin; [|left].
    destruct Hin as [Hin|[_ Hin]]; cbn in Hin; lia.
  - intros pre d m p post Hevs. assert ((d, EvReset m p) ∈ chain_events bs os) as Hin by (rewrite Hevs; set_solver).
    apply elem_of_chain_events in Hin as (i & b & o & Hb & Ho & -> & Hr). apply elem_of_outcome_events in Hr.
    destruct (chain_block i b o Hb Ho) as (L1 & L2 & HF & _ & _ & Hpos & Hlb). destruct (fold_trace L1 b L2 o m HF Hpos) as [HM HR _ _ _].
    destruct (HR p) as [->|[(e & He & ->)|[-> Hne]]]; [by apply resets_of_elem|by left|left; by eapply Hlb|right].
    destruct HM as [?|[x HM]]; [done|]. exists x. assert (x ∈ misses_of m o) as [Hx Hmx]%misses_of_elem by (rewrite HM; left). split; [|done].
    destruct (Hpre _ _ _ (fi_daa b, EvMiss x) Hevs) as [?|?]; [|intros [?|[_ ?]]; cbn in *; lia|done|done].
    apply elem_of_chain_events. exists i, b, o. by rewrite elem_of_outcome_events.
Qed.
End chain.
