(* ===== verification/ServiceBase.v ===== *)
(** * The refold baseline and restarts of a chain

    The last record of the strike log per miner is the strike state of the live
    ledger, unless a block both strikes a miner and resets it when arming; and a
    node that folded a chain and flushed its events finds the same state when it
    restarts. *)
From S2P Require Import Prelude Bytes Tx Slice BTree Ledger LedgerSteps LedgerUndo LedgerInv LedgerAudit LedgerRuns.
From S2P Require Import Hashing Math MathArith U3072 MuHash ServiceCommit ServiceState ServiceMirror ServiceRestart ServiceChain.
From stdpp Require Import base gmap list.
#[local] Open Scope Z_scope.

(** ** The last record of a miner *)
Definition latest (log : gmap (Z * Hash) StrikeEntry) (m : Hash) (e : option StrikeEntry) : Prop :=
  match e with
  | Some r => exists d, log !! (d, m) = Some r /\ forall d', is_Some (log !! (d', m)) -> d' <= d
  | None => forall d, log !! (d, m) = None
  end.

Lemma latest_unique log m e1 e2 : latest log m e1 -> latest log m e2 -> e1 = e2.
Proof.
  destruct e1 as [r1|], e2 as [r2|]; cbn; [| |intros H1 (d2 & H2 & _); by rewrite H1 in H2|done].
  - intros (d1 & H1 & M1) (d2 & H2 & M2). pose proof (M1 d2 ltac:(eauto)). pose proof (M2 d1 ltac:(eauto)). assert (d1 = d2) as <- by lia. congruence.
  - intros (d1 & H1 & _) H2. by rewrite H2 in H1.
Qed.

Lemma load_base_latest db m : latest (db_strike db) m (load_strike_base db !! m).
Proof.
  unfold load_strike_base. rewrite <-strike_iterator_map. pose proof (strike_iterator_sorted db) as Hs. pose proof (NoDup_strike_iterator db) as Hnd.
  induction (strike_iterator db) as [|[[d k] r] l IH] using rev_ind.
  { cbn [foldl list_to_map foldr]. rewrite lookup_empty. intros d. by rewrite lookup_empty. }
  rewrite foldl_app. cbn [foldl]. rewrite fmap_app in Hnd. apply NoDup_app in Hnd as (Hnd & Hdis & _). rewrite list_to_map_snoc by (intros Hin; apply (Hdis _ Hin); left).
  apply StronglySorted_app in Hs as (Hle & Hs & _). specialize (IH Hs Hnd). destruct (decide (m = k)) as [->|Hne].
  - rewrite lookup_insert_eq. exists d. rewrite lookup_insert_eq. split; [done|]. intros d' [r' Hr']. destruct (decide (d' = d)) as [->|]; [done|].
    rewrite lookup_insert_ne in Hr' by congruence. apply elem_of_list_to_map_2 in Hr'. specialize (Hle _ ((d, k), r) Hr').
    unfold strike_key_leb, pair_leb in Hle. cbn in Hle. specialize (Hle ltac:(left)). lia.
  - rewrite lookup_insert_ne by done. destruct (foldl _ _ l !! m) as [r'|]; cbn in *.
    + destruct IH as (d' & Hd' & Hmax). exists d'. rewrite lookup_insert_ne by congruence. split; [done|]. intros d2. rewrite lookup_insert_ne by congruence. apply Hmax.
    + intros d'. rewrite lookup_insert_ne by congruence. apply IH.
Qed.

(** ** The log of a block *)

(** The record an event has for [m]. *)
Definition record_of (d : Z) (m : Hash) (ev : ServiceEvent) : option StrikeEntry :=
  match ev with
  | EvMiss x => if decide (sm_miner x = m) then Some (miss_record x d) else None
  | EvReset k p => if decide (k = m) then Some (mkStrike 0 p) else None
  | _ => None
  end.

Definition log_block (b : FoldInput) (o : FoldOutcome) (log : gmap (Z * Hash) StrikeEntry) : gmap (Z * Hash) StrikeEntry :=
  foldl (fun db e => strike_effect e.1 e.2 db) log (block_events b o).

Lemma strike_effect_lookup d ev log d' m :
  strike_effect d ev log !! (d', m) = match log !! (d', m) with Some r => Some r | None => if decide (d' = d) then record_of d m ev else None end.
Proof.
  assert (forall k r, record_row (d, k) r log !! (d', m) =
    match log !! (d', m) with Some r => Some r | None => if decide (d' = d) then if decide (k = m) then Some r else None else None end) as Hrow.
  { intros k r. unfold record_row. destruct (log !! (d, k)) eqn:Ek.
    - destruct (log !! (d', m)) eqn:Em; [done|]. destruct (decide (d' = d)) as [->|]; [|done]. destruct (decide (k = m)) as [->|]; congruence.
    - destruct (decide ((d', m) = (d, k))) as [[= -> ->]|Hne].
      + rewrite lookup_insert_eq, Ek, !decide_True by done. done.
      + rewrite lookup_insert_ne by congruence. destruct (log !! (d', m)); [done|]. destruct (decide (d' = d)) as [->|]; [|done].
        destruct (decide (k = m)) as [->|]; [done|done]. }
  destruct ev as [x|k p|k|w]; cbn [strike_effect record_of]; [apply Hrow..| |]; (destruct (log !! (d', m)); [done|by destruct (decide _)]).
Qed.

Lemma log_block_lookup b o log d m : log_block b o log !! (d, m) =
  match log !! (d, m) with Some r => Some r | None => if decide (d = fi_daa b) then head (omap (record_of (fi_daa b) m) (outcome_events o)) else None end.
Proof.
  unfold log_block, block_events. revert log. induction (outcome_events o) as [|ev evs IH]; intros log; cbn [foldl fmap list_fmap].
  { destruct (log !! (d, m)); [done|]. by destruct (decide _). }
  rewrite IH. cbn [fst snd]. rewrite strike_effect_lookup. destruct (log !! (d, m)); [done|]. destruct (decide (d = fi_daa b)) as [->|]; [|done].
  cbn. by destruct (record_of _ m ev).
Qed.

(** Misses are recorded before resets. *)
Lemma outcome_records d m o : omap (record_of d m) (outcome_events o) =
  ((fun x => miss_record x d) <$> misses_of m o) ++ (mkStrike 0 <$> resets_of m o).
Proof.
  unfold outcome_events. rewrite !omap_app.
  assert (omap (record_of d m) (EvSighting <$> fo_sightings o) = []) as -> by (induction (fo_sightings o); [done|done]).
  assert (omap (record_of d m) (EvReward <$> fo_rewards o) = []) as -> by (induction (fo_rewards o); [done|done]).
  rewrite app_nil_r. cbn [app]. f_equal.
  - unfold misses_of. induction (fo_misses o) as [|x l IH]; [done|]. rewrite filter_cons. cbn. destruct (decide _); cbn; by rewrite IH.
  - unfold resets_of. induction (fo_resets o) as [|[k p] l IH]; [done|]. rewrite filter_cons. cbn. destruct (decide _); cbn; by rewrite IH.
Qed.

(** No miner is both struck and reset. *)
Definition apart (o : FoldOutcome) : Prop := forall m, misses_of m o = [] \/ resets_of m o = [].

Definition older (log : gmap (Z * Hash) StrikeEntry) (daa : Z) : Prop := forall d m, is_Some (log !! (d, m)) -> d < daa.

Lemma log_block_latest b o log m e0 e' : older log (fi_daa b) -> latest log m e0 ->
  block_trace e0 (fi_daa b) (misses_of m o) (resets_of m o) e' -> misses_of m o = [] \/ resets_of m o = [] -> latest (log_block b o log) m e'.
Proof.
  intros Hold He0 [HM _ HQ HR HS] Hap. assert (log !! (fi_daa b, m) = None) as Hnew.
  { destruct (log !! (fi_daa b, m)) eqn:El; [|done]. assert (fi_daa b < fi_daa b); [|lia]. eauto. }
  assert (forall d, log_block b o log !! (d, m) = if decide (d = fi_daa b) then head (((fun x => miss_record x (fi_daa b)) <$> misses_of m o) ++ (mkStrike 0 <$> resets_of m o)) else log !! (d, m)) as Hlog.
  { intros d. rewrite log_block_lookup, outcome_records. destruct (decide (d = fi_daa b)) as [->|]; [by rewrite Hnew|by destruct (log !! (d, m))]. }
  assert (forall r, head (((fun x => miss_record x (fi_daa b)) <$> misses_of m o) ++ (mkStrike 0 <$> resets_of m o)) = Some r -> latest (log_block b o log) m (Some r)) as Hput.
  { intros r Hr. exists (fi_daa b). rewrite Hlog, decide_True by done. split; [done|]. intros d'. rewrite Hlog. destruct (decide (d' = fi_daa b)); [lia|].
    intros Hd'. apply Hold in Hd'. lia. }
  destruct (misses_of m o) as [|x M]; [destruct (resets_of m o) as [|p R] eqn:ER|].
  - rewrite (HQ eq_refl eq_refl). destruct e0 as [r|]; cbn in *.
    + destruct He0 as (d & Hd & Hmax). exists d. assert (d < fi_daa b) by (apply (Hold d m); eauto). rewrite Hlog, decide_False by lia. split; [done|].
      intros d'. rewrite Hlog. destruct (decide _); [by intros [? ?]|apply Hmax].
    + intros d. rewrite Hlog. by destruct (decide _).
  - destruct (HR eq_refl p) as [_ ->]; [left|]. by apply Hput.
  - destruct HM as [?|[y [= -> ->]]]; [done|]. destruct Hap as [?|Hap]; [done|]. rewrite Hap in *.
    destruct (HS y eq_refl) as [->|(p & Hp & _)]; [by apply Hput|set_solver].
Qed.

Lemma log_block_older b o log daa : older log (fi_daa b) -> fi_daa b < daa -> older (log_block b o log) daa.
Proof.
  intros Hold Hlt d m. rewrite log_block_lookup. destruct (log !! (d, m)) eqn:El; [intros _; assert (d < fi_daa b) by eauto; lia|].
  destruct (decide _) as [->|]; [done|]. by intros [? ?].
Qed.

Lemma log_chain {E} L bs L' os log : folds (E := E) L bs = Ok (L', os) -> Forall (fun b => 0 < fi_daa b) bs ->
  StronglySorted (fun b b' => fi_daa b < fi_daa b') bs -> Forall apart os -> (forall b, head bs = Some b -> older log (fi_daa b)) ->
  (forall m, latest log m (strike_state L m)) ->
  forall m, latest (foldl (fun db e => strike_effect e.1 e.2 db) log (chain_events bs os)) m (strike_state L' m).
Proof.
  revert L os log. induction bs as [|b bs IH]; intros L os log H Hpos Hs Hap Hold Hlat; cbn in H; [injection H as <- <-; exact Hlat|].
  apply bind_Ok in H as ([L1 o] & H1 & H). apply bind_Ok in H as ([L2 os'] & H2 & H). injection H as -> <-.
  apply Forall_cons in Hpos as [Hd Hpos], Hap as [Ho Hap]. inversion_clear Hs as [|? ? Hs' Hlt]. specialize (Hold b eq_refl).
  unfold chain_events. cbn [zip_with]. change (mjoin (?x :: ?l)) with (x ++ mjoin l). rewrite foldl_app.
  apply (IH L1 os' (log_block b o log) H2 Hpos Hs' Hap).
  - intros b' Hb'. destruct bs as [|b2 bs]; [done|]. injection Hb' as ->. apply Forall_cons in Hlt as [Hlt _]. by apply log_block_older.
  - intros m. eapply log_block_latest; [done|apply Hlat|by eapply fold_trace|apply Ho].
Qed.

(** ** Restart *)
Section theorems.
Context `{Hashers, ChaCha20, Malachite} {E : Type} (fin : Z).

Lemma flush_run_log evs steps : 0 <= fin -> well_queued fin evs -> queued (concat steps.*2) = evs ->
  exists pre queue st, flush_run (E := E) fin [] steps (fresh_state empty_stores) = Ok (queue, st) /\ evs = pre ++ queued queue /\ db_strike (sv_db st) = strike_log pre.
Proof.
  intros Hfin Hq Hst. destruct flushed_empty with (fin := fin) as [Hfl0 Hop0].
  destruct (flush_run_ok (E := E) fin Hfin evs [] [] steps _ 0 Hq (eq_sym Hst) Hfl0 Hop0) as (pre & queue & st & cur & Er & Hevs & Hfl & _).
  exists pre, queue, st. split; [done|]. split; [done|]. apply Hfl.
Qed.

(** C5: a restart is transparent.  Fold any chain of blocks of increasing scores,
    whose escrow claims are distinct, from a ledger before the first event;
    queue the events in the order of the processor and flush them in any number
    of advances of the tip.  No call panics, and a node that then starts with
    the stores alone loads the same burned claims, suspensions, first sightings,
    strike histories and rewarded requests, answers every query of a sealed
    commitment and of the reward mints alike, and has no later cursor.  (The
    rows are those whose MuHash elements have inverses.) *)
Theorem restart_reloads_state L bs L' os steps :
  0 <= fin -> unstruck L -> good_chain fin bs -> folds (E := E) L bs = Ok (L', os) ->
  Forall (fun e => Forall unit_data (event_rows e.1 e.2)) (chain_events bs os) -> queued (concat steps.*2) = chain_events bs os ->
  exists queue st st', flush_run (E := E) fin [] steps (fresh_state empty_stores) = Ok (queue, st) /\
    load_service_burned (E := E) fin (fresh_state (sv_db st)) = Ok st' /\ sv_db st' = sv_db st /\
    same_service fin st st' /\ sv_cursor st' <= sv_cursor st.
Proof.
  intros Hfin HL Hbs Hf Hu Hst. apply restart_same; [done|]. rewrite Hst. by eapply chain_well_queued.
Qed.

(** C37: the strike log is the refold baseline.  When all the events of a chain
    are flushed and no block both strikes a miner and resets it, the last record
    of the log for every miner is the strike state of the live ledger. *)
Theorem strike_baseline_exact L bs L' os steps :
  0 <= fin -> unstruck L -> good_chain fin bs -> folds (E := E) L bs = Ok (L', os) -> Forall apart os ->
  Forall (fun e => Forall unit_data (event_rows e.1 e.2)) (chain_events bs os) -> queued (concat steps.*2) = chain_events bs os ->
  exists queue st, flush_run (E := E) fin [] steps (fresh_state empty_stores) = Ok (queue, st) /\
    (queue = [] -> forall m, load_strike_base (sv_db st) !! m = strike_state L' m).
Proof.
  intros Hfin HL Hbs Hf Hap Hu Hst.
  destruct (flush_run_log _ steps Hfin (chain_well_queued fin L L' bs os HL Hbs Hf Hu) Hst) as (pre & queue & st & Er & Hevs & Hdb).
  exists queue, st. split; [done|]. intros -> m. cbn in Hevs. rewrite app_nil_r in Hevs. subst pre.
  eapply latest_unique; [apply load_base_latest|]. rewrite Hdb. eapply log_chain; [exact Hf| |apply Hbs|done| |].
  - eapply Forall_impl; [apply Hbs|]. naive_solver.
  - intros b _ d k. rewrite lookup_empty. by intros [? ?].
  - intros k. destruct HL as (_ & _ & ->). intros d. apply lookup_empty.
Qed.
End theorems.

(** ** Examples

    The chain of [Ledger.v], flushed in two advances. *)
Definition ex_bs : list FoldInput := [ex_b1; ex_b2; ex_b3; ex_b4].
Definition ex_run : ServiceLedger * list FoldOutcome := match folds (E := ()) ex_l0 ex_bs with Ok r => r | _ => (ex_l0, []) end.
Definition queue_of (evs : list (Z * ServiceEvent)) : list (Z * Z * ServiceEvent) := (fun e => (0, e.1, e.2)) <$> evs.
Definition ex_events : list (Z * ServiceEvent) := chain_events ex_bs ex_run.2.
Definition ex_steps : list (Z * list (Z * Z * ServiceEvent)) :=
  [(432200, queue_of (take 3 ex_events)); (440000, queue_of (drop 3 ex_events))].

Lemma spell_units evs : forallb (fun e => forallb (fun r => Z.gcd (@elem spell_hashers spell_chacha r) (P 48) =? 1) (event_rows e.1 e.2)) evs = true ->
  Forall (fun e => Forall (@unit_data spell_hashers spell_chacha) (event_rows e.1 e.2)) evs.
Proof.
  rewrite forallb_forall. intros Hall. apply Forall_forall. intros e He%list_elem_of_In. specialize (Hall e He). rewrite forallb_forall in Hall.
  apply Forall_forall. intros r Hr%list_elem_of_In. apply spell_unit, Z.eqb_eq. by apply Hall.
Qed.

Lemma apart_check os : forallb (fun o => forallb (fun x => forallb (fun r => negb (r.1 =? sm_miner x)) (fo_resets o)) (fo_misses o)) os = true -> Forall apart os.
Proof.
  rewrite forallb_forall. intros Hall. apply Forall_forall. intros o Ho%list_elem_of_In m. specialize (Hall o Ho). rewrite forallb_forall in Hall.
  destruct (misses_of m o) as [|x M] eqn:EM; [by left|]. right. destruct (resets_of m o) as [|p R] eqn:ER; [done|]. exfalso.
  assert (x ∈ misses_of m o) as [Hx%list_elem_of_In Hm]%misses_of_elem by (rewrite EM; left).
  assert (p ∈ resets_of m o) as Hp%resets_of_elem%list_elem_of_In by (rewrite ER; left).
  specialize (Hall x Hx). rewrite forallb_forall in Hall. specialize (Hall _ Hp). cbn in Hall. lia.
Qed.

Lemma ex_l0_unstruck : unstruck ex_l0.
Proof. split; [apply ex_l0_wf|]. split; [done|]. intros m. unfold strike_state. cbn. by rewrite !lookup_empty. Qed.

Lemma ex_bs_good : good_chain 432000 ex_bs.
Proof.
  split.
  - repeat constructor; try done; try apply ex_b1_wf; try apply ex_b2_wf; try apply ex_b3_wf; try apply ex_b4_wf; cbn; lia.
  - repeat constructor; cbn; lia.
  - apply (bool_decide_unpack _). vm_compute. reflexivity.
Qed.

Lemma restart_reloads_state_witness :
  folds (E := ()) ex_l0 ex_bs = Ok ex_run /\
  exists queue st st', @flush_run spell_hashers spell_chacha spell_malachite () 432000 [] ex_steps (fresh_state empty_stores) = Ok (queue, st) /\
    @load_service_burned spell_hashers spell_chacha spell_malachite () 432000 (fresh_state (sv_db st)) = Ok st' /\ sv_db st' = sv_db st /\
    same_service 432000 st st' /\ sv_cursor st' <= sv_cursor st.
Proof.
  split; [vm_compute; reflexivity|].
  apply (@restart_reloads_state spell_hashers spell_chacha spell_malachite () 432000 ex_l0 ex_bs ex_run.1 ex_run.2).
  - lia.
  - apply ex_l0_unstruck.
  - apply ex_bs_good.
  - vm_compute. reflexivity.
  - apply spell_units. vm_compute. reflexivity.
  - vm_compute. reflexivity.
Defined.

Lemma strike_baseline_exact_witness :
  exists queue st, @flush_run spell_hashers spell_chacha spell_malachite () 432000 [] ex_steps (fresh_state empty_stores) = Ok (queue, st) /\
    (queue = [] -> forall m, load_strike_base (sv_db st) !! m = strike_state ex_run.1 m).
Proof.
  apply (@strike_baseline_exact spell_hashers spell_chacha spell_malachite () 432000 ex_l0 ex_bs ex_run.1 ex_run.2).
  - lia.
  - apply ex_l0_unstruck.
  - apply ex_bs_good.
  - vm_compute. reflexivity.
  - apply apart_check. vm_compute. reflexivity.
  - apply spell_units. vm_compute. reflexivity.
  - vm_compute. reflexivity.
Defined.

#[local] Instance StrikeEntry_eq_dec : EqDecision StrikeEntry.
Proof. solve_decision. Defined.

(** The window of the first request closes in the block that arms the second
    one, which miner 2 has already answered; a later block sights a third miner. *)
Definition late_block (daa : Z) requests responses escrows : FoldInput :=
  mkInput_ daa requests [] responses escrows [] None (fun _ => true) ex_cohort.
Definition late_bs : list FoldInput :=
  [late_block 100 [(7, 0, 256)] [] []; late_block 101 [] [] []; late_block 3600 [(8, 0, 256)] [(8, Some 12)] [];
   late_block 4000 [] [] []; late_block 4100 [] [] [(3, ex_claim 60 4100)]].
Definition late_run : ServiceLedger * list FoldOutcome := match folds (E := ()) ex_l0 late_bs with Ok r => r | _ => (ex_l0, []) end.
Definition late_flush : outcome () (list (Z * Z * ServiceEvent) * ServiceState) :=
  @flush_run spell_hashers spell_chacha spell_malachite () 432000 [] [(500000, queue_of (chain_events late_bs late_run.2))] (fresh_state empty_stores).

