(* ===== verification/ServiceTransfer.v ===== *)
(** * Transfers of the service state

    The rows that a node serves are parsed back to the records they were written
    from, so that a syncing node has the stores of the serving one up to the
    cutoff, and the same sealed commitments there. *)
From S2P Require Import Prelude Bytes Tx Slice BTree Ledger LedgerWire ScriptNum Payloads.
From S2P Require Import Hashing Math MathArith U3072 MuHash ServiceCommit ServiceState ServiceMirror ServiceRestart.
From stdpp Require Import base gmap list.
#[local] Open Scope Z_scope.

(** ** Rows *)
Definition row_bytes (r : Row) : list Z :=
  match r with
  | RowBurn o daa => burn_row_bytes (transaction_id o) (op_index o) daa
  | RowStrike daa miner e => strike_row_bytes daa miner (se_count e) (se_last_daa e)
  | RowSighting miner daa => first_seen_row_bytes miner daa
  | RowReward rh e => reward_row_bytes rh (re_winner e) (re_amount e) (re_daa e) (re_spk e)
  end.

Definition row_score (r : Row) : Z :=
  match r with RowBurn _ d | RowStrike d _ _ | RowSighting _ d => d | RowReward _ e => re_daa e end.

Definition is_hash (h : Hash) : Prop := 0 <= h < 2 ^ 256.

(** The widths of the fields.  The empty script of version zero stands for no
    payout script. *)
Definition valid_spk (s : ScriptPublicKey) : Prop :=
  in_u 16 (spk_version s) /\ in_u 16 (Z.of_nat (length (spk_script s))) /\ (spk_version s <> 0 \/ spk_script s <> []).

Definition valid_row (r : Row) : Prop :=
  match r with
  | RowBurn o daa => is_hash (transaction_id o) /\ in_u 32 (op_index o) /\ in_u 64 daa
  | RowStrike daa miner e => in_u 64 daa /\ is_hash miner /\ in_u 32 (se_count e) /\ in_u 64 (se_last_daa e)
  | RowSighting miner daa => is_hash miner /\ in_u 64 daa
  | RowReward rh e =>
      is_hash rh /\ is_hash (re_winner e) /\ in_u 64 (re_amount e) /\ in_u 64 (re_daa e) /\
      match re_spk e with Some s => valid_spk s | None => True end
  end.

Lemma hash_bytes_round h : is_hash h -> hash_of_bytes (hash_bytes h) = h.
Proof. intros Hh. rewrite hash_of_bytes_le. unfold hash_bytes. rewrite rev_involutive. by apply of_le_le. Qed.

(** The fields of a row in turn. *)
Ltac len := match goal with |- length (le_bytes _ _) = _ => apply length_le_bytes | |- length (hash_bytes _) = _ => apply length_hash_bytes | _ => reflexivity end.
Ltac skip n := rewrite (slice_app n); [cbn [Nat.sub]|len|repeat constructor].

Lemma slice_cons a b x (l : list Z) : slice (S a) (S b) (x :: l) = slice a b l.
Proof. done. Qed.

Lemma slice_all n (l : list Z) : length l = n -> slice 0 n l = l.
Proof. intros <-. unfold slice. rewrite drop_0, Nat.sub_0_r. apply firstn_all. Qed.

Lemma parse_burn_row o d : valid_row (RowBurn o d) -> parse_row (row_bytes (RowBurn o d)) = Ok (RowBurn o d).
Proof.
  destruct o as [h i]. intros (Hh & Hi & Hd). cbn [row_bytes transaction_id op_index] in *. unfold parse_row, burn_row_bytes. cbn [app].
  assert (length (1 :: hash_bytes h ++ le_bytes 4 i ++ le_bytes 8 d) = 45%nat) as ->
    by (cbn [length]; by rewrite !length_app, length_hash_bytes, !length_le_bytes). cbn [Nat.eqb].
  rewrite !slice_cons. rewrite slice_head by len. skip 32%nat. rewrite slice_head by len. skip 32%nat. skip 4%nat. rewrite slice_all by len. by rewrite hash_bytes_round, !of_le_le.
Qed.

Lemma parse_strike_row d m e : valid_row (RowStrike d m e) -> parse_row (row_bytes (RowStrike d m e)) = Ok (RowStrike d m e).
Proof.
  destruct e as [c l]. intros (Hd & Hm & Hc & Hl). cbn [row_bytes se_count se_last_daa] in *. unfold parse_row, strike_row_bytes. cbn [app].
  assert (length (2 :: le_bytes 8 d ++ hash_bytes m ++ le_bytes 4 c ++ le_bytes 8 l) = 53%nat) as ->
    by (cbn [length]; by rewrite !length_app, length_hash_bytes, !length_le_bytes). cbn [Nat.eqb].
  rewrite !slice_cons. rewrite slice_head by len. skip 8%nat. rewrite slice_head by len. skip 8%nat. skip 32%nat. rewrite slice_head by len.
  skip 8%nat. skip 32%nat. skip 4%nat. rewrite slice_all by len. by rewrite hash_bytes_round, !of_le_le.
Qed.

Lemma parse_sighting_row m d : valid_row (RowSighting m d) -> parse_row (row_bytes (RowSighting m d)) = Ok (RowSighting m d).
Proof.
  intros (Hm & Hd). cbn [row_bytes] in *. unfold parse_row, first_seen_row_bytes. cbn [app].
  assert (length (3 :: hash_bytes m ++ le_bytes 8 d) = 41%nat) as -> by (cbn [length]; by rewrite !length_app, length_hash_bytes, !length_le_bytes).
  cbn [Nat.eqb]. rewrite !slice_cons. rewrite slice_head by len. skip 32%nat. rewrite slice_all by len. by rewrite hash_bytes_round, !of_le_le.
Qed.

Lemma parse_reward_row rh e : valid_row (RowReward rh e) -> parse_row (row_bytes (RowReward rh e)) = Ok (RowReward rh e).
Proof.
  destruct e as [w a d spk]. intros (Hrh & Hw & Ha & Hd & Hs). cbn [row_bytes re_winner re_amount re_daa re_spk] in *.
  set (v := match spk with Some s => spk_version s | None => 0 end). set (script := match spk with Some s => spk_script s | None => [] end).
  assert (in_u 16 v /\ in_u 16 (Z.of_nat (length script))) as [Hv Hlz] by (subst v script; destruct spk as [s|]; [destruct Hs; tauto|done]).
  assert (reward_row_bytes rh w a d spk = [4] ++ hash_bytes rh ++ hash_bytes w ++ le_bytes 8 a ++ le_bytes 8 d ++ le_bytes 2 v ++ le_bytes 2 (Z.of_nat (length script)) ++ script) as ->.
  { unfold reward_row_bytes. subst v script. by destruct spk. }
  assert (length ([4] ++ hash_bytes rh ++ hash_bytes w ++ le_bytes 8 a ++ le_bytes 8 d ++ le_bytes 2 v ++ le_bytes 2 (Z.of_nat (length script)) ++ script)
    = (85 + length script)%nat) as Hlen by (rewrite !length_app, !length_hash_bytes, !length_le_bytes; cbn [length]; lia).
  set (tail := hash_bytes rh ++ _) in *.
  assert (slice 0 32 tail = hash_bytes rh) as S1 by (by apply slice_head, length_hash_bytes).
  assert (slice 32 64 tail = hash_bytes w) as S2 by (unfold tail; skip 32%nat; by apply slice_head, length_hash_bytes).
  assert (slice 64 72 tail = le_bytes 8 a) as S3 by (unfold tail; do 2 skip 32%nat; by apply slice_head, length_le_bytes).
  assert (slice 72 80 tail = le_bytes 8 d) as S4 by (unfold tail; do 2 skip 32%nat; skip 8%nat; by apply slice_head, length_le_bytes).
  assert (slice 80 82 tail = le_bytes 2 v) as S5 by (unfold tail; do 2 skip 32%nat; do 2 skip 8%nat; by apply slice_head, length_le_bytes).
  assert (slice 82 84 tail = le_bytes 2 (Z.of_nat (length script))) as S6 by (unfold tail; do 2 skip 32%nat; do 2 skip 8%nat; skip 2%nat; by apply slice_head, length_le_bytes).
  assert (slice 84 (84 + length script) tail = script) as S7.
  { unfold tail. do 2 skip 32%nat. do 2 skip 8%nat. do 2 skip 2%nat. rewrite <-(slice_all (length script) script) at 3 by done. f_equal. lia. }
  unfold parse_row. change ([4] ++ tail) with (4 :: tail) in *. rewrite Hlen. rewrite (proj2 (Nat.leb_le 85 _)) by lia.
  rewrite !slice_cons, S1, S2, S3, S4, S5, S6.
  rewrite !hash_bytes_round, !of_le_le, !Nat2Z.id by done. rewrite Nat.eqb_refl. cbn [negb].
  change (85 + length script)%nat with (S (84 + length script)). rewrite slice_cons, S7. do 3 f_equal.
  destruct spk as [s|]; subst v script; cbn; [|done]. destruct Hs as (_ & _ & Hne). destruct s as [sv [|x sc]]; cbn in *; [|done].
  destruct (Z.eqb_spec sv 0); [by destruct Hne|done].
Qed.

Lemma parse_row_bytes r : valid_row r -> parse_row (row_bytes r) = Ok r.
Proof. destruct r; [apply parse_burn_row|apply parse_strike_row|apply parse_sighting_row|apply parse_reward_row]. Qed.

(** ** Stores *)

(** The records of the stores, in the order of their rows. *)
Definition burn_records (db : ServiceStores) : list Row := (fun kv => RowBurn kv.1 kv.2) <$> map_to_list (db_burn db).
Definition strike_records (db : ServiceStores) : list Row := (fun kv => RowStrike kv.1.1 kv.1.2 kv.2) <$> strike_iterator db.
Definition sighting_records (db : ServiceStores) : list Row := (fun kv => RowSighting kv.1 kv.2) <$> btree_iter (db_first_seen db).
Definition reward_records (db : ServiceStores) : list Row := (fun kv => RowReward kv.1 kv.2) <$> btree_iter (db_reward db).
Definition records (db : ServiceStores) : list Row := burn_records db ++ strike_records db ++ sighting_records db ++ reward_records db.

Definition scored (r : Row) : Z * list Z := (row_score r, row_bytes r).

Lemma records_rows db : store_rows db = scored <$> records db.
Proof.
  unfold store_rows, records, burn_rows, strike_rows, first_seen_rows, reward_rows, burn_records, strike_records, sighting_records, reward_records.
  rewrite !fmap_app, <-!list_fmap_compose. f_equal; [|f_equal; [|f_equal]]; apply list_fmap_ext; [by intros _ [? ?] _|by intros _ [[? ?] ?] _|by intros _ [? ?] _|by intros _ [? ?] _].
Qed.

Definition upto (cutoff : Z) (db : ServiceStores) : ServiceStores :=
  mkStores (filter (fun kv => kv.2 <= cutoff) (db_burn db)) (filter (fun kv => kv.1.1 <= cutoff) (db_strike db))
    (filter (fun kv => kv.2 <= cutoff) (db_first_seen db)) (filter (fun kv => re_daa kv.2 <= cutoff) (db_reward db)).

Lemma filter_scored cutoff (rs : list Row) : (filter (fun r => r.1 <= cutoff) (scored <$> rs)).*2 = row_bytes <$> filter (fun r => row_score r <= cutoff) rs.
Proof.
  induction rs as [|r rs IH]; [done|]. rewrite fmap_cons, !filter_cons. cbn [scored fst]. case_decide; cbn; by rewrite IH.
Qed.

Lemma served_rows db pp pp_daa handoff : get_service_state_rows db pp (Some pp_daa) handoff =
  Ok (row_bytes <$> filter (fun r => row_score r <= sat_add 64 pp_daa handoff) (records db)).
Proof.
  pose proof (records_rows db) as Hr. unfold get_service_state_rows. f_equal.
  rewrite <-!fmap_app, <-!filter_app. change (burn_rows db ++ strike_rows db ++ first_seen_rows db ++ reward_rows db) with (store_rows db).
  rewrite Hr. apply filter_scored.
Qed.

(** Writing the records of one kind. *)
Lemma set_burns l db : foldl set_row db ((fun kv => RowBurn kv.1 kv.2) <$> l) =
  mkStores (foldl (fun m '(k, v) => <[k := v]> m) (db_burn db) l) (db_strike db) (db_first_seen db) (db_reward db).
Proof. revert db. induction l as [|[k v] l IH]; intros db; [by destruct db|]. cbn. by rewrite IH. Qed.

Lemma set_strikes l db : foldl set_row db ((fun kv => RowStrike kv.1.1 kv.1.2 kv.2) <$> l) =
  mkStores (db_burn db) (foldl (fun m '(k, v) => <[k := v]> m) (db_strike db) l) (db_first_seen db) (db_reward db).
Proof. revert db. induction l as [|[[d k] v] l IH]; intros db; [by destruct db|]. cbn. by rewrite IH. Qed.

Lemma set_sightings l db : foldl set_row db ((fun kv => RowSighting kv.1 kv.2) <$> l) =
  mkStores (db_burn db) (db_strike db) (foldl (fun m '(k, v) => <[k := v]> m) (db_first_seen db) l) (db_reward db).
Proof. revert db. induction l as [|[k v] l IH]; intros db; [by destruct db|]. cbn. by rewrite IH. Qed.

Lemma set_rewards l db : foldl set_row db ((fun kv => RowReward kv.1 kv.2) <$> l) =
  mkStores (db_burn db) (db_strike db) (db_first_seen db) (foldl (fun m '(k, v) => <[k := v]> m) (db_reward db) l).
Proof. revert db. induction l as [|[k v] l IH]; intros db; [by destruct db|]. cbn. by rewrite IH. Qed.

(** The filtered listing of a map makes the filtered map. *)
Lemma insert_filtered {K V} `{Countable K} (Q : K * V -> Prop) `{!forall x, Decision (Q x)} (m : gmap K V) l : l ≡ₚ map_to_list m ->
  foldl (fun m '(k, v) => <[k := v]> m) ∅ (filter Q l) = filter Q m.
Proof.
  intros Hp. assert (NoDup l.*1) as Hnd by (rewrite Hp; apply NoDup_fst_map_to_list).
  assert (NoDup (filter Q l).*1) as Hnd' by (eapply sublist_NoDup; [exact Hnd|]; apply fmap_sublist, sublist_filter).
  rewrite foldl_insert_map by done. rewrite map_union_empty. apply map_eq. intros k. apply option_eq. intros v.
  rewrite <-elem_of_list_to_map by done. rewrite map_lookup_filter_Some, list_elem_of_filter, Hp, elem_of_map_to_list. tauto.
Qed.

Lemma filter_records {A} (f : A -> Row) (cutoff : Z) (Q : A -> Prop) `{!forall x, Decision (Q x)} (l : list A) : (forall a, row_score (f a) <= cutoff <-> Q a) ->
  filter (fun r => row_score r <= cutoff) (f <$> l) = f <$> filter Q l.
Proof.
  intros Hf. induction l as [|a l IH]; [done|]. rewrite fmap_cons, !filter_cons. destruct (decide (Q a)) as [Ha|Ha].
  - rewrite decide_True by (by apply Hf). by rewrite fmap_cons, IH.
  - rewrite decide_False by (by rewrite Hf). done.
Qed.

Lemma import_stores db cutoff : foldl set_row empty_stores (filter (fun r => row_score r <= cutoff) (records db)) = upto cutoff db.
Proof.
  unfold records, burn_records, strike_records, sighting_records, reward_records. rewrite !filter_app, !foldl_app.
  rewrite (filter_records _ cutoff (fun kv => kv.2 <= cutoff)), set_burns by done. cbn [db_burn db_strike db_first_seen db_reward empty_stores].
  rewrite (filter_records _ cutoff (fun kv => kv.1.1 <= cutoff)), set_strikes by done. cbn [db_burn db_strike db_first_seen db_reward].
  rewrite (filter_records _ cutoff (fun kv => kv.2 <= cutoff)), set_sightings by done. cbn [db_burn db_strike db_first_seen db_reward].
  rewrite (filter_records _ cutoff (fun kv => re_daa kv.2 <= cutoff)), set_rewards by done. cbn [db_burn db_strike db_first_seen db_reward].
  unfold upto. f_equal; apply insert_filtered; [done|apply sort_by_perm|apply iter_perm|apply iter_perm].
Qed.

(** ** The rows of the imported stores *)
Lemma map_to_list_filtered {K V} `{Countable K} (Q : K * V -> Prop) `{!forall x, Decision (Q x)} (m : gmap K V) :
  map_to_list (filter Q m) ≡ₚ filter Q (map_to_list m).
Proof.
  apply NoDup_Permutation; [apply NoDup_map_to_list|apply NoDup_filter, NoDup_map_to_list|]. intros [k v].
  rewrite list_elem_of_filter, !elem_of_map_to_list, map_lookup_filter_Some. tauto.
Qed.

Lemma records_upto cutoff db : records (upto cutoff db) ≡ₚ filter (fun r => row_score r <= cutoff) (records db).
Proof.
  unfold records, burn_records, strike_records, sighting_records, reward_records. rewrite !filter_app.
  rewrite (filter_records _ cutoff (fun kv => kv.2 <= cutoff)) by done. rewrite (filter_records _ cutoff (fun kv => kv.1.1 <= cutoff)) by done.
  rewrite (filter_records _ cutoff (fun kv => kv.2 <= cutoff)) by done. rewrite (filter_records _ cutoff (fun kv => re_daa kv.2 <= cutoff)) by done.
  f_equiv; [apply fmap_Permutation, map_to_list_filtered|]. f_equiv; [apply fmap_Permutation|].
  - unfold strike_iterator. rewrite sort_by_perm. cbn [db_strike upto]. rewrite map_to_list_filtered. by rewrite sort_by_perm.
  - f_equiv; apply fmap_Permutation; cbn [db_first_seen db_reward upto]; rewrite !iter_perm, map_to_list_filtered; done.
Qed.

Section transfer.
Context `{Hashers, ChaCha20, Malachite} (fin : Z).

Lemma store_rows_upto cutoff db : store_rows (upto cutoff db) ≡ₚ rows_upto cutoff (store_rows db).
Proof.
  rewrite !records_rows, records_upto. unfold rows_upto. induction (records db) as [|r rs IH]; [done|].
  rewrite fmap_cons, !filter_cons. cbn [scored fst]. case_decide; [by rewrite fmap_cons, IH|done].
Qed.

Lemma rows_upto_twice d cutoff rows : d <= cutoff -> rows_upto d (rows_upto cutoff rows) = rows_upto d rows.
Proof. intros Hd. unfold rows_upto. rewrite list_filter_filter. apply list_filter_iff. intros r. lia. Qed.

Lemma fits_upto cutoff db : fits fin db -> fits fin (upto cutoff db).
Proof.
  intros [Hr Hx]. split.
  - rewrite store_rows_upto. unfold rows_upto. rewrite Forall_forall in *. intros r [_ Hin]%list_elem_of_filter. by apply Hr.
  - intros d m [Hd _]%map_lookup_filter_Some. by eapply Hx.
Qed.

Lemma parse_rows rs : Forall valid_row rs -> mapM' parse_row (row_bytes <$> rs) = Ok rs.
Proof. induction 1 as [|r rs Hr _ IH]; [done|]. cbn. rewrite parse_row_bytes by done. run. by rewrite IH. Qed.

(** C6: a syncing node takes over the service state.  For any well-typed stores
    and any pruning point whose score is known, the rows that are served are
    accepted by a fresh node; its four stores are then those of the serving node
    up to the cutoff, its mirrors are the ones it would load at a restart, its
    sealed commitments agree with those of the serving node at every score up to
    the cutoff, and no call panics. *)
Theorem service_state_transfer db pp pp_daa handoff_daa :
  0 <= fin -> Forall valid_row (records db) -> fits fin db ->
  exists server rows st, load_service_burned (E := ConsensusError) fin (fresh_state db) = Ok server /\
    get_service_state_rows db pp (Some pp_daa) handoff_daa = Ok rows /\
    import_service_state fin (fresh_state empty_stores) rows = Ok st /\
    load_service_burned (E := ConsensusError) fin (fresh_state (upto (sat_add 64 pp_daa handoff_daa) db)) = Ok st /\
    sv_db st = upto (sat_add 64 pp_daa handoff_daa) db /\
    forall d, d <= sat_add 64 pp_daa handoff_daa -> commitment_at (sv_index st) d = commitment_at (sv_index server) d.
Proof.
  intros Hfin Hv Hf. set (cutoff := sat_add 64 pp_daa handoff_daa).
  destruct (load_ok (E := ConsensusError) fin Hfin db Hf) as (server & Es & _ & (cur & Hm) & _ & Hse & _).
  destruct (load_ok (E := ConsensusError) fin Hfin (upto cutoff db) (fits_upto cutoff db Hf)) as (st & El & Hdb & _ & _ & Hse' & _).
  exists server, (row_bytes <$> filter (fun r => row_score r <= cutoff) (records db)), st. split; [done|]. split; [apply served_rows|]. split.
  - unfold import_service_state. rewrite parse_rows by (rewrite Forall_forall in *; intros r [_ Hr]%list_elem_of_filter; by apply Hv). run.
    cbn [sv_db sv_burned sv_suspended fresh_state]. rewrite import_stores. exact El.
  - split; [done|]. split; [done|]. intros d Hd. rewrite Hse, Hse'. destruct Hf as [Hr _].
    rewrite (commitment_perm _ (rows_upto cutoff (store_rows db))); [|rewrite store_rows_upto|apply store_rows_upto].
    2:{ unfold rows_upto. rewrite Forall_forall in *. intros r [_ Hin]%list_elem_of_filter. by apply Hr in Hin as [_ ?]. }
    unfold commitment. by rewrite rows_upto_twice.
Qed.
End transfer.

(** Two sightings, a reward, a strike and a burned claim; the last two are past
    the cutoff. *)
Definition ex_stores : ServiceStores :=
  mkStores {[mkOutpoint 51 0 := 4000]} {[(4000, 2) := mkStrike 1 4000]} {[1 := 100; 2 := 200]}
    {[7 := mkRewardEntry 1 9000 200 (Some (mkSpk 0 [81]))]}.

Lemma ex_stores_fits : @fits spell_hashers spell_chacha 432000 ex_stores.
Proof.
  split.
  - assert (forallb (fun r => (0 <=? r.1) && (Z.gcd (@elem spell_hashers spell_chacha r.2) (P 48) =? 1)) (store_rows ex_stores) = true) as Hc
      by (vm_compute; reflexivity).
    rewrite forallb_forall in Hc. apply Forall_forall. intros r Hr%list_elem_of_In%Hc. apply andb_true_iff in Hr as [H1 H2].
    split; [lia|]. apply spell_unit. lia.
  - intros d m Hd. cbn [db_strike ex_stores] in Hd. apply lookup_singleton_Some in Hd as [_ [=]].
Qed.

Lemma ex_stores_valid : Forall valid_row (records ex_stores).
Proof.
  assert (records ex_stores = [RowBurn (mkOutpoint 51 0) 4000; RowStrike 4000 2 (mkStrike 1 4000); RowSighting 1 100; RowSighting 2 200;
    RowReward 7 (mkRewardEntry 1 9000 200 (Some (mkSpk 0 [81])))]) as -> by (vm_compute; reflexivity).
  repeat (apply Forall_cons; split); [..|done]; cbn; unfold is_hash, valid_spk, in_u; cbn; repeat split; try lia. by right.
Qed.

Lemma service_state_transfer_witness :
  exists server rows st, @load_service_burned spell_hashers spell_chacha spell_malachite ConsensusError 432000 (fresh_state ex_stores) = Ok server /\
    get_service_state_rows ex_stores 9 (Some 3000) 100 = Ok rows /\
    @import_service_state spell_hashers spell_chacha spell_malachite 432000 (fresh_state empty_stores) rows = Ok st /\
    @load_service_burned spell_hashers spell_chacha spell_malachite ConsensusError 432000 (fresh_state (upto (sat_add 64 3000 100) ex_stores)) = Ok st /\
    sv_db st = upto (sat_add 64 3000 100) ex_stores /\
    forall d, d <= sat_add 64 3000 100 -> commitment_at (sv_index st) d = commitment_at (sv_index server) d.
Proof.
  apply (@service_state_transfer spell_hashers spell_chacha spell_malachite 432000 ex_stores 9 3000 100).
  - lia.
  - apply ex_stores_valid.
  - apply ex_stores_fits.
Defined.
