(* ===== verification/MathTarget.v ===== *)
(** * Compact targets, decimal output and the theorems on big integers

    [Uint256::compact_target_bits] keeps at least 15 leading bits of a target
    and [from_compact_target_bits] gives them back; the decimal printer
    implements the positional notation; the claims on the arithmetic of
    [construct_uint!].

    Arithmetic modulo [2^BITS] with exact overflow flags for addition and
    subtraction, the long division, the shifts, and the decimal printer. *)
From S2P Require Import Prelude Math MathArith.
#[local] Open Scope Z_scope.
Import Uint.

(** ** The compact encoding on values *)

(** [shiftr] and [shiftl] by a signed amount. *)
Definition scale (v p : Z) : Z := if 0 <=? p then v / 2 ^ p else v * 2 ^ (- p).

(** Size in bytes and three leading bytes of a target. *)
Definition tsize (b : Z) : Z := (b + 7) / 8.

(** The encoding of the size and mantissa. *)
Definition pack (size c : Z) : Z :=
  if c <? 2 ^ 23 then c + 2 ^ 24 * size else c / 256 + 2 ^ 24 * (size + 1).

Lemma lor_high c s : 0 <= c < 2 ^ 24 -> Z.lor c (s * 2 ^ 24) = c + 2 ^ 24 * s.
Proof.
  intros Hc. rewrite (Z.mul_comm (2 ^ 24)). rewrite <-Z.lxor_lor, <-Z.add_nocarry_lxor; [done|..];
    apply Z.bits_inj'; intros k Hk; rewrite Z.land_spec, Z.testbit_0_l, Z.mul_pow2_bits by lia;
    (destruct (Z.lt_ge_cases k 24); [rewrite (Z.testbit_neg_r s) by lia; apply andb_false_r|]);
    rewrite <-(Z.mod_small c (2 ^ 24)), Z.mod_pow2_bits_high by lia; done.
Qed.

Lemma bit23 c : 0 <= c < 2 ^ 24 -> (Z.land c 0x00800000 =? 0) = (c <? 2 ^ 23).
Proof.
  intros Hc. change 0x00800000 with (2 ^ 23). assert (Z.land c (2 ^ 23) = 2 ^ 23 * Z.b2z (Z.testbit c 23)) as ->.
  { apply Z.bits_inj'. intros k Hk. rewrite Z.land_spec, Z.pow2_bits_eqb, Z.mul_comm, Z.mul_pow2_bits by lia.
    destruct (Z.eqb_spec 23 k) as [<-|].
    - by rewrite andb_true_r, Z.sub_diag, Z.b2z_bit0.
    - rewrite andb_false_r. destruct (Z.lt_ge_cases k 23); [by rewrite Z.testbit_neg_r by lia|].
      symmetry. destruct (Z.testbit c 23); [|apply Z.testbit_0_l]. apply Z.bits_above_log2; cbn; lia. }
  destruct (Z.ltb_spec c (2 ^ 23)).
  - rewrite <-(Z.mod_small c (2 ^ 23)), Z.mod_pow2_bits_high by lia. done.
  - assert (Z.testbit c 23 = true) as ->; [|done]. apply Z.testbit_true; [lia|].
    replace (c / 2 ^ 23) with 1; [done|]. apply (Z.div_unique _ _ _ (c - 2 ^ 23)); lia.
Qed.

Lemma pack_ok c size : 0 <= c < 2 ^ 24 -> 0 <= size <= 32 ->
  (let '(compact, size) := if negb (Z.land c 0x00800000 =? 0) then (Z.shiftr c 8, size + 1) else (c, size) in
   Z.lor compact (Z.shiftl size 24 mod 2 ^ 32)) = pack size c.
Proof.
  intros Hc Hs. rewrite bit23 by done. unfold pack.
  assert (forall s, 0 <= s <= 33 -> Z.shiftl s 24 mod 2 ^ 32 = s * 2 ^ 24) as Hsh.
  { intros s Hs'. rewrite Z.shiftl_mul_pow2 by lia. apply Z.mod_small. lia. }
  destruct (Z.ltb_spec c (2 ^ 23)); cbn [negb]; rewrite Hsh by lia.
  - apply lor_high. lia.
  - rewrite Z.shiftr_div_pow2 by lia. change (2 ^ 8) with 256. apply lor_high.
    split; [apply Z.div_pos; lia|apply Z.div_lt_upper_bound; lia].
Qed.

(** The leading bytes have at most 24 bits, and at least 17 when bytes are
    dropped. *)
Lemma lead_bounds v b : 0 <= v < 2 ^ b -> 0 <= b <= 256 -> (0 < v -> 2 ^ (b - 1) <= v) -> (v = 0 -> b = 0) ->
  let size := tsize b in
  0 <= size <= 32 /\ 0 <= scale v (8 * (size - 3)) < 2 ^ 24 /\ (3 < size -> 2 ^ 16 <= scale v (8 * (size - 3))).
Proof.
  intros Hv Hb Hlow Hz size. assert (8 * size - 8 < b <= 8 * size) as Hs.
  { unfold size, tsize. Z.to_euclidean_division_equations. lia. }
  split; [lia|]. unfold scale. destruct (Z.leb_spec 0 (8 * (size - 3))) as [Hp|Hp].
  - assert (0 < 2 ^ (8 * (size - 3))) by (apply Z.pow_pos_nonneg; lia). split; [split|].
    + apply Z.div_pos; lia.
    + apply Z.div_lt_upper_bound; [lia|]. rewrite <-Z.pow_add_r by lia. apply Z.lt_le_trans with (2 ^ b); [lia|].
      apply Z.pow_le_mono_r; lia.
    + intros Hs3. apply Z.div_le_lower_bound; [lia|]. rewrite <-Z.pow_add_r by lia.
      etransitivity; [|apply Hlow]; [apply Z.pow_le_mono_r; lia|]. destruct (decide (v = 0)); lia.
  - split; [|lia]. assert (0 < 2 ^ (- (8 * (size - 3)))) by (apply Z.pow_pos_nonneg; lia). split; [lia|].
    apply Z.lt_le_trans with (2 ^ b * 2 ^ (- (8 * (size - 3)))); [apply Z.mul_lt_mono_pos_r; lia|].
    rewrite <-Z.pow_add_r by lia. apply Z.pow_le_mono_r; lia.
Qed.

Lemma bits_range n a : wf n a ->
  0 <= bits a <= BITS n /\ 0 <= uval a < 2 ^ bits a /\ (0 < uval a -> 2 ^ (bits a - 1) <= uval a) /\ (uval a = 0 -> bits a = 0).
Proof.
  intros Ha. pose proof (uval_bound n a Ha) as Hb. destruct (bits_ok n a Ha) as [H0 H1].
  destruct (decide (uval a = 0)) as [E|E]; [rewrite (H0 E), E; unfold BITS; cbn; lia|].
  destruct (H1 ltac:(lia)) as [H2 H3]. split_and!; try lia. destruct (Z.le_gt_cases (bits a) (BITS n)) as [|Hgt]; [done|].
  exfalso. unfold M in Hb. pose proof (Z.pow_le_mono_r 2 (BITS n) (bits a - 1) ltac:(lia) ltac:(lia)). lia.
Qed.

Lemma as_u64_ok n a : wf (S n) a -> as_u64 a = uval a mod B.
Proof.
  intros Ha. apply wf_S in Ha as (x & a' & -> & Hx & _). rewrite uval_cons, Z.mul_comm, Z_mod_plus_full.
  unfold as_u64, limb. cbn. symmetry. apply Z.mod_small. apply Hx.
Qed.

Lemma compact_ok a : wf 4 a ->
  let size := tsize (bits a) in
  Uint256.compact_target_bits a = pack size (scale (uval a) (8 * (size - 3))).
Proof.
  intros Ha size. destruct (bits_range 4 a Ha) as (Hb & Hv & Hl & Hz). change (BITS 4) with 256 in Hb.
  destruct (lead_bounds (uval a) (bits a) Hv Hb Hl Hz) as (Hs & Hc & _). fold size in Hs, Hc.
  rewrite <-pack_ok by done. unfold Uint256.compact_target_bits. replace (div_ceil (bits a) 8) with size.
  2: { unfold size, tsize, div_ceil. f_equal. lia. }
  match goal with |- context [if size <=? 3 then ?x else ?y] =>
    replace (if size <=? 3 then x else y) with (scale (uval a) (8 * (size - 3))); [done|] end.
  unfold scale in *. destruct (Z.leb_spec size 3) as [Hs3|Hs3].
  - assert (scale (uval a) (8 * (size - 3)) = uval a * 2 ^ (8 * (3 - size))) as He.
    { unfold scale. destruct (Z.leb_spec 0 (8 * (size - 3))); [|f_equal; f_equal; lia].
      replace size with 3 by lia. cbn. rewrite Z.div_1_r. lia. }
    unfold scale in He. rewrite He in *. rewrite (as_u64_ok 3) by done.
    assert (0 < 2 ^ (8 * (3 - size))) as Hp by (apply Z.pow_pos_nonneg; lia).
    rewrite (Z.mod_small (uval a)) by (words; nia). unfold u64_shl. rewrite Z.shiftl_mul_pow2 by lia.
    rewrite (Z.mod_small _ B) by (words; lia). rewrite Z.mod_small; lia.
  - destruct (Z.leb_spec 0 (8 * (size - 3))); [|lia]. destruct (shr_ok 4 a (8 * (size - 3)) Ha) as [Hw He].
    { unfold BITS. lia. }
    rewrite (as_u64_ok 3), He by done. rewrite (Z.mod_small _ B) by (words; lia). rewrite Z.mod_small; lia.
Qed.

Lemma from_compact_ok c s : 0 <= c < 2 ^ 23 -> 0 <= s <= 34 -> (3 < s -> c * 2 ^ (8 * (s - 3)) < 2 ^ 256) ->
  wf 4 (Uint256.from_compact_target_bits (c + 2 ^ 24 * s)) /\
  uval (Uint256.from_compact_target_bits (c + 2 ^ 24 * s)) = scale c (8 * (3 - s)).
Proof.
  intros Hc Hs Hfit. unfold Uint256.from_compact_target_bits.
  assert (Z.shiftr (c + 2 ^ 24 * s) 24 = s) as ->.
  { rewrite Z.shiftr_div_pow2, Z.mul_comm, Z.div_add, Z.div_small by lia. lia. }
  assert (Z.land (c + 2 ^ 24 * s) 0xFFFFFF = c) as ->.
  { change 0xFFFFFF with (Z.ones 24). rewrite Z.land_ones, Z.mul_comm, Z_mod_plus_full by lia. apply Z.mod_small. lia. }
  unfold scale. destruct (Z.leb_spec s 3) as [H3|H3].
  - replace (0 <=? 8 * (3 - s)) with true by lia. rewrite Z.shiftr_div_pow2 by lia.
    assert (0 < 2 ^ (8 * (3 - s))) as Hp by (apply Z.pow_pos_nonneg; lia).
    assert (0 <= c / 2 ^ (8 * (3 - s)) <= c) as Hq by (split; [apply Z.div_pos; lia|apply Z.div_le_upper_bound; nia]).
    destruct (Z.ltb_spec 0x7FFFFF (c / 2 ^ (8 * (3 - s)))); [lia|].
    destruct (from_u64_ok 3 (c / 2 ^ (8 * (3 - s)))) as [Hw He]; [words; lia|].
    destruct (shl_ok 4 _ 0 Hw) as [Hw2 He2]; [unfold BITS; lia|]. split; [done|].
    rewrite He2, He, Z.mul_1_r. apply Z.mod_small. change (M 4) with (2 ^ 256). lia.
  - destruct (Z.ltb_spec 0x7FFFFF c); [lia|]. destruct (Z.leb_spec 0 (8 * (3 - s))); [lia|].
    destruct (from_u64_ok 3 c) as [Hw He]; [words; lia|].
    destruct (shl_ok 4 _ (8 * (s - 3)) Hw) as [Hw2 He2]; [unfold BITS; lia|]. split; [done|].
    rewrite He2, He. replace (- (8 * (3 - s))) with (8 * (s - 3)) by lia. apply Z.mod_small. change (M 4) with (2 ^ 256).
    split; [|by apply Hfit]. apply Z.mul_nonneg_nonneg; [lia|]. apply Z.pow_nonneg. lia.
Qed.

(** The decoded target: the value with its [e] low bits cleared, where [e] is
    zero or at least 15 bits are kept. *)
Definition dropped (v e : Z) : Prop := 0 <= e /\ (e = 0 \/ 2 ^ 15 <= v / 2 ^ e).

Lemma scale_back v p : 0 <= p -> scale (scale v p) (- p) = v / 2 ^ p * 2 ^ p.
Proof.
  intros Hp. unfold scale. replace (0 <=? p) with true by lia. destruct (Z.leb_spec 0 (- p)).
  - replace p with 0 by lia. cbn. rewrite !Z.div_1_r. lia.
  - f_equal. f_equal. lia.
Qed.

Lemma scale_exact v p : p < 0 -> scale (scale v p) (- p) = v.
Proof.
  intros Hp. unfold scale. replace (0 <=? p) with false by lia. replace (0 <=? - p) with true by lia.
  apply Z.div_mul. apply Z.pow_nonzero; lia.
Qed.

Lemma scale_div v p : scale v p / 256 = if p + 8 <=? 0 then v * 2 ^ (- (p + 8)) else scale v (p + 8).
Proof.
  unfold scale. destruct (Z.leb_spec 0 p).
  - replace (p + 8 <=? 0) with false by lia. replace (0 <=? p + 8) with true by lia.
    assert (0 < 2 ^ p) by (apply Z.pow_pos_nonneg; lia). rewrite Z.div_div by lia. f_equal.
    rewrite Z.pow_add_r by lia. done.
  - destruct (Z.leb_spec (p + 8) 0).
    + replace (- p) with (- (p + 8) + 8) by lia. rewrite Z.pow_add_r, Z.mul_assoc by lia. apply Z.div_mul. done.
    + replace (0 <=? p + 8) with true by lia.
      assert (2 ^ 8 = 2 ^ (p + 8) * 2 ^ (- p)) as E by (rewrite <-Z.pow_add_r by lia; f_equal; lia).
      change 256 with (2 ^ 8). rewrite E. apply Z.div_mul_cancel_r; apply Z.pow_nonzero; lia.
Qed.

(** The decoding of the encoding. *)
Lemma unpack v b : 0 <= v < 2 ^ b -> 0 <= b <= 256 -> (0 < v -> 2 ^ (b - 1) <= v) -> (v = 0 -> b = 0) ->
  let p := 8 * (tsize b - 3) in
  exists e, dropped v e /\ (e = 0 \/ (0 <= p /\ e = p) \/ (0 <= p /\ e = p + 8 /\ 2 ^ 23 <= scale v p)) /\
    wf 4 (Uint256.from_compact_target_bits (pack (tsize b) (scale v p))) /\
    uval (Uint256.from_compact_target_bits (pack (tsize b) (scale v p))) = v / 2 ^ e * 2 ^ e.
Proof.
  intros Hv Hb Hl Hz p. destruct (lead_bounds v b Hv Hb Hl Hz) as (Hs & Hc & Hbig). fold p in Hc, Hbig.
  set (s := tsize b) in *. assert (v < 2 ^ 256) as H256.
  { eapply Z.lt_le_trans; [apply Hv|]. apply Z.pow_le_mono_r; lia. }
  assert (forall e, 0 <= e -> v / 2 ^ e * 2 ^ e < 2 ^ 256) as Hfit.
  { intros e He. pose proof (Z.pow_pos_nonneg 2 e ltac:(lia) He). pose proof (Z.mul_div_le v (2 ^ e) ltac:(lia)). lia. }
  unfold pack. destruct (Z.ltb_spec (scale v p) (2 ^ 23)) as [Hlt|Hge].
  - destruct (from_compact_ok (scale v p) s) as [Hw He]; [lia|lia| |].
    { intros H3. specialize (Hfit p ltac:(lia)). rewrite <-scale_back in Hfit by lia. revert Hfit. unfold scale at 1.
      replace (0 <=? - p) with false by lia. replace (- - p) with p by lia. done. }
    replace (8 * (3 - s)) with (- p) in He by lia. destruct (Z.le_gt_cases s 3) as [H3|H3].
    + exists 0. rewrite Z.div_1_r, Z.mul_1_r. split; [split; [lia|by left]|]. split; [by left|]. split; [done|].
      rewrite He. destruct (decide (p = 0)) as [E|E]; [rewrite scale_back by lia; rewrite E; cbn; rewrite Z.div_1_r; lia|].
      apply scale_exact. lia.
    + exists p. split; [|split; [right; left; lia|]]; [|by rewrite He, scale_back by lia]. split; [lia|]. right.
      specialize (Hbig ltac:(lia)). unfold scale in Hbig. replace (0 <=? p) with true in Hbig by lia. lia.
  - pose proof (scale_div v p) as Hd. destruct (from_compact_ok (scale v p / 256) (s + 1)) as [Hw He];
      [split; [apply Z.div_pos; lia|apply Z.div_lt_upper_bound; lia]|lia| |].
    { intros H3. specialize (Hfit (p + 8) ltac:(lia)). rewrite Hd. destruct (Z.leb_spec (p + 8) 0); [lia|].
      rewrite <-scale_back in Hfit by lia. revert Hfit. unfold scale at 1.
      replace (0 <=? - (p + 8)) with false by lia. replace (- - (p + 8)) with (8 * (s + 1 - 3)) by lia. done. }
    replace (8 * (3 - (s + 1))) with (- (p + 8)) in He by lia.
    destruct (Z.le_gt_cases (p + 8) 0) as [H3|H3].
    + replace (p + 8 <=? 0) with true in Hd by lia. exists 0. rewrite Z.div_1_r, Z.mul_1_r. split; [split; [lia|by left]|]. split; [by left|]. split; [done|].
      rewrite He, Hd. unfold scale. replace (0 <=? - (p + 8)) with true by lia. apply Z.div_mul. apply Z.pow_nonzero; lia.
    + replace (p + 8 <=? 0) with false in Hd by lia.
      exists (p + 8). split; [|split; [right; right; lia|]]; [|split; [done|]; by rewrite He, Hd, scale_back by lia]. split; [lia|]. right.
      replace (v / 2 ^ (p + 8)) with (scale v p / 256).
      * apply Z.div_le_lower_bound; lia.
      * rewrite Hd. unfold scale. by replace (0 <=? p + 8) with true by lia.
Qed.

Lemma bits_unique n a b : wf n a -> 0 < b -> 2 ^ (b - 1) <= uval a < 2 ^ b -> bits a = b.
Proof.
  intros Ha Hb [H1 H2]. assert (0 < 2 ^ (b - 1)) by (apply Z.pow_pos_nonneg; lia).
  destruct (proj2 (bits_ok n a Ha) ltac:(lia)) as [Hp [H3 H4]].
  destruct (Z.lt_trichotomy (bits a) b) as [Hc|[Hc|Hc]]; [|done|]; exfalso.
  - pose proof (Z.pow_le_mono_r 2 (bits a) (b - 1) ltac:(lia) ltac:(lia)). lia.
  - pose proof (Z.pow_le_mono_r 2 b (bits a - 1) ltac:(lia) ltac:(lia)). lia.
Qed.

Lemma cleared_bits n a r e : wf n a -> wf n r -> dropped (uval a) e -> 0 < e ->
  uval r = uval a / 2 ^ e * 2 ^ e -> bits r = bits a.
Proof.
  intros Ha Hr [_ [?|He]] H0 E; [lia|]. destruct (bits_range n a Ha) as (Hb & Hv & Hl & _).
  assert (0 < 2 ^ e) as Hp by (apply Z.pow_pos_nonneg; lia). pose proof (Z.mul_div_le (uval a) (2 ^ e) Hp) as Hle.
  assert (0 < uval a) as Hpos by lia. specialize (Hl Hpos).
  assert (15 + e < bits a) as Hbe.
  { apply (Z.pow_lt_mono_r_iff 2); [lia..|]. rewrite Z.pow_add_r by lia. nia. }
  apply (bits_unique n); [done|lia|]. rewrite E. split; [|lia].
  replace (bits a - 1) with (bits a - 1 - e + e) by lia. rewrite Z.pow_add_r by lia. apply Z.mul_le_mono_nonneg_r; [lia|].
  apply Z.div_le_lower_bound; [lia|]. rewrite <-Z.pow_add_r by lia. by replace (e + (bits a - 1 - e)) with (bits a - 1) by lia.
Qed.

Lemma pack_cleared s v p : 0 <= p -> 2 ^ 23 <= scale v p -> pack s (scale (v / 2 ^ (p + 8) * 2 ^ (p + 8)) p) = pack s (scale v p).
Proof.
  intros Hp Hc. unfold scale in *. replace (0 <=? p) with true in * by lia. rewrite Z.pow_add_r by lia.
  assert (0 < 2 ^ p) by (apply Z.pow_pos_nonneg; lia). rewrite <-Z.div_div by lia. change (2 ^ 8) with 256 in *.
  set (c := v / 2 ^ p) in *. replace (c / 256 * (2 ^ p * 256)) with (c / 256 * 256 * 2 ^ p) by lia. rewrite Z.div_mul by lia.
  unfold pack. assert (2 ^ 15 <= c / 256) by (apply Z.div_le_lower_bound; lia).
  replace (c <? 2 ^ 23) with false by lia. replace (c / 256 * 256 <? 2 ^ 23) with false by lia. by rewrite Z.div_mul.
Qed.

(** C35: the compact encoding of a 256-bit target only drops low bits: decoding
    it gives the target with its [e] low bits cleared, where no bit is lost
    ([e = 0]) or at least 15 leading bits are kept, and encoding the decoded
    target again gives the same bits. *)
Theorem compact_target_round_trip (a : list Z) : wf 4 a ->
  exists e, 0 <= e /\ (e = 0 \/ 2 ^ 15 <= uval a / 2 ^ e) /\
    uval (Uint256.from_compact_target_bits (Uint256.compact_target_bits a)) = uval a / 2 ^ e * 2 ^ e /\
    Uint256.compact_target_bits (Uint256.from_compact_target_bits (Uint256.compact_target_bits a)) =
      Uint256.compact_target_bits a.
Proof.
  intros Ha. destruct (bits_range 4 a Ha) as (Hb & Hv & Hl & Hz). change (BITS 4) with 256 in Hb.
  rewrite (compact_ok a Ha). destruct (unpack (uval a) (bits a) Hv Hb Hl Hz) as (e & [He Hd] & Hcase & Hw & Hval).
  set (r := Uint256.from_compact_target_bits _) in *. exists e. split_and!; try done.
  destruct (decide (e = 0)) as [->|Hne].
  - assert (r = a) as ->; [|by rewrite compact_ok]. apply (uval_inj 4); [done..|]. by rewrite Hval, Z.div_1_r, Z.mul_1_r.
  - assert (bits r = bits a) as Hbits by (apply (cleared_bits 4 a r e); try done; lia).
    rewrite compact_ok, Hbits, Hval by done. destruct Hcase as [?|[[Hp ->]|(Hp & -> & Hc)]]; [lia| |by apply pack_cleared].
    f_equal. unfold scale. replace (0 <=? _) with true by lia. apply Z.div_mul. apply Z.pow_nonzero; lia.
Qed.

Lemma compact_target_round_trip_witness :
  exists e, 0 <= e /\ (e = 0 \/ 2 ^ 15 <= uval [5; 0; 0; 2 ^ 63] / 2 ^ e) /\
    uval (Uint256.from_compact_target_bits (Uint256.compact_target_bits [5; 0; 0; 2 ^ 63])) = uval [5; 0; 0; 2 ^ 63] / 2 ^ e * 2 ^ e /\
    Uint256.compact_target_bits (Uint256.from_compact_target_bits (Uint256.compact_target_bits [5; 0; 0; 2 ^ 63])) =
      Uint256.compact_target_bits [5; 0; 0; 2 ^ 63].
Proof.
  apply (compact_target_round_trip [5; 0; 0; 2 ^ 63]). split; [reflexivity|].
  repeat constructor; vm_compute; congruence.
Defined.

Import Uint.

(** Addition, subtraction and multiplication of [n]-word integers are the
    operations modulo [2^(64 n)], on words that stay in range; the flag of
    [overflowing_add] says exactly that the sum does not fit, and the flag of
    [overflowing_sub] that the difference is negative. *)
Theorem uint_ring_correct (n : nat) (a b : list Z) : wf n a -> wf n b ->
  (wf n (add a b) /\ uval (add a b) = (uval a + uval b) mod M n /\ (overflowing_add a b).2 = (M n <=? uval a + uval b)) /\
  (wf n (sub a b) /\ uval (sub a b) = (uval a - uval b) mod M n /\ (overflowing_sub a b).2 = (uval a <? uval b)) /\
  (wf n (mul a b) /\ uval (mul a b) = (uval a * uval b) mod M n).
Proof.
  intros Ha Hb. pose proof (uval_bound n a Ha). pose proof (uval_bound n b Hb). split_and!.
  - by apply uadd_ok.
  - by apply uadd_ok.
  - destruct (add_loop_ok n a b false Ha Hb) as [Hw He]. pose proof (uval_bound _ _ Hw). unfold overflowing_add in *.
    cbn [Z.b2z] in He. destruct (add_loop a b false).2; cbn [Z.b2z] in He; symmetry; [apply Z.leb_le|apply Z.leb_gt]; lia.
  - by apply usub_ok.
  - by apply usub_ok.
  - destruct (sub_loop_ok n a b false Ha Hb) as [Hw He]. pose proof (uval_bound _ _ Hw). unfold overflowing_sub in *.
    cbn [Z.b2z] in He. destruct (sub_loop a b false).2; cbn [Z.b2z] in He; symmetry; [apply Z.ltb_lt|apply Z.ltb_ge]; lia.
  - by apply umul_ok.
  - by apply umul_ok.
Qed.

Lemma uint_ring_correct_witness :
  let a := [5; 7; 2 ^ 63] in let b := [2 ^ 64 - 1; 2 ^ 64 - 1; 2 ^ 63] in
  (wf 3 (add a b) /\ uval (add a b) = (uval a + uval b) mod M 3 /\ (overflowing_add a b).2 = (M 3 <=? uval a + uval b)) /\
  (wf 3 (sub a b) /\ uval (sub a b) = (uval a - uval b) mod M 3 /\ (overflowing_sub a b).2 = (uval a <? uval b)) /\
  (wf 3 (mul a b) /\ uval (mul a b) = (uval a * uval b) mod M 3).
Proof.
  intros a b. apply (uint_ring_correct 3 a b); (split; [reflexivity|]); repeat constructor; vm_compute; congruence.
Defined.

(** [div_rem] terminates with the quotient and the remainder of the
    values for every non-zero divisor, and [<<] and [>>] by less than the
    width are the multiplication modulo [2^(64 n)] and the division by a power
    of two. *)
Theorem uint_division_correct (n : nat) (a b : list Z) (s : Z) :
  wf n a -> wf n b -> 0 < uval b -> 0 <= s < BITS n ->
  (exists q r, div_rem (E := ()) a b = Ok (q, r) /\ wf n q /\ wf n r /\
    uval q = uval a / uval b /\ uval r = uval a mod uval b) /\
  uval (shl a s) = (uval a * 2 ^ s) mod M n /\ uval (shr a s) = uval a / 2 ^ s.
Proof.
  intros Ha Hb Hp Hs. split; [by apply div_rem_ok|]. split; [by apply shl_ok|by apply (shr_ok n)].
Qed.

Lemma uint_division_correct_witness :
  let a := [5; 7; 2 ^ 63] in let b := [2 ^ 64 - 1; 3; 0] in
  (exists q r, div_rem (E := ()) a b = Ok (q, r) /\ wf 3 q /\ wf 3 r /\
    uval q = uval a / uval b /\ uval r = uval a mod uval b) /\
  uval (shl a 70) = (uval a * 2 ^ 70) mod M 3 /\ uval (shr a 70) = uval a / 2 ^ 70.
Proof.
  intros a b. apply (uint_division_correct 3 a b 70).
  - split; [reflexivity|]. repeat constructor; vm_compute; congruence.
  - split; [reflexivity|]. repeat constructor; vm_compute; congruence.
  - vm_compute. reflexivity.
  - vm_compute. split; congruence.
Defined.

(** The flag of [overflowing_mul] is only raised by carries inside the width:
    the product [2^192 * 2^64] of two 256-bit integers overflows to zero and
    the flag stays false. *)
Theorem overflowing_mul_misses_overflow :
  let a := [0; 0; 0; 1] in let b := [0; 1; 0; 0] in
  M 4 <= uval a * uval b /\ overflowing_mul a b = (ZERO 4, false).
Proof. vm_compute. split; congruence. Qed.

(** ** Decimal output *)

(** The decimal notation: a non-empty text of digits without leading zero. *)
Inductive decimal : list Z -> Z -> Prop :=
| decimal_digit d : 0 <= d < 10 -> decimal [48 + d] d
| decimal_snoc l v d : decimal l v -> 0 < v -> 0 <= d < 10 -> decimal (l ++ [48 + d]) (10 * v + d).

Lemma decimal_digits2 l v d : decimal l v -> 0 < v -> 0 <= d < 100 -> decimal (l ++ digits2 d) (100 * v + d).
Proof.
  intros Hl Hv Hd. pose proof (Z.div_mod d 10 ltac:(lia)). pose proof (Z.mod_pos_bound d 10 ltac:(lia)).
  assert (0 <= d / 10 < 10) by (split; [apply Z.div_pos; lia|apply Z.div_lt_upper_bound; lia]).
  unfold digits2. change [48 + d / 10; 48 + d mod 10] with ([48 + d / 10] ++ [48 + d mod 10]). rewrite app_assoc.
  replace (100 * v + d) with (10 * (10 * v + d / 10) + d mod 10) by lia.
  apply decimal_snoc; [by apply decimal_snoc|lia|done].
Qed.

Lemma decimal_two d : 10 <= d < 100 -> decimal (digits2 d) d.
Proof.
  intros Hd. pose proof (Z.div_mod d 10 ltac:(lia)). pose proof (Z.mod_pos_bound d 10 ltac:(lia)).
  assert (1 <= d / 10 < 10) by (split; [apply Z.div_le_lower_bound; lia|apply Z.div_lt_upper_bound; lia]).
  unfold digits2. rewrite H at 3. apply (decimal_snoc [48 + d / 10]); [apply decimal_digit; lia|lia|done].
Qed.

(** What is left to print is below [10^curr], so the buffer is large enough. *)
Definition room (curr v : Z) : Prop := 0 <= curr < 2 ^ 64 /\ 0 <= v < 10 ^ curr.

Lemma emit_ok {E} curr chars text k v w :
  room curr v -> Z.of_nat (length chars) = k -> 10 ^ k <= 10 * v \/ (curr <> 0 /\ k = 1) -> w = v / 10 ^ k \/ w = 0 ->
  emit (E := E) curr chars text = Ok (curr - k, chars ++ text) /\ room (curr - k) w.
Proof.
  intros [Hc Hv] Hk Hbig Hw. assert (k <= curr) as Hle.
  { destruct Hbig as [Hbig|?]; [|lia]. destruct (Z.le_gt_cases k curr) as [|Hgt]; [done|].
    pose proof (Z.pow_le_mono_r 10 (curr + 1) k ltac:(lia) ltac:(lia)) as Hm. rewrite Z.pow_add_r in Hm by lia. lia. }
  unfold emit. rewrite Hk. unfold sub_. rewrite checked_in by (unfold in_u; lia). split; [done|]. split; [lia|].
  assert (0 < 10 ^ (curr - k)) by (apply Z.pow_pos_nonneg; lia). destruct Hw as [->| ->]; [|lia].
  assert (0 < 10 ^ k) by (apply Z.pow_pos_nonneg; lia). split; [apply Z.div_pos; lia|].
  apply Z.div_lt_upper_bound; [done|]. rewrite <-Z.pow_add_r by lia. replace (k + (curr - k)) with curr by lia. lia.
Qed.

Lemma existsb_zero n a : wf n a -> existsb (fun y => negb (y =? 0)) a = false <-> uval a = 0.
Proof.
  revert a; induction n as [|n IH]; intros a Ha; [apply wf_nil in Ha as ->; done|].
  apply wf_S in Ha as (x & a' & -> & Hx & Ha'). pose proof (uval_bound _ _ Ha'). cbn [existsb].
  rewrite orb_false_iff, (IH a' Ha'), negb_false_iff, Z.eqb_eq, uval_cons. words. lia.
Qed.

Lemma cmp_u64_ok n a x : wf (S n) a -> in_u 64 x -> cmp_u64 a x = (uval a ?= x).
Proof.
  intros Ha Hx. apply wf_S in Ha as (y & a' & -> & Hy & Ha'). unfold cmp_u64. cbn [drop]. rewrite drop_0.
  pose proof (existsb_zero _ _ Ha') as He. pose proof (uval_bound _ _ Ha'). rewrite uval_cons.
  unfold limb. cbn. destruct (existsb _ a') eqn:Ex.
  - symmetry. apply Z.compare_gt_iff. assert (uval a' <> 0) by naive_solver. words. lia.
  - rewrite (proj1 He eq_refl). f_equal. lia.
Qed.

(** One round of the loop. *)
Lemma display_step {E} n fuel a curr text :
  wf (S n) a -> room curr (uval a) -> 10000 <= uval a ->
  exists q digits, wf (S n) q /\ uval q = uval a / 10000 /\ 1 <= uval q /\ room (curr - 4) (uval q) /\
    display_loop (E := E) (S fuel) a curr text = display_loop fuel q (curr - 4) (digits ++ text) /\
    forall l, decimal l (uval q) -> decimal (l ++ digits) (uval a).
Proof.
  intros Ha Hr Hge. cbn [display_loop]. rewrite (cmp_u64_ok n) by (done || (words; lia)).
  unfold div_rem_u64. replace (10000 =? 0) with false by done. cbn [mbind outcome_mbind].
  destruct (div_rem_u64_ok (S n) a 10000 Ha ltac:(lia)) as (Hw & Hq & Hrem).
  destruct (div_rem_u64_loop a 10000) as [q r]. cbn [fst snd] in *.
  pose proof (Z.mod_pos_bound (uval a) 10000 ltac:(lia)) as Hrb. rewrite <-Hrem in Hrb.
  assert (1 <= uval q) as Hq1 by (rewrite Hq; apply Z.div_le_lower_bound; lia).
  exists q, (digits2 (r / 100) ++ digits2 (r mod 100)). split_and!; try done.
  - by apply (emit_ok (E := ()) curr (digits2 (r / 100) ++ digits2 (r mod 100)) text 4 (uval a) (uval q)); auto; left;
      change (10 ^ 4) with 10000; lia.
  - destruct (emit_ok (E := E) curr (digits2 (r / 100) ++ digits2 (r mod 100)) text 4 (uval a) (uval q)) as [-> _];
      [done|done|left; change (10 ^ 4) with 10000; lia|by left|].
    by destruct (Z.compare_spec (uval a) 10000); [| lia |].
  - intros l Hl. pose proof (Z.div_mod (uval a) 10000 ltac:(lia)) as Hdm. rewrite <-Hq, <-Hrem in Hdm.
    rewrite Hdm, !app_assoc. replace (10000 * uval q + r) with (100 * (100 * uval q + r / 100) + r mod 100)
      by (pose proof (Z.div_mod r 100 ltac:(lia)); lia).
    assert (0 <= r / 100 < 100) by (split; [apply Z.div_pos; lia|apply Z.div_lt_upper_bound; lia]).
    apply decimal_digits2; [apply decimal_digits2; [done|lia|done]|lia|apply Z.mod_pos_bound; lia].
Qed.

Lemma display_loop_ok {E} n fuel a curr text :
  wf (S n) a -> uval a < 2 ^ Z.of_nat fuel -> room curr (uval a) ->
  exists m curr' pre, display_loop (E := E) (S fuel) a curr text = Ok (m, curr', pre ++ text) /\
    wf (S n) m /\ uval m < 10000 /\ room curr' (uval m) /\ (0 < uval m \/ (uval a = 0 /\ curr' = curr)) /\
    forall l, decimal l (uval m) -> decimal (l ++ pre) (uval a).
Proof.
  revert a curr text; induction fuel as [|fuel IH]; intros a curr text Ha Hf Hr; pose proof (uval_bound _ _ Ha) as Hb;
    (destruct (Z.lt_ge_cases (uval a) 10000) as [Hc|Hc];
     [exists a, curr, []; split_and!; try done; [|lia|intros l Hl; by rewrite app_nil_r];
      cbn [display_loop]; rewrite (cmp_u64_ok n) by (done || (words; lia)); by rewrite (proj2 (Z.compare_lt_iff _ _) Hc)|]).
  - cbn in Hf. lia.
  - destruct (display_step (E := E) n (S fuel) a curr text Ha Hr Hc) as (q & digits & Hq & Hv & H1 & Hroom & -> & Hdec).
    destruct (IH q (curr - 4) (digits ++ text)) as (m & curr' & pre & -> & Hm & Hlt & Hrm & Hz & Hl); [done| |done|].
    { rewrite Hv. apply Z.div_lt_upper_bound; [lia|]. rewrite Nat2Z.inj_succ, Z.pow_succ_r in Hf by lia. lia. }
    exists m, curr', (pre ++ digits). rewrite <-app_assoc. split_and!; try done.
    + left. lia.
    + intros l' Hl'. rewrite app_assoc. by apply Hdec, Hl.
Qed.

Lemma ten_pow n : M n <= 10 ^ (20 * Z.of_nat n).
Proof.
  induction n as [|n IH]; [done|]. rewrite M_S. replace (20 * Z.of_nat (S n)) with (20 + 20 * Z.of_nat n) by lia.
  rewrite Z.pow_add_r by lia. pose proof (M_pos n). apply Z.mul_le_mono_nonneg; [words; lia|vm_compute; congruence|lia|done].
Qed.

(** The last one to four digits. *)
Lemma display_tail_ok {E} curr v pre : room curr v -> v < 10000 -> 1 <= curr ->
  exists l, ('(n, curr, text) ←
    (if 100 <=? v then '(curr, text) ← emit curr (digits2 (v mod 100)) pre; Ok (v / 100, curr, text) else Ok (v, curr, pre));
    '(_, text) ← (if n <? 10 then emit curr [n + 48] text else emit curr (digits2 n) text);
    Ok text) = Ok (E := E) (l ++ pre) /\ decimal l v.
Proof.
  intros Hr Hv Hc. destruct (Z.leb_spec 100 v) as [Hbig|Hsmall].
  - destruct (emit_ok (E := E) curr (digits2 (v mod 100)) pre 2 v (v / 100)) as [-> Hr2];
      [done|done|left; change (10 ^ 2) with 100; lia|by left|]. run. pose proof (Z.div_mod v 100 ltac:(lia)).
    pose proof (Z.mod_pos_bound v 100 ltac:(lia)). assert (1 <= v / 100 < 100) by (split; [apply Z.div_le_lower_bound; lia|apply Z.div_lt_upper_bound; lia]).
    destruct (Z.ltb_spec (v / 100) 10) as [Hd|Hd].
    + destruct (emit_ok (E := E) (curr - 2) [v / 100 + 48] (digits2 (v mod 100) ++ pre) 1 (v / 100) 0) as [-> _];
        [done|done|left; change (10 ^ 1) with 10; lia|by right|]. exists ([v / 100 + 48] ++ digits2 (v mod 100)). split; [done|].
      rewrite H at 3. apply decimal_digits2; [|lia|done]. rewrite Z.add_comm. apply decimal_digit. lia.
    + destruct (emit_ok (E := E) (curr - 2) (digits2 (v / 100)) (digits2 (v mod 100) ++ pre) 2 (v / 100) 0) as [-> _];
        [done|done|left; change (10 ^ 2) with 100; lia|by right|]. exists (digits2 (v / 100) ++ digits2 (v mod 100)). split; [done|].
      rewrite H at 3. apply decimal_digits2; [|lia|done]. apply decimal_two. lia.
  - run. destruct Hr as [Hcr Hvr]. destruct (Z.ltb_spec v 10) as [H1|H1].
    + destruct (emit_ok (E := E) curr [v + 48] pre 1 v 0) as [-> _]; [done|done|right; lia|by right|].
      exists [v + 48]. split; [done|]. rewrite Z.add_comm. apply decimal_digit. lia.
    + destruct (emit_ok (E := E) curr (digits2 v) pre 2 v 0) as [-> _]; [done|done|left; change (10 ^ 2) with 100; lia|by right|].
      exists (digits2 v). split; [done|]. apply decimal_two. lia.
Qed.

(** The decimal printer of an integer of [n] words, [0 < n < 2^59], ends
    without overrunning its buffer of [20 n] bytes and prints the decimal
    notation of the value, without leading zeros. *)
Theorem display_decimal (n : nat) (a : list Z) : wf (S n) a -> Z.of_nat (S n) < 2 ^ 59 ->
  exists text, display (E := ()) a = Ok text /\ decimal text (uval a).
Proof.
  intros Ha Hn. unfold display. rewrite (wf_length _ a Ha). pose proof (uval_bound _ _ Ha) as Hb. pose proof (ten_pow (S n)).
  destruct (display_loop_ok (E := ()) n (Z.to_nat (BITS (S n))) a (20 * Z.of_nat (S n)) []) as (m & curr & pre & -> & Hm & Hlt & Hr & Hz & Hdec).
  - done.
  - rewrite Z2Nat.id by (unfold BITS; lia). apply Hb.
  - split; lia.
  - cbn [mbind outcome_mbind]. assert (as_u64 m = uval m) as Hu.
    { apply wf_S in Hm as (x & m' & -> & Hx & Hm'). pose proof (uval_bound _ _ Hm'). rewrite uval_cons in *.
      unfold as_u64, limb. cbn. words. lia. }
    rewrite Hu. destruct (display_tail_ok (E := ()) curr (uval m) (pre ++ [])) as (l & -> & Hl); [done|done| |].
    + destruct Hz as [Hz|[_ ->]]; [|lia]. destruct Hr as [Hc Hv]. destruct (decide (curr = 0)) as [->|]; [cbn in Hv; lia|lia].
    + exists (l ++ pre ++ []). split; [done|]. rewrite app_nil_r. by apply Hdec.
Qed.

Lemma display_decimal_witness : exists text, display (E := ()) [1; 2; 3; 4] = Ok text /\ decimal text (uval [1; 2; 3; 4]).
Proof.
  apply (display_decimal 3); [split; [reflexivity|]; repeat constructor; vm_compute; congruence|vm_compute; reflexivity].
Defined.
