(* ===== verification/GhostdagStore.v ===== *)
(** * GHOSTDAG data and its store

    [model/stores/ghostdag.rs]: the data of a block, the iterators over its
    mergeset, the store interface and the in-memory store; [SortableBlock] of
    [processes/ghostdag/ordering.rs].  A [BlueWorkType] ([Uint192]) is its
    value; its addition wraps at [2^192], as [MathArith.add_ok] shows of the
    words. *)
From S2P Require Import Prelude Tx ReachStore.

#[local] Open Scope Z_scope.

(** ** Sortable blocks *)

Record SortableBlock := mkSortable { sb_hash : Hash; sb_blue_work : Z }.

(** [Ord for SortableBlock]: by blue work, ties by hash. *)
Definition sortable_cmp (a b : SortableBlock) : comparison :=
  match sb_blue_work a ?= sb_blue_work b with Eq => sb_hash a ?= sb_hash b | c => c end.

Definition sortable_leb (a b : SortableBlock) : bool :=
  match sortable_cmp a b with Gt => false | _ => true end.

Definition work_add (a b : Z) : Z := (a + b) mod 2 ^ 192.

(** ** GHOSTDAG data *)

Record GhostdagData := mkGhostdag {
  blue_score : Z;
  blue_work : Z;
  selected_parent : Hash;
  mergeset_blues : list Hash;
  mergeset_reds : list Hash;
  blues_anticone_sizes : gmap Hash Z
}.

Record CompactGhostdagData := mkCompact {
  compact_blue_score : Z;
  compact_blue_work : Z;
  compact_selected_parent : Hash
}.

Definition to_compact (d : GhostdagData) : CompactGhostdagData :=
  mkCompact (blue_score d) (blue_work d) (selected_parent d).

(** The capacity hint [k + 1] of the source is a checked [u16] addition. *)
Definition new_with_selected_parent {E} (sp : Hash) (k : Z) : outcome E GhostdagData :=
  _ ← add_ 16 k 1;
  Ok (mkGhostdag 0 0 sp [sp] [] {[sp := 0]}).

Definition mergeset_size (d : GhostdagData) : Z :=
  Z.of_nat (length (mergeset_blues d) + length (mergeset_reds d)).

Definition unordered_mergeset_without_selected_parent_iter (d : GhostdagData) : list Hash :=
  drop 1 (mergeset_blues d) ++ mergeset_reds d.

Definition unordered_mergeset (d : GhostdagData) : list Hash := mergeset_blues d ++ mergeset_reds d.

(** The loop of [add_blue] over the affected blues; [size + 1] is a checked
    [u16] addition. *)
Definition bump {E} (sizes : gmap Hash Z) (x : Hash * Z) : outcome E (gmap Hash Z) :=
  size ← add_ 16 x.2 1; Ok (<[x.1 := size]> sizes).

Definition add_blue {E} (d : GhostdagData) (block : Hash) (blue_anticone_size : Z) (sizes : gmap Hash Z)
    : outcome E GhostdagData :=
  let blues := mergeset_blues d ++ [block] in
  let map := <[block := blue_anticone_size]> (blues_anticone_sizes d) in
  map ← foldM bump map (map_to_list sizes);
  Ok (mkGhostdag (blue_score d) (blue_work d) (selected_parent d) blues (mergeset_reds d) map).

Definition add_red (d : GhostdagData) (block : Hash) : GhostdagData :=
  mkGhostdag (blue_score d) (blue_work d) (selected_parent d) (mergeset_blues d) (mergeset_reds d ++ [block])
    (blues_anticone_sizes d).

Definition finalize_score_and_work (d : GhostdagData) (score work : Z) : GhostdagData :=
  mkGhostdag score work (selected_parent d) (mergeset_blues d) (mergeset_reds d) (blues_anticone_sizes d).

(** ** The store *)

Class GhostdagStoreReader (S : Type) := {
  get_blue_score : S -> Hash -> result Z;
  get_blue_work : S -> Hash -> result Z;
  get_selected_parent : S -> Hash -> result Hash;
  get_mergeset_blues : S -> Hash -> result (list Hash);
  get_mergeset_reds : S -> Hash -> result (list Hash);
  get_blues_anticone_sizes : S -> Hash -> result (gmap Hash Z);
  get_ghostdag_data : S -> Hash -> result GhostdagData;
  get_compact_data : S -> Hash -> result CompactGhostdagData;
  has_ghostdag : S -> Hash -> result bool
}.

Class GhostdagStore (S : Type) `{!GhostdagStoreReader S} := {
  insert_ghostdag : S -> Hash -> GhostdagData -> result S;
  delete_ghostdag : S -> Hash -> result S
}.

(** What the store promises: every getter is a projection of one map from
    hashes to GHOSTDAG data. *)
Definition read {A} (m : gmap Hash GhostdagData) (f : GhostdagData -> A) (h : Hash) : result A :=
  match m !! h with Some d => Ok (f d) | None => key_not_found h end.

Class GhostdagStoreLaws (S : Type) `{GhostdagStore S} := {
  ghostdag_map : S -> gmap Hash GhostdagData;
  ghostdag_ok : S -> Prop;
  get_blue_score_law s h : ghostdag_ok s -> get_blue_score s h = read (ghostdag_map s) blue_score h;
  get_blue_work_law s h : ghostdag_ok s -> get_blue_work s h = read (ghostdag_map s) blue_work h;
  get_selected_parent_law s h : ghostdag_ok s -> get_selected_parent s h = read (ghostdag_map s) selected_parent h;
  get_blues_anticone_sizes_law s h : ghostdag_ok s ->
    get_blues_anticone_sizes s h = read (ghostdag_map s) blues_anticone_sizes h;
  get_ghostdag_data_law s h : ghostdag_ok s -> get_ghostdag_data s h = read (ghostdag_map s) id h;
  insert_ghostdag_law s h d : ghostdag_ok s -> ghostdag_map s !! h = None ->
    exists s', insert_ghostdag s h d = Ok s' /\ ghostdag_ok s' /\ ghostdag_map s' = <[h := d]> (ghostdag_map s);
  insert_ghostdag_exists s h d : ghostdag_ok s -> is_Some (ghostdag_map s !! h) ->
    insert_ghostdag s h d = already_exists h;
  delete_ghostdag_law s h : ghostdag_ok s ->
    exists s', delete_ghostdag s h = Ok s' /\ ghostdag_ok s' /\ ghostdag_map s' = delete h (ghostdag_map s)
}.

(** ** The in-memory store: one map per field *)

Record MemoryGhostdagStore := mkMemG {
  blue_score_map : gmap Hash Z;
  blue_work_map : gmap Hash Z;
  selected_parent_map : gmap Hash Hash;
  mergeset_blues_map : gmap Hash (list Hash);
  mergeset_reds_map : gmap Hash (list Hash);
  blues_anticone_sizes_map : gmap Hash (gmap Hash Z)
}.

Definition MemoryGhostdagStore_new : MemoryGhostdagStore := mkMemG ∅ ∅ ∅ ∅ ∅ ∅.

Definition get_entry {A} (m : gmap Hash A) (h : Hash) : result A :=
  match m !! h with Some a => Ok a | None => key_not_found h end.

Section memory_ghostdag.
Notation store := MemoryGhostdagStore.

Definition memg_has (s : store) (h : Hash) : result bool := Ok (bool_decide (is_Some (blue_score_map s !! h))).

Definition memg_get_data (s : store) (h : Hash) : result GhostdagData :=
  present ← memg_has s h;
  if (present : bool) then
    score ← unwrap (blue_score_map s !! h);
    work ← unwrap (blue_work_map s !! h);
    sp ← unwrap (selected_parent_map s !! h);
    blues ← unwrap (mergeset_blues_map s !! h);
    reds ← unwrap (mergeset_reds_map s !! h);
    sizes ← unwrap (blues_anticone_sizes_map s !! h);
    Ok (mkGhostdag score work sp blues reds sizes)
  else key_not_found h.

Definition memg_insert (s : store) (h : Hash) (d : GhostdagData) : result store :=
  present ← memg_has s h;
  if (present : bool) then already_exists h
  else Ok (mkMemG (<[h := blue_score d]> (blue_score_map s)) (<[h := blue_work d]> (blue_work_map s))
    (<[h := selected_parent d]> (selected_parent_map s)) (<[h := mergeset_blues d]> (mergeset_blues_map s))
    (<[h := mergeset_reds d]> (mergeset_reds_map s)) (<[h := blues_anticone_sizes d]> (blues_anticone_sizes_map s))).

Definition memg_delete (s : store) (h : Hash) : result store :=
  Ok (mkMemG (delete h (blue_score_map s)) (delete h (blue_work_map s)) (delete h (selected_parent_map s))
    (delete h (mergeset_blues_map s)) (delete h (mergeset_reds_map s)) (delete h (blues_anticone_sizes_map s))).

#[export] Instance memory_ghostdag_reader : GhostdagStoreReader store := {
  get_blue_score s h := get_entry (blue_score_map s) h;
  get_blue_work s h := get_entry (blue_work_map s) h;
  get_selected_parent s h := get_entry (selected_parent_map s) h;
  get_mergeset_blues s h := get_entry (mergeset_blues_map s) h;
  get_mergeset_reds s h := get_entry (mergeset_reds_map s) h;
  get_blues_anticone_sizes s h := get_entry (blues_anticone_sizes_map s) h;
  get_ghostdag_data := memg_get_data;
  get_compact_data s h := d ← memg_get_data s h; Ok (to_compact d);
  has_ghostdag := memg_has
}.

#[export] Instance memory_ghostdag_store : GhostdagStore store := {
  insert_ghostdag := memg_insert;
  delete_ghostdag := memg_delete
}.

(** The data of one hash, and the invariant that the six maps have the same
    keys. *)
Definition assemble (s : store) (h : Hash) (score : Z) : option GhostdagData :=
  work ← blue_work_map s !! h; sp ← selected_parent_map s !! h; blues ← mergeset_blues_map s !! h;
  reds ← mergeset_reds_map s !! h; sizes ← blues_anticone_sizes_map s !! h;
  Some (mkGhostdag score work sp blues reds sizes).

Definition memg_map (s : store) : gmap Hash GhostdagData := map_imap (assemble s) (blue_score_map s).

Record memg_ok (s : store) : Prop := {
  work_keys : dom (blue_work_map s) = dom (blue_score_map s);
  parent_keys : dom (selected_parent_map s) = dom (blue_score_map s);
  blues_keys : dom (mergeset_blues_map s) = dom (blue_score_map s);
  reds_keys : dom (mergeset_reds_map s) = dom (blue_score_map s);
  sizes_keys : dom (blues_anticone_sizes_map s) = dom (blue_score_map s)
}.

(** Either no map has the hash, or all have and hold the fields of the data. *)
Lemma memg_lookup s h : memg_ok s ->
  (memg_map s !! h = None /\ blue_score_map s !! h = None /\ blue_work_map s !! h = None /\
   selected_parent_map s !! h = None /\ mergeset_blues_map s !! h = None /\ mergeset_reds_map s !! h = None /\
   blues_anticone_sizes_map s !! h = None) \/
  (exists d, memg_map s !! h = Some d /\ blue_score_map s !! h = Some (blue_score d) /\
   blue_work_map s !! h = Some (blue_work d) /\ selected_parent_map s !! h = Some (selected_parent d) /\
   mergeset_blues_map s !! h = Some (mergeset_blues d) /\ mergeset_reds_map s !! h = Some (mergeset_reds d) /\
   blues_anticone_sizes_map s !! h = Some (blues_anticone_sizes d)).
Proof.
  intros [H1 H2 H3 H4 H5]. unfold memg_map. rewrite map_lookup_imap. unfold assemble.
  assert (forall {A} (m : gmap Hash A), dom m = dom (blue_score_map s) -> is_Some (m !! h) <-> is_Some (blue_score_map s !! h)) as Hd.
  { intros A m E. by rewrite <-!elem_of_dom, E. }
  apply Hd in H1, H2, H3, H4, H5. destruct (blue_score_map s !! h) as [v|].
  - destruct H1 as [_ [? H1]], H2 as [_ [? H2]], H3 as [_ [? H3]], H4 as [_ [? H4]], H5 as [_ [? H5]]; [eauto..|].
    rewrite H1, H2, H3, H4, H5. cbn. right. eauto 10.
  - left. rewrite !eq_None_not_Some, H1, H2, H3, H4, H5. by split_and!; try intros [].
Qed.

Lemma memg_data_law s h : memg_ok s -> memg_get_data s h = read (memg_map s) id h.
Proof.
  intros Hs. unfold read, memg_get_data, memg_has.
  destruct (memg_lookup s h Hs) as [(-> & -> & _)|(d & -> & -> & -> & -> & -> & -> & ->)]; [done|]. by destruct d.
Qed.

Lemma memg_insert_law s h d : memg_ok s -> memg_map s !! h = None ->
  exists s', memg_insert s h d = Ok s' /\ memg_ok s' /\ memg_map s' = <[h := d]> (memg_map s).
Proof.
  intros Hs Hnone. destruct (memg_lookup s h Hs) as [(_ & Hsc & _)|(d' & E & _)]; [|congruence].
  unfold memg_insert, memg_has. rewrite Hsc. cbn. eexists. split; [done|]. split.
  - destruct Hs. constructor; cbn; rewrite !dom_insert_L; congruence.
  - apply map_eq. intros x. unfold memg_map. rewrite map_lookup_imap. unfold assemble. cbn.
    destruct (decide (x = h)) as [->|Hne]; [rewrite !lookup_insert_eq; by destruct d|].
    by rewrite !lookup_insert_ne, map_lookup_imap by done.
Qed.

Lemma memg_insert_exists s h d : memg_ok s -> is_Some (memg_map s !! h) -> memg_insert s h d = already_exists h.
Proof.
  intros Hs [d' E]. destruct (memg_lookup s h Hs) as [(? & _)|(d2 & _ & Hsc & _)]; [congruence|].
  unfold memg_insert, memg_has. by rewrite Hsc.
Qed.

Lemma memg_delete_law s h : memg_ok s ->
  exists s', memg_delete s h = Ok s' /\ memg_ok s' /\ memg_map s' = delete h (memg_map s).
Proof.
  intros Hs. eexists. split; [done|]. split.
  - destruct Hs. constructor; cbn; rewrite !dom_delete_L; congruence.
  - apply map_eq. intros x. unfold memg_map. rewrite map_lookup_imap. unfold assemble. cbn.
    destruct (decide (x = h)) as [->|Hne]; [by rewrite !lookup_delete_eq|].
    by rewrite !lookup_delete_ne, map_lookup_imap by done.
Qed.

Ltac memg_field := intros s h Hs; unfold read; cbn; unfold get_entry;
  destruct (memg_lookup s h Hs) as [(-> & Hf)|(d & -> & Hf)]; destruct_and!;
  match goal with H : ?m !! h = _ |- match ?m !! h with _ => _ end = _ => by rewrite H end.

#[export] Instance memory_ghostdag_laws : GhostdagStoreLaws store.
Proof.
  refine {| ghostdag_map := memg_map; ghostdag_ok := memg_ok;
    get_ghostdag_data_law := memg_data_law; insert_ghostdag_law := memg_insert_law;
    insert_ghostdag_exists := memg_insert_exists; delete_ghostdag_law := memg_delete_law |}; memg_field.
Defined.
End memory_ghostdag.
