(* ===== verification/Difficulty.v ===== *)
(** * Difficulty adjustment and work

    [consensus/src/processes/difficulty.rs]: the sampled difficulty manager on
    the big integers of [Math], [calc_work] and [level_work].  The headers
    store is the map from hashes to the compact header data.

    The work of a target, and the retargeting formula of the sampled
    difficulty manager in exact arithmetic. *)
From S2P Require Import Prelude Tx Params ReachStore Math MathArith MathTarget GhostdagStore.
#[local] Open Scope Z_scope.

Record CompactHeaderData := mkHeader { daa_score : Z; timestamp : Z; header_bits : Z; header_blue_score : Z }.

Notation HeadersStore := (gmap Hash CompactHeaderData).

Definition MAX_WORK_LEVEL : Z := 128.

(** ** Work *)

Definition calc_work {E} (bits : Z) : outcome E (list Z) :=
  let target := Uint256.from_compact_target_bits bits in
  q ← Uint.div (Uint.not target) (Uint.add_u64 target 1);
  let res := Uint.add_u64 q 1 in
  match Uint256.to_uint192 res with Ok w => Ok w | _ => Panic end.

Definition level_work {E} (level max_block_level : Z) : outcome E (list Z) :=
  if level =? 0 then Ok (Uint.from_u64 3 0)
  else
    up ← add_ 32 level 256;
    exp ← sub_ 32 up max_block_level;
    Ok (Uint.shl (Uint.from_u64 3 1) (Z.min exp MAX_WORK_LEVEL)).

(** ** The difficulty blocks of a window *)

Record DifficultyBlock := mkDiff { db_timestamp : Z; db_bits : Z; db_sortable : SortableBlock }.

(** [Ord for DifficultyBlock]. *)
Definition diff_cmp (a b : DifficultyBlock) : comparison :=
  match db_timestamp a ?= db_timestamp b with Eq => sortable_cmp (db_sortable a) (db_sortable b) | c => c end.

(** [position_minmax] of itertools: the first minimum and the last maximum. *)
Fixpoint minmax_loop (l : list DifficultyBlock) (i : nat) (mn mx : nat * DifficultyBlock)
    : (nat * DifficultyBlock) * (nat * DifficultyBlock) :=
  match l with
  | [] => (mn, mx)
  | x :: l =>
      let mn := match diff_cmp x mn.2 with Lt => (i, x) | _ => mn end in
      let mx := match diff_cmp x mx.2 with Lt => mx | _ => (i, x) end in
      minmax_loop l (S i) mn mx
  end.

Definition position_minmax (l : list DifficultyBlock) : option (nat * nat) :=
  match l with
  | [] => None
  | x :: l => let '(mn, mx) := minmax_loop l 1 (0%nat, x) (0%nat, x) in Some (mn.1, mx.1)
  end.

(** [Vec::swap_remove]: the last element takes the place of the removed one. *)
Definition swap_remove {A} (i : nat) (l : list A) : list A :=
  match last l with
  | None => l
  | Some x => take (length l - 1) (<[i := x]> l)
  end.

Record SampledDifficultyManager := mkDM {
  genesis_hash : Hash;
  genesis_bits : Z;
  max_difficulty_target : list Z;
  difficulty_window_size : Z;
  min_difficulty_window_size : Z;
  difficulty_sample_rate : Z;
  target_time_per_block : Z;
  difficulty_reset_activation : ForkActivation;
  difficulty_reset_activation_h4 : ForkActivation;
  difficulty_reset_activation_h5 : ForkActivation;
  difficulty_reset_activation_h5_3 : ForkActivation;
  difficulty_reset_activation_h5_4 : ForkActivation;
  difficulty_reset_activation_h6 : ForkActivation;
  difficulty_reset_activation_v4 : ForkActivation;
  difficulty_reset_activation_h9 : ForkActivation;
  h6_reset_bits : option Z;
  h9_reset_bits : option Z
}.

Section manager.
Context {E : Type} (dm : SampledDifficultyManager) (headers : HeadersStore).

Definition difficulty_full_window_size : outcome E Z := mul_ 64 (difficulty_window_size dm) (difficulty_sample_rate dm).

Definition lowest_daa_blue_score (d : GhostdagData) : outcome E Z :=
  full ← difficulty_full_window_size; sub_ 64 (Z.max (blue_score d) full) full.

(** [a.within(..) || b.within(..) || ..]. *)
Fixpoint any_within (l : list ForkActivation) (daa range : Z) : outcome E bool :=
  match l with
  | [] => Ok false
  | a :: l =>
      inside ← is_within_range_from_activation a daa range;
      if (inside : bool) then Ok true else any_within l daa range
  end.

Definition in_any_reset_window (daa : Z) : outcome E bool :=
  range ← difficulty_full_window_size;
  any_within [difficulty_reset_activation dm; difficulty_reset_activation_h4 dm; difficulty_reset_activation_h5 dm;
    difficulty_reset_activation_h5_3 dm; difficulty_reset_activation_h5_4 dm; difficulty_reset_activation_h6 dm;
    difficulty_reset_activation_v4 dm; difficulty_reset_activation_h9 dm] daa range.

Definition reset_target_bits (daa : Z) : outcome E (option Z) :=
  range ← difficulty_full_window_size;
  h9 ← is_within_range_from_activation (difficulty_reset_activation_h9 dm) daa range;
  if (h9 : bool) then Ok (Some (default (genesis_bits dm) (h9_reset_bits dm)))
  else
    h6 ← any_within [difficulty_reset_activation_h6 dm; difficulty_reset_activation_v4 dm] daa range;
    if (h6 : bool) then Ok (Some (default (genesis_bits dm) (h6_reset_bits dm)))
    else any ← in_any_reset_window daa; Ok (if (any : bool) then Some (genesis_bits dm) else None).

Definition reset_bits (daa : Z) : outcome E (option Z) := reset_target_bits daa.

Definition internal_calc_daa_score (d : GhostdagData) (mergeset_non_daa : gset Hash) : outcome E Z :=
  sp ← unwrap (headers !! selected_parent d);
  added ← sub_ 64 (mergeset_size d) (Z.of_nat (base.size mergeset_non_daa));
  add_ 64 (daa_score sp) added.

Definition calc_daa_score (d : GhostdagData) (mergeset_non_daa : gset Hash) : outcome E Z :=
  internal_calc_daa_score d mergeset_non_daa.

Definition calc_daa_score_and_mergeset_non_daa_blocks {S} `{GhostdagStoreReader S} (store : S) (d : GhostdagData)
    : outcome E (Z * gset Hash) :=
  lowest ← lowest_daa_blue_score d;
  non_daa ← foldM (fun (acc : gset Hash) h =>
      match get_blue_score store h with Ok bs => Ok (if bs <? lowest then {[h]} ∪ acc else acc) | _ => Panic end)
    ∅ (unordered_mergeset d);
  daa ← internal_calc_daa_score d non_daa;
  Ok (daa, non_daa).

Definition difficulty_block (b : SortableBlock) : outcome E DifficultyBlock :=
  data ← unwrap (headers !! sb_hash b); Ok (mkDiff (timestamp data) (header_bits data) b).

Definition get_difficulty_blocks (window : list SortableBlock) : outcome E (list DifficultyBlock) :=
  mapM' difficulty_block window.

(** [Uint320::from(Uint256::from_compact_target_bits(bits))]. *)
Definition target320 (b : DifficultyBlock) : list Z := Uint256.to_uint320 (Uint256.from_compact_target_bits (db_bits b)).

Definition next_bits (blocks : list DifficultyBlock) : outcome E Z :=
  '(min_i, max_i) ← unwrap (position_minmax blocks);
  min_block ← unwrap (blocks !! min_i);
  max_block ← unwrap (blocks !! max_i);
  let blocks := swap_remove min_i blocks in
  let len := Z.of_nat (length blocks) in
  let targets_sum := Uint.sum 5 (target320 <$> blocks) in
  average_target ← Uint.div_u64 targets_sum len;
  elapsed ← sub_ 64 (db_timestamp max_block) (db_timestamp min_block);
  let measured_duration := Z.max elapsed 1 in
  per_sample ← mul_ 64 (target_time_per_block dm) (difficulty_sample_rate dm);
  expected_duration ← mul_ 64 per_sample len;
  new_target ← Uint.div_u64 (Uint.mul_u64 average_target measured_duration) expected_duration;
  match Uint256.from_uint320 (Uint.min new_target (Uint256.to_uint320 (max_difficulty_target dm))) with
  | Ok t => Ok (Uint256.compact_target_bits t)
  | _ => Panic
  end.

Definition calculate_difficulty_bits (window : list SortableBlock) (d : GhostdagData) (daa : Z) : outcome E Z :=
  reset ← reset_target_bits daa;
  match reset with
  | Some bits => Ok bits
  | None =>
      blocks ← get_difficulty_blocks window;
      if Z.of_nat (length blocks) <? min_difficulty_window_size dm then
        if selected_parent d =? genesis_hash dm then Ok (genesis_bits dm)
        else sp ← unwrap (headers !! selected_parent d); Ok (header_bits sp)
      else next_bits blocks
  end.
End manager.

(** ** Hash rate estimate *)

Inductive DifficultyError :=
  | UnderMinWindowSizeAllowed (size min : Z)
  | EmptyTimestampRange.

Definition MIN_WINDOW_SIZE : Z := 1000.

Definition minimum (l : list Z) : option Z := match l with [] => None | x :: l => Some (foldl Z.min x l) end.
Definition maximum (l : list Z) : option Z := match l with [] => None | x :: l => Some (foldl Z.max x l) end.

Definition estimate_network_hashes_per_second (headers : HeadersStore) (window : list SortableBlock)
    : outcome DifficultyError Z :=
  let window_size := Z.of_nat (length window) in
  if window_size <? MIN_WINDOW_SIZE then Err (UnderMinWindowSizeAllowed window_size MIN_WINDOW_SIZE)
  else
    blocks ← get_difficulty_blocks headers window;
    min_ts ← unwrap (minimum (db_timestamp <$> blocks));
    max_ts ← unwrap (maximum (db_timestamp <$> blocks));
    if min_ts =? max_ts then Err EmptyTimestampRange
    else
      elapsed ← sub_ 64 max_ts min_ts;
      let window_duration := elapsed / 1000 in
      if window_duration =? 0 then Ok 0
      else
        let works := sb_blue_work ∘ db_sortable <$> blocks in
        min_work ← unwrap (minimum works);
        max_work ← unwrap (maximum works);
        Ok (((max_work - min_work) / window_duration) mod 2 ^ 64).

Import Uint.

(** ** Targets *)

Lemma shl_mod n a s : wf n a -> shl a s = shl a (s mod BITS n).
Proof.
  intros Ha. unfold shl, overflowing_shl. rewrite (wf_length n a Ha). cbn [fst]. by rewrite Zmod_mod.
Qed.

Lemma from_compact_wf bits : in_u 32 bits ->
  let t := Uint256.from_compact_target_bits bits in wf 4 t /\ uval t + 1 < M 4.
Proof.
  intros Hb t. assert (forall m s, 0 <= m <= 0x7FFFFF -> 0 <= s -> (8 | s) ->
    wf 4 (shl (from_u64 4 m) s) /\ uval (shl (from_u64 4 m) s) + 1 < M 4) as Hgen.
  { intros m s Hm Hs [q Hq]. destruct (from_u64_ok 3 m) as [Hw He]; [words; lia|]. rewrite (shl_mod 4) by done.
    change (BITS 4) with 256. pose proof (Z.mod_pos_bound s 256 ltac:(lia)) as Hsb.
    destruct (shl_ok 4 _ (s mod 256) Hw) as [Hw2 He2]; [done|]. split; [done|]. rewrite He2, He.
    change (M 4) with (2 ^ 256). destruct (decide (s mod 256 = 0)) as [->|Hne].
    - rewrite Z.mul_1_r, Z.mod_small; lia.
    - pose proof (Z.mod_pos_bound (m * 2 ^ (s mod 256)) (2 ^ 256) ltac:(lia)) as Hr.
      assert ((m * 2 ^ (s mod 256)) mod 2 ^ 256 <> 2 ^ 256 - 1); [|lia]. intros E.
      assert (Z.testbit ((m * 2 ^ (s mod 256)) mod 2 ^ 256) 0 = true) as Hbit by (rewrite E; done).
      rewrite Z.mod_pow2_bits_low, Z.mul_pow2_bits, Z.testbit_neg_r in Hbit by lia. done. }
  unfold t, Uint256.from_compact_target_bits. assert (0 <= Z.shiftr bits 24) as He0 by (apply Z.shiftr_nonneg, Hb).
  assert (0 <= Z.land bits 0xFFFFFF) as Hm0 by (apply Z.land_nonneg; right; lia).
  destruct (Z.leb_spec (Z.shiftr bits 24) 3);
    match goal with |- context [0x7FFFFF <? ?m] => destruct (Z.ltb_spec 0x7FFFFF m) end;
    try (split; [apply wf_ZERO|rewrite uval_ZERO; vm_compute; reflexivity]); apply Hgen.
  - split; [by apply Z.shiftr_nonneg|lia].
  - lia.
  - by exists 0.
  - lia.
  - lia.
  - exists (Z.shiftr bits 24 - 3). lia.
Qed.

Lemma to_uint192_ok a : wf 4 a ->
  (uval a < M 3 -> exists w, Uint256.to_uint192 a = Ok w /\ wf 3 w /\ uval w = uval a) /\
  (M 3 <= uval a -> Uint256.to_uint192 a = Err ()).
Proof.
  intros Ha. destruct Ha as [Hl Hall]. destruct a as [|x0 [|x1 [|x2 [|x3 [|]]]]]; try done.
  assert (wf 3 [x0; x1; x2]) as Hw.
  { split; [done|]. rewrite !Forall_cons in *. naive_solver. }
  pose proof (uval_bound 3 _ Hw) as Hb. assert (in_u 64 x3) as Hx3 by (rewrite !Forall_cons in Hall; naive_solver).
  assert (uval [x0; x1; x2; x3] = uval [x0; x1; x2] + M 3 * x3) as ->.
  { change [x0; x1; x2; x3] with ([x0; x1; x2] ++ [x3]). rewrite uval_app. cbn [length uval foldr]. lia. }
  unfold Uint256.to_uint192, limb. cbn [lookup list_lookup from_option id]. pose proof (M_pos 3). words.

  destruct (Z.eqb_spec x3 0) as [->|]; cbn [take]; split; intros; try nia; try done.
  exists [x0; x1; x2]. split_and!; try done. lia.
Qed.

(** The work of a target [t] is [2^256 / (t + 1)], computed without
    overflowing 256 bits; it is returned when it fits the 192-bit blue work,
    that is when [t >= 2^64], the call panics on smaller non-zero targets, and
    the zero target wraps around to zero work. *)
Theorem calc_work_correct (bits : Z) : in_u 32 bits ->
  let t := uval (Uint256.from_compact_target_bits bits) in
  (t = 0 -> exists w, calc_work (E := ()) bits = Ok w /\ uval w = 0) /\
  (0 < t < 2 ^ 64 -> calc_work (E := ()) bits = Panic) /\
  (2 ^ 64 <= t -> exists w, calc_work (E := ()) bits = Ok w /\ wf 3 w /\ uval w = 2 ^ 256 / (t + 1)).
Proof.
  intros Hb t. destruct (from_compact_wf bits Hb) as [Hw Hmax]. fold t in Hmax. unfold calc_work.
  set (a := Uint256.from_compact_target_bits bits) in *. pose proof (uval_bound 4 a Hw) as Hab. fold t in Hab.
  destruct (not_ok 4 a Hw) as [Hnw Hn]. destruct (add_u64_ok 3 a 1 Hw) as [Hpw Hp]; [words; lia|]. fold t in Hn, Hp.
  rewrite Z.mod_small in Hp by lia. change (M 4) with (2 ^ 256) in *.
  destruct (div_ok (E := ()) 4 (not a) (add_u64 a 1) Hnw Hpw) as (q & -> & Hqw & Hq); [lia|]. run.
  destruct (add_u64_ok 3 q 1 Hqw) as [Hrw Hr]; [words; lia|]. rewrite Hq, Hn, Hp in Hr.
  assert ((2 ^ 256 - 1 - t) / (t + 1) + 1 = 2 ^ 256 / (t + 1)) as E.
  { rewrite <-Z.div_add by lia. f_equal. lia. }
  rewrite E in Hr. change (M 4) with (2 ^ 256) in Hr. destruct (to_uint192_ok _ Hrw) as [Hfit Hbig]. rewrite Hr in Hfit, Hbig.
  change (M 3) with (2 ^ 192) in *. split_and!.
  - intros Ht. rewrite Ht in *. change (0 + 1) with 1 in *. rewrite Z.div_1_r, Z.mod_same in * by lia.
    destruct Hfit as (w & -> & _ & Hv); [lia|]. by exists w.
  - intros Ht. rewrite Z.mod_small in Hbig.
    + rewrite Hbig; [done|]. apply Z.div_le_lower_bound; [lia|]. change (2 ^ 256) with (2 ^ 64 * 2 ^ 192). nia.
    + split; [apply Z.div_pos; lia|]. apply Z.div_lt_upper_bound; lia.
  - intros Ht. assert (0 <= 2 ^ 256 / (t + 1) < 2 ^ 192) as Hlt.
    { split; [apply Z.div_pos; lia|]. apply Z.div_lt_upper_bound; [lia|]. change (2 ^ 256) with (2 ^ 64 * 2 ^ 192). nia. }
    rewrite Z.mod_small in Hfit by lia. destruct (Hfit ltac:(lia)) as (w & -> & Hww & Hv). by exists w.
Qed.

Lemma calc_work_correct_witness :
  let t := uval (Uint256.from_compact_target_bits 0x1d00ffff) in
  (t = 0 -> exists w, calc_work (E := ()) 0x1d00ffff = Ok w /\ uval w = 0) /\
  (0 < t < 2 ^ 64 -> calc_work (E := ()) 0x1d00ffff = Panic) /\
  (2 ^ 64 <= t -> exists w, calc_work (E := ()) 0x1d00ffff = Ok w /\ wf 3 w /\ uval w = 2 ^ 256 / (t + 1)).
Proof. apply (calc_work_correct 0x1d00ffff). vm_compute. split; congruence. Defined.

(** ** Retargeting *)

Lemma to_uint320_ok a : wf 4 a -> wf 5 (Uint256.to_uint320 a) /\ uval (Uint256.to_uint320 a) = uval a.
Proof.
  intros [Hl Ha]. unfold Uint256.to_uint320. rewrite take_ge by lia. split.
  - split; [rewrite length_app; cbn; lia|]. apply Forall_app. split; [done|]. repeat constructor; words; lia.
  - rewrite uval_app. cbn [uval foldr]. lia.
Qed.

Lemma from_uint320_ok a : wf 5 a -> uval a < M 4 ->
  exists t, Uint256.from_uint320 a = Ok t /\ wf 4 t /\ uval t = uval a.
Proof.
  intros Ha Hv. pose proof Ha as [Hl Hall]. assert (wf 4 (take 4 a)) as Hw.
  { split; [rewrite length_take; lia|by apply Forall_take]. }
  pose proof (uval_bound 4 _ Hw) as Hb. pose proof (limb_in 5 a 4 Ha) as Hx.
  assert (a = take 4 a ++ [limb a 4]) as E.
  { rewrite <-(take_drop 4 a) at 1. f_equal. destruct a as [|? [|? [|? [|? [|x [|]]]]]]; done. }
  assert (uval a = uval (take 4 a) + M 4 * limb a 4) as Ev.
  { rewrite E at 1. rewrite uval_app, (wf_length 4 _ Hw). cbn [uval foldr]. lia. }
  assert (limb a 4 = 0) as H0 by (pose proof (M_pos 4); words; nia).
  unfold Uint256.from_uint320. rewrite H0. exists (take 4 a). split_and!; try done. rewrite H0 in Ev. lia.
Qed.

Lemma sum_ok n l : Forall (wf n) l -> Zsum (uval <$> l) < M n -> wf n (sum n l) /\ uval (sum n l) = Zsum (uval <$> l).
Proof.
  destruct l as [|x l]; [intros _ _; split; [apply wf_ZERO|apply uval_ZERO]|].
  intros [Hx Hl]%Forall_cons. cbn [sum fmap list_fmap]. rewrite Zsum_cons. change (list_fmap _ _ uval l) with (uval <$> l).
  revert x Hx. induction Hl as [|y l Hy Hl IH]; intros x Hx Hs; cbn [foldl fmap list_fmap] in *; [by rewrite Zsum_nil, Z.add_0_r|].
  rewrite Zsum_cons in *. change (list_fmap _ _ uval l) with (uval <$> l) in *.
  assert (0 <= Zsum (uval <$> l)).
  { apply Zsum_nonneg, Forall_fmap. eapply Forall_impl; [exact Hl|]. intros z Hz. cbn. by destruct (uval_bound _ _ Hz). }
  destruct (uadd_ok n x y Hx Hy) as [Hw He]. pose proof (uval_bound _ _ Hx). pose proof (uval_bound _ _ Hy).
  rewrite Z.mod_small in He by lia. destruct (IH (add x y) Hw ltac:(lia)) as [Hs1 Hs2]. split; [done|]. lia.
Qed.

Lemma min_ok n a b : wf n a -> wf n b -> wf n (min a b) /\ uval (min a b) = Z.min (uval a) (uval b).
Proof.
  intros Ha Hb. unfold min. rewrite (cmp_ok n) by done. destruct (Z.compare_spec (uval a) (uval b)); (split; [done|lia]).
Qed.

Lemma swap_remove_perm {A} (l : list A) i x : l !! i = Some x -> l ≡ₚ x :: swap_remove i l.
Proof.
  intros Hi. unfold swap_remove. pose proof (lookup_lt_Some _ _ _ Hi) as Hlt.
  destruct l as [|y0 l0] using rev_ind; [done|]. clear IHl0. rewrite last_snoc, length_app in *. cbn in *.
  replace (length l0 + 1 - 1)%nat with (length l0) by lia. destruct (decide (i < length l0)%nat) as [Hin|Hout].
  - rewrite insert_app_l by done. rewrite take_app_length' by (by rewrite length_insert).
    rewrite lookup_app_l in Hi by done. rewrite insert_take_drop by done. rewrite <-(take_drop_middle l0 i x Hi) at 1. solve_Permutation.
  - replace i with (length l0) in * by lia. rewrite lookup_app_r, Nat.sub_diag in Hi by lia. injection Hi as ->.
    rewrite insert_app_r_alt, Nat.sub_diag by lia. cbn. rewrite take_app_length. by rewrite Permutation_app_comm.
Qed.

(** The order of difficulty blocks. *)
Definition diff_le (a b : DifficultyBlock) : Prop := diff_cmp a b <> Gt.

Lemma diff_cmp_key a b : diff_cmp a b =
  match db_timestamp a ?= db_timestamp b with
  | Eq => match sb_blue_work (db_sortable a) ?= sb_blue_work (db_sortable b) with
          | Eq => sb_hash (db_sortable a) ?= sb_hash (db_sortable b) | c => c end
  | c => c end.
Proof. done. Qed.

Ltac diff_cases := unfold diff_le in *; rewrite !diff_cmp_key in *;
  repeat match goal with
  | H : context [?x ?= ?y] |- _ => destruct (Z.compare_spec x y)
  | |- context [?x ?= ?y] => destruct (Z.compare_spec x y)
  end; try (done || lia).

Lemma diff_le_refl a : diff_le a a.
Proof. diff_cases. Qed.
Lemma diff_le_trans a b c : diff_le a b -> diff_le b c -> diff_le a c.
Proof. intros. diff_cases. Qed.
Lemma diff_le_antisym a b : diff_le a b -> diff_le b a -> sb_hash (db_sortable a) = sb_hash (db_sortable b).
Proof. intros. diff_cases. Qed.
Lemma diff_le_timestamp a b : diff_le a b -> db_timestamp a <= db_timestamp b.
Proof. intros. diff_cases. Qed.
Lemma diff_Lt_le a b : diff_cmp a b = Lt -> diff_le a b.
Proof. unfold diff_le. congruence. Qed.
Lemma diff_not_Lt_le a b : diff_cmp a b <> Lt -> diff_le b a.
Proof. intros. diff_cases. Qed.

(** The first minimum and the last maximum of the visited blocks. *)
Lemma minmax_loop_ok pre rest mn mx :
  pre !! mn.1 = Some mn.2 -> pre !! mx.1 = Some mx.2 ->
  Forall (fun x => diff_le mn.2 x /\ diff_le x mx.2) pre ->
  let r := minmax_loop rest (length pre) mn mx in
  (pre ++ rest) !! r.1.1 = Some r.1.2 /\ (pre ++ rest) !! r.2.1 = Some r.2.2 /\
  Forall (fun x => diff_le r.1.2 x /\ diff_le x r.2.2) (pre ++ rest).
Proof.
  revert pre mn mx; induction rest as [|x rest IH]; intros pre mn mx Hmn Hmx Hall; cbn [minmax_loop].
  - by rewrite app_nil_r.
  - replace (pre ++ x :: rest) with ((pre ++ [x]) ++ rest) by (by rewrite <-app_assoc).
    replace (S (length pre)) with (length (pre ++ [x])) by (rewrite length_app; cbn; lia).
    assert ((pre ++ [x]) !! length pre = Some x) as Hx by (by rewrite lookup_app_r, Nat.sub_diag).
    assert (forall i y, pre !! i = Some y -> (pre ++ [x]) !! i = Some y) as Hext by (intros; by apply lookup_app_l_Some).
    apply IH.
    + destruct (diff_cmp x mn.2); [by apply Hext|done|by apply Hext].
    + destruct (diff_cmp x mx.2); [done|by apply Hext|done].
    + rewrite Forall_app. split.
      * eapply Forall_impl; [exact Hall|]. cbn. intros y [H1 H2]. split.
        -- destruct (diff_cmp x mn.2) eqn:Ec; [done| |done]. eapply diff_le_trans; [by apply diff_Lt_le|done].
        -- destruct (diff_cmp x mx.2) eqn:Ec; [|done|]; (eapply diff_le_trans; [exact H2|apply diff_not_Lt_le; cbn; congruence]).
      * constructor; [|constructor]. split.
        -- destruct (diff_cmp x mn.2) eqn:Ec; [|apply diff_le_refl|]; apply diff_not_Lt_le; cbn; congruence.
        -- destruct (diff_cmp x mx.2) eqn:Ec; [apply diff_le_refl| |apply diff_le_refl]. by apply diff_Lt_le.
Qed.

Lemma position_minmax_ok l : l <> [] ->
  exists i j mn mx, position_minmax l = Some (i, j) /\ l !! i = Some mn /\ l !! j = Some mx /\
    Forall (fun x => diff_le mn x /\ diff_le x mx) l.
Proof.
  destruct l as [|x l]; [done|]. intros _. unfold position_minmax.
  destruct (minmax_loop_ok [x] l (0%nat, x) (0%nat, x)) as (H1 & H2 & H3); [done|done|repeat constructor; apply diff_le_refl|].
  cbn [length] in *. destruct (minmax_loop l 1 (0%nat, x) (0%nat, x)) as [mn mx]. cbn [fst snd] in *.
  by exists mn.1, mx.1, mn.2, mx.2.
Qed.

(** The retargeting formula, in exact arithmetic. *)
Definition retarget (dm : SampledDifficultyManager) (oldest newest : DifficultyBlock) (rest : list DifficultyBlock) : Z :=
  let n := Z.of_nat (length rest) in
  let average := Zsum ((fun b => uval (Uint256.from_compact_target_bits (db_bits b))) <$> rest) / n in
  let expected := target_time_per_block dm * difficulty_sample_rate dm * n in
  Z.min (average * Z.max (db_timestamp newest - db_timestamp oldest) 1 / expected) (uval (max_difficulty_target dm)).

(** The settings under which the manager does not panic. *)
Record retarget_ok (dm : SampledDifficultyManager) (blocks : list DifficultyBlock) : Prop := {
  ro_blocks : (2 <= length blocks)%nat;
  ro_data : Forall (fun b => in_u 32 (db_bits b) /\ in_u 64 (db_timestamp b)) blocks;
  ro_max : wf 4 (max_difficulty_target dm);
  ro_rate : 0 < target_time_per_block dm /\ 0 < difficulty_sample_rate dm;
  ro_time : target_time_per_block dm * difficulty_sample_rate dm * Z.of_nat (length blocks) < 2 ^ 64
}.

Lemma targets_bound rest : Forall (fun b => in_u 32 (db_bits b)) rest ->
  Forall (wf 5) (target320 <$> rest) /\
  Zsum (uval <$> (target320 <$> rest)) = Zsum ((fun b => uval (Uint256.from_compact_target_bits (db_bits b))) <$> rest) /\
  0 <= Zsum ((fun b => uval (Uint256.from_compact_target_bits (db_bits b))) <$> rest) <= Z.of_nat (length rest) * M 4.
Proof.
  induction 1 as [|b rest Hb _ (IH1 & IH2 & IH3)]; [cbn; split_and!; try done; lia|].
  destruct (from_compact_wf _ Hb) as [Hw Hmax]. destruct (to_uint320_ok _ Hw) as [Hw5 Hv]. pose proof (uval_bound _ _ Hw).
  cbn [fmap list_fmap] in *. rewrite !Zsum_cons. unfold target320 at 1 3. rewrite Hv. cbn [length]. split_and!.
  - by constructor.
  - f_equal. exact IH2.
  - lia.
  - change (list_fmap _ _ ?f rest) with (f <$> rest). lia.
Qed.

Lemma next_bits_ok {E} dm blocks : retarget_ok dm blocks ->
  exists i j oldest newest, blocks !! i = Some oldest /\ blocks !! j = Some newest /\
    Forall (fun x => diff_le oldest x /\ diff_le x newest) blocks /\
    exists t, next_bits (E := E) dm blocks = Ok (Uint256.compact_target_bits t) /\ wf 4 t /\
      uval t = retarget dm oldest newest (swap_remove i blocks).
Proof.
  intros [Hlen Hdata Hmax [Hr1 Hr2] Htime]. destruct (position_minmax_ok blocks) as (i & j & mn & mx & Hpos & Hi & Hj & Hall);
    [by destruct blocks; cbn in *; [lia|]|]. exists i, j, mn, mx. split_and!; try done.
  pose proof (swap_remove_perm blocks i mn Hi) as Hperm. set (rest := swap_remove i blocks) in *.
  rewrite Hperm in Hdata, Hall. apply Forall_cons in Hdata as [[_ Hmnb] Hdata]. apply Permutation_length in Hperm as Hl. cbn in Hl.
  unfold next_bits. rewrite Hpos. run. rewrite Hi, Hj. run. fold rest.
  destruct (targets_bound rest) as (Hw & Hsum & Hb).
  { eapply Forall_impl; [exact Hdata|]. by intros ? []. }
  set (total := Zsum ((fun b => uval (Uint256.from_compact_target_bits (db_bits b))) <$> rest)) in *. set (pace := target_time_per_block dm * difficulty_sample_rate dm) in *.
  assert (1 <= pace) as Hpace by (unfold pace; nia). assert (0 < Z.of_nat (length rest) < 2 ^ 64) as Hn by nia.
  assert (M 5 = 2 ^ 64 * M 4) as HM5 by reflexivity. pose proof (M_pos 4) as HM4.
  destruct (sum_ok 5 (target320 <$> rest) Hw) as [Hsw Hsv]; [rewrite Hsum; nia|]. rewrite Hsum in Hsv.
  destruct (div_u64_ok (E := E) 5 _ (Z.of_nat (length rest)) Hsw Hn) as (avg & -> & Haw & Hav). rewrite Hsv in Hav. run.
  assert (db_timestamp mn <= db_timestamp mx) as Hts.
  { apply diff_le_timestamp. apply Forall_cons in Hall as [[_ ?] _]. done. }
  assert (in_u 64 (db_timestamp mx)) as Hmxb.
  { apply list_elem_of_lookup_2 in Hj. rewrite Hperm, elem_of_cons in Hj. destruct Hj as [->|Hj]; [done|].
    rewrite Forall_forall in Hdata. by destruct (Hdata _ Hj). }
  unfold sub_. rewrite checked_in by (unfold in_u in *; lia). run. unfold mul_. rewrite checked_in by (unfold in_u; nia). run.
  rewrite checked_in by (unfold in_u; nia). run. set (dur := Z.max _ 1). assert (0 < dur < 2 ^ 64) as Hdur by (unfold dur, in_u in *; lia).
  assert (0 <= uval avg <= M 4) as Havb.
  { rewrite Hav. split; [apply Z.div_pos; lia|]. apply Z.div_le_upper_bound; lia. }
  destruct (mul_u64_ok 5 avg dur Haw) as [Hmw Hmv]; [unfold in_u; lia|]. rewrite Z.mod_small in Hmv.
  2: { rewrite HM5. split; [lia|]. apply Z.le_lt_trans with (M 4 * dur); [apply Z.mul_le_mono_nonneg_r; lia|]. nia. }
  set (expected := pace * Z.of_nat (length rest)).
  assert (0 < expected < 2 ^ 64) as Hexp by (unfold expected; nia).
  fold pace. fold expected. destruct (div_u64_ok (E := E) 5 _ expected Hmw Hexp) as (nt & -> & Hntw & Hntv). run.
  destruct (to_uint320_ok _ Hmax) as [Hmaxw Hmaxv]. destruct (min_ok 5 nt _ Hntw Hmaxw) as [Hminw Hminv].
  destruct (from_uint320_ok _ Hminw) as (t & -> & Htw & Htv).
  { rewrite Hminv, Hmaxv. pose proof (uval_bound _ _ Hmax). lia. }
  exists t. split_and!; try done. rewrite Htv, Hminv, Hntv, Hmv, Hav, Hmaxv. done.
Qed.

(** Outside the reset windows and with a large enough window, the bits of
    the next block are the compact encoding of the average target of the
    window without its oldest block, scaled by the measured over the expected
    duration and capped by the maximal target, in exact integer arithmetic
    (the 320-bit intermediate results never overflow). *)
Theorem retarget_formula (dm : SampledDifficultyManager) (headers : HeadersStore) (window : list SortableBlock)
    (d : GhostdagData) (daa : Z) (blocks : list DifficultyBlock) :
  reset_target_bits (E := ()) dm daa = Ok None -> get_difficulty_blocks (E := ()) headers window = Ok blocks ->
  min_difficulty_window_size dm <= Z.of_nat (length blocks) -> retarget_ok dm blocks ->
  exists oldest newest rest t, blocks ≡ₚ oldest :: rest /\ newest ∈ blocks /\
    (forall b, b ∈ blocks -> db_timestamp oldest <= db_timestamp b <= db_timestamp newest) /\
    calculate_difficulty_bits (E := ()) dm headers window d daa = Ok (Uint256.compact_target_bits t) /\
    wf 4 t /\ uval t = retarget dm oldest newest rest.
Proof.
  intros Hreset Hblocks Hmin Hok. destruct (next_bits_ok (E := ()) dm blocks Hok) as (i & j & mn & mx & Hi & Hj & Hall & t & Ht & Hw & Hv).
  exists mn, mx, (swap_remove i blocks), t. split_and!; try done.
  - by apply swap_remove_perm.
  - by eapply list_elem_of_lookup_2.
  - intros b Hb. rewrite Forall_forall in Hall. destruct (Hall b Hb) as [H1%diff_le_timestamp H2%diff_le_timestamp]. done.
  - unfold calculate_difficulty_bits. rewrite Hreset. run. rewrite Hblocks. run.
    destruct (Z.ltb_spec (Z.of_nat (length blocks)) (min_difficulty_window_size dm)); [lia|done].
Qed.

(** *** The iteration order of the window *)

Lemma get_difficulty_blocks_perm headers w w' blocks : w ≡ₚ w' ->
  get_difficulty_blocks (E := ()) headers w = Ok blocks ->
  exists blocks', get_difficulty_blocks (E := ()) headers w' = Ok blocks' /\ blocks ≡ₚ blocks'.
Proof.
  unfold get_difficulty_blocks. intros Hp. revert blocks.
  induction Hp as [|b w w' Hp IH|a b w|w1 w2 w3 _ IH1 _ IH2]; intros blocks Hb; cbn [mapM'] in *.
  - by exists blocks.
  - destruct (difficulty_block headers b) as [x| | |] eqn:Ex; try done. revert Hb. run. intros Hb.
    destruct (mapM' _ w) as [bs| | |] eqn:Ew; try done. cbn in Hb. injection Hb as <-.
    destruct (IH bs eq_refl) as (bs' & -> & Hbs). exists (x :: bs'). split; [done|by f_equiv].
  - destruct (difficulty_block headers b) as [x| | |] eqn:Ex; try done. revert Hb. run. intros Hb.
    destruct (difficulty_block headers a) as [y| | |] eqn:Ey; try done. revert Hb. run. intros Hb.
    destruct (mapM' _ w) as [bs| | |] eqn:Ew; try done. cbn in Hb. injection Hb as <-.
    exists (y :: x :: bs). split; [done|apply perm_swap].
  - destruct (IH1 _ Hb) as (b2 & H2 & Hp2). destruct (IH2 _ H2) as (b3 & H3 & Hp3). exists b3. split; [done|by etrans].
Qed.

Lemma retarget_ok_perm dm b b' : b ≡ₚ b' -> retarget_ok dm b -> retarget_ok dm b'.
Proof. intros Hp []. constructor; rewrite <-?Hp; done. Qed.

Lemma same_block blocks x y : NoDup ((fun b => sb_hash (db_sortable b)) <$> blocks) -> x ∈ blocks -> y ∈ blocks ->
  sb_hash (db_sortable x) = sb_hash (db_sortable y) -> x = y.
Proof.
  intros Hnd [i Hi]%list_elem_of_lookup [j Hj]%list_elem_of_lookup E.
  assert (i = j) as ->; [|congruence]. eapply NoDup_lookup; [exact Hnd|..]; rewrite list_lookup_fmap; [by rewrite Hi|by rewrite Hj, E].
Qed.

Lemma next_bits_perm dm b b' : retarget_ok dm b -> b ≡ₚ b' -> NoDup ((fun x => sb_hash (db_sortable x)) <$> b) ->
  next_bits (E := ()) dm b = next_bits (E := ()) dm b'.
Proof.
  intros Hok Hp Hnd. destruct (next_bits_ok (E := ()) dm b Hok) as (i & j & mn & mx & Hi & Hj & Hall & t & -> & Hw & Hv).
  destruct (next_bits_ok (E := ()) dm b' (retarget_ok_perm _ _ _ Hp Hok)) as (i' & j' & mn' & mx' & Hi' & Hj' & Hall' & t' & -> & Hw' & Hv').
  pose proof (swap_remove_perm _ _ _ Hi) as Hs. pose proof (swap_remove_perm _ _ _ Hi') as Hs'.
  apply list_elem_of_lookup_2 in Hi, Hj, Hi', Hj'. rewrite <-Hp in Hi', Hj', Hall'. rewrite Forall_forall in Hall, Hall'.
  assert (mn = mn') as <-.
  { apply (same_block b); try done. apply diff_le_antisym; [by apply Hall|by apply Hall']. }
  assert (mx = mx') as <-.
  { apply (same_block b); try done. apply diff_le_antisym; [by apply Hall'|by apply Hall]. }
  do 2 f_equal. apply (uval_inj 4); try done. rewrite Hv, Hv'. unfold retarget.
  assert (swap_remove i b ≡ₚ swap_remove i' b') as Hrest.
  { apply (Permutation_cons_inv (a := mn)). by rewrite <-Hs, <-Hs', Hp. }
  rewrite (Permutation_length Hrest). do 2 f_equal. do 2 f_equal. apply Zsum_perm. by rewrite Hrest.
Qed.

(** The next difficulty does not depend on the order in which the binary
    heap of the window is traversed: any permutation of a window of distinct
    known blocks gives the same bits. *)
Theorem difficulty_bits_order_independent (dm : SampledDifficultyManager) (headers : HeadersStore)
    (window window' : list SortableBlock) (d : GhostdagData) (daa : Z) (blocks : list DifficultyBlock) :
  window ≡ₚ window' -> NoDup (sb_hash <$> window) ->
  get_difficulty_blocks (E := ()) headers window = Ok blocks -> retarget_ok dm blocks ->
  calculate_difficulty_bits (E := ()) dm headers window d daa = calculate_difficulty_bits (E := ()) dm headers window' d daa.
Proof.
  intros Hp Hnd Hb Hok. unfold calculate_difficulty_bits. destruct (reset_target_bits dm daa) as [[bits|]| | |]; try done. run.
  destruct (get_difficulty_blocks_perm headers window window' blocks Hp Hb) as (blocks' & Hb' & Hpb).
  rewrite Hb, Hb'. run. rewrite (Permutation_length Hpb). destruct (_ <? _); [done|].
  apply next_bits_perm; try done. assert ((fun x => sb_hash (db_sortable x)) <$> blocks = sb_hash <$> window) as ->; [|done].
  clear -Hb. revert blocks Hb. unfold get_difficulty_blocks. induction window as [|b window IH]; intros blocks Hb; cbn [mapM'] in Hb.
  - by injection Hb as <-.
  - destruct (difficulty_block headers b) as [x| | |] eqn:Ex; try done. revert Hb. run. intros Hb.
    destruct (mapM' _ window) as [bs| | |]; try done. injection Hb as <-. cbn. f_equal; [|by apply IH].
    unfold difficulty_block in Ex. destruct (headers !! sb_hash b); [|done]. by injection Ex as <-.
Qed.

(** A manager and a window of three blocks. *)
Definition dm1 : SampledDifficultyManager :=
  mkDM 1 0x1d00ffff [2 ^ 64 - 1; 2 ^ 64 - 1; 2 ^ 64 - 1; 2 ^ 63 - 1] 661 2 40 100
    NEVER NEVER NEVER NEVER NEVER NEVER NEVER NEVER None None.
Definition headers1 : HeadersStore :=
  <[2 := mkHeader 1 1000 0x1d00ffff 1]> (<[3 := mkHeader 2 1100 0x1c00ffff 2]> {[4 := mkHeader 3 9200 0x1d01ffff 3]}).
Definition window1 : list SortableBlock := [mkSortable 2 10; mkSortable 3 20; mkSortable 4 30].
Definition blocks1 : list DifficultyBlock :=
  [mkDiff 1000 0x1d00ffff (mkSortable 2 10); mkDiff 1100 0x1c00ffff (mkSortable 3 20); mkDiff 9200 0x1d01ffff (mkSortable 4 30)].
Definition sp1 : GhostdagData := mkGhostdag 3 30 4 [4] [] ∅.

Lemma blocks1_ok : retarget_ok dm1 blocks1.
Proof.
  constructor.
  - cbn. lia.
  - repeat constructor; vm_compute; congruence.
  - split; [reflexivity|]. repeat constructor; vm_compute; congruence.
  - vm_compute. done.
  - vm_compute. done.
Qed.

Lemma retarget_formula_witness :
  exists oldest newest rest t, blocks1 ≡ₚ oldest :: rest /\ newest ∈ blocks1 /\
    (forall b, b ∈ blocks1 -> db_timestamp oldest <= db_timestamp b <= db_timestamp newest) /\
    calculate_difficulty_bits (E := ()) dm1 headers1 window1 sp1 5 = Ok (Uint256.compact_target_bits t) /\
    wf 4 t /\ uval t = retarget dm1 oldest newest rest.
Proof.
  apply (retarget_formula dm1 headers1 window1 sp1 5 blocks1);
    [vm_compute; reflexivity|vm_compute; reflexivity|vm_compute; congruence|apply blocks1_ok].
Defined.

Lemma difficulty_bits_order_independent_witness :
  calculate_difficulty_bits (E := ()) dm1 headers1 window1 sp1 5 =
  calculate_difficulty_bits (E := ()) dm1 headers1 (rev window1) sp1 5.
Proof.
  apply (difficulty_bits_order_independent dm1 headers1 window1 (rev window1) sp1 5 blocks1).
  - apply Permutation_rev.
  - apply (bool_decide_unpack _). vm_compute. reflexivity.
  - vm_compute. reflexivity.
  - apply blocks1_ok.
Defined.
