(* ===== verification/Coinbase.v ===== *)
(** * Block rewards and coinbase transactions

    [consensus/src/processes/coinbase.rs], the data of
    [consensus/core/src/coinbase.rs], the announcements that
    [consensus/core/src/collateral.rs] parses from a coinbase, and the change of
    the miner in [mining/src/block_template/builder.rs].  The power function
    behind the emission schedule has an unspecified precision, so that the
    reward per second of a month is a parameter.

    The outputs of an expected coinbase add up to the rewards of the merged
    blocks, respect the limits of the validation, and follow a change of the
    miner; payloads round trip. *)
From Stdlib Require Import Ascii String.
From S2P Require Import Prelude Bytes Tx Utxo ScriptNum Hashing ScriptOps Script ScriptSafe ScriptCache ScriptStd Bech32 Float Slice Params Payloads Mass TxValidate TxContext TxScripts TxTheorems GhostdagStore.
#[local] Open Scope Z_scope.

Definition RD_ALLOCATION_BPS : Z := 500.
Definition RD_ALLOCATION_BPS_DIVISOR : Z := 10000.
Definition ESCROW_RATE_BPS : Z := 2000.
Definition ESCROW_RATE_BPS_DIVISOR : Z := 10000.
Definition TIER_REWARD_BPS_DIVISOR : Z := 10000.
Definition RATIO_REWARD_BPS_DIVISOR : Z := 10000.
Definition LENGTH_OF_BLUE_SCORE : nat := 8.
Definition LENGTH_OF_SUBSIDY : nat := 8.
Definition LENGTH_OF_SCRIPT_PUB_KEY_VERSION : nat := 2.
Definition LENGTH_OF_SCRIPT_PUB_KEY_LENGTH : nat := 1.
Definition MIN_PAYLOAD_LENGTH : nat :=
  LENGTH_OF_BLUE_SCORE + LENGTH_OF_SUBSIDY + LENGTH_OF_SCRIPT_PUB_KEY_VERSION + LENGTH_OF_SCRIPT_PUB_KEY_LENGTH.
Definition SECONDS_PER_MONTH : Z := 2629800.
Definition KRX_TAIL_EMISSION_PER_SECOND : Z := 10.
Definition CHALLENGE_WINDOW_BLOCKS : Z := 36000.
Definition SERVICE_BOND_CSV_WINDOW_BLOCKS : Z := 792000.

Record MinerData := mkMinerData { md_spk : ScriptPublicKey; extra_data : list Z }.
Record CoinbaseData := mkCoinbaseData { cb_blue_score : Z; cb_subsidy : Z; miner_data : MinerData }.
Record BlockRewardData := mkRewardData {
  subsidy : Z;
  total_fees : Z;
  reward_spk : ScriptPublicKey;
  escrow_spk : option ScriptPublicKey
}.
Record CoinbaseTransactionTemplate := mkCoinbaseTemplate {
  template_tx : Transaction;
  has_red_reward : bool;
  red_reward_output_index : option nat
}.

Inductive CoinbaseError :=
  | PayloadLenBelowMin (len min : Z)
  | PayloadLenAboveMax (len max : Z)
  | PayloadScriptPublicKeyLenAboveMax (len max : Z)
  | PayloadCantContainScriptPublicKey (len min : Z)
  | OPoiTagMissing
  | OPoiTagInvalid (nonce : Z) (tag : list Z).

Notation coinbase_result := (outcome CoinbaseError).

(** [u64::div_ceil]. *)
Definition div_ceil {E} (a b : Z) : outcome E Z :=
  q ← div_ a b; if 0 <? a mod b then add_ 64 q 1 else Ok q.

(** ** The emission schedule *)

(** [reward_per_second month] is the floating-point expression of the loop,
    truncated to an integer. *)
Fixpoint build_emission_schedule {E} (reward_per_second : Z -> Z) (fuel : nat) (bps month : Z) : outcome E (list Z) :=
  match fuel with
  | O => OutOfFuel
  | S fuel =>
      let reward := reward_per_second month in
      if reward =? 0 then Ok []
      else
        per_block ← div_ceil reward bps;
        next ← add_ 32 month 1;
        rest ← build_emission_schedule reward_per_second fuel bps next;
        Ok (per_block :: rest)
  end.

Record CoinbaseManager := mkCoinbaseManager {
  cm_script_public_key_max_len : Z;
  max_coinbase_payload_len : Z;
  emission_start_daa_score : Z;
  pre_emission_base_subsidy : Z;
  cm_bps : Z;
  emission_schedule : list Z;
  tail_emission_per_block : Z;
  rd_allocation_script_public_key : ScriptPublicKey;
  cm_burn_script_public_key : ScriptPublicKey;
  cm_pom_v3_activation : ForkActivation
}.

(** ** The subsidy *)

Section subsidy.
Context {E : Type} (cm : CoinbaseManager).

Definition emission_month (daa_score : Z) : outcome E Z :=
  since ← sub_ 64 daa_score (emission_start_daa_score cm);
  seconds_since_start ← div_ since (cm_bps cm);
  Ok (seconds_since_start / SECONDS_PER_MONTH).

Definition calc_block_subsidy (daa_score : Z) : outcome E Z :=
  if daa_score <? emission_start_daa_score cm then Ok (pre_emission_base_subsidy cm)
  else
    month ← emission_month daa_score;
    if month <? zlen (emission_schedule cm) then unwrap (emission_schedule cm !! Z.to_nat month)
    else Ok (tail_emission_per_block cm).

(** The R&D cut, the escrow cut and the miner's part of a subsidy. *)
Definition split_subsidy (subsidy : Z) : outcome E (Z * Z * Z) :=
  rd ← mul_ 64 subsidy RD_ALLOCATION_BPS;
  rd_cut ← div_ rd RD_ALLOCATION_BPS_DIVISOR;
  escrow ← mul_ 64 subsidy ESCROW_RATE_BPS;
  escrow_cut ← div_ escrow ESCROW_RATE_BPS_DIVISOR;
  after_rd ← sub_ 64 subsidy rd_cut;
  miner_subsidy ← sub_ 64 after_rd escrow_cut;
  Ok (rd_cut, escrow_cut, miner_subsidy).

Definition base_miner_cut (daa_score : Z) : outcome E Z :=
  subsidy ← calc_block_subsidy daa_score;
  '(_, _, miner_subsidy) ← split_subsidy subsidy;
  Ok miner_subsidy.
End subsidy.

(** ** Payloads *)

Section payloads.
Context (cm : CoinbaseManager).

Definition write_miner (m : MinerData) : list Z :=
  le_bytes 2 (spk_version (md_spk m)) ++ le_bytes 1 (zlen (spk_script (md_spk m)) mod 2 ^ 8) ++ spk_script (md_spk m) ++ extra_data m.

Definition serialize_coinbase_payload (data : CoinbaseData) : coinbase_result (list Z) :=
  let script_pub_key_len := zlen (spk_script (md_spk (miner_data data))) in
  if cm_script_public_key_max_len cm <? script_pub_key_len
  then Err (PayloadScriptPublicKeyLenAboveMax script_pub_key_len (cm_script_public_key_max_len cm))
  else Ok (le_bytes 8 (cb_blue_score data) ++ le_bytes 8 (cb_subsidy data) ++ write_miner (miner_data data)).

Definition modify_coinbase_payload (payload : list Z) (m : MinerData) : coinbase_result (list Z) :=
  let script_pub_key_len := zlen (spk_script (md_spk m)) in
  if cm_script_public_key_max_len cm <? script_pub_key_len
  then Err (PayloadScriptPublicKeyLenAboveMax script_pub_key_len (cm_script_public_key_max_len cm))
  else Ok (take (LENGTH_OF_BLUE_SCORE + LENGTH_OF_SUBSIDY) payload ++ write_miner m).

(** [PayloadParser::take]: [split_at] panics past the end. *)
Definition parser_take {E} (n : nat) (remaining : list Z) : outcome E (list Z * list Z) :=
  _ ← assert (n <=? length remaining)%nat;
  Ok (take n remaining, drop n remaining).

Definition deserialize_coinbase_payload (payload : list Z) : coinbase_result CoinbaseData :=
  if zlen payload <? Z.of_nat MIN_PAYLOAD_LENGTH then Err (PayloadLenBelowMin (zlen payload) (Z.of_nat MIN_PAYLOAD_LENGTH))
  else if max_coinbase_payload_len cm <? zlen payload then Err (PayloadLenAboveMax (zlen payload) (max_coinbase_payload_len cm))
  else
    '(blue_score, rest) ← parser_take LENGTH_OF_BLUE_SCORE payload;
    '(subsidy, rest) ← parser_take LENGTH_OF_SUBSIDY rest;
    '(version, rest) ← parser_take LENGTH_OF_SCRIPT_PUB_KEY_VERSION rest;
    '(len, rest) ← parser_take LENGTH_OF_SCRIPT_PUB_KEY_LENGTH rest;
    let script_pub_key_len := of_le_bytes len in
    if cm_script_public_key_max_len cm <? script_pub_key_len
    then Err (PayloadScriptPublicKeyLenAboveMax script_pub_key_len (cm_script_public_key_max_len cm))
    else if zlen rest <? script_pub_key_len
    then Err (PayloadCantContainScriptPublicKey (zlen payload) (Z.of_nat MIN_PAYLOAD_LENGTH + script_pub_key_len))
    else
      '(script, extra) ← parser_take (Z.to_nat script_pub_key_len) rest;
      Ok (mkCoinbaseData (of_le_bytes blue_score) (of_le_bytes subsidy) (mkMinerData (mkSpk (of_le_bytes version) script) extra)).
End payloads.

(** ** The coinbase transaction *)

Section coinbase.
Context `{Hashers}.

(** [Transaction::new]. *)
Definition Transaction_new (version : Z) (inputs : list TransactionInput) (outputs : list TransactionOutput) (lock_time : Z)
    (subnetwork : list Z) (gas : Z) (payload : list Z) : Transaction :=
  let tx := mkTransaction version inputs outputs lock_time subnetwork gas payload 0 0 in
  mkTransaction version inputs outputs lock_time subnetwork gas payload 0 (calc_id tx).

Definition CoinbaseManager_new {E} (reward_per_second : Z -> Z) (fuel : nat) (script_public_key_max_len max_payload_len emission_start pre_emission bps : Z)
    (pom_v3 : ForkActivation) : outcome E CoinbaseManager :=
  schedule ← build_emission_schedule reward_per_second fuel bps 0;
  tail ← div_ceil KRX_TAIL_EMISSION_PER_SECOND bps;
  rd_address ← unwrap_r (address_try_from RD_ALLOCATION_ADDRESS);
  rd_spk ← pay_to_address_script rd_address;
  burn_spk ← burn_script_public_key;
  Ok (mkCoinbaseManager script_public_key_max_len max_payload_len emission_start pre_emission bps schedule tail rd_spk burn_spk pom_v3).

Context (cm : CoinbaseManager) (daa_score : Z) (ghostdag_data : GhostdagData) (mergeset_rewards : gmap Hash BlockRewardData)
  (mergeset_non_daa : gset Hash) (tier_bps_by_block ratio_bps_by_block : gmap Hash Z) (suspended_blues : gset Hash)
  (reward_mints : list (ScriptPublicKey * Z)).

(** An output that is only emitted with a value. *)
Definition push_output (outputs : list TransactionOutput) (value : Z) (spk : ScriptPublicKey) : list TransactionOutput :=
  if 0 <? value then outputs ++ [mkOutput value spk] else outputs.

(** What the producer of [blue] is paid of the miner's part. *)
Definition miner_paid {E} (blue : Hash) (miner_subsidy : Z) : outcome E Z :=
  if decide (blue ∈ suspended_blues) then Ok 0
  else
    let tier_bps := default TIER_REWARD_BPS_DIVISOR (tier_bps_by_block !! blue) in
    let ratio_bps := default RATIO_REWARD_BPS_DIVISOR (ratio_bps_by_block !! blue) in
    a ← mul_ 64 miner_subsidy tier_bps;
    b ← div_ a TIER_REWARD_BPS_DIVISOR;
    c ← mul_ 64 b ratio_bps;
    div_ c RATIO_REWARD_BPS_DIVISOR.

(** The loop over the blues: the outputs, the R&D total and the burned part of
    the miners' cuts. *)
Definition blue_reward {E} (st : list TransactionOutput * Z * Z) (blue : Hash) : outcome E (list TransactionOutput * Z * Z) :=
  let '(outputs, rd_total, reward_burn_total) := st in
  reward_data ← unwrap (mergeset_rewards !! blue);
  let outputs := push_output outputs (total_fees reward_data) (cm_burn_script_public_key cm) in
  if 0 <? subsidy reward_data then
    '(rd_cut, escrow_cut, miner_subsidy) ← split_subsidy (subsidy reward_data);
    rd_total ← add_ 64 rd_total rd_cut;
    paid ← miner_paid blue miner_subsidy;
    burned ← sub_ 64 miner_subsidy paid;
    reward_burn_total ← add_ 64 reward_burn_total burned;
    let outputs := push_output outputs paid (reward_spk reward_data) in
    let outputs := push_output outputs escrow_cut (default (cm_burn_script_public_key cm) (escrow_spk reward_data)) in
    Ok (outputs, rd_total, reward_burn_total)
  else Ok (outputs, rd_total, reward_burn_total).

(** The loop over the reds: their subsidies and what is burned. *)
Definition red_reward {E} (st : Z * Z) (red : Hash) : outcome E (Z * Z) :=
  let '(red_subsidy, red_fees) := st in
  reward_data ← unwrap (mergeset_rewards !! red);
  if decide (red ∈ mergeset_non_daa) then red_fees ← add_ 64 red_fees (total_fees reward_data); Ok (red_subsidy, red_fees)
  else if is_active (cm_pom_v3_activation cm) daa_score then
    both ← add_ 64 (subsidy reward_data) (total_fees reward_data);
    red_fees ← add_ 64 red_fees both;
    Ok (red_subsidy, red_fees)
  else
    red_subsidy ← add_ 64 red_subsidy (subsidy reward_data);
    red_fees ← add_ 64 red_fees (total_fees reward_data);
    Ok (red_subsidy, red_fees).

Definition expected_coinbase_transaction (m : MinerData) : coinbase_result CoinbaseTransactionTemplate :=
  '(outputs, rd_total, reward_burn_total) ←
    foldM blue_reward ([], 0, 0) (filter (fun h => h ∉ mergeset_non_daa) (mergeset_blues ghostdag_data));
  '(red_subsidy, red_fees) ← foldM red_reward (0, 0) (mergeset_reds ghostdag_data);
  let outputs := push_output outputs red_fees (cm_burn_script_public_key cm) in
  '(outputs, rd_total, index) ←
    (if 0 <? red_subsidy then
       rd ← mul_ 64 red_subsidy RD_ALLOCATION_BPS;
       rd_cut ← div_ rd RD_ALLOCATION_BPS_DIVISOR;
       rd_total ← add_ 64 rd_total rd_cut;
       value ← sub_ 64 red_subsidy rd_cut;
       Ok (outputs ++ [mkOutput value (md_spk m)], rd_total, Some (length outputs))
     else Ok (outputs, rd_total, None));
  let outputs := push_output outputs rd_total (rd_allocation_script_public_key cm) in
  let outputs := push_output outputs reward_burn_total (cm_burn_script_public_key cm) in
  let outputs := outputs ++ ((fun '(spk, amount) => mkOutput amount spk) <$> reward_mints) in
  subsidy ← calc_block_subsidy cm daa_score;
  payload ← serialize_coinbase_payload cm (mkCoinbaseData (blue_score ghostdag_data) subsidy m);
  Ok (mkCoinbaseTemplate (Transaction_new TX_VERSION [] outputs 0 SUBNETWORK_ID_COINBASE 0 payload)
        ((0 <? red_subsidy) || (0 <? red_fees)) index).
End coinbase.

(** What [modify_block_template] does to the coinbase: the id that the
    transaction caches stays. *)
Definition modify_coinbase (cm : CoinbaseManager) (t : CoinbaseTransactionTemplate) (m : MinerData) : coinbase_result Transaction :=
  let tx := template_tx t in
  new_payload ← modify_coinbase_payload cm (payload tx) m;
  outputs ← match red_reward_output_index t with
            | Some idx =>
                output ← unwrap (tx_outputs tx !! idx);
                Ok (<[idx := mkOutput (out_value output) (md_spk m)]> (tx_outputs tx))
            | None => Ok (tx_outputs tx)
            end;
  Ok (mkTransaction (tx_version tx) (tx_inputs tx) outputs (lock_time tx) (subnetwork_id tx) (gas tx) new_payload (tx_mass tx) (tx_id tx)).

(** ** Announcements in the extra data *)

Definition ESCROW_MARKER : list Z := text "/escrow:".
Definition ESIG_MARKER : list Z := text "/esig:".

(** [char::to_digit] in base 16, of a byte. *)
Definition hex_digit (b : Z) : option Z :=
  if (48 <=? b) && (b <=? 57) then Some (b - 48)
  else if (97 <=? b) && (b <=? 102) then Some (b - 87)
  else if (65 <=? b) && (b <=? 70) then Some (b - 55)
  else None.

(** [u8::from_str_radix(hi, 16)] on two bytes: a plus sign may come first.  Bytes
    that are not ASCII are no digits, whether they are UTF-8 or not. *)
Definition parse_hex_byte (b1 b2 : Z) : option Z :=
  if b1 =? 43 then hex_digit b2
  else h ← hex_digit b1; l ← hex_digit b2; Some (16 * h + l).

Fixpoint parse_hex_bytes (n : nat) (data : list Z) : option (list Z) :=
  match n, data with
  | O, _ => Some []
  | S n, b1 :: b2 :: data => byte ← parse_hex_byte b1 b2; rest ← parse_hex_bytes n data; Some (byte :: rest)
  | S _, _ => None
  end.

(** The first window equal to [marker]. *)
Fixpoint find_marker (marker data : list Z) : option nat :=
  if bool_decide (take (length marker) data = marker) then Some O
  else match data with [] => None | _ :: data => S <$> find_marker marker data end.

Definition parse_hex_after_marker (n : nat) (extra_data marker : list Z) : option (list Z) :=
  pos ← find_marker marker extra_data;
  let hex_start := (pos + length marker)%nat in
  if (length extra_data <? hex_start + n * 2)%nat then None else parse_hex_bytes n (drop hex_start extra_data).

Definition parse_escrow_pubkey (extra_data : list Z) : option (list Z) := parse_hex_after_marker 32 extra_data ESCROW_MARKER.
Definition parse_escrow_esig (extra_data : list Z) : option (list Z) := parse_hex_after_marker 64 extra_data ESIG_MARKER.

Definition parse_escrow_from_extra_data (cm : CoinbaseManager) (extra_data : list Z) (daa_score : Z) : option ScriptPublicKey :=
  pubkey_bytes ← parse_escrow_pubkey extra_data;
  let csv_blocks := if is_active (cm_pom_v3_activation cm) daa_score then SERVICE_BOND_CSV_WINDOW_BLOCKS else CHALLENGE_WINDOW_BLOCKS in
  build_escrow_script pubkey_bytes csv_blocks.

(** Checked arithmetic within bounds that [lia] finds. *)
Ltac within := repeat (first [rewrite add_ok by (unfold in_u; lia)|rewrite sub_ok by (unfold in_u; lia)|rewrite mul_ok by (unfold in_u; lia)]; run).

(** ** The parts of a subsidy *)

Lemma split_subsidy_ok {E} s : 0 <= s -> s * 10000 < 2 ^ 64 ->
  exists rd escrow, split_subsidy (E := E) s = Ok (rd, escrow, s - rd - escrow) /\ 0 <= rd /\ 0 <= escrow /\ 0 <= s - rd - escrow /\ rd <= s.
Proof.
  intros Hs Hb. unfold split_subsidy, RD_ALLOCATION_BPS, ESCROW_RATE_BPS, RD_ALLOCATION_BPS_DIVISOR, ESCROW_RATE_BPS_DIVISOR, div_. cbn [Z.eqb].
  pose proof (Z.div_mod (s * 500) 10000 ltac:(lia)). pose proof (Z.mod_pos_bound (s * 500) 10000 ltac:(lia)).
  pose proof (Z.div_mod (s * 2000) 10000 ltac:(lia)). pose proof (Z.mod_pos_bound (s * 2000) 10000 ltac:(lia)).
  exists (s * 500 / 10000), (s * 2000 / 10000). within. split_and!; [done|lia..].
Qed.

Lemma scaled_bounds x bps : 0 <= x -> 0 <= bps <= 10000 -> 0 <= x * bps / 10000 <= x.
Proof. intros Hx Hb. split; [apply Z.div_pos; nia|]. apply Z.div_le_upper_bound; nia. Qed.

(** ** Outputs *)

Section coinbase.
Context `{Hashers} (cm : CoinbaseManager) (daa_score : Z) (gd : GhostdagData) (rewards : gmap Hash BlockRewardData)
  (non_daa : gset Hash) (tiers ratios : gmap Hash Z) (suspended : gset Hash) (mints : list (ScriptPublicKey * Z)).

(** A property of all scripts that are paid. *)
Context (Q : ScriptPublicKey -> Prop).

Notation expected := (expected_coinbase_transaction cm daa_score gd rewards non_daa tiers ratios suspended mints).
Notation rewarded_blues := (filter (fun h => h ∉ non_daa) (mergeset_blues gd)).

(** What a merged block brings. *)
Definition subsidy_of (h : Hash) : Z := match rewards !! h with Some d => subsidy d | None => 0 end.
Definition fees_of (h : Hash) : Z := match rewards !! h with Some d => total_fees d | None => 0 end.
Definition red_amount (h : Hash) : Z := fees_of h + (if decide (h ∈ non_daa) then 0 else subsidy_of h).

Definition reward_ok (h : Hash) : Prop :=
  exists d, rewards !! h = Some d /\ 0 <= subsidy d /\ 0 <= total_fees d /\ Q (reward_spk d) /\
    match escrow_spk d with Some spk => Q spk | None => True end.

Definition paid_ok (o : TransactionOutput) : Prop := 0 < out_value o /\ Q (out_spk o).

Definition total (outputs : list TransactionOutput) : Z := Zsum (out_value <$> outputs).

Lemma total_app l r : total (l ++ r) = total l + total r.
Proof using. unfold total. by rewrite fmap_app, Zsum_app. Qed.

Lemma push_output_ok outputs v spk : 0 <= v -> Q spk -> Forall paid_ok outputs ->
  Forall paid_ok (push_output outputs v spk) /\ total (push_output outputs v spk) = total outputs + v /\
  (length outputs <= length (push_output outputs v spk) <= S (length outputs))%nat.
Proof using.
  intros Hv HQ Ho. unfold push_output. destruct (Z.ltb_spec 0 v).
  - rewrite total_app, length_app. cbn [length]. split_and!; [|unfold total; cbn; rewrite Zsum_cons, Zsum_nil; lia|lia..]. apply Forall_app. split; [done|]. by apply Forall_singleton.
  - split_and!; [done|lia..].
Qed.

Hypothesis tiers_ok : forall h b, tiers !! h = Some b -> 0 <= b <= 10000.
Hypothesis ratios_ok : forall h b, ratios !! h = Some b -> 0 <= b <= 10000.
Hypothesis burn_ok : Q (cm_burn_script_public_key cm).
Hypothesis rd_ok : Q (rd_allocation_script_public_key cm).

Lemma miner_paid_ok {E} blue x : 0 <= x -> x * 10000 < 2 ^ 64 -> exists p, miner_paid (E := E) tiers ratios suspended blue x = Ok p /\ 0 <= p <= x.
Proof using tiers_ok ratios_ok.
  intros Hx Hb. unfold miner_paid. destruct (decide _); [exists 0; split; [done|lia]|].
  assert (0 <= default TIER_REWARD_BPS_DIVISOR (tiers !! blue) <= 10000) as Ht.
  { destruct (tiers !! blue) eqn:E1; cbn; [by eapply tiers_ok|unfold TIER_REWARD_BPS_DIVISOR; lia]. }
  assert (0 <= default RATIO_REWARD_BPS_DIVISOR (ratios !! blue) <= 10000) as Hr.
  { destruct (ratios !! blue) eqn:E1; cbn; [by eapply ratios_ok|unfold RATIO_REWARD_BPS_DIVISOR; lia]. }
  cbn zeta. set (t := default _ (tiers !! blue)) in *. set (r := default _ (ratios !! blue)) in *. clearbody t r.
  unfold div_, TIER_REWARD_BPS_DIVISOR, RATIO_REWARD_BPS_DIVISOR. cbn [Z.eqb]. rewrite mul_ok by (unfold in_u; nia). run.
  pose proof (scaled_bounds x t Hx Ht). rewrite mul_ok by (unfold in_u; nia). run. eexists. split; [done|].
  pose proof (scaled_bounds (x * t / 10000) r). lia.
Qed.

(** The state of the loop over [n] blues that brought [amount]. *)
Definition blues_paid (n : nat) (amount : Z) (st : list TransactionOutput * Z * Z) : Prop :=
  let '(outputs, rd, burned) := st in
  Forall paid_ok outputs /\ 0 <= rd /\ 0 <= burned /\ total outputs + rd + burned = amount /\ (length outputs <= 3 * n)%nat.

Lemma total_nonneg outputs : Forall paid_ok outputs -> 0 <= total outputs.
Proof using. intros Ho. apply Zsum_nonneg, Forall_fmap. eapply Forall_impl; [done|]. intros o [? _]. cbn. lia. Qed.

Lemma blue_reward_ok {E} n amount st h : reward_ok h -> subsidy_of h * 10000 < 2 ^ 64 -> amount + subsidy_of h + fees_of h < 2 ^ 64 -> blues_paid n amount st ->
  exists st', blue_reward (E := E) cm rewards tiers ratios suspended st h = Ok st' /\ blues_paid (S n) (amount + subsidy_of h + fees_of h) st'.
Proof using tiers_ok ratios_ok burn_ok.
  destruct st as [[outputs rd] burned]. intros (d & Ed & Hs & Hf & Hq & Hesc) Hb Hbound (Ho & Hrd & Hbn & Ht & Hl). unfold subsidy_of, fees_of in *. rewrite Ed in *.
  unfold blue_reward. rewrite Ed. run. destruct (push_output_ok outputs (total_fees d) _ Hf burn_ok Ho) as (Ho1 & Ht1 & Hl1).
  set (o1 := push_output outputs (total_fees d) _) in *. clearbody o1. pose proof (total_nonneg o1 Ho1). pose proof (total_nonneg outputs Ho).
  destruct (Z.ltb_spec 0 (subsidy d)).
  - destruct (split_subsidy_ok (E := E) (subsidy d) Hs Hb) as (rdc & esc & -> & Hr1 & He1 & Hm1 & _). run. within.
    destruct (miner_paid_ok (E := E) h (subsidy d - rdc - esc) Hm1 ltac:(lia)) as (p & -> & Hp). run. within. eexists. split; [done|].
    destruct (push_output_ok o1 p (reward_spk d) ltac:(lia) Hq Ho1) as (Ho2 & Ht2 & Hl2). set (o2 := push_output o1 p _) in *. clearbody o2.
    destruct (push_output_ok o2 esc (default (cm_burn_script_public_key cm) (escrow_spk d)) He1) as (Ho3 & Ht3 & Hl3); [by destruct (escrow_spk d)|done|].
    split_and!; [done|lia..].
  - eexists. split; [done|]. split_and!; [done|lia..].
Qed.

Lemma sums_nonneg l : Forall reward_ok l -> 0 <= Zsum (subsidy_of <$> l) /\ 0 <= Zsum (fees_of <$> l).
Proof using.
  intros Hl. split; apply Zsum_nonneg, Forall_fmap; (eapply Forall_impl; [exact Hl|]); intros h (d & Ed & Hs & Hf & _); cbn; unfold subsidy_of, fees_of; by rewrite Ed.
Qed.

Lemma blues_ok {E} l : Forall reward_ok l -> Forall (fun h => subsidy_of h * 10000 < 2 ^ 64) l -> forall n amount st,
  amount + Zsum (subsidy_of <$> l) + Zsum (fees_of <$> l) < 2 ^ 64 -> blues_paid n amount st ->
  exists st', foldM (blue_reward (E := E) cm rewards tiers ratios suspended) st l = Ok st' /\
    blues_paid (n + length l) (amount + Zsum (subsidy_of <$> l) + Zsum (fees_of <$> l)) st'.
Proof using tiers_ok ratios_ok burn_ok.
  induction 1 as [|h l Hh Hl IH]; intros Hb n amount st Hbound Hst; cbn [foldM fmap list_fmap]; rewrite ?Zsum_nil, ?Zsum_cons in *.
  - exists st. split; [done|]. cbn [length]. by rewrite Nat.add_0_r, !Z.add_0_r.
  - apply Forall_cons in Hb as [Hb1 Hb2]. assert (0 <= Zsum (subsidy_of <$> l) /\ 0 <= Zsum (fees_of <$> l)) as [Hn1 Hn2] by (by apply sums_nonneg).
    cbn [fmap list_fmap] in Hbound. rewrite !Zsum_cons in Hbound.
    destruct (blue_reward_ok (E := E) n amount st h Hh Hb1 ltac:(lia) Hst) as (st1 & -> & Hst1). run.
    destruct (IH Hb2 (S n) (amount + subsidy_of h + fees_of h) st1 ltac:(lia) Hst1) as (st2 & -> & Hst2). exists st2. split; [done|]. cbn [length]. rewrite Nat.add_succ_r.
    replace (amount + _ + _) with (amount + subsidy_of h + fees_of h + Zsum (subsidy_of <$> l) + Zsum (fees_of <$> l)) by lia. done.
Qed.

(** The loop over the reds. *)
Lemma red_reward_ok {E} paid burned h : reward_ok h -> 0 <= paid -> 0 <= burned -> paid + burned + subsidy_of h + fees_of h < 2 ^ 64 ->
  exists paid' burned', red_reward (E := E) cm daa_score rewards non_daa (paid, burned) h = Ok (paid', burned') /\
    0 <= burned' /\ paid' + burned' = paid + burned + red_amount h /\ paid <= paid' <= paid + subsidy_of h.
Proof using.
  intros (d & Ed & Hs & Hf & _) Hp Hb. unfold red_reward, red_amount, subsidy_of, fees_of. rewrite Ed. run. intros Hbound.
  destruct (decide (h ∈ non_daa)); [|destruct (is_active _ _)]; within; (eexists _, _; split; [done|lia]).
Qed.

Lemma reds_ok {E} l : Forall reward_ok l -> forall paid burned, 0 <= paid -> 0 <= burned ->
  paid + burned + Zsum (subsidy_of <$> l) + Zsum (fees_of <$> l) < 2 ^ 64 ->
  exists paid' burned', foldM (red_reward (E := E) cm daa_score rewards non_daa) (paid, burned) l = Ok (paid', burned') /\
    0 <= burned' /\ paid' + burned' = paid + burned + Zsum (red_amount <$> l) /\ paid <= paid' <= paid + Zsum (subsidy_of <$> l).
Proof using.
  induction 1 as [|h l Hh Hl IH]; intros paid burned Hp Hb Hbound; cbn [foldM fmap list_fmap] in *; rewrite ?Zsum_nil, ?Zsum_cons in *; [eexists _, _; split; [done|]; lia|].
  destruct (sums_nonneg l Hl) as [Hn1 Hn2]. assert (0 <= red_amount h <= subsidy_of h + fees_of h) as Hra.
  { destruct Hh as (d & Ed & ? & ? & _). unfold red_amount, subsidy_of, fees_of. rewrite Ed. destruct (decide _); lia. }
  destruct (red_reward_ok (E := E) paid burned h Hh Hp Hb ltac:(lia)) as (p1 & b1 & -> & H1 & H2 & H3). run.
  destruct (IH p1 b1 ltac:(lia) H1 ltac:(lia)) as (p2 & b2 & -> & H4 & H5 & H6). exists p2, b2. split; [done|]. lia.
Qed.

(** ** The transaction *)

Definition mint_outputs : list TransactionOutput := (fun '(spk, amount) => mkOutput amount spk) <$> mints.

(** The value of the rewards that a coinbase distributes. *)
Definition granted : Z :=
  Zsum (subsidy_of <$> rewarded_blues) + Zsum (fees_of <$> rewarded_blues) + Zsum (red_amount <$> mergeset_reds gd) + Zsum (snd <$> mints).

(** The rewards are known, small enough for the arithmetic, and the scripts are
    in [Q]. *)
Record rewards_ok : Prop := {
  rewards_known : Forall reward_ok (rewarded_blues ++ mergeset_reds gd);
  rewards_small : Zsum (subsidy_of <$> rewarded_blues ++ mergeset_reds gd) * 10000 < 2 ^ 64;
  rewards_total : Zsum (subsidy_of <$> rewarded_blues ++ mergeset_reds gd) + Zsum (fees_of <$> rewarded_blues ++ mergeset_reds gd) < 2 ^ 64;
  rewards_mints : Forall (fun p => 0 < p.2 /\ Q p.1) mints
}.

Lemma subsidy_le l h : Forall reward_ok l -> h ∈ l -> subsidy_of h <= Zsum (subsidy_of <$> l).
Proof using.
  intros Hl Hh. apply list_elem_of_split in Hh as (l1 & l2 & ->). apply Forall_app in Hl as [Hl1 [_ Hl2]%Forall_cons].
  rewrite fmap_app, Zsum_app, fmap_cons, Zsum_cons. destruct (sums_nonneg l1 Hl1), (sums_nonneg l2 Hl2). lia.
Qed.

Lemma mints_ok : Forall (fun p => 0 < p.2 /\ Q p.1) mints -> Forall paid_ok mint_outputs /\ total mint_outputs = Zsum (snd <$> mints).
Proof using.
  unfold mint_outputs, total. induction 1 as [|[spk amount] l [Hp Hq] _ [IH1 IH2]]; cbn [fmap list_fmap]; [done|]. rewrite !Zsum_cons. split; [by constructor|]. cbn. lia.
Qed.

(** The score is within the schedule's domain. *)
Definition score_ok : Prop := 0 < cm_bps cm /\ 0 <= emission_start_daa_score cm /\ in_u 64 daa_score.

Lemma calc_block_subsidy_ok {E} : score_ok -> exists s, calc_block_subsidy (E := E) cm daa_score = Ok s.
Proof using.
  intros (Hb & Hs & Hd). unfold calc_block_subsidy, emission_month. destruct (Z.ltb_spec daa_score (emission_start_daa_score cm)); [by eexists|].
  unfold in_u in Hd. within. unfold div_. destruct (Z.eqb_spec (cm_bps cm) 0); [lia|]. run. set (month := _ / SECONDS_PER_MONTH).
  assert (0 <= month) by (apply Z.div_pos; [apply Z.div_pos; lia|unfold SECONDS_PER_MONTH; lia]).
  destruct (Z.ltb_spec month (zlen (emission_schedule cm))) as [Hm|]; [|by eexists].
  destruct (lookup_lt_is_Some_2 (emission_schedule cm) (Z.to_nat month)) as [s ->]; [unfold zlen in Hm; lia|]. by eexists.
Qed.

Definition miner_ok (m : MinerData) : Prop := Q (md_spk m) /\ zlen (spk_script (md_spk m)) <= cm_script_public_key_max_len cm.

(** What the expected coinbase is. *)
Record coinbase_ok (m : MinerData) (t : CoinbaseTransactionTemplate) : Prop := {
  cb_paid : Forall paid_ok (tx_outputs (template_tx t));
  cb_total : total (tx_outputs (template_tx t)) = granted;
  cb_count : (length (tx_outputs (template_tx t)) <= 3 * length rewarded_blues + 4 + length mints)%nat;
  cb_frame : exists p, template_tx t = Transaction_new TX_VERSION [] (tx_outputs (template_tx t)) 0 SUBNETWORK_ID_COINBASE 0 p;
  cb_index : match red_reward_output_index t with
             | Some i => exists o, tx_outputs (template_tx t) !! i = Some o /\ out_spk o = md_spk m
             | None => True
             end
}.

(** The aggregate outputs after those of the blues. *)
Lemma aggregates_ok {E} m outputs rd burned red_paid red_burned : Q (md_spk m) -> Forall paid_ok outputs -> 0 <= rd -> 0 <= burned -> 0 <= red_paid -> 0 <= red_burned ->
  red_paid * 10000 < 2 ^ 64 -> rd + red_paid < 2 ^ 64 ->
  exists outputs' rd' i,
    (let outputs := push_output outputs red_burned (cm_burn_script_public_key cm) in
     (if 0 <? red_paid then
       rd_ ← mul_ 64 red_paid RD_ALLOCATION_BPS;
       rd_cut ← div_ rd_ RD_ALLOCATION_BPS_DIVISOR;
       rd_total ← add_ 64 rd rd_cut;
       value ← sub_ 64 red_paid rd_cut;
       Ok (outputs ++ [mkOutput value (md_spk m)], rd_total, Some (length outputs))
     else Ok (outputs, rd, None))) = Ok (E := E) (outputs', rd', i) /\
    Forall paid_ok outputs' /\ 0 <= rd' /\ total outputs' + rd' = total outputs + rd + red_paid + red_burned /\
    (length outputs' <= length outputs + 2)%nat /\
    match i with Some i => exists o, outputs' !! i = Some o /\ out_spk o = md_spk m | None => True end.
Proof using burn_ok.
  intros Hm Ho Hr Hb Hp Hrb Hs Hbound. cbn zeta. destruct (push_output_ok outputs red_burned _ Hrb burn_ok Ho) as (Ho1 & Ht1 & Hl1).
  set (o1 := push_output _ _ _) in *. clearbody o1. destruct (Z.ltb_spec 0 red_paid); [|eexists _, _, _; split; [done|]; split_and!; try done; lia].
  unfold RD_ALLOCATION_BPS, RD_ALLOCATION_BPS_DIVISOR, div_. cbn [Z.eqb]. pose proof (scaled_bounds red_paid 500 Hp ltac:(lia)) as Hc.
  assert (red_paid * 500 / 10000 < red_paid) by (apply Z.div_lt_upper_bound; lia).
  within. eexists _, _, _. split; [done|]. rewrite total_app, length_app. unfold total at 2. cbn [fmap list_fmap length out_value]. rewrite Zsum_cons, Zsum_nil.
  split_and!; [|lia..|].
  - apply Forall_app. split; [done|]. apply Forall_singleton. split; [cbn; lia|done].
  - eexists. split; [by rewrite list_lookup_middle|done].
Qed.

Lemma push_output_lookup outputs v spk i o : outputs !! i = Some o -> push_output outputs v spk !! i = Some o.
Proof using. intros Hi. unfold push_output. destruct (0 <? v); [|done]. by apply lookup_app_l_Some. Qed.

Lemma expected_ok m : rewards_ok -> score_ok -> miner_ok m -> exists t, expected m = Ok t /\ coinbase_ok m t.
Proof using tiers_ok ratios_ok burn_ok rd_ok.
  intros [Hk Hs Ht Hm] Hd [Hq Hlen]. rewrite (fmap_app subsidy_of), Zsum_app in Hs. rewrite (fmap_app subsidy_of), (fmap_app fees_of), !Zsum_app in Ht. pose proof Hk as [Hk1 Hk2]%Forall_app.
  destruct (sums_nonneg _ Hk1) as [Hn1 Hn2], (sums_nonneg _ Hk2) as [Hn3 Hn4]. unfold expected_coinbase_transaction.
  destruct (blues_ok (E := CoinbaseError) rewarded_blues Hk1) with (n := O) (amount := 0) (st := ([] : list TransactionOutput, 0, 0))
    as ([[outputs rd] burned] & -> & Ho & Hrd & Hb & Htot & Hl); [|lia|by split_and!; [apply List.Forall_nil|done..]|].
  { apply Forall_forall. intros h Hh. pose proof (subsidy_le _ h Hk1 Hh). lia. }
  cbn [mbind outcome_mbind]. pose proof (total_nonneg _ Ho).
  destruct (reds_ok (E := CoinbaseError) (mergeset_reds gd) Hk2 0 0 ltac:(lia) ltac:(lia) ltac:(lia)) as (paid & rburned & -> & Hrb & Hsum & Hpaid).
  cbn [mbind outcome_mbind]. destruct (aggregates_ok (E := CoinbaseError) m outputs rd burned paid rburned) as (o1 & rd1 & i & E1 & Ho1 & Hrd1 & Ht1 & Hl1 & Hi); [done|done|lia..|].
  cbn zeta in E1 |- *. rewrite E1. clear E1. cbn [mbind outcome_mbind]. destruct (calc_block_subsidy_ok (E := CoinbaseError) Hd) as [s ->]. cbn [mbind outcome_mbind].
  unfold serialize_coinbase_payload. cbn [miner_data md_spk]. destruct (Z.ltb_spec (cm_script_public_key_max_len cm) (zlen (spk_script (md_spk m)))); [lia|].
  cbn [mbind outcome_mbind]. eexists. split; [done|].
  destruct (push_output_ok o1 rd1 _ Hrd1 rd_ok Ho1) as (Ho2 & Ht2 & Hl2). destruct (push_output_ok _ burned _ Hb burn_ok Ho2) as (Ho3 & Ht3 & Hl3).
  destruct (mints_ok Hm) as [Hm1 Hm2]. assert (length mint_outputs = length mints) by apply length_fmap. constructor; cbn [template_tx tx_outputs Transaction_new red_reward_output_index].
  - apply Forall_app. by split.
  - rewrite total_app. fold mint_outputs. unfold granted. lia.
  - rewrite length_app. fold mint_outputs. lia.
  - by eexists.
  - destruct i as [i|]; [|done]. destruct Hi as (o & Hi & Hspk). exists o. split; [|done]. apply lookup_app_l_Some. by do 2 apply push_output_lookup.
Qed.
End coinbase.

(** ** The manager *)

Lemma div_ceil_ok {E} a b : 0 < b -> 0 <= a < 2 ^ 64 -> div_ceil (E := E) a b = Ok ((a + b - 1) / b).
Proof.
  intros Hb Ha. unfold div_ceil, div_. destruct (Z.eqb_spec b 0); [lia|]. run. pose proof (Z.div_mod a b ltac:(lia)). pose proof (Z.mod_pos_bound a b Hb).
  set (q := a / b) in *. set (r := a mod b) in *. assert (0 <= q) by nia. destruct (Z.ltb_spec 0 r).
  - rewrite add_ok by (unfold in_u; nia). f_equal. apply (Z.div_unique _ _ _ (r - 1)); lia.
  - f_equal. apply (Z.div_unique _ _ _ (b - 1)); lia.
Qed.

(** The schedule lists the months before the first without a reward. *)
Lemma build_emission_schedule_ok {E} reward bps n : 0 < bps -> (forall m, in_u 64 (reward m)) -> reward (Z.of_nat n) = 0 -> Z.of_nat n < 2 ^ 32 ->
  (forall m, 0 <= m < Z.of_nat n -> reward m <> 0) -> forall k fuel, (n < k + fuel)%nat -> (k <= n)%nat ->
  build_emission_schedule (E := E) reward fuel bps (Z.of_nat k) = Ok ((fun i => (reward (Z.of_nat i) + bps - 1) / bps) <$> seq k (n - k)).
Proof.
  intros Hb Hr Hz H32 Hnz k fuel. revert k. induction fuel as [|fuel IH]; intros k Hf Hk; [lia|]. cbn [build_emission_schedule].
  destruct (decide (k = n)) as [->|Hne]; [rewrite Hz, Nat.sub_diag; done|].
  destruct (Z.eqb_spec (reward (Z.of_nat k)) 0) as [E0|_]; [by destruct (Hnz (Z.of_nat k)); [lia|]|].
  rewrite div_ceil_ok by (done || apply Hr). run. rewrite add_ok by (unfold in_u; lia). run. replace (Z.of_nat k + 1) with (Z.of_nat (S k)) by lia.
  rewrite IH by lia. run. replace (n - k)%nat with (S (n - S k)) by lia. done.
Qed.

Definition short (len : Z) (spk : ScriptPublicKey) : Prop := zlen (spk_script spk) <= len.

Lemma pub_key_script {E} prefix key : length key = 32%nat ->
  exists spk, pay_to_address_script (E := E) (mkAddress prefix PubKey key) = Ok spk /\ short 34 spk.
Proof.
  intros Hl. unfold pay_to_address_script, pay_to_pub_key, zlen. cbn [addr_version addr_payload]. rewrite Hl. run. eexists. split; [done|].
  unfold short, zlen. cbn [spk_script length]. rewrite length_app, Hl. done.
Qed.

Lemma burn_script `{Hashers} {E} : exists spk, burn_script_public_key (E := E) = Ok spk /\ short 34 spk.
Proof.
  unfold burn_script_public_key, Address_new, zlen. rewrite length_hash_bytes. run. apply pub_key_script, length_hash_bytes.
Qed.

Section manager.
Context `{Hashers} (reward : Z -> Z) (n fuel : nat) (max_len max_payload start pre bps : Z) (v3 : ForkActivation).
Hypothesis bps_ok : 0 < bps.
Hypothesis reward_ok64 : forall m, in_u 64 (reward m).
Hypothesis reward_zero : reward (Z.of_nat n) = 0.
Hypothesis reward_nonzero : forall m, 0 <= m < Z.of_nat n -> reward m <> 0.
Hypothesis months : Z.of_nat n < 2 ^ 32.
Hypothesis fuel_ok : (n < fuel)%nat.

Lemma CoinbaseManager_new_ok {E} : exists rd burn,
  CoinbaseManager_new (E := E) reward fuel max_len max_payload start pre bps v3 =
    Ok (mkCoinbaseManager max_len max_payload start pre bps ((fun i => (reward (Z.of_nat i) + bps - 1) / bps) <$> seq 0 n)
          ((KRX_TAIL_EMISSION_PER_SECOND + bps - 1) / bps) rd burn v3) /\ short 34 rd /\ short 34 burn.
Proof using All.
  unfold CoinbaseManager_new. rewrite (build_emission_schedule_ok reward bps n bps_ok reward_ok64 reward_zero months reward_nonzero 0 fuel) by lia. run.
  rewrite Nat.sub_0_r, div_ceil_ok by (done || (unfold KRX_TAIL_EMISSION_PER_SECOND; lia)). run. rewrite rd_address_ok. run.
  destruct (pub_key_script (E := E) Mainnet (addr_payload rd_address) eq_refl) as (rd & Erd & Hrd). change (mkAddress _ _ _) with rd_address in Erd. rewrite Erd. run.
  destruct (burn_script (E := E)) as (burn & -> & Hburn). run. by exists rd, burn.
Qed.
End manager.

(** ** Rewards *)

(** The multipliers are parts of the whole. *)
Definition multipliers_ok (bps_by_block : gmap Hash Z) : Prop := forall h b, bps_by_block !! h = Some b -> 0 <= b <= 10000.

Section accepted.
Context `{Hashers, Crypto, !IndexMap SigCacheKey bool} (tv : TransactionValidator).

Definition script_fits (spk : ScriptPublicKey) : Prop :=
  short (max_script_public_key_len tv) spk /\ short (coinbase_payload_script_public_key_max_len tv) spk.

Lemma coinbase_isolated outputs p : 0 <= max_tx_inputs tv -> Forall (paid_ok script_fits) outputs -> total outputs <= MAX_SOMPI ->
  zlen outputs <= coinbase_outputs_limit (ghostdag_k tv) true true ->
  isolated tv (Transaction_new TX_VERSION [] outputs 0 SUBNETWORK_ID_COINBASE 0 p).
Proof.
  intros Hi Ho Ht Hl. assert (Forall (fun o => 1 <= out_value o <= MAX_SOMPI) outputs) as Hv.
  { apply Forall_forall. intros o Hin. rewrite Forall_forall in Ho. destruct (Ho o Hin) as [Hpos _]. split; [lia|].
    apply list_elem_of_split in Hin as (l1 & l2 & ->). rewrite total_app in Ht. unfold total at 2 in Ht. cbn [fmap list_fmap] in Ht. rewrite Zsum_cons in Ht.
    assert (forall l, (forall o, o ∈ l -> paid_ok script_fits o) -> 0 <= total l) as Hn by (intros l Hl'; apply (total_nonneg script_fits), Forall_forall, Hl').
    pose proof (Hn l1 ltac:(set_solver)). pose proof (Hn l2 ltac:(set_solver)). unfold total in *. lia. }
  constructor; cbn [Transaction_new tx_inputs tx_outputs gas tx_version tx_mass]; try done.
  - by left.
  - eapply Forall_impl; [exact Ho|]. by intros o (_ & ? & _).
  - intros _. split_and!; [done..|]. eapply Forall_impl; [exact Ho|]. by intros o (_ & _ & ?).
  - constructor.
  - by left.
Qed.
End accepted.

(** C29: the coinbase that a block is expected to have, in every era: when the
    rewards of the merged blocks are known and fit the arithmetic, the
    construction succeeds; its outputs add up to exactly the subsidies and fees
    of the rewarded blues, the fees of all reds, the subsidies of the reds in the
    difficulty window, and the mints; and validation in isolation accepts it,
    when no more than [k + 1] blues and 64 mints come together, so that no chain
    block is left without a coinbase that is valid. *)
Theorem coinbase_pays_rewards `{Hashers, Crypto, !IndexMap SigCacheKey bool} (tv : TransactionValidator) cm daa_score gd rewards non_daa tiers ratios suspended mints m :
  multipliers_ok tiers -> multipliers_ok ratios ->
  script_fits tv (cm_burn_script_public_key cm) -> script_fits tv (rd_allocation_script_public_key cm) ->
  rewards_ok gd rewards non_daa mints (script_fits tv) -> score_ok cm daa_score -> miner_ok cm (script_fits tv) m ->
  granted gd rewards non_daa mints <= MAX_SOMPI ->
  zlen (mergeset_blues gd) <= ghostdag_k tv + 1 -> zlen mints <= MAX_REWARD_MINTS_PER_BLOCK -> 0 <= max_tx_inputs tv ->
  exists t, expected_coinbase_transaction cm daa_score gd rewards non_daa tiers ratios suspended mints m = Ok t /\
    Zsum (out_value <$> tx_outputs (template_tx t)) = granted gd rewards non_daa mints /\
    validate_tx_in_isolation tv (template_tx t) = Ok ().
Proof.
  intros Ht Hr Hb Hrd Hw Hs Hm Hg Hk Hmint Hi.
  destruct (expected_ok cm daa_score gd rewards non_daa tiers ratios suspended mints (script_fits tv) Ht Hr Hb Hrd m Hw Hs Hm) as (t & E & [Hpaid Htot Hcount [p Hframe] _]).
  exists t. split; [done|]. split; [done|]. assert (isolated tv (template_tx t)) as Hiso.
  { rewrite Hframe. apply coinbase_isolated; [done..|by rewrite Htot|]. unfold coinbase_outputs_limit, MAX_REWARD_MINTS_PER_BLOCK, zlen in *.
    pose proof (length_filter (fun h => h ∉ non_daa) (mergeset_blues gd)). lia. }
  assert (decides_ (isolated tv (template_tx t)) (validate_tx_in_isolation tv (template_tx t))) as Hd.
  { apply validate_tx_in_isolation_decides; [by rewrite Hframe..|]. eapply Forall_impl; [exact (iso_values _ _ Hiso)|]. unfold in_u, MAX_SOMPI, SOMPI_PER_KASPA. cbn. lia. }
  unfold decides in Hd. by destruct (validate_tx_in_isolation tv (template_tx t)) as [[]| | |]; naive_solver.
Qed.

(** ** The subsidy *)

(** The emission schedule.  Let the reward per second be positive for [n]
    months and zero in the next.  The manager is constructed, whatever the hash
    functions, and the subsidy of a block is the flat one before the start, the
    reward of the month of its score shared among the blocks of a second and
    rounded up within the [n] months, and the tail emission after them. *)
Theorem block_subsidy_schedule `{Hashers} {E} reward n fuel max_len max_payload start pre bps v3 daa_score :
  0 < bps -> (forall m, in_u 64 (reward m)) -> reward (Z.of_nat n) = 0 -> (forall m, 0 <= m < Z.of_nat n -> reward m <> 0) ->
  Z.of_nat n < 2 ^ 32 -> (n < fuel)%nat -> 0 <= start -> in_u 64 daa_score ->
  exists cm, CoinbaseManager_new (E := E) reward fuel max_len max_payload start pre bps v3 = Ok cm /\
    calc_block_subsidy (E := E) cm daa_score =
      Ok (let month := (daa_score - start) / (bps * SECONDS_PER_MONTH) in
          if daa_score <? start then pre
          else if month <? Z.of_nat n then (reward month + bps - 1) / bps
          else (KRX_TAIL_EMISSION_PER_SECOND + bps - 1) / bps).
Proof.
  intros Hb Hr Hz Hnz Hn Hf Hs Hd. destruct (CoinbaseManager_new_ok (E := E) reward n fuel max_len max_payload start pre bps v3 Hb Hr Hz Hnz Hn Hf) as (rd & burn & -> & _).
  eexists. split; [done|]. unfold calc_block_subsidy, emission_month. cbn [emission_start_daa_score pre_emission_base_subsidy cm_bps emission_schedule tail_emission_per_block].
  destruct (Z.ltb_spec daa_score start); [done|]. unfold in_u in Hd. within. unfold div_. destruct (Z.eqb_spec bps 0); [lia|]. run.
  rewrite Z.div_div by (unfold SECONDS_PER_MONTH; lia). set (month := _ / _). assert (0 <= month) by (apply Z.div_pos; unfold SECONDS_PER_MONTH; lia).
  unfold zlen. rewrite length_fmap, length_seq. destruct (Z.ltb_spec month (Z.of_nat n)); [|done].
  rewrite list_lookup_fmap, lookup_seq_lt by lia. cbn. by rewrite Z2Nat.id.
Qed.

(** ** Payloads *)

Definition data_wf (d : CoinbaseData) : Prop :=
  in_u 64 (cb_blue_score d) /\ in_u 64 (cb_subsidy d) /\ in_u 16 (spk_version (md_spk (miner_data d))).

Lemma parser_take_app {E} n a r : length a = n -> parser_take (E := E) n (a ++ r) = Ok (a, r).
Proof.
  intros <-. unfold parser_take. rewrite length_app. destruct (Nat.leb_spec (length a) (length a + length r)); [|lia]. run.
  by rewrite take_app_length, drop_app_length.
Qed.

Lemma parser_take_ok {E} n l : (n <= length l)%nat -> exists a r, parser_take (E := E) n l = Ok (a, r) /\ l = a ++ r /\ length a = n.
Proof.
  intros Hl. exists (take n l), (drop n l). unfold parser_take. destruct (Nat.leb_spec n (length l)); [|lia]. run. rewrite take_drop, length_take. split_and!; [done..|lia].
Qed.

Lemma serialized_parts cm d p : serialize_coinbase_payload cm d = Ok p -> cm_script_public_key_max_len cm < 2 ^ 8 ->
  zlen (spk_script (md_spk (miner_data d))) <= cm_script_public_key_max_len cm /\
  p = le_bytes 8 (cb_blue_score d) ++ le_bytes 8 (cb_subsidy d) ++ le_bytes 2 (spk_version (md_spk (miner_data d))) ++
      le_bytes 1 (zlen (spk_script (md_spk (miner_data d)))) ++ spk_script (md_spk (miner_data d)) ++ extra_data (miner_data d).
Proof.
  unfold serialize_coinbase_payload, write_miner. destruct (Z.ltb_spec (cm_script_public_key_max_len cm) (zlen (spk_script (md_spk (miner_data d))))); [done|].
  intros [= <-] Hm. split; [done|]. by rewrite (Z.mod_small (zlen _)) by (unfold zlen in *; lia).
Qed.

(** The fixed fields of a payload that is long enough. *)
Lemma deserialize_parts cm p : (MIN_PAYLOAD_LENGTH <= length p)%nat -> zlen p <= max_coinbase_payload_len cm ->
  exists a b c l rest, p = a ++ b ++ c ++ l ++ rest /\ length a = 8%nat /\ length b = 8%nat /\ length c = 2%nat /\ length l = 1%nat /\
    deserialize_coinbase_payload cm p =
      (if cm_script_public_key_max_len cm <? of_le_bytes l then Err (PayloadScriptPublicKeyLenAboveMax (of_le_bytes l) (cm_script_public_key_max_len cm))
       else if zlen rest <? of_le_bytes l then Err (PayloadCantContainScriptPublicKey (zlen p) (Z.of_nat MIN_PAYLOAD_LENGTH + of_le_bytes l))
       else '(script, extra) ← parser_take (Z.to_nat (of_le_bytes l)) rest;
            Ok (mkCoinbaseData (of_le_bytes a) (of_le_bytes b) (mkMinerData (mkSpk (of_le_bytes c) script) extra))).
Proof.
  intros Hl Hmax. change MIN_PAYLOAD_LENGTH with 19%nat in Hl. unfold deserialize_coinbase_payload. destruct (Z.ltb_spec (zlen p) (Z.of_nat MIN_PAYLOAD_LENGTH)) as [Hs|_]; [change (Z.of_nat MIN_PAYLOAD_LENGTH) with 19 in Hs; unfold zlen in Hs; lia|].
  destruct (Z.ltb_spec (max_coinbase_payload_len cm) (zlen p)); [lia|]. set (len := zlen p). clearbody len.
  unfold LENGTH_OF_BLUE_SCORE, LENGTH_OF_SUBSIDY, LENGTH_OF_SCRIPT_PUB_KEY_VERSION, LENGTH_OF_SCRIPT_PUB_KEY_LENGTH.
  destruct (parser_take_ok (E := CoinbaseError) 8 p ltac:(lia)) as (a & r1 & -> & -> & Ha). rewrite length_app in Hl. cbn [mbind outcome_mbind].
  destruct (parser_take_ok (E := CoinbaseError) 8 r1 ltac:(lia)) as (b & r2 & -> & -> & Hb). rewrite length_app in Hl. cbn [mbind outcome_mbind].
  destruct (parser_take_ok (E := CoinbaseError) 2 r2 ltac:(lia)) as (c & r3 & -> & -> & Hc). rewrite length_app in Hl. cbn [mbind outcome_mbind].
  destruct (parser_take_ok (E := CoinbaseError) 1 r3 ltac:(lia)) as (l & rest & -> & -> & Hll). cbn [mbind outcome_mbind]. by exists a, b, c, l, rest.
Qed.

Lemma deserialize_serialized cm d p : 0 <= cm_script_public_key_max_len cm < 2 ^ 8 -> data_wf d -> serialize_coinbase_payload cm d = Ok p ->
  zlen p <= max_coinbase_payload_len cm -> deserialize_coinbase_payload cm p = Ok d.
Proof.
  intros Hm (H1 & H2 & H3) Hs Hp. destruct (serialized_parts cm d p Hs ltac:(lia)) as [Hlen Ep]. destruct d as [bs su [[v script] extra]]. cbn [miner_data md_spk spk_script spk_version extra_data cb_blue_score cb_subsidy] in *.
  destruct (deserialize_parts cm p) as (a & b & c & l & rest & Ep' & Ha & Hb & Hc & Hl & ->); [|done|].
  { rewrite Ep, !length_app, !length_le_bytes. change MIN_PAYLOAD_LENGTH with 19%nat. lia. }
  rewrite Ep in Ep'. apply app_inj_1 in Ep' as [<- Ep']; [|by rewrite length_le_bytes]. apply app_inj_1 in Ep' as [<- Ep']; [|by rewrite length_le_bytes].
  apply app_inj_1 in Ep' as [<- Ep']; [|by rewrite length_le_bytes]. apply app_inj_1 in Ep' as [<- Ep']; [|by rewrite length_le_bytes]. subst rest.
  unfold in_u in *. assert (0 <= zlen script) by (unfold zlen; lia). rewrite !of_le_le by (cbn; lia). destruct (Z.ltb_spec (cm_script_public_key_max_len cm) (zlen script)); [lia|].
  destruct (Z.ltb_spec (zlen (script ++ extra)) (zlen script)) as [Hlt|_]; [unfold zlen in Hlt; rewrite length_app in Hlt; lia|].
  unfold zlen. rewrite Nat2Z.id. by rewrite parser_take_app.
Qed.

Lemma deserialized_serializes cm d p : 0 <= cm_script_public_key_max_len cm < 2 ^ 8 -> Forall is_byte p -> deserialize_coinbase_payload cm p = Ok d ->
  data_wf d /\ serialize_coinbase_payload cm d = Ok p /\ zlen p <= max_coinbase_payload_len cm.
Proof.
  intros Hm Hp Hd. pose proof Hd as Hd'. unfold deserialize_coinbase_payload in Hd'. destruct (Z.ltb_spec (zlen p) (Z.of_nat MIN_PAYLOAD_LENGTH)) as [|Hmin]; [done|].
  destruct (Z.ltb_spec (max_coinbase_payload_len cm) (zlen p)) as [|Hmax]; [done|]. clear Hd'.
  destruct (deserialize_parts cm p) as (a & b & c & l & rest & Ep & Ha & Hb & Hc & Hl & E); [unfold zlen in Hmin; lia|done|]. rewrite E in Hd. clear E. rewrite Ep in Hp.
  apply Forall_app in Hp as [Pa Hp]. apply Forall_app in Hp as [Pb Hp]. apply Forall_app in Hp as [Pc Hp]. apply Forall_app in Hp as [Pl Hp].
  pose proof (of_le_bound a Pa) as Ba. pose proof (of_le_bound b Pb) as Bb. pose proof (of_le_bound c Pc) as Bc. pose proof (of_le_bound l Pl) as Bl. rewrite Ha, Hb, Hc, Hl in *. 
  destruct (Z.ltb_spec (cm_script_public_key_max_len cm) (of_le_bytes l)) as [|Hlm]; [done|]. destruct (Z.ltb_spec (zlen rest) (of_le_bytes l)) as [|Hlr]; [done|].
  destruct (parser_take_ok (E := CoinbaseError) (Z.to_nat (of_le_bytes l)) rest) as (script & extra & Et & -> & Hs); [unfold zlen in Hlr; lia|]. rewrite Et in Hd. injection Hd as <-.
  assert (zlen script = of_le_bytes l) as Ezl by (unfold zlen; lia). split_and!; [unfold data_wf, in_u; cbn in *; lia| |done].
  unfold serialize_coinbase_payload, write_miner. cbn [miner_data md_spk spk_script spk_version extra_data cb_blue_score cb_subsidy]. rewrite Ezl.
  destruct (Z.ltb_spec (cm_script_public_key_max_len cm) (of_le_bytes l)); [lia|]. rewrite (Z.mod_small (of_le_bytes l)) by lia. rewrite !le_of_le by done. by rewrite Ep.
Qed.

(** Coinbase payloads.  [deserialize_coinbase_payload] never panics; on bytes
    it returns a value exactly when the bytes are no longer than allowed and are
    what [serialize_coinbase_payload] writes for that value, so that each is the
    inverse of the other. *)
Theorem coinbase_payload_round_trip cm p d : 0 <= cm_script_public_key_max_len cm < 2 ^ 8 -> Forall is_byte p ->
  deserialize_coinbase_payload cm p <> Panic /\
  (deserialize_coinbase_payload cm p = Ok d <->
   data_wf d /\ serialize_coinbase_payload cm d = Ok p /\ zlen p <= max_coinbase_payload_len cm).
Proof.
  intros Hm Hp. split.
  - destruct (decide (zlen p < Z.of_nat MIN_PAYLOAD_LENGTH \/ max_coinbase_payload_len cm < zlen p)) as [Hs|Hs].
    { unfold deserialize_coinbase_payload. destruct (Z.ltb_spec (zlen p) (Z.of_nat MIN_PAYLOAD_LENGTH)); [done|]. by destruct (Z.ltb_spec (max_coinbase_payload_len cm) (zlen p)); [|lia]. }
    destruct (deserialize_parts cm p) as (a & b & c & l & rest & _ & _ & _ & _ & _ & ->); [unfold zlen in Hs; lia|lia|].
    destruct (_ <? of_le_bytes l); [done|]. destruct (Z.ltb_spec (zlen rest) (of_le_bytes l)); [done|].
    destruct (parser_take_ok (E := CoinbaseError) (Z.to_nat (of_le_bytes l)) rest) as (? & ? & -> & _); [unfold zlen in *; lia|done].
  - split; [by apply deserialized_serializes|]. intros (? & ? & ?). by apply deserialize_serialized.
Qed.

(** ** A change of the miner *)

Lemma push_output_app outputs v spk : exists r, push_output outputs v spk = outputs ++ r /\ forall o, push_output o v spk = o ++ r.
Proof. unfold push_output. destruct (0 <? v); [by eexists|]. exists []. setoid_rewrite app_nil_r. done. Qed.

Lemma serialize_modify cm d p m : serialize_coinbase_payload cm d = Ok p -> zlen (spk_script (md_spk m)) <= cm_script_public_key_max_len cm ->
  exists p', modify_coinbase_payload cm p m = Ok p' /\ serialize_coinbase_payload cm (mkCoinbaseData (cb_blue_score d) (cb_subsidy d) m) = Ok p'.
Proof.
  unfold serialize_coinbase_payload, modify_coinbase_payload. cbn [miner_data cb_blue_score cb_subsidy]. destruct (_ <? zlen (spk_script (md_spk (miner_data d)))); [done|].
  intros [= <-] Hm. destruct (Z.ltb_spec (cm_script_public_key_max_len cm) (zlen (spk_script (md_spk m)))); [lia|]. by eexists.
Qed.

(** The coinbase up to the miner: the outputs around the red reward, and the
    subsidy that the payload announces. *)
Lemma expected_shape `{Hashers} cm daa_score gd rewards non_daa tiers ratios suspended mints m t :
  expected_coinbase_transaction cm daa_score gd rewards non_daa tiers ratios suspended mints m = Ok t ->
  exists o1 o2 red s flag, forall n, expected_coinbase_transaction cm daa_score gd rewards non_daa tiers ratios suspended mints n =
    (p ← serialize_coinbase_payload cm (mkCoinbaseData (blue_score gd) s n);
     Ok (mkCoinbaseTemplate (Transaction_new TX_VERSION [] (o1 ++ match red with Some v => [mkOutput v (md_spk n)] | None => [] end ++ o2) 0 SUBNETWORK_ID_COINBASE 0 p)
           flag (match red with Some _ => Some (length o1) | None => None end))).
Proof.
  unfold expected_coinbase_transaction. intros E.
  destruct (foldM (blue_reward _ _ _ _ _) _ _) as [[[outputs rd] burned]| | |]; cbn [mbind outcome_mbind] in E |- *; try done.
  destruct (foldM (red_reward _ _ _ _) _ _) as [[paid rburned]| | |]; cbn [mbind outcome_mbind] in E |- *; try done.
  cbn zeta in E |- *. set (o1 := push_output outputs rburned _) in *. clearbody o1. set (flag := (0 <? paid) || (0 <? rburned)). clearbody flag.
  destruct (calc_block_subsidy cm daa_score) as [s| | |] eqn:Es; cycle 1.
  1-3: exfalso; revert E; destruct (0 <? paid); [destruct (mul_ 64 paid _); cbn; try done; destruct (add_ 64 rd _); cbn; try done; destruct (sub_ 64 paid _); done|done].
  destruct (0 <? paid).
  - destruct (mul_ 64 paid _) as [x| | |]; cbn [mbind outcome_mbind] in E |- *; try done. destruct (div_ x _) as [cut| | |]; cbn [mbind outcome_mbind] in E |- *; try done.
    destruct (add_ 64 rd cut) as [rd'| | |]; cbn [mbind outcome_mbind] in E |- *; try done. destruct (sub_ 64 paid cut) as [v| | |]; cbn [mbind outcome_mbind] in E |- *; try done.
    destruct (push_output_app [] rd' (rd_allocation_script_public_key cm)) as (r2 & _ & E2), (push_output_app [] burned (cm_burn_script_public_key cm)) as (r3 & _ & E3).
    eexists o1, _, (Some v), s, _. intros n. rewrite E2, E3, <-!app_assoc. reflexivity.
  - cbn [mbind outcome_mbind] in E |- *.
    destruct (push_output_app [] rd (rd_allocation_script_public_key cm)) as (r2 & _ & E2), (push_output_app [] burned (cm_burn_script_public_key cm)) as (r3 & _ & E3).
    eexists o1, _, None, s, _. intros n. rewrite E2, E3, <-!app_assoc. reflexivity.
Qed.

(** C30: handing a block template to another miner.  Rewriting the payload and the
    tracked output of the coinbase that was built for one miner gives the
    outputs, the payload and so the hash of the coinbase that is expected for the
    other. *)
Theorem modified_coinbase_expected `{Hashers} cm daa_score gd rewards non_daa tiers ratios suspended mints m m' t :
  expected_coinbase_transaction cm daa_score gd rewards non_daa tiers ratios suspended mints m = Ok t ->
  zlen (spk_script (md_spk m')) <= cm_script_public_key_max_len cm ->
  exists t' tx, expected_coinbase_transaction cm daa_score gd rewards non_daa tiers ratios suspended mints m' = Ok t' /\
    modify_coinbase cm t m' = Ok tx /\ tx_outputs tx = tx_outputs (template_tx t') /\ payload tx = payload (template_tx t') /\
    tx_hash tx = tx_hash (template_tx t').
Proof.
  intros E Hm. destruct (expected_shape _ _ _ _ _ _ _ _ _ _ _ E) as (o1 & o2 & red & s & flag & Hshape). rewrite Hshape in E |- *.
  destruct (serialize_coinbase_payload cm _) as [p| | |] eqn:Ep; [|done..]. injection E as <-. destruct (serialize_modify cm _ p m' Ep Hm) as (p' & Ep1 & Ep2).
  cbn [cb_blue_score cb_subsidy] in Ep2. rewrite Ep2. unfold modify_coinbase. cbn [template_tx payload Transaction_new red_reward_output_index tx_outputs]. rewrite Ep1.
  cbn [mbind outcome_mbind]. destruct red as [v|]; [|by eexists _, _]. change ([mkOutput v (md_spk m)] ++ o2) with (mkOutput v (md_spk m) :: o2). rewrite list_lookup_middle by done. cbn [unwrap mbind outcome_mbind out_value].
  rewrite insert_app_r_alt, Nat.sub_diag by done. cbn [list_insert app insert]. by eexists _, _.
Qed.

(** ** Announcements *)

(** A sign is read as a part of a byte: a text that is not 64 hexadecimal
    characters announces a key too. *)
Lemma escrow_accepts_sign : parse_escrow_pubkey (ESCROW_MARKER ++ mjoin (replicate 32 (text "+7"))) = Some (replicate 32 7).
Proof. by vm_compute. Qed.

(** ** An example *)

Definition example_manager : CoinbaseManager := mkCoinbaseManager 150 204 0 0 10 [540000000] 1 (mkSpk 0 [1]) (mkSpk 0 [2]) NEVER.
Definition example_mergeset : GhostdagData := mkGhostdag 7 0 11 [11] [12] ∅.
Definition example_rewards : gmap Hash BlockRewardData :=
  <[11 := mkRewardData 1000 3 (mkSpk 0 [3]) None]> {[12 := mkRewardData 1000 5 (mkSpk 0 [4]) None]}.
Definition example_miner (b : Z) : MinerData := mkMinerData (mkSpk 0 [b]) [7].

Lemma coinbase_pays_rewards_witness :
  exists t, @expected_coinbase_transaction spell_hashers example_manager 5 example_mergeset example_rewards ∅ ∅ ∅ ∅ [] (example_miner 9) = Ok t /\
    Zsum (out_value <$> tx_outputs (template_tx t)) = granted example_mergeset example_rewards ∅ [] /\
    @validate_tx_in_isolation spell_crypto spell_map example_validator (template_tx t) = Ok ().
Proof.
  apply (@coinbase_pays_rewards spell_hashers spell_crypto spell_map example_validator example_manager 5 example_mergeset example_rewards ∅ ∅ ∅ ∅ [] (example_miner 9)).
  - by intros h b.
  - by intros h b.
  - by split.
  - by split.
  - constructor; [|by vm_compute..|constructor]. change (_ ++ _) with [11; 12]. repeat constructor; (eexists; split; [reflexivity|]); by split_and!.
  - by split_and!.
  - by split_and!.
  - by vm_compute.
  - by vm_compute.
  - by vm_compute.
  - by vm_compute.
Defined.

Definition example_reward (month : Z) : Z := if month <? 2 then 100 else 0.

Lemma block_subsidy_schedule_witness : exists cm,
  @CoinbaseManager_new spell_hashers Empty_set example_reward 3 150 204 0 0 7 NEVER = Ok cm /\ calc_block_subsidy (E := Empty_set) cm 18408601 = Ok 15.
Proof.
  apply (@block_subsidy_schedule spell_hashers Empty_set example_reward 2 3 150 204 0 0 7 NEVER 18408601); try lia; try done.
  - intros m. unfold example_reward. destruct (m <? 2); split; lia.
  - intros m Hm. unfold example_reward. destruct (Z.ltb_spec m 2); lia.
Defined.

Lemma coinbase_payload_round_trip_witness :
  deserialize_coinbase_payload example_manager (le_bytes 8 7 ++ le_bytes 8 9 ++ [0; 0; 1; 3; 7]) = Ok (mkCoinbaseData 7 9 (example_miner 3)).
Proof.
  apply (coinbase_payload_round_trip example_manager (le_bytes 8 7 ++ le_bytes 8 9 ++ [0; 0; 1; 3; 7]) (mkCoinbaseData 7 9 (example_miner 3))).
  - by vm_compute.
  - by repeat constructor.
  - by vm_compute.
Defined.

Definition example_template : CoinbaseTransactionTemplate :=
  match @expected_coinbase_transaction spell_hashers example_manager 5 example_mergeset example_rewards ∅ ∅ ∅ ∅ [] (example_miner 9) with
  | Ok t => t
  | _ => mkCoinbaseTemplate (mkTransaction 0 [] [] 0 [] 0 [] 0 0) false None
  end.

Lemma modified_coinbase_expected_witness : exists t' tx,
  @expected_coinbase_transaction spell_hashers example_manager 5 example_mergeset example_rewards ∅ ∅ ∅ ∅ [] (example_miner 8) = Ok t' /\
  modify_coinbase example_manager example_template (example_miner 8) = Ok tx /\ tx_outputs tx = tx_outputs (template_tx t') /\
  payload tx = payload (template_tx t') /\ @tx_hash spell_hashers tx = @tx_hash spell_hashers (template_tx t').
Proof.
  apply (@modified_coinbase_expected spell_hashers example_manager 5 example_mergeset example_rewards ∅ ∅ ∅ ∅ [] (example_miner 9) (example_miner 8) example_template).
  - by vm_compute.
  - by vm_compute.
Defined.
