(* ===== verification/UtxoState.v ===== *)
(** * The UTXO state of a block

    [calculate_utxo_state] of [virtual_processor/utxo_validation.rs]: the blocks
    of the mergeset, the selected parent first, are applied in consensus order to
    the UTXO view of the selected parent; the context collects the UTXO diff, the
    multiset hash, the accepted transactions and what the coinbase of the next
    block pays.  The commitments of the header are the first checks of
    [verify_expected_utxo_state].

    A view and the signature cache are read by all threads.  [orders] are the
    orders in which the inputs of a transaction are checked and [shape] the way
    in which the parallel reduction groups the transactions of a block.

    [calculate_utxo_state] applies the accepted transactions of the mergeset one
    after the other: the view under the diff it builds is the resulting set of
    coins, and the multiset hash it builds, in parallel and block by block, is
    the hash of that set. *)
From S2P Require Import Prelude Bytes Tx CoinAge Utxo Hashing Merkle Script ScriptSafe ScriptCache Slice Params Payloads TxValidate TxContext TxScripts TxSpend TxContextTheorems Math U3072 MuHash UtxoCommit GhostdagStore Coinbase.
From stdpp Require Import base list gmap.
#[local] Open Scope Z_scope.

(** ** The order of the mergeset *)

(** [merge_join_by] of itertools on two ascending lists; equal blocks panic. *)
Fixpoint merge_blocks {E} (l1 l2 : list SortableBlock) : outcome E (list SortableBlock) :=
  match l1 with
  | [] => Ok l2
  | a :: l1' =>
      (fix merge_right (l2 : list SortableBlock) : outcome E (list SortableBlock) :=
         match l2 with
         | [] => Ok l1
         | b :: l2' =>
             match sortable_cmp a b with
             | Lt => r ← merge_blocks l1' l2; Ok (a :: r)
             | Gt => r ← merge_right l2'; Ok (b :: r)
             | Eq => Panic
             end
         end) l2
  end.

Definition sortable {E} (blue_works : gmap Hash Z) (h : Hash) : outcome E SortableBlock :=
  w ← unwrap (blue_works !! h); Ok (mkSortable h w).

Definition ascending_mergeset_without_selected_parent {E} (blue_works : gmap Hash Z) (d : GhostdagData) : outcome E (list SortableBlock) :=
  blues ← mapM' (sortable blue_works) (drop 1 (mergeset_blues d));
  reds ← mapM' (sortable blue_works) (mergeset_reds d);
  merge_blocks blues reds.

Definition consensus_ordered_mergeset_without_selected_parent {E} (blue_works : gmap Hash Z) (d : GhostdagData) : outcome E (list Hash) :=
  l ← ascending_mergeset_without_selected_parent (E := E) blue_works d; Ok (map sb_hash l).

(** ** The context *)
Record AcceptedTxEntry := mkAccepted { at_transaction_id : TransactionId; index_within_block : Z }.
Record MergesetBlockAcceptanceData := mkAcceptance { ad_block_hash : Hash; accepted_transactions : list AcceptedTxEntry }.

Record UtxoProcessingContext := mkContext {
  multiset_hash : MuHash;
  mergeset_diff : UtxoDiff;
  accepted_tx_ids : list TransactionId;
  mergeset_acceptance_data : list MergesetBlockAcceptanceData;
  mergeset_rewards : gmap Hash BlockRewardData
}.

Definition UtxoProcessingContext_new (selected_parent_multiset_hash : MuHash) : UtxoProcessingContext :=
  mkContext selected_parent_multiset_hash UtxoDiff_default [] [] ∅.

(** [ValidatedTransaction::new_coinbase]. *)
Definition new_coinbase {E} (tx : Transaction) : outcome E PopulatedTransaction :=
  _ ← assert (is_coinbase tx); Ok (mkPopulated tx []).

Record AiResponseRecord := mkResponseRecord {
  inclusion_blue_score : Z;
  rec_coinbase_tx_id : TransactionId;
  rec_request_hash : list Z;
  claimed_commitment : list Z
}.

Section processor.
Context `{Hashers, Crypto, !IndexMap SigCacheKey bool, ChaCha20, Malachite}.

(** [blake2b_simd::blake2b]: a digest of 64 bytes. *)
Context (blake2b : list Z -> list Z).
Context (orders : nat -> list nat) (shape : list (PopulatedTransaction * Z * Z) -> reduction (PopulatedTransaction * Z * Z)).
Context (cm : CoinbaseManager).
Implicit Types vp : Processor.

(** ** Transactions of a block *)
Definition validate_transactions_with_muhash_in_parallel `{UtxoView V} vp (txs : list Transaction) (utxo_view : V) (pov_daa_score : Z)
    (flags : TxValidationFlags) : tx_result (list (PopulatedTransaction * Z * Z) * MuHash) :=
  validated ← validate_transactions_in_parallel orders vp txs utxo_view pov_daa_score flags;
  mh ← reduce (fun v => from_transaction v.1.1 pov_daa_score (coin_age_activation vp)) (shape validated);
  Ok (validated, mh).

(** [process_ai_txs_for_slash]: the responses of the block are registered; the
    last record of a payload wins. *)
Definition process_ai_txs_for_slash (ai_response_store : gmap (list Z) AiResponseRecord) (txs : list Transaction) (pov_daa_score : Z)
    (coinbase_tx_id : TransactionId) : gmap (list Z) AiResponseRecord :=
  foldl (fun store tx =>
    if is_ai_response tx then
      let '(request_hash, commitment) :=
        match response_deserialize (payload tx) with
        | Some resp => (request_hash resp, slice 2 34 (response_ipfs_cid resp))
        | None => (replicate 32 0, replicate 32 0)
        end in
      <[take 32 (blake2b (payload tx)) := mkResponseRecord pov_daa_score coinbase_tx_id request_hash commitment]> store
    else store) ai_response_store (drop 1 txs).

(** The loop over the validated transactions of a block: the diff, the ids and
    the fees. *)
Definition accept_transaction (pov_daa_score : Z) (coin_age_active : bool) (st : UtxoDiff * list TransactionId * Z)
    (v : PopulatedTransaction * Z * Z) : tx_result (UtxoDiff * list TransactionId * Z) :=
  let '(diff, ids, block_fee) := st in
  let '(validated_tx, fee, _) := v in
  diff ← unwrap_r (add_transaction diff validated_tx pov_daa_score coin_age_active);
  block_fee ← add_ 64 block_fee fee;
  Ok (diff, ids ++ [tx_id (ptx_tx validated_tx)], block_fee).

(** The body of the loop over the mergeset. *)
Definition merge_block `{UtxoView V} vp (selected_parent_utxo_view : V) (pov_daa_score : Z) (coin_age_active : bool)
    (validated_coinbase_id : TransactionId) (st : UtxoProcessingContext * gmap (list Z) AiResponseRecord)
    (b : nat * (Hash * list Transaction)) : tx_result (UtxoProcessingContext * gmap (list Z) AiResponseRecord) :=
  let '(ctx, store) := st in
  let '(i, (merged_block, txs)) := b in
  let composed_view := Utxo.compose selected_parent_utxo_view (mergeset_diff ctx) in
  let is_selected_parent := (i =? 0)%nat in
  let validation_flags := if is_selected_parent then SkipScriptChecks else Full in
  '(validated, inner_multiset) ← validate_transactions_with_muhash_in_parallel vp txs composed_view pov_daa_score validation_flags;
  multiset ← MuHash_combine (multiset_hash ctx) inner_multiset;
  '(diff, ids, block_fee) ← foldM (accept_transaction pov_daa_score coin_age_active) (mergeset_diff ctx, accepted_tx_ids ctx, 0) validated;
  let acceptance := mkAcceptance merged_block
    ((if is_selected_parent then [mkAccepted validated_coinbase_id 0] else []) ++
     ((fun v => mkAccepted (tx_id (ptx_tx v.1.1)) v.2) <$> validated)) in
  coinbase ← unwrap (head txs);
  coinbase_data ← unwrap_r (deserialize_coinbase_payload cm (payload coinbase));
  let escrow := parse_escrow_from_extra_data cm (extra_data (miner_data coinbase_data)) pov_daa_score in
  let reward := mkRewardData (cb_subsidy coinbase_data) block_fee (md_spk (miner_data coinbase_data)) escrow in
  Ok (mkContext multiset diff ids (mergeset_acceptance_data ctx ++ [acceptance]) (<[merged_block := reward]> (mergeset_rewards ctx)),
      process_ai_txs_for_slash store txs pov_daa_score (tx_id coinbase)).

(** The coinbase of the selected parent, before the loop. *)
Definition accept_coinbase vp (ctx : UtxoProcessingContext) (pov_daa_score : Z) (selected_parent_transactions : list Transaction)
    : tx_result (UtxoProcessingContext * TransactionId) :=
  tx ← unwrap (head selected_parent_transactions);
  validated_coinbase ← new_coinbase tx;
  diff ← unwrap_r (add_transaction (mergeset_diff ctx) validated_coinbase pov_daa_score (is_active (coin_age_activation vp) pov_daa_score));
  multiset ← mu_add_transaction (multiset_hash ctx) validated_coinbase pov_daa_score (coin_age_activation vp);
  Ok (mkContext multiset diff (accepted_tx_ids ctx ++ [tx_id tx]) (mergeset_acceptance_data ctx) (mergeset_rewards ctx), tx_id tx).

(** The whole handler; [transactions] is the block-transactions store. *)
Definition calculate_utxo_state `{UtxoView V} vp (blue_works : gmap Hash Z) (transactions : gmap Hash (list Transaction))
    (gd : GhostdagData) (st : UtxoProcessingContext * gmap (list Z) AiResponseRecord) (selected_parent_utxo_view : V) (pov_daa_score : Z)
    : tx_result (UtxoProcessingContext * gmap (list Z) AiResponseRecord) :=
  let '(ctx, store) := st in
  sp_transactions ← unwrap (transactions !! selected_parent gd);
  '(ctx, coinbase_id) ← accept_coinbase vp ctx pov_daa_score sp_transactions;
  mergeset ← consensus_ordered_mergeset_without_selected_parent blue_works gd;
  others ← mapM' (fun b => txs ← unwrap (transactions !! b); Ok (b, txs)) mergeset;
  foldM (merge_block vp selected_parent_utxo_view pov_daa_score (is_active (coin_age_activation vp) pov_daa_score) coinbase_id)
    (ctx, store) (imap pair ((selected_parent gd, sp_transactions) :: others)).
End processor.

(** ** The header's commitments *)
Inductive CommitmentError := BadUTXOCommitment (header expected : Hash) | BadAcceptedIDMerkleRoot (header expected : Hash).

(** The first two checks of [verify_expected_utxo_state]; [parent_root] is the
    accepted-id root of the selected parent's header. *)
Definition verify_commitments `{Hashers, Malachite} (ctx : UtxoProcessingContext) (utxo_commitment accepted_id_merkle_root parent_root : Hash)
    : outcome CommitmentError UtxoProcessingContext :=
  '(expected_commitment, multiset) ← MuHash_finalize (multiset_hash ctx);
  let ctx := mkContext multiset (mergeset_diff ctx) (accepted_tx_ids ctx) (mergeset_acceptance_data ctx) (mergeset_rewards ctx) in
  if negb (expected_commitment =? utxo_commitment) then Err (BadUTXOCommitment utxo_commitment expected_commitment)
  else
    expected_root ← calc_accepted_id_merkle_root (accepted_tx_ids ctx) parent_root;
    if negb (expected_root =? accepted_id_merkle_root) then Err (BadAcceptedIDMerkleRoot accepted_id_merkle_root expected_root)
    else Ok ctx.

(** ** Transactions in turn *)
Section steps.
Context `{Hashers, ChaCha20, Malachite} (act : ForkActivation) (daa : Z).
Let active := is_active act daa.

(** The set after a list of transactions. *)
Inductive steps : UtxoCollection -> list PopulatedTransaction -> UtxoCollection -> Prop :=
  | steps_nil S : steps S [] S
  | steps_cons S p S' ps S'' : (forall o, S' !! o = apply_tx S p daa active o) -> steps S' ps S'' -> steps S (p :: ps) S''.

Lemma steps_app S l S' r S'' : steps S l S' -> steps S' r S'' -> steps S (l ++ r) S''.
Proof. induction 1; [done|]. intros Hr. econstructor; [done|]. auto. Qed.

(** A transaction that can be applied to [S]: its inputs are coins of [S], its
    outputs are new, its numbers fit, and the elements of its outputs have
    inverses. *)
Record applicable (S : UtxoCollection) (p : PopulatedTransaction) : Prop := {
  ap_fits : tx_fits S p;
  ap_fresh : fresh_id S p;
  ap_aged : active = true -> aged_tx_ok p /\ in_u 64 daa;
  ap_units : forall o e, created p daa active o = Some e -> unit_data (coin act (o, e));
}.

(** Transactions that do not interfere. *)
Record independent (S : UtxoCollection) (ps : list PopulatedTransaction) : Prop := {
  in_applicable : Forall (applicable S) ps;
  in_inputs : NoDup (ps ≫= spent);
  in_ids : NoDup ((fun p => tx_id (ptx_tx p)) <$> ps);
}.

Lemma created_id p a o e : created p daa a o = Some e -> transaction_id o = tx_id (ptx_tx p).
Proof. unfold created. case_bool_decide as Hd; [|done]. by destruct Hd. Qed.

Lemma apply_tx_other S p q o e : applicable S p -> S !! o = Some e -> o ∉ spent p -> apply_tx S p daa q o = Some e.
Proof.
  intros Hp Ho Hs. unfold apply_tx. destruct (created p daa q o) as [e'|] eqn:Ec.
  - apply created_id in Ec. pose proof (ap_fresh _ _ Hp o Ec) as Hn. unfold get, UtxoCollection_view in Hn. congruence.
  - by rewrite bool_decide_false.
Qed.

Lemma spent_entry S q input e : tx_fits S q -> forall i, tx_inputs (ptx_tx q) !! i = Some input -> entries q !! i = Some e ->
  S !! previous_outpoint input = Some e.
Proof. intros Hf i. apply (fits_populated _ _ Hf). Qed.

(** One step leaves the other transactions applicable. *)
Lemma applicable_step S S' p q :
  applicable S p -> applicable S q -> (forall o, S' !! o = apply_tx S p daa active o) ->
  (forall o, o ∈ spent q -> o ∉ spent p) -> tx_id (ptx_tx p) <> tx_id (ptx_tx q) -> applicable S' q.
Proof.
  intros Hp [[Hlen Hpop Hnd Houts] Hfresh Haged Hunits] HS' Hdis Hid. split; [|..|done|done].
  - split; [done| |done|done]. intros i input e Hi He. unfold get, UtxoCollection_view. rewrite HS'.
    eapply apply_tx_other; [done|by eapply Hpop|]. apply Hdis. apply list_elem_of_fmap. exists input. split; [done|]. by eapply list_elem_of_lookup_2.
  - intros o Ho. unfold get, UtxoCollection_view. rewrite HS'. unfold apply_tx. destruct (created p daa active o) eqn:Ec.
    + apply created_id in Ec. congruence.
    + case_bool_decide; [done|]. by apply Hfresh.
Qed.

Lemma independent_tail S S' p ps : independent S (p :: ps) -> (forall o, S' !! o = apply_tx S p daa active o) -> independent S' ps.
Proof.
  intros [Hap Hin Hid] HS'. apply Forall_cons in Hap as [Hp Hps]. cbn in Hin, Hid. apply NoDup_app in Hin as (_ & Hdis & Hin).
  apply NoDup_cons in Hid as [Hp' Hid]. split; [|done|done]. apply Forall_forall. intros q Hq. eapply applicable_step; [done| |done| |].
  - by eapply Forall_forall in Hps.
  - intros o Ho Hop. apply (Hdis o Hop), list_elem_of_bind. eauto.
  - intros E0. apply Hp'. rewrite E0. by apply (list_elem_of_fmap_2 (fun p => tx_id (ptx_tx p))).
Qed.

Lemma independent_app S l r S' : independent S (l ++ r) -> steps S l S' -> independent S' r.
Proof.
  intros Hi Hs. revert Hi. induction Hs as [S|S p S1 ps S2 HS1 Hs IH]; intros Hi; [done|]. apply IH. by eapply independent_tail.
Qed.

Lemma independent_prefix S l r : independent S (l ++ r) -> independent S l.
Proof.
  intros [Hap Hin Hid]. apply Forall_app in Hap as [? _]. rewrite bind_app in Hin. apply NoDup_app in Hin as (? & _).
  rewrite fmap_app in Hid. apply NoDup_app in Hid as (? & _). by split.
Qed.

(** The parallel reduction over the transactions of a block. *)
Lemma reduce_steps {E A} (tx_of : A -> PopulatedTransaction) t S :
  Forall unit_data (coins act S) -> independent S (tx_of <$> reduced t) ->
  exists m S', reduce (E := E) (fun v => from_transaction (tx_of v) daa act) t = Ok m /\ moves act m S S' /\ steps S (tx_of <$> reduced t) S'.
Proof.
  revert S. induction t as [|v|l IHl r IHr]; intros S HS Hi; cbn [reduce reduced] in *.
  - exists MuHash_new, S. split; [done|]. split; [by apply moves_new|constructor].
  - destruct Hi as [Hap _ _]. apply Forall_cons in Hap as [[Hf Hfr Hag Hu] _].
    destruct (mu_add_transaction_ok act (E := E) MuHash_new S S (tx_of v) daa) as (m & S' & Hm & Hmv & HS'); [by apply moves_new|done..|].
    exists m, S'. split; [done|]. split; [done|]. cbn. econstructor; [done|constructor].
  - rewrite fmap_app in *. destruct (IHl S HS (independent_prefix _ _ _ Hi)) as (ml & S1 & -> & Hml & Hsl). cbn [mbind outcome_mbind].
    destruct (IHr S1 (moves_units _ _ _ _ Hml) (independent_app _ _ _ _ Hi Hsl)) as (mr & S2 & -> & Hmr & Hsr). cbn [mbind outcome_mbind].
    destruct (moves_combine act (E := E) ml mr S S1 S2 Hml Hmr) as (m & -> & Hm). exists m, S2. split; [done|]. split; [done|]. by eapply steps_app.
Qed.

(** ** Diffs *)

(** The view under [d] is the set [S]. *)
Definition represents (base : UtxoCollection) (d : UtxoDiff) (S : UtxoCollection) : Prop :=
  valid_diff base d /\ forall o, get (Utxo.compose base d) o = S !! o.

Lemma add_transaction_represents base d S S' p :
  represents base d S -> applicable S p -> fresh_id base p -> (forall o, S' !! o = apply_tx S p daa active o) ->
  exists d', add_transaction d p daa active = Ok d' /\ represents base d' S'.
Proof.
  intros [Hv Hg] [[Hlen Hpop Hnd Houts] Hfr Hag _] Hfb HS'.
  destruct (add_transaction_ok base d p daa active) as (d' & Hd & Hv' & Hg'); [done| |done| |done|].
  - split; [done| |done|done]. intros i input e Hi He. rewrite Hg. by eapply Hpop.
  - intros o Ho. rewrite Hg. by apply Hfr.
  - exists d'. split; [done|]. split; [done|]. intros o. rewrite Hg', HS'. unfold apply_tx. rewrite Hg. done.
Qed.
End steps.

(** ** Sublists *)
Lemma sublist_bind {A B} (f : A -> list B) l l' : l `sublist_of` l' -> l ≫= f `sublist_of` l' ≫= f.
Proof.
  induction 1; cbn.
  - constructor.
  - by apply sublist_app.
  - by apply sublist_inserts_l.
Qed.

Lemma sublist_map {A B} (f : A -> B) l l' : l `sublist_of` l' -> f <$> l `sublist_of` f <$> l'.
Proof. induction 1; cbn; by constructor. Qed.

Lemma omap_sublist {A B C} (R : A -> option B -> Prop) (f : A -> C) (g : B -> C) l rs :
  (forall a b, R a (Some b) -> g b = f a) -> Forall2 R l rs -> g <$> omap (M := list) id rs `sublist_of` f <$> l.
Proof.
  intros Hfg. induction 1 as [|a r l rs Hr _ IH]; [constructor|]. destruct r as [b|]; cbn.
  - rewrite (Hfg a b Hr). by constructor.
  - by constructor.
Qed.

Lemma imap_pair_snd {A} (l : list A) : snd <$> imap pair l = l.
Proof. apply list_eq. intros k. rewrite list_lookup_fmap, list_lookup_imap. by destruct (l !! k). Qed.

(** ** A merged block *)
Section block.
Context `{Hashers, Crypto, !IndexMap SigCacheKey bool, ChaCha20, Malachite}.
Context (Sha256_bytes : forall l, bytes (Sha256 l)) (Blake2b_bytes : forall l, bytes (Blake2b l)).
Context (blake2b : list Z -> list Z) (orders : nat -> list nat).
Context (shape : list (PopulatedTransaction * Z * Z) -> reduction (PopulatedTransaction * Z * Z)) (shape_ok : forall l, reduced (shape l) = l).
Context (cm : CoinbaseManager) (vp : Processor) (base : UtxoCollection) (pov : Z).
Let act := coin_age_activation vp.
Let active := is_active act pov.

Definition vtx (v : PopulatedTransaction * Z * Z) : PopulatedTransaction := v.1.1.
Definition block_flags (i : nat) : TxValidationFlags := if (i =? 0)%nat then SkipScriptChecks else Full.

(** What the model of a block's validation needs, and what the validation of
    its body gives: no two transactions spend the same coin or have the same
    id; the accepted ones spend coins of the view as they are (no historical
    override of the age), and create new ones. *)
Record block_ok (i : nat) (d : UtxoDiff) (txs : list Transaction) : Prop := {
  bk_sizes : Forall (sizes_ok vp (Utxo.compose base d) pov (block_flags i)) txs;
  bk_orders : forall k tx, txs !! k = Some tx -> orders k ≡ₚ seq 0 (length (tx_inputs tx));
  bk_inputs : NoDup (drop 1 txs ≫= fun tx => previous_outpoint <$> tx_inputs tx);
  bk_ids : NoDup (tx_id <$> drop 1 txs);
  bk_txs : forall tx es, tx ∈ drop 1 txs -> spends (Utxo.compose base d) tx es ->
    accepted vp (Utxo.compose base d) pov (block_flags i) tx ->
    Forall2 (fun input e => get (Utxo.compose base d) (previous_outpoint input) = Some e) (tx_inputs tx) es /\
    fresh_id base (mkPopulated tx es) /\ fresh_id (Utxo.compose base d) (mkPopulated tx es) /\
    Z.of_nat (length (tx_outputs tx)) < 2 ^ 32 /\
    (active = true -> aged_tx_ok (mkPopulated tx es) /\ in_u 64 pov) /\
    (forall o e, created (mkPopulated tx es) pov active o = Some e -> unit_data (coin act (o, e)));
  bk_fees : forall vs, validate_transactions_in_parallel orders vp txs (Utxo.compose base d) pov (block_flags i) = Ok vs ->
    Zsum ((fun v => v.1.2) <$> vs) < 2 ^ 64;
  bk_coinbase : exists coinbase data, head txs = Some coinbase /\ deserialize_coinbase_payload cm (payload coinbase) = Ok data;
}.

Lemma accepted_applicable i d txs S tx es : block_ok i d txs -> represents base d S -> tx ∈ drop 1 txs -> spends (Utxo.compose base d) tx es ->
  accepted vp (Utxo.compose base d) pov (block_flags i) tx -> applicable act pov S (mkPopulated tx es) /\ fresh_id base (mkPopulated tx es).
Proof.
  intros Hbk [Hv Hg] Htx Hsp Hacc. destruct (bk_txs _ _ _ Hbk tx es Htx Hsp Hacc) as (Hes & Hfb & Hf & Houts & Haged & Hun). split; [|done].
  assert (NoDup (spent (mkPopulated tx es))) as Hnd.
  { apply list_elem_of_lookup in Htx as [k Hk]. pose proof (bk_inputs _ _ _ Hbk) as Hall.
    rewrite <-(take_drop_middle _ _ _ Hk), bind_app in Hall. apply NoDup_app in Hall as (_ & _ & Hall). cbn in Hall. by apply NoDup_app in Hall as (? & _). }
  split; [|..|done|done].
  - split; [by eapply Forall2_length| |done|done]. intros k input e Hi He. unfold get, UtxoCollection_view. rewrite <-Hg.
    exact (Forall2_lookup_lr _ _ _ _ _ _ Hes Hi He).
  - intros o Ho. unfold get, UtxoCollection_view. rewrite <-Hg. by apply Hf.
Qed.

(** The transactions that pass are independent. *)
Lemma validated_independent i d txs S : block_ok i d txs -> represents base d S -> cache_ok (tv_sig_cache (transaction_validator vp)) ->
  exists vs, validate_transactions_in_parallel orders vp txs (Utxo.compose base d) pov (block_flags i) = Ok vs /\
    independent act pov S (vtx <$> vs) /\ Forall (fresh_id base) (vtx <$> vs) /\ Forall (fun v => 0 <= v.1.2) vs /\
    (fun v => ptx_tx (vtx v)) <$> vs `sublist_of` drop 1 txs.
Proof using Sha256_bytes Blake2b_bytes.
  intros Hbk Hrep Hc.
  destruct (indexed_loop Sha256_bytes Blake2b_bytes orders vp (Utxo.compose base d) pov (block_flags i) (drop 1 (imap pair txs)) Hc) as (rs & Ers & Hrs).
  { apply Forall_forall. intros [k tx] [_ Hk]%elem_of_indexed. split; [by eapply (Forall_lookup_1 _ _ _ _ (bk_sizes _ _ _ Hbk))|by eapply bk_orders]. }
  exists (omap (M := list) id rs). unfold validate_transactions_in_parallel. rewrite Ers. split; [done|].
  assert ((fun v => ptx_tx (vtx v)) <$> omap (M := list) id rs `sublist_of` drop 1 txs) as Hsub.
  { replace (drop 1 txs) with (snd <$> drop 1 (imap pair txs)) by (by rewrite fmap_drop, imap_pair_snd).
    eapply omap_sublist; [|exact Hrs]. intros [k tx] [[ptx fee] index] (_ & Htx & _). exact Htx. }
  assert (Forall (fun v => applicable act pov S (vtx v) /\ fresh_id base (vtx v) /\ 0 <= v.1.2) (omap (M := list) id rs)) as Hall.
  { apply Forall_forall. intros [[ptx fee] index] Hv.
    assert (ptx_tx ptx ∈ drop 1 txs) as Hin.
    { eapply elem_of_sublist; [|exact Hsub]. by apply (list_elem_of_fmap_2 (fun v => ptx_tx (vtx v))) in Hv. }
    apply list_elem_of_omap in Hv as (r & Hr & Er). cbn in Er. subst r. apply list_elem_of_lookup in Hr as [k Hk].
    destruct (Forall2_lookup_r _ _ _ _ _ Hrs Hk) as ([k' tx'] & _ & (_ & Etx & Hacc & Hsp & ->)). cbn [vtx fst snd].
    destruct ptx as [tx es]. cbn [ptx_tx entries fst snd] in *. subst tx'. destruct (accepted_applicable i d txs S tx es) as [Ha Hf]; [done..|].
    split; [done|]. split; [done|]. destruct Hacc as (_ & es' & Hsp' & Hspend). rewrite (spends_unique _ _ _ _ Hsp Hsp').
    pose proof (sp_balance _ _ _ _ _ Hspend). lia. }
  rewrite !Forall_and in Hall. destruct Hall as (Hap & Hf & Hfee). split; [|split_and!; [by apply Forall_fmap|done|done]].
  split; [by apply Forall_fmap| |].
  - rewrite list_fmap_bind. eapply sublist_NoDup; [exact (bk_inputs _ _ _ Hbk)|].
    apply (sublist_bind (fun tx => previous_outpoint <$> tx_inputs tx)) in Hsub. rewrite list_fmap_bind in Hsub. exact Hsub.
  - rewrite <-list_fmap_compose. eapply sublist_NoDup; [exact (bk_ids _ _ _ Hbk)|].
    apply (sublist_map tx_id) in Hsub. rewrite <-list_fmap_compose in Hsub. exact Hsub.
Qed.

(** The loop over the validated transactions. *)
Lemma accept_loop vs d S S' ids fee : represents base d S -> independent act pov S (vtx <$> vs) -> steps act pov S (vtx <$> vs) S' ->
  Forall (fresh_id base) (vtx <$> vs) -> Forall (fun v => 0 <= v.1.2) vs -> 0 <= fee -> fee + Zsum ((fun v => v.1.2) <$> vs) < 2 ^ 64 ->
  exists d', foldM (accept_transaction pov active) (d, ids, fee) vs =
      Ok (d', ids ++ ((fun v => tx_id (ptx_tx (vtx v))) <$> vs), fee + Zsum ((fun v => v.1.2) <$> vs)) /\ represents base d' S'.
Proof using.
  revert d S ids fee. induction vs as [|[[p f] k] vs IH]; intros d S ids fee Hrep Hi Hs Hfr Hf Hfee Hsum; cbn [fmap list_fmap vtx fst snd] in *.
  - inversion Hs; subst. exists d. cbn [foldM]. rewrite app_nil_r, Zsum_nil, Z.add_0_r. done.
  - inversion Hs as [|? ? S1 ? ? HS1 Hs1]; subst. apply Forall_cons in Hfr as [Hfp Hfr], Hf as [Hf0 Hf].
    cbn [fst snd] in Hf0. rewrite Zsum_cons in Hsum.
    assert (0 <= Zsum ((fun v => v.1.2) <$> vs)) as Hpos by (apply Zsum_nonneg, Forall_fmap; exact Hf).
    pose proof (in_applicable _ _ _ _ Hi) as Hap. apply Forall_cons in Hap as [Hp _].
    destruct (add_transaction_represents act pov base d S S1 p) as (d1 & E1 & Hrep1); [done..|].
    cbn [foldM accept_transaction]. fold active in E1. rewrite E1. cbn [unwrap_r mbind outcome_mbind].
    rewrite add_ok by (unfold in_u; lia). cbn [mbind outcome_mbind].
    destruct (IH d1 S1 (ids ++ [tx_id (ptx_tx p)]) (fee + f)) as (d2 & E2 & Hrep2); [done|by eapply independent_tail|done..|lia|lia|].
    exists d2. split; [|done]. rewrite E2. f_equal. f_equal; [|rewrite Zsum_cons; cbn; lia]. f_equal. by rewrite <-app_assoc.
Qed.

(** The state of the loop over the mergeset. *)
Definition state_ok (ctx : UtxoProcessingContext) : Prop :=
  exists S, represents base (mergeset_diff ctx) S /\ commits act (multiset_hash ctx) S /\ Forall unit_data (coins act S).

Definition accepted_ids (ad : list MergesetBlockAcceptanceData) : list TransactionId :=
  ad ≫= fun a => at_transaction_id <$> accepted_transactions a.

Lemma merge_block_ok coinbase_id ctx store i block txs : state_ok ctx -> block_ok i (mergeset_diff ctx) txs ->
  cache_ok (tv_sig_cache (transaction_validator vp)) ->
  exists ctx' store' ids, merge_block blake2b orders shape cm vp base pov active coinbase_id (ctx, store) (i, (block, txs)) = Ok (ctx', store') /\
    state_ok ctx' /\ accepted_tx_ids ctx' = accepted_tx_ids ctx ++ ids /\ ids `sublist_of` tx_id <$> drop 1 txs /\
    accepted_ids (mergeset_acceptance_data ctx') =
      accepted_ids (mergeset_acceptance_data ctx) ++ (if (i =? 0)%nat then [coinbase_id] else []) ++ ids /\
    dom (mergeset_rewards ctx') = {[block]} ∪ dom (mergeset_rewards ctx).
Proof using Sha256_bytes Blake2b_bytes shape_ok.
  intros (S & Hrep & HC & HS) Hbk Hc. destruct (validated_independent i _ txs S Hbk Hrep Hc) as (vs & Evs & Hi & Hfr & Hfees & Hsub).
  assert (independent act pov S (vtx <$> reduced (shape vs))) as Hi' by (by rewrite shape_ok).
  destruct (reduce_steps act pov (E := TxRuleError) vtx (shape vs) S HS Hi') as (mh & S' & Emh & Hmv & Hst). rewrite shape_ok in Hst.
  destruct (moves_combine act (E := TxRuleError) _ _ _ _ _ HC Hmv) as (m & Em & HC').
  destruct (accept_loop vs (mergeset_diff ctx) S S' (accepted_tx_ids ctx) 0) as (d' & Ed & Hrep'); [done..|rewrite Z.add_0_l; by eapply bk_fees|].
  destruct (bk_coinbase _ _ _ Hbk) as (cb & data & Ecb & Edata).
  unfold merge_block, validate_transactions_with_muhash_in_parallel. fold (block_flags i). rewrite Evs. cbn [mbind outcome_mbind].
  assert (reduce (fun v => from_transaction v.1.1 pov (coin_age_activation vp)) (shape vs) = Ok (E := TxRuleError) mh) as -> by exact Emh.
  cbn [mbind outcome_mbind]. rewrite Em. cbn [mbind outcome_mbind]. rewrite Ed. cbn [mbind outcome_mbind]. rewrite Ecb. cbn [unwrap mbind outcome_mbind].
  rewrite Edata. cbn [unwrap_r mbind outcome_mbind].
  eexists _, _, ((fun v => tx_id (ptx_tx (vtx v))) <$> vs). split; [reflexivity|].
  cbn [multiset_hash mergeset_diff accepted_tx_ids mergeset_acceptance_data mergeset_rewards]. split; [|split; [done|split; [|split]]].
  - exists S'. split; [done|]. split; [done|]. by eapply moves_units.
  - apply (sublist_map tx_id) in Hsub. by rewrite <-list_fmap_compose in Hsub.
  - unfold accepted_ids. rewrite bind_app. f_equal. cbn. rewrite app_nil_r, fmap_app, <-list_fmap_compose. f_equal. by destruct (i =? 0)%nat.
  - by rewrite dom_insert_L.
Qed.

(** ** The mergeset *)
Section mergeset.
Context (m0 : MuHash) (store : gmap (list Z) AiResponseRecord) (gd : GhostdagData).
Context (coinbase : Transaction) (sp_txs : list Transaction) (others : list (Hash * list Transaction)).
Let merge := merge_block blake2b orders shape cm vp base pov active (tx_id coinbase).
Let blocks := imap pair ((selected_parent gd, coinbase :: sp_txs) :: others).

Lemma accept_coinbase_ok : commits act m0 base -> is_coinbase coinbase = true -> applicable act pov base (mkPopulated coinbase []) ->
  exists ctx, accept_coinbase vp (UtxoProcessingContext_new m0) pov (coinbase :: sp_txs) = Ok (ctx, tx_id coinbase) /\
    state_ok ctx /\ accepted_tx_ids ctx = [tx_id coinbase] /\ mergeset_acceptance_data ctx = [] /\ mergeset_rewards ctx = ∅.
Proof using.
  intros HC Hcb Hap. unfold accept_coinbase, new_coinbase. cbn [head unwrap mbind outcome_mbind]. rewrite Hcb. cbn [assert mbind outcome_mbind].
  pose proof Hap as [Hf Hfr Hag Hu].
  destruct (mu_add_transaction_ok act (E := TxRuleError) m0 ∅ base (mkPopulated coinbase []) pov) as (m & S & Em & HC' & HS); [done..|].
  assert (represents base UtxoDiff_default base) as Hrep.
  { split; [intros o; cbn; by split|]. intros o. by rewrite get_compose. }
  destruct (add_transaction_represents act pov base UtxoDiff_default base S (mkPopulated coinbase [])) as (d & Ed & Hrepd); [done|done|done|done|].
  cbn [UtxoProcessingContext_new mergeset_diff multiset_hash accepted_tx_ids mergeset_acceptance_data mergeset_rewards].
  assert (add_transaction UtxoDiff_default (mkPopulated coinbase []) pov (is_active (coin_age_activation vp) pov) = Ok d) as -> by exact Ed.
  cbn [unwrap_r mbind outcome_mbind].
  assert (mu_add_transaction m0 (mkPopulated coinbase []) pov (coin_age_activation vp) = Ok (E := TxRuleError) m) as -> by exact Em.
  cbn [mbind outcome_mbind]. eexists. split; [done|]. split; [|done]. exists S. split; [done|]. split; [done|]. by eapply moves_units.
Qed.

Lemma accept_coinbase_diff ctx ctx' id : accept_coinbase vp ctx pov (coinbase :: sp_txs) = Ok (ctx', id) ->
  add_transaction (mergeset_diff ctx) (mkPopulated coinbase []) pov active = Ok (mergeset_diff ctx').
Proof using.
  unfold accept_coinbase, new_coinbase, active, act. cbn [head unwrap mbind outcome_mbind]. destruct (is_coinbase coinbase); [|done].
  cbn [assert mbind outcome_mbind]. destruct (add_transaction _ _ _ _); cbn [unwrap_r mbind outcome_mbind]; [|done..].
  destruct (mu_add_transaction _ _ _ _); cbn [mbind outcome_mbind]; [|done..]. by intros [= <- <-].
Qed.

Lemma merge_loop st0 : state_ok st0.1 -> accepted_tx_ids st0.1 = [tx_id coinbase] -> mergeset_acceptance_data st0.1 = [] ->
  mergeset_rewards st0.1 = ∅ -> cache_ok (tv_sig_cache (transaction_validator vp)) ->
  (forall pre i b txs post ctx st, blocks = pre ++ (i, (b, txs)) :: post -> foldM merge st0 pre = Ok (ctx, st) -> block_ok i (mergeset_diff ctx) txs) ->
  exists ctx st, foldM merge st0 blocks = Ok (ctx, st) /\ state_ok ctx /\
    accepted_tx_ids ctx = accepted_ids (mergeset_acceptance_data ctx) /\
    dom (mergeset_rewards ctx) = list_to_set ((fun b => b.2.1) <$> blocks).
Proof using Sha256_bytes Blake2b_bytes shape_ok.
  intros Hst0 Hids0 Had0 Hrw0 Hc Hblocks.
  edestruct (foldM_total merge (fun pre st => foldM merge st0 pre = Ok st /\ state_ok st.1 /\
      accepted_tx_ids st.1 = (match pre with [] => [tx_id coinbase] | _ => [] end) ++ accepted_ids (mergeset_acceptance_data st.1) /\
      dom (mergeset_rewards st.1) = list_to_set ((fun b => b.2.1) <$> pre)) st0 blocks) as ([ctx st] & HF & _ & Hst & Hids & Hrw).
  - split; [done|]. split; [done|]. rewrite Hids0, Had0, Hrw0. split; [done|]. by rewrite dom_empty_L.
  - intros pre [i [b txs]] post [ctx st] Heq (HFp & Hst & Hids & Hrw). cbn [fst] in *.
    assert (i = length pre) as ->.
    { assert (blocks !! length pre = Some (i, (b, txs))) as Hl by (rewrite Heq; by apply list_lookup_middle).
      unfold blocks in Hl. rewrite list_lookup_imap in Hl. destruct (_ !! length pre); [|done]. cbn in Hl. by injection Hl. }
    destruct (merge_block_ok (tx_id coinbase) ctx st (length pre) b txs) as (ctx' & st' & ids & E1 & Hst' & Hids' & _ & Had' & Hrw');
      [done|by eapply Hblocks|done|].
    exists (ctx', st'). split; [exact E1|]. split; [rewrite foldM_app, HFp; cbn [mbind outcome_mbind foldM]; unfold merge; rewrite E1; done|].
    split; [done|]. cbn [fst]. rewrite Hids', Had', Hids, Hrw', Hrw. split; [|rewrite fmap_app, list_to_set_app_L; cbn; set_solver].
    destruct pre as [|x pre]; cbn [length Nat.eqb app]; [|done].
    cbn [foldM] in HFp. injection HFp as ->. cbn [fst] in Had0. by rewrite Had0.
  - exists ctx, st. split; [exact HF|]. split; [done|]. cbn [fst] in *. rewrite Hids. split; [|done]. done.
Qed.
End mergeset.

(** C4: the UTXO state of a block and its commitment.  Let the multiset hash of
    the selected parent be that of its UTXO set [base], and let every block of
    the mergeset be valid where it is merged (its transactions do not interfere
    and create new coins).  Then [calculate_utxo_state] does not panic, whatever
    the scheduling of its parallel loops; the diff fits [base] and leads to a
    set of coins [S]; and the multiset hash, built from the transactions of
    each block in parallel, finalizes to the hash of [S] computed from scratch by
    a peer that receives [S] in chunks in any order.  The ids for the accepted-id
    root are those of the acceptance data, and every block of the mergeset has
    its reward. *)
Theorem calculate_utxo_state_commits m0 store gd coinbase sp_txs blue_works transactions order others :
  commits act m0 base -> is_coinbase coinbase = true -> applicable act pov base (mkPopulated coinbase []) ->
  cache_ok (tv_sig_cache (transaction_validator vp)) ->
  transactions !! selected_parent gd = Some (coinbase :: sp_txs) ->
  consensus_ordered_mergeset_without_selected_parent (E := TxRuleError) blue_works gd = Ok order ->
  mapM' (fun b => txs ← unwrap (transactions !! b); Ok (b, txs)) order = Ok (E := TxRuleError) others ->
  (forall ctx0, accept_coinbase vp (UtxoProcessingContext_new m0) pov (coinbase :: sp_txs) = Ok (ctx0, tx_id coinbase) ->
   forall pre i b txs post ctx st,
     imap pair ((selected_parent gd, coinbase :: sp_txs) :: others) = pre ++ (i, (b, txs)) :: post ->
     foldM (merge_block blake2b orders shape cm vp base pov active (tx_id coinbase)) (ctx0, store) pre = Ok (ctx, st) ->
     block_ok i (mergeset_diff ctx) txs) ->
  exists ctx st S,
    calculate_utxo_state blake2b orders shape cm vp blue_works transactions gd (UtxoProcessingContext_new m0, store) base pov = Ok (ctx, st) /\
    represents base (mergeset_diff ctx) S /\
    accepted_tx_ids ctx = accepted_ids (mergeset_acceptance_data ctx) /\
    dom (mergeset_rewards ctx) = list_to_set (selected_parent gd :: others.*1) /\
    forall ts, ts ≫= reduced ≡ₚ map_to_list S ->
      exists h m mi, MuHash_finalize (E := TxRuleError) (multiset_hash ctx) = Ok (h, m) /\
        foldM (append_imported_pruning_point_utxos (E := TxRuleError) act) (∅, MuHash_new) ts = Ok (S, mi) /\
        MuHash_finalize (E := TxRuleError) mi = Ok (h, m).
Proof using Sha256_bytes Blake2b_bytes shape_ok.
  intros HC Hcb Hap Hc Htx Hord Hoth Hblocks. unfold calculate_utxo_state. rewrite Htx. cbn [unwrap mbind outcome_mbind].
  destruct (accept_coinbase_ok m0 coinbase sp_txs HC Hcb Hap) as (ctx0 & E0 & Hst0 & Hids0 & Had0 & Hrw0). rewrite E0. cbn [mbind outcome_mbind].
  rewrite Hord. cbn [mbind outcome_mbind]. rewrite Hoth. cbn [mbind outcome_mbind].
  destruct (merge_loop gd coinbase sp_txs others (ctx0, store)) as (ctx & st & HF & (S & Hrep & HCS & HS) & Hids & Hrw);
    [done..|by apply Hblocks|].
  exists ctx, st, S. split; [exact HF|]. split; [done|]. split; [done|]. split.
  - rewrite Hrw. f_equal. cbn. f_equal. rewrite fmap_imap. apply list_eq. intros k. rewrite list_lookup_imap, list_lookup_fmap.
    by destruct (others !! k).
  - intros ts Hts. destruct (import_commits act (E := TxRuleError) ts S HS Hts) as (mi & Emi & HCi).
    destruct (commits_same act (E := TxRuleError) _ _ S HCS HCi) as (h & m & ? & ? & _). eauto 8.
Qed.
End block.

(** ** Examples

    One block above a view of two coins: its selected parent has a coinbase and
    a transaction that spends both. *)
Definition st_coinbase : Transaction :=
  mkTransaction 0 [] [mkOutput 9 (mkSpk 0 [3])] 0 SUBNETWORK_ID_COINBASE 0 (le_bytes 8 7 ++ le_bytes 8 9 ++ [0; 0; 1; 3; 7]) 0 20.
Definition st_tx : Transaction :=
  mkTransaction 0 [mkInput (mkOutpoint 7 0) [] 5 1; mkInput (mkOutpoint 7 1) [] 5 1] [mkOutput 100 (mkSpk 0 [81])] 0 SUBNETWORK_ID_NATIVE 0 [] 0 21.
Definition st_entries : list UtxoEntry := [UtxoEntry_new 200 (mkSpk 0 [82]) 3 false; UtxoEntry_new 300 (mkSpk 0 [81]) 3 false].
Definition st_gd : GhostdagData := mkGhostdag 5 0 11 [11] [] ∅.
Definition st_shape (l : list (PopulatedTransaction * Z * Z)) : reduction (PopulatedTransaction * Z * Z) :=
  foldr (fun v t => Joined (Item v) t) Identity l.
Definition st_cm : CoinbaseManager := mkCoinbaseManager 150 204 0 0 10 [540000000] 1 (mkSpk 0 [1]) (mkSpk 0 [2]) NEVER.

Lemma st_shape_ok l : reduced (st_shape l) = l.
Proof. induction l as [|v l IH]; [done|]. change (v :: reduced (st_shape l) = v :: l). by rewrite IH. Qed.

Definition st_diff : UtxoDiff := mkDiff {[mkOutpoint 20 0 := mkUtxoEntry 9 (mkSpk 0 [3]) 100 true 100]} ∅.
Definition st_view : ComposedUtxoView UtxoCollection UtxoDiff := Utxo.compose example_view st_diff.
Definition st_orders (i : nat) : list nat := rev (seq 0 (2 * i)).

Lemma st_spends tx es : tx ∈ [st_tx] -> spends st_view tx es -> tx = st_tx /\ es = st_entries.
Proof.
  intros ->%list_elem_of_singleton Hes. split; [done|].
  inversion Hes as [|? e1 ? es1 (f1 & E1 & ->) Hes1]; subst. inversion Hes1 as [|? e2 ? es2 (f2 & E2 & ->) Hes2]; subst. inversion Hes2; subst.
  vm_compute in E1, E2. injection E1 as <-. injection E2 as <-. vm_compute. reflexivity.
Qed.

Lemma st_sizes : Forall (@sizes_ok spell_crypto spell_map _ _ example_processor st_view 100 (block_flags 0)) [st_coinbase; st_tx].
Proof.
  apply Forall_cons_2; [|apply Forall_cons_2; [|apply Forall_nil_2; exact I]]; intros es Hes.
  - inversion Hes; subst. split_and!; [constructor; [done|apply List.Forall_nil|apply List.Forall_nil|repeat constructor; done|done]
      |split_and!; [done..|apply List.Forall_nil]|done|].
    intros _. constructor; [done|apply List.Forall_nil|repeat constructor; done|done].
  - apply st_spends in Hes as [_ ->]; [|left]. split_and!; [constructor; [done|..|done]; repeat constructor; done|repeat split; repeat constructor; done|done|].
    intros _. constructor; [done|..|done]; repeat constructor; done.
Qed.

(** A transaction with one output creates one coin. *)
Lemma created_one tx out es a o e : tx_outputs tx = [out] -> created (mkPopulated tx es) 100 a o = Some e ->
  o = mkOutpoint (tx_id tx) 0 /\ e = created_entry (mkPopulated tx es) 100 a out.
Proof.
  intros Hout. unfold created. case_bool_decide as Hd; [|done]. destruct Hd as [Hid Hidx], o as [id idx]. cbn in *. rewrite Hout. subst id.
  destruct (Z.to_nat idx) as [|k] eqn:Ek; [|done]. cbn. intros [= <-]. split; [|done]. f_equal. lia.
Qed.

Lemma fresh_by_keys (S : UtxoCollection) ptx : forallb (fun p => negb (transaction_id p.1 =? tx_id (ptx_tx ptx))) (map_to_list S) = true -> fresh_id S ptx.
Proof.
  rewrite forallb_forall. intros Hall o Ho. apply eq_None_not_Some. intros [e He].
  specialize (Hall (o, e)). rewrite <-list_elem_of_In, elem_of_map_to_list in Hall. specialize (Hall He). cbn in Hall. lia.
Qed.

Lemma st_block_ok : @block_ok spell_hashers spell_crypto spell_map spell_chacha st_orders st_cm example_processor example_view 100 0 st_diff
  [st_coinbase; st_tx].
Proof.
  split.
  - exact st_sizes.
  - intros [|[|k]] tx E; [| |destruct k; discriminate E]; injection E as <-; cbn; [reflexivity|apply (perm_swap 0%nat 1%nat [])].
  - apply (bool_decide_unpack _). vm_compute. reflexivity.
  - apply (bool_decide_unpack _). vm_compute. reflexivity.
  - intros tx es Htx Hsp _. destruct (st_spends tx es Htx Hsp) as [-> ->]. split_and!.
    + repeat constructor; vm_compute; reflexivity.
    + apply fresh_by_keys. vm_compute. reflexivity.
    + intros o Ho. rewrite get_compose.
      assert (Utxo.added st_diff !! o = None) as -> by (apply lookup_singleton_ne; intros <-; discriminate Ho).
      assert (Utxo.removed st_diff !! o = None) as -> by (apply lookup_empty).
      apply (fresh_by_keys example_view (mkPopulated st_tx st_entries)); [vm_compute; reflexivity|done].
    + done.
    + intros _. split; [|done]. split; (split; [repeat constructor; done|vm_compute; reflexivity]).
    + intros o e [-> ->]%(created_one _ (mkOutput 100 (mkSpk 0 [81]))); [|reflexivity]. apply spell_unit. vm_compute. reflexivity.
  - intros vs E. vm_compute in E. injection E as <-. vm_compute. reflexivity.
  - eexists _, _. split; [reflexivity|]. vm_compute. reflexivity.
Qed.

Lemma st_base_commits : exists m, @commits spell_hashers spell_chacha 0 m example_view.
Proof.
  set (e0 := UtxoEntry_new 200 (mkSpk 0 [82]) 3 false). set (e1 := UtxoEntry_new 300 (mkSpk 0 [81]) 3 false).
  destruct (moves_add (H := spell_hashers) (H0 := spell_chacha) 0 (E := ()) MuHash_new ∅ ∅ (mkOutpoint 7 1) e1) as (m1 & _ & H1);
    [apply commits_new|reflexivity|apply spell_unit; vm_compute; reflexivity|].
  destruct (moves_add (H := spell_hashers) (H0 := spell_chacha) 0 (E := ()) m1 ∅ (<[mkOutpoint 7 1 := e1]> ∅) (mkOutpoint 7 0) e0) as (m2 & _ & H2);
    [exact H1|reflexivity|apply spell_unit; vm_compute; reflexivity|].
  exists m2. exact H2.
Qed.

Lemma calculate_utxo_state_commits_witness : exists m0 ctx st S,
  @calculate_utxo_state spell_hashers spell_crypto spell_map spell_chacha (fun l => l) st_orders st_shape st_cm UtxoCollection _ example_processor
    ∅ {[11 := [st_coinbase; st_tx]]} st_gd (UtxoProcessingContext_new m0, ∅) example_view 100 = Ok (ctx, st) /\
  represents example_view (mergeset_diff ctx) S /\ accepted_tx_ids ctx = accepted_ids (mergeset_acceptance_data ctx) /\
  dom (mergeset_rewards ctx) = {[11]}.
Proof.
  destruct st_base_commits as [m0 Hm0]. exists m0.
  edestruct (fun P Q => @calculate_utxo_state_commits spell_hashers spell_crypto spell_map spell_chacha spell_malachite P Q (fun l => l) st_orders st_shape st_shape_ok
    st_cm example_processor example_view 100 m0 ∅ st_gd st_coinbase [st_tx] ∅ {[11 := [st_coinbase; st_tx]]} [] []) as (ctx & st & S & E & Hrep & Hids & Hrw & _).
  - intros; apply hash_bytes_bytes.
  - intros; apply hash_bytes_bytes.
  - exact Hm0.
  - reflexivity.
  - split.
    + split; [reflexivity|by intros i input e Hi|apply NoDup_nil_2|reflexivity].
    + apply fresh_by_keys. vm_compute. reflexivity.
    + intros _. split; [|done]. split; (split; [repeat constructor; done|vm_compute; reflexivity]).
    + intros o e [-> ->]%(created_one _ (mkOutput 9 (mkSpk 0 [3]))); [|reflexivity]. apply spell_unit. vm_compute. reflexivity.
  - apply empty_cache_ok.
  - reflexivity.
  - reflexivity.
  - reflexivity.
  - intros ctx0 E0 pre i b txs post ctx st Hb HF. destruct pre as [|x pre]; [|destruct pre; discriminate Hb]. injection Hb as <- <- <- <-.
    cbn [foldM] in HF. injection HF as <- <-.
    apply accept_coinbase_diff in E0.
    assert (add_transaction UtxoDiff_default (mkPopulated st_coinbase []) 100 true = Ok st_diff) as Hd by (vm_compute; reflexivity).
    assert (mergeset_diff ctx0 = st_diff) as ->; [|exact st_block_ok].
    assert (Ok (E := UtxoAlgebraError) (mergeset_diff ctx0) = Ok st_diff) as Heq by (rewrite <-Hd; symmetry; exact E0). by injection Heq.
  - exists ctx, st, S. split; [exact E|]. split; [exact Hrep|]. split; [exact Hids|]. rewrite Hrw. set_solver.
Defined.
