(* ===== verification/ServiceEvents.v ===== *)
(** * What a chain block means to the service ledger

    The readers of [consensus/src/pipeline/virtual_processor/service_bond.rs] and
    [utxo_validation.rs] that derive the arguments of a fold from the stores: the
    producers of the merged blues, the accepted requests and responses, the
    escrow outputs of the coinbase, and the eligible miners of a window of the
    selected chain.  A store is the map it holds; [unwrap] of a missing entry
    panics. *)
From S2P Require Import Prelude Bytes Tx Slice BTree ScriptNum Hashing ScriptOps Script ScriptStd Params Float Payloads Mass TxValidate GhostdagStore Bech32 Coinbase Ledger LedgerSteps ServiceState.
From Stdlib Require Import String.
From stdpp Require Import base gmap list.
#[local] Open Scope Z_scope.

Definition SERVICE_ELIGIBILITY_WINDOW_DAA : Z := 6000.
Definition SERVICE_ELIGIBILITY_WINDOW_DAA_V2 : Z := 3000.

(** The models of [POM_TIERS_H6], in the order of the tiers. *)
Definition QWEN3_5_9B_ABLITERATED_MODEL_ID : list Z :=
  [0xbd; 0x34; 0x56; 0x8c; 0xd8; 0x9f; 0x5f; 0x19; 0xc6; 0xc3; 0xa6; 0xe1; 0xa6; 0x1b; 0x92; 0x9b;
   0xc8; 0x68; 0x70; 0x94; 0x09; 0xea; 0xad; 0x8e; 0x67; 0x2d; 0x85; 0xf3; 0xc1; 0xeb; 0x57; 0x10].
Definition GLM_4_9B_0414_MODEL_ID : list Z :=
  [0xfa; 0x2f; 0x13; 0xbe; 0x08; 0x50; 0xe2; 0x6c; 0x5c; 0xe8; 0x6c; 0x7a; 0xc7; 0x9d; 0xa8; 0x5e;
   0x30; 0x0c; 0x1d; 0xa8; 0xb3; 0x29; 0x0f; 0x9a; 0x18; 0xd4; 0x71; 0x05; 0xf1; 0xf2; 0x14; 0x0a].
Definition GEMMA_4_12B_ABLITERATED_MODEL_ID : list Z :=
  [0x39; 0x99; 0x84; 0x04; 0x56; 0x00; 0xf7; 0xd5; 0x8d; 0x1b; 0x2c; 0xf0; 0x1e; 0x6a; 0x4b; 0xf4;
   0x66; 0xfa; 0x15; 0xc7; 0xac; 0x31; 0xbd; 0x0d; 0xd1; 0xa7; 0x1e; 0x00; 0x3b; 0x61; 0x7c; 0xc6].
Definition QWEN3_6_27B_MODEL_ID : list Z :=
  [0xb8; 0xbd; 0xc0; 0x1f; 0xa4; 0x07; 0xea; 0xb9; 0x43; 0xe4; 0xfe; 0xfc; 0x80; 0x74; 0x83; 0xb3;
   0x9f; 0x81; 0x42; 0x78; 0x52; 0x56; 0x04; 0x9e; 0x1f; 0x55; 0x96; 0x98; 0xa5; 0x28; 0x47; 0x46].
Definition KIMI_LINEAR_48B_MODEL_ID : list Z :=
  [0x3d; 0xc0; 0x93; 0x58; 0xad; 0x75; 0xc6; 0xef; 0x0c; 0x9c; 0x86; 0xee; 0x4f; 0x47; 0xc4; 0xd6;
   0xac; 0xda; 0x96; 0x1f; 0xec; 0xbd; 0x0e; 0x4f; 0x9c; 0xf5; 0x5e; 0x8f; 0x0f; 0xdf; 0xfd; 0xdb].
Definition POM_TIERS_H6 : list (list Z) :=
  [QWEN3_5_9B_ABLITERATED_MODEL_ID; GLM_4_9B_0414_MODEL_ID; GEMMA_4_12B_ABLITERATED_MODEL_ID; QWEN3_6_27B_MODEL_ID; KIMI_LINEAR_48B_MODEL_ID].

(** The fields of a header that are read here. *)
Record ServiceHeader := mkServiceHeader { sh_daa_score : Z; sh_blue_score : Z; sh_pom_tier : Z; sh_pruning_point : Hash }.

(** The acceptance data of a chain block: per merged block, the indices of the
    transactions that were accepted. *)
Record MergesetBlockAcceptanceData := mkAcceptance { mb_block_hash : Hash; mb_accepted : list Z }.

Record ChainStores := mkChain {
  cs_ghostdag : gmap Hash GhostdagData;
  cs_non_daa : gmap Hash (gset Hash);
  cs_headers : gmap Hash ServiceHeader;
  cs_txs : gmap Hash (list Transaction);
  cs_acceptance : gmap Hash (list MergesetBlockAcceptanceData);
  cs_by_index : gmap Z Hash;
  cs_by_hash : gmap Hash Z;
}.

(** The parameters of the processor. *)
Record ServiceParams := mkServiceParams {
  sp_coinbase : CoinbaseManager;
  sp_pom_v3 : ForkActivation;
  sp_bond_v2 : ForkActivation;
  sp_reward_routing : ForkActivation;
  sp_ledger_activation : ForkActivation;
  sp_burnable_window : Z;
  sp_finality_depth : Z;
  sp_ratio_reward_window : Z;
}.

(** What [filter_map] keeps. *)
Definition somes {A} (l : list (option A)) : list A := omap (fun o => o) l.

(** ** Keys *)
Definition escrow_miner_key (pubkey : list Z) : Hash := hash_of_bytes pubkey.

Section readers.
Context `{Hashers, Crypto} {E : Type} (blake2b_512 : list Z -> list Z).
Context (p : ServiceParams) (cs : ChainStores).

Definition miner_key (spk : ScriptPublicKey) : Hash := finalize TransactionHash (le_bytes 2 (spk_version spk) ++ spk_script spk).

Definition RESPONDER_SIG_DOMAIN : list Z := text "KeryxServiceResponderV1".

Definition verify_responder_signature (escrow_pubkey signature signed_bytes : list Z) : bool :=
  let msg := hash_of_bytes (Blake2b (RESPONDER_SIG_DOMAIN ++ signed_bytes)) in
  match XOnlyPublicKey_from_slice escrow_pubkey with
  | None => false
  | Some pk =>
      match SchnorrSignature_from_slice signature with
      | None => false
      | Some sig => schnorr_verify sig msg pk
      end
  end.

Definition ESCROW_DELEGATION_DOMAIN : list Z := text "KeryxEscrowDelegationV1".

Definition escrow_delegation_message (escrow_pubkey : list Z) : Hash := hash_of_bytes (Blake2b (ESCROW_DELEGATION_DOMAIN ++ escrow_pubkey)).

Definition verify_escrow_delegation (payout_version : Z) (payout_script escrow_pubkey sig : list Z) : bool :=
  if negb (payout_version =? 0) || negb (zlen payout_script =? 34) || negb (nth 0 payout_script 0 =? 0x20) || negb (nth 33 payout_script 0 =? 0xac)
  then false
  else
    match XOnlyPublicKey_from_slice (slice 1 33 payout_script) with
    | None => false
    | Some payout_key =>
        match SchnorrSignature_from_slice sig with
        | None => false
        | Some signature => schnorr_verify signature (escrow_delegation_message escrow_pubkey) payout_key
        end
    end.

Definition verified_responder (resp : AiResponsePayload) : option Hash :=
  match responder resp with
  | None => None
  | Some r =>
      if verify_responder_signature (escrow_pubkey r) (signature r) (signed_bytes resp) then Some (escrow_miner_key (escrow_pubkey r)) else None
  end.

(** The escrow key that a script locks, if it is an escrow script. *)
Definition csv_escrow_pubkey (script : list Z) : outcome E (option (list Z)) :=
  if negb (is_csv_pay_to_pubkey script) then Ok None
  else
    seq_len ← unwrap (script !! 0%nat);
    let a := Z.to_nat (seq_len + 3) in
    let b := Z.to_nat (seq_len + 35) in
    _ ← assert (b <=? length script)%nat;
    Ok (Some (slice a b script)).

(** ** Stores *)
Definition get_header (hash : Hash) : outcome E ServiceHeader := unwrap (cs_headers cs !! hash).
Definition get_daa_score (hash : Hash) : outcome E Z := h ← get_header hash; Ok (sh_daa_score h).
Definition get_by_index (i : Z) : outcome E Hash := unwrap (cs_by_index cs !! i).
Definition daa_at (i : Z) : outcome E Z := h ← get_by_index i; get_daa_score h.

(** The blues of a chain block that its coinbase pays. *)
Definition paid_blues (hash : Hash) : outcome E (list Hash) :=
  ghostdag_data ← unwrap (cs_ghostdag cs !! hash);
  non_daa ← unwrap (cs_non_daa cs !! hash);
  Ok (filter (fun b => b ∉ non_daa) (mergeset_blues ghostdag_data)).

(** The coinbase payload of a block. *)
Definition coinbase_data (hash : Hash) : outcome E CoinbaseData :=
  txs ← unwrap (cs_txs cs !! hash);
  coinbase ← unwrap (txs !! 0%nat);
  unwrap_r (deserialize_coinbase_payload (sp_coinbase p) (payload coinbase)).

Definition producer_of (blue : Hash) : outcome E (option (Hash * Z * Hash)) :=
  header ← get_header blue;
  coinbase ← coinbase_data blue;
  Ok (match parse_escrow_pubkey (extra_data (miner_data coinbase)) with
      | None => None
      | Some pubkey => Some (miner_key (md_spk (miner_data coinbase)), sh_pom_tier header, escrow_miner_key pubkey)
      end).

Definition service_producers_of_chain_block (hash : Hash) : outcome E (list (Hash * Z * Hash)) :=
  blues ← paid_blues hash;
  producers ← mapM' producer_of blues;
  Ok (somes producers).

Definition producer_spk_of (blue : Hash) : outcome E (option (Hash * ScriptPublicKey)) :=
  coinbase ← coinbase_data blue;
  Ok (match parse_escrow_pubkey (extra_data (miner_data coinbase)) with
      | None => None
      | Some _ => Some (miner_key (md_spk (miner_data coinbase)), md_spk (miner_data coinbase))
      end).

Definition service_producer_spks_of_chain_block (hash : Hash) : outcome E (list (Hash * ScriptPublicKey)) :=
  blues ← paid_blues hash;
  producers ← mapM' producer_spk_of blues;
  Ok (somes producers).

(** ** The accepted requests and responses *)
Definition EventSets : Type := list (Hash * Z * Z) * list (Hash * Z) * list (Hash * option Hash).

Definition tier_of (model : list Z) : option Z := (fun r => Z.of_nat r.1) <$> list_find (fun m => m = model) POM_TIERS_H6.

Definition request_identity (txid_identity : bool) (tx : Transaction) : Hash :=
  if txid_identity then tx_id tx else hash_of_bytes (take 32 (blake2b_512 (payload tx))).

Definition event_of (txid_identity : bool) (ev : EventSets) (tx : Transaction) : EventSets :=
  let '(requests, request_rewards, responses) := ev in
  if is_ai_request tx then
    match request_deserialize (payload tx) with
    | None => ev
    | Some req =>
        match tier_of (model_id req) with
        | None => ev
        | Some tier =>
            let rh := request_identity txid_identity tx in
            (requests ++ [(rh, tier, max_tokens req)], request_rewards ++ [(rh, inference_reward req)], responses)
        end
    end
  else if is_ai_response tx then
    match response_deserialize (payload tx) with
    | None => ev
    | Some resp => (requests, request_rewards, responses ++ [(hash_of_bytes (request_hash resp), verified_responder resp)])
    end
  else ev.

Definition events_of_block (txid_identity : bool) (ev : EventSets) (mbad : MergesetBlockAcceptanceData) : outcome E EventSets :=
  txs ← unwrap (cs_txs cs !! mb_block_hash mbad);
  foldM (fun ev index => tx ← unwrap (txs !! Z.to_nat index); Ok (event_of txid_identity ev tx)) ev (mb_accepted mbad).

Definition service_events_of_chain_block (hash : Hash) (txid_identity : bool) : outcome E EventSets :=
  acceptance ← unwrap (cs_acceptance cs !! hash);
  foldM (events_of_block txid_identity) ([], [], []) acceptance.

(** ** The escrow outputs of a coinbase *)
Fixpoint find_escrow (outputs : list TransactionOutput) (i : nat) (pubkey : list Z) : outcome E (option (nat * TransactionOutput)) :=
  match outputs with
  | [] => Ok None
  | o :: outputs =>
      if 0 <? out_value o then
        locked ← csv_escrow_pubkey (spk_script (out_spk o));
        if bool_decide (locked = Some pubkey) then Ok (Some (i, o)) else find_escrow outputs (S i) pubkey
      else find_escrow outputs (S i) pubkey
  end.

Definition escrow_step (coinbase : Transaction) (daa : Z) (st : nat * list (Hash * EscrowClaim)) (blue : Hash) :
  outcome E (nat * list (Hash * EscrowClaim)) :=
  let '(cursor, claims) := st in
  blue_coinbase ← coinbase_data blue;
  if cb_subsidy blue_coinbase =? 0 then Ok st
  else
    match parse_escrow_pubkey (extra_data (miner_data blue_coinbase)) with
    | None => Ok st
    | Some pubkey =>
        found ← find_escrow (drop cursor (tx_outputs coinbase)) cursor pubkey;
        match found with
        | None => Ok st
        | Some (escrow_idx, output) =>
            Ok (S escrow_idx, claims ++ [(miner_key (md_spk (miner_data blue_coinbase)),
                                          mkClaim (mkOutpoint (tx_id coinbase) (Z.of_nat escrow_idx mod 2 ^ 32)) (out_value output) daa)])
        end
    end.

Definition service_escrows_of_chain_block (hash : Hash) : outcome E (list (Hash * EscrowClaim)) :=
  daa ← get_daa_score hash;
  blues ← paid_blues hash;
  txs ← unwrap (cs_txs cs !! hash);
  coinbase ← unwrap (txs !! 0%nat);
  st ← foldM (escrow_step coinbase daa) (O, []) blues;
  Ok st.2.

(** ** Searching the selected chain *)
Fixpoint search_daa (fuel : nat) (bound_daa lo hi : Z) : outcome E Z :=
  if lo <? hi then
    match fuel with
    | O => OutOfFuel
    | S fuel =>
        let mid := lo + (hi - lo + 1) / 2 in
        d ← daa_at mid;
        if d <=? bound_daa then search_daa fuel bound_daa mid hi else search_daa fuel bound_daa lo (mid - 1)
    end
  else Ok lo.

Definition search_from (bound_daa lo hi : Z) : outcome E Z :=
  if hi <=? lo then Ok lo
  else
    d ← daa_at lo;
    if bound_daa <? d then Ok lo else search_daa (Z.to_nat (hi - lo)) bound_daa lo hi.

Definition service_chain_index_at_or_below_daa (bound_daa hi_idx floor_idx : Z) : outcome E Z := search_from bound_daa floor_idx hi_idx.

Definition chain_index_at_or_below_daa (bound_daa hi_idx floor_idx : Z) : outcome E Z :=
  search_from bound_daa (Z.max (sat_sub hi_idx (sp_ratio_reward_window p)) floor_idx) hi_idx.

Definition window_floor_in_retention (header_pp own_pp : Hash) (daa_bound : Z) : outcome E (option Z) :=
  match cs_by_hash cs !! header_pp with
  | Some idx => Ok (Some idx)
  | None =>
      d ← get_daa_score own_pp;
      if d <=? daa_bound then idx ← unwrap (cs_by_hash cs !! own_pp); Ok (Some idx) else Ok None
  end.

(** ** Cohorts *)

(** The floor of the window and whether the imported producers complete it. *)
Definition cohort_floor (seed_header : ServiceHeader) (own_pp : Hash) (daa_bound : Z) : outcome E (option (Z * bool)) :=
  floor ← window_floor_in_retention (sh_pruning_point seed_header) own_pp daa_bound;
  match floor with
  | Some idx => Ok (Some (idx, false))
  | None =>
      if is_active (sp_ledger_activation p) (sh_daa_score seed_header)
      then Ok ((fun idx => (idx, true)) <$> cs_by_hash cs !! own_pp)
      else Ok None
  end.

Definition imported_below (imported : list (Z * (Hash * Z * Hash))) (daa_bound pp_daa : Z) : list (Hash * Z * Hash) :=
  (filter (fun r => daa_bound < r.1 <= pp_daa) imported).*2.

Definition producers_between (bottom seed_idx : Z) : outcome E (list (Hash * Z * Hash)) :=
  sets ← mapM' (fun i => h ← get_by_index i; service_producers_of_chain_block h) (seqZ (bottom + 1) (seed_idx - bottom));
  Ok (concat sets).

Definition service_eligible_miners_in (imported : list (Z * (Hash * Z * Hash))) (seed : Hash) (target_tier window_daa : Z) (own_pp : Hash) :
  outcome E (list (Hash * Hash)) :=
  match cs_by_hash cs !! seed with
  | None => Ok []
  | Some seed_idx =>
      seed_header ← get_header seed;
      let daa_bound := sat_sub (sh_daa_score seed_header) window_daa in
      floor ← cohort_floor seed_header own_pp daa_bound;
      match floor with
      | None => Ok []
      | Some (pruning_idx, below) =>
          found ← chain_index_at_or_below_daa daa_bound seed_idx pruning_idx;
          let bottom := Z.max found pruning_idx in
          old ← (if below : bool then pp_daa ← get_daa_score own_pp; Ok (imported_below imported daa_bound pp_daa) else Ok []);
          recent ← producers_between bottom seed_idx;
          Ok (eligible_pairs (old ++ recent) target_tier)
      end
  end.

Definition is_pruning_sample_block (hash : Hash) : outcome E bool :=
  match cs_ghostdag cs !! hash with
  | None => Ok false
  | Some data =>
      if selected_parent data =? ORIGIN then Ok false
      else
        h ← get_header hash;
        sp ← get_header (selected_parent data);
        _ ← assert (negb (sp_finality_depth p =? 0));
        Ok (sh_blue_score sp / sp_finality_depth p <? sh_blue_score h / sp_finality_depth p)
  end.

(** The producers handed over with a snapshot: the blocks of the window below an
    index of the chain, walked down and then put in chain order. *)
Fixpoint recent_loop (fuel : nat) (bound i : Z) (out : list (Z * (Hash * Z * Hash))) : outcome E (list (Z * (Hash * Z * Hash))) :=
  match fuel with
  | O => OutOfFuel
  | S fuel =>
      match cs_by_index cs !! i with
      | None => Ok out
      | Some h =>
          block_daa ← get_daa_score h;
          if block_daa <=? bound then Ok out
          else
            producers ← service_producers_of_chain_block h;
            let out := out ++ ((fun r => (block_daa, r)) <$> producers) in
            if i =? 0 then Ok out else recent_loop fuel bound (i - 1) out
      end
  end.

Definition recent_producers_below (idx daa : Z) : outcome E (list (Z * (Hash * Z * Hash))) :=
  out ← recent_loop (S (Z.to_nat idx)) (sat_sub daa SERVICE_ELIGIBILITY_WINDOW_DAA) idx [];
  Ok (reverse out).

Definition service_reward_mints_for (st : ServiceState) (sp : Hash) : outcome E (list (ScriptPublicKey * Z)) :=
  sp_daa ← get_daa_score sp;
  let parent_daa :=
    match cs_ghostdag cs !! sp with
    | Some data => if selected_parent data =? ORIGIN then 0 else default 0 (sh_daa_score <$> cs_headers cs !! selected_parent data)
    | None => 0
    end in
  Ok (reward_mints (sp_finality_depth p) (is_active (sp_reward_routing p) sp_daa) st sp_daa parent_daa).
End readers.

(** ** An example chain *)

(** Block [i] of a chain without merges has hash, index and score [i]; block 1
    merges the blue 5000, which announces an escrow key. *)
Definition ex_manager : CoinbaseManager := mkCoinbaseManager 150 204 0 0 1 [] 0 (mkSpk 0 []) (mkSpk 0 []) 0.
Definition ex_payout : ScriptPublicKey := mkSpk 0 [1; 2; 3].
Definition ex_payload : list Z := le_bytes 8 7 ++ le_bytes 8 9 ++ le_bytes 2 0 ++ [3] ++ spk_script ex_payout ++ ESCROW_MARKER ++ replicate 64 48.
Definition ex_coinbase (id : Hash) (outputs : list TransactionOutput) : Transaction :=
  mkTransaction 0 [] outputs 0 SUBNETWORK_ID_COINBASE 0 ex_payload 0 id.
Definition ex_ghostdag (i : Z) : GhostdagData := mkGhostdag i i (i - 1) (if i =? 1 then [5000] else []) [] ∅.
Definition ex_map {A} (n : Z) (f : Z -> A) : gmap Z A := list_to_map ((fun i => (i, f i)) <$> seqZ 0 n).
Definition ex_stores (n : Z) : ChainStores :=
  mkChain (ex_map n ex_ghostdag) (ex_map n (fun _ => ∅)) (<[5000 := mkServiceHeader 1 1 2 0]> (ex_map n (fun i => mkServiceHeader i i 0 0)))
    {[5000 := [ex_coinbase 77 []]]} ∅ (ex_map n (fun i => i)) (ex_map n (fun i => i)).
Definition ex_params (ratio_window : Z) : ServiceParams := mkServiceParams ex_manager 0 0 0 0 2000 2000 ratio_window.
Definition ex_producers (i : Z) : list (Hash * Z * Hash) := if i =? 1 then [(@miner_key spell_hashers ex_payout, 2, 0)] else [].

(** ** Escrow claims *)
Lemma sublist_first {A} (x : A) xs l1 l2 : x ∉ l1 -> x :: xs `sublist_of` l1 ++ x :: l2 -> xs `sublist_of` l2.
Proof.
  induction l1 as [|y l1 IH]; cbn; intros Hx Hs.
  - apply sublist_cons_l in Hs as (k1 & k2 & Hk & Hs). destruct k1 as [|z k1]; injection Hk as ->; [by subst|].
    subst l2. etrans; [done|]. apply sublist_inserts_l. by constructor.
  - apply IH; [set_solver|]. apply sublist_cons_r in Hs as [Hs|(l' & [= ->] & _)]; [done|set_solver].
Qed.

Section escrows.
Context `{Hashers, Crypto} {E : Type} (p : ServiceParams) (cs : ChainStores).

(** An escrow script holds its key: the extraction never fails. *)
Lemma csv_escrow_pubkey_total s : exists r, csv_escrow_pubkey (E := E) s = Ok r.
Proof.
  unfold csv_escrow_pubkey, is_csv_pay_to_pubkey, zlen. destruct s as [|b s]; [by eexists|]. cbn [nth lookup list_lookup].
  destruct (_ || _) eqn:E1; [by eexists|]. destruct ((b =? 0) || _) eqn:E2; [by eexists|].
  destruct (Z.eqb_spec (Z.of_nat (length (b :: s))) (b + 36)) as [Hlen|]; [|by eexists]. cbn [negb].
  destruct (negb _); [by eexists|]. run. rewrite (proj2 (Nat.leb_le _ _)) by lia. by eexists.
Qed.

(** The key that an output with a value locks. *)
Definition locked_key (o : TransactionOutput) : option (list Z) :=
  if 0 <? out_value o then match csv_escrow_pubkey (E := E) (spk_script (out_spk o)) with Ok k => k | _ => None end else None.

(** The search stops at the first output that locks the key. *)
Lemma find_escrow_ok outs i k : exists r, find_escrow (E := E) outs i k = Ok r /\
  match r with
  | None => k ∉ omap locked_key outs
  | Some (j, o) => exists pre post, outs = pre ++ o :: post /\ j = (i + length pre)%nat /\ locked_key o = Some k /\ k ∉ omap locked_key pre
  end.
Proof.
  revert i. induction outs as [|o outs IH]; intros i; cbn [find_escrow]; [exists None; split; [done|apply not_elem_of_nil]|].
  assert (locked_key o <> Some k -> exists r, find_escrow (E := E) outs (S i) k = Ok r /\
    match r with
    | None => k ∉ omap locked_key (o :: outs)
    | Some (j, o') => exists pre post, o :: outs = pre ++ o' :: post /\ j = (i + length pre)%nat /\ locked_key o' = Some k /\ k ∉ omap locked_key pre
    end) as Hskip.
  { intros Hne. destruct (IH (S i)) as (r & Hr & Hm). exists r. split; [done|]. destruct r as [[j o']|].
    - destruct Hm as (pre & post & -> & -> & Hk & Hn). exists (o :: pre), post. split_and!; [done|cbn; lia|done|].
      cbn. destruct (locked_key o); [|done]. apply not_elem_of_cons. split; [congruence|done].
    - cbn. destruct (locked_key o); [|done]. apply not_elem_of_cons. split; [congruence|done]. }
  unfold locked_key in Hskip at 1. destruct (csv_escrow_pubkey_total (spk_script (out_spk o))) as [r Hr].
  destruct (0 <? out_value o) eqn:Ev; [|by apply Hskip]. rewrite Hr in Hskip |- *. run. case_bool_decide as Hk; [|by apply Hskip].
  exists (Some (i, o)). split; [done|]. exists [], outs. unfold locked_key. rewrite Ev, Hr. split_and!; [done|cbn; lia|done|apply not_elem_of_nil].
Qed.

(** The key that a blue announces, with the identity of its miner. *)
Definition announcement (d : CoinbaseData) : option (list Z * Hash) :=
  if cb_subsidy d =? 0 then None
  else (fun k => (k, miner_key (md_spk (miner_data d)))) <$> parse_escrow_pubkey (extra_data (miner_data d)).

(** The claim on output [j]. *)
Definition claim_at (cb : Transaction) (daa : Z) (j : nat) (o : TransactionOutput) : EscrowClaim :=
  mkClaim (mkOutpoint (tx_id cb) (Z.of_nat j mod 2 ^ 32)) (out_value o) daa.

(** The claims found so far: increasing outputs below the cursor, each locked to
    an announced key and credited to the identity that announced it. *)
Definition claims_ok (cb : Transaction) (daa : Z) (anns : list (list Z * Hash)) (st : nat * list (Hash * EscrowClaim)) : Prop :=
  exists js : list nat, StronglySorted lt js /\ Forall (fun j => (j < st.1)%nat) js /\
    Forall2 (fun j mc => exists o k, tx_outputs cb !! j = Some o /\ locked_key o = Some k /\ (k, mc.1) ∈ anns /\ mc.2 = claim_at cb daa j o) js st.2.

Lemma claims_ok_mono cb daa anns anns' st : claims_ok cb daa anns st -> anns ⊆ anns' -> claims_ok cb daa anns' st.
Proof.
  intros (js & Hs & Hb & Hf) Hsub. exists js. split_and!; [done..|]. eapply Forall2_impl; [done|]. intros j mc (o & k & ? & ? & ? & ?). exists o, k. set_solver.
Qed.

Definition announced (d : CoinbaseData) : list (list Z * Hash) := option_list (announcement d).

Lemma escrow_step_cases cb daa st blue d : coinbase_data (E := E) p cs blue = Ok d ->
  match announcement d with
  | None => escrow_step (E := E) p cs cb daa st blue = Ok st
  | Some (k, m) =>
      (escrow_step (E := E) p cs cb daa st blue = Ok st /\ k ∉ omap locked_key (drop st.1 (tx_outputs cb))) \/
      exists pre o post, drop st.1 (tx_outputs cb) = pre ++ o :: post /\ locked_key o = Some k /\ k ∉ omap locked_key pre /\
        escrow_step (E := E) p cs cb daa st blue = Ok (S (st.1 + length pre), st.2 ++ [(m, claim_at cb daa (st.1 + length pre) o)])
  end.
Proof.
  intros Hd. unfold announcement, escrow_step. destruct st as [c claims]. cbn [fst snd]. rewrite Hd. run.
  destruct (cb_subsidy d =? 0); [done|]. destruct (parse_escrow_pubkey _) as [k|]; [|done]. cbn [fmap option_fmap option_map].
  destruct (find_escrow_ok (drop c (tx_outputs cb)) c k) as (r & -> & Hr). run. destruct r as [[j o]|]; [right|by left].
  destruct Hr as (pre & post & Hdrop & -> & Hk & Hn). by exists pre, o, post.
Qed.

Lemma drop_split {A} c (l : list A) pre o post : drop c l = pre ++ o :: post ->
  l !! (c + length pre)%nat = Some o /\ drop (S (c + length pre)) l = post.
Proof.
  intros Hd. split.
  - rewrite <-lookup_drop, Hd, lookup_app_r, Nat.sub_diag by lia. done.
  - replace (S (c + length pre)) with (c + S (length pre))%nat by lia. rewrite <-drop_drop, Hd. by rewrite (cons_middle o pre post), app_assoc, drop_app_length' by (rewrite length_app; cbn; lia).
Qed.

Lemma claims_ok_snoc cb daa anns c pre o k m claims : claims_ok cb daa anns (c, claims) -> tx_outputs cb !! (c + length pre)%nat = Some o ->
  locked_key o = Some k -> (k, m) ∈ anns -> claims_ok cb daa anns (S (c + length (A := TransactionOutput) pre), claims ++ [(m, claim_at cb daa (c + length pre) o)]).
Proof.
  intros (js & Hs & Hb & Hf) Ho Hk Hm. exists (js ++ [(c + length pre)%nat]). cbn [fst snd] in *. rewrite Forall_forall in Hb. split_and!.
  - apply StronglySorted_app. split_and!; [|done|repeat constructor]. intros x y Hx ->%list_elem_of_singleton. specialize (Hb x Hx). lia.
  - apply Forall_app. split; [apply Forall_forall; intros j Hj; specialize (Hb j Hj); lia|repeat constructor; lia].
  - apply Forall2_app; [done|]. constructor; [|constructor]. by exists o, k.
Qed.

Lemma escrow_step_ok cb daa st blue d anns : coinbase_data (E := E) p cs blue = Ok d -> claims_ok cb daa anns st ->
  exists st', escrow_step (E := E) p cs cb daa st blue = Ok st' /\ claims_ok cb daa (anns ++ announced d) st' /\
    forall rest, (announced d).*1 ++ rest `sublist_of` omap locked_key (drop st.1 (tx_outputs cb)) ->
      st'.2.*1 = st.2.*1 ++ (announced d).*2 /\ rest `sublist_of` omap locked_key (drop st'.1 (tx_outputs cb)).
Proof.
  intros Hd Hok. pose proof (escrow_step_cases cb daa st blue d Hd) as Hc. unfold announced. destruct (announcement d) as [[k m]|]; cbn.
  - destruct Hc as [[Hst Hn]|(pre & o & post & Hdrop & Hk & Hn & Hst)]; (eexists; split; [exact Hst|]).
    + split; [eapply claims_ok_mono; [done|set_solver]|]. intros rest Hs. destruct Hn. eapply elem_of_submseteq; [|by apply sublist_submseteq]. set_solver.
    + destruct (drop_split _ _ _ _ _ Hdrop) as [Ho Hpost]. split.
      * destruct st as [c claims]. eapply claims_ok_snoc; [|done..|set_solver]. eapply claims_ok_mono; [done|set_solver].
      * intros rest. rewrite Hdrop, omap_app. cbn. rewrite Hk, fmap_app. intros Hs. split; [done|].
        replace (drop _ _) with post by done. by eapply sublist_first.
  - exists st. rewrite app_nil_r. split_and!; [done..|]. intros rest Hs. by rewrite app_nil_r.
Qed.

Lemma escrow_fold_ok cb daa blues ds st anns : Forall2 (fun b d => coinbase_data (E := E) p cs b = Ok d) blues ds -> claims_ok cb daa anns st ->
  exists st', foldM (escrow_step (E := E) p cs cb daa) st blues = Ok st' /\ claims_ok cb daa (anns ++ (ds ≫= announced)) st' /\
    ((ds ≫= announced).*1 `sublist_of` omap locked_key (drop st.1 (tx_outputs cb)) -> st'.2.*1 = st.2.*1 ++ (ds ≫= announced).*2).
Proof.
  intros Hf. revert st anns. induction Hf as [|b d blues ds Hd Hf IH]; intros st anns Hok; cbn [foldM mbind list_bind].
  - exists st. rewrite !app_nil_r. by split_and!.
  - destruct (escrow_step_ok cb daa st b d anns Hd Hok) as (st1 & -> & Hok1 & Hall). run. destruct (IH st1 _ Hok1) as (st' & -> & Hok' & Hall').
    exists st'. split_and!; [done|by rewrite app_assoc|]. rewrite !fmap_app. intros Hs. destruct (Hall _ Hs) as [Heq Hs'].
    rewrite Hall' by done. by rewrite Heq, app_assoc.
Qed.
End escrows.

Section escrow_claims.
Context `{Hashers, Crypto} {E : Type}.

(** What the stores hold for the escrows of a chain block. *)
Record escrows_readable (p : ServiceParams) (cs : ChainStores) (hash : Hash) (daa : Z) (cb : Transaction) (ds : list CoinbaseData) : Prop := {
  er_header : exists hd, cs_headers cs !! hash = Some hd /\ sh_daa_score hd = daa;
  er_coinbase : exists txs, cs_txs cs !! hash = Some (cb :: txs);
  er_blues : exists blues, paid_blues (E := E) cs hash = Ok blues /\ Forall2 (fun b d => coinbase_data (E := E) p cs b = Ok d) blues ds;
  er_outputs : zlen (tx_outputs cb) <= 2 ^ 32;
}.

Lemma claims_ok_nodup cb daa anns st : zlen (tx_outputs cb) <= 2 ^ 32 -> claims_ok (E := E) cb daa anns st -> NoDup (ec_outpoint <$> st.2.*2).
Proof.
  unfold zlen. intros Hlen (js & Hs & _ & Hf).
  assert (ec_outpoint <$> st.2.*2 = (fun j => mkOutpoint (tx_id cb) (Z.of_nat j)) <$> js) as ->.
  { clear Hs. induction Hf as [|j mc js l (o & k & Ho & _ & _ & Hc) Hf IH]; [done|]. rewrite !fmap_cons, IH, Hc. unfold claim_at. cbn [ec_outpoint].
    apply lookup_lt_Some in Ho. by rewrite Z.mod_small by lia. }
  apply NoDup_fmap_2; [intros ?? [=]; lia|]. clear Hf. induction Hs as [|j js Hs IH Hj]; constructor; [|done].
  rewrite Forall_forall in Hj. intros Hin. specialize (Hj j Hin). lia.
Qed.

(** C16: reading the escrows of a chain block never panics on stores that hold the
    block and its paid blues.  The claims have distinct outpoints; each is a
    coinbase output with a value, locked to the escrow key that a paid blue with
    a subsidy announces, and is credited to the payout identity of that blue.
    When the coinbase holds the escrow outputs of the announcing blues in their
    order, with any other outputs between them, no blue is missed or paired with
    the output of another. *)
Theorem escrow_claims_exact p cs hash daa cb ds : escrows_readable p cs hash daa cb ds ->
  exists claims, service_escrows_of_chain_block (E := E) p cs hash = Ok claims /\
    NoDup (ec_outpoint <$> claims.*2) /\
    Forall (fun mc => exists j o k, tx_outputs cb !! j = Some o /\ locked_key (E := E) o = Some k /\ (k, mc.1) ∈ (ds ≫= announced) /\
      mc.2 = claim_at cb daa j o) claims /\
    ((ds ≫= announced).*1 `sublist_of` omap (locked_key (E := E)) (tx_outputs cb) -> claims.*1 = (ds ≫= announced).*2).
Proof.
  intros [(hd & Hhd & <-) (txs & Htx) (blues & Hb & Hds) Hlen].
  destruct (escrow_fold_ok p cs cb (sh_daa_score hd) blues ds (O, []) [] Hds) as (st & Hst & Hok & Hall).
  { exists []. repeat constructor. }
  exists st.2. split_and!.
  - unfold service_escrows_of_chain_block, get_daa_score, get_header. rewrite Hhd. run. rewrite Hb. run. rewrite Htx. run. cbn [lookup list_lookup]. run. by rewrite Hst.
  - by eapply claims_ok_nodup.
  - destruct Hok as (js & _ & _ & Hf). apply Forall_forall. intros mc (i & Hi)%list_elem_of_lookup.
    destruct (Forall2_lookup_r _ _ _ _ _ Hf Hi) as (j & _ & o & k & ?). by exists j, o, k.
  - exact Hall.
Qed.
End escrow_claims.

(** Block 1 of the example pays the blue 5000 and locks an escrow after it. *)
Definition ex_escrow_output : TransactionOutput := mkOutput 40 (mkSpk 0 ([1; 16; code_OpCheckSequenceVerify; code_OpData32] ++ replicate 32 0 ++ [code_OpCheckSig])).
Definition ex_paying_coinbase : Transaction := ex_coinbase 78 [mkOutput 60 ex_payout; ex_escrow_output].
Definition ex_paying_stores : ChainStores :=
  let cs := ex_stores 3 in
  mkChain (cs_ghostdag cs) (cs_non_daa cs) (cs_headers cs) (<[1 := [ex_paying_coinbase]]> (cs_txs cs)) ∅ (cs_by_index cs) (cs_by_hash cs).
Definition ex_blue_data : CoinbaseData := mkCoinbaseData 7 9 (mkMinerData ex_payout (ESCROW_MARKER ++ replicate 64 48)).

Lemma escrow_claims_exact_witness : exists claims,
  @service_escrows_of_chain_block spell_hashers Empty_set (ex_params 1000) ex_paying_stores 1 = Ok claims /\
    claims.*1 = [@miner_key spell_hashers ex_payout].
Proof.
  destruct (@escrow_claims_exact spell_hashers Empty_set (ex_params 1000) ex_paying_stores 1 1 ex_paying_coinbase [ex_blue_data]) as (claims & Hc & _ & _ & Hall).
  - split; [by eexists|by eexists|exists [5000]; split; [by vm_compute|by repeat constructor]|by vm_compute].
  - exists claims. split; [exact Hc|]. rewrite Hall; by vm_compute.
Defined.
