(* ===== verification/ServiceCohort.v ===== *)
(** * Cohorts of the service ledger

    The searches in the selected chain return the greatest index at or below a
    score; the cohort of an audit is the set of producers of its window; and a
    pruned node that imported the producers of a snapshot computes the cohort of
    a node with the whole history. *)
From S2P Require Import Prelude Bytes Tx Slice BTree ScriptNum Hashing ScriptOps Script ScriptStd Params Float Payloads Mass TxValidate GhostdagStore Bech32 Coinbase Ledger LedgerSteps ServiceState ServiceEvents.
From stdpp Require Import base gmap list.
#[local] Open Scope Z_scope.

(** ** The searches *)
Section search.
Context {E : Type} (cs : ChainStores).

(** The chain between two indices, with scores that increase with the index:
    every block of a chain adds at least itself to the score. *)
Record chain_between (lo hi : Z) (score : Z -> Z) : Prop := {
  cb_index : forall i, lo <= i <= hi -> exists h hd, cs_by_index cs !! i = Some h /\ cs_headers cs !! h = Some hd /\ sh_daa_score hd = score i;
  cb_increasing : forall i j, lo <= i -> i < j -> j <= hi -> score i < score j;
}.

Lemma chain_between_sub lo hi lo' hi' score : chain_between lo hi score -> lo <= lo' -> hi' <= hi -> chain_between lo' hi' score.
Proof. intros [H1 H2] ??. split; intros; [apply H1|apply H2]; lia. Qed.

Lemma daa_at_ok lo hi score i : chain_between lo hi score -> lo <= i <= hi -> daa_at (E := E) cs i = Ok (score i).
Proof.
  intros Hc Hi. destruct (cb_index _ _ _ Hc i Hi) as (h & hd & Hh & Hhd & <-).
  unfold daa_at, get_by_index, get_daa_score, get_header. rewrite Hh. run. by rewrite Hhd.
Qed.

(** A spread of scores is at least a spread of indices. *)
Lemma score_spread lo hi score i j : chain_between lo hi score -> lo <= i -> i <= j -> j <= hi -> j - i <= score j - score i.
Proof.
  intros Hc Hlo Hij Hj. remember (Z.to_nat (j - i)) as n eqn:En. revert j En Hij Hj.
  induction n as [|n IH]; intros j En Hij Hj; [replace j with i by lia; lia|].
  pose proof (IH (j - 1) ltac:(lia) ltac:(lia) ltac:(lia)). pose proof (cb_increasing _ _ _ Hc (j - 1) j). lia.
Qed.

(** The index that a search should return. *)
Definition greatest_below (score : Z -> Z) (bound lo hi r : Z) : Prop :=
  lo <= r <= hi /\ (lo < r -> score r <= bound) /\ forall i, r < i <= hi -> bound < score i.

Lemma search_daa_ok score bound fuel lo hi : chain_between lo hi score -> lo <= hi -> score lo <= bound -> hi - lo <= Z.of_nat fuel ->
  exists r, search_daa (E := E) cs fuel bound lo hi = Ok r /\ lo <= r <= hi /\ score r <= bound /\ forall i, r < i <= hi -> bound < score i.
Proof.
  revert lo hi. induction fuel as [|fuel IH]; intros lo hi Hc Hle Hlo Hf; cbn [search_daa]; destruct (Z.ltb_spec lo hi) as [Hlt|Hge]; try lia.
  - exists lo. repeat split; [lia..|done|lia].
  - pose proof (Z.div_mod (hi - lo + 1) 2 ltac:(lia)). pose proof (Z.mod_pos_bound (hi - lo + 1) 2 ltac:(lia)).
    remember (lo + (hi - lo + 1) / 2) as mid eqn:Em. assert (lo < mid <= hi) as Hmid by lia.
    rewrite (daa_at_ok lo hi score mid Hc ltac:(lia)). run. destruct (Z.leb_spec (score mid) bound) as [Hb|Hb].
    + destruct (IH mid hi (chain_between_sub lo hi mid hi score Hc ltac:(lia) ltac:(lia)) ltac:(lia) Hb ltac:(lia)) as (r & -> & Hr & ?). exists r. repeat split; [lia..|naive_solver|naive_solver].
    + destruct (IH lo (mid - 1) (chain_between_sub lo hi lo (mid - 1) score Hc ltac:(lia) ltac:(lia)) ltac:(lia) Hlo ltac:(lia)) as (r & -> & Hr & Hs & Hrest). exists r.
      repeat split; [lia..|done|]. intros i Hi. destruct (Z.le_gt_cases i (mid - 1)); [apply Hrest; lia|].
      destruct (Z.eq_dec i mid) as [->|]; [done|]. pose proof (cb_increasing _ _ _ Hc mid i). lia.
  - exists lo. repeat split; [lia..|done|lia].
Qed.

Lemma search_from_ok score bound lo hi : chain_between lo hi score -> lo <= hi ->
  exists r, search_from (E := E) cs bound lo hi = Ok r /\ greatest_below score bound lo hi r.
Proof.
  intros Hc Hle. unfold search_from, greatest_below. destruct (Z.leb_spec hi lo) as [Hge|Hlt]; [exists lo; repeat split; lia|].
  rewrite (daa_at_ok lo hi score lo Hc ltac:(lia)). run. destruct (Z.ltb_spec bound (score lo)) as [Hb|Hb].
  - exists lo. repeat split; [lia..|]. intros i Hi. pose proof (cb_increasing _ _ _ Hc lo i). lia.
  - destruct (search_daa_ok score bound (Z.to_nat (hi - lo)) lo hi Hc Hle Hb ltac:(lia)) as (r & -> & ? & ? & ?). by exists r.
Qed.
End search.

(** ** Cohorts *)
Lemma elem_of_eligible_pairs recent tier m e : (m, e) ∈ eligible_pairs recent tier <-> (m, tier, e) ∈ recent.
Proof.
  unfold eligible_pairs. rewrite dedup_elem, elem_of_sort_by, list_elem_of_fmap. split.
  - intros ([[m' t] e'] & [= -> ->] & [Ht Hin]%list_elem_of_filter). cbn in Ht. by subst.
  - intros Hin. exists (m, tier, e). by rewrite list_elem_of_filter.
Qed.

Section cohort.
Context `{Hashers, Crypto} {E : Type} (p : ServiceParams) (cs : ChainStores).

(** The producers that the blocks of a part of the chain were read to have. *)
Definition producers_at (lo hi : Z) (prod : Z -> list (Hash * Z * Hash)) : Prop :=
  forall i, lo < i <= hi -> exists h, cs_by_index cs !! i = Some h /\ service_producers_of_chain_block (E := E) p cs h = Ok (prod i).

Lemma producers_between_ok lo hi prod : producers_at lo hi prod -> lo <= hi ->
  exists ps, producers_between (E := E) p cs lo hi = Ok ps /\ forall r, r ∈ ps <-> exists i, lo < i <= hi /\ r ∈ prod i.
Proof.
  intros Hp Hle. exists (concat (prod <$> seqZ (lo + 1) (hi - lo))). split.
  - unfold producers_between. rewrite (proj2 (mapM_Forall2 _ _ (prod <$> seqZ (lo + 1) (hi - lo)))); [done|].
    apply Forall2_fmap_r, Forall_Forall2_diag, Forall_forall. intros i Hi%elem_of_seqZ.
    destruct (Hp i ltac:(lia)) as (h & Hh & Hr). unfold get_by_index. rewrite Hh. by run.
  - intros r. rewrite list_elem_of_In, in_concat. split.
    + intros (l & Hl & Hr). apply list_elem_of_In, list_elem_of_fmap in Hl as (i & -> & Hi%elem_of_seqZ). exists i. rewrite list_elem_of_In. split; [lia|done].
    + intros (i & Hi & Hr). exists (prod i). rewrite <-!list_elem_of_In. split; [|done]. apply list_elem_of_fmap. exists i. rewrite elem_of_seqZ. split; [done|lia].
Qed.

(** The index found by the floored search splits the window exactly when the
    window fits the floor. *)
Lemma floored_search bound pruning_idx seed_idx score : chain_between cs pruning_idx seed_idx score -> 0 <= pruning_idx <= seed_idx ->
  score seed_idx - sp_ratio_reward_window p <= bound -> 0 <= sp_ratio_reward_window p ->
  exists r, chain_index_at_or_below_daa (E := E) p cs bound seed_idx pruning_idx = Ok r /\ pruning_idx <= r <= seed_idx /\
    forall i, pruning_idx < i <= seed_idx -> (r < i <-> bound < score i).
Proof.
  intros Hc Hp Hb HW. unfold chain_index_at_or_below_daa, sat_sub.
  remember (Z.max (Z.max 0 (seed_idx - sp_ratio_reward_window p)) pruning_idx) as lo eqn:El. assert (pruning_idx <= lo <= seed_idx) as Hlo by lia.
  destruct (search_from_ok (E := E) cs score bound lo seed_idx (chain_between_sub cs pruning_idx seed_idx lo seed_idx score Hc ltac:(lia) ltac:(lia)) ltac:(lia)) as (r & -> & Hr & Hle & Hgt).
  exists r. split_and!; [done|lia|lia|]. intros i Hi. split; [intros; apply Hgt; lia|]. intros Hs.
  destruct (Z.lt_ge_cases r i) as [|Hri]; [done|]. exfalso. assert (score r <= bound) as Hrb.
  { destruct (Z.lt_ge_cases lo r) as [|Hlr]; [by apply Hle|]. pose proof (score_spread cs pruning_idx seed_idx score r seed_idx Hc). lia. }
  destruct (Z.eq_dec i r) as [->|]; [lia|]. pose proof (cb_increasing _ _ _ _ Hc i r). lia.
Qed.

(** A seed on the chain whose pruning point is on the chain too. *)
Record seed_at (seed : Hash) (pruning_idx seed_idx : Z) (score : Z -> Z) : Prop := {
  sa_index : cs_by_hash cs !! seed = Some seed_idx;
  sa_hash : cs_by_index cs !! seed_idx = Some seed;
  sa_pruning : exists hd, cs_headers cs !! seed = Some hd /\ cs_by_hash cs !! sh_pruning_point hd = Some pruning_idx;
  sa_order : 0 <= pruning_idx <= seed_idx;
  sa_chain : chain_between cs pruning_idx seed_idx score;
}.

(** What remains of a cohort once the floor of its window is found. *)
Lemma eligible_miners_found imported seed tier window own_pp pruning_idx seed_idx score prod r :
  seed_at seed pruning_idx seed_idx score -> producers_at pruning_idx seed_idx prod ->
  chain_index_at_or_below_daa (E := E) p cs (sat_sub (score seed_idx) window) seed_idx pruning_idx = Ok r -> pruning_idx <= r <= seed_idx ->
  exists ps, service_eligible_miners_in (E := E) p cs imported seed tier window own_pp = Ok (eligible_pairs ps tier) /\
    forall x, x ∈ ps <-> exists i, r < i <= seed_idx /\ x ∈ prod i.
Proof.
  intros [Hi Hh (hd & Hhd & Hpp) Ho Hc] Hp Hr Hle. destruct (cb_index _ _ _ _ Hc seed_idx ltac:(lia)) as (h & hd' & Hh' & Hhd' & Hs).
  simplify_eq. destruct (producers_between_ok r seed_idx prod) as (ps & Hps & Hin); [intros i ?; apply Hp; lia|lia|].
  exists ps. split; [|done].
  unfold service_eligible_miners_in, cohort_floor, window_floor_in_retention, get_header. rewrite Hi, Hhd. run. rewrite Hpp. run.
  rewrite Hs, Hr. run. rewrite Z.max_l by lia. by rewrite Hps.
Qed.
End cohort.

(** ** Pruned nodes *)
Definition pair_lt (a b : Hash * Hash) : Prop := a.1 < b.1 \/ (a.1 = b.1 /\ a.2 < b.2).

Lemma dedup_sort_pairs (l : list (Hash * Hash)) : StronglySorted pair_lt (dedup (sort_by pair_leb l)).
Proof.
  assert (StronglySorted (fun a b => pair_leb a b = true) (sort_by pair_leb l)) as Hs by (apply sort_by_sorted; unfold pair_leb; intros; lia).
  induction Hs as [|a l' Hs IH Ha]; [constructor|]. destruct l' as [|a' l']; [repeat constructor|].
  rewrite dedup_cons. destruct (decide (a = a')) as [->|Hne]; [done|]. constructor; [done|].
  apply Forall_forall. intros x Hx. rewrite dedup_elem in Hx. inversion_clear Hs as [|? ? _ Ha']. rewrite Forall_cons in Ha. destruct Ha as [Haa' _].
  assert (pair_lt a a') as Hlt by (destruct a, a'; unfold pair_leb, pair_lt in *; cbn in *; destruct (decide (z = z1)); [|lia]; subst; assert (z0 <> z2) by congruence; lia).
  apply elem_of_cons in Hx as [->|Hx]; [done|]. rewrite Forall_forall in Ha'. specialize (Ha' x Hx). unfold pair_leb, pair_lt in *. lia.
Qed.

(** Only the elements of the window count. *)
Lemma eligible_pairs_ext l1 l2 tier : (forall r, r ∈ l1 <-> r ∈ l2) -> eligible_pairs l1 tier = eligible_pairs l2 tier.
Proof.
  intros Heq. assert (forall l, NoDup (eligible_pairs l tier)) as Hnd.
  { intros l. pose proof (dedup_sort_pairs ((fun '(m, _, e) => (m, e)) <$> filter (fun r => r.1.2 = tier) l)) as Hs. unfold eligible_pairs.
    induction Hs as [|x l' Hs IH Hx]; constructor; [|done]. rewrite Forall_forall in Hx. intros Hin. specialize (Hx x Hin). unfold pair_lt in Hx. lia. }
  apply (StronglySorted_unique_strong pair_lt).
  - intros x y _ _. unfold pair_lt. lia.
  - apply dedup_sort_pairs.
  - apply dedup_sort_pairs.
  - apply NoDup_Permutation; [done..|]. intros [m e]. by rewrite !elem_of_eligible_pairs.
Qed.

Section pruned.
Context `{Hashers, Crypto} {E : Type} (p : ServiceParams).

Lemma recent_loop_ok cs score prod lo hi bound fuel i out : chain_between cs lo hi score -> producers_at (E := E) p cs lo hi prod ->
  0 <= lo -> lo <= i <= hi -> score lo <= bound -> i - lo < Z.of_nat fuel ->
  exists out', recent_loop (E := E) p cs fuel bound i out = Ok out' /\
    forall d r, (d, r) ∈ out' <-> (d, r) ∈ out \/ exists j, lo < j <= i /\ bound < score j /\ d = score j /\ r ∈ prod j.
Proof.
  intros Hc Hp Hlo. revert i out. induction fuel as [|fuel IH]; intros i out Hi Hb Hf; [lia|]. cbn [recent_loop].
  destruct (cb_index _ _ _ _ Hc i ltac:(lia)) as (h & hd & Hh & Hhd & Hs). rewrite Hh. unfold get_daa_score, get_header. rewrite Hhd. run. rewrite Hs.
  destruct (Z.leb_spec (score i) bound) as [Hle|Hgt].
  - exists out. split; [done|]. intros d r. split; [by left|]. intros [|(j & Hj & Hbj & _)]; [done|]. exfalso.
    destruct (Z.eq_dec j i) as [->|]; [lia|]. pose proof (cb_increasing _ _ _ _ Hc j i). lia.
  - assert (lo < i) by (destruct (Z.eq_dec i lo); [subst; lia|lia]). destruct (Hp i ltac:(lia)) as (h' & Hh' & Hr). simplify_eq. rewrite Hr. run.
    destruct (Z.eqb_spec i 0); [lia|]. destruct (IH (i - 1) (out ++ ((fun r => (score i, r)) <$> prod i)) ltac:(lia) Hb ltac:(lia)) as (out' & -> & Hin).
    exists out'. split; [done|]. intros d r. rewrite Hin, elem_of_app, list_elem_of_fmap. split.
    + intros [[?|(r' & [= -> ->] & ?)]|(j & ? & ?)]; [by left|right; exists i; split_and!; [lia..|done|done]|right; exists j; split; [lia|done]].
    + intros [?|(j & Hj & Hbj & -> & Hr')]; [by do 2 left|]. destruct (Z.eq_dec j i) as [->|]; [left; right; by exists r|right; exists j; split_and!; [lia..|done|done]].
Qed.

Lemma recent_producers_ok cs score prod lo idx : chain_between cs lo idx score -> producers_at (E := E) p cs lo idx prod -> 0 <= lo <= idx ->
  score lo <= sat_sub (score idx) SERVICE_ELIGIBILITY_WINDOW_DAA ->
  exists out, recent_producers_below (E := E) p cs idx (score idx) = Ok out /\
    forall d r, (d, r) ∈ out <-> exists j, lo < j <= idx /\ sat_sub (score idx) SERVICE_ELIGIBILITY_WINDOW_DAA < score j /\ d = score j /\ r ∈ prod j.
Proof.
  intros Hc Hp Hlo Hb. unfold recent_producers_below.
  destruct (recent_loop_ok cs score prod lo idx (sat_sub (score idx) SERVICE_ELIGIBILITY_WINDOW_DAA) (S (Z.to_nat idx)) idx [] Hc Hp ltac:(lia) ltac:(lia) Hb ltac:(lia)) as (out & -> & Hin).
  exists (reverse out). split; [done|]. intros d r. rewrite elem_of_reverse, Hin. split; [intros [[]%not_elem_of_nil|]; done|by right].
Qed.
End pruned.

Section cohort_claims.
Context `{Hashers, Crypto} {E : Type}.



(** The stores of a node that holds the chain from its pruning point [own_pp] only. *)
Record pruned_at (cs : ChainStores) (hd : ServiceHeader) (seed own_pp : Hash) (own_idx seed_idx : Z) (score : Z -> Z) : Prop := {
  pa_seed : cs_by_hash cs !! seed = Some seed_idx;
  pa_header : cs_headers cs !! seed = Some hd;
  pa_pruned : cs_by_hash cs !! sh_pruning_point hd = None;
  pa_index : cs_by_hash cs !! own_pp = Some own_idx;
  pa_own : cs_by_index cs !! own_idx = Some own_pp;
  pa_order : 0 <= own_idx <= seed_idx;
  pa_chain : chain_between cs own_idx seed_idx score;
}.

Lemma pruned_cohort p cs hd seed own_pp own_idx seed_idx score prod imported tier window :
  pruned_at cs hd seed own_pp own_idx seed_idx score -> sh_daa_score hd = score seed_idx -> producers_at (E := E) p cs own_idx seed_idx prod ->
  0 <= window <= sp_ratio_reward_window p -> is_active (sp_ledger_activation p) (score seed_idx) = true ->
  exists ps, service_eligible_miners_in (E := E) p cs imported seed tier window own_pp = Ok (eligible_pairs ps tier) /\
    forall x, x ∈ ps <->
      (exists d, sat_sub (score seed_idx) window < d <= score own_idx /\ (d, x) ∈ imported) \/
      exists i, own_idx < i <= seed_idx /\ sat_sub (score seed_idx) window < score i /\ x ∈ prod i.
Proof.
  intros [Hi Hhd Hpp Hown Hh Ho Hc] Hd Hp HW Hact. destruct (cb_index _ _ _ _ Hc own_idx ltac:(lia)) as (h & hd' & Hh' & Hhd' & Hs). simplify_eq.
  remember (sat_sub (score seed_idx) window) as bound eqn:Eb.
  destruct (floored_search (E := E) p cs bound own_idx seed_idx score Hc Ho) as (r & Hr & Hle & Hiff); [unfold sat_sub in Eb; lia|lia|].
  destruct (producers_between_ok (E := E) p cs r seed_idx prod) as (ps & Hps & Hin); [intros i ?; apply Hp; lia|lia|].
  exists ((if decide (score own_idx <= bound) then [] else imported_below imported bound (score own_idx)) ++ ps). split.
  - unfold service_eligible_miners_in, cohort_floor, window_floor_in_retention, get_daa_score, get_header. rewrite Hi, Hhd. run. rewrite Hd, <-Eb, Hpp, Hhd'. run. rewrite Hs.
    destruct (Z.leb_spec (score own_idx) bound), (decide (score own_idx <= bound)); try lia; rewrite Hown; run; rewrite ?Hact; run; cbn [fmap option_fmap option_map];
      rewrite Hr; run; rewrite Z.max_l by lia; by rewrite Hps.
  - intros x. rewrite elem_of_app, Hin. f_equiv.
    + unfold imported_below. destruct (decide (score own_idx <= bound)) as [Hb|Hb].
      * split; [by intros ?%not_elem_of_nil|]. intros (d & ? & _). lia.
      * rewrite list_elem_of_fmap. split; [intros ([d y] & -> & [Hd' ?]%list_elem_of_filter); by exists d|].
        intros (d & ? & ?). exists (d, x). by rewrite list_elem_of_filter.
    + apply exist_proper. intros i. split; intros Hx; [|destruct Hx as (Hx1 & Hx2 & Hx3); apply Hiff in Hx2; [|lia]; split; [lia|done]].
      destruct Hx as [Hx1 Hx2]. assert (own_idx < i <= seed_idx) by lia. split_and!; [lia..| |done]. apply Hiff; lia.
Qed.

End cohort_claims.

(** ** Examples *)
Lemma ex_map_lookup {A} n (f : Z -> A) i : 0 <= i < n -> ex_map n f !! i = Some (f i).
Proof.
  intros Hi. apply elem_of_list_to_map_1.
  - rewrite <-list_fmap_compose. cbn. rewrite list_fmap_id. apply NoDup_seqZ.
  - apply list_elem_of_fmap. exists i. rewrite elem_of_seqZ. split; [done|lia].
Qed.

Lemma ex_seed n seed_idx : 0 <= seed_idx < n -> n <= 5000 -> seed_at (ex_stores n) seed_idx 0 seed_idx (fun i => i).
Proof.
  intros Hi Hn. split; cbn.
  - by apply ex_map_lookup.
  - by apply ex_map_lookup.
  - exists (mkServiceHeader seed_idx seed_idx 0 0). cbn [sh_pruning_point]. rewrite lookup_insert_ne by lia. by rewrite !ex_map_lookup by lia.
  - lia.
  - split; [|lia]. intros i Hle. exists i, (mkServiceHeader i i 0 0). cbn. rewrite lookup_insert_ne by lia. by rewrite !ex_map_lookup by lia.
Qed.

Lemma ex_producers_at W n seed_idx : 0 <= seed_idx < n -> n <= 5000 ->
  producers_at (H := spell_hashers) (E := Empty_set) (ex_params W) (ex_stores n) 0 seed_idx ex_producers.
Proof.
  intros Hi Hn i Hle. exists i. cbn. rewrite ex_map_lookup by lia. split; [done|].
  unfold service_producers_of_chain_block, paid_blues, ex_producers. cbn. rewrite !ex_map_lookup by lia. run.
  unfold ex_ghostdag. cbn [mergeset_blues]. destruct (Z.eqb_spec i 1) as [->|]; [|done].
  cbn [filter list_filter]. rewrite decide_True by set_solver. cbn [mapM' foldr]. unfold producer_of, get_header, coinbase_data. cbn [cs_headers cs_txs ex_stores].
  rewrite lookup_insert, lookup_singleton. vm_compute. done.
Qed.



(** The same chain on a node whose pruning point is block 5. *)
Definition ex_pruned_stores (n : Z) : ChainStores :=
  let cs := ex_stores n in
  mkChain (cs_ghostdag cs) (cs_non_daa cs) (cs_headers cs) (cs_txs cs) (cs_acceptance cs) (delete 0 (cs_by_index cs)) (delete 0 (cs_by_hash cs)).

Lemma ex_pruned_at n seed_idx : 5 <= seed_idx < n -> n <= 5000 ->
  pruned_at (ex_pruned_stores n) (mkServiceHeader seed_idx seed_idx 0 0) seed_idx 5 5 seed_idx (fun i => i).
Proof.
  intros Hi Hn. split; cbn; rewrite ?lookup_delete_ne, ?lookup_insert_ne, ?ex_map_lookup by lia; try done; try lia.
  - apply lookup_delete_eq.
  - split; [|lia]. intros i Hle. exists i, (mkServiceHeader i i 0 0). cbn. rewrite lookup_delete_ne, lookup_insert_ne by lia. by rewrite !ex_map_lookup by lia.
Qed.

Lemma ex_pruned_producers W n seed_idx : 5 <= seed_idx < n -> n <= 5000 ->
  producers_at (H := spell_hashers) (E := Empty_set) (ex_params W) (ex_pruned_stores n) 5 seed_idx ex_producers.
Proof.
  intros Hi Hn i Hle. destruct (ex_producers_at W n seed_idx ltac:(lia) Hn i ltac:(lia)) as (h & Hh & Hp). exists h. split; [|exact Hp].
  cbn in *. by rewrite lookup_delete_ne by lia.
Qed.

