(* ===== verification/Ghostdag.v ===== *)
(** * The GHOSTDAG protocol

    [processes/ghostdag/{protocol,mergeset,ordering}.rs]: parent selection, the
    mergeset of a new block, its order, and the colouring of the mergeset into
    blues and reds.  The manager is generic over the GHOSTDAG store and over
    the reachability service; the relations store is the map from a block to
    its parents. *)
From S2P Require Import Prelude Tx ReachStore ReachService Math Params GhostdagStore Difficulty.

#[local] Open Scope Z_scope.

(** The calls into the stores are unwrapped: errors are panics. *)
Notation run_ := (outcome ()).

Inductive ColoringState := StateBlue | StateRed | StatePending.

Inductive ColoringOutput :=
  | OutputBlue (blue_anticone_size : Z) (blues_anticone_sizes : gmap Hash Z)
  | OutputRed.

Record ChainBlock := mkChain { chain_hash : option Hash; chain_data : GhostdagData }.

Record GhostdagManager (S R : Type) := mkManager {
  gm_genesis_hash : Hash;
  gm_k : Z;
  ghostdag_store : S;
  relations_store : gmap Hash (list Hash);
  headers_store : HeadersStore;
  reachability_service : R;
  gm_level : Z;
  structural_max : Z;
  level_anchor_activation : ForkActivation
}.
Arguments mkManager {S R} _ _ _ _ _ _ _ _ _.
Arguments gm_genesis_hash {S R} _.
Arguments gm_k {S R} _.
Arguments ghostdag_store {S R} _.
Arguments relations_store {S R} _.
Arguments headers_store {S R} _.
Arguments reachability_service {S R} _.
Arguments gm_level {S R} _.
Arguments structural_max {S R} _.
Arguments level_anchor_activation {S R} _.

Section manager.
Context {S R : Type} `{GhostdagStoreReader S} `{ReachabilityService R}.
Context (fuel : nat) (gm : GhostdagManager S R).

Definition GhostdagManager_new (genesis : Hash) (k : Z) (store : S) (relations : gmap Hash (list Hash))
    (headers : HeadersStore) (service : R) : GhostdagManager S R :=
  mkManager genesis k store relations headers service 0 0 NEVER.

Definition genesis_ghostdag_data : GhostdagData := mkGhostdag 0 0 ORIGIN [] [] ∅.
Definition origin_ghostdag_data : GhostdagData := mkGhostdag 0 0 0 [] [] ∅.

Definition level_work_floor (daa : Z) : run_ Z :=
  if gm_level gm =? 0 then Ok 0
  else w ← level_work (gm_level gm) (resolve_max_block_level (level_anchor_activation gm) (structural_max gm) daa);
       Ok (Uint.uval w).

(** ** Parent selection and ordering *)

Definition sortable (h : Hash) : run_ SortableBlock :=
  w ← unwrap_r (get_blue_work (ghostdag_store gm) h); Ok (mkSortable h w).

(** [Iterator::max]: the last of the maximal elements. *)
Definition sortable_max (a b : SortableBlock) : SortableBlock :=
  match sortable_cmp a b with Gt => a | _ => b end.

Definition find_selected_parent (parents : list Hash) : run_ Hash :=
  blocks ← mapM' sortable parents;
  match blocks with
  | [] => Panic
  | b :: blocks => Ok (sb_hash (foldl sortable_max b blocks))
  end.

Definition sort_blocks (blocks : list Hash) : run_ (list Hash) :=
  sorted ← mapM' sortable blocks;
  Ok (sb_hash <$> sort_by sortable_leb sorted).

(** ** The mergeset *)

(** The loop over the parents of the current block: the mergeset, the blocks
    known to be in the past of the selected parent, and the queue. *)
Fixpoint merge_parents (sp : Hash) (parents : list Hash) (mergeset past : gset Hash) (queue : list Hash)
    : run_ (gset Hash * gset Hash * list Hash) :=
  match parents with
  | [] => Ok (mergeset, past, queue)
  | p :: parents =>
      if bool_decide (p ∈ mergeset) || bool_decide (p ∈ past) then merge_parents sp parents mergeset past queue
      else
        below ← dag_ancestor (reachability_service gm) p sp;
        if (below : bool) then merge_parents sp parents mergeset ({[p]} ∪ past) queue
        else merge_parents sp parents ({[p]} ∪ mergeset) past (queue ++ [p])
  end.

Fixpoint mergeset_loop (n : nat) (sp : Hash) (mergeset past : gset Hash) (queue : list Hash) : run_ (gset Hash) :=
  match n with
  | O => OutOfFuel
  | Datatypes.S n =>
      match queue with
      | [] => Ok mergeset
      | current :: queue =>
          parents ← unwrap (relations_store gm !! current);
          '(mergeset, past, queue) ← merge_parents sp parents mergeset past queue;
          mergeset_loop n sp mergeset past queue
      end
  end.

Definition unordered_mergeset_without_selected_parent (sp : Hash) (parents : list Hash) : run_ (gset Hash) :=
  let queue := filter (fun p => p <> sp) parents in
  mergeset_loop fuel sp (list_to_set queue) ∅ queue.

Definition ordered_mergeset_without_selected_parent (sp : Hash) (parents : list Hash) : run_ (list Hash) :=
  mergeset ← unordered_mergeset_without_selected_parent sp parents;
  sort_blocks (elements mergeset).

(** ** Colouring *)

(** The loop of [blue_anticone_size] down the selected chain. *)
Fixpoint anticone_size_loop (n : nat) (block : Hash) (sizes : gmap Hash Z) (sp : Hash) : run_ Z :=
  match n with
  | O => OutOfFuel
  | Datatypes.S n =>
      match sizes !! block with
      | Some size => Ok size
      | None =>
          if (sp =? gm_genesis_hash gm) || (sp =? ORIGIN) then Panic
          else
            sizes ← unwrap_r (get_blues_anticone_sizes (ghostdag_store gm) sp);
            sp ← unwrap_r (get_selected_parent (ghostdag_store gm) sp);
            anticone_size_loop n block sizes sp
      end
  end.

Definition blue_anticone_size (block : Hash) (context : GhostdagData) : run_ Z :=
  anticone_size_loop fuel block (blues_anticone_sizes context) (selected_parent context).

(** The loop over the blue peers of one chain block: the sizes of the affected
    blues and the size of the candidate's blue anticone. *)
Fixpoint check_peers (new_block_data : GhostdagData) (peers : list Hash) (blue_candidate : Hash)
    (sizes : gmap Hash Z) (size k : Z) : run_ (ColoringState * gmap Hash Z * Z) :=
  match peers with
  | [] => Ok (StatePending, sizes, size)
  | peer :: peers =>
      below ← dag_ancestor (reachability_service gm) peer blue_candidate;
      if (below : bool) then check_peers new_block_data peers blue_candidate sizes size k
      else
        peer_size ← blue_anticone_size peer new_block_data;
        let sizes := <[peer := peer_size]> sizes in
        size ← add_ 16 size 1;
        if k <? size then Ok (StateRed, sizes, size)
        else if peer_size =? k then Ok (StateRed, sizes, size)
        else
          _ ← assert (peer_size <=? k);
          check_peers new_block_data peers blue_candidate sizes size k
  end.

Definition check_blue_candidate_with_chain_block (new_block_data : GhostdagData) (chain_block : ChainBlock)
    (blue_candidate : Hash) (sizes : gmap Hash Z) (size k : Z) : run_ (ColoringState * gmap Hash Z * Z) :=
  below ← (match chain_hash chain_block with
           | Some h => dag_ancestor (reachability_service gm) h blue_candidate
           | None => Ok false
           end);
  if (below : bool) then Ok (StateBlue, sizes, size)
  else check_peers new_block_data (mergeset_blues (chain_data chain_block)) blue_candidate sizes size k.

Fixpoint check_loop (n : nat) (new_block_data : GhostdagData) (chain_block : ChainBlock) (blue_candidate : Hash)
    (sizes : gmap Hash Z) (size k : Z) : run_ ColoringOutput :=
  match n with
  | O => OutOfFuel
  | Datatypes.S n =>
      '(state, sizes, size) ← check_blue_candidate_with_chain_block new_block_data chain_block blue_candidate sizes size k;
      match state with
      | StateBlue => Ok (OutputBlue size sizes)
      | StateRed => Ok OutputRed
      | StatePending =>
          let sp := selected_parent (chain_data chain_block) in
          data ← unwrap_r (get_ghostdag_data (ghostdag_store gm) sp);
          check_loop n new_block_data (mkChain (Some sp) data) blue_candidate sizes size k
      end
  end.

Definition check_blue_candidate (new_block_data : GhostdagData) (blue_candidate : Hash) (k : Z) : run_ ColoringOutput :=
  k1 ← add_ 16 k 1;
  if Z.of_nat (length (mergeset_blues new_block_data)) mod 2 ^ 16 =? k1 then Ok OutputRed
  else check_loop fuel new_block_data (mkChain None new_block_data) blue_candidate ∅ 0 k.

(** ** The protocol *)

Definition color (k : Z) (new_block_data : GhostdagData) (blue_candidate : Hash) : run_ GhostdagData :=
  coloring ← check_blue_candidate new_block_data blue_candidate k;
  match coloring with
  | OutputBlue blue_anticone_size sizes => add_blue new_block_data blue_candidate blue_anticone_size sizes
  | OutputRed => Ok (add_red new_block_data blue_candidate)
  end.

(** The work of one blue block, at least the floor of the level. *)
Definition blue_block_work (h : Hash) : run_ Z :=
  header ← unwrap (headers_store gm !! h);
  w ← calc_work (header_bits header);
  if gm_level gm =? 0 then Ok (Uint.uval w)
  else floor ← level_work_floor (daa_score header); Ok (Z.max (Uint.uval w) floor).

Definition work_sum (works : list Z) : Z := foldl work_add 0 works.

Definition ghostdag (parents : list Hash) : run_ GhostdagData :=
  _ ← assert (negb (bool_decide (parents = [])));
  sp ← find_selected_parent parents;
  if sp =? ORIGIN then new_with_selected_parent sp 1
  else
    let k := gm_k gm in
    data ← new_with_selected_parent sp k;
    ordered_mergeset ← ordered_mergeset_without_selected_parent sp parents;
    data ← foldM (color k) data ordered_mergeset;
    sp_score ← unwrap_r (get_blue_score (ghostdag_store gm) sp);
    score ← add_ 64 sp_score (Z.of_nat (length (mergeset_blues data)));
    works ← mapM' blue_block_work (mergeset_blues data);
    sp_work ← unwrap_r (get_blue_work (ghostdag_store gm) sp);
    Ok (finalize_score_and_work data score (work_add sp_work (work_sum works))).
End manager.
