(* ===== verification/GhostdagSpec.v ===== *)
(** * What GHOSTDAG promises

    The reference colouring of the doc comment of [ghostdag] on sets of blue
    blocks, the blue set that a block inherits along its selected chain, and
    the invariant of a DAG whose blocks carry GHOSTDAG data. *)
From S2P Require Import Prelude Tx Dag GhostdagStore.

#[local] Open Scope Z_scope.

(** ** The reference *)

Section reference.
Context (f : Hash -> Hash -> bool) (k : Z).

(** The blocks of [B] that are neither before nor after [x]. *)
Definition anticone (B : gset Hash) (x : Hash) : gset Hash := filter (fun y => f y x = false /\ f x y = false) B.
Definition anticone_size (B : gset Hash) (x : Hash) : Z := Z.of_nat (base.size (anticone B x)).

(** The two conditions of the doc comment: the anticone of the candidate has at
    most [k] blues, and no blue of its anticone already has [k]. *)
Definition can_be_blue (B : gset Hash) (c : Hash) : bool :=
  (anticone_size B c <=? k) && forallb (fun y => anticone_size B y + 1 <=? k) (elements (anticone B c)).

(** The greedy colouring of a list of candidates: blues and reds. *)
Fixpoint greedy (B : gset Hash) (l : list Hash) : list Hash * list Hash :=
  match l with
  | [] => ([], [])
  | c :: l =>
      if can_be_blue B c then let '(blues, reds) := greedy ({[c]} ∪ B) l in (c :: blues, reds)
      else let '(blues, reds) := greedy B l in (blues, c :: reds)
  end.

Definition k_cluster (B : gset Hash) : Prop := forall x, x ∈ B -> anticone_size B x <= k.

Lemma elem_of_anticone B x y : y ∈ anticone B x <-> y ∈ B /\ f y x = false /\ f x y = false.
Proof. unfold anticone. rewrite elem_of_filter. naive_solver. Qed.

Lemma can_be_blue_true B c : can_be_blue B c = true <->
  anticone_size B c <= k /\ forall y, y ∈ anticone B c -> anticone_size B y + 1 <= k.
Proof.
  unfold can_be_blue. rewrite andb_true_iff, Z.leb_le, forallb_forall. split; intros [H1 H2]; (split; [done|]).
  - intros y Hy. apply Z.leb_le, H2. apply list_elem_of_In, elem_of_elements. done.
  - intros y Hy. apply Z.leb_le, H2. apply list_elem_of_In, elem_of_elements in Hy. done.
Qed.

(** Adding a blue block raises the anticone sizes of its anticone by one. *)
Lemma anticone_size_add B c x : c ∉ B -> f c x = false ->
  anticone_size ({[c]} ∪ B) x = anticone_size B x + (if f x c then 0 else 1).
Proof.
  intros Hc Hcx. unfold anticone_size, anticone.
  destruct (f x c) eqn:E.
  - rewrite Z.add_0_r. do 2 f_equal. apply set_eq. intros y. rewrite !elem_of_filter, elem_of_union, elem_of_singleton.
    split; [|naive_solver]. intros [Hy [->|?]]; [|done]. destruct Hy as [_ ?]. congruence.
  - assert (filter (fun y => f y x = false /\ f x y = false) ({[c]} ∪ B) = {[c]} ∪ filter (fun y => f y x = false /\ f x y = false) B) as ->.
    { apply set_eq. intros y. rewrite elem_of_union, !elem_of_filter, elem_of_union, elem_of_singleton. naive_solver. }
    rewrite size_union, size_singleton; [lia|]. intros y ->%elem_of_singleton [_ ?]%elem_of_filter. done.
Qed.

Lemma greedy_perm B l : (greedy B l).1 ++ (greedy B l).2 ≡ₚ l.
Proof.
  revert B. induction l as [|c l IH]; intros B; [done|]. cbn. destruct (can_be_blue B c).
  - specialize (IH ({[c]} ∪ B)). destruct (greedy ({[c]} ∪ B) l) as [bs rs]. cbn in *. by rewrite IH.
  - specialize (IH B). destruct (greedy B l) as [bs rs]. cbn in *. by rewrite <-IH, Permutation_middle.
Qed.
End reference.

(** ** The blue past of a stored block *)

Section chain.
Context (g : gmap Hash GhostdagData) (G : Hash).

(** The blue blocks in the past of [b], by the selected chain down to the
    genesis [G], and the length of that chain. *)
Inductive blue_past : Hash -> gset Hash -> nat -> Prop :=
| blue_past_genesis : blue_past G ∅ 0
| blue_past_step b d B n : g !! b = Some d -> b <> G -> blue_past (selected_parent d) B n ->
    blue_past b (list_to_set (mergeset_blues d) ∪ B) (S n).

(** The anticone size of [x] that the chain of [b] records: the entry nearest
    to [b]. *)
Inductive recorded : Hash -> Hash -> Z -> Prop :=
| recorded_here b d x s : g !! b = Some d -> b <> G -> blues_anticone_sizes d !! x = Some s -> recorded b x s
| recorded_up b d x s : g !! b = Some d -> b <> G -> blues_anticone_sizes d !! x = None ->
    recorded (selected_parent d) x s -> recorded b x s.

(** The same for a block with data [d] that is not stored. *)
Definition recorded_in (d : GhostdagData) (x : Hash) (s : Z) : Prop :=
  blues_anticone_sizes d !! x = Some s \/
  (blues_anticone_sizes d !! x = None /\ recorded (selected_parent d) x s).

Lemma recorded_in_fun d x s s' : recorded_in d x s -> recorded_in d x s' -> s = s'.
Proof.
  assert (forall b s s', recorded b x s -> recorded b x s' -> s = s') as Hf.
  { clear. intros b s s' H. revert s'. induction H; intros s' H'; inversion H'; simplify_eq; auto. }
  unfold recorded_in. intros [H1|[H1 H1']] [H2|[H2 H2']]; try congruence. by eapply Hf.
Qed.
End chain.

(** ** The invariant *)

Definition block_work (g : gmap Hash GhostdagData) (h : Hash) : Z := default 0 (blue_work <$> g !! h).

(** The data [d] of a block [b] whose selected parent has the blue past [B]. *)
Record block_inv (D : dag) (g : gmap Hash GhostdagData) (G : Hash) (f : Hash -> Hash -> bool) (k : Z)
    (b : Hash) (d : GhostdagData) (B : gset Hash) : Prop := {
  bi_parent : parent_of D (selected_parent d) b;
  bi_blues : exists bl, mergeset_blues d = selected_parent d :: bl /\ NoDup (selected_parent d :: bl) /\
    forall x, x ∈ bl -> x ∈ dom D /\ dag_anc D x b /\ x <> b /\ ~ dag_anc D x (selected_parent d);
  bi_sizes : forall x, x ∈ list_to_set (mergeset_blues d) ∪ B ->
    recorded_in g G d x (anticone_size f (list_to_set (mergeset_blues d) ∪ B) x);
  bi_cluster : k_cluster f k (list_to_set (mergeset_blues d) ∪ B)
}.

Record dag_inv (D : dag) (g : gmap Hash GhostdagData) (G : Hash) (f : Hash -> Hash -> bool) (k : Z) : Prop := {
  di_closed : dag_closed D;
  di_decides : decides D f;
  di_genesis : G ∈ dom D /\ (forall x, x ∈ dom D -> dag_anc D G x);
  di_origin : ORIGIN ∉ dom D;
  di_data : forall x, x ∈ dom D -> is_Some (g !! x);
  di_ranked : ranked D (block_work g);
  di_block : forall b, b ∈ dom D -> b <> G ->
    exists d B n, g !! b = Some d /\ blue_past g G (selected_parent d) B n /\ block_inv D g G f k b d B
}.
