(* ===== verification/GhostdagMergeset.v ===== *)
(** * Mergeset and order of a new block

    The breadth-first search finds exactly the blocks in the past of the
    parents that are not in the past of the selected parent; the selected
    parent is the greatest parent in the blue-work order; the sorted mergeset is
    in topological order. *)
From S2P Require Import Prelude Tx Dag ReachStore ReachService Math Params GhostdagStore Difficulty Ghostdag.

#[local] Open Scope Z_scope.

(** What the GHOSTDAG manager relies on: the reachability service answers with
    the function [f], which decides ancestry in [D]. *)
Record reach_ok {R} `{ReachabilityService R} (r : R) (D : dag) (f : Hash -> Hash -> bool) : Prop := {
  ro_query : forall x y, x ∈ dom D -> y ∈ dom D -> try_is_dag_ancestor_of r x y = Ok (f x y);
  ro_decides : decides D f
}.

Section mergeset.
Context {S R : Type} `{GhostdagStoreReader S} `{ReachabilityService R}.
Context (gm : GhostdagManager S R) (D : dag) (f : Hash -> Hash -> bool).
Context (Hreach : reach_ok (reachability_service gm) D f) (Hclosed : dag_closed D).
Context (sp : Hash) (Hsp : sp ∈ dom D) (parents : list Hash).
Context (Hparents : forall p, p ∈ parents -> p ∈ dom D /\ (p = sp \/ ~ dag_anc D p sp)).
Context (Hrel : forall x, x ∈ dom D -> ~ dag_anc D x sp -> relations_store gm !! x = D !! x).

Lemma dag_query x y : x ∈ dom D -> y ∈ dom D -> dag_ancestor (E := ()) (reachability_service gm) x y = Ok (f x y).
Proof. intros Hx Hy. unfold dag_ancestor. by rewrite (ro_query _ _ _ Hreach). Qed.

(** In the past of a parent and not in the past of the selected parent. *)
Definition merged (x : Hash) : Prop := (exists p, p ∈ parents /\ dag_anc D x p) /\ ~ dag_anc D x sp.

(** The search: [ms] is the mergeset so far, [done] its blocks whose parents
    were visited, [queue] the others. *)
Record search (ms past : gset Hash) (queue : list Hash) : Prop := {
  se_dom : forall x, x ∈ ms -> x ∈ dom D;
  se_merged : forall x, x ∈ ms -> merged x;
  se_past : forall x, x ∈ past -> dag_anc D x sp;
  se_queue : NoDup queue /\ forall x, x ∈ queue -> x ∈ ms;
  se_parents : forall p, p ∈ parents -> p = sp \/ p ∈ ms;
  se_closed : forall x y, x ∈ ms -> x ∉ queue -> parent_of D y x -> y ∈ ms \/ dag_anc D y sp
}.

(** One pass over parents [ps] of blocks of the mergeset. *)
Lemma merge_parents_ok ps ms past queue :
  (forall p, p ∈ ps -> p ∈ dom D /\ (dag_anc D p sp \/ merged p)) ->
  (forall x, x ∈ past -> dag_anc D x sp) -> (forall x, x ∈ queue -> x ∈ ms) -> NoDup queue ->
  exists past' new, merge_parents gm sp ps ms past queue = Ok (list_to_set new ∪ ms, past', queue ++ new) /\
    (forall x, x ∈ past' -> dag_anc D x sp) /\ NoDup (queue ++ new) /\
    (forall x, x ∈ new -> x ∈ ps /\ x ∉ ms /\ merged x) /\
    (forall p, p ∈ ps -> p ∈ new \/ p ∈ ms \/ dag_anc D p sp).
Proof.
  revert ms past queue; induction ps as [|p ps IH]; intros ms past queue Hps Hpast Hq Hnd; cbn [merge_parents].
  { exists past, []. rewrite app_nil_r. split; [by rewrite list_to_set_nil, union_empty_l_L|]. split; [done|]. split; [done|].
    split; by intros x ?%elem_of_nil. }
  assert (forall x, x ∈ ps -> x ∈ dom D /\ (dag_anc D x sp \/ merged x)) as Hps' by (intros; apply Hps; by right).
  destruct (bool_decide (p ∈ ms) || bool_decide (p ∈ past)) eqn:Eseen.
  - destruct (IH ms past queue Hps' Hpast Hq Hnd) as (past' & new & -> & H1 & H2 & H3 & H4).
    exists past', new. split; [done|]. split; [done|]. split; [done|]. split.
    + intros x Hx. destruct (H3 x Hx) as (? & ? & ?). split; [by right|done].
    + intros x [->|Hx]%elem_of_cons; [|by apply H4]. rewrite orb_true_iff, !bool_decide_eq_true in Eseen.
      destruct Eseen; auto.
  - apply orb_false_iff in Eseen as [Hm%bool_decide_eq_false Hp%bool_decide_eq_false].
    destruct (Hps p ltac:(left)) as [Hpd Hpc]. rewrite dag_query by done. run. destruct (f p sp) eqn:Ef.
    + apply (ro_decides _ _ _ Hreach) in Ef; [|done..].
      destruct (IH ms ({[p]} ∪ past) queue Hps') as (past' & new & -> & H1 & H2 & H3 & H4); [|done|done|].
      { intros x [Hx%elem_of_singleton|?]%elem_of_union; [by subst|auto]. }
      exists past', new. split; [done|]. split; [done|]. split; [done|]. split.
      * intros x Hx. destruct (H3 x Hx) as (? & ? & ?). split; [by right|done].
      * intros x [->|Hx]%elem_of_cons; auto.
    + apply (decides_false _ _ _ _ (ro_decides _ _ _ Hreach)) in Ef; [|done..]. destruct Hpc as [?|Hpm]; [done|].
      destruct (IH ({[p]} ∪ ms) past (queue ++ [p]) Hps' Hpast) as (past' & new & -> & H1 & H2 & H3 & H4).
      { intros x [?|Hx%list_elem_of_singleton]%elem_of_app; [|subst; by apply elem_of_union_l, elem_of_singleton].
        by apply elem_of_union_r, Hq. }
      { apply NoDup_app. split; [done|]. split; [|apply NoDup_singleton].
        intros x Hx ->%list_elem_of_singleton. by apply Hm, Hq. }
      exists past', (p :: new). rewrite <-app_assoc in *. split; [|split; [done|split; [done|split]]].
      * do 3 f_equal. cbn. rewrite (assoc_L (∪)). f_equal. apply (comm_L (∪)).
      * intros x [->|Hx]%elem_of_cons; [split; [by left|done]|]. destruct (H3 x Hx) as (? & Hn & ?).
        split; [by right|]. split; [|done]. intros ?. by apply Hn, elem_of_union_r.
      * intros x [->|Hx]%elem_of_cons; [by left; left|]. destruct (H4 x Hx) as [?|[Hin|?]]; [by left; right| |by auto].
        apply elem_of_union in Hin as [Hin%elem_of_singleton|?]; [subst; by left; left|auto].
Qed.

(** A parent of a merged block is merged or in the past of the selected
    parent. *)
Lemma merged_parent x y : merged x -> parent_of D y x -> dag_anc D y sp \/ merged y.
Proof.
  intros [(p & Hp & Hxp) Hx] Hyx. assert (y ∈ dom D) as Hy by (by eapply Hclosed).
  destruct (f y sp) eqn:Ef; [left; by apply (ro_decides _ _ _ Hreach) in Ef|].
  right. split; [|by apply (decides_false _ _ _ _ (ro_decides _ _ _ Hreach)) in Ef].
  exists p. split; [done|]. eapply rtc_l; [exact Hyx|done].
Qed.

Lemma search_step current queue ms past ps :
  search ms past (current :: queue) -> D !! current = Some ps ->
  exists past' new, merge_parents gm sp ps ms past queue = Ok (list_to_set new ∪ ms, past', queue ++ new) /\
    search (list_to_set new ∪ ms) past' (queue ++ new) /\ (forall x, x ∈ new -> x ∉ ms) /\ NoDup new.
Proof.
  intros [Hd Hm Hp [Hnd Hq] Hpar Hcl] Hps. apply NoDup_cons in Hnd as [Hcq Hnd].
  assert (current ∈ ms) as Hcm by (apply Hq; left).
  assert (forall p, p ∈ ps -> parent_of D p current) as Hpo by (intros p ?; by exists ps).
  destruct (merge_parents_ok ps ms past queue) as (past' & new & Hrun & H1 & H2 & H3 & H4).
  - intros p Hin. split; [by eapply Hclosed, Hpo|]. apply (merged_parent current); auto.
  - done.
  - intros x Hx. apply Hq. by right.
  - done.
  - exists past', new. split; [done|]. split; [|split; [intros x Hx; by destruct (H3 x Hx) as (_ & ? & _)|
      by apply NoDup_app in H2 as (_ & _ & ?)]]. constructor.
    + intros x [Hx%elem_of_list_to_set|?]%elem_of_union; [|auto]. destruct (H3 x Hx) as (Hin & _). by eapply Hclosed, Hpo.
    + intros x [Hx%elem_of_list_to_set|?]%elem_of_union; [|auto]. by destruct (H3 x Hx) as (_ & _ & ?).
    + done.
    + split; [done|]. intros x [Hx|Hx]%elem_of_app; [apply elem_of_union_r, Hq; by right|by apply elem_of_union_l, elem_of_list_to_set].
    + intros p Hin. destruct (Hpar p Hin); [by left|right; by apply elem_of_union_r].
    + intros x y Hx Hnq Hyx. apply not_elem_of_app in Hnq as [Hnq Hnn].
      apply elem_of_union in Hx as [Hx%elem_of_list_to_set|Hx]; [done|].
      destruct (decide (x = current)) as [->|Hne].
      * destruct Hyx as (ps' & Hl & Hy). simplify_eq. destruct (H4 y Hy) as [?|[?|?]]; [|by left; apply elem_of_union_r|by right].
        left. by apply elem_of_union_l, elem_of_list_to_set.
      * destruct (Hcl x y Hx) as [?|?]; [intros [?|?]%elem_of_cons; done|done|left; by apply elem_of_union_r|by right].
Qed.

Lemma mergeset_loop_ok n ms past queue :
  search ms past queue -> (length queue + base.size (dom D ∖ ms) < n)%nat ->
  exists ms', mergeset_loop gm n sp ms past queue = Ok ms' /\ exists past', search ms' past' [].
Proof.
  revert ms past queue; induction n as [|n IH]; intros ms past queue Hs Hn; [lia|]. cbn [mergeset_loop].
  destruct queue as [|current queue]; [eauto|].
  assert (current ∈ ms) as Hc by (apply (se_queue _ _ _ Hs); left).
  pose proof (se_dom _ _ _ Hs _ Hc) as Hcd. destruct (se_merged _ _ _ Hs _ Hc) as [_ Hcs]. rewrite Hrel by done.
  apply elem_of_dom in Hcd as [ps Hps]. rewrite Hps. run.
  destruct (search_step current queue ms past ps Hs Hps) as (past' & new & -> & Hs' & Hfresh & Hnd). run.
  apply IH; [done|]. rewrite length_app. cbn [length] in Hn.
  assert (base.size (dom D ∖ ms) = length new + base.size (dom D ∖ (list_to_set new ∪ ms)))%nat as E; [|lia].
  rewrite <-(size_list_to_set (C := gset Hash) new) by done. rewrite <-size_union.
  - f_equal. apply set_eq. intros x. rewrite !elem_of_union, !elem_of_difference, elem_of_union, elem_of_list_to_set.
    destruct (decide (x ∈ new)) as [Hx|Hx]; [|naive_solver].
    assert (x ∈ dom D) by (apply (se_dom _ _ _ Hs'), elem_of_union_l, elem_of_list_to_set; done).
    pose proof (Hfresh x Hx). naive_solver.
  - intros x Hx. rewrite elem_of_difference, elem_of_union. naive_solver.
Qed.

(** When nothing is queued the search holds the whole mergeset. *)
Lemma search_complete ms past x : search ms past [] -> merged x -> x ∈ ms.
Proof.
  intros Hs [(p & Hp & Hxp) Hx].
  assert (p ∈ ms) as Hpm.
  { destruct (se_parents _ _ _ Hs p Hp) as [->|?]; [done|done]. }
  clear Hp. revert Hpm. induction Hxp as [x|x y p Hxy Hyp IH]; [done|]. intros Hpm.
  assert (~ dag_anc D y sp) as Hy by (intros Ha; apply Hx; by eapply rtc_l).
  destruct (se_closed _ _ _ Hs y x (IH Hy Hpm)) as [?|?]; [apply not_elem_of_nil|done|done|done].
Qed.

Lemma unordered_mergeset_ok fuel : NoDup parents -> (base.size (dom D) < fuel)%nat ->
  exists ms, unordered_mergeset_without_selected_parent fuel gm sp parents = Ok ms /\
    (forall x, x ∈ ms <-> merged x) /\ forall x, x ∈ ms -> x ∈ dom D.
Proof.
  intros Hnd Hf. unfold unordered_mergeset_without_selected_parent. set (queue := filter (fun p => p <> sp) parents).
  assert (forall x, x ∈ queue <-> x <> sp /\ x ∈ parents) as Hq by (intros x; unfold queue; by rewrite list_elem_of_filter).
  assert (NoDup queue) as Hndq by (by apply NoDup_filter).
  assert (search (list_to_set queue) ∅ queue) as Hs0.
  { constructor.
    - intros x [Hne Hx]%elem_of_list_to_set%Hq. by apply Hparents.
    - intros x [Hne Hx]%elem_of_list_to_set%Hq. split; [exists x; split; [done|apply rtc_refl]|].
      destruct (Hparents x Hx) as [_ [?|?]]; done.
    - intros x ?%elem_of_empty. done.
    - split; [done|]. intros x Hx. by apply elem_of_list_to_set.
    - intros p Hp. destruct (decide (p = sp)); [by left|right]. by apply elem_of_list_to_set, Hq.
    - intros x y Hx%elem_of_list_to_set Hn. done. }
  destruct (mergeset_loop_ok fuel _ _ _ Hs0) as (ms & Hrun & past & Hs).
  - rewrite <-(size_list_to_set (C := gset Hash) queue) by done. rewrite <-size_union by set_solver.
    eapply Nat.le_lt_trans; [|exact Hf]. apply subseteq_size. intros x. rewrite elem_of_union, elem_of_difference.
    intros [Hx|[]]; [|done]. by apply (se_dom _ _ _ Hs0).
  - exists ms. split; [done|]. split; [|apply (se_dom _ _ _ Hs)]. intros x. split; [apply (se_merged _ _ _ Hs)|].
    by eapply search_complete.
Qed.
End mergeset.

(** ** The blue-work order *)

Definition work_le (a b : SortableBlock) : Prop := sortable_cmp a b <> Gt.

Ltac work_cases := unfold work_le, sortable_leb, sortable_cmp in *;
  repeat match goal with
  | H : context [?x ?= ?y] |- _ => destruct (Z.compare_spec x y)
  | |- context [?x ?= ?y] => destruct (Z.compare_spec x y)
  end; try (done || lia).

Lemma work_le_refl a : work_le a a.
Proof. work_cases. Qed.
Lemma work_le_trans a b c : work_le a b -> work_le b c -> work_le a c.
Proof. intros. work_cases. Qed.
Lemma work_le_total a b : work_le a b \/ work_le b a.
Proof. destruct (sortable_cmp a b) eqn:E; unfold work_le; [left; congruence|left; congruence|right]. work_cases. Qed.
Lemma work_le_work a b : work_le a b -> sb_blue_work a <= sb_blue_work b.
Proof. intros. work_cases. Qed.
Lemma work_le_antisym a b : work_le a b -> work_le b a -> a = b.
Proof. intros. destruct a, b. cbn in *. work_cases; cbn in *; f_equal; lia. Qed.
Lemma sortable_leb_le a b : sortable_leb a b = true <-> work_le a b.
Proof. unfold sortable_leb, work_le. destruct (sortable_cmp a b); naive_solver. Qed.

Lemma StronglySorted_weaken {A} (P Q : A -> A -> Prop) l : (forall x y, P x y -> Q x y) ->
  StronglySorted P l -> StronglySorted Q l.
Proof. intros HPQ. induction 1; constructor; [done|]. eapply Forall_impl; [done|]. eauto. Qed.

Section order.
Context {S R : Type} `{GhostdagStoreLaws S} (gm : GhostdagManager S R) (Hok : ghostdag_ok (ghostdag_store gm)).
Notation g := (ghostdag_map (ghostdag_store gm)).

Definition work_of (h : Hash) : Z := default 0 (blue_work <$> g !! h).
Definition sort_key (h : Hash) : SortableBlock := mkSortable h (work_of h).

Lemma sortable_ok h : is_Some (g !! h) -> sortable gm h = Ok (sort_key h).
Proof.
  intros [d Hd]. unfold sortable, sort_key, work_of. rewrite get_blue_work_law by done. unfold read. by rewrite Hd.
Qed.

Lemma sortables_ok l : (forall h, h ∈ l -> is_Some (g !! h)) -> mapM' (sortable gm) l = Ok (sort_key <$> l).
Proof.
  induction l as [|h l IH]; intros Hl; [done|]. cbn [mapM' fmap list_fmap]. rewrite sortable_ok by (apply Hl; left). run.
  rewrite IH by (intros; apply Hl; by right). done.
Qed.

Lemma sort_blocks_ok l : (forall h, h ∈ l -> is_Some (g !! h)) ->
  exists l', sort_blocks gm l = Ok l' /\ l' ≡ₚ l /\ StronglySorted work_le (sort_key <$> l').
Proof.
  intros Hl. unfold sort_blocks. rewrite sortables_ok by done. run. eexists. split; [done|].
  assert (sort_by sortable_leb (sort_key <$> l) ≡ₚ sort_key <$> l) as Hp by apply sort_by_perm.
  assert (sort_key <$> (sb_hash <$> sort_by sortable_leb (sort_key <$> l)) = sort_by sortable_leb (sort_key <$> l)) as Hid.
  { rewrite <-list_fmap_compose. rewrite <-(list_fmap_id (sort_by _ _)) at 2. apply list_fmap_ext. intros i x Hx.
    apply list_elem_of_lookup_2 in Hx. rewrite Hp in Hx. apply list_elem_of_fmap in Hx as (h & -> & _). done. }
  split.
  - rewrite Hp, <-list_fmap_compose. rewrite <-(list_fmap_id l) at 2. done.
  - rewrite Hid. pose proof (sort_by_sorted sortable_leb) as Hs.
    eapply StronglySorted_weaken; [|apply Hs].
    + intros x y. apply sortable_leb_le.
    + intros x y. rewrite !sortable_leb_le. apply work_le_total.
    + intros x y z. rewrite !sortable_leb_le. apply work_le_trans.
Qed.

Lemma sortable_max_le x l : let m := foldl sortable_max x l in
  m ∈ x :: l /\ forall y, y ∈ x :: l -> work_le y m.
Proof.
  revert x; induction l as [|y l IH]; intros x; cbn [foldl].
  - split; [left|]. intros y ->%list_elem_of_singleton. apply work_le_refl.
  - destruct (IH (sortable_max x y)) as [Hin Hmax].
    assert (work_le x (sortable_max x y) /\ work_le y (sortable_max x y)) as [Hx Hy].
    { unfold sortable_max. destruct (sortable_cmp x y) eqn:E; (split; [|try apply work_le_refl]; try (unfold work_le; congruence)).
      - apply work_le_refl.
      - destruct (work_le_total x y); [by unfold work_le in *|done]. }
    split.
    + apply elem_of_cons in Hin as [->|?]; [|by do 2 right]. unfold sortable_max. destruct (sortable_cmp x y); [right; left|right; left|left].
    + intros z [->|[->|Hz]%elem_of_cons]%elem_of_cons.
      * eapply work_le_trans; [exact Hx|apply Hmax; left].
      * eapply work_le_trans; [exact Hy|apply Hmax; left].
      * apply Hmax. by right.
Qed.

Lemma find_selected_parent_ok parents : parents <> [] -> (forall h, h ∈ parents -> is_Some (g !! h)) ->
  exists sp, find_selected_parent gm parents = Ok sp /\ sp ∈ parents /\
    forall p, p ∈ parents -> work_le (sort_key p) (sort_key sp).
Proof.
  intros Hne Hl. unfold find_selected_parent. rewrite sortables_ok by done. run.
  destruct parents as [|p parents]; [done|]. cbn [fmap list_fmap]. change (list_fmap _ _ sort_key parents) with (sort_key <$> parents).
  destruct (sortable_max_le (sort_key p) (sort_key <$> parents)) as [Hin Hmax].
  change (sort_key p :: (sort_key <$> parents)) with (sort_key <$> (p :: parents)) in *.
  apply list_elem_of_fmap in Hin as (sp & E & Hsp). eexists. split; [done|]. rewrite E. cbn. split; [done|].
  intros q Hq. rewrite <-E. apply Hmax. apply list_elem_of_fmap. eauto.
Qed.

(** Sorted blocks are in topological order when the blue work grows along the
    edges. *)
Lemma sorted_topological D l i j x y : ranked D work_of -> StronglySorted work_le (sort_key <$> l) -> NoDup l ->
  l !! i = Some x -> l !! j = Some y -> (i < j)%nat -> ~ dag_anc D y x.
Proof.
  intros Hr Hs Hnd Hx Hy Hij Hyx. assert (work_of x <= work_of y) as Hle.
  { apply (work_le_work (sort_key x) (sort_key y)). clear Hyx Hnd. revert i j Hx Hy Hij.
    induction l as [|z l IH]; intros i j Hx Hy Hij; [done|]. cbn in Hs. apply StronglySorted_inv in Hs as [Hs Hall].
    destruct j as [|j]; [lia|]. cbn in Hy. destruct i as [|i]; cbn in Hx.
    - injection Hx as ->. rewrite Forall_fmap, Forall_forall in Hall. apply (Hall y). by eapply list_elem_of_lookup_2.
    - apply (IH Hs i j); [done|done|lia]. }
  destruct (ranked_anc _ _ _ _ Hr Hyx) as [->|?]; [|lia]. assert (i = j) by (by eapply NoDup_lookup). lia.
Qed.
End order.
