(* ===== verification/GhostdagColor.v ===== *)
(** * The colouring refines the reference

    [check_blue_candidate] accepts a candidate exactly when the two conditions
    of the reference hold, with the exact anticone sizes, although it only
    visits the blues that are not in the past of the candidate and looks the
    sizes up along the selected chain. *)
From S2P Require Import Prelude Tx Dag ReachStore ReachService Math Params GhostdagStore Difficulty Ghostdag GhostdagMergeset GhostdagSpec.

#[local] Open Scope Z_scope.

Section chain_facts.
Context (D : dag) (g : gmap Hash GhostdagData) (G : Hash) (f : Hash -> Hash -> bool) (k : Z).
Context (I : dag_inv D g G f k).

Lemma genesis_dom : G ∈ dom D.
Proof. apply I. Qed.

Lemma f_true x y : x ∈ dom D -> y ∈ dom D -> f x y = true <-> dag_anc D x y.
Proof. apply (di_decides _ _ _ _ _ I). Qed.

Lemma f_false x y : x ∈ dom D -> y ∈ dom D -> f x y = false <-> ~ dag_anc D x y.
Proof. apply decides_false, I. Qed.

Lemma selected_parent_facts b d : b ∈ dom D -> b <> G -> g !! b = Some d ->
  selected_parent d ∈ dom D /\ dag_anc D (selected_parent d) b /\ selected_parent d <> b.
Proof.
  intros Hb Hg Hd. destruct (di_block _ _ _ _ _ I b Hb Hg) as (d' & B & n & Hd' & _ & [Hp _ _ _]). simplify_eq.
  split_and!.
  - by eapply (di_closed _ _ _ _ _ I).
  - eapply rtc_l; [exact Hp|apply rtc_refl].
  - intros E. apply (di_ranked _ _ _ _ _ I) in Hp. rewrite E in Hp. lia.
Qed.

(** The blue past is in the strict past. *)
Lemma blue_past_in b B n x : blue_past g G b B n -> b ∈ dom D -> x ∈ B -> x ∈ dom D /\ dag_anc D x b /\ x <> b.
Proof.
  induction 1 as [|b d B n Hd Hg Hbp IH]; intros Hb Hx; [by apply elem_of_empty in Hx|].
  destruct (selected_parent_facts b d Hb Hg Hd) as (Hsd & Hsb & Hne).
  apply elem_of_union in Hx as [Hx%elem_of_list_to_set|Hx].
  - destruct (di_block _ _ _ _ _ I b Hb Hg) as (d' & B' & n' & Hd' & _ & [_ (bl & Hbl & _ & Hin) _ _]). simplify_eq.
    rewrite Hbl in Hx. apply elem_of_cons in Hx as [->|Hx]; [done|]. destruct (Hin x Hx) as (? & ? & ? & _). done.
  - destruct (IH Hsd Hx) as (Hxd & Hxs & Hxne). split; [done|]. split; [by eapply dag_anc_trans|].
    intros ->. apply Hne. by eapply ranked_antisym; [apply (di_ranked _ _ _ _ _ I)| |].
Qed.

(** The chain has at most as many blocks as the DAG. *)
Lemma blue_past_length b B n : blue_past g G b B n -> b ∈ dom D -> (n < base.size (dom D))%nat.
Proof.
  intros Hbp Hb. assert (exists l, NoDup l /\ length l = S n /\ forall x, x ∈ l -> x ∈ dom D /\ dag_anc D x b) as (l & Hnd & Hl & Hin).
  { induction Hbp as [|b d B n Hd Hg Hbp IH].
    - exists [G]. split; [apply NoDup_singleton|]. split; [done|]. intros x ->%list_elem_of_singleton. split; [done|apply rtc_refl].
    - destruct (selected_parent_facts b d Hb Hg Hd) as (Hsd & Hsb & Hne). destruct (IH Hsd) as (l & Hnd & Hl & Hin).
      exists (b :: l). split; [|split; [cbn; lia|]].
      + apply NoDup_cons. split; [|done]. intros Hbl. destruct (Hin b Hbl) as [_ Hbs]. apply Hne.
        by eapply ranked_antisym; [apply (di_ranked _ _ _ _ _ I)| |].
      + intros x [->|Hx]%elem_of_cons; [split; [done|apply rtc_refl]|]. destruct (Hin x Hx). split; [done|by eapply dag_anc_trans]. }
  assert (base.size (list_to_set l : gset Hash) <= base.size (dom D))%nat as Hs.
  { apply subseteq_size. intros x Hx%elem_of_list_to_set. by apply Hin. }
  rewrite size_list_to_set in Hs by done. lia.
Qed.

Lemma blue_past_fun b B n B' n' : blue_past g G b B n -> blue_past g G b B' n' -> B = B' /\ n = n'.
Proof.
  intros H. revert B' n'. induction H as [|b d B n Hd Hg Hbp IH]; intros B' n' H'; inversion H'; simplify_eq; [done|].
  match goal with H : blue_past _ _ (selected_parent _) _ _ |- _ => destruct (IH _ _ H) as [-> ->] end. done.
Qed.

Lemma blue_past_genesis_inv b B n : blue_past g G b B n -> b = G -> B = ∅ /\ n = 0%nat.
Proof. by destruct 1. Qed.

(** The block of a chain, with the data of the invariant. *)
Lemma blue_past_block b B n : blue_past g G b B n -> b ∈ dom D -> b <> G ->
  exists d B' n', g !! b = Some d /\ B = list_to_set (mergeset_blues d) ∪ B' /\ n = S n' /\
    blue_past g G (selected_parent d) B' n' /\ block_inv D g G f k b d B'.
Proof.
  intros H Hb Hg. inversion H as [|? d B' n' Hd _ Hbp]; simplify_eq.
  destruct (di_block _ _ _ _ _ I b Hb Hg) as (d' & B2 & n2 & Hd' & Hbp2 & Hinv). simplify_eq.
  destruct (blue_past_fun _ _ _ _ _ Hbp Hbp2) as [-> ->]. exists d, B2, n2. done.
Qed.

(** Blues inherited by the selected parent are not blues of the mergeset. *)
Lemma mergeset_disjoint b d B n x : blue_past g G (selected_parent d) B n -> block_inv D g G f k b d B ->
  selected_parent d ∈ dom D -> x ∈ mergeset_blues d -> x ∉ B.
Proof.
  intros Hbp [_ (bl & Hbl & _ & Hin) _ _] Hsd Hx HB. destruct (blue_past_in _ _ _ _ Hbp Hsd HB) as (_ & Hxs & Hne).
  rewrite Hbl in Hx. apply elem_of_cons in Hx as [->|Hx]; [done|]. by destruct (Hin x Hx) as (_ & _ & _ & ?).
Qed.
End chain_facts.

Section coloring.
Context {S R : Type} `{GhostdagStoreLaws S} `{ReachabilityService R}.
Context (fuel : nat) (gm : GhostdagManager S R) (D : dag) (f : Hash -> Hash -> bool) (k : Z).
Notation g := (ghostdag_map (ghostdag_store gm)).
Notation G := (gm_genesis_hash gm).
Context (Hok : ghostdag_ok (ghostdag_store gm)) (I : dag_inv D g G f k).
Context (Hreach : reach_ok (reachability_service gm) D f).
Context (Hk : 0 <= k < 65535) (Hfuel : (base.size (dom D) < fuel)%nat).
Context (sp : Hash) (Bsp : gset Hash) (nsp : nat) (Hsp : sp ∈ dom D) (Hbp : blue_past g G sp Bsp nsp).

(** The look-up along the chain finds the recorded size. *)
Lemma anticone_size_loop_ok b B n x s sizes : blue_past g G b B n -> b ∈ dom D -> recorded g G b x s ->
  sizes !! x = None -> anticone_size_loop gm (2 + n) x sizes b = Ok s.
Proof.
  intros Hb. revert sizes. induction Hb as [|b d B n Hd Hg Hbp' IH]; intros sizes Hbd Hrec Hnone; [by inversion Hrec|].
  change (2 + Datatypes.S n)%nat with (Datatypes.S (2 + n)). cbn [anticone_size_loop]. rewrite Hnone.
  destruct (Z.eqb_spec b G); [done|]. destruct (Z.eqb_spec b ORIGIN) as [->|]; [by destruct (di_origin _ _ _ _ _ I)|]. cbn [orb].
  rewrite get_blues_anticone_sizes_law, get_selected_parent_law by done. unfold read. rewrite Hd. run.
  destruct (selected_parent_facts D g G f k I b d Hbd Hg Hd) as (Hsd & _).
  inversion Hrec as [? ? ? ? Hd' _ Hs|? ? ? ? Hd' _ Hs Hup]; simplify_eq.
  - cbn [Nat.add anticone_size_loop]. by rewrite Hs.
  - by apply IH.
Qed.

Lemma anticone_loop_mono n x sizes b s m : anticone_size_loop gm n x sizes b = Ok s -> (n <= m)%nat ->
  anticone_size_loop gm m x sizes b = Ok s.
Proof.
  revert sizes b m; induction n as [|n IH]; intros sizes b m E Hm; [done|]. destruct m as [|m]; [lia|]. cbn [anticone_size_loop] in *.
  destruct (sizes !! x); [done|]. destruct (_ || _); [done|]. destruct (unwrap_r _) as [s1| | |]; try done. revert E. run. intros E.
  destruct (unwrap_r _) as [s2| | |]; try done. revert E. run. intros E. apply (IH _ _ m E). lia.
Qed.

Lemma blue_anticone_size_ok d x s : selected_parent d = sp -> recorded_in g G d x s -> blue_anticone_size fuel gm x d = Ok s.
Proof.
  intros Hd Hrec. unfold blue_anticone_size. rewrite Hd. pose proof (blue_past_length D g G f k I _ _ _ Hbp Hsp) as Hn.
  destruct Hrec as [Hs|[Hs Hrec]].
  - destruct fuel; [lia|]. cbn. by rewrite Hs.
  - rewrite Hd in Hrec. eapply anticone_loop_mono; [by eapply anticone_size_loop_ok|]. lia.
Qed.

(** The state of the colouring: the blue set and the recorded sizes are
    right. *)
Definition blues_of (d : GhostdagData) : gset Hash := list_to_set (mergeset_blues d) ∪ Bsp.

Record colored (d : GhostdagData) : Prop := {
  co_sp : selected_parent d = sp;
  co_blues : exists bl, mergeset_blues d = sp :: bl /\ NoDup (sp :: bl) /\
    forall x, x ∈ bl -> x ∈ dom D /\ ~ dag_anc D x sp /\ ~ dag_anc D sp x;
  co_sizes : forall x, x ∈ blues_of d -> recorded_in g G d x (anticone_size f (blues_of d) x);
  co_cluster : k_cluster f k (blues_of d)
}.

(** The anticone of the selected parent holds the other blues of the
    mergeset. *)
Lemma sp_anticone d : colored d ->
  sp ∈ blues_of d /\ Z.of_nat (length (mergeset_blues d)) <= anticone_size f (blues_of d) sp + 1.
Proof.
  intros Hd. destruct (co_blues _ Hd) as (bl & Hbl & Hnd & Hin). apply NoDup_cons in Hnd as [Hns Hnd].
  assert (list_to_set bl ⊆ anticone f (blues_of d) sp) as Hsub.
  { intros x Hx%elem_of_list_to_set. destruct (Hin x Hx) as (Hxd & ? & ?). apply elem_of_anticone. split.
    - apply elem_of_union_l, elem_of_list_to_set. rewrite Hbl. by right.
    - split; by apply (f_false D g G f k I). }
  split; [apply elem_of_union_l, elem_of_list_to_set; rewrite Hbl; left|].
  apply subseteq_size in Hsub. rewrite size_list_to_set in Hsub by done. unfold anticone_size. rewrite Hbl. cbn [length]. lia.
Qed.

Lemma blues_length d : colored d -> Z.of_nat (length (mergeset_blues d)) <= k + 1.
Proof. intros Hd. destruct (sp_anticone d Hd) as [HspB Hs]. pose proof (co_cluster _ Hd sp HspB). lia. Qed.

Record candidate (d : GhostdagData) (c : Hash) : Prop := {
  ca_dom : c ∈ dom D;
  ca_sp : ~ dag_anc D c sp /\ ~ dag_anc D sp c;
  ca_after : forall x, x ∈ mergeset_blues d -> ~ dag_anc D c x
}.

Section one_candidate.
Context (d : GhostdagData) (Hd : colored d) (c : Hash) (Hc : candidate d c).
#[local] Notation Bd := (blues_of d).

Lemma blues_dom x : x ∈ Bd -> x ∈ dom D.
Proof.
  intros [Hx%elem_of_list_to_set|Hx]%elem_of_union; [|by eapply (blue_past_in D g G f k I)].
  destruct (co_blues _ Hd) as (bl & Hbl & _ & Hin). rewrite Hbl in Hx. apply elem_of_cons in Hx as [->|Hx]; [done|]. by apply Hin.
Qed.

(** The candidate is not in the past of a blue. *)
Lemma candidate_after x : x ∈ Bd -> f c x = false.
Proof.
  intros Hx. pose proof (blues_dom x Hx) as Hxd. destruct Hc as [Hcd [Hcs _] Haft].
  apply (f_false D g G f k I); [done..|]. apply elem_of_union in Hx as [Hx%elem_of_list_to_set|Hx]; [by apply Haft|].
  destruct (blue_past_in D g G f k I _ _ _ _ Hbp Hsp Hx) as (_ & Hxs & _). intros ?. apply Hcs. by eapply dag_anc_trans.
Qed.

Lemma candidate_fresh : c ∉ Bd.
Proof.
  intros Hin. pose proof (candidate_after c Hin) as Hf. apply (f_false D g G f k I) in Hf; [|apply Hc..]. apply Hf, rtc_refl.
Qed.

Lemma in_anticone x : x ∈ anticone f Bd c <-> x ∈ Bd /\ f x c = false.
Proof. rewrite elem_of_anticone. split; [by intros (? & ? & _)|]. intros [Hx ?]. split_and!; try done. by apply candidate_after. Qed.

(** The sizes collected so far belong to blues of the anticone that can take
    one more. *)
Record collected (sizes : gmap Hash Z) (size : Z) : Prop := {
  cl_sub : dom sizes ⊆ anticone f Bd c;
  cl_val : forall y s, sizes !! y = Some s -> s = anticone_size f Bd y /\ s + 1 <= k;
  cl_size : size = Z.of_nat (base.size (dom sizes)) /\ size <= k
}.

Lemma red_by_size (C : gset Hash) : C ⊆ anticone f Bd c -> k < Z.of_nat (base.size C) -> can_be_blue f k Bd c = false.
Proof.
  intros HC Hs. apply not_true_is_false. rewrite can_be_blue_true. intros [Hle _]. apply subseteq_size in HC.
  unfold anticone_size in Hle. lia.
Qed.

Lemma check_peers_ok peers sizes size :
  collected sizes size -> (forall p, p ∈ peers -> p ∈ Bd /\ p ∉ dom sizes) -> NoDup peers ->
  (exists sizes' size', check_peers fuel gm d peers c sizes size k = Ok (StatePending, sizes', size') /\
     collected sizes' size' /\ (forall x, x ∈ dom sizes' <-> x ∈ dom sizes \/ (x ∈ peers /\ f x c = false))) \/
  (exists sizes' size', check_peers fuel gm d peers c sizes size k = Ok (StateRed, sizes', size') /\
     can_be_blue f k Bd c = false).
Proof.
  revert sizes size; induction peers as [|p peers IH]; intros sizes size Hcl Hp Hnd; cbn [check_peers].
  { left. exists sizes, size. split; [done|]. split; [done|]. intros x. rewrite elem_of_nil. clear. intuition. }
  apply NoDup_cons in Hnd as [Hpn Hnd]. destruct (Hp p ltac:(left)) as [HpB Hps].
  rewrite (dag_query gm D f Hreach); [|by apply blues_dom|apply Hc]. run. destruct (f p c) eqn:Ef.
  - destruct (IH sizes size Hcl) as [(s' & z' & -> & Q1 & Q2)|?]; [intros q Hq; apply Hp; by right|done| |by right].
    left. exists s', z'. split; [done|]. split; [done|]. intros x. rewrite Q2, elem_of_cons. clear -Ef. intuition congruence.
  - pose proof (co_sizes _ Hd p HpB) as Hrec. rewrite (blue_anticone_size_ok d p _ (co_sp _ Hd) Hrec). run.
    destruct Hcl as [Hsub Hval [Hsz Hle]]. rewrite add_ok by (unfold in_u; lia). run.
    set (s := anticone_size f Bd p). assert (p ∈ anticone f Bd c) as Hpa by (by apply in_anticone).
    assert (dom (<[p := s]> sizes) ⊆ anticone f Bd c) as Hsub' by (rewrite dom_insert_L; set_solver).
    assert (size + 1 = Z.of_nat (base.size (dom (<[p := s]> sizes)))) as Hsz'.
    { rewrite dom_insert_L, size_union, size_singleton by set_solver. lia. }
    destruct (Z.ltb_spec k (size + 1)) as [Hover|Hfit].
    { right. eexists _, _. split; [done|]. eapply red_by_size; [exact Hsub'|lia]. }
    destruct (Z.eqb_spec s k) as [Hsk|Hsk].
    { right. eexists _, _. split; [done|]. apply not_true_is_false. rewrite can_be_blue_true. intros [_ Hall].
      specialize (Hall p Hpa). fold s in Hall. lia. }
    pose proof (co_cluster _ Hd p HpB) as Hsk'. fold s in Hsk'. destruct (Z.leb_spec s k); [|lia]. run.
    destruct (IH (<[p := s]> sizes) (size + 1)) as [(s' & z' & -> & Q1 & Q2)|?]; [..|by right].
    + constructor; [done| |done]. intros y v. destruct (decide (y = p)) as [->|Hne].
      * rewrite lookup_insert_eq. intros [= <-]. split; [done|lia].
      * rewrite lookup_insert_ne by done. apply Hval.
    + intros q Hq. destruct (Hp q ltac:(by right)) as [HqB Hqs]. split; [done|]. rewrite dom_insert_L, elem_of_union, elem_of_singleton.
      intros [->|?]; done.
    + done.
    + left. exists s', z'. split; [done|]. split; [done|]. intros x. rewrite Q2, dom_insert_L, elem_of_union, elem_of_singleton, elem_of_cons.
      clear -Ef. intuition congruence.
Qed.

(** The output agrees with the reference. *)
Definition verdict (out : ColoringOutput) : Prop :=
  match out with
  | OutputBlue size sizes => can_be_blue f k Bd c = true /\ size = anticone_size f Bd c /\ dom sizes = anticone f Bd c /\
      forall y s, sizes !! y = Some s -> s = anticone_size f Bd y /\ s + 1 <= k
  | OutputRed => can_be_blue f k Bd c = false
  end.

Lemma blue_verdict sizes size : collected sizes size -> anticone f Bd c ⊆ dom sizes -> verdict (OutputBlue size sizes).
Proof.
  intros [Hsub Hval [Hsz Hle]] Hall. assert (dom sizes = anticone f Bd c) as E by set_solver. unfold verdict.
  rewrite E in Hsz. split_and!; try done. apply can_be_blue_true. split; [unfold anticone_size; lia|].
  intros y Hy. rewrite <-E in Hy. apply elem_of_dom in Hy as [s Hs]. destruct (Hval y s Hs). lia.
Qed.

Lemma check_loop_ok n h Bh nh e sizes size :
  blue_past g G h Bh nh -> h ∈ dom D -> g !! h = Some e -> collected sizes size ->
  (forall x, x ∈ Bh -> x ∈ Bd /\ x ∉ dom sizes) -> (forall x, x ∈ anticone f Bd c -> x ∈ dom sizes \/ x ∈ Bh) -> (nh < n)%nat ->
  exists out, check_loop fuel gm n d (mkChain (Some h) e) c sizes size k = Ok out /\ verdict out.
Proof.
  revert h Bh nh e sizes size; induction n as [|n IH]; intros h Bh nh e sizes size Hbh Hh He Hcl Hrest Hcov Hn; [lia|].
  cbn [check_loop]. unfold check_blue_candidate_with_chain_block. cbn [chain_hash chain_data].
  pose proof (ca_dom _ _ Hc) as Hcd. rewrite (dag_query gm D f Hreach) by done. run. destruct (f h c) eqn:Ef.
  { run. eexists. split; [done|]. apply blue_verdict; [done|]. intros x Hx. destruct (Hcov x Hx) as [?|HxB]; [done|].
    destruct (blue_past_in D g G f k I _ _ _ _ Hbh Hh HxB) as (Hxd & Hxh & _). apply in_anticone in Hx as [_ Hxc].
    apply (f_false D g G f k I) in Hxc; [|done..]. apply (f_true D g G f k I) in Ef; [|done..].
    destruct Hxc. by eapply dag_anc_trans. }
  assert (h <> G) as HhG.
  { intros ->. apply (f_false D g G f k I) in Ef; [|done..]. apply Ef, (proj2 (di_genesis _ _ _ _ _ I)). done. }
  destruct (blue_past_block D g G f k I _ _ _ Hbh Hh HhG) as (e' & B' & n' & He' & -> & -> & Hb' & Hinv). simplify_eq.
  destruct (selected_parent_facts D g G f k I h e Hh HhG He) as (Hsd & _).
  assert (forall x, x ∈ mergeset_blues e -> x ∈ Bd /\ x ∉ dom sizes) as Hpeers.
  { intros x Hx. apply Hrest, elem_of_union_l. by apply elem_of_list_to_set. }
  assert (NoDup (mergeset_blues e)) as Hnd by (destruct (bi_blues _ _ _ _ _ _ _ _ Hinv) as (bl & -> & ? & _); done).
  destruct (check_peers_ok (mergeset_blues e) sizes size Hcl Hpeers Hnd) as [(s' & z' & -> & Hcl' & Hdom)|(s' & z' & -> & Hred)].
  - run. rewrite get_ghostdag_data_law by done. unfold read. 
    destruct (di_data _ _ _ _ _ I (selected_parent e) Hsd) as [e2 He2]. rewrite He2. cbn [unwrap_r]. run.
    apply (IH (selected_parent e) B' n' (id e2)); try done; [..|lia].
    + intros x Hx. destruct (Hrest x ltac:(by apply elem_of_union_r)) as [HxB Hxs]. split; [done|]. rewrite Hdom.
      intros [?|[Hxm _]]; [done|]. by eapply (mergeset_disjoint D g G f k I h e B' n' x).
    + intros x Hx. destruct (Hcov x Hx) as [?|[Hxm%elem_of_list_to_set|?]%elem_of_union]; [left; rewrite Hdom; by left| |by right].
      left. rewrite Hdom. right. apply in_anticone in Hx as [_ ?]. done.
  - run. eexists. split; [done|]. done.
Qed.

(** With [k + 1] blues the anticone of the selected parent is full. *)
Lemma blues_full : Z.of_nat (length (mergeset_blues d)) = k + 1 -> can_be_blue f k Bd c = false.
Proof.
  intros Hlen. pose proof (sp_anticone d Hd) as [HspB Hs]. apply not_true_is_false. rewrite can_be_blue_true.
  intros [_ Hall]. assert (sp ∈ anticone f Bd c) as Hspc.
  { apply in_anticone. split; [done|]. apply (f_false D g G f k I); [done|apply Hc|apply Hc]. }
  specialize (Hall sp Hspc). lia.
Qed.

(** The first round visits the blues of the new block itself. *)
Lemma check_loop_new n : (nsp + 1 < n)%nat ->
  exists out, check_loop fuel gm n d (mkChain None d) c ∅ 0 k = Ok out /\ verdict out.
Proof.
  intros Hn. destruct n as [|n]; [lia|]. cbn [check_loop]. unfold check_blue_candidate_with_chain_block. cbn [chain_hash chain_data]. run.
  destruct (co_blues _ Hd) as (bl & Hbl & Hnd & Hin).
  assert (collected ∅ 0) as Hcl0.
  { constructor; [rewrite dom_empty_L; set_solver|intros y s; by rewrite lookup_empty|]. rewrite dom_empty_L, size_empty. lia. }
  destruct (check_peers_ok (mergeset_blues d) ∅ 0 Hcl0) as [(s' & z' & -> & Hcl' & Hdom)|(s' & z' & -> & Hred)].
  - intros p Hp. split; [by apply elem_of_union_l, elem_of_list_to_set|]. rewrite dom_empty_L. apply not_elem_of_empty.
  - by rewrite Hbl.
  - run. rewrite get_ghostdag_data_law, (co_sp _ Hd) by done. unfold read.
    destruct (di_data _ _ _ _ _ I sp Hsp) as [e He]. rewrite He. run.
    rewrite dom_empty_L in Hdom. eapply check_loop_ok; try done; [..|lia].
    + intros x Hx. split; [by apply elem_of_union_r|]. rewrite Hdom. intros [?%elem_of_empty|[Hxm _]]; [done|].
      destruct (blue_past_in D g G f k I _ _ _ _ Hbp Hsp Hx) as (_ & Hxs & Hxne). rewrite Hbl in Hxm.
      apply elem_of_cons in Hxm as [->|Hxm]; [done|]. by destruct (Hin x Hxm) as (_ & ? & _).
    + intros x Hx. apply in_anticone in Hx as [Hx Hxc]. apply elem_of_union in Hx as [Hx%elem_of_list_to_set|?]; [|by right].
      left. rewrite Hdom. by right.
  - run. exists OutputRed. done.
Qed.

Lemma check_blue_candidate_ok : exists out, check_blue_candidate fuel gm d c k = Ok out /\ verdict out.
Proof.
  unfold check_blue_candidate. rewrite add_ok by (unfold in_u; lia). run. pose proof (blues_length d Hd).
  rewrite Z.mod_small by lia. destruct (Z.eqb_spec (Z.of_nat (length (mergeset_blues d))) (k + 1)) as [E|Hne].
  { exists OutputRed. split; [done|]. by apply blues_full. }
  apply check_loop_new. pose proof (blue_past_length D g G f k I _ _ _ Hbp Hsp). lia.
Qed.
End one_candidate.

(** ** One colouring step *)

Lemma bump_ok (l : list (Hash * Z)) (m : gmap Hash Z) : NoDup l.*1 -> (forall y s, (y, s) ∈ l -> in_u 16 (s + 1)) ->
  exists m', foldM (bump (E := ())) m l = Ok m' /\ (forall y s, (y, s) ∈ l -> m' !! y = Some (s + 1)) /\
    forall y, y ∉ l.*1 -> m' !! y = m !! y.
Proof.
  revert m; induction l as [|[y s] l IH]; intros m Hnd Hin; cbn [foldM].
  { exists m. split; [done|]. split; [by intros ? ? ?%elem_of_nil|done]. }
  cbn in Hnd. apply NoDup_cons in Hnd as [Hy Hnd]. 
  assert (bump (E := ()) m (y, s) = Ok (<[y := s + 1]> m)) as ->.
  { unfold bump. cbn [fst snd]. by rewrite add_ok by (apply (Hin y s); left). }
  run.
  destruct (IH (<[y := s + 1]> m) Hnd) as (m' & -> & H1' & H2'); [intros; by apply (Hin y0 s0); right|].
  exists m'. split; [done|]. split.
  - intros z t [E|Hz]%elem_of_cons; [|by apply H1']. injection E as -> ->. rewrite H2' by done. apply lookup_insert_eq.
  - intros z Hz. cbn in Hz. apply not_elem_of_cons in Hz as [Hz1 Hz2]. rewrite H2' by done. by apply lookup_insert_ne.
Qed.

Lemma add_blue_ok d c size sizes : colored d -> candidate d c -> verdict d c (OutputBlue size sizes) ->
  exists d', add_blue (E := ()) d c size sizes = Ok d' /\ colored d' /\ blues_of d' = {[c]} ∪ blues_of d /\
    mergeset_blues d' = mergeset_blues d ++ [c] /\ mergeset_reds d' = mergeset_reds d.
Proof.
  intros Hd Hc (Hcan & Hsize & Hdom & Hval). pose proof (candidate_fresh d Hd c Hc) as Hfresh.
  destruct (bump_ok (map_to_list sizes) (<[c := size]> (blues_anticone_sizes d))) as (m' & Hrun & Hin & Hout).
  { apply NoDup_fst_map_to_list. }
  { intros y s Hys%elem_of_map_to_list. destruct (Hval y s Hys) as [-> ?]. unfold in_u, anticone_size in *. lia. }
  unfold add_blue. rewrite Hrun. run. eexists. split; [done|].
  assert (forall y, y ∉ dom sizes -> m' !! y = <[c := size]> (blues_anticone_sizes d) !! y) as Hold.
  { intros y Hy. apply Hout. rewrite list_elem_of_fmap. intros ([z s] & -> & Hz%elem_of_map_to_list). apply Hy, elem_of_dom. eauto. }
  assert (blues_of (mkGhostdag (blue_score d) (blue_work d) (selected_parent d) (mergeset_blues d ++ [c]) (mergeset_reds d) m')
    = {[c]} ∪ blues_of d) as HB.
  { unfold blues_of. cbn. rewrite list_to_set_app_L. cbn. set_solver. }
  assert (f c c = true) as Hcc by (apply (f_true D g G f k I); [apply Hc..|apply rtc_refl]).
  assert (anticone_size f ({[c]} ∪ blues_of d) c = size) as Hself.
  { rewrite Hsize. unfold anticone_size, anticone. do 2 f_equal. apply set_eq. intros y.
    rewrite !elem_of_filter, elem_of_union, elem_of_singleton. split; [|naive_solver]. intros [[? ?] [->|?]]; [congruence|done]. }
  apply can_be_blue_true in Hcan as [Hc1 Hc2]. rewrite <-Hsize in Hc1.
  split; [|split; [done|split; done]]. constructor.
  - apply Hd.
  - destruct (co_blues _ Hd) as (bl & Hbl & Hnd & Hbin). exists (bl ++ [c]). cbn. rewrite Hbl. split; [done|]. split.
    + change (sp :: bl ++ [c]) with ((sp :: bl) ++ [c]). apply NoDup_app. split; [done|]. split; [|apply NoDup_singleton].
      intros x Hx ->%list_elem_of_singleton. apply Hfresh, elem_of_union_l, elem_of_list_to_set. by rewrite Hbl.
    + intros x [Hx|Hx%list_elem_of_singleton]%elem_of_app; [by apply Hbin|]. subst x. split; [apply Hc|]. apply Hc.
  - rewrite HB. intros x [Hx%elem_of_singleton|Hx]%elem_of_union.
    + subst x. rewrite Hself. left. cbn. rewrite Hold; [apply lookup_insert_eq|]. rewrite Hdom, elem_of_anticone. intros [? _]. done.
    + pose proof (candidate_after d Hd c Hc x Hx) as Hcx. rewrite anticone_size_add by done.
      assert (x <> c) as Hxc by (by intros ->). destruct (f x c) eqn:Ef.
      * rewrite Z.add_0_r. pose proof (co_sizes _ Hd x Hx) as Hrec. unfold recorded_in in *. cbn.
        rewrite Hold by (rewrite Hdom, elem_of_anticone; intros (_ & ? & _); congruence).
        by rewrite lookup_insert_ne by done.
      * assert (x ∈ dom sizes) as Hxs by (rewrite Hdom; apply in_anticone; done). apply elem_of_dom in Hxs as [s Hs].
        destruct (Hval x s Hs) as [-> _]. left. cbn. apply Hin. by apply elem_of_map_to_list.
  - rewrite HB. intros x [Hx%elem_of_singleton|Hx]%elem_of_union; [subst x; by rewrite Hself|].
    pose proof (candidate_after d Hd c Hc x Hx) as Hcx. rewrite anticone_size_add by done.
    pose proof (co_cluster _ Hd x Hx). destruct (f x c) eqn:Ef; [lia|]. apply Hc2. by apply in_anticone.
Qed.

Lemma add_red_ok d c : colored d -> colored (add_red d c).
Proof. by intros []. Qed.

(** ** The whole mergeset *)

(** A list of candidates in topological order. *)
Definition candidates (l : list Hash) : Prop :=
  NoDup l /\ (forall c, c ∈ l -> c ∈ dom D /\ ~ dag_anc D c sp /\ ~ dag_anc D sp c) /\
  forall i j x y, l !! i = Some x -> l !! j = Some y -> (i < j)%nat -> ~ dag_anc D y x.

Lemma candidates_cons c l : candidates (c :: l) -> candidates l /\ forall x, x ∈ l -> ~ dag_anc D x c.
Proof.
  intros (Hnd & Hin & Htop). apply NoDup_cons in Hnd as [_ Hnd]. split.
  - split; [done|]. split; [intros; apply Hin; by right|]. intros i j x y Hx Hy Hij.
    apply (Htop (Datatypes.S i) (Datatypes.S j)); [done|done|lia].
  - intros x [i Hi]%list_elem_of_lookup. apply (Htop 0%nat (Datatypes.S i)); [done|done|lia].
Qed.

Lemma color_fold_ok d l : colored d -> candidates l -> (forall x c, x ∈ mergeset_blues d -> c ∈ l -> ~ dag_anc D c x) ->
  exists d', foldM (color fuel gm k) d l = Ok d' /\ colored d' /\
    mergeset_blues d' = mergeset_blues d ++ (greedy f k (blues_of d) l).1 /\
    mergeset_reds d' = mergeset_reds d ++ (greedy f k (blues_of d) l).2.
Proof.
  revert d; induction l as [|c l IH]; intros d Hd Hl Haft; cbn [foldM greedy].
  { exists d. rewrite !app_nil_r. done. }
  destruct (candidates_cons c l Hl) as [Hl' Hafter]. assert (candidate d c) as Hc.
  { destruct Hl as (_ & Hin & _). destruct (Hin c ltac:(left)) as (? & ? & ?). constructor; [done|done|].
    intros x Hx. apply Haft; [done|left]. }
  destruct (check_blue_candidate_ok d Hd c Hc) as (out & Hout & Hv).
  assert (forall d', mergeset_blues d' = mergeset_blues d \/ mergeset_blues d' = mergeset_blues d ++ [c] ->
    forall x c', x ∈ mergeset_blues d' -> c' ∈ l -> ~ dag_anc D c' x) as Hnext.
  { intros d' [E|E] x c' Hx Hc'; rewrite E in Hx.
    - apply Haft; [done|by right].
    - apply elem_of_app in Hx as [Hx|Hx%list_elem_of_singleton]; [apply Haft; [done|by right]|]. subst. by apply Hafter. }
  destruct out as [size sizes|].
  - destruct (add_blue_ok d c size sizes Hd Hc Hv) as (d1 & Hadd & Hd1 & HB & Hblues & Hreds). destruct Hv as [-> _].
    assert (color fuel gm k d c = Ok d1) as -> by (unfold color; rewrite Hout; run; done). run.
    destruct (IH d1 Hd1 Hl') as (d' & -> & Hd' & E1 & E2); [by apply Hnext; right|]. rewrite HB in E1, E2.
    destruct (greedy f k _ l) as [bs rs]. exists d'. cbn [fst snd] in *. rewrite E1, E2, Hblues, Hreds, <-app_assoc. done.
  - cbn in Hv. rewrite Hv. assert (color fuel gm k d c = Ok (add_red d c)) as -> by (unfold color; rewrite Hout; run; done). run.
    destruct (IH (add_red d c) (add_red_ok d c Hd) Hl') as (d' & -> & Hd' & E1 & E2); [by apply Hnext; left|].
    change (blues_of (add_red d c)) with (blues_of d) in *. destruct (greedy f k _ l) as [bs rs]. exists d'. cbn [fst snd] in *.
    rewrite E1, E2. cbn. rewrite <-app_assoc. done.
Qed.

(** The initial state. *)
Lemma colored_new : colored (mkGhostdag 0 0 sp [sp] [] {[sp := 0]}).
Proof.
  set (d := mkGhostdag 0 0 sp [sp] [] {[sp := 0]}).
  assert (blues_of d = {[sp]} ∪ Bsp) as HB by (unfold blues_of; cbn; set_solver).
  assert (sp ∉ Bsp) as Hns by (intros Hin; by destruct (blue_past_in D g G f k I _ _ _ _ Hbp Hsp Hin) as (_ & _ & ?)).
  assert (forall x, x ∈ Bsp -> x ∈ dom D /\ f x sp = true /\ f sp x = false) as Hpast.
  { intros x Hx. destruct (blue_past_in D g G f k I _ _ _ _ Hbp Hsp Hx) as (Hxd & Hxs & Hne). split; [done|].
    split; [by apply (f_true D g G f k I)|]. apply (f_false D g G f k I); [done..|]. intros Hsx. apply Hne.
    by eapply ranked_antisym; [apply (di_ranked _ _ _ _ _ I)| |]. }
  assert (anticone_size f (blues_of d) sp = 0) as Hzero.
  { unfold anticone_size. rewrite HB. replace (anticone f ({[sp]} ∪ Bsp) sp) with (∅ : gset Hash); [done|].
    symmetry. apply set_eq. intros y. rewrite elem_of_anticone, elem_of_union, elem_of_singleton.
    split; [|by intros ?%elem_of_empty]. intros ([->|Hy] & H1' & H2').
    - assert (f sp sp = true) by (apply (f_true D g G f k I); [done..|apply rtc_refl]). congruence.
    - destruct (Hpast y Hy) as (_ & ? & _). congruence. }
  assert (forall x, x ∈ Bsp -> anticone_size f (blues_of d) x = anticone_size f Bsp x) as Hsame.
  { intros x Hx. destruct (Hpast x Hx) as (_ & Hxs & Hsx). rewrite HB, anticone_size_add by done. rewrite Hxs. lia. }
  assert (forall x, x ∈ Bsp -> sp <> G /\ recorded g G sp x (anticone_size f Bsp x) /\ anticone_size f Bsp x <= k) as Hinh.
  { intros x Hx. assert (sp <> G) as HspG by (intros E; eapply blue_past_genesis_inv in Hbp as [E' _]; [|exact E]; rewrite E' in Hx; by apply elem_of_empty in Hx).
    destruct (blue_past_block D g G f k I _ _ _ Hbp Hsp HspG) as (e & B' & n' & He & EB & _ & _ & Hinv).
    rewrite EB in *. split; [done|]. split; [|by apply (bi_cluster _ _ _ _ _ _ _ _ Hinv)].
    destruct (bi_sizes _ _ _ _ _ _ _ _ Hinv x Hx) as [Hs|[Hs Hr]]; [by eapply recorded_here|by eapply recorded_up]. }
  constructor.
  - done.
  - exists []. split; [done|]. split; [apply NoDup_singleton|]. by intros x ?%elem_of_nil.
  - intros x Hx. rewrite HB in Hx. apply elem_of_union in Hx as [Hx%elem_of_singleton|Hx].
    + subst. rewrite Hzero. left. cbn. apply lookup_singleton_eq.
    + rewrite Hsame by done. right. cbn. split; [apply lookup_singleton_ne; congruence|]. by apply Hinh.
  - intros x Hx. rewrite HB in Hx. apply elem_of_union in Hx as [Hx%elem_of_singleton|Hx].
    + subst. rewrite Hzero. lia.
    + rewrite Hsame by done. by apply Hinh.
Qed.
End coloring.
