(* ===== verification/GhostdagTheorems.v ===== *)
(** * Theorems on GHOSTDAG

    The mergeset search, the colouring of a new block, and the invariant of the
    block DAG under the addition of a block to the GHOSTDAG store and to the
    reachability store together. *)
From S2P Require Import Prelude Tx Dag Interval ReachStore Reachability ReachTree ReachAdd ReachDag ReachTheorems ReachService.
From S2P Require Import Math Params GhostdagStore Difficulty Ghostdag GhostdagMergeset GhostdagSpec GhostdagColor.

#[local] Open Scope Z_scope.

(** ** The mergeset *)

(** C22: for a new block with pairwise distinct parents, none of which but the
    selected parent itself is in the past of the selected parent, the search
    ends and returns exactly the blocks in the past of a parent that are not in
    the past of the selected parent. *)
Theorem mergeset_correct {S R : Type} `{GhostdagStoreReader S} `{ReachabilityService R} (fuel : nat)
    (gm : GhostdagManager S R) (D : dag) (f : Hash -> Hash -> bool) (sp : Hash) (parents : list Hash) :
  reach_ok (reachability_service gm) D f -> dag_closed D -> sp ∈ dom D -> NoDup parents ->
  (forall p, p ∈ parents -> p ∈ dom D /\ (p = sp \/ ~ dag_anc D p sp)) ->
  (forall x, x ∈ dom D -> ~ dag_anc D x sp -> relations_store gm !! x = D !! x) ->
  (base.size (dom D) < fuel)%nat ->
  exists ms, unordered_mergeset_without_selected_parent fuel gm sp parents = Ok ms /\
    forall x, x ∈ ms <-> (exists p, p ∈ parents /\ dag_anc D x p) /\ ~ dag_anc D x sp.
Proof.
  intros Hr Hc Hs Hnd Hp Hrel Hf. destruct (unordered_mergeset_ok gm D f Hr Hc sp Hs parents Hp Hrel fuel Hnd Hf) as (ms & H1 & H2 & _).
  by exists ms.
Qed.

(** ** The colouring *)

(** The DAG that the manager works on: the stores know the blocks, the work of
    each header is positive and at most [W], and neither blue work nor blue
    score is close to its limit. *)
Record manager_ok {S R : Type} `{GhostdagStoreLaws S} (gm : GhostdagManager S R) (D : dag) (W : Z) : Prop := {
  mo_store : ghostdag_ok (ghostdag_store gm);
  mo_relations : forall x, x ∈ dom D -> x <> gm_genesis_hash gm -> relations_store gm !! x = D !! x;
  mo_work : forall x, x ∈ dom D -> exists w, blue_block_work gm x = Ok w /\ 0 < w <= W;
  mo_total : forall x d, x ∈ dom D -> ghostdag_map (ghostdag_store gm) !! x = Some d ->
    0 <= blue_work d /\ blue_work d + (gm_k gm + 1) * W < 2 ^ 192 /\ 0 <= blue_score d < 2 ^ 63
}.

(** The parents of a new block: known, distinct, pairwise unrelated. *)
Record parents_ok (D : dag) (parents : list Hash) : Prop := {
  po_some : parents <> [];
  po_known : forall p, p ∈ parents -> p ∈ dom D;
  po_distinct : NoDup parents;
  po_antichain : forall p q, p ∈ parents -> q ∈ parents -> dag_anc D p q -> p = q
}.

Section ghostdag.
Context {S R : Type} `{GhostdagStoreLaws S} `{ReachabilityService R}.
Context (fuel : nat) (gm : GhostdagManager S R) (D : dag) (f : Hash -> Hash -> bool) (W : Z).
Notation g := (ghostdag_map (ghostdag_store gm)).
Notation G := (gm_genesis_hash gm).
Notation k := (gm_k gm).
Context (Hm : manager_ok gm D W) (I : dag_inv D g G f k).
Context (Hreach : reach_ok (reachability_service gm) D f).
Context (Hk : 0 <= k < 65535) (Hfuel : (base.size (dom D) < fuel)%nat).
Context (parents : list Hash) (Hparents : parents_ok D parents).

Lemma selected_parent_ok : exists sp, find_selected_parent gm parents = Ok sp /\ sp ∈ parents /\ sp ∈ dom D /\
  forall p, p ∈ parents -> block_work g p <= block_work g sp.
Proof.
  destruct (find_selected_parent_ok gm (mo_store _ _ _ Hm) parents) as (sp & Hrun & Hin & Hmax).
  - apply Hparents.
  - intros p Hp. by apply (di_data _ _ _ _ _ I), Hparents.
  - exists sp. split_and!; try done; [by apply Hparents|]. intros p Hp.
    apply (work_le_work (sort_key gm p) (sort_key gm sp)). by apply Hmax.
Qed.

Lemma blue_past_exists b : b ∈ dom D -> exists B n, blue_past g G b B n.
Proof.
  intros Hb. destruct (decide (b = G)) as [->|Hne]; [eexists _, _; apply blue_past_genesis|].
  destruct (di_block _ _ _ _ _ I b Hb Hne) as (d & B & n & Hd & Hbp & _). eexists _, _. by apply blue_past_step.
Qed.

Lemma works_ok l : (forall x, x ∈ l -> x ∈ dom D) ->
  exists ws, mapM' (blue_block_work gm) l = Ok ws /\ Forall (fun w => 0 < w <= W) ws /\ length ws = length l.
Proof.
  induction l as [|x l IH]; intros Hl; cbn [mapM']; [by exists []|].
  destruct (mo_work _ _ _ Hm x) as (w & -> & Hw); [apply Hl; left|]. run.
  destruct IH as (ws & -> & Hws & Hlen); [intros; apply Hl; by right|]. run. exists (w :: ws). split; [done|].
  split; [by constructor|cbn; lia].
Qed.

Lemma work_sum_ok ws acc : 0 <= acc -> Forall (fun w => 0 < w <= W) ws -> acc + Zsum ws < 2 ^ 192 ->
  foldl work_add acc ws = acc + Zsum ws.
Proof.
  intros Ha Hws. revert acc Ha. induction Hws as [|w ws Hw Hws IH]; intros acc Ha Hb; cbn [foldl]; [by rewrite Zsum_nil, Z.add_0_r|].
  rewrite Zsum_cons in *. assert (0 <= Zsum ws) by (apply Zsum_nonneg; eapply Forall_impl; [done|]; cbn; lia).
  replace (work_add acc w) with (acc + w) by (unfold work_add; rewrite Z.mod_small; lia). rewrite IH; lia.
Qed.

Lemma Zsum_bound ws : Forall (fun w => 0 < w <= W) ws -> Z.of_nat (length ws) <= Zsum ws <= Z.of_nat (length ws) * W.
Proof. induction 1 as [|w ws Hw _ IH]; [rewrite Zsum_nil; cbn; lia|]. rewrite Zsum_cons. cbn [length]. lia. Qed.

(** The selected parent and the ordered mergeset. *)
Lemma ordered_mergeset_ok : exists sp ms, find_selected_parent gm parents = Ok sp /\ sp ∈ parents /\ sp ∈ dom D /\
  (forall p, p ∈ parents -> block_work g p <= block_work g sp) /\
  ordered_mergeset_without_selected_parent fuel gm sp parents = Ok ms /\
  (forall x, x ∈ ms <-> merged D sp parents x) /\ candidates D sp ms.
Proof.
  destruct selected_parent_ok as (sp & Hsel & Hin & Hspd & Hmax). exists sp.
  assert (forall p, p ∈ parents -> p ∈ dom D /\ (p = sp \/ ~ dag_anc D p sp)) as Hps.
  { intros p Hp. split; [by apply Hparents|]. destruct (decide (p = sp)); [by left|right]. intros Ha. by apply (po_antichain _ _ Hparents) in Ha. }
  assert (forall x, x ∈ dom D -> ~ dag_anc D x sp -> relations_store gm !! x = D !! x) as Hrel.
  { intros x Hx Hn. apply (mo_relations _ _ _ Hm); [done|]. intros ->. by apply Hn, (proj2 (di_genesis _ _ _ _ _ I)). }
  destruct (unordered_mergeset_ok gm D f Hreach (di_closed _ _ _ _ _ I) sp Hspd parents Hps Hrel fuel) as (um & Hum & Humx & Humd);
    [apply Hparents|done|].
  destruct (sort_blocks_ok gm (mo_store _ _ _ Hm) (elements um)) as (ms & Hsort & Hperm & Hsorted).
  { intros x Hx%elem_of_elements. by apply (di_data _ _ _ _ _ I), Humd. }
  assert (forall x, x ∈ ms <-> merged D sp parents x) as Hmsx.
  { intros x. rewrite Hperm, elem_of_elements. apply Humx. }
  assert (NoDup ms) as Hnd by (rewrite Hperm; apply NoDup_elements).
  exists ms. split_and!; try done.
  - unfold ordered_mergeset_without_selected_parent. rewrite Hum. run. done.
  - split; [done|]. split.
    + intros x Hx. assert (x ∈ dom D) by (apply Humd, Humx, Hmsx; done). apply Hmsx in Hx as [(p & Hp & Hxp) Hxs].
      split_and!; try done. intros Hsx. apply Hxs. assert (sp = p) as <-; [|done].
      apply (po_antichain _ _ Hparents); try done. by eapply dag_anc_trans.
    + intros i j x y. by apply (sorted_topological gm D ms i j x y (di_ranked _ _ _ _ _ I)).
Qed.

(** What [ghostdag] returns for the new block. *)
Record ghostdag_result (sp : Hash) (B : gset Hash) (ms : list Hash) (d : GhostdagData) : Prop := {
  gr_colored : colored gm D f k sp B d;
  gr_blues : mergeset_blues d = sp :: (greedy f k ({[sp]} ∪ B) ms).1;
  gr_reds : mergeset_reds d = (greedy f k ({[sp]} ∪ B) ms).2;
  gr_score : blue_score d = default 0 (blue_score <$> g !! sp) + Z.of_nat (length (mergeset_blues d));
  gr_work : block_work g sp < blue_work d < 2 ^ 192
}.

Lemma ghostdag_run : exists sp B n ms d, sp ∈ parents /\ sp ∈ dom D /\
  (forall p, p ∈ parents -> block_work g p <= block_work g sp) /\ blue_past g G sp B n /\
  (forall x, x ∈ ms <-> merged D sp parents x) /\ candidates D sp ms /\
  ghostdag fuel gm parents = Ok d /\ ghostdag_result sp B ms d.
Proof.
  destruct ordered_mergeset_ok as (sp & ms & Hsel & Hin & Hspd & Hmax & Hms & Hmsx & Hcand).
  destruct (blue_past_exists sp Hspd) as (B & n & Hbp). exists sp, B, n, ms.
  assert (sp <> ORIGIN) as Hso by (intros ->; by apply (di_origin _ _ _ _ _ I)).
  unfold ghostdag. rewrite (bool_decide_eq_false_2 (parents = [])) by apply Hparents. run. rewrite Hsel. run.
  destruct (Z.eqb_spec sp ORIGIN); [done|]. unfold new_with_selected_parent. rewrite add_ok by (unfold in_u; lia). run. rewrite Hms. run.
  pose proof (colored_new fuel gm D f k (mo_store _ _ _ Hm) I Hreach Hk Hfuel sp B n Hspd Hbp) as Hc0.
  destruct (color_fold_ok fuel gm D f k (mo_store _ _ _ Hm) I Hreach Hk Hfuel sp B n Hspd Hbp _ ms Hc0 Hcand) as (d & -> & Hd & Hblues & Hreds).
  { intros x c ->%list_elem_of_singleton Hc. by apply Hcand. }
  run. destruct (di_data _ _ _ _ _ I sp Hspd) as [e He]. destruct (mo_total _ _ _ Hm sp e Hspd He) as (Hw0 & Hw1 & Hs0).
  rewrite get_blue_score_law, get_blue_work_law by apply Hm. unfold read. rewrite He. run.
  assert (Z.of_nat (length (mergeset_blues d)) <= k + 1 /\ mergeset_blues d <> []) as [Hlen Hnil].
  { pose proof Hd as [_ (bl & Hbl & _) _ _]. split; [|by rewrite Hbl]. by eapply blues_length. }
  rewrite add_ok by (unfold in_u; lia). run.
  destruct (works_ok (mergeset_blues d)) as (ws & -> & Hws & Hwl).
  { intros x Hx. eapply (blues_dom gm D f k I sp B n Hspd Hbp d Hd). unfold blues_of. by apply elem_of_union_l, elem_of_list_to_set. }
  run. pose proof (Zsum_bound ws Hws) as Hzb. rewrite Hwl in Hzb.
  assert (0 < Z.of_nat (length (mergeset_blues d))) as Hpos by (destruct (mergeset_blues d); [done|cbn; lia]).
  assert (Zsum ws <= (k + 1) * W) as Hzw.
  { etransitivity; [apply Hzb|]. apply Z.mul_le_mono_nonneg_r; [|done]. destruct Hws as [|w ws Hw]; [cbn in Hwl; lia|lia]. }
  assert (work_sum ws = Zsum ws) as Hsum.
  { unfold work_sum. rewrite work_sum_ok; try done; lia. }
  assert (blues_of B (mkGhostdag 0 0 sp [sp] [] {[sp := 0]}) = {[sp]} ∪ B) as HB by (unfold blues_of; cbn; set_solver).
  rewrite HB in Hblues, Hreds. eexists. split_and!; try done. constructor; cbn.
  - destruct Hd. by constructor.
  - done.
  - done.
  - by rewrite He.
  - unfold block_work. rewrite He. cbn. rewrite Hsum. unfold work_add. rewrite Z.mod_small; lia.
Qed.
End ghostdag.

(** C3: on a DAG that satisfies the invariant, [ghostdag] succeeds for every
    antichain of known parents.  The selected parent has the greatest blue work;
    the mergeset is processed in topological order; the blues and reds are those
    of the reference greedy colouring, so that the blue set is a [k]-cluster; the
    score and the work grow as documented. *)
Theorem ghostdag_refines_reference {S R : Type} `{GhostdagStoreLaws S} `{ReachabilityService R} (fuel : nat)
    (gm : GhostdagManager S R) (D : dag) (f : Hash -> Hash -> bool) (W : Z) (parents : list Hash) :
  let g := ghostdag_map (ghostdag_store gm) in let k := gm_k gm in
  manager_ok gm D W -> dag_inv D g (gm_genesis_hash gm) f k -> reach_ok (reachability_service gm) D f ->
  0 <= k < 65535 -> (base.size (dom D) < fuel)%nat -> parents_ok D parents ->
  exists sp B n ms d, ghostdag fuel gm parents = Ok d /\ selected_parent d = sp /\ sp ∈ parents /\
    (forall p, p ∈ parents -> block_work g p <= block_work g sp) /\ blue_past g (gm_genesis_hash gm) sp B n /\
    (forall x, x ∈ ms <-> (exists p, p ∈ parents /\ dag_anc D x p) /\ ~ dag_anc D x sp) /\
    (forall i j x y, ms !! i = Some x -> ms !! j = Some y -> (i < j)%nat -> ~ dag_anc D y x) /\
    mergeset_blues d = sp :: (greedy f k ({[sp]} ∪ B) ms).1 /\ mergeset_reds d = (greedy f k ({[sp]} ∪ B) ms).2 /\
    k_cluster f k (list_to_set (mergeset_blues d) ∪ B) /\
    blue_score d = default 0 (blue_score <$> g !! sp) + Z.of_nat (length (mergeset_blues d)) /\
    block_work g sp < blue_work d.
Proof.
  intros g k Hm I Hr Hk Hf Hp.
  destruct (ghostdag_run fuel gm D f W Hm I Hr Hk Hf parents Hp) as (sp & B & n & ms & d & Hin & Hspd & Hmax & Hbp & Hms & Hcand & Hrun & Hres).
  exists sp, B, n, ms, d. destruct Hres as [[Hsp _ _ Hcl] Hb Hr' Hsc Hw]. destruct Hcand as (_ & _ & Htop). split_and!; try done. exact (proj1 Hw).
Qed.

(** ** The invariant of the DAG *)

Lemma anticone_size_agree f f' B x : (forall y, y ∈ B -> f' y x = f y x /\ f' x y = f x y) ->
  anticone_size f' B x = anticone_size f B x.
Proof.
  intros Hf. unfold anticone_size. do 2 f_equal. apply set_eq. intros y. rewrite !elem_of_anticone.
  split; intros (Hy & H1 & H2); destruct (Hf y Hy); (split; [done|]); split; congruence.
Qed.

Lemma blue_past_mono g g' G b B n : g ⊆ g' -> blue_past g G b B n -> blue_past g' G b B n.
Proof. intros Hg. induction 1; [constructor|]. constructor; [by eapply lookup_weaken|done|done]. Qed.

Lemma recorded_mono g g' G b x s : g ⊆ g' -> recorded g G b x s -> recorded g' G b x s.
Proof. intros Hg. induction 1; [eapply recorded_here|eapply recorded_up]; eauto using lookup_weaken. Qed.

Lemma recorded_in_mono g g' G d x s : g ⊆ g' -> recorded_in g G d x s -> recorded_in g' G d x s.
Proof. intros Hg [?|[? ?]]; [by left|right]. split; [done|by eapply recorded_mono]. Qed.

Section extension.
Context (D : dag) (g : gmap Hash GhostdagData) (G : Hash) (f f' : Hash -> Hash -> bool) (k : Z).
Context (n : Hash) (parents : list Hash) (d : GhostdagData) (sp : Hash) (B : gset Hash) (len : nat).
Notation D' := (<[n := parents]> D).
Notation g' := (<[n := d]> g).
Context (I : dag_inv D g G f k) (Hn : n ∉ dom D) (Hgn : g !! n = None) (Hno : n <> ORIGIN).
Context (Hparents : parents_ok D parents) (Hdec : decides D' f').
Context (Hsp : selected_parent d = sp) (Hin : sp ∈ parents) (Hmax : forall p, p ∈ parents -> block_work g p <= block_work g sp).
Context (Hbp : blue_past g G sp B len) (Hwork : block_work g sp < blue_work d).
Context (Hblues : exists bl, mergeset_blues d = sp :: bl /\ NoDup (sp :: bl) /\
  forall x, x ∈ bl -> x ∈ dom D /\ (exists p, p ∈ parents /\ dag_anc D x p) /\ ~ dag_anc D x sp).
Context (Hsizes : forall x, x ∈ list_to_set (mergeset_blues d) ∪ B ->
  recorded_in g G d x (anticone_size f (list_to_set (mergeset_blues d) ∪ B) x)).
Context (Hcluster : k_cluster f k (list_to_set (mergeset_blues d) ∪ B)).

Lemma ext_dom x : x ∈ dom D' <-> x = n \/ x ∈ dom D.
Proof. rewrite dom_insert_L, elem_of_union, elem_of_singleton. done. Qed.

Lemma ext_dag_anc x y : y ∈ dom D -> dag_anc D' x y <-> dag_anc D x y.
Proof.
  intros Hy. rewrite (dag_anc_insert D n parents x y (di_closed _ _ _ _ _ I) Hn (po_known _ _ Hparents)).
  split; [|naive_solver]. intros [[_ ?]|[-> _]]; done.
Qed.

Lemma ext_anc_new x : x ∈ dom D -> dag_anc D' x n <-> exists p, p ∈ parents /\ dag_anc D x p.
Proof.
  intros Hx. rewrite (dag_anc_insert D n parents x n (di_closed _ _ _ _ _ I) Hn (po_known _ _ Hparents)).
  split; [|naive_solver]. intros [[? _]|[_ [->|?]]]; done.
Qed.

Lemma ext_parent x y : parent_of D' x y <-> (y <> n /\ parent_of D x y) \/ (y = n /\ x ∈ parents).
Proof.
  unfold parent_of. destruct (decide (y = n)) as [->|Hne].
  - rewrite lookup_insert_eq. naive_solver.
  - rewrite lookup_insert_ne by done. naive_solver.
Qed.

Lemma ext_f x y : x ∈ dom D -> y ∈ dom D -> f' x y = f x y.
Proof.
  intros Hx Hy. apply eq_iff_eq_true. rewrite (Hdec x y) by (apply ext_dom; by right).
  rewrite ext_dag_anc by done. symmetry. by apply (di_decides _ _ _ _ _ I).
Qed.

Lemma ext_sub : g ⊆ g'.
Proof. by apply insert_subseteq. Qed.

Lemma ext_work x : x ∈ dom D -> block_work g' x = block_work g x.
Proof. intros Hx. unfold block_work. rewrite lookup_insert_ne; [done|]. by intros ->. Qed.

Lemma ext_anticone X x : (forall y, y ∈ X -> y ∈ dom D) -> x ∈ dom D -> anticone_size f' X x = anticone_size f X x.
Proof. intros HX Hx. apply anticone_size_agree. intros y Hy. split; apply ext_f; auto. Qed.

Lemma sp_dom : sp ∈ dom D.
Proof. by apply Hparents. Qed.

(** The blues of a block are known. *)
Lemma blues_known b e X m : b ∈ dom D -> b <> G -> g !! b = Some e -> blue_past g G (selected_parent e) X m ->
  block_inv D g G f k b e X -> forall x, x ∈ list_to_set (mergeset_blues e) ∪ X -> x ∈ dom D.
Proof.
  intros Hb HbG He HX [Hp (bl & Hbl & _ & Hbin) _ _] x Hx. assert (selected_parent e ∈ dom D) as Hspe by (by eapply (di_closed _ _ _ _ _ I)).
  apply elem_of_union in Hx as [Hx%elem_of_list_to_set|Hx]; [|by eapply (blue_past_in D g G f k I)].
  rewrite Hbl in Hx. apply elem_of_cons in Hx as [->|Hx]; [done|]. by apply Hbin.
Qed.

Lemma ext_block_old b e X m : b ∈ dom D -> b <> G -> g !! b = Some e -> blue_past g G (selected_parent e) X m ->
  block_inv D g G f k b e X -> block_inv D' g' G f' k b e X.
Proof.
  intros Hb HbG He HX Hinv. pose proof (blues_known b e X m Hb HbG He HX Hinv) as Hk.
  pose proof Hinv as [Hp (bl & Hbl & Hnd & Hbin) Hs Hc]. assert (b <> n) as Hbn by (by intros ->). constructor.
  - apply ext_parent. by left.
  - exists bl. split; [done|]. split; [done|]. intros x Hx. destruct (Hbin x Hx) as (Hxd & Hxb & Hxne & Hxs).
    assert (selected_parent e ∈ dom D) by (by eapply (di_closed _ _ _ _ _ I)).
    split_and!; [apply ext_dom; by right|by apply ext_dag_anc|done|by rewrite ext_dag_anc].
  - intros x Hx. rewrite ext_anticone by auto. eapply recorded_in_mono; [apply ext_sub|by apply Hs].
  - intros x Hx. rewrite ext_anticone by auto. by apply Hc.
Qed.

Lemma ext_block_new : block_inv D' g' G f' k n d B.
Proof.
  destruct Hblues as (bl & Hbl & Hnd & Hbin).
  assert (forall x, x ∈ list_to_set (mergeset_blues d) ∪ B -> x ∈ dom D) as Hk.
  { intros x [Hx%elem_of_list_to_set|Hx]%elem_of_union; [|by eapply (blue_past_in D g G f k I _ _ _ _ Hbp sp_dom)].
    rewrite Hbl in Hx. apply elem_of_cons in Hx as [->|Hx]; [apply sp_dom|]. by apply Hbin. }
  constructor.
  - rewrite Hsp. apply ext_parent. by right.
  - rewrite Hsp. exists bl. split; [done|]. split; [done|]. intros x Hx. destruct (Hbin x Hx) as (Hxd & Hxp & Hxs).
    split_and!; [apply ext_dom; by right|by apply ext_anc_new|by intros ->|by rewrite ext_dag_anc by apply sp_dom].
  - intros x Hx. rewrite ext_anticone by auto. eapply recorded_in_mono; [apply ext_sub|by apply Hsizes].
  - intros x Hx. rewrite ext_anticone by auto. by apply Hcluster.
Qed.

Lemma dag_inv_extend : dag_inv D' g' G f' k.
Proof.
  pose proof (di_genesis _ _ _ _ _ I) as [HG HGa]. constructor.
  - intros x y Hxy. apply ext_dom. right. apply ext_parent in Hxy as [[_ Hxy]|[_ Hx]]; [by eapply (di_closed _ _ _ _ _ I)|by apply Hparents].
  - done.
  - split; [apply ext_dom; by right|]. intros x [->|Hx]%ext_dom; [apply ext_anc_new; [done|]|by apply ext_dag_anc, HGa].
    exists sp. split; [done|]. apply HGa, sp_dom.
  - rewrite ext_dom. intros [?|?]; [done|]. by apply (di_origin _ _ _ _ _ I).
  - intros x [->|Hx]%ext_dom; [rewrite lookup_insert_eq; eauto|]. destruct (di_data _ _ _ _ _ I x Hx) as [e He].
    exists e. by eapply lookup_weaken; [|apply ext_sub].
  - intros x y Hxy. apply ext_parent in Hxy as [[Hy Hxy]|[-> Hx]].
    + assert (y ∈ dom D) by (destruct Hxy as (ps & Hps & _); apply elem_of_dom; eauto).
      rewrite !ext_work; [by apply (di_ranked _ _ _ _ _ I)|done|by eapply (di_closed _ _ _ _ _ I)].
    + rewrite ext_work by (by apply Hparents). unfold block_work at 2. rewrite lookup_insert_eq. cbn. pose proof (Hmax x Hx). lia.
  - intros b Hb HbG. apply ext_dom in Hb as [->|Hb].
    + exists d, B, len. split; [apply lookup_insert_eq|]. split; [|apply ext_block_new].
      rewrite Hsp. eapply blue_past_mono; [apply ext_sub|done].
    + destruct (di_block _ _ _ _ _ I b Hb HbG) as (e & X & m & He & HX & Hinv). exists e, X, m.
      split; [by eapply lookup_weaken; [|apply ext_sub]|]. split; [by eapply blue_past_mono; [apply ext_sub|]|by eapply ext_block_old].
Qed.
End extension.

(** One block is added: the data that [ghostdag] computes keeps the invariant. *)
Lemma ghostdag_extends {S R : Type} `{GhostdagStoreLaws S} `{ReachabilityService R} (fuel : nat)
    (gm : GhostdagManager S R) (D : dag) (f f' : Hash -> Hash -> bool) (W : Z) (n : Hash) (parents : list Hash) :
  let g := ghostdag_map (ghostdag_store gm) in
  manager_ok gm D W -> dag_inv D g (gm_genesis_hash gm) f (gm_k gm) -> reach_ok (reachability_service gm) D f ->
  0 <= gm_k gm < 65535 -> (base.size (dom D) < fuel)%nat -> parents_ok D parents ->
  n ∉ dom D -> g !! n = None -> n <> ORIGIN -> decides (<[n := parents]> D) f' ->
  exists d, ghostdag fuel gm parents = Ok d /\ dag_inv (<[n := parents]> D) (<[n := d]> g) (gm_genesis_hash gm) f' (gm_k gm) /\
    selected_parent d ∈ parents /\ NoDup (unordered_mergeset_without_selected_parent_iter d) /\
    (forall x, x ∈ unordered_mergeset_without_selected_parent_iter d <->
       (exists p, p ∈ parents /\ dag_anc D x p) /\ ~ dag_anc D x (selected_parent d)).
Proof.
  intros g Hm I Hr Hk Hf Hp Hn Hgn Hno Hdec.
  destruct (ghostdag_run fuel gm D f W Hm I Hr Hk Hf parents Hp) as (sp & B & len & ms & d & Hin & Hspd & Hmax & Hbp & Hms & Hcand & Hrun & Hres).
  pose proof Hres as [[Hsp Hbl Hsz Hcl] Hb Hr' Hsc Hw]. exists d. split; [done|]. rewrite Hsp.
  assert (unordered_mergeset_without_selected_parent_iter d ≡ₚ ms) as Hperm.
  { unfold unordered_mergeset_without_selected_parent_iter. rewrite Hb, Hr'. apply greedy_perm. }
  split_and!; [|done|rewrite Hperm; apply Hcand|intros x; rewrite Hperm; apply Hms].
  eapply dag_inv_extend; try done; [exact (proj1 Hw)|]. destruct Hbl as (bl & Hbl & Hnd & _). exists bl. split_and!; [done..|].
  intros x Hx. assert (x ∈ ms) as Hxm.
  { rewrite <-Hperm. unfold unordered_mergeset_without_selected_parent_iter. rewrite Hbl. apply elem_of_app. by left. }
  split; [by apply Hcand|by apply Hms].
Qed.

(** ** The stores together *)

(** The answers of a reachability store. *)
Definition answers (s : MemoryReachabilityStore) (x y : Hash) : bool :=
  match is_dag_ancestor_of s x y with Ok b => b | _ => false end.

Lemma store_reach_ok s D root R : dag_store_ok root R s -> represents s D -> reach_ok s D (answers s).
Proof.
  intros [[T G _ _] F] [Hd _ Hr].
  assert (forall x y, x ∈ dom D -> y ∈ dom D -> exists b, is_dag_ancestor_of s x y = Ok b /\ (b = true <-> dag_rel (mem_map s) x y)) as Hq.
  { intros x y Hx Hy. apply (dag_query_ok s root x y T G F); by rewrite Hd. }
  constructor.
  - intros x y Hx Hy. change (is_dag_ancestor_of s x y = Ok (answers s x y)). unfold answers. by destruct (Hq x y Hx Hy) as (b & -> & _).
  - intros x y Hx Hy. rewrite <-Hr by done. unfold answers. by destruct (Hq x y Hx Hy) as (b & -> & ?).
Qed.

(** The DAG of the genesis alone. *)
Lemma genesis_inv G f k d : G <> ORIGIN -> f G G = true -> dag_inv {[G := []]} {[G := d]} G f k.
Proof.
  intros HG Hf. assert (forall x y, ~ parent_of {[G := []]} x y) as Hno.
  { intros x y (ps & Hl & Hx). apply lookup_singleton_Some in Hl as [_ <-]. by apply elem_of_nil in Hx. }
  assert (forall x, x ∈ dom ({[G := []]} : dag) -> x = G) as Hd by (intros x; rewrite dom_singleton_L; apply elem_of_singleton).
  constructor.
  - by intros x y ?%Hno.
  - intros x y ->%Hd ->%Hd. split; [intros _; apply rtc_refl|done].
  - split; [rewrite dom_singleton_L; by apply elem_of_singleton|]. intros x ->%Hd. apply rtc_refl.
  - by intros ?%Hd.
  - intros x ->%Hd. rewrite lookup_singleton_eq. eauto.
  - by intros x y ?%Hno.
  - by intros b ->%Hd.
Qed.

(** The example: the genesis 1, its children 2 and 3, and a block that merges
    them. *)
Definition example_headers : HeadersStore :=
  <[3 := mkHeader 2 2000 545259519 1]> (<[2 := mkHeader 1 1000 545259519 1]> {[1 := mkHeader 0 0 545259519 0]}).
Definition example_manager (gs : MemoryGhostdagStore) (rel : dag) (s : MemoryReachabilityStore)
    : GhostdagManager MemoryGhostdagStore MemoryReachabilityStore :=
  GhostdagManager_new 1 18 gs rel example_headers s.
Definition example_ghostdag (gm : GhostdagManager MemoryGhostdagStore MemoryReachabilityStore) (n : Hash) (ps : list Hash) : MemoryGhostdagStore :=
  match ghostdag 100 gm ps with
  | Ok d => match memg_insert (ghostdag_store gm) n d with Ok s => s | _ => ghostdag_store gm end
  | _ => ghostdag_store gm
  end.
Definition gstore1 : MemoryGhostdagStore :=
  match memg_insert MemoryGhostdagStore_new 1 genesis_ghostdag_data with Ok s => s | _ => MemoryGhostdagStore_new end.
Definition gstore2 : MemoryGhostdagStore := Eval vm_compute in example_ghostdag (example_manager gstore1 {[1 := []]} store0) 2 [1].
Definition gstore3 : MemoryGhostdagStore := Eval vm_compute in example_ghostdag (example_manager gstore2 dag2 store2) 3 [1].

Lemma dag_sub (D : dag) x : bool_decide (dom D ⊆ {[1; 2; 3]}) = true -> x ∈ dom D -> x = 1 \/ x = 2 \/ x = 3.
Proof. intros Hs%bool_decide_eq_true Hx. apply Hs in Hx. set_solver. Qed.

Definition gdata_small (d : GhostdagData) : Prop := 0 <= blue_work d < 100 /\ 0 <= blue_score d < 100.

Lemma example_manager_ok gs (D : dag) s : bool_decide (dom D ⊆ {[1; 2; 3]}) = true -> memg_ok gs ->
  (forall x d, memg_map gs !! x = Some d -> gdata_small d) -> manager_ok (example_manager gs D s) D 2.
Proof.
  intros HD Hgs Hd. constructor.
  - done.
  - done.
  - intros x Hx. exists 2. destruct (dag_sub D x HD Hx) as [->|[->| ->]]; split; (done || reflexivity).
  - intros x d Hx Hl. destruct (Hd x d Hl) as [? ?]. cbn. lia.
Qed.

Lemma example_store_ok gs :
  bool_decide (dom (blue_work_map gs) = dom (blue_score_map gs)) && bool_decide (dom (selected_parent_map gs) = dom (blue_score_map gs)) &&
  bool_decide (dom (mergeset_blues_map gs) = dom (blue_score_map gs)) && bool_decide (dom (mergeset_reds_map gs) = dom (blue_score_map gs)) &&
  bool_decide (dom (blues_anticone_sizes_map gs) = dom (blue_score_map gs)) &&
  bool_decide (map_Forall (fun _ d => 0 <= blue_work d < 100 /\ 0 <= blue_score d < 100) (memg_map gs)) = true ->
  memg_ok gs /\ forall x d, memg_map gs !! x = Some d -> gdata_small d.
Proof. rewrite !andb_true_iff, !bool_decide_eq_true. intros [[[[[? ?] ?] ?] ?] Hf]. split; [by constructor|]. intros x d. apply Hf. Qed.

Lemma single_parents_ok (D : dag) p : p ∈ dom D -> parents_ok D [p].
Proof.
  intros Hp. constructor; [done| |apply NoDup_singleton|].
  - by intros q ->%single_parent.
  - by intros q r ->%single_parent ->%single_parent.
Qed.

Lemma example2_inv : dag_inv dag2 (memg_map gstore2) 1 (answers store2) 18.
Proof.
  assert (memg_ok gstore1 /\ forall x d, memg_map gstore1 !! x = Some d -> gdata_small d) as [Hg Hs]
    by (apply example_store_ok; vm_compute; reflexivity).
  destruct (ghostdag_extends 100 (example_manager gstore1 {[1 := []]} store0) {[1 := []]} (answers store0) (answers store2) 2 2 [1])
    as (d & Hrun & Hinv & _).
  - by apply example_manager_ok.
  - change (dag_inv {[1 := []]} (memg_map gstore1) 1 (answers store0) 18).
    replace (memg_map gstore1) with ({[1 := genesis_ghostdag_data]} : gmap Hash GhostdagData) by (vm_compute; reflexivity).
    apply genesis_inv; [done|vm_compute; reflexivity].
  - eapply store_reach_ok; [apply store0_ok|apply init_represents].
  - cbn. lia.
  - vm_compute. lia.
  - apply single_parents_ok. in_dom.
  - out_dom.
  - vm_compute. reflexivity.
  - done.
  - eapply (store_reach_ok store2 dag2 1 1); apply store2_ok.
  - vm_compute in Hrun. injection Hrun as <-. exact Hinv.
Qed.

Lemma example3_inv : dag_inv dag3 (memg_map gstore3) 1 (answers store3) 18.
Proof.
  assert (memg_ok gstore2 /\ forall x d, memg_map gstore2 !! x = Some d -> gdata_small d) as [Hg Hs]
    by (apply example_store_ok; vm_compute; reflexivity).
  destruct (ghostdag_extends 100 (example_manager gstore2 dag2 store2) dag2 (answers store2) (answers store3) 2 3 [1])
    as (d & Hrun & Hinv & _).
  - by apply example_manager_ok.
  - apply example2_inv.
  - eapply store_reach_ok; apply store2_ok.
  - cbn. lia.
  - vm_compute. lia.
  - apply single_parents_ok. in_dom.
  - out_dom.
  - vm_compute. reflexivity.
  - done.
  - eapply (store_reach_ok store3 dag3 1 1); apply store3_ok.
  - vm_compute in Hrun. injection Hrun as <-. exact Hinv.
Qed.

Lemma example_manager3_ok : manager_ok (example_manager gstore3 dag3 store3) dag3 2.
Proof. apply example_manager_ok; [done|apply (example_store_ok gstore3); vm_compute; reflexivity..]. Qed.

Lemma example_reach3 : reach_ok store3 dag3 (answers store3).
Proof. eapply store_reach_ok; apply store3_ok. Qed.

Lemma two_parents (p q x : Hash) : x ∈ [p; q] -> x = p \/ x = q.
Proof. rewrite elem_of_cons, list_elem_of_singleton. done. Qed.

Lemma example_unrelated : ~ dag_anc dag3 2 3 /\ ~ dag_anc dag3 3 2.
Proof. destruct (dag3_past 2) as [_ P3], (dag3_past 3) as [P2 _]. rewrite P2, P3. lia. Qed.

Lemma example_parents_ok : parents_ok dag3 [2; 3].
Proof.
  destruct example_unrelated as [H23 H32]. constructor; [done| | |].
  - intros p [->| ->]%two_parents; in_dom.
  - apply (bool_decide_eq_true (NoDup [2; 3])). vm_compute. reflexivity.
  - by intros p q [->| ->]%two_parents [->| ->]%two_parents.
Qed.

Lemma mergeset_correct_witness : exists ms,
  unordered_mergeset_without_selected_parent 100 (example_manager gstore3 dag3 store3) 3 [2; 3] = Ok ms /\
  forall x, x ∈ ms <-> (exists p, p ∈ [2; 3] /\ dag_anc dag3 x p) /\ ~ dag_anc dag3 x 3.
Proof.
  apply (mergeset_correct 100 (example_manager gstore3 dag3 store3) dag3 (answers store3) 3 [2; 3]).
  - exact example_reach3.
  - apply (di_closed _ _ _ _ _ example3_inv).
  - in_dom.
  - apply example_parents_ok.
  - intros p [->| ->]%two_parents; (split; [in_dom|]); [right; apply example_unrelated|by left].
  - done.
  - vm_compute. lia.
Defined.

Lemma ghostdag_refines_reference_witness : exists sp B n ms d,
  ghostdag 100 (example_manager gstore3 dag3 store3) [2; 3] = Ok d /\ selected_parent d = sp /\ sp ∈ [2; 3] /\
  (forall p, p ∈ [2; 3] -> block_work (memg_map gstore3) p <= block_work (memg_map gstore3) sp) /\
  blue_past (memg_map gstore3) 1 sp B n /\
  (forall x, x ∈ ms <-> (exists p, p ∈ [2; 3] /\ dag_anc dag3 x p) /\ ~ dag_anc dag3 x sp) /\
  (forall i j x y, ms !! i = Some x -> ms !! j = Some y -> (i < j)%nat -> ~ dag_anc dag3 y x) /\
  mergeset_blues d = sp :: (greedy (answers store3) 18 ({[sp]} ∪ B) ms).1 /\
  mergeset_reds d = (greedy (answers store3) 18 ({[sp]} ∪ B) ms).2 /\
  k_cluster (answers store3) 18 (list_to_set (mergeset_blues d) ∪ B) /\
  blue_score d = default 0 (blue_score <$> memg_map gstore3 !! sp) + Z.of_nat (length (mergeset_blues d)) /\
  block_work (memg_map gstore3) sp < blue_work d.
Proof.
  assert (0 <= 18 < 65535) as Hk by lia.
  assert (base.size (dom dag3) < 100)%nat as Hf by (vm_compute; lia).
  exact (ghostdag_refines_reference 100 (example_manager gstore3 dag3 store3) dag3 (answers store3) 2 [2; 3]
    example_manager3_ok example3_inv example_reach3 Hk Hf example_parents_ok).
Defined.
